(* ===== verification/_CoqProject ===== *)
-Q . S2P
Prelude.v
JsString.v
JsBytes.v
JsMap.v
JsSort.v
Json.v
Model.v
Codec.v
CodecProps.v
History.v
Validator.v
ValidatorRun.v
Demo.v
ValidatorTables.v
ValidatorSound.v
ValidatorReport.v
ValidatorSpec.v
Redactor.v
SafeName.v
Session.v
SessionSpec.v
SessionEmit.v
HistoryOrder.v
ReadTypes.v
Projector.v
ProjectorSpec.v
ProjectorProps.v
ReadModel.v
ReadModelSpec.v
ReadModelProps.v
Ingest.v
IngestSpec.v
JsNumber.v
JsEncoding.v
HttpRetry.v
JsDate.v
Instants.v
Io.v
FileSink.v
FileSinkSpec.v
FileSinkProps.v
LocalRun.v
Multipart.v
Upload.v
UploadSpec.v
UploadProps.v
PwText.v
PwMapping.v
PwConfig.v
PwReporter.v
PwTrack.v
PwReporterSpec.v
PwRun.v
PwRunProps.v
BlobStore.v
BlobStoreSpec.v
DemoBlob.v
BlobStorePut.v
BlobStoreProps.v
JsonText.v
RunRef.v
Cursor.v
Lifecycle.v
Secrets.v
Dto.v
Staging.v
HttpIngest.v
HttpIngestSpec.v
DemoStaging.v
ApiKeys.v
Archive.v
Pg.v
PgStore.v
PgStoreSpec.v
PgPersistSpec.v
Retention.v
RetentionSpec.v
PgDemo.v
Queries.v
QueriesSpec.v
