(* ===== verification/Prelude.v ===== *)
(** * qe-report: a verification development

    qe-report records what test runners do as runs of protocol events, checks and
    projects them, uploads and archives them, and answers questions about test
    histories. This development models the TypeScript packages under
    src/ts/packages/ in Rocq and proves what makes them correct. Paths below are
    relative to that directory.

    ** The program, and how its parts meet

    - A producer (sdk, playwright) writes a run: sessions of events in
      [events/*.ndjson] and attachments under their digests. [protocol] is the
      event format, [sdk] the session a producer reports through.
    - The [validator] reads a run directory back and reports whether it is a
      valid, complete run, and its verdict.
    - The [read-model] projects valid runs to attempts, executions and test
      histories.
    - The [http-client] uploads a run directory; [http-api] stages what arrives
      and hands it to the run store; [blob-fs] keeps attachments by content;
      [postgres] archives runs.

    ** How code is modelled

    A function that may throw returns [res E A] ([Ok], [Throw]); one that acts on
    the world is a function of it ([io W E A], Io.v). Classes are records with one
    function per method; property assignment is [r <| f := v |>]. Strings are
    lists of UTF-16 units, bytes lists of [byte], numbers [Z] where the code holds
    safe integers and [number] (JsNumber.v) where it checks what it was given;
    [Map]s and objects keep insertion order (JsMap.v), and [sort] is stable
    (JsSort.v). Loops are structural recursion wherever the code consumes a list
    or a text; the few that are not take fuel equal to the length of what they
    consume, and a lemma or the theorem itself says that it is enough.

    The world — file systems, clocks, timers, the network, the parser of multipart
    bodies, SHA-256, Ajv's schema validators — is a parameter: a type class of
    operations that answer whatever they like, and, where a theorem needs it, a
    class of laws that say what an operating system guarantees. Every law class
    has an instance on a small concrete world (the Demo files), on which the
    theorems are applied and the functions run.

    ** Shared files

    Prelude (the error monad, record update, tactics), JsString, JsBytes, JsMap,
    JsSort, JsNumber, JsDate, JsEncoding (base64url, base32, UTF-8), Json (values
    and canonical text), JsonText (strict [JSON.parse] and its round trip), Io
    (effects and their weakest preconditions, and what the parts ask of [node:fs]).

    ** Parts, their files, and what is shown

    - Protocol (protocol/src): Model (with the version), Codec; CodecProps shows that what is
      written reads back, and Json that canonical texts coincide exactly on values
      equal up to property order, a number too large for a double counting as null.
    - Validator (validator/src/validator.ts): Validator ([RunValidator], [feed]),
      ValidatorRun ([finish], the directory validators). History.v is the
      specification: which sequences of events the protocol's lifecycle allows.
      ValidatorTables, ValidatorSound, ValidatorReport and ValidatorSpec show that a
      report is valid exactly when the input reads as such a history that ends well
      and whose attachments are stored, and that the verdict and every counter are the
      history's. Demo.v is a run they are applied to.
    - Session (sdk/src): Session, SafeName, Redactor; SessionSpec shows every use of a
      session to be a run of an abstract session machine, SessionEmit
      what producers may rely on. FileSink, FileSinkSpec and FileSinkProps show that on
      any disk the event file is a segment for each event handed over, as much of its
      line as the disk took, and exactly the lines of the events written on disks
      that write whole and flush.
    - Playwright reporter (playwright/src): PwText, PwMapping, PwConfig,
      PwReporter, PwTrack, PwReporterSpec, PwRun, PwRunProps: whatever
      callbacks come in whatever order, each attempt and step beginning once, the run
      left behind is a valid history at every moment and complete at the end, unless
      the session says it lost something; the validator reports it valid when the
      event schema accepts each of its events.
    - Read model (read-model/src): HistoryOrder, ReadTypes, Projector, ReadModel, Ingest
      with their Spec and Props files: a valid run with an event always projects, its
      projection invents nothing and tells all of an attempt that only its own
      session writes about, orders do not matter, and every run is in the model or named
      by a problem.
    - Uploader (http-client/src): HttpRetry, Instants, LocalRun, Multipart (with the
      transport), Upload, with UploadSpec's abstract delivery that UploadProps shows every upload
      to follow. Each attempt carries the request Node's client is asked for, so what
      leaves with the key, and to where, is part of the model.
    - Blob store (blob-fs/src): BlobStore; BlobStoreSpec states what other writers may do;
      BlobStorePut and BlobStoreProps show that a published blob is
      verified and never replaced, that a removal unlinks only what it has just
      verified, whatever others do meanwhile, and that listings are ordered pages.
    - Service (http-api/src): RunRef (run references and problems) and Cursor (both
      read back, and only where they were issued), Lifecycle (a server asked to stop
      stops), Secrets (no credential left in a message), Dto (public shapes and
      transport limits), Staging (the roots, a request's directory, and the
      cleanup, which removes only abandoned directories as its preview foretells),
      HttpIngest and HttpIngestSpec (what is archived is what was sent, within
      every limit, and nothing is left behind).

    - API keys (postgres/src/api-keys.ts): ApiKeys: a token speaks for the project and
      the scopes of the key it was issued with, exactly while that key is active; a
      listing's pages end and hold every key once; the constraints of the table
      never refuse what the class writes.
    - Archive (postgres/src/archive.ts, query-index.ts): Archive: what is stored of
      a run, in which order, under which fingerprint, and with which blobs and
      index rows.
    - Database (postgres/src/locks.ts): Pg is a session of PostgreSQL as the code uses
      it, the tables and the maintenance lock. Every statement is an exchange with a
      server that may let other sessions commit first, refuse the statement, or lose
      the connection before or after it ran; a transaction sees and commits its own
      writes, with a snapshot under repeatable read. [ServerLaws] says what rows and
      leases this session holds keep others from doing.
    - Run store (postgres/src/store.ts, materialise.ts, index-writer.ts): PgStore;
      PgStoreSpec shows that archiving is one step among the steps of others, or
      none, and that the answer tells which; PgPersistSpec that a run directory is
      archived whole with its blobs durable or not at all, that what is archived
      reads back, and that a load sees one state. Copies settle in any order.
    - Retention (postgres/src/retention.ts): Retention and RetentionSpec: a pass
      deletes only what expired and only what no run needs, a preview changes
      nothing, and both end. The pages of the store are the one loop that no list
      bounds: with more fuel than there are hashes it never runs out. PgDemo is a
      server, a disk and a run directory they are applied to.
    - Stored queries (postgres/src/queries.ts): Queries, with QueriesSpec: a query
      answers from one state of the database its index covers. Pages of a listing
      or a history, read while others archive and delete, repeat nothing and miss
      nothing that was there throughout; and the history of a project at rest is
      the read model's, occurrence by occurrence, on every page size. With more fuel than
      there are rows the reading of pages ends.

    ** Not modelled, and why

    - The routes, authentication hooks and response schemas of http-api (app.ts,
      admin.ts, schemas.ts, openapi.ts, server.ts) are configuration of a web
      framework; what they call is modelled. Of dto.ts a whole run's shape, which
      passes protocol objects through, is not modelled.
    - Of postgres, the migration runner (migrate.ts), which runs the schema's
      statements under checksums; the tables they make are modelled. Statements are
      modelled by what they do to the tables; planning, encoding and limits on
      parameters are not. Of queries.ts the rebuild over every run and the
      comparison of an index are definitions without theorems.
    - Command lines, index files and version files print and re-export. The
      equivalence harness, the Java producers, the release scripts and the
      deployment files are not part of the TypeScript product.
    - [redactText]'s chain of regular expressions is a parameter of the redactor.
    - Numbers written as unusual literals, [Number] of a text and the text of a
      non-integer number are parameters; what a [Date] makes of a text that is not
      an ISO instant is not looked at, because the code compares it with the text.
    - Closing a descriptor is taken not to fail, and a write stream to be opened
      before its first chunk is looked at.
    - Concurrency is modelled where code is written against it: other writers in the
      blob store, events that race in an HTTP attempt and in a shutdown, bytes of a
      body that arrive while a part is written. Node runs each callback to its end,
      so callbacks are sequential. *)

From stdpp Require Export base tactics list numbers strings option sets.
From Stdlib Require Export ZArith Lia.

#[export] Set Default Goal Selector "!".
#[export] Set Warnings "-clear-no-such-hyp,-register-all".

(** ** The error monad of throwing code

    A TypeScript function that may throw [e] or return [a] is a Rocq function
    returning [Throw e] or [Ok a]; sequencing propagates the first throw. *)

Inductive res (E A : Type) : Type :=
| Ok (a : A)
| Throw (e : E).
Arguments Ok {E A} a.
Arguments Throw {E A} e.

Definition res_bind {E A B : Type} (f : A → res E B) (m : res E A) : res E B :=
  match m with Ok a => f a | Throw e => Throw e end.

#[export] Instance res_mret {E} : MRet (res E) := λ A a, Ok a.
#[export] Instance res_mbind {E} : MBind (res E) := λ A B f m, res_bind f m.
#[export] Instance res_fmap {E} : FMap (res E) :=
  λ A B f m, match m with Ok a => Ok (f a) | Throw e => Throw e end.

Definition is_ok {E A : Type} (m : res E A) : bool :=
  match m with Ok _ => true | Throw _ => false end.

(** The result of a computation known not to throw. *)
Definition from_ok {E A : Type} (d : A) (m : res E A) : A :=
  match m with Ok a => a | Throw _ => d end.

(** [throw_if b e]: the guard [if (b) throw e]. *)
Definition throw_if {E : Type} (b : bool) (e : E) : res E unit :=
  if b then Throw e else Ok tt.

(** [Array.prototype.map] with an index, for a callback that may throw. *)
Fixpoint mapMi_from {E A B : Type} (f : nat → A → res E B) (i : nat) (l : list A) : res E (list B) :=
  match l with
  | [] => Ok []
  | x :: l' =>
      match f i x with
      | Throw e => Throw e
      | Ok y => match mapMi_from f (S i) l' with Throw e => Throw e | Ok ys => Ok (y :: ys) end
      end
  end.

Definition mapMi {E A B : Type} (f : nat → A → res E B) (l : list A) : res E (list B) :=
  mapMi_from f 0 l.

(** JavaScript's [a || b] on numbers, as comparators use it. *)
Definition js_or (a b : Z) : Z := if (a =? 0)%Z then b else a.

(** ** Automation *)

(** The hint database of the development: closed facts about well-formed data. *)
Create HintDb qe.
Create Rewrite HintDb qe.

(** Inversion of monadic results: every bind that ended in [Ok] had an [Ok] head. *)
Ltac ok_step :=
  match goal with
  | H : Ok _ = Ok _ |- _ => injection H as H
  | H : Throw _ = Ok _ |- _ => discriminate H
  | H : Ok _ = Throw _ |- _ => discriminate H
  | H : Throw _ = Throw _ |- _ => injection H as H
  | H : mbind _ ?m = _ |- _ => unfold mbind, res_mbind, res_bind in H
  | H : throw_if ?b _ = Ok _ |- _ => unfold throw_if in H
  | H : match ?m with Ok _ => _ | Throw _ => _ end = Ok _ |- _ =>
      let E := fresh "Hm" in destruct m eqn:E; [|discriminate H]
  | H : (if ?b then Throw _ else _) = Ok _ |- _ =>
      let E := fresh "Hg" in destruct b eqn:E; [discriminate H|]
  | H : (if ?b then _ else Throw _) = Ok _ |- _ =>
      let E := fresh "Hg" in destruct b eqn:E; [|discriminate H]
  end.
Ltac inv_ok := repeat (ok_step; simplify_eq/=).

(** Case analysis on the scrutinee of the first match or if of the goal. *)
Ltac case_goal :=
  match goal with
  | |- context [match ?x with _ => _ end] => let E := fresh "E" in destruct x eqn:E
  end.

(** ** Generic lemmas *)

Lemma from_ok_spec {E A} (d : A) (m : res E A) : is_ok m = true → m = Ok (from_ok d m).
Proof. by destruct m. Qed.

Lemma bind_Ok_inv {E A B} (m : res E A) (f : A → res E B) (b : B) :
  (m ≫= f) = Ok b → ∃ a, m = Ok a ∧ f a = Ok b.
Proof. destruct m; simpl; [eauto | discriminate]. Qed.

Lemma mapMi_from_length {E A B} (f : nat → A → res E B) i l l' :
  mapMi_from f i l = Ok l' → length l' = length l.
Proof.
  revert i l'. induction l as [|x l IH]; intros i l' H; simpl in H; inv_ok; [done|].
  f_equal. eauto.
Qed.

Lemma mapMi_from_Forall2 {E A B} (f : nat → A → res E B) (P : A → B → Prop) i l l' :
  (∀ i x y, f i x = Ok y → P x y) → mapMi_from f i l = Ok l' → Forall2 P l l'.
Proof.
  intros HP. revert i l'. induction l as [|x l IH]; intros i l' H; simpl in H; inv_ok;
    constructor; eauto.
Qed.

Lemma mapMi_from_Forall {E A B} (f : nat → A → res E B) (P : B → Prop) i l l' :
  (∀ i x y, f i x = Ok y → P y) → mapMi_from f i l = Ok l' → Forall P l'.
Proof.
  intros HP. revert i l'. induction l as [|x l IH]; intros i l' H; simpl in H; inv_ok;
    constructor; eauto.
Qed.

(** A total round trip of the callback is a total round trip of the map. *)
Lemma mapMi_from_roundtrip {E A B C} (f : nat → B → res E C) (g : A → B) (h : A → C) i l :
  Forall (λ x, ∀ i, f i (g x) = Ok (h x)) l → mapMi_from f i (g <$> l) = Ok (h <$> l).
Proof.
  intros H. revert i. induction H as [|x l Hx Hl IH]; intros i; csimpl; [done|].
  by rewrite Hx, IH.
Qed.

Lemma js_or_0_r a : js_or a 0 = a.
Proof. unfold js_or. destruct (Z.eqb_spec a 0); lia. Qed.

(** ** Record update

    [r <| f := v |>] is [r] with field [f] replaced, the model of a property
    assignment; [r <| f ::= g |>] applies [g] to it. A record type is made
    updatable by one [Fields] instance listing its constructor on its own
    projections. *)

Class Fields (R : Type) : Type := rebuild : R → R.
Class Update {R T : Type} (proj : R → T) : Type := mk_update { update_field : (T → T) → R → R }.

Ltac solve_update :=
  match goal with
  | |- @Update ?R ?T ?proj =>
      let whole := eval cbv delta [rebuild] in (@rebuild R _) in
      let whole := eval hnf in whole in
      lazymatch whole with context [proj] => idtac end;
      match eval pattern proj in whole with
      | ?ctx _ => exact (mk_update R T proj (λ g : T → T, ctx (λ r : R, g (proj r))))
      end
  end.
#[export] Hint Extern 1 (Update _) => solve_update : typeclass_instances.
Arguments mk_update : clear implicits.
Arguments update_field {R T} proj {_} g r /.

Notation "r <| f := v |>" := (update_field f (λ _, v) r)
  (at level 1, f at level 0, v at level 200, left associativity).
Notation "r <| f ::= g |>" := (update_field f g r)
  (at level 1, f at level 0, g at level 200, left associativity).
