(* ===== verification/JsString.v ===== *)
(** * JavaScript strings

    A string is its sequence of UTF-16 code units. This file holds the order
    [<] compares strings by, the length of the UTF-8 form [Buffer.byteLength]
    reports (an unpaired surrogate is written as U+FFFD), decimal text, and the
    text [JSON.stringify] gives a string. *)

From S2P Require Import Prelude.

Abbreviation str := (list N).

(** An ASCII literal of the source as code units. *)
Definition js (s : string) : str := Ascii.N_of_ascii <$> String.list_ascii_of_string s.
Arguments js s%_string : simpl never.

Definition str_eqb (a b : str) : bool := bool_decide (a = b).
Lemma str_eqb_eq a b : str_eqb a b = true ↔ a = b.
Proof. unfold str_eqb. by rewrite bool_decide_eq_true. Qed.
Lemma str_eqb_neq a b : str_eqb a b = false ↔ a ≠ b.
Proof. unfold str_eqb. by rewrite bool_decide_eq_false. Qed.
Lemma str_eqb_refl a : str_eqb a a = true.
Proof. by apply str_eqb_eq. Qed.

(** [a < b] on strings: lexicographic by code unit, a proper prefix first. *)
Fixpoint str_ltb (a b : str) : bool :=
  match a, b with
  | [], [] => false
  | [], _ :: _ => true
  | _ :: _, [] => false
  | x :: a', y :: b' => if (x =? y)%N then str_ltb a' b' else (x <? y)%N
  end.

(** The source's [compare]: [a < b ? -1 : a > b ? 1 : 0]. *)
Definition compare (a b : str) : Z :=
  if str_ltb a b then -1 else if str_ltb b a then 1 else 0.

(** ** UTF-8 length *)

Definition is_high_surrogate (u : N) : bool := (0xD800 <=? u)%N && (u <=? 0xDBFF)%N.
Definition is_low_surrogate (u : N) : bool := (0xDC00 <=? u)%N && (u <=? 0xDFFF)%N.
Definition is_surrogate (u : N) : bool := is_high_surrogate u || is_low_surrogate u.

Definition utf8_unit_length (u : N) : Z :=
  if (u <? 0x80)%N then 1 else if (u <? 0x800)%N then 2 else 3.

(** [Buffer.byteLength(s, 'utf8')]: a surrogate pair takes four bytes, any other
    unit (a lone surrogate becomes U+FFFD) what its code point takes. *)
Fixpoint utf8_length (s : str) : Z :=
  match s with
  | [] => 0
  | u :: s' =>
      match s' with
      | v :: s'' =>
          if is_high_surrogate u && is_low_surrogate v then 4 + utf8_length s''
          else utf8_unit_length u + utf8_length s'
      | [] => utf8_unit_length u
      end
  end.

(** ** Decimal text *)

Fixpoint digits_fuel (fuel : nat) (n : Z) (acc : str) : str :=
  match fuel with
  | O => acc
  | S fuel' =>
      let acc' := Z.to_N (48 + n `mod` 10) :: acc in
      if (n <? 10)%Z then acc' else digits_fuel fuel' (n `div` 10) acc'
  end.

(** [String(n)] of a non-negative integer; [Z.log2 n + 1] digits always suffice. *)
Definition dec_nonneg (n : Z) : str := digits_fuel (S (Z.to_nat (Z.log2 n))) n [].

(** [String(n)] of a safe integer. *)
Definition dec (n : Z) : str :=
  if (n <? 0)%Z then 45%N :: dec_nonneg (- n) else dec_nonneg n.

(** ** Character classes of the source's regular expressions *)

Definition in_range (lo hi u : N) : bool := (lo <=? u)%N && (u <=? hi)%N.
Definition is_digit (u : N) : bool := in_range 48 57 u.
Definition is_upper (u : N) : bool := in_range 65 90 u.
Definition is_lower (u : N) : bool := in_range 97 122 u.
Definition is_alnum (u : N) : bool := is_digit u || is_upper u || is_lower u.

(** The white space [String.prototype.trim] removes (WhiteSpace and LineTerminator). *)
Definition is_js_space (u : N) : bool :=
  in_range 9 13 u || (u =? 32)%N || (u =? 0xA0)%N || (u =? 0x1680)%N || in_range 0x2000 0x200A u
  || (u =? 0x2028)%N || (u =? 0x2029)%N || (u =? 0x202F)%N || (u =? 0x205F)%N || (u =? 0x3000)%N
  || (u =? 0xFEFF)%N.

(** [s.trim() === '']. *)
Definition is_blank (s : str) : bool := forallb is_js_space s.

(** ** JSON string text *)

Definition hex_digit (n : N) : N := if (n <? 10)%N then 48 + n else 87 + n.

(** [\uXXXX] with lower-case digits, as [JSON.stringify] writes it. *)
Definition unicode_escape (u : N) : str :=
  [92; 117; hex_digit (u / 4096); hex_digit ((u / 256) `mod` 16); hex_digit ((u / 16) `mod` 16);
   hex_digit (u `mod` 16)]%N.

Definition quote_unit (u : N) : str :=
  if (u =? 8)%N then [92; 98]%N
  else if (u =? 9)%N then [92; 116]%N
  else if (u =? 10)%N then [92; 110]%N
  else if (u =? 12)%N then [92; 102]%N
  else if (u =? 13)%N then [92; 114]%N
  else if (u =? 34)%N then [92; 34]%N
  else if (u =? 92)%N then [92; 92]%N
  else if (u <? 32)%N then unicode_escape u
  else [u].

(** The body of a JSON string: a surrogate without its partner is escaped. *)
Fixpoint quote_body (s : str) : str :=
  match s with
  | [] => []
  | u :: s' =>
      match s' with
      | v :: s'' =>
          if is_high_surrogate u && is_low_surrogate v then u :: v :: quote_body s''
          else (if is_surrogate u then unicode_escape u else quote_unit u) ++ quote_body s'
      | [] => if is_surrogate u then unicode_escape u else quote_unit u
      end
  end.

(** [JSON.stringify(s)] of a string. *)
Definition json_quote (s : str) : str := 34%N :: quote_body s ++ [34%N].
Arguments json_quote : simpl never.

(** ** Lemmas: decimal text *)

Definition undigits_from (a : Z) (s : str) : Z :=
  foldl (λ acc u, acc * 10 + (Z.of_N u - 48))%Z a s.

(** The value a decimal text denotes, sign included. *)
Definition undec (s : str) : Z :=
  match s with u :: s' => if (u =? 45)%N then - undigits_from 0 s' else undigits_from 0 s | [] => 0 end.

Local Open Scope Z_scope.

Lemma digits_fuel_acc fuel n acc : digits_fuel fuel n acc = digits_fuel fuel n [] ++ acc.
Proof.
  revert n acc. induction fuel as [|fuel IH]; intros n acc; [done|]. simpl.
  case_match; [done|]. rewrite IH, (IH _ [_]). by rewrite <- app_assoc.
Qed.

Lemma digits_fuel_digits fuel n acc :
  0 <= n → forallb is_digit acc = true → forallb is_digit (digits_fuel fuel n acc) = true.
Proof.
  revert n acc. induction fuel as [|fuel IH]; intros n acc Hn Ha; [done|]. cbn [digits_fuel].
  pose proof (Z.mod_pos_bound n 10).
  assert (is_digit (Z.to_N (48 + n mod 10)) = true) as Hd.
  { unfold is_digit, in_range. rewrite andb_true_iff, !N.leb_le. lia. }
  assert (forallb is_digit (Z.to_N (48 + n mod 10) :: acc) = true) by (simpl; by rewrite Hd, Ha).
  case_match; [done|]. apply IH; [|done]. apply Z.div_pos; lia.
Qed.

Lemma undigits_digits fuel n a :
  0 <= n < 10 ^ Z.of_nat fuel →
  ∃ k, 0 <= k ∧ undigits_from a (digits_fuel fuel n []) = a * 10 ^ k + n.
Proof.
  revert n a. induction fuel as [|fuel IH]; intros n a Hn.
  { simpl in *. exists 0. lia. }
  cbn [digits_fuel]. pose proof (Z.mod_pos_bound n 10 ltac:(lia)).
  pose proof (Z.div_mod n 10 ltac:(lia)).
  destruct (Z.ltb_spec n 10) as [Hlt|Hge].
  - exists 1. split; [lia|]. unfold undigits_from; simpl. rewrite Z.mod_small by lia.
    rewrite Z2N.id by lia. lia.
  - rewrite digits_fuel_acc. unfold undigits_from. rewrite foldl_app. fold (undigits_from a).
    destruct (IH (n / 10) a) as (k & Hk & E).
    { split; [apply Z.div_pos; lia|]. apply Z.div_lt_upper_bound; [lia|].
      rewrite <- Z.pow_succ_r, <- Nat2Z.inj_succ by lia. lia. }
    exists (k + 1). split; [lia|]. unfold undigits_from in E. simpl. rewrite E.
    rewrite Z2N.id, Z.pow_add_r by lia. lia.
Qed.

Lemma dec_nonneg_fuel n : 0 <= n → n < 10 ^ Z.of_nat (S (Z.to_nat (Z.log2 n))).
Proof.
  intros Hn. rewrite Nat2Z.inj_succ, Z2Nat.id by apply Z.log2_nonneg.
  destruct (decide (n = 0)) as [->|]; [done|].
  pose proof (Z.log2_spec n ltac:(lia)).
  eapply Z.lt_le_trans; [apply H|]. apply Z.pow_le_mono_l. lia.
Qed.

Lemma undigits_dec_nonneg n : 0 <= n → undigits_from 0 (dec_nonneg n) = n.
Proof.
  intros Hn. pose proof (dec_nonneg_fuel n Hn).
  destruct (undigits_digits (S (Z.to_nat (Z.log2 n))) n 0) as (k & ? & E); [lia|].
  unfold dec_nonneg. rewrite E. lia.
Qed.

Lemma dec_nonneg_digits n : 0 <= n → forallb is_digit (dec_nonneg n) = true.
Proof. intros. by apply digits_fuel_digits. Qed.

Lemma dec_nonneg_cons n : ∃ d s, dec_nonneg n = d :: s.
Proof.
  unfold dec_nonneg. cbn [digits_fuel]. case_match; [eauto|].
  rewrite digits_fuel_acc.
  destruct (digits_fuel (Z.to_nat (Z.log2 n)) (n / 10) []); simpl; eauto.
Qed.

Lemma undec_dec n : undec (dec n) = n.
Proof.
  unfold dec, undec. destruct (Z.ltb_spec n 0) as [Hn|Hn].
  - simpl. rewrite undigits_dec_nonneg; lia.
  - destruct (dec_nonneg_cons n) as (d & s & E).
    pose proof (dec_nonneg_digits n Hn) as Hd. pose proof (undigits_dec_nonneg n Hn) as Hu.
    rewrite E in *. simpl in Hd. apply andb_true_iff in Hd as [Hd _].
    by destruct (N.eqb_spec d 45) as [->|].
Qed.

(** [String] is injective on integers. *)
Lemma dec_inj n m : dec n = dec m → n = m.
Proof. intros H. by rewrite <- (undec_dec n), H, undec_dec. Qed.

(** ** Lemmas: JSON string text is unambiguous *)

Definition unhex (u : N) : N := if (u <? 58)%N then u - 48 else u - 87.

(** The reader of the text [json_quote] writes: what follows the opening quote. *)
Fixpoint unquote (t : str) : option (str * str) :=
  match t with
  | [] => None
  | u :: t1 =>
      if (u =? 34)%N then Some ([], t1)
      else if (u =? 92)%N then
        match t1 with
        | e :: t2 =>
            if (e =? 117)%N then
              match t2 with
              | a :: b :: c :: d :: t3 =>
                  prod_map (cons (unhex a * 4096 + unhex b * 256 + unhex c * 16 + unhex d)%N) id
                    <$> unquote t3
              | _ => None
              end
            else
              let unit := if (e =? 98)%N then 8%N else if (e =? 116)%N then 9%N
                          else if (e =? 110)%N then 10%N else if (e =? 102)%N then 12%N
                          else if (e =? 114)%N then 13%N else e in
              prod_map (cons unit) id <$> unquote t2
        | [] => None
        end
      else prod_map (cons u) id <$> unquote t1
  end.

Lemma unhex_hex n : (n < 16)%N → unhex (hex_digit n) = n.
Proof.
  intros. unfold hex_digit, unhex. destruct (N.ltb_spec n 10).
  - destruct (N.ltb_spec (48 + n) 58); lia.
  - destruct (N.ltb_spec (87 + n) 58); lia.
Qed.

Lemma unhex_escape u :
  (u < 65536)%N →
  (unhex (hex_digit (u / 4096)) * 4096 + unhex (hex_digit ((u / 256) `mod` 16)) * 256
   + unhex (hex_digit ((u / 16) `mod` 16)) * 16 + unhex (hex_digit (u `mod` 16)))%N = u.
Proof.
  intros Hu. rewrite !unhex_hex by (apply N.mod_lt || apply N.Div0.div_lt_upper_bound; lia).
  change 4096%N with (16 * 16 * 16)%N at 1. change 256%N with (16 * 16)%N at 1.
  rewrite <- !N.Div0.div_div.
  pose proof (N.div_mod u 16 ltac:(done)) as E1. pose proof (N.div_mod (u / 16) 16 ltac:(done)) as E2.
  pose proof (N.div_mod (u / 16 / 16) 16 ltac:(done)) as E3. revert E1 E2 E3. clear Hu.
  generalize ((u / 16 / 16) `mod` 16)%N ((u / 16) `mod` 16)%N (u `mod` 16)%N. intros m2 m1 m0.
  generalize (u / 16 / 16 / 16)%N. intros q3. generalize (u / 16 / 16)%N. intros q2.
  generalize (u / 16)%N. intros q1. lia.
Qed.

Lemma unquote_raw u t :
  u ≠ 34%N → u ≠ 92%N → unquote (u :: t) = prod_map (cons u) id <$> unquote t.
Proof. intros ??. simpl. by rewrite !(proj2 (N.eqb_neq _ _)). Qed.

Lemma unquote_escape u t :
  (u < 65536)%N →
  unquote (unicode_escape u ++ t) = prod_map (cons u) id <$> unquote t.
Proof. intros Hu. unfold unicode_escape. cbn -[hex_digit unhex]. by rewrite unhex_escape. Qed.

Lemma unquote_unit u t :
  (u < 65536)%N → unquote (quote_unit u ++ t) = prod_map (cons u) id <$> unquote t.
Proof.
  intros Hu. unfold quote_unit.
  repeat match goal with
  | |- context [if (u =? ?n)%N then _ else _] => destruct (N.eqb_spec u n); [by subst|]
  end.
  destruct (N.ltb_spec u 32); [by apply unquote_escape|]. by apply unquote_raw.
Qed.

Lemma surrogate_not_special u : is_surrogate u = true → u ≠ 34%N ∧ u ≠ 92%N.
Proof.
  unfold is_surrogate, is_high_surrogate, is_low_surrogate.
  rewrite orb_true_iff, !andb_true_iff, !N.leb_le. lia.
Qed.

Lemma quote_body_cons2 u v s :
  quote_body (u :: v :: s) =
    if is_high_surrogate u && is_low_surrogate v then u :: v :: quote_body s
    else (if is_surrogate u then unicode_escape u else quote_unit u) ++ quote_body (v :: s).
Proof. done. Qed.

Lemma unquote_quote_body s r :
  Forall (λ u, (u < 65536)%N) s → unquote (quote_body s ++ 34%N :: r) = Some (s, r).
Proof.
  intros Hs. assert (∃ n, length s ≤ n)%nat as [n Hn] by eauto. revert s Hs Hn.
  induction n as [|n IH]; intros [|u s] Hs Hn; simpl in Hn; try lia; try done.
  apply Forall_cons in Hs as [Hu Hs].
  assert (∀ t, unquote ((if is_surrogate u then unicode_escape u else quote_unit u) ++ t)
               = prod_map (cons u) id <$> unquote t) as Hone.
  { intros t. case_match; [by apply unquote_escape | by apply unquote_unit]. }
  destruct s as [|v s]; [by cbn [quote_body]; rewrite Hone|].
  rewrite quote_body_cons2. destruct (is_high_surrogate u && is_low_surrogate v) eqn:Ep.
  - apply andb_true_iff in Ep as [Eu Ev]. apply Forall_cons in Hs as [Hv Hs].
    destruct (surrogate_not_special u) as [? ?]; [unfold is_surrogate; by rewrite Eu|].
    destruct (surrogate_not_special v) as [? ?]; [unfold is_surrogate; by rewrite Ev, orb_true_r|].
    rewrite <- !app_comm_cons, !unquote_raw by done. by rewrite IH by (done || simpl in Hn; lia).
  - rewrite <- app_assoc, Hone, IH by (done || simpl in *; lia). done.
Qed.

(** Two quoted strings with anything after them split in one way only. *)
Lemma json_quote_inj s1 s2 r1 r2 :
  Forall (λ u, (u < 65536)%N) s1 → Forall (λ u, (u < 65536)%N) s2 →
  json_quote s1 ++ r1 = json_quote s2 ++ r2 → s1 = s2 ∧ r1 = r2.
Proof.
  intros H1 H2. unfold json_quote. rewrite <- !app_comm_cons, <- !app_assoc. intros [= E].
  apply (f_equal unquote) in E. simpl in E. rewrite !unquote_quote_body in E by done. by simplify_eq.
Qed.
