(* ===== verification/JsBytes.v ===== *)
(** * Bytes

    The UTF-8 form of a string, as [Buffer.from(s, 'utf8')] writes it: a pair of
    surrogates is one code point, a lone one is U+FFFD. Its length is the
    [Buffer.byteLength] the session and the codec count. *)

From Stdlib Require Import Strings.Byte.
From S2P Require Import Prelude JsString.

Local Open Scope N_scope.

Abbreviation bytes := (list byte).
#[export] Instance byte_dec : EqDecision byte := Byte.byte_eq_dec.

Definition to_byte (n : N) : byte := default x00 (Byte.of_N n).

Definition utf8_point (p : N) : bytes :=
  if p <? 0x80 then [to_byte p]
  else if p <? 0x800 then [to_byte (0xC0 + p / 64); to_byte (0x80 + p mod 64)]
  else if p <? 0x10000 then [to_byte (0xE0 + p / 4096); to_byte (0x80 + p / 64 mod 64); to_byte (0x80 + p mod 64)]
  else [to_byte (0xF0 + p / 262144); to_byte (0x80 + p / 4096 mod 64); to_byte (0x80 + p / 64 mod 64);
        to_byte (0x80 + p mod 64)].

Definition replacement : N := 0xFFFD.
Definition pair_point (u v : N) : N := 0x10000 + (u - 0xD800) * 1024 + (v - 0xDC00).

Fixpoint utf8_encode (s : str) : bytes :=
  match s with
  | [] => []
  | u :: s' =>
      match s' with
      | v :: s'' =>
          if is_high_surrogate u && is_low_surrogate v then utf8_point (pair_point u v) ++ utf8_encode s''
          else utf8_point (if is_surrogate u then replacement else u) ++ utf8_encode s'
      | [] => utf8_point (if is_surrogate u then replacement else u)
      end
  end.

(** The bytes of an ASCII text. *)
Definition ascii_bytes (s : string) : bytes := utf8_encode (js s).

Lemma utf8_unit_bytes u :
  u < 65536 → Z.of_nat (length (utf8_point (if is_surrogate u then replacement else u))) = utf8_unit_length u.
Proof.
  intros Hu. unfold utf8_point, utf8_unit_length.
  destruct (is_surrogate u) eqn:Es.
  - unfold is_surrogate, is_high_surrogate, is_low_surrogate in Es.
    rewrite orb_true_iff, !andb_true_iff, !N.leb_le in Es. change (replacement <? 128) with false.
    change (replacement <? 2048) with false. change (replacement <? 65536) with true.
    rewrite (proj2 (N.ltb_ge u 0x80)), (proj2 (N.ltb_ge u 0x800)) by lia. done.
  - destruct (u <? 0x80); [done|]. destruct (u <? 0x800); [done|].
    by rewrite (proj2 (N.ltb_lt u 0x10000)).
Qed.

Lemma utf8_encode_length s :
  Forall (λ u, u < 65536) s → Z.of_nat (length (utf8_encode s)) = utf8_length s.
Proof.
  intros Hs. remember (length s) as n eqn:Hn. revert s Hs Hn.
  induction n as [n IH] using (well_founded_induction lt_wf). intros s Hs ->.
  destruct s as [|u [|v s]]; [done|cbn [utf8_encode utf8_length]; apply utf8_unit_bytes; by inversion Hs|].
  cbn [utf8_encode utf8_length]. inversion_clear Hs as [|? ? Hu Hs']. inversion_clear Hs' as [|? ? Hv Hs''].
  destruct (is_high_surrogate u && is_low_surrogate v) eqn:E.
  - rewrite length_app, Nat2Z.inj_add, (IH (length s)) by (simpl; done || lia). f_equal.
    unfold utf8_point. assert (0x10000 <= pair_point u v) as Hp by (unfold pair_point; lia).
    rewrite !(proj2 (N.ltb_ge _ _)) by lia. done.
  - rewrite length_app, Nat2Z.inj_add, utf8_unit_bytes by done. f_equal.
    apply (IH (length (v :: s)) ltac:(simpl; lia) (v :: s)); [by constructor|done].
Qed.

Lemma utf8_point_cons p : ∃ b bs, utf8_point p = b :: bs.
Proof. unfold utf8_point. destruct (p <? 0x80); [eauto|]. destruct (p <? 0x800); [eauto|]. destruct (p <? 0x10000); eauto. Qed.

(** A text that is not empty has bytes. *)
Lemma utf8_encode_pos u s : (0 < length (utf8_encode (u :: s)))%nat.
Proof.
  destruct s as [|v s]; cbn [utf8_encode].
  - destruct (utf8_point_cons (if is_surrogate u then replacement else u)) as (b & bs & ->). simpl. lia.
  - destruct (_ && _); rewrite length_app.
    + destruct (utf8_point_cons (pair_point u v)) as (b & bs & ->). simpl. lia.
    + destruct (utf8_point_cons (if is_surrogate u then replacement else u)) as (b & bs & ->). simpl. lia.
Qed.
