(* ===== verification/JsMap.v ===== *)
(** * Insertion-ordered maps

    JavaScript's [Map] (and an object used as one): [set] on a present key
    keeps the key's position, a new key goes last, and iteration follows
    insertion order. An association list with that discipline; [Set] is the
    same with a membership list. *)

From S2P Require Import Prelude.

Abbreviation jsmap K V := (list (K * V)).

Section js_map.
Context {K : Type} `{EqDecision K} {V : Type}.

(** [map.get(k)] *)
Fixpoint mget (m : jsmap K V) (k : K) : option V :=
  match m with
  | [] => None
  | (k', v) :: m' => if decide (k = k') then Some v else mget m' k
  end.

(** [map.has(k)] *)
Definition mhas (m : jsmap K V) (k : K) : bool :=
  match mget m k with Some _ => true | None => false end.

(** [map.set(k, v)] *)
Fixpoint mset (m : jsmap K V) (k : K) (v : V) : jsmap K V :=
  match m with
  | [] => [(k, v)]
  | (k', v') :: m' => if decide (k = k') then (k', v) :: m' else (k', v') :: mset m' k v
  end.

(** Mutation of the object held under a present key. *)
Definition mupd (m : jsmap K V) (k : K) (f : V → V) : jsmap K V :=
  match mget m k with Some v => mset m k (f v) | None => m end.

Definition mkeys (m : jsmap K V) : list K := m.*1.
Definition mvalues (m : jsmap K V) : list V := m.*2.

End js_map.

(** [set.add(x)] on an insertion-ordered set. *)
Definition sadd {A : Type} `{EqDecision A} (s : list A) (x : A) : list A :=
  if decide (x ∈ s) then s else s ++ [x].

(** [new Set(l)]: the distinct elements by first occurrence. *)
Definition sfrom {A : Type} `{EqDecision A} (l : list A) : list A := foldl sadd [] l.

Section lemmas.
Context {K : Type} `{EqDecision K} {V : Type}.
Implicit Types m : jsmap K V.

Lemma mget_mset_eq m k v : mget (mset m k v) k = Some v.
Proof.
  induction m as [|[k' v'] m IH]; simpl; [by rewrite decide_True|].
  case_decide; simpl; [by rewrite decide_True | by rewrite decide_False].
Qed.

Lemma mget_mset_ne m k k' v : k ≠ k' → mget (mset m k v) k' = mget m k'.
Proof.
  intros Hne. induction m as [|[k1 v1] m IH]; simpl; [by rewrite decide_False|].
  case_decide; subst; simpl.
  - by rewrite !(decide_False (P := k' = k1)).
  - by rewrite IH.
Qed.

Lemma mget_mset m k k' v :
  mget (mset m k v) k' = if decide (k = k') then Some v else mget m k'.
Proof.
  case_decide; [subst; apply mget_mset_eq | by apply mget_mset_ne].
Qed.

Lemma mget_elem m k v : mget m k = Some v → (k, v) ∈ m.
Proof.
  induction m as [|[k' v'] m IH]; simpl; [done|].
  case_decide; intros; simplify_eq; set_solver.
Qed.

Lemma mget_None m k : mget m k = None ↔ k ∉ mkeys m.
Proof.
  unfold mkeys. induction m as [|[k' v'] m IH]; simpl; [by split; [intros _ ?%elem_of_nil|]|].
  rewrite not_elem_of_cons. case_decide as Hk; [split; [done|by intros []]|].
  rewrite IH. split; [auto | by intros []].
Qed.

Lemma mget_is_Some m k : is_Some (mget m k) ↔ k ∈ mkeys m.
Proof.
  destruct (mget m k) eqn:E.
  - split; [intros _ | eauto]. apply mget_elem in E. unfold mkeys.
    apply list_elem_of_fmap. by eexists (_, _).
  - apply mget_None in E. split; [intros [? ?]; done | done].
Qed.

Lemma elem_mget m k v : NoDup (mkeys m) → (k, v) ∈ m → mget m k = Some v.
Proof.
  induction m as [|[k' v'] m IH]; unfold mkeys in *; csimpl; [set_solver|].
  intros [Hni Hnd]%NoDup_cons [[= -> ->]|Hin]%elem_of_cons; [by rewrite decide_True|].
  rewrite decide_False; [auto|]. intros ->. apply Hni, list_elem_of_fmap. by eexists (_, _).
Qed.

Lemma mset_new m k v : mget m k = None → mset m k v = m ++ [(k, v)].
Proof.
  induction m as [|[k' v'] m IH]; simpl; [done|]. case_decide; [done|].
  intros. by rewrite IH.
Qed.

Lemma mkeys_mset m k v :
  mkeys (mset m k v) = if mhas m k then mkeys m else mkeys m ++ [k].
Proof.
  unfold mhas, mkeys. induction m as [|[k' v'] m IH]; [done|]. simpl.
  case_decide; csimpl; [done|]. rewrite IH. by destruct (mget m k).
Qed.

Lemma mset_NoDup m k v : NoDup (mkeys m) → NoDup (mkeys (mset m k v)).
Proof.
  intros H. rewrite mkeys_mset. unfold mhas. destruct (mget m k) eqn:E; [done|].
  apply mget_None in E. apply NoDup_app. split_and!; [done|set_solver|apply NoDup_singleton].
Qed.

Lemma mset_elem m k v k' v' :
  NoDup (mkeys m) → (k', v') ∈ mset m k v → (k' = k ∧ v' = v) ∨ (k' ≠ k ∧ (k', v') ∈ m).
Proof.
  intros Hnd Hin. apply elem_mget in Hin; [|by apply mset_NoDup].
  rewrite mget_mset in Hin. case_decide; simplify_eq; [by left|].
  right. split; [done|]. by apply mget_elem.
Qed.

Lemma mset_length m k v :
  length (mset m k v) = if mhas m k then length m else S (length m).
Proof.
  unfold mhas. induction m as [|[k' v'] m IH]; simpl; [done|].
  case_decide; simpl; [done|]. rewrite IH. by destruct (mget m k).
Qed.

Lemma mset_Forall (P : K → V → Prop) m k v :
  (∀ k' v', mget m k' = Some v' → P k' v') → P k v →
  ∀ k' v', mget (mset m k v) k' = Some v' → P k' v'.
Proof. intros Hm Hkv k' v'. rewrite mget_mset. case_decide; naive_solver. Qed.

Lemma mget_mupd m k f k' :
  mget (mupd m k f) k' = if decide (k = k') then f <$> mget m k' else mget m k'.
Proof.
  unfold mupd. destruct (mget m k) eqn:E.
  - rewrite mget_mset. case_decide; [|done]. subst. by rewrite E.
  - case_decide; [|done]. subst. by rewrite E.
Qed.

Lemma mupd_NoDup m k f : NoDup (mkeys m) → NoDup (mkeys (mupd m k f)).
Proof. unfold mupd. destruct (mget m k); [apply mset_NoDup|done]. Qed.

(** With distinct keys the values of a map are what its keys give. *)
Lemma elem_of_mvalues m v : NoDup (mkeys m) → v ∈ mvalues m ↔ ∃ k, mget m k = Some v.
Proof.
  intros Hnd. unfold mvalues. rewrite list_elem_of_fmap. split.
  - intros ([k v'] & -> & Hin). exists k. by apply elem_mget.
  - intros (k & Hk). exists (k, v). split; [done|]. by apply mget_elem.
Qed.

Lemma mget_Some_mhas m k v : mget m k = Some v → mhas m k = true.
Proof. unfold mhas. by intros ->. Qed.

End lemmas.

Lemma elem_of_sadd {A} `{EqDecision A} (s : list A) x y : y ∈ sadd s x ↔ y = x ∨ y ∈ s.
Proof. unfold sadd. case_decide; set_solver. Qed.

Lemma sadd_NoDup {A} `{EqDecision A} (s : list A) x : NoDup s → NoDup (sadd s x).
Proof.
  intros H. unfold sadd. case_decide; [done|].
  apply NoDup_app. split_and!; [done|set_solver|apply NoDup_singleton].
Qed.

Lemma elem_of_sfrom_acc {A} `{EqDecision A} (l s : list A) y :
  y ∈ foldl sadd s l ↔ y ∈ s ∨ y ∈ l.
Proof.
  revert s. induction l as [|x l IH]; intros s; simpl; [set_solver|].
  rewrite IH, elem_of_sadd. set_solver.
Qed.

Lemma elem_of_sfrom {A} `{EqDecision A} (l : list A) y : y ∈ sfrom l ↔ y ∈ l.
Proof. unfold sfrom. rewrite elem_of_sfrom_acc. set_solver. Qed.

Lemma sfrom_NoDup {A} `{EqDecision A} (l : list A) : NoDup (sfrom l).
Proof.
  unfold sfrom. assert (NoDup (@nil A)) as H by constructor. revert H. generalize (@nil A).
  induction l as [|x l IH]; intros s Hs; simpl; [done|]. by apply IH, sadd_NoDup.
Qed.

#[export] Hint Resolve mset_NoDup mupd_NoDup sadd_NoDup sfrom_NoDup NoDup_nil_2 : qe.
#[export] Hint Rewrite @mget_mset_eq : qe.
