(* ===== verification/JsSort.v ===== *)
(** * Comparators and [Array.prototype.sort]

    A comparator is a function to [Z] read by sign. [sort] is the stable sort
    ECMAScript prescribes; for a comparator that is a total preorder the result
    is determined by the input, and the theorems here say by what: it is a
    permutation, ordered, stable, and, when the comparator separates distinct
    elements, the same for every arrangement of the same elements. *)

From S2P Require Import Prelude JsString.
From Stdlib Require Import Sorting.Permutation.
From stdpp Require Import sorting.

Local Open Scope Z_scope.

(** What [sort] needs of its callback: a total preorder. *)
Class Comparator {A : Type} (cmp : A → A → Z) : Prop := {
  cmp_refl x : cmp x x = 0%Z;
  cmp_sym x y : (cmp x y <= 0)%Z ↔ (0 <= cmp y x)%Z;
  cmp_trans x y z : (cmp x y <= 0)%Z → (cmp y z <= 0)%Z → (cmp x z <= 0)%Z;
}.

(** A comparator that answers 0 only on equal elements. *)
Class Separates {A : Type} (cmp : A → A → Z) : Prop :=
  cmp_0_eq x y : cmp x y = 0%Z → x = y.

Section sort.
Context {A : Type} (cmp : A → A → Z).

(** Insertion before the first element the comparator does not put first. *)
Fixpoint insert (x : A) (l : list A) : list A :=
  match l with
  | [] => [x]
  | y :: l' => if (cmp x y <=? 0)%Z then x :: l else y :: insert x l'
  end.

(** [l.sort(cmp)] *)
Definition sort (l : list A) : list A := foldr insert [] l.

Definition cmp_le (x y : A) : Prop := (cmp x y <= 0)%Z.

End sort.

(** [a || b] of two comparators, and a comparator on a projection. *)
Definition cmp_then {A : Type} (c1 c2 : A → A → Z) (x y : A) : Z := js_or (c1 x y) (c2 x y).
Definition cmp_on {A B : Type} (f : A → B) (c : B → B → Z) (x y : A) : Z := c (f x) (f y).
Definition cmp_sub (x y : Z) : Z := x - y.

(** ** Code-unit order *)

Lemma str_ltb_irrefl a : str_ltb a a = false.
Proof. induction a as [|x a IH]; simpl; [done|]. by rewrite N.eqb_refl. Qed.

Lemma str_ltb_trans a b c : str_ltb a b = true → str_ltb b c = true → str_ltb a c = true.
Proof.
  revert b c. induction a as [|x a IH]; intros [|y b] [|z c]; simpl; try done.
  destruct (N.eqb_spec x y), (N.eqb_spec y z), (N.eqb_spec x z); subst; intros; try lia; eauto;
    rewrite ?N.ltb_lt in *; lia.
Qed.

Lemma str_ltb_total a b : str_ltb a b = false → str_ltb b a = false → a = b.
Proof.
  revert b. induction a as [|x a IH]; intros [|y b]; simpl; try done.
  destruct (N.eqb_spec x y), (N.eqb_spec y x); subst; intros; try lia.
  - f_equal. auto.
  - rewrite ?N.ltb_ge in *. lia.
Qed.

Lemma str_ltb_asym a b : str_ltb a b = true → str_ltb b a = false.
Proof.
  intros H. destruct (str_ltb b a) eqn:E; [|done].
  pose proof (str_ltb_trans _ _ _ H E) as Hc. by rewrite str_ltb_irrefl in Hc.
Qed.

Lemma compare_cases a b :
  (compare a b = -1 ∧ str_ltb a b = true ∧ str_ltb b a = false) ∨
  (compare a b = 0 ∧ a = b) ∨
  (compare a b = 1 ∧ str_ltb b a = true ∧ str_ltb a b = false).
Proof.
  unfold compare. destruct (str_ltb a b) eqn:E1.
  { left. eauto using str_ltb_asym. }
  destruct (str_ltb b a) eqn:E2; [right; right; eauto|].
  right; left. eauto using str_ltb_total.
Qed.

Lemma compare_refl a : compare a a = 0%Z.
Proof. unfold compare. by rewrite str_ltb_irrefl. Qed.

#[export] Instance compare_comparator : Comparator compare.
Proof.
  split.
  - apply compare_refl.
  - intros x y.
    destruct (compare_cases x y) as [(E1&H1&H2)|[(E1&H1)|(E1&H1&H2)]];
      destruct (compare_cases y x) as [(E2&H3&H4)|[(E2&H3)|(E2&H3&H4)]];
      rewrite E1, E2; split; intros; try lia; congruence.
  - intros x y z.
    destruct (compare_cases x y) as [(Hx&H1&H2)|[(->&->)|(->&H1&H2)]]; intros; try lia.
    destruct (compare_cases y z) as [(Hy&H3&H4)|[(Hy&->)|(Hy&H3&H4)]]; try lia.
    unfold compare. by rewrite (str_ltb_trans _ _ _ H1 H3).
Qed.

#[export] Instance compare_separates : Separates compare.
Proof. intros x y. by destruct (compare_cases x y) as [(->&?)|[(?&->)|(->&?)]]. Qed.

#[export] Instance cmp_sub_comparator : Comparator cmp_sub.
Proof. unfold cmp_sub. split; intros; lia. Qed.
#[export] Instance cmp_sub_separates : Separates cmp_sub.
Proof. unfold cmp_sub. intros x y. lia. Qed.

#[export] Instance cmp_on_comparator {A B} (f : A → B) c :
  Comparator c → Comparator (cmp_on f c).
Proof. unfold cmp_on. intros [? ? ?]. split; eauto. Qed.

#[export] Instance cmp_then_comparator {A} (c1 c2 : A → A → Z) :
  Comparator c1 → Comparator c2 → Comparator (cmp_then c1 c2).
Proof.
  unfold cmp_then, js_or. intros [r1 s1 t1] [r2 s2 t2]. split.
  - intros x. by rewrite r1, r2.
  - intros x y. pose proof (s1 x y). pose proof (s1 y x). pose proof (s2 x y).
    destruct (Z.eqb_spec (c1 x y) 0), (Z.eqb_spec (c1 y x) 0); lia.
  - intros x y z. pose proof (s1 x y). pose proof (s1 y x). pose proof (s1 y z).
    pose proof (s1 z y). pose proof (s1 x z). pose proof (s1 z x).
    pose proof (t1 x y z). pose proof (t1 z x y). pose proof (t1 y z x).
    pose proof (t2 x y z).
    destruct (Z.eqb_spec (c1 x y) 0), (Z.eqb_spec (c1 y z) 0), (Z.eqb_spec (c1 x z) 0); lia.
Qed.

Lemma cmp_sgn_sym {A} (cmp : A → A → Z) `{!Comparator cmp} x y :
  (cmp x y < 0)%Z ↔ (0 < cmp y x)%Z.
Proof. pose proof (cmp_sym (cmp := cmp) y x). lia. Qed.

Lemma cmp_eq_0_sym {A} (cmp : A → A → Z) `{!Comparator cmp} x y :
  cmp x y = 0%Z → cmp y x = 0%Z.
Proof. pose proof (cmp_sym (cmp := cmp) y x). pose proof (cmp_sym (cmp := cmp) x y). lia. Qed.

(** ** The sort *)

Section theory.
Context {A : Type} (cmp : A → A → Z) `{!Comparator cmp}.

Lemma insert_Permutation x l : insert cmp x l ≡ₚ x :: l.
Proof.
  induction l as [|y l IH]; simpl; [done|]. case_match; [done|]. by rewrite IH, Permutation_swap.
Qed.

Lemma sort_Permutation l : sort cmp l ≡ₚ l.
Proof. induction l as [|x l IH]; simpl; [done|]. by rewrite insert_Permutation, IH. Qed.

Lemma elem_of_sort l x : x ∈ sort cmp l ↔ x ∈ l.
Proof. by rewrite sort_Permutation. Qed.

Lemma sort_length l : length (sort cmp l) = length l.
Proof. by rewrite sort_Permutation. Qed.

Lemma insert_sorted x l :
  StronglySorted (cmp_le cmp) l → StronglySorted (cmp_le cmp) (insert cmp x l).
Proof.
  induction 1 as [|y l Hl IH Hy]; simpl; [repeat constructor|].
  destruct (Z.leb_spec (cmp x y) 0) as [Hxy|Hxy].
  - constructor; [by constructor|]. constructor; [done|].
    eapply Forall_impl; [exact Hy|]. intros z ?. by eapply cmp_trans.
  - constructor; [done|]. rewrite insert_Permutation. constructor; [|done].
    unfold cmp_le. pose proof (cmp_sgn_sym cmp y x). lia.
Qed.

Lemma sort_sorted l : StronglySorted (cmp_le cmp) (sort cmp l).
Proof. induction l; simpl; [constructor|]. by apply insert_sorted. Qed.

(** Sorted arrangements of the same elements agree when equal keys mean equal elements. *)
Lemma sorted_unique l1 l2 :
  (∀ x y, x ∈ l1 → y ∈ l1 → cmp x y = 0%Z → x = y) →
  StronglySorted (cmp_le cmp) l1 → StronglySorted (cmp_le cmp) l2 → l1 ≡ₚ l2 → l1 = l2.
Proof.
  intros Hsep H1. revert l2. induction H1 as [|x l1 Hl1 IH Hx]; intros l2 H2 Hp.
  { by apply Permutation_nil_l in Hp. }
  destruct H2 as [|y l2 Hl2 Hy]; [by apply Permutation_nil_r in Hp|].
  assert (x = y) as ->.
  { assert (x ∈ y :: l2) as Hxin by (rewrite <- Hp; set_solver).
    assert (y ∈ x :: l1) as Hyin by (rewrite Hp; set_solver).
    apply Hsep; [set_solver|done|].
    apply elem_of_cons in Hxin as [->|Hxin]; [apply cmp_refl|].
    apply elem_of_cons in Hyin as [->|Hyin]; [apply cmp_refl|].
    rewrite Forall_forall in Hx, Hy.
    pose proof (Hx _ Hyin). pose proof (Hy _ Hxin). unfold cmp_le in *.
    pose proof (cmp_sym (cmp := cmp) y x). lia. }
  f_equal. apply IH; [|done|by apply Permutation_cons_inv in Hp].
  intros u v ??. apply Hsep; set_solver.
Qed.

(** A sort by a key that separates the elements does not see the order it was given. *)
Lemma sort_canonical l1 l2 :
  (∀ x y, x ∈ l1 → y ∈ l1 → cmp x y = 0%Z → x = y) → l1 ≡ₚ l2 → sort cmp l1 = sort cmp l2.
Proof.
  intros Hsep Hp. apply sorted_unique; auto using sort_sorted.
  - intros x y. rewrite !elem_of_sort. apply Hsep.
  - by rewrite !sort_Permutation.
Qed.

(** Stability: elements of one class keep their order. *)
Lemma insert_filter_same (P : A → bool) x l :
  (∀ y, P x → P y → cmp x y = 0%Z) →
  filter P (insert cmp x l) = if P x then x :: filter P l else filter P l.
Proof.
  intros HP. induction l as [|y l IH]; simpl.
  { rewrite filter_cons, filter_nil. by destruct (P x). }
  destruct (Z.leb_spec (cmp x y) 0) as [Hxy|Hxy].
  - rewrite (filter_cons _ x). by destruct (P x).
  - rewrite !filter_cons, IH. destruct (P x) eqn:Ex, (P y) eqn:Ey; simpl; try done.
    rewrite HP in Hxy by (by rewrite ?Ex, ?Ey). lia.
Qed.

Lemma sort_stable (P : A → bool) l :
  (∀ x y, P x → P y → cmp x y = 0%Z) → filter P (sort cmp l) = filter P l.
Proof.
  intros HP. induction l as [|x l IH]; simpl; [done|].
  rewrite insert_filter_same by eauto. rewrite IH, filter_cons. by destruct (P x).
Qed.

Lemma sort_id l : StronglySorted (cmp_le cmp) l → sort cmp l = l.
Proof.
  induction 1 as [|x l Hl IH Hx]; simpl; [done|]. rewrite IH.
  destruct Hx as [|y l Hxy Hx]; simpl; [done|]. unfold cmp_le in Hxy.
  by destruct (Z.leb_spec (cmp x y) 0); [|lia].
Qed.

End theory.

#[export] Hint Resolve sort_Permutation sort_sorted : qe.
