(* ===== verification/Json.v ===== *)
(** * Parsed JSON values and the canonical text (validator.ts)

    The value [JSON.parse] returns, with objects in own-property order, and the
    canonical text the validator compares duplicates by. The canonical text is
    modelled twice: [canonical] is the source's loop over an explicit stack,
    [canonical_ref] the recursive text it stands for. *)

From S2P Require Import Prelude JsString JsMap JsSort.

Local Open Scope Z_scope.

(** A JavaScript number as [JSON.parse] can return it. *)
Inductive num : Type :=
| NInt (z : Z)          (* an integer-valued double below 1e21, written in decimal; -0 is [NInt 0] *)
| NFrac (text : str)    (* any other finite double, as [Number::toString] writes it *)
| NInf (negative : bool).  (* an overflowing literal such as 1e999 *)

Inductive json : Type :=
| JNull
| JBool (b : bool)
| JNum (n : num)
| JStr (s : str)
| JArr (items : list json)
| JObj (props : jsmap str json).

Abbreviation obj := (jsmap str json).

Definition max_safe_integer : Z := 9007199254740991.

(** [Number.isSafeInteger] *)
Definition is_safe_integer (n : num) : bool :=
  match n with NInt z => (- max_safe_integer <=? z) && (z <=? max_safe_integer) | _ => false end.

(** [JSON.stringify] of a number: a non-finite one is written [null]. *)
Definition num_text (n : num) : str :=
  match n with NInt z => dec z | NFrac t => t | NInf _ => js "null" end.

(** [JSON.stringify] of a primitive. *)
Definition prim_text (v : json) : str :=
  match v with
  | JNull => js "null"
  | JBool true => js "true"
  | JBool false => js "false"
  | JNum n => num_text n
  | JStr s => json_quote s
  | JArr _ | JObj _ => []
  end.

(** [Object.keys(object).sort()] *)
Definition sorted_keys (o : obj) : list str := sort compare (mkeys o).

(** ** The loop *)

Inductive Frame : Type :=
| FArray (items : list json) (index : nat)
| FObject (object : obj) (keys : list str) (index : nat).

Record Canon := { out : list str; stack : list Frame }.

Definition push_out (s : str) (c : Canon) : Canon := {| out := out c ++ [s]; stack := stack c |}.
Definition push_frame (f : Frame) (c : Canon) : Canon := {| out := out c; stack := f :: stack c |}.

(** The local [open]: writes a primitive, or an opening bracket and a frame. *)
Definition canon_open (value : json) (c : Canon) : Canon :=
  match value with
  | JArr items => push_frame (FArray items 0) (push_out (js "[") c)
  | JObj object => push_frame (FObject object (sorted_keys object) 0) (push_out (js "{") c)
  | _ => push_out (prim_text value) c
  end.

(** [open] of a property that is not there pushes [undefined], which [join] writes as nothing. *)
Definition canon_open_opt (value : option json) (c : Canon) : Canon :=
  match value with Some v => canon_open v c | None => push_out [] c end.

(** One turn of the loop on the frame at the top of the stack. *)
Definition canon_step (frame : Frame) (rest : list Frame) (o : list str) : Canon :=
  match frame with
  | FArray items index =>
      if (index <? length items)%nat then
        let c := {| out := if (0 <? index)%nat then o ++ [js ","] else o;
                    stack := FArray items (S index) :: rest |} in
        canon_open_opt (items !! index) c
      else {| out := o ++ [js "]"]; stack := rest |}
  | FObject object keys index =>
      match keys !! index with
      | Some key =>
          let o1 := if (1 <? S index)%nat then o ++ [js ","] else o in
          let c := {| out := o1 ++ [json_quote key ++ js ":"];
                      stack := FObject object keys (S index) :: rest |} in
          canon_open_opt (mget object key) c
      | None => {| out := o ++ [js "}"]; stack := rest |}
      end
  end.

Fixpoint canon_loop (fuel : nat) (c : Canon) : option (list str) :=
  match stack c with
  | [] => Some (out c)
  | frame :: rest =>
      match fuel with
      | O => None
      | S fuel' => canon_loop fuel' (canon_step frame rest (out c))
      end
  end.

(** Turns of the loop a value needs: one per element and one to close. *)
Fixpoint canon_turns (v : json) : nat :=
  match v with
  | JArr items => S (length items + list_sum (canon_turns <$> items))
  | JObj props =>
      S (length props +
         list_sum ((λ k, default 0%nat (mget ((λ kv, (kv.1, canon_turns kv.2)) <$> props) k))
                   <$> sorted_keys props))
  | _ => 0
  end.

(** [canonical(root)]; the fuel is exactly what the loop needs. *)
Definition canonical (root : json) : str :=
  match canon_loop (canon_turns root) (canon_open root {| out := []; stack := [] |}) with
  | Some pieces => mjoin pieces
  | None => []
  end.

(** ** The reference text *)

Fixpoint join (sep : str) (l : list str) : str :=
  match l with
  | [] => []
  | [x] => x
  | x :: l' => x ++ sep ++ join sep l'
  end.

Fixpoint canonical_ref (v : json) : str :=
  match v with
  | JArr items => js "[" ++ join (js ",") (canonical_ref <$> items) ++ js "]"
  | JObj props =>
      let texts := (λ kv, (kv.1, canonical_ref kv.2)) <$> props in
      js "{" ++ join (js ",") ((λ k, json_quote k ++ js ":" ++ default [] (mget texts k))
                               <$> sorted_keys props) ++ js "}"
  | _ => prim_text v
  end.

(** ** Equality of values up to property order *)

Inductive json_eqv : json → json → Prop :=
| eqv_null : json_eqv JNull JNull
| eqv_bool b : json_eqv (JBool b) (JBool b)
| eqv_num n : json_eqv (JNum n) (JNum n)
| eqv_str s : json_eqv (JStr s) (JStr s)
| eqv_arr l1 l2 : Forall2 json_eqv l1 l2 → json_eqv (JArr l1) (JArr l2)
| eqv_obj o1 o2 :
    sorted_keys o1 = sorted_keys o2 →
    Forall2 json_eqv (omap (mget o1) (sorted_keys o1)) (omap (mget o2) (sorted_keys o2)) →
    json_eqv (JObj o1) (JObj o2).

(** ** Values [JSON.parse] can return *)

Definition wf_str (s : str) : Prop := Forall (λ u, (u < 65536)%N) s.

Definition is_num_char (u : N) : bool :=
  is_digit u || (u =? 43)%N || (u =? 45)%N || (u =? 46)%N || (u =? 69)%N || (u =? 101)%N.

(** A number as its text is written: a fraction's is not an integer's. *)
Definition wf_num (n : num) : Prop :=
  match n with
  | NInt _ => True
  | NFrac t => t ≠ [] ∧ forallb is_num_char t = true ∧ (∀ z, t ≠ dec z)
  | NInf _ => True
  end.

Definition finite_num (n : num) : Prop := match n with NInf _ => False | _ => True end.

Inductive wf_json : json → Prop :=
| wf_null : wf_json JNull
| wf_bool b : wf_json (JBool b)
| wf_jnum n : wf_num n → wf_json (JNum n)
| wf_jstr s : wf_str s → wf_json (JStr s)
| wf_arr l : Forall wf_json l → wf_json (JArr l)
| wf_obj o : NoDup (mkeys o) → Forall wf_str (mkeys o) → Forall wf_json (mvalues o) → wf_json (JObj o).

(** Those without an overflowing literal. *)
Inductive finite_json : json → Prop :=
| fj_null : finite_json JNull
| fj_bool b : finite_json (JBool b)
| fj_num n : wf_num n → finite_num n → finite_json (JNum n)
| fj_str s : wf_str s → finite_json (JStr s)
| fj_arr l : Forall finite_json l → finite_json (JArr l)
| fj_obj o : NoDup (mkeys o) → Forall wf_str (mkeys o) → Forall finite_json (mvalues o) → finite_json (JObj o).

(** The value [JSON.stringify] writes: it has no text for a number that is not finite and writes [null]. *)
Fixpoint written (v : json) : json :=
  match v with
  | JNum (NInf _) => JNull
  | JArr l => JArr (written <$> l)
  | JObj o => JObj ((λ kv, (kv.1, written kv.2)) <$> o)
  | _ => v
  end.

(** ** Induction over nested values *)

Section json_ind.
Variable P : json → Prop.
Hypothesis Hnull : P JNull.
Hypothesis Hbool : ∀ b, P (JBool b).
Hypothesis Hnum : ∀ n, P (JNum n).
Hypothesis Hstr : ∀ s, P (JStr s).
Hypothesis Harr : ∀ l, Forall P l → P (JArr l).
Hypothesis Hobj : ∀ o, Forall (λ kv, P kv.2) o → P (JObj o).

Fixpoint json_nested_ind (v : json) : P v :=
  match v with
  | JNull => Hnull
  | JBool b => Hbool b
  | JNum n => Hnum n
  | JStr s => Hstr s
  | JArr l =>
      Harr l ((fix go l := match l return Forall P l with
                           | [] => Forall_nil_2 _
                           | x :: l' => Forall_cons_2 _ _ _ (json_nested_ind x) (go l')
                           end) l)
  | JObj o =>
      Hobj o ((fix go (o : obj) := match o return Forall (λ kv, P kv.2) o with
                           | [] => Forall_nil_2 _
                           | (k, x) :: o' => Forall_cons_2 _ (k, x) _ (json_nested_ind x) (go o')
                           end) o)
  end.
End json_ind.

(** ** The loop computes the reference text *)

Lemma mget_fmap_snd {V W} (f : V → W) (o : jsmap str V) k :
  mget ((λ kv, (kv.1, f kv.2)) <$> o) k = f <$> mget o k.
Proof. induction o as [|[k' v] o IH]; csimpl; [done|]. by case_decide. Qed.

(** What follows the first element: each further text with its comma. *)
Definition tail_text (l : list str) : str := mjoin ((λ t, js "," ++ t) <$> l).

Lemma join_cons x l : join (js ",") (x :: l) = x ++ tail_text l.
Proof.
  revert x. induction l as [|y l IH]; intros x; [by rewrite app_nil_r|].
  change (join (js ",") (x :: y :: l)) with (x ++ js "," ++ join (js ",") (y :: l)).
  by rewrite IH.
Qed.

(** [Runs v]: from any output and stack, opening [v] and turning the loop writes its text. *)
Definition Runs (v : json) : Prop :=
  ∃ ps, mjoin ps = canonical_ref v ∧
    ∀ n o st, canon_loop (canon_turns v + n) (canon_open v {| out := o; stack := st |})
              = canon_loop n {| out := o ++ ps; stack := st |}.

Definition from_index (i : nat) (l : list str) : str :=
  match i with O => join (js ",") l | S _ => tail_text l end.

Lemma canon_loop_S n f rest o :
  canon_loop (S n) {| out := o; stack := f :: rest |} = canon_loop n (canon_step f rest o).
Proof. done. Qed.

Lemma from_index_cons i (sep : bool) x l :
  sep = (0 <? i)%nat →
  from_index i (x :: l) = (if sep then js "," else []) ++ x ++ tail_text l.
Proof.
  intros ->. destruct i; simpl; [by rewrite <- join_cons|].
  unfold tail_text. by csimpl.
Qed.

(** Rearranges the fuel of the loop on the left of the goal. *)
Ltac set_fuel g :=
  match goal with
  | |- canon_loop ?f _ = _ => replace f with g by (csimpl; lia)
  end.

Lemma length_snoc {A} (l : list A) x : length (l ++ [x]) = S (length l).
Proof. rewrite length_app. simpl. lia. Qed.

Lemma runs_array_from items pre suf :
  items = pre ++ suf → Forall Runs suf →
  ∃ ps, mjoin ps = from_index (length pre) (canonical_ref <$> suf) ++ js "]" ∧
    ∀ n o st,
      canon_loop (S (length suf + list_sum (canon_turns <$> suf)) + n)
        {| out := o; stack := FArray items (length pre) :: st |}
      = canon_loop n {| out := o ++ ps; stack := st |}.
Proof.
  intros Hi Hr. revert pre Hi. induction Hr as [|x suf Hx Hsuf IH]; intros pre Hi.
  - exists [js "]"]. split; [by destruct (length pre)|]. intros n o st. simpl.
    subst. rewrite app_nil_r. by rewrite Nat.ltb_irrefl.
  - destruct Hx as (px & Epx & Hx).
    destruct (IH (pre ++ [x])) as (ps & Eps & Hps); [by rewrite <- app_assoc|].
    set (sep := (0 <? length pre)%nat).
    exists ((if sep then [js ","] else []) ++ px ++ ps). split.
    { rewrite fmap_cons, (from_index_cons _ sep) by done. rewrite !list.join_app, Epx, Eps.
      rewrite length_snoc. simpl. rewrite <- !app_assoc. by destruct sep. }
    intros n o st. rewrite Nat.add_succ_l, canon_loop_S. unfold canon_step.
    assert (items !! length pre = Some x) as -> by (subst; by apply list_lookup_middle).
    rewrite (proj2 (Nat.ltb_lt _ _)) by (subst; rewrite length_app; simpl; lia).
    cbn [canon_open_opt]. fold sep.
    set_fuel (canon_turns x + (S (length suf + list_sum (canon_turns <$> suf)) + n))%nat.
    rewrite Hx. rewrite length_snoc in Hps. rewrite Hps. destruct sep; by rewrite <- !app_assoc.
Qed.

Definition entry_text (o : obj) (k : str) : str :=
  json_quote k ++ js ":" ++ default [] (canonical_ref <$> mget o k).

Lemma runs_object_from o keys pre suf :
  keys = pre ++ suf → Forall (λ kv, Runs kv.2) o →
  ∃ ps, mjoin ps = from_index (length pre) (entry_text o <$> suf) ++ js "}" ∧
    ∀ n out st,
      canon_loop (S (length suf + list_sum ((λ k, default 0%nat (canon_turns <$> mget o k)) <$> suf)) + n)
        {| out := out; stack := FObject o keys (length pre) :: st |}
      = canon_loop n {| out := out ++ ps; stack := st |}.
Proof.
  intros Hk Hr. revert pre Hk. induction suf as [|k suf IH]; intros pre Hk.
  - exists [js "}"]. split; [by destruct (length pre)|]. intros n o' st.
    rewrite Nat.add_succ_l, canon_loop_S. unfold canon_step.
    subst. by rewrite app_nil_r, lookup_ge_None_2.
  - destruct (IH (pre ++ [k])) as (ps & Eps & Hps); [by rewrite <- app_assoc|].
    assert (∃ px, mjoin px = default [] (canonical_ref <$> mget o k) ∧
      ∀ n out st, canon_loop (default 0%nat (canon_turns <$> mget o k) + n)
                    (canon_open_opt (mget o k) {| out := out; stack := st |})
                  = canon_loop n {| out := out ++ px; stack := st |}) as (px & Epx & Hx).
    { destruct (mget o k) as [v|] eqn:E; [|by exists [[]]]. simpl.
      apply mget_elem in E. rewrite Forall_forall in Hr. apply (Hr _ E). }
    set (sep := (1 <? S (length pre))%nat).
    exists ((if sep then [js ","] else []) ++ [json_quote k ++ js ":"] ++ px ++ ps). split.
    { rewrite fmap_cons, (from_index_cons _ sep) by done. rewrite !list.join_app, Epx, Eps.
      rewrite length_snoc. unfold entry_text at 2.
      destruct sep; simpl; by rewrite ?app_nil_r, <- !app_assoc. }
    intros n o' st. rewrite Nat.add_succ_l, canon_loop_S. unfold canon_step.
    assert (keys !! length pre = Some k) as -> by (subst; by apply list_lookup_middle).
    cbn zeta. fold sep.
    set_fuel (default 0%nat (canon_turns <$> mget o k) + (S (length suf +
      list_sum ((λ k, default 0%nat (canon_turns <$> mget o k)) <$> suf)) + n))%nat.
    rewrite Hx. rewrite length_snoc in Hps. rewrite Hps. destruct sep; by rewrite <- !app_assoc.
Qed.

Lemma length_sorted_keys o : length (sorted_keys o) = length o.
Proof. unfold sorted_keys, mkeys. by rewrite sort_length, length_fmap. Qed.

Lemma canonical_ref_obj o :
  canonical_ref (JObj o) = js "{" ++ join (js ",") (entry_text o <$> sorted_keys o) ++ js "}".
Proof.
  cbn [canonical_ref]. cbv zeta. rewrite (list_fmap_ext _ (entry_text o)); [done|].
  intros i k _. unfold entry_text. by rewrite mget_fmap_snd.
Qed.

Lemma canon_turns_obj o :
  canon_turns (JObj o) =
    S (length (sorted_keys o) +
       list_sum ((λ k, default 0%nat (canon_turns <$> mget o k)) <$> sorted_keys o)).
Proof.
  cbn [canon_turns]. rewrite length_sorted_keys.
  rewrite (list_fmap_ext _ (λ k, default 0%nat (canon_turns <$> mget o k))); [done|].
  intros i k _. by rewrite mget_fmap_snd.
Qed.

Lemma runs v : Runs v.
Proof.
  induction v as [|b|m|s|l IH|o IH] using json_nested_ind;
    try (eexists [_]; split; [apply app_nil_r | done]).
  - destruct (runs_array_from l [] l eq_refl IH) as (ps & Eps & Hps).
    exists (js "[" :: ps). split; [simpl; by rewrite Eps|]. intros n o st. simpl canon_open.
    unfold push_frame, push_out; cbn [out stack]. rewrite (Hps n). by rewrite <- app_assoc.
  - destruct (runs_object_from o (sorted_keys o) [] (sorted_keys o) eq_refl IH) as (ps & Eps & Hps).
    exists (js "{" :: ps). split; [rewrite canonical_ref_obj; simpl; by rewrite Eps|].
    intros n o' st. rewrite canon_turns_obj. simpl canon_open.
    unfold push_frame, push_out; cbn [out stack]. rewrite (Hps n). by rewrite <- app_assoc.
Qed.

Lemma canon_loop_done v :
  ∃ ps, canon_loop (canon_turns v) (canon_open v {| out := []; stack := [] |}) = Some ps
        ∧ mjoin ps = canonical_ref v.
Proof.
  destruct (runs v) as (ps & Eps & H). specialize (H 0%nat [] []).
  rewrite Nat.add_0_r in H. rewrite H. eauto.
Qed.

Lemma canonical_eq_ref v : canonical v = canonical_ref v.
Proof. unfold canonical. by destruct (canon_loop_done v) as (ps & -> & ?). Qed.

(** ** The canonical text determines the value up to property order *)

(** What may follow a value: nothing, or something no number continues with. *)
Definition delim (r : str) : Prop :=
  match r with [] => True | u :: _ => is_num_char u = false end.

Lemma split_num_chars t1 t2 r1 r2 :
  forallb is_num_char t1 = true → forallb is_num_char t2 = true → delim r1 → delim r2 →
  t1 ++ r1 = t2 ++ r2 → t1 = t2 ∧ r1 = r2.
Proof.
  revert t2. induction t1 as [|u t1 IH]; intros [|v t2]; simpl;
    rewrite ?andb_true_iff; intros H1 H2 D1 D2 E; simplify_eq/=; try done;
    try (by destruct H2 as [H2 _]; rewrite H2 in D1); try (by destruct H1 as [H1 _]; rewrite H1 in D2).
  destruct H1, H2. by destruct (IH t2) as [-> ->].
Qed.

Lemma digit_num_char l : forallb is_digit l = true → forallb is_num_char l = true.
Proof.
  intros H. apply forallb_forall. intros u Hu. rewrite forallb_forall in H.
  unfold is_num_char. by rewrite H.
Qed.

Lemma dec_num_chars z : forallb is_num_char (dec z) = true.
Proof.
  unfold dec. destruct (Z.ltb_spec z 0); [simpl|]; apply digit_num_char, dec_nonneg_digits; lia.
Qed.

Lemma num_text_chars n :
  wf_num n → finite_num n → forallb is_num_char (num_text n) = true ∧ num_text n ≠ [].
Proof.
  destruct n as [z|t|b]; simpl; [|by intros (?&?&?)|done]. intros _ _.
  split; [apply dec_num_chars|]. unfold dec. case_match; [done|].
  by destruct (dec_nonneg_cons z) as (?&?&->).
Qed.

Lemma num_text_inj n1 n2 :
  wf_num n1 → wf_num n2 → finite_num n1 → finite_num n2 → num_text n1 = num_text n2 → n1 = n2.
Proof.
  destruct n1, n2; simpl; try done; intros H1 H2 _ _ E.
  - f_equal. by apply dec_inj.
  - destruct H2 as (_&_&H2). by destruct (H2 z).
  - destruct H1 as (_&_&H1). by destruct (H1 z).
  - by subst.
Qed.

(** The first code unit of a value's text names its constructor. *)
Definition head_kind (v : json) : N :=
  match v with
  | JNull => 110 | JBool true => 116 | JBool false => 102 | JNum _ => 48
  | JStr _ => 34 | JArr _ => 91 | JObj _ => 123
  end%N.

Lemma canonical_head v :
  finite_json v →
  ∃ u t, canonical_ref v = u :: t ∧
         (if is_num_char u then 48%N else u) = head_kind v.
Proof.
  destruct 1 as [|[]|n Hn Hf|s|l|o]; try by (eexists _, _).
  destruct (num_text_chars n Hn Hf) as [H1 H2]. change (canonical_ref (JNum n)) with (num_text n).
  destruct (num_text n) as [|u t]; [done|]. exists u, t. split; [done|].
  simpl in H1. by apply andb_true_iff in H1 as [-> _].
Qed.

Lemma canonical_head_eq v1 v2 r1 r2 :
  finite_json v1 → finite_json v2 → canonical_ref v1 ++ r1 = canonical_ref v2 ++ r2 →
  head_kind v1 = head_kind v2.
Proof.
  intros H1 H2. destruct (canonical_head v1 H1) as (u1&t1&->&<-).
  destruct (canonical_head v2 H2) as (u2&t2&->&<-). by intros [= -> _].
Qed.

Lemma canonical_not_close v r1 u r2 :
  finite_json v → u = 93%N ∨ u = 125%N ∨ u = 44%N → canonical_ref v ++ r1 ≠ u :: r2.
Proof.
  intros Hv Hu. destruct (canonical_head v Hv) as (u'&t&->&Hk). intros [= -> _].
  destruct Hu as [->|[->| ->]]; destruct v as [|[]|n|s|l|o]; done.
Qed.

Definition Inj (v1 : json) : Prop :=
  ∀ v2 r1 r2, finite_json v1 → finite_json v2 → delim r1 → delim r2 →
    canonical_ref v1 ++ r1 = canonical_ref v2 ++ r2 → json_eqv v1 v2 ∧ r1 = r2.

Lemma tail_text_delim l c r : is_num_char c = false → delim (tail_text l ++ c :: r).
Proof. by destruct l as [|t l]. Qed.

Lemma tail_text_cons x l r : tail_text (x :: l) ++ r = 44%N :: x ++ tail_text l ++ r.
Proof. unfold tail_text. csimpl. by rewrite <- !app_assoc. Qed.

(** The elements after the first, up to the closing bracket. *)
Lemma items_inj l1 : Forall Inj l1 → ∀ l2 r1 r2,
  Forall finite_json l1 → Forall finite_json l2 →
  tail_text (canonical_ref <$> l1) ++ 93%N :: r1 = tail_text (canonical_ref <$> l2) ++ 93%N :: r2 →
  Forall2 json_eqv l1 l2 ∧ r1 = r2.
Proof.
  induction 1 as [|x l1 Hx Hl IH]; intros [|y l2] r1 r2 W1 W2; rewrite ?fmap_cons, ?tail_text_cons;
    simpl; intros E; simplify_eq; try done.
  apply Forall_cons in W1 as [Wx W1], W2 as [Wy W2].
  apply Hx in E as [Exy E]; auto using tail_text_delim.
  apply IH in E as [? ->]; auto.
Qed.

Lemma array_inj l1 l2 r1 r2 :
  Forall Inj l1 → Forall finite_json l1 → Forall finite_json l2 →
  join (js ",") (canonical_ref <$> l1) ++ 93%N :: r1
    = join (js ",") (canonical_ref <$> l2) ++ 93%N :: r2 →
  Forall2 json_eqv l1 l2 ∧ r1 = r2.
Proof.
  destruct l1 as [|x l1], l2 as [|y l2]; intros Hi W1 W2; rewrite ?fmap_cons, ?join_cons; simpl.
  - by intros [= ->].
  - intros E. exfalso. rewrite <- app_assoc in E. symmetry in E.
    apply Forall_cons in W2 as [? _]. by apply canonical_not_close in E; auto.
  - intros E. exfalso. rewrite <- app_assoc in E.
    apply Forall_cons in W1 as [? _]. by apply canonical_not_close in E; auto.
  - rewrite <- !app_assoc. intros E. apply Forall_cons in Hi as [Hx Hi], W1 as [? W1], W2 as [? W2].
    apply Hx in E as [Exy E]; auto using tail_text_delim.
    apply items_inj in E as [? ->]; auto.
Qed.

(** ** Objects: entries in key order *)

Definition pair_text (kv : str * json) : str := json_quote kv.1 ++ js ":" ++ canonical_ref kv.2.

Definition sorted_entries (o : obj) : obj :=
  omap (λ k, (λ v, (k, v)) <$> mget o k) (sorted_keys o).

Lemma sorted_keys_present o k : k ∈ sorted_keys o → is_Some (mget o k).
Proof. unfold sorted_keys. by rewrite elem_of_sort, mget_is_Some. Qed.

Lemma entries_of_keys o ks :
  (∀ k, k ∈ ks → is_Some (mget o k)) →
  let es := omap (λ k, (λ v, (k, v)) <$> mget o k) ks in
  es.*1 = ks ∧ es.*2 = omap (mget o) ks ∧ pair_text <$> es = entry_text o <$> ks.
Proof.
  intros H es. subst es. induction ks as [|k ks IH]; [done|].
  destruct (H k) as [v Hv]; [set_solver|]. destruct IH as (E1&E2&E3); [set_solver|].
  csimpl. rewrite Hv. csimpl. rewrite E1, E2, E3. unfold entry_text at 2, pair_text. by rewrite Hv.
Qed.

Lemma sorted_entries_spec o :
  (sorted_entries o).*1 = sorted_keys o ∧ (sorted_entries o).*2 = omap (mget o) (sorted_keys o) ∧
  pair_text <$> sorted_entries o = entry_text o <$> sorted_keys o.
Proof. apply entries_of_keys, sorted_keys_present. Qed.

Lemma elem_of_sorted_entries o k v : (k, v) ∈ sorted_entries o → (k, v) ∈ o.
Proof.
  unfold sorted_entries. rewrite list_elem_of_omap. intros (k' & _ & H).
  destruct (mget o k') eqn:E; simplify_eq/=. by apply mget_elem.
Qed.

Definition wf_entry (kv : str * json) : Prop := wf_str kv.1 ∧ finite_json kv.2.

Lemma wf_sorted_entries o : finite_json (JObj o) → Forall wf_entry (sorted_entries o).
Proof.
  inversion 1 as [| | | | |? _ Hk Hv]; subst. rewrite Forall_forall in Hk. rewrite Forall_forall in Hv.
  apply Forall_forall.
  intros [k v] Hin%elem_of_sorted_entries. split; [apply Hk | apply Hv];
    apply list_elem_of_fmap; by eexists (_, _).
Qed.

Lemma pair_inj k1 v1 k2 v2 r1 r2 :
  Inj v1 → wf_entry (k1, v1) → wf_entry (k2, v2) → delim r1 → delim r2 →
  pair_text (k1, v1) ++ r1 = pair_text (k2, v2) ++ r2 →
  k1 = k2 ∧ json_eqv v1 v2 ∧ r1 = r2.
Proof.
  intros Hi [W1 W1'] [W2 W2'] D1 D2. unfold pair_text; cbn [fst snd]. rewrite <- !app_assoc.
  intros [-> [= E]]%json_quote_inj; [|done..]. apply Hi in E as [? ->]; auto.
Qed.

Lemma entries_inj es1 : Forall (λ kv, Inj kv.2) es1 → ∀ es2 r1 r2,
  Forall wf_entry es1 → Forall wf_entry es2 →
  tail_text (pair_text <$> es1) ++ 125%N :: r1 = tail_text (pair_text <$> es2) ++ 125%N :: r2 →
  es1.*1 = es2.*1 ∧ Forall2 json_eqv es1.*2 es2.*2 ∧ r1 = r2.
Proof.
  induction 1 as [|[k1 x] es1 Hx Hl IH]; intros [|[k2 y] es2] r1 r2 W1 W2;
    rewrite ?fmap_cons, ?tail_text_cons; intros E; [by simplify_eq/=|done|done|].
  apply (f_equal tail) in E. cbn [tail] in E.
  apply Forall_cons in W1 as [Wx W1], W2 as [Wy W2].
  apply pair_inj in E as (-> & Exy & E); auto using tail_text_delim.
  apply IH in E as (-> & ? & ->); auto.
Qed.

Lemma object_inj es1 es2 r1 r2 :
  Forall (λ kv, Inj kv.2) es1 → Forall wf_entry es1 → Forall wf_entry es2 →
  join (js ",") (pair_text <$> es1) ++ 125%N :: r1
    = join (js ",") (pair_text <$> es2) ++ 125%N :: r2 →
  es1.*1 = es2.*1 ∧ Forall2 json_eqv es1.*2 es2.*2 ∧ r1 = r2.
Proof.
  destruct es1 as [|[k1 x] es1], es2 as [|[k2 y] es2]; intros Hi W1 W2;
    rewrite ?fmap_cons, ?join_cons; intros E; [by simplify_eq/=|done|done|].
  rewrite <- !app_assoc in E.
  apply Forall_cons in Hi as [Hx Hi], W1 as [? W1], W2 as [? W2].
  apply pair_inj in E as (-> & Exy & E); auto using tail_text_delim.
  apply entries_inj in E as (-> & ? & ->); auto.
Qed.

Lemma Inj_all v : Inj v.
Proof.
  induction v as [|b|m|s|l IH|o IH] using json_nested_ind; intros v2 r1 r2 W1 W2 D1 D2 E;
    pose proof (canonical_head_eq _ _ _ _ W1 W2 E) as Hk;
    destruct v2 as [|b2|m2|s2|l2|o2]; try (by destruct b); try (by destruct b2);
    try (by destruct b, b2); try done.
  - simpl in E. simplify_eq/=. split; [constructor|done].
  - destruct b, b2; try done; simpl in E; simplify_eq/=; (split; [constructor|done]).
  - inversion W1; inversion W2; subst. apply split_num_chars in E as [E ->];
      [|by apply num_text_chars..|done|done].
    apply num_text_inj in E as ->; [|done..]. split; [constructor|done].
  - inversion W1; inversion W2; subst. simpl in E. apply json_quote_inj in E as [-> ->]; [|done..].
    split; [constructor|done].
  - inversion W1; inversion W2; subst. simpl in E. rewrite <- !app_assoc in E.
    injection E as E. apply array_inj in E as [? ->]; [|done..]. split; [by constructor|done].
  - rewrite !canonical_ref_obj in E. rewrite <- !app_assoc in E. injection E as E.
    destruct (sorted_entries_spec o) as (K1&V1&T1). destruct (sorted_entries_spec o2) as (K2&V2&T2).
    rewrite <- T1, <- T2 in E.
    apply object_inj in E as (Ek & Ev & ->); auto using wf_sorted_entries.
    + split; [|done]. constructor; congruence.
    + rewrite Forall_forall in *. intros [k x] Hin%elem_of_sorted_entries. by apply (IH (k, x)).
Qed.

Lemma canonical_ref_inj v1 v2 :
  finite_json v1 → finite_json v2 → canonical_ref v1 = canonical_ref v2 → json_eqv v1 v2.
Proof.
  intros W1 W2 E. destruct (Inj_all v1 v2 [] []) as [? _]; try done. by rewrite E.
Qed.

Lemma canonical_ref_eqv v1 : ∀ v2, json_eqv v1 v2 → canonical_ref v1 = canonical_ref v2.
Proof.
  induction v1 as [|b|m|s|l IH|o IH] using json_nested_ind; intros v2;
    inversion 1 as [| | | |? l2 Hl|? o2 Hk Hv]; subst; try done.
  - simpl. do 3 f_equal. clear H. induction Hl as [|x y l l2 Hxy Hl IHl]; [done|].
    apply Forall_cons in IH as [Hx IH]. csimpl. f_equal; auto.
  - rewrite !canonical_ref_obj.
    destruct (sorted_entries_spec o) as (K1&V1&T1). destruct (sorted_entries_spec o2) as (K2&V2&T2).
    rewrite <- T1, <- T2. do 3 f_equal. rewrite <- V1, <- V2 in Hv.
    assert (Forall (λ kv, ∀ v2, json_eqv kv.2 v2 → canonical_ref kv.2 = canonical_ref v2)
              (sorted_entries o)) as IH'.
    { rewrite Forall_forall in *. intros [k x] Hin%elem_of_sorted_entries. by apply (IH (k, x)). }
    rewrite <- K1, <- K2 in Hk. clear -IH' Hk Hv.
    revert Hk Hv. generalize (sorted_entries o2). induction IH' as [|[k x] es Hx _ IHes];
      intros [|[k2 y] es2] Hk Hv; try done. csimpl. injection Hk as -> Hk.
    apply Forall2_cons in Hv as [Hxy Hv]. cbn [fst snd] in Hxy, Hx.
    f_equal; [|by apply IHes]. unfold pair_text. cbn [fst snd]. by rewrite (Hx _ Hxy).
Qed.

Lemma json_eqv_refl v : json_eqv v v.
Proof.
  induction v as [|b|m|s|l IH|o IH] using json_nested_ind; constructor; try done.
  - by apply Forall_Forall2_diag.
  - apply Forall_Forall2_diag. rewrite Forall_forall in IH. apply Forall_forall.
    intros v (k & _ & Hk)%list_elem_of_omap. by apply (IH (k, v)), mget_elem.
Qed.

(** ** Numbers that are not finite *)

Lemma written_keys (o : obj) : mkeys ((λ kv, (kv.1, written kv.2)) <$> o) = mkeys o.
Proof. unfold mkeys. by rewrite <- list_fmap_compose. Qed.

Lemma canonical_ref_written v : canonical_ref (written v) = canonical_ref v.
Proof.
  induction v as [|b|n|s|l IH|o IH] using json_nested_ind; [done|done|by destruct n|done| |].
  - simpl. do 3 f_equal. induction IH as [|x l Hx _ IHl]; [done|]. rewrite !fmap_cons. by rewrite Hx, IHl.
  - cbn [written]. rewrite !canonical_ref_obj. unfold sorted_keys at 1. rewrite written_keys.
    fold (sorted_keys o). do 3 f_equal. apply list_fmap_ext. intros i k _. unfold entry_text.
    rewrite mget_fmap_snd. destruct (mget o k) as [v|] eqn:E; [|done]. simpl.
    apply mget_elem in E. rewrite Forall_forall in IH. specialize (IH _ E). simpl in IH. by rewrite IH.
Qed.

Lemma finite_written v : wf_json v → finite_json (written v).
Proof.
  induction v as [|b|n|s|l IH|o IH] using json_nested_ind; inversion 1; subst; try by constructor.
  - destruct n; by constructor.
  - constructor. apply Forall_fmap. rewrite Forall_forall in *. intros x Hx. apply IH; auto.
  - constructor; rewrite ?written_keys; try done. unfold mvalues. rewrite <- list_fmap_compose.
    apply Forall_fmap, Forall_forall. rewrite !Forall_forall in *. intros kv Hkv. apply (IH kv Hkv).
    apply H3. apply list_elem_of_fmap. eauto.
Qed.

Lemma written_finite v : finite_json v → written v = v.
Proof.
  induction v as [|b|n|s|l IH|o IH] using json_nested_ind; inversion 1; subst; try done.
  - by destruct n.
  - cbn [written]. f_equal. rewrite <- (list_fmap_id l) at 2. apply list_fmap_ext.
    intros i x Hx%list_elem_of_lookup_2. rewrite Forall_forall in *. apply IH; auto.
  - cbn [written]. f_equal. rewrite <- (list_fmap_id o) at 2. apply list_fmap_ext.
    intros i [k x] Hx%list_elem_of_lookup_2. rewrite !Forall_forall in *. simpl. f_equal.
    apply (IH (k, x)); [done|]. apply H3. apply list_elem_of_fmap. eexists (_, _). eauto.
Qed.

(** ** Properties *)

(** The iterative canonicalisation is the recursive one: its loop over an explicit stack ends, within
    a number of turns linear in the value, and the pieces it wrote join to the text the recursive
    definition gives. *)
Theorem canonical_loop_refines_ref root :
  ∃ pieces, canon_loop (canon_turns root) (canon_open root {| out := []; stack := [] |}) = Some pieces
            ∧ canonical root = mjoin pieces ∧ mjoin pieces = canonical_ref root.
Proof.
  destruct (canon_loop_done root) as (ps & E & H). exists ps. split_and!; [done| |done].
  unfold canonical. by rewrite E.
Qed.

(** C39 Two values [JSON.parse] can return have one canonical text exactly when the values
    [JSON.stringify] writes for them are equal up to the order of properties: a number too large for a
    double, which parses to an infinity, counts as [null], and nothing else is confused. So between values
    whose numbers are finite the comparison that tells a replayed event from a conflicting one neither
    confuses different values nor separates equal ones. *)
Theorem canonical_iff_eqv v1 v2 :
  wf_json v1 → wf_json v2 →
  (canonical v1 = canonical v2 ↔ json_eqv (written v1) (written v2)) ∧
  (finite_json v1 → written v1 = v1).
Proof.
  intros W1 W2. rewrite !canonical_eq_ref, <- (canonical_ref_written v1), <- (canonical_ref_written v2).
  split; [|apply written_finite].
  split; [apply canonical_ref_inj; by apply finite_written | apply canonical_ref_eqv].
Qed.

Definition sample_object (first second : str * json) : json := JObj [first; second].
Definition sample_a : str * json := (js "a", JNum (NInt 1)).
Definition sample_b : str * json := (js "b", JArr [JNull; JStr (js "x")]).

Definition sample_overflow : str * json := (js "b", JArr [JNum (NInf false); JStr (js "x")]).

(** Property order does not show, and nor does [1e999] in place of [null]. *)
Lemma canonical_iff_eqv_witness :
  canonical (sample_object sample_a sample_b) = canonical (sample_object sample_b sample_a) ∧
  canonical (sample_object sample_a sample_b) = canonical (sample_object sample_overflow sample_a) ∧
  json_eqv (sample_object sample_a sample_b) (sample_object sample_b sample_a).
Proof.
  split; [vm_compute; reflexivity|].
  assert (wf_json (sample_object sample_a sample_b) ∧ wf_json (sample_object sample_b sample_a) ∧
          wf_json (sample_object sample_overflow sample_a)) as (W1 & W2 & W3).
  { split_and!; (constructor; [apply (bool_decide_unpack _); vm_compute; exact I|repeat constructor|repeat constructor]). }
  split.
  - apply (canonical_iff_eqv (sample_object sample_a sample_b) (sample_object sample_overflow sample_a)); [done..|].
    apply (canonical_iff_eqv (sample_object sample_a sample_b) (sample_object sample_b sample_a)); [done..|].
    vm_compute. reflexivity.
  - apply (canonical_iff_eqv (sample_object sample_a sample_b) (sample_object sample_b sample_a)); [done..|].
    vm_compute. reflexivity.
Defined.

(** An overflowing literal and [null] have one canonical text although they are different values:
    the comparison of duplicate events cannot tell [1e999] from [null]. *)
Theorem canonical_overflow_collides b :
  canonical (JNum (NInf b)) = canonical JNull ∧ ¬ json_eqv (JNum (NInf b)) JNull.
Proof. split; [done|]. inversion 1. Qed.
