(* ===== verification/Model.v ===== *)
(** * The protocol's data (ts/packages/protocol/src/model.ts)

    One record per interface, one inductive type per union of string literals.
    An optional property is an [option]; an object used as a map is its entries
    in property order. *)

From S2P Require Import Prelude JsString JsMap Json.

Local Open Scope Z_scope.

Inductive Status := StPassed | StFailed | StSkipped | StInconclusive.
Inductive SessionStatus := SePassed | SeFailed | SeInconclusive.
Inductive ExpectedStatus := ExPassed | ExFailed | ExSkipped.
Inductive HistoricalIdStability := Stable | Uncertain | Unavailable.
Inductive FailurePhase := PhSetup | PhTest | PhTeardown.

#[export] Instance Status_eq_dec : EqDecision Status.
Proof. solve_decision. Defined.
#[export] Instance SessionStatus_eq_dec : EqDecision SessionStatus.
Proof. solve_decision. Defined.
#[export] Instance ExpectedStatus_eq_dec : EqDecision ExpectedStatus.
Proof. solve_decision. Defined.
#[export] Instance HistoricalIdStability_eq_dec : EqDecision HistoricalIdStability.
Proof. solve_decision. Defined.
#[export] Instance FailurePhase_eq_dec : EqDecision FailurePhase.
Proof. solve_decision. Defined.

Definition STATUSES : list Status := [StPassed; StFailed; StSkipped; StInconclusive].
Definition EXPECTED_STATUSES : list ExpectedStatus := [ExPassed; ExFailed; ExSkipped].
Definition HISTORICAL_ID_STABILITIES : list HistoricalIdStability := [Stable; Uncertain; Unavailable].
Definition FAILURE_PHASES : list FailurePhase := [PhSetup; PhTest; PhTeardown].

(** The literal each value is. *)
Definition status_text (s : Status) : str :=
  match s with StPassed => js "passed" | StFailed => js "failed" | StSkipped => js "skipped"
             | StInconclusive => js "inconclusive" end.
Definition session_status_text (s : SessionStatus) : str :=
  match s with SePassed => js "passed" | SeFailed => js "failed"
             | SeInconclusive => js "inconclusive" end.
Definition expected_text (s : ExpectedStatus) : str :=
  match s with ExPassed => js "passed" | ExFailed => js "failed" | ExSkipped => js "skipped" end.
Definition stability_text (s : HistoricalIdStability) : str :=
  match s with Stable => js "stable" | Uncertain => js "uncertain"
             | Unavailable => js "unavailable" end.
Definition phase_text (p : FailurePhase) : str :=
  match p with PhSetup => js "setup" | PhTest => js "test" | PhTeardown => js "teardown" end.

Record Component := { c_name : str; c_version : option str }.
Record Executor := { x_name : option str; x_buildId : option str; x_buildUrl : option str }.
Record Source := { s_repository : option str; s_revision : option str; s_branch : option str }.
Record Location := { l_file : str; l_line : option Z; l_column : option Z }.
Record PathSegment := { p_kind : str; p_name : str }.

Record Failure := {
  f_message : str;
  f_type : option str;
  f_stackTrace : option str;
  f_phase : option FailurePhase;
  f_location : option Location;
}.

Record TestCase := {
  t_executionId : str;
  t_historicalId : option str;
  t_historicalIdStability : HistoricalIdStability;
  t_displayName : str;
  t_path : list PathSegment;
  t_location : option Location;
  t_tags : option (list str);
  t_labels : option (jsmap str str);
}.

Record SessionStartedPayload := {
  ss_producer : Component;
  ss_runner : option Component;
  ss_environment : option (jsmap str str);
  ss_executor : option Executor;
  ss_source : option Source;
  ss_labels : option (jsmap str str);
}.

Record SessionFinishedPayload := {
  sf_status : option SessionStatus;
  sf_rawStatus : option str;
  sf_failures : option (list Failure);
}.

Record AttemptStartedPayload := {
  as_attemptId : str;
  as_attemptNumber : Z;
  as_test : TestCase;
}.

Record AttemptFinishedPayload := {
  af_attemptId : str;
  af_status : Status;
  af_rawStatus : option str;
  af_expectedStatus : option ExpectedStatus;
  af_durationMs : option Z;
  af_failures : option (list Failure);
}.

Record StepStartedPayload := {
  st_stepId : str;
  st_attemptId : str;
  st_parentStepId : option str;
  st_name : str;
  st_kind : option str;
  st_location : option Location;
}.

Record StepFinishedPayload := {
  sp_stepId : str;
  sp_attemptId : str;
  sp_status : Status;
  sp_rawStatus : option str;
  sp_durationMs : option Z;
  sp_failures : option (list Failure);
}.

Record AttachmentAddedPayload := {
  aa_attemptId : str;
  aa_stepId : option str;
  aa_name : str;
  aa_mediaType : str;
  aa_sizeBytes : Z;
  aa_sha256 : str;
}.

Record ScopeFailedPayload := {
  sc_path : list PathSegment;
  sc_displayName : option str;
  sc_rawStatus : option str;
  sc_location : option Location;
  sc_failures : list Failure;
}.

Record Envelope := {
  protocolVersion : str;
  eventId : str;
  runId : str;
  sessionId : str;
  sequence : Z;
  occurredAt : str;
  ignorable : option bool;
}.

(** The payload of a known event; its constructor is the [eventType]. *)
Inductive Payload :=
| SessionStarted (p : SessionStartedPayload)
| SessionFinished (p : SessionFinishedPayload)
| RunFinished
| AttemptStarted (p : AttemptStartedPayload)
| AttemptFinished (p : AttemptFinishedPayload)
| StepStarted (p : StepStartedPayload)
| StepFinished (p : StepFinishedPayload)
| AttachmentAdded (p : AttachmentAddedPayload)
| ScopeFailed (p : ScopeFailedPayload).

Record Event := { e_env : Envelope; e_payload : Payload }.

(** An event of a type this binding does not know, its payload kept verbatim. *)
Record UnknownEvent := { u_env : Envelope; u_eventType : str; u_payload : obj }.

Inductive AnyEvent := Known (e : Event) | Unknown (u : UnknownEvent).

Definition EVENT_TYPES : list str :=
  [js "session.started"; js "session.finished"; js "run.finished"; js "attempt.started";
   js "attempt.finished"; js "step.started"; js "step.finished"; js "attachment.added";
   js "scope.failed"].

Definition isKnownEventType (eventType : str) : bool :=
  bool_decide (eventType ∈ EVENT_TYPES).

Definition payload_type (p : Payload) : str :=
  match p with
  | SessionStarted _ => js "session.started"
  | SessionFinished _ => js "session.finished"
  | RunFinished => js "run.finished"
  | AttemptStarted _ => js "attempt.started"
  | AttemptFinished _ => js "attempt.finished"
  | StepStarted _ => js "step.started"
  | StepFinished _ => js "step.finished"
  | AttachmentAdded _ => js "attachment.added"
  | ScopeFailed _ => js "scope.failed"
  end.

Definition any_env (e : AnyEvent) : Envelope :=
  match e with Known e => e_env e | Unknown u => u_env u end.
Definition any_type (e : AnyEvent) : str :=
  match e with Known e => payload_type (e_payload e) | Unknown u => u_eventType u end.

Definition isKnownEvent (e : AnyEvent) : bool := isKnownEventType (any_type e).

(** [LIMITS.maxEventBytes] *)
Definition maxEventBytes_limit : Z := 1048576.

Lemma payload_type_known p : isKnownEventType (payload_type p) = true.
Proof. by destruct p. Qed.

Lemma EVENT_TYPES_NoDup : NoDup EVENT_TYPES.
Proof. apply (bool_decide_unpack _). vm_compute. exact I. Qed.

(** ** Protocol versions (ts/packages/protocol/src/version.ts) *)

Definition PROTOCOL_VERSION : str := js "0.3.0".
Definition SUPPORTED_MAJOR : Z := 0.
Definition SUPPORTED_MINOR : Z := 3.

Record ParsedVersion := { v_major : Z; v_minor : Z; v_patch : Z }.

(** [s.split(c)]: never empty, as in JavaScript. *)
Fixpoint split_on (c : N) (s : str) : list str :=
  match s with
  | [] => [[]]
  | u :: s' =>
      if (u =? c)%N then [] :: split_on c s'
      else match split_on c s' with p :: ps => (u :: p) :: ps | [] => [[u]] end
  end.

(** One group of SEMVER: [0|[1-9][0-9]*]. *)
Definition semver_number (s : str) : bool :=
  match s with
  | [] => false
  | [u] => is_digit u
  | u :: s' => in_range 49 57 u && forallb is_digit s'
  end.

(** The value of a digit string ([Number], exact here; only equality with small
    numbers is asked of it): exact up to 2^53 - 1. *)
Definition number_of (s : str) : Z := undigits_from 0 s.

(** [parseProtocolVersion]: three SEMVER groups between dots. *)
Definition parseProtocolVersion (version : str) : option ParsedVersion :=
  match split_on 46 version with
  | [a; b; c] =>
      if semver_number a && semver_number b && semver_number c
      then Some {| v_major := number_of a; v_minor := number_of b; v_patch := number_of c |}
      else None
  | _ => None
  end.

Definition isSupportedParsed (v : ParsedVersion) : bool :=
  (v_major v =? SUPPORTED_MAJOR) && (v_minor v =? SUPPORTED_MINOR).

(** [isSupportedProtocolVersion] on a string. *)
Definition isSupportedProtocolVersion (version : str) : bool :=
  match parseProtocolVersion version with Some v => isSupportedParsed v | None => false end.

(** The text of a version. *)
Definition version_text (v : ParsedVersion) : str :=
  dec (v_major v) ++ js "." ++ dec (v_minor v) ++ js "." ++ dec (v_patch v).

(** Components that a JavaScript number holds exactly. *)
Definition wf_part (n : Z) : Prop := 0 <= n <= 9007199254740991.
Definition wf_version (v : ParsedVersion) : Prop :=
  wf_part (v_major v) ∧ wf_part (v_minor v) ∧ wf_part (v_patch v).

(** ** Lemmas *)

Lemma split_on_prefix c a s :
  forallb (λ u, negb (u =? c)%N) a = true → split_on c (a ++ c :: s) = a :: split_on c s.
Proof.
  induction a as [|u a IH]; simpl; [by rewrite N.eqb_refl|].
  intros [Hu%negb_true_iff Ha]%andb_true_iff. by rewrite Hu, IH.
Qed.

Lemma split_on_single c a : forallb (λ u, negb (u =? c)%N) a = true → split_on c a = [a].
Proof.
  induction a as [|u a IH]; simpl; [done|].
  intros [Hu%negb_true_iff Ha]%andb_true_iff. by rewrite Hu, IH.
Qed.

(** The parts joined again. *)
Lemma split_on_inv c s p ps : split_on c s = p :: ps → s = p ++ mjoin ((λ q, c :: q) <$> ps).
Proof.
  revert p ps. induction s as [|u s IH]; intros p ps; csimpl; [by intros [= <- <-]|].
  destruct (N.eqb_spec u c) as [->|Hne].
  - intros [= <- <-]. destruct (split_on c s) as [|q qs] eqn:E; csimpl.
    + by destruct s as [|? s]; csimpl in E; [|destruct (_ =? c)%N; [|destruct (split_on c s)]].
    + by rewrite (IH q qs eq_refl).
  - destruct (split_on c s) as [|q qs] eqn:E; intros [= <- <-].
    + by destruct s as [|? s]; csimpl in E; [|destruct (_ =? c)%N; [|destruct (split_on c s)]].
    + csimpl. by rewrite (IH q qs eq_refl).
Qed.

Lemma undigits_ge a s : 0 <= a → forallb is_digit s = true → a <= undigits_from a s.
Proof.
  revert a. induction s as [|u s IH]; intros a Ha; [done|].
  intros [Hu Hs]%andb_true_iff. unfold is_digit, in_range in Hu.
  apply andb_true_iff in Hu as [Hu%N.leb_le _]. unfold undigits_from in *. simpl.
  specialize (IH (a * 10 + (Z.of_N u - 48)) ltac:(lia) Hs). lia.
Qed.

Lemma semver_digits s : semver_number s = true → forallb is_digit s = true.
Proof.
  destruct s as [|u [|u' s]]; simpl; [done|by rewrite andb_true_r|].
  intros [H ->]%andb_true_iff. rewrite andb_true_r. unfold is_digit, in_range in *.
  apply andb_true_iff in H as [H1 H2]. rewrite N.leb_le in H1. rewrite H2, andb_true_r, N.leb_le. lia.
Qed.

(** A group below ten is one digit. *)
Lemma semver_small s n :
  semver_number s = true → number_of s = n → n < 10 → s = [Z.to_N (48 + n)].
Proof.
  intros Hs Hn Hlt. destruct s as [|u [|u' s]]; [done| |].
  - unfold number_of in Hn. simpl in *. unfold is_digit, in_range in Hs.
    apply andb_true_iff in Hs as [H1%N.leb_le H2%N.leb_le]. f_equal. lia.
  - exfalso. cbn [semver_number] in Hs. apply andb_true_iff in Hs as [Hu Hs].
    unfold in_range in Hu. apply andb_true_iff in Hu as [H1%N.leb_le _].
    assert (10 <= undigits_from (Z.of_N u - 48) (u' :: s)) as Hge.
    { unfold undigits_from. simpl. simpl in Hs. apply andb_true_iff in Hs as [Hu' Hs].
      unfold is_digit, in_range in Hu'. apply andb_true_iff in Hu' as [H3%N.leb_le _].
      pose proof (undigits_ge ((Z.of_N u - 48) * 10 + (Z.of_N u' - 48)) s ltac:(lia) Hs) as Hx.
      unfold undigits_from in Hx. lia. }
    unfold number_of in Hn. change (undigits_from (Z.of_N u - 48) (u' :: s) = n) in Hn. lia.
Qed.

Lemma digits_no_dot s : forallb is_digit s = true → forallb (λ u, negb (u =? 46)%N) s = true.
Proof.
  induction s as [|u s IH]; [done|]. simpl. intros [Hu Hs]%andb_true_iff. rewrite (IH Hs), andb_true_r.
  unfold is_digit, in_range in Hu. apply andb_true_iff in Hu as [H1%N.leb_le _].
  apply negb_true_iff, N.eqb_neq. lia.
Qed.

(** The decimal text of a natural number has no leading zero. *)
Lemma digits_fuel_lead fuel n :
  1 <= n < 10 ^ Z.of_nat fuel →
  ∃ u s, digits_fuel fuel n [] = u :: s ∧ in_range 49 57 u = true.
Proof.
  revert n. induction fuel as [|fuel IH]; intros n Hn; [simpl in Hn; lia|]. cbn [digits_fuel].
  destruct (Z.ltb_spec n 10).
  - exists (Z.to_N (48 + n mod 10)), []. split; [done|]. rewrite Z.mod_small by lia.
    unfold in_range. rewrite andb_true_iff, !N.leb_le. lia.
  - rewrite digits_fuel_acc. rewrite Nat2Z.inj_succ, Z.pow_succ_r in Hn by lia.
    destruct (IH (n / 10)) as (u & s & E & Hu).
    { split; [apply Z.div_le_lower_bound; lia|]. apply Z.div_lt_upper_bound; lia. }
    exists u, (s ++ [Z.to_N (48 + n mod 10)]). by rewrite E.
Qed.

Lemma semver_dec n : 0 <= n → semver_number (dec n) = true.
Proof.
  intros Hn. unfold dec. destruct (Z.ltb_spec n 0); [lia|].
  destruct (decide (n = 0)) as [->|Hne]; [done|].
  pose proof (dec_nonneg_digits n Hn) as Hd. pose proof (dec_nonneg_fuel n Hn).
  destruct (digits_fuel_lead (S (Z.to_nat (Z.log2 n))) n) as (u & s & E & Hu); [lia|].
  unfold dec_nonneg in *. rewrite E in *. destruct s as [|u' s]; [by simpl in Hd; rewrite andb_true_r in Hd|].
  cbn [semver_number]. rewrite Hu. simpl in *. by apply andb_true_iff in Hd as [_ Hd].
Qed.

Lemma dec_digits n : 0 <= n → forallb is_digit (dec n) = true.
Proof. intros. by apply semver_digits, semver_dec. Qed.

Lemma number_of_dec n : 0 <= n → number_of (dec n) = n.
Proof.
  intros Hn. unfold number_of, dec. destruct (Z.ltb_spec n 0); [lia|]. by apply undigits_dec_nonneg.
Qed.

(** ** Properties *)

(** A version's text parses back to the version. *)
Theorem parse_version_text v : wf_version v → parseProtocolVersion (version_text v) = Some v.
Proof.
  intros ([H1 _] & [H2 _] & [H3 _]). unfold parseProtocolVersion, version_text.
  change (js "." ++ dec (v_minor v) ++ js "." ++ dec (v_patch v))
    with (46%N :: dec (v_minor v) ++ 46%N :: dec (v_patch v)).
  rewrite !split_on_prefix, split_on_single by (by apply digits_no_dot, dec_digits).
  rewrite !semver_dec, !number_of_dec by done. by destruct v.
Qed.

Lemma parse_version_text_witness :
  wf_version {| v_major := 0; v_minor := 3; v_patch := 17 |} ∧
  parseProtocolVersion (js "0.3.17") = Some {| v_major := 0; v_minor := 3; v_patch := 17 |}.
Proof.
  assert (wf_version {| v_major := 0; v_minor := 3; v_patch := 17 |}) as H by (split_and!; unfold wf_part; simpl; lia).
  split; [exact H|]. exact (parse_version_text _ H).
Defined.

(** A version is supported exactly when it is on the line 0.3: [0.3.] and one SEMVER group. *)
Theorem supported_iff_line_0_3 s :
  isSupportedProtocolVersion s = true ↔ ∃ p, s = js "0.3." ++ p ∧ semver_number p = true.
Proof.
  unfold isSupportedProtocolVersion, parseProtocolVersion. split.
  - destruct (split_on 46 s) as [|a [|b [|c []]]] eqn:E; try done.
    destruct (semver_number a && semver_number b && semver_number c) eqn:Hs; [|done].
    apply andb_true_iff in Hs as [[Ha Hb]%andb_true_iff Hc]. unfold isSupportedParsed. simpl.
    intros [H0%Z.eqb_eq H3%Z.eqb_eq]%andb_true_iff. exists c. split; [|done].
    apply split_on_inv in E. rewrite E. csimpl. rewrite app_nil_r.
    rewrite (semver_small a 0 Ha H0 ltac:(done)), (semver_small b 3 Hb H3 ltac:(done)). done.
  - intros (p & -> & Hp).
    assert (split_on 46 (js "0.3." ++ p) = [js "0"; js "3"; p]) as ->.
    { change (js "0.3." ++ p) with (js "0" ++ 46%N :: js "3" ++ 46%N :: p).
      rewrite !split_on_prefix by done. by rewrite split_on_single by (by apply digits_no_dot, semver_digits). }
    by rewrite Hp.
Qed.
