(* ===== verification/Codec.v ===== *)
(** * The codec (ts/packages/protocol/src/codec.ts, errors.ts)

    Reading one event from a parsed JSON value, with every check in source
    order so that the first violation is the one thrown, and writing an event
    back as a JSON object in its fixed field order. *)

From S2P Require Import Prelude JsString JsMap Json Model.

Local Open Scope Z_scope.

(** ** ProtocolError *)

Inductive ProtocolErrorCode :=
| MALFORMED_JSON | SCHEMA_INVALID | UNSUPPORTED_PROTOCOL_VERSION | UNSUPPORTED_EVENT_TYPE.

Record ProtocolError := { pe_code : ProtocolErrorCode; pe_message : str; pe_pointer : option str }.

Abbreviation resP := (res ProtocolError).

Definition invalid (pointer message : str) : ProtocolError :=
  {| pe_code := SCHEMA_INVALID; pe_message := pointer ++ js ": " ++ message;
     pe_pointer := Some pointer |}.

(** ** Regular expressions *)

(** IDENTIFIER: [^[\x21-\x7E]+$] *)
Definition is_identifier (s : str) : bool :=
  negb (bool_decide (s = [])) && forallb (in_range 0x21 0x7E) s.

(** One word of EVENT_TYPE: [[a-z][a-zA-Z0-9]*] *)
Definition is_type_word (s : str) : bool :=
  match s with u :: s' => is_lower u && forallb is_alnum s' | [] => false end.

(** EVENT_TYPE: two or more words between dots. *)
Definition is_event_type (s : str) : bool :=
  let words := split_on 46 s in (1 <? length words)%nat && forallb is_type_word words.

(** [\d{n}] at the front of [s]: the rest after it. *)
Fixpoint skip_digits (n : nat) (s : str) : option str :=
  match n with
  | O => Some s
  | S n' => match s with u :: s' => if is_digit u then skip_digits n' s' else None | [] => None end
  end.

Definition skip_char (c : N) (s : str) : option str :=
  match s with u :: s' => if (u =? c)%N then Some s' else None | [] => None end.

Fixpoint span_digits (s : str) : str * str :=
  match s with
  | u :: s' => if is_digit u then prod_map (cons u) id (span_digits s') else ([], s)
  | [] => ([], [])
  end.

(** The pieces of a pattern in sequence. *)
Definition skip_all (ps : list (str → option str)) (s : str) : option str :=
  foldl (λ o p, match o with Some s' => p s' | None => None end) (Some s) ps.

(** [(\.\d{1,9})?] at the front of [s]. *)
Definition skip_fraction (s : str) : option str :=
  match skip_char 46 s with
  | Some s' =>
      let '(ds, rest) := span_digits s' in
      if (1 <=? length ds)%nat && (length ds <=? 9)%nat then Some rest else None
  | None => Some s
  end.

(** [(Z|[+-]\d{2}:\d{2})] *)
Definition skip_zone (s : str) : option str :=
  match s with
  | u :: s' =>
      if (u =? 90)%N then Some s'
      else if (u =? 43)%N || (u =? 45)%N
      then skip_all [skip_digits 2; skip_char 58; skip_digits 2] s'
      else None
  | [] => None
  end.

(** TIMESTAMP: the shape of an ISO-8601 date-time with an offset. *)
Definition is_timestamp (s : str) : bool :=
  bool_decide (skip_all [skip_digits 4; skip_char 45; skip_digits 2; skip_char 45; skip_digits 2;
    skip_char 84; skip_digits 2; skip_char 58; skip_digits 2; skip_char 58; skip_digits 2;
    skip_fraction; skip_zone] s = Some []).

(** ** Readers *)

(** A producer-supplied value quoted for a diagnostic, cut at 64 code units. *)
Definition shown (value : str) : str :=
  let cut := (64 <? length value)%nat in
  json_quote (if cut then take 64 value else value) ++ (if cut then js "..." else []).

Definition slash (at_ field : str) : str := at_ ++ js "/" ++ field.

(** A property that is absent or null. *)
Definition absent (v : option json) : bool :=
  match v with None | Some JNull => true | Some _ => false end.

Definition required (o : obj) (field at_ : str) : resP json :=
  match mget o field with
  | None | Some JNull => Throw (invalid at_ (js "missing required property " ++ field))
  | Some v => Ok v
  end.

Definition requiredString (o : obj) (field at_ : str) : resP str :=
  v ← required o field at_;
  match v with JStr s => Ok s | _ => Throw (invalid (slash at_ field) (js "must be a string")) end.

Definition optionalString (o : obj) (field at_ : str) : resP (option str) :=
  match mget o field with
  | None | Some JNull => Ok None
  | Some (JStr s) => Ok (Some s)
  | Some _ => Throw (invalid (slash at_ field) (js "must be a string"))
  end.

Definition not_identifier (at_ field : str) : ProtocolError :=
  invalid (slash at_ field) (js "must be printable ASCII without spaces").

Definition identifier (o : obj) (field at_ : str) : resP str :=
  s ← requiredString o field at_;
  if is_identifier s then Ok s else Throw (not_identifier at_ field).

Definition optionalIdentifier (o : obj) (field at_ : str) : resP (option str) :=
  s ← optionalString o field at_;
  match s with
  | Some t => if is_identifier t then Ok s else Throw (not_identifier at_ field)
  | None => Ok None
  end.

(** A safe integer, or nothing. *)
Definition safe_int (v : json) : option Z :=
  match v with JNum (NInt z) => if is_safe_integer (NInt z) then Some z else None | _ => None end.

Definition integral (o : obj) (field at_ : str) : resP Z :=
  v ← required o field at_;
  match safe_int v with
  | Some z => Ok z
  | None => Throw (invalid (slash at_ field) (js "must be an integer"))
  end.

Definition optionalIntegral (o : obj) (field at_ : str) : resP (option Z) :=
  match mget o field with
  | None | Some JNull => Ok None
  | Some v =>
      match safe_int v with
      | Some z => Ok (Some z)
      | None => Throw (invalid (slash at_ field) (js "must be an integer"))
      end
  end.

(** [oneOf]: the allowed value whose literal the string is. *)
Definition oneOf {T : Type} (text : T → str) (value : str) (allowed : list T) (at_ : str) : resP T :=
  match List.find (λ t, str_eqb (text t) value) allowed with
  | Some t => Ok t
  | None => Throw (invalid at_ (js "unknown value " ++ shown value))
  end.

Fixpoint string_entries (entries : obj) (at_ : str) : resP (jsmap str str) :=
  match entries with
  | [] => Ok []
  | (k, v) :: rest =>
      match v with
      | JStr s => r ← string_entries rest at_; Ok ((k, s) :: r)
      | _ => Throw (invalid (slash at_ k) (js "must be a string"))
      end
  end.

Definition stringMap (o : obj) (field at_ : str) : resP (option (jsmap str str)) :=
  match mget o field with
  | None | Some JNull => Ok None
  | Some (JObj v) => Some <$> string_entries v (slash at_ field)
  | Some _ => Throw (invalid (slash at_ field) (js "must be an object of strings"))
  end.

Definition nat_text (i : nat) : str := dec (Z.of_nat i).

Definition stringList (o : obj) (field at_ : str) : resP (option (list str)) :=
  match mget o field with
  | None | Some JNull => Ok None
  | Some (JArr v) =>
      Some <$> mapMi (λ i item,
        match item with
        | JStr s => Ok s
        | _ => Throw (invalid (slash (slash at_ field) (nat_text i)) (js "must be a string"))
        end) v
  | Some _ => Throw (invalid (slash at_ field) (js "must be an array of strings"))
  end.

Definition optionalObject {T : Type} (o : obj) (field at_ : str) (read : obj → str → resP T)
    : resP (option T) :=
  match mget o field with
  | None | Some JNull => Ok None
  | Some (JObj v) => Some <$> read v (slash at_ field)
  | Some _ => Throw (invalid (slash at_ field) (js "must be an object"))
  end.

Definition component (o : obj) (at_ : str) : resP Component :=
  name ← requiredString o (js "name") at_;
  version ← optionalString o (js "version") at_;
  Ok {| c_name := name; c_version := version |}.

Definition executor (o : obj) (at_ : str) : resP Executor :=
  name ← optionalString o (js "name") at_;
  buildId ← optionalString o (js "buildId") at_;
  buildUrl ← optionalString o (js "buildUrl") at_;
  Ok {| x_name := name; x_buildId := buildId; x_buildUrl := buildUrl |}.

Definition source (o : obj) (at_ : str) : resP Source :=
  repository ← optionalString o (js "repository") at_;
  revision ← optionalString o (js "revision") at_;
  branch ← optionalString o (js "branch") at_;
  Ok {| s_repository := repository; s_revision := revision; s_branch := branch |}.

Definition location (o : obj) (at_ : str) : resP Location :=
  file ← requiredString o (js "file") at_;
  line ← optionalIntegral o (js "line") at_;
  column ← optionalIntegral o (js "column") at_;
  Ok {| l_file := file; l_line := line; l_column := column |}.

Definition failure_phase (f : obj) (fAt : str) (phaseRaw : option str) : resP (option FailurePhase) :=
  match phaseRaw with
  | None => Ok None
  | Some raw => Some <$> oneOf phase_text raw FAILURE_PHASES (slash fAt (js "phase"))
  end.

Definition failure (at_ : str) (i : nat) (f : json) : resP Failure :=
  let fAt := slash (slash at_ (js "failures")) (nat_text i) in
  match f with
  | JObj f =>
      phaseRaw ← optionalString f (js "phase") fAt;
      message ← requiredString f (js "message") fAt;
      type ← optionalString f (js "type") fAt;
      stackTrace ← optionalString f (js "stackTrace") fAt;
      phase ← failure_phase f fAt phaseRaw;
      loc ← optionalObject f (js "location") fAt location;
      Ok {| f_message := message; f_type := type; f_stackTrace := stackTrace; f_phase := phase;
            f_location := loc |}
  | _ => Throw (invalid fAt (js "must be an object"))
  end.

Definition failures (o : obj) (at_ : str) : resP (option (list Failure)) :=
  match mget o (js "failures") with
  | None | Some JNull => Ok None
  | Some (JArr v) => Some <$> mapMi (failure at_) v
  | Some _ => Throw (invalid (slash at_ (js "failures")) (js "must be an array"))
  end.

Definition path_segment (at_ : str) (i : nat) (seg : json) : resP PathSegment :=
  let segAt := slash at_ (nat_text i) in
  match seg with
  | JObj seg =>
      kind ← requiredString seg (js "kind") segAt;
      name ← requiredString seg (js "name") segAt;
      Ok {| p_kind := kind; p_name := name |}
  | _ => Throw (invalid segAt (js "must be an object"))
  end.

Definition pathSegments (raw : json) (at_ : str) : resP (list PathSegment) :=
  match raw with
  | JArr l => mapMi (path_segment at_) l
  | _ => Throw (invalid at_ (js "must be an array"))
  end.

Definition is_unavailable (s : HistoricalIdStability) : bool := bool_decide (s = Unavailable).

Definition testCase (o : obj) (at_ : str) : resP TestCase :=
  raw ← requiredString o (js "historicalIdStability") at_;
  stability ← oneOf stability_text raw HISTORICAL_ID_STABILITIES
                (slash at_ (js "historicalIdStability"));
  historicalId ← optionalString o (js "historicalId") at_;
  _ ← throw_if (is_unavailable stability && bool_decide (is_Some historicalId))
        (invalid (slash at_ (js "historicalId"))
           (js "must be absent when historicalIdStability is unavailable"));
  _ ← throw_if (negb (is_unavailable stability) && bool_decide (historicalId = None))
        (invalid at_ (js "historicalId is required unless historicalIdStability is unavailable"));
  path ← (p ← required o (js "path") at_; pathSegments p (slash at_ (js "path")));
  executionId ← identifier o (js "executionId") at_;
  displayName ← requiredString o (js "displayName") at_;
  loc ← optionalObject o (js "location") at_ location;
  tags ← stringList o (js "tags") at_;
  labels ← stringMap o (js "labels") at_;
  Ok {| t_executionId := executionId; t_historicalId := historicalId;
        t_historicalIdStability := stability; t_displayName := displayName; t_path := path;
        t_location := loc; t_tags := tags; t_labels := labels |}.

(** ** Payloads *)

Definition at_payload : str := js "/payload".

Definition readSessionStarted (p : obj) : resP SessionStartedPayload :=
  producerRaw ← required p (js "producer") at_payload;
  producerObj ← match producerRaw with
                | JObj o => Ok o
                | _ => Throw (invalid (slash at_payload (js "producer")) (js "must be an object"))
                end;
  producer ← component producerObj (slash at_payload (js "producer"));
  runner ← optionalObject p (js "runner") at_payload component;
  environment ← stringMap p (js "environment") at_payload;
  exec ← optionalObject p (js "executor") at_payload executor;
  src ← optionalObject p (js "source") at_payload source;
  labels ← stringMap p (js "labels") at_payload;
  Ok {| ss_producer := producer; ss_runner := runner; ss_environment := environment;
        ss_executor := exec; ss_source := src; ss_labels := labels |}.

(** [isSessionStatus] *)
Definition isSessionStatus (s : str) : option SessionStatus :=
  List.find (λ t, str_eqb (session_status_text t) s) [SePassed; SeFailed; SeInconclusive].

Definition readSessionStatus (raw : option str) : resP (option SessionStatus) :=
  match raw with
  | None => Ok None
  | Some s =>
      match isSessionStatus s with
      | Some t => Ok (Some t)
      | None => Throw (invalid (slash at_payload (js "status"))
                         (js "must be passed, failed, or inconclusive"))
      end
  end.

Definition some_failures (fs : option (list Failure)) : bool :=
  match fs with Some (_ :: _) => true | _ => false end.

Definition readSessionFinished (p : obj) : resP SessionFinishedPayload :=
  raw ← optionalString p (js "status") at_payload;
  status ← readSessionStatus raw;
  rawStatus ← optionalString p (js "rawStatus") at_payload;
  fs ← failures p at_payload;
  _ ← throw_if (bool_decide (status = None) && bool_decide (is_Some rawStatus))
        (invalid at_payload (js "rawStatus requires status"));
  _ ← throw_if (bool_decide (status = None) && some_failures fs)
        (invalid at_payload (js "failures require status"));
  _ ← throw_if (bool_decide (status = Some SePassed) && some_failures fs)
        (invalid at_payload (js "a passed session carries no failures"));
  Ok {| sf_status := status; sf_rawStatus := rawStatus;
        sf_failures := if some_failures fs then fs else None |}.

Definition readAttemptStarted (p : obj) : resP AttemptStartedPayload :=
  n ← integral p (js "attemptNumber") at_payload;
  _ ← throw_if ((n <? 1) || (1000 <? n))
        (invalid (slash at_payload (js "attemptNumber")) (js "must be between 1 and 1000"));
  testRaw ← required p (js "test") at_payload;
  testObj ← match testRaw with
            | JObj o => Ok o
            | _ => Throw (invalid (slash at_payload (js "test")) (js "must be an object"))
            end;
  attemptId ← identifier p (js "attemptId") at_payload;
  test ← testCase testObj (slash at_payload (js "test"));
  Ok {| as_attemptId := attemptId; as_attemptNumber := n; as_test := test |}.

Definition readExpected (raw : option str) : resP (option ExpectedStatus) :=
  match raw with
  | None => Ok None
  | Some e => Some <$> oneOf expected_text e EXPECTED_STATUSES (slash at_payload (js "expectedStatus"))
  end.

Definition readStatus (p : obj) : resP Status :=
  raw ← requiredString p (js "status") at_payload;
  oneOf status_text raw STATUSES (slash at_payload (js "status")).

Definition readAttemptFinished (p : obj) : resP AttemptFinishedPayload :=
  expectedRaw ← optionalString p (js "expectedStatus") at_payload;
  attemptId ← identifier p (js "attemptId") at_payload;
  status ← readStatus p;
  rawStatus ← optionalString p (js "rawStatus") at_payload;
  expectedStatus ← readExpected expectedRaw;
  durationMs ← optionalIntegral p (js "durationMs") at_payload;
  fs ← failures p at_payload;
  Ok {| af_attemptId := attemptId; af_status := status; af_rawStatus := rawStatus;
        af_expectedStatus := expectedStatus; af_durationMs := durationMs; af_failures := fs |}.

Definition readStepStarted (p : obj) : resP StepStartedPayload :=
  stepId ← identifier p (js "stepId") at_payload;
  attemptId ← identifier p (js "attemptId") at_payload;
  name ← requiredString p (js "name") at_payload;
  parentStepId ← optionalIdentifier p (js "parentStepId") at_payload;
  kind ← optionalString p (js "kind") at_payload;
  loc ← optionalObject p (js "location") at_payload location;
  Ok {| st_stepId := stepId; st_attemptId := attemptId; st_parentStepId := parentStepId;
        st_name := name; st_kind := kind; st_location := loc |}.

Definition readStepFinished (p : obj) : resP StepFinishedPayload :=
  stepId ← identifier p (js "stepId") at_payload;
  attemptId ← identifier p (js "attemptId") at_payload;
  status ← readStatus p;
  rawStatus ← optionalString p (js "rawStatus") at_payload;
  durationMs ← optionalIntegral p (js "durationMs") at_payload;
  fs ← failures p at_payload;
  Ok {| sp_stepId := stepId; sp_attemptId := attemptId; sp_status := status;
        sp_rawStatus := rawStatus; sp_durationMs := durationMs; sp_failures := fs |}.

Definition readAttachmentAdded (p : obj) : resP AttachmentAddedPayload :=
  attemptId ← identifier p (js "attemptId") at_payload;
  name ← requiredString p (js "name") at_payload;
  mediaType ← requiredString p (js "mediaType") at_payload;
  sizeBytes ← integral p (js "sizeBytes") at_payload;
  sha256 ← requiredString p (js "sha256") at_payload;
  stepId ← optionalIdentifier p (js "stepId") at_payload;
  Ok {| aa_attemptId := attemptId; aa_stepId := stepId; aa_name := name; aa_mediaType := mediaType;
        aa_sizeBytes := sizeBytes; aa_sha256 := sha256 |}.

Definition readScopeFailed (p : obj) : resP ScopeFailedPayload :=
  path ← (r ← required p (js "path") at_payload; pathSegments r (slash at_payload (js "path")));
  _ ← throw_if (length path =? 0)%nat
        (invalid (slash at_payload (js "path")) (js "must identify the failing scope"));
  fs ← failures p at_payload;
  some ← match fs with
         | Some (f :: fs') => Ok (f :: fs')
         | _ => Throw (invalid (slash at_payload (js "failures"))
                         (js "a scope failure carries at least one failure"))
         end;
  displayName ← optionalString p (js "displayName") at_payload;
  rawStatus ← optionalString p (js "rawStatus") at_payload;
  loc ← optionalObject p (js "location") at_payload location;
  Ok {| sc_path := path; sc_displayName := displayName; sc_rawStatus := rawStatus;
        sc_location := loc; sc_failures := some |}.

(** [readPayload]: the payload of a known type, or the object itself of an
    unknown type marked ignorable. *)
Definition readPayload (eventType : str) (p : obj) (ignorable : bool) : resP (Payload + obj) :=
  if str_eqb eventType (js "session.started") then inl ∘ SessionStarted <$> readSessionStarted p
  else if str_eqb eventType (js "session.finished") then inl ∘ SessionFinished <$> readSessionFinished p
  else if str_eqb eventType (js "run.finished") then Ok (inl RunFinished)
  else if str_eqb eventType (js "attempt.started") then inl ∘ AttemptStarted <$> readAttemptStarted p
  else if str_eqb eventType (js "attempt.finished") then inl ∘ AttemptFinished <$> readAttemptFinished p
  else if str_eqb eventType (js "step.started") then inl ∘ StepStarted <$> readStepStarted p
  else if str_eqb eventType (js "step.finished") then inl ∘ StepFinished <$> readStepFinished p
  else if str_eqb eventType (js "attachment.added") then inl ∘ AttachmentAdded <$> readAttachmentAdded p
  else if str_eqb eventType (js "scope.failed") then inl ∘ ScopeFailed <$> readScopeFailed p
  else if ignorable then Ok (inr p)
  else Throw {| pe_code := UNSUPPORTED_EVENT_TYPE;
                pe_message := js "event type " ++ eventType
                                ++ js " is not known and not marked ignorable";
                pe_pointer := Some (js "/eventType") |}.

(** ** Events *)

Definition readIgnorable (v : option json) : resP (option bool) :=
  match v with
  | None | Some JNull => Ok None
  | Some (JBool b) => Ok (Some b)
  | Some _ => Throw (invalid (js "/ignorable") (js "must be a boolean"))
  end.

Definition unsupported_version (protocolVersion : str) : ProtocolError :=
  {| pe_code := UNSUPPORTED_PROTOCOL_VERSION;
     pe_message := js "protocol version " ++ protocolVersion ++ js " is outside the supported line 0.3";
     pe_pointer := Some (js "/protocolVersion") |}.

(** [eventFromObject] on a JSON object. *)
Definition event_of_obj (root : obj) : resP AnyEvent :=
  protocolVersion ← requiredString root (js "protocolVersion") [];
  parsed ← match parseProtocolVersion protocolVersion with
           | Some v => Ok v
           | None => Throw (invalid (js "/protocolVersion") (js "must be a semantic version"))
           end;
  _ ← throw_if (negb (isSupportedParsed parsed)) (unsupported_version protocolVersion);
  eventType ← requiredString root (js "eventType") [];
  _ ← throw_if (negb (is_event_type eventType))
        (invalid (js "/eventType") (js "must be dotted lower-case words"));
  eventId ← identifier root (js "eventId") [];
  runId ← identifier root (js "runId") [];
  sessionId ← identifier root (js "sessionId") [];
  sequence ← integral root (js "sequence") [];
  _ ← throw_if (sequence <? 1) (invalid (js "/sequence") (js "must be >= 1"));
  occurredAt ← requiredString root (js "occurredAt") [];
  _ ← throw_if (negb (is_timestamp occurredAt))
        (invalid (js "/occurredAt") (js "must be an ISO-8601 timestamp with offset"));
  ignorable ← readIgnorable (mget root (js "ignorable"));
  payloadRaw ← match mget root (js "payload") with
               | Some (JObj o) => Ok o
               | _ => Throw (invalid (js "/payload") (js "must be an object"))
               end;
  payload ← readPayload eventType payloadRaw (bool_decide (ignorable = Some true));
  let envelope := {| protocolVersion := protocolVersion; eventId := eventId; runId := runId;
                     sessionId := sessionId; sequence := sequence; occurredAt := occurredAt;
                     ignorable := ignorable |} in
  Ok match payload with
     | inl p => Known {| e_env := envelope; e_payload := p |}
     | inr o => Unknown {| u_env := envelope; u_eventType := eventType; u_payload := o |}
     end.

Definition eventFromObject (root : json) : resP AnyEvent :=
  match root with
  | JObj o => event_of_obj o
  | _ => Throw {| pe_code := MALFORMED_JSON; pe_message := js "event must be a JSON object";
                  pe_pointer := Some [] |}
  end.

(** ** Writing *)

Definition jstr (s : str) : option json := Some (JStr s).
Definition jopt (s : option str) : option json := JStr <$> s.
Definition jint (z : Z) : json := JNum (NInt z).

(** [omitUndefined] *)
Definition omitUndefined (o : list (str * option json)) : obj :=
  omap (λ kv, (λ v, (kv.1, v)) <$> kv.2) o.

Definition writeComponent (c : Component) : obj :=
  omitUndefined [(js "name", jstr (c_name c)); (js "version", jopt (c_version c))].

Definition writeLocation (l : Location) : obj :=
  omitUndefined [(js "file", jstr (l_file l)); (js "line", jint <$> l_line l);
                 (js "column", jint <$> l_column l)].

Definition writeFailure (f : Failure) : obj :=
  omitUndefined [(js "message", jstr (f_message f)); (js "type", jopt (f_type f));
                 (js "stackTrace", jopt (f_stackTrace f));
                 (js "phase", JStr ∘ phase_text <$> f_phase f);
                 (js "location", JObj ∘ writeLocation <$> f_location f)].

Definition writeFailures (fs : option (list Failure)) : option json :=
  match fs with
  | None | Some [] => None
  | Some fs => Some (JArr (JObj ∘ writeFailure <$> fs))
  end.

Definition nonEmpty (m : option (jsmap str str)) : option json :=
  match m with
  | None | Some [] => None
  | Some m => Some (JObj ((λ kv, (kv.1, JStr kv.2)) <$> m))
  end.

Definition writeSegment (s : PathSegment) : json :=
  JObj [(js "kind", JStr (p_kind s)); (js "name", JStr (p_name s))].

Definition writeTags (tags : option (list str)) : option json :=
  match tags with
  | None | Some [] => None
  | Some tags => Some (JArr (JStr <$> tags))
  end.

Definition writeTest (t : TestCase) : obj :=
  omitUndefined
    [(js "executionId", jstr (t_executionId t)); (js "historicalId", jopt (t_historicalId t));
     (js "historicalIdStability", jstr (stability_text (t_historicalIdStability t)));
     (js "displayName", jstr (t_displayName t)); (js "path", Some (JArr (writeSegment <$> t_path t)));
     (js "location", JObj ∘ writeLocation <$> t_location t); (js "tags", writeTags (t_tags t));
     (js "labels", nonEmpty (t_labels t))].

Definition writeExecutor (x : Executor) : obj :=
  omitUndefined [(js "name", jopt (x_name x)); (js "buildId", jopt (x_buildId x));
                 (js "buildUrl", jopt (x_buildUrl x))].

Definition writeSource (s : Source) : obj :=
  omitUndefined [(js "repository", jopt (s_repository s)); (js "revision", jopt (s_revision s));
                 (js "branch", jopt (s_branch s))].

Definition writePayload (e : Payload) : obj :=
  match e with
  | SessionStarted p =>
      omitUndefined
        [(js "producer", Some (JObj (writeComponent (ss_producer p))));
         (js "runner", JObj ∘ writeComponent <$> ss_runner p);
         (js "environment", nonEmpty (ss_environment p));
         (js "executor", JObj ∘ writeExecutor <$> ss_executor p);
         (js "source", JObj ∘ writeSource <$> ss_source p); (js "labels", nonEmpty (ss_labels p))]
  | SessionFinished p =>
      omitUndefined
        [(js "status", JStr ∘ session_status_text <$> sf_status p);
         (js "rawStatus", jopt (sf_rawStatus p)); (js "failures", writeFailures (sf_failures p))]
  | RunFinished => []
  | AttemptStarted p =>
      [(js "attemptId", JStr (as_attemptId p)); (js "attemptNumber", jint (as_attemptNumber p));
       (js "test", JObj (writeTest (as_test p)))]
  | AttemptFinished p =>
      omitUndefined
        [(js "attemptId", jstr (af_attemptId p)); (js "status", jstr (status_text (af_status p)));
         (js "rawStatus", jopt (af_rawStatus p));
         (js "expectedStatus", JStr ∘ expected_text <$> af_expectedStatus p);
         (js "durationMs", jint <$> af_durationMs p); (js "failures", writeFailures (af_failures p))]
  | StepStarted p =>
      omitUndefined
        [(js "stepId", jstr (st_stepId p)); (js "attemptId", jstr (st_attemptId p));
         (js "parentStepId", jopt (st_parentStepId p)); (js "name", jstr (st_name p));
         (js "kind", jopt (st_kind p)); (js "location", JObj ∘ writeLocation <$> st_location p)]
  | StepFinished p =>
      omitUndefined
        [(js "stepId", jstr (sp_stepId p)); (js "attemptId", jstr (sp_attemptId p));
         (js "status", jstr (status_text (sp_status p))); (js "rawStatus", jopt (sp_rawStatus p));
         (js "durationMs", jint <$> sp_durationMs p); (js "failures", writeFailures (sp_failures p))]
  | AttachmentAdded p =>
      omitUndefined
        [(js "attemptId", jstr (aa_attemptId p)); (js "stepId", jopt (aa_stepId p));
         (js "name", jstr (aa_name p)); (js "mediaType", jstr (aa_mediaType p));
         (js "sizeBytes", Some (jint (aa_sizeBytes p))); (js "sha256", jstr (aa_sha256 p))]
  | ScopeFailed p =>
      omitUndefined
        [(js "path", Some (JArr (writeSegment <$> sc_path p)));
         (js "displayName", jopt (sc_displayName p)); (js "rawStatus", jopt (sc_rawStatus p));
         (js "location", JObj ∘ writeLocation <$> sc_location p);
         (js "failures", writeFailures (Some (sc_failures p)))]
  end.

(** [eventToObject] *)
Definition eventToObject (event : AnyEvent) : obj :=
  let env := any_env event in
  [(js "protocolVersion", JStr (protocolVersion env)); (js "eventId", JStr (eventId env));
   (js "eventType", JStr (any_type event)); (js "runId", JStr (runId env));
   (js "sessionId", JStr (sessionId env)); (js "sequence", jint (sequence env));
   (js "occurredAt", JStr (occurredAt env))]
  ++ match ignorable env with Some b => [(js "ignorable", JBool b)] | None => [] end
  ++ [(js "payload", JObj match event with Known e => writePayload (e_payload e)
                                         | Unknown u => u_payload u end)].

(** [JSON.stringify] of a value: property order kept. *)
Fixpoint json_text (v : json) : str :=
  match v with
  | JArr items => js "[" ++ join (js ",") (json_text <$> items) ++ js "]"
  | JObj props =>
      js "{" ++ join (js ",") ((λ kv, json_quote kv.1 ++ js ":" ++ json_text kv.2) <$> props)
        ++ js "}"
  | _ => prim_text v
  end.

Definition stringifyEvent (event : AnyEvent) : str := json_text (JObj (eventToObject event)).
