(* ===== verification/CodecProps.v ===== *)
(** * The codec round trip

    What the codec accepts ([wf_event]), what writing forgets ([norm_event]:
    empty lists and maps are written as absent), and the theorems: reading
    accepts only well-formed events, and reads a written event back. *)

From S2P Require Import Prelude JsString JsMap Json Model Codec.

Local Open Scope Z_scope.

(** ** Well-formed events *)

Definition wf_int (z : Z) : Prop := is_safe_integer (NInt z) = true.
Definition wf_opt_int (z : option Z) : Prop := from_option wf_int True z.
Definition wf_id (s : str) : Prop := is_identifier s = true.
Definition wf_opt_id (s : option str) : Prop := from_option wf_id True s.

Definition wf_location (l : Location) : Prop := wf_opt_int (l_line l) ∧ wf_opt_int (l_column l).
Definition wf_opt_location (l : option Location) : Prop := from_option wf_location True l.
Definition wf_failure (f : Failure) : Prop := wf_opt_location (f_location f).
Definition wf_failures (fs : option (list Failure)) : Prop := from_option (Forall wf_failure) True fs.

(** An unavailable identity has no id; every other stability has one. *)
Definition wf_identity (t : TestCase) : Prop :=
  t_historicalId t = None ↔ t_historicalIdStability t = Unavailable.

Definition wf_test (t : TestCase) : Prop :=
  wf_id (t_executionId t) ∧ wf_identity t ∧ wf_opt_location (t_location t).

(** A session outcome: words and failures need a status, and a pass has no failure. *)
Definition wf_outcome (p : SessionFinishedPayload) : Prop :=
  (sf_status p = None → sf_rawStatus p = None ∧ sf_failures p = None) ∧
  (sf_status p = Some SePassed → sf_failures p = None).

Definition wf_payload (p : Payload) : Prop :=
  match p with
  | SessionStarted _ | RunFinished => True
  | SessionFinished p => wf_outcome p ∧ sf_failures p ≠ Some [] ∧ wf_failures (sf_failures p)
  | AttemptStarted p => wf_id (as_attemptId p) ∧ 1 <= as_attemptNumber p <= 1000 ∧ wf_test (as_test p)
  | AttemptFinished p =>
      wf_id (af_attemptId p) ∧ wf_opt_int (af_durationMs p) ∧ wf_failures (af_failures p)
  | StepStarted p =>
      wf_id (st_stepId p) ∧ wf_id (st_attemptId p) ∧ wf_opt_id (st_parentStepId p) ∧
      wf_opt_location (st_location p)
  | StepFinished p =>
      wf_id (sp_stepId p) ∧ wf_id (sp_attemptId p) ∧ wf_opt_int (sp_durationMs p) ∧
      wf_failures (sp_failures p)
  | AttachmentAdded p =>
      wf_id (aa_attemptId p) ∧ wf_opt_id (aa_stepId p) ∧ wf_int (aa_sizeBytes p)
  | ScopeFailed p =>
      sc_path p ≠ [] ∧ sc_failures p ≠ [] ∧ Forall wf_failure (sc_failures p) ∧
      wf_opt_location (sc_location p)
  end.

Definition wf_env (e : Envelope) : Prop :=
  isSupportedProtocolVersion (protocolVersion e) = true ∧ wf_id (eventId e) ∧ wf_id (runId e) ∧
  wf_id (sessionId e) ∧ wf_int (sequence e) ∧ 1 <= sequence e ∧ is_timestamp (occurredAt e) = true.

Definition wf_event (e : AnyEvent) : Prop :=
  wf_env (any_env e) ∧
  match e with
  | Known e => wf_payload (e_payload e)
  | Unknown u => is_event_type (u_eventType u) = true ∧ isKnownEventType (u_eventType u) = false ∧
                 ignorable (u_env u) = Some true
  end.

(** ** What writing forgets *)

Definition norm_list {A} (l : option (list A)) : option (list A) :=
  match l with Some [] => None | _ => l end.

Definition norm_test (t : TestCase) : TestCase :=
  {| t_executionId := t_executionId t; t_historicalId := t_historicalId t;
     t_historicalIdStability := t_historicalIdStability t; t_displayName := t_displayName t;
     t_path := t_path t; t_location := t_location t; t_tags := norm_list (t_tags t);
     t_labels := norm_list (t_labels t) |}.

Definition norm_payload (p : Payload) : Payload :=
  match p with
  | SessionStarted p =>
      SessionStarted {| ss_producer := ss_producer p; ss_runner := ss_runner p;
        ss_environment := norm_list (ss_environment p); ss_executor := ss_executor p;
        ss_source := ss_source p; ss_labels := norm_list (ss_labels p) |}
  | AttemptStarted p =>
      AttemptStarted {| as_attemptId := as_attemptId p; as_attemptNumber := as_attemptNumber p;
        as_test := norm_test (as_test p) |}
  | AttemptFinished p =>
      AttemptFinished {| af_attemptId := af_attemptId p; af_status := af_status p;
        af_rawStatus := af_rawStatus p; af_expectedStatus := af_expectedStatus p;
        af_durationMs := af_durationMs p; af_failures := norm_list (af_failures p) |}
  | StepFinished p =>
      StepFinished {| sp_stepId := sp_stepId p; sp_attemptId := sp_attemptId p;
        sp_status := sp_status p; sp_rawStatus := sp_rawStatus p;
        sp_durationMs := sp_durationMs p; sp_failures := norm_list (sp_failures p) |}
  | _ => p
  end.

Definition norm_event (e : AnyEvent) : AnyEvent :=
  match e with
  | Known e => Known {| e_env := e_env e; e_payload := norm_payload (e_payload e) |}
  | Unknown u => Unknown u
  end.

(** ** Fields of written objects *)

Definition opt_or {A} (a b : option A) : option A := match a with Some x => Some x | None => b end.

Lemma opt_or_None_r {A} (a : option A) : opt_or a None = a.
Proof. by destruct a. Qed.

Lemma mget_omit_eq k o l :
  mget (omitUndefined ((k, o) :: l)) k = opt_or o (mget (omitUndefined l) k).
Proof. destruct o; csimpl; [by rewrite decide_True|done]. Qed.

Lemma mget_omit_ne k k' o l :
  bool_decide (k' = k) = false → mget (omitUndefined ((k, o) :: l)) k' = mget (omitUndefined l) k'.
Proof.
  intros Hne%bool_decide_eq_false. destruct o; csimpl; [by rewrite decide_False|done].
Qed.

Lemma mget_hit {V} (k : str) (v : V) m : mget ((k, v) :: m) k = Some v.
Proof. simpl. by rewrite decide_True. Qed.

Lemma mget_skip {V} (k k' : str) (v : V) m :
  bool_decide (k' = k) = false → mget ((k, v) :: m) k' = mget m k'.
Proof. intros Hne%bool_decide_eq_false. simpl. by rewrite decide_False. Qed.

(** Evaluates the lookup of a literal field in a literal object. *)
Ltac field :=
  repeat first
    [ rewrite mget_omit_eq | rewrite mget_omit_ne by (vm_compute; reflexivity)
    | rewrite mget_hit | rewrite mget_skip by (vm_compute; reflexivity) ];
  change (mget (omitUndefined []) ?k) with (@None json);
  rewrite ?opt_or_None_r; cbn [opt_or]; reflexivity.

Lemma requiredString_at o f a s : mget o f = Some (JStr s) → requiredString o f a = Ok s.
Proof. unfold requiredString, required. by intros ->. Qed.
Lemma required_at o f a v : mget o f = Some v → v ≠ JNull → required o f a = Ok v.
Proof. unfold required. intros -> ?. by destruct v. Qed.
Lemma optionalString_at o f a s : mget o f = JStr <$> s → optionalString o f a = Ok s.
Proof. unfold optionalString. intros ->. by destruct s. Qed.
Lemma identifier_at o f a s : mget o f = Some (JStr s) → wf_id s → identifier o f a = Ok s.
Proof. unfold identifier, wf_id. intros H Hs. rewrite (requiredString_at _ _ _ s) by done. simpl. by rewrite Hs. Qed.
Lemma optionalIdentifier_at o f a s :
  mget o f = JStr <$> s → wf_opt_id s → optionalIdentifier o f a = Ok s.
Proof.
  unfold optionalIdentifier, wf_opt_id, wf_id. intros H Hs.
  rewrite (optionalString_at _ _ _ s) by done. destruct s; simpl in *; by rewrite ?Hs.
Qed.
Lemma safe_int_at z : wf_int z → safe_int (jint z) = Some z.
Proof. unfold wf_int, safe_int, jint. by intros ->. Qed.
Lemma integral_at o f a z : mget o f = Some (jint z) → wf_int z → integral o f a = Ok z.
Proof.
  unfold integral. intros H Hz. rewrite (required_at _ _ _ (jint z)) by done. cbn [mbind res_mbind res_bind].
  by rewrite safe_int_at.
Qed.
Lemma optionalIntegral_at o f a z :
  mget o f = jint <$> z → wf_opt_int z → optionalIntegral o f a = Ok z.
Proof.
  unfold optionalIntegral. intros -> Hz. destruct z; [|done]. cbn [fmap option_fmap option_map].
  unfold jint at 1. by rewrite safe_int_at.
Qed.
Lemma optionalObject_at {T} o f a (read : obj → str → resP T) (write : T → obj) t :
  mget o f = JObj ∘ write <$> t →
  (∀ x b, t = Some x → read (write x) b = Ok x) → optionalObject o f a read = Ok t.
Proof. unfold optionalObject. intros -> Hr. destruct t; [|done]. simpl. by rewrite Hr. Qed.
Lemma oneOf_at {T} (text : T → str) (allowed : list T) a t :
  List.find (λ t', str_eqb (text t') (text t)) allowed = Some t → oneOf text (text t) allowed a = Ok t.
Proof. unfold oneOf. by intros ->. Qed.

Lemma string_entries_at m a : string_entries ((λ kv, (kv.1, JStr kv.2)) <$> m) a = Ok m.
Proof. induction m as [|[k v] m IH]; csimpl; [done|]. by rewrite IH. Qed.
Lemma stringMap_at o f a m : mget o f = nonEmpty m → stringMap o f a = Ok (norm_list m).
Proof.
  unfold stringMap. intros ->. destruct m as [[|kv m]|]; try done. unfold nonEmpty. cbv iota beta.
  by rewrite string_entries_at.
Qed.
Lemma stringList_at o f a l : mget o f = writeTags l → stringList o f a = Ok (norm_list l).
Proof.
  unfold stringList. intros ->. destruct l as [[|x l]|]; try done. unfold writeTags, mapMi.
  rewrite (mapMi_from_roundtrip _ JStr id); [by rewrite list_fmap_id|]. by apply Forall_true.
Qed.

(** ** Round trips of the parts *)

Lemma bind_ok {E A B} (m : res E A) (k : A → res E B) a r :
  m = Ok a → k a = r → (m ≫= k) = r.
Proof. by intros ->. Qed.

(** One step of a reader on a written object. *)
Ltac read_with tac := eapply bind_ok; [tac|cbv beta].
Ltac read_field :=
  read_with ltac:(first
    [ eapply requiredString_at; field
    | eapply optionalString_at; field
    | eapply identifier_at; [field|done]
    | eapply optionalIdentifier_at; [field|done]
    | eapply integral_at; [field|done]
    | eapply optionalIntegral_at; [field|done]
    | eapply stringMap_at; field
    | eapply stringList_at; field ]).

Lemma component_write c a : component (writeComponent c) a = Ok c.
Proof. unfold component, writeComponent, jstr, jopt. repeat read_field. by destruct c. Qed.
Lemma executor_write x a : executor (writeExecutor x) a = Ok x.
Proof. unfold executor, writeExecutor, jopt. repeat read_field. by destruct x. Qed.
Lemma source_write s a : source (writeSource s) a = Ok s.
Proof. unfold source, writeSource, jopt. repeat read_field. by destruct s. Qed.
Lemma location_write l a : wf_location l → location (writeLocation l) a = Ok l.
Proof.
  intros [? ?]. unfold location, writeLocation, jstr. repeat read_field. by destruct l.
Qed.

Lemma location_field o f a l :
  mget o f = JObj ∘ writeLocation <$> l → wf_opt_location l → optionalObject o f a location = Ok l.
Proof.
  intros H Hl. apply (optionalObject_at _ _ _ _ writeLocation); [done|].
  intros x b ->. by apply location_write.
Qed.

Lemma phase_write f a p :
  failure_phase f a (phase_text <$> p) = Ok p.
Proof. destruct p as [[]|]; done. Qed.

Lemma failure_write f a i : wf_failure f → failure a i (JObj (writeFailure f)) = Ok f.
Proof.
  intros Hf. unfold failure, writeFailure, jstr, jopt.
  read_with ltac:(apply (optionalString_at _ _ _ (phase_text <$> f_phase f));
                  rewrite <- option_fmap_compose; field).
  repeat read_field. read_with ltac:(apply phase_write).
  read_with ltac:(apply (location_field _ _ _ (f_location f)); [field|done]). by destruct f.
Qed.

Lemma failures_at o a fs :
  mget o (js "failures") = writeFailures fs → wf_failures fs → failures o a = Ok (norm_list fs).
Proof.
  unfold failures. intros -> Hf. destruct fs as [[|x fs]|]; try done. unfold writeFailures, mapMi.
  rewrite (mapMi_from_roundtrip _ (JObj ∘ writeFailure) id); [by rewrite list_fmap_id|].
  simpl in Hf. eapply Forall_impl; [done|]. intros f ? i. by apply failure_write.
Qed.

Lemma segment_write s a i : path_segment a i (writeSegment s) = Ok s.
Proof. unfold path_segment, writeSegment. repeat read_field. by destruct s. Qed.

Lemma path_at o a path b :
  mget o (js "path") = Some (JArr (writeSegment <$> path)) →
  (r ← required o (js "path") a; pathSegments r b) = Ok path.
Proof.
  intros H. rewrite (required_at _ _ _ _ H) by done. cbn [mbind res_mbind res_bind]. unfold pathSegments, mapMi.
  rewrite (mapMi_from_roundtrip _ writeSegment id); [by rewrite list_fmap_id|].
  apply Forall_true. intros s i. apply segment_write.
Qed.

Lemma status_write o s :
  mget o (js "status") = Some (JStr (status_text s)) → readStatus o = Ok s.
Proof.
  intros H. unfold readStatus. rewrite (requiredString_at _ _ _ _ H). simpl. by destruct s.
Qed.

Lemma testCase_write t a : wf_test t → testCase (writeTest t) a = Ok (norm_test t).
Proof.
  intros (Hid & Hst & Hl). unfold testCase, writeTest, jstr, jopt. read_field.
  read_with ltac:(apply oneOf_at; by destruct (t_historicalIdStability t)). read_field.
  read_with ltac:(unfold throw_if, is_unavailable; rewrite (proj2 (andb_false_iff _ _)); [done|]).
  { destruct (decide (t_historicalId t = None)) as [E|E].
    - right. apply bool_decide_eq_false. rewrite E. apply is_Some_None.
    - left. apply bool_decide_eq_false. intros Hu. by apply E, Hst. }
  read_with ltac:(unfold throw_if, is_unavailable; rewrite (proj2 (andb_false_iff _ _)); [done|]).
  { destruct (decide (t_historicalId t = None)) as [E|E].
    - left. apply negb_false_iff, bool_decide_eq_true. by apply Hst.
    - right. by apply bool_decide_eq_false. }
  read_with ltac:(apply (path_at _ _ (t_path t)); field).
  do 2 read_field. read_with ltac:(apply (location_field _ _ _ (t_location t)); [field|done]).
  repeat read_field. done.
Qed.

Lemma norm_id_outcome p : sf_failures p ≠ Some [] → norm_list (sf_failures p) = sf_failures p.
Proof. by destruct (sf_failures p) as [[|]|]. Qed.

Lemma sessionStarted_write p :
  readSessionStarted (writePayload (SessionStarted p)) =
    Ok {| ss_producer := ss_producer p; ss_runner := ss_runner p;
          ss_environment := norm_list (ss_environment p); ss_executor := ss_executor p;
          ss_source := ss_source p; ss_labels := norm_list (ss_labels p) |}.
Proof.
  unfold readSessionStarted, writePayload.
  read_with ltac:(apply (required_at _ _ _ (JObj (writeComponent (ss_producer p)))); [field|done]).
  read_with ltac:(reflexivity). read_with ltac:(apply component_write).
  read_with ltac:(apply (optionalObject_at _ _ _ _ writeComponent (ss_runner p));
                  [field|intros; apply component_write]).
  read_field.
  read_with ltac:(apply (optionalObject_at _ _ _ _ writeExecutor (ss_executor p));
                  [field|intros; apply executor_write]).
  read_with ltac:(apply (optionalObject_at _ _ _ _ writeSource (ss_source p));
                  [field|intros; apply source_write]).
  read_field. done.
Qed.

Lemma sessionStatus_write s : readSessionStatus (session_status_text <$> s) = Ok s.
Proof. by destruct s as [[]|]. Qed.

Lemma sessionFinished_write p :
  wf_payload (SessionFinished p) → readSessionFinished (writePayload (SessionFinished p)) = Ok p.
Proof.
  intros ([Hnone Hpass] & Hne & Hf). unfold readSessionFinished, writePayload, jopt.
  read_with ltac:(apply (optionalString_at _ _ _ (session_status_text <$> sf_status p));
                  rewrite <- option_fmap_compose; field).
  read_with ltac:(apply sessionStatus_write). read_field.
  read_with ltac:(apply failures_at; [field|done]). rewrite norm_id_outcome by done.
  destruct p as [st raw fs]; simpl in *.
  destruct st as [[]|]; [rewrite Hpass by done| | |destruct Hnone as [-> ->]; [done|done]].
  all: destruct raw, fs as [[|]|]; done.
Qed.

Lemma attemptStarted_write p :
  wf_payload (AttemptStarted p) →
  readAttemptStarted (writePayload (AttemptStarted p)) =
    Ok {| as_attemptId := as_attemptId p; as_attemptNumber := as_attemptNumber p;
          as_test := norm_test (as_test p) |}.
Proof.
  intros (Hid & Hn & Ht). unfold readAttemptStarted, writePayload.
  assert (wf_int (as_attemptNumber p)) by (unfold wf_int, is_safe_integer, max_safe_integer; lia).
  read_field.
  read_with ltac:(unfold throw_if; rewrite (proj2 (orb_false_iff _ _)) by lia; reflexivity).
  read_with ltac:(apply (required_at _ _ _ (JObj (writeTest (as_test p)))); [field|done]).
  read_with ltac:(reflexivity). read_field. read_with ltac:(apply testCase_write; done). done.
Qed.

Lemma expected_write e : readExpected (expected_text <$> e) = Ok e.
Proof. by destruct e as [[]|]. Qed.

Lemma attemptFinished_write p :
  wf_payload (AttemptFinished p) →
  readAttemptFinished (writePayload (AttemptFinished p)) =
    Ok {| af_attemptId := af_attemptId p; af_status := af_status p;
          af_rawStatus := af_rawStatus p; af_expectedStatus := af_expectedStatus p;
          af_durationMs := af_durationMs p; af_failures := norm_list (af_failures p) |}.
Proof.
  intros (Hid & Hd & Hf). unfold readAttemptFinished, writePayload, jstr, jopt.
  read_with ltac:(apply (optionalString_at _ _ _ (expected_text <$> af_expectedStatus p));
                  rewrite <- option_fmap_compose; field).
  read_field. read_with ltac:(apply status_write; field). read_field.
  read_with ltac:(apply expected_write). read_field.
  read_with ltac:(apply failures_at; [field|done]). done.
Qed.

Lemma stepStarted_write p :
  wf_payload (StepStarted p) → readStepStarted (writePayload (StepStarted p)) = Ok p.
Proof.
  intros (Hid & Ha & Hp & Hl). unfold readStepStarted, writePayload, jstr, jopt.
  do 5 read_field. read_with ltac:(apply (location_field _ _ _ (st_location p)); [field|done]).
  by destruct p.
Qed.

Lemma stepFinished_write p :
  wf_payload (StepFinished p) →
  readStepFinished (writePayload (StepFinished p)) =
    Ok {| sp_stepId := sp_stepId p; sp_attemptId := sp_attemptId p;
          sp_status := sp_status p; sp_rawStatus := sp_rawStatus p;
          sp_durationMs := sp_durationMs p; sp_failures := norm_list (sp_failures p) |}.
Proof.
  intros (Hid & Ha & Hd & Hf). unfold readStepFinished, writePayload, jstr, jopt.
  do 2 read_field. read_with ltac:(apply status_write; field). do 2 read_field.
  read_with ltac:(apply failures_at; [field|done]). done.
Qed.

Lemma attachmentAdded_write p :
  wf_payload (AttachmentAdded p) → readAttachmentAdded (writePayload (AttachmentAdded p)) = Ok p.
Proof.
  intros (Ha & Hs & Hz). unfold readAttachmentAdded, writePayload, jstr, jopt.
  do 6 read_field. by destruct p.
Qed.

Lemma scopeFailed_write p :
  wf_payload (ScopeFailed p) → readScopeFailed (writePayload (ScopeFailed p)) = Ok p.
Proof.
  intros (Hp & Hne & Hf & Hl). unfold readScopeFailed, writePayload, jopt.
  read_with ltac:(apply (path_at _ _ (sc_path p)); field).
  read_with ltac:(unfold throw_if; destruct (sc_path p); [done|reflexivity]).
  read_with ltac:(apply failures_at; [field|done]).
  apply (bind_ok _ _ (sc_failures p)); [by destruct (sc_failures p)|].
  do 2 read_field. read_with ltac:(apply (location_field _ _ _ (sc_location p)); [field|done]).
  by destruct p, sc_failures.
Qed.

(** Decides the comparisons of literals a dispatch makes. *)
Ltac dispatch :=
  repeat match goal with
  | |- context [str_eqb (js ?a) (js ?b)] =>
      let v := eval vm_compute in (str_eqb (js a) (js b)) in
      change (str_eqb (js a) (js b)) with v; cbv iota
  end.

Lemma readPayload_write p b :
  wf_payload p → readPayload (payload_type p) (writePayload p) b = Ok (inl (norm_payload p)).
Proof.
  intros H. destruct p as [p|p| |p|p|p|p|p|p]; unfold readPayload; cbn [payload_type]; dispatch;
    [by rewrite sessionStarted_write | by rewrite sessionFinished_write | done
    | by rewrite attemptStarted_write | by rewrite attemptFinished_write
    | by rewrite stepStarted_write | by rewrite stepFinished_write
    | by rewrite attachmentAdded_write | by rewrite scopeFailed_write].
Qed.

Lemma readPayload_unknown t o :
  isKnownEventType t = false → readPayload t o true = Ok (inr o).
Proof.
  intros Hn%bool_decide_eq_false. unfold readPayload, str_eqb.
  rewrite !bool_decide_false; [done|..];
    intros ->; apply Hn; apply (bool_decide_unpack _); vm_compute; exact I.
Qed.

Lemma ignorable_write e :
  readIgnorable (match ignorable e with Some b => Some (JBool b) | None => None end) = Ok (ignorable e).
Proof. by destruct (ignorable e) as [[]|]. Qed.

Lemma payload_type_wf p : is_event_type (payload_type p) = true.
Proof. by destruct p. Qed.

Lemma supported_parses v :
  isSupportedProtocolVersion v = true →
  ∃ p, parseProtocolVersion v = Some p ∧ isSupportedParsed p = true.
Proof. unfold isSupportedProtocolVersion. destruct (parseProtocolVersion v); eauto; done. Qed.

(** Lookup in the literal prefix of a written event. *)
Ltac efield :=
  cbn [app]; repeat first [ rewrite mget_hit | rewrite mget_skip by (vm_compute; reflexivity) ];
  reflexivity.

Lemma envelope_fields e :
  mget (eventToObject e) (js "ignorable")
    = match ignorable (any_env e) with Some b => Some (JBool b) | None => None end ∧
  mget (eventToObject e) (js "payload")
    = Some (JObj match e with Known e => writePayload (e_payload e) | Unknown u => u_payload u end).
Proof.
  unfold eventToObject. by destruct (ignorable (any_env e)); split; efield.
Qed.

Lemma event_write e : wf_event e → event_of_obj (eventToObject e) = Ok (norm_event e).
Proof.
  intros [(Hv & He & Hr & Hs & Hq & Hq1 & Ht) Hp].
  destruct (supported_parses _ Hv) as (v & Hv1 & Hv2).
  destruct (envelope_fields e) as [Hig Hpl]. unfold event_of_obj. rewrite Hig, Hpl.
  unfold eventToObject.
  read_with ltac:(eapply requiredString_at; efield). rewrite Hv1.
  read_with ltac:(reflexivity). rewrite Hv2.
  read_with ltac:(reflexivity). read_with ltac:(eapply requiredString_at; efield).
  assert (is_event_type (any_type e) = true) as ->.
  { destruct e; [apply payload_type_wf|apply Hp]. }
  read_with ltac:(reflexivity).
  do 3 read_with ltac:(eapply identifier_at; [efield|done]).
  read_with ltac:(eapply integral_at; [efield|done]).
  read_with ltac:(unfold throw_if; rewrite (proj2 (Z.ltb_ge _ _)) by done; reflexivity).
  read_with ltac:(eapply requiredString_at; efield). rewrite Ht.
  read_with ltac:(reflexivity). read_with ltac:(apply ignorable_write).
  read_with ltac:(reflexivity).
  destruct e as [[env p]|[env t o]]; simpl in *.
  - read_with ltac:(by apply readPayload_write). by destruct env.
  - destruct Hp as (Hty & Hk & Hi). rewrite Hi. simpl.
    read_with ltac:(by apply readPayload_unknown). by destruct env; simplify_eq/=.
Qed.

(** ** Reading accepts only well-formed events *)

Lemma identifier_wf o f a s : identifier o f a = Ok s → wf_id s.
Proof. unfold identifier. intros H. by inv_ok. Qed.
Lemma optionalIdentifier_wf o f a s : optionalIdentifier o f a = Ok s → wf_opt_id s.
Proof. unfold optionalIdentifier. intros H. inv_ok. case_match; inv_ok; done. Qed.
Lemma safe_int_wf v z : safe_int v = Some z → wf_int z.
Proof. unfold safe_int. intros. by repeat case_match; simplify_eq. Qed.
Lemma integral_wf o f a z : integral o f a = Ok z → wf_int z.
Proof. unfold integral. intros H. inv_ok. case_match; inv_ok. by eapply safe_int_wf. Qed.
Lemma optionalIntegral_wf o f a z : optionalIntegral o f a = Ok z → wf_opt_int z.
Proof.
  unfold optionalIntegral. intros H. destruct (mget o f) as [v|]; [|by inv_ok].
  destruct (safe_int v) as [z'|] eqn:E; [|by destruct v; inv_ok].
  apply safe_int_wf in E. by destruct v; inv_ok.
Qed.
Lemma optionalObject_wf {T} (P : T → Prop) o f a (read : obj → str → resP T) t :
  (∀ v b x, read v b = Ok x → P x) → optionalObject o f a read = Ok t → from_option P True t.
Proof.
  unfold optionalObject. intros HP H. repeat case_match; inv_ok; try done.
  destruct (read props _) eqn:E; simplify_eq/=. by eapply HP.
Qed.
Lemma location_wf o a l : location o a = Ok l → wf_location l.
Proof.
  unfold location. intros H. inv_ok. split; by eapply optionalIntegral_wf.
Qed.
Lemma failure_wf a i v f : failure a i v = Ok f → wf_failure f.
Proof.
  unfold failure. intros H. destruct v; inv_ok. by eapply optionalObject_wf, Hm4; apply location_wf.
Qed.
Lemma failures_wf o a fs : failures o a = Ok fs → wf_failures fs.
Proof.
  unfold failures. intros H. repeat case_match; inv_ok; try done.
  destruct (mapMi _ _) eqn:E; simplify_eq/=.
  eapply (mapMi_from_Forall _ wf_failure); [|exact E]. intros ???. apply failure_wf.
Qed.
Lemma testCase_wf o a t : testCase o a = Ok t → wf_test t.
Proof.
  unfold testCase. intros H. inv_ok. split_and!; simpl.
  - by eapply identifier_wf.
  - unfold wf_identity, is_unavailable in *; simpl.
    match goal with |- ?h = None ↔ ?s = Unavailable => destruct h, s end; cbn in *; split; try congruence.
    all: match goal with H : _ && _ = false |- _ => vm_compute in H; discriminate H end.
  - by eapply optionalObject_wf; [apply location_wf|].
Qed.

Lemma sessionFinished_wf o p : readSessionFinished o = Ok p → wf_payload (SessionFinished p).
Proof.
  unfold readSessionFinished. intros H. inv_ok.
  match goal with H : failures _ _ = Ok ?fs |- _ => apply failures_wf in H; rename fs into l end.
  repeat match goal with H : _ && _ = false |- _ => revert H end.
  match goal with |- context [bool_decide (?s = None) && bool_decide (is_Some ?r)] =>
    destruct s as [[]|], r; destruct l as [[|f l]|] end;
    cbn; intros; simplify_eq; (split_and!; [split|..]); cbn; try done; naive_solver.
Qed.

Lemma attemptStarted_wf o p : readAttemptStarted o = Ok p → wf_payload (AttemptStarted p).
Proof.
  unfold readAttemptStarted. intros H. inv_ok. split_and!; simpl.
  - by eapply identifier_wf.
  - match goal with H : _ || _ = false |- _ => apply orb_false_iff in H as [??] end. lia.
  - match goal with H : _ || _ = false |- _ => apply orb_false_iff in H as [??] end. lia.
  - by eapply testCase_wf.
Qed.

Lemma attemptFinished_wf o p : readAttemptFinished o = Ok p → wf_payload (AttemptFinished p).
Proof.
  unfold readAttemptFinished. intros H. inv_ok.
  split_and!; eauto using identifier_wf, optionalIntegral_wf, failures_wf.
Qed.

Lemma stepStarted_wf o p : readStepStarted o = Ok p → wf_payload (StepStarted p).
Proof.
  unfold readStepStarted. intros H. inv_ok.
  split_and!; eauto using identifier_wf, optionalIdentifier_wf.
  by eapply optionalObject_wf; [apply location_wf|].
Qed.

Lemma stepFinished_wf o p : readStepFinished o = Ok p → wf_payload (StepFinished p).
Proof.
  unfold readStepFinished. intros H. inv_ok.
  split_and!; eauto using identifier_wf, optionalIntegral_wf, failures_wf.
Qed.

Lemma attachmentAdded_wf o p : readAttachmentAdded o = Ok p → wf_payload (AttachmentAdded p).
Proof.
  unfold readAttachmentAdded. intros H. inv_ok.
  split_and!; eauto using identifier_wf, optionalIdentifier_wf, integral_wf.
Qed.

Lemma scopeFailed_wf o p : readScopeFailed o = Ok p → wf_payload (ScopeFailed p).
Proof.
  unfold readScopeFailed. intros H. inv_ok.
  match goal with H : failures _ _ = Ok _ |- _ => apply failures_wf in H end.
  match goal with H : (length ?l =? 0)%nat = false |- _ => destruct l; [done|] end.
  case_match; [|done]. case_match; [done|]. simplify_eq/=. split_and!; try done.
  by eapply optionalObject_wf; [apply location_wf|].
Qed.

Lemma readPayload_wf t o b r :
  readPayload t o b = Ok r →
  match r with
  | inl p => t = payload_type p ∧ wf_payload p
  | inr o' => o' = o ∧ b = true ∧ isKnownEventType t = false
  end.
Proof.
  unfold readPayload, str_eqb.
  repeat (case_bool_decide; subst;
    [match goal with |- (_ <$> ?m) = _ → _ => destruct m eqn:E; intros; simplify_eq/= | |- _ => intros; simplify_eq/= end;
     (split; [done|]);
     first [ done | exact (sessionFinished_wf _ _ E) | exact (attemptStarted_wf _ _ E)
           | exact (attemptFinished_wf _ _ E) | exact (stepStarted_wf _ _ E)
           | exact (stepFinished_wf _ _ E) | exact (attachmentAdded_wf _ _ E)
           | exact (scopeFailed_wf _ _ E) ]|]).
  destruct b; intros; simplify_eq. split_and!; [done..|]. unfold isKnownEventType, EVENT_TYPES.
  apply bool_decide_eq_false. rewrite !elem_of_cons. rewrite elem_of_nil. tauto.
Qed.

Lemma event_wf o e : event_of_obj o = Ok e → wf_event e.
Proof.
  unfold event_of_obj. intros H. inv_ok.
  repeat match goal with H : negb _ = false |- _ => apply negb_false_iff in H end.
  match goal with H : match parseProtocolVersion ?v with _ => _ end = Ok _ |- _ =>
    destruct (parseProtocolVersion v) eqn:Hparse; simplify_eq/= end.
  match goal with H : (_ <? _) = false |- _ => apply Z.ltb_ge in H end.
  match goal with H : readPayload _ _ _ = Ok ?r |- _ =>
    apply readPayload_wf in H; destruct r as [p|u] end; destruct_and?.
  all: split; [split_and!; simpl; eauto using identifier_wf, integral_wf;
               unfold isSupportedProtocolVersion; by rewrite Hparse|]; simpl.
  - done.
  - split_and!; [done..|]. by eapply bool_decide_eq_true_1.
Qed.

Lemma norm_list_idemp {A} (l : option (list A)) : norm_list (norm_list l) = norm_list l.
Proof. by destruct l as [[]|]. Qed.

Lemma norm_event_idemp e : norm_event (norm_event e) = norm_event e.
Proof.
  destruct e as [[env [p|p| |p|p|p|p|p|p]]|u]; cbn; try done;
    unfold norm_test; cbn; by rewrite ?norm_list_idemp.
Qed.

Lemma norm_list_forall {A} (P : A → Prop) l :
  from_option (Forall P) True l → from_option (Forall P) True (norm_list l).
Proof. by destruct l as [[]|]. Qed.

Lemma norm_event_wf e : wf_event e → wf_event (norm_event e).
Proof.
  intros [He Hp]. split; [by destruct e|]. destruct e as [[env p]|u]; [|done]. simpl in *.
  destruct p as [p|p| |p|p|p|p|p|p]; simpl in *; unfold wf_failures in *; destruct_and?; split_and?;
    auto using norm_list_forall.
Qed.

(** ** Properties *)

Definition sample_event : AnyEvent :=
  Known {| e_env := {| protocolVersion := js "0.3.0"; eventId := js "e1"; runId := js "r"; sessionId := js "s";
                       sequence := 1; occurredAt := js "2024-05-01T10:00:00Z"; ignorable := None |};
           e_payload := StepStarted {| st_stepId := js "st"; st_attemptId := js "a"; st_parentStepId := None;
                                       st_name := js "open"; st_kind := None; st_location := None |} |}.


(** Reading accepts only well-formed events: identifiers in their alphabet, integers in range, a
    supported version, a timestamp of the protocol's shape, the identity and outcome rules of the
    payload; and an unknown type only when the event says it may be ignored. *)
Theorem eventFromObject_wf root e : eventFromObject root = Ok e → wf_event e.
Proof. destruct root; try done. apply event_wf. Qed.

Lemma eventFromObject_wf_witness :
  eventFromObject (JObj (eventToObject sample_event)) = Ok sample_event ∧ wf_event sample_event.
Proof.
  assert (eventFromObject (JObj (eventToObject sample_event)) = Ok sample_event) as H by (vm_compute; reflexivity).
  split; [exact H|]. exact (eventFromObject_wf _ _ H).
Defined.

(** C40 Round trip: a well-formed event written as an object reads back as itself, with its empty
    optional collections (which are not written) absent. *)
Theorem eventFromObject_eventToObject e :
  wf_event e → eventFromObject (JObj (eventToObject e)) = Ok (norm_event e).
Proof. apply event_write. Qed.

Lemma eventFromObject_eventToObject_witness :
  wf_event sample_event ∧ eventFromObject (JObj (eventToObject sample_event)) = Ok (norm_event sample_event).
Proof.
  assert (wf_event sample_event) as H by (split; split_and!; by vm_compute).
  split; [exact H|]. exact (eventFromObject_eventToObject _ H).
Defined.

(** Whatever object reads as an event, writing the event and reading it again reaches a fixed point
    at once, and keeps the event's identity. *)
Theorem codec_reencode_stable root e :
  eventFromObject root = Ok e →
  eventFromObject (JObj (eventToObject e)) = Ok (norm_event e) ∧
  eventFromObject (JObj (eventToObject (norm_event e))) = Ok (norm_event e) ∧
  eventId (any_env (norm_event e)) = eventId (any_env e).
Proof.
  intros H. assert (wf_event e) as Hwf by (destruct root; try done; by eapply event_wf).
  split_and!.
  - by apply event_write.
  - cbn [eventFromObject]. rewrite event_write by auto using norm_event_wf. by rewrite norm_event_idemp.
  - by destruct e.
Qed.

Lemma codec_reencode_stable_witness :
  eventFromObject (JObj (eventToObject sample_event)) = Ok sample_event ∧
  eventFromObject (JObj (eventToObject (norm_event sample_event))) = Ok (norm_event sample_event).
Proof.
  assert (eventFromObject (JObj (eventToObject sample_event)) = Ok sample_event) as H by (vm_compute; reflexivity).
  split; [exact H|]. exact (proj1 (proj2 (codec_reencode_stable _ _ H))).
Defined.
