(* ===== verification/History.v ===== *)
(** * Valid histories: the lifecycle as a property of the event sequence

    The specification the validator is held to. A history is the sequence of
    distinct events a run's files hold, in the order they are read. Every fact
    about a session, an attempt, a step or an execution is a question about the
    history alone, and [allowed] says which event may come next. Nothing here
    mentions the validator's tables. *)

From S2P Require Import Prelude JsString JsMap Model.

Local Open Scope Z_scope.

Abbreviation history := (list AnyEvent).

(** The first of two answers. *)
Definition or_else {A} (a b : option A) : option A := match a with Some _ => a | None => b end.

Lemma or_else_None_r {A} (a : option A) : or_else a None = a.
Proof. by destruct a. Qed.
Lemma or_else_None {A} (a b : option A) : or_else a b = None ↔ a = None ∧ b = None.
Proof. destruct a; naive_solver. Qed.
Lemma or_else_is_Some {A} (a b : option A) : is_Some (or_else a b) ↔ is_Some a ∨ is_Some b.
Proof. destruct a; simpl; [|naive_solver]. split; eauto. Qed.

Create Rewrite HintDb history.
Create Rewrite HintDb clean.

Section find_map.
Context {A B : Type} (f : A → option B).

(** The first answer of [f] along a list. *)
Fixpoint find_map (l : list A) : option B :=
  match l with
  | [] => None
  | x :: l' => match f x with Some y => Some y | None => find_map l' end
  end.

Lemma find_map_snoc l x :
  find_map (l ++ [x]) = or_else (find_map l) (f x).
Proof. induction l as [|z l IH]; simpl; [by destruct (f x)|]. by destruct (f z). Qed.

Lemma find_map_Some l y : find_map l = Some y → ∃ x, x ∈ l ∧ f x = Some y.
Proof.
  induction l as [|z l IH]; simpl; [done|]. destruct (f z) eqn:E.
  - intros [= ->]. exists z. split; [left|done].
  - intros H. destruct (IH H) as (x & ? & ?). exists x. split; [by right|done].
Qed.

Lemma find_map_None l x : find_map l = None → x ∈ l → f x = None.
Proof.
  induction l as [|z l IH]; simpl; [by intros _ ?%elem_of_nil|].
  destruct (f z) eqn:E; [done|]. intros H [->|Hx]%elem_of_cons; [done|auto].
Qed.

Lemma find_map_hit l x : x ∈ l → is_Some (f x) → is_Some (find_map l).
Proof.
  intros Hx Hf. destruct (find_map l) eqn:E; [eauto|].
  rewrite (find_map_None l x E Hx) in Hf. by destruct Hf.
Qed.
End find_map.

Definition known (e : AnyEvent) : option Event := match e with Known k => Some k | Unknown _ => None end.

Definition of_session (sid : str) (e : AnyEvent) : bool := str_eqb (sessionId (any_env e)) sid.

(** ** Facts of a history

    What one event says of a session, an attempt, a step or an execution, and
    the first event of a history that says it. *)

Definition starts_session (sid : str) (e : AnyEvent) : option SessionStartedPayload :=
  match e with
  | Known {| e_env := env; e_payload := SessionStarted p |} =>
      if str_eqb (sessionId env) sid then Some p else None
  | _ => None
  end.

Definition finishes_session (sid : str) (e : AnyEvent) : option SessionFinishedPayload :=
  match e with
  | Known {| e_env := env; e_payload := SessionFinished p |} =>
      if str_eqb (sessionId env) sid then Some p else None
  | _ => None
  end.

Definition finishes_run (e : AnyEvent) : option Envelope :=
  match e with Known {| e_env := env; e_payload := RunFinished |} => Some env | _ => None end.

Definition starts_attempt (id : str) (e : AnyEvent) : option (Envelope * AttemptStartedPayload) :=
  match e with
  | Known {| e_env := env; e_payload := AttemptStarted p |} =>
      if str_eqb (as_attemptId p) id then Some (env, p) else None
  | _ => None
  end.

Definition finishes_attempt (id : str) (e : AnyEvent) : option AttemptFinishedPayload :=
  match e with
  | Known {| e_payload := AttemptFinished p |} => if str_eqb (af_attemptId p) id then Some p else None
  | _ => None
  end.

Definition starts_step (aid sid : str) (e : AnyEvent) : option StepStartedPayload :=
  match e with
  | Known {| e_payload := StepStarted p |} =>
      if str_eqb (st_attemptId p) aid && str_eqb (st_stepId p) sid then Some p else None
  | _ => None
  end.

Definition finishes_step (aid sid : str) (e : AnyEvent) : option StepFinishedPayload :=
  match e with
  | Known {| e_payload := StepFinished p |} =>
      if str_eqb (sp_attemptId p) aid && str_eqb (sp_stepId p) sid then Some p else None
  | _ => None
  end.

Definition runs_execution (eid : str) (e : AnyEvent) : option (Envelope * AttemptStartedPayload) :=
  match e with
  | Known {| e_env := env; e_payload := AttemptStarted p |} =>
      if str_eqb (t_executionId (as_test p)) eid then Some (env, p) else None
  | _ => None
  end.

Definition numbers_execution (eid : str) (n : Z) (e : AnyEvent)
    : option (Envelope * AttemptStartedPayload) :=
  match e with
  | Known {| e_env := env; e_payload := AttemptStarted p |} =>
      if str_eqb (t_executionId (as_test p)) eid && (as_attemptNumber p =? n)
      then Some (env, p) else None
  | _ => None
  end.

Definition sess_started (h : history) (sid : str) := find_map (starts_session sid) h.
Definition sess_finished (h : history) (sid : str) := find_map (finishes_session sid) h.
Definition run_finished (h : history) := find_map finishes_run h.
Definition att_started (h : history) (id : str) := find_map (starts_attempt id) h.
Definition att_finished (h : history) (id : str) := find_map (finishes_attempt id) h.
Definition step_started (h : history) (aid sid : str) := find_map (starts_step aid sid) h.
Definition step_finished (h : history) (aid sid : str) := find_map (finishes_step aid sid) h.

(** The attempt that fixed an execution's identity: the first one of it; and the one of a number. *)
Definition exec_first (h : history) (eid : str) := find_map (runs_execution eid) h.
Definition exec_numbered (h : history) (eid : str) (n : Z) := find_map (numbers_execution eid n) h.

(** The position a session has reached. *)
Definition last_sequence (h : history) (sid : str) : Z :=
  foldl (λ n e, if of_session sid e then sequence (any_env e) else n) 0 h.

(** The runner family a session declared. *)
Definition runner_name (h : history) (sid : str) : option str :=
  match sess_started h sid with Some p => c_name <$> ss_runner p | None => None end.

(** ** What may come next *)

Definition run_rule (h : history) (env : Envelope) : Prop :=
  (∀ e, e ∈ h → runId (any_env e) = runId env) ∧ (∀ e, e ∈ h → eventId (any_env e) ≠ eventId env).

Definition is_session_started (e : AnyEvent) : bool :=
  match e with Known {| e_payload := SessionStarted _ |} => true | _ => false end.
Definition is_run_finished (e : AnyEvent) : bool :=
  match e with Known {| e_payload := RunFinished |} => true | _ => false end.

(** A session starts once, at 1; goes on by one; and after its end only closes the run. *)
Definition session_rule (h : history) (e : AnyEvent) : Prop :=
  let env := any_env e in
  if is_session_started e then sess_started h (sessionId env) = None ∧ sequence env = 1
  else
    is_Some (sess_started h (sessionId env)) ∧
    sequence env = last_sequence h (sessionId env) + 1 ∧
    (sess_finished h (sessionId env) = None ∨ is_run_finished e = true).

Definition open_attempt (h : history) (id : str) : Prop :=
  is_Some (att_started h id) ∧ att_finished h id = None.

(** The attempts of one execution: distinct numbers, one history identity, one runner. *)
Definition execution_rule (h : history) (env : Envelope) (p : AttemptStartedPayload) : Prop :=
  let test := as_test p in
  exec_numbered h (t_executionId test) (as_attemptNumber p) = None ∧
  ∀ env0 p0, exec_first h (t_executionId test) = Some (env0, p0) →
    t_historicalId (as_test p0) = t_historicalId test ∧
    t_historicalIdStability (as_test p0) = t_historicalIdStability test ∧
    runner_name h (sessionId env0) = runner_name h (sessionId env).

Definition payload_rule (h : history) (env : Envelope) (pl : Payload) : Prop :=
  match pl with
  | SessionStarted _ | ScopeFailed _ => True
  | SessionFinished _ =>
      ∀ id env0 p0, att_started h id = Some (env0, p0) → sessionId env0 = sessionId env →
        is_Some (att_finished h id)
  | RunFinished => run_finished h = None
  | AttemptStarted p =>
      att_started h (as_attemptId p) = None ∧
      (is_Some (t_historicalId (as_test p)) → is_Some (runner_name h (sessionId env))) ∧
      execution_rule h env p
  | AttemptFinished p =>
      open_attempt h (af_attemptId p) ∧
      ∀ sid, is_Some (step_started h (af_attemptId p) sid) →
             is_Some (step_finished h (af_attemptId p) sid)
  | StepStarted p =>
      open_attempt h (st_attemptId p) ∧ step_started h (st_attemptId p) (st_stepId p) = None ∧
      ∀ parent, st_parentStepId p = Some parent → is_Some (step_started h (st_attemptId p) parent)
  | StepFinished p =>
      is_Some (step_started h (sp_attemptId p) (sp_stepId p)) ∧
      step_finished h (sp_attemptId p) (sp_stepId p) = None
  | AttachmentAdded p =>
      open_attempt h (aa_attemptId p) ∧
      ∀ sid, aa_stepId p = Some sid → is_Some (step_started h (aa_attemptId p) sid)
  end.

Definition allowed (h : history) (e : AnyEvent) : Prop :=
  run_rule h (any_env e) ∧ session_rule h e ∧
  match e with Known k => payload_rule h (e_env k) (e_payload k) | Unknown _ => True end.

Inductive valid_history : history → Prop :=
| valid_nil : valid_history []
| valid_snoc h e : valid_history h → allowed h e → valid_history (h ++ [e]).

(** ** Lemmas *)

(** *** One event later *)

Lemma sess_started_snoc h e sid :
  sess_started (h ++ [e]) sid = or_else (sess_started h sid) (starts_session sid e).
Proof. apply find_map_snoc. Qed.
Lemma sess_finished_snoc h e sid :
  sess_finished (h ++ [e]) sid = or_else (sess_finished h sid) (finishes_session sid e).
Proof. apply find_map_snoc. Qed.
Lemma run_finished_snoc h e : run_finished (h ++ [e]) = or_else (run_finished h) (finishes_run e).
Proof. apply find_map_snoc. Qed.
Lemma att_started_snoc h e id :
  att_started (h ++ [e]) id = or_else (att_started h id) (starts_attempt id e).
Proof. apply find_map_snoc. Qed.
Lemma att_finished_snoc h e id :
  att_finished (h ++ [e]) id = or_else (att_finished h id) (finishes_attempt id e).
Proof. apply find_map_snoc. Qed.
Lemma step_started_snoc h e aid sid :
  step_started (h ++ [e]) aid sid = or_else (step_started h aid sid) (starts_step aid sid e).
Proof. apply find_map_snoc. Qed.
Lemma step_finished_snoc h e aid sid :
  step_finished (h ++ [e]) aid sid = or_else (step_finished h aid sid) (finishes_step aid sid e).
Proof. apply find_map_snoc. Qed.
Lemma exec_first_snoc h e eid :
  exec_first (h ++ [e]) eid = or_else (exec_first h eid) (runs_execution eid e).
Proof. apply find_map_snoc. Qed.
Lemma exec_numbered_snoc h e eid n :
  exec_numbered (h ++ [e]) eid n = or_else (exec_numbered h eid n) (numbers_execution eid n e).
Proof. apply find_map_snoc. Qed.

#[export] Hint Rewrite sess_started_snoc sess_finished_snoc run_finished_snoc att_started_snoc
  att_finished_snoc step_started_snoc step_finished_snoc exec_first_snoc exec_numbered_snoc
  @or_else_None_r : history.

Lemma last_sequence_snoc h e sid :
  last_sequence (h ++ [e]) sid = if of_session sid e then sequence (any_env e) else last_sequence h sid.
Proof. unfold last_sequence. by rewrite foldl_app. Qed.

Lemma of_session_eq sid e : of_session sid e = true ↔ sessionId (any_env e) = sid.
Proof. apply str_eqb_eq. Qed.

(** Inside a session the sequence numbers are 1, 2, 3, ... without a gap. *)
Definition session_sequences (h : history) (sid : str) : list Z :=
  (λ e, sequence (any_env e)) <$> List.filter (of_session sid) h.

Lemma session_sequences_snoc h e sid :
  session_sequences (h ++ [e]) sid =
    session_sequences h sid ++ (if of_session sid e then [sequence (any_env e)] else []).
Proof.
  unfold session_sequences. rewrite List.filter_app, fmap_app. simpl. by destruct (of_session sid e).
Qed.

Lemma not_started_no_events h sid :
  valid_history h → sess_started h sid = None → session_sequences h sid = [] ∧ last_sequence h sid = 0.
Proof.
  induction 1 as [|h e Hv IH (Hr & Hs & Hp)]; [done|]. rewrite sess_started_snoc.
  intros [E Hn]%or_else_None. destruct IH as [IH1 IH2]; [done|].
  rewrite session_sequences_snoc, last_sequence_snoc, IH1, IH2.
  destruct (of_session sid e) eqn:Eo; [|done]. exfalso. apply of_session_eq in Eo.
  unfold session_rule in Hs. rewrite Eo in Hs.
  destruct e as [[env []]|u]; simpl in *; destruct_and?; try (by rewrite E in *; destruct_and?; naive_solver).
  rewrite Eo, str_eqb_refl in Hn. done.
Qed.

Lemma sequences_contiguous h sid :
  valid_history h →
  session_sequences h sid = seqZ 1 (last_sequence h sid) ∧ 0 <= last_sequence h sid.
Proof.
  induction 1 as [|h e Hv [IH IHn] (Hr & Hs & Hp)]; [done|].
  rewrite session_sequences_snoc, last_sequence_snoc.
  destruct (of_session sid e) eqn:Eo; [|by rewrite app_nil_r].
  apply of_session_eq in Eo. unfold session_rule in Hs. rewrite Eo in Hs.
  assert (sequence (any_env e) = last_sequence h sid + 1) as ->.
  { destruct (is_session_started e); destruct_and?; [|done].
    destruct (not_started_no_events h sid) as [_ ->]; [done|done|lia]. }
  split; [|lia]. rewrite IH, (seqZ_app 1 (last_sequence h sid) 1) by lia. f_equal.
  rewrite seqZ_cons by lia. simpl. f_equal. lia.
Qed.

(** ** What a valid history implies *)

Lemma starts_step_rule h e aid sid :
  allowed h e → is_Some (starts_step aid sid e) → is_Some (att_started h aid).
Proof.
  intros (_ & _ & Hp) Hs. destruct e as [[env []]|]; simpl in *; try by destruct Hs.
  destruct (str_eqb (st_attemptId p) aid) eqn:E; [|by destruct Hs].
  apply str_eqb_eq in E. subst aid. apply Hp.
Qed.

Lemma finishes_step_rule h e aid sid :
  allowed h e → is_Some (finishes_step aid sid e) → is_Some (step_started h aid sid).
Proof.
  intros (_ & _ & Hp) Hs. destruct e as [[env []]|]; simpl in *; try by destruct Hs.
  destruct (str_eqb (sp_attemptId p) aid && str_eqb (sp_stepId p) sid) eqn:E; [|by destruct Hs].
  apply andb_true_iff in E as [E1 E2]. apply str_eqb_eq in E1, E2. subst. apply Hp.
Qed.

Lemma finishes_attempt_rule h e id :
  allowed h e → is_Some (finishes_attempt id e) → is_Some (att_started h id).
Proof.
  intros (_ & _ & Hp) Hs. destruct e as [[env []]|]; simpl in *; try by destruct Hs.
  destruct (str_eqb (af_attemptId p) id) eqn:E; [|by destruct Hs].
  apply str_eqb_eq in E. subst id. apply Hp.
Qed.

(** Every event but the first of a session finds it started. *)
Lemma allowed_session h e :
  allowed h e → is_Some (sess_started (h ++ [e]) (sessionId (any_env e))).
Proof.
  intros (_ & Hs & _). rewrite sess_started_snoc, or_else_is_Some. unfold session_rule in Hs.
  destruct (is_session_started e) eqn:E; [right | by left; apply Hs].
  destruct e as [[env []]|]; try done. simpl. rewrite str_eqb_refl. eauto.
Qed.

Lemma valid_step_attempt h aid sid :
  valid_history h → is_Some (step_started h aid sid) → is_Some (att_started h aid).
Proof.
  induction 1 as [|h e Hv IH Ha]; [by intros []|].
  rewrite step_started_snoc, att_started_snoc, !or_else_is_Some.
  intros [H|H]; left; [auto | by eapply starts_step_rule].
Qed.

Lemma valid_step_finished h aid sid :
  valid_history h → is_Some (step_finished h aid sid) → is_Some (step_started h aid sid).
Proof.
  induction 1 as [|h e Hv IH Ha]; [by intros []|].
  rewrite step_started_snoc, step_finished_snoc, !or_else_is_Some.
  intros [H|H]; left; [auto | by eapply finishes_step_rule].
Qed.

Lemma valid_attempt_finished h id :
  valid_history h → is_Some (att_finished h id) → is_Some (att_started h id).
Proof.
  induction 1 as [|h e Hv IH Ha]; [by intros []|].
  rewrite att_started_snoc, att_finished_snoc, !or_else_is_Some.
  intros [H|H]; left; [auto | by eapply finishes_attempt_rule].
Qed.

Lemma valid_event_session h e :
  valid_history h → e ∈ h → is_Some (sess_started h (sessionId (any_env e))).
Proof.
  induction 1 as [|h e' Hv IH Ha]; [by intros ?%elem_of_nil|].
  intros [Hin| ->%list_elem_of_singleton]%elem_of_app; [|by apply allowed_session].
  rewrite sess_started_snoc, or_else_is_Some. left. auto.
Qed.

Lemma valid_session_finished h sid :
  valid_history h → is_Some (sess_finished h sid) → is_Some (sess_started h sid).
Proof.
  intros Hv [p (e & He & Hf)%find_map_Some].
  assert (sessionId (any_env e) = sid) as <-; [|by apply valid_event_session].
  destruct e as [[env []]|]; simpl in *; try done.
  destruct (str_eqb _ _) eqn:E; [|done]. by apply str_eqb_eq.
Qed.

Lemma valid_attempt_session h id env p :
  valid_history h → att_started h id = Some (env, p) → is_Some (sess_started h (sessionId env)).
Proof.
  intros Hv (e & He & Hf)%find_map_Some. pose proof (valid_event_session h e Hv He) as H.
  destruct e as [[env' []]|]; simpl in *; try done. by destruct (str_eqb _ _); simplify_eq.
Qed.

Lemma valid_event_ids h : valid_history h → NoDup ((λ e, eventId (any_env e)) <$> h).
Proof.
  induction 1 as [|h e Hv IH ((_ & Hi) & _)]; [constructor|].
  rewrite fmap_app. apply NoDup_app. split_and!; [done| |apply NoDup_singleton].
  intros i (e' & -> & He')%list_elem_of_fmap. simpl. rewrite list_elem_of_singleton. by apply Hi.
Qed.

Lemma valid_run_ids h e e' :
  valid_history h → e ∈ h → e' ∈ h → runId (any_env e) = runId (any_env e').
Proof.
  intros Hv. revert e e'. induction Hv as [|h x Hv IH ((Hr & _) & _)]; [set_solver|].
  intros e e' [He| ->%list_elem_of_singleton]%elem_of_app [He'| ->%list_elem_of_singleton]%elem_of_app;
    auto. by rewrite (Hr e' He').
Qed.

Lemma att_started_id h id env p : att_started h id = Some (env, p) → as_attemptId p = id.
Proof.
  intros (e & _ & He)%find_map_Some. destruct e as [[env' []]|]; simpl in He; try done.
  destruct (str_eqb _ _) eqn:E; [|done]. apply str_eqb_eq in E. by simplify_eq.
Qed.

Lemma att_started_numbered h id env p :
  att_started h id = Some (env, p) →
  is_Some (exec_numbered h (t_executionId (as_test p)) (as_attemptNumber p)).
Proof.
  intros (e & He & Hf)%find_map_Some. apply (find_map_hit _ _ e He).
  destruct e as [[env' []]|]; simpl in Hf; try done. destruct (str_eqb _ _); [|done].
  simplify_eq. simpl. rewrite str_eqb_refl, Z.eqb_refl. simpl. eauto.
Qed.

(** One attempt per number of an execution. *)
Lemma valid_numbers_distinct h id id' env p env' p' :
  valid_history h → att_started h id = Some (env, p) → att_started h id' = Some (env', p') →
  t_executionId (as_test p) = t_executionId (as_test p') →
  as_attemptNumber p = as_attemptNumber p' → id = id'.
Proof.
  intros Hv. revert id id' env p env' p'. induction Hv as [|h e Hv IH Ha]; [done|].
  assert (∀ id id' env p env' p', att_started h id = Some (env, p) → att_started h id' = None →
    starts_attempt id' e = Some (env', p') → t_executionId (as_test p) = t_executionId (as_test p') →
    as_attemptNumber p = as_attemptNumber p' → False) as Hcross.
  { intros id id' env p env' p' Hs _ He Hx Hn. destruct Ha as (_ & _ & Hp).
    destruct e as [[env0 []]|]; simpl in *; try done. destruct (str_eqb _ _); [|done]. simplify_eq.
    destruct Hp as (_ & _ & Hnum & _). rewrite <-Hx, <-Hn in Hnum.
    destruct (att_started_numbered h id env p Hs) as [? Hq]. congruence. }
  intros id id' env p env' p'. rewrite !att_started_snoc.
  destruct (att_started h id) as [[]|] eqn:E1, (att_started h id') as [[]|] eqn:E2; simpl; intros H1 H2 Hx Hn;
    simplify_eq; [by eapply IH|exfalso; by eapply Hcross|exfalso; by eapply Hcross|].
  destruct e as [[env0 []]|]; simpl in *; try done.
  destruct (str_eqb _ id) eqn:I1, (str_eqb _ id') eqn:I2; simplify_eq.
  apply str_eqb_eq in I1, I2. congruence.
Qed.
