(* ===== verification/Validator.v ===== *)
(** * The run validator (ts/packages/validator/src/validator.ts)

    [RunValidator] as a record, [feed] as a fold over the lines of one event
    file, [finish] as the run-level rules, the attachment check and the report,
    and the directory validators on top. [this.x = y] is a field update; the
    JavaScript maps keep insertion order, so diagnostics come out in the
    source's order.

    Parameters stand for what is not under src/: [JSON.parse] on text, the
    compiled JSON schema validators (Ajv), SHA-256, and the file system. *)

From S2P Require Import Prelude JsString JsMap JsSort Json Model Codec.

Local Open Scope Z_scope.

(** ** Diagnostics *)

Inductive DiagnosticCode :=
| D_MALFORMED_JSON | D_SCHEMA_INVALID | D_UNSUPPORTED_PROTOCOL_VERSION | D_UNSUPPORTED_EVENT_TYPE
| D_EVENT_TOO_LARGE | D_LIFECYCLE_INVALID | D_ATTACHMENT_MISSING | D_ATTACHMENT_SIZE_MISMATCH
| D_ATTACHMENT_HASH_MISMATCH | D_UNSAFE_FILESYSTEM_ENTRY | D_IGNORED_EVENT_TYPE | D_DUPLICATE_EVENT
| D_INCOMPLETE_RUN.

Inductive LifecycleDetail :=
| RUN_ID_MISMATCH | SESSION_NOT_STARTED | SESSION_ALREADY_STARTED | SESSION_ALREADY_FINISHED
| SESSION_FILE_MIXED | SEQUENCE_GAP | DUPLICATE_EVENT_ID | EVENT_AFTER_RUN_FINISHED
| DUPLICATE_RUN_FINISHED | SESSION_NOT_FINISHED_AT_RUN_END | DUPLICATE_ATTEMPT_ID
| DUPLICATE_ATTEMPT_NUMBER | HISTORICAL_IDENTITY_CHANGED | EXECUTION_RUNNER_CHANGED
| ATTEMPT_NOT_STARTED | DUPLICATE_ATTEMPT_FINISHED | ATTEMPT_NOT_FINISHED_AT_SESSION_END
| HISTORICAL_ID_WITHOUT_RUNNER | STEP_OUTSIDE_ATTEMPT | STEP_PARENT_UNKNOWN | DUPLICATE_STEP_ID
| STEP_NOT_STARTED | DUPLICATE_STEP_FINISHED | STEP_NOT_FINISHED_AT_ATTEMPT_END
| ATTACHMENT_ATTEMPT_UNKNOWN | ATTACHMENT_AFTER_ATTEMPT_FINISHED | ATTACHMENT_STEP_UNKNOWN.

Inductive Severity := SevError | SevInfo.

#[export] Instance Severity_eq_dec : EqDecision Severity.
Proof. solve_decision. Defined.
#[export] Instance LifecycleDetail_eq_dec : EqDecision LifecycleDetail.
Proof. solve_decision. Defined.
#[export] Instance DiagnosticCode_eq_dec : EqDecision DiagnosticCode.
Proof. solve_decision. Defined.

Record Diagnostic := {
  d_severity : Severity;
  d_code : DiagnosticCode;
  d_file : str;
  d_line : Z;
  d_eventId : option str;
  d_pointer : option str;
  d_detail : option LifecycleDetail;
  d_message : str;
}.

Inductive Verdict := VPassed | VFailed | VInconclusive | VIncomplete.

#[export] Instance Verdict_eq_dec : EqDecision Verdict.
Proof. solve_decision. Defined.

Record Summary := {
  sm_files : Z; sm_events : Z; sm_sessions : Z; sm_attempts : Z; sm_steps : Z;
  sm_attachments : Z; sm_failedAttempts : Z; sm_scopeFailures : Z; sm_failedSessions : Z;
  sm_inconclusiveSessions : Z; sm_sessionFailures : Z; sm_ignored : Z; sm_duplicates : Z;
  sm_complete : bool; sm_closed : bool; sm_verdict : Verdict;
}.

Record Report := { r_valid : bool; r_diagnostics : list Diagnostic; r_summary : Summary }.

Record ValidateOptions := {
  opt_attachmentsDir : option str;
  opt_requireComplete : bool;
  opt_maxEventBytes : option Z;
  opt_retainEvents : option bool;
  opt_retainSourceLines : bool;
}.

#[export] Instance ValidateOptions_fields : Fields ValidateOptions := λ r,
  {| opt_attachmentsDir := opt_attachmentsDir r; opt_requireComplete := opt_requireComplete r;
     opt_maxEventBytes := opt_maxEventBytes r; opt_retainEvents := opt_retainEvents r;
     opt_retainSourceLines := opt_retainSourceLines r |}.

Inductive Disposition := DispAccepted | DispIgnored | DispDuplicate.

Record ValidatedSourceLine := {
  sl_rawLine : str; sl_eventId : str; sl_runId : str; sl_sessionId : str; sl_sequence : Z;
  sl_protocolVersion : str; sl_eventType : str; sl_canonicalSha256 : str;
  sl_disposition : Disposition; sl_sourceFile : str; sl_sourceLine : Z;
}.

Record ValidatedRun := {
  vr_report : Report; vr_events : list Event; vr_sourceLines : list ValidatedSourceLine;
}.

(** ** What the validator remembers *)

Record SessionState := {
  s_finished : bool; s_lastSequence : Z; s_runnerName : option str; s_synthesized : bool;
}.
#[export] Instance SessionState_fields : Fields SessionState := λ r,
  {| s_finished := s_finished r; s_lastSequence := s_lastSequence r;
     s_runnerName := s_runnerName r; s_synthesized := s_synthesized r |}.

Record AttemptState := {
  a_session : str; a_executionId : str; a_attemptNumber : Z; a_inconclusive : bool;
  a_finished : bool; a_unexpected : bool; a_steps : jsmap str bool;
}.
#[export] Instance AttemptState_fields : Fields AttemptState := λ r,
  {| a_session := a_session r; a_executionId := a_executionId r;
     a_attemptNumber := a_attemptNumber r; a_inconclusive := a_inconclusive r;
     a_finished := a_finished r; a_unexpected := a_unexpected r; a_steps := a_steps r |}.

(** [Location & { attemptId }] of the source; [lc_attemptId] is empty where only a location is meant. *)
Record Place := { lc_file : str; lc_line : Z; lc_eventId : str }.
Record AttemptPlace := { ap_place : Place; ap_attemptId : str }.

Record ExecutionState := {
  x_attemptNumbers : jsmap Z AttemptPlace;
  x_historicalId : option str;
  x_historicalIdStability : HistoricalIdStability;
  x_runnerName : option str;
  x_runnerKnown : bool;
  x_reference : AttemptPlace;
}.
#[export] Instance ExecutionState_fields : Fields ExecutionState := λ r,
  {| x_attemptNumbers := x_attemptNumbers r; x_historicalId := x_historicalId r;
     x_historicalIdStability := x_historicalIdStability r; x_runnerName := x_runnerName r;
     x_runnerKnown := x_runnerKnown r; x_reference := x_reference r |}.

Record DeclaredAttachment := { da_place : Place; da_sha256 : str; da_sizeBytes : Z }.

Record RunValidator := {
  options : ValidateOptions;
  diagnostics : list Diagnostic;
  seen : jsmap str str;
  sessions : jsmap str SessionState;
  attempts : jsmap str AttemptState;
  executions : jsmap str ExecutionState;
  attachments : list DeclaredAttachment;
  accepted : list Event;
  source_lines : list ValidatedSourceLine;
  attachmentsDirRefused : bool;
  run_id : option str;
  runFinished : option Place;
  files : Z; events : Z; ignored : Z; duplicates : Z; steps : Z;
  scopeFailures : Z; failedAttempts : Z; failedSessions : Z; inconclusiveSessions : Z;
  sessionFailures : Z;
}.
#[export] Instance RunValidator_fields : Fields RunValidator := λ r,
  {| options := options r; diagnostics := diagnostics r; seen := seen r; sessions := sessions r;
     attempts := attempts r; executions := executions r; attachments := attachments r;
     accepted := accepted r; source_lines := source_lines r;
     attachmentsDirRefused := attachmentsDirRefused r; run_id := run_id r;
     runFinished := runFinished r; files := files r; events := events r; ignored := ignored r;
     duplicates := duplicates r; steps := steps r; scopeFailures := scopeFailures r;
     failedAttempts := failedAttempts r; failedSessions := failedSessions r;
     inconclusiveSessions := inconclusiveSessions r; sessionFailures := sessionFailures r |}.

(** [new RunValidator(options)] *)
Definition new_validator (o : ValidateOptions) : RunValidator :=
  {| options := o; diagnostics := []; seen := []; sessions := []; attempts := []; executions := [];
     attachments := []; accepted := []; source_lines := []; attachmentsDirRefused := false;
     run_id := None; runFinished := None; files := 0; events := 0; ignored := 0; duplicates := 0;
     steps := 0; scopeFailures := 0; failedAttempts := 0; failedSessions := 0;
     inconclusiveSessions := 0; sessionFailures := 0 |}.

Definition push_diag (d : Diagnostic) (v : RunValidator) : RunValidator :=
  v <| diagnostics ::= λ ds, ds ++ [d] |>.

(** ** Schema errors (Ajv) *)

Record ErrorObject := {
  eo_instancePath : str; eo_message : option str; eo_missingProperty : option str;
}.

(** [firstError]: the pointer and message of the first schema violation. *)
Definition firstError (errors : list ErrorObject) : str * str :=
  match errors with
  | [] => ([], js "schema violation")
  | e :: _ =>
      let extra := match eo_missingProperty e with
                   | Some p => js " '" ++ p ++ js "'" | None => [] end in
      (eo_instancePath e,
       (if bool_decide (eo_instancePath e = []) then js "/" else eo_instancePath e) ++ js " "
         ++ default (js "invalid") (eo_message e) ++ extra)
  end.

Definition code_of (c : ProtocolErrorCode) : DiagnosticCode :=
  match c with
  | MALFORMED_JSON => D_MALFORMED_JSON
  | SCHEMA_INVALID => D_SCHEMA_INVALID
  | UNSUPPORTED_PROTOCOL_VERSION => D_UNSUPPORTED_PROTOCOL_VERSION
  | UNSUPPORTED_EVENT_TYPE => D_UNSUPPORTED_EVENT_TYPE
  end.

Definition describeIdentity (historicalId : option str) (stability : HistoricalIdStability) : str :=
  match historicalId with
  | None => stability_text stability
  | Some id => id ++ js ", " ++ stability_text stability
  end.

Definition where_ (p : Place) : str := lc_file p ++ js ":" ++ dec (lc_line p).

(** ** One line *)

(** What the loop over the lines of one file keeps besides [this]. *)
Record FeedState := {
  fs_line : Z; fs_fileSession : option str; fs_closedHere : bool; fs_abandoned : bool;
  fs_this : RunValidator;
}.
#[export] Instance FeedState_fields : Fields FeedState := λ r,
  {| fs_line := fs_line r; fs_fileSession := fs_fileSession r; fs_closedHere := fs_closedHere r;
     fs_abandoned := fs_abandoned r; fs_this := fs_this r |}.

Section validator.
Context (json_parse : str → json + str).
Context (schema : option str → json → option (list ErrorObject)).
Context (sha256_utf8 : str → str).

(** The local [error] with its extra properties. *)
Definition error (file : str) (code : DiagnosticCode) (message : str)
    (evId ptr : option str) (det : option LifecycleDetail) (line : Z) (v : RunValidator)
    : RunValidator :=
  push_diag {| d_severity := SevError; d_code := code; d_file := file; d_line := line;
               d_eventId := evId; d_pointer := ptr; d_detail := det; d_message := message |} v.

(** The local [lifecycle]. *)
Definition lifecycle (file : str) (line : Z) (detail : LifecycleDetail) (message evId : str)
    (v : RunValidator) : RunValidator :=
  error file D_LIFECYCLE_INVALID message (Some evId) None (Some detail) line v.

Definition lifecycle_if (b : bool) (file : str) (line : Z) (detail : LifecycleDetail)
    (message evId : str) (v : RunValidator) : RunValidator :=
  if b then lifecycle file line detail message evId v else v.

(** A line is skipped, refused with a diagnostic, or read as an event. *)
Inductive LineRead :=
| LineRefused (code : DiagnosticCode) (message : str) (evId ptr : option str)
| LineEvent (event : AnyEvent) (parsed : json).

Definition max_event_bytes (v : RunValidator) : Z :=
  default maxEventBytes_limit (opt_maxEventBytes (options v)).

(** The guards of the loop body up to the schema check. *)
Definition readLine (limit : Z) (raw : str) : LineRead :=
  let bytes := utf8_length raw + 1 in
  if limit <? bytes then
    LineRefused D_EVENT_TOO_LARGE
      (js "event is " ++ dec bytes ++ js " bytes, limit " ++ dec limit) None None
  else
    match json_parse raw with
    | inr why => LineRefused D_MALFORMED_JSON (js "not JSON: " ++ why) None None
    | inl parsed =>
        match eventFromObject parsed with
        | Throw e => LineRefused (code_of (pe_code e)) (pe_message e) None (pe_pointer e)
        | Ok event =>
            match schema (if isKnownEvent event then Some (any_type event) else None) parsed with
            | Some errors =>
                let '(pointer, message) := firstError errors in
                LineRefused D_SCHEMA_INVALID message (Some (eventId (any_env event))) (Some pointer)
            | None => LineEvent event parsed
            end
        end
    end.

(** The local [archive]. *)
Definition archive (file : str) (line : Z) (raw key : str) (event : AnyEvent)
    (disposition : Disposition) (v : RunValidator) : RunValidator :=
  if opt_retainSourceLines (options v) then
    let env := any_env event in
    v <| source_lines ::= λ l, l ++
      [{| sl_rawLine := raw; sl_eventId := eventId env; sl_runId := runId env;
          sl_sessionId := sessionId env; sl_sequence := sequence env;
          sl_protocolVersion := protocolVersion env; sl_eventType := any_type event;
          sl_canonicalSha256 := sha256_utf8 key; sl_disposition := disposition;
          sl_sourceFile := file; sl_sourceLine := line |}] |>
  else v.

(** A repeated event id: an identical duplicate, or a reuse with other content. *)
Definition repeatedEvent (file : str) (line : Z) (raw key previous : str) (event : AnyEvent)
    (v : RunValidator) : RunValidator :=
  let id := eventId (any_env event) in
  if str_eqb previous key then
    push_diag {| d_severity := SevInfo; d_code := D_DUPLICATE_EVENT; d_file := file; d_line := line;
                 d_eventId := Some id; d_pointer := None; d_detail := None;
                 d_message := js "identical duplicate ignored" |}
      (archive file line raw key event DispDuplicate (v <| duplicates ::= Z.succ |>))
  else
    lifecycle file line DUPLICATE_EVENT_ID
      (js "eventId " ++ id ++ js " reused with different content") id v.

(** The run id every event must share. *)
Definition checkRunId (file : str) (line : Z) (env : Envelope) (v : RunValidator) : RunValidator :=
  match run_id v with
  | None => v <| run_id := Some (runId env) |>
  | Some r =>
      lifecycle_if (negb (str_eqb r (runId env))) file line RUN_ID_MISMATCH
        (js "runId " ++ runId env ++ js " differs from " ++ r) (eventId env) v
  end.

(** ** Executions *)

(** [checkExecution] *)
Definition checkExecution (file : str) (line : Z) (evId : str) (p : AttemptStartedPayload)
    (session : SessionState) (v : RunValidator) : RunValidator :=
  let test := as_test p in
  let eid := t_executionId test in
  let here := {| ap_place := {| lc_file := file; lc_line := line; lc_eventId := evId |};
                 ap_attemptId := as_attemptId p |} in
  match mget (executions v) eid with
  | None =>
      v <| executions ::= λ m, mset m eid
        {| x_attemptNumbers := [(as_attemptNumber p, here)];
           x_historicalId := t_historicalId test;
           x_historicalIdStability := t_historicalIdStability test;
           x_runnerName := s_runnerName session;
           x_runnerKnown := negb (s_synthesized session);
           x_reference := here |} |>
  | Some known =>
      let v1 :=
        match mget (x_attemptNumbers known) (as_attemptNumber p) with
        | Some same =>
            lifecycle file line DUPLICATE_ATTEMPT_NUMBER
              (js "execution " ++ eid ++ js " has attempts " ++ ap_attemptId same ++ js " ("
                ++ where_ (ap_place same) ++ js ") and " ++ as_attemptId p ++ js " both numbered "
                ++ dec (as_attemptNumber p)) evId v
        | None =>
            v <| executions ::= λ m, mset m eid
              (known <| x_attemptNumbers ::= λ n, mset n (as_attemptNumber p) here |>) |>
        end in
      let v2 :=
        lifecycle_if
          (negb (bool_decide (x_historicalId known = t_historicalId test)) ||
           negb (bool_decide (x_historicalIdStability known = t_historicalIdStability test)))
          file line HISTORICAL_IDENTITY_CHANGED
          (js "execution " ++ eid ++ js " changes history identity between attempts "
            ++ ap_attemptId (x_reference known) ++ js " ("
            ++ describeIdentity (x_historicalId known) (x_historicalIdStability known) ++ js ", "
            ++ where_ (ap_place (x_reference known)) ++ js ") and " ++ as_attemptId p ++ js " ("
            ++ describeIdentity (t_historicalId test) (t_historicalIdStability test) ++ js ")")
          evId v1 in
      lifecycle_if
        (x_runnerKnown known && negb (s_synthesized session) &&
         negb (bool_decide (x_runnerName known = s_runnerName session)))
        file line EXECUTION_RUNNER_CHANGED
        (js "execution " ++ eid ++ js " spans sessions of different runners: "
          ++ default (js "none") (x_runnerName known) ++ js " at attempt "
          ++ ap_attemptId (x_reference known) ++ js " (" ++ where_ (ap_place (x_reference known))
          ++ js "), " ++ default (js "none") (s_runnerName session) ++ js " at attempt "
          ++ as_attemptId p) evId v2
  end.

(** ** The event switch *)

Definition onSessionFinished (file : str) (line : Z) (env : Envelope) (p : SessionFinishedPayload)
    (v : RunValidator) : RunValidator :=
  let v1 := v <| sessions ::= λ m, mupd m (sessionId env) (λ s, s <| s_finished := true |>) |> in
  let v2 := if bool_decide (sf_status p = Some SeFailed) then v1 <| failedSessions ::= Z.succ |> else v1 in
  let v3 := if bool_decide (sf_status p = Some SeInconclusive)
            then v2 <| inconclusiveSessions ::= Z.succ |> else v2 in
  let v4 := v3 <| sessionFailures ::= λ n, n + Z.of_nat (length (default [] (sf_failures p))) |> in
  foldl (λ w ida,
      lifecycle_if (str_eqb (a_session (ida.2)) (sessionId env) && negb (a_finished (ida.2)))
        file line ATTEMPT_NOT_FINISHED_AT_SESSION_END
        (js "attempt " ++ ida.1 ++ js " still open") (eventId env) w)
    v4 (attempts v4).

Definition onRunFinished (file : str) (line : Z) (env : Envelope) (v : RunValidator) : RunValidator :=
  match runFinished v with
  | Some first =>
      lifecycle file line DUPLICATE_RUN_FINISHED
        (js "run.finished seen twice (first in " ++ where_ first ++ js ")") (eventId env) v
  | None =>
      v <| runFinished := Some {| lc_file := file; lc_line := line; lc_eventId := eventId env |} |>
  end.

Definition onAttemptStarted (file : str) (line : Z) (env : Envelope) (p : AttemptStartedPayload)
    (session : SessionState) (v : RunValidator) : RunValidator :=
  let id := as_attemptId p in
  let v1 :=
    lifecycle_if (bool_decide (is_Some (t_historicalId (as_test p))) &&
                  bool_decide (s_runnerName session = None))
      file line HISTORICAL_ID_WITHOUT_RUNNER
      (js "test " ++ id ++ js " carries a historicalId but session " ++ sessionId env
        ++ js " declares no runner") (eventId env) v in
  if mhas (attempts v1) id then
    lifecycle file line DUPLICATE_ATTEMPT_ID (js "attempt " ++ id ++ js " started twice")
      (eventId env) v1
  else
    checkExecution file line (eventId env) p session
      (v1 <| attempts ::= λ m, mset m id
        {| a_session := sessionId env; a_executionId := t_executionId (as_test p);
           a_attemptNumber := as_attemptNumber p; a_inconclusive := false; a_finished := false;
           a_unexpected := false; a_steps := [] |} |>).

(** Failed where passing was expected, or passed where failure was. *)
Definition is_unexpected (status : Status) (expected : ExpectedStatus) : bool :=
  (bool_decide (status = StFailed) && negb (bool_decide (expected = ExFailed))) ||
  (bool_decide (status = StPassed) && bool_decide (expected = ExFailed)).

Definition onAttemptFinished (file : str) (line : Z) (env : Envelope) (p : AttemptFinishedPayload)
    (v : RunValidator) : RunValidator :=
  let id := af_attemptId p in
  match mget (attempts v) id with
  | None =>
      lifecycle file line ATTEMPT_NOT_STARTED
        (js "attempt " ++ id ++ js " finished but never started") (eventId env) v
  | Some a =>
      if a_finished a then
        lifecycle file line DUPLICATE_ATTEMPT_FINISHED
          (js "attempt " ++ id ++ js " finished twice") (eventId env) v
      else
        let status := af_status p in
        let expected := default ExPassed (af_expectedStatus p) in
        let v1 := if bool_decide (status = StFailed) then v <| failedAttempts ::= Z.succ |> else v in
        let v2 := v1 <| attempts ::= λ m, mset m id
          (a <| a_finished := true |> <| a_unexpected := is_unexpected status expected |>
             <| a_inconclusive := bool_decide (status = StInconclusive) |>) |> in
        foldl (λ w step,
            lifecycle_if (negb step.2) file line STEP_NOT_FINISHED_AT_ATTEMPT_END
              (js "step " ++ step.1 ++ js " still open") (eventId env) w)
          v2 (a_steps a)
  end.

Definition onStepStarted (file : str) (line : Z) (env : Envelope) (p : StepStartedPayload)
    (v : RunValidator) : RunValidator :=
  let outside :=
    lifecycle file line STEP_OUTSIDE_ATTEMPT
      (js "step " ++ st_stepId p ++ js " outside an open attempt") (eventId env) v in
  match mget (attempts v) (st_attemptId p) with
  | None => outside
  | Some a =>
      if a_finished a then outside
      else
        let v1 := lifecycle_if (mhas (a_steps a) (st_stepId p)) file line DUPLICATE_STEP_ID
                    (js "step " ++ st_stepId p ++ js " started twice") (eventId env) v in
        let v2 := match st_parentStepId p with
                  | Some parent =>
                      lifecycle_if (negb (mhas (a_steps a) parent)) file line STEP_PARENT_UNKNOWN
                        (js "parent step " ++ parent ++ js " unknown") (eventId env) v1
                  | None => v1
                  end in
        v2 <| attempts ::= λ m, mset m (st_attemptId p)
                (a <| a_steps ::= λ l, mset l (st_stepId p) false |>) |>
           <| steps ::= Z.succ |>
  end.

Definition onStepFinished (file : str) (line : Z) (env : Envelope) (p : StepFinishedPayload)
    (v : RunValidator) : RunValidator :=
  let unknown :=
    lifecycle file line STEP_NOT_STARTED
      (js "step " ++ sp_stepId p ++ js " finished but never started") (eventId env) v in
  match mget (attempts v) (sp_attemptId p) with
  | None => unknown
  | Some a =>
      match mget (a_steps a) (sp_stepId p) with
      | None => unknown
      | Some true =>
          lifecycle file line DUPLICATE_STEP_FINISHED
            (js "step " ++ sp_stepId p ++ js " finished twice") (eventId env) v
      | Some false =>
          v <| attempts ::= λ m, mset m (sp_attemptId p)
                 (a <| a_steps ::= λ l, mset l (sp_stepId p) true |>) |>
      end
  end.

Definition onAttachmentAdded (file : str) (line : Z) (env : Envelope) (p : AttachmentAddedPayload)
    (v : RunValidator) : RunValidator :=
  let v1 :=
    match mget (attempts v) (aa_attemptId p) with
    | None =>
        lifecycle file line ATTACHMENT_ATTEMPT_UNKNOWN
          (js "attachment for unknown attempt " ++ aa_attemptId p) (eventId env) v
    | Some a =>
        if a_finished a then
          lifecycle file line ATTACHMENT_AFTER_ATTEMPT_FINISHED
            (js "attachment after attempt " ++ aa_attemptId p ++ js " finished") (eventId env) v
        else
          match aa_stepId p with
          | Some stepId =>
              lifecycle_if (negb (mhas (a_steps a) stepId)) file line ATTACHMENT_STEP_UNKNOWN
                (js "attachment for unknown step " ++ stepId) (eventId env) v
          | None => v
          end
    end in
  v1 <| attachments ::= λ l, l ++
    [{| da_place := {| lc_file := file; lc_line := line; lc_eventId := eventId env |};
        da_sha256 := aa_sha256 p; da_sizeBytes := aa_sizeBytes p |}] |>.

Definition dispatch_event (file : str) (line : Z) (event : Event) (session : SessionState)
    (v : RunValidator) : RunValidator :=
  let env := e_env event in
  match e_payload event with
  | SessionStarted _ => v
  | SessionFinished p => onSessionFinished file line env p v
  | RunFinished => onRunFinished file line env v
  | AttemptStarted p => onAttemptStarted file line env p session v
  | AttemptFinished p => onAttemptFinished file line env p v
  | StepStarted p => onStepStarted file line env p v
  | StepFinished p => onStepFinished file line env p v
  | ScopeFailed _ => v <| scopeFailures ::= Z.succ |>
  | AttachmentAdded p => onAttachmentAdded file line env p v
  end.

(** ** Sessions *)

Definition runner_of (event : AnyEvent) : option str :=
  match event with
  | Known {| e_payload := SessionStarted p |} => c_name <$> ss_runner p
  | _ => None
  end.

(** The session an event belongs to: started by it, known, or synthesised with a
    diagnostic. Nothing when the event starts a session twice. *)
Definition openSession (file : str) (line : Z) (event : AnyEvent) (v : RunValidator)
    : option SessionState * RunValidator :=
  let env := any_env event in
  let set s w := (Some s, w <| sessions ::= λ m, mset m (sessionId env) s |>) in
  match mget (sessions v) (sessionId env), str_eqb (any_type event) (js "session.started") with
  | Some _, true =>
      (None, lifecycle file line SESSION_ALREADY_STARTED
               (js "session " ++ sessionId env ++ js " started twice") (eventId env) v)
  | None, true =>
      set {| s_finished := false; s_lastSequence := 0; s_runnerName := runner_of event;
             s_synthesized := false |} v
  | None, false =>
      set {| s_finished := false; s_lastSequence := sequence env - 1; s_runnerName := None;
             s_synthesized := true |}
        (lifecycle file line SESSION_NOT_STARTED
           (any_type event ++ js " before session.started for " ++ sessionId env) (eventId env) v)
  | Some s, false => (Some s, v)
  end.

(** The sequence rule, and the session's new position. *)
Definition advanceSession (file : str) (line : Z) (env : Envelope) (session : SessionState)
    (v : RunValidator) : RunValidator :=
  (lifecycle_if (negb (sequence env =? s_lastSequence session + 1)) file line SEQUENCE_GAP
     (js "sequence " ++ dec (sequence env) ++ js " follows " ++ dec (s_lastSequence session)
       ++ js " in session " ++ sessionId env) (eventId env) v)
    <| sessions ::= λ m, mset m (sessionId env) (session <| s_lastSequence := sequence env |>) |>.

(** The rest of the loop body, once the session is known. *)
Definition acceptEvent (file : str) (line : Z) (raw key : str) (event : AnyEvent)
    (session : SessionState) (v : RunValidator) : RunValidator :=
  let env := any_env event in
  let v1 := advanceSession file line env session v in
  if s_finished session && negb (str_eqb (any_type event) (js "run.finished")) then
    lifecycle file line SESSION_ALREADY_FINISHED
      (any_type event ++ js " after session.finished") (eventId env) v1
  else
    match event with
    | Unknown u =>
        push_diag {| d_severity := SevInfo; d_code := D_IGNORED_EVENT_TYPE; d_file := file;
                     d_line := line; d_eventId := Some (eventId env); d_pointer := None;
                     d_detail := None;
                     d_message := js "unknown ignorable event type " ++ u_eventType u
                                    ++ js " skipped" |}
          (archive file line raw key event DispIgnored (v1 <| ignored ::= Z.succ |>))
    | Known e =>
        let v2 := if bool_decide (opt_retainEvents (options v1) = Some true)
                  then v1 <| accepted ::= λ l, l ++ [e] |> else v1 in
        dispatch_event file line e (session <| s_lastSequence := sequence env |>)
          (archive file line raw key event DispAccepted v2)
    end.

(** Whether [run.finished] was processed: the source sets [closedHere] in that case of the switch. *)
Definition closes (event : AnyEvent) : bool :=
  match event with Known {| e_payload := RunFinished |} => true | _ => false end.

(** A new event of the file: run id, session file, closure, session, switch. *)
Definition newEvent (file : str) (singleSession : bool) (raw key : str) (event : AnyEvent)
    (s : FeedState) : FeedState :=
  let env := any_env event in
  let line := fs_line s in
  let v := (fs_this s) <| seen ::= λ m, mset m (eventId env) key |> <| events ::= Z.succ |> in
  let v1 := checkRunId file line env v in
  let mixed := match fs_fileSession s with
               | Some f => singleSession && negb (str_eqb f (sessionId env))
               | None => false
               end in
  if mixed then
    s <| fs_this := lifecycle file line SESSION_FILE_MIXED
           (js "session " ++ sessionId env ++ js " in the file of session "
             ++ default [] (fs_fileSession s)) (eventId env) v1 |>
  else
    let s1 := match fs_fileSession s with
              | None => if singleSession then s <| fs_fileSession := Some (sessionId env) |> else s
              | Some _ => s
              end in
    let v2 := lifecycle_if (fs_closedHere s) file line EVENT_AFTER_RUN_FINISHED
                (any_type event ++ js " after run.finished") (eventId env) v1 in
    match openSession file line event v2 with
    | (None, v3) =>
        s1 <| fs_this := v3 |> <| fs_abandoned := fs_abandoned s || singleSession |>
    | (Some session, v3) =>
        s1 <| fs_this := acceptEvent file line raw key event session v3 |>
           <| fs_closedHere := fs_closedHere s || closes event |>
    end.

(** One turn of the loop over the lines of a file. *)
Definition feedLine (file : str) (singleSession : bool) (s0 : FeedState) (raw : str) : FeedState :=
  let s := s0 <| fs_line ::= Z.succ |> in
  if fs_abandoned s || is_blank raw then s
  else
    match readLine (max_event_bytes (fs_this s)) raw with
    | LineRefused code message evId ptr =>
        s <| fs_this ::= error file code message evId ptr None (fs_line s) |>
    | LineEvent event parsed =>
        let key := canonical parsed in
        match mget (seen (fs_this s)) (eventId (any_env event)) with
        | Some previous =>
            s <| fs_this ::= repeatedEvent file (fs_line s) raw key previous event |>
        | None => newEvent file singleSession raw key event s
        end
    end.

(** [feed] *)
Definition feed (lines : list str) (file : str) (singleSession : bool) (v : RunValidator)
    : RunValidator :=
  fs_this (foldl (feedLine file singleSession)
    {| fs_line := 0; fs_fileSession := None; fs_closedHere := false; fs_abandoned := false;
       fs_this := v <| files ::= Z.succ |> |} lines).

End validator.
