(* ===== verification/ValidatorRun.v ===== *)
(** * The end of a validation (validator.ts: finish, refuseEntry, the directory validators)

    The run-level rules, the attachment bytes, completeness, the verdict and the
    report; and the validators of a stream, a file and a run directory. The file
    system is a parameter: what [lstat], [open] and [readdir] answer, with the
    error codes the source tells apart. *)

From S2P Require Import Prelude JsString JsMap JsSort Json Model Codec Validator.

Local Open Scope Z_scope.

(** ** File system answers *)

(** The error codes the source distinguishes; any other is rethrown. *)
Inductive Errno := ENOENT | ENOTDIR | ELOOP | EMLINK | EOTHER (what : str).

(** What a [Stats] says of itself: the first test that holds. *)
Inductive StatKind := KSymlink | KFile | KDirectory | KSpecial.

#[export] Instance StatKind_eq_dec : EqDecision StatKind.
Proof. solve_decision. Defined.

(** An open descriptor: what [fstat] says of it, and its bytes (size, digest, text). *)
Record OpenFile := { of_kind : StatKind; of_size : Z; of_sha256 : str; of_text : str }.

Record FileSystem := {
  fsys_lstat : str → res Errno StatKind;
  fsys_open : str → res Errno OpenFile;       (* O_NOFOLLOW, O_NONBLOCK *)
  fsys_readdir : str → res Errno (list str);
  fsys_realpath : str → res Errno str;
  fsys_join : str → str → str;
}.

Inductive EntryKind := EMissing | EKind (k : StatKind).

(** [entryKind] *)
Definition entryKind (fs : FileSystem) (path : str) : res Errno EntryKind :=
  match fsys_lstat fs path with
  | Ok k => Ok (EKind k)
  | Throw (ENOENT | ENOTDIR) => Ok EMissing
  | Throw e => Throw e
  end.

(** [trustedDirectory] *)
Definition trustedDirectory (fs : FileSystem) (path : str) : res Errno str :=
  match fsys_realpath fs path with
  | Ok p => Ok p
  | Throw ENOENT => Ok path
  | Throw e => Throw e
  end.

(** REFUSAL *)
Definition refusal (k : StatKind) : str :=
  match k with
  | KSymlink => js "a symbolic link"
  | KDirectory => js "a directory"
  | KSpecial => js "not a regular file"
  | KFile => js "a regular file"
  end.

(** [openRegular]: a descriptor, or the kind found instead. *)
Definition openRegular (fs : FileSystem) (path : str) : res Errno (OpenFile + EntryKind) :=
  match fsys_open fs path with
  | Throw (ELOOP | EMLINK) => Ok (inr (EKind KSymlink))
  | Throw ENOENT => Ok (inr EMissing)
  | Throw e => Throw e
  | Ok f => Ok (if bool_decide (of_kind f = KFile) then inl f else inr (EKind (of_kind f)))
  end.

(** [refuseEntry] *)
Definition refuseEntry (path : str) (reason : StatKind) (expected_directory : bool)
    (v : RunValidator) : RunValidator :=
  push_diag {| d_severity := SevError; d_code := D_UNSAFE_FILESYSTEM_ENTRY; d_file := path;
               d_line := 0; d_eventId := None; d_pointer := None; d_detail := None;
               d_message :=
                 if expected_directory
                 then refusal reason ++ js " where a directory is required; nothing below it is read"
                 else refusal reason ++ js "; only regular files are read" |} v.

(** ** finish *)

Definition error_at (p : Place) (code : DiagnosticCode) (detail : option LifecycleDetail)
    (message : str) (v : RunValidator) : RunValidator :=
  push_diag {| d_severity := SevError; d_code := code; d_file := lc_file p; d_line := lc_line p;
               d_eventId := Some (lc_eventId p); d_pointer := None; d_detail := detail;
               d_message := message |} v.

(** Every session finished when the run is closed. *)
Definition checkRunEnd (v : RunValidator) : RunValidator :=
  match runFinished v with
  | None => v
  | Some p =>
      foldl (λ w ids,
          if s_finished ids.2 then w
          else error_at p D_LIFECYCLE_INVALID (Some SESSION_NOT_FINISHED_AT_RUN_END)
                 (js "run.finished while session " ++ ids.1 ++ js " is still open") w)
        v (sessions v)
  end.

Definition attachment_missing (a : DeclaredAttachment) : RunValidator → RunValidator :=
  error_at (da_place a) D_ATTACHMENT_MISSING None (js "no file for sha256 " ++ da_sha256 a).

Definition attachment_unsafe (a : DeclaredAttachment) (k : StatKind) : RunValidator → RunValidator :=
  error_at (da_place a) D_UNSAFE_FILESYSTEM_ENTRY None
    (js "attachment " ++ da_sha256 a ++ js " is " ++ refusal k ++ js "; only regular files are read").

(** The bytes of one declared attachment. *)
Definition checkAttachment (fs : FileSystem) (dir : str) (a : DeclaredAttachment) (v : RunValidator)
    : res Errno RunValidator :=
  let path := fsys_join fs dir (da_sha256 a) in
  kind ← entryKind fs path;
  match kind with
  | EMissing => Ok (attachment_missing a v)
  | EKind KFile =>
      opened ← openRegular fs path;
      match opened with
      | inr EMissing => Ok (attachment_missing a v)
      | inr (EKind k) => Ok (attachment_unsafe a k v)
      | inl f =>
          let v1 := if of_size f =? da_sizeBytes a then v
                    else error_at (da_place a) D_ATTACHMENT_SIZE_MISMATCH None
                           (js "declared " ++ dec (da_sizeBytes a) ++ js " bytes, file has "
                             ++ dec (of_size f)) v in
          Ok (if str_eqb (of_sha256 f) (da_sha256 a) then v1
              else error_at (da_place a) D_ATTACHMENT_HASH_MISMATCH None
                     (js "declared " ++ da_sha256 a ++ js ", file hashes to " ++ of_sha256 f) v1)
      end
  | EKind k => Ok (attachment_unsafe a k v)
  end.

Fixpoint checkEach (fs : FileSystem) (dir : str) (l : list DeclaredAttachment) (v : RunValidator)
    : res Errno RunValidator :=
  match l with
  | [] => Ok v
  | a :: l' => v' ← checkAttachment fs dir a v; checkEach fs dir l' v'
  end.

Definition checkAttachments (fs : FileSystem) (v : RunValidator) : res Errno RunValidator :=
  match opt_attachmentsDir (options v) with
  | None => Ok v
  | Some dir =>
      dirKind ← entryKind fs dir;
      match dirKind with
      | EMissing | EKind KDirectory => checkEach fs dir (attachments v) v
      | EKind k =>
          Ok (if (0 <? length (attachments v))%nat && negb (attachmentsDirRefused v)
              then (refuseEntry dir k true v) <| attachmentsDirRefused := true |>
              else v)
      end
  end.

(** Every session, attempt, and step finished. *)
Definition is_complete (v : RunValidator) : bool :=
  forallb s_finished (mvalues (sessions v)) &&
  forallb (λ a, a_finished a && forallb id (mvalues (a_steps a))) (mvalues (attempts v)).

Definition reportIncomplete (v : RunValidator) : RunValidator :=
  if is_complete v then v
  else push_diag {| d_severity := if opt_requireComplete (options v) then SevError else SevInfo;
                    d_code := D_INCOMPLETE_RUN; d_file := []; d_line := 0; d_eventId := None;
                    d_pointer := None; d_detail := None;
                    d_message := js "a session, attempt, or step started but never finished" |} v.

(** The final attempt of each execution: the first with the highest number. *)
Definition finalAttempts (v : RunValidator) : jsmap str AttemptState :=
  foldl (λ m a,
      match mget m (a_executionId a) with
      | None => mset m (a_executionId a) a
      | Some current =>
          if a_attemptNumber current <? a_attemptNumber a then mset m (a_executionId a) a else m
      end)
    [] (mvalues (attempts v)).

Definition verdict (v : RunValidator) : Verdict :=
  let finals := mvalues (finalAttempts v) in
  if negb (is_complete v) then VIncomplete
  else if existsb a_unexpected finals || (0 <? scopeFailures v) || (0 <? failedSessions v) then VFailed
  else if existsb a_inconclusive finals || (0 <? inconclusiveSessions v) then VInconclusive
  else VPassed.

Definition is_error (d : Diagnostic) : bool := bool_decide (d_severity d = SevError).

Definition summarize (v : RunValidator) : Summary :=
  {| sm_files := files v; sm_events := events v; sm_sessions := Z.of_nat (length (sessions v));
     sm_attempts := Z.of_nat (length (attempts v)); sm_steps := steps v;
     sm_attachments := Z.of_nat (length (attachments v)); sm_failedAttempts := failedAttempts v;
     sm_scopeFailures := scopeFailures v; sm_failedSessions := failedSessions v;
     sm_inconclusiveSessions := inconclusiveSessions v; sm_sessionFailures := sessionFailures v;
     sm_ignored := ignored v; sm_duplicates := duplicates v; sm_complete := is_complete v;
     sm_closed := bool_decide (is_Some (runFinished v)); sm_verdict := verdict v |}.

Definition report (v : RunValidator) : Report :=
  {| r_valid := negb (existsb is_error (diagnostics v)); r_diagnostics := diagnostics v;
     r_summary := summarize v |}.

(** [finish] *)
Definition finish (fs : FileSystem) (v : RunValidator) : res Errno Report :=
  v1 ← checkAttachments fs (checkRunEnd v);
  Ok (report (reportIncomplete v1)).

(** ** Streams, files, directories *)

Section run.
Context (json_parse : str → json + str).
Context (schema : option str → json → option (list ErrorObject)).
Context (sha256_utf8 : str → str).
Context (fs : FileSystem).

(** [validateLines] *)
Definition validateLines (lines : list str) (o : ValidateOptions) (file : str) : res Errno Report :=
  finish fs (feed json_parse schema sha256_utf8 lines file false (new_validator o)).

(** [validateFile], on a text already read. *)
Definition validateFile (path text : str) (o : ValidateOptions) : res Errno Report :=
  dir ← match opt_attachmentsDir o with
        | None => Ok (fsys_join fs (fsys_join fs (fsys_join fs path (js "..")) (js ".."))
                        (js "attachments"))
        | Some d => trustedDirectory fs d
        end;
  validateLines (split_on 10 text) (o <| opt_attachmentsDir := Some dir |>) path.

(** [name.endsWith('.ndjson')] *)
Definition is_ndjson (name : str) : bool :=
  (7 <=? length name)%nat && str_eqb (drop (length name - 7) name) (js ".ndjson").

(** One entry of the events directory. *)
Definition feedEntry (eventsDir name : str) (v : RunValidator) : res Errno RunValidator :=
  let file := fsys_join fs eventsDir name in
  kind ← entryKind fs file;
  match kind with
  | EMissing => Ok v
  | EKind KFile =>
      opened ← openRegular fs file;
      match opened with
      | inl f => Ok (feed json_parse schema sha256_utf8 (split_on 10 (of_text f)) file true v)
      | inr EMissing => Ok v
      | inr (EKind k) => Ok (refuseEntry file k false v)
      end
  | EKind k => Ok (refuseEntry file k false v)
  end.

Fixpoint feedEntries (eventsDir : str) (names : list str) (v : RunValidator) : res Errno RunValidator :=
  match names with
  | [] => Ok v
  | name :: names' => v' ← feedEntry eventsDir name v; feedEntries eventsDir names' v'
  end.

(** [validateRunDirectorySnapshot] *)
Definition validateRunDirectorySnapshot (dir : str) (o : ValidateOptions) : res Errno ValidatedRun :=
  let eventsDir := fsys_join fs dir (js "events") in
  eventsKind ← entryKind fs eventsDir;
  match eventsKind with
  | EMissing => Throw (EOTHER (dir ++ js " has no events directory"))
  | EKind k =>
      attachmentsDir ← match opt_attachmentsDir o with
                       | None => Ok (fsys_join fs dir (js "attachments"))
                       | Some d => trustedDirectory fs d
                       end;
      let run := new_validator (o <| opt_attachmentsDir := Some attachmentsDir |>
                                  <| opt_retainEvents ::= λ r, Some (default true r) |>) in
      if bool_decide (k = KDirectory) then
        names ← fsys_readdir fs eventsDir;
        run' ← feedEntries eventsDir (sort compare (List.filter is_ndjson names)) run;
        r ← finish fs run';
        Ok {| vr_report := r; vr_events := accepted run'; vr_sourceLines := source_lines run' |}
      else
        r ← finish fs (refuseEntry eventsDir k true run);
        Ok {| vr_report := r; vr_events := accepted run; vr_sourceLines := [] |}
  end.

(** [validateRunDirectory] *)
Definition validateRunDirectory (dir : str) (o : ValidateOptions) : res Errno Report :=
  vr_report <$> validateRunDirectorySnapshot dir (o <| opt_retainEvents := Some false |>).

End run.

(** ** Text of a diagnostic *)

Definition code_text (c : DiagnosticCode) : str :=
  match c with
  | D_MALFORMED_JSON => js "MALFORMED_JSON" | D_SCHEMA_INVALID => js "SCHEMA_INVALID"
  | D_UNSUPPORTED_PROTOCOL_VERSION => js "UNSUPPORTED_PROTOCOL_VERSION"
  | D_UNSUPPORTED_EVENT_TYPE => js "UNSUPPORTED_EVENT_TYPE"
  | D_EVENT_TOO_LARGE => js "EVENT_TOO_LARGE" | D_LIFECYCLE_INVALID => js "LIFECYCLE_INVALID"
  | D_ATTACHMENT_MISSING => js "ATTACHMENT_MISSING"
  | D_ATTACHMENT_SIZE_MISMATCH => js "ATTACHMENT_SIZE_MISMATCH"
  | D_ATTACHMENT_HASH_MISMATCH => js "ATTACHMENT_HASH_MISMATCH"
  | D_UNSAFE_FILESYSTEM_ENTRY => js "UNSAFE_FILESYSTEM_ENTRY"
  | D_IGNORED_EVENT_TYPE => js "IGNORED_EVENT_TYPE" | D_DUPLICATE_EVENT => js "DUPLICATE_EVENT"
  | D_INCOMPLETE_RUN => js "INCOMPLETE_RUN"
  end.

Definition detail_text (d : LifecycleDetail) : str :=
  match d with
  | RUN_ID_MISMATCH => js "RUN_ID_MISMATCH" | SESSION_NOT_STARTED => js "SESSION_NOT_STARTED"
  | SESSION_ALREADY_STARTED => js "SESSION_ALREADY_STARTED"
  | SESSION_ALREADY_FINISHED => js "SESSION_ALREADY_FINISHED"
  | SESSION_FILE_MIXED => js "SESSION_FILE_MIXED" | SEQUENCE_GAP => js "SEQUENCE_GAP"
  | DUPLICATE_EVENT_ID => js "DUPLICATE_EVENT_ID"
  | EVENT_AFTER_RUN_FINISHED => js "EVENT_AFTER_RUN_FINISHED"
  | DUPLICATE_RUN_FINISHED => js "DUPLICATE_RUN_FINISHED"
  | SESSION_NOT_FINISHED_AT_RUN_END => js "SESSION_NOT_FINISHED_AT_RUN_END"
  | DUPLICATE_ATTEMPT_ID => js "DUPLICATE_ATTEMPT_ID"
  | DUPLICATE_ATTEMPT_NUMBER => js "DUPLICATE_ATTEMPT_NUMBER"
  | HISTORICAL_IDENTITY_CHANGED => js "HISTORICAL_IDENTITY_CHANGED"
  | EXECUTION_RUNNER_CHANGED => js "EXECUTION_RUNNER_CHANGED"
  | ATTEMPT_NOT_STARTED => js "ATTEMPT_NOT_STARTED"
  | DUPLICATE_ATTEMPT_FINISHED => js "DUPLICATE_ATTEMPT_FINISHED"
  | ATTEMPT_NOT_FINISHED_AT_SESSION_END => js "ATTEMPT_NOT_FINISHED_AT_SESSION_END"
  | HISTORICAL_ID_WITHOUT_RUNNER => js "HISTORICAL_ID_WITHOUT_RUNNER"
  | STEP_OUTSIDE_ATTEMPT => js "STEP_OUTSIDE_ATTEMPT"
  | STEP_PARENT_UNKNOWN => js "STEP_PARENT_UNKNOWN" | DUPLICATE_STEP_ID => js "DUPLICATE_STEP_ID"
  | STEP_NOT_STARTED => js "STEP_NOT_STARTED"
  | DUPLICATE_STEP_FINISHED => js "DUPLICATE_STEP_FINISHED"
  | STEP_NOT_FINISHED_AT_ATTEMPT_END => js "STEP_NOT_FINISHED_AT_ATTEMPT_END"
  | ATTACHMENT_ATTEMPT_UNKNOWN => js "ATTACHMENT_ATTEMPT_UNKNOWN"
  | ATTACHMENT_AFTER_ATTEMPT_FINISHED => js "ATTACHMENT_AFTER_ATTEMPT_FINISHED"
  | ATTACHMENT_STEP_UNKNOWN => js "ATTACHMENT_STEP_UNKNOWN"
  end.

(** [formatDiagnostic]: one line per diagnostic. *)
Definition formatDiagnostic (d : Diagnostic) : str :=
  let id := match d_eventId d with Some i => js " [" ++ i ++ js "]" | None => [] end in
  let det := match d_detail d with Some x => js "(" ++ detail_text x ++ js ")" | None => [] end in
  let pointer := match d_pointer d with
                 | Some (_ :: _ as p) => js " at " ++ p | _ => [] end in
  let origin := if bool_decide (d_file d = []) then js "run"
               else d_file d ++ js ":" ++ dec (d_line d) in
  let message := (λ u, if (u =? 10)%N || (u =? 13)%N then 32%N else u) <$> d_message d in
  origin ++ id ++ js " " ++ (match d_severity d with SevError => js "ERROR" | SevInfo => js "INFO" end)
    ++ js " " ++ code_text (d_code d) ++ det ++ js ": " ++ message ++ pointer.
