(* ===== verification/Demo.v ===== *)
(** * A concrete run

    One session with one attempt, its lines, and a file system that holds them:
    the input the theorems of the development are applied to. [demo_parse]
    instantiates [JSON.parse] on the demo's lines, which are numbered. *)

From S2P Require Import Prelude JsString JsMap JsSort Json Model Codec History Validator ValidatorRun.

Local Open Scope Z_scope.

Definition demo_env (session : str) (id n : Z) : Envelope :=
  {| protocolVersion := js "0.3.0"; eventId := js "e" ++ dec id; runId := js "run-1";
     sessionId := session; sequence := n; occurredAt := js "2024-05-01T10:00:00Z";
     ignorable := None |}.

Definition demo_test : TestCase :=
  {| t_executionId := js "x1"; t_historicalId := Some (js "h1"); t_historicalIdStability := Stable;
     t_displayName := js "adds"; t_path := []; t_location := None; t_tags := None; t_labels := None |}.

Definition demo_started : SessionStartedPayload :=
  {| ss_producer := {| c_name := js "reporter"; c_version := None |};
     ss_runner := Some {| c_name := js "playwright"; c_version := None |};
     ss_environment := None; ss_executor := None; ss_source := None; ss_labels := None |}.

Definition demo_finished (s : SessionStatus) : SessionFinishedPayload :=
  {| sf_status := Some s; sf_rawStatus := None; sf_failures := None |}.

Definition demo_attempt (id : str) (n : Z) : AttemptStartedPayload :=
  {| as_attemptId := id; as_attemptNumber := n; as_test := demo_test |}.

Definition demo_outcome (id : str) (s : Status) : AttemptFinishedPayload :=
  {| af_attemptId := id; af_status := s; af_rawStatus := None; af_expectedStatus := None;
     af_durationMs := None; af_failures := None |}.

Definition demo_payloads : list Payload :=
  [SessionStarted demo_started;
   AttemptStarted (demo_attempt (js "a1") 1);
   AttemptFinished (demo_outcome (js "a1") StFailed);
   AttemptStarted (demo_attempt (js "a2") 2);
   AttemptFinished (demo_outcome (js "a2") StPassed);
   SessionFinished (demo_finished SePassed);
   RunFinished].

Definition demo_events : list Event :=
  imap (λ i p, {| e_env := demo_env (js "s1") (Z.of_nat i + 1) (Z.of_nat i + 1); e_payload := p |})
    demo_payloads.

Definition demo_lines : list str := imap (λ i _, dec (Z.of_nat i)) demo_events.

Definition demo_parse (raw : str) : json + str :=
  match nth_error demo_events (Z.to_nat (undec raw)) with
  | Some e => inl (JObj (eventToObject (Known e)))
  | None => inr (js "unexpected token")
  end.

(** No schema violation. *)
Definition demo_schema (eventType : option str) (value : json) : option (list ErrorObject) := None.

(** A digest: the length, in decimal. *)
Definition demo_sha (text : str) : str := dec (Z.of_nat (length text)).

Definition demo_text : str := join [10%N] demo_lines ++ [10%N].

Definition demo_fs : FileSystem :=
  {| fsys_lstat := λ path,
       if str_eqb path (js "run/events") then Ok KDirectory
       else if str_eqb path (js "run/events/s1.ndjson") then Ok KFile else Throw ENOENT;
     fsys_open := λ path,
       if str_eqb path (js "run/events/s1.ndjson")
       then Ok {| of_kind := KFile; of_size := 0; of_sha256 := []; of_text := demo_text |}
       else Throw ENOENT;
     fsys_readdir := λ path, Ok [js "notes.txt"; js "s1.ndjson"];
     fsys_realpath := λ path, Ok path;
     fsys_join := λ a b, a ++ js "/" ++ b |}.

Definition demo_options : ValidateOptions :=
  {| opt_attachmentsDir := None; opt_requireComplete := true; opt_maxEventBytes := None;
     opt_retainEvents := None; opt_retainSourceLines := false |}.

Definition no_report : Report := report (new_validator demo_options).

(** The demo's reports: of its lines, of its lines twice, and of its directory. *)
Definition demo_validation : res Errno Report :=
  validateLines demo_parse demo_schema demo_sha demo_fs demo_lines demo_options (js "f").
Definition demo_replay : res Errno Report :=
  validateLines demo_parse demo_schema demo_sha demo_fs (demo_lines ++ demo_lines) demo_options (js "f").
Definition demo_snapshot : res Errno ValidatedRun :=
  validateRunDirectorySnapshot demo_parse demo_schema demo_sha demo_fs (js "run") demo_options.

Definition demo_report : Report := from_ok no_report demo_validation.
Definition demo_report2 : Report := from_ok no_report demo_replay.
Definition demo_run : ValidatedRun :=
  from_ok {| vr_report := no_report; vr_events := []; vr_sourceLines := [] |} demo_snapshot.

Lemma demo_validation_ok :
  validateLines demo_parse demo_schema demo_sha demo_fs demo_lines demo_options (js "f") = Ok demo_report.
Proof. unfold demo_report, demo_validation. apply from_ok_spec. by vm_compute. Qed.
Lemma demo_replay_ok :
  validateLines demo_parse demo_schema demo_sha demo_fs (demo_lines ++ demo_lines) demo_options (js "f") =
  Ok demo_report2.
Proof. unfold demo_report2, demo_replay. apply from_ok_spec. by vm_compute. Qed.
Lemma demo_snapshot_ok :
  validateRunDirectorySnapshot demo_parse demo_schema demo_sha demo_fs (js "run") demo_options = Ok demo_run.
Proof. unfold demo_run, demo_snapshot. apply from_ok_spec. by vm_compute. Qed.

Lemma demo_report_valid : r_valid demo_report = true.
Proof. by vm_compute. Qed.
Lemma demo_run_valid : r_valid (vr_report demo_run) = true.
Proof. by vm_compute. Qed.
Example demo_run_passed : sm_verdict (r_summary (vr_report demo_run)) = VPassed.
Proof. by vm_compute. Qed.
