(* ===== verification/ValidatorTables.v ===== *)
(** * The validator's tables hold the facts of the history

    [Tables v h]: what the attempt, execution and run-end tables of [v] remember
    is what the history [h] says. Every handler of the event switch keeps that,
    and adds an error exactly when the payload rule of the specification
    (History.v) is broken. *)

From S2P Require Import Prelude JsString JsMap JsSort Json Model Codec History Validator ValidatorRun.

Local Open Scope Z_scope.

(** No diagnostic of severity error, what [valid] of the report says. *)
Definition clean (v : RunValidator) : Prop := existsb is_error (diagnostics v) = false.

(** ** The correspondence *)

Definition known_steps (h : history) (id : str) (m : jsmap str bool) : Prop :=
  NoDup (mkeys m) ∧
  ∀ sid, mget m sid = (λ _, bool_decide (is_Some (step_finished h id sid))) <$> step_started h id sid.

(** What an attempt's entry remembers of its events. *)
Record attempt_facts (h : history) (id : str) (started : Envelope * AttemptStartedPayload)
    (a : AttemptState) : Prop := {
  af_session_eq : a_session a = sessionId started.1;
  af_execution_eq : a_executionId a = t_executionId (as_test started.2);
  af_number_eq : a_attemptNumber a = as_attemptNumber started.2;
  af_finished_eq : a_finished a = bool_decide (is_Some (att_finished h id));
  af_unexpected_eq : a_unexpected a =
    from_option (λ p, is_unexpected (af_status p) (default ExPassed (af_expectedStatus p)))
      false (att_finished h id);
  af_inconclusive_eq : a_inconclusive a =
    from_option (λ p, bool_decide (af_status p = StInconclusive)) false (att_finished h id);
  af_steps_eq : known_steps h id (a_steps a);
}.

(** What an execution's entry remembers of its first attempt and of the numbers seen. *)
Record execution_facts (h : history) (eid : str) (first : Envelope * AttemptStartedPayload)
    (x : ExecutionState) : Prop := {
  xf_historicalId : x_historicalId x = t_historicalId (as_test first.2);
  xf_stability : x_historicalIdStability x = t_historicalIdStability (as_test first.2);
  xf_runner : x_runnerName x = runner_name h (sessionId first.1);
  xf_known : x_runnerKnown x = true;
  xf_session : is_Some (sess_started h (sessionId first.1));
  xf_numbers : ∀ n, is_Some (mget (x_attemptNumbers x) n) ↔ is_Some (exec_numbered h eid n);
}.

Record Tables (v : RunValidator) (h : history) : Prop := {
  tb_nodup : NoDup (mkeys (attempts v));
  tb_attempts : ∀ id, option_Forall2 (attempt_facts h id) (att_started h id) (mget (attempts v) id);
  tb_executions :
    ∀ eid, option_Forall2 (execution_facts h eid) (exec_first h eid) (mget (executions v) eid);
  tb_end : is_Some (runFinished v) ↔ is_Some (run_finished h);
}.

(** What the handlers leave alone. *)
Definition frame (v w : RunValidator) : Prop :=
  seen w = seen v ∧ accepted w = accepted v ∧ options w = options v ∧ run_id w = run_id v ∧
  events w = events v ∧ source_lines w = source_lines v.

#[export] Instance frame_preorder : PreOrder frame.
Proof. split; unfold frame; [done|]. intros u v w ? ?; destruct_and?. split_and!; congruence. Qed.

(** ** Clean runs *)

Lemma clean_push d v : clean (push_diag d v) ↔ clean v ∧ is_error d = false.
Proof.
  unfold clean. simpl. rewrite existsb_app. simpl. rewrite orb_false_r. apply orb_false_iff.
Qed.

Lemma clean_error file code m id ptr det line v :
  clean (error file code m id ptr det line v) ↔ False.
Proof. unfold error. rewrite clean_push. by split; [intros [_ ?]|]. Qed.

Lemma clean_lifecycle file line det m id v : clean (lifecycle file line det m id v) ↔ False.
Proof. apply clean_error. Qed.

Lemma clean_lifecycle_if b file line det m id v :
  clean (lifecycle_if b file line det m id v) ↔ clean v ∧ b = false.
Proof. destruct b; simpl; [rewrite clean_lifecycle|]; naive_solver. Qed.

Lemma clean_foldl_if {A} (g : A → bool) file line det (m : A → str) id l v :
  clean (foldl (λ w x, lifecycle_if (g x) file line det (m x) id w) v l) ↔
  clean v ∧ ∀ x, x ∈ l → g x = false.
Proof.
  revert v. induction l as [|x l IH]; intros v; simpl; [set_solver|].
  rewrite IH, clean_lifecycle_if. set_solver.
Qed.

Lemma foldl_if_idle {A} (g : A → bool) file line det (m : A → str) id l v :
  (∀ x, x ∈ l → g x = false) →
  foldl (λ w x, lifecycle_if (g x) file line det (m x) id w) v l = v.
Proof.
  induction l as [|x l IH]; intros H; simpl; [done|].
  rewrite (H x) by set_solver. simpl. apply IH. set_solver.
Qed.

Lemma lifecycle_if_idle b file line det m id v :
  b = false → lifecycle_if b file line det m id v = v.
Proof. by intros ->. Qed.

Lemma foldl_if_frame {A} (g : A → bool) file line det (m : A → str) id l v :
  let w := foldl (λ w x, lifecycle_if (g x) file line det (m x) id w) v l in
  frame v w ∧ sessions w = sessions v.
Proof.
  revert v. induction l as [|x l IH]; intros v; simpl; [done|].
  destruct (IH (lifecycle_if (g x) file line det (m x) id v)) as [H1 H2].
  split; [etrans; [|exact H1] | rewrite H2]; by destruct (g x).
Qed.

#[export] Hint Rewrite clean_push clean_error clean_lifecycle clean_lifecycle_if : clean.

(** ** Facts that an event does not touch *)

Definition other_attempt (id : str) (e : AnyEvent) : Prop :=
  finishes_attempt id e = None ∧ ∀ sid, starts_step id sid e = None ∧ finishes_step id sid e = None.

Lemma runner_name_snoc h e sid :
  is_Some (sess_started h sid) → runner_name (h ++ [e]) sid = runner_name h sid.
Proof. intros [p Hp]. unfold runner_name. by rewrite sess_started_snoc, Hp. Qed.

Lemma known_steps_snoc h e id m :
  (∀ sid, starts_step id sid e = None ∧ finishes_step id sid e = None) →
  known_steps h id m → known_steps (h ++ [e]) id m.
Proof.
  intros He [Hn H]. split; [done|]. intros sid. destruct (He sid) as [H1 H2].
  by rewrite step_started_snoc, step_finished_snoc, H1, H2, !or_else_None_r, H.
Qed.

Lemma attempt_facts_snoc h e id ep a :
  other_attempt id e → attempt_facts h id ep a → attempt_facts (h ++ [e]) id ep a.
Proof.
  intros [He Hs] []. split; rewrite ?att_finished_snoc, ?He, ?or_else_None_r; try done.
  by apply known_steps_snoc.
Qed.

Lemma attempts_snoc h e id o :
  starts_attempt id e = None → other_attempt id e →
  option_Forall2 (attempt_facts h id) (att_started h id) o →
  option_Forall2 (attempt_facts (h ++ [e]) id) (att_started (h ++ [e]) id) o.
Proof.
  intros H1 H2 H. rewrite att_started_snoc, H1, or_else_None_r.
  destruct H; constructor. by apply attempt_facts_snoc.
Qed.

Lemma execution_facts_snoc h e eid first x :
  (∀ n, numbers_execution eid n e = None) →
  execution_facts h eid first x → execution_facts (h ++ [e]) eid first x.
Proof.
  intros He []. split; try done.
  - by rewrite runner_name_snoc.
  - rewrite sess_started_snoc, or_else_is_Some. by left.
  - intros n. by rewrite exec_numbered_snoc, He, or_else_None_r.
Qed.

Lemma executions_snoc h e eid o :
  runs_execution eid e = None → (∀ n, numbers_execution eid n e = None) →
  option_Forall2 (execution_facts h eid) (exec_first h eid) o →
  option_Forall2 (execution_facts (h ++ [e]) eid) (exec_first (h ++ [e]) eid) o.
Proof.
  intros H1 H2 H. rewrite exec_first_snoc, H1, or_else_None_r.
  destruct H; constructor. by apply execution_facts_snoc.
Qed.

(** An event about neither attempts nor the end of the run. *)
Definition aside (e : AnyEvent) : Prop :=
  finishes_run e = None ∧ (∀ id, starts_attempt id e = None ∧ other_attempt id e) ∧
  (∀ eid, runs_execution eid e = None ∧ ∀ n, numbers_execution eid n e = None).

Lemma Tables_aside v w h e :
  aside e → attempts w = attempts v → executions w = executions v → runFinished w = runFinished v →
  Tables v h → Tables w (h ++ [e]).
Proof.
  intros (H1 & H2 & H3) Ha Hx Hr []. split; rewrite ?Ha, ?Hx, ?Hr; [done| | |].
  - intros id. apply attempts_snoc; [apply H2..|done].
  - intros eid. apply executions_snoc; [apply H3..|done].
  - by rewrite run_finished_snoc, H1, or_else_None_r.
Qed.

Lemma Tables_same v w h :
  attempts w = attempts v → executions w = executions v → runFinished w = runFinished v →
  Tables v h → Tables w h.
Proof. intros Ha Hx Hr []. by split; rewrite ?Ha, ?Hx, ?Hr. Qed.

(** An event about one attempt, whose entry is replaced. *)
Lemma Tables_attempt v w h e id a a' ep :
  finishes_run e = None → (∀ id', starts_attempt id' e = None) →
  (∀ id', id ≠ id' → other_attempt id' e) →
  (∀ eid, runs_execution eid e = None ∧ ∀ n, numbers_execution eid n e = None) →
  Tables v h → att_started h id = Some ep → mget (attempts v) id = Some a →
  attempt_facts (h ++ [e]) id ep a' →
  attempts w = mset (attempts v) id a' → executions w = executions v →
  runFinished w = runFinished v → Tables w (h ++ [e]).
Proof.
  intros H1 H2 H3 H4 [] Hs Hg Hf Ha Hx Hr. split; rewrite ?Ha, ?Hx, ?Hr.
  - by apply mset_NoDup.
  - intros id'. rewrite mget_mset. case_decide as Hid; [|by apply attempts_snoc; auto].
    subst id'. rewrite att_started_snoc, Hs. by constructor.
  - intros eid. by apply executions_snoc; [apply H4..|].
  - by rewrite run_finished_snoc, H1, or_else_None_r.
Qed.

(** The entry of an attempt, from either side. *)
Lemma Tables_entry v h id a :
  Tables v h → mget (attempts v) id = Some a →
  ∃ ep, att_started h id = Some ep ∧ attempt_facts h id ep a.
Proof. intros HT Hg. destruct (tb_attempts v h HT id); simplify_eq. eauto. Qed.

Lemma Tables_no_entry v h id : Tables v h → mget (attempts v) id = None ↔ att_started h id = None.
Proof. intros HT. by destruct (tb_attempts v h HT id). Qed.

Lemma Tables_started v h id ep :
  Tables v h → att_started h id = Some ep →
  ∃ a, mget (attempts v) id = Some a ∧ attempt_facts h id ep a.
Proof. intros HT Hg. destruct (tb_attempts v h HT id); simplify_eq. eauto. Qed.

Lemma open_attempt_entry v h id a :
  Tables v h → mget (attempts v) id = Some a → open_attempt h id ↔ a_finished a = false.
Proof.
  intros HT Hg. destruct (Tables_entry v h id a HT Hg) as (ep & Hs & Hf).
  rewrite (af_finished_eq _ _ _ _ Hf), bool_decide_eq_false. unfold open_attempt.
  rewrite Hs, <-eq_None_not_Some. naive_solver.
Qed.

Lemma known_steps_has h id m sid : known_steps h id m → mhas m sid = true ↔ is_Some (step_started h id sid).
Proof. intros [_ H]. unfold mhas. rewrite H. by destruct (step_started h id sid); simpl; split; [|done|intros|intros [? ?]]. Qed.

(** ** The handlers of the event switch

    For each: an error unless the rule holds ([_sound]); under the rule no error
    and tables that hold the facts of the longer history ([_complete]). *)

Section handlers.
Context (file : str) (line : Z) (env : Envelope).

Lemma sessionFinished_guard v h :
  Tables v h →
  (∀ id env0 p0, att_started h id = Some (env0, p0) → sessionId env0 = sessionId env →
     is_Some (att_finished h id)) ↔
  ∀ ida, ida ∈ attempts v → str_eqb (a_session ida.2) (sessionId env) && negb (a_finished ida.2) = false.
Proof.
  intros HT. split.
  - intros H [id a] Hin. simpl. apply elem_mget in Hin; [|apply HT].
    destruct (Tables_entry v h id a HT Hin) as ([env0 p0] & Hs & []).
    apply andb_false_iff. destruct (decide (a_session a = sessionId env)) as [E|E].
    + right. rewrite af_finished_eq0. apply negb_false_iff, bool_decide_eq_true.
      apply (H id env0 p0 Hs). by rewrite <-E, af_session_eq0.
    + left. by apply str_eqb_neq.
  - intros H id env0 p0 Hs He. destruct (Tables_started v h id _ HT Hs) as (a & Hg & []).
    specialize (H (id, a) (mget_elem _ _ _ Hg)). simpl in H.
    rewrite af_session_eq0 in H. simpl in H. rewrite (proj2 (str_eqb_eq _ _) He) in H. simpl in H.
    rewrite af_finished_eq0 in H. by apply negb_false_iff, bool_decide_eq_true in H.
Qed.

(** The state before the attempts of the session are looked at. *)
Definition sessionFinished_base (p : SessionFinishedPayload) (v : RunValidator) : RunValidator :=
  v <| sessions ::= λ m, mupd m (sessionId env) (λ s, s <| s_finished := true |>) |>
    <| failedSessions ::= λ n, if bool_decide (sf_status p = Some SeFailed) then Z.succ n else n |>
    <| inconclusiveSessions ::= λ n, if bool_decide (sf_status p = Some SeInconclusive) then Z.succ n else n |>
    <| sessionFailures ::= λ n, n + Z.of_nat (length (default [] (sf_failures p))) |>.

Lemma onSessionFinished_eq p v :
  onSessionFinished file line env p v =
  foldl (λ w ida,
      lifecycle_if (str_eqb (a_session (ida.2)) (sessionId env) && negb (a_finished (ida.2)))
        file line ATTEMPT_NOT_FINISHED_AT_SESSION_END
        (js "attempt " ++ ida.1 ++ js " still open") (eventId env) w)
    (sessionFinished_base p v) (attempts v).
Proof.
  unfold onSessionFinished, sessionFinished_base.
  by do 2 case_bool_decide.
Qed.

Lemma sessionFinished_sound p v h :
  Tables v h → clean (onSessionFinished file line env p v) →
  clean v ∧ payload_rule h env (SessionFinished p).
Proof.
  intros HT. rewrite onSessionFinished_eq. intros [H1 H2]%clean_foldl_if. split; [exact H1|].
  exact (proj2 (sessionFinished_guard v h HT) H2).
Qed.

Lemma sessionFinished_complete p v h :
  Tables v h → payload_rule h env (SessionFinished p) →
  onSessionFinished file line env p v = sessionFinished_base p v ∧
  Tables (sessionFinished_base p v) (h ++ [Known {| e_env := env; e_payload := SessionFinished p |}]).
Proof.
  intros HT Hr. split.
  - rewrite onSessionFinished_eq. apply foldl_if_idle. exact (proj1 (sessionFinished_guard v h HT) Hr).
  - by apply (Tables_aside v).
Qed.

Lemma runFinished_sound v h :
  Tables v h → clean (onRunFinished file line env v) → clean v ∧ payload_rule h env RunFinished.
Proof.
  intros HT. unfold onRunFinished. destruct (runFinished v) eqn:E; autorewrite with clean; [done|].
  intros H. split; [exact H|]. simpl. apply eq_None_not_Some. intros Hs.
  apply (tb_end v h HT) in Hs. rewrite E in Hs. by destruct Hs.
Qed.

Lemma runFinished_complete v h :
  Tables v h → payload_rule h env RunFinished →
  let w := v <| runFinished := Some {| lc_file := file; lc_line := line; lc_eventId := eventId env |} |> in
  onRunFinished file line env v = w ∧
  Tables w (h ++ [Known {| e_env := env; e_payload := RunFinished |}]).
Proof.
  intros HT Hr. simpl in Hr. split.
  - unfold onRunFinished. destruct (runFinished v) eqn:E; [|done].
    assert (is_Some (run_finished h)) as [? ?] by (apply (tb_end v h HT); by rewrite E). congruence.
  - destruct HT. split; simpl; [done| | |].
    + intros id. by apply attempts_snoc.
    + intros eid. by apply executions_snoc.
    + rewrite run_finished_snoc, or_else_is_Some. simpl. split; eauto.
Qed.

(** *** Steps and attempts *)

Lemma attemptFinished_sound p v h :
  Tables v h → clean (onAttemptFinished file line env p v) →
  clean v ∧ payload_rule h env (AttemptFinished p).
Proof.
  intros HT. unfold onAttemptFinished.
  destruct (mget (attempts v) (af_attemptId p)) as [a|] eqn:Hg; autorewrite with clean; [|done].
  destruct (a_finished a) eqn:Hf; autorewrite with clean; [done|].
  intros [H1 H2]%clean_foldl_if. split; [by destruct (bool_decide (af_status p = StFailed))|]. split.
  - by apply (open_attempt_entry v h _ a).
  - intros sid [q Hq]. destruct (Tables_entry v h _ a HT Hg) as (ep & _ & []).
    destruct af_steps_eq0 as [_ Hm]. specialize (Hm sid). rewrite Hq in Hm.
    specialize (H2 _ (mget_elem _ _ _ Hm)). by apply negb_false_iff, bool_decide_eq_true in H2.
Qed.

Definition attemptFinished_base (p : AttemptFinishedPayload) (a : AttemptState) (v : RunValidator)
    : RunValidator :=
  v <| failedAttempts ::= λ n, if bool_decide (af_status p = StFailed) then Z.succ n else n |>
    <| attempts ::= λ m, mset m (af_attemptId p)
         (a <| a_finished := true |>
            <| a_unexpected := is_unexpected (af_status p) (default ExPassed (af_expectedStatus p)) |>
            <| a_inconclusive := bool_decide (af_status p = StInconclusive) |>) |>.

Lemma attemptFinished_complete p v h :
  Tables v h → payload_rule h env (AttemptFinished p) →
  ∃ a, mget (attempts v) (af_attemptId p) = Some a ∧
  onAttemptFinished file line env p v = attemptFinished_base p a v ∧
  Tables (attemptFinished_base p a v) (h ++ [Known {| e_env := env; e_payload := AttemptFinished p |}]).
Proof.
  intros HT [[[ep Hs] Hopen] Hsteps].
  destruct (Tables_started v h _ _ HT Hs) as (a & Hg & Hf). exists a.
  assert (a_finished a = false) as Ha by (by apply (open_attempt_entry v h _ a HT Hg); split; eauto).
  split_and!; [done| |].
  - unfold onAttemptFinished. rewrite Hg, Ha, foldl_if_idle; [unfold attemptFinished_base; by destruct (bool_decide (af_status p = StFailed))|].
    intros [sid b] Hin. simpl. destruct (af_steps_eq _ _ _ _ Hf) as [Hn Hm].
    apply elem_mget in Hin; [|done]. rewrite Hm in Hin.
    destruct (step_started h (af_attemptId p) sid) eqn:E; simpl in Hin; [|done].
    simplify_eq. apply negb_false_iff, bool_decide_eq_true, Hsteps. by rewrite E.
  - apply (Tables_attempt v _ h _ (af_attemptId p) a
      (a <| a_finished := true |>
         <| a_unexpected := is_unexpected (af_status p) (default ExPassed (af_expectedStatus p)) |>
         <| a_inconclusive := bool_decide (af_status p = StInconclusive) |>) ep); try done.
    + intros id' Hne. split; [|done]. simpl. by rewrite (proj2 (str_eqb_neq _ _) Hne).
    + destruct Hf. split; simpl; rewrite ?att_finished_snoc, ?Hopen; simpl;
        rewrite ?str_eqb_refl; try done. by apply known_steps_snoc.
Qed.

Lemma not_started_not_finished h aid sid :
  valid_history h → step_started h aid sid = None → step_finished h aid sid = None.
Proof.
  intros Hv Hn. apply eq_None_not_Some. intros H%valid_step_finished; [|done].
  rewrite Hn in H. by destruct H.
Qed.

Lemma stepStarted_sound p v h :
  Tables v h → clean (onStepStarted file line env p v) →
  clean v ∧ payload_rule h env (StepStarted p).
Proof.
  intros HT. unfold onStepStarted.
  destruct (mget (attempts v) (st_attemptId p)) as [a|] eqn:Hg; autorewrite with clean; [|done].
  destruct (a_finished a) eqn:Hf; autorewrite with clean; [done|]. intros H.
  destruct (Tables_entry v h _ a HT Hg) as (ep & _ & Ha).
  pose proof (af_steps_eq _ _ _ _ Ha) as Hk.
  assert (clean v ∧ mhas (a_steps a) (st_stepId p) = false ∧
    ∀ parent, st_parentStepId p = Some parent → mhas (a_steps a) parent = true) as (H1 & H2 & H3).
  { destruct (st_parentStepId p) as [q|].
    - change (clean (lifecycle_if (negb (mhas (a_steps a) q)) file line STEP_PARENT_UNKNOWN
        (js "parent step " ++ q ++ js " unknown") (eventId env)
        (lifecycle_if (mhas (a_steps a) (st_stepId p)) file line DUPLICATE_STEP_ID
          (js "step " ++ st_stepId p ++ js " started twice") (eventId env) v))) in H.
      autorewrite with clean in H. destruct H as [[? ?] Hq%negb_false_iff].
      split_and!; [done|done|]. by intros ? [= <-].
    - change (clean (lifecycle_if (mhas (a_steps a) (st_stepId p)) file line DUPLICATE_STEP_ID
          (js "step " ++ st_stepId p ++ js " started twice") (eventId env) v)) in H.
      autorewrite with clean in H. destruct H. done. }
  split; [done|]. split_and!.
  - by apply (open_attempt_entry v h _ a).
  - apply eq_None_not_Some. rewrite <-(known_steps_has _ _ _ _ Hk). congruence.
  - intros parent Hp. rewrite <-(known_steps_has _ _ _ _ Hk). auto.
Qed.

Lemma stepStarted_complete p v h :
  Tables v h → valid_history h → payload_rule h env (StepStarted p) →
  ∃ a, mget (attempts v) (st_attemptId p) = Some a ∧
  let w := v <| attempts ::= λ m, mset m (st_attemptId p)
                  (a <| a_steps ::= λ l, mset l (st_stepId p) false |>) |> <| steps ::= Z.succ |> in
  onStepStarted file line env p v = w ∧
  Tables w (h ++ [Known {| e_env := env; e_payload := StepStarted p |}]).
Proof.
  intros HT Hv [[[ep Hs] Hopen] [Hnew Hparent]].
  destruct (Tables_started v h _ _ HT Hs) as (a & Hg & Hf). exists a.
  assert (a_finished a = false) as Ha by (by apply (open_attempt_entry v h _ a HT Hg); split; eauto).
  pose proof (af_steps_eq _ _ _ _ Hf) as Hk.
  cbv zeta. split_and!; [done| |].
  - unfold onStepStarted. rewrite Hg, Ha, lifecycle_if_idle.
    + destruct (st_parentStepId p) as [q|]; [|done]. rewrite lifecycle_if_idle; [done|].
      apply negb_false_iff, (known_steps_has _ _ _ _ Hk). auto.
    + apply not_true_iff_false. rewrite (known_steps_has _ _ _ _ Hk), Hnew. by intros [].
  - apply (Tables_attempt v _ h _ (st_attemptId p) a
      (a <| a_steps ::= λ l, mset l (st_stepId p) false |>) ep); try done.
    + intros id' Hne. split; [done|]. intros sid. simpl. by rewrite (proj2 (str_eqb_neq _ _) Hne).
    + destruct Hf. split; simpl; rewrite ?att_finished_snoc; simpl; rewrite ?or_else_None_r; try done.
      destruct Hk as [Hn Hm]. split; [by apply mset_NoDup|]. intros sid.
      rewrite mget_mset, step_started_snoc, step_finished_snoc. simpl.
      rewrite str_eqb_refl, or_else_None_r. simpl. case_decide as Hd.
      * subst sid. rewrite Hnew, str_eqb_refl. simpl.
        by rewrite (not_started_not_finished h _ _ Hv Hnew).
      * by rewrite (proj2 (str_eqb_neq _ _) Hd), or_else_None_r.
Qed.

Lemma stepFinished_sound p v h :
  Tables v h → clean (onStepFinished file line env p v) →
  clean v ∧ payload_rule h env (StepFinished p).
Proof.
  intros HT. unfold onStepFinished.
  destruct (mget (attempts v) (sp_attemptId p)) as [a|] eqn:Hg; autorewrite with clean; [|done].
  destruct (mget (a_steps a) (sp_stepId p)) as [[|]|] eqn:Hf; autorewrite with clean; [done| |done].
  intros H. split; [exact H|].
  destruct (Tables_entry v h _ a HT Hg) as (ep & _ & Ha).
  destruct (af_steps_eq _ _ _ _ Ha) as [_ Hm]. rewrite Hm in Hf. simpl.
  destruct (step_started h _ _); simplify_eq/=. apply bool_decide_eq_false in Hf.
  split; [eauto|]. by apply eq_None_not_Some.
Qed.

Lemma stepFinished_complete p v h :
  Tables v h → valid_history h → payload_rule h env (StepFinished p) →
  ∃ a, mget (attempts v) (sp_attemptId p) = Some a ∧
  let w := v <| attempts ::= λ m, mset m (sp_attemptId p)
                  (a <| a_steps ::= λ l, mset l (sp_stepId p) true |>) |> in
  onStepFinished file line env p v = w ∧
  Tables w (h ++ [Known {| e_env := env; e_payload := StepFinished p |}]).
Proof.
  intros HT Hv [Hs Hnf]. destruct (valid_step_attempt h _ _ Hv Hs) as [ep Hep].
  destruct (Tables_started v h _ _ HT Hep) as (a & Hg & Hf). exists a.
  destruct (af_steps_eq _ _ _ _ Hf) as [Hn Hm]. destruct Hs as [q Hq].
  cbv zeta. split_and!; [done| |].
  - unfold onStepFinished. by rewrite Hg, Hm, Hq, Hnf.
  - apply (Tables_attempt v _ h _ (sp_attemptId p) a
      (a <| a_steps ::= λ l, mset l (sp_stepId p) true |>) ep); try done.
    + intros id' Hne. split; [done|]. intros sid. simpl. by rewrite (proj2 (str_eqb_neq _ _) Hne).
    + destruct Hf. split; simpl; rewrite ?att_finished_snoc; simpl; rewrite ?or_else_None_r; try done.
      split; [by apply mset_NoDup|]. intros sid.
      rewrite mget_mset, step_started_snoc, step_finished_snoc. simpl.
      rewrite str_eqb_refl, or_else_None_r. simpl. case_decide as Hd.
      * subst sid. by rewrite Hq, Hnf, str_eqb_refl.
      * by rewrite (proj2 (str_eqb_neq _ _) Hd), or_else_None_r.
Qed.

Lemma attachmentAdded_sound p v h :
  Tables v h → clean (onAttachmentAdded file line env p v) →
  clean v ∧ payload_rule h env (AttachmentAdded p).
Proof.
  intros HT. unfold onAttachmentAdded.
  destruct (mget (attempts v) (aa_attemptId p)) as [a|] eqn:Hg;
    [|by intros H%(proj1 (clean_lifecycle _ _ _ _ _ _))].
  destruct (a_finished a) eqn:Hf; [by intros H%(proj1 (clean_lifecycle _ _ _ _ _ _))|].
  destruct (Tables_entry v h _ a HT Hg) as (ep & _ & Ha).
  assert (open_attempt h (aa_attemptId p)) by (by apply (open_attempt_entry v h _ a)).
  destruct (aa_stepId p) as [sid|] eqn:Es; simpl; rewrite Es.
  - intros [H1 H2%negb_false_iff]%(proj1 (clean_lifecycle_if _ _ _ _ _ _ _)).
    split_and!; [done|done|]. intros ? [= <-].
    by rewrite <-(known_steps_has _ _ _ _ (af_steps_eq _ _ _ _ Ha)).
  - intros H1. by split_and!; [exact H1|done|].
Qed.

Lemma attachmentAdded_complete p v h :
  Tables v h → payload_rule h env (AttachmentAdded p) →
  let w := v <| attachments ::= λ l, l ++
    [{| da_place := {| lc_file := file; lc_line := line; lc_eventId := eventId env |};
        da_sha256 := aa_sha256 p; da_sizeBytes := aa_sizeBytes p |}] |> in
  onAttachmentAdded file line env p v = w ∧
  Tables w (h ++ [Known {| e_env := env; e_payload := AttachmentAdded p |}]).
Proof.
  intros HT [[[ep Hs] Hopen] Hstep]. split; [|by apply (Tables_aside v)].
  destruct (Tables_started v h _ _ HT Hs) as (a & Hg & Ha).
  assert (a_finished a = false) as Hf by (by apply (open_attempt_entry v h _ a HT Hg); split; eauto).
  unfold onAttachmentAdded. rewrite Hg, Hf. destruct (aa_stepId p) as [sid|]; [|done].
  rewrite lifecycle_if_idle; [done|]. apply negb_false_iff.
  rewrite (known_steps_has _ _ _ _ (af_steps_eq _ _ _ _ Ha)). auto.
Qed.

(** *** Executions *)

(** The session argument of the handlers is the history's. *)
Definition session_facts (h : history) (session : SessionState) : Prop :=
  s_runnerName session = runner_name h (sessionId env) ∧ s_synthesized session = false ∧
  is_Some (sess_started h (sessionId env)).

Lemma first_before_numbered h eid n : exec_first h eid = None → exec_numbered h eid n = None.
Proof.
  intros Hn. apply eq_None_not_Some. intros [y (e & He & Hf)%find_map_Some].
  pose proof (find_map_None _ _ _ Hn He) as Hx.
  destruct e as [[env' []]|]; simpl in *; try done. by destruct (str_eqb _ _).
Qed.

Lemma checkExecution_sound p session v h :
  (∀ eid, option_Forall2 (execution_facts h eid) (exec_first h eid) (mget (executions v) eid)) →
  session_facts h session → clean (checkExecution file line (eventId env) p session v) →
  clean v ∧ execution_rule h env p.
Proof.
  intros HT (Hr & Hy & _). unfold checkExecution, execution_rule.
  specialize (HT (t_executionId (as_test p))).
  destruct (exec_first h _) as [[env0 p0]|] eqn:Ef; inversion HT as [? x Hx Ex HE|]; subst.
  - destruct (mget (x_attemptNumbers x) (as_attemptNumber p)) as [same|] eqn:En;
      autorewrite with clean; [naive_solver|].
    rewrite Hy, (xf_known _ _ _ _ Hx). simpl.
    intros [[H1 [H2 H3]%orb_false_iff] H4]. split; [exact H1|].
    apply negb_false_iff, bool_decide_eq_true in H2, H3, H4. split.
    + apply eq_None_not_Some. rewrite <-(xf_numbers _ _ _ _ Hx), En. by intros [].
    + intros ?? [= <- <-]. rewrite <-Hr, <-H4, <-H2, <-H3. destruct Hx. simpl in *.
      split_and!; congruence.
  - intros Hc. split; [exact Hc|]. split; [by apply first_before_numbered|done].
Qed.

Definition here (p : AttemptStartedPayload) : AttemptPlace :=
  {| ap_place := {| lc_file := file; lc_line := line; lc_eventId := eventId env |};
     ap_attemptId := as_attemptId p |}.

Lemma checkExecution_complete p session v h :
  (∀ eid, option_Forall2 (execution_facts h eid) (exec_first h eid) (mget (executions v) eid)) →
  session_facts h session → execution_rule h env p →
  let e := Known {| e_env := env; e_payload := AttemptStarted p |} in
  let eid := t_executionId (as_test p) in
  ∃ x first, exec_first (h ++ [e]) eid = Some first ∧ execution_facts (h ++ [e]) eid first x ∧
    checkExecution file line (eventId env) p session v = v <| executions ::= λ m, mset m eid x |>.
Proof.
  intros HT (Hr & Hy & Hs) [Hn Hf]. cbv zeta. set (eid := t_executionId (as_test p)) in *.
  unfold checkExecution. fold eid (here p). specialize (HT eid).
  rewrite exec_first_snoc. simpl. fold eid. rewrite str_eqb_refl.
  assert (∀ n, is_Some (exec_numbered (h ++ [Known {| e_env := env; e_payload := AttemptStarted p |}]) eid n)
    ↔ as_attemptNumber p = n ∨ is_Some (exec_numbered h eid n)) as Hnum.
  { intros n. rewrite exec_numbered_snoc, or_else_is_Some. simpl. fold eid.
    rewrite str_eqb_refl. simpl. destruct (Z.eqb_spec (as_attemptNumber p) n); split; intros [Hi|Hi];
      eauto; [by destruct Hi|done]. }
  destruct (exec_first h eid) as [[env0 p0]|] eqn:Ef; inversion HT as [? x Hx Ex HE|]; subst; simpl.
  - destruct (Hf env0 p0 eq_refl) as (H1 & H2 & H3).
    exists (x <| x_attemptNumbers ::= λ n, mset n (as_attemptNumber p) (here p) |>), (env0, p0).
    split_and!; [done| |].
    + destruct Hx. split; simpl in *; try done.
      * by rewrite runner_name_snoc.
      * rewrite sess_started_snoc, or_else_is_Some. by left.
      * intros n. rewrite Hnum, mget_mset, <-xf_numbers0. case_decide; naive_solver.
    + assert (mget (x_attemptNumbers x) (as_attemptNumber p) = None) as ->.
      { apply eq_None_not_Some. rewrite (xf_numbers _ _ _ _ Hx), Hn. by intros []. }
      rewrite (xf_historicalId _ _ _ _ Hx), (xf_stability _ _ _ _ Hx), (xf_runner _ _ _ _ Hx). simpl.
      rewrite !lifecycle_if_idle; [destruct Hx, x; simpl in *; by subst| |].
      * by rewrite H1, H2, !bool_decide_true.
      * rewrite H3, Hr, bool_decide_true by done. by rewrite andb_false_r.
  - eexists _, _. split_and!; [done| |done]. split; simpl; try done.
    + by rewrite Hr, runner_name_snoc.
    + by rewrite Hy.
    + rewrite sess_started_snoc, or_else_is_Some. by left.
    + intros n. rewrite Hnum, (first_before_numbered h eid n Ef). case_decide; [subst; naive_solver|].
      split; [by intros []|]. intros [?|[]]; [by subst|done].
Qed.

Lemma attemptStarted_sound p session v h :
  Tables v h → session_facts h session → clean (onAttemptStarted file line env p session v) →
  clean v ∧ payload_rule h env (AttemptStarted p).
Proof.
  intros HT Hs. unfold onAttemptStarted. cbv zeta.
  set (b := bool_decide _ && bool_decide _). set (msg := js "test " ++ _).
  assert (attempts (lifecycle_if b file line HISTORICAL_ID_WITHOUT_RUNNER msg (eventId env) v)
    = attempts v) as -> by (by destruct b).
  unfold mhas. destruct (mget (attempts v) (as_attemptId p)) eqn:Hg; autorewrite with clean; [done|].
  intros Hc. apply (checkExecution_sound p session _ h) in Hc as [H1 H2]; [| |done].
  - change (clean (lifecycle_if b file line HISTORICAL_ID_WITHOUT_RUNNER msg (eventId env) v)) in H1.
    apply clean_lifecycle_if in H1 as [H1 Hb]. split; [done|]. split_and!; [| |done].
    + by apply (Tables_no_entry v h).
    + destruct Hs as [Hs _]. intros Hi. unfold b in Hb. rewrite (bool_decide_true (is_Some _)) in Hb by done.
      simpl in Hb. rewrite Hs in Hb. apply bool_decide_eq_false in Hb.
      destruct (runner_name h (sessionId env)); [eauto|done].
  - simpl. replace (executions (lifecycle_if _ _ _ _ _ _ _)) with (executions v) by (by destruct b).
    apply HT.
Qed.

Definition attemptStarted_base (p : AttemptStartedPayload) (v : RunValidator) : RunValidator :=
  v <| attempts ::= λ m, mset m (as_attemptId p)
    {| a_session := sessionId env; a_executionId := t_executionId (as_test p);
       a_attemptNumber := as_attemptNumber p; a_inconclusive := false; a_finished := false;
       a_unexpected := false; a_steps := [] |} |>.

Lemma attemptStarted_complete p session v h :
  Tables v h → session_facts h session → valid_history h → payload_rule h env (AttemptStarted p) →
  let e := Known {| e_env := env; e_payload := AttemptStarted p |} in
  ∃ x, let w := (attemptStarted_base p v) <| executions ::= λ m, mset m (t_executionId (as_test p)) x |> in
    onAttemptStarted file line env p session v = w ∧ Tables w (h ++ [e]).
Proof.
  intros HT Hs Hv (H1 & H2 & H3) e.
  destruct (checkExecution_complete p session (attemptStarted_base p v) h (tb_executions v h HT) Hs H3) as (x & fst & Hf & Hx & Hw).
  exists x. cbv zeta. split.
  - unfold onAttemptStarted. cbv zeta. rewrite lifecycle_if_idle; [|].
    + unfold mhas. rewrite (proj2 (Tables_no_entry v h _ HT) H1). apply Hw.
    + destruct Hs as [-> _]. do 2 case_bool_decide; try done.
      destruct H2 as [? Hq]; [done|congruence].
  - assert (att_finished h (as_attemptId p) = None) as Hnf.
    { apply eq_None_not_Some. intros [? Hq]%valid_attempt_finished; [congruence|done]. }
    assert (∀ sid, step_started h (as_attemptId p) sid = None) as Hns.
    { intros sid. apply eq_None_not_Some. intros [? Hq]%valid_step_attempt; [congruence|done]. }
    split; simpl.
    + by apply mset_NoDup, HT.
    + intros id. rewrite mget_mset. case_decide as Hd.
      * subst id. rewrite att_started_snoc, H1. simpl. rewrite str_eqb_refl. constructor.
        split; simpl; rewrite ?att_finished_snoc, ?Hnf; try done. split; [apply NoDup_nil_2|].
        intros sid. by rewrite step_started_snoc, Hns.
      * apply attempts_snoc; [|done|apply HT]. simpl. by rewrite (proj2 (str_eqb_neq _ _) Hd).
    + intros eid. rewrite mget_mset. case_decide as Hd; [subst eid; unfold e; rewrite Hf; by constructor|].
      apply executions_snoc; [| |apply HT]; simpl; by rewrite (proj2 (str_eqb_neq _ _) Hd).
    + rewrite run_finished_snoc. simpl. rewrite or_else_None_r. apply HT.
Qed.

End handlers.
