(* ===== verification/ValidatorSound.v ===== *)
(** * Reading a file: the loop of the validator against the specification

    [reads] says, line by line, what a file may hold after a history: blank
    lines, copies of events already read, and events the specification allows
    next. The loop of [feed] adds no error exactly when the file can be read so,
    and then its tables hold the facts of the history read. *)

From S2P Require Import Prelude JsString JsMap JsSort Json Model Codec CodecProps History Validator ValidatorRun ValidatorTables.

Local Open Scope Z_scope.

(** ** Definitions *)

(** Diagnostics are appended, never retracted or changed; and reading lines never
    touches the note of a refused attachments directory. *)
Definition grows (v w : RunValidator) : Prop :=
  (∃ ds, diagnostics w = diagnostics v ++ ds) ∧ attachmentsDirRefused w = attachmentsDirRefused v.

#[export] Instance grows_preorder : PreOrder grows.
Proof.
  split; [intros v; split; [|done]; exists []; by rewrite app_nil_r|].
  intros u v w [[d1 H1] E1] [[d2 H2] E2]. split; [|congruence].
  exists (d1 ++ d2). by rewrite H2, H1, app_assoc.
Qed.

(** Sum of what each event of a history contributes. *)
Definition tally (f : AnyEvent → Z) (h : history) : Z := foldl (λ n e, n + f e) 0 h.

Definition is_step_started (e : AnyEvent) : Z :=
  match e with Known {| e_payload := StepStarted _ |} => 1 | _ => 0 end.
Definition is_scope_failed (e : AnyEvent) : Z :=
  match e with Known {| e_payload := ScopeFailed _ |} => 1 | _ => 0 end.
Definition is_failed_attempt (e : AnyEvent) : Z :=
  match e with
  | Known {| e_payload := AttemptFinished p |} => if bool_decide (af_status p = StFailed) then 1 else 0
  | _ => 0 end.
Definition is_session_with (s : SessionStatus) (e : AnyEvent) : Z :=
  match e with
  | Known {| e_payload := SessionFinished p |} => if bool_decide (sf_status p = Some s) then 1 else 0
  | _ => 0 end.
Definition session_failures (e : AnyEvent) : Z :=
  match e with
  | Known {| e_payload := SessionFinished p |} => Z.of_nat (length (default [] (sf_failures p)))
  | _ => 0 end.
Definition declares (e : AnyEvent) : option (str * Z) :=
  match e with
  | Known {| e_payload := AttachmentAdded p |} => Some (aa_sha256 p, aa_sizeBytes p) | _ => None end.

(** The counters of the switch, and the attachments declared. *)
Record Counted (v : RunValidator) (h : history) : Prop := {
  ct_steps : steps v = tally is_step_started h;
  ct_scopeFailures : scopeFailures v = tally is_scope_failed h;
  ct_failedAttempts : failedAttempts v = tally is_failed_attempt h;
  ct_failedSessions : failedSessions v = tally (is_session_with SeFailed) h;
  ct_inconclusiveSessions : inconclusiveSessions v = tally (is_session_with SeInconclusive) h;
  ct_sessionFailures : sessionFailures v = tally session_failures h;
  ct_attachments : (λ a, (da_sha256 a, da_sizeBytes a)) <$> attachments v = omap declares h;
}.

Definition session_view (h : history) (sid : str) : option SessionState :=
  (λ p, {| s_finished := bool_decide (is_Some (sess_finished h sid));
           s_lastSequence := last_sequence h sid;
           s_runnerName := c_name <$> ss_runner p;
           s_synthesized := false |}) <$> sess_started h sid.

(** An event read, with the canonical text of its line. *)
Abbreviation reading := (AnyEvent * str)%type.

Definition keyed (id : str) (r : reading) : option str :=
  if str_eqb (eventId (any_env r.1)) id then Some r.2 else None.

(** What the validator remembers of the events [g] it has read. *)
Record Remembers (o : ValidateOptions) (v : RunValidator) (g : list reading) : Prop := {
  rm_options : options v = o;
  rm_valid : valid_history g.*1;
  rm_tables : Tables v g.*1;
  rm_counted : Counted v g.*1;
  rm_sessions_nodup : NoDup (mkeys (sessions v));
  rm_sessions : ∀ sid, mget (sessions v) sid = session_view g.*1 sid;
  rm_seen : ∀ id, mget (seen v) id = find_map (keyed id) g;
  rm_run : run_id v = (λ e, runId (any_env e)) <$> head g.*1;
  rm_accepted : opt_retainEvents o = Some true → accepted v = omap known g.*1;
  rm_events : events v = Z.of_nat (length g);
}.

(** Where the reading of one file stands. *)
Record Reading := { rd_events : list reading; rd_session : option str; rd_closed : bool }.

Section reading.
Context (json_parse : str → json + str).
Context (schema : option str → json → option (list ErrorObject)).

(** One line of a file: [single] is the rule of one session per file. *)
Inductive reads_line (limit : Z) (single : bool) : Reading → str → Reading → Prop :=
| reads_blank r raw : is_blank raw = true → reads_line limit single r raw r
| reads_copy r raw e parsed :
    is_blank raw = false →
    readLine json_parse schema limit raw = LineEvent e parsed →
    find_map (keyed (eventId (any_env e))) (rd_events r) = Some (canonical parsed) →
    reads_line limit single r raw r
| reads_event r raw e parsed :
    is_blank raw = false →
    readLine json_parse schema limit raw = LineEvent e parsed →
    allowed (rd_events r).*1 e →
    rd_closed r = false →
    (single = true → rd_session r = None ∨ rd_session r = Some (sessionId (any_env e))) →
    reads_line limit single r raw
      {| rd_events := rd_events r ++ [(e, canonical parsed)];
         rd_session := or_else (rd_session r) (if single then Some (sessionId (any_env e)) else None);
         rd_closed := is_run_finished e |}.

Inductive reads_lines (limit : Z) (single : bool) : Reading → list str → Reading → Prop :=
| reads_nil r : reads_lines limit single r [] r
| reads_cons r r' r'' raw lines :
    reads_line limit single r raw r' → reads_lines limit single r' lines r'' →
    reads_lines limit single r (raw :: lines) r''.

(** The events read after one more file. *)
Definition reads_file (limit : Z) (single : bool) (g : list reading) (lines : list str)
    (g' : list reading) : Prop :=
  ∃ s c, reads_lines limit single {| rd_events := g; rd_session := None; rd_closed := false |} lines
           {| rd_events := g'; rd_session := s; rd_closed := c |}.

End reading.

(** ** Diagnostics only grow *)

Lemma grows_clean v w : grows v w → clean w → clean v.
Proof. intros [[ds H] _]. unfold clean. rewrite H, existsb_app. by intros [? _]%orb_false_iff. Qed.

Lemma grows_push d v : grows v (push_diag d v).
Proof. split; [by exists [d]|done]. Qed.

Lemma grows_lifecycle_if b file line det m id v : grows v (lifecycle_if b file line det m id v).
Proof. destruct b; [apply grows_push|done]. Qed.

Lemma grows_foldl_if {A} (g : A → bool) file line det (m : A → str) id l v :
  grows v (foldl (λ w x, lifecycle_if (g x) file line det (m x) id w) v l).
Proof.
  revert v. induction l as [|x l IH]; intros v; simpl; [done|].
  etrans; [apply grows_lifecycle_if|apply IH].
Qed.

(** A state that differs from [w] outside the diagnostics only. *)
Lemma grows_same v w w' :
  grows v w → diagnostics w' = diagnostics w → attachmentsDirRefused w' = attachmentsDirRefused w →
  grows v w'.
Proof. intros [[ds H] Hr] E1 E2. split; [exists ds; by rewrite E1|congruence]. Qed.

Ltac grow :=
  repeat first
    [ reflexivity
    | apply grows_push
    | apply grows_lifecycle_if
    | (etrans; [|apply grows_push])
    | (etrans; [|apply grows_lifecycle_if])
    | (etrans; [|apply grows_foldl_if])
    | case_goal
    | match goal with
      | |- grows ?v (update_field _ _ ?w) => apply (grows_same v w); [|reflexivity|reflexivity]
      | |- grows _ _ => solve [split; [|done]; exists []; simpl; by rewrite app_nil_r | split; [by eexists [_]|done]]
      end ].

Lemma grows_checkExecution file line id p session v :
  grows v (checkExecution file line id p session v).
Proof. unfold checkExecution. grow. Qed.

Lemma grows_dispatch file line e session v : grows v (dispatch_event file line e session v).
Proof.
  unfold dispatch_event, onSessionFinished, onRunFinished, onAttemptStarted, onAttemptFinished,
    onStepStarted, onStepFinished, onAttachmentAdded, lifecycle, error.
  destruct (e_payload e); grow; (etrans; [|apply grows_checkExecution]); grow.
Qed.

Lemma grows_archive sha file line raw key e d v : grows v (archive sha file line raw key e d v).
Proof. unfold archive. grow. Qed.

Lemma grows_acceptEvent sha file line raw key e session v :
  grows v (acceptEvent sha file line raw key e session v).
Proof.
  unfold acceptEvent, advanceSession, lifecycle, error. cbv zeta.
  destruct (_ && _); [grow|]. destruct e as [k|u].
  - etrans; [|apply grows_dispatch]. etrans; [|apply grows_archive]. grow.
  - etrans; [|apply grows_push]. etrans; [|apply grows_archive]. grow.
Qed.

Lemma grows_openSession file line e v : grows v (openSession file line e v).2.
Proof. unfold openSession, lifecycle, error. destruct (mget _ _), (str_eqb _ _); simpl; grow. Qed.

Lemma grows_newEvent sha file single raw key e s :
  grows (fs_this s) (fs_this (newEvent sha file single raw key e s)).
Proof.
  unfold newEvent, openSession, checkRunId, lifecycle, error. cbv zeta.
  set (v := _ <| events ::= _ |>).
  set (v1 := match run_id v with Some _ => _ | None => _ end).
  assert (grows (fs_this s) v1) as H1.
  { transitivity v; [by apply (grows_same (fs_this s) (fs_this s) v)|]. unfold v1. grow. }
  clearbody v1. destruct (match fs_fileSession s with Some _ => _ | None => _ end).
  { simpl. etrans; [exact H1|]. apply grows_push. }
  set (v2 := lifecycle_if _ _ _ _ _ _ _).
  assert (grows (fs_this s) v2) as H2 by (etrans; [exact H1|apply grows_lifecycle_if]).
  clearbody v2. destruct (mget (sessions v2) _), (str_eqb (any_type e) _); simpl;
    (etrans; [exact H2|]); try apply grows_push; (etrans; [|apply grows_acceptEvent]); grow.
Qed.

Lemma grows_feedLine json_parse schema sha file single s raw :
  grows (fs_this s) (fs_this (feedLine json_parse schema sha file single s raw)).
Proof.
  unfold feedLine. simpl. destruct (_ || _); [done|].
  destruct (readLine _ _ _ _) as [c m id p|e parsed]; [apply grows_push|].
  destruct (mget _ _).
  - unfold repeatedEvent, lifecycle, error. simpl. destruct (str_eqb _ _); [|apply grows_push].
    etrans; [|apply grows_push]. etrans; [|apply grows_archive]. by apply (grows_same _ (fs_this s)).
  - etrans; [|apply grows_newEvent]. done.
Qed.

Lemma grows_feedLines json_parse schema sha file single lines s :
  grows (fs_this s) (fs_this (foldl (feedLine json_parse schema sha file single) s lines)).
Proof.
  revert s. induction lines as [|raw lines IH]; intros s; simpl; [done|].
  etrans; [apply grows_feedLine|apply IH].
Qed.

(** ** Counters *)

Lemma tally_snoc f h e : tally f (h ++ [e]) = tally f h + f e.
Proof. unfold tally. by rewrite foldl_app. Qed.

Lemma Counted_same v w h :
  steps w = steps v → scopeFailures w = scopeFailures v → failedAttempts w = failedAttempts v →
  failedSessions w = failedSessions v → inconclusiveSessions w = inconclusiveSessions v →
  sessionFailures w = sessionFailures v → attachments w = attachments v → Counted v h → Counted w h.
Proof. intros ??????? []. split; congruence. Qed.

Ltac counted :=
  match goal with HC : Counted _ _ |- _ =>
    destruct HC; split; simpl; rewrite ?tally_snoc, ?omap_app; simpl;
    rewrite ?app_nil_r, ?fmap_app; csimpl; try case_bool_decide; try done; lia || congruence
  end.

(** ** The counters of the reading itself *)

Definition is_unknown (e : AnyEvent) : Z := match e with Unknown _ => 1 | Known _ => 0 end.

(** Files, duplicates and ignored events: what the rules and the handlers leave alone. *)
Definition steady (v w : RunValidator) : Prop :=
  files w = files v ∧ duplicates w = duplicates v ∧ ignored w = ignored v.

#[export] Instance steady_preorder : PreOrder steady.
Proof. split; unfold steady; [done|]. intros u v w ??; destruct_and?. split_and!; congruence. Qed.

Lemma steady_push d v : steady v (push_diag d v).
Proof. done. Qed.
Lemma steady_lifecycle_if b file line det m id v : steady v (lifecycle_if b file line det m id v).
Proof. by destruct b. Qed.
Lemma steady_foldl_if {A} (g : A → bool) file line det (m : A → str) id l v :
  steady v (foldl (λ w x, lifecycle_if (g x) file line det (m x) id w) v l).
Proof.
  revert v. induction l as [|x l IH]; intros v; simpl; [done|].
  etrans; [apply steady_lifecycle_if|apply IH].
Qed.

Ltac hold :=
  repeat first
    [ reflexivity
    | apply steady_push
    | apply steady_lifecycle_if
    | (etrans; [|apply steady_push])
    | (etrans; [|apply steady_lifecycle_if])
    | (etrans; [|apply steady_foldl_if])
    | case_goal
    | match goal with
      | |- steady ?v (update_field _ _ ?w) => transitivity w; [|split_and!; reflexivity]
      end ].

Lemma steady_checkExecution file line id p session v : steady v (checkExecution file line id p session v).
Proof. unfold checkExecution. hold. Qed.

Lemma steady_dispatch file line e session v : steady v (dispatch_event file line e session v).
Proof.
  unfold dispatch_event, onSessionFinished, onRunFinished, onAttemptStarted, onAttemptFinished,
    onStepStarted, onStepFinished, onAttachmentAdded, lifecycle, error.
  destruct (e_payload e); hold; (etrans; [|apply steady_checkExecution]); hold.
Qed.

Lemma steady_archive sha file line raw key e d v : steady v (archive sha file line raw key e d v).
Proof. unfold archive. hold. Qed.

(** ** The event switch *)

Lemma dispatch_sound file line e session v h :
  Tables v h →
  (is_session_started (Known e) = false → session_facts (e_env e) h session) →
  clean (dispatch_event file line e session v) → payload_rule h (e_env e) (e_payload e).
Proof.
  intros HT Hs. unfold dispatch_event. destruct e as [env pl]. simpl in *. destruct pl; try done; intros Hc.
  - by eapply sessionFinished_sound.
  - by eapply runFinished_sound.
  - by eapply attemptStarted_sound in Hc as [_ ?]; [|done|auto].
  - by eapply attemptFinished_sound in Hc as [_ ?].
  - by eapply stepStarted_sound in Hc as [_ ?].
  - by eapply stepFinished_sound in Hc as [_ ?].
  - by eapply attachmentAdded_sound in Hc as [_ ?].
Qed.

(** The sessions after the switch. *)
Definition sessions_after (e : Event) (m : jsmap str SessionState) : jsmap str SessionState :=
  match e_payload e with
  | SessionFinished _ => mupd m (sessionId (e_env e)) (λ s, s <| s_finished := true |>)
  | _ => m
  end.

Lemma dispatch_complete file line e session v h :
  Tables v h → Counted v h → valid_history h →
  (is_session_started (Known e) = false → session_facts (e_env e) h session) →
  payload_rule h (e_env e) (e_payload e) →
  let w := dispatch_event file line e session v in
  diagnostics w = diagnostics v ∧ Tables w (h ++ [Known e]) ∧ Counted w (h ++ [Known e]) ∧
  frame v w ∧ sessions w = sessions_after e (sessions v).
Proof.
  intros HT HC Hv Hs Hr. unfold dispatch_event, sessions_after. destruct e as [env pl]. cbv zeta. simpl in *.
  destruct pl as [p|p| |p|p|p|p|p|p].
  - split_and!; try done; [by apply (Tables_aside v)|counted].
  - destruct (sessionFinished_complete file line env p v h HT Hr) as [-> HT'].
    split_and!; try done. unfold sessionFinished_base. counted.
  - destruct (runFinished_complete file line env v h HT Hr) as [-> HT'].
    split_and!; try done. counted.
  - destruct (attemptStarted_complete file line env p session v h HT (Hs eq_refl) Hv Hr) as (x & -> & HT').
    split_and!; try done. unfold attemptStarted_base. counted.
  - destruct (attemptFinished_complete file line env p v h HT Hr) as (a & _ & -> & HT').
    split_and!; try done. unfold attemptFinished_base. counted.
  - destruct (stepStarted_complete file line env p v h HT Hv Hr) as (a & _ & -> & HT').
    split_and!; try done. counted.
  - destruct (stepFinished_complete file line env p v h HT Hv Hr) as (a & _ & -> & HT').
    split_and!; try done. counted.
  - destruct (attachmentAdded_complete file line env p v h HT Hr) as [-> HT'].
    split_and!; try done. counted.
  - split_and!; try done; [by apply (Tables_aside v)|counted].
Qed.

(** ** The parts of one new event *)

Definition typed (e : AnyEvent) : Prop :=
  match e with Unknown u => isKnownEventType (u_eventType u) = false | Known _ => True end.

Lemma known_type_eqb t : isKnownEventType t = false → ∀ t', t' ∈ EVENT_TYPES → str_eqb t t' = false.
Proof.
  unfold isKnownEventType. intros H%bool_decide_eq_false t' Ht. apply str_eqb_neq. by intros ->.
Qed.

Lemma typed_started e : typed e → str_eqb (any_type e) (js "session.started") = is_session_started e.
Proof.
  destruct e as [[env []]|u]; try done. intros H.
  apply (known_type_eqb _ H), (bool_decide_unpack _). by vm_compute.
Qed.

Lemma typed_finished e : typed e → str_eqb (any_type e) (js "run.finished") = is_run_finished e.
Proof.
  destruct e as [[env []]|u]; try done. intros H.
  apply (known_type_eqb _ H), (bool_decide_unpack _). by vm_compute.
Qed.

Lemma closes_eq e : closes e = is_run_finished e.
Proof. by destruct e as [[env []]|u]. Qed.

Lemma readLine_wf json_parse schema limit raw e parsed :
  readLine json_parse schema limit raw = LineEvent e parsed → wf_event e.
Proof.
  unfold readLine. destruct (_ <? _); [done|]. destruct (json_parse raw) as [j|]; [|done].
  destruct (eventFromObject j) eqn:E; [|done]. destruct (schema _ _); [by destruct (firstError _)|].
  intros [= <- <-]. destruct j; try done. by eapply event_wf.
Qed.

Lemma wf_typed e : wf_event e → typed e.
Proof. intros [_ H]. destruct e; simpl in *; [done|]. by destruct H as (_ & ? & _). Qed.

Section new_event.
Context (file : str) (line : Z).

Lemma head_run_id h r env :
  valid_history h → r = (λ e, runId (any_env e)) <$> head h →
  (∀ e, e ∈ h → runId (any_env e) = runId env) ↔ from_option (λ x, x = runId env) True r.
Proof.
  intros Hv ->. destruct h as [|e0 h]; simpl; [set_solver|]. split.
  - intros H. apply H. by left.
  - intros H e He. rewrite <-H. apply (valid_run_ids (e0 :: h)); [done|done|by left].
Qed.

Lemma checkRunId_sound h env v :
  valid_history h → run_id v = (λ e, runId (any_env e)) <$> head h →
  clean (checkRunId file line env v) →
  clean v ∧ (∀ e, e ∈ h → runId (any_env e) = runId env).
Proof.
  intros Hv Hr. rewrite (head_run_id h _ env Hv Hr). unfold checkRunId.
  destruct (run_id v) as [r|]; [|done].
  intros [H1 H2]%clean_lifecycle_if. split; [done|]. by apply negb_false_iff, str_eqb_eq in H2.
Qed.

Lemma checkRunId_complete h env v :
  valid_history h → run_id v = (λ e, runId (any_env e)) <$> head h →
  (∀ e, e ∈ h → runId (any_env e) = runId env) →
  checkRunId file line env v = v <| run_id := Some (runId env) |>.
Proof.
  intros Hv Hr. rewrite (head_run_id h _ env Hv Hr). unfold checkRunId.
  destruct (run_id v) as [r|] eqn:E; [|done]. simpl. intros ->.
  rewrite lifecycle_if_idle by (by rewrite str_eqb_refl). destruct v. simpl in *. by subst.
Qed.

(** The session an allowed event belongs to, from the history. *)
Definition session_of (h : history) (e : AnyEvent) : option SessionState :=
  if is_session_started e then
    match sess_started h (sessionId (any_env e)) with
    | None => Some {| s_finished := false; s_lastSequence := 0; s_runnerName := runner_of e;
                      s_synthesized := false |}
    | Some _ => None
    end
  else session_view h (sessionId (any_env e)).

Definition opened (e : AnyEvent) (s : SessionState) (v : RunValidator) : RunValidator :=
  if is_session_started e then v <| sessions ::= λ m, mset m (sessionId (any_env e)) s |> else v.

Lemma openSession_complete h e s v :
  typed e → mget (sessions v) (sessionId (any_env e)) = session_view h (sessionId (any_env e)) →
  session_of h e = Some s → openSession file line e v = (Some s, opened e s v).
Proof.
  intros Ht Hg. unfold session_of, openSession, opened. rewrite Hg, (typed_started e Ht).
  destruct (is_session_started e).
  - unfold session_view. destruct (sess_started _ _); [done|]. simpl. by intros [= <-].
  - by intros ->.
Qed.

Lemma openSession_sound h e v :
  typed e → mget (sessions v) (sessionId (any_env e)) = session_view h (sessionId (any_env e)) →
  clean (openSession file line e v).2 → is_Some (session_of h e).
Proof.
  intros Ht Hg. unfold session_of, openSession. rewrite Hg, (typed_started e Ht).
  destruct (is_session_started e).
  - unfold session_view. destruct (sess_started _ _); simpl; [|eauto]. by intros ?%clean_lifecycle.
  - destruct (session_view _ _); [eauto|]. simpl. intros H. exfalso.
    by apply (clean_lifecycle file line SESSION_NOT_STARTED
      (any_type e ++ js " before session.started for " ++ sessionId (any_env e)) (eventId (any_env e)) v).
Qed.

Lemma session_of_facts h e s :
  session_of h e = Some s → is_session_started e = false → session_facts (any_env e) h s.
Proof.
  unfold session_of. intros H E. rewrite E in H. unfold session_view, session_facts, runner_name in *.
  destruct (sess_started h (sessionId (any_env e))) as [p|]; simpl in H; [|done].
  injection H as <-. simpl. eauto.
Qed.

Lemma session_of_rule h e s :
  session_of h e = Some s →
  session_rule h e ↔
  sequence (any_env e) = s_lastSequence s + 1 ∧ s_finished s && negb (is_run_finished e) = false.
Proof.
  unfold session_of, session_rule. destruct (is_session_started e).
  - destruct (sess_started _ _); [done|]. intros [= <-]. simpl. naive_solver lia.
  - unfold session_view. destruct (sess_started _ _); [|done]. intros [= <-]. simpl.
    rewrite andb_false_iff, bool_decide_eq_false, negb_false_iff, eq_None_not_Some. naive_solver.
Qed.

End new_event.

(** ** Accepting an event *)

(** An event taken is counted as ignored exactly when its type is unknown. *)
Lemma acceptEvent_counts sha file line raw key e s v :
  typed e → s_finished s && negb (is_run_finished e) = false →
  let w := acceptEvent sha file line raw key e s v in
  files w = files v ∧ duplicates w = duplicates v ∧ ignored w = ignored v + is_unknown e.
Proof.
  intros Ht Hf. unfold acceptEvent. rewrite (typed_finished e Ht), Hf. cbv zeta.
  set (a := advanceSession file line (any_env e) s v).
  assert (steady v a) as (A1 & A2 & A3) by (unfold a, advanceSession; hold).
  destruct e as [k|u]; simpl.
  - match goal with |- context [dispatch_event file line k ?s1 (archive sha file line raw key ?e1 ?d1 ?v1)] =>
      destruct (steady_dispatch file line k s1 (archive sha file line raw key e1 d1 v1)) as (D1 & D2 & D3);
      destruct (steady_archive sha file line raw key e1 d1 v1) as (B1 & B2 & B3) end.
    rewrite D1, D2, D3, B1, B2, B3, Z.add_0_r.
    case_bool_decide; (split; [exact A1|split; [exact A2|exact A3]]).
  - match goal with |- context [archive sha file line raw key ?e1 ?d1 ?v1] =>
      destruct (steady_archive sha file line raw key e1 d1 v1) as (B1 & B2 & B3) end.
    rewrite B1, B2, B3. split; [exact A1|split; [exact A2|]].
    change (Z.succ (ignored a) = ignored v + 1). lia.
Qed.

Section accept.
Context (sha : str → str) (file : str) (line : Z) (raw key : str).

(** The state the switch is entered with. *)
Definition advanced (e : AnyEvent) (s : SessionState) (v : RunValidator) : RunValidator :=
  v <| sessions ::= λ m, mset m (sessionId (any_env e)) (s <| s_lastSequence := sequence (any_env e) |>) |>.

Lemma advanceSession_sound env s v :
  clean (advanceSession file line env s v) → clean v ∧ sequence env = s_lastSequence s + 1.
Proof.
  unfold advanceSession. set (w := lifecycle_if _ _ _ _ _ _ _). intros Hc.
  change (clean w) in Hc. unfold w in Hc. apply clean_lifecycle_if in Hc as [H1 H2].
  apply negb_false_iff, Z.eqb_eq in H2. done.
Qed.

Lemma advanceSession_complete e s v :
  sequence (any_env e) = s_lastSequence s + 1 →
  advanceSession file line (any_env e) s v = advanced e s v.
Proof.
  intros H. unfold advanceSession. rewrite lifecycle_if_idle; [done|].
  by rewrite negb_false_iff, Z.eqb_eq.
Qed.

(** The source keeps the line and the event before the switch. *)
Definition kept (e : AnyEvent) (v : RunValidator) : RunValidator :=
  match e with
  | Known k =>
      archive sha file line raw key e DispAccepted
        (if bool_decide (opt_retainEvents (options v) = Some true)
         then v <| accepted ::= λ l, l ++ [k] |> else v)
  | Unknown _ => archive sha file line raw key e DispIgnored (v <| ignored ::= Z.succ |>)
  end.

Lemma archive_fields e d v :
  let w := archive sha file line raw key e d v in
  diagnostics w = diagnostics v ∧ seen w = seen v ∧ sessions w = sessions v ∧
  attempts w = attempts v ∧ executions w = executions v ∧ runFinished w = runFinished v ∧
  options w = options v ∧ run_id w = run_id v ∧ events w = events v ∧ accepted w = accepted v ∧
  steps w = steps v ∧ scopeFailures w = scopeFailures v ∧ failedAttempts w = failedAttempts v ∧
  failedSessions w = failedSessions v ∧ inconclusiveSessions w = inconclusiveSessions v ∧
  sessionFailures w = sessionFailures v ∧ attachments w = attachments v.
Proof. unfold archive. by destruct (opt_retainSourceLines _). Qed.

Lemma kept_fields e v :
  let w := kept e v in
  diagnostics w = diagnostics v ∧ seen w = seen v ∧ sessions w = sessions v ∧
  attempts w = attempts v ∧ executions w = executions v ∧ runFinished w = runFinished v ∧
  options w = options v ∧ run_id w = run_id v ∧ events w = events v ∧
  accepted w = accepted v ++ (if bool_decide (opt_retainEvents (options v) = Some true)
                              then omap known [e] else []) ∧
  steps w = steps v ∧ scopeFailures w = scopeFailures v ∧ failedAttempts w = failedAttempts v ∧
  failedSessions w = failedSessions v ∧ inconclusiveSessions w = inconclusiveSessions v ∧
  sessionFailures w = sessionFailures v ∧ attachments w = attachments v.
Proof.
  cbv zeta. unfold kept. destruct e as [k|u];
    match goal with |- context [archive _ _ _ _ _ ?e ?d ?x] => pose proof (archive_fields e d x) as H end;
    cbv zeta in H; destruct_and!; split_and!; etrans; try eassumption;
    simpl; try case_bool_decide; simpl; rewrite ?app_nil_r; done.
Qed.

Lemma kept_tables e v h : Tables v h → Tables (kept e v) h.
Proof.
  pose proof (kept_fields e v) as H. cbv zeta in H. destruct_and!. by apply Tables_same.
Qed.

Lemma kept_counted e v h : Counted v h → Counted (kept e v) h.
Proof. intros HC. pose proof (kept_fields e v) as H. cbv zeta in H. destruct_and!. by apply (Counted_same v). Qed.

Lemma acceptEvent_eq e s v :
  typed e → s_finished s && negb (is_run_finished e) = false →
  acceptEvent sha file line raw key e s v =
  let w := kept e (advanceSession file line (any_env e) s v) in
  match e with
  | Known k => dispatch_event file line k (s <| s_lastSequence := sequence (any_env e) |>) w
  | Unknown u =>
      push_diag {| d_severity := SevInfo; d_code := D_IGNORED_EVENT_TYPE; d_file := file;
                   d_line := line; d_eventId := Some (eventId (any_env e)); d_pointer := None;
                   d_detail := None;
                   d_message := js "unknown ignorable event type " ++ u_eventType u
                                  ++ js " skipped" |} w
  end.
Proof.
  intros Ht Hf. unfold acceptEvent, kept. rewrite (typed_finished e Ht), Hf. by destruct e.
Qed.

Lemma acceptEvent_sound h e s v :
  typed e → Tables v h → session_of h e = Some s →
  clean (acceptEvent sha file line raw key e s v) →
  session_rule h e ∧
  match e with Known k => payload_rule h (e_env k) (e_payload k) | Unknown _ => True end.
Proof.
  intros Ht HT Hs Hc. destruct (s_finished s && negb (is_run_finished e)) eqn:Hf.
  { exfalso. unfold acceptEvent in Hc. rewrite (typed_finished e Ht), Hf in Hc.
    by apply clean_lifecycle in Hc. }
  rewrite (acceptEvent_eq e s v Ht Hf) in Hc. cbv zeta in Hc.
  set (a := advanceSession file line (any_env e) s v) in *.
  assert (clean a) as Ha.
  { assert (clean (kept e a)) as Hk.
    { destruct e as [k|u]; [|by apply clean_push in Hc as [? _]].
      eapply grows_clean; [apply grows_dispatch|exact Hc]. }
    destruct (kept_fields e a) as [Hd _]. unfold clean in *. by rewrite <-Hd. }
  split.
  - apply (session_of_rule h e s Hs). split; [|done]. by apply advanceSession_sound in Ha as [_ ?].
  - destruct e as [k|u]; [|done]. eapply dispatch_sound; [| |exact Hc].
    + apply kept_tables. unfold a, advanceSession.
      apply (Tables_same v); [..|done]; unfold lifecycle_if; by case_match.
    + intros E. destruct (session_of_facts h _ _ Hs E) as (? & ? & ?). by split_and!.
Qed.

Lemma session_view_snoc h e sid :
  sessionId (any_env e) ≠ sid → session_view (h ++ [e]) sid = session_view h sid.
Proof.
  intros Hne. unfold session_view.
  rewrite sess_started_snoc, sess_finished_snoc, last_sequence_snoc.
  assert (starts_session sid e = None ∧ finishes_session sid e = None) as [-> ->].
  { apply str_eqb_neq in Hne. destruct e as [[env []]|]; simpl in *; try done; by rewrite Hne. }
  unfold of_session. rewrite (proj2 (str_eqb_neq _ _) Hne). by rewrite !or_else_None_r.
Qed.

(** The entry of the event's session, once the switch is done. *)
Lemma session_view_own h e s :
  valid_history h → session_of h e = Some s → session_rule h e →
  session_view (h ++ [e]) (sessionId (any_env e)) =
  Some (s <| s_lastSequence := sequence (any_env e) |>
          <| s_finished ::= λ b, match e with Known {| e_payload := SessionFinished _ |} => true | _ => b end |>).
Proof.
  intros Hv Hs Hr. unfold session_of, session_rule in *.
  unfold session_view. rewrite sess_started_snoc, sess_finished_snoc, last_sequence_snoc.
  unfold of_session. rewrite str_eqb_refl.
  destruct (is_session_started e) eqn:E.
  - destruct e as [[env []]|u]; try done. simpl in *.
    destruct (sess_started h (sessionId env)) eqn:E1; [done|]. simplify_eq/=.
    rewrite str_eqb_refl, or_else_None_r. simpl. repeat f_equal.
    apply bool_decide_eq_false. intros Hf%valid_session_finished; [|done]. rewrite E1 in Hf. by destruct Hf.
  - unfold session_view in Hs. destruct (sess_started h (sessionId (any_env e))) as [p|]; [|done].
    simplify_eq/=. f_equal. destruct e as [[env []]|u]; simpl in *; rewrite ?or_else_None_r; try done.
    rewrite str_eqb_refl. f_equal. apply bool_decide_eq_true. by destruct (sess_finished h _).
Qed.

(** The session table once the switch is done. *)
Definition sessions_final (e : AnyEvent) (s : SessionState) (m : jsmap str SessionState) :=
  let m1 := mset m (sessionId (any_env e)) (s <| s_lastSequence := sequence (any_env e) |>) in
  match e with Known k => sessions_after k m1 | Unknown _ => m1 end.

Lemma sessions_final_get e s m sid :
  mget (sessions_final e s m) sid =
  if decide (sessionId (any_env e) = sid) then
    Some (s <| s_lastSequence := sequence (any_env e) |>
            <| s_finished ::= λ b, match e with Known {| e_payload := SessionFinished _ |} => true | _ => b end |>)
  else mget m sid.
Proof.
  unfold sessions_final, sessions_after, mupd.
  destruct e as [[env []]|u]; simpl; rewrite ?mget_mset_eq; simpl; rewrite ?mget_mset; by case_decide.
Qed.

Lemma sessions_final_NoDup e s m : NoDup (mkeys m) → NoDup (mkeys (sessions_final e s m)).
Proof.
  intros H. unfold sessions_final, sessions_after, mupd.
  destruct e as [[env []]|u]; simpl; rewrite ?mget_mset_eq; auto using mset_NoDup.
Qed.

Lemma acceptEvent_complete h e s v :
  typed e → Tables v h → Counted v h → valid_history h → session_of h e = Some s →
  session_rule h e →
  match e with Known k => payload_rule h (e_env k) (e_payload k) | Unknown _ => True end →
  let w := acceptEvent sha file line raw key e s v in
  (clean v → clean w) ∧ Tables w (h ++ [e]) ∧ Counted w (h ++ [e]) ∧
  seen w = seen v ∧ options w = options v ∧ run_id w = run_id v ∧ events w = events v ∧
  accepted w = accepted v ++ (if bool_decide (opt_retainEvents (options v) = Some true)
                              then omap known [e] else []) ∧
  sessions w = sessions_final e s (sessions v).
Proof.
  intros Ht HT HC Hv Hs Hr Hp. cbv zeta. apply (session_of_rule h e s Hs) in Hr as [Hseq Hf].
  rewrite (acceptEvent_eq e s v Ht Hf), (advanceSession_complete e s v Hseq). cbv zeta.
  set (a := advanced e s v).
  assert (Tables (kept e a) h) as HTk by (apply kept_tables; by apply (Tables_same v)).
  assert (Counted (kept e a) h) as HCk by (apply kept_counted; by apply (Counted_same v)).
  pose proof (kept_fields e a) as Hk. cbv zeta in Hk. destruct_and!.
  destruct e as [k|u].
  - destruct (dispatch_complete file line k (s <| s_lastSequence := sequence (any_env (Known k)) |>)
      (kept (Known k) a) h HTk HCk Hv) as (Hd & HT' & HC' & Hfr & Hse); [|exact Hp|].
    { intros E. by destruct (session_of_facts h _ _ Hs E) as (? & ? & ?). }
    unfold frame in Hfr. destruct_and!.
    split_and!; try done; try (etrans; [eassumption|etrans; [eassumption|done]]).
    + unfold clean. rewrite Hd. match goal with H : diagnostics (kept _ _) = _ |- _ => by rewrite H end.
    + rewrite Hse. match goal with H : sessions (kept _ _) = _ |- _ => by rewrite H end.
  - split_and!; try (etrans; [eassumption|done]).
    + intros Hc. apply clean_push. split; [|done]. unfold clean in *.
      match goal with H : diagnostics (kept _ _) = _ |- _ => by rewrite H end.
    + by apply (Tables_aside (kept (Unknown u) a)).
    + destruct HCk. split; simpl; rewrite ?tally_snoc, ?omap_app; simpl; rewrite ?app_nil_r, ?Z.add_0_r; done.
Qed.

End accept.

(** ** One line *)

(** The loop's state follows the reading of the file. *)
Record Follows (o : ValidateOptions) (s : FeedState) (r : Reading) : Prop := {
  fw_remembers : Remembers o (fs_this s) (rd_events r);
  fw_session : fs_fileSession s = rd_session r;
  fw_closed : fs_closedHere s = rd_closed r;
  fw_open : fs_abandoned s = false;
}.

Section lines.
Context (json_parse : str → json + str).
Context (schema : option str → json → option (list ErrorObject)).
Context (sha : str → str) (file : str) (single : bool) (o : ValidateOptions).

Definition after_event (r : Reading) (e : AnyEvent) (key : str) : Reading :=
  {| rd_events := rd_events r ++ [(e, key)];
     rd_session := or_else (rd_session r) (if single then Some (sessionId (any_env e)) else None);
     rd_closed := is_run_finished e |}.

Definition same_session (r : Reading) (e : AnyEvent) : Prop :=
  single = true → rd_session r = None ∨ rd_session r = Some (sessionId (any_env e)).

Lemma mixed_spec r e :
  match rd_session r with
  | Some f => single && negb (str_eqb f (sessionId (any_env e))) | None => false end = false ↔
  same_session r e.
Proof.
  unfold same_session. destruct (rd_session r) as [f|]; [|naive_solver].
  rewrite andb_false_iff, negb_false_iff, str_eqb_eq. destruct single; naive_solver.
Qed.

Lemma fresh_ids g id :
  find_map (keyed id) g = None ↔ ∀ e, e ∈ g.*1 → eventId (any_env e) ≠ id.
Proof.
  split.
  - intros H e (r & -> & Hr)%list_elem_of_fmap He. pose proof (find_map_None _ _ _ H Hr) as Hk.
    unfold keyed in Hk. by rewrite He, str_eqb_refl in Hk.
  - intros H. apply eq_None_not_Some. intros [y (r & Hr & Hk)%find_map_Some]. unfold keyed in Hk.
    destruct (str_eqb _ _) eqn:E; [|done]. apply str_eqb_eq in E.
    apply (H r.1); [by apply list_elem_of_fmap_2|done].
Qed.

(** What is recorded before the rules are checked. *)
Definition noted (e : AnyEvent) (key : str) (v : RunValidator) : RunValidator :=
  v <| seen ::= λ m, mset m (eventId (any_env e)) key |> <| events ::= Z.succ |>.

Lemma newEvent_eq r e key raw s :
  Follows o s r → typed e → rd_closed r = false → same_session r e →
  (∀ e', e' ∈ (rd_events r).*1 → runId (any_env e') = runId (any_env e)) →
  let v := (noted e key (fs_this s)) <| run_id := Some (runId (any_env e)) |> in
  ∀ session, session_of (rd_events r).*1 e = Some session →
  let s' := newEvent sha file single raw key e s in
  fs_this s' = acceptEvent sha file (fs_line s) raw key e session (opened e session v) ∧
  fs_fileSession s' = or_else (rd_session r) (if single then Some (sessionId (any_env e)) else None) ∧
  fs_closedHere s' = is_run_finished e ∧ fs_abandoned s' = false.
Proof.
  intros [HR Hse Hcl Hop] Ht Hc Hm Hrun v session Hs. cbv zeta. unfold newEvent. cbv zeta.
  fold (noted e key (fs_this s)).
  rewrite Hse, (proj2 (mixed_spec r e) Hm), Hcl, Hc. simpl lifecycle_if.
  rewrite (checkRunId_complete file (fs_line s) (rd_events r).*1 (any_env e)) by
    first [apply HR | done]. fold v.
  rewrite (openSession_complete file (fs_line s) (rd_events r).*1 e session v Ht (rm_sessions _ _ _ HR _) Hs).
  rewrite closes_eq. destruct (rd_session r); [|destruct single]; simpl; by rewrite ?Hcl, ?Hc.
Qed.

Lemma newEvent_sound r e key raw s :
  Follows o s r → typed e → find_map (keyed (eventId (any_env e))) (rd_events r) = None →
  clean (fs_this (newEvent sha file single raw key e s)) →
  allowed (rd_events r).*1 e ∧ rd_closed r = false ∧ same_session r e.
Proof.
  intros HF Ht Hfresh Hc. pose proof HF as [HR Hse Hcl Hop].
  set (v1 := checkRunId file (fs_line s) (any_env e) (noted e key (fs_this s))).
  set (v2 := lifecycle_if (fs_closedHere s) file (fs_line s) EVENT_AFTER_RUN_FINISHED
                (any_type e ++ js " after run.finished") (eventId (any_env e)) v1).
  assert (same_session r e ∧ clean (openSession file (fs_line s) e v2).2) as [Hm Ho].
  { unfold newEvent in Hc. cbv zeta in Hc. fold (noted e key (fs_this s)) v1 v2 in Hc.
    rewrite Hse in Hc.
    destruct (match rd_session r with Some _ => _ | None => false end) eqn:Em.
    { by apply clean_lifecycle in Hc. }
    split; [by apply mixed_spec|].
    destruct (openSession file (fs_line s) e v2) as [[session|] v3]; [|exact Hc].
    simpl in *. eapply grows_clean; [apply grows_acceptEvent|exact Hc]. }
  pose proof (grows_clean _ _ (grows_openSession file (fs_line s) e v2) Ho) as H2. apply clean_lifecycle_if in H2 as [H1 Hclosed].
  rewrite Hcl in Hclosed.
  destruct (checkRunId_sound file (fs_line s) (rd_events r).*1 (any_env e) (noted e key (fs_this s)))
    as [_ Hrun]; [apply HR..|exact H1|].
  assert (sessions v2 = sessions (fs_this s)) as Hsv.
  { unfold v2, v1, checkRunId, lifecycle_if. repeat case_match; done. }
  destruct (openSession_sound file (fs_line s) (rd_events r).*1 e v2 Ht) as [session Hs]; [|done|].
  { rewrite Hsv. apply HR. }
  destruct (newEvent_eq r e key raw s HF Ht Hclosed Hm Hrun session Hs) as [Heq _].
  cbv zeta in Heq. rewrite Heq in Hc.
  apply (acceptEvent_sound sha file (fs_line s) raw key (rd_events r).*1) in Hc as [Hr Hp]; [|done| |done].
  - split; [|done]. split_and!; [|done|done]. split; [done|]. by apply fresh_ids.
  - apply (Tables_same (fs_this s)); [..|apply HR]; unfold opened; by destruct (is_session_started e).
Qed.

Lemma newEvent_complete r e key raw s :
  Follows o s r → typed e → allowed (rd_events r).*1 e → rd_closed r = false → same_session r e →
  let s' := newEvent sha file single raw key e s in
  (clean (fs_this s) → clean (fs_this s')) ∧ Follows o s' (after_event r e key).
Proof.
  intros HF Ht Ha Hcl Hm. pose proof HF as [HR _ _ _].
  pose proof Ha as ((Hrun & Hid) & Hr & Hp).
  assert (∃ session, session_of (rd_events r).*1 e = Some session) as [session Hs].
  { unfold session_of, session_rule in *. destruct (is_session_started e).
    - destruct Hr as [-> _]. eauto.
    - destruct Hr as [[p Hq] _]. unfold session_view. rewrite Hq. simpl. eauto. }
  destruct (newEvent_eq r e key raw s HF Ht Hcl Hm Hrun session Hs) as (Heq & Hfs & Hfc & Hfa).
  cbv zeta in *. set (v := opened e session _) in Heq.
  assert (attempts v = attempts (fs_this s) ∧ executions v = executions (fs_this s) ∧
    runFinished v = runFinished (fs_this s)) as (E1 & E2 & E3).
  { unfold v, opened. by destruct (is_session_started e). }
  destruct (acceptEvent_complete sha file (fs_line s) raw key (rd_events r).*1 e session v Ht)
    as (Hc & HT & HC & Hse & Hop & Hri & Hev & Hac & Hss); try done; try apply HR.
  { apply (Tables_same (fs_this s)); try done. apply HR. }
  { apply (Counted_same (fs_this s)); [..|apply HR]; unfold v, opened; by destruct (is_session_started e). }
  cbv zeta in *. rewrite <-Heq in *. split.
  { intros Hcs. apply Hc. unfold v, opened. by destruct (is_session_started e). }
  assert (seen v = mset (seen (fs_this s)) (eventId (any_env e)) key ∧ options v = o ∧
    run_id v = Some (runId (any_env e)) ∧ events v = Z.succ (events (fs_this s)) ∧
    accepted v = accepted (fs_this s) ∧
    (∀ sid, sessionId (any_env e) ≠ sid → mget (sessions v) sid = mget (sessions (fs_this s)) sid) ∧
    NoDup (mkeys (sessions v))) as (F1 & F2 & F3 & F4 & F5 & F6 & F7).
  { unfold v, opened. destruct (is_session_started e); simpl; split_and!; try done; try apply HR.
    - intros sid Hne. by apply mget_mset_ne.
    - apply mset_NoDup, HR. }
  split; [|done..]. unfold after_event. simpl.
  split; rewrite ?Hse, ?Hop, ?Hri, ?Hev, ?Hac, ?Hss, ?F1, ?F2, ?F3, ?F4, ?F5, ?fmap_app; simpl; try done.
  - constructor; [apply HR|done].
  - by apply sessions_final_NoDup.
  - intros sid. rewrite sessions_final_get. destruct (decide (sessionId (any_env e) = sid)) as [Hd|Hd].
    + subst sid. symmetry. apply session_view_own; [apply HR|done|done].
    + rewrite F6 by done. rewrite session_view_snoc by done. apply HR.
  - intros id. rewrite mget_mset, find_map_snoc, (rm_seen _ _ _ HR). unfold keyed at 3. simpl.
    destruct (decide (eventId (any_env e) = id)) as [Hd|Hd].
    + subst id. rewrite (proj2 (fresh_ids _ _)) by done. simpl. by rewrite str_eqb_refl.
    + rewrite (proj2 (str_eqb_neq _ _) Hd). by rewrite or_else_None_r.
  - pose proof (rm_run _ _ _ HR) as Hru. destruct (rd_events r) as [|[e0 k0] g] eqn:Eg; [done|].
    simpl. f_equal. symmetry. apply Hrun. by left.
  - intros Hret. rewrite bool_decide_true, omap_app by done. by rewrite (rm_accepted _ _ _ HR Hret).
  - rewrite (rm_events _ _ _ HR), length_app. simpl. lia.
Qed.

Lemma newEvent_counts r e key raw s :
  Follows o s r → typed e → allowed (rd_events r).*1 e → rd_closed r = false → same_session r e →
  let w := fs_this (newEvent sha file single raw key e s) in
  files w = files (fs_this s) ∧ duplicates w = duplicates (fs_this s) ∧
  ignored w = ignored (fs_this s) + is_unknown e.
Proof.
  intros HF Ht ((Hrun & _) & Hr & _) Hcl Hm.
  assert (∃ session, session_of (rd_events r).*1 e = Some session) as [session Hs].
  { unfold session_of, session_rule in *. destruct (is_session_started e).
    - destruct Hr as [-> _]. eauto.
    - destruct Hr as [[p Hq] _]. unfold session_view. rewrite Hq. simpl. eauto. }
  destruct (newEvent_eq r e key raw s HF Ht Hcl Hm Hrun session Hs) as (Heq & _). cbv zeta in *. rewrite Heq.
  apply (session_of_rule _ _ _ Hs) in Hr as [_ Hf].
  set (v := opened e session _).
  destruct (acceptEvent_counts sha file (fs_line s) raw key e session v Ht Hf) as (-> & -> & ->).
  unfold v, opened. by destruct (is_session_started e).
Qed.

(** ** The lines of a file *)

Abbreviation limit := (default maxEventBytes_limit (opt_maxEventBytes o)).
Abbreviation reads := (reads_line json_parse schema limit single).
Abbreviation step := (feedLine json_parse schema sha file single).

Lemma Remembers_same v w g :
  options w = options v → attempts w = attempts v → executions w = executions v →
  runFinished w = runFinished v → sessions w = sessions v → seen w = seen v →
  run_id w = run_id v → accepted w = accepted v → events w = events v → Counted w g.*1 →
  Remembers o v g → Remembers o w g.
Proof. intros H1 H2 H3 H4 H5 H6 H7 H8 H9 HC []. split; rewrite ?H1, ?H5, ?H6, ?H7, ?H8, ?H9; try done.
  by apply (Tables_same v).
Qed.

Lemma repeated_keeps s raw key e :
  let w := repeatedEvent sha file (fs_line s) raw key key e (fs_this s) in
  (clean (fs_this s) → clean w) ∧ ∀ g, Remembers o (fs_this s) g → Remembers o w g.
Proof.
  cbv zeta. unfold repeatedEvent. rewrite str_eqb_refl.
  set (v := (fs_this s) <| duplicates ::= Z.succ |>).
  pose proof (archive_fields sha file (fs_line s) raw key e DispDuplicate v) as Ha. cbv zeta in Ha.
  destruct_and!. split.
  - intros Hc. apply clean_push. split; [|done]. unfold clean in *.
    match goal with H : diagnostics (archive _ _ _ _ _ _ _ _) = _ |- _ => by rewrite H end.
  - intros g HR. apply (Remembers_same (fs_this s)); try done.
    apply (Counted_same (fs_this s)); try done. apply HR.
Qed.

Lemma Follows_line s r : Follows o s r → Follows o (s <| fs_line ::= Z.succ |>) r.
Proof. by intros []. Qed.

Lemma feedLine_eq s r raw :
  Follows o s r →
  step s raw =
  let s1 := s <| fs_line ::= Z.succ |> in
  if is_blank raw then s1
  else match readLine json_parse schema limit raw with
       | LineRefused c m id ptr => s1 <| fs_this ::= error file c m id ptr None (fs_line s1) |>
       | LineEvent e parsed =>
           match find_map (keyed (eventId (any_env e))) (rd_events r) with
           | Some previous =>
               s1 <| fs_this ::= repeatedEvent sha file (fs_line s1) raw (canonical parsed) previous e |>
           | None => newEvent sha file single raw (canonical parsed) e s1
           end
       end.
Proof.
  intros [HR Hse Hcl Hop]. unfold feedLine. cbv zeta. set (s1 := s <| fs_line ::= Z.succ |>).
  assert (fs_abandoned s1 = false) as -> by done. simpl orb.
  unfold max_event_bytes. change (fs_this s1) with (fs_this s). rewrite (rm_options _ _ _ HR).
  destruct (is_blank raw); [done|]. destruct (readLine _ _ _ _); [done|].
  by rewrite (rm_seen _ _ _ HR).
Qed.

Lemma feedLine_complete s r raw r' :
  Follows o s r → reads r raw r' →
  (clean (fs_this s) → clean (fs_this (step s raw))) ∧ Follows o (step s raw) r'.
Proof.
  intros HF Hr. rewrite (feedLine_eq s r raw HF). apply Follows_line in HF. cbv zeta.
  change (fs_this s) with (fs_this (s <| fs_line ::= Z.succ |>)).
  set (s1 := s <| fs_line ::= Z.succ |>) in *. clearbody s1. pose proof HF as [HR Hse Hcl Hop].
  destruct Hr as [r raw Hb|r raw e parsed Hb Hl Hk|r raw e parsed Hb Hl Ha Hc Hs]; rewrite Hb; [done| |];
    rewrite Hl.
  - rewrite Hk. destruct (repeated_keeps s1 raw (canonical parsed) e) as [H1 H2].
    split; [exact H1|]. split; try done. by apply H2.
  - pose proof Ha as ((_ & Hid) & _). rewrite (proj2 (fresh_ids _ _) Hid).
    apply (newEvent_complete r e (canonical parsed) raw s1); try done.
    by eapply wf_typed, readLine_wf.
Qed.

(** Lines that are not blank. *)
Definition counted_lines (lines : list str) : Z := Z.of_nat (length (List.filter (λ l, negb (is_blank l)) lines)).

(** What reading from [r] to [r'] adds to the counters: a line that is not blank is an event or a copy. *)
Definition adds (r r' : Reading) (n : Z) (v w : RunValidator) : Prop :=
  files w = files v ∧
  Z.of_nat (length (rd_events r')) + duplicates w = Z.of_nat (length (rd_events r)) + duplicates v + n ∧
  ignored w - tally is_unknown (rd_events r').*1 = ignored v - tally is_unknown (rd_events r).*1.

Lemma feedLine_adds s r raw r' :
  Follows o s r → reads r raw r' → adds r r' (counted_lines [raw]) (fs_this s) (fs_this (step s raw)).
Proof.
  intros HF Hr. rewrite (feedLine_eq s r raw HF). apply Follows_line in HF. cbv zeta.
  change (fs_this s) with (fs_this (s <| fs_line ::= Z.succ |>)).
  set (s1 := s <| fs_line ::= Z.succ |>) in *. clearbody s1.
  unfold adds, counted_lines.
  destruct Hr as [r raw Hb|r raw e parsed Hb Hl Hk|r raw e parsed Hb Hl Ha Hc Hs]; simpl; rewrite Hb; simpl;
    [split_and!; [done|lia|done]| |]; rewrite Hl.
  - rewrite Hk. unfold repeatedEvent. rewrite str_eqb_refl.
    set (v := (fs_this s1) <| duplicates ::= Z.succ |>).
    destruct (steady_archive sha file (fs_line s1) raw (canonical parsed) e DispDuplicate v) as (E1 & E2 & E3).
    split; [exact E1|]. split; [|f_equal; exact E3].
    transitivity (Z.of_nat (length (rd_events r)) + duplicates v); [f_equal; exact E2|].
    change (duplicates v) with (Z.succ (duplicates (fs_this s1))). lia.
  - pose proof Ha as ((_ & Hid) & _). rewrite (proj2 (fresh_ids _ _) Hid).
    destruct (newEvent_counts r e (canonical parsed) raw s1) as (E1 & E2 & E3); try done.
    { by eapply wf_typed, readLine_wf. }
    rewrite E1, E2, E3, fmap_app, length_app. simpl. rewrite tally_snoc. split_and!; [done|lia|lia].
Qed.

Lemma feedLine_sound s r raw :
  Follows o s r → clean (fs_this (step s raw)) → ∃ r', reads r raw r'.
Proof.
  intros HF. rewrite (feedLine_eq s r raw HF). apply Follows_line in HF. cbv zeta.
  set (s1 := s <| fs_line ::= Z.succ |>) in *. clearbody s1.
  destruct (is_blank raw) eqn:Hb; [intros _; eexists; by apply reads_blank|].
  destruct (readLine json_parse schema limit raw) as [c m id ptr|e parsed] eqn:Hl.
  { by intros Hc%clean_error. }
  destruct (find_map _ _) as [previous|] eqn:Hp; intros Hc.
  - simpl in Hc. unfold repeatedEvent in Hc.
    destruct (str_eqb previous (canonical parsed)) eqn:Ek; [|by apply clean_lifecycle in Hc].
    apply str_eqb_eq in Ek. subst previous. eexists. by eapply reads_copy.
  - apply (newEvent_sound r) in Hc as (Ha & Hcr & Hs); [|done|by eapply wf_typed, readLine_wf|done].
    eexists. by eapply reads_event.
Qed.

Lemma feedLines_iff lines s r :
  Follows o s r → clean (fs_this s) →
  clean (fs_this (foldl step s lines)) ↔ ∃ r', reads_lines json_parse schema limit single r lines r'.
Proof.
  revert s r. induction lines as [|raw lines IH]; intros s r HF Hc; simpl.
  - split; [|done]. intros _. eexists. constructor.
  - split.
    + intros Hf. pose proof (grows_clean _ _ (grows_feedLines _ _ _ _ _ _ _) Hf) as H1.
      destruct (feedLine_sound s r raw HF H1) as [r1 Hr].
      destruct (feedLine_complete s r raw r1 HF Hr) as [_ HF'].
      destruct (proj1 (IH _ _ HF' H1) Hf) as [r2 Hr2]. exists r2. by econstructor.
    + intros [r2 Hr2]. inversion Hr2 as [|? r1 ??? Hr Hrs]; subst.
      destruct (feedLine_complete s r raw r1 HF Hr) as [Hc' HF']. apply (IH _ r1 HF'); [auto|eauto].
Qed.

Lemma feedLines_follow lines s r r' :
  Follows o s r → reads_lines json_parse schema limit single r lines r' →
  Follows o (foldl step s lines) r'.
Proof.
  intros HF Hr. revert s HF. induction Hr as [|r r1 r2 raw lines Hr Hrs IH]; intros s HF; simpl; [done|].
  apply IH. by eapply feedLine_complete.
Qed.

Lemma counted_lines_cons raw lines : counted_lines (raw :: lines) = counted_lines [raw] + counted_lines lines.
Proof. unfold counted_lines. simpl. destruct (negb _); simpl; lia. Qed.

Lemma feedLines_add lines s r r' :
  Follows o s r → reads_lines json_parse schema limit single r lines r' →
  adds r r' (counted_lines lines) (fs_this s) (fs_this (foldl step s lines)).
Proof.
  intros HF Hr. revert s HF. induction Hr as [|r r1 r2 raw lines Hr Hrs IH]; intros s HF.
  - unfold adds, counted_lines. simpl. split_and!; [done|lia|done].
  - rewrite counted_lines_cons. simpl.
    destruct (feedLine_adds s r raw r1 HF Hr) as (A1 & A2 & A3).
    destruct (IH (step s raw)) as (B1 & B2 & B3); [by eapply feedLine_complete|].
    unfold adds. rewrite B1, A1. split_and!; [done|lia|lia].
Qed.

(** A file read: one more file, its lines counted. *)
Lemma feed_adds lines v g g' :
  Remembers o v g → reads_file json_parse schema limit single g lines g' →
  let w := feed json_parse schema sha lines file single v in
  files w = files v + 1 ∧
  Z.of_nat (length g') + duplicates w = Z.of_nat (length g) + duplicates v + counted_lines lines ∧
  ignored w - tally is_unknown g'.*1 = ignored v - tally is_unknown g.*1.
Proof.
  intros HR (se & cl & Hr). unfold feed. cbv zeta.
  eapply feedLines_add in Hr as (A1 & A2 & A3).
  - rewrite A1. simpl in *. split_and!; [lia|exact A2|exact A3].
  - split; try done. apply (Remembers_same v); try done. apply (Counted_same v); try done. apply HR.
Qed.

Lemma feed_iff lines v g :
  Remembers o v g → clean v →
  clean (feed json_parse schema sha lines file single v) ↔
  ∃ g', reads_file json_parse schema limit single g lines g'.
Proof.
  intros HR Hc. unfold feed. rewrite (feedLines_iff lines _ {| rd_events := g; rd_session := None; rd_closed := false |}).
  - split; [intros [[g' se cl] Hr]; by exists g', se, cl | intros (g' & se & cl & Hr); eauto].
  - split; try done. apply (Remembers_same v); try done. apply (Counted_same v); try done. apply HR.
  - exact Hc.
Qed.

Lemma feed_remembers lines v g g' :
  Remembers o v g → reads_file json_parse schema limit single g lines g' →
  Remembers o (feed json_parse schema sha lines file single v) g'.
Proof.
  intros HR (se & cl & Hr). unfold feed.
  eapply (feedLines_follow lines _ _ _) in Hr; [apply Hr|].
  split; try done. apply (Remembers_same v); try done. apply (Counted_same v); try done. apply HR.
Qed.

Lemma new_validator_remembers : Remembers o (new_validator o) [].
Proof.
  split; simpl; try done; [apply valid_nil| |constructor].
  split; simpl; [constructor| | |].
  - intros id. constructor.
  - intros id. constructor.
  - split; by intros [].
Qed.

End lines.
