(* ===== verification/ValidatorReport.v ===== *)
(** * The report: validity and verdict as facts of the history

    [valid] holds of a report exactly when the input can be read as a valid
    history that ends well and whose attachments are stored; the verdict is the
    one the history defines. *)

From S2P Require Import Prelude JsString JsMap JsSort Json Model Codec CodecProps History Validator ValidatorRun ValidatorTables ValidatorSound.

Local Open Scope Z_scope.

(** ** What a history says of the whole run *)

(** A closed run has no open session. *)
Definition ends_well (h : history) : Prop :=
  is_Some (run_finished h) → ∀ sid, is_Some (sess_started h sid) → is_Some (sess_finished h sid).

(** Every session, attempt and step that started has finished. *)
Record complete (h : history) : Prop := {
  cp_sessions : ∀ sid, is_Some (sess_started h sid) → is_Some (sess_finished h sid);
  cp_attempts : ∀ id, is_Some (att_started h id) → is_Some (att_finished h id);
  cp_steps : ∀ id sid, is_Some (step_started h id sid) → is_Some (step_finished h id sid);
}.

(** The attempt with the highest number of its execution. *)
Definition final_attempt (h : history) (id : str) (p : AttemptStartedPayload) : Prop :=
  (∃ env, att_started h id = Some (env, p)) ∧
  ∀ id' env' p', att_started h id' = Some (env', p') →
    t_executionId (as_test p') = t_executionId (as_test p) →
    as_attemptNumber p' <= as_attemptNumber p.

Definition final_outcome (h : history) (P : AttemptFinishedPayload → bool) : Prop :=
  ∃ id p q, final_attempt h id p ∧ att_finished h id = Some q ∧ P q = true.

Definition unexpected_outcome (q : AttemptFinishedPayload) : bool :=
  is_unexpected (af_status q) (default ExPassed (af_expectedStatus q)).
Definition inconclusive_outcome (q : AttemptFinishedPayload) : bool :=
  bool_decide (af_status q = StInconclusive).

Definition failed_run (h : history) : Prop :=
  final_outcome h unexpected_outcome ∨
  (∃ env p, Known {| e_env := env; e_payload := ScopeFailed p |} ∈ h) ∨
  (∃ env p, Known {| e_env := env; e_payload := SessionFinished p |} ∈ h ∧ sf_status p = Some SeFailed).

Definition inconclusive_run (h : history) : Prop :=
  final_outcome h inconclusive_outcome ∨
  (∃ env p, Known {| e_env := env; e_payload := SessionFinished p |} ∈ h ∧
     sf_status p = Some SeInconclusive).

(** The verdict a history defines. *)
Inductive verdict_of (h : history) : Verdict → Prop :=
| verdict_incomplete : ¬ complete h → verdict_of h VIncomplete
| verdict_failed : complete h → failed_run h → verdict_of h VFailed
| verdict_inconclusive : complete h → ¬ failed_run h → inconclusive_run h → verdict_of h VInconclusive
| verdict_passed : complete h → ¬ failed_run h → ¬ inconclusive_run h → verdict_of h VPassed.

(** A declared attachment is a regular file of the declared size and digest. *)
Definition stored (fs : FileSystem) (dir : str) (a : str * Z) : Prop :=
  let path := fsys_join fs dir a.1 in
  entryKind fs path = Ok (EKind KFile) ∧
  ∃ f, openRegular fs path = Ok (inl f) ∧ of_size f = a.2 ∧ of_sha256 f = a.1.

Definition attachments_stored (fs : FileSystem) (dir : option str) (h : history) : Prop :=
  match dir with
  | None => True
  | Some d =>
      match entryKind fs d with
      | Ok (EMissing | EKind KDirectory) => Forall (stored fs d) (omap declares h)
      | _ => omap declares h = []
      end
  end.

(** ** Completeness *)

Section remembered.
Context (o : ValidateOptions) (v : RunValidator) (g : list reading).
Hypothesis HR : Remembers o v g.
Abbreviation h := (g.*1).

Lemma sessions_finished_iff :
  (∀ ids, ids ∈ sessions v → s_finished ids.2 = true) ↔
  ∀ sid, is_Some (sess_started h sid) → is_Some (sess_finished h sid).
Proof.
  pose proof (rm_sessions _ _ _ HR) as Hs. unfold session_view in Hs. split.
  - intros H sid [p Hp]. specialize (Hs sid). rewrite Hp in Hs. simpl in Hs.
    apply mget_elem, H in Hs. by apply bool_decide_eq_true in Hs.
  - intros H [sid s] Hin. simpl. apply elem_mget in Hin; [|apply HR].
    rewrite Hs in Hin. destruct (sess_started h sid) eqn:E; simplify_eq/=.
    apply bool_decide_eq_true, H. by rewrite E.
Qed.

(** An attempt's entry, and the history's. *)
Lemma attempt_entry id a :
  (id, a) ∈ attempts v →
  ∃ env p, att_started h id = Some (env, p) ∧ attempt_facts h id (env, p) a ∧
    mget (attempts v) id = Some a.
Proof.
  intros Hin. apply elem_mget in Hin; [|apply HR].
  destruct (Tables_entry _ _ _ _ (rm_tables _ _ _ HR) Hin) as ([env p] & ? & ?). eauto.
Qed.

Lemma is_complete_iff : is_complete v = true ↔ complete h.
Proof.
  unfold is_complete, mvalues. rewrite andb_true_iff, !forallb_forall.
  setoid_rewrite <-list_elem_of_In. split.
  - intros [Hs Ha]. split.
    + apply sessions_finished_iff. intros ids Hin. apply Hs. by apply list_elem_of_fmap_2.
    + intros id [ep Hep]. destruct (Tables_started _ _ _ _ (rm_tables _ _ _ HR) Hep) as (a & Hg & Hf).
      specialize (Ha a). rewrite andb_true_iff in Ha.
      destruct Ha as [Ha _]; [apply list_elem_of_fmap; by exists (id, a); split; [|apply mget_elem]|].
      rewrite (af_finished_eq _ _ _ _ Hf) in Ha. by apply bool_decide_eq_true in Ha.
    + intros id sid Hst. destruct (valid_step_attempt _ _ _ (rm_valid _ _ _ HR) Hst) as [ep Hep].
      destruct (Tables_started _ _ _ _ (rm_tables _ _ _ HR) Hep) as (a & Hg & Hf).
      specialize (Ha a). rewrite andb_true_iff, forallb_forall in Ha.
      destruct Ha as [_ Ha]; [apply list_elem_of_fmap; by exists (id, a); split; [|apply mget_elem]|].
      destruct (af_steps_eq _ _ _ _ Hf) as [_ Hm]. destruct Hst as [q Hq].
      specialize (Hm sid). rewrite Hq in Hm. simpl in Hm.
      specialize (Ha _ (proj1 (list_elem_of_In _ _) (list_elem_of_fmap_2 snd _ _ (mget_elem _ _ _ Hm)))).
      by apply bool_decide_eq_true in Ha.
  - intros [H1 H2 H3]. split.
    + intros s (ids & -> & Hin)%list_elem_of_fmap. by apply sessions_finished_iff.
    + intros a ([id a'] & -> & Hin)%list_elem_of_fmap. simpl.
      destruct (attempt_entry id a' Hin) as (env & p & Hs & Hf & _).
      rewrite andb_true_iff, (af_finished_eq _ _ _ _ Hf), bool_decide_eq_true, forallb_forall.
      split; [apply H2; by rewrite Hs|]. intros b Hb.
      apply list_elem_of_In, list_elem_of_fmap in Hb as ([sid b'] & -> & Hb). simpl in *.
      destruct (af_steps_eq _ _ _ _ Hf) as [Hn Hm]. apply elem_mget in Hb; [|done].
      rewrite Hm in Hb. destruct (step_started h id sid) eqn:E; simplify_eq/=.
      apply bool_decide_eq_true, H3. by rewrite E.
Qed.

End remembered.

(** ** The final attempts *)

Definition final_step (m : jsmap str AttemptState) (a : AttemptState) : jsmap str AttemptState :=
  match mget m (a_executionId a) with
  | None => mset m (a_executionId a) a
  | Some current =>
      if a_attemptNumber current <? a_attemptNumber a then mset m (a_executionId a) a else m
  end.

Record final_table (l : list AttemptState) (m : jsmap str AttemptState) : Prop := {
  ft_nodup : NoDup (mkeys m);
  ft_best : ∀ eid a, mget m eid = Some a → a ∈ l ∧ a_executionId a = eid ∧
    ∀ b, b ∈ l → a_executionId b = eid → a_attemptNumber b <= a_attemptNumber a;
  ft_all : ∀ b, b ∈ l → is_Some (mget m (a_executionId b));
}.

Lemma final_step_table l m a : final_table l m → final_table (l ++ [a]) (final_step m a).
Proof.
  intros [Hn Hb Ha]. unfold final_step.
  destruct (mget m (a_executionId a)) as [c|] eqn:E.
  - destruct (Hb _ _ E) as (Hc & He & Hmax). destruct (Z.ltb_spec (a_attemptNumber c) (a_attemptNumber a)).
    + split; [by apply mset_NoDup| |].
      * intros eid x. rewrite mget_mset. case_decide as Hd.
        -- intros [= <-]. split_and!; [set_solver|done|].
           intros b [Hb'| ->%list_elem_of_singleton]%elem_of_app Hbe; [|lia].
           etrans; [apply Hmax; [done|congruence]|lia].
        -- intros Hx. destruct (Hb _ _ Hx) as (? & ? & Hx'). split_and!; [set_solver|done|].
           intros b [Hb'| ->%list_elem_of_singleton]%elem_of_app Hbe; [auto|congruence].
      * intros b. rewrite mget_mset. case_decide; [eauto|].
        intros [?| ->%list_elem_of_singleton]%elem_of_app; [auto|congruence].
    + split; [done| |].
      * intros eid x Hx. destruct (Hb _ _ Hx) as (? & ? & Hx'). split_and!; [set_solver|done|].
        intros b [Hb'| ->%list_elem_of_singleton]%elem_of_app Hbe; [auto|].
        rewrite Hbe in E. simplify_eq. lia.
      * intros b [?| ->%list_elem_of_singleton]%elem_of_app; [auto|by rewrite E].
  - split; [by apply mset_NoDup| |].
    + intros eid x. rewrite mget_mset. case_decide as Hd.
      * intros [= <-]. split_and!; [set_solver|done|].
        intros b [Hb'| ->%list_elem_of_singleton]%elem_of_app Hbe; [|lia].
        destruct (Ha b Hb') as [? Hq]. congruence.
      * intros Hx. destruct (Hb _ _ Hx) as (? & ? & Hx'). split_and!; [set_solver|done|].
        intros b [Hb'| ->%list_elem_of_singleton]%elem_of_app Hbe; [auto|congruence].
    + intros b. rewrite mget_mset. case_decide; [eauto|].
      intros [?| ->%list_elem_of_singleton]%elem_of_app; [auto|congruence].
Qed.

Lemma finalAttempts_table v : final_table (mvalues (attempts v)) (finalAttempts v).
Proof.
  unfold finalAttempts. change (final_table (mvalues (attempts v)) (foldl final_step [] (mvalues (attempts v)))).
  induction (mvalues (attempts v)) as [|a l IH] using rev_ind.
  - split; [constructor|done|]. by intros b ?%elem_of_nil.
  - rewrite foldl_app. by apply final_step_table.
Qed.

(** ** The verdict *)

Section verdict.
Context (o : ValidateOptions) (v : RunValidator) (g : list reading).
Hypothesis HR : Remembers o v g.
Abbreviation h := (g.*1).

(** An entry of the final table is the final attempt of its execution. *)
Lemma final_entry a :
  a ∈ mvalues (finalAttempts v) →
  ∃ id env p, final_attempt h id p ∧ attempt_facts h id (env, p) a.
Proof.
  destruct (finalAttempts_table v) as [Hn Hb _]. intros ([eid a'] & -> & Hin)%list_elem_of_fmap.
  apply elem_mget in Hin; [|done]. destruct (Hb _ _ Hin) as (Ha & He & Hmax). simpl.
  apply list_elem_of_fmap in Ha as ([id a''] & Hq & Ha). simpl in Hq. subst a''.
  destruct (attempt_entry _ _ _ HR id a' Ha) as (env & p & Hs & Hf & _). exists id, env, p.
  split; [|done]. split; [by exists env|]. intros id' env' p' Hs' Hx.
  destruct (Tables_started _ _ _ _ (rm_tables _ _ _ HR) Hs') as (b & Hgb & Hfb).
  pose proof (af_number_eq _ _ _ _ Hf) as E1. pose proof (af_number_eq _ _ _ _ Hfb) as E2.
  pose proof (af_execution_eq _ _ _ _ Hf) as E3. pose proof (af_execution_eq _ _ _ _ Hfb) as E4.
  simpl in *. rewrite <-E1, <-E2. apply Hmax; [|congruence].
  apply list_elem_of_fmap. exists (id', b). split; [done|]. by apply mget_elem.
Qed.

(** The final attempt of an execution is an entry of the final table. *)
Lemma entry_final id p :
  final_attempt h id p →
  ∃ a env, a ∈ mvalues (finalAttempts v) ∧ attempt_facts h id (env, p) a.
Proof.
  intros [[env Hs] Hmax].
  destruct (Tables_started _ _ _ _ (rm_tables _ _ _ HR) Hs) as (a & Hga & Hfa).
  destruct (finalAttempts_table v) as [Hn Hb Hall].
  destruct (Hall a) as [c Hc]; [apply list_elem_of_fmap; exists (id, a); split; [done|by apply mget_elem]|].
  destruct (Hb _ _ Hc) as (Hcin & Hcx & Hcmax).
  apply list_elem_of_fmap in Hcin as ([id' c'] & Hq & Hcin). simpl in Hq. subst c'.
  destruct (attempt_entry _ _ _ HR id' c Hcin) as (env' & p' & Hs' & Hf' & Hg').
  assert (a_attemptNumber a <= a_attemptNumber c) as Hle.
  { apply Hcmax; [|done]. apply list_elem_of_fmap. exists (id, a). split; [done|by apply mget_elem]. }
  pose proof (af_number_eq _ _ _ _ Hfa) as E1. pose proof (af_number_eq _ _ _ _ Hf') as E2.
  pose proof (af_execution_eq _ _ _ _ Hfa) as E3. pose proof (af_execution_eq _ _ _ _ Hf') as E4.
  simpl in *.
  assert (id' = id) as ->.
  { apply (valid_numbers_distinct h id' id env' p' env p (rm_valid _ _ _ HR)); [done|done|congruence|].
    specialize (Hmax id' env' p' Hs'). assert (as_attemptNumber p' <= as_attemptNumber p) by (apply Hmax; congruence).
    lia. }
  assert (c = a) as -> by congruence. exists a, env. split; [|done].
  apply list_elem_of_fmap. exists (a_executionId a, a). split; [done|by apply mget_elem].
Qed.

Lemma finals_iff (F : AttemptState → bool) (P : AttemptFinishedPayload → bool) :
  (∀ id ep a, attempt_facts h id ep a → F a = from_option P false (att_finished h id)) →
  existsb F (mvalues (finalAttempts v)) = true ↔ final_outcome h P.
Proof.
  intros HF. rewrite existsb_exists. setoid_rewrite <-list_elem_of_In. split.
  - intros (a & Hin & Ha). destruct (final_entry a Hin) as (id & env & p & Hfin & Hfacts).
    rewrite (HF _ _ _ Hfacts) in Ha. destruct (att_finished h id) as [q|] eqn:E; [|done].
    by exists id, p, q.
  - intros (id & p & q & Hfin & Hq & HP). destruct (entry_final id p Hfin) as (a & env & Hin & Hfacts).
    exists a. split; [done|]. by rewrite (HF _ _ _ Hfacts), Hq.
Qed.

Lemma tally_pos f l : (∀ e, 0 <= f e) → (0 <? tally f l) = true ↔ ∃ e, e ∈ l ∧ 0 < f e.
Proof.
  intros Hf. rewrite Z.ltb_lt.
  assert (0 <= tally f l ∧ (0 < tally f l ↔ ∃ e, e ∈ l ∧ 0 < f e)) as [_ H]; [|done].
  induction l as [|e l [IH0 IH]] using rev_ind.
  - split; [done|]. split; [done|]. by intros (e & ?%elem_of_nil & _).
  - rewrite tally_snoc. specialize (Hf e). split; [lia|]. split.
    + intros H. destruct (decide (0 < f e)); [exists e; set_solver|].
      destruct (proj1 IH) as (e' & ? & ?); [lia|]. exists e'. set_solver.
    + intros (e' & [Hin| ->%list_elem_of_singleton]%elem_of_app & Hpos); [|lia].
      assert (0 < tally f l) by (apply IH; eauto). lia.
Qed.

Lemma scope_failures_iff :
  (0 <? scopeFailures v) = true ↔ ∃ env p, Known {| e_env := env; e_payload := ScopeFailed p |} ∈ h.
Proof.
  rewrite (ct_scopeFailures _ _ (rm_counted _ _ _ HR)), tally_pos by (by intros [[env []]|]). split.
  - intros ([[env []]|] & Hin & Hpos); try done. eauto.
  - intros (env & p & Hin). by exists (Known {| e_env := env; e_payload := ScopeFailed p |}).
Qed.

Lemma sessions_with_iff s :
  (0 <? tally (is_session_with s) h) = true ↔
  ∃ env p, Known {| e_env := env; e_payload := SessionFinished p |} ∈ h ∧ sf_status p = Some s.
Proof.
  rewrite tally_pos.
  2:{ intros [[env []]|]; simpl; try done. by case_bool_decide. }
  split.
  - intros ([[env []]|] & Hin & Hpos); simpl in *; try done. case_bool_decide; [eauto|done].
  - intros (env & p & Hin & Hp). exists (Known {| e_env := env; e_payload := SessionFinished p |}).
    split; [done|]. simpl. by rewrite bool_decide_true.
Qed.

Lemma verdict_spec : verdict_of h (verdict v).
Proof.
  unfold verdict. cbv zeta. destruct (is_complete v) eqn:Ec; simpl.
  2:{ apply verdict_incomplete. intros Hc. apply (is_complete_iff _ _ _ HR) in Hc. congruence. }
  apply (is_complete_iff _ _ _ HR) in Ec.
  assert (existsb a_unexpected (mvalues (finalAttempts v)) || (0 <? scopeFailures v) || (0 <? failedSessions v) = true
    ↔ failed_run h) as Hf.
  { rewrite !orb_true_iff, (ct_failedSessions _ _ (rm_counted _ _ _ HR)), sessions_with_iff, scope_failures_iff,
      (finals_iff a_unexpected unexpected_outcome) by (by intros ??? []). unfold failed_run. tauto. }
  assert (existsb a_inconclusive (mvalues (finalAttempts v)) || (0 <? inconclusiveSessions v) = true
    ↔ inconclusive_run h) as Hi.
  { by rewrite !orb_true_iff, (ct_inconclusiveSessions _ _ (rm_counted _ _ _ HR)), sessions_with_iff,
      (finals_iff a_inconclusive inconclusive_outcome) by (by intros ??? []). }
  destruct (existsb a_unexpected _ || _ || _); [apply verdict_failed; tauto|].
  assert (¬ failed_run h) by (intros Hq; by apply Hf in Hq).
  destruct (existsb a_inconclusive _ || _); [apply verdict_inconclusive; tauto|].
  apply verdict_passed; [done|done|]. intros Hq. by apply Hi in Hq.
Qed.

End verdict.

Lemma verdict_of_functional h v1 v2 : verdict_of h v1 → verdict_of h v2 → v1 = v2.
Proof. intros [] []; done. Qed.

(** ** The end of the run *)

Lemma clean_error_at p code det m v : clean (error_at p code det m v) ↔ False.
Proof. unfold error_at. rewrite clean_push. by split; [intros [_ ?]|]. Qed.

#[export] Hint Rewrite clean_error_at : clean.

Lemma clean_run_end_fold p l v :
  clean (foldl (λ w ids,
    if s_finished ids.2 then w
    else error_at p D_LIFECYCLE_INVALID (Some SESSION_NOT_FINISHED_AT_RUN_END)
           (js "run.finished while session " ++ ids.1 ++ js " is still open") w) v l) ↔
  clean v ∧ ∀ ids : str * SessionState, ids ∈ l → s_finished ids.2 = true.
Proof.
  revert v. induction l as [|x l IH]; intros v; simpl; [set_solver|].
  rewrite IH. destruct (s_finished x.2) eqn:E; [set_solver|].
  rewrite clean_error_at. split; [by intros [[] _]|]. intros [_ H].
  rewrite (H x) in E by (by left). done.
Qed.

(** States that differ in their diagnostics only. *)
Definition same_but_diagnostics (v w : RunValidator) : Prop :=
  w = v <| diagnostics := diagnostics w |> ∧ (clean w → clean v).

#[export] Instance same_but_diagnostics_preorder : PreOrder same_but_diagnostics.
Proof.
  split; [by intros v; split; [destruct v|]|]. intros u v w [H1 H2] [H3 H4]. split; [|tauto].
  rewrite H3, H1. done.
Qed.

Lemma same_push d v : same_but_diagnostics v (push_diag d v).
Proof. split; [done|]. by intros [? _]%clean_push. Qed.

Lemma same_run_end v : same_but_diagnostics v (checkRunEnd v).
Proof.
  unfold checkRunEnd. destruct (runFinished v) as [p|]; [|done]. generalize (sessions v).
  intros l. revert v. induction l as [|x l IH]; intros v; simpl; [done|].
  etrans; [|apply IH]. destruct (s_finished x.2); [done|]. apply same_push.
Qed.

Lemma same_remembers o v w g : same_but_diagnostics v w → Remembers o v g → Remembers o w g.
Proof.
  intros [H _] HR. rewrite H. apply (Remembers_same o v); try done.
  apply (Counted_same v); try done. apply HR.
Qed.

Lemma checkRunEnd_iff o v g :
  Remembers o v g → clean (checkRunEnd v) ↔ clean v ∧ ends_well g.*1.
Proof.
  intros HR. unfold checkRunEnd, ends_well. pose proof (tb_end _ _ (rm_tables _ _ _ HR)) as He.
  destruct (runFinished v) as [p|].
  - rewrite clean_run_end_fold, (sessions_finished_iff _ _ _ HR).
    assert (is_Some (run_finished g.*1)) by (apply He; eauto). naive_solver.
  - split; [|by intros []]. intros Hc. split; [done|]. intros Hs. apply He in Hs. by destruct Hs.
Qed.

(** ** The attachments *)

Definition declared (a : DeclaredAttachment) : str * Z := (da_sha256 a, da_sizeBytes a).

Lemma clean_attachment_missing a v : clean (attachment_missing a v) ↔ False.
Proof. apply clean_error_at. Qed.
Lemma clean_attachment_unsafe a k v : clean (attachment_unsafe a k v) ↔ False.
Proof. apply clean_error_at. Qed.
Lemma clean_refuseEntry p k b v : clean (refuseEntry p k b v) ↔ False.
Proof. unfold refuseEntry. rewrite clean_push. by split; [intros [_ ?]|]. Qed.

Lemma checkAttachment_spec fs dir a v v' :
  checkAttachment fs dir a v = Ok v' →
  same_but_diagnostics v v' ∧ (clean v' ↔ clean v ∧ stored fs dir (declared a)).
Proof.
  unfold checkAttachment, stored. simpl. intros H. apply bind_Ok_inv in H as (k & Hk & H). rewrite Hk.
  destruct k as [|[]].
  - simplify_eq. split; [apply same_push|]. rewrite clean_attachment_missing. naive_solver.
  - simplify_eq. split; [apply same_push|]. rewrite clean_attachment_unsafe. naive_solver.
  - apply bind_Ok_inv in H as (opened & Ho & H). rewrite Ho. destruct opened as [f|[|k]].
    + injection H as <-. split.
      { destruct (_ =? _), (str_eqb _ _); try done; try apply same_push. etrans; apply same_push. }
      unfold str_eqb. destruct (Z.eqb_spec (of_size f) (da_sizeBytes a)); case_bool_decide;
        rewrite ?clean_error_at; naive_solver.
    + simplify_eq. split; [apply same_push|]. rewrite clean_attachment_missing. naive_solver.
    + simplify_eq. split; [apply same_push|]. rewrite clean_attachment_unsafe. naive_solver.
  - simplify_eq. split; [apply same_push|]. rewrite clean_attachment_unsafe. naive_solver.
  - simplify_eq. split; [apply same_push|]. rewrite clean_attachment_unsafe. naive_solver.
Qed.

Lemma checkEach_spec fs dir l v v' :
  checkEach fs dir l v = Ok v' →
  same_but_diagnostics v v' ∧ (clean v' ↔ clean v ∧ Forall (stored fs dir) (declared <$> l)).
Proof.
  revert v. induction l as [|a l IH]; intros v H; simpl in H.
  - simplify_eq. split; [done|]. csimpl. rewrite Forall_nil. tauto.
  - apply bind_Ok_inv in H as (v1 & H1 & H2). apply checkAttachment_spec in H1 as [S1 C1].
    apply IH in H2 as [S2 C2]. split; [by etrans|]. csimpl. rewrite Forall_cons, C2, C1. tauto.
Qed.

Lemma checkAttachments_spec fs o v g v' :
  Remembers o v g → attachmentsDirRefused v = false → checkAttachments fs v = Ok v' →
  Remembers o v' g ∧
  (clean v' ↔ clean v ∧ attachments_stored fs (opt_attachmentsDir o) g.*1).
Proof.
  intros HR Href. unfold checkAttachments, attachments_stored. rewrite (rm_options _ _ _ HR).
  destruct (opt_attachmentsDir o) as [dir|]; [|intros; simplify_eq; naive_solver].
  intros H. apply bind_Ok_inv in H as (k & Hk & H). rewrite Hk.
  pose proof (ct_attachments _ _ (rm_counted _ _ _ HR)) as Hat.
  change (declared <$> attachments v = omap declares g.*1) in Hat.
  assert (∀ v', checkEach fs dir (attachments v) v = Ok v' → Remembers o v' g ∧
    (clean v' ↔ clean v ∧ Forall (stored fs dir) (omap declares g.*1))) as Heach.
  { intros w [Hs Hc]%checkEach_spec. rewrite <-Hat. split; [by eapply same_remembers|done]. }
  assert (∀ k v', Ok (if (0 <? length (attachments v))%nat && negb (attachmentsDirRefused v)
       then (refuseEntry dir k true v) <| attachmentsDirRefused := true |> else v) = Ok (E := Errno) v' →
    Remembers o v' g ∧ (clean v' ↔ clean v ∧ omap declares g.*1 = [])) as Hbad.
  { intros k' w [= <-]. rewrite <-Hat, Href.
    destruct (attachments v) as [|x l] eqn:E; simpl; [naive_solver|]. split.
    - apply (Remembers_same o v); try done. apply (Counted_same v); [done..|apply HR].
    - change (clean (refuseEntry dir k' true v) ↔ clean v ∧ declared x :: (declared <$> l) = []).
      rewrite clean_refuseEntry. naive_solver. }
  destruct k as [|[]]; eauto.
Qed.

(** ** The report *)

Lemma same_incomplete v : same_but_diagnostics v (reportIncomplete v).
Proof. unfold reportIncomplete. destruct (is_complete v); [done|]. apply same_push. Qed.

Lemma reportIncomplete_iff o v g :
  Remembers o v g →
  clean (reportIncomplete v) ↔ clean v ∧ (opt_requireComplete o = true → complete g.*1).
Proof.
  intros HR. unfold reportIncomplete. rewrite <-(is_complete_iff _ _ _ HR), (rm_options _ _ _ HR).
  destruct (is_complete v); [naive_solver|]. rewrite clean_push.
  destruct (opt_requireComplete o); simpl; unfold is_error; simpl; naive_solver.
Qed.

(** What starts attempts and sessions. *)
Definition started_attempt_id (e : AnyEvent) : option str :=
  match e with Known {| e_payload := AttemptStarted p |} => Some (as_attemptId p) | _ => None end.
Definition started_session_id (e : AnyEvent) : option str :=
  match e with Known {| e_env := env; e_payload := SessionStarted _ |} => Some (sessionId env) | _ => None end.

Lemma length_same_set {A} (l l' : list A) :
  NoDup l → NoDup l' → (∀ x, x ∈ l ↔ x ∈ l') → length l = length l'.
Proof. intros H1 H2 H. by apply Permutation_length, NoDup_Permutation. Qed.

Lemma started_attempt_ids h id : id ∈ omap started_attempt_id h ↔ is_Some (att_started h id).
Proof.
  rewrite list_elem_of_omap. split.
  - intros (e & He & Hid). unfold att_started. apply (find_map_hit _ _ e He).
    destruct e as [[env []]|]; simpl in *; try done. injection Hid as ->. rewrite str_eqb_refl. eauto.
  - intros [x (e & He & Hx)%find_map_Some]. exists e. split; [done|].
    destruct e as [[env []]|]; simpl in *; try done. destruct (str_eqb _ id) eqn:E; [|done].
    apply str_eqb_eq in E. by subst.
Qed.

Lemma started_session_ids h sid : sid ∈ omap started_session_id h ↔ is_Some (sess_started h sid).
Proof.
  rewrite list_elem_of_omap. split.
  - intros (e & He & Hid). unfold sess_started. apply (find_map_hit _ _ e He).
    destruct e as [[env []]|]; simpl in *; try done. injection Hid as ->. rewrite str_eqb_refl. eauto.
  - intros [x (e & He & Hx)%find_map_Some]. exists e. split; [done|].
    destruct e as [[env []]|]; simpl in *; try done. destruct (str_eqb _ sid) eqn:E; [|done].
    apply str_eqb_eq in E. by subst.
Qed.

Lemma NoDup_snoc_option {A} (l : list A) (o : option A) :
  NoDup l → (∀ x, o = Some x → x ∉ l) → NoDup (l ++ option_list o).
Proof.
  intros Hl Ho. destruct o as [x|]; simpl; [|by rewrite app_nil_r].
  apply NoDup_app. split_and!; [done| |apply NoDup_singleton].
  intros y Hy ->%list_elem_of_singleton. by apply (Ho x).
Qed.

Lemma omap_snoc {A B} (f : A → option B) l x : omap f (l ++ [x]) = omap f l ++ option_list (f x).
Proof. rewrite omap_app. csimpl. by destruct (f x). Qed.

(** Each starts once. *)
Lemma started_attempts_once h : valid_history h → NoDup (omap started_attempt_id h).
Proof.
  induction 1 as [|h e Hv IH (_ & _ & Hp)]; [constructor|]. rewrite omap_snoc. apply NoDup_snoc_option; [done|].
  intros id Hid. rewrite started_attempt_ids. destruct e as [[env []]|]; simpl in *; try done.
  injection Hid as <-. destruct Hp as (-> & _). by intros [].
Qed.

Lemma started_sessions_once h : valid_history h → NoDup (omap started_session_id h).
Proof.
  induction 1 as [|h e Hv IH (_ & Hs & _)]; [constructor|]. rewrite omap_snoc. apply NoDup_snoc_option; [done|].
  intros id Hid. rewrite started_session_ids. destruct e as [[env []]|]; simpl in *; try done.
  injection Hid as <-. destruct Hs as (Hs & _). simpl in Hs. rewrite Hs. by intros [].
Qed.

(** The tables hold one entry for each. *)
Lemma attempts_counted o v g :
  Remembers o v g → length (attempts v) = length (omap started_attempt_id g.*1).
Proof.
  intros HR. rewrite <- (length_fmap fst (attempts v)).
  apply length_same_set; [apply HR|apply started_attempts_once, HR|].
  intros id. rewrite started_attempt_ids. fold (mkeys (attempts v)). rewrite <- mget_is_Some.
  destruct (tb_attempts _ _ (rm_tables _ _ _ HR) id); split; (by intros []) || eauto.
Qed.

Lemma sessions_counted o v g :
  Remembers o v g → length (sessions v) = length (omap started_session_id g.*1).
Proof.
  intros HR. rewrite <- (length_fmap fst (sessions v)).
  apply length_same_set; [apply HR|apply started_sessions_once, HR|].
  intros id. rewrite started_session_ids. fold (mkeys (sessions v)). rewrite <- mget_is_Some.
  rewrite (rm_sessions _ _ _ HR). unfold session_view. apply fmap_is_Some.
Qed.

(** What a report says of the history it was made from: its verdict, and every counter that is the
    history's. *)
Record reports (h : history) (r : Report) : Prop := {
  rp_verdict : verdict_of h (sm_verdict (r_summary r));
  rp_complete : sm_complete (r_summary r) = true ↔ complete h;
  rp_closed : sm_closed (r_summary r) = true ↔ is_Some (run_finished h);
  rp_events : sm_events (r_summary r) = Z.of_nat (length h);
  rp_steps : sm_steps (r_summary r) = tally is_step_started h;
  rp_scopeFailures : sm_scopeFailures (r_summary r) = tally is_scope_failed h;
  rp_failedAttempts : sm_failedAttempts (r_summary r) = tally is_failed_attempt h;
  rp_sessionFailures : sm_sessionFailures (r_summary r) = tally session_failures h;
  rp_attachments : sm_attachments (r_summary r) = Z.of_nat (length (omap declares h));
  rp_attempts : sm_attempts (r_summary r) = Z.of_nat (length (omap started_attempt_id h));
  rp_sessions : sm_sessions (r_summary r) = Z.of_nat (length (omap started_session_id h));
  rp_failedSessions : sm_failedSessions (r_summary r) = tally (is_session_with SeFailed) h;
  rp_inconclusiveSessions : sm_inconclusiveSessions (r_summary r) = tally (is_session_with SeInconclusive) h;
  rp_ignored : sm_ignored (r_summary r) = tally is_unknown h;
}.

(** And of the reading: the files, and, over them, every line that is not blank, an event or a copy. *)
Record tallies (texts : list (list str)) (r : Report) : Prop := {
  co_files : sm_files (r_summary r) = Z.of_nat (length texts);
  co_lines : sm_events (r_summary r) + sm_duplicates (r_summary r) = counted_lines (mjoin texts);
}.

Lemma report_spec o v g :
  Remembers o v g → ignored v = tally is_unknown g.*1 → reports g.*1 (report v).
Proof.
  intros HR Hig. pose proof (rm_counted _ _ _ HR) as HC. split; simpl; try apply HC.
  - by apply (verdict_spec o).
  - by apply (is_complete_iff o).
  - rewrite bool_decide_eq_true. apply (rm_tables _ _ _ HR).
  - rewrite (rm_events _ _ _ HR). by rewrite length_fmap.
  - rewrite <-(ct_attachments _ _ (rm_counted _ _ _ HR)). by rewrite length_fmap.
  - by rewrite (attempts_counted _ _ _ HR).
  - by rewrite (sessions_counted _ _ _ HR).
  - exact Hig.
Qed.

Lemma same_steady v w : same_but_diagnostics v w → steady v w.
Proof. by intros [-> _]. Qed.

Lemma checkAttachments_steady fs v v' : checkAttachments fs v = Ok v' → steady v v'.
Proof.
  unfold checkAttachments. destruct (opt_attachmentsDir (options v)) as [dir|]; [|by intros [= <-]].
  intros H. apply bind_Ok_inv in H as (k & _ & H). revert H.
  assert (∀ (b : bool) k, Ok (E := Errno) (if b
       then (refuseEntry dir k true v) <| attachmentsDirRefused := true |> else v) = Ok v' → steady v v') as Hbad
    by (by intros [] k' [= <-]).
  destruct k as [|[]]; try apply Hbad; by intros [H _]%checkEach_spec; apply same_steady.
Qed.

Lemma finish_spec fs o v g r :
  Remembers o v g → ignored v = tally is_unknown g.*1 → attachmentsDirRefused v = false → clean v →
  finish fs v = Ok r →
  reports g.*1 r ∧ sm_files (r_summary r) = files v ∧ sm_duplicates (r_summary r) = duplicates v ∧
  (r_valid r = true ↔
   ends_well g.*1 ∧ attachments_stored fs (opt_attachmentsDir o) g.*1 ∧
   (opt_requireComplete o = true → complete g.*1)).
Proof.
  intros HR Hig Href Hc H. unfold finish in H. apply bind_Ok_inv in H as (v1 & H1 & [= <-]).
  assert (steady v (reportIncomplete v1)) as (S1 & S2 & S3).
  { etrans; [apply same_steady, same_run_end|]. etrans; [by eapply checkAttachments_steady|].
    apply same_steady, same_incomplete. }
  pose proof (same_remembers o _ _ g (same_run_end v) HR) as HR0.
  apply (checkAttachments_spec fs o _ g) in H1 as [HR1 C1]; [|done|].
  2:{ destruct (same_run_end v) as [-> _]. done. }
  pose proof (same_remembers o _ _ g (same_incomplete v1) HR1) as HR2.
  split; [apply (report_spec o); [done|by rewrite S3]|]. split; [exact S1|]. split; [exact S2|].
  change (r_valid (report (reportIncomplete v1))) with (negb (existsb is_error (diagnostics (reportIncomplete v1)))).
  rewrite negb_true_iff. change (clean (reportIncomplete v1) ↔ ends_well g.*1 ∧
    attachments_stored fs (opt_attachmentsDir o) g.*1 ∧ (opt_requireComplete o = true → complete g.*1)).
  rewrite (reportIncomplete_iff o v1 g HR1), C1, (checkRunEnd_iff o v g HR). tauto.
Qed.

(** An error found while reading is in the report. *)
Lemma finish_unclean fs v r : finish fs v = Ok r → r_valid r = true → clean v.
Proof.
  unfold finish. intros H Hr. apply bind_Ok_inv in H as (v1 & H1 & [= <-]).
  unfold report in Hr. simpl in Hr. apply negb_true_iff in Hr.
  apply (same_incomplete v1) in Hr. apply (same_run_end v). revert H1 Hr.
  generalize (checkRunEnd v). clear v. intros v.
  unfold checkAttachments. destruct (opt_attachmentsDir (options v)) as [dir|]; [|by intros [= <-]].
  intros H. apply bind_Ok_inv in H as (k & _ & H). revert H.
  assert (∀ (b : bool) k, Ok (E := Errno) (if b
       then (refuseEntry dir k true v) <| attachmentsDirRefused := true |> else v) = Ok v1 →
    clean v1 → clean v) as Hbad.
  { intros b k' H. injection H as <-. destruct b; [|done]. intros Hc. exfalso.
    exact (proj1 (clean_refuseEntry dir k' true v) Hc). }
  destruct k as [|[]]; try apply Hbad; by intros [_ H]%checkEach_spec; rewrite H; intros [].
Qed.

(** ** The event files of a run directory *)

Section directory.
Context (json_parse : str → json + str).
Context (schema : option str → json → option (list ErrorObject)).
Context (sha : str → str) (fs : FileSystem).

(** The files of the events directory, read in turn: each is gone, or a regular
    file with one session. *)
Inductive reads_entries (limit : Z) (dir : str) : list reading → list str → list reading → Prop :=
| reads_no_entry g : reads_entries limit dir g [] g
| reads_gone g g' name names :
    entryKind fs (fsys_join fs dir name) = Ok EMissing ∨
    entryKind fs (fsys_join fs dir name) = Ok (EKind KFile) ∧
      openRegular fs (fsys_join fs dir name) = Ok (inr EMissing) →
    reads_entries limit dir g names g' → reads_entries limit dir g (name :: names) g'
| reads_entry g g1 g' name names f :
    entryKind fs (fsys_join fs dir name) = Ok (EKind KFile) →
    openRegular fs (fsys_join fs dir name) = Ok (inl f) →
    reads_file json_parse schema limit true g (split_on 10 (of_text f)) g1 →
    reads_entries limit dir g1 names g' → reads_entries limit dir g (name :: names) g'.

Lemma feed_grows file single lines v : grows v (feed json_parse schema sha lines file single v).
Proof.
  unfold feed. etrans; [|apply grows_feedLines]. apply (grows_same v v); done.
Qed.

Lemma feedEntry_grows dir name v v' :
  feedEntry json_parse schema sha fs dir name v = Ok v' → grows v v'.
Proof.
  unfold feedEntry. intros H. apply bind_Ok_inv in H as (k & _ & H). destruct k as [|[]];
    try (injection H as <-; try done; apply grows_push).
  apply bind_Ok_inv in H as (opened & _ & H).
  destruct opened as [f|[|k]]; injection H as <-; [apply feed_grows|done|apply grows_push].
Qed.

Lemma feedEntries_grows dir names v v' :
  feedEntries json_parse schema sha fs dir names v = Ok v' → grows v v'.
Proof.
  revert v. induction names as [|name names IH]; intros v H; simpl in H; [by simplify_eq|].
  apply bind_Ok_inv in H as (v1 & H1 & H2). apply feedEntry_grows in H1. apply IH in H2. by etrans.
Qed.

Abbreviation limit_of o := (default maxEventBytes_limit (opt_maxEventBytes o)).

Lemma feedEntries_iff o dir names v v' g :
  Remembers o v g → clean v → feedEntries json_parse schema sha fs dir names v = Ok v' →
  (clean v' ↔ ∃ g', reads_entries (limit_of o) dir g names g') ∧
  ∀ g', reads_entries (limit_of o) dir g names g' → Remembers o v' g'.
Proof.
  revert v g. induction names as [|name names IH]; intros v g HR Hc H; simpl in H.
  { simplify_eq. split; [split; [|done]; eexists; constructor|]. intros g' Hg. by inversion Hg; subst. }
  apply bind_Ok_inv in H as (v1 & H1 & H2). unfold feedEntry in H1.
  assert (∀ p k b, v1 = refuseEntry p k b v → ¬ clean v') as Hbad.
  { intros p k b -> Hc'. apply feedEntries_grows in H2. apply (grows_clean _ _ H2) in Hc'.
    by apply clean_refuseEntry in Hc'. }
  apply bind_Ok_inv in H1 as (k & Hk & H1). destruct k as [|k].
  { injection H1 as <-. destruct (IH v g HR Hc H2) as [I1 I2]. split.
    - rewrite I1. split; intros [g' Hg]; exists g'; [by apply reads_gone; [left|]|].
      inversion Hg; subst; [done|congruence].
    - intros g' Hg. inversion Hg; subst; [auto|congruence]. }
  assert (k ≠ KFile → v1 = refuseEntry (fsys_join fs dir name) k false v) as Hk'.
  { intros Hne. destruct k; congruence || (by injection H1 as <-). }
  destruct (decide (k = KFile)) as [->|Hne].
  2:{ specialize (Hbad _ _ _ (Hk' Hne)). split; [split; [done|]|].
    - intros [g' Hg]. inversion Hg; subst; intuition congruence.
    - intros g' Hg. inversion Hg; subst; intuition congruence. }
  apply bind_Ok_inv in H1 as (opened & Ho & H1). destruct opened as [f|[|k]]; injection H1 as <-.
  - pose proof (feed_iff json_parse schema sha (fsys_join fs dir name) true o
      (split_on 10 (of_text f)) v g HR Hc) as Hf.
    split.
    + split.
      * intros Hc'. pose proof (grows_clean _ _ (feedEntries_grows _ _ _ _ H2) Hc') as Hc1.
        destruct (proj1 Hf Hc1) as [g1 Hg1].
        destruct (IH _ g1 (feed_remembers _ _ _ _ _ _ _ _ _ _ HR Hg1) Hc1 H2) as [I1 _].
        destruct (proj1 I1 Hc') as [g' Hg']. exists g'. by eapply reads_entry.
      * intros [g' Hg]. inversion Hg as [|?? ?? [|[]]|? g1 ??? f' ? Ho' Hg1 Hg2]; subst; try congruence.
        assert (f' = f) as -> by congruence.
        destruct (IH _ g1 (feed_remembers _ _ _ _ _ _ _ _ _ _ HR Hg1) (proj2 Hf (ex_intro _ _ Hg1)) H2) as [I1 _].
        apply I1. eauto.
    + intros g' Hg. inversion Hg as [|?? ?? [|[]]|? g1 ??? f' ? Ho' Hg1 Hg2]; subst; try congruence.
      assert (f' = f) as -> by congruence.
      destruct (IH _ g1 (feed_remembers _ _ _ _ _ _ _ _ _ _ HR Hg1) (proj2 Hf (ex_intro _ _ Hg1)) H2) as [_ I2].
      auto.
  - destruct (IH v g HR Hc H2) as [I1 I2]. split.
    + rewrite I1. split; intros [g' Hg]; exists g'; [by apply reads_gone; [right|]|].
      inversion Hg; subst; [done|congruence].
    + intros g' Hg. inversion Hg; subst; [auto|congruence].
  - specialize (Hbad _ _ _ eq_refl). split; [split; [done|]|].
    + intros [g' Hg]. inversion Hg; subst; intuition congruence.
    + intros g' Hg. inversion Hg; subst; intuition congruence.
Qed.

(** The lines of the files opened, in turn. *)
Definition entry_lines (dir name : str) : option (list str) :=
  match entryKind fs (fsys_join fs dir name) with
  | Ok (EKind KFile) =>
      match openRegular fs (fsys_join fs dir name) with
      | Ok (inl f) => Some (split_on 10 (of_text f))
      | _ => None
      end
  | _ => None
  end.

Lemma counted_lines_app l l' : counted_lines (l ++ l') = counted_lines l + counted_lines l'.
Proof. unfold counted_lines. rewrite List.filter_app, length_app. lia. Qed.

Lemma feedEntries_add o dir names v v' g g' :
  Remembers o v g → reads_entries (limit_of o) dir g names g' →
  feedEntries json_parse schema sha fs dir names v = Ok v' →
  let texts := omap (entry_lines dir) names in
  files v' = files v + Z.of_nat (length texts) ∧
  Z.of_nat (length g') + duplicates v' = Z.of_nat (length g) + duplicates v + counted_lines (mjoin texts) ∧
  ignored v' - tally is_unknown g'.*1 = ignored v - tally is_unknown g.*1.
Proof.
  intros HR Hg. revert v HR. induction Hg as [g|g g' name names Hgone Hg IH|g g1 g' name names f Hk Ho Hf Hg IH];
    intros v HR H; cbv zeta in *; simpl in H.
  - simplify_eq. simpl. unfold counted_lines. simpl. split_and!; lia.
  - assert (entry_lines dir name = None) as En.
    { unfold entry_lines. destruct Hgone as [->|[-> ->]]; done. }
    assert (feedEntry json_parse schema sha fs dir name v = Ok v) as E1.
    { unfold feedEntry. destruct Hgone as [->|[-> H1]]; [done|]. simpl. by rewrite H1. }
    rewrite E1 in H. simpl in H. csimpl. rewrite En. by apply IH.
  - assert (entry_lines dir name = Some (split_on 10 (of_text f))) as En.
    { unfold entry_lines. by rewrite Hk, Ho. }
    unfold feedEntry in H. rewrite Hk in H. simpl in H. rewrite Ho in H. simpl in H.
    destruct (feed_adds json_parse schema sha (fsys_join fs dir name) true o _ v g g1 HR Hf) as (A1 & A2 & A3).
    apply IH in H as (B1 & B2 & B3); [|by eapply feed_remembers].
    csimpl. rewrite En. csimpl. rewrite counted_lines_app. split_and!; lia.
Qed.

End directory.
