(* ===== verification/ValidatorSpec.v ===== *)
(** * The validator's contract

    The theorems about whole validations, each with a concrete run it applies
    to: a report is valid exactly when the input reads as a valid history, its
    verdict and counters are the history's, what it keeps is the history, and
    reading the same lines again changes nothing. *)

From S2P Require Import Prelude JsString JsMap JsSort Json Model Codec CodecProps History Validator ValidatorRun Demo ValidatorTables ValidatorSound ValidatorReport.

Local Open Scope Z_scope.

(** ** Helper lemmas *)

Section replay.
Context (json_parse : str → json + str).
Context (schema : option str → json → option (list ErrorObject)).
Context (limit : Z) (single : bool).
Abbreviation reads := (reads_lines json_parse schema limit single).

Lemma reads_lines_app r l1 r1 l2 r2 : reads r l1 r1 → reads r1 l2 r2 → reads r (l1 ++ l2) r2.
Proof. induction 1 as [|r r' r'' raw lines H1 H2 IH]; simpl; [done|]. intros. econstructor; eauto. Qed.

(** A line that reads to nothing new: blank, or a copy. *)
Definition settled (r : Reading) (raw : str) : Prop := reads_line json_parse schema limit single r raw r.

Lemma settled_later r raw r1 raw' :
  settled r raw → reads_line json_parse schema limit single r raw' r1 → settled r1 raw.
Proof.
  intros Hs Hr. destruct Hr as [|r raw' e parsed Hb Hl Hk|r raw' e parsed Hb Hl Ha Hc Hm]; [done|done|].
  inversion Hs as [? ? Hb'|? ? e' parsed' Hb' Hl' Hk'|? ? e' parsed' Hb' Hl' Ha' Hc' Hm']; subst.
  - by apply reads_blank.
  - eapply reads_copy; [done|exact Hl'|]. simpl. by rewrite find_map_snoc, Hk'.
  - match goal with Heq : _ = r |- _ => apply (f_equal (λ r, length (rd_events r))) in Heq; simpl in Heq; rewrite length_app in Heq; simpl in Heq; lia end.
Qed.

Lemma read_settled r raw r1 : reads_line json_parse schema limit single r raw r1 → settled r1 raw.
Proof.
  intros Hr. destruct Hr as [|r raw e parsed Hb Hl Hk|r raw e parsed Hb Hl Ha Hc Hm].
  - by apply reads_blank.
  - by eapply reads_copy.
  - eapply reads_copy; [done|exact Hl|]. simpl. destruct Ha as ((_ & Hid) & _).
    rewrite find_map_snoc, (proj2 (fresh_ids _ _) Hid). unfold keyed. simpl. by rewrite str_eqb_refl.
Qed.

Lemma reads_settled r lines r1 raw :
  reads r lines r1 → (raw ∈ lines ∨ settled r raw) → settled r1 raw.
Proof.
  induction 1 as [|r r' r'' raw' lines H1 H2 IH]; [intros [?%elem_of_nil|?]; done|].
  intros [[->|Hin]%elem_of_cons|Hs]; apply IH; [right; by eapply read_settled|by left|].
  right. by eapply settled_later.
Qed.

Lemma settled_reads r lines : Forall (settled r) lines → reads r lines r.
Proof. induction 1; econstructor; eauto. Qed.

Lemma reads_file_repeat g lines g' :
  reads_file json_parse schema limit single g lines g' →
  reads_file json_parse schema limit single g (lines ++ lines) g'.
Proof.
  intros (s & c & Hr). exists s, c. eapply reads_lines_app; [exact Hr|].
  apply settled_reads, Forall_forall. intros raw Hin. eapply reads_settled; eauto.
Qed.
End replay.

Section functional.
Context (json_parse : str → json + str).
Context (schema : option str → json → option (list ErrorObject)).
Context (limit : Z) (single : bool).

(** A line reads in one way. *)
Lemma reads_line_functional r raw r1 r2 :
  reads_line json_parse schema limit single r raw r1 →
  reads_line json_parse schema limit single r raw r2 → r1 = r2.
Proof.
  intros H1 H2. destruct H1 as [|r raw e parsed Hb Hl Hk|r raw e parsed Hb Hl Ha Hc Hm];
    inversion H2 as [? ? Hb'|? ? e' parsed' Hb' Hl' Hk'|? ? e' parsed' Hb' Hl' Ha' Hc' Hm']; subst;
    try congruence; assert (e' = e ∧ parsed' = parsed) as [-> ->] by (split; congruence).
  - destruct Ha' as ((_ & Hid) & _). rewrite (proj2 (fresh_ids _ _) Hid) in Hk. done.
  - destruct Ha as ((_ & Hid) & _). rewrite (proj2 (fresh_ids _ _) Hid) in Hk'. done.
  - done.
Qed.

Lemma reads_lines_functional r lines r1 r2 :
  reads_lines json_parse schema limit single r lines r1 →
  reads_lines json_parse schema limit single r lines r2 → r1 = r2.
Proof.
  intros H1. revert r2. induction H1 as [|r r' r'' raw lines Hl Hr IH]; intros r2 H2;
    inversion H2 as [|? r3 ? ? ? Hl' Hr']; subst; [done|].
  apply IH. by rewrite (reads_line_functional _ _ _ _ Hl Hl').
Qed.

Lemma reads_file_functional g lines g1 g2 :
  reads_file json_parse schema limit single g lines g1 →
  reads_file json_parse schema limit single g lines g2 → g1 = g2.
Proof.
  intros (s1 & c1 & H1) (s2 & c2 & H2). pose proof (reads_lines_functional _ _ _ _ H1 H2). congruence.
Qed.
End functional.

Section whole.
Context (json_parse : str → json + str).
Context (schema : option str → json → option (list ErrorObject)).
Context (sha : str → str) (fs : FileSystem) (o : ValidateOptions).
Abbreviation limit := (default maxEventBytes_limit (opt_maxEventBytes o)).

Lemma validateLines_cases lines file r :
  validateLines json_parse schema sha fs lines o file = Ok r →
  (∀ g, reads_file json_parse schema limit false [] lines g →
     valid_history g.*1 ∧ reports g.*1 r ∧
     (r_valid r = true ↔ ends_well g.*1 ∧ attachments_stored fs (opt_attachmentsDir o) g.*1 ∧
        (opt_requireComplete o = true → complete g.*1))) ∧
  (r_valid r = true → ∃ g, reads_file json_parse schema limit false [] lines g).
Proof.
  unfold validateLines. intros H. pose proof (new_validator_remembers o) as HR.
  pose proof (feed_iff json_parse schema sha file false o lines _ _ HR eq_refl) as Hf. split.
  - intros g Hg. pose proof (feed_remembers json_parse schema sha file false o _ _ _ _ HR Hg) as HR'.
    destruct (feed_adds json_parse schema sha file false o lines _ [] g HR Hg) as (_ & _ & Hig). simpl in Hig.
    split; [apply HR'|].
    destruct (finish_spec fs o _ g r HR') as (F1 & _ & _ & F2); [| |apply Hf; eauto|exact H|by split].
    + unfold tally in Hig at 2. simpl in Hig. lia.
    + apply (feed_grows json_parse schema sha file false lines (new_validator o)).
  - intros Hr. apply Hf. by eapply finish_unclean.
Qed.

Lemma snapshot_cases dir vr :
  validateRunDirectorySnapshot json_parse schema sha fs dir o = Ok vr →
  let eventsDir := fsys_join fs dir (js "events") in
  let names ns := sort compare (List.filter is_ndjson ns) in
  ∃ attachmentsDir,
    (attachmentsDir = match opt_attachmentsDir o with
       | None => fsys_join fs dir (js "attachments")
       | Some d => match trustedDirectory fs d with Ok p => p | Throw _ => d end end) ∧
    let o' := o <| opt_attachmentsDir := Some attachmentsDir |> <| opt_retainEvents ::= λ r, Some (default true r) |> in
    (entryKind fs eventsDir = Ok (EKind KDirectory) →
     ∀ ns g, fsys_readdir fs eventsDir = Ok ns →
     reads_entries json_parse schema fs limit eventsDir [] (names ns) g →
     valid_history g.*1 ∧ reports g.*1 (vr_report vr) ∧
     tallies (omap (entry_lines fs eventsDir) (names ns)) (vr_report vr) ∧
     (default true (opt_retainEvents o) = true → vr_events vr = omap known g.*1) ∧
     (r_valid (vr_report vr) = true ↔
        ends_well g.*1 ∧ attachments_stored fs (Some attachmentsDir) g.*1 ∧
        (opt_requireComplete o = true → complete g.*1))) ∧
    (r_valid (vr_report vr) = true →
       entryKind fs eventsDir = Ok (EKind KDirectory) ∧
       ∃ ns g, fsys_readdir fs eventsDir = Ok ns ∧
         reads_entries json_parse schema fs limit eventsDir [] (names ns) g).
Proof.
  unfold validateRunDirectorySnapshot. intros H. cbv zeta.
  apply bind_Ok_inv in H as (k & Hk & H). destruct k as [|k]; [done|].
  apply bind_Ok_inv in H as (ad & Had & H). cbv zeta in H. exists ad. split.
  { destruct (opt_attachmentsDir o); [|by injection Had]. by rewrite Had. }
  set (o' := (o <| opt_attachmentsDir := _ |>) <| opt_retainEvents ::= _ |>) in *.
  pose proof (new_validator_remembers o') as HR. rewrite Hk.
  destruct (decide (k = KDirectory)) as [->|Hne].
  - rewrite bool_decide_true in H by done.
    apply bind_Ok_inv in H as (ns & Hns & H).
    apply bind_Ok_inv in H as (v & Hv & H). apply bind_Ok_inv in H as (r & Hr & [= <-]). simpl.
    destruct (feedEntries_iff json_parse schema sha fs o' _ _ _ v [] HR eq_refl Hv) as [I1 I2]. split.
    + intros _ ns' g Hns' Hg. assert (ns' = ns) as -> by congruence. specialize (I2 g Hg).
      destruct (feedEntries_add json_parse schema sha fs o' _ _ _ v [] g HR Hg Hv) as (A1 & A2 & A3).
      destruct (finish_spec fs o' v g r I2) as (F1 & F2 & F3 & F4); [| |apply I1; eauto|exact Hr|].
      { simpl in A3. unfold tally in A3 at 2. simpl in A3. lia. }
      { apply feedEntries_grows in Hv. apply Hv. }
      split; [apply I2|]. split; [done|]. split.
      { constructor; [rewrite F2, A1; simpl; lia|].
        rewrite F3, (rp_events _ _ F1), length_fmap. simpl in A2. lia. }
      split; [|exact F4].
      intros Hret. apply (rm_accepted _ _ _ I2). simpl. by rewrite Hret.
    + intros Hval. split; [done|]. destruct I1 as [I1 _]. destruct I1 as [g Hg]; [by eapply finish_unclean|].
      exists ns, g. by split.
  - rewrite bool_decide_false in H by done. apply bind_Ok_inv in H as (r & Hr & [= <-]). simpl.
    split; [congruence|]. intros Hval. exfalso. apply (finish_unclean _ _ _ Hr) in Hval.
    by apply clean_refuseEntry in Hval.
Qed.
End whole.

(** ** Properties *)

(** [validateLines] reports [valid] exactly when the lines can be read, one by one, as
    blank lines, copies and events the lifecycle allows next, the run ends well, every declared
    attachment is stored, and the run is complete where completeness is required. *)
Theorem validateLines_valid_iff json_parse schema sha fs lines o file r :
  validateLines json_parse schema sha fs lines o file = Ok r →
  r_valid r = true ↔
  ∃ g, reads_file json_parse schema (default maxEventBytes_limit (opt_maxEventBytes o)) false [] lines g ∧
    ends_well g.*1 ∧ attachments_stored fs (opt_attachmentsDir o) g.*1 ∧
    (opt_requireComplete o = true → complete g.*1).
Proof.
  intros H. destruct (validateLines_cases _ _ _ _ _ _ _ _ H) as [H1 H2]. split.
  - intros Hr. destruct (H2 Hr) as [g Hg]. exists g. split; [done|]. by apply (H1 g Hg).
  - intros (g & Hg & He). by apply (H1 g Hg).
Qed.

Lemma validateLines_valid_iff_witness :
  validateLines demo_parse demo_schema demo_sha demo_fs demo_lines demo_options (js "f") = Ok demo_report ∧
  ∃ g, reads_file demo_parse demo_schema maxEventBytes_limit false [] demo_lines g ∧ complete g.*1.
Proof.
  split; [exact demo_validation_ok|].
  destruct (proj1 (validateLines_valid_iff _ _ _ _ _ _ _ _ demo_validation_ok) demo_report_valid)
    as (g & Hg & _ & _ & Hc).
  exists g. split; [exact Hg|by apply Hc].
Defined.

(** Of a valid input the report tells the history: the events read form a valid history,
    and the verdict and the counters of the summary are those of that history. *)
Theorem validateLines_reports json_parse schema sha fs lines o file r :
  validateLines json_parse schema sha fs lines o file = Ok r → r_valid r = true →
  ∃ g, reads_file json_parse schema (default maxEventBytes_limit (opt_maxEventBytes o)) false [] lines g ∧
    valid_history g.*1 ∧ reports g.*1 r.
Proof.
  intros H Hr. destruct (validateLines_cases _ _ _ _ _ _ _ _ H) as [H1 H2].
  destruct (H2 Hr) as [g Hg]. exists g. destruct (H1 g Hg) as (? & ? & _). done.
Qed.

Lemma validateLines_reports_witness :
  validateLines demo_parse demo_schema demo_sha demo_fs demo_lines demo_options (js "f") = Ok demo_report ∧ r_valid demo_report = true ∧
  ∃ h, valid_history h ∧ reports h demo_report.
Proof.
  split; [exact demo_validation_ok|]. split; [exact demo_report_valid|].
  destruct (validateLines_reports _ _ _ _ _ _ _ _ demo_validation_ok demo_report_valid)
    as (g & _ & Hv & Hrep). exists g.*1. split; [exact Hv|exact Hrep].
Defined.

(** C1 A run directory is reported valid exactly when its events directory is a directory whose
    event files, in name order, read as one valid history, each file with a single session and
    nothing after the end of the run, and the run ends well with its attachments stored. *)
Theorem snapshot_valid_iff json_parse schema sha fs dir o vr :
  validateRunDirectorySnapshot json_parse schema sha fs dir o = Ok vr →
  opt_attachmentsDir o = None →
  r_valid (vr_report vr) = true ↔
  entryKind fs (fsys_join fs dir (js "events")) = Ok (EKind KDirectory) ∧
  ∃ names g, fsys_readdir fs (fsys_join fs dir (js "events")) = Ok names ∧
    reads_entries json_parse schema fs (default maxEventBytes_limit (opt_maxEventBytes o)) (fsys_join fs dir (js "events")) []
         (sort compare (List.filter is_ndjson names)) g ∧
    ends_well g.*1 ∧ attachments_stored fs (Some (fsys_join fs dir (js "attachments"))) g.*1 ∧
    (opt_requireComplete o = true → complete g.*1).
Proof.
  intros H Ho. destruct (snapshot_cases _ _ _ _ _ _ _ H) as (ad & Had & H1 & H2).
  rewrite Ho in Had. subst ad. split.
  - intros Hr. destruct (H2 Hr) as (Hk & names & g & Hn & Hg). split; [done|]. exists names, g.
    split; [exact Hn|]. split; [exact Hg|]. by apply (H1 Hk names g Hn Hg).
  - intros (Hk & names & g & Hn & Hg & He). by apply (H1 Hk names g Hn Hg).
Qed.

Lemma snapshot_valid_iff_witness :
  validateRunDirectorySnapshot demo_parse demo_schema demo_sha demo_fs (js "run") demo_options = Ok demo_run ∧
  ∃ g, reads_entries demo_parse demo_schema demo_fs maxEventBytes_limit (js "run/events") [] [js "s1.ndjson"] g.
Proof.
  split; [exact demo_snapshot_ok|].
  destruct (proj1 (snapshot_valid_iff _ _ _ _ _ _ _ demo_snapshot_ok eq_refl) demo_run_valid)
    as (_ & names & g & Hn & Hg & _). injection Hn as <-. exists g. exact Hg.
Defined.

(** C2 The snapshot of a valid run directory keeps exactly the known events of a valid history, in
    reading order, and its report tells that history's verdict and all of its counters: sessions, attempts,
    steps, attachments, failures of every kind, ignored events, and events; its files are the event files
    opened, and its events and duplicates together are their lines that are not blank. *)
Theorem snapshot_reports json_parse schema sha fs dir o vr :
  validateRunDirectorySnapshot json_parse schema sha fs dir o = Ok vr →
  default true (opt_retainEvents o) = true → r_valid (vr_report vr) = true →
  ∃ h names, valid_history h ∧ vr_events vr = omap known h ∧ reports h (vr_report vr) ∧
    fsys_readdir fs (fsys_join fs dir (js "events")) = Ok names ∧
    tallies (omap (entry_lines fs (fsys_join fs dir (js "events"))) (sort compare (List.filter is_ndjson names))) (vr_report vr).
Proof.
  intros H Hret Hr. destruct (snapshot_cases _ _ _ _ _ _ _ H) as (ad & _ & H1 & H2).
  destruct (H2 Hr) as (Hk & names & g & Hn & Hg). destruct (H1 Hk names g Hn Hg) as (? & ? & ? & He & _).
  exists g.*1, names. auto 6.
Qed.

Lemma snapshot_reports_witness :
  validateRunDirectorySnapshot demo_parse demo_schema demo_sha demo_fs (js "run") demo_options = Ok demo_run ∧
  sm_files (r_summary (vr_report demo_run)) = 1 ∧
  ∃ h, valid_history h ∧ vr_events demo_run = omap known h ∧ omap started_session_id h = [js "s1"].
Proof.
  split; [exact demo_snapshot_ok|].
  destruct (snapshot_reports _ _ _ _ _ _ _ demo_snapshot_ok eq_refl demo_run_valid)
    as (h & names & Hv & He & Hrep & Hn & Hc). injection Hn as <-. split; [exact (co_files _ _ Hc)|].
  exists h. split; [exact Hv|]. split; [exact He|].
  assert (omap started_session_id (Known <$> omap known h) = omap started_session_id h) as <-.
  { clear. induction h as [|[e|u] h IH]; [done| |exact IH]. csimpl.
    destruct (started_session_id (Known e)); simpl; by rewrite IH. }
  rewrite <- He. vm_compute. reflexivity.
Defined.

(** Replaying a log is harmless: lines that were reported valid, given twice, are reported valid
    again, with the verdict of the first report. *)
Theorem replay_is_harmless json_parse schema sha fs lines o file r r2 :
  validateLines json_parse schema sha fs lines o file = Ok r → r_valid r = true →
  validateLines json_parse schema sha fs (lines ++ lines) o file = Ok r2 →
  r_valid r2 = true ∧ sm_verdict (r_summary r2) = sm_verdict (r_summary r) ∧
  sm_events (r_summary r2) = sm_events (r_summary r).
Proof.
  intros H Hr H2. destruct (validateLines_cases _ _ _ _ _ _ _ _ H) as [C1 C2].
  destruct (C2 Hr) as [g Hg]. destruct (C1 g Hg) as (_ & Hrep & Hv).
  apply reads_file_repeat in Hg. destruct (validateLines_cases _ _ _ _ _ _ _ _ H2) as [D1 _].
  destruct (D1 g Hg) as (_ & Hrep2 & Hv2). split_and!.
  - by apply Hv2, Hv.
  - eapply verdict_of_functional; [apply Hrep2|apply Hrep].
  - by rewrite (rp_events _ _ Hrep2), (rp_events _ _ Hrep).
Qed.

Lemma replay_is_harmless_witness :
  validateLines demo_parse demo_schema demo_sha demo_fs (demo_lines ++ demo_lines) demo_options (js "f") =
    Ok demo_report2 ∧ r_valid demo_report2 = true.
Proof.
  split; [exact demo_replay_ok|].
  exact (proj1 (replay_is_harmless _ _ _ _ _ _ _ _ _ demo_validation_ok demo_report_valid demo_replay_ok)).
Defined.

(** No diagnostic is ever taken back: feeding the lines of a file only appends diagnostics. *)
Theorem feed_only_appends json_parse schema sha lines file single v :
  ∃ ds, diagnostics (feed json_parse schema sha lines file single v) = diagnostics v ++ ds.
Proof. apply feed_grows. Qed.
