(* ===== verification/Redactor.v ===== *)
(** * Redaction of events (ts/packages/sdk/src/redactor.ts)

    [walk] and [redactEvent]: every free-text string of a payload goes through
    [redactText], structural values do not, and the result is read back by the
    codec. [redactText] itself, a chain of regular expression replacements, is
    a variable of the section. *)

From S2P Require Import Prelude JsString JsMap Json Model Codec CodecProps.

Local Open Scope Z_scope.

(** STRUCTURAL_KEYS *)
Definition STRUCTURAL_KEYS : list str :=
  [js "attemptId"; js "stepId"; js "parentStepId"; js "executionId"; js "historicalId";
   js "historicalIdStability"; js "status"; js "rawStatus"; js "expectedStatus"; js "mediaType";
   js "sha256"; js "kind"; js "phase"; js "version"].

Definition structural (key : str) : bool := existsb (str_eqb key) STRUCTURAL_KEYS.

Section redactor.
Context (redactText : str → str).

(** [walk] *)
Fixpoint walk (value : json) : json :=
  match value with
  | JStr s => JStr (redactText s)
  | JArr items => JArr (walk <$> items)
  | JObj props => JObj ((λ kv, (kv.1, if structural kv.1 then kv.2 else walk kv.2)) <$> props)
  | _ => value
  end.

(** [redactEvent]: [obj['payload']] is replaced, and the object read back. *)
Definition redactEvent (event : AnyEvent) : resP AnyEvent :=
  let obj := eventToObject event in
  eventFromObject (JObj (mset obj (js "payload") (walk (default JNull (mget obj (js "payload")))))).

(** ** What the free text of a payload is *)

Definition redact_opt (s : option str) : option str := redactText <$> s.

Definition redact_component (c : Component) : Component :=
  {| c_name := redactText (c_name c); c_version := c_version c |}.
Definition redact_executor (x : Executor) : Executor :=
  {| x_name := redact_opt (x_name x); x_buildId := redact_opt (x_buildId x);
     x_buildUrl := redact_opt (x_buildUrl x) |}.
Definition redact_source (s : Source) : Source :=
  {| s_repository := redact_opt (s_repository s); s_revision := redact_opt (s_revision s);
     s_branch := redact_opt (s_branch s) |}.
Definition redact_location (l : Location) : Location :=
  {| l_file := redactText (l_file l); l_line := l_line l; l_column := l_column l |}.
Definition redact_failure (f : Failure) : Failure :=
  {| f_message := redactText (f_message f); f_type := redact_opt (f_type f);
     f_stackTrace := redact_opt (f_stackTrace f); f_phase := f_phase f;
     f_location := redact_location <$> f_location f |}.
Definition redact_segment (s : PathSegment) : PathSegment :=
  {| p_kind := p_kind s; p_name := redactText (p_name s) |}.
(** A map value under a structural key is left alone. *)
Definition redact_map (m : jsmap str str) : jsmap str str :=
  (λ kv, (kv.1, if structural kv.1 then kv.2 else redactText kv.2)) <$> m.
Definition redact_tags (l : list str) : list str := redactText <$> l.
Definition redact_test (t : TestCase) : TestCase :=
  {| t_executionId := t_executionId t; t_historicalId := t_historicalId t;
     t_historicalIdStability := t_historicalIdStability t; t_displayName := redactText (t_displayName t);
     t_path := redact_segment <$> t_path t; t_location := redact_location <$> t_location t;
     t_tags := redact_tags <$> t_tags t; t_labels := redact_map <$> t_labels t |}.

Definition redact_failures (fs : option (list Failure)) : option (list Failure) :=
  (λ l : list Failure, redact_failure <$> l) <$> fs.

Definition redact_payload (p : Payload) : Payload :=
  match p with
  | SessionStarted p =>
      SessionStarted {| ss_producer := redact_component (ss_producer p);
        ss_runner := redact_component <$> ss_runner p; ss_environment := redact_map <$> ss_environment p;
        ss_executor := redact_executor <$> ss_executor p; ss_source := redact_source <$> ss_source p;
        ss_labels := redact_map <$> ss_labels p |}
  | SessionFinished p =>
      SessionFinished {| sf_status := sf_status p; sf_rawStatus := sf_rawStatus p;
        sf_failures := redact_failures (sf_failures p) |}
  | RunFinished => RunFinished
  | AttemptStarted p =>
      AttemptStarted {| as_attemptId := as_attemptId p; as_attemptNumber := as_attemptNumber p;
        as_test := redact_test (as_test p) |}
  | AttemptFinished p =>
      AttemptFinished {| af_attemptId := af_attemptId p; af_status := af_status p;
        af_rawStatus := af_rawStatus p; af_expectedStatus := af_expectedStatus p;
        af_durationMs := af_durationMs p; af_failures := redact_failures (af_failures p) |}
  | StepStarted p =>
      StepStarted {| st_stepId := st_stepId p; st_attemptId := st_attemptId p;
        st_parentStepId := st_parentStepId p; st_name := redactText (st_name p); st_kind := st_kind p;
        st_location := redact_location <$> st_location p |}
  | StepFinished p =>
      StepFinished {| sp_stepId := sp_stepId p; sp_attemptId := sp_attemptId p;
        sp_status := sp_status p; sp_rawStatus := sp_rawStatus p; sp_durationMs := sp_durationMs p;
        sp_failures := redact_failures (sp_failures p) |}
  | AttachmentAdded p =>
      AttachmentAdded {| aa_attemptId := aa_attemptId p; aa_stepId := aa_stepId p;
        aa_name := redactText (aa_name p); aa_mediaType := aa_mediaType p;
        aa_sizeBytes := aa_sizeBytes p; aa_sha256 := aa_sha256 p |}
  | ScopeFailed p =>
      ScopeFailed {| sc_path := redact_segment <$> sc_path p;
        sc_displayName := redact_opt (sc_displayName p); sc_rawStatus := sc_rawStatus p;
        sc_location := redact_location <$> sc_location p; sc_failures := redact_failure <$> sc_failures p |}
  end.

Definition redact_any (e : AnyEvent) : AnyEvent :=
  match e with
  | Known k => Known {| e_env := e_env k; e_payload := redact_payload (e_payload k) |}
  | Unknown u => Unknown {| u_env := u_env u; u_eventType := u_eventType u;
      u_payload := (λ kv, (kv.1, if structural kv.1 then kv.2 else walk kv.2)) <$> u_payload u |}
  end.

(** ** Walking a written payload *)

Definition walk_entry (kv : str * option json) : str * option json :=
  (kv.1, (if structural kv.1 then id else walk) <$> kv.2).

Lemma walk_omitUndefined l : walk (JObj (omitUndefined l)) = JObj (omitUndefined (walk_entry <$> l)).
Proof.
  cbn [walk]. f_equal. unfold omitUndefined. induction l as [|[k [v|]] l IH]; csimpl; [done| |done].
  rewrite IH. unfold walk_entry. csimpl. by destruct (structural k).
Qed.

Lemma walk_string_map m : walk (JObj ((λ kv, (kv.1, JStr kv.2)) <$> m)) =
  JObj ((λ kv, (kv.1, JStr kv.2)) <$> redact_map m).
Proof.
  cbn [walk]. f_equal. unfold redact_map. rewrite <-!list_fmap_compose. apply list_fmap_ext.
  intros i [k v] _. simpl. by destruct (structural k).
Qed.

(** The written form of a redacted value is the walked written form. *)
Class Walks {T} (write : T → json) (f : T → T) : Prop := walks x : walk (write x) = write (f x).

Lemma walk_list {T} (write : T → json) f `{!Walks write f} (l : list T) :
  walk <$> (write <$> l) = write <$> (f <$> l).
Proof.
  rewrite <-!list_fmap_compose. apply list_fmap_ext. intros i x _. apply walks.
Qed.

Lemma walk_opt {T} (write : T → json) f `{!Walks write f} (o : option T) :
  walk <$> (write <$> o) = write <$> (f <$> o).
Proof. destruct o; csimpl; [|done]. by rewrite walks. Qed.

Ltac structural_keys :=
  repeat match goal with
  | |- context [structural ?k] =>
      let b := eval vm_compute in (structural k) in change (structural k) with b
  end.
Ltac walk_fields :=
  rewrite walk_omitUndefined; f_equal; f_equal; unfold walk_entry; csimpl; structural_keys; csimpl;
  unfold jstr, jopt, redact_opt; csimpl.

#[local] Instance walks_component : Walks (JObj ∘ writeComponent) redact_component.
Proof. intros c. unfold compose, writeComponent. walk_fields. by destruct (c_version c). Qed.

#[local] Instance walks_executor : Walks (JObj ∘ writeExecutor) redact_executor.
Proof.
  intros x. unfold compose, writeExecutor. walk_fields. by destruct (x_name x), (x_buildId x), (x_buildUrl x).
Qed.

#[local] Instance walks_source : Walks (JObj ∘ writeSource) redact_source.
Proof.
  intros x. unfold compose, writeSource. walk_fields.
  by destruct (s_repository x), (s_revision x), (s_branch x).
Qed.

#[local] Instance walks_location : Walks (JObj ∘ writeLocation) redact_location.
Proof. intros l. unfold compose, writeLocation. walk_fields. by destruct (l_line l), (l_column l). Qed.

#[local] Instance walks_failure : Walks (JObj ∘ writeFailure) redact_failure.
Proof.
  intros f. unfold compose, writeFailure. walk_fields.
  rewrite (walk_opt (JObj ∘ writeLocation) redact_location).
  by destruct (f_type f), (f_stackTrace f), (f_phase f).
Qed.

#[local] Instance walks_segment : Walks writeSegment redact_segment.
Proof. intros s. unfold writeSegment. cbn [walk]. csimpl. structural_keys. done. Qed.

#[local] Instance walks_str : Walks JStr redactText.
Proof. done. Qed.

Lemma walk_failures fs : walk <$> writeFailures fs = writeFailures (redact_failures fs).
Proof.
  destruct fs as [[|f fs]|]; [done| |done]. unfold redact_failures. csimpl.
  pose proof (walk_list (JObj ∘ writeFailure) redact_failure (f :: fs)) as H. csimpl in H. by rewrite H.
Qed.

Lemma walk_nonEmpty m : walk <$> nonEmpty m = nonEmpty (redact_map <$> m).
Proof.
  destruct m as [[|kv m]|]; [done| |done]. unfold nonEmpty. csimpl.
  pose proof (walk_string_map (kv :: m)) as H. csimpl in H. by rewrite H.
Qed.

Lemma walk_tags l : walk <$> writeTags l = writeTags (redact_tags <$> l).
Proof.
  destruct l as [[|t l]|]; [done| |done]. unfold writeTags. csimpl.
  pose proof (walk_list JStr redactText (t :: l)) as H. csimpl in H. by rewrite H.
Qed.

#[local] Instance walks_test : Walks (JObj ∘ writeTest) redact_test.
Proof.
  intros t. unfold compose, writeTest. walk_fields.
  rewrite (walk_opt (JObj ∘ writeLocation) redact_location), (walk_list writeSegment redact_segment).
  rewrite walk_tags, walk_nonEmpty. by destruct (t_historicalId t).
Qed.

Lemma walk_payload p : walk (JObj (writePayload p)) = JObj (writePayload (redact_payload p)).
Proof.
  destruct p as [p|p| |p|p|p|p|p|p]; unfold writePayload.
  - walk_fields.
    rewrite (walk_opt (JObj ∘ writeComponent) redact_component), (walk_opt (JObj ∘ writeExecutor) redact_executor),
      (walk_opt (JObj ∘ writeSource) redact_source), !walk_nonEmpty.
    pose proof (walks (Walks := walks_component) (ss_producer p)) as H. unfold compose in H.
    match goal with |- (_, Some ?x) :: _ = _ =>
      change x with (walk (JObj (writeComponent (ss_producer p)))) end. by rewrite H.
  - walk_fields. rewrite walk_failures. by destruct (sf_status p), (sf_rawStatus p).
  - done.
  - pose proof (walks (Walks := walks_test) (as_test p)) as H. unfold compose in H.
    transitivity (JObj [(js "attemptId", JStr (as_attemptId p)); (js "attemptNumber", jint (as_attemptNumber p));
      (js "test", walk (JObj (writeTest (as_test p))))]); [reflexivity|by rewrite H].
  - walk_fields. rewrite walk_failures. by destruct (af_rawStatus p), (af_expectedStatus p), (af_durationMs p).
  - walk_fields. rewrite (walk_opt (JObj ∘ writeLocation) redact_location).
    by destruct (st_parentStepId p), (st_kind p).
  - walk_fields. rewrite walk_failures. by destruct (sp_rawStatus p), (sp_durationMs p).
  - walk_fields. by destruct (aa_stepId p).
  - pose proof (walk_failures (Some (sc_failures p))) as H. revert H.
    cbn [redact_payload redact_failures fmap option_fmap option_map sc_path sc_displayName sc_rawStatus sc_location sc_failures].
    generalize (writeFailures (Some (sc_failures p))), (writeFailures (Some (redact_failure <$> sc_failures p))).
    intros w w' H. walk_fields.
    rewrite (walk_opt (JObj ∘ writeLocation) redact_location), (walk_list writeSegment redact_segment), H.
    by destruct (sc_displayName p), (sc_rawStatus p).
Qed.

(** ** Redaction keeps events well-formed *)

Lemma redact_failures_wf fs : wf_failures fs → wf_failures (redact_failures fs).
Proof.
  destruct fs as [fs|]; [|done]. unfold wf_failures, redact_failures. csimpl.
  rewrite Forall_fmap. intros H. eapply Forall_impl; [exact H|]. intros f. unfold wf_failure, compose. simpl.
  by destruct (f_location f).
Qed.

Lemma redact_location_wf l : wf_opt_location l → wf_opt_location (redact_location <$> l).
Proof. by destruct l. Qed.

Lemma redact_payload_wf p : wf_payload p → wf_payload (redact_payload p).
Proof.
  destruct p as [p|p| |p|p|p|p|p|p]; simpl; try done; intros; destruct_and?; split_and?;
    eauto using redact_failures_wf, redact_location_wf.
  - unfold wf_outcome in *. simpl. destruct_and?. split.
    + intros Hs. match goal with H : sf_status p = None → _ |- _ => destruct (H Hs) as [-> ->] end. done.
    + intros Hs. match goal with H : sf_status p = Some _ → _ |- _ => by rewrite (H Hs) end.
  - unfold redact_failures. destruct (sf_failures p) as [[]|]; csimpl; naive_solver.
  - unfold wf_test in *. simpl. destruct_and?. split_and!; auto using redact_location_wf.
  - by destruct (sc_path p).
  - by destruct (sc_failures p).
  - rewrite Forall_fmap. match goal with H : Forall wf_failure _ |- _ => eapply Forall_impl; [exact H|] end.
    intros f. unfold wf_failure, compose. simpl. by destruct (f_location f).
Qed.

Lemma redact_any_wf e : wf_event e → wf_event (redact_any e).
Proof.
  intros [He Hp]. destruct e as [[env p]|u]; split; try done. by apply redact_payload_wf.
Qed.

Lemma redactEvent_written e :
  mset (eventToObject e) (js "payload") (walk (default JNull (mget (eventToObject e) (js "payload")))) =
  eventToObject (redact_any e).
Proof.
  destruct (envelope_fields e) as [_ ->]. simpl default.
  assert (walk (JObj match e with Known e => writePayload (e_payload e) | Unknown u => u_payload u end) =
    JObj match redact_any e with Known e => writePayload (e_payload e) | Unknown u => u_payload u end) as ->.
  { destruct e as [[env p]|u]; [apply walk_payload|done]. }
  assert (any_type (redact_any e) = any_type e ∧ any_env (redact_any e) = any_env e) as [Ht He].
  { by destruct e as [[env []]|u]. }
  unfold eventToObject. rewrite Ht, He. by destruct (ignorable (any_env e)).
Qed.

Lemma redactEvent_ok e : wf_event e → redactEvent e = Ok (norm_event (redact_any e)).
Proof.
  intros Hwf. unfold redactEvent. cbv zeta. rewrite redactEvent_written.
  apply event_write. by apply redact_any_wf.
Qed.

(** *** Whatever redaction accepts keeps its envelope and type *)

Lemma required_inv o f a v : required o f a = Ok v → mget o f = Some v.
Proof. unfold required. destruct (mget o f) as [[]|]; intros; by simplify_eq. Qed.

Lemma requiredString_inv o f a s : requiredString o f a = Ok s → mget o f = Some (JStr s).
Proof.
  unfold requiredString. intros H. apply bind_Ok_inv in H as (v & Hv%required_inv & H).
  destruct v; by simplify_eq.
Qed.

Lemma identifier_inv o f a s : identifier o f a = Ok s → mget o f = Some (JStr s).
Proof.
  unfold identifier. intros H. apply bind_Ok_inv in H as (v & Hv%requiredString_inv & H).
  destruct (is_identifier v); by simplify_eq.
Qed.

Lemma integral_inv o f a z : integral o f a = Ok z → mget o f = Some (jint z).
Proof.
  unfold integral. intros H. apply bind_Ok_inv in H as (v & Hv%required_inv & H).
  destruct (safe_int v) eqn:E; simplify_eq. destruct v as [| |[]| | |]; try done. cbn [safe_int] in E.
  destruct (is_safe_integer (NInt _)); by simplify_eq.
Qed.

Lemma written_fields e :
  mget (eventToObject e) (js "protocolVersion") = Some (JStr (protocolVersion (any_env e))) ∧
  mget (eventToObject e) (js "eventId") = Some (JStr (eventId (any_env e))) ∧
  mget (eventToObject e) (js "eventType") = Some (JStr (any_type e)) ∧
  mget (eventToObject e) (js "runId") = Some (JStr (runId (any_env e))) ∧
  mget (eventToObject e) (js "sessionId") = Some (JStr (sessionId (any_env e))) ∧
  mget (eventToObject e) (js "sequence") = Some (jint (sequence (any_env e))) ∧
  mget (eventToObject e) (js "occurredAt") = Some (JStr (occurredAt (any_env e))).
Proof. unfold eventToObject. by destruct (ignorable (any_env e)); split_and!; efield. Qed.

Lemma reread_env e e' :
  event_of_obj (eventToObject e) = Ok e' → any_env e' = any_env e ∧ any_type e' = any_type e.
Proof.
  destruct (written_fields e) as (F1 & F2 & F3 & F4 & F5 & F6 & F7).
  destruct (envelope_fields e) as [F8 _]. unfold event_of_obj. intros H.
  apply bind_Ok_inv in H as (v1 & H1%requiredString_inv & H).
  apply bind_Ok_inv in H as (v2 & _ & H). apply bind_Ok_inv in H as (v3 & _ & H).
  apply bind_Ok_inv in H as (v4 & H4%requiredString_inv & H). apply bind_Ok_inv in H as (v5 & _ & H).
  apply bind_Ok_inv in H as (v6 & H6%identifier_inv & H).
  apply bind_Ok_inv in H as (v7 & H7%identifier_inv & H).
  apply bind_Ok_inv in H as (v8 & H8%identifier_inv & H).
  apply bind_Ok_inv in H as (v9 & H9%integral_inv & H). apply bind_Ok_inv in H as (v10 & _ & H).
  apply bind_Ok_inv in H as (v11 & H11%requiredString_inv & H). apply bind_Ok_inv in H as (v12 & _ & H).
  apply bind_Ok_inv in H as (v13 & H13 & H). apply bind_Ok_inv in H as (v14 & _ & H).
  apply bind_Ok_inv in H as (v15 & H15%readPayload_wf & [= <-]).
  assert (v13 = ignorable (any_env e)) as ->.
  { rewrite F8 in H13. destruct (ignorable (any_env e)); by simplify_eq/=. }
  rewrite F1 in H1. rewrite F3 in H4. rewrite F2 in H6. rewrite F4 in H7. rewrite F5 in H8.
  rewrite F6 in H9. rewrite F7 in H11. injection H1 as <-. injection H4 as <-. injection H6 as <-.
  injection H7 as <-. injection H8 as <-. injection H9 as <-. injection H11 as <-.
  split; destruct v15; simpl; try done; [by destruct (any_env e)..|]. by destruct H15 as [-> _].
Qed.

Lemma redactEvent_env e e' :
  redactEvent e = Ok e' → any_env e' = any_env e ∧ any_type e' = any_type e.
Proof.
  unfold redactEvent. cbv zeta. rewrite redactEvent_written. intros H%reread_env.
  by destruct e as [[env []]|u].
Qed.

Lemma redactEvent_wf e e' : redactEvent e = Ok e' → wf_event e'.
Proof. unfold redactEvent. apply event_wf. Qed.

Lemma reread_payload e e' :
  event_of_obj (eventToObject e) = Ok e' →
  ∃ b pl, readPayload (any_type e)
      match e with Known k => writePayload (e_payload k) | Unknown u => u_payload u end b = Ok pl ∧
    ∀ p, pl = inl p → e' = Known {| e_env := any_env e'; e_payload := p |}.
Proof.
  destruct (written_fields e) as (_ & _ & F3 & _). destruct (envelope_fields e) as [_ F8].
  unfold event_of_obj. intros H. rewrite F8 in H.
  do 3 apply bind_Ok_inv in H as (? & _ & H).
  apply bind_Ok_inv in H as (t & Ht'%requiredString_inv & H). rewrite F3 in Ht'. injection Ht' as <-.
  do 9 apply bind_Ok_inv in H as (? & _ & H).
  apply bind_Ok_inv in H as (o & [= <-] & H). apply bind_Ok_inv in H as (pl & Hp & H).
  eexists _, pl. split; [exact Hp|]. intros p ->. by injection H as <-.
Qed.

Lemma reread_status p p' :
  readSessionFinished (writePayload (SessionFinished p)) = Ok p' → sf_status p' = sf_status p.
Proof.
  unfold readSessionFinished. intros E.
  apply bind_Ok_inv in E as (raw & Hraw & E). apply bind_Ok_inv in E as (st & Hst & E).
  do 5 apply bind_Ok_inv in E as (? & _ & E). injection E as <-. simpl.
  assert (optionalString (writePayload (SessionFinished p)) (js "status") at_payload =
    Ok (session_status_text <$> sf_status p)) as Hs.
  { apply optionalString_at. unfold writePayload, jopt. rewrite <- option_fmap_compose. field. }
  rewrite Hs in Hraw. injection Hraw as <-. rewrite sessionStatus_write in Hst. by injection Hst.
Qed.

(** An attempt's number survives. *)
Lemma reread_number p p' :
  readAttemptStarted (writePayload (AttemptStarted p)) = Ok p' → as_attemptNumber p' = as_attemptNumber p.
Proof.
  unfold readAttemptStarted. intros E. apply bind_Ok_inv in E as (n & Hn%integral_inv & E).
  repeat (apply bind_Ok_inv in E as (? & _ & E)). injection E as <-. simpl.
  assert (mget (writePayload (AttemptStarted p)) (js "attemptNumber") = Some (jint (as_attemptNumber p))) as Hs
    by done.
  rewrite Hs in Hn. by injection Hn.
Qed.

(** A session's status survives. *)
Lemma redactEvent_status env p e' :
  redactEvent (Known {| e_env := env; e_payload := SessionFinished p |}) = Ok e' →
  ∃ p', e' = Known {| e_env := any_env e'; e_payload := SessionFinished p' |} ∧ sf_status p' = sf_status p.
Proof.
  unfold redactEvent. cbv zeta. rewrite redactEvent_written. intros H.
  destruct (reread_payload _ _ H) as (b & pl & Hp & He).
  unfold redact_any, redact_payload, e_payload in Hp.
  match type of Hp with readPayload _ ?o _ = _ =>
    assert (inl ∘ SessionFinished <$> readSessionFinished o = Ok pl) as Hq by exact Hp end.
  destruct (readSessionFinished _) as [p'|] eqn:E; [|done]. injection Hq as <-.
  exists p'. split; [by apply He|]. by apply reread_status in E.
Qed.

Lemma redactEvent_number env p e' :
  redactEvent (Known {| e_env := env; e_payload := AttemptStarted p |}) = Ok e' →
  ∃ p', e' = Known {| e_env := any_env e'; e_payload := AttemptStarted p' |} ∧
    as_attemptNumber p' = as_attemptNumber p.
Proof.
  unfold redactEvent. cbv zeta. rewrite redactEvent_written. intros H.
  destruct (reread_payload _ _ H) as (b & pl & Hp & He).
  unfold redact_any, redact_payload, e_payload in Hp.
  match type of Hp with readPayload _ ?o _ = _ =>
    assert (inl ∘ AttemptStarted <$> readAttemptStarted o = Ok pl) as Hq by exact Hp end.
  destruct (readAttemptStarted _) as [p'|] eqn:E; [|done]. injection Hq as <-.
  exists p'. split; [by apply He|]. by apply reread_number in E.
Qed.
End redactor.

(** ** Properties *)

(** Redacting a well-formed event never fails, and what comes out is the event with exactly its
    free text replaced: the envelope, the event type, identifiers, statuses, media types, digests,
    kinds, phases, versions and numbers are those of the input. *)
Theorem redactEvent_free_text redactText e :
  wf_event e →
  redactEvent redactText e = Ok (norm_event (redact_any redactText e)) ∧
  any_env (norm_event (redact_any redactText e)) = any_env e ∧
  any_type (norm_event (redact_any redactText e)) = any_type e.
Proof.
  intros Hwf. split; [by apply redactEvent_ok|]. by destruct e as [[env []]|u].
Qed.

Lemma redactEvent_free_text_witness :
  let e := Known {| e_env := {| protocolVersion := js "0.3.0"; eventId := js "e1"; runId := js "r";
      sessionId := js "s"; sequence := 1; occurredAt := js "2024-05-01T10:00:00Z"; ignorable := None |};
    e_payload := StepStarted {| st_stepId := js "password=1"; st_attemptId := js "a"; st_parentStepId := None;
      st_name := js "password=1"; st_kind := None; st_location := None |} |} in
  ∃ e', redactEvent (λ _, js "[REDACTED]") e = Ok e' ∧ any_env e' = any_env e ∧
    match e' with
    | Known {| e_payload := StepStarted p |} => st_name p = js "[REDACTED]" ∧ st_stepId p = js "password=1"
    | _ => False
    end.
Proof.
  intros e. assert (wf_event e) as Hwf by (split; split_and!; by vm_compute).
  destruct (redactEvent_free_text (λ _, js "[REDACTED]") e Hwf) as (H1 & H2 & _).
  eexists. split; [exact H1|]. split; [exact H2|]. by split.
Defined.

