(* ===== verification/SafeName.v ===== *)
(** * Names and small rules of the SDK

    safe-name.ts, session-file.ts and run-directory.ts (the names of session
    files and run directories, and of the directories file-sink.ts keeps), media-types.ts, environment.ts, all under
    ts/packages/sdk/src. The SHA-256 hex digest is a variable. *)

From S2P Require Import Prelude JsString JsMap.

Local Open Scope Z_scope.

(** ** Safe names *)

Definition MAX_STEM : nat := 48.
Definition HASH_LENGTH : nat := 12.

Definition underscore : N := 95.

(** [[A-Za-z0-9._-]] *)
Definition stem_char (u : N) : bool := is_alnum u || (u =? 46)%N || (u =? 95)%N || (u =? 45)%N.
(** [[A-Za-z0-9_]] *)
Definition first_char (u : N) : bool := is_alnum u || (u =? 95)%N.

(** [id.replace(/[^A-Za-z0-9._-]/gu, '_')]: one underscore for a surrogate pair. *)
Fixpoint sanitise (id : str) : str :=
  match id with
  | [] => []
  | u :: rest =>
      if stem_char u then u :: sanitise rest
      else if is_high_surrogate u then
        match rest with
        | v :: rest' => if is_low_surrogate v then underscore :: sanitise rest' else underscore :: sanitise rest
        | [] => [underscore]
        end
      else underscore :: sanitise rest
  end.

Definition ascii_upper (u : N) : N := if is_lower u then (u - 32)%N else u.

(** [(?:\.|$)] *)
Definition device_end (s : str) : bool := match s with [] => true | u :: _ => (u =? 46)%N end.

(** RESERVED_DEVICE, on sanitised text (ASCII, so case folding is that of ASCII). *)
Definition reserved_device (s : str) : bool :=
  let t := ascii_upper <$> s in
  let head := take 3 t in
  (existsb (str_eqb head) [js "CON"; js "PRN"; js "AUX"; js "NUL"] && device_end (drop 3 t)) ||
  (existsb (str_eqb head) [js "COM"; js "LPT"] &&
   match drop 3 t with d :: rest => in_range 49 57 d && device_end rest | [] => false end).

(** [`_${safe.slice(1)}`] *)
Definition mask_first (s : str) : str := underscore :: drop 1 s.

Definition safeStem (id : str) : str :=
  let safe := sanitise id in
  match safe with
  | [] => [underscore]
  | u :: _ =>
      let safe := take MAX_STEM (if first_char u then safe else mask_first safe) in
      if reserved_device safe then mask_first safe else safe
  end.

Section digest.
Context (sha256_hex : str → str).

Definition shortHash (id : str) : str := take HASH_LENGTH (sha256_hex id).
Definition sessionFileName (sessionId : str) : str :=
  safeStem sessionId ++ js "-" ++ shortHash sessionId ++ js ".ndjson".
Definition runDirectoryName (runId : str) : str := safeStem runId ++ js "-" ++ shortHash runId.
End digest.

(** The directories of a run directory. *)
Definition EVENTS_DIR : str := js "events".
Definition ATTACHMENTS_DIR : str := js "attachments".

(** ** Media types *)

(** [s.toLowerCase()], as far as ASCII comparisons see it: the Kelvin sign and the dotted capital
    I are the two other characters whose lower case holds an ASCII letter. *)
Definition lower_unit (u : N) : str :=
  if is_upper u then [(u + 32)%N]
  else if (u =? 0x212A)%N then [107%N]
  else if (u =? 0x130)%N then [105%N; 0x307%N]
  else [u].
Definition toLowerCase (s : str) : str := mjoin (lower_unit <$> s).

Fixpoint trim_start (s : str) : str :=
  match s with u :: s' => if is_js_space u then trim_start s' else s | [] => [] end.
Definition trim (s : str) : str := reverse (trim_start (reverse (trim_start s))).

(** [s.split(';', 1)[0]] *)
Fixpoint before_semicolon (s : str) : str :=
  match s with [] => [] | u :: s' => if (u =? 59)%N then [] else u :: before_semicolon s' end.

Definition starts_with (p s : str) : bool := str_eqb (take (length p) s) p.
Definition ends_with (p s : str) : bool :=
  (length p <=? length s)%nat && str_eqb (drop (length s - length p) s) p.

Definition isTextualMediaType (mediaType : str) : bool :=
  let base := toLowerCase (trim (before_semicolon mediaType)) in
  starts_with (js "text/") base || str_eqb base (js "application/json") ||
  str_eqb base (js "application/xml") || str_eqb base (js "application/x-www-form-urlencoded") ||
  str_eqb base (js "application/javascript") || ends_with (js "+json") base ||
  ends_with (js "+xml") base.

(** ** Environment *)

(** [captureEnvironment]: own properties, so a repeated name keeps its first place. *)
Definition captureEnvironment (redactText : str → str) (names : list str) (source : jsmap str str)
    : jsmap str str :=
  foldl (λ m kv, mset m kv.1 kv.2) []
    (omap (λ name, (λ value, (name, redactText value)) <$> mget source name) names).

(** ** Lemmas *)

Lemma sanitise_chars n id : (length id <= n)%nat → forallb stem_char (sanitise id) = true.
Proof.
  revert id. induction n as [|n IH]; intros [|u id] Hn; simpl in *; try done; [lia|].
  destruct (stem_char u) eqn:Eu; [simpl; rewrite Eu; apply IH; lia|].
  destruct (is_high_surrogate u); [|apply IH; lia].
  destruct id as [|v id]; [done|]. simpl in Hn.
  destruct (is_low_surrogate v); apply IH; simpl; lia.
Qed.

Lemma forallb_take {A} (p : A → bool) n l : forallb p l = true → forallb p (take n l) = true.
Proof.
  revert n. induction l as [|x l IH]; intros [|n]; simpl; try done.
  intros [-> H]%andb_true_iff. by apply IH.
Qed.

Lemma forallb_drop {A} (p : A → bool) n l : forallb p l = true → forallb p (drop n l) = true.
Proof.
  revert n. induction l as [|x l IH]; intros [|n]; simpl; try done.
  intros [_ H]%andb_true_iff. by apply IH.
Qed.

Lemma reserved_mask s : reserved_device (mask_first s) = false.
Proof.
  unfold reserved_device, mask_first. cbv zeta.
  change (take 3 (ascii_upper <$> underscore :: drop 1 s)) with (underscore :: take 2 (ascii_upper <$> drop 1 s)).
  generalize (take 2 (ascii_upper <$> drop 1 s)) as x. intros x.
  assert (∀ d, head d ≠ Some underscore → str_eqb (underscore :: x) d = false) as Hne.
  { intros d Hd. unfold str_eqb. apply bool_decide_eq_false. by intros <-. }
  unfold existsb. by rewrite !Hne by (by vm_compute).
Qed.

Lemma first_stem u : first_char u = true → stem_char u = true.
Proof. unfold first_char, stem_char. intros [H|H]%orb_true_iff; rewrite H; by rewrite ?orb_true_r. Qed.

(** A name no path can use: short, of safe characters, not hidden, not an option, not a device. *)
Record safe_name (s : str) : Prop := {
  sn_length : (0 < length s <= MAX_STEM)%nat;
  sn_chars : forallb stem_char s = true;
  sn_first : ∃ u rest, s = u :: rest ∧ first_char u = true;
  sn_device : reserved_device s = false;
}.

Lemma sanitise_id id : forallb stem_char id = true → sanitise id = id.
Proof. induction id as [|u id IH]; simpl; [done|]. by intros [-> ->%IH]%andb_true_iff. Qed.

(** Whatever the identifier, its stem is a safe name. *)
Lemma safeStem_is_safe id : safe_name (safeStem id).
Proof.
  unfold safeStem. pose proof (sanitise_chars (length id) id ltac:(lia)) as Hc.
  destruct (sanitise id) as [|u s]; [by split; [unfold MAX_STEM; simpl; lia| |exists underscore, []|]|].
  assert (∃ u' s', (if first_char u then u :: s else mask_first (u :: s)) = u' :: s' ∧
    first_char u' = true ∧ forallb stem_char s' = true) as (u' & s' & -> & Hu & Hs).
  { simpl in Hc. apply andb_true_iff in Hc as [_ Hs]. destruct (first_char u) eqn:E; [by exists u, s|].
    by exists underscore, s. }
  assert (take MAX_STEM (u' :: s') = u' :: take 47 s') as -> by done.
  assert (length (take 47 s') <= 47)%nat by (rewrite length_take; lia).
  destruct (reserved_device (u' :: take 47 s')) eqn:Er.
  - split; [| | |apply reserved_mask]; simpl.
    + rewrite drop_0. unfold MAX_STEM. lia.
    + by apply forallb_take.
    + by eexists _, _.
  - split; [| | |done]; simpl.
    + unfold MAX_STEM. lia.
    + rewrite (first_stem _ Hu). by apply forallb_take.
    + by eexists _, _.
Qed.

(** The names of a session's file and of a run's directory are made of stem characters. *)
Lemma alnum_stem s : forallb is_alnum s = true → forallb stem_char s = true.
Proof.
  rewrite !forallb_forall. intros Hs x Hx. unfold stem_char. by rewrite (Hs x Hx).
Qed.

Lemma sessionFileName_chars sha256_hex sid :
  (∀ s, forallb is_alnum (sha256_hex s) = true) → forallb stem_char (sessionFileName sha256_hex sid) = true.
Proof.
  intros Hsha. unfold sessionFileName, shortHash. rewrite !forallb_app.
  rewrite (sn_chars _ (safeStem_is_safe sid)), (alnum_stem (take HASH_LENGTH _)) by (by apply forallb_take). done.
Qed.

(** ** Properties *)

(** Whatever the identifier, its stem is a safe file name; and an identifier that already is
    one is its own stem. *)
Theorem safeStem_safe id : safe_name (safeStem id) ∧ (safe_name id → safeStem id = id).
Proof.
  split; [apply safeStem_is_safe|]. intros [Hl Hc (u & rest & -> & Hu) Hd]. unfold safeStem.
  rewrite sanitise_id by done. by rewrite Hu, take_ge, Hd by lia.
Qed.

(** Session file names are as distinct as the digests behind them: equal names have equal stems
    and equal short digests. *)
Theorem sessionFileName_inj sha256_hex a b :
  (∀ x, length (sha256_hex x) = 64%nat) →
  sessionFileName sha256_hex a = sessionFileName sha256_hex b →
  safeStem a = safeStem b ∧ shortHash sha256_hex a = shortHash sha256_hex b.
Proof.
  intros Hlen H. unfold sessionFileName in H.
  assert (∀ x, length (shortHash sha256_hex x) = HASH_LENGTH) as Hs.
  { intros x. unfold shortHash. rewrite length_take, Hlen. done. }
  rewrite !app_assoc in H. apply app_inv_tail in H.
  apply app_inj_2 in H as [H1 H2]; [|by rewrite !Hs]. by apply app_inv_tail in H1.
Qed.

Lemma sessionFileName_inj_witness :
  let sha := λ x : str, replicate 64 (hd 48%N x) in
  (∀ x, length (sha x) = 64%nat) ∧
  sessionFileName sha (js "ab") = sessionFileName sha (js "ab") ∧ safeStem (js "ab") = safeStem (js "ab").
Proof.
  intros sha. assert (∀ x, length (sha x) = 64%nat) as H by done.
  split; [exact H|]. split; [reflexivity|].
  exact (proj1 (sessionFileName_inj sha (js "ab") (js "ab") H eq_refl)).
Defined.

(** Only names of the allowlist are captured, each with its redacted value. *)
Theorem captureEnvironment_allowlist redactText names source name value :
  mget (captureEnvironment redactText names source) name = Some value ↔
  name ∈ names ∧ ∃ raw, mget source name = Some raw ∧ value = redactText raw.
Proof.
  unfold captureEnvironment.
  induction names as [|n names IH] using rev_ind; [simpl; set_solver|].
  rewrite omap_app, foldl_app. simpl.
  destruct (mget source n) as [raw|] eqn:E; simpl.
  - rewrite mget_mset. case_decide as Hd.
    + subst n. rewrite E. split; [intros [= <-]; split; [set_solver|eauto]|].
      intros (_ & raw' & [= <-] & ->). done.
    + rewrite IH. set_solver.
  - rewrite IH. split; [set_solver|].
    intros (Hin & raw & Hr & ->). split; [|eauto]. apply elem_of_app in Hin as [|Hin]; [done|].
    apply list_elem_of_singleton in Hin. congruence.
Qed.
