(* ===== verification/Session.v ===== *)
(** * The report session (ts/packages/sdk/src/session.ts)

    [ReportSession] as a record threaded through its operations. The sink is
    an interface ([Sink]) with the promise the session relies on ([SinkLaws]):
    what a write that returned has committed, and what one that threw has not.
    The clock and the id generator are streams drawn once per write; the
    problem handler is the list of problems delivered to it.

    An operation either returns or throws the [ProtocolError] of the codec
    (the only exception that escapes the session). *)

From S2P Require Import Prelude JsString JsBytes JsMap JsSort Json Model Codec CodecProps Redactor SafeName.

Local Open Scope Z_scope.

(** ** The sink *)

Record StoredAttachment := { sa_sha256 : str; sa_sizeBytes : Z }.

(** What a sink throws: an attachment over its limit, or anything else. *)
Inductive SinkError := AttachmentTooLargeError (limit : Z) | SinkFailed (why : str).

(** [ReportSink]: every method may throw, after having changed the sink. *)
Class Sink (S : Type) := {
  maxAttachmentBytes : S → Z;
  sink_write : AnyEvent → S → res SinkError unit * S;
  storeAttachment : bytes → S → res SinkError StoredAttachment * S;
  storeAttachmentStream : res SinkError bytes → S → res SinkError StoredAttachment * S;
  sink_close : S → res SinkError unit * S;
}.

(** The events a sink holds: a write that returns adds its event, one that throws adds nothing,
    and the other methods leave them alone. *)
Class SinkLaws (S : Type) `{Sink S} := {
  committed : S → list AnyEvent;
  write_commits e s s' : sink_write e s = (Ok tt, s') → committed s' = committed s ++ [e];
  write_loses e err s s' : sink_write e s = (Throw err, s') → committed s' = committed s;
  store_keeps b s : committed (storeAttachment b s).2 = committed s;
  stream_keeps b s : committed (storeAttachmentStream b s).2 = committed s;
  close_keeps s : committed (sink_close s).2 = committed s;
}.

(** ** Data *)

Inductive ReportProblemKind :=
| EVENT_TOO_LARGE | ATTACHMENT_TOO_LARGE | SINK_FAILURE | SESSION_FINISHED | RUN_FINISHED
| INVALID_PAYLOAD | TERMINAL_OUTCOME_NOT_WRITTEN.

#[export] Instance ReportProblemKind_eq_dec : EqDecision ReportProblemKind.
Proof. solve_decision. Defined.

(** The exceptions a problem may carry, or a caller may see. *)
Inductive Thrown := ThrownBySink (e : SinkError) | ThrownByCodec (e : ProtocolError).

Record ReportProblem := { pb_kind : ReportProblemKind; pb_message : str; pb_cause : option Thrown }.

Inductive SessionState := Active | SessionFinishedState | RunFinishedState | Closed.

#[export] Instance SessionState_eq_dec : EqDecision SessionState.
Proof. solve_decision. Defined.

Record AttachmentInput := {
  ai_attemptId : str; ai_stepId : option str; ai_name : str; ai_mediaType : str;
}.

(** What the constructor fixes. *)
Record SessionConfig := {
  cf_runId : str; cf_sessionId : str; cf_maxEventBytes : Z;
  cf_ids : nat → str; cf_clock : nat → str;
  cf_redactText : str → str;
  cf_utf8_decode : bytes → str;
  cf_utf8_encode : str → bytes;
}.

Record ReportSession (S : Type) := {
  sequence_ : Z;
  written : Z;
  dropped : Z;
  state : SessionState;
  terminalOutcomeLost : bool;
  sink : S;
  drawn : nat;
  problems : list ReportProblem;
}.
Arguments sequence_ {S} _. Arguments written {S} _. Arguments dropped {S} _.
Arguments state {S} _. Arguments terminalOutcomeLost {S} _. Arguments sink {S} _.
Arguments drawn {S} _. Arguments problems {S} _.
#[export] Instance ReportSession_fields {S} : Fields (ReportSession S) := λ r,
  {| sequence_ := sequence_ r; written := written r; dropped := dropped r; state := state r;
     terminalOutcomeLost := terminalOutcomeLost r; sink := sink r; drawn := drawn r;
     problems := problems r |}.

Inductive WriteResult := Written | TooLarge | SinkFailure.
Record WriteAttempt := { wa_result : WriteResult; wa_bytes : Z }.

(** The state as it is named in problems: [lifecycle.replace('-', '.')]. *)
Definition state_text (s : SessionState) : str :=
  match s with
  | Active => js "active" | SessionFinishedState => js "session.finished"
  | RunFinishedState => js "run.finished" | Closed => js "closed"
  end.

(** [outcomeViolation] *)
Definition outcomeViolation (o : SessionFinishedPayload) : option str :=
  let some := match sf_failures o with Some (_ :: _) => true | _ => false end in
  match sf_status o with
  | None =>
      if bool_decide (is_Some (sf_rawStatus o)) then Some (js "rawStatus requires status")
      else if some then Some (js "failures require status") else None
  | Some SePassed => if some then Some (js "a passed session carries no failures") else None
  | Some _ => None
  end.

(** [new ReportSession]: the limit must be within 1 and the protocol's. *)
Definition valid_max (max : Z) : bool := (1 <=? max) && (max <=? maxEventBytes_limit).

(** ** Operations *)

Section session.
Context {S : Type} `{Sink S} (cfg : SessionConfig).
Implicit Types s : ReportSession S.

(** The result of a method: it returned a value, or a [ProtocolError] escaped; and the state. *)
Definition outcome (A : Type) : Type := res ProtocolError A * ReportSession S.

Definition problem (kind : ReportProblemKind) (message : str) (cause : option Thrown) s : ReportSession S :=
  s <| problems ::= λ l, l ++ [{| pb_kind := kind; pb_message := message; pb_cause := cause |}] |>.

(** [this.dropped += 1; this.problem(kind, message)] *)
Definition drop_with (kind : ReportProblemKind) (message : str) s : ReportSession S :=
  problem kind message None (s <| dropped ::= Z.succ |>).

(** The candidate event: the envelope filled in. *)
Definition candidate (input : Payload) s : AnyEvent :=
  Known {| e_env := {| protocolVersion := PROTOCOL_VERSION; eventId := cf_ids cfg (drawn s);
                       runId := cf_runId cfg; sessionId := cf_sessionId cfg;
                       sequence := sequence_ s + 1; occurredAt := cf_clock cfg (drawn s);
                       ignorable := None |};
           e_payload := input |}.

Definition event_bytes (e : AnyEvent) : Z := utf8_length (stringifyEvent e) + 1.

(** [write] *)
Definition write (input : Payload) (reportSize : bool) s : outcome WriteAttempt :=
  let redacted := redactEvent (cf_redactText cfg) (candidate input s) in
  let s := s <| drawn ::= Datatypes.S |> in
  match redacted with
  | Throw e => (Throw e, s)
  | Ok event =>
      let bytes := event_bytes event in
      if cf_maxEventBytes cfg <? bytes then
        let s := s <| dropped ::= Z.succ |> in
        (Ok {| wa_result := TooLarge; wa_bytes := bytes |},
         if reportSize then
           problem EVENT_TOO_LARGE
             (js "event " ++ payload_type input ++ js " is " ++ dec bytes ++ js " bytes, limit "
               ++ dec (cf_maxEventBytes cfg) ++ js "; dropped") None s
         else s)
      else
        match sink_write event (sink s) with
        | (Throw err, k) =>
            (Ok {| wa_result := SinkFailure; wa_bytes := bytes |},
             problem SINK_FAILURE (js "cannot write " ++ payload_type input) (Some (ThrownBySink err))
               (s <| sink := k |> <| dropped ::= Z.succ |>))
        | (Ok _, k) =>
            (Ok {| wa_result := Written; wa_bytes := bytes |},
             s <| sink := k |> <| sequence_ ::= Z.succ |> <| written ::= Z.succ |>)
        end
  end.

(** Sequencing of methods: an escaped exception ends the caller as well. *)
Definition andThen {A B} (m : outcome A) (f : A → ReportSession S → outcome B) : outcome B :=
  match m with (Ok a, s) => f a s | (Throw e, s) => (Throw e, s) end.

Definition is_written (a : WriteAttempt) : bool :=
  match wa_result a with Written => true | _ => false end.

(** [acceptsSessionEvents] *)
Definition acceptsSessionEvents (what : str) s : bool * ReportSession S :=
  if terminalOutcomeLost s then
    (false, drop_with TERMINAL_OUTCOME_NOT_WRITTEN
       (what ++ js " after a session outcome that could not be written; dropped") s)
  else if bool_decide (state s = Active) then (true, s)
  else
    (false, drop_with (if bool_decide (state s = RunFinishedState) then RUN_FINISHED else SESSION_FINISHED)
       (what ++ js " emitted after " ++ state_text (state s) ++ js "; dropped") s).

(** One turn of the loop of [finish], and the reduction it may go on with. *)
Inductive FinishTurn := FinishDone (result : bool) | FinishRetry (next : SessionFinishedPayload).

Definition finish_turn (status : SessionStatus) (o : SessionFinishedPayload) s : outcome FinishTurn :=
  andThen (write (SessionFinished o) false s) (λ attempt s,
    match wa_result attempt with
    | Written => (Ok (FinishDone true), s <| state := SessionFinishedState |>)
    | SinkFailure =>
        (Ok (FinishDone false),
         problem TERMINAL_OUTCOME_NOT_WRITTEN
           (js "session outcome " ++ session_status_text status
             ++ js " could not be written because the sink failed; no session.finished is emitted and the session stays open")
           None (s <| terminalOutcomeLost := true |>))
    | TooLarge =>
        let size := dec (wa_bytes attempt) ++ js " bytes, limit " ++ dec (cf_maxEventBytes cfg) in
        match sf_failures o, sf_rawStatus o with
        | Some (_ :: _), raw =>
            (Ok (FinishRetry {| sf_status := Some status; sf_rawStatus := raw; sf_failures := None |}),
             problem EVENT_TOO_LARGE
               (js "session.finished with its failures is " ++ size ++ js "; retried without them") None s)
        | _, Some _ =>
            (Ok (FinishRetry {| sf_status := Some status; sf_rawStatus := None; sf_failures := None |}),
             problem EVENT_TOO_LARGE
               (js "session.finished with its rawStatus is " ++ size ++ js "; retried without it") None s)
        | _, None =>
            (Ok (FinishDone false),
             problem TERMINAL_OUTCOME_NOT_WRITTEN
               (js "session outcome " ++ session_status_text status ++ js " alone is " ++ size
                 ++ js " and cannot be written; no session.finished is emitted and the session stays open")
               None (s <| terminalOutcomeLost := true |>))
        end
    end).

(** The loop. [None]: out of turns, which [finish_loop_ends] excludes. *)
Fixpoint finish_loop (turns : nat) (status : SessionStatus) (o : SessionFinishedPayload) s
    : option (outcome bool) :=
  match turns with
  | O => None
  | Datatypes.S turns' =>
      match finish_turn status o s with
      | (Throw e, s') => Some (Throw e, s')
      | (Ok (FinishDone b), s') => Some (Ok b, s')
      | (Ok (FinishRetry o'), s') => finish_loop turns' status o' s'
      end
  end.

(** [finish] *)
Definition finish (o : SessionFinishedPayload) s : outcome bool :=
  match outcomeViolation o with
  | Some violation =>
      (Ok false, drop_with INVALID_PAYLOAD (js "session.finished " ++ violation ++ js "; dropped") s)
  | None =>
      match acceptsSessionEvents (js "event session.finished") s with
      | (false, s) => (Ok false, s)
      | (true, s) =>
          match sf_status o with
          | None =>
              andThen (write (SessionFinished o) true s) (λ plain s,
                (Ok (is_written plain), if is_written plain then s <| state := SessionFinishedState |> else s))
          | Some status => default (Ok false, s) (finish_loop 3 status o s)
          end
      end
  end.

Definition no_outcome : SessionFinishedPayload :=
  {| sf_status := None; sf_rawStatus := None; sf_failures := None |}.

(** [finishRun] *)
Definition finishRun s : outcome bool :=
  if terminalOutcomeLost s then
    (Ok false, drop_with TERMINAL_OUTCOME_NOT_WRITTEN
       (js "run.finished after a session outcome that could not be written; dropped") s)
  else
    andThen (if bool_decide (state s = Active) then finish no_outcome s else (Ok true, s)) (λ ok s,
      if negb ok then (Ok false, s)
      else if negb (bool_decide (state s = SessionFinishedState)) then
        (Ok false, drop_with RUN_FINISHED
           (js "run.finished emitted after " ++ state_text (state s) ++ js "; dropped") s)
      else
        andThen (write RunFinished true s) (λ attempt s,
          (Ok (is_written attempt), if is_written attempt then s <| state := RunFinishedState |> else s))).

(** [emit] *)
Definition emit (input : Payload) s : outcome bool :=
  match input with
  | RunFinished => finishRun s
  | SessionFinished p => finish p s
  | _ =>
      match acceptsSessionEvents (js "event " ++ payload_type input) s with
      | (false, s) => (Ok false, s)
      | (true, s) => andThen (write input true s) (λ attempt s, (Ok (is_written attempt), s))
      end
  end.

(** [emitAttachment] *)
Definition emitAttachment (input : AttachmentInput) (stored : StoredAttachment) s : outcome bool :=
  emit (AttachmentAdded {| aa_attemptId := ai_attemptId input; aa_stepId := ai_stepId input;
                           aa_name := ai_name input; aa_mediaType := ai_mediaType input;
                           aa_sizeBytes := sa_sizeBytes stored; aa_sha256 := sa_sha256 stored |}) s.

(** [storeFailed] *)
Definition storeFailed (input : AttachmentInput) (e : Thrown) s : outcome bool :=
  (Ok false,
   match e with
   | ThrownBySink (AttachmentTooLargeError _) => problem ATTACHMENT_TOO_LARGE (js "attachment " ++ ai_name input) (Some e) s
   | _ => problem SINK_FAILURE (js "cannot store attachment " ++ ai_name input) (Some e) s
   end).

(** [attach] *)
Definition attach (input : AttachmentInput) (content : bytes) s : outcome bool :=
  match acceptsSessionEvents (js "attachment " ++ ai_name input) s with
  | (false, s) => (Ok false, s)
  | (true, s) =>
      let content := if isTextualMediaType (ai_mediaType input)
                     then cf_utf8_encode cfg (cf_redactText cfg (cf_utf8_decode cfg content)) else content in
      match storeAttachment content (sink s) with
      | (Throw e, k) => storeFailed input (ThrownBySink e) (s <| sink := k |>)
      | (Ok stored, k) => emitAttachment input stored (s <| sink := k |>)
      end
  end.

(** [readBounded] on a file the system opened and read: nothing when it is over the limit. *)
Definition readBounded (content : res SinkError bytes) (limit : Z) : res SinkError (option bytes) :=
  match content with
  | Throw e => Throw e
  | Ok b => Ok (if limit <? Z.of_nat (length b) then None else Some b)
  end.

(** [attachFileSync]; the file is what opening and reading its path gave. *)
Definition attachFileSync (input : AttachmentInput) (file : res SinkError bytes) s : outcome bool :=
  match acceptsSessionEvents (js "attachment " ++ ai_name input) s with
  | (false, s) => (Ok false, s)
  | (true, s) =>
      let limit := maxAttachmentBytes (sink s) in
      match readBounded file limit with
      | Throw e => storeFailed input (ThrownBySink e) s
      | Ok None => storeFailed input (ThrownBySink (AttachmentTooLargeError limit)) s
      | Ok (Some content) => attach input content s
      end
  end.

(** [catch (e) { return this.storeFailed(input, e); }] *)
Definition catching (input : AttachmentInput) (m : outcome bool) : outcome bool :=
  match m with (Ok b, s) => (Ok b, s) | (Throw e, s) => storeFailed input (ThrownByCodec e) s end.

(** [attachFile] up to its [await]: a result, or a stored stream still to announce. *)
Definition attachFile (input : AttachmentInput) (file : res SinkError bytes) s
    : (bool + StoredAttachment) * ReportSession S :=
  let done (m : outcome bool) := match m with (Ok b, s) => (inl b, s) | (Throw _, s) => (inl false, s) end in
  match acceptsSessionEvents (js "attachment " ++ ai_name input) s with
  | (false, s) => (inl false, s)
  | (true, s) =>
      let limit := maxAttachmentBytes (sink s) in
      if isTextualMediaType (ai_mediaType input) then
        match readBounded file limit with
        | Throw e => done (storeFailed input (ThrownBySink e) s)
        | Ok None => done (storeFailed input (ThrownBySink (AttachmentTooLargeError limit)) s)
        | Ok (Some content) => done (catching input (attach input content s))
        end
      else
        match storeAttachmentStream file (sink s) with
        | (Throw e, k) => done (storeFailed input (ThrownBySink e) (s <| sink := k |>))
        | (Ok stored, k) => (inr stored, s <| sink := k |>)
        end
  end.

(** [attachFile] after its [await], in the state other calls have left. *)
Definition attachFile_resume (input : AttachmentInput) (stored : StoredAttachment) s : outcome bool :=
  catching input (emitAttachment input stored s).

(** [close] *)
Definition close s : outcome unit :=
  if bool_decide (state s = Closed) then (Ok tt, s)
  else
    andThen (if bool_decide (state s = Active) && negb (terminalOutcomeLost s)
             then finish no_outcome s else (Ok true, s)) (λ _ s,
      let s := s <| state := Closed |> in
      match sink_close (sink s) with
      | (Throw e, k) => (Ok tt, problem SINK_FAILURE (js "cannot close sink") (Some (ThrownBySink e)) (s <| sink := k |>))
      | (Ok _, k) => (Ok tt, s <| sink := k |>)
      end).

(** [ReportSession.start] *)
Definition new_session (k : S) : ReportSession S :=
  {| sequence_ := 0; written := 0; dropped := 0; state := Active; terminalOutcomeLost := false;
     sink := k; drawn := 0; problems := [] |}.
Definition start (p : SessionStartedPayload) (k : S) : outcome bool := emit (SessionStarted p) (new_session k).

(** A call of a producer. *)
Inductive Call :=
| CEmit (input : Payload)
| CAttach (input : AttachmentInput) (content : bytes)
| CAttachFile (input : AttachmentInput) (file : res SinkError bytes)
| CAttachResume (input : AttachmentInput) (stored : StoredAttachment)
| CAttachFileSync (input : AttachmentInput) (file : res SinkError bytes)
| CFinish (o : SessionFinishedPayload)
| CFinishRun
| CClose.

(** The state after a call, whether it returned or threw. *)
Definition call (c : Call) s : ReportSession S :=
  match c with
  | CEmit p => (emit p s).2
  | CAttach i b => (attach i b s).2
  | CAttachFile i f => (attachFile i f s).2
  | CAttachResume i a => (attachFile_resume i a s).2
  | CAttachFileSync i f => (attachFileSync i f s).2
  | CFinish o => (finish o s).2
  | CFinishRun => (finishRun s).2
  | CClose => (close s).2
  end.

Definition calls (l : list Call) s : ReportSession S := foldl (λ s c, call c s) s l.

(** [summary] *)
Definition summary s : Z * Z := (written s, dropped s).

End session.
