(* ===== verification/SessionSpec.v ===== *)
(** * The session's contract

    An abstract session: the events its sink holds, its phase, and whether its
    outcome was lost. [Step] says how it may move; every call of [ReportSession]
    moves it by such steps, whatever the sink, the clock and the redaction rules
    do. What follows about logs and phases is proved by induction on the steps. *)

From stdpp Require Import relations.
From S2P Require Import Prelude JsString JsMap JsSort Json Model Codec CodecProps History Redactor SafeName Session.

Local Open Scope Z_scope.

(** ** The abstract session *)

Record Abs := { ab_log : list AnyEvent; ab_phase : SessionState; ab_lost : bool }.

Definition is_sf (e : AnyEvent) : bool :=
  match e with Known {| e_payload := SessionFinished _ |} => true | _ => false end.

(** An event that ends neither the session nor the run. *)
Definition plain (e : AnyEvent) : bool := negb (is_sf e) && negb (is_run_finished e).

Section abstract.
Context (cfg : SessionConfig).

(** An event this session may write next. *)
Record next_event (log : list AnyEvent) (e : AnyEvent) : Prop := {
  ne_wf : wf_event e;
  ne_run : runId (any_env e) = cf_runId cfg;
  ne_session : sessionId (any_env e) = cf_sessionId cfg;
  ne_version : protocolVersion (any_env e) = PROTOCOL_VERSION;
  ne_sequence : sequence (any_env e) = Z.of_nat (length log) + 1;
  ne_size : event_bytes e <= cf_maxEventBytes cfg;
}.

Inductive Step : Abs → Abs → Prop :=
| step_event log e :
    next_event log e → plain e = true →
    Step {| ab_log := log; ab_phase := Active; ab_lost := false |}
         {| ab_log := log ++ [e]; ab_phase := Active; ab_lost := false |}
| step_finish log e :
    next_event log e → is_sf e = true →
    Step {| ab_log := log; ab_phase := Active; ab_lost := false |}
         {| ab_log := log ++ [e]; ab_phase := SessionFinishedState; ab_lost := false |}
| step_end log e :
    next_event log e → is_run_finished e = true →
    Step {| ab_log := log; ab_phase := SessionFinishedState; ab_lost := false |}
         {| ab_log := log ++ [e]; ab_phase := RunFinishedState; ab_lost := false |}
| step_lose log :
    Step {| ab_log := log; ab_phase := Active; ab_lost := false |}
         {| ab_log := log; ab_phase := Active; ab_lost := true |}
| step_close log phase lost :
    Step {| ab_log := log; ab_phase := phase; ab_lost := lost |}
         {| ab_log := log; ab_phase := Closed; ab_lost := lost |}.

(** The log of a phase: plain events, then at most the end of the session and of the run. *)
Inductive shape : SessionState → list AnyEvent → Prop :=
| shape_active log : Forall (λ e, plain e = true) log → shape Active log
| shape_finished log e :
    Forall (λ e, plain e = true) log → is_sf e = true → shape SessionFinishedState (log ++ [e])
| shape_ended log e e' :
    Forall (λ e, plain e = true) log → is_sf e = true → is_run_finished e' = true →
    shape RunFinishedState (log ++ [e] ++ [e']).

(** What holds of every reachable abstract session. *)
Record AbsInv (a : Abs) : Prop := {
  ai_events : ∀ log e rest, ab_log a = log ++ e :: rest → next_event log e;
  ai_shape : ∃ phase, shape phase (ab_log a) ∧ (ab_phase a = phase ∨ ab_phase a = Closed) ∧
    (ab_lost a = true → phase = Active);
}.

Lemma snoc_split {A} (log l : list A) (e x : A) rest :
  l ++ [x] = log ++ e :: rest → (l = log ∧ x = e ∧ rest = []) ∨ ∃ rest', l = log ++ e :: rest'.
Proof.
  destruct rest as [|y rest] using rev_ind.
  - intros [-> [= ->]]%app_inj_2; [by left|done].
  - intros H. right. exists rest. change (log ++ e :: rest ++ [y]) with (log ++ (e :: rest) ++ [y]) in H.
    rewrite app_assoc in H. by apply app_inj_tail in H as [-> _].
Qed.

Lemma AbsInv_empty : AbsInv {| ab_log := []; ab_phase := Active; ab_lost := false |}.
Proof.
  split; simpl; [by intros [] ?|]. exists Active. split; [by constructor|]. by split; [left|].
Qed.

Lemma AbsInv_step a a' : Step a a' → AbsInv a → AbsInv a'.
Proof.
  intros Hs [He (phase & Hsh & Hph & Hl)]. destruct Hs as [log e Hn Hp|log e Hn Hp|log e Hn Hp|log|log ph lost];
    simpl in *; destruct Hph as [<-|?]; try done.
  - split; simpl.
    + intros l x rest [(<- & <- & ->)|[r ->]]%snoc_split; [done|by eapply He].
    + exists Active. split; [|by split; [left|]]. inversion Hsh; subst. constructor.
      apply Forall_app. by split; [|constructor].
  - split; simpl.
    + intros l x rest [(<- & <- & ->)|[r ->]]%snoc_split; [done|by eapply He].
    + exists SessionFinishedState. split; [|by split; [left|]]. inversion Hsh; subst. by constructor.
  - split; simpl.
    + intros l x rest [(<- & <- & ->)|[r ->]]%snoc_split; [done|by eapply He].
    + exists RunFinishedState. split; [|by split; [left|]].
      inversion Hsh as [|l x Hx Hy|]; subst. rewrite <-app_assoc. by constructor.
  - split; simpl; [done|]. exists Active. split; [done|]. by split; [left|].
  - split; simpl; [done|]. exists ph. split; [done|]. by split; [right|].
  - split; simpl; [done|]. exists phase. split; [done|]. by split; [right|].
Qed.

Lemma AbsInv_steps a a' : rtc Step a a' → AbsInv a → AbsInv a'.
Proof. induction 1; eauto using AbsInv_step. Qed.

(** A session that is closed, or has lost its outcome, writes nothing more. *)
Definition silent (a : Abs) : Prop :=
  ab_phase a = Closed ∨ ab_phase a = RunFinishedState ∨ ab_lost a = true.

Lemma silent_step a a' : Step a a' → silent a → ab_log a' = ab_log a ∧ silent a'.
Proof.
  intros Hs Ha. destruct Hs; unfold silent in *; simpl in *; try (by destruct Ha as [|[]]).
  split; [done|]. auto.
Qed.

Lemma silent_steps a a' : rtc Step a a' → silent a → ab_log a' = ab_log a ∧ silent a'.
Proof.
  induction 1 as [|x y z Hs _ IH]; intros Ha; [done|].
  destruct (silent_step _ _ Hs Ha) as [E1 E2]. destruct (IH E2) as [E3 E4]. split; [congruence|done].
Qed.

End abstract.

(** ** The calls as steps *)

Section refinement.
Context {S : Type} `{SinkLaws S} (cfg : SessionConfig).
Implicit Types s : ReportSession S.

Abbreviation log s := (committed (sink s)).

Definition abs s : Abs := {| ab_log := log s; ab_phase := state s; ab_lost := terminalOutcomeLost s |}.

(** The counters agree with the log. *)
Definition counted s : Prop := sequence_ s = Z.of_nat (length (log s)) ∧ written s = sequence_ s.

Definition moves s s' : Prop := counted s → counted s' ∧ rtc (Step cfg) (abs s) (abs s').

#[export] Instance moves_preorder : PreOrder moves.
Proof.
  split; [by intros s Hs|]. intros s1 s2 s3 H1 H2 Hs. destruct (H1 Hs) as [C1 R1].
  destruct (H2 C1) as [C2 R2]. split; [done|]. by etrans.
Qed.

(** Nothing the abstract session sees has changed. *)
Definition quiet s s' : Prop :=
  abs s' = abs s ∧ sequence_ s' = sequence_ s ∧ written s' = written s.

Lemma quiet_moves s s' : quiet s s' → moves s s'.
Proof.
  intros (Ha & Hq & Hw) [C1 C2]. unfold counted. rewrite Ha, Hq, Hw.
  assert (log s' = log s) as -> by (by injection Ha). done.
Qed.

(** Problems are only ever added. *)
Definition reported s s' : Prop := ∃ p ps, problems s' = problems s ++ p :: ps.

Lemma reported_trans_l s1 s2 s3 : reported s1 s2 → (problems s3 = problems s2 ∨ reported s2 s3) → reported s1 s3.
Proof.
  intros (p & ps & E) [E2|(q & qs & E2)]; unfold reported.
  - exists p, ps. by rewrite E2, E.
  - exists p, (ps ++ q :: qs). by rewrite E2, E, <-app_assoc.
Qed.

Lemma reported_trans_r s1 s2 s3 : (problems s2 = problems s1 ∨ reported s1 s2) → reported s2 s3 → reported s1 s3.
Proof.
  intros [E|(q & qs & E)] (p & ps & E2); unfold reported.
  - exists p, ps. by rewrite E2, E.
  - exists q, (qs ++ p :: ps). by rewrite E2, E, <-app_assoc.
Qed.

(** What a write did. *)
Inductive write_out (input : Payload) (report : bool) s : res ProtocolError WriteAttempt → ReportSession S → Prop :=
| wo_thrown e s' : quiet s s' → problems s' = problems s → write_out input report s (Throw e) s'
| wo_dropped a s' :
    wa_result a ≠ Written → quiet s s' →
    (report = true ∨ wa_result a = SinkFailure → reported s s') →
    (problems s' = problems s ∨ reported s s') →
    write_out input report s (Ok a) s'
| wo_written a s' event :
    wa_result a = Written →
    redactEvent (cf_redactText cfg) (candidate cfg input s) = Ok event →
    event_bytes event <= cf_maxEventBytes cfg →
    log s' = log s ++ [event] → sequence_ s' = sequence_ s + 1 → written s' = written s + 1 →
    state s' = state s → terminalOutcomeLost s' = terminalOutcomeLost s →
    problems s' = problems s →
    write_out input report s (Ok a) s'.

Lemma write_cases input report s : write_out input report s (write cfg input report s).1 (write cfg input report s).2.
Proof.
  unfold write. destruct (redactEvent _ _) as [event|e] eqn:Er; [|by apply wo_thrown].
  cbv zeta. destruct (Z.ltb_spec (cf_maxEventBytes cfg) (event_bytes event)).
  - apply wo_dropped; [done|by destruct report| |].
    + intros [->|?]; [|done]. by eexists _, [].
    + destruct report; [right; by eexists _, []|by left].
  - simpl. destruct (sink_write event (sink s)) as [[[]|err] k] eqn:Ek; simpl.
    + eapply wo_written; simpl; try done. by eapply write_commits.
    + assert (committed k = log s) as Hk by (by eapply write_loses).
      apply wo_dropped; [done| | |]; try (by intros; eexists _, []); [|by right; eexists _, []].
      split; [|done]. unfold abs. simpl. by rewrite Hk.
Qed.

(** The event written for a payload. *)
Lemma written_event input s event :
  counted s → redactEvent (cf_redactText cfg) (candidate cfg input s) = Ok event →
  event_bytes event <= cf_maxEventBytes cfg →
  next_event cfg (log s) event ∧ any_type event = payload_type input.
Proof.
  intros [C1 C2] Hr Hb. destruct (redactEvent_env _ _ _ Hr) as [He Ht]. split; [|done].
  split; rewrite ?He; try done; simpl; [by eapply redactEvent_wf|lia].
Qed.

Lemma type_known e p : wf_event e → any_type e = payload_type p →
  ∃ env q, e = Known {| e_env := env; e_payload := q |} ∧ payload_type q = payload_type p.
Proof.
  intros [_ Hw] Ht. destruct e as [[env q]|u]; [eauto|].
  destruct Hw as (_ & Hk & _). simpl in Ht. rewrite Ht, payload_type_known in Hk. done.
Qed.

Lemma type_plain e p :
  wf_event e → any_type e = payload_type p →
  is_sf e = match p with SessionFinished _ => true | _ => false end ∧
  is_run_finished e = match p with RunFinished => true | _ => false end.
Proof.
  intros Hw Ht. destruct (type_known e p Hw Ht) as (env & q & -> & Hq).
  by destruct p, q; simpl in *.
Qed.

(** A written event moves the abstract session by one step, to the phase [ph]. *)
Lemma written_moves input report s s' s'' a ph :
  write cfg input report s = (Ok a, s') → wa_result a = Written → terminalOutcomeLost s = false →
  sequence_ s'' = sequence_ s' → written s'' = written s' → sink s'' = sink s' →
  terminalOutcomeLost s'' = terminalOutcomeLost s' → state s'' = ph →
  (state s = Active ∧ match input with
     | SessionFinished _ => ph = SessionFinishedState | RunFinished => False | _ => ph = Active end) ∨
  (state s = SessionFinishedState ∧ input = RunFinished ∧ ph = RunFinishedState) →
  moves s s''.
Proof.
  intros Hw Ha Hl E1 E2 E3 E4 E5 Hcase Hc. pose proof (write_cases input report s) as Ho.
  rewrite Hw in Ho. simpl in Ho. inversion Ho as [|a' s1 Hn|a' s1 event _ Hr Hb Hlog Hsq Hwr Hst Hlo _]; subst; [done|].
  destruct (written_event input s event Hc Hr Hb) as [Hn Ht].
  destruct (type_plain event input (ne_wf _ _ _ Hn) Ht) as [Hsf Hrf]. split.
  - unfold counted in *. rewrite E1, E2, E3, Hsq, Hwr, Hlog, length_app. simpl. lia.
  - apply rtc_once. unfold abs. rewrite E3, E4, Hlo, Hlog, Hl.
    destruct Hcase as [[-> Hph]|(-> & -> & ->)]; [|by apply step_end].
    destruct input; try done; rewrite Hph;
      (apply step_event || apply step_finish); try done; unfold plain; by rewrite Hsf, Hrf.
Qed.

(** ** Finishing *)

Definition keeps s s' : Prop := problems s' = problems s ∨ reported s s'.

#[export] Instance keeps_preorder : PreOrder keeps.
Proof.
  split; [by left|]. intros s1 s2 s3 [E|R] [E2|R2]; unfold keeps.
  - left. congruence.
  - right. eapply reported_trans_r; [by left|done].
  - right. eapply reported_trans_l; [done|by left].
  - right. eapply reported_trans_l; [done|by right].
Qed.

Lemma reported_problem kind m c s : reported s (problem kind m c s).
Proof. by eexists _, []. Qed.
Lemma quiet_problem kind m c s : quiet s (problem kind m c s).
Proof. done. Qed.
Lemma quiet_trans s1 s2 s3 : quiet s1 s2 → quiet s2 s3 → quiet s1 s3.
Proof. unfold quiet. intros (?&?&?) (?&?&?). split_and!; congruence. Qed.

Definition outcome_size (o : SessionFinishedPayload) : nat :=
  (if some_failures (sf_failures o) then 1 else 0) + (if bool_decide (is_Some (sf_rawStatus o)) then 1 else 0).

(** Where an outcome ends: an escaped exception; the event written with its status; or the outcome
    lost, with nothing written and the handler told. *)
Inductive finish_out (status : SessionStatus) s : res ProtocolError bool → ReportSession S → Prop :=
| fo_thrown e s' : quiet s s' → keeps s s' → finish_out status s (Throw e) s'
| fo_written s' env p :
    sf_status p = Some status →
    log s' = log s ++ [Known {| e_env := env; e_payload := SessionFinished p |}] →
    moves s s' → state s' = SessionFinishedState → keeps s s' →
    finish_out status s (Ok true) s'
| fo_lost s' :
    log s' = log s → moves s s' → state s' = state s → terminalOutcomeLost s' = true →
    (∃ q ps, problems s' = problems s ++ ps ++ [q] ∧ pb_kind q = TERMINAL_OUTCOME_NOT_WRITTEN) →
    finish_out status s (Ok false) s'.

Lemma lose_moves s s1 s' :
  quiet s s1 → state s = Active → terminalOutcomeLost s = false →
  sequence_ s' = sequence_ s1 → written s' = written s1 → sink s' = sink s1 →
  state s' = state s1 → terminalOutcomeLost s' = true → moves s s'.
Proof.
  intros (Ha & Hq & Hw) Hst Hl E1 E2 E3 E4 E5 [C1 C2].
  assert (log s1 = log s ∧ state s1 = state s) as [L1 L2] by (by injection Ha).
  split; [unfold counted; rewrite E1, E2, E3, L1; split; congruence|].
  apply rtc_once. unfold abs. rewrite E3, E4, E5, L1, L2, Hst, Hl. apply step_lose.
Qed.

Lemma finish_turn_out status o s :
  state s = Active → terminalOutcomeLost s = false → sf_status o = Some status →
  match finish_turn cfg status o s with
  | (Throw e, s') => finish_out status s (Throw e) s'
  | (Ok (FinishDone b), s') => finish_out status s (Ok b) s'
  | (Ok (FinishRetry o'), s') =>
      quiet s s' ∧ reported s s' ∧ sf_status o' = Some status ∧ (outcome_size o' < outcome_size o)%nat
  end.
Proof.
  intros Hst Hl Hso. unfold finish_turn, andThen.
  pose proof (write_cases (SessionFinished o) false s) as Ho.
  destruct (write cfg (SessionFinished o) false s) as [[a|e] s1] eqn:Ew; simpl in Ho;
    [|inversion Ho; subst; by constructor; [|left]].
  destruct (wa_result a) eqn:Ea.
  - inversion Ho as [|a' s2 Hn|a' s2 event _ Hr Hb Hlog Hsq Hwr Hst' Hlo Hpr]; subst; [congruence|].
    destruct (redactEvent_status _ _ _ _ Hr) as (p' & He & Hp). rewrite Hso in Hp.
    eapply fo_written; [exact Hp| | |done|left; exact Hpr]; [simpl; rewrite Hlog; do 2 f_equal; exact He|].
    eapply written_moves; [exact Ew|exact Ea|exact Hl|done..|by left].
  - inversion Ho as [|a' s2 Hn Hq Hrep Hke|]; subst; [|congruence].
    destruct (sf_failures o) as [[|f fs]|] eqn:Ef; [| |]; destruct (sf_rawStatus o) as [raw|] eqn:Eraw; simpl;
      try (split_and!; [eapply quiet_trans; [exact Hq|done]
                       |eapply reported_trans_r; [exact Hke|apply reported_problem]|done|
                        unfold outcome_size; rewrite Ef, Eraw; simpl; lia]).
    + apply fo_lost; [by destruct Hq as (Hq & _); injection Hq| |by destruct Hq as (Hq & _); injection Hq|done|].
      * by eapply (lose_moves s s1).
      * simpl. destruct Hke as [->|(q & qs & ->)]; [by eexists _, []|]. eexists _, (q :: qs). by rewrite <-app_assoc.
    + apply fo_lost; [by destruct Hq as (Hq & _); injection Hq| |by destruct Hq as (Hq & _); injection Hq|done|].
      * by eapply (lose_moves s s1).
      * simpl. destruct Hke as [->|(q & qs & ->)]; [by eexists _, []|]. eexists _, (q :: qs). by rewrite <-app_assoc.
  - inversion Ho as [|a' s2 Hn Hq Hrep Hke|]; subst; [|congruence].
    apply fo_lost; [by destruct Hq as (Hq & _); injection Hq| |by destruct Hq as (Hq & _); injection Hq|done|].
    * by eapply (lose_moves s s1).
    * simpl. destruct Hke as [->|(q & qs & ->)]; [by eexists _, []|]. eexists _, (q :: qs). by rewrite <-app_assoc.
Qed.

Lemma finish_out_quiet status s s1 r s' :
  quiet s s1 → keeps s s1 → finish_out status s1 r s' → finish_out status s r s'.
Proof.
  intros Hq Hk Ho. pose proof (quiet_moves _ _ Hq) as Hm. pose proof Hq as (Ha & _).
  assert (log s1 = log s ∧ state s1 = state s) as [L1 L2] by (by injection Ha).
  destruct Ho as [e s' H1 H2|s' env p H1 H2 H3 H4 H5|s' H1 H2 H3 H4 (q & ps & H5 & H6)].
  - apply fo_thrown; [by eapply quiet_trans|by etrans].
  - eapply fo_written; [exact H1|by rewrite H2, L1|by etrans|done|by etrans].
  - apply fo_lost; [congruence|by etrans|congruence|done|].
    destruct Hk as [E|(x & xs & E)]; rewrite H5, E; [by exists q, ps|].
    exists q, (x :: xs ++ ps). split; [|done]. simpl; by rewrite <-!app_assoc.
Qed.

(** The loop ends, within one turn more than there is to drop. *)
Lemma finish_loop_out turns status o s :
  state s = Active → terminalOutcomeLost s = false → sf_status o = Some status →
  (outcome_size o < turns)%nat →
  ∃ r s', finish_loop cfg turns status o s = Some (r, s') ∧ finish_out status s r s'.
Proof.
  revert o s. induction turns as [|turns IH]; intros o s Hst Hl Hso Hlt; [lia|].
  cbn [finish_loop]. pose proof (finish_turn_out status o s Hst Hl Hso) as Ht.
  destruct (finish_turn cfg status o s) as [[[b|o']|e] s1]; [eauto| |eauto].
  destruct Ht as (Hq & Hr & Hs' & Hsz). pose proof Hq as (Ha & _).
  assert (state s1 = state s ∧ terminalOutcomeLost s1 = terminalOutcomeLost s) as [L1 L2] by (by injection Ha).
  destruct (IH o' s1) as (r & s' & E & Ho); [congruence|congruence|done|lia|].
  exists r, s'. split; [exact E|]. eapply finish_out_quiet; [exact Hq|by right|exact Ho].
Qed.

Lemma outcome_size_le o : (outcome_size o <= 2)%nat.
Proof. unfold outcome_size. repeat case_match; lia. Qed.

(** ** Every call *)

(** What every method does: steps of the abstract session, problems only added, and at least one
    added when it returns [false]. *)
Definition fine s (m : outcome (S := S) bool) : Prop :=
  moves s m.2 ∧ keeps s m.2 ∧ (m.1 = Ok false → reported s m.2).

Lemma fine_problem kind m c s s' r :
  quiet s s' → keeps s s' → fine s (r, problem kind m c s').
Proof.
  intros Hq Hk. assert (reported s (problem kind m c s')) as Hr.
  { eapply reported_trans_r; [exact Hk|apply reported_problem]. }
  split_and!; [|by right|done]. apply quiet_moves. eapply quiet_trans; [exact Hq|done].
Qed.

Lemma fine_after s s' m : quiet s s' → keeps s s' → fine s' m → fine s m.
Proof.
  intros Hq Hk (H1 & H2 & H3). split_and!.
  - etrans; [by apply quiet_moves|done].
  - by etrans.
  - intros E. eapply reported_trans_r; [exact Hk|auto].
Qed.

Lemma accepts_cases what s :
  (acceptsSessionEvents what s = (true, s) ∧ state s = Active ∧ terminalOutcomeLost s = false) ∨
  (∃ s', acceptsSessionEvents what s = (false, s') ∧ quiet s s' ∧ reported s s').
Proof.
  unfold acceptsSessionEvents. destruct (terminalOutcomeLost s); [|case_bool_decide]; [| by left|];
    right; eexists; (split; [reflexivity|]); (split; [done|]); by eexists _, [].
Qed.

Lemma fine_refused s s' : quiet s s' → reported s s' → fine s (Ok false, s').
Proof. intros Hq Hr. split_and!; [by apply quiet_moves|by right|done]. Qed.

(** A plain write while the session is active. *)
Lemma write_fine input s ph (f : ReportSession S → ReportSession S) :
  terminalOutcomeLost s = false →
  (∀ s, sequence_ (f s) = sequence_ s ∧ written (f s) = written s ∧ sink (f s) = sink s ∧
        terminalOutcomeLost (f s) = terminalOutcomeLost s ∧ problems (f s) = problems s) →
  (∀ s', state s' = state s → state (f s') = ph) →
  (state s = Active ∧ match input with
     | SessionFinished _ => ph = SessionFinishedState | RunFinished => False | _ => ph = Active end) ∨
  (state s = SessionFinishedState ∧ input = RunFinished ∧ ph = RunFinishedState) →
  fine s (andThen (write cfg input true s) (λ a s, (Ok (is_written a), if is_written a then f s else s))).
Proof.
  intros Hl Hf Hph Hcase. pose proof (write_cases input true s) as Ho. unfold andThen, is_written.
  destruct (write cfg input true s) as [[a|e] s1] eqn:Ew; simpl in Ho.
  - inversion Ho as [|a' s2 Hn Hq Hrep Hke|a' s2 event Ha Hr Hb Hlog Hsq Hwr Hst Hlo Hpr]; subst.
    + destruct (wa_result a) eqn:Ea; [done| |]; split_and!; simpl; auto using quiet_moves.
    + rewrite Ha. destruct (Hf s1) as (F1 & F2 & F3 & F4 & F5). split_and!; simpl; [|left; congruence|done].
      by apply (written_moves input true s s1 (f s1) a ph); auto.
  - inversion Ho as [e' s2 Hq Hpr| |]; subst. split_and!; simpl; [by apply quiet_moves|by left|done].
Qed.

Lemma finish_out_fine status s r s' : finish_out status s r s' → fine s (r, s').
Proof.
  intros [e s1 H1|s1 env p H1 H2 H3 H4 H5|s1 H1 H2 H3 H4 (q & ps & H5 & H6)]; split_and!; simpl; try done.
  - by apply quiet_moves.
  - right. destruct ps as [|x ps]; [by exists q, []|]. by exists x, (ps ++ [q]).
  - intros _. destruct ps as [|x ps]; [by exists q, []|]. by exists x, (ps ++ [q]).
Qed.

Lemma finish_fine o s : fine s (finish cfg o s).
Proof.
  unfold finish. destruct (outcomeViolation o) as [violation|].
  { apply fine_problem; [done|by left]. }
  destruct (accepts_cases (js "event session.finished") s) as [(-> & Hst & Hl)|(s' & -> & Hq & Hr)];
    [|by apply fine_refused].
  destruct (sf_status o) as [status|] eqn:Es.
  - destruct (finish_loop_out 3 status o s Hst Hl Es) as (r & s' & -> & Ho).
    { pose proof (outcome_size_le o). lia. }
    by eapply finish_out_fine.
  - apply (write_fine (SessionFinished o) s SessionFinishedState (λ s, s <| state := SessionFinishedState |>));
      [done|done|done|by left].
Qed.

Lemma plain_write_fine input s :
  state s = Active → terminalOutcomeLost s = false →
  match input with SessionFinished _ | RunFinished => False | _ => True end →
  fine s (andThen (write cfg input true s) (λ a s, (Ok (is_written a), s))).
Proof.
  intros Hst Hl Hi. pose proof (write_fine input s Active id Hl) as Hw. unfold andThen in *.
  destruct (write cfg input true s) as [[a|e] s1]; simpl in *;
    [destruct (is_written a)|]; apply Hw; try done; try congruence; left; by destruct input.
Qed.

Lemma finishRun_fine s : fine s (finishRun cfg s).
Proof.
  unfold finishRun. destruct (terminalOutcomeLost s) eqn:Hl.
  { apply fine_problem; [done|by left]. }
  assert (∀ s1, terminalOutcomeLost s1 = false →
    fine s1 (if negb (bool_decide (state s1 = SessionFinishedState)) then
        (Ok false, drop_with RUN_FINISHED
           (js "run.finished emitted after " ++ state_text (state s1) ++ js "; dropped") s1)
      else
        andThen (write cfg RunFinished true s1) (λ attempt s,
          (Ok (is_written attempt), if is_written attempt then s <| state := RunFinishedState |> else s)))) as Hend.
  { intros s1 Hl1. case_bool_decide as Hst; simpl.
    - pose (ended := λ s : ReportSession S, s <| state := RunFinishedState |>).
      apply (write_fine RunFinished s1 RunFinishedState ended); auto.
    - apply fine_problem; [done|by left]. }
  case_bool_decide as Hst; [|by apply Hend].
  pose proof (finish_fine no_outcome s) as Hf. unfold andThen at 1.
  destruct (finish cfg no_outcome s) as [[[]|e] s1] eqn:Ef; simpl in *.
  - assert (terminalOutcomeLost s1 = false) as Hl1.
    { unfold finish in Ef. simpl in Ef. destruct (acceptsSessionEvents _ s) as [[] s0] eqn:Ea; [|by simplify_eq].
      assert (terminalOutcomeLost s0 = false) as Hl0.
      { unfold acceptsSessionEvents in Ea. rewrite Hl in Ea. rewrite bool_decide_true in Ea by done. by simplify_eq. }
      pose proof (write_cases (SessionFinished no_outcome) true s0) as Ho. unfold andThen in Ef.
      destruct (write cfg (SessionFinished no_outcome) true s0) as [[a|e] s2]; [|done].
      simpl in Ho. inversion Ho as [|a' s3 Hn Hq|a' s3 event Ha Hr Hb Hlog Hsq Hwr Hst' Hlo]; subst.
      - unfold is_written in Ef. destruct (wa_result a); [done|by simplify_eq|by simplify_eq].
      - unfold is_written in Ef. rewrite Ha in Ef. simplify_eq/=. congruence. }
    destruct Hf as (M1 & K1 & _). destruct (Hend s1 Hl1) as (M2 & K2 & R2). split_and!.
    + etrans; [exact M1|exact M2].
    + etrans; [exact K1|exact K2].
    + intros E. eapply reported_trans_r; [exact K1|by apply R2].
  - exact Hf.
  - destruct Hf as (M1 & K1 & _). by split_and!.
Qed.

Lemma emit_fine input s : fine s (emit cfg input s).
Proof.
  destruct input as [p|p| |p|p|p|p|p|p]; [|apply finish_fine|apply finishRun_fine|..]; cbn [emit].
  all: match goal with |- context [acceptsSessionEvents ?w ?s0] =>
    destruct (accepts_cases w s0) as [(-> & Hst & Hl)|(s' & -> & Hq & Hr)]; [|by apply fine_refused] end.
  all: by apply plain_write_fine.
Qed.

Lemma quiet_sink s k : committed k = log s → quiet s (s <| sink := k |>).
Proof. intros Hk. unfold quiet, abs. simpl. by rewrite Hk. Qed.

Lemma storeFailed_fine input e s s' :
  quiet s s' → keeps s s' → fine s (storeFailed input e s').
Proof. intros Hq Hk. unfold storeFailed. destruct e as [[]|]; by apply fine_problem. Qed.

Lemma attach_fine input b s : fine s (attach cfg input b s).
Proof.
  unfold attach. destruct (accepts_cases (js "attachment " ++ ai_name input) s)
    as [(-> & Hst & Hl)|(s' & -> & Hq & Hr)]; [|by apply fine_refused].
  cbv zeta. set (content := if isTextualMediaType _ then _ else _).
  pose proof (store_keeps content (sink s)) as Hk.
  destruct (storeAttachment content (sink s)) as [[stored|e] k]; simpl in Hk.
  - apply (fine_after s (s <| sink := k |>)); [by apply quiet_sink|by left|]. apply emit_fine.
  - apply storeFailed_fine; [by apply quiet_sink|by left].
Qed.

Lemma attachFileSync_fine input f s : fine s (attachFileSync cfg input f s).
Proof.
  unfold attachFileSync. destruct (accepts_cases (js "attachment " ++ ai_name input) s)
    as [(-> & Hst & Hl)|(s' & -> & Hq & Hr)]; [|by apply fine_refused].
  cbv zeta. destruct (readBounded f _) as [[b|]|e]; [apply attach_fine| |]; apply storeFailed_fine; done || by left.
Qed.

Lemma catching_fine input s m : fine s m → fine s (catching input m).
Proof.
  destruct m as [[b|e] s']; simpl; [done|]. intros (M & K & _).
  assert (reported s (storeFailed input (ThrownByCodec e) s').2) as Hr.
  { eapply reported_trans_r; [exact K|]. by eexists _, []. }
  split_and!; [|by right|done]. etrans; [exact M|]. by apply quiet_moves.
Qed.

Lemma attachFile_resume_fine input a s : fine s (attachFile_resume cfg input a s).
Proof. apply catching_fine, emit_fine. Qed.

Lemma attachFile_fine input f s :
  moves s (attachFile cfg input f s).2 ∧ keeps s (attachFile cfg input f s).2 ∧
  ((attachFile cfg input f s).1 = inl false → reported s (attachFile cfg input f s).2).
Proof.
  assert (∀ m, fine s m → is_ok m.1 = true →
    let r := match m with (Ok b, s) => (inl b, s) | (Throw _, s) => (inl false, s) end
      : (bool + StoredAttachment) * ReportSession S in
    moves s r.2 ∧ keeps s r.2 ∧ (r.1 = inl false → reported s r.2)) as Hdone.
  { intros [[b|e] s'] (M & K & R) Hok; [|done]. cbv zeta. simpl in *. split_and!; try done.
    intros [= ->]. auto. }
  unfold attachFile. destruct (accepts_cases (js "attachment " ++ ai_name input) s)
    as [(-> & Hst & Hl)|(s' & -> & Hq & Hr)]; [|by split_and!; [apply quiet_moves|right|]].
  cbv zeta. destruct (isTextualMediaType _).
  - destruct (readBounded f _) as [[b|]|e]; apply Hdone; try done.
    + apply catching_fine, attach_fine.
    + by destruct (attach cfg input b s) as [[]].
    + by apply storeFailed_fine; [|left].
    + by apply storeFailed_fine; [|left].
  - pose proof (stream_keeps f (sink s)) as Hk.
    destruct (storeAttachmentStream f (sink s)) as [[stored|e] k]; simpl in Hk.
    + simpl. split_and!; [by apply quiet_moves, quiet_sink|by left|done].
    + apply Hdone; [|done]. by apply storeFailed_fine; [apply quiet_sink|left].
Qed.

Lemma closed_moves s s' :
  log s' = log s → state s' = Closed → sequence_ s' = sequence_ s → written s' = written s →
  terminalOutcomeLost s' = terminalOutcomeLost s → moves s s'.
Proof.
  intros E1 E2 E3 E4 E5 [C1 C2]. split; [unfold counted; rewrite E1, E3, E4; by split|].
  apply rtc_once. unfold abs. rewrite E1, E2, E5. apply step_close.
Qed.

Lemma close_moves s : moves s (close cfg s).2 ∧ keeps s (close cfg s).2.
Proof.
  unfold close. case_bool_decide; [by split|].
  assert (∀ s1, let r := (let s := s1 <| state := Closed |> in
      match sink_close (sink s) with
      | (Throw e, k) => (Ok (E := ProtocolError) tt, problem SINK_FAILURE (js "cannot close sink") (Some (ThrownBySink e)) (s <| sink := k |>))
      | (Ok _, k) => (Ok tt, s <| sink := k |>)
      end) in moves s1 r.2 ∧ keeps s1 r.2) as Hc.
  { intros s1. cbv zeta. simpl. pose proof (close_keeps (sink s1)) as Hk.
    destruct (sink_close (sink s1)) as [[[]|e] k]; simpl in *; split; try by apply closed_moves.
    - by left.
    - right. by eexists _, []. }
  destruct (bool_decide _ && _).
  - pose proof (finish_fine no_outcome s) as (M & K & _). unfold andThen.
    destruct (finish cfg no_outcome s) as [[b|e] s1]; simpl in M, K; [|by split].
    destruct (Hc s1) as [M2 K2]. split; [etrans; [exact M|exact M2]|etrans; [exact K|exact K2]].
  - apply Hc.
Qed.

Lemma call_moves c s : moves s (call cfg c s) ∧ keeps s (call cfg c s).
Proof.
  destruct c as [p|i b|i f|i a|i f|o| |]; simpl.
  - by destruct (emit_fine p s) as (? & ? & _).
  - by destruct (attach_fine i b s) as (? & ? & _).
  - by destruct (attachFile_fine i f s) as (? & ? & _).
  - by destruct (attachFile_resume_fine i a s) as (? & ? & _).
  - by destruct (attachFileSync_fine i f s) as (? & ? & _).
  - by destruct (finish_fine o s) as (? & ? & _).
  - by destruct (finishRun_fine s) as (? & ? & _).
  - apply close_moves.
Qed.

Lemma calls_moves l s : moves s (calls cfg l s).
Proof.
  revert s. induction l as [|c l IH]; intros s; simpl; [done|]. etrans; [apply call_moves|apply IH].
Qed.

End refinement.

(** ** A sink in memory *)

(** Events kept in memory, up to a number of them: a sink with its laws. *)
Record MemorySink := { ms_events : list AnyEvent; ms_room : nat; ms_limit : Z }.

#[export] Instance MemorySink_sink : Sink MemorySink := {
  maxAttachmentBytes := ms_limit;
  sink_write := λ e k,
    match ms_room k with
    | O => (Throw (SinkFailed (js "full")), k)
    | Datatypes.S n => (Ok tt, {| ms_events := ms_events k ++ [e]; ms_room := n; ms_limit := ms_limit k |})
    end;
  storeAttachment := λ b k,
    if Z.of_nat (length b) <=? max_safe_integer then (Ok {| sa_sha256 := []; sa_sizeBytes := Z.of_nat (length b) |}, k)
    else (Throw (SinkFailed (js "too long")), k);
  storeAttachmentStream := λ f k,
    (match f with Ok b => Ok {| sa_sha256 := []; sa_sizeBytes := Z.of_nat (length b) |} | Throw e => Throw e end, k);
  sink_close := λ k, (Ok tt, k);
}.

#[export, refine] Instance MemorySink_laws : SinkLaws MemorySink := { committed := ms_events }.
Proof.
  - intros e s s'. simpl. destruct (ms_room s); by intros [= <-].
  - intros e err s s'. simpl. destruct (ms_room s); by intros [= <- <-].
  - intros b s. simpl. by destruct (_ <=? _).
  - done.
  - done.
Defined.

Definition memory (room : nat) : MemorySink := {| ms_events := []; ms_room := room; ms_limit := 1000 |}.

Definition demo_config (max : Z) : SessionConfig :=
  {| cf_runId := js "run-1"; cf_sessionId := js "s1"; cf_maxEventBytes := max;
     cf_ids := λ n, js "e" ++ dec (Z.of_nat n); cf_clock := λ _, js "2024-05-01T10:00:00.000Z";
     cf_redactText := λ s, s; cf_utf8_decode := λ _, []; cf_utf8_encode := λ _, [] |}.

Definition demo_start : SessionStartedPayload :=
  {| ss_producer := {| c_name := js "reporter"; c_version := None |}; ss_runner := None;
     ss_environment := None; ss_executor := None; ss_source := None; ss_labels := None |}.

Definition demo_failed : SessionFinishedPayload :=
  {| sf_status := Some SeFailed; sf_rawStatus := Some (js "boom");
     sf_failures := Some [{| f_message := js "a long message that will not fit"; f_type := None;
       f_stackTrace := None; f_phase := None; f_location := None |}] |}.

Definition demo_calls : list Call :=
  [CEmit (SessionStarted demo_start); CFinish demo_failed; CFinishRun; CClose].

(** ** Lemmas on logs *)

Section logs.
Context {S : Type} `{SinkLaws S} (cfg : SessionConfig).

Lemma fresh_reaches l (k : S) :
  committed k = [] →
  counted (calls cfg l (new_session k)) ∧
  rtc (Step cfg) {| ab_log := []; ab_phase := Active; ab_lost := false |} (abs (calls cfg l (new_session k))).
Proof.
  intros Hk. pose proof (calls_moves cfg l (new_session k)) as Hm.
  destruct (Hm (conj (f_equal (λ l, Z.of_nat (length l)) (eq_sym Hk)) eq_refl)) as [C R]. split; [done|].
  unfold abs at 1 in R. simpl in R. by rewrite Hk in R.
Qed.

Lemma fresh_invariant l (k : S) :
  committed k = [] → AbsInv cfg (abs (calls cfg l (new_session k))).
Proof.
  intros Hk. destruct (fresh_reaches l k Hk) as [_ R]. eapply AbsInv_steps; [exact R|apply AbsInv_empty].
Qed.

(** In any phase, only the end of the run comes after the end of the session. *)
Lemma shape_before phase log h e rest :
  shape phase log → log = h ++ e :: rest →
  (∀ x, x ∈ h → plain x = true) ∨ is_run_finished e = true.
Proof.
  intros Hs Heq. destruct Hs as [log Hl|log x Hl Hx|log x y Hl Hx Hy].
  - left. intros z Hz. rewrite Forall_forall in Hl. apply Hl. rewrite Heq. set_solver.
  - apply snoc_split in Heq as [(-> & _ & _)|[r ->]]; left; intros z Hz; rewrite Forall_forall in Hl; apply Hl; set_solver.
  - rewrite app_assoc in Heq. apply snoc_split in Heq as [(<- & <- & _)|[r Heq]]; [by right|left].
    apply snoc_split in Heq as [(-> & _ & _)|[r' ->]]; intros z Hz; rewrite Forall_forall in Hl; apply Hl; set_solver.
Qed.

Lemma last_sequence_all h sid :
  (∀ log e rest, h = log ++ e :: rest →
     sequence (any_env e) = Z.of_nat (length log) + 1 ∧ sessionId (any_env e) = sid) →
  last_sequence h sid = Z.of_nat (length h).
Proof.
  induction h as [|e h _] using rev_ind; intros Ha; [done|].
  destruct (Ha h e [] eq_refl) as [Hq Hs]. rewrite last_sequence_snoc.
  rewrite (proj2 (of_session_eq sid e) Hs), Hq, length_app. simpl. lia.
Qed.

Lemma plain_not_finished h sid : (∀ x, x ∈ h → plain x = true) → sess_finished h sid = None.
Proof.
  intros Hp. apply eq_None_not_Some. intros [p (e & He & Hf)%find_map_Some].
  specialize (Hp e He). by destruct e as [[env []]|].
Qed.

(** A log with the abstract session's invariant obeys the session rule of the protocol. *)
Lemma invariant_session_rule a e0 tl :
  AbsInv cfg a → ab_log a = e0 :: tl → is_session_started e0 = true →
  (∀ e, e ∈ tl → is_session_started e = false) →
  ∀ h e rest, ab_log a = h ++ e :: rest → session_rule h e.
Proof.
  intros [He (phase & Hsh & _)] Hlog Hst Htl h e rest Heq. pose proof (He h e rest Heq) as Hn.
  unfold session_rule. destruct h as [|x h].
  { simpl in Heq. rewrite Hlog in Heq. simplify_eq. rewrite Hst. split; [done|]. apply (ne_sequence _ _ _ Hn). }
  rewrite Hlog in Heq. simplify_eq/=.
  rewrite (Htl e) by set_solver.
  assert (∀ l y r, x :: h = l ++ y :: r → next_event cfg l y) as Hpre.
  { intros l y r Hl. apply (He l y (r ++ e :: rest)). rewrite Hlog.
    change (x :: h ++ e :: rest) with ((x :: h) ++ e :: rest). by rewrite Hl, <-app_assoc. }
  assert (sessionId (any_env x) = sessionId (any_env e)) as Hx.
  { rewrite (ne_session _ _ _ Hn). apply (ne_session _ _ _ (Hpre [] x h eq_refl)). }
  split_and!.
  - apply (find_map_hit (starts_session (sessionId (any_env e))) (x :: h) x); [by left|].
    destruct x as [[env []]|]; try done. simpl in *. rewrite Hx, str_eqb_refl. eauto.
  - rewrite (last_sequence_all (x :: h)); [apply (ne_sequence _ _ _ Hn)|].
    intros l y r Hl. pose proof (Hpre l y r Hl) as Hy. split; [apply (ne_sequence _ _ _ Hy)|].
    by rewrite (ne_session _ _ _ Hy), (ne_session _ _ _ Hn).
  - destruct (shape_before phase _ (x :: h) e rest Hsh Hlog) as [Hp|Hp]; [left|by right].
    exact (plain_not_finished (x :: h) _ Hp).
Qed.
End logs.

(** ** Properties *)

(** C3 Refinement: whatever a producer calls, in whatever order, and whatever the sink, the clock,
    the identifiers and the redaction rules do, a session moves only by steps of the abstract
    session: plain events while active, one end of the session, one end of the run, the loss of its
    outcome, and closing. *)
Theorem session_refines_steps {S} `{SinkLaws S} cfg l (k : S) :
  committed k = [] →
  rtc (Step cfg) {| ab_log := []; ab_phase := Active; ab_lost := false |}
    (abs (calls cfg l (new_session k))).
Proof. intros Hk. by apply fresh_reaches. Qed.

Lemma session_refines_steps_witness :
  committed (memory 9) = [] ∧
  rtc (Step (demo_config 1000)) {| ab_log := []; ab_phase := Active; ab_lost := false |}
    (abs (calls (demo_config 1000) demo_calls (new_session (memory 9)))).
Proof.
  split; [reflexivity|]. exact (session_refines_steps (demo_config 1000) demo_calls (memory 9) eq_refl).
Defined.

(** The log of a session: every event is well-formed, carries the session's ids and the
    protocol's version, is within the size limit, and is numbered 1, 2, 3, ... without a gap; the
    session ends at most once, the run at most once and after the session, and nothing follows. *)
Theorem session_log_invariant {S} `{SinkLaws S} cfg l (k : S) :
  committed k = [] → AbsInv cfg (abs (calls cfg l (new_session k))).
Proof. by apply fresh_invariant. Qed.

Lemma session_log_invariant_witness :
  committed (memory 9) = [] ∧
  AbsInv (demo_config 1000) (abs (calls (demo_config 1000) demo_calls (new_session (memory 9)))).
Proof.
  split; [reflexivity|]. exact (session_log_invariant (demo_config 1000) demo_calls (memory 9) eq_refl).
Defined.

(** A log that begins with its [session.started], and has no second one, obeys the session rule
    of the protocol: the one the validator checks. *)
Theorem session_log_obeys_protocol {S} `{SinkLaws S} cfg l (k : S) e0 tl :
  committed k = [] → committed (sink (calls cfg l (new_session k))) = e0 :: tl →
  is_session_started e0 = true → (∀ e, e ∈ tl → is_session_started e = false) →
  ∀ h e rest, e0 :: tl = h ++ e :: rest → session_rule h e.
Proof.
  intros Hk Hlog H0' Htl h e rest Heq. pose proof (fresh_invariant cfg l k Hk) as Hi.
  eapply (invariant_session_rule cfg _ e0 tl Hi Hlog H0' Htl). simpl. rewrite Hlog. exact Heq.
Qed.

Lemma session_log_obeys_protocol_witness :
  ∃ e0 tl, committed (sink (calls (demo_config 1000) demo_calls (new_session (memory 9)))) = e0 :: tl ∧
    length tl = 2%nat ∧ ∀ h e rest, e0 :: tl = h ++ e :: rest → session_rule h e.
Proof.
  assert (∃ e0 e1 e2, committed (sink (calls (demo_config 1000) demo_calls (new_session (memory 9)))) = [e0; e1; e2] ∧
    is_session_started e0 = true ∧ is_session_started e1 = false ∧ is_session_started e2 = false)
    as (e0 & e1 & e2 & E & S0 & S1 & S2).
  { do 3 eexists. split; [vm_compute; reflexivity|]. by split_and!; vm_compute. }
  assert (committed (memory 9) = []) as Hk by reflexivity.
  exists e0, [e1; e2]. split; [exact E|]. split; [reflexivity|].
  apply (session_log_obeys_protocol (demo_config 1000) demo_calls (memory 9) e0 [e1; e2] Hk E S0).
  intros e [->|[->|[]%elem_of_nil]%elem_of_cons]%elem_of_cons; [exact S1|exact S2].
Defined.

(** The status of a session is never erased: finishing an open session with a status either
    writes a [session.finished] that carries that status, or writes none, marks the outcome lost and
    tells the handler; otherwise an exception of the codec escapes and nothing was written. The loop
    of reductions always ends. *)
Theorem finish_keeps_status {S} `{SinkLaws S} cfg o status (s : ReportSession S) :
  state s = Active → terminalOutcomeLost s = false → sf_status o = Some status →
  outcomeViolation o = None →
  ∃ r s', finish_loop cfg 3 status o s = Some (r, s') ∧ finish cfg o s = (r, s') ∧
    finish_out cfg status s r s'.
Proof.
  intros Hst Hl Hs Hv. destruct (finish_loop_out cfg 3 status o s Hst Hl Hs) as (r & s' & E & Ho).
  { pose proof (outcome_size_le o). lia. }
  exists r, s'. split; [done|]. split; [|done]. unfold finish. rewrite Hv.
  destruct (accepts_cases (js "event session.finished") s) as [(-> & _)|(s1 & Ha & _)].
  - by rewrite Hs, E.
  - unfold acceptsSessionEvents in Ha. rewrite Hl, bool_decide_true in Ha by done. done.
Qed.

Lemma finish_keeps_status_witness :
  let s := new_session (memory 9) in
  ∃ r s', finish (demo_config 250) demo_failed s = (r, s') ∧ finish_out (demo_config 250) SeFailed s r s'.
Proof.
  intros s. destruct (finish_keeps_status (demo_config 250) demo_failed SeFailed s eq_refl eq_refl eq_refl eq_refl)
    as (r & s' & _ & E & Ho). exists r, s'. split; [exact E|exact Ho].
Defined.

(** A closed session, a session whose run has ended, and one whose outcome was lost accept
    nothing: no call ever adds an event to their log. *)
Theorem silent_session_writes_nothing {S} `{SinkLaws S} cfg l l' (k : S) :
  committed k = [] →
  let s := calls cfg l (new_session k) in
  state s = Closed ∨ state s = RunFinishedState ∨ terminalOutcomeLost s = true →
  committed (sink (calls cfg l' s)) = committed (sink s).
Proof.
  intros Hk s Hsil. destruct (fresh_reaches cfg l k Hk) as [C _].
  destruct (calls_moves cfg l' s C) as [_ R]. by destruct (silent_steps cfg _ _ R Hsil).
Qed.

Lemma silent_session_writes_nothing_witness :
  let s := calls (demo_config 1000) demo_calls (new_session (memory 9)) in
  state s = Closed ∧
  committed (sink (calls (demo_config 1000) [CEmit RunFinished; CFinish demo_failed] s)) = committed (sink s).
Proof.
  intros s. assert (state s = Closed) as Hc by (by vm_compute). split; [exact Hc|].
  exact (silent_session_writes_nothing (demo_config 1000) demo_calls
    [CEmit RunFinished; CFinish demo_failed] (memory 9) eq_refl (or_introl Hc)).
Defined.

(** The handler is always told: a call that returns [false] has reported a problem, and no call
    takes a problem back. *)
Theorem false_is_reported {S} `{SinkLaws S} cfg (s : ReportSession S) p i b f :
  ((emit cfg p s).1 = Ok false → reported s (emit cfg p s).2) ∧
  ((attach cfg i b s).1 = Ok false → reported s (attach cfg i b s).2) ∧
  ((attachFileSync cfg i f s).1 = Ok false → reported s (attachFileSync cfg i f s).2) ∧
  ((attachFile cfg i f s).1 = inl false → reported s (attachFile cfg i f s).2) ∧
  ((finishRun cfg s).1 = Ok false → reported s (finishRun cfg s).2).
Proof.
  split_and!; [apply emit_fine|apply attach_fine|apply attachFileSync_fine|apply attachFile_fine|
    apply finishRun_fine].
Qed.

(** The counters of the summary: what a session counts as written is what its sink holds. *)
Theorem summary_counts_log {S} `{SinkLaws S} cfg l (k : S) :
  committed k = [] →
  let s := calls cfg l (new_session k) in
  (summary s).1 = Z.of_nat (length (committed (sink s))) ∧ sequence_ s = (summary s).1.
Proof.
  intros Hk s. destruct (fresh_reaches cfg l k Hk) as [[C1 C2] _]. unfold summary. simpl.
  fold s in C1, C2. split; congruence.
Qed.

Lemma summary_counts_log_witness :
  committed (memory 2) = [] ∧
  let s := calls (demo_config 1000) demo_calls (new_session (memory 2)) in
  (summary s).1 = Z.of_nat (length (committed (sink s))).
Proof.
  split; [reflexivity|].
  exact (proj1 (summary_counts_log (demo_config 1000) demo_calls (memory 2) eq_refl)).
Defined.

(** A payload that breaks a rule of the protocol is not dropped with a problem: the codec's
    exception escapes from [emit], and the handler hears nothing. *)
Theorem invalid_payload_escapes cfg attempt test room :
  let s := new_session (memory room) in
  let p := AttemptStarted {| as_attemptId := attempt; as_attemptNumber := 0; as_test := test |} in
  ∃ e, (emit cfg p s).1 = Throw e ∧ problems (emit cfg p s).2 = [].
Proof.
  intros s p. unfold emit, s, acceptsSessionEvents, write, andThen. simpl.
  destruct (redactEvent (cf_redactText cfg) (candidate cfg p (new_session (memory room)))) as [ev|e] eqn:E;
    [|by exists e].
  exfalso. pose proof (redactEvent_wf _ _ _ E) as [_ Hw].
  destruct (redactEvent_number _ _ _ _ E) as (q & He & Hq). rewrite He in Hw. simpl in Hw, Hq. lia.
Qed.
