(* ===== verification/SessionEmit.v ===== *)
(** * How a session uses its sink

    Whatever a producer calls, the sink of a session goes through the sink's own
    methods only: what every method keeps, a session keeps. *)

From stdpp Require Import relations.
From S2P Require Import Prelude JsString JsBytes JsMap JsSort Json Model Codec CodecProps History Redactor SafeName Session SessionSpec.

Local Open Scope Z_scope.

Inductive sink_step {S : Type} `{Sink S} : S → S → Prop :=
| step_write e k : sink_step k (sink_write e k).2
| step_store b k : sink_step k (storeAttachment b k).2
| step_stream b k : sink_step k (storeAttachmentStream b k).2
| step_close k : sink_step k (sink_close k).2.

Section path.
Context {S : Type} `{Sink S} (cfg : SessionConfig).
Implicit Types s : ReportSession S.

(** One move: the sink as it was, or a method of it; what was dropped and written is not undone. *)
Record move s s' : Prop := {
  mv_sink : sink s' = sink s ∨ sink_step (sink s) (sink s');
  mv_dropped : dropped s <= dropped s';
  mv_sequence : sequence_ s <= sequence_ s';
}.

Definition path : ReportSession S → ReportSession S → Prop := rtc move.

#[export] Instance path_preorder : PreOrder path.
Proof. unfold path. apply _. Qed.

Lemma path_same s s' : sink s' = sink s → dropped s <= dropped s' → sequence_ s <= sequence_ s' → path s s'.
Proof. intros E Hd Hq. apply rtc_once. split; [by left|done|done]. Qed.

Lemma path_step s s' :
  sink_step (sink s) (sink s') → dropped s <= dropped s' → sequence_ s <= sequence_ s' → path s s'.
Proof. intros E Hd Hq. apply rtc_once. split; [by right|done|done]. Qed.

Ltac moved :=
  solve [reflexivity | apply path_same; [reflexivity|simpl; lia|simpl; lia] | apply path_step; [assumption|simpl; lia|simpl; lia]].

Lemma path_andThen {A B} (m : outcome A) (f : A → ReportSession S → outcome B) s :
  path s m.2 → (∀ a s', path s' (f a s').2) → path s (andThen m f).2.
Proof. intros Hm Hf. destruct m as [[a|e] s']; simpl in *; [|done]. by etrans; [apply Hm|]. Qed.

Lemma write_path input report s : path s (write cfg input report s).2.
Proof.
  unfold write. destruct (redactEvent _ _) as [event|e]; [|moved].
  cbv zeta. destruct (_ <? _); [destruct report; moved|]. simpl.
  pose proof (step_write event (sink s)) as Hs.
  destruct (sink_write event (sink s)) as [[[]|err] k]; moved.
Qed.

Lemma accepts_path what s : path s (acceptsSessionEvents what s).2.
Proof. unfold acceptsSessionEvents. repeat case_match; moved. Qed.

(** What is done once a call is accepted. *)
Lemma accepted_path {A} what s (refuse : ReportSession S → A) (f : ReportSession S → A) (out : A → ReportSession S) :
  (∀ s', path s' (out (refuse s'))) → (∀ s', path s' (out (f s'))) →
  path s (out (match acceptsSessionEvents what s with (false, s) => refuse s | (true, s) => f s end)).
Proof.
  intros Hr Hf. pose proof (accepts_path what s) as Ha. destruct (acceptsSessionEvents what s) as [[] s'];
    by etrans; [apply Ha|].
Qed.

Lemma finish_turn_path status o s : path s (finish_turn cfg status o s).2.
Proof.
  apply path_andThen; [apply write_path|]. intros a s'. repeat case_match; moved.
Qed.

Lemma finish_loop_path turns status o s r s' : finish_loop cfg turns status o s = Some (r, s') → path s s'.
Proof.
  revert o s. induction turns as [|turns IH]; intros o s; simpl; [done|].
  pose proof (finish_turn_path status o s) as Ht. destruct (finish_turn cfg status o s) as [[[b|o']|e] s1]; simpl in Ht.
  - by intros [= _ <-].
  - intros Hl. by etrans; [exact Ht|eapply IH].
  - by intros [= _ <-].
Qed.

Lemma finish_path o s : path s (finish cfg o s).2.
Proof.
  unfold finish. destruct (outcomeViolation o); [moved|].
  apply (accepted_path _ _ _ _ snd); [done|]. intros s1. destruct (sf_status o) as [status|].
  - destruct (finish_loop cfg 3 status o s1) as [[r s2]|] eqn:El; [|done]. by eapply finish_loop_path.
  - apply path_andThen; [apply write_path|]. intros a s2. simpl. destruct (is_written a); moved.
Qed.

Lemma finishRun_path s : path s (finishRun cfg s).2.
Proof.
  unfold finishRun. destruct (terminalOutcomeLost s); [moved|].
  apply path_andThen; [destruct (bool_decide _); [apply finish_path|done]|].
  intros [] s1; simpl; [|done]. destruct (negb _); [moved|].
  apply path_andThen; [apply write_path|]. intros a s2. destruct (is_written a); moved.
Qed.

Lemma emit_path input s : path s (emit cfg input s).2.
Proof.
  destruct input; try apply finish_path; try apply finishRun_path;
    (apply (accepted_path _ _ _ _ snd); [done|]; intros s1; apply path_andThen; [apply write_path|done]).
Qed.

Lemma storeFailed_path input e s : path s (storeFailed input e s).2.
Proof. unfold storeFailed. repeat case_match; moved. Qed.

Lemma attach_path input b s : path s (attach cfg input b s).2.
Proof.
  apply (accepted_path _ _ _ _ snd); [done|]. intros s1. cbv zeta.
  match goal with |- context [storeAttachment ?x ?k] => pose proof (step_store x k) as Hs; destruct (storeAttachment x k) as [[a|e] k'] end;
    (transitivity (s1 <| sink := k' |>); [moved|]); [apply emit_path|apply storeFailed_path].
Qed.

Lemma attachFileSync_path input f s : path s (attachFileSync cfg input f s).2.
Proof.
  apply (accepted_path _ _ _ _ snd); [done|]. intros s1. cbv zeta.
  destruct (readBounded _ _) as [[b|]|]; [apply attach_path|apply storeFailed_path|apply storeFailed_path].
Qed.

Lemma catching_path input s m : path s m.2 → path s (catching input m).2.
Proof. destruct m as [[a|e] s']; [done|]. intros Hm. unfold catching. by etrans; [apply Hm|apply storeFailed_path]. Qed.

Lemma attachFile_path input f s : path s (attachFile cfg input f s).2.
Proof.
  unfold attachFile. cbv zeta.
  set (finished := λ m : outcome bool, match m with (Ok b, s) => (inl b, s) | (Throw _, s) => (inl false, s) end
         : (bool + StoredAttachment) * ReportSession S).
  assert (∀ m s1, path s1 m.2 → path s1 (finished m).2) as Hfin by (by intros [[]] s1).
  apply (accepted_path _ _ _ _ snd); [done|]. intros s1.
  destruct (isTextualMediaType _).
  - destruct (readBounded _ _) as [[b|]|]; apply Hfin; [|apply storeFailed_path|apply storeFailed_path].
    apply catching_path, attach_path.
  - pose proof (step_stream f (sink s1)) as Hs.
    destruct (storeAttachmentStream _ _) as [[a|e] k']; simpl in Hs; [moved|].
    apply Hfin. transitivity (s1 <| sink := k' |>); [moved|apply storeFailed_path].
Qed.

Lemma close_path s : path s (close cfg s).2.
Proof.
  unfold close. destruct (bool_decide _); [done|].
  apply path_andThen; [destruct (_ && _); [apply finish_path|done]|].
  intros _ s1. cbv zeta. pose proof (step_close (sink s1)) as Hs. simpl.
  destruct (sink_close (sink s1)) as [[[]|e] k]; moved.
Qed.

Lemma call_path c s : path s (call cfg c s).
Proof.
  destruct c; simpl; [apply emit_path|apply attach_path|apply attachFile_path| |apply attachFileSync_path|
    apply finish_path|apply finishRun_path|apply close_path].
  unfold attachFile_resume. apply catching_path, emit_path.
Qed.

Lemma calls_path l s : path s (calls cfg l s).
Proof.
  revert s. induction l as [|c l IH]; intros s; [done|]. etrans; [apply (call_path c)|apply IH].
Qed.

(** What every method of the sink keeps, a session keeps. *)
Lemma session_keeps (I : S → Prop) l s :
  (∀ k k', sink_step k k' → I k → I k') → I (sink s) → I (sink (calls cfg l s)).
Proof.
  intros Hstep. pose proof (calls_path l s) as Hp. induction Hp as [|x y z [[E|Hs] _ _] _ IH]; [done| |].
  - rewrite <-E. apply IH.
  - intros Hx. apply IH. by eapply Hstep.
Qed.

(** What was dropped stays dropped, and what was written stays written. *)
Lemma path_grows s s' : path s s' → dropped s <= dropped s' ∧ sequence_ s <= sequence_ s'.
Proof. induction 1 as [|x y z [_ H1 H2] _ [H3 H4]]; lia. Qed.
End path.

(** ** What a session that loses nothing writes

    A session is [lossy] once it dropped an event or used up the sequence
    numbers, and stays so. As long as it is not, and its ids and clock are
    sound, every well-formed payload a producer emits is in the log, redacted,
    as the next event. *)

(** Ids and times a session may use. *)
Record config_sound (cfg : SessionConfig) : Prop := {
  cs_run : wf_id (cf_runId cfg);
  cs_session : wf_id (cf_sessionId cfg);
  cs_ids n : wf_id (cf_ids cfg n);
  cs_fresh n m : cf_ids cfg n = cf_ids cfg m → n = m;
  cs_clock n : is_timestamp (cf_clock cfg n) = true;
}.

(** A sink that states sizes a number can hold. *)
Class SoundStore (S : Type) `{Sink S} : Prop :=
  store_size b (k : S) a k' : storeAttachment b k = (Ok a, k') → wf_int (sa_sizeBytes a).

Section emit.
Context {S : Type} `{SinkLaws S} (cfg : SessionConfig) (Hcfg : config_sound cfg).
Implicit Types s : ReportSession S.

Abbreviation log s := (committed (sink s)).

Definition lossy s : Prop := 0 < dropped s ∨ max_safe_integer <= sequence_ s.

Lemma lossy_path s s' : path s s' → lossy s → lossy s'.
Proof. intros Hp%path_grows [Hl|Hl]; [left|right]; lia. Qed.

(** An event a reader can read back: well-formed, as the codec writes it, and within the limit. *)
Definition readable (e : AnyEvent) : Prop :=
  wf_event e ∧ norm_event e = e ∧ event_bytes e <= cf_maxEventBytes cfg.

(** An event of this session, with an id drawn before. *)
Definition own (drawn : nat) (e : AnyEvent) : Prop :=
  runId (any_env e) = cf_runId cfg ∧ sessionId (any_env e) = cf_sessionId cfg ∧
  (∃ n, (n < drawn)%nat ∧ eventId (any_env e) = cf_ids cfg n) ∧ readable e.

Record live s : Prop := {
  lv_counted : counted s;
  lv_dropped : 0 <= dropped s;
  lv_kept : terminalOutcomeLost s = false;
  lv_own e : e ∈ log s → own (drawn s) e;
}.

(** The event a payload becomes. *)
Definition next_env s : Envelope :=
  {| protocolVersion := PROTOCOL_VERSION; eventId := cf_ids cfg (drawn s); runId := cf_runId cfg;
     sessionId := cf_sessionId cfg; sequence := sequence_ s + 1; occurredAt := cf_clock cfg (drawn s); ignorable := None |}.
Definition event_of (p : Payload) s : AnyEvent :=
  Known {| e_env := next_env s; e_payload := norm_payload (redact_payload (cf_redactText cfg) p) |}.

(** A session one event further. *)
Record wrote (p : Payload) s s' : Prop := {
  wr_log : log s' = log s ++ [event_of p s];
  wr_live : live s';
  wr_sequence : sequence_ s' = sequence_ s + 1;
}.

Lemma candidate_wf p s : live s → wf_payload p → sequence_ s < max_safe_integer → wf_event (candidate cfg p s).
Proof.
  intros Hl Hp Hq. split; [|exact Hp]. destruct (lv_counted s Hl) as [Hs _].
  split_and!; simpl; try apply Hcfg; [by vm_compute| |lia].
  unfold wf_int, is_safe_integer. unfold max_safe_integer in *. apply andb_true_iff. split; apply Z.leb_le; lia.
Qed.

(** A write: it loses something, or it wrote the event. *)
Lemma write_live p report s :
  live s → wf_payload p →
  let '(r, s') := write cfg p report s in
  lossy s' ∨ (∃ a, r = Ok a ∧ wa_result a = Written) ∧ wrote p s s' ∧ state s' = state s.
Proof.
  intros Hl Hp. destruct (decide (max_safe_integer <= sequence_ s)) as [Hm|Hm].
  { pose proof (write_path cfg p report s) as Hw. destruct (write cfg p report s) as [r s']. left.
    eapply lossy_path; [exact Hw|by right]. }
  pose proof (write_cases cfg p report s) as Hc. pose proof (lv_counted s Hl) as Hk. pose proof (lv_dropped s Hl) as Hd.
  unfold write in *. rewrite (redactEvent_ok (cf_redactText cfg) (candidate cfg p s)) in * by (apply candidate_wf; [done|done|lia]).
  cbv zeta in *. destruct (Z.ltb_spec (cf_maxEventBytes cfg) (event_bytes (norm_event (redact_any (cf_redactText cfg) (candidate cfg p s))))) as [|Hb];
    [by destruct report; left; left; simpl; lia|]. simpl in *.
  match type of Hc with context [sink_write ?e ?k] => destruct (sink_write e k) as [[[]|err] k'] eqn:E end; simpl in *.
  2:{ left. left. simpl. lia. }
  right. split; [eauto|]. split; [|done]. apply write_commits in E.
  assert (log s ++ [event_of p s] = committed k') as Hlog by (by rewrite E).
  split; simpl; [done| |lia]. split; simpl; [|done|apply Hl|].
  - destruct Hk as [K1 K2]. unfold counted. simpl. rewrite <-Hlog, length_app. simpl. lia.
  - intros e. rewrite <-Hlog, elem_of_app. intros [He|He%list_elem_of_singleton].
    + destruct (lv_own s Hl e He) as (? & ? & (n & ? & ?) & ?). split_and!; [done|done| |done]. exists n. split; [lia|done].
    + subst e. split_and!; [done|done| |]. { exists (drawn s). split; [lia|done]. }
      split; [|split; [apply (norm_event_idemp (redact_any (cf_redactText cfg) (candidate cfg p s)))|exact Hb]].
      apply (norm_event_wf (redact_any (cf_redactText cfg) (candidate cfg p s))), redact_any_wf, candidate_wf; [done|done|lia].
Qed.

(** Emitting while the session is active. *)
Lemma emit_live p s :
  live s → state s = Active → wf_payload p → match p with SessionFinished _ | RunFinished => False | _ => True end →
  let '(r, s') := emit cfg p s in
  lossy s' ∨ r = Ok true ∧ wrote p s s' ∧ state s' = Active.
Proof.
  intros Hl Hst Hp Hplain.
  assert (emit cfg p s = andThen (write cfg p true s) (λ a s, (Ok (is_written a), s))) as ->.
  { destruct p; try done; unfold emit, acceptsSessionEvents; by rewrite (lv_kept s Hl), bool_decide_true. }
  pose proof (write_live p true s Hl Hp) as Hw. destruct (write cfg p true s) as [r s'].
  destruct Hw as [Hw|((a & -> & Ha) & Hw & E)]; [destruct r; simpl; by left|]. simpl. right.
  unfold is_written. rewrite Ha. split_and!; [done|done|congruence].
Qed.

(** Attaching: the event is written, or the sink could not store. *)
Lemma attach_live `{!SoundStore S} input b s :
  live s → state s = Active → wf_id (ai_attemptId input) → wf_opt_id (ai_stepId input) →
  let '(r, s') := attach cfg input b s in
  lossy s' ∨ (∃ b, r = Ok b) ∧ state s' = Active ∧ live s' ∧ sequence_ s <= sequence_ s' ∧
    (log s' = log s ∨ ∃ p s1, log s' = log s ++ [event_of (AttachmentAdded p) s1] ∧
       aa_attemptId p = ai_attemptId input ∧ aa_stepId p = ai_stepId input ∧ next_env s1 = next_env s).
Proof.
  intros Hl Hst Ha Hs. unfold attach, acceptsSessionEvents. rewrite (lv_kept s Hl), bool_decide_true by done. cbv zeta.
  match goal with |- context [storeAttachment ?x ?k] => pose proof (store_keeps x k) as Hk; destruct (storeAttachment x k) as [[a|e] k'] eqn:E end; simpl in Hk.
  - set (s1 := s <| sink := k' |>).
    assert (live s1) as Hl1.
    { split; simpl; [|apply Hl..|]; [|intros e; rewrite Hk; apply Hl]. unfold counted. simpl. rewrite Hk. apply Hl. }
    unfold emitAttachment. match goal with |- context [emit cfg ?p s1] => pose proof (emit_live p s1 Hl1 Hst) as He end.
    destruct (emit cfg _ s1) as [r s'].
    destruct He as [He|(-> & [Hlog Hl' Hq] & Hst')]; [|done|by left|right].
    { split_and!; [done|done|]. by eapply store_size. }
    split; [eauto|]. split_and!; [done|done|simpl in Hq; lia|]. right. eexists _, s1. split; [by rewrite Hlog; simpl; rewrite Hk|]. done.
  - right. unfold storeFailed.
    assert (∀ kind msg c, let s' := problem kind msg c (s <| sink := k' |>) in live s' ∧ log s' = log s) as Hpr.
    { intros. split; [|done]. split; simpl; [|apply Hl..|]; [|intros x; rewrite Hk; apply Hl]. unfold counted. simpl. rewrite Hk. apply Hl. }
    repeat case_match; (split; [eauto|]; split_and!; [done|apply Hpr|simpl; lia|left; apply Hpr]).
Qed.

Lemma attachFileSync_live `{!SoundStore S} input file s :
  live s → state s = Active → wf_id (ai_attemptId input) → wf_opt_id (ai_stepId input) →
  let '(r, s') := attachFileSync cfg input file s in
  lossy s' ∨ (∃ b, r = Ok b) ∧ state s' = Active ∧ live s' ∧ sequence_ s <= sequence_ s' ∧
    (log s' = log s ∨ ∃ p s1, log s' = log s ++ [event_of (AttachmentAdded p) s1] ∧
       aa_attemptId p = ai_attemptId input ∧ aa_stepId p = ai_stepId input ∧ next_env s1 = next_env s).
Proof.
  intros Hl Hst Ha Hs. unfold attachFileSync, acceptsSessionEvents. rewrite (lv_kept s Hl), bool_decide_true by done. cbv zeta.
  assert (∀ kind msg c, let s' := problem kind msg c s in live s') as Hpr.
  { intros. split; simpl; apply Hl. }
  destruct (readBounded _ _) as [[b|]|e]; [by apply attach_live| |];
    right; unfold storeFailed; repeat case_match; (split; [eauto|]; split_and!; [done|apply Hpr|simpl; lia|by left]).
Qed.

(** ** The end of a session *)

Lemma lossy_same s s' : dropped s' = dropped s → sequence_ s' = sequence_ s → lossy s → lossy s'.
Proof. unfold lossy. by intros -> ->. Qed.

Lemma finish_turn_live status o s :
  live s → wf_payload (SessionFinished o) →
  let '(r, s') := finish_turn cfg status o s in
  lossy s' ∨ r = Ok (FinishDone true) ∧ wrote (SessionFinished o) s s' ∧ state s' = SessionFinishedState.
Proof.
  intros Hl Hp. unfold finish_turn. pose proof (write_live (SessionFinished o) false s Hl Hp) as Hw.
  destruct (write cfg (SessionFinished o) false s) as [[a|e] s1]; simpl in *.
  - destruct Hw as [Hw|((a' & [= <-] & ->) & [Hlog Hl' Hq] & _)].
    + repeat case_match; simplify_eq/=; left; apply (lossy_same s1); simpl; try done.
    + right. split; [done|]. split; [|done]. split; [done| |done]. split; simpl; apply Hl'.
  - destruct Hw as [Hw|((a & ? & _) & _)]; [by left|done].
Qed.

Lemma finish_live o s :
  live s → state s = Active → wf_payload (SessionFinished o) → outcomeViolation o = None →
  let '(r, s') := finish cfg o s in
  lossy s' ∨ r = Ok true ∧ wrote (SessionFinished o) s s' ∧ state s' = SessionFinishedState.
Proof.
  intros Hl Hst Hp Ho. unfold finish, acceptsSessionEvents. rewrite Ho, (lv_kept s Hl), bool_decide_true by done.
  destruct (sf_status o) as [status|] eqn:Es.
  - destruct (finish_loop_out cfg 3 status o s Hst (lv_kept s Hl) Es) as (r & s' & E & _).
    { pose proof (outcome_size_le o). lia. }
    rewrite E. simpl. cbn [finish_loop] in E. pose proof (finish_turn_live status o s Hl Hp) as Ht.
    destruct (finish_turn cfg status o s) as [[[b|o']|e] s1]; [injection E as <- <-| |injection E as <- <-].
    + destruct Ht as [?|([= ->] & ?)]; [by left|by right].
    + destruct Ht as [Ht|([=] & _)]. left. eapply lossy_path; [|exact Ht]. exact (finish_loop_path cfg 2 _ _ _ _ _ E).
    + destruct Ht as [?|([=] & _)]. by left.
  - pose proof (write_live (SessionFinished o) true s Hl Hp) as Hw.
    destruct (write cfg (SessionFinished o) true s) as [[a|e] s1]; simpl in *.
    + destruct Hw as [Hw|((a' & [= <-] & Ha) & [Hlog Hl' Hq] & _)]; unfold is_written.
      * left. destruct (wa_result a); [by apply (lossy_same s1)|done|done].
      * right. rewrite Ha. split; [done|]. split; [|done]. split; [done| |done]. split; simpl; apply Hl'.
    + destruct Hw as [Hw|((a & ? & _) & _)]; [by left|done].
Qed.

Lemma finishRun_live s :
  live s → state s = SessionFinishedState →
  let '(r, s') := finishRun cfg s in
  lossy s' ∨ r = Ok true ∧ wrote RunFinished s s' ∧ state s' = RunFinishedState.
Proof.
  intros Hl Hst. unfold finishRun. rewrite (lv_kept s Hl), bool_decide_false by congruence. simpl.
  rewrite bool_decide_true by done. simpl. pose proof (write_live RunFinished true s Hl I) as Hw.
  destruct (write cfg RunFinished true s) as [[a|e] s1]; simpl in *.
  - destruct Hw as [Hw|((a' & [= <-] & Ha) & [Hlog Hl' Hq] & _)]; unfold is_written.
    + left. destruct (wa_result a); [by apply (lossy_same s1)|done|done].
    + right. rewrite Ha. split; [done|]. split; [|done]. split; [done| |done]. split; simpl; apply Hl'.
  - destruct Hw as [Hw|((a & ? & _) & _)]; [by left|done].
Qed.

Lemma close_ended s :
  state s = SessionFinishedState ∨ state s = RunFinishedState →
  ∃ s', close cfg s = (Ok tt, s') ∧ log s' = log s ∧ dropped s' = dropped s ∧ sequence_ s' = sequence_ s.
Proof.
  intros Hst. unfold close. rewrite !bool_decide_false by (destruct Hst; congruence). simpl.
  pose proof (close_keeps (sink s)) as Hk. destruct (sink_close (sink s)) as [[u|e] k]; simpl in Hk;
    (eexists; split; [done|]; split_and!; simpl; [exact Hk|done|done]).
Qed.
End emit.
