(* ===== verification/HistoryOrder.v ===== *)
(** * History order (ts/packages/read-model/src/history-order.ts)

    Where a producer timestamp stands in a test's history: its instant to the
    millisecond, and for a leap second the place inside it. [Date.parse] is the
    standard library's: an ISO date-time read to the millisecond, fraction
    truncated, on the proleptic Gregorian calendar. *)

From S2P Require Import Prelude JsString JsSort Json Model Codec.

Local Open Scope Z_scope.

(** [HistoryInstant] *)
Record HistoryInstant := { epochMs : Z; leap : Z }.

(** ** The shape: TIMESTAMP.exec *)

(** The capture groups of TIMESTAMP: digits as text, the zone's sign, hour and minute when it is not Z. *)
Record Timestamp := {
  ts_year : str; ts_month : str; ts_day : str; ts_hour : str; ts_minute : str; ts_second : str;
  ts_fraction : option str;
  ts_zone : option (N * str * str);
}.

(** [(\d{n})]: the digits and what follows. *)
Fixpoint take_digits (n : nat) (s : str) : option (str * str) :=
  match n, s with
  | O, _ => Some ([], s)
  | S n', u :: s' =>
      if is_digit u then prod_map (cons u) id <$> take_digits n' s' else None
  | S _, [] => None
  end.

(** [(?:\.(\d{1,9}))?] *)
Definition take_fraction (s : str) : option (option str * str) :=
  match s with
  | u :: s' =>
      if (u =? 46)%N then
        let (ds, rest) := span_digits s' in
        if (1 <=? length ds)%nat && (length ds <=? 9)%nat then Some (Some ds, rest) else None
      else Some (None, s)
  | [] => Some (None, s)
  end.

(** [(?:Z|([+-])(\d{2}):(\d{2}))$] *)
Definition take_zone (s : str) : option (option (N * str * str)) :=
  match s with
  | u :: s' =>
      if (u =? 90)%N then match s' with [] => Some None | _ => None end
      else if (u =? 43)%N || (u =? 45)%N then
        h ← take_digits 2 s';
        c ← skip_char 58 h.2;
        m ← take_digits 2 c;
        match m.2 with [] => Some (Some (u, h.1, m.1)) | _ => None end
      else None
  | [] => None
  end.

(** [TIMESTAMP.exec(s)] *)
Definition exec_timestamp (s : str) : option Timestamp :=
  y ← take_digits 4 s;
  s1 ← skip_char 45 y.2;
  mo ← take_digits 2 s1;
  s2 ← skip_char 45 mo.2;
  d ← take_digits 2 s2;
  s3 ← skip_char 84 d.2;
  h ← take_digits 2 s3;
  s4 ← skip_char 58 h.2;
  mi ← take_digits 2 s4;
  s5 ← skip_char 58 mi.2;
  sec ← take_digits 2 s5;
  f ← take_fraction sec.2;
  z ← take_zone f.2;
  Some {| ts_year := y.1; ts_month := mo.1; ts_day := d.1; ts_hour := h.1; ts_minute := mi.1;
          ts_second := sec.1; ts_fraction := f.1; ts_zone := z |}.

(** [Number(digits)] *)
Definition digits_value (s : str) : Z := undigits_from 0 s.

(** ** The calendar *)

Definition DAYS_IN_MONTH : list Z := [0; 31; 28; 31; 30; 31; 30; 31; 31; 30; 31; 30; 31].

Definition leapYear (year : Z) : bool :=
  (year `mod` 4 =? 0) && (negb (year `mod` 100 =? 0) || (year `mod` 400 =? 0)).

(** [days] of historyInstant: the length of the month. *)
Definition month_days (year month : Z) : Z :=
  if (month =? 2) && leapYear year then 29 else default 0 (DAYS_IN_MONTH !! Z.to_nat month).

(** Days from the epoch to a date, as the standard library counts them. *)
Definition days_before_year (year : Z) : Z :=
  365 * year + (year + 3) `div` 4 - (year + 99) `div` 100 + (year + 399) `div` 400.
Definition days_before_month (year month : Z) : Z :=
  foldr Z.add 0 ((λ m, month_days year m) <$> seqZ 1 (month - 1)).
Definition epoch_day (year month day : Z) : Z :=
  days_before_year year - days_before_year 1970 + days_before_month year month + (day - 1).

(** Minutes the zone is ahead of UTC. *)
Definition zone_offset (z : option (N * str * str)) : Z :=
  match z with
  | Some (sign, oh, om) =>
      (if (sign =? 45)%N then -1 else 1) * (digits_value oh * 60 + digits_value om)
  | None => 0
  end.

(** The first three digits of a fraction, padded: its milliseconds, truncated. *)
Definition fraction_ms (fraction : option str) : Z :=
  let f := default [] fraction in
  digits_value (take 3 (f ++ repeat 48%N (3 - length f))).

(** [Date.parse] of a text of the TIMESTAMP shape with its fields in range. *)
Definition date_parse (s : str) : option Z :=
  t ← exec_timestamp s;
  let year := digits_value (ts_year t) in
  let month := digits_value (ts_month t) in
  let day := digits_value (ts_day t) in
  let hour := digits_value (ts_hour t) in
  let minute := digits_value (ts_minute t) in
  let second := digits_value (ts_second t) in
  if (month <? 1) || (12 <? month) || (day <? 1) || (month_days year month <? day) || (23 <? hour)
     || (59 <? minute) || (59 <? second)
  then None
  else Some (((epoch_day year month day * 1440 + hour * 60 + minute - zone_offset (ts_zone t)) * 60
              + second) * 1000 + fraction_ms (ts_fraction t)).

(** ** historyInstant *)

(** [invalid]: the message of the RangeError. *)
Definition invalid_timestamp (occurredAt : str) : str :=
  js "not a protocol timestamp: " ++ json_quote (take 64 occurredAt).

(** The text of the second before a leap second, as the source writes it for [Date.parse]. *)
Definition zone_text (z : option (N * str * str)) : str :=
  match z with None => js "Z" | Some (sign, oh, om) => sign :: oh ++ js ":" ++ om end.

Definition second_before (t : Timestamp) : str :=
  ts_year t ++ js "-" ++ ts_month t ++ js "-" ++ ts_day t ++ js "T" ++ ts_hour t ++ js ":"
    ++ ts_minute t ++ js ":59.999" ++ zone_text (ts_zone t).

Definition utcMinuteOfDay (t : Timestamp) : Z :=
  Z.rem (Z.rem (digits_value (ts_hour t) * 60 + digits_value (ts_minute t) - zone_offset (ts_zone t))
           1440 + 1440) 1440.

(** [historyInstant] *)
Definition historyInstant (occurredAt : str) : res str HistoryInstant :=
  match exec_timestamp occurredAt with
  | None => Throw (invalid_timestamp occurredAt)
  | Some t =>
      let year := digits_value (ts_year t) in
      let month := digits_value (ts_month t) in
      let day := digits_value (ts_day t) in
      let second := digits_value (ts_second t) in
      let offsetHour := match ts_zone t with Some (_, oh, _) => digits_value oh | None => 0 end in
      let offsetMinute := match ts_zone t with Some (_, _, om) => digits_value om | None => 0 end in
      if (month <? 1) || (12 <? month) || (day <? 1) || (month_days year month <? day)
      then Throw (invalid_timestamp occurredAt)
      else if (23 <? digits_value (ts_hour t)) || (59 <? digits_value (ts_minute t)) || (60 <? second)
              || (23 <? offsetHour) || (59 <? offsetMinute)
      then Throw (invalid_timestamp occurredAt)
      else if second <? 60 then
        match date_parse occurredAt with
        | Some ms => Ok {| epochMs := ms; leap := 0 |}
        | None => Throw (invalid_timestamp occurredAt)
        end
      else if negb (utcMinuteOfDay t =? 1439) then Throw (invalid_timestamp occurredAt)
      else
        match date_parse (second_before t) with
        | Some ms => Ok {| epochMs := ms; leap := 1 + fraction_ms (ts_fraction t) |}
        | None => Throw (invalid_timestamp occurredAt)
        end
  end.

(** [compareHistoryInstants] *)
Definition compareHistoryInstants (a b : HistoryInstant) : Z :=
  js_or (epochMs a - epochMs b) (leap a - leap b).

(** ** Lemmas *)

(** *** The shape and its text *)

Definition digit_text (n : nat) (s : str) : Prop := length s = n ∧ forallb is_digit s = true.

(** What a match of TIMESTAMP guarantees of its groups. *)
Definition wf_zone (z : option (N * str * str)) : Prop :=
  match z with
  | None => True
  | Some (sign, oh, om) => (sign = 43%N ∨ sign = 45%N) ∧ digit_text 2 oh ∧ digit_text 2 om
  end.

Definition wf_fraction (f : option str) : Prop :=
  match f with
  | None => True
  | Some ds => (1 <= length ds <= 9)%nat ∧ forallb is_digit ds = true
  end.

Record wf_timestamp (t : Timestamp) : Prop := {
  wt_year : digit_text 4 (ts_year t);
  wt_month : digit_text 2 (ts_month t);
  wt_day : digit_text 2 (ts_day t);
  wt_hour : digit_text 2 (ts_hour t);
  wt_minute : digit_text 2 (ts_minute t);
  wt_second : digit_text 2 (ts_second t);
  wt_fraction : wf_fraction (ts_fraction t);
  wt_zone : wf_zone (ts_zone t);
}.

(** The text of the groups. *)
Definition fraction_text (f : option str) : str := match f with None => [] | Some ds => 46%N :: ds end.

Definition timestamp_text (t : Timestamp) : str :=
  ts_year t ++ 45%N :: ts_month t ++ 45%N :: ts_day t ++ 84%N :: ts_hour t ++ 58%N :: ts_minute t
    ++ 58%N :: ts_second t ++ fraction_text (ts_fraction t) ++ zone_text (ts_zone t).

Lemma take_digits_app n d r : digit_text n d → take_digits n (d ++ r) = Some (d, r).
Proof.
  intros [Hl Hd]. subst n. induction d as [|u d IH]; simpl in *; [done|].
  apply andb_true_iff in Hd as [-> Hd]. by rewrite IH.
Qed.

Lemma take_digits_Some n s d r : take_digits n s = Some (d, r) → s = d ++ r ∧ digit_text n d.
Proof.
  revert s d. induction n as [|n IH]; intros s d; simpl; [by intros [= <- <-]|].
  destruct s as [|u s]; [done|]. destruct (is_digit u) eqn:Hu; [|done].
  destruct (take_digits n s) as [[d' r']|] eqn:E; simpl; [|done]. intros [= <- <-].
  apply IH in E as [-> [<- Hd]]. split; [done|]. split; simpl; [done|]. by rewrite Hu.
Qed.

Lemma skip_char_Some c s r : skip_char c s = Some r → s = c :: r.
Proof.
  destruct s as [|u s]; simpl; [done|]. destruct (N.eqb_spec u c); [|done]. intros [= <-]. by subst.
Qed.

Lemma skip_char_cons c r : skip_char c (c :: r) = Some r.
Proof. simpl. by rewrite N.eqb_refl. Qed.

Lemma span_digits_spec s :
  s = (span_digits s).1 ++ (span_digits s).2 ∧ forallb is_digit (span_digits s).1 = true.
Proof.
  induction s as [|u s [IH1 IH2]]; simpl; [done|]. destruct (is_digit u) eqn:E; simpl; [|done].
  rewrite E. split; [by f_equal|done].
Qed.

Lemma span_digits_app d r :
  forallb is_digit d = true → (match r with u :: _ => is_digit u = false | [] => True end) →
  span_digits (d ++ r) = (d, r).
Proof.
  intros Hd Hr. induction d as [|u d IH]; simpl in *.
  - destruct r as [|u r]; simpl; [done|]. by rewrite Hr.
  - apply andb_true_iff in Hd as [-> Hd]. by rewrite IH.
Qed.

Lemma zone_text_head z : wf_zone z →
  match zone_text z with u :: _ => is_digit u = false ∧ u ≠ 46%N | [] => False end.
Proof. destruct z as [[[sign oh] om]|]; [|done]. by intros [[-> | ->] _]. Qed.

Lemma take_fraction_text f z :
  wf_fraction f → wf_zone z → take_fraction (fraction_text f ++ zone_text z) = Some (f, zone_text z).
Proof.
  intros Hf Hz%zone_text_head. destruct f as [ds|]; unfold take_fraction; cbn [fraction_text app].
  - rewrite N.eqb_refl, span_digits_app; [|apply Hf|by destruct (zone_text z); [|apply Hz]].
    destruct Hf as [[H1 H9] _]. apply Nat.leb_le in H1, H9. by rewrite H1, H9.
  - destruct (zone_text z) as [|u r]; [done|]. simpl. destruct Hz as [_ Hz%N.eqb_neq]. by rewrite Hz.
Qed.

Lemma take_fraction_Some s f r :
  take_fraction s = Some (f, r) → s = fraction_text f ++ r ∧ wf_fraction f.
Proof.
  unfold take_fraction. destruct s as [|u s]; [by intros [= <- <-]|].
  destruct (N.eqb_spec u 46) as [->|]; [|by intros [= <- <-]].
  destruct (span_digits_spec s) as [E Hd]. destruct (span_digits s) as [ds rest]. cbn [fst snd] in *.
  destruct ((1 <=? length ds)%nat && _) eqn:Hl; [|done]. intros [= <- <-].
  apply andb_true_iff in Hl as [H1%Nat.leb_le H9%Nat.leb_le]. subst s. by split.
Qed.

Lemma take_zone_text z : wf_zone z → take_zone (zone_text z) = Some z.
Proof.
  destruct z as [[[sign oh] om]|]; [|done]. intros (Hs & Ho & Hm).
  unfold take_zone, zone_text. destruct (N.eqb_spec sign 90) as [->|_]; [by destruct Hs|].
  assert ((sign =? 43)%N || (sign =? 45)%N = true) as ->.
  { rewrite orb_true_iff, !N.eqb_eq. exact Hs. }
  change (js ":" ++ om) with (58%N :: om). rewrite take_digits_app by done.
  cbn [mbind option_bind fst snd]. rewrite skip_char_cons. cbn [mbind option_bind].
  rewrite <- (app_nil_r om) at 1. by rewrite take_digits_app.
Qed.

Lemma take_zone_Some s z : take_zone s = Some z → s = zone_text z ∧ wf_zone z.
Proof.
  unfold take_zone. destruct s as [|u s]; [done|].
  destruct (N.eqb_spec u 90) as [->|_]; [by destruct s; intros [= <-]|].
  destruct ((u =? 43)%N || (u =? 45)%N) eqn:Hu; [|done].
  destruct (take_digits 2 s) as [[oh r]|] eqn:E1; cbn [mbind option_bind fst snd]; [|done].
  destruct (skip_char 58 r) as [r'|] eqn:E2; cbn [mbind option_bind fst snd]; [|done].
  destruct (take_digits 2 r') as [[om r'']|] eqn:E3; cbn [mbind option_bind fst snd]; [|done].
  destruct r''; [|done]. intros [= <-].
  apply take_digits_Some in E1 as [-> H1], E3 as [-> H3]. apply skip_char_Some in E2 as ->.
  rewrite app_nil_r. rewrite orb_true_iff, !N.eqb_eq in Hu. done.
Qed.

Lemma exec_timestamp_text t : wf_timestamp t → exec_timestamp (timestamp_text t) = Some t.
Proof.
  intros [H1 H2 H3 H4 H5 H6 H7 H8]. unfold exec_timestamp, timestamp_text.
  repeat (rewrite take_digits_app by done; cbn [mbind option_bind fst snd];
          rewrite ?skip_char_cons; cbn [mbind option_bind fst snd]).
  rewrite take_fraction_text by done. cbn [mbind option_bind fst snd].
  rewrite take_zone_text by done. by destruct t.
Qed.

Lemma exec_timestamp_Some s t : exec_timestamp s = Some t → s = timestamp_text t ∧ wf_timestamp t.
Proof.
  unfold exec_timestamp. intros H.
  repeat match goal with
  | H : mbind _ ?m = Some _ |- _ =>
      let E := fresh "E" in destruct m as [[? ?]|] eqn:E; cbn [mbind option_bind fst snd] in H; [|discriminate H]
  | H : mbind _ ?m = Some _ |- _ =>
      let E := fresh "E" in destruct m eqn:E; cbn [mbind option_bind fst snd] in H; [|discriminate H]
  end.
  simplify_eq. unfold timestamp_text; simpl.
  repeat match goal with
  | E : take_digits _ _ = Some _ |- _ => apply take_digits_Some in E as [? ?]; subst
  | E : skip_char _ _ = Some _ |- _ => apply skip_char_Some in E; subst
  | E : take_fraction _ = Some _ |- _ => apply take_fraction_Some in E as [? ?]; subst
  | E : take_zone _ = Some _ |- _ => apply take_zone_Some in E as [? ?]; subst
  end.
  split; [done|]. by constructor.
Qed.

(** *** Values *)

Lemma undigits_from_bound s a :
  forallb is_digit s = true → 0 <= a →
  a * 10 ^ Z.of_nat (length s) <= undigits_from a s < (a + 1) * 10 ^ Z.of_nat (length s).
Proof.
  revert a. induction s as [|u s IH]; intros a Hs Ha; [simpl; lia|].
  cbn [forallb] in Hs. apply andb_true_iff in Hs as [Hu Hs].
  unfold is_digit, in_range in Hu. apply andb_true_iff in Hu as [Hu1%N.leb_le Hu2%N.leb_le].
  cbn [length]. rewrite Nat2Z.inj_succ, Z.pow_succ_r by lia.
  change (undigits_from a (u :: s)) with (undigits_from (a * 10 + (Z.of_N u - 48)) s).
  specialize (IH (a * 10 + (Z.of_N u - 48)) Hs ltac:(lia)).
  pose proof (Z.pow_pos_nonneg 10 (Z.of_nat (length s)) ltac:(lia) ltac:(lia)). nia.
Qed.

Lemma digits_value_bound n s :
  digit_text n s → 0 <= digits_value s < 10 ^ Z.of_nat n.
Proof. intros [<- Hd]. pose proof (undigits_from_bound s 0 Hd). unfold digits_value. lia. Qed.

Lemma digit_text_zeros n : digit_text n (repeat 48%N n).
Proof. split; [apply repeat_length|]. by induction n. Qed.

Lemma forallb_prefix {A} (f : A → bool) n l : forallb f l = true → forallb f (take n l) = true.
Proof.
  revert n. induction l as [|x l IH]; intros [|n]; simpl; try done.
  intros [-> ?]%andb_true_iff. by apply IH.
Qed.

Lemma fraction_ms_bound f : wf_fraction f → 0 <= fraction_ms f <= 999.
Proof.
  intros Hf. unfold fraction_ms.
  assert (forallb is_digit (default [] f) = true) as Hd by (destruct f; [apply Hf|done]).
  pose proof (digits_value_bound 3 (take 3 (default [] f ++ repeat 48%N (3 - length (default [] f))))) as Hb.
  cut (digit_text 3 (take 3 (default [] f ++ repeat 48%N (3 - length (default [] f))))).
  { intros Ht. specialize (Hb Ht). change (10 ^ Z.of_nat 3) with 1000 in Hb. lia. }
  split.
  - rewrite length_take, length_app, repeat_length. lia.
  - apply forallb_prefix. rewrite forallb_app, Hd. apply digit_text_zeros.
Qed.

(** ** What a timestamp denotes *)

Abbreviation second_of t := (digits_value (ts_second t)).

(** The ranges of the fields: an RFC 3339 date-time, a second of 60 included. *)
Record valid_fields (t : Timestamp) : Prop := {
  vf_month : 1 <= digits_value (ts_month t) <= 12;
  vf_day : 1 <= digits_value (ts_day t) <= month_days (digits_value (ts_year t)) (digits_value (ts_month t));
  vf_hour : digits_value (ts_hour t) <= 23;
  vf_minute : digits_value (ts_minute t) <= 59;
  vf_second : second_of t <= 60;
  vf_zone : match ts_zone t with
            | Some (_, oh, om) => digits_value oh <= 23 ∧ digits_value om <= 59 | None => True end;
}.

(** UTC minutes since the epoch, before the seconds. *)
Definition utc_minutes (t : Timestamp) : Z :=
  epoch_day (digits_value (ts_year t)) (digits_value (ts_month t)) (digits_value (ts_day t)) * 1440
  + digits_value (ts_hour t) * 60 + digits_value (ts_minute t) - zone_offset (ts_zone t).

(** The last minute of a UTC day, where a leap second is. *)
Definition last_minute (t : Timestamp) : Prop := utc_minutes t `mod` 1440 = 1439.

(** Where a timestamp stands. *)
Definition position (t : Timestamp) : HistoryInstant :=
  if second_of t <? 60
  then {| epochMs := (utc_minutes t * 60 + second_of t) * 1000 + fraction_ms (ts_fraction t); leap := 0 |}
  else {| epochMs := (utc_minutes t * 60 + 59) * 1000 + 999; leap := 1 + fraction_ms (ts_fraction t) |}.

Section instants.
Context (t : Timestamp) (Hwf : wf_timestamp t).

Lemma field_bounds :
  0 <= digits_value (ts_month t) ∧ 0 <= digits_value (ts_hour t) ∧ 0 <= digits_value (ts_minute t) ∧
  0 <= second_of t.
Proof using Hwf.
  destruct Hwf as [_ H2%digits_value_bound _ H4%digits_value_bound H5%digits_value_bound
                     H6%digits_value_bound _ _]. lia.
Qed.

Lemma utcMinuteOfDay_mod : valid_fields t → utcMinuteOfDay t = utc_minutes t `mod` 1440.
Proof using Hwf.
  intros Hv. pose proof field_bounds. unfold utcMinuteOfDay, utc_minutes.
  set (m := digits_value (ts_hour t) * 60 + digits_value (ts_minute t) - zone_offset (ts_zone t)).
  set (d := epoch_day _ _ _).
  replace (d * 1440 + digits_value (ts_hour t) * 60 + digits_value (ts_minute t) - zone_offset (ts_zone t))
    with (m + d * 1440) by (unfold m; lia).
  rewrite Z.mod_add by lia.
  pose proof (Z.rem_bound_abs m 1440 ltac:(lia)).
  rewrite (Z.rem_mod_nonneg (Z.rem m 1440 + 1440)) by lia.
  pose proof (Z.quot_rem' m 1440) as E. rewrite E at 2.
  replace (1440 * (m ÷ 1440) + Z.rem m 1440) with (Z.rem m 1440 + 1440 + (m ÷ 1440 - 1) * 1440) by lia.
  by rewrite Z.mod_add by lia.
Qed.

Lemma date_parse_ordinary :
  valid_fields t → second_of t < 60 →
  date_parse (timestamp_text t) =
    Some ((utc_minutes t * 60 + second_of t) * 1000 + fraction_ms (ts_fraction t)).
Proof using Hwf.
  intros [Hm Hd Hh Hmi _ _] Hs. unfold date_parse. rewrite exec_timestamp_text by done.
  cbn [mbind option_bind].
  repeat match goal with |- context [?a <? ?b] => rewrite (proj2 (Z.ltb_ge a b)) by lia end. done.
Qed.
End instants.

(** The text the source builds for the second before a leap second is that second. *)
Definition before (t : Timestamp) : Timestamp :=
  {| ts_year := ts_year t; ts_month := ts_month t; ts_day := ts_day t; ts_hour := ts_hour t;
     ts_minute := ts_minute t; ts_second := js "59"; ts_fraction := Some (js "999"); ts_zone := ts_zone t |}.

Lemma second_before_text t : second_before t = timestamp_text (before t).
Proof. done. Qed.

Lemma before_wf t : wf_timestamp t → wf_timestamp (before t).
Proof. intros []. by constructor; simpl; try done; vm_compute; split; try done; lia. Qed.

Lemma before_valid t : valid_fields t → valid_fields (before t).
Proof. intros []. constructor; try done. Qed.

Lemma date_parse_before t :
  wf_timestamp t → valid_fields t →
  date_parse (second_before t) = Some ((utc_minutes t * 60 + 59) * 1000 + 999).
Proof.
  intros Hw Hv. rewrite second_before_text, date_parse_ordinary; auto using before_wf, before_valid. done.
Qed.

(** Every timestamp is accepted with its position or refused; which, its fields say. *)
Lemma historyInstant_text t :
  wf_timestamp t → valid_fields t → (second_of t = 60 → last_minute t) →
  historyInstant (timestamp_text t) = Ok (position t).
Proof.
  intros Hw Hv Hl. pose proof (field_bounds t Hw) as (?&?&?&?).
  unfold historyInstant. rewrite exec_timestamp_text by done. pose proof Hv as [Hm Hd Hh Hmi Hs Hz].
  rewrite (proj2 (Z.ltb_ge _ 1)), (proj2 (Z.ltb_ge 12 _)), (proj2 (Z.ltb_ge _ 1)),
    (proj2 (Z.ltb_ge (month_days _ _) _)), (proj2 (Z.ltb_ge 23 _)), (proj2 (Z.ltb_ge 59 _)),
    (proj2 (Z.ltb_ge 60 _)) by lia. cbn [orb].
  rewrite (proj2 (Z.ltb_ge 23 _)), (proj2 (Z.ltb_ge 59 _)) by (destruct (ts_zone t) as [[[]]|]; lia).
  unfold position. destruct (Z.ltb_spec (second_of t) 60).
  - by rewrite date_parse_ordinary.
  - rewrite utcMinuteOfDay_mod by done. rewrite Hl by lia. change (negb (1439 =? 1439)) with false. cbv iota. by rewrite date_parse_before.
Qed.

Lemma historyInstant_Ok s i :
  historyInstant s = Ok i →
  ∃ t, s = timestamp_text t ∧ wf_timestamp t ∧ valid_fields t ∧ (second_of t = 60 → last_minute t) ∧
       i = position t.
Proof.
  intros H. pose proof H as H0. unfold historyInstant in H.
  destruct (exec_timestamp s) as [t|] eqn:E; [|discriminate H].
  apply exec_timestamp_Some in E as [-> Hw].
  destruct (_ || (month_days _ _ <? _)) eqn:G1; [discriminate H|].
  destruct (_ || (59 <? match ts_zone t with Some _ => _ | None => _ end)) eqn:G2; [discriminate H|].
  rewrite !orb_false_iff, !Z.ltb_ge in G1, G2.
  assert (valid_fields t) as Hv.
  { constructor; try lia. destruct (ts_zone t) as [[[]]|]; lia. }
  assert (second_of t = 60 → last_minute t) as Hl.
  { intros Hs. rewrite (proj2 (Z.ltb_ge _ 60)) in H by lia.
    rewrite utcMinuteOfDay_mod in H by done. unfold last_minute.
    destruct (Z.eqb_spec (utc_minutes t `mod` 1440) 1439); [done|discriminate H]. }
  exists t. split_and!; try done. rewrite historyInstant_text in H0 by done. by simplify_eq.
Qed.

Lemma position_bounds t :
  wf_timestamp t → valid_fields t →
  utc_minutes t * 60000 <= epochMs (position t) < (utc_minutes t + 1) * 60000 ∧
  (leap (position t) = 0 ∨
   second_of t = 60 ∧ epochMs (position t) = utc_minutes t * 60000 + 59999 ∧ 1 <= leap (position t) <= 1000).
Proof.
  intros Hw Hv. pose proof (field_bounds t Hw). pose proof (fraction_ms_bound _ (wt_fraction t Hw)).
  destruct Hv as [_ _ _ _ Hs _]. unfold position.
  destruct (Z.ltb_spec (second_of t) 60); simpl; lia.
Qed.

#[export] Instance compareHistoryInstants_comparator : Comparator compareHistoryInstants.
Proof.
  exact (cmp_then_comparator (cmp_on epochMs cmp_sub) (cmp_on leap cmp_sub) _ _).
Qed.

#[export] Instance compareHistoryInstants_separates : Separates compareHistoryInstants.
Proof.
  intros [e l] [e' l']. unfold compareHistoryInstants, js_or. simpl.
  destruct (Z.eqb_spec (e - e') 0); intros; f_equal; lia.
Qed.

(** ** Properties *)

(** [historyInstant] accepts exactly the RFC 3339 date-times: the protocol's shape with month,
    day, clock and offset in range, where a second of 60 occurs only in the last minute of a UTC
    day; and the position it gives is the instant counted on the calendar. Its internal
    [Date.parse] calls never fail, so the two finiteness guards are never taken. *)
Theorem historyInstant_accepts s i :
  historyInstant s = Ok i ↔
  ∃ t, s = timestamp_text t ∧ wf_timestamp t ∧ valid_fields t ∧ (second_of t = 60 → last_minute t) ∧
       i = position t.
Proof.
  split; [apply historyInstant_Ok|]. intros (t & -> & Hw & Hv & Hl & ->). by apply historyInstant_text.
Qed.

(** A leap second sorts after every ordinary instant of its own UTC minute and of earlier ones,
    and before every instant of a later minute: it lies strictly between [23:59:59.999] and the
    [00:00:00] that follows. *)
Theorem leap_second_between s i s' j t t' :
  historyInstant s = Ok i → s = timestamp_text t → wf_timestamp t → second_of t = 60 →
  historyInstant s' = Ok j → s' = timestamp_text t' → wf_timestamp t' → second_of t' < 60 →
  (compareHistoryInstants j i < 0 ↔ utc_minutes t' <= utc_minutes t) ∧
  (compareHistoryInstants j i > 0 ↔ utc_minutes t < utc_minutes t').
Proof.
  intros Hi -> Hw Hs Hj -> Hw' Hs'.
  apply historyInstant_Ok in Hi as (u & E & Hwu & Hvu & _ & ->).
  apply historyInstant_Ok in Hj as (u' & E' & Hwu' & Hvu' & _ & ->).
  assert (u = t) as -> by (apply (f_equal exec_timestamp) in E; rewrite !exec_timestamp_text in E; congruence).
  assert (u' = t') as -> by (apply (f_equal exec_timestamp) in E'; rewrite !exec_timestamp_text in E'; congruence).
  destruct (position_bounds t Hw Hvu) as [B1 B2]. destruct (position_bounds t' Hw' Hvu') as [B1' B2'].
  assert (leap (position t') = 0) as L' by lia.
  assert (leap (position t) ≠ 0 ∧ epochMs (position t) = utc_minutes t * 60000 + 59999) as [L E2].
  { unfold position. rewrite Hs. simpl. pose proof (fraction_ms_bound _ (wt_fraction t Hw)). lia. }
  unfold compareHistoryInstants, js_or.
  destruct (Z.eqb_spec (epochMs (position t') - epochMs (position t)) 0); lia.
Qed.

Definition demo_leap : Timestamp :=
  {| ts_year := js "2016"; ts_month := js "12"; ts_day := js "31"; ts_hour := js "23";
     ts_minute := js "59"; ts_second := js "60"; ts_fraction := Some (js "25"); ts_zone := None |}.
Definition demo_midnight : Timestamp :=
  {| ts_year := js "2017"; ts_month := js "01"; ts_day := js "01"; ts_hour := js "01";
     ts_minute := js "00"; ts_second := js "00"; ts_fraction := None;
     ts_zone := Some (43%N, js "01", js "00") |}.

Lemma leap_second_between_witness :
  timestamp_text demo_leap = js "2016-12-31T23:59:60.25Z" ∧
  historyInstant (timestamp_text demo_leap) = Ok {| epochMs := 1483228799999; leap := 251 |} ∧
  historyInstant (timestamp_text demo_midnight) = Ok {| epochMs := 1483228800000; leap := 0 |} ∧
  compareHistoryInstants {| epochMs := 1483228800000; leap := 0 |} {| epochMs := 1483228799999; leap := 251 |} > 0.
Proof.
  split_and!; [reflexivity|vm_compute; reflexivity|vm_compute; reflexivity|].
  apply (leap_second_between (timestamp_text demo_leap) _ (timestamp_text demo_midnight) _ demo_leap demo_midnight);
    try (vm_compute; reflexivity).
  - constructor; vm_compute; repeat split; lia.
  - constructor; vm_compute; try (split; reflexivity); try lia.
Defined.
