(* ===== verification/ReadTypes.v ===== *)
(** * The read model's data (ts/packages/read-model/src/model.ts, project-id.ts)

    One record per interface; [| undefined] is [option]. [RunVerdict] is the
    validator's verdict. Project ids and the contract they are held to. *)

From S2P Require Import Prelude JsString JsMap JsSort Json Model Validator.

Local Open Scope Z_scope.

Record RunKey := { k_projectId : str; k_runId : str }.
#[export] Instance RunKey_eq_dec : EqDecision RunKey.
Proof. solve_decision. Defined.

Record ValidatorFacts := {
  vf_complete : bool; vf_closed : bool; vf_verdict : Verdict;
  vf_ignoredEvents : Z; vf_duplicateEvents : Z;
}.

Record ProjectedSession := {
  ps_sessionId : str; ps_startedAt : str; ps_producer : Component; ps_runner : option Component;
  ps_environment : option (jsmap str str); ps_executor : option Executor; ps_source : option Source;
  ps_labels : option (jsmap str str); ps_finished : bool; ps_finishedAt : option str;
  ps_status : option SessionStatus; ps_rawStatus : option str; ps_failures : list Failure;
  ps_executionIds : list str;
}.

Record Step := {
  step_id : str; step_parentStepId : option str; step_name : str; step_kind : option str;
  step_location : option Location; step_startedAt : str; step_isFinished : bool;
  step_finishedAt : option str; step_status : option Status; step_rawStatus : option str;
  step_durationMs : option Z; step_failures : list Failure;
}.

Record AttachmentReference := {
  ar_sessionId : str; ar_attemptId : str; ar_stepId : option str; ar_name : str;
  ar_mediaType : str; ar_sizeBytes : Z; ar_sha256 : str;
}.

Record ScopeFailure := {
  sc_sessionId : str; sc_occurredAt : str; sc_pathOf : list PathSegment;
  sc_name : option str; sc_raw : option str; sc_locationOf : option Location;
  sc_failuresOf : list Failure;
}.

Record Attempt := {
  attemptId : str; attemptNumber : Z; a_sessionId : str; a_startedAt : str; a_test : TestCase;
  a_isFinished : bool; a_finishedAt : option str; a_status : option Status;
  a_rawStatus : option str; a_expectedStatus : option ExpectedStatus; a_durationMs : option Z;
  a_failures : list Failure; a_stepList : list Step; a_attachments : list AttachmentReference;
}.

Record TestExecution := {
  te_executionId : str; te_runnerName : option str; te_test : TestCase;
  te_attempts : list Attempt; te_finalAttempt : Attempt; te_complete : bool;
  te_finalStatus : option Status; te_flaky : bool;
}.

(** [pr_key] is the RunKey it extends. *)
Record ProjectedRun := {
  pr_key : RunKey; pr_runDirectory : str; pr_validator : ValidatorFacts;
  pr_sessions : list ProjectedSession; pr_executions : list TestExecution;
  pr_scopeFailures : list ScopeFailure; pr_attachments : list AttachmentReference;
}.

Record HistoryKey := { hk_projectId : str; hk_runnerName : str; hk_historicalId : str }.
#[export] Instance HistoryKey_eq_dec : EqDecision HistoryKey.
Proof. solve_decision. Defined.

Record ExecutionOccurrence := {
  eo_key : HistoryKey; eo_runId : str; eo_executionId : str; eo_sessionIds : list str;
  eo_historicalIdStability : HistoricalIdStability; eo_occurredAt : str; eo_attemptCount : Z;
  eo_complete : bool; eo_finalStatus : option Status; eo_expectedStatus : option ExpectedStatus;
  eo_flaky : bool; eo_runVerdict : Verdict; eo_runComplete : bool;
  eo_sessionStatus : option SessionStatus;
}.

Record TestHistory := { th_key : HistoryKey; th_occurrences : list ExecutionOccurrence }.

Record Flakiness := {
  fl_key : HistoryKey; totalOccurrences : Z; flakyOccurrences : Z; everFlaky : bool;
  fl_flaky : list ExecutionOccurrence;
}.

Record BlobSource := { bs_key : RunKey; bs_runDirectory : str }.
Record BlobReference := { br_key : RunKey; br_reference : AttachmentReference }.
Record Blob := {
  b_sha256 : str; b_sizeBytes : Z; b_sources : list BlobSource; b_references : list BlobReference;
}.

Inductive AmbiguityDetail :=
| A_DUPLICATE_ATTEMPT_NUMBER | A_HISTORICAL_IDENTITY_CHANGED | A_EXECUTION_RUNNER_CHANGED.

Inductive DiscoveryProblemCode :=
| RUNS_DIRECTORY_MISSING | SYMLINK_SKIPPED | NOT_A_DIRECTORY | NO_EVENTS_DIRECTORY.

Record DiscoveryProblem := { dp_code : DiscoveryProblemCode; dp_path : str; dp_message : str }.

Inductive IngestionProblemCode :=
| I_DISCOVERY (c : DiscoveryProblemCode)
| I_NOT_A_RUN_DIRECTORY | I_NOT_A_REGULAR_FILE | I_VALIDATION_ERROR | I_EMPTY_RUN | I_RUN_INVALID
| I_PROJECTION_AMBIGUOUS | I_DUPLICATE_RUN | I_BLOB_SIZE_CONFLICT.

Record IngestionProblem := {
  ip_code : IngestionProblemCode; ip_projectId : str; ip_runDirectory : str;
  ip_runId : option str; ip_detail : option AmbiguityDetail; ip_message : str;
  ip_diagnostics : list Diagnostic;
}.

(** ** Project ids *)

Definition MAX_PROJECT_ID_UTF8_BYTES : Z := 512.

(** LONE_SURROGATE.test *)
Fixpoint has_lone_surrogate (s : str) : bool :=
  match s with
  | [] => false
  | u :: s' =>
      match s' with
      | v :: s'' =>
          if is_high_surrogate u && is_low_surrogate v then has_lone_surrogate s''
          else is_surrogate u || has_lone_surrogate s'
      | [] => is_surrogate u
      end
  end.

(** [checkProjectId]: the message of the TypeError. *)
Definition checkProjectId (projectId : str) : res str unit :=
  if str_eqb projectId [] then Throw (js "projectId must be a non-empty string")
  else if has_lone_surrogate projectId then
    Throw (js "projectId must be well-formed Unicode: it holds an unpaired surrogate")
  else if bool_decide (0%N ∈ projectId) then Throw (js "projectId must not contain U+0000")
  else if MAX_PROJECT_ID_UTF8_BYTES <? utf8_length projectId then
    Throw (js "projectId must be at most 512 bytes in UTF-8")
  else Ok tt.
