(* ===== verification/Projector.v ===== *)
(** * The projector (ts/packages/read-model/src/projector.ts)

    One pass over a snapshot's events in (session, sequence) order builds the
    sessions, attempts and steps; [groupExecutions] groups attempts by execution
    and refuses a group that has no single meaning. A step state is shared by an
    attempt's [steps] and [stepsById]: the map holds its index in the list. *)

From S2P Require Import Prelude JsString JsMap JsSort Json Model History Validator ReadTypes.

Local Open Scope Z_scope.

(** What [projectRun] throws: AmbiguousRunError, or a plain Error. *)
Inductive ProjectError :=
| AmbiguousRunError (detail : AmbiguityDetail) (executionId message : str)
| PlainError (message : str).

Record SessionState := {
  ss_env : Envelope; ss_started : SessionStartedPayload;
  ss_finished : option (Envelope * SessionFinishedPayload); ss_executionIds : list str;
}.
#[export] Instance SessionState_fields : Fields SessionState := λ r,
  {| ss_env := ss_env r; ss_started := ss_started r; ss_finished := ss_finished r;
     ss_executionIds := ss_executionIds r |}.

Record StepState := {
  ts_env : Envelope; ts_started : StepStartedPayload;
  ts_finished : option (Envelope * StepFinishedPayload);
}.
#[export] Instance StepState_fields : Fields StepState := λ r,
  {| ts_env := ts_env r; ts_started := ts_started r; ts_finished := ts_finished r |}.

Record AttemptState := {
  at_env : Envelope; at_started : AttemptStartedPayload;
  at_finished : option (Envelope * AttemptFinishedPayload);
  at_steps : list StepState; at_stepsById : jsmap str nat;
  at_attachments : list AttachmentReference;
}.
#[export] Instance AttemptState_fields : Fields AttemptState := λ r,
  {| at_env := at_env r; at_started := at_started r; at_finished := at_finished r;
     at_steps := at_steps r; at_stepsById := at_stepsById r; at_attachments := at_attachments r |}.

Record Emitted := { em_sessionId : str; em_sequence : Z; em_reference : AttachmentReference }.

(** The local variables of [projectRun]. *)
Record Projection := {
  pj_sessions : jsmap str SessionState;
  pj_attempts : jsmap str AttemptState;
  pj_scopeFailures : list ScopeFailure;
  pj_emitted : list Emitted;
  pj_runId : option str;
}.
#[export] Instance Projection_fields : Fields Projection := λ r,
  {| pj_sessions := pj_sessions r; pj_attempts := pj_attempts r;
     pj_scopeFailures := pj_scopeFailures r; pj_emitted := pj_emitted r; pj_runId := pj_runId r |}.

Definition no_projection : Projection :=
  {| pj_sessions := []; pj_attempts := []; pj_scopeFailures := []; pj_emitted := []; pj_runId := None |}.

(** ** Views of single events and states *)

Definition reference (env : Envelope) (p : AttachmentAddedPayload) : AttachmentReference :=
  {| ar_sessionId := sessionId env; ar_attemptId := aa_attemptId p; ar_stepId := aa_stepId p;
     ar_name := aa_name p; ar_mediaType := aa_mediaType p; ar_sizeBytes := aa_sizeBytes p;
     ar_sha256 := aa_sha256 p |}.

Definition scopeFailure (env : Envelope) (p : ScopeFailedPayload) : ScopeFailure :=
  {| sc_sessionId := sessionId env; sc_occurredAt := occurredAt env; sc_pathOf := sc_path p;
     sc_name := sc_displayName p; sc_raw := sc_rawStatus p; sc_locationOf := sc_location p;
     sc_failuresOf := sc_failures p |}.

Definition session (s : SessionState) : ProjectedSession :=
  let p := ss_started s in
  let f := snd <$> ss_finished s in
  {| ps_sessionId := sessionId (ss_env s); ps_startedAt := occurredAt (ss_env s);
     ps_producer := ss_producer p; ps_runner := ss_runner p; ps_environment := ss_environment p;
     ps_executor := ss_executor p; ps_source := ss_source p; ps_labels := ss_labels p;
     ps_finished := bool_decide (is_Some (ss_finished s));
     ps_finishedAt := (λ e, occurredAt e.1) <$> ss_finished s;
     ps_status := f ≫= sf_status; ps_rawStatus := f ≫= sf_rawStatus;
     ps_failures := default [] (f ≫= sf_failures);
     ps_executionIds := sort compare (ss_executionIds s) |}.

Definition step (s : StepState) : Step :=
  let p := ts_started s in
  let f := snd <$> ts_finished s in
  {| step_id := st_stepId p; step_parentStepId := st_parentStepId p; step_name := st_name p;
     step_kind := st_kind p; step_location := st_location p; step_startedAt := occurredAt (ts_env s);
     step_isFinished := bool_decide (is_Some (ts_finished s));
     step_finishedAt := (λ e, occurredAt e.1) <$> ts_finished s;
     step_status := sp_status <$> f; step_rawStatus := f ≫= sp_rawStatus;
     step_durationMs := f ≫= sp_durationMs; step_failures := default [] (f ≫= sp_failures) |}.

Definition attempt (a : AttemptState) : Attempt :=
  let p := at_started a in
  let f := snd <$> at_finished a in
  {| attemptId := as_attemptId p; attemptNumber := as_attemptNumber p;
     a_sessionId := sessionId (at_env a); a_startedAt := occurredAt (at_env a); a_test := as_test p;
     a_isFinished := bool_decide (is_Some (at_finished a));
     a_finishedAt := (λ e, occurredAt e.1) <$> at_finished a;
     a_status := af_status <$> f; a_rawStatus := f ≫= af_rawStatus;
     a_expectedStatus := f ≫= af_expectedStatus; a_durationMs := f ≫= af_durationMs;
     a_failures := default [] (f ≫= af_failures);
     a_stepList := step <$> at_steps a; a_attachments := at_attachments a |}.

(** [expected] *)
Definition expected (a : Attempt) : ExpectedStatus := default ExPassed (a_expectedStatus a).

(** ** One event *)

Definition new_attempt (env : Envelope) (p : AttemptStartedPayload) : AttemptState :=
  {| at_env := env; at_started := p; at_finished := None; at_steps := []; at_stepsById := [];
     at_attachments := [] |}.

(** [step.finished]: the state [stepsById] refers to. *)
Definition finish_step (env : Envelope) (p : StepFinishedPayload) (a : AttemptState) : AttemptState :=
  match mget (at_stepsById a) (sp_stepId p) with
  | Some i => a <| at_steps ::= alter (λ s, s <| ts_finished := Some (env, p) |>) i |>
  | None => a
  end.

(** [step.started] *)
Definition start_step (env : Envelope) (p : StepStartedPayload) (a : AttemptState) : AttemptState :=
  a <| at_steps ::= λ l, l ++ [{| ts_env := env; ts_started := p; ts_finished := None |}] |>
    <| at_stepsById ::= λ m, mset m (st_stepId p) (length (at_steps a)) |>.

(** The body of the loop of [projectRun]. *)
Definition project_event (event : Event) (s0 : Projection) : Projection :=
  let env := e_env event in
  let s := s0 <| pj_runId ::= λ r, Some (default (runId env) r) |> in
  match e_payload event with
  | SessionStarted p =>
      s <| pj_sessions ::= λ m, mset m (sessionId env)
             {| ss_env := env; ss_started := p; ss_finished := None; ss_executionIds := [] |} |>
  | SessionFinished p =>
      s <| pj_sessions ::= λ m, mupd m (sessionId env) (λ x, x <| ss_finished := Some (env, p) |>) |>
  | RunFinished => s
  | AttemptStarted p =>
      s <| pj_attempts ::= λ m, mset m (as_attemptId p) (new_attempt env p) |>
        <| pj_sessions ::= λ m, mupd m (sessionId env)
             (λ x, x <| ss_executionIds ::= λ ids, sadd ids (t_executionId (as_test p)) |>) |>
  | AttemptFinished p =>
      s <| pj_attempts ::= λ m, mupd m (af_attemptId p) (λ a, a <| at_finished := Some (env, p) |>) |>
  | StepStarted p => s <| pj_attempts ::= λ m, mupd m (st_attemptId p) (start_step env p) |>
  | StepFinished p => s <| pj_attempts ::= λ m, mupd m (sp_attemptId p) (finish_step env p) |>
  | AttachmentAdded p =>
      let r := reference env p in
      s <| pj_attempts ::= λ m, mupd m (aa_attemptId p) (λ a, a <| at_attachments ::= λ l, l ++ [r] |>) |>
        <| pj_emitted ::= λ l, l ++ [{| em_sessionId := sessionId env; em_sequence := sequence env;
                                        em_reference := r |}] |>
  | ScopeFailed p => s <| pj_scopeFailures ::= λ l, l ++ [scopeFailure env p] |>
  end.

(** [ordered]: by session id, then by sequence. *)
Definition event_order : Event → Event → Z :=
  cmp_then (cmp_on (λ e, sessionId (e_env e)) compare) (cmp_on (λ e, sequence (e_env e)) cmp_sub).
Definition ordered (events : list Event) : list Event := sort event_order events.

(** ** Executions *)

(** [isFlaky]: [reduce] keeps the first attempt with the highest number; [a !== finalAttempt] is
    identity, so the position in the list. *)
Definition later (f a : nat * Attempt) : nat * Attempt :=
  if attemptNumber f.2 <? attemptNumber a.2 then a else f.

Definition isFlaky (attempts : list Attempt) : bool :=
  if (length attempts <? 2)%nat then false
  else
    match imap pair attempts with
    | [] => false
    | a0 :: rest =>
        let finalAttempt := foldl later a0 rest in
        if negb (a_isFinished finalAttempt.2) then false
        else if negb (bool_decide (a_status finalAttempt.2 = Some StPassed))
                || negb (bool_decide (expected finalAttempt.2 = ExPassed))
        then false
        else existsb (λ a, negb (a.1 =? finalAttempt.1)%nat && a_isFinished a.2
                           && bool_decide (a_status a.2 = Some StFailed)
                           && bool_decide (expected a.2 = ExPassed)) (imap pair attempts)
    end.

(** Two neighbours with one attempt number. *)
Fixpoint repeated_number (list_ : list Attempt) : option (Attempt * Attempt) :=
  match list_ with
  | previous :: (current :: _) as rest =>
      if attemptNumber previous =? attemptNumber current then Some (previous, current)
      else repeated_number rest
  | _ => None
  end.

Definition same_identity (first a : Attempt) : bool :=
  bool_decide (t_historicalId (a_test a) = t_historicalId (a_test first)) &&
  bool_decide (t_historicalIdStability (a_test a) = t_historicalIdStability (a_test first)).

(** [sessions.get(a.sessionId)?.started.payload.runner?.name] *)
Definition declared_runner (sessions : jsmap str SessionState) (a : Attempt) : option str :=
  s ← mget sessions (a_sessionId a); c_name <$> ss_runner (ss_started s).

(** The body of the loop of [groupExecutions]. *)
Definition execution_of (sessions : jsmap str SessionState) (group : str * list AttemptState)
    : res ProjectError TestExecution :=
  let executionId := group.1 in
  let list_ := sort (cmp_on attemptNumber cmp_sub) (attempt <$> group.2) in
  match repeated_number list_ with
  | Some (previous, current) =>
      Throw (AmbiguousRunError A_DUPLICATE_ATTEMPT_NUMBER executionId
        (js "execution " ++ executionId ++ js " has two attempts numbered "
          ++ dec (attemptNumber current) ++ js " (" ++ attemptId previous ++ js ", "
          ++ attemptId current ++ js "); the final attempt is undefined"))
  | None =>
      match list_, last list_ with
      | first :: _, Some finalAttempt =>
          match List.find (λ a, negb (same_identity first a)) list_ with
          | Some a =>
              Throw (AmbiguousRunError A_HISTORICAL_IDENTITY_CHANGED executionId
                (js "execution " ++ executionId
                  ++ js " changes historical identity between attempts " ++ attemptId first
                  ++ js " and " ++ attemptId a))
          | None =>
              let runnerNames := sfrom (declared_runner sessions <$> list_) in
              if (1 <? length runnerNames)%nat then
                Throw (AmbiguousRunError A_EXECUTION_RUNNER_CHANGED executionId
                  (js "execution " ++ executionId
                    ++ js " spans sessions that declare different runners"))
              else
                Ok {| te_executionId := executionId; te_runnerName := mjoin (head runnerNames);
                      te_test := a_test first; te_attempts := list_;
                      te_finalAttempt := finalAttempt; te_complete := forallb a_isFinished list_;
                      te_finalStatus := a_status finalAttempt; te_flaky := isFlaky list_ |}
          end
      | _, _ => Throw (PlainError (js "Cannot read properties of undefined"))
      end
  end.

(** Attempts by execution id, in the order of the attempts map. *)
Definition group_attempt (groups : jsmap str (list AttemptState)) (a : AttemptState)
    : jsmap str (list AttemptState) :=
  let id := t_executionId (as_test (at_started a)) in
  mset groups id (default [] (mget groups id) ++ [a]).

Definition groupExecutions (attempts : jsmap str AttemptState) (sessions : jsmap str SessionState)
    : res ProjectError (list TestExecution) :=
  mapMi (λ _, execution_of sessions)
    (sort (cmp_on fst compare) (foldl group_attempt [] (mvalues attempts))).

(** ** The projection *)

Definition emitted_order : Emitted → Emitted → Z :=
  cmp_then (cmp_on em_sessionId compare) (cmp_on em_sequence cmp_sub).

(** The state of [projectRun] after its loop. *)
Definition project_events (events : list Event) : Projection :=
  foldl (λ s e, project_event e s) no_projection events.

Definition projectRun (projectId runDirectory : str) (snapshot : ValidatedRun)
    : res ProjectError ProjectedRun :=
  if negb (r_valid (vr_report snapshot)) then Throw (PlainError (js "only a valid run can be projected"))
  else
    let s := project_events (ordered (vr_events snapshot)) in
    match pj_runId s with
    | None => Throw (PlainError (js "a valid run carries at least one event"))
    | Some runId =>
        executions ← groupExecutions (pj_attempts s) (pj_sessions s);
        let sm := r_summary (vr_report snapshot) in
        Ok {| pr_key := {| k_projectId := projectId; k_runId := runId |};
              pr_runDirectory := runDirectory;
              pr_validator :=
                {| vf_complete := sm_complete sm; vf_closed := sm_closed sm;
                   vf_verdict := sm_verdict sm; vf_ignoredEvents := sm_ignored sm;
                   vf_duplicateEvents := sm_duplicates sm |};
              pr_sessions := sort (cmp_on ps_sessionId compare) (session <$> mvalues (pj_sessions s));
              pr_executions := executions; pr_scopeFailures := pj_scopeFailures s;
              pr_attachments := em_reference <$> sort emitted_order (pj_emitted s) |}
    end.
