(* ===== verification/ProjectorSpec.v ===== *)
(** * The projector's contract

    The projection of a valid run's events: it never finds the run ambiguous,
    its collections are ordered and say one thing each, it does not depend on
    the order events were read in, it invents nothing, and an attempt that only
    its own session writes about tells, with its steps, all the history says. *)

From Stdlib Require Import Sorting.Sorted Sorting.Permutation.
From S2P Require Import Prelude JsString JsMap JsSort Json Model Codec CodecProps History Validator ValidatorRun Demo ValidatorTables ValidatorSound ValidatorReport ReadTypes Projector.

Local Open Scope Z_scope.

(** ** One attempt, one session *)

(** What an event does to the state of attempt [id]. *)
Definition attempt_event (id : str) (o : option AttemptState) (e : Event) : option AttemptState :=
  let env := e_env e in
  let on k (f : AttemptState → AttemptState) := if str_eqb k id then f <$> o else o in
  match e_payload e with
  | AttemptStarted p => if str_eqb (as_attemptId p) id then Some (new_attempt env p) else o
  | AttemptFinished p => on (af_attemptId p) (λ a, a <| at_finished := Some (env, p) |>)
  | StepStarted p => on (st_attemptId p) (start_step env p)
  | StepFinished p => on (sp_attemptId p) (finish_step env p)
  | AttachmentAdded p => on (aa_attemptId p) (λ a, a <| at_attachments ::= λ l, l ++ [reference env p] |>)
  | _ => o
  end.

(** What it does to the state of session [sid]. *)
Definition session_event (sid : str) (o : option SessionState) (e : Event) : option SessionState :=
  let env := e_env e in
  let on (f : SessionState → SessionState) := if str_eqb (sessionId env) sid then f <$> o else o in
  match e_payload e with
  | SessionStarted p =>
      if str_eqb (sessionId env) sid
      then Some {| ss_env := env; ss_started := p; ss_finished := None; ss_executionIds := [] |} else o
  | SessionFinished p => on (λ x, x <| ss_finished := Some (env, p) |>)
  | AttemptStarted p => on (λ x, x <| ss_executionIds ::= λ ids, sadd ids (t_executionId (as_test p)) |>)
  | _ => o
  end.

Lemma str_eqb_decide {A} a b (x y : A) : (if str_eqb a b then x else y) = if decide (a = b) then x else y.
Proof. unfold str_eqb. by case_bool_decide; case_decide. Qed.

Lemma project_event_attempt e s id :
  mget (pj_attempts (project_event e s)) id = attempt_event id (mget (pj_attempts s) id) e.
Proof.
  unfold project_event, attempt_event. destruct (e_payload e); simpl; try done;
    rewrite str_eqb_decide, ?mget_mupd, ?mget_mset; done.
Qed.

Lemma project_event_session e s sid :
  mget (pj_sessions (project_event e s)) sid = session_event sid (mget (pj_sessions s) sid) e.
Proof.
  unfold project_event, session_event. destruct (e_payload e); simpl; try done;
    rewrite str_eqb_decide, ?mget_mupd, ?mget_mset; done.
Qed.

Lemma project_event_NoDup e s :
  NoDup (mkeys (pj_attempts s)) → NoDup (mkeys (pj_sessions s)) →
  NoDup (mkeys (pj_attempts (project_event e s))) ∧ NoDup (mkeys (pj_sessions (project_event e s))).
Proof. intros. unfold project_event. destruct (e_payload e); simpl; auto with qe. Qed.

Lemma project_events_snoc es e : project_events (es ++ [e]) = project_event e (project_events es).
Proof. unfold project_events. by rewrite foldl_app. Qed.

(** The state of an attempt or a session is the fold of its own events. *)
Lemma project_events_attempt es id :
  mget (pj_attempts (project_events es)) id = foldl (attempt_event id) None es.
Proof.
  induction es as [|e es IH] using rev_ind; [done|].
  by rewrite project_events_snoc, project_event_attempt, IH, foldl_app.
Qed.

Lemma project_events_session es sid :
  mget (pj_sessions (project_events es)) sid = foldl (session_event sid) None es.
Proof.
  induction es as [|e es IH] using rev_ind; [done|].
  by rewrite project_events_snoc, project_event_session, IH, foldl_app.
Qed.

Lemma project_events_NoDup es :
  NoDup (mkeys (pj_attempts (project_events es))) ∧ NoDup (mkeys (pj_sessions (project_events es))).
Proof.
  induction es as [|e es [IH1 IH2]] using rev_ind; [split; constructor|].
  rewrite project_events_snoc. by apply project_event_NoDup.
Qed.

Lemma project_events_runId es :
  pj_runId (project_events es) = match es with e :: _ => Some (runId (e_env e)) | [] => None end.
Proof.
  induction es as [|e es IH] using rev_ind; [done|]. rewrite project_events_snoc.
  assert (∀ s, pj_runId (project_event e s) = Some (default (runId (e_env e)) (pj_runId s))) as ->.
  { intros s. unfold project_event. by destruct (e_payload e). }
  rewrite IH. by destruct es.
Qed.

(** An attempt's state begins with its start event, a session's with its own. *)
Definition begins (id : str) (es : list Event) (a : AttemptState) : Prop :=
  {| e_env := at_env a; e_payload := AttemptStarted (at_started a) |} ∈ es ∧ as_attemptId (at_started a) = id.

Lemma attempt_event_begins id es a : foldl (attempt_event id) None es = Some a → begins id es a.
Proof.
  revert a. induction es as [|e es IH] using rev_ind; intros a; [done|].
  rewrite foldl_app. simpl. destruct (foldl _ None es) as [a0|] eqn:E.
  - specialize (IH a0 eq_refl). unfold begins in *. destruct IH as [Hin Hid].
    destruct e as [env pl]. unfold attempt_event. cbn [e_env e_payload].
    destruct pl; try (intros [= <-]; set_solver);
      destruct (str_eqb _ id) eqn:K; simpl; intros [= <-]; try set_solver.
    + apply str_eqb_eq in K. set_solver.
    + unfold finish_step. destruct (mget _ _); simpl; set_solver.
  - destruct e as [env pl]. unfold attempt_event. cbn [e_env e_payload].
    destruct pl; try done; destruct (str_eqb _ id) eqn:K; try done.
    intros [= <-]. apply str_eqb_eq in K. unfold begins. simpl. set_solver.
Qed.

Lemma session_event_begins sid es x :
  foldl (session_event sid) None es = Some x →
  {| e_env := ss_env x; e_payload := SessionStarted (ss_started x) |} ∈ es ∧ sessionId (ss_env x) = sid.
Proof.
  revert x. induction es as [|e es IH] using rev_ind; intros x; [done|].
  rewrite foldl_app. simpl. destruct (foldl _ None es) as [x0|] eqn:E.
  - specialize (IH x0 eq_refl). destruct IH as [Hin Hid].
    destruct e as [env pl]. unfold session_event. cbn [e_env e_payload].
    destruct pl; try (intros [= <-]; set_solver);
      destruct (str_eqb _ sid) eqn:K; simpl; intros [= <-]; try set_solver.
    apply str_eqb_eq in K. set_solver.
  - destruct e as [env pl]. unfold session_event. cbn [e_env e_payload].
    destruct pl; try done; destruct (str_eqb _ sid) eqn:K; try done.
    intros [= <-]. apply str_eqb_eq in K. simpl. set_solver.
Qed.

Lemma attempt_event_keeps id o e : is_Some o → is_Some (attempt_event id o e).
Proof. intros [a ->]. unfold attempt_event. destruct (e_payload e); simpl; try case_match; eauto. Qed.
Lemma session_event_keeps sid o e : is_Some o → is_Some (session_event sid o e).
Proof. intros [a ->]. unfold session_event. destruct (e_payload e); simpl; try case_match; eauto. Qed.

Lemma foldl_is_Some {A B} (f : option A → B → option A) l o :
  (∀ o e, is_Some o → is_Some (f o e)) → is_Some o → is_Some (foldl f o l).
Proof. intros Hf. revert o. induction l as [|x l IH]; simpl; auto. Qed.

Lemma attempt_present es id env p :
  {| e_env := env; e_payload := AttemptStarted p |} ∈ es → as_attemptId p = id →
  is_Some (foldl (attempt_event id) None es).
Proof.
  intros (l1 & l2 & ->)%list_elem_of_split <-. rewrite foldl_app. simpl.
  apply foldl_is_Some; [apply attempt_event_keeps|]. unfold attempt_event at 1. simpl.
  rewrite str_eqb_refl. eauto.
Qed.

Lemma session_present es sid env p :
  {| e_env := env; e_payload := SessionStarted p |} ∈ es → sessionId env = sid →
  is_Some (foldl (session_event sid) None es).
Proof.
  intros (l1 & l2 & ->)%list_elem_of_split <-. rewrite foldl_app. simpl.
  apply foldl_is_Some; [apply session_event_keeps|]. unfold session_event at 1. simpl.
  rewrite str_eqb_refl. eauto.
Qed.

(** ** Attempts of a valid history *)

Lemma started_attempt h env p :
  valid_history h → Known {| e_env := env; e_payload := AttemptStarted p |} ∈ h →
  att_started h (as_attemptId p) = Some (env, p).
Proof.
  induction 1 as [|h e Hv IH (_ & _ & Hp)]; [by intros ?%elem_of_nil|].
  rewrite att_started_snoc. intros [Hin| <-%list_elem_of_singleton]%elem_of_app.
  - by rewrite IH.
  - destruct Hp as (-> & _). simpl. by rewrite str_eqb_refl.
Qed.

Lemma started_session h env p :
  valid_history h → Known {| e_env := env; e_payload := SessionStarted p |} ∈ h →
  sess_started h (sessionId env) = Some p.
Proof.
  induction 1 as [|h e Hv IH (_ & Hs & _)]; [by intros ?%elem_of_nil|].
  rewrite sess_started_snoc. intros [Hin| <-%list_elem_of_singleton]%elem_of_app.
  - by rewrite IH.
  - destruct Hs as (Hs & _). simpl in Hs. rewrite Hs. simpl. by rewrite str_eqb_refl.
Qed.

Lemma att_started_elem h id env p :
  att_started h id = Some (env, p) →
  Known {| e_env := env; e_payload := AttemptStarted p |} ∈ h ∧ as_attemptId p = id.
Proof.
  intros H. split; [|by eapply att_started_id].
  apply find_map_Some in H as (e & He & Hf).
  destruct e as [[env' []]|]; simpl in Hf; try done. destruct (str_eqb _ _); [|done]. by simplify_eq.
Qed.

Lemma sess_started_elem h sid p :
  sess_started h sid = Some p →
  ∃ env, Known {| e_env := env; e_payload := SessionStarted p |} ∈ h ∧ sessionId env = sid.
Proof.
  intros (e & He & Hf)%find_map_Some.
  destruct e as [[env' []]|]; simpl in Hf; try done. destruct (str_eqb _ _) eqn:E; [|done].
  apply str_eqb_eq in E. simplify_eq. eauto.
Qed.

Lemma runner_name_stable h e sid :
  is_Some (sess_started h sid) → runner_name (h ++ [e]) sid = runner_name h sid.
Proof. intros [p Hp]. unfold runner_name. by rewrite sess_started_snoc, Hp. Qed.

(** Every attempt agrees with the first attempt of its execution on history identity and runner. *)
Lemma execution_agrees h id env p :
  valid_history h → att_started h id = Some (env, p) →
  ∃ env0 p0, exec_first h (t_executionId (as_test p)) = Some (env0, p0) ∧
    is_Some (sess_started h (sessionId env0)) ∧
    t_historicalId (as_test p0) = t_historicalId (as_test p) ∧
    t_historicalIdStability (as_test p0) = t_historicalIdStability (as_test p) ∧
    runner_name h (sessionId env0) = runner_name h (sessionId env).
Proof.
  intros Hv. revert id env p. induction Hv as [|h e Hv IH Ha]; intros id env p; [done|].
  rewrite att_started_snoc. destruct (att_started h id) as [[env1 p1]|] eqn:E; simpl.
  - intros [= -> ->]. destruct (IH _ _ _ E) as (env0 & p0 & H1 & H2 & H3 & H4 & H5).
    exists env0, p0. rewrite exec_first_snoc, H1, sess_started_snoc, or_else_is_Some.
    rewrite !runner_name_stable by eauto using valid_attempt_session. auto 7.
  - pose proof (allowed_session h e Ha) as Hse. destruct Ha as (_ & Hs & Hp).
    destruct e as [[envx []]|]; simpl; try done. destruct (str_eqb _ id) eqn:K; [|done].
    intros [= -> ->]. rewrite exec_first_snoc. destruct Hp as (_ & _ & _ & Hx).
    destruct Hs as [Hst _].
    destruct (exec_first h _) as [[env0 p0]|] eqn:Ef; simpl.
    + exists env0, p0. destruct (Hx _ _ eq_refl) as (H3 & H4 & H5).
      apply find_map_Some in Ef as (e0 & He0 & Hf0).
      assert (is_Some (sess_started h (sessionId env0))) as H0.
      { destruct e0 as [[envy []]|]; simpl in Hf0; try done.
        destruct (str_eqb (t_executionId _) _); [|done]. simplify_eq.
        eapply valid_attempt_session, started_attempt; done. }
      rewrite sess_started_snoc, or_else_is_Some, !runner_name_stable by done. auto 7.
    + exists env, p. rewrite str_eqb_refl. auto.
Qed.

Lemma execution_identity h id id' env p env' p' :
  valid_history h → att_started h id = Some (env, p) → att_started h id' = Some (env', p') →
  t_executionId (as_test p) = t_executionId (as_test p') →
  t_historicalId (as_test p) = t_historicalId (as_test p') ∧
  t_historicalIdStability (as_test p) = t_historicalIdStability (as_test p') ∧
  runner_name h (sessionId env) = runner_name h (sessionId env').
Proof.
  intros Hv H1 H2 Hx.
  destruct (execution_agrees _ _ _ _ Hv H1) as (e0 & p0 & F1 & _ & A1 & A2 & A3).
  destruct (execution_agrees _ _ _ _ Hv H2) as (e1 & p1 & F2 & _ & B1 & B2 & B3).
  rewrite Hx in F1. simplify_eq. split_and!; congruence.
Qed.

(** ** Grouping *)

Definition exec_id (a : AttemptState) : str := t_executionId (as_test (at_started a)).
Definition in_execution (eid : str) (a : AttemptState) : bool := str_eqb (exec_id a) eid.
Definition nonempty {A} (l : list A) : option (list A) := match l with [] => None | _ => Some l end.

Lemma groups_get l eid :
  mget (foldl group_attempt [] l) eid = nonempty (List.filter (in_execution eid) l).
Proof.
  induction l as [|a l IH] using rev_ind; [done|].
  rewrite foldl_app, List.filter_app. simpl. unfold group_attempt at 1.
  rewrite mget_mset. fold (exec_id a).
  unfold in_execution at 2. rewrite str_eqb_decide. case_decide as E.
  - subst eid. rewrite IH. by destruct (List.filter _ l).
  - by rewrite IH, app_nil_r.
Qed.

Lemma groups_NoDup l : NoDup (mkeys (foldl group_attempt [] l)).
Proof.
  induction l as [|a l IH] using rev_ind; [constructor|].
  rewrite foldl_app. simpl. unfold group_attempt at 1. by apply mset_NoDup.
Qed.

Lemma groups_elem l eid as_ :
  (eid, as_) ∈ foldl group_attempt [] l ↔ as_ ≠ [] ∧ as_ = List.filter (in_execution eid) l.
Proof.
  split.
  - intros H%elem_mget; [|apply groups_NoDup]. rewrite groups_get in H.
    destruct (List.filter _ l); simpl in H; simplify_eq; done.
  - intros [Hne ->]. apply mget_elem. rewrite groups_get. by destruct (List.filter _ l).
Qed.

Lemma elem_of_filter_b {A} (P : A → bool) l x : x ∈ List.filter P l ↔ x ∈ l ∧ P x = true.
Proof. by rewrite !list_elem_of_In, filter_In. Qed.

(** ** One execution *)

Abbreviation by_number := (cmp_on attemptNumber cmp_sub).

Lemma repeated_number_None l :
  NoDup (attemptNumber <$> l) → repeated_number l = None.
Proof.
  induction l as [|a [|b l] IH]; try done. rewrite fmap_cons, NoDup_cons. intros [Hn Hd].
  cbn [repeated_number]. destruct (Z.eqb_spec (attemptNumber a) (attemptNumber b)) as [E|]; [|by apply IH].
  exfalso. apply Hn. rewrite E. set_solver.
Qed.

(** Sorted without a repetition: strictly increasing. *)
Definition number_lt (a b : Attempt) : Prop := attemptNumber a < attemptNumber b.

Lemma repeated_number_sorted l :
  StronglySorted (cmp_le by_number) l → repeated_number l = None → StronglySorted number_lt l.
Proof.
  induction 1 as [|a l Hl IH Ha]; [constructor|]. intros Hr.
  destruct l as [|b l]; [constructor; constructor|]. cbn [repeated_number] in Hr.
  destruct (Z.eqb_spec (attemptNumber a) (attemptNumber b)) as [|Hne]; [done|].
  specialize (IH Hr). constructor; [done|]. apply StronglySorted_inv in IH as [_ Hb].
  apply Forall_cons in Ha as [Hab _]. unfold cmp_le, cmp_on, cmp_sub in Hab. unfold number_lt in *.
  constructor; [lia|]. eapply Forall_impl; [exact Hb|]. simpl. lia.
Qed.

Lemma find_None_iff {A} (P : A → bool) l : List.find P l = None ↔ ∀ x, x ∈ l → P x = false.
Proof.
  split.
  - intros H x Hx. apply (List.find_none _ _ H). by apply list_elem_of_In.
  - intros H. destruct (List.find P l) eqn:E; [|done]. apply List.find_some in E as [E1 E2].
    rewrite H in E2; [done|]. by apply list_elem_of_In.
Qed.

Lemma sfrom_const {A} `{EqDecision A} (l : list A) x :
  l ≠ [] → (∀ y, y ∈ l → y = x) → sfrom l = [x].
Proof.
  intros Hne Hx.
  assert (∀ l, (∀ y, y ∈ l → y = x) → foldl sadd [x] l = [x]) as Hf.
  { clear. induction l as [|y l IH]; intros Hl; [done|]. simpl. unfold sadd at 2.
    rewrite (Hl y) by set_solver. rewrite decide_True by set_solver. apply IH; set_solver. }
  destruct l as [|y l]; [done|]. unfold sfrom. simpl. unfold sadd at 2.
  rewrite decide_False by set_solver. simpl. rewrite (Hx y) by set_solver. apply Hf. set_solver.
Qed.

Lemma sfrom_single {A} `{EqDecision A} (l : list A) x y :
  (length (sfrom l) ≤ 1)%nat → x ∈ l → y ∈ l → x = y.
Proof.
  intros Hl Hx%elem_of_sfrom Hy%elem_of_sfrom. destruct (sfrom l) as [|z [|]]; simpl in *; [|set_solver|lia].
  by apply elem_of_nil in Hx.
Qed.

Lemma same_identity_iff a b :
  same_identity a b = true ↔
  t_historicalId (a_test b) = t_historicalId (a_test a) ∧
  t_historicalIdStability (a_test b) = t_historicalIdStability (a_test a).
Proof. unfold same_identity. by rewrite andb_true_iff, !bool_decide_eq_true. Qed.

Definition identity_runner (sessions : jsmap str SessionState) (a : Attempt) :=
  (t_historicalId (a_test a), t_historicalIdStability (a_test a), declared_runner sessions a).

(** A group with one meaning is an execution. *)
Lemma execution_of_ok sessions eid as_ :
  as_ ≠ [] → NoDup (attemptNumber <$> (attempt <$> as_)) →
  (∀ a b, a ∈ as_ → b ∈ as_ →
     identity_runner sessions (attempt a) = identity_runner sessions (attempt b)) →
  ∃ te, execution_of sessions (eid, as_) = Ok te.
Proof.
  intros Hne Hnd Hsame. unfold execution_of. cbn [fst snd].
  pose proof (sort_Permutation by_number (attempt <$> as_)) as Hp.
  rewrite repeated_number_None by by rewrite Hp.
  assert (∀ x y, x ∈ sort by_number (attempt <$> as_) → y ∈ sort by_number (attempt <$> as_) →
    identity_runner sessions x = identity_runner sessions y) as Hall.
  { intros x y. rewrite Hp, !list_elem_of_fmap. intros (a & -> & Ha) (b & -> & Hb). auto. }
  destruct (sort by_number (attempt <$> as_)) as [|first rest] eqn:Es.
  { apply Permutation_nil_l in Hp. symmetry in Hp. by apply fmap_nil_inv in Hp. }
  destruct (last (first :: rest)) as [f|] eqn:El; [|by apply last_None in El].
  rewrite (proj2 (find_None_iff _ _)).
  2: { intros x Hx. rewrite negb_false_iff, same_identity_iff.
       specialize (Hall x first Hx ltac:(set_solver)). unfold identity_runner in Hall. by simplify_eq. }
  rewrite (sfrom_const _ (declared_runner sessions first)); [simpl; eauto|done|].
  intros y (x & -> & Hx)%list_elem_of_fmap. specialize (Hall x first Hx ltac:(set_solver)).
  unfold identity_runner in Hall. by simplify_eq.
Qed.

(** ** The projection of a valid history *)

Section of_history.
Context (h : history) (Hv : valid_history h) (es : list Event) (Hes : es ≡ₚ omap known h).
Abbreviation s := (project_events es).

Lemma known_elem e : e ∈ es ↔ Known e ∈ h.
Proof using Hes.
  rewrite Hes, list_elem_of_omap. split.
  - intros ([k|u] & Hin & Hk); simpl in Hk; by simplify_eq.
  - intros Hin. by exists (Known e).
Qed.

Lemma attempt_started_in id a :
  mget (pj_attempts s) id = Some a → att_started h id = Some (at_env a, at_started a).
Proof using Hv Hes.
  rewrite project_events_attempt. intros [Hin Hid]%attempt_event_begins.
  rewrite known_elem in Hin. subst id. by apply started_attempt.
Qed.

Lemma attempt_started_present id :
  is_Some (att_started h id) → is_Some (mget (pj_attempts s) id).
Proof using Hv Hes.
  intros [[env p] [Hin Hid]%att_started_elem]. rewrite project_events_attempt.
  eapply attempt_present; [|done]. by apply known_elem.
Qed.

Lemma session_started_in sid x :
  mget (pj_sessions s) sid = Some x → sess_started h sid = Some (ss_started x).
Proof using Hv Hes.
  rewrite project_events_session. intros [Hin Hid]%session_event_begins.
  rewrite known_elem in Hin. subst sid. by apply started_session.
Qed.

Lemma session_started_present sid :
  is_Some (sess_started h sid) → is_Some (mget (pj_sessions s) sid).
Proof using Hv Hes.
  intros [p (env & Hin & Hid)%sess_started_elem]. rewrite project_events_session.
  eapply session_present; [|done]. by apply known_elem.
Qed.

Lemma declared_runner_name id a :
  mget (pj_attempts s) id = Some a →
  declared_runner (pj_sessions s) (attempt a) = runner_name h (sessionId (at_env a)).
Proof using Hv Hes.
  intros Ha%attempt_started_in. pose proof (valid_attempt_session _ _ _ _ Hv Ha) as Hs.
  unfold declared_runner, runner_name. simpl.
  destruct (session_started_present _ Hs) as [x Hx]. rewrite Hx. simpl.
  by rewrite (session_started_in _ _ Hx).
Qed.

Lemma attempt_value a : a ∈ mvalues (pj_attempts s) ↔ mget (pj_attempts s) (as_attemptId (at_started a)) = Some a.
Proof using Hv Hes.
  rewrite elem_of_mvalues by apply project_events_NoDup. split; [|eauto].
  intros [id Hid]. pose proof (attempt_started_in _ _ Hid) as Ha. apply att_started_id in Ha. by subst id.
Qed.

Lemma group_member eid as_ a :
  (eid, as_) ∈ foldl group_attempt [] (mvalues (pj_attempts s)) → a ∈ as_ →
  mget (pj_attempts s) (as_attemptId (at_started a)) = Some a ∧ exec_id a = eid.
Proof using Hv Hes.
  intros [_ ->]%groups_elem [Ha He]%elem_of_filter_b. split; [by apply attempt_value|].
  by apply str_eqb_eq in He.
Qed.

Lemma mvalues_NoDup : NoDup (mvalues (pj_attempts s)).
Proof using Hv Hes.
  assert (mvalues (pj_attempts s) =
          (λ k, default (new_attempt {| protocolVersion := []; eventId := []; runId := []; sessionId := [];
                   sequence := 0; occurredAt := []; ignorable := None |}
                   {| as_attemptId := []; as_attemptNumber := 0; as_test := demo_test |})
                  (mget (pj_attempts s) k)) <$> mkeys (pj_attempts s)) as Heq.
  { unfold mvalues, mkeys. rewrite <- list_fmap_compose. apply list_fmap_ext. intros i [k v] Hi. simpl.
    rewrite (elem_mget _ k v); [done|apply project_events_NoDup|]. by eapply list_elem_of_lookup_2. }
  rewrite Heq. apply NoDup_fmap_2_strong; [|apply project_events_NoDup].
  intros k1 k2 [v1 Hv1]%mget_is_Some [v2 Hv2]%mget_is_Some. rewrite Hv1, Hv2. simpl. intros ->.
  apply attempt_started_in, att_started_id in Hv1. apply attempt_started_in, att_started_id in Hv2. congruence.
Qed.

Lemma group_numbers eid as_ :
  (eid, as_) ∈ foldl group_attempt [] (mvalues (pj_attempts s)) →
  NoDup (attemptNumber <$> (attempt <$> as_)).
Proof using Hv Hes.
  intros Hg. rewrite <- list_fmap_compose. apply NoDup_fmap_2_strong.
  - intros a b Ha Hb. simpl. destruct (group_member _ _ _ Hg Ha) as [Ga Ea].
    destruct (group_member _ _ _ Hg Hb) as [Gb Eb]. intros Hn. unfold exec_id in *.
    assert (as_attemptId (at_started a) = as_attemptId (at_started b)) as Hid.
    { eapply valid_numbers_distinct; [exact Hv|by apply attempt_started_in|by apply attempt_started_in| |done].
      congruence. }
    rewrite Hid in Ga. congruence.
  - apply groups_elem in Hg as [_ ->]. apply NoDup_ListNoDup, List.NoDup_filter, NoDup_ListNoDup, mvalues_NoDup.
Qed.

Lemma group_meaning eid as_ :
  (eid, as_) ∈ foldl group_attempt [] (mvalues (pj_attempts s)) →
  ∃ te, execution_of (pj_sessions s) (eid, as_) = Ok te.
Proof using Hv Hes.
  intros Hg. pose proof Hg as Hg'. apply groups_elem in Hg' as [Hne _].
  apply execution_of_ok; [done|by eapply group_numbers|].
  intros a b Ha Hb. destruct (group_member _ _ _ Hg Ha) as [Ga Ea].
  destruct (group_member _ _ _ Hg Hb) as [Gb Eb].
  unfold identity_runner. rewrite (declared_runner_name _ _ Ga), (declared_runner_name _ _ Gb). simpl.
  destruct (execution_identity h _ _ _ _ _ _ Hv (attempt_started_in _ _ Ga) (attempt_started_in _ _ Gb))
    as (-> & -> & ->); [unfold exec_id in *; congruence|done].
Qed.
End of_history.

(** A callback that never throws makes a map that never throws. *)
Lemma mapMi_all_ok {E A B} (f : nat → A → res E B) i l :
  (∀ i x, x ∈ l → ∃ y, f i x = Ok y) → ∃ l', mapMi_from f i l = Ok l'.
Proof.
  revert i. induction l as [|x l IH]; intros i Hf; simpl; [eauto|].
  destruct (Hf i x ltac:(set_solver)) as [y ->].
  destruct (IH (S i)) as [ys ->]; [intros; apply Hf; set_solver|]. eauto.
Qed.

Lemma groupExecutions_ok h es :
  valid_history h → es ≡ₚ omap known h →
  ∃ tes, groupExecutions (pj_attempts (project_events es)) (pj_sessions (project_events es)) = Ok tes.
Proof.
  intros Hv Hes. apply mapMi_all_ok. intros _ [eid as_] Hg. rewrite elem_of_sort in Hg.
  by eapply group_meaning.
Qed.

Lemma valid_head h : valid_history h → h ≠ [] → ∃ e, e ∈ h ∧ is_Some (known e).
Proof.
  intros Hv Hne. destruct h as [|x h]; [done|].
  destruct (valid_event_session _ x Hv ltac:(set_solver)) as [p (env & Hin & _)%sess_started_elem].
  eauto.
Qed.

Lemma projectRun_total h pid dir vr :
  valid_history h → h ≠ [] → vr_events vr = omap known h → r_valid (vr_report vr) = true →
  ∃ run, projectRun pid dir vr = Ok run.
Proof.
  intros Hv Hne He Hr. unfold projectRun. rewrite Hr. simpl.
  assert (ordered (vr_events vr) ≡ₚ omap known h) as Hp by (rewrite <- He; apply sort_Permutation).
  rewrite project_events_runId. destruct (ordered (vr_events vr)) as [|e es] eqn:Eo.
  - exfalso. destruct (valid_head h Hv Hne) as (e & Hin & k & Hk).
    apply Permutation_nil_l in Hp.
    assert (k ∈ omap known h) as Hk' by (apply list_elem_of_omap; eauto). rewrite <- Hp in Hk'.
    by apply elem_of_nil in Hk'.
  - destruct (groupExecutions_ok h _ Hv Hp) as [tes ->]. simpl. eauto.
Qed.

(** ** What an execution says *)

(** Passed while expected to pass; failed while expected to pass. *)
Definition passed_as_expected (a : Attempt) : Prop :=
  a_isFinished a = true ∧ a_status a = Some StPassed ∧ expected a = ExPassed.
Definition failed_unexpectedly (a : Attempt) : Prop :=
  a_isFinished a = true ∧ a_status a = Some StFailed ∧ expected a = ExPassed.

Definition later_number (x y : nat * Attempt) : Prop := number_lt x.2 y.2.

Lemma foldl_later_sorted x l :
  StronglySorted later_number (x :: l) → Some (foldl later x l) = last (x :: l).
Proof.
  revert x. induction l as [|y l IH]; intros x Hs; [done|]. simpl.
  apply StronglySorted_inv in Hs as [Hs Hx]. apply Forall_cons in Hx as [Hxy _].
  unfold later at 2. unfold later_number, number_lt in Hxy. rewrite (proj2 (Z.ltb_lt _ _)) by done.
  rewrite (IH y) by done. done.
Qed.

Lemma imap_pair_sorted i l :
  StronglySorted number_lt l → StronglySorted later_number (imap (λ j a, (i + j, a)%nat) l).
Proof.
  intros Hs. revert i. induction Hs as [|a l Hl IH Ha]; intros i; [constructor|].
  rewrite imap_cons. constructor.
  - rewrite (imap_ext _ (λ j b, (S i + j, b)%nat)) by (intros; simpl; f_equal; lia). apply IH.
  - apply Forall_forall. intros p Hp. apply elem_of_lookup_imap in Hp as (j & b & -> & Hb).
    rewrite Forall_forall in Ha. apply Ha. by eapply list_elem_of_lookup_2.
Qed.

Lemma last_imap_pair (l : list Attempt) f :
  last l = Some f → last (imap pair l) = Some ((length l - 1)%nat, f).
Proof.
  intros Hl. apply last_Some in Hl as [l' ->]. rewrite imap_app, last_app. simpl.
  rewrite Nat.add_0_r, length_app. simpl. do 2 f_equal. lia.
Qed.

Lemma isFlaky_spec (l : list Attempt) f :
  StronglySorted number_lt l → last l = Some f →
  isFlaky l = true ↔
  passed_as_expected f ∧ ∃ a, a ∈ l ∧ attemptNumber a < attemptNumber f ∧ failed_unexpectedly a.
Proof.
  intros Hs Hl. pose proof (imap_pair_sorted 0 l Hs) as Hs'. pose proof (last_imap_pair l f Hl) as Hl'.
  change (imap (λ j a, (0 + j, a)%nat) l) with (imap pair l) in Hs'.
  unfold isFlaky. pose proof (elem_of_lookup_imap pair l) as Hin.
  assert (∀ a, a ∈ l → a ≠ f → attemptNumber a < attemptNumber f) as Hlt.
  { apply last_Some in Hl as [l' ->]. intros a [Ha| ->%list_elem_of_singleton]%elem_of_app; [|done].
    intros _. clear -Hs Ha. induction l' as [|b l' IH]; [by apply elem_of_nil in Ha|].
    apply StronglySorted_inv in Hs as [Hs Hb]. apply elem_of_cons in Ha as [->|Ha]; [|auto].
    rewrite Forall_forall in Hb. apply Hb. set_solver. }
  destruct (imap pair l) as [|x rest] eqn:Ei; [done|].
  rewrite <- (foldl_later_sorted x rest Hs') in Hl'. injection Hl' as ->.
  cbn [fst snd]. unfold passed_as_expected, failed_unexpectedly.
  destruct (Nat.ltb_spec (length l) 2) as [Hlen|Hlen].
  { split; [done|]. intros (_ & a & Ha & Hn & _). exfalso.
    apply last_Some in Hl as [[|? l'] ->]; [|rewrite length_app in Hlen; simpl in Hlen; lia].
    apply list_elem_of_singleton in Ha. subst. lia. }
  destruct (a_isFinished f); cbn [negb]; [|naive_solver].
  destruct (decide (a_status f = Some StPassed)) as [E1|E1];
    [rewrite bool_decide_true by done|rewrite bool_decide_false by done; naive_solver].
  destruct (decide (expected f = ExPassed)) as [E2|E2];
    [rewrite bool_decide_true by done|rewrite bool_decide_false by done; naive_solver].
  cbn [negb orb]. rewrite existsb_exists. split.
  - intros ([i a] & Hp & Hc). apply list_elem_of_In, Hin in Hp as (j & b & [= <- <-] & Hb).
    simpl in Hc. rewrite !andb_true_iff, !bool_decide_eq_true in Hc. destruct Hc as [[[_ Hf] Hst] He].
    split; [done|]. exists a. apply list_elem_of_lookup_2 in Hb. split; [done|]. split; [|done].
    apply Hlt; [done|]. congruence.
  - intros (_ & a & Ha & Hn & Hf & Hst & He). apply list_elem_of_lookup_1 in Ha as [j Hj].
    exists (j, a). split; [apply list_elem_of_In, Hin; eauto|]. simpl.
    rewrite !andb_true_iff, !bool_decide_eq_true, negb_true_iff, Nat.eqb_neq. split_and!; try done.
    intros ->. rewrite last_lookup in Hl. replace (Nat.pred (length l)) with (length l - 1)%nat in Hl by lia.
    rewrite Hj in Hl. simplify_eq.
Qed.

(** What every projected execution satisfies. *)
Record execution_wf (te : TestExecution) : Prop := {
  ew_increasing : StronglySorted number_lt (te_attempts te);
  ew_final : last (te_attempts te) = Some (te_finalAttempt te);
  ew_test : a_test <$> head (te_attempts te) = Some (te_test te);
  ew_group a : a ∈ te_attempts te → t_executionId (a_test a) = te_executionId te;
  ew_identity a : a ∈ te_attempts te →
    t_historicalId (a_test a) = t_historicalId (te_test te) ∧
    t_historicalIdStability (a_test a) = t_historicalIdStability (te_test te);
  ew_complete : te_complete te = true ↔ ∀ a, a ∈ te_attempts te → a_isFinished a = true;
  ew_status : te_finalStatus te = a_status (te_finalAttempt te);
  ew_flaky : te_flaky te = true ↔
    passed_as_expected (te_finalAttempt te) ∧
    ∃ a, a ∈ te_attempts te ∧ attemptNumber a < attemptNumber (te_finalAttempt te) ∧ failed_unexpectedly a;
}.

Lemma forallb_elem {A} (P : A → bool) l : forallb P l = true ↔ ∀ x, x ∈ l → P x = true.
Proof. rewrite forallb_forall. split; intros H x Hx; apply H; by apply list_elem_of_In. Qed.

Lemma execution_of_inv sessions eid as_ te :
  (∀ a, a ∈ as_ → exec_id a = eid) →
  execution_of sessions (eid, as_) = Ok te →
  te_executionId te = eid ∧ te_attempts te = sort by_number (attempt <$> as_) ∧ execution_wf te ∧
  (∀ a, a ∈ te_attempts te → declared_runner sessions a = te_runnerName te).
Proof.
  intros Hid. unfold execution_of. cbn [fst snd].
  destruct (repeated_number _) as [[]|] eqn:Er; [done|].
  apply repeated_number_sorted in Er; [|apply (sort_sorted by_number _)].
  assert (∀ a, a ∈ sort by_number (attempt <$> as_) → t_executionId (a_test a) = eid) as Hg.
  { intros a. rewrite elem_of_sort. intros (x & -> & Hx)%list_elem_of_fmap. by apply Hid. }
  revert Er Hg. generalize (sort by_number (attempt <$> as_)). intros l Hs Hg.
  destruct l as [|first rest]; [done|]. destruct (last (first :: rest)) as [f|] eqn:El; [|done].
  destruct (List.find _ _) eqn:Ef; [done|]. rewrite find_None_iff in Ef.
  destruct (1 <? _)%nat eqn:Hr; [done|]. apply Nat.ltb_ge in Hr. intros [= <-]. split_and!; try done.
  - constructor; try done.
    + intros a Ha. apply Ef in Ha. by rewrite negb_false_iff, same_identity_iff in Ha.
    + apply (forallb_elem a_isFinished (first :: rest)).
    + by apply (isFlaky_spec (first :: rest) f).
  - intros a Ha. cbn [te_runnerName te_attempts] in *.
    assert (declared_runner sessions a ∈ sfrom (declared_runner sessions <$> first :: rest)) as Hin
      by (apply elem_of_sfrom, list_elem_of_fmap; eauto).
    destruct (sfrom _) as [|r [|]]; simpl in *; [by apply elem_of_nil in Hin| |lia].
    apply list_elem_of_singleton in Hin. rewrite Hin. by destruct r.
Qed.

(** ** What a projection says *)

Lemma projectRun_inv pid dir vr run :
  projectRun pid dir vr = Ok run →
  let s := project_events (ordered (vr_events vr)) in
  r_valid (vr_report vr) = true ∧
  groupExecutions (pj_attempts s) (pj_sessions s) = Ok (pr_executions run) ∧
  k_projectId (pr_key run) = pid ∧ Some (k_runId (pr_key run)) = pj_runId s ∧
  pr_runDirectory run = dir ∧
  pr_sessions run = sort (cmp_on ps_sessionId compare) (session <$> mvalues (pj_sessions s)) ∧
  pr_scopeFailures run = pj_scopeFailures s ∧
  pr_attachments run = em_reference <$> sort emitted_order (pj_emitted s) ∧
  pr_validator run =
    let sm := r_summary (vr_report vr) in
    {| vf_complete := sm_complete sm; vf_closed := sm_closed sm; vf_verdict := sm_verdict sm;
       vf_ignoredEvents := sm_ignored sm; vf_duplicateEvents := sm_duplicates sm |}.
Proof.
  unfold projectRun. destruct (r_valid _); [|done]. cbn [negb].
  destruct (pj_runId _) as [rid|] eqn:Er; [|done]. cbv zeta. unfold mbind, res_mbind, res_bind.
  destruct (groupExecutions _ _) as [tes|]; [|done]. intros [= <-]. split_and!; done.
Qed.

(** A projected execution comes from the group of its id, and every group gives one. *)
Lemma groupExecutions_inv attempts sessions tes :
  groupExecutions attempts sessions = Ok tes →
  Forall2 (λ g te, execution_of sessions g = Ok te)
    (sort (cmp_on fst compare) (foldl group_attempt [] (mvalues attempts))) tes.
Proof. apply mapMi_from_Forall2. auto. Qed.

Lemma group_exec_id l eid as_ a :
  (eid, as_) ∈ foldl group_attempt [] l → a ∈ as_ → exec_id a = eid.
Proof. intros [_ ->]%groups_elem [_ He]%elem_of_filter_b. by apply str_eqb_eq in He. Qed.

Lemma Forall2_elem_r {A B} (P : A → B → Prop) l l' y :
  Forall2 P l l' → y ∈ l' → ∃ x, x ∈ l ∧ P x y.
Proof.
  induction 1 as [|a b l l' Hab Hl IH]; [by intros ?%elem_of_nil|].
  intros [->|Hin]%elem_of_cons; [exists a; set_solver|]. destruct (IH Hin) as (x & ? & ?). exists x. set_solver.
Qed.

Lemma Forall2_elem_l {A B} (P : A → B → Prop) l l' x :
  Forall2 P l l' → x ∈ l → ∃ y, y ∈ l' ∧ P x y.
Proof.
  induction 1 as [|a b l l' Hab Hl IH]; [by intros ?%elem_of_nil|].
  intros [->|Hin]%elem_of_cons; [exists b; set_solver|]. destruct (IH Hin) as (y & ? & ?). exists y. set_solver.
Qed.

Lemma execution_from attempts sessions tes te :
  groupExecutions attempts sessions = Ok tes → te ∈ tes →
  ∃ as_, as_ = List.filter (in_execution (te_executionId te)) (mvalues attempts) ∧ as_ ≠ [] ∧
    te_attempts te = sort by_number (attempt <$> as_) ∧ execution_wf te ∧
    (∀ a, a ∈ te_attempts te → declared_runner sessions a = te_runnerName te).
Proof.
  intros Hg%groupExecutions_inv Hte. destruct (Forall2_elem_r _ _ _ _ Hg Hte) as ([eid as_] & Hin & He).
  rewrite elem_of_sort in Hin. pose proof Hin as [Hne Has]%groups_elem.
  destruct (execution_of_inv sessions eid as_ te) as (-> & H2 & H3 & H4); [|done|].
  { intros a. by eapply group_exec_id. }
  exists as_. auto.
Qed.

Lemma execution_for attempts sessions tes a :
  groupExecutions attempts sessions = Ok tes → a ∈ mvalues attempts →
  ∃ te, te ∈ tes ∧ te_executionId te = exec_id a ∧ attempt a ∈ te_attempts te.
Proof.
  intros Hg%groupExecutions_inv Ha.
  set (as_ := List.filter (in_execution (exec_id a)) (mvalues attempts)).
  assert (a ∈ as_) as Hin by (apply elem_of_filter_b; split; [done|apply str_eqb_refl]).
  destruct (Forall2_elem_l _ _ _ (exec_id a, as_) Hg) as (te & Hte & He).
  { rewrite elem_of_sort, groups_elem. split; [|done]. intros E. rewrite E in Hin. by apply elem_of_nil in Hin. }
  destruct (execution_of_inv sessions (exec_id a) as_ te) as (H1 & H2 & _); [|done|].
  { intros b [_ Hb]%elem_of_filter_b. by apply str_eqb_eq in Hb. }
  exists te. split; [done|]. split; [done|]. rewrite H2, elem_of_sort. apply list_elem_of_fmap. eauto.
Qed.

(** ** Reading order and session order *)

#[export] Instance event_order_comparator : Comparator event_order.
Proof. unfold event_order. apply _. Qed.
#[export] Instance emitted_order_comparator : Comparator emitted_order.
Proof. unfold emitted_order. apply _. Qed.

Lemma next_sequence h e :
  valid_history h → allowed h e → sequence (any_env e) = last_sequence h (sessionId (any_env e)) + 1.
Proof.
  intros Hv (_ & Hs & _). unfold session_rule in Hs. destruct (is_session_started e); [|tauto].
  destruct Hs as [Hn ->]. by destruct (not_started_no_events _ _ Hv Hn) as [_ ->].
Qed.

Lemma sequence_bound h e :
  valid_history h → e ∈ h → sequence (any_env e) <= last_sequence h (sessionId (any_env e)).
Proof.
  intros Hv He. destruct (sequences_contiguous h (sessionId (any_env e)) Hv) as [Hs _].
  assert (sequence (any_env e) ∈ session_sequences h (sessionId (any_env e))) as Hin.
  { apply list_elem_of_fmap. exists e. split; [done|]. apply elem_of_filter_b. split; [done|].
    by apply of_session_eq. }
  rewrite Hs in Hin. apply elem_of_seqZ in Hin. lia.
Qed.

(** An event is identified by its session and its sequence number. *)
Lemma sequence_identifies h e e' :
  valid_history h → e ∈ h → e' ∈ h → sessionId (any_env e) = sessionId (any_env e') →
  sequence (any_env e) = sequence (any_env e') → e = e'.
Proof.
  intros Hv. revert e e'. induction Hv as [|h x Hv IH Ha]; [by intros ?? ?%elem_of_nil|].
  pose proof (next_sequence h x Hv Ha) as Hx.
  intros e e' [He| ->%list_elem_of_singleton]%elem_of_app [He'| ->%list_elem_of_singleton]%elem_of_app Hs Hq;
    auto; exfalso.
  - pose proof (sequence_bound h e Hv He). rewrite Hs in *. lia.
  - pose proof (sequence_bound h e' Hv He'). rewrite <- Hs in *. lia.
Qed.

Lemma event_order_separates h e e' :
  valid_history h → Known e ∈ h → Known e' ∈ h → event_order e e' = 0 → e = e'.
Proof.
  intros Hv He He' Ho. unfold event_order, cmp_then, js_or, cmp_on in Ho.
  assert (sessionId (e_env e) = sessionId (e_env e') ∧ sequence (e_env e) = sequence (e_env e')) as [H1 H2].
  { destruct (Z.eqb_spec (compare (sessionId (e_env e)) (sessionId (e_env e'))) 0) as [E|E]; [|done].
    split; [by apply compare_separates|]. unfold cmp_sub in Ho. lia. }
  pose proof (sequence_identifies h (Known e) (Known e') Hv He He' H1 H2). congruence.
Qed.

Lemma known_in (h : history) e : e ∈ omap known h ↔ Known e ∈ h.
Proof. by apply known_elem. Qed.

(** The order events were read in does not show in the order they are projected in. *)
Lemma ordered_canonical h es :
  valid_history h → es ≡ₚ omap known h → ordered es = ordered (omap known h).
Proof.
  intros Hv Hp. apply (sort_canonical event_order); [|done].
  intros x y. rewrite !Hp, !known_in. by apply (event_order_separates h).
Qed.

Lemma StronglySorted_snoc {A} (R : A → A → Prop) l x :
  StronglySorted R l → Forall (λ y, R y x) l → StronglySorted R (l ++ [x]).
Proof.
  induction 1 as [|y l Hl IH Hy]; intros Hx; simpl; [repeat constructor|].
  apply Forall_cons in Hx as [Hyx Hx]. constructor; [auto|]. apply Forall_app. auto.
Qed.

Lemma StronglySorted_filter {A} (R : A → A → Prop) (P : A → bool) l :
  StronglySorted R l → StronglySorted R (List.filter P l).
Proof.
  induction 1 as [|y l Hl IH Hy]; simpl; [constructor|]. destruct (P y); [|done].
  constructor; [done|]. apply Forall_forall. intros z [Hz _]%elem_of_filter_b.
  rewrite Forall_forall in Hy. auto.
Qed.

Lemma filter_Permutation {A} (P : A → bool) l l' : l ≡ₚ l' → List.filter P l ≡ₚ List.filter P l'.
Proof.
  induction 1 as [|x l l' Hp IH|x y l|l l' l'' H1 IH1 H2 IH2]; simpl; [done| | |by etrans].
  - destruct (P x); [by constructor|done].
  - destruct (P x), (P y); try done. apply Permutation_swap.
Qed.

(** Events of one session come in order. *)
Lemma one_session_sorted h (P : Event → bool) sid :
  valid_history h → (∀ e, Known e ∈ h → P e = true → sessionId (e_env e) = sid) →
  StronglySorted (cmp_le event_order) (List.filter P (omap known h)).
Proof.
  induction 1 as [|h x Hv IH Ha]; intros HP; [constructor|].
  rewrite omap_app, List.filter_app. specialize (IH ltac:(intros; apply HP; set_solver)).
  destruct x as [e|u]; simpl; [|by rewrite app_nil_r].
  destruct (P e) eqn:Pe; [|by rewrite app_nil_r].
  apply StronglySorted_snoc; [done|]. apply Forall_forall. intros y [Hy Py]%elem_of_filter_b.
  rewrite known_in in Hy. pose proof (next_sequence _ _ Hv Ha) as Hn.
  pose proof (sequence_bound _ _ Hv Hy) as Hb. simpl in Hn, Hb.
  assert (sessionId (e_env y) = sid) as Ey by (apply HP; set_solver).
  assert (sessionId (e_env e) = sid) as Ee by (apply HP; set_solver).
  unfold cmp_le, event_order, cmp_then, cmp_on, js_or. rewrite Ey, Ee in *. rewrite compare_refl. simpl.
  unfold cmp_sub. lia.
Qed.

Lemma filter_ordered h (P : Event → bool) sid :
  valid_history h → (∀ e, Known e ∈ h → P e = true → sessionId (e_env e) = sid) →
  List.filter P (ordered (omap known h)) = List.filter P (omap known h).
Proof.
  intros Hv HP. pose proof (sort_Permutation event_order (omap known h)) as Hp.
  apply (sorted_unique event_order).
  - intros x y [Hx _]%elem_of_filter_b [Hy _]%elem_of_filter_b.
    unfold ordered in Hx, Hy. rewrite Hp, known_in in Hx, Hy. by apply (event_order_separates h).
  - apply StronglySorted_filter, (sort_sorted event_order).
  - by eapply one_session_sorted.
  - by apply filter_Permutation.
Qed.

(** ** An attempt's state tells the history's facts about it *)

(** The events that concern attempt [id]. *)
Definition about_attempt (id : str) (e : Event) : bool :=
  match e_payload e with
  | AttemptStarted p => str_eqb (as_attemptId p) id
  | AttemptFinished p => str_eqb (af_attemptId p) id
  | StepStarted p => str_eqb (st_attemptId p) id
  | StepFinished p => str_eqb (sp_attemptId p) id
  | AttachmentAdded p => str_eqb (aa_attemptId p) id
  | SessionStarted _ | SessionFinished _ | RunFinished | ScopeFailed _ => false
  end.

(** Every event of attempt [id] is written by the session that started it; and so for all attempts. *)
Definition confined_attempt (h : history) (id : str) : Prop :=
  ∀ env p e, att_started h id = Some (env, p) → Known e ∈ h → about_attempt id e = true →
    sessionId (e_env e) = sessionId env.
Definition confined (h : history) : Prop := ∀ id, confined_attempt h id.

Lemma foldl_filter {A B} (f : A → B → A) (P : B → bool) l a :
  (∀ a x, P x = false → f a x = a) → foldl f a l = foldl f a (List.filter P l).
Proof.
  intros Hf. revert a. induction l as [|x l IH]; intros a; [done|]. simpl.
  destruct (P x) eqn:E; simpl; [done|]. by rewrite Hf.
Qed.

Lemma attempt_event_other id o e : about_attempt id e = false → attempt_event id o e = o.
Proof. unfold about_attempt, attempt_event. destruct (e_payload e); try done; by intros ->. Qed.

Lemma confined_state h id :
  valid_history h → confined_attempt h id →
  mget (pj_attempts (project_events (ordered (omap known h)))) id =
    foldl (attempt_event id) None (omap known h).
Proof.
  intros Hv Hc. rewrite project_events_attempt.
  rewrite (foldl_filter _ (about_attempt id)), (foldl_filter _ (about_attempt id) (omap known h))
    by (intros; by apply attempt_event_other).
  f_equal. destruct (att_started h id) as [[env p]|] eqn:E.
  { apply (filter_ordered h _ (sessionId env) Hv). intros e. by apply (Hc env p). }
  assert (∀ l, l ≡ₚ omap known h → List.filter (about_attempt id) l = []) as Hnil.
  { intros l Hl. destruct (List.filter (about_attempt id) l) as [|e l'] eqn:F; [done|]. exfalso.
    assert (e ∈ List.filter (about_attempt id) l) as He by (rewrite F; set_solver).
    apply elem_of_filter_b in He as [He Hab]. rewrite Hl, known_in in He.
    cut (is_Some (att_started h id)); [rewrite E; by intros []|]. clear -Hv He Hab. revert He.
    induction Hv as [|h x Hv IH Ha]; [by intros ?%elem_of_nil|].
    rewrite att_started_snoc, or_else_is_Some. intros [He| <-%list_elem_of_singleton]%elem_of_app; [auto|].
    destruct Ha as (_ & _ & Hp). destruct e as [env []]; simpl in *; try done;
      apply str_eqb_eq in Hab; subst id; rewrite ?str_eqb_refl; simpl; eauto; left; try apply Hp.
    destruct Hp as [Hp _]. by eapply valid_step_attempt. }
  rewrite !Hnil; [done|done|apply sort_Permutation].
Qed.

(** The steps of an attempt: one state per step id, the map naming its place. *)
Record steps_tell (h : history) (id : str) (a : AttemptState) : Prop := {
  sl_place i st : at_steps a !! i = Some st → mget (at_stepsById a) (st_stepId (ts_started st)) = Some i;
  sl_step sid i : mget (at_stepsById a) sid = Some i →
    ∃ st, at_steps a !! i = Some st ∧ step_started h id sid = Some (ts_started st) ∧
          snd <$> ts_finished st = step_finished h id sid ∧ st_stepId (ts_started st) = sid;
  sl_none sid : mget (at_stepsById a) sid = None → step_started h id sid = None;
}.

Definition attempt_tells (h : history) (id : str) (o : option AttemptState) : Prop :=
  match o with
  | None => att_started h id = None
  | Some a =>
      att_started h id = Some (at_env a, at_started a) ∧
      snd <$> at_finished a = att_finished h id ∧ steps_tell h id a
  end.

(** An event that says nothing about steps of this attempt leaves what is told of them. *)
Lemma steps_tell_other h e id a a' :
  steps_tell h id a → at_steps a' = at_steps a → at_stepsById a' = at_stepsById a →
  (∀ sid, starts_step id sid e = None) → (∀ sid, finishes_step id sid e = None) →
  steps_tell (h ++ [e]) id a'.
Proof.
  intros [H1 H2 H3] E1 E2 N1 N2.
  constructor; rewrite ?E1, ?E2; intros; rewrite ?step_started_snoc, ?step_finished_snoc, ?N1, ?N2, ?or_else_None_r;
    auto.
Qed.

Lemma steps_tell_start h env p a :
  steps_tell h (st_attemptId p) a → step_started h (st_attemptId p) (st_stepId p) = None →
  step_finished h (st_attemptId p) (st_stepId p) = None →
  steps_tell (h ++ [Known {| e_env := env; e_payload := StepStarted p |}]) (st_attemptId p) (start_step env p a).
Proof.
  intros [H1 H2 H3] Hn Hf.
  assert (mget (at_stepsById a) (st_stepId p) = None) as Hnew.
  { destruct (mget _ _) as [i|] eqn:E; [|done]. destruct (H2 _ _ E) as (st & _ & E' & _). congruence. }
  constructor; unfold start_step.
  - intros i st. simpl. rewrite lookup_app_Some, mget_mset. intros [Hi|[Hge Hi]].
    + specialize (H1 _ _ Hi). case_decide as E; [|done]. rewrite <- E in H1. congruence.
    + apply list_lookup_singleton_Some in Hi as [Hi <-]. simpl. rewrite decide_True by done. f_equal. lia.
  - intros sid i. simpl. rewrite mget_mset, step_started_snoc, step_finished_snoc. simpl.
    rewrite str_eqb_refl, or_else_None_r. simpl. case_decide as E.
    + intros [= <-]. subst sid. rewrite Hn, str_eqb_refl. simpl.
      exists {| ts_env := env; ts_started := p; ts_finished := None |}.
      rewrite lookup_app_r, Nat.sub_diag by lia. auto.
    + intros Hi. destruct (H2 _ _ Hi) as (st & Hs & E1 & E2 & E3). exists st.
      rewrite E1. split_and!; try done. by apply lookup_app_l_Some.
  - intros sid. simpl. rewrite mget_mset. case_decide as E; [done|]. intros Hi.
    rewrite step_started_snoc, H3 by done. simpl. rewrite str_eqb_refl. simpl.
    rewrite (proj2 (str_eqb_neq _ _)); done.
Qed.

Lemma steps_tell_finish h env p a :
  steps_tell h (sp_attemptId p) a → is_Some (step_started h (sp_attemptId p) (sp_stepId p)) →
  step_finished h (sp_attemptId p) (sp_stepId p) = None →
  steps_tell (h ++ [Known {| e_env := env; e_payload := StepFinished p |}]) (sp_attemptId p) (finish_step env p a).
Proof.
  intros [H1 H2 H3] Hs Hf. unfold finish_step.
  destruct (mget (at_stepsById a) (sp_stepId p)) as [k|] eqn:Ek; [|by rewrite H3 in Hs; [destruct Hs|]].
  destruct (H2 _ _ Ek) as (stk & Hk & Ek1 & Ek2 & Ek3).
  constructor; simpl.
  - intros i st. rewrite list_lookup_alter. case_decide as E; [|by apply H1].
    intros (st0 & Hst0 & ->)%fmap_Some_1. simpl. subst i. by apply H1.
  - intros sid i Hi. rewrite step_started_snoc, step_finished_snoc. simpl. rewrite or_else_None_r, str_eqb_refl.
    simpl. destruct (H2 _ _ Hi) as (st & Hst & E1 & E2 & E3).
    rewrite list_lookup_alter. case_decide as E.
    + subst k. rewrite Hst. assert (stk = st) as -> by congruence.
      assert (sid = sp_stepId p) as -> by congruence.
      simpl. eexists. split; [done|]. simpl. split; [done|]. split; [|done].
      by rewrite Hf, str_eqb_refl.
    + exists st. split_and!; try done. rewrite (proj2 (str_eqb_neq _ _)), or_else_None_r; [done|].
      intros Es. rewrite Es in Ek. congruence.
  - intros sid Hi. by rewrite step_started_snoc, H3.
Qed.

Lemma attempt_event_tells h id o e :
  valid_history h → allowed h (Known e) → attempt_tells h id o →
  attempt_tells (h ++ [Known e]) id (attempt_event id o e).
Proof.
  intros Hv (_ & _ & Hp) Ho.
  assert (∀ a a', o = Some a → starts_attempt id (Known e) = None → finishes_attempt id (Known e) = None →
    at_env a' = at_env a → at_started a' = at_started a → at_finished a' = at_finished a →
    steps_tell (h ++ [Known e]) id a' → attempt_tells (h ++ [Known e]) id (Some a')) as Hkeep.
  { intros a a' -> N1 N2 E1 E2 E3 Hs. destruct Ho as (Ho1 & Ho2 & _). simpl.
    rewrite att_started_snoc, att_finished_snoc, N1, N2, !or_else_None_r, E1, E2, E3. auto. }
  assert (attempt_event id o e = o → starts_attempt id (Known e) = None →
    finishes_attempt id (Known e) = None → (∀ sid, starts_step id sid (Known e) = None) →
    (∀ sid, finishes_step id sid (Known e) = None) →
    attempt_tells (h ++ [Known e]) id (attempt_event id o e)) as Hsame.
  { intros -> N1 N2 N3 N4. destruct o as [a|].
    - apply (Hkeep a); try done. by apply (steps_tell_other h (Known e) id a); [apply Ho| | | |].
    - simpl. rewrite att_started_snoc, N1. simpl in Ho. by rewrite Ho. }
  destruct e as [env []]; unfold attempt_event in *; cbn [e_env e_payload] in *; try by apply Hsame.
  - (* attempt.started *)
    destruct (str_eqb (as_attemptId p) id) eqn:E; [|apply Hsame; simpl; rewrite ?E; done].
    apply str_eqb_eq in E. subst id. destruct Hp as (Hn & _). simpl.
    rewrite att_started_snoc, Hn, att_finished_snoc. simpl. rewrite str_eqb_refl, or_else_None_r.
    split; [done|]. split.
    + destruct (att_finished h _) eqn:F; [|done]. exfalso.
      assert (is_Some (att_finished h (as_attemptId p))) as [q Hq]%valid_attempt_finished by eauto; [congruence|done].
    + constructor; simpl; try done. intros sid _. rewrite step_started_snoc. simpl. rewrite or_else_None_r.
      destruct (step_started h _ sid) eqn:F; [|done]. exfalso.
      assert (is_Some (step_started h (as_attemptId p) sid)) as [q Hq]%valid_step_attempt by eauto; [congruence|done].
  - (* attempt.finished *)
    destruct (str_eqb (af_attemptId p) id) eqn:E; [|apply Hsame; simpl; rewrite ?E; done].
    apply str_eqb_eq in E. subst id. destruct Hp as ([Hs Hf] & _).
    destruct o as [a|]; [|simpl in Ho; rewrite Ho in Hs; by destruct Hs]. destruct Ho as (Ho1 & Ho2 & Ho3).
    simpl. rewrite att_started_snoc, Ho1, att_finished_snoc, Hf. simpl. rewrite str_eqb_refl. simpl.
    split; [done|]. split; [done|]. by apply (steps_tell_other h _ _ a).
  - (* step.started *)
    destruct (str_eqb (st_attemptId p) id) eqn:E.
    2: { apply Hsame; simpl; rewrite ?E; try done; intros; simpl; by rewrite E. }
    apply str_eqb_eq in E. subst id. destruct Hp as ([Hs Hf] & Hn & _).
    destruct o as [a|]; [|simpl in Ho; rewrite Ho in Hs; by destruct Hs]. simpl fmap.
    apply (Hkeep a); try done. apply steps_tell_start; [apply Ho|done|].
    destruct (step_finished h _ _) eqn:F; [|done]. exfalso.
    assert (is_Some (step_finished h (st_attemptId p) (st_stepId p))) as [q Hq]%valid_step_finished by eauto;
      [congruence|done].
  - (* step.finished *)
    destruct (str_eqb (sp_attemptId p) id) eqn:E.
    2: { apply Hsame; simpl; rewrite ?E; try done; intros; simpl; by rewrite E. }
    apply str_eqb_eq in E. subst id. destruct Hp as [Hs Hf].
    destruct o as [a|].
    2: { pose proof (valid_step_attempt _ _ _ Hv Hs) as Ha. simpl in Ho. rewrite Ho in Ha. by destruct Ha. }
    simpl fmap. apply (Hkeep a); try done; try (unfold finish_step; by destruct (mget _ _)).
    apply steps_tell_finish; [apply Ho|done|done].
  - (* attachment.added *)
    destruct (str_eqb (aa_attemptId p) id) eqn:E; [|apply Hsame; simpl; rewrite ?E; done].
    destruct o as [a|]; [|by apply Hsame]. simpl fmap. apply (Hkeep a); try done.
    by apply (steps_tell_other h _ id a); [apply Ho| | | |].
Qed.

Lemma attempt_facts h id :
  valid_history h → attempt_tells h id (foldl (attempt_event id) None (omap known h)).
Proof.
  induction 1 as [|h e Hv IH Ha]; [done|]. rewrite omap_app, foldl_app.
  destruct e as [e|u]; simpl; [by apply attempt_event_tells|].
  destruct (foldl _ _ _) as [a|]; simpl in *.
  - rewrite att_started_snoc, att_finished_snoc. simpl. rewrite ?or_else_None_r.
    destruct IH as (IH1 & IH2 & ?). rewrite IH1. split; [done|]. split; [done|].
    by apply (steps_tell_other h _ id a).
  - by rewrite att_started_snoc, IH.
Qed.

(** ** What an attempt's state says comes from the history, confined or not *)

(** Everything kept of attempt [id] was read from an event of [es]. *)
Record comes_from (es : list Event) (id : str) (a : AttemptState) : Prop := {
  cf_finished env p : at_finished a = Some (env, p) →
    {| e_env := env; e_payload := AttemptFinished p |} ∈ es ∧ af_attemptId p = id;
  cf_step st : st ∈ at_steps a →
    {| e_env := ts_env st; e_payload := StepStarted (ts_started st) |} ∈ es ∧ st_attemptId (ts_started st) = id;
  cf_step_finished st env p : st ∈ at_steps a → ts_finished st = Some (env, p) →
    {| e_env := env; e_payload := StepFinished p |} ∈ es ∧ sp_attemptId p = id ∧
    sp_stepId p = st_stepId (ts_started st);
  cf_place sid i : mget (at_stepsById a) sid = Some i →
    ∃ st, at_steps a !! i = Some st ∧ st_stepId (ts_started st) = sid;
}.

Lemma comes_from_snoc es id a e : comes_from es id a → comes_from (es ++ [e]) id a.
Proof.
  intros [H1 H2 H3 H4]. constructor; try done.
  - intros env p Hf. destruct (H1 _ _ Hf). set_solver.
  - intros st Hst. destruct (H2 _ Hst). set_solver.
  - intros st env p Hst Hf. destruct (H3 _ _ _ Hst Hf) as (? & ? & ?). set_solver.
Qed.

Lemma comes_from_same es id a a' :
  comes_from es id a → at_finished a' = at_finished a → at_steps a' = at_steps a →
  at_stepsById a' = at_stepsById a → comes_from es id a'.
Proof. intros [H1 H2 H3 H4] E1 E2 E3. constructor; rewrite ?E1, ?E2, ?E3; done. Qed.

Lemma comes_from_start es env p a :
  comes_from es (st_attemptId p) a →
  comes_from (es ++ [{| e_env := env; e_payload := StepStarted p |}]) (st_attemptId p) (start_step env p a).
Proof.
  intros [H1 H2 H3 H4]%(comes_from_snoc _ _ _ {| e_env := env; e_payload := StepStarted p |}).
  constructor; unfold start_step; simpl; [done| | |].
  - intros st [Hst| ->%list_elem_of_singleton]%elem_of_app; [auto|]. simpl. set_solver.
  - intros st env' q [Hst| ->%list_elem_of_singleton]%elem_of_app; [eauto|done].
  - intros sid i. rewrite mget_mset. case_decide as E.
    + intros [= <-]. rewrite lookup_app_r, Nat.sub_diag by lia. eexists. split; [done|]. done.
    + intros Hi. destruct (H4 _ _ Hi) as (st & Hst & Es). exists st. split; [|done].
      by apply lookup_app_l_Some.
Qed.

Lemma comes_from_finish es env p a :
  comes_from es (sp_attemptId p) a →
  comes_from (es ++ [{| e_env := env; e_payload := StepFinished p |}]) (sp_attemptId p) (finish_step env p a).
Proof.
  intros [H1 H2 H3 H4]%(comes_from_snoc _ _ _ {| e_env := env; e_payload := StepFinished p |}).
  unfold finish_step. destruct (mget (at_stepsById a) (sp_stepId p)) as [k|] eqn:Ek; [|done].
  destruct (H4 _ _ Ek) as (stk & Hk & Eid).
  assert (∀ st, st ∈ alter (λ s, s <| ts_finished := Some (env, p) |>) k (at_steps a) →
    st ∈ at_steps a ∨ st = stk <| ts_finished := Some (env, p) |>) as Hin.
  { intros st [i Hi]%list_elem_of_lookup_1. rewrite list_lookup_alter in Hi. case_decide as E.
    - subst i. rewrite Hk in Hi. simplify_eq/=. auto.
    - left. by eapply list_elem_of_lookup_2. }
  apply list_elem_of_lookup_2 in Hk as Hkin.
  constructor; simpl; [done| | |].
  - intros st [Hst| ->]%Hin; [auto|]. by apply (H2 stk).
  - intros st env' q [Hst| ->]%Hin; [eauto|]. simpl. intros [= <- <-]. set_solver.
  - intros sid i Hi. rewrite list_lookup_alter. destruct (H4 _ _ Hi) as (st & Hst & E).
    case_decide as Ek'; subst; rewrite Hst; eexists; (split; [reflexivity|]); done.
Qed.

Lemma attempt_event_comes_from es id a :
  foldl (attempt_event id) None es = Some a → comes_from es id a.
Proof.
  revert a. induction es as [|e es IH] using rev_ind; intros a; [done|]. rewrite foldl_app. simpl.
  destruct (foldl _ None es) as [a0|].
  - specialize (IH a0 eq_refl). destruct e as [env pl]. unfold attempt_event. cbn [e_env e_payload].
    destruct pl; try (intros [= <-]; by apply comes_from_snoc); destruct (str_eqb _ id) eqn:K; simpl;
      intros [= <-]; try (by apply comes_from_snoc); apply str_eqb_eq in K; subst id.
    + constructor; simpl; try done; by intros ? ?%elem_of_nil || intros ? ? ? ?%elem_of_nil.
    + apply (comes_from_snoc _ _ _ {| e_env := env; e_payload := AttemptFinished p |}) in IH.
      destruct IH as [H1 H2 H3 H4]. constructor; simpl; try done. intros env' q [= <- <-]. set_solver.
    + by apply comes_from_start.
    + by apply comes_from_finish.
    + by eapply comes_from_same; [apply comes_from_snoc, IH| | |].
  - destruct e as [env pl]. unfold attempt_event. cbn [e_env e_payload].
    destruct pl; try done; destruct (str_eqb _ id) eqn:K; try done. intros [= <-].
    constructor; simpl; try done; by intros ? ?%elem_of_nil || intros ? ? ? ?%elem_of_nil.
Qed.

(** A valid history has one such event per attempt and step. *)
Lemma finished_attempt h env p :
  valid_history h → Known {| e_env := env; e_payload := AttemptFinished p |} ∈ h →
  att_finished h (af_attemptId p) = Some p.
Proof.
  induction 1 as [|h e Hv IH (_ & _ & Hp)]; [by intros ?%elem_of_nil|].
  rewrite att_finished_snoc. intros [Hin| <-%list_elem_of_singleton]%elem_of_app.
  - by rewrite IH.
  - destruct Hp as ((_ & ->) & _). simpl. by rewrite str_eqb_refl.
Qed.

Lemma started_step h env p :
  valid_history h → Known {| e_env := env; e_payload := StepStarted p |} ∈ h →
  step_started h (st_attemptId p) (st_stepId p) = Some p.
Proof.
  induction 1 as [|h e Hv IH (_ & _ & Hp)]; [by intros ?%elem_of_nil|].
  rewrite step_started_snoc. intros [Hin| <-%list_elem_of_singleton]%elem_of_app.
  - by rewrite IH.
  - destruct Hp as (_ & -> & _). simpl. by rewrite !str_eqb_refl.
Qed.

Lemma finished_step h env p :
  valid_history h → Known {| e_env := env; e_payload := StepFinished p |} ∈ h →
  step_finished h (sp_attemptId p) (sp_stepId p) = Some p.
Proof.
  induction 1 as [|h e Hv IH (_ & _ & Hp)]; [by intros ?%elem_of_nil|].
  rewrite step_finished_snoc. intros [Hin| <-%list_elem_of_singleton]%elem_of_app.
  - by rewrite IH.
  - destruct Hp as (_ & ->). simpl. by rewrite !str_eqb_refl.
Qed.
