(* ===== verification/ProjectorProps.v ===== *)
(** * Properties of the projection

    The theorems about [projectRun], each applied to a concrete run, and the run
    whose attempt another session finishes, which the projection leaves open. *)

From Stdlib Require Import Sorting.Sorted Sorting.Permutation.
From S2P Require Import Prelude JsString JsMap JsSort Json Model Codec CodecProps History Validator ValidatorRun Demo ValidatorTables ValidatorSound ValidatorReport ValidatorSpec ReadTypes Projector ProjectorSpec.

Local Open Scope Z_scope.

(** ** What the theorems speak of *)

(** An attempt of a projected execution tells what the history says of it. *)
Record tells (h : history) (te : TestExecution) (x : Attempt) : Prop := {
  tl_started : ∃ env p, att_started h (attemptId x) = Some (env, p) ∧
    t_executionId (as_test p) = te_executionId te ∧ as_attemptNumber p = attemptNumber x ∧
    as_test p = a_test x ∧ sessionId env = a_sessionId x ∧ occurredAt env = a_startedAt x;
  tl_finished : a_isFinished x = true ↔ is_Some (att_finished h (attemptId x));
  tl_status : a_status x = af_status <$> att_finished h (attemptId x);
  tl_expected : a_expectedStatus x = att_finished h (attemptId x) ≫= af_expectedStatus;
  tl_steps sid : is_Some (step_started h (attemptId x) sid) ↔ ∃ st, st ∈ a_stepList x ∧ step_id st = sid;
  tl_step st : st ∈ a_stepList x →
    (step_isFinished st = true ↔ is_Some (step_finished h (attemptId x) (step_id st))) ∧
    step_status st = sp_status <$> step_finished h (attemptId x) (step_id st);
}.

(** What it says is never made up, even when another session writes about the attempt: it started as
    said, an outcome or a step it shows is the history's. *)
Record invents_nothing (h : history) (te : TestExecution) (x : Attempt) : Prop := {
  ni_started : ∃ env p, att_started h (attemptId x) = Some (env, p) ∧
    t_executionId (as_test p) = te_executionId te ∧ as_attemptNumber p = attemptNumber x ∧
    as_test p = a_test x ∧ sessionId env = a_sessionId x ∧ occurredAt env = a_startedAt x;
  ni_finished : a_isFinished x = true → ∃ p, att_finished h (attemptId x) = Some p ∧
    a_status x = Some (af_status p) ∧ a_expectedStatus x = af_expectedStatus p;
  ni_unfinished : a_isFinished x = false → a_status x = None ∧ a_expectedStatus x = None;
  ni_step st : st ∈ a_stepList x → is_Some (step_started h (attemptId x) (step_id st)) ∧
    (step_isFinished st = true → ∃ p, step_finished h (attemptId x) (step_id st) = Some p ∧
      step_status st = Some (sp_status p));
}.

(** Executions by id, attempts by number, sessions by id, each strictly; one execution per id; an
    execution's runner is what every session of its attempts declared. *)
Record run_wf (run : ProjectedRun) : Prop := {
  rw_executions : StronglySorted (λ a b, compare (te_executionId a) (te_executionId b) < 0) (pr_executions run);
  rw_sessions : StronglySorted (λ a b, compare (ps_sessionId a) (ps_sessionId b) < 0) (pr_sessions run);
  rw_execution te : te ∈ pr_executions run → execution_wf te;
  rw_runner te x s : te ∈ pr_executions run → x ∈ te_attempts te → s ∈ pr_sessions run →
    ps_sessionId s = a_sessionId x → te_runnerName te = c_name <$> ps_runner s;
}.

(** ** Lemmas *)

Lemma sort_strict {A B} (f : A → B) (cmp : B → B → Z) `{!Comparator cmp, !Separates cmp} l :
  NoDup (f <$> l) → StronglySorted (λ a b, cmp (f a) (f b) < 0) (sort (cmp_on f cmp) l).
Proof.
  intros Hnd. pose proof (sort_sorted (cmp_on f cmp) l) as Hs.
  assert (NoDup (f <$> sort (cmp_on f cmp) l)) as Hnd' by by rewrite sort_Permutation.
  revert Hs Hnd'. clear Hnd. generalize (sort (cmp_on f cmp) l). clear l.
  induction 1 as [|a l Hl IH Ha]; [constructor|]. rewrite fmap_cons, NoDup_cons. intros [Hn Hd].
  constructor; [auto|]. rewrite Forall_forall in Ha |- *. intros b Hb. specialize (Ha b Hb).
  unfold cmp_le, cmp_on in Ha. destruct (decide (cmp (f a) (f b) = 0)) as [E|]; [|lia].
  apply cmp_0_eq in E. exfalso. apply Hn. rewrite E. apply list_elem_of_fmap. eauto.
Qed.

Lemma StronglySorted_Forall2 {A B} (R : A → A → Prop) (S : B → B → Prop) (P : A → B → Prop) l l' :
  (∀ a a' b b', P a b → P a' b' → R a a' → S b b') →
  Forall2 P l l' → StronglySorted R l → StronglySorted S l'.
Proof.
  intros HP. induction 1 as [|a b l l' Hab Hl IH]; intros Hs; [constructor|].
  apply StronglySorted_inv in Hs as [Hs Ha]. constructor; [auto|].
  apply Forall_forall. intros b' Hb'. destruct (Forall2_elem_r _ _ _ _ Hl Hb') as (a' & Ha' & Hp).
  rewrite Forall_forall in Ha. eauto.
Qed.

Lemma session_state_key es sid x :
  mget (pj_sessions (project_events es)) sid = Some x → sessionId (ss_env x) = sid.
Proof. rewrite project_events_session. by intros [_ ?]%session_event_begins. Qed.

Lemma projected_session_ids es :
  NoDup (ps_sessionId <$> (session <$> mvalues (pj_sessions (project_events es)))).
Proof.
  rewrite <- list_fmap_compose. destruct (project_events_NoDup es) as [_ Hnd].
  enough (ps_sessionId ∘ session <$> mvalues (pj_sessions (project_events es)) =
          mkeys (pj_sessions (project_events es))) as -> by done.
  unfold mvalues, mkeys. rewrite <- list_fmap_compose. apply list_fmap_ext.
  intros i [k x] Hi. simpl. apply (session_state_key es). apply elem_mget; [done|].
  by eapply list_elem_of_lookup_2.
Qed.

Lemma projectRun_run_wf pid dir vr run : projectRun pid dir vr = Ok run → run_wf run.
Proof.
  intros H. destruct (projectRun_inv _ _ _ _ H) as (_ & Hg & _ & _ & _ & Hs & _).
  set (es := ordered (vr_events vr)) in *. constructor.
  - apply groupExecutions_inv in Hg.
    eapply (StronglySorted_Forall2 (λ g g', compare g.1 g'.1 < 0)); [|exact Hg|].
    + intros [eid as_] [eid' as_'] te te' H1 H2. simpl.
      unfold execution_of in H1, H2. cbn [fst snd] in *.
      destruct (repeated_number _) as [[]|]; [done|]. destruct (sort by_number (attempt <$> as_)); [done|].
      destruct (last _); [|done]. destruct (List.find _ _); [done|]. destruct (1 <? _)%nat; [done|].
      destruct (repeated_number _) as [[]|]; [done|]. destruct (sort by_number (attempt <$> as_')); [done|].
      destruct (last _); [|done]. destruct (List.find _ _); [done|]. destruct (1 <? _)%nat; [done|].
      by simplify_eq.
    + apply (sort_strict fst compare). apply groups_NoDup.
  - rewrite Hs. apply (sort_strict ps_sessionId compare), projected_session_ids.
  - intros te Hte. by destruct (execution_from _ _ _ _ Hg Hte) as (? & ? & ? & ? & ? & ?).
  - intros te x s Hte Hx Hs' Heq. destruct (execution_from _ _ _ _ Hg Hte) as (_ & _ & _ & _ & _ & Hr).
    rewrite <- (Hr x Hx). unfold declared_runner. rewrite Hs, elem_of_sort in Hs'.
    apply list_elem_of_fmap in Hs' as (y & -> & Hy).
    apply elem_of_mvalues in Hy as [sid Hy]; [|apply project_events_NoDup].
    pose proof (session_state_key _ _ _ Hy) as Hk. simpl in Heq. rewrite <- Heq, Hk, Hy. done.
Qed.

Lemma project_permuted h pid dir vr vr' :
  valid_history h → vr_events vr ≡ₚ omap known h → vr_events vr' ≡ₚ omap known h →
  vr_report vr = vr_report vr' → projectRun pid dir vr = projectRun pid dir vr'.
Proof.
  intros Hv Hp Hp' Hr. unfold projectRun.
  by rewrite Hr, (ordered_canonical h _ Hv Hp), (ordered_canonical h _ Hv Hp').
Qed.

Section tells.
Context (h : history) (Hv : valid_history h).
Context (pid dir : str) (vr : ValidatedRun) (run : ProjectedRun).
Context (He : vr_events vr ≡ₚ omap known h) (Hrun : projectRun pid dir vr = Ok run).
Abbreviation s := (project_events (ordered (omap known h))).

Lemma projected_groups : groupExecutions (pj_attempts s) (pj_sessions s) = Ok (pr_executions run).
Proof using Hv He Hrun.
  destruct (projectRun_inv _ _ _ _ Hrun) as (_ & Hg & _).
  by rewrite (ordered_canonical h _ Hv He) in Hg.
Qed.

Lemma ordered_perm : ordered (omap known h) ≡ₚ omap known h.
Proof using. apply sort_Permutation. Qed.

Lemma projected_attempt te x :
  te ∈ pr_executions run → x ∈ te_attempts te →
  ∃ a, x = attempt a ∧ exec_id a = te_executionId te ∧
       mget (pj_attempts s) (as_attemptId (at_started a)) = Some a.
Proof using Hv He Hrun.
  intros Hte Hx. destruct (execution_from _ _ _ _ projected_groups Hte) as (as_ & -> & _ & Ha & _).
  rewrite Ha, elem_of_sort in Hx. apply list_elem_of_fmap in Hx as (a & -> & [Hin Hid]%elem_of_filter_b).
  exists a. split; [done|]. split; [by apply str_eqb_eq in Hid|].
  by apply (attempt_value h Hv _ ordered_perm).
Qed.

Lemma attempt_told te x :
  te ∈ pr_executions run → x ∈ te_attempts te → confined_attempt h (attemptId x) → tells h te x.
Proof using All.
  intros Hte Hx Hc. destruct (projected_attempt te x Hte Hx) as (a & -> & Hid & Hget). simpl in Hc.
  rewrite confined_state in Hget by done. pose proof (attempt_facts h (as_attemptId (at_started a)) Hv) as Hf.
  rewrite Hget in Hf. destruct Hf as (H1 & H2 & [L1 L2 L3]).
  constructor; simpl.
  - exists (at_env a), (at_started a). auto 7.
  - by rewrite bool_decide_eq_true, <- H2, fmap_is_Some.
  - by rewrite <- H2.
  - by rewrite <- H2.
  - intros sid. split.
    + intros Hs. destruct (mget (at_stepsById a) sid) as [i|] eqn:Ei; [|by rewrite L3 in Hs; [destruct Hs|]].
      destruct (L2 _ _ Ei) as (st & Hst & _ & _ & <-). exists (step st). split; [|done].
      apply list_elem_of_fmap. apply list_elem_of_lookup_2 in Hst. eauto.
    + intros (st & Hst & <-). apply list_elem_of_fmap in Hst as (st0 & -> & Hst0).
      apply list_elem_of_lookup_1 in Hst0 as [i Hi]. destruct (L2 _ _ (L1 _ _ Hi)) as (st & _ & E & _). eauto.
  - intros st Hst. apply list_elem_of_fmap in Hst as (st0 & -> & Hst0).
    apply list_elem_of_lookup_1 in Hst0 as [i Hi]. destruct (L2 _ _ (L1 _ _ Hi)) as (st & E0 & E & E2 & E3).
    simplify_eq. simpl. rewrite <- E2. by rewrite bool_decide_eq_true, fmap_is_Some.
Qed.

Lemma attempt_invents_nothing te x : te ∈ pr_executions run → x ∈ te_attempts te → invents_nothing h te x.
Proof using All.
  intros Hte Hx. destruct (projected_attempt te x Hte Hx) as (a & -> & Hid & Hget).
  pose proof (attempt_started_in h Hv _ ordered_perm _ _ Hget) as Hs.
  rewrite project_events_attempt in Hget. apply attempt_event_comes_from in Hget as [H1 H2 H3 _].
  assert (∀ e, e ∈ ordered (omap known h) → Known e ∈ h) as Hk
    by (intros e; apply (known_elem h _ ordered_perm)).
  constructor; simpl.
  - eauto 8.
  - destruct (at_finished a) as [[env p]|] eqn:Ef; [|done].
    intros _. destruct (H1 _ _ eq_refl) as [Hin <-]. apply Hk, (finished_attempt h) in Hin; eauto.
  - destruct (at_finished a) as [[env p]|] eqn:Ef; [|done]. rewrite bool_decide_eq_false. intros []. eauto.
  - intros st (st0 & -> & Hst0)%list_elem_of_fmap. simpl. destruct (H2 _ Hst0) as [Hin E0].
    apply Hk, (started_step h) in Hin; [|done]. rewrite E0 in Hin.
    split; [eauto|]. destruct (ts_finished st0) as [[env p]|] eqn:Ef; [|done].
    intros _. destruct (H3 _ _ _ Hst0 Ef) as (Hin' & E1 & E2).
    apply Hk, (finished_step h) in Hin'; [|done].
    exists p. split; [congruence|done].
Qed.

Lemma attempt_projected id :
  is_Some (att_started h id) → ∃ te x, te ∈ pr_executions run ∧ x ∈ te_attempts te ∧ attemptId x = id.
Proof using Hv He Hrun.
  intros Hs. destruct (attempt_started_present h Hv _ ordered_perm id Hs) as [a Ha].
  pose proof (attempt_started_in h Hv _ ordered_perm id a Ha) as Hid%att_started_id. subst id.
  destruct (execution_for _ _ _ a projected_groups) as (te & Hte & _ & Hx).
  { by apply (attempt_value h Hv _ ordered_perm). }
  exists te, (attempt a). auto.
Qed.
End tells.

(** The history a valid snapshot was read from. *)
Lemma snapshot_history json_parse schema sha fs dir o vr :
  validateRunDirectorySnapshot json_parse schema sha fs dir o = Ok vr →
  default true (opt_retainEvents o) = true → r_valid (vr_report vr) = true →
  ∃ h, valid_history h ∧ vr_events vr = omap known h ∧ reports h (vr_report vr).
Proof.
  intros H Hret Hr. destruct (snapshot_cases _ _ _ _ _ _ _ H) as (ad & _ & H1 & H2).
  destruct (H2 Hr) as (Hk & names & g & Hn & Hg). destruct (H1 Hk names g Hn Hg) as (? & ? & _ & He & _).
  exists g.*1. auto.
Qed.

(** A history whose events are all of one session is confined. *)
Lemma one_session_confined h sid :
  forallb (λ e, str_eqb (sessionId (e_env e)) sid) (omap known h) = true → confined h.
Proof.
  rewrite forallb_elem. intros Hs id env p e [Ha _]%att_started_elem He _.
  apply known_in, Hs, str_eqb_eq in Ha, He. simpl in Ha. congruence.
Qed.

Definition no_run : ProjectedRun :=
  {| pr_key := {| k_projectId := []; k_runId := [] |}; pr_runDirectory := [];
     pr_validator := {| vf_complete := false; vf_closed := false; vf_verdict := VIncomplete;
                        vf_ignoredEvents := 0; vf_duplicateEvents := 0 |};
     pr_sessions := []; pr_executions := []; pr_scopeFailures := []; pr_attachments := [] |}.

(** The demo run, projected. *)
Definition demo_projected : ProjectedRun := from_ok no_run (projectRun (js "p") (js "run") demo_run).

Lemma demo_projected_ok : projectRun (js "p") (js "run") demo_run = Ok demo_projected.
Proof. apply from_ok_spec. by vm_compute. Qed.

(** A snapshot whose events were read in the opposite order. *)
Definition reversed (vr : ValidatedRun) : ValidatedRun :=
  {| vr_report := vr_report vr; vr_events := rev (vr_events vr); vr_sourceLines := vr_sourceLines vr |}.

Lemma reversed_report vr : vr_report vr = vr_report (reversed vr).
Proof. done. Qed.
Lemma reversed_events vr es : vr_events vr = es → vr_events (reversed vr) ≡ₚ es.
Proof. intros <-. simpl. symmetry. apply Permutation_rev. Qed.

Lemma demo_history :
  ∃ h, valid_history h ∧ vr_events demo_run = omap known h ∧ reports h (vr_report demo_run) ∧ confined h.
Proof.
  destruct (snapshot_history _ _ _ _ _ _ _ demo_snapshot_ok eq_refl demo_run_valid) as (h & Hv & He & Hr).
  exists h. split; [exact Hv|]. split; [exact He|]. split; [exact Hr|]. apply (one_session_confined h (js "s1")). rewrite <- He.
  vm_compute. reflexivity.
Qed.

(** *** A run whose attempt another session finishes

    Three event files: session [z] starts and starts an attempt; session [c] starts, finishes that
    attempt and finishes; session [z] finishes. *)
Definition cross_event (session : str) (id n : Z) (p : Payload) : Event :=
  {| e_env := demo_env session id n; e_payload := p |}.

Definition cross_events : list Event :=
  [cross_event (js "z") 1 1 (SessionStarted demo_started);
   cross_event (js "z") 2 2 (AttemptStarted (demo_attempt (js "a1") 1));
   cross_event (js "c") 3 1 (SessionStarted demo_started);
   cross_event (js "c") 4 2 (AttemptFinished (demo_outcome (js "a1") StPassed));
   cross_event (js "c") 5 3 (SessionFinished (demo_finished SePassed));
   cross_event (js "z") 6 3 (SessionFinished (demo_finished SePassed))].

Definition cross_parse (raw : str) : json + str :=
  match nth_error cross_events (Z.to_nat (undec raw)) with
  | Some e => inl (JObj (eventToObject (Known e)))
  | None => inr (js "unexpected token")
  end.

Definition cross_file (name : str) : option str :=
  if str_eqb name (js "run/events/1.ndjson") then Some (join [10%N] [dec 0; dec 1])
  else if str_eqb name (js "run/events/2.ndjson") then Some (join [10%N] [dec 2; dec 3; dec 4])
  else if str_eqb name (js "run/events/3.ndjson") then Some (dec 5)
  else None.

Definition cross_fs : FileSystem :=
  {| fsys_lstat := λ path,
       if str_eqb path (js "run/events") then Ok KDirectory
       else match cross_file path with Some _ => Ok KFile | None => Throw ENOENT end;
     fsys_open := λ path,
       match cross_file path with
       | Some t => Ok {| of_kind := KFile; of_size := 0; of_sha256 := []; of_text := t |}
       | None => Throw ENOENT
       end;
     fsys_readdir := λ path, Ok [js "1.ndjson"; js "2.ndjson"; js "3.ndjson"];
     fsys_realpath := λ path, Ok path;
     fsys_join := λ a b, a ++ js "/" ++ b |}.

Definition cross_run : ValidatedRun :=
  from_ok {| vr_report := no_report; vr_events := []; vr_sourceLines := [] |}
    (validateRunDirectorySnapshot cross_parse demo_schema demo_sha cross_fs (js "run") demo_options).
Definition cross_projected : ProjectedRun := from_ok no_run (projectRun (js "p") (js "run") cross_run).

(** ** Properties *)

(** C29 Projection never finds a valid run ambiguous: on the snapshot of whatever run directory the
    validator reports valid, under any project and directory name, [projectRun] succeeds when an event was
    kept, and a run without a single event, which the validator also reports valid, is refused with the
    error that says so. The three checks for ambiguity cannot fire. *)
Theorem valid_run_projects json_parse schema sha fs dir o vr pid rdir :
  validateRunDirectorySnapshot json_parse schema sha fs dir o = Ok vr →
  default true (opt_retainEvents o) = true → r_valid (vr_report vr) = true →
  match vr_events vr with
  | [] => projectRun pid rdir vr = Throw (PlainError (js "a valid run carries at least one event"))
  | _ :: _ => ∃ run, projectRun pid rdir vr = Ok run
  end.
Proof.
  intros H Hret Hr. destruct (snapshot_history _ _ _ _ _ _ _ H Hret Hr) as (h & Hv & He & _).
  destruct (vr_events vr) as [|e es] eqn:Ev.
  - unfold projectRun. by rewrite Hr, Ev.
  - apply (projectRun_total h); try done; [|by rewrite Ev]. by intros ->.
Qed.

(** A run directory whose [events] directory holds no file. *)
Definition empty_fs : FileSystem :=
  {| fsys_lstat := λ path, if str_eqb path (js "run/events") then Ok KDirectory else Throw ENOENT;
     fsys_open := λ path, Throw ENOENT;
     fsys_readdir := λ path, Ok [];
     fsys_realpath := λ path, Ok path;
     fsys_join := λ a b, a ++ js "/" ++ b |}.

Definition empty_run : ValidatedRun :=
  from_ok {| vr_report := no_report; vr_events := []; vr_sourceLines := [] |}
    (validateRunDirectorySnapshot cross_parse demo_schema demo_sha empty_fs (js "run") demo_options).

Lemma empty_snapshot_ok :
  validateRunDirectorySnapshot cross_parse demo_schema demo_sha empty_fs (js "run") demo_options = Ok empty_run.
Proof. apply from_ok_spec. vm_compute. reflexivity. Qed.

Lemma empty_run_valid : r_valid (vr_report empty_run) = true.
Proof. vm_compute. reflexivity. Qed.

Lemma valid_run_projects_witness :
  (∃ run, projectRun (js "p") (js "run") demo_run = Ok run) ∧
  projectRun (js "p") (js "run") empty_run = Throw (PlainError (js "a valid run carries at least one event")).
Proof.
  split.
  - exact (valid_run_projects _ _ _ _ _ _ _ (js "p") (js "run") demo_snapshot_ok eq_refl demo_run_valid).
  - exact (valid_run_projects _ _ _ _ _ _ _ (js "p") (js "run") empty_snapshot_ok eq_refl empty_run_valid).
Defined.

(** C30 A projection is well-formed, whatever snapshot it was made from: sessions in strict order
    of session id, executions of execution id (so one per id), attempts of attempt number; the
    final attempt is the one with the highest number and gives the execution its status; all attempts
    share one history identity and one declared runner; an execution is complete exactly when every
    attempt finished, and flaky exactly when the final attempt passed and an earlier one failed, both
    while expected to pass. *)
Theorem projectRun_well_formed pid dir vr run :
  projectRun pid dir vr = Ok run → run_wf run.
Proof. apply projectRun_run_wf. Qed.

Lemma projectRun_well_formed_witness :
  run_wf demo_projected ∧ te_flaky <$> pr_executions demo_projected = [true].
Proof.
  split; [exact (projectRun_well_formed _ _ _ _ demo_projected_ok)|vm_compute; reflexivity].
Defined.

(** C31 The order events were read in never shows: two snapshots with the same report that keep the
    events of one valid history in any two orders project to the same run. *)
Theorem projection_ignores_reading_order h pid dir vr vr' :
  valid_history h → vr_events vr ≡ₚ omap known h → vr_events vr' ≡ₚ omap known h →
  vr_report vr = vr_report vr' → projectRun pid dir vr = projectRun pid dir vr'.
Proof. apply project_permuted. Qed.

Lemma projection_ignores_reading_order_witness :
  projectRun (js "p") (js "run") demo_run = projectRun (js "p") (js "run") (reversed demo_run).
Proof.
  destruct demo_history as (h & Hv & He & _).
  exact (projection_ignores_reading_order h _ _ demo_run (reversed demo_run) Hv
           (eq_ind _ (λ es, es ≡ₚ omap known h) (Permutation_refl _) _ (eq_sym He))
           (reversed_events demo_run _ He) (reversed_report demo_run)).
Defined.

(** C28 Refinement: of a valid history the projection holds exactly the attempts that started, each in
    the execution it names, with its number, session and test, and shows no outcome and no step that is
    not the history's. An attempt all of whose events were written by the session that started it tells
    the whole truth: finished exactly when the history finished it, with that status; its steps are the
    steps that started, each with its outcome. (For an attempt another session writes about, the projection
    may leave the outcome out: [cross_session_finish_is_lost].) *)
Theorem projection_tells_history h pid dir vr run :
  valid_history h → vr_events vr ≡ₚ omap known h → projectRun pid dir vr = Ok run →
  (∀ te x, te ∈ pr_executions run → x ∈ te_attempts te → invents_nothing h te x) ∧
  (∀ te x, te ∈ pr_executions run → x ∈ te_attempts te → confined_attempt h (attemptId x) → tells h te x) ∧
  (∀ id, is_Some (att_started h id) →
     ∃ te x, te ∈ pr_executions run ∧ x ∈ te_attempts te ∧ attemptId x = id).
Proof.
  intros Hv He Hr. split_and!.
  - intros te x. by apply (attempt_invents_nothing h Hv pid dir vr run He Hr).
  - intros te x. by apply (attempt_told h Hv pid dir vr run He Hr).
  - intros id. by apply (attempt_projected h Hv pid dir vr run He Hr).
Qed.

Lemma projection_tells_history_witness :
  ∃ h, valid_history h ∧ vr_events demo_run = omap known h ∧
    ∀ te x, te ∈ pr_executions demo_projected → x ∈ te_attempts te → tells h te x.
Proof.
  destruct demo_history as (h & Hv & He & _ & Hc). exists h. split; [exact Hv|]. split; [exact He|].
  assert (vr_events demo_run ≡ₚ omap known h) as Hp by (rewrite He; reflexivity).
  destruct (projection_tells_history h _ _ _ _ Hv Hp demo_projected_ok) as (_ & Ht & _).
  intros te x Hte Hx. exact (Ht te x Hte Hx (Hc (attemptId x))).
Defined.

(** Completeness survives projection: when the history is complete and its attempts stay in their
    session, every projected execution is complete and has a final status, and every step in it has
    finished. *)
Theorem complete_history_projects_complete h pid dir vr run :
  valid_history h → confined h → complete h → vr_events vr ≡ₚ omap known h →
  projectRun pid dir vr = Ok run →
  ∀ te, te ∈ pr_executions run →
    te_complete te = true ∧ is_Some (te_finalStatus te) ∧
    ∀ x st, x ∈ te_attempts te → st ∈ a_stepList x → step_isFinished st = true.
Proof.
  intros Hv Hc Hcp He Hr te Hte. assert (∀ x, te ∈ pr_executions run → x ∈ te_attempts te → tells h te x) as Ht
    by (intros x Ht Hx; exact (attempt_told h Hv pid dir vr run He Hr te x Ht Hx (Hc _))).
  destruct (rw_execution _ (projectRun_run_wf _ _ _ _ Hr) te Hte) as [_ Hfin _ _ _ Hcomp Hst _].
  assert (∀ x, x ∈ te_attempts te → is_Some (att_finished h (attemptId x))) as Hall.
  { intros x Hx. destruct (tl_started _ _ _ (Ht x Hte Hx)) as (env & p & Hs & _).
    apply (cp_attempts _ Hcp). eauto. }
  split_and!.
  - apply Hcomp. intros x Hx. apply (tl_finished _ _ _ (Ht x Hte Hx)). auto.
  - rewrite Hst. assert (te_finalAttempt te ∈ te_attempts te) as Hx
      by (apply last_Some in Hfin as [l' ->]; set_solver).
    rewrite (tl_status _ _ _ (Ht _ Hte Hx)). apply fmap_is_Some. auto.
  - intros x st Hx Hin. destruct (tl_step _ _ _ (Ht x Hte Hx) st Hin) as [Hs _]. apply Hs.
    apply (cp_steps _ Hcp), (tl_steps _ _ _ (Ht x Hte Hx)). eauto.
Qed.

Lemma complete_history_projects_complete_witness :
  length (pr_executions demo_projected) = 1%nat ∧
  Forall (λ te, te_complete te = true) (pr_executions demo_projected).
Proof.
  split; [vm_compute; reflexivity|].
  destruct demo_history as (h & Hv & He & Hrep & Hc). apply Forall_forall. intros te Hte.
  assert (complete h) as Hcp.
  { assert (verdict_of h VPassed) as Hvd by exact (rp_verdict _ _ Hrep). by inversion Hvd. }
  assert (vr_events demo_run ≡ₚ omap known h) as Hp by (rewrite He; reflexivity).
  exact (proj1 (complete_history_projects_complete h _ _ _ _ Hv Hc Hcp Hp demo_projected_ok te Hte)).
Defined.

(** Without that confinement the projection loses facts: the validator accepts a run directory in
    which another session finishes the attempt, reports it valid, complete and passed, and the projection
    of that same snapshot shows the execution open, without a final status. The projector replays
    sessions in the order of their ids and drops an [attempt.finished] whose attempt it has not
    met yet. *)
Theorem cross_session_finish_is_lost :
  validateRunDirectorySnapshot cross_parse demo_schema demo_sha cross_fs (js "run") demo_options = Ok cross_run ∧
  r_valid (vr_report cross_run) = true ∧ sm_complete (r_summary (vr_report cross_run)) = true ∧
  sm_verdict (r_summary (vr_report cross_run)) = VPassed ∧
  projectRun (js "p") (js "run") cross_run = Ok cross_projected ∧
  (λ te, (te_complete te, te_finalStatus te)) <$> pr_executions cross_projected = [(false, None)].
Proof.
  split; [apply from_ok_spec; vm_compute; reflexivity|]. split; [vm_compute; reflexivity|].
  split; [vm_compute; reflexivity|]. split; [vm_compute; reflexivity|].
  split; [apply from_ok_spec|]; vm_compute; reflexivity.
Qed.
