(* ===== verification/ReadModel.v ===== *)
(** * The read model (ts/packages/read-model/src/read-model.ts)

    [ReadModel.assemble] as a function from projected runs to three maps and the
    problems found, and the queries over them. [JSON.stringify] of an array of
    strings is the key of a map. *)

From S2P Require Import Prelude JsString JsMap JsSort Json Model Validator ReadTypes HistoryOrder.

Local Open Scope Z_scope.

Record ReadModel := {
  runsByKey : jsmap str ProjectedRun;
  history_ : jsmap str (list ExecutionOccurrence);
  blobsBySha : jsmap str Blob;
}.

Record ReadModelBuild := { model : ReadModel; problems : list IngestionProblem }.

(** ** Keys and orders *)

Definition runKey (projectId runId : str) : str :=
  js "[" ++ json_quote projectId ++ js "," ++ json_quote runId ++ js "]".

Definition historyKey (projectId runnerName historicalId : str) : str :=
  js "[" ++ json_quote projectId ++ js "," ++ json_quote runnerName ++ js "," ++ json_quote historicalId ++ js "]".

(** [compareSources], on the project and run id both kinds carry. *)
Definition compareSources : RunKey → RunKey → Z :=
  cmp_then (cmp_on k_projectId compare) (cmp_on k_runId compare).

(** The order of two occurrences whose positions are known. *)
Definition occurrence_order (a b : HistoryInstant * ExecutionOccurrence) : Z :=
  cmp_then (cmp_on fst compareHistoryInstants)
    (cmp_then (cmp_on (λ p, eo_runId p.2) compare) (cmp_on (λ p, eo_executionId p.2) compare)) a b.

(** [compareHistoryOccurrences]: throws on a timestamp without a position. *)
Definition compareHistoryOccurrences (a b : ExecutionOccurrence) : res str Z :=
  ia ← historyInstant (eo_occurredAt a);
  ib ← historyInstant (eo_occurredAt b);
  Ok (occurrence_order (ia, a) (ib, b)).

Definition positioned (o : ExecutionOccurrence) : res str (HistoryInstant * ExecutionOccurrence) :=
  (λ i, (i, o)) <$> historyInstant (eo_occurredAt o).

(** [list.sort(compareHistoryOccurrences)]: the comparator runs on every element of a list of two or
    more and on none of a shorter one; of several timestamps without a position, the first in the
    list is the one reported. *)
Definition sort_history (l : list ExecutionOccurrence) : res str (list ExecutionOccurrence) :=
  if (length l <? 2)%nat then Ok l
  else ps ← mapMi (λ _, positioned) l; Ok (snd <$> sort occurrence_order ps).

(** ** Occurrences of a run *)

(** The body of the loop of [historyOccurrencesOf]. *)
Definition occurrence_of (run : ProjectedRun) (e : TestExecution) : option ExecutionOccurrence :=
  match t_historicalId (te_test e), te_runnerName e, te_attempts e with
  | Some historicalId, Some runnerName, first :: _ =>
      let sessions := foldl (λ m s, mset m (ps_sessionId s) s) [] (pr_sessions run) in
      let finalSession := mget sessions (a_sessionId (te_finalAttempt e)) in
      Some {| eo_key := {| hk_projectId := k_projectId (pr_key run); hk_runnerName := runnerName;
                           hk_historicalId := historicalId |};
              eo_runId := k_runId (pr_key run); eo_executionId := te_executionId e;
              eo_sessionIds := sort compare (sfrom (a_sessionId <$> te_attempts e));
              eo_historicalIdStability := t_historicalIdStability (te_test e);
              eo_occurredAt := a_startedAt first;
              eo_attemptCount := Z.of_nat (length (te_attempts e));
              eo_complete := te_complete e; eo_finalStatus := te_finalStatus e;
              eo_expectedStatus := a_expectedStatus (te_finalAttempt e); eo_flaky := te_flaky e;
              eo_runVerdict := vf_verdict (pr_validator run);
              eo_runComplete := vf_complete (pr_validator run);
              eo_sessionStatus := finalSession ≫= ps_status |}
  | _, _, _ => None
  end.

(** [historyOccurrencesOf] *)
Definition historyOccurrencesOf (run : ProjectedRun) : list ExecutionOccurrence :=
  omap (occurrence_of run) (pr_executions run).

(** ** assemble *)

Definition run_key_of (run : ProjectedRun) : str := runKey (k_projectId (pr_key run)) (k_runId (pr_key run)).

(** Candidates by key; a run directory seen before is not a second candidate. *)
Definition group_run (byKey : jsmap str (list ProjectedRun)) (run : ProjectedRun)
    : jsmap str (list ProjectedRun) :=
  let key := run_key_of run in
  match mget byKey key with
  | None => mset byKey key [run]
  | Some known =>
      if existsb (λ r, str_eqb (pr_runDirectory r) (pr_runDirectory run)) known then byKey
      else mset byKey key (known ++ [run])
  end.

(** The local variables of the acceptance loop. *)
Record Assembly := {
  as_problems : list IngestionProblem;
  as_accepted : jsmap str ProjectedRun;
  as_blobs : jsmap str Blob;
}.

Definition problem_of (code : IngestionProblemCode) (run : ProjectedRun) (message : str) : IngestionProblem :=
  {| ip_code := code; ip_projectId := k_projectId (pr_key run); ip_runDirectory := pr_runDirectory run;
     ip_runId := Some (k_runId (pr_key run)); ip_detail := None; ip_message := message;
     ip_diagnostics := [] |}.

Definition duplicate_problems (candidates : list ProjectedRun) : list IngestionProblem :=
  let directories := sort compare (pr_runDirectory <$> candidates) in
  (λ run, problem_of I_DUPLICATE_RUN run
    (js "run " ++ k_runId (pr_key run) ++ js " of project " ++ k_projectId (pr_key run)
      ++ js " was found in " ++ dec (Z.of_nat (length directories)) ++ js " run directories: "
      ++ join (js ", ") directories)) <$> candidates.

(** The first attachment whose digest is known with another size. *)
Definition size_conflict (blobs : jsmap str Blob) (run : ProjectedRun) : option AttachmentReference :=
  List.find (λ a, match mget blobs (ar_sha256 a) with
                  | Some known => negb (b_sizeBytes known =? ar_sizeBytes a)
                  | None => false
                  end) (pr_attachments run).

Definition same_run (k1 k2 : RunKey) : bool :=
  str_eqb (k_projectId k1) (k_projectId k2) && str_eqb (k_runId k1) (k_runId k2).

(** One reference of an accepted run, added to its blob. *)
Definition add_reference (run : ProjectedRun) (blobs : jsmap str Blob) (reference : AttachmentReference)
    : jsmap str Blob :=
  let blob := default {| b_sha256 := ar_sha256 reference; b_sizeBytes := ar_sizeBytes reference;
                         b_sources := []; b_references := [] |} (mget blobs (ar_sha256 reference)) in
  let sources :=
    if existsb (λ s, same_run (bs_key s) (pr_key run)) (b_sources blob) then b_sources blob
    else b_sources blob ++ [{| bs_key := pr_key run; bs_runDirectory := pr_runDirectory run |}] in
  mset blobs (ar_sha256 reference)
    {| b_sha256 := b_sha256 blob; b_sizeBytes := b_sizeBytes blob; b_sources := sources;
       b_references := b_references blob ++ [{| br_key := pr_key run; br_reference := reference |}] |}.

(** The body of the acceptance loop; a group always has a candidate. *)
Definition accept_group (s : Assembly) (entry : str * list ProjectedRun) : Assembly :=
  match entry.2 with
  | [] => s
  | [run] =>
      match size_conflict (as_blobs s) run with
      | Some conflict =>
          {| as_problems := as_problems s ++
               [problem_of I_BLOB_SIZE_CONFLICT run
                  (js "attachment " ++ ar_sha256 conflict ++ js " is " ++ dec (ar_sizeBytes conflict)
                    ++ js " bytes here and "
                    ++ dec (default 0 (b_sizeBytes <$> mget (as_blobs s) (ar_sha256 conflict)))
                    ++ js " bytes in an earlier run")];
             as_accepted := as_accepted s; as_blobs := as_blobs s |}
      | None =>
          {| as_problems := as_problems s; as_accepted := mset (as_accepted s) entry.1 run;
             as_blobs := foldl (add_reference run) (as_blobs s) (pr_attachments run) |}
      end
  | candidates =>
      {| as_problems := as_problems s ++ duplicate_problems candidates;
         as_accepted := as_accepted s; as_blobs := as_blobs s |}
  end.

Definition grouped (runs : list ProjectedRun) : list (str * list ProjectedRun) :=
  sort (cmp_on fst compare) (foldl group_run [] runs).

Definition accept_runs (runs : list ProjectedRun) : Assembly :=
  foldl accept_group {| as_problems := []; as_accepted := []; as_blobs := [] |} (grouped runs).

Definition key_of_occurrence (o : ExecutionOccurrence) : str :=
  historyKey (hk_projectId (eo_key o)) (hk_runnerName (eo_key o)) (hk_historicalId (eo_key o)).

(** An occurrence added to its history. *)
Definition add_occurrence (m : jsmap str (list ExecutionOccurrence)) (o : ExecutionOccurrence) :=
  mset m (key_of_occurrence o) (default [] (mget m (key_of_occurrence o)) ++ [o]).

Definition unsorted_history (accepted : jsmap str ProjectedRun) : jsmap str (list ExecutionOccurrence) :=
  foldl add_occurrence [] (mvalues accepted ≫= historyOccurrencesOf).

Definition freeze_blob (b : Blob) : Blob :=
  {| b_sha256 := b_sha256 b; b_sizeBytes := b_sizeBytes b;
     b_sources := sort (cmp_on bs_key compareSources) (b_sources b);
     b_references := sort (cmp_on br_key compareSources) (b_references b) |}.

(** [ReadModel.assemble]; it throws only on a history timestamp without a position. *)
Definition assemble (runs : list ProjectedRun) : res str ReadModelBuild :=
  let s := accept_runs runs in
  history ← mapMi (λ _ e, (λ l, (e.1, l)) <$> sort_history e.2) (unsorted_history (as_accepted s));
  Ok {| model :=
          {| runsByKey := as_accepted s; history_ := history;
             blobsBySha := prod_map id freeze_blob <$> sort (cmp_on fst compare) (as_blobs s) |};
        problems := as_problems s |}.

(** ** Queries *)

(** [getRun] *)
Definition getRun (m : ReadModel) (projectId runId : str) : res str (option ProjectedRun) :=
  _ ← checkProjectId projectId; Ok (mget (runsByKey m) (runKey projectId runId)).

(** [runs] *)
Definition runs (m : ReadModel) : list ProjectedRun :=
  sort (cmp_on pr_key compareSources) (mvalues (runsByKey m)).

(** [getTestHistory] *)
Definition getTestHistory (m : ReadModel) (projectId runnerName historicalId : str) : res str TestHistory :=
  _ ← checkProjectId projectId;
  Ok {| th_key := {| hk_projectId := projectId; hk_runnerName := runnerName; hk_historicalId := historicalId |};
        th_occurrences := default [] (mget (history_ m) (historyKey projectId runnerName historicalId)) |}.

(** [getFlakiness] *)
Definition getFlakiness (m : ReadModel) (projectId runnerName historicalId : str) : res str Flakiness :=
  h ← getTestHistory m projectId runnerName historicalId;
  let flaky := List.filter eo_flaky (th_occurrences h) in
  Ok {| fl_key := th_key h; totalOccurrences := Z.of_nat (length (th_occurrences h));
        flakyOccurrences := Z.of_nat (length flaky); everFlaky := (0 <? length flaky)%nat;
        fl_flaky := flaky |}.

(** [getBlob] *)
Definition getBlob (m : ReadModel) (sha256 : str) : option Blob := mget (blobsBySha m) sha256.

(** [blobs] *)
Definition blobs (m : ReadModel) : list Blob := mvalues (blobsBySha m).
