(* ===== verification/ReadModelSpec.v ===== *)
(** * The read model's contract

    What [assemble] makes of a set of runs, whatever order they come in: the
    model, the runs left out and why, the histories and the blob catalogue. *)

From Stdlib Require Import Sorting.Sorted Sorting.Permutation.
From S2P Require Import Prelude JsString JsMap JsSort Json Model Codec CodecProps History Validator ValidatorRun Demo ValidatorTables ValidatorSound ValidatorReport ValidatorSpec ReadTypes HistoryOrder Projector ProjectorSpec ProjectorProps ReadModel.

Local Open Scope Z_scope.

(** ** Sorted entries of a map *)

Lemma sorted_entries_eq {V} (d : V) (m : jsmap str V) :
  NoDup (mkeys m) →
  sort (cmp_on fst compare) m = (λ k, (k, default d (mget m k))) <$> sort compare (mkeys m).
Proof.
  intros Hnd. apply (sorted_unique (cmp_on fst compare)).
  - intros [k v] [k' v']. rewrite !elem_of_sort. unfold cmp_on. simpl. intros H1 H2 ->%compare_separates.
    apply elem_mget in H1, H2; [|done..]. congruence.
  - apply (sort_sorted (cmp_on fst compare)).
  - pose proof (sort_sorted compare (mkeys m)) as Hs.
    induction Hs as [|k l Hl IH Hk]; [constructor|]. rewrite fmap_cons. constructor; [done|].
    apply Forall_fmap. eapply Forall_impl; [exact Hk|]. done.
  - rewrite !sort_Permutation. unfold mkeys.
    enough ((λ k, (k, default d (mget m k))) <$> m.*1 = m) as E by by rewrite E.
    rewrite <- list_fmap_compose. trans (id <$> m); [|apply list_fmap_id]. apply list_fmap_ext.
    intros i [k v] Hi. simpl. unfold id. f_equal. rewrite (elem_mget m k v); [done|done|].
    by eapply list_elem_of_lookup_2.
Qed.

Lemma NoDup_same {A} (l l' : list A) : NoDup l → NoDup l' → (∀ x, x ∈ l ↔ x ∈ l') → l ≡ₚ l'.
Proof. apply NoDup_Permutation. Qed.

Lemma sorted_keys_same {V} (m m' : jsmap str V) :
  NoDup (mkeys m) → NoDup (mkeys m') → (∀ k, is_Some (mget m k) ↔ is_Some (mget m' k)) →
  sort compare (mkeys m) = sort compare (mkeys m').
Proof.
  intros H1 H2 Hk. apply (sort_canonical compare).
  - intros x y _ _. apply compare_separates.
  - apply NoDup_same; try done. intros k. by rewrite <- !mget_is_Some.
Qed.

(** ** Candidates *)

Definition has_key (k : str) (run : ProjectedRun) : bool := str_eqb (run_key_of run) k.

Definition add_candidate (acc : list ProjectedRun) (run : ProjectedRun) : list ProjectedRun :=
  if existsb (λ r, str_eqb (pr_runDirectory r) (pr_runDirectory run)) acc then acc else acc ++ [run].

(** The candidates of one key: one run per directory. *)
Definition candidates_of (k : str) (rs : list ProjectedRun) : list ProjectedRun :=
  foldl add_candidate [] (List.filter (has_key k) rs).

Lemma candidates_snoc k rs run :
  candidates_of k (rs ++ [run]) =
    if has_key k run then add_candidate (candidates_of k rs) run else candidates_of k rs.
Proof.
  unfold candidates_of. rewrite List.filter_app. simpl. destruct (has_key k run).
  - by rewrite foldl_app.
  - by rewrite app_nil_r.
Qed.

Lemma group_run_get rs k :
  mget (foldl group_run [] rs) k = nonempty (candidates_of k rs).
Proof.
  induction rs as [|run rs IH] using rev_ind; [done|].
  rewrite foldl_app, candidates_snoc. simpl. unfold group_run at 1, has_key. rewrite str_eqb_decide.
  case_decide as E.
  - subst k. rewrite IH. unfold add_candidate. destruct (candidates_of _ rs) as [|c cs]; simpl.
    + by rewrite mget_mset_eq.
    + destruct (_ || _); [by rewrite IH|]. by rewrite mget_mset_eq.
  - destruct (mget (foldl group_run [] rs) (run_key_of run)) as [l|]; [destruct (existsb _ l)|];
      rewrite ?mget_mset, ?(decide_False (P := _ = k)); done.
Qed.

Lemma group_run_NoDup rs : NoDup (mkeys (foldl group_run [] rs)).
Proof.
  induction rs as [|run rs IH] using rev_ind; [constructor|].
  rewrite foldl_app. simpl. unfold group_run at 1.
  destruct (mget _ _); [destruct (existsb _ _)|]; auto with qe.
Qed.

Lemma grouped_eq rs :
  grouped rs = (λ k, (k, candidates_of k rs)) <$> sort compare (mkeys (foldl group_run [] rs)).
Proof.
  unfold grouped. rewrite (sorted_entries_eq []) by apply group_run_NoDup.
  apply list_fmap_ext. intros i k Hk. f_equal. rewrite group_run_get. by destruct (candidates_of k rs).
Qed.

(** A run directory names one run under one key. *)
Definition one_run_per_directory (rs : list ProjectedRun) : Prop :=
  ∀ r r', r ∈ rs → r' ∈ rs → run_key_of r = run_key_of r' → pr_runDirectory r = pr_runDirectory r' → r = r'.

Lemma candidate_from k rs run : run ∈ candidates_of k rs → run ∈ rs ∧ run_key_of run = k.
Proof.
  induction rs as [|r rs IH] using rev_ind; [by intros ?%elem_of_nil|].
  rewrite candidates_snoc, elem_of_app, list_elem_of_singleton. unfold add_candidate.
  destruct (has_key k r) eqn:E; [|tauto]. apply str_eqb_eq in E.
  destruct (existsb _ _); [tauto|]. rewrite elem_of_app, list_elem_of_singleton.
  intros [H| ->]; [tauto|auto].
Qed.

Lemma same_directory_b l (run : ProjectedRun) :
  existsb (λ r, str_eqb (pr_runDirectory r) (pr_runDirectory run)) l = true ↔
  ∃ r, r ∈ l ∧ pr_runDirectory r = pr_runDirectory run.
Proof.
  rewrite existsb_exists. setoid_rewrite <- list_elem_of_In. by setoid_rewrite str_eqb_eq.
Qed.

Lemma candidate_for k rs run :
  run ∈ rs → run_key_of run = k → ∃ r, r ∈ candidates_of k rs ∧ pr_runDirectory r = pr_runDirectory run.
Proof.
  induction rs as [|r rs IH] using rev_ind; [by intros ?%elem_of_nil|].
  rewrite candidates_snoc. intros Hin Hk.
  assert (∀ r0, r0 ∈ candidates_of k rs →
    r0 ∈ (if has_key k r then add_candidate (candidates_of k rs) r else candidates_of k rs)) as Hkeep.
  { intros r0 H0. unfold add_candidate. destruct (has_key k r); [|done]. destruct (existsb _ _); [done|].
    apply elem_of_app. by left. }
  apply elem_of_app in Hin as [Hin| ->%list_elem_of_singleton].
  - destruct (IH Hin Hk) as (r0 & ? & ?). eauto.
  - unfold has_key. rewrite Hk, str_eqb_refl. unfold add_candidate.
    destruct (existsb _ _) eqn:E; [by apply same_directory_b in E|].
    exists r. rewrite elem_of_app, list_elem_of_singleton. auto.
Qed.

Lemma candidates_directories k rs : NoDup (pr_runDirectory <$> candidates_of k rs).
Proof.
  induction rs as [|r rs IH] using rev_ind; [constructor|].
  rewrite candidates_snoc. unfold add_candidate. destruct (has_key k r); [|done].
  destruct (existsb _ _) eqn:E; [done|]. rewrite fmap_app. apply NoDup_app.
  split_and!; [done| |apply NoDup_singleton].
  intros d (r0 & -> & Hr0)%list_elem_of_fmap. simpl. rewrite list_elem_of_singleton. intros Heq.
  rewrite (proj2 (same_directory_b _ _)) in E; [done|]. eauto.
Qed.

Lemma candidates_Permutation k rs rs' :
  one_run_per_directory rs → rs ≡ₚ rs' → candidates_of k rs ≡ₚ candidates_of k rs'.
Proof.
  intros H1 Hp.
  assert (∀ rs rs', one_run_per_directory rs → rs ≡ₚ rs' → ∀ x, x ∈ candidates_of k rs → x ∈ candidates_of k rs') as Hone.
  { clear. intros rs rs' H1 Hp x Hx. pose proof (candidate_from _ _ _ Hx) as [Hin Hk].
    destruct (candidate_for k rs' x) as (r & Hr & Hd); [by rewrite <- Hp|done|].
    pose proof (candidate_from _ _ _ Hr) as [Hin' Hk']. rewrite <- Hp in Hin'.
    by rewrite (H1 x r) by congruence. }
  apply NoDup_same.
  - eapply NoDup_fmap_1, candidates_directories.
  - eapply NoDup_fmap_1, candidates_directories.
  - intros x. split; [by apply Hone|]. apply Hone; [|done].
    intros r r'. rewrite <- !Hp. apply H1.
Qed.

(** ** Acceptance does not see the order of the runs *)

(** Entries of one key whose candidates are rearranged. *)
Definition same_entry (e e' : str * list ProjectedRun) : Prop := e.1 = e'.1 ∧ e.2 ≡ₚ e'.2.

Definition same_assembly (s s' : Assembly) : Prop :=
  as_accepted s = as_accepted s' ∧ as_blobs s = as_blobs s' ∧ as_problems s ≡ₚ as_problems s'.

Lemma grouped_Permutation rs rs' :
  one_run_per_directory rs → rs ≡ₚ rs' → Forall2 same_entry (grouped rs) (grouped rs').
Proof.
  intros H1 Hp. rewrite !grouped_eq.
  rewrite (sorted_keys_same (foldl group_run [] rs) (foldl group_run [] rs')) by
    (apply group_run_NoDup || (intros k; rewrite !group_run_get;
       pose proof (candidates_Permutation k rs rs' H1 Hp) as Hc;
       destruct (candidates_of k rs), (candidates_of k rs'); simpl;
       [done|by apply Permutation_nil_l in Hc|by symmetry in Hc; apply Permutation_nil_l in Hc|by split; eauto])).
  apply Forall2_fmap, Forall_Forall2_diag, Forall_forall. intros k _.
  split; [done|]. by apply candidates_Permutation.
Qed.

Lemma duplicate_problems_Permutation c c' : c ≡ₚ c' → duplicate_problems c ≡ₚ duplicate_problems c'.
Proof.
  intros Hp. unfold duplicate_problems. rewrite (sort_canonical compare (pr_runDirectory <$> c) (pr_runDirectory <$> c')).
  - by rewrite Hp.
  - intros x y _ _. apply compare_separates.
  - by rewrite Hp.
Qed.

Lemma accept_group_many s k c :
  (2 <= length c)%nat →
  accept_group s (k, c) =
    {| as_problems := as_problems s ++ duplicate_problems c; as_accepted := as_accepted s; as_blobs := as_blobs s |}.
Proof. destruct c as [|? [|]]; simpl; [lia|lia|done]. Qed.

Lemma accept_group_same s s' e e' :
  same_assembly s s' → same_entry e e' → same_assembly (accept_group s e) (accept_group s' e').
Proof.
  destruct e as [k c], e' as [k' c']. intros (Ha & Hb & Hpr) [Hk Hc]. simpl in Hk, Hc. subst k'.
  destruct (decide (2 <= length c)%nat) as [Hl|Hl].
  - rewrite !accept_group_many by (done || by rewrite <- Hc). split_and!; simpl; [done|done|].
    by rewrite Hpr, (duplicate_problems_Permutation _ _ Hc).
  - destruct c as [|r [|]]; [| |simpl in Hl; lia].
    + apply Permutation_nil_l in Hc. by subst c'.
    + assert (c' = [r]) as -> by by apply Permutation_singleton_r.
      unfold accept_group. simpl. rewrite <- Ha, <- Hb.
      destruct (size_conflict _ _); split_and!; simpl; try done. by rewrite Hpr.
Qed.

Lemma accept_runs_Permutation rs rs' :
  one_run_per_directory rs → rs ≡ₚ rs' → same_assembly (accept_runs rs) (accept_runs rs').
Proof.
  intros H1 Hp. pose proof (grouped_Permutation rs rs' H1 Hp) as Hg. unfold accept_runs.
  assert (same_assembly {| as_problems := []; as_accepted := []; as_blobs := [] |}
                        {| as_problems := []; as_accepted := []; as_blobs := [] |}) as Hs by done.
  revert Hs. generalize {| as_problems := []; as_accepted := []; as_blobs := [] |} at 1 3.
  generalize {| as_problems := []; as_accepted := []; as_blobs := [] |}.
  induction Hg as [|e e' l l' He Hl IH]; intros s' s Hs; simpl; [done|]. by apply IH, accept_group_same.
Qed.

(** ** Which runs are accepted *)

(** A run whose key no other directory claims. *)
Definition sole_candidate (rs : list ProjectedRun) (run : ProjectedRun) : Prop :=
  candidates_of (run_key_of run) rs = [run].

Record AssemblyInv (l : list (str * list ProjectedRun)) (s : Assembly) : Prop := {
  ai_accepted k run : mget (as_accepted s) k = Some run → (k, [run]) ∈ l;
  ai_accounts k c run : (k, c) ∈ l → run ∈ c →
    mget (as_accepted s) k = Some run ∨
    ∃ p, p ∈ as_problems s ∧ ip_runDirectory p = pr_runDirectory run ∧ ip_projectId p = k_projectId (pr_key run)
         ∧ ip_runId p = Some (k_runId (pr_key run)) ∧ (ip_code p = I_DUPLICATE_RUN ∨ ip_code p = I_BLOB_SIZE_CONFLICT);
  ai_NoDup : NoDup (mkeys (as_accepted s));
}.

Lemma accept_group_problems s e p : p ∈ as_problems s → p ∈ as_problems (accept_group s e).
Proof.
  destruct e as [k c]. unfold accept_group. simpl. destruct c as [|r [|r' c]]; simpl; [done| |set_solver].
  destruct (size_conflict _ _); simpl; set_solver.
Qed.

Lemma accept_group_inv l s e :
  e.1 ∉ l.*1 → AssemblyInv l s → AssemblyInv (l ++ [e]) (accept_group s e).
Proof.
  destruct e as [k c]. intros Hfresh HI. simpl in Hfresh.
  assert (∀ k' run, mget (as_accepted s) k' = Some run → k' ≠ k) as Hne.
  { intros k' run Hk ->. apply (ai_accepted _ _ HI) in Hk. apply Hfresh.
    apply list_elem_of_fmap. by exists (k, [run]). }
  assert (∀ k' run, mget (as_accepted (accept_group s (k, c))) k' = Some run →
    mget (as_accepted s) k' = Some run ∨ (k' = k ∧ c = [run])) as Hget.
  { intros k' run. unfold accept_group. simpl. destruct c as [|r [|r' c]]; simpl; auto.
    destruct (size_conflict _ _); simpl; [auto|]. rewrite mget_mset. case_decide; [|auto].
    intros [= ->]. auto. }
  assert (∀ k' run, mget (as_accepted s) k' = Some run →
    mget (as_accepted (accept_group s (k, c))) k' = Some run) as Hold.
  { intros k' run Hk. pose proof (Hne _ _ Hk). unfold accept_group. simpl.
    destruct c as [|r [|r' c]]; simpl; try done. destruct (size_conflict _ _); simpl; [done|].
    rewrite mget_mset_ne; [done|congruence]. }
  constructor.
  - intros k' run [Hk|[-> ->]]%Hget; apply elem_of_app; [left; by apply (ai_accepted _ _ HI)|right; set_solver].
  - intros k' c' run [Hin|Hin]%elem_of_app Hrun.
    + destruct (ai_accounts _ _ HI k' c' run Hin Hrun) as [Hk|(p & Hp & Hrest)]; [left; auto|].
      right. exists p. split; [by apply accept_group_problems|done].
    + apply list_elem_of_singleton in Hin. injection Hin as -> ->. unfold accept_group. simpl.
      destruct c as [|r [|r' c]]; [by apply elem_of_nil in Hrun| |].
      * apply list_elem_of_singleton in Hrun. subst r.
        destruct (size_conflict _ _) as [a|] eqn:E; simpl; [right|left; apply mget_mset_eq].
        eexists. split; [apply elem_of_app; right; by apply list_elem_of_singleton|]. simpl. auto.
      * right. eexists. split; [apply elem_of_app; right; apply list_elem_of_fmap; by exists run|]. simpl. auto.
  - unfold accept_group. simpl. destruct c as [|r [|r' c]]; simpl; try apply (ai_NoDup _ _ HI).
    destruct (size_conflict _ _); simpl; [apply (ai_NoDup _ _ HI)|]. apply mset_NoDup, (ai_NoDup _ _ HI).
Qed.

Lemma accept_fold_inv l :
  NoDup l.*1 → AssemblyInv l (foldl accept_group {| as_problems := []; as_accepted := []; as_blobs := [] |} l).
Proof.
  induction l as [|e l IH] using rev_ind; intros Hnd.
  { constructor; simpl; [done|by intros ??? ?%elem_of_nil|constructor]. }
  rewrite fmap_app in Hnd. apply NoDup_app in Hnd as (Hl & Hdis & _). rewrite foldl_app. simpl.
  apply accept_group_inv; [|auto]. intros Hin. by apply (Hdis _ Hin), list_elem_of_singleton.
Qed.

Lemma grouped_NoDup rs : NoDup (grouped rs).*1.
Proof.
  rewrite grouped_eq, <- list_fmap_compose. simpl. rewrite list_fmap_id, sort_Permutation. apply group_run_NoDup.
Qed.

Lemma accept_runs_inv rs : AssemblyInv (grouped rs) (accept_runs rs).
Proof. apply accept_fold_inv, grouped_NoDup. Qed.

Lemma grouped_elem rs k c :
  (k, c) ∈ grouped rs → c = candidates_of k rs.
Proof. rewrite grouped_eq. by intros (k' & [= -> ->] & _)%list_elem_of_fmap. Qed.

Lemma grouped_has rs run : run ∈ rs → (run_key_of run, candidates_of (run_key_of run) rs) ∈ grouped rs.
Proof.
  intros Hin. rewrite grouped_eq. apply list_elem_of_fmap. exists (run_key_of run). split; [done|].
  rewrite elem_of_sort, <- mget_is_Some, group_run_get.
  destruct (candidate_for (run_key_of run) rs run Hin eq_refl) as (r & Hr & _).
  destruct (candidates_of _ rs); [by apply elem_of_nil in Hr|simpl; eauto].
Qed.

Lemma accepted_sole rs k run :
  mget (as_accepted (accept_runs rs)) k = Some run → k = run_key_of run ∧ sole_candidate rs run ∧ run ∈ rs.
Proof.
  intros Hk. apply (ai_accepted _ _ (accept_runs_inv rs)), grouped_elem in Hk.
  assert (run ∈ candidates_of k rs) as Hin by (rewrite <- Hk; set_solver).
  apply candidate_from in Hin as [Hin <-]. split_and!; [done|by symmetry|done].
Qed.

(** ** Histories *)

Lemma mapMi_from_const {E A B} (f : A → res E B) i j l :
  mapMi_from (λ _, f) i l = mapMi_from (λ _, f) j l.
Proof. revert i j. induction l as [|x l IH]; intros i j; simpl; [done|]. by rewrite (IH (S i) (S j)). Qed.

(** Each occurrence before the next ones: the comparator never puts it after. *)
Definition in_history_order (a b : ExecutionOccurrence) : Prop :=
  ∃ c, compareHistoryOccurrences a b = Ok c ∧ c <= 0.

#[export] Instance occurrence_order_comparator : Comparator occurrence_order.
Proof. unfold occurrence_order. apply _. Qed.

Lemma sort_history_spec l l' :
  sort_history l = Ok l' → l' ≡ₚ l ∧ StronglySorted in_history_order l'.
Proof.
  unfold sort_history. destruct (length l <? 2)%nat eqn:Hl.
  { intros [= <-]. split; [done|]. apply Nat.ltb_lt in Hl.
    destruct l as [|o [|]]; [constructor|repeat constructor|simpl in Hl; lia]. }
  intros (ps & Hps & [= <-])%bind_Ok_inv.
  assert (Forall2 (λ o p, p.2 = o ∧ historyInstant (eo_occurredAt o) = Ok p.1) l ps) as HF.
  { eapply mapMi_from_Forall2; [|exact Hps]. intros i o p. unfold positioned, fmap, res_fmap.
    destruct (historyInstant _); [|done]. intros [= <-]. done. }
  assert (snd <$> ps = l) as Hsnd.
  { clear Hps Hl. induction HF as [|o p l ps [<- _] _ IH]; [done|]. csimpl. by rewrite IH. }
  split; [by rewrite sort_Permutation, Hsnd|].
  assert (∀ p, p ∈ sort occurrence_order ps → historyInstant (eo_occurredAt p.2) = Ok p.1) as Hpos.
  { intros p. rewrite elem_of_sort. intros Hp. destruct (Forall2_elem_r _ _ _ _ HF Hp) as (o & _ & <- & H). done. }
  revert Hpos. pose proof (sort_sorted occurrence_order ps) as Hs. revert Hs.
  generalize (sort occurrence_order ps). induction 1 as [|p q Hq IH Hp]; intros Hpos; [constructor|].
  csimpl. constructor; [apply IH; intros; apply Hpos; by right|].
  rewrite Forall_forall in Hp. apply Forall_forall. intros o (p' & -> & Hp')%list_elem_of_fmap.
  exists (occurrence_order p p'). split; [|by apply Hp].
  unfold compareHistoryOccurrences. rewrite (Hpos p), (Hpos p') by (by left || by right). simpl.
  by destruct p, p'.
Qed.

Definition with_key (k : str) (o : ExecutionOccurrence) : bool := str_eqb (key_of_occurrence o) k.

Lemma add_occurrences_get l k :
  mget (foldl add_occurrence [] l) k = nonempty (List.filter (with_key k) l).
Proof.
  induction l as [|o l IH] using rev_ind; [done|].
  rewrite foldl_app, List.filter_app. simpl. unfold add_occurrence at 1, with_key at 2.
  rewrite mget_mset, str_eqb_decide. case_decide as E.
  - subst k. rewrite IH. by destruct (List.filter _ l).
  - by rewrite IH, app_nil_r.
Qed.

Lemma add_occurrences_NoDup l : NoDup (mkeys (foldl add_occurrence [] l)).
Proof.
  induction l as [|o l IH] using rev_ind; [constructor|]. rewrite foldl_app. simpl.
  unfold add_occurrence at 1. by apply mset_NoDup.
Qed.

Lemma assemble_inv rs b :
  assemble rs = Ok b →
  let s := accept_runs rs in
  runsByKey (model b) = as_accepted s ∧ problems b = as_problems s ∧
  blobsBySha (model b) = prod_map id freeze_blob <$> sort (cmp_on fst compare) (as_blobs s) ∧
  mapMi (λ _ e, (λ l, (e.1, l)) <$> sort_history e.2) (unsorted_history (as_accepted s)) = Ok (history_ (model b)).
Proof. unfold assemble. intros (h & Hh & [= <-])%bind_Ok_inv. done. Qed.

(** The history under a key: its occurrences, in history order. *)
Lemma history_get rs b k :
  assemble rs = Ok b →
  let all := mvalues (runsByKey (model b)) ≫= historyOccurrencesOf in
  default [] (mget (history_ (model b)) k) ≡ₚ List.filter (with_key k) all ∧
  StronglySorted in_history_order (default [] (mget (history_ (model b)) k)).
Proof.
  intros (Ha & _ & _ & Hh)%assemble_inv. rewrite Ha.
  unfold unsorted_history in Hh. set (all := mvalues _ ≫= _) in *.
  assert (Forall2 (λ e e', e'.1 = e.1 ∧ sort_history e.2 = Ok e'.2) (foldl add_occurrence [] all) (history_ (model b))) as HF.
  { eapply mapMi_from_Forall2; [|exact Hh]. intros i e e'. unfold fmap, res_fmap.
    destruct (sort_history e.2); [|done]. by intros [= <-]. }
  pose proof (add_occurrences_get all k) as Hget. revert Hget. clear Hh.
  assert (∀ m m' : jsmap str (list ExecutionOccurrence),
    Forall2 (λ e e', e'.1 = e.1 ∧ sort_history e.2 = Ok e'.2) m m' →
    match mget m k with
    | None => mget m' k = None
    | Some l => ∃ l', mget m' k = Some l' ∧ sort_history l = Ok l'
    end) as Hm.
  { clear. induction 1 as [|[k1 l1] [k2 l2] m m' [E Hs] _ IH]; [done|]. simpl in *. subst k2.
    case_decide; eauto. }
  specialize (Hm _ _ HF). destruct (mget (foldl add_occurrence [] all) k) as [l|] eqn:E; intros Hget.
  - destruct Hm as (l' & -> & Hs). simpl. apply sort_history_spec in Hs as [Hp Hs].
    split; [|done]. rewrite Hp. destruct (List.filter _ all); simpl in Hget; by simplify_eq.
  - rewrite Hm. simpl. split; [|constructor]. by destruct (List.filter _ all).
Qed.

Lemma runs_Permutation m : runs m ≡ₚ mvalues (runsByKey m).
Proof.
  unfold runs. apply (sort_Permutation (cmp_on pr_key compareSources)).
Qed.

(** ** Keys *)

(** The texts a key is made of are sequences of UTF-16 code units. *)
Definition wf_texts (o : ExecutionOccurrence) : Prop :=
  wf_str (hk_projectId (eo_key o)) ∧ wf_str (hk_runnerName (eo_key o)) ∧ wf_str (hk_historicalId (eo_key o)).

Lemma json_pair_inj a b r c d r' :
  wf_str a → wf_str b → wf_str c → wf_str d →
  json_quote a ++ js "," ++ json_quote b ++ r = json_quote c ++ js "," ++ json_quote d ++ r' →
  a = c ∧ b = d ∧ r = r'.
Proof.
  intros Ha Hb Hc Hd H. apply json_quote_inj in H as [-> H]; [|done..].
  apply app_inv_head, json_quote_inj in H as [-> H]; done.
Qed.

Lemma runKey_inj p r p' r' :
  wf_str p → wf_str r → wf_str p' → wf_str r' → runKey p r = runKey p' r' → p = p' ∧ r = r'.
Proof.
  intros W1 W2 W3 W4 H. unfold runKey in H. apply app_inv_head in H.
  apply json_pair_inj in H; tauto.
Qed.

Lemma historyKey_inj p r i p' r' i' :
  wf_str p → wf_str r → wf_str i → wf_str p' → wf_str r' → wf_str i' →
  historyKey p r i = historyKey p' r' i' → p = p' ∧ r = r' ∧ i = i'.
Proof.
  intros W1 W2 W3 W4 W5 W6 H. unfold historyKey in H. apply app_inv_head in H.
  apply json_pair_inj in H as (-> & -> & H); [|done..].
  apply app_inv_head, json_quote_inj in H as [-> _]; done.
Qed.

Lemma with_key_iff p r i o :
  wf_str p → wf_str r → wf_str i → wf_texts o →
  with_key (historyKey p r i) o = true ↔
  eo_key o = {| hk_projectId := p; hk_runnerName := r; hk_historicalId := i |}.
Proof.
  intros W1 W2 W3 (W4 & W5 & W6). unfold with_key, key_of_occurrence. rewrite str_eqb_eq. split.
  - intros H%historyKey_inj; [|done..]. destruct (eo_key o); simpl in *. by destruct H as (-> & -> & ->).
  - intros E. by rewrite E.
Qed.

(** ** The blob catalogue *)

(** The references of a run to the bytes of one digest. *)
Definition refs_of (sha : str) (run : ProjectedRun) : list BlobReference :=
  (λ a, {| br_key := pr_key run; br_reference := a |}) <$>
    List.filter (λ a, str_eqb (ar_sha256 a) sha) (pr_attachments run).

Definition refs_in (blobs : jsmap str Blob) (sha : str) : list BlobReference :=
  default [] (b_references <$> mget blobs sha).

Lemma add_reference_refs run blobs a sha :
  refs_in (add_reference run blobs a) sha =
    refs_in blobs sha ++ (if str_eqb (ar_sha256 a) sha then [{| br_key := pr_key run; br_reference := a |}] else []).
Proof.
  unfold refs_in, add_reference. rewrite mget_mset, str_eqb_decide. case_decide as E; [|by rewrite app_nil_r].
  subst sha. by destruct (mget blobs (ar_sha256 a)).
Qed.

Lemma add_references_refs run blobs l sha :
  refs_in (foldl (add_reference run) blobs l) sha =
    refs_in blobs sha ++ ((λ a, {| br_key := pr_key run; br_reference := a |}) <$>
                          List.filter (λ a, str_eqb (ar_sha256 a) sha) l).
Proof.
  revert blobs. induction l as [|a l IH]; intros blobs; simpl; [by rewrite app_nil_r|].
  rewrite IH, add_reference_refs, <- app_assoc. by destruct (str_eqb (ar_sha256 a) sha).
Qed.

(** A blob says its own digest, and the size of every reference to it. *)
Definition sized (blobs : jsmap str Blob) : Prop :=
  ∀ sha bl, mget blobs sha = Some bl →
    b_sha256 bl = sha ∧ ∀ r, r ∈ b_references bl → ar_sizeBytes (br_reference r) = b_sizeBytes bl.

(** One size per digest within a run. *)
Definition one_size (l : list AttachmentReference) : Prop :=
  ∀ a a', a ∈ l → a' ∈ l → ar_sha256 a = ar_sha256 a' → ar_sizeBytes a = ar_sizeBytes a'.

Definition agrees (blobs : jsmap str Blob) (l : list AttachmentReference) : Prop :=
  ∀ a bl, a ∈ l → mget blobs (ar_sha256 a) = Some bl → b_sizeBytes bl = ar_sizeBytes a.

Lemma size_conflict_None blobs run : size_conflict blobs run = None → agrees blobs (pr_attachments run).
Proof.
  unfold size_conflict. rewrite find_None_iff. intros H a bl Ha Hb. specialize (H a Ha). simpl in H.
  rewrite Hb in H. by apply negb_false_iff, Z.eqb_eq in H.
Qed.

Lemma add_references_sized run blobs l :
  sized blobs → agrees blobs l → one_size l → sized (foldl (add_reference run) blobs l).
Proof.
  revert blobs. induction l as [|a l IH]; intros blobs Hs Ha H1; simpl; [done|]. apply IH.
  - intros sha bl. unfold add_reference. rewrite mget_mset. case_decide as E; [|apply Hs].
    intros [= <-]. subst sha. simpl. destruct (mget blobs (ar_sha256 a)) as [bl|] eqn:Eb; simpl.
    + destruct (Hs _ _ Eb) as [-> Hr]. split; [done|].
      intros r [Hr'| ->%list_elem_of_singleton]%elem_of_app; [auto|]. simpl. symmetry. apply (Ha a bl); [set_solver|done].
    + split; [done|]. intros r ->%list_elem_of_singleton. done.
  - intros a' bl Ha'. unfold add_reference. rewrite mget_mset. case_decide as E; [|apply Ha; set_solver].
    intros [= <-]. simpl. destruct (mget blobs (ar_sha256 a)) as [bl|] eqn:Eb; simpl.
    + rewrite E in Eb. apply Ha; [set_solver|done].
    + apply H1; [set_solver|set_solver|done].
  - intros x y Hx Hy. apply H1; set_solver.
Qed.

(** Acceptance keeps the catalogue in step with the accepted runs. *)
Record CatalogInv (s : Assembly) : Prop := {
  ci_refs sha : refs_in (as_blobs s) sha = mvalues (as_accepted s) ≫= refs_of sha;
  ci_sized : (∀ run, run ∈ mvalues (as_accepted s) → one_size (pr_attachments run)) → sized (as_blobs s);
  ci_NoDup : NoDup (mkeys (as_blobs s));
}.

Lemma add_references_NoDup run blobs l :
  NoDup (mkeys blobs) → NoDup (mkeys (foldl (add_reference run) blobs l)).
Proof.
  revert blobs. induction l as [|a l IH]; intros blobs H; simpl; [done|]. apply IH. by apply mset_NoDup.
Qed.

Lemma accept_group_catalog l s e :
  e.1 ∉ l.*1 → AssemblyInv l s → CatalogInv s → CatalogInv (accept_group s e).
Proof.
  destruct e as [k c]. intros Hfresh HI [C1 C2 C3]. unfold accept_group. simpl in *.
  destruct c as [|run [|r' c]]; try by constructor.
  destruct (size_conflict (as_blobs s) run) as [a|] eqn:E; [by constructor|].
  assert (mget (as_accepted s) k = None) as Hk.
  { destruct (mget (as_accepted s) k) eqn:Ek; [|done]. apply (ai_accepted _ _ HI) in Ek. exfalso.
    apply Hfresh, list_elem_of_fmap. by eexists (k, _). }
  assert (mvalues (mset (as_accepted s) k run) = mvalues (as_accepted s) ++ [run]) as Hmv.
  { unfold mvalues. rewrite mset_new by done. by rewrite fmap_app. }
  constructor; simpl.
  - intros sha. rewrite add_references_refs, C1, Hmv, bind_app. simpl. by rewrite app_nil_r.
  - rewrite Hmv. intros Hall. apply add_references_sized.
    + apply C2. intros. apply Hall. apply elem_of_app. by left.
    + by apply size_conflict_None.
    + apply Hall. apply elem_of_app. right. by apply list_elem_of_singleton.
  - by apply add_references_NoDup.
Qed.

Lemma accept_fold_catalog l :
  NoDup l.*1 → CatalogInv (foldl accept_group {| as_problems := []; as_accepted := []; as_blobs := [] |} l).
Proof.
  induction l as [|e l IH] using rev_ind; intros Hnd.
  { constructor; simpl; [done|by intros ???|constructor]. }
  rewrite fmap_app in Hnd. apply NoDup_app in Hnd as (Hl & Hdis & _). rewrite foldl_app. simpl.
  apply (accept_group_catalog l); [|by apply accept_fold_inv|auto].
  intros Hin. by apply (Hdis _ Hin), list_elem_of_singleton.
Qed.

Lemma accept_runs_catalog rs : CatalogInv (accept_runs rs).
Proof. apply accept_fold_catalog, grouped_NoDup. Qed.

Lemma getBlob_inv rs b sha bl :
  assemble rs = Ok b → getBlob (model b) sha = Some bl →
  ∃ raw, mget (as_blobs (accept_runs rs)) sha = Some raw ∧ bl = freeze_blob raw.
Proof.
  intros (_ & _ & Hb & _)%assemble_inv. unfold getBlob. rewrite Hb.
  change (prod_map id freeze_blob) with (λ kv : str * Blob, (kv.1, freeze_blob kv.2)). rewrite mget_fmap_snd.
  destruct (mget (sort _ _) sha) as [raw|] eqn:E; simpl; [|done]. intros [= <-].
  exists raw. split; [|done]. apply mget_elem in E. rewrite elem_of_sort in E.
  apply elem_mget; [apply (ci_NoDup _ (accept_runs_catalog rs))|done].
Qed.
