(* ===== verification/ReadModelProps.v ===== *)
(** * Properties of the read model

    The theorems about [assemble] and the queries, applied to a snapshot of two
    runs of the demo's test. *)

From Stdlib Require Import Sorting.Sorted Sorting.Permutation.
From S2P Require Import Prelude JsString JsMap JsSort Json Model Codec CodecProps History Validator ValidatorRun Demo ReadTypes HistoryOrder Projector ProjectorSpec ProjectorProps ReadModel ReadModelSpec.

Local Open Scope Z_scope.

(** ** What the theorems speak of *)

(** Every text a key is made of is a sequence of UTF-16 code units. *)
Definition wf_run (run : ProjectedRun) : Prop :=
  wf_str (k_projectId (pr_key run)) ∧ wf_str (k_runId (pr_key run)) ∧
  ∀ o, o ∈ historyOccurrencesOf run → wf_texts o.

(** A run was left out, and a problem says so. *)
Definition left_out (run : ProjectedRun) (ps : list IngestionProblem) : Prop :=
  ∃ p, p ∈ ps ∧ ip_runDirectory p = pr_runDirectory run ∧ ip_projectId p = k_projectId (pr_key run) ∧
    ip_runId p = Some (k_runId (pr_key run)) ∧ (ip_code p = I_DUPLICATE_RUN ∨ ip_code p = I_BLOB_SIZE_CONFLICT).

(** An execution of a historical test, in a run of the snapshot. *)
Definition occurs (m : ReadModel) (key : HistoryKey) (run : ProjectedRun) (te : TestExecution) : Prop :=
  run ∈ runs m ∧ te ∈ pr_executions run ∧ k_projectId (pr_key run) = hk_projectId key ∧
  te_runnerName te = Some (hk_runnerName key) ∧ t_historicalId (te_test te) = Some (hk_historicalId key).

(** ** Lemmas *)

Lemma assemble_ok_order rs rs' :
  one_run_per_directory rs → rs ≡ₚ rs' →
  (∀ b, assemble rs = Ok b → ∃ b', assemble rs' = Ok b' ∧ model b' = model b ∧ problems b' ≡ₚ problems b) ∧
  (∀ e, assemble rs = Throw e → assemble rs' = Throw e).
Proof.
  intros H1 Hp. destruct (accept_runs_Permutation rs rs' H1 Hp) as (Ha & Hb & Hpr).
  unfold assemble. rewrite <- Ha, <- Hb. destruct (mapMi _ _) as [h|e']; simpl.
  - split; [|done]. intros b [= <-]. eexists. split; [done|]. simpl. by split.
  - split; [done|]. by intros e [= ->].
Qed.

Lemma run_in_model rs b run :
  assemble rs = Ok b → run ∈ runs (model b) ↔ mget (runsByKey (model b)) (run_key_of run) = Some run.
Proof.
  intros (Ha & _)%assemble_inv. rewrite runs_Permutation, Ha.
  rewrite elem_of_mvalues by apply (ai_NoDup _ _ (accept_runs_inv rs)). split; [|eauto].
  intros [k Hk]. by destruct (accepted_sole _ _ _ Hk) as [-> _].
Qed.

Lemma model_run_of rs b run :
  assemble rs = Ok b → run ∈ runs (model b) →
  run ∈ rs ∧ ∀ r, r ∈ rs → run_key_of r = run_key_of run → pr_runDirectory r = pr_runDirectory run.
Proof.
  intros Hb Hin. rewrite (run_in_model rs b run Hb) in Hin.
  apply assemble_inv in Hb as (Ha & _). rewrite Ha in Hin.
  destruct (accepted_sole _ _ _ Hin) as (_ & Hs & Hrs). split; [done|].
  intros r Hr Hk. destruct (candidate_for _ _ _ Hr Hk) as (r' & Hr' & Hd).
  unfold sole_candidate in Hs. rewrite Hs in Hr'. apply list_elem_of_singleton in Hr'. by subst.
Qed.

Lemma accounted rs b run :
  assemble rs = Ok b → run ∈ rs →
  ∃ r, r ∈ rs ∧ run_key_of r = run_key_of run ∧ pr_runDirectory r = pr_runDirectory run ∧
       (r ∈ runs (model b) ∨ left_out r (problems b)).
Proof.
  intros Hb Hin. destruct (candidate_for (run_key_of run) rs run Hin eq_refl) as (r & Hr & Hd).
  pose proof (candidate_from _ _ _ Hr) as [Hrs Hk].
  exists r. split_and!; try done. rewrite (run_in_model rs b r Hb).
  apply assemble_inv in Hb as (Ha & Hpr & _). rewrite Ha, Hpr, Hk.
  apply (ai_accounts _ _ (accept_runs_inv rs) _ _ r (grouped_has rs run Hin) Hr).
Qed.

Lemma occurrence_of_inv run te o :
  occurrence_of run te = Some o →
  hk_projectId (eo_key o) = k_projectId (pr_key run) ∧ te_runnerName te = Some (hk_runnerName (eo_key o)) ∧
  t_historicalId (te_test te) = Some (hk_historicalId (eo_key o)) ∧ eo_flaky o = te_flaky te ∧
  eo_runId o = k_runId (pr_key run) ∧ eo_executionId o = te_executionId te.
Proof.
  unfold occurrence_of. destruct (t_historicalId (te_test te)); [|done].
  destruct (te_runnerName te); [|done]. destruct (te_attempts te); [done|]. by intros [= <-].
Qed.

Lemma occurrence_of_Some run te r i :
  te_attempts te ≠ [] → te_runnerName te = Some r → t_historicalId (te_test te) = Some i →
  ∃ o, occurrence_of run te = Some o ∧
       eo_key o = {| hk_projectId := k_projectId (pr_key run); hk_runnerName := r; hk_historicalId := i |}.
Proof. unfold occurrence_of. intros Hne -> ->. destruct (te_attempts te); [done|]. by eexists. Qed.

Section snapshot.
Context (rs : list ProjectedRun) (b : ReadModelBuild).
Context (Hb : assemble rs = Ok b) (Hwf : Forall wf_run rs).

Lemma model_wf run : run ∈ runs (model b) → wf_run run.
Proof using Hb Hwf.
  intros Hin. destruct (model_run_of rs b run Hb Hin) as [Hrs _]. rewrite Forall_forall in Hwf. auto.
Qed.

Lemma history_exact p r i :
  wf_str p → wf_str r → wf_str i →
  let l := default [] (mget (history_ (model b)) (historyKey p r i)) in
  l ≡ₚ List.filter (λ o, bool_decide (eo_key o = {| hk_projectId := p; hk_runnerName := r; hk_historicalId := i |}))
        (runs (model b) ≫= historyOccurrencesOf) ∧
  StronglySorted in_history_order l.
Proof using Hb Hwf.
  intros Wp Wr Wi. destruct (history_get rs b (historyKey p r i) Hb) as [Hp Hs]. split; [|done].
  rewrite Hp.
  rewrite (List.filter_ext_in (with_key (historyKey p r i))
    (λ o, bool_decide (eo_key o = {| hk_projectId := p; hk_runnerName := r; hk_historicalId := i |}))).
  - apply filter_Permutation. by rewrite runs_Permutation.
  - intros o Ho%list_elem_of_In. apply eq_bool_prop_intro. rewrite !Is_true_true, bool_decide_eq_true.
    apply with_key_iff; try done. apply list_elem_of_bind in Ho as (run & Ho & Hrun).
    apply (model_wf run); [|done]. by rewrite runs_Permutation.
Qed.
End snapshot.

(** ** A snapshot of the demo *)

Definition renamed (runId dir : str) (run : ProjectedRun) : ProjectedRun :=
  {| pr_key := {| k_projectId := k_projectId (pr_key run); k_runId := runId |}; pr_runDirectory := dir;
     pr_validator := pr_validator run; pr_sessions := pr_sessions run; pr_executions := pr_executions run;
     pr_scopeFailures := pr_scopeFailures run; pr_attachments := pr_attachments run |}.

(** Two runs of the project, and one run id found in two directories. *)
Definition demo_runs : list ProjectedRun :=
  [renamed (js "r2") (js "d2") demo_projected; renamed (js "r1") (js "d1") demo_projected;
   renamed (js "r3") (js "d4") demo_projected; renamed (js "r3") (js "d3") demo_projected].

Definition no_build : ReadModelBuild :=
  {| model := {| runsByKey := []; history_ := []; blobsBySha := [] |}; problems := [] |}.
Definition demo_build : ReadModelBuild := from_ok no_build (assemble demo_runs).

Lemma demo_build_ok : assemble demo_runs = Ok demo_build.
Proof. apply from_ok_spec. by vm_compute. Qed.

Definition wf_str_b (s : str) : bool := forallb (λ u, (u <? 65536)%N) s.
Lemma wf_str_of s : wf_str_b s = true → wf_str s.
Proof.
  intros H. apply Forall_forall. intros u Hu. unfold wf_str_b in H. rewrite forallb_elem in H.
  by apply N.ltb_lt, H.
Qed.

Definition wf_run_b (run : ProjectedRun) : bool :=
  wf_str_b (k_projectId (pr_key run)) && wf_str_b (k_runId (pr_key run)) &&
  forallb (λ o, wf_str_b (hk_projectId (eo_key o)) && wf_str_b (hk_runnerName (eo_key o)) &&
                wf_str_b (hk_historicalId (eo_key o))) (historyOccurrencesOf run).
Lemma wf_run_of run : wf_run_b run = true → wf_run run.
Proof.
  unfold wf_run_b. rewrite !andb_true_iff, forallb_elem. intros [[H1 H2] H3].
  split_and!; [by apply wf_str_of|by apply wf_str_of|]. intros o Ho. specialize (H3 o Ho).
  rewrite !andb_true_iff in H3. destruct H3 as [[]]. split_and!; by apply wf_str_of.
Qed.

Lemma demo_runs_wf : Forall wf_run demo_runs.
Proof.
  assert (forallb wf_run_b demo_runs = true) as H by (vm_compute; reflexivity).
  rewrite forallb_elem in H. apply Forall_forall. intros run Hr. by apply wf_run_of, H.
Qed.

Definition distinct_places (rs : list ProjectedRun) : bool :=
  bool_decide (NoDup ((λ r, (run_key_of r, pr_runDirectory r)) <$> rs)).
Lemma one_run_of rs : distinct_places rs = true → one_run_per_directory rs.
Proof.
  unfold distinct_places. rewrite bool_decide_eq_true. intros Hnd r r' Hr Hr' Hk Hd.
  apply list_elem_of_lookup_1 in Hr as [i Hi], Hr' as [j Hj].
  assert (i = j) as ->; [|congruence].
  eapply NoDup_lookup; [exact Hnd| |]; rewrite list_lookup_fmap, ?Hi, ?Hj; [done|]. simpl. by rewrite Hk, Hd.
Qed.

Lemma demo_runs_distinct : one_run_per_directory demo_runs.
Proof. apply one_run_of. vm_compute. reflexivity. Qed.

Lemma demo_projected_wf : run_wf demo_projected.
Proof. exact (projectRun_run_wf _ _ _ _ demo_projected_ok). Qed.

Lemma renamed_wf runId dir run : run_wf run → run_wf (renamed runId dir run).
Proof. by intros []. Qed.

Lemma demo_runs_run_wf : Forall run_wf demo_runs.
Proof.
  do 4 (apply Forall_cons; split; [exact (renamed_wf _ _ _ demo_projected_wf)|]). apply Forall_nil. exact I.
Qed.

(** ** Properties *)

(** C32 The order runs are given in never changes the snapshot: any rearrangement of the same runs
    (a run directory naming one run under one key) assembles to the same model, with the same
    problems up to their order, or is refused with the same error. *)
Theorem assemble_ignores_order rs rs' :
  one_run_per_directory rs → rs ≡ₚ rs' →
  (∀ b, assemble rs = Ok b → ∃ b', assemble rs' = Ok b' ∧ model b' = model b ∧ problems b' ≡ₚ problems b) ∧
  (∀ e, assemble rs = Throw e → assemble rs' = Throw e).
Proof. apply assemble_ok_order. Qed.

Lemma assemble_ignores_order_witness :
  ∃ b', assemble (rev demo_runs) = Ok b' ∧ model b' = model demo_build ∧ length (problems b') = 2%nat.
Proof.
  destruct (proj1 (assemble_ignores_order demo_runs (rev demo_runs) demo_runs_distinct
    (Permutation_rev demo_runs)) demo_build demo_build_ok) as (b' & H1 & H2 & H3).
  exists b'. split; [exact H1|]. split; [exact H2|]. rewrite H3. vm_compute. reflexivity.
Defined.

(** C33 Nothing is lost and nothing is guessed: every run given is in the model or named by a
    problem, together with its directory, project and run id; and a run of the model is one that
    was given, whose key no other directory claims. *)
Theorem assemble_accounts_for_every_run rs b :
  assemble rs = Ok b →
  (∀ run, run ∈ rs → ∃ r, r ∈ rs ∧ run_key_of r = run_key_of run ∧ pr_runDirectory r = pr_runDirectory run ∧
     (r ∈ runs (model b) ∨ left_out r (problems b))) ∧
  (∀ run, run ∈ runs (model b) → run ∈ rs ∧
     ∀ r, r ∈ rs → run_key_of r = run_key_of run → pr_runDirectory r = pr_runDirectory run).
Proof.
  intros Hb. split; intros run Hin; [by apply accounted|by apply (model_run_of rs b)].
Qed.

Lemma assemble_accounts_for_every_run_witness :
  (k_runId ∘ pr_key <$> runs (model demo_build)) = [js "r1"; js "r2"] ∧
  ∃ r, r ∈ demo_runs ∧ pr_runDirectory r = js "d3" ∧ (r ∈ runs (model demo_build) ∨ left_out r (problems demo_build)).
Proof.
  split; [vm_compute; reflexivity|].
  destruct (proj1 (assemble_accounts_for_every_run demo_runs demo_build demo_build_ok)
    (renamed (js "r3") (js "d3") demo_projected)) as (r & H1 & _ & H3 & H4).
  { unfold demo_runs. apply list_elem_of_In. simpl. auto. }
  exists r. split; [exact H1|]. split; [exact H3|exact H4].
Defined.

(** [getRun] stays inside the project it is asked about and finds exactly the run of that key:
    what it returns carries the project and run id asked for, and a run of the model with that key is
    found. *)
Theorem getRun_exact rs b p r o run :
  assemble rs = Ok b → Forall wf_run rs → wf_str p → wf_str r → getRun (model b) p r = Ok o →
  o = Some run ↔ run ∈ runs (model b) ∧ pr_key run = {| k_projectId := p; k_runId := r |}.
Proof.
  intros Hb Hwf Wp Wr Hg. unfold getRun in Hg. apply bind_Ok_inv in Hg as (_ & _ & [= <-]).
  rewrite (run_in_model rs b run Hb). split.
  - intros Hk. pose proof Hb as (Ha & _)%assemble_inv. rewrite Ha in *.
    destruct (accepted_sole _ _ _ Hk) as (E & _ & Hin). unfold run_key_of in E.
    rewrite Forall_forall in Hwf. destruct (Hwf run Hin) as (W1 & W2 & _).
    apply runKey_inj in E as [-> ->]; [|done..]. split; [exact Hk|]. by destruct (pr_key run).
  - intros [Hk E]. unfold run_key_of in Hk. by rewrite E in Hk.
Qed.

Lemma getRun_exact_witness :
  getRun (model demo_build) (js "p") (js "r1") = Ok (Some (renamed (js "r1") (js "d1") demo_projected)) ∧
  renamed (js "r1") (js "d1") demo_projected ∈ runs (model demo_build).
Proof.
  assert (getRun (model demo_build) (js "p") (js "r1") = Ok (Some (renamed (js "r1") (js "d1") demo_projected))) as H
    by (vm_compute; reflexivity).
  split; [exact H|].
  exact (proj1 (proj1 (getRun_exact demo_runs demo_build _ _ _ _ demo_build_ok demo_runs_wf
    (wf_str_of (js "p") eq_refl) (wf_str_of (js "r1") eq_refl) H) eq_refl)).
Defined.

(** C35 A test's history is exact: it holds, each as often as it occurred, exactly the occurrences
    of that project, runner and historical id in the runs of the snapshot, and no others; and
    in history order: no occurrence is followed by one the comparator puts before it. *)
Theorem getTestHistory_exact rs b key th :
  assemble rs = Ok b → Forall wf_run rs →
  wf_str (hk_projectId key) → wf_str (hk_runnerName key) → wf_str (hk_historicalId key) →
  getTestHistory (model b) (hk_projectId key) (hk_runnerName key) (hk_historicalId key) = Ok th →
  th_occurrences th ≡ₚ List.filter (λ o, bool_decide (eo_key o = key)) (runs (model b) ≫= historyOccurrencesOf) ∧
  StronglySorted in_history_order (th_occurrences th).
Proof.
  intros Hb Hwf W1 W2 W3 Hg. unfold getTestHistory in Hg. apply bind_Ok_inv in Hg as (_ & _ & [= <-]). simpl.
  destruct key as [p r i]. by apply (history_exact rs b Hb Hwf).
Qed.

Definition demo_key : HistoryKey :=
  {| hk_projectId := js "p"; hk_runnerName := js "playwright"; hk_historicalId := js "h1" |}.

Lemma getTestHistory_exact_witness :
  ∃ th, getTestHistory (model demo_build) (js "p") (js "playwright") (js "h1") = Ok th ∧
    length (th_occurrences th) = 2%nat ∧ StronglySorted in_history_order (th_occurrences th).
Proof.
  eexists. split; [reflexivity|]. split; [vm_compute; reflexivity|].
  refine (proj2 (getTestHistory_exact demo_runs demo_build demo_key _ demo_build_ok demo_runs_wf _ _ _ _)).
  - apply (wf_str_of (js "p")). vm_compute. reflexivity.
  - apply (wf_str_of (js "playwright")). vm_compute. reflexivity.
  - apply (wf_str_of (js "h1")). vm_compute. reflexivity.
  - reflexivity.
Defined.

(** A test was ever flaky exactly when, in some run of the snapshot, an execution of it was; and
    the counters are those of its history. *)
Theorem getFlakiness_exact rs b key f :
  assemble rs = Ok b → Forall wf_run rs → Forall run_wf rs →
  wf_str (hk_projectId key) → wf_str (hk_runnerName key) → wf_str (hk_historicalId key) →
  getFlakiness (model b) (hk_projectId key) (hk_runnerName key) (hk_historicalId key) = Ok f →
  (everFlaky f = true ↔ ∃ run te, occurs (model b) key run te ∧ te_flaky te = true) ∧
  (everFlaky f = true ↔ 0 < flakyOccurrences f) ∧ 0 <= flakyOccurrences f <= totalOccurrences f.
Proof.
  intros Hb Hwf Hrw W1 W2 W3 Hg. unfold getFlakiness, getTestHistory in Hg.
  apply bind_Ok_inv in Hg as (th & Hth & [= <-]). apply bind_Ok_inv in Hth as (_ & _ & [= <-]). simpl.
  destruct (history_exact rs b Hb Hwf _ _ _ W1 W2 W3) as [Hp _]. revert Hp.
  generalize (default [] (mget (history_ (model b)) (historyKey (hk_projectId key) (hk_runnerName key) (hk_historicalId key)))).
  intros l Hp. rewrite Nat.ltb_lt. split_and!; [|lia|lia|].
  - assert ((0 < length (List.filter eo_flaky l))%nat ↔ ∃ o, o ∈ l ∧ eo_flaky o = true) as ->.
    { setoid_rewrite <- elem_of_filter_b. destruct (List.filter eo_flaky l); simpl.
      - split; [lia|]. by intros (o & ?%elem_of_nil).
      - split; [|lia]. intros _. eexists. by left. }
    setoid_rewrite Hp. setoid_rewrite elem_of_filter_b. setoid_rewrite list_elem_of_bind.
    setoid_rewrite bool_decide_eq_true. split.
    + intros (o & [(run & Ho & Hrun) Hk] & Hf). unfold historyOccurrencesOf in Ho.
      apply list_elem_of_omap in Ho as (te & Hte & Ho).
      destruct (occurrence_of_inv _ _ _ Ho) as (E1 & E2 & E3 & E4 & _). rewrite Hk in *. simpl in *.
      exists run, te. split; [|congruence]. split_and!; done.
    + intros (run & te & (Hrun & Hte & E1 & E2 & E3) & Hf).
      assert (te_attempts te ≠ []) as Hne.
      { destruct (model_run_of rs b run Hb Hrun) as [Hrs _]. rewrite Forall_forall in Hrw.
        pose proof (ew_final _ (rw_execution _ (Hrw run Hrs) te Hte)). by destruct (te_attempts te). }
      destruct (occurrence_of_Some run te _ _ Hne E2 E3) as (o & Ho & Hk).
      exists o. rewrite E1 in Hk. split; [|by destruct (occurrence_of_inv _ _ _ Ho) as (_ & _ & _ & -> & _)].
      split; [|destruct key; exact Hk]. exists run. split; [|done]. apply list_elem_of_omap. eauto.
  - pose proof (List.filter_length_le eo_flaky l). lia.
Qed.

Lemma getFlakiness_exact_witness :
  ∃ run te, occurs (model demo_build) demo_key run te ∧ te_flaky te = true.
Proof.
  refine (proj1 (proj1 (getFlakiness_exact demo_runs demo_build demo_key _ demo_build_ok demo_runs_wf
    demo_runs_run_wf _ _ _ eq_refl)) _); try (apply wf_str_of; vm_compute; reflexivity).
  vm_compute. reflexivity.
Defined.

(** The blob catalogue is exact: the references of a digest are, each as often as it occurs, the
    references to it in the runs of the model; and, when every run gives one size per digest, the
    catalogue's size is the size every reference declares. *)
Theorem getBlob_exact rs b sha bl :
  assemble rs = Ok b → getBlob (model b) sha = Some bl →
  b_references bl ≡ₚ runs (model b) ≫= refs_of sha ∧
  ((∀ run, run ∈ runs (model b) → one_size (pr_attachments run)) →
     b_sha256 bl = sha ∧ ∀ r, r ∈ b_references bl → ar_sizeBytes (br_reference r) = b_sizeBytes bl).
Proof.
  intros Hb Hg. destruct (getBlob_inv _ _ _ _ Hb Hg) as (raw & Hraw & ->).
  pose proof (accept_runs_catalog rs) as HC. pose proof Hb as (Ha & _)%assemble_inv.
  assert (b_references (freeze_blob raw) ≡ₚ b_references raw) as Hs
    by apply (sort_Permutation (cmp_on br_key compareSources)).
  split.
  - rewrite Hs, runs_Permutation, Ha, <- (ci_refs _ HC sha). unfold refs_in. by rewrite Hraw.
  - intros H1. destruct (ci_sized _ HC) with (sha := sha) (bl := raw) as [E Hr]; [|done|].
    { intros run Hin. apply H1. by rewrite runs_Permutation, Ha. }
    split; [done|]. intros r. rewrite Hs. apply Hr.
Qed.

(** A run of two attachments under one digest. *)
Definition attachment_of (size : Z) : AttachmentReference :=
  {| ar_sessionId := js "s1"; ar_attemptId := js "a1"; ar_stepId := None; ar_name := js "log";
     ar_mediaType := js "text/plain"; ar_sizeBytes := size; ar_sha256 := js "beef" |}.

Definition blob_run (runId : str) (sizes : list Z) : ProjectedRun :=
  {| pr_key := {| k_projectId := js "p"; k_runId := runId |}; pr_runDirectory := runId;
     pr_validator := {| vf_complete := true; vf_closed := true; vf_verdict := VPassed;
                        vf_ignoredEvents := 0; vf_duplicateEvents := 0 |};
     pr_sessions := []; pr_executions := []; pr_scopeFailures := []; pr_attachments := attachment_of <$> sizes |}.

(** The third run contradicts the size the catalogue knows. *)
Definition blob_runs : list ProjectedRun :=
  [blob_run (js "r1") [3]; blob_run (js "r2") [3; 3]; blob_run (js "r3") [4]].
Definition blob_build : ReadModelBuild := from_ok no_build (assemble blob_runs).

Lemma getBlob_exact_witness :
  (ip_code <$> problems blob_build) = [I_BLOB_SIZE_CONFLICT] ∧
  ∃ bl, getBlob (model blob_build) (js "beef") = Some bl ∧
    length (b_references bl) = length (runs (model blob_build) ≫= refs_of (js "beef")) ∧
    length (b_references bl) = 3%nat.
Proof.
  split; [vm_compute; reflexivity|].
  assert (assemble blob_runs = Ok blob_build) as Hb by (apply from_ok_spec; vm_compute; reflexivity).
  assert (is_Some (getBlob (model blob_build) (js "beef"))) as [bl Hg] by (vm_compute; eauto).
  exists bl. split; [exact Hg|]. destruct (getBlob_exact _ _ _ _ Hb Hg) as [Hp _].
  split; [by rewrite Hp|]. rewrite Hp. vm_compute. reflexivity.
Defined.

(** A run that declares one digest with two sizes contradicts the catalogue it is the first entry of;
    it is accepted all the same, under its first size. *)
Theorem one_run_two_sizes_accepted :
  ∃ b bl, assemble [blob_run (js "r1") [3; 5]] = Ok b ∧ problems b = [] ∧
    getBlob (model b) (js "beef") = Some bl ∧ b_sizeBytes bl = 3 ∧
    (λ r, ar_sizeBytes (br_reference r)) <$> b_references bl = [3; 5].
Proof. do 2 eexists. split; [reflexivity|]. split; [reflexivity|]. split; [reflexivity|]. by split. Qed.
