(* ===== verification/Ingest.v ===== *)
(** * Discovery, ingestion and the build of a read model

    discovery.ts, ingest.ts and [buildReadModel] of read-model.ts: which run
    directories an output root holds, what becomes of each, and the snapshot of
    all sources. The file system is a parameter: the validator's, and beside it
    what [existsSync], [readdirSync] and [Error.message] answer. *)

From S2P Require Import Prelude JsString JsMap JsSort Json Model Validator ValidatorRun ReadTypes HistoryOrder Projector ReadModel.

Local Open Scope Z_scope.

(** The file system as the read model sees it; a [Dirent] is a name and its kind. *)
Record ReadFs := {
  rfs : FileSystem;
  existsSync : str → bool;
  readdirSync : str → res Errno (list str);
  readdirTypes : str → res Errno (list (str * StatKind));
  errno_message : Errno → str;
}.

(** What escapes as an exception. *)
Inductive ReadError :=
| TypeErrorR (message : str)
| RangeErrorR (message : str)
| FsErrorR (e : Errno)
| PlainErrorR (message : str).

(** An exception of one kind seen as one of these. *)
Definition rethrow {E A : Type} (f : E → ReadError) (m : res E A) : res ReadError A :=
  match m with Ok a => Ok a | Throw e => Throw (f e) end.

(** ** discovery.ts *)

Definition RUNS_DIR : str := js "runs".

Record Discovery := {
  ds_outputRoot : str; ds_runsDirectory : str; ds_runDirectories : list str;
  ds_problems : list DiscoveryProblem;
}.

Section fs.
Context (fs : ReadFs).
Abbreviation join_path := (fsys_join (rfs fs)).

(** [statOrUndefined] *)
Definition statOrUndefined (path : str) : option StatKind :=
  match fsys_lstat (rfs fs) path with Ok k => Some k | Throw _ => None end.

Definition discovery_problem (code : DiscoveryProblemCode) (path message : str) : DiscoveryProblem :=
  {| dp_code := code; dp_path := path; dp_message := message |}.

(** The body of the loop over the entries: a run directory, or a problem. *)
Definition discover_entry (runsDirectory : str) (entry : str * StatKind) : str + DiscoveryProblem :=
  let path := join_path runsDirectory entry.1 in
  match entry.2 with
  | KSymlink => inr (discovery_problem SYMLINK_SKIPPED path (js "symbolic link not followed"))
  | KDirectory =>
      let events := join_path path (js "events") in
      match statOrUndefined events with
      | Some KSymlink =>
          inr (discovery_problem SYMLINK_SKIPPED events (js "events directory is a symbolic link, not followed"))
      | Some KDirectory => inl path
      | _ => inr (discovery_problem NO_EVENTS_DIRECTORY path (js "no events directory"))
      end
  | _ => inr (discovery_problem NOT_A_DIRECTORY path (js "not a directory"))
  end.

Definition found (x : str + DiscoveryProblem) : option str := match x with inl p => Some p | inr _ => None end.
Definition refused (x : str + DiscoveryProblem) : option DiscoveryProblem :=
  match x with inl _ => None | inr p => Some p end.

(** [discoverRunDirectories] *)
Definition discoverRunDirectories (outputRoot : str) : res Errno Discovery :=
  let runsDirectory := join_path outputRoot RUNS_DIR in
  match statOrUndefined runsDirectory with
  | Some KSymlink =>
      Ok {| ds_outputRoot := outputRoot; ds_runsDirectory := runsDirectory; ds_runDirectories := [];
            ds_problems := [discovery_problem SYMLINK_SKIPPED runsDirectory
                              (RUNS_DIR ++ js " is a symbolic link, not followed")] |}
  | Some KDirectory =>
      entries ← readdirTypes fs runsDirectory;
      let results := discover_entry runsDirectory <$> sort (cmp_on fst compare) entries in
      Ok {| ds_outputRoot := outputRoot; ds_runsDirectory := runsDirectory;
            ds_runDirectories := omap found results; ds_problems := omap refused results |}
  | _ =>
      Ok {| ds_outputRoot := outputRoot; ds_runsDirectory := runsDirectory; ds_runDirectories := [];
            ds_problems := [discovery_problem RUNS_DIRECTORY_MISSING runsDirectory
                              (js "no " ++ RUNS_DIR ++ js " directory below the output root")] |}
  end.

(** ** ingest.ts *)

Inductive ProjectionResult := Projected (run : ProjectedRun) | Rejected (problem : IngestionProblem).

(** The first name of a directory that is not a regular file. *)
Fixpoint irregular_in (dir : str) (names : list str) : res Errno (option (str * bool)) :=
  match names with
  | [] => Ok None
  | name :: names' =>
      let path := join_path dir name in
      kind ← fsys_lstat (rfs fs) path;
      match kind with
      | KSymlink => Ok (Some (path, true))
      | KFile => irregular_in dir names'
      | _ => Ok (Some (path, false))
      end
  end.

Definition irregular_collection (runDirectory collection : str) : res Errno (option (str * bool)) :=
  let dir := join_path runDirectory collection in
  match readdirSync fs dir with
  | Throw _ => Ok None
  | Ok names => irregular_in dir (sort compare names)
  end.

(** [irregularEntry] *)
Definition irregularEntry (runDirectory : str) : res Errno (option (str * bool)) :=
  e ← irregular_collection runDirectory (js "events");
  match e with
  | Some x => Ok (Some x)
  | None => irregular_collection runDirectory (js "attachments")
  end.

Definition rejected (code : IngestionProblemCode) (projectId runDirectory : str) (runId : option str)
    (detail : option AmbiguityDetail) (message : str) (diagnostics : list Diagnostic) : ProjectionResult :=
  Rejected {| ip_code := code; ip_projectId := projectId; ip_runDirectory := runDirectory; ip_runId := runId;
              ip_detail := detail; ip_message := message; ip_diagnostics := diagnostics |}.

Definition no_options : ValidateOptions :=
  {| opt_attachmentsDir := None; opt_requireComplete := false; opt_maxEventBytes := None;
     opt_retainEvents := None; opt_retainSourceLines := false |}.

Context (json_parse : str → json + str).
Context (schema : option str → json → option (list ErrorObject)).
Context (sha256_utf8 : str → str).

Definition first_run_id (events : list Event) : option str := (λ e, runId (e_env e)) <$> head events.

(** What becomes of a snapshot. *)
Definition project_snapshot (projectId runDirectory : str) (snapshot : ValidatedRun)
    : res ReadError ProjectionResult :=
  if negb (r_valid (vr_report snapshot)) then
    Ok (rejected I_RUN_INVALID projectId runDirectory (first_run_id (vr_events snapshot)) None
          (js "the validator rejected the run") (List.filter is_error (r_diagnostics (vr_report snapshot))))
  else if (length (vr_events snapshot) =? 0)%nat then
    Ok (rejected I_EMPTY_RUN projectId runDirectory None None
          (js "no event was accepted, so the directory names no run") [])
  else
    match projectRun projectId runDirectory snapshot with
    | Ok run => Ok (Projected run)
    | Throw (AmbiguousRunError detail _ message) =>
        Ok (rejected I_PROJECTION_AMBIGUOUS projectId runDirectory (first_run_id (vr_events snapshot))
              (Some detail) message [])
    | Throw (PlainError message) => Throw (PlainErrorR message)
    end.

(** [projectRunDirectory] *)
Definition projectRunDirectory (projectId runDirectory : str) : res ReadError ProjectionResult :=
  _ ← rethrow TypeErrorR (checkProjectId projectId);
  if negb (existsSync fs (join_path runDirectory (js "events"))) then
    Ok (rejected I_NOT_A_RUN_DIRECTORY projectId runDirectory None None (js "no events directory") [])
  else
    irregular ← rethrow FsErrorR (irregularEntry runDirectory);
    match irregular with
    | Some (path, symlink) =>
        Ok (rejected (if symlink : bool then I_DISCOVERY SYMLINK_SKIPPED else I_NOT_A_REGULAR_FILE)
              projectId runDirectory None None (path ++ js " is not a regular file") [])
    | None =>
        match validateRunDirectorySnapshot json_parse schema sha256_utf8 (rfs fs) runDirectory no_options with
        | Throw e =>
            Ok (rejected I_VALIDATION_ERROR projectId runDirectory None None
                  (js "the validator failed: " ++ errno_message fs e) [])
        | Ok snapshot => project_snapshot projectId runDirectory snapshot
        end
    end.

(** ** buildReadModel *)

(** A source: the properties it has. *)
Record ReadModelSource := { src_projectId : str; src_outputRoot : option str; src_runDirectory : option str }.

(** The local variables of [buildReadModel]. *)
Record Gathered := { ga_runs : list ProjectedRun; ga_problems : list IngestionProblem }.

Definition discovery_to_ingestion (projectId : str) (p : DiscoveryProblem) : IngestionProblem :=
  {| ip_code := I_DISCOVERY (dp_code p); ip_projectId := projectId; ip_runDirectory := dp_path p;
     ip_runId := None; ip_detail := None; ip_message := dp_message p; ip_diagnostics := [] |}.

Fixpoint gather_directories (projectId : str) (directories : list str) (g : Gathered)
    : res ReadError Gathered :=
  match directories with
  | [] => Ok g
  | d :: ds =>
      r ← projectRunDirectory projectId d;
      gather_directories projectId ds
        (match r with
         | Projected run => {| ga_runs := ga_runs g ++ [run]; ga_problems := ga_problems g |}
         | Rejected p => {| ga_runs := ga_runs g; ga_problems := ga_problems g ++ [p] |}
         end)
  end.

(** The body of the loop over the sources. *)
Definition gather_source (source : ReadModelSource) (g : Gathered) : res ReadError Gathered :=
  let projectId := src_projectId source in
  _ ← rethrow TypeErrorR (checkProjectId projectId);
  match src_runDirectory source, src_outputRoot source with
  | Some _, Some _ =>
      Throw (TypeErrorR (js "a source names either an output root or a run directory, not both"))
  | Some d, None => gather_directories projectId [d] g
  | None, Some root =>
      discovery ← rethrow FsErrorR (discoverRunDirectories root);
      gather_directories projectId (ds_runDirectories discovery)
        {| ga_runs := ga_runs g;
           ga_problems := ga_problems g ++ (discovery_to_ingestion projectId <$> ds_problems discovery) |}
  | None, None =>
      Throw (TypeErrorR (js "The 'path' argument must be of type string. Received undefined"))
  end.

Fixpoint gather_sources (sources : list ReadModelSource) (g : Gathered) : res ReadError Gathered :=
  match sources with
  | [] => Ok g
  | s :: ss => g' ← gather_source s g; gather_sources ss g'
  end.

(** [buildReadModel] *)
Definition buildReadModel (sources : list ReadModelSource) : res ReadError ReadModelBuild :=
  g ← gather_sources sources {| ga_runs := []; ga_problems := [] |};
  assembled ← rethrow RangeErrorR (assemble (ga_runs g));
  Ok {| model := model assembled; problems := ga_problems g ++ problems assembled |}.

End fs.
