(* ===== verification/IngestSpec.v ===== *)
(** * Discovery and ingestion: their contract

    What a run directory becomes, what discovery lists, and that a built read
    model does not depend on the order of its sources. *)

From Stdlib Require Import Sorting.Sorted Sorting.Permutation.
From S2P Require Import Prelude JsString JsMap JsSort Json Model Codec CodecProps History Validator ValidatorRun Demo ValidatorTables ValidatorSound ValidatorReport ValidatorSpec ReadTypes HistoryOrder Projector ProjectorSpec ProjectorProps ReadModel ReadModelSpec ReadModelProps Ingest.

Local Open Scope Z_scope.

(** ** Ingestion of one directory *)

Section ingest.
Context (fs : ReadFs) (json_parse : str → json + str).
Context (schema : option str → json → option (list ErrorObject)) (sha : str → str).
Abbreviation ingest := (projectRunDirectory fs json_parse schema sha).
Abbreviation validate d := (validateRunDirectorySnapshot json_parse schema sha (rfs fs) d no_options).

Lemma project_snapshot_total pid d vr :
  validate d = Ok vr →
  (∃ run, project_snapshot pid d vr = Ok (Projected run) ∧ projectRun pid d vr = Ok run ∧
          r_valid (vr_report vr) = true) ∨
  (∃ p, project_snapshot pid d vr = Ok (Rejected p) ∧ (ip_code p = I_RUN_INVALID ∨ ip_code p = I_EMPTY_RUN)).
Proof.
  intros Hvr. unfold project_snapshot. destruct (r_valid (vr_report vr)) eqn:Hr; cbn [negb].
  2: { right. eexists. split; [done|]. by left. }
  destruct (length (vr_events vr) =? 0)%nat eqn:He; [right; eexists; split; [done|by right]|].
  apply Nat.eqb_neq in He. destruct (snapshot_history _ _ _ _ _ _ _ Hvr eq_refl Hr) as (h & Hv & Heq & _).
  destruct (projectRun_total h pid d vr Hv) as [run Hrun]; [|done|done|].
  { intros ->. rewrite Heq in He. done. }
  left. exists run. by rewrite Hrun.
Qed.

(** The problems ingestion itself finds on disk. *)
Definition disk_problem (p : IngestionProblem) : Prop :=
  ip_diagnostics p = [] ∧ ip_runId p = None ∧
  (ip_code p = I_NOT_A_RUN_DIRECTORY ∨ ip_code p = I_DISCOVERY SYMLINK_SKIPPED ∨
   ip_code p = I_NOT_A_REGULAR_FILE ∨ ip_code p = I_VALIDATION_ERROR).

Lemma ingest_cases pid d :
  (∃ m, ingest pid d = Throw (TypeErrorR m) ∧ checkProjectId pid = Throw m) ∨
  (∃ e, ingest pid d = Throw (FsErrorR e) ∧ irregularEntry fs d = Throw e) ∨
  (∃ p, ingest pid d = Ok (Rejected p) ∧ disk_problem p) ∨
  (∃ vr, irregularEntry fs d = Ok None ∧ validate d = Ok vr ∧ ingest pid d = project_snapshot pid d vr).
Proof.
  unfold projectRunDirectory. destruct (checkProjectId pid) as [u|m]; simpl; [|left; eauto].
  right. destruct (existsSync _ _); simpl; [|right; left; eexists; split; [done|]; by split_and!; auto].
  destruct (irregularEntry fs d) as [[[path []]|]|e]; simpl;
    [right; left; eexists; split; [done|]; split_and!; auto
    |right; left; eexists; split; [done|]; split_and!; auto 6
    | |left; eauto].
  right. destruct (validate d) as [vr|e]; [right; eauto|].
  left. eexists. split; [done|]. split_and!; auto 6.
Qed.

Lemma ingest_projected pid d run :
  ingest pid d = Ok (Projected run) →
  k_projectId (pr_key run) = pid ∧ pr_runDirectory run = d ∧
  ∃ vr, irregularEntry fs d = Ok None ∧ validate d = Ok vr ∧ r_valid (vr_report vr) = true ∧
        projectRun pid d vr = Ok run.
Proof.
  intros H. destruct (ingest_cases pid d) as [(m & E & _)|[(e & E & _)|[(p & E & _)|(vr & Hirr & Hvr & E)]]];
    rewrite E in H; try done.
  destruct (project_snapshot_total pid d vr Hvr) as [(r & E' & Hr & Hv)|(p & E' & _)]; rewrite E' in H; simplify_eq.
  pose proof (projectRun_inv _ _ _ _ Hr) as (_ & _ & ? & _ & ? & _). split_and!; [done|done|]. eauto 6.
Qed.

(** ** Regular entries *)

Lemma irregular_in_None dir names :
  irregular_in fs dir names = Ok None →
  ∀ n, n ∈ names → fsys_lstat (rfs fs) (fsys_join (rfs fs) dir n) = Ok KFile.
Proof.
  induction names as [|n names IH]; intros H m Hm; [by apply elem_of_nil in Hm|].
  simpl in H. apply bind_Ok_inv in H as (k & Hk & H). destruct k; try done.
  apply elem_of_cons in Hm as [->|Hm]; [done|auto].
Qed.

Lemma irregularEntry_None d :
  irregularEntry fs d = Ok None →
  ∀ c names n, (c = js "events" ∨ c = js "attachments") →
    readdirSync fs (fsys_join (rfs fs) d c) = Ok names → n ∈ names →
    fsys_lstat (rfs fs) (fsys_join (rfs fs) (fsys_join (rfs fs) d c) n) = Ok KFile.
Proof.
  unfold irregularEntry, irregular_collection. intros (e & He & H)%bind_Ok_inv c names n Hc Hn Hin.
  destruct e; [done|]. destruct Hc as [-> | ->].
  - rewrite Hn in He. apply (irregular_in_None _ _ He). by rewrite elem_of_sort.
  - rewrite Hn in H. apply (irregular_in_None _ _ H). by rewrite elem_of_sort.
Qed.
End ingest.

(** ** Discovery *)

Lemma discover_entry_found fs dir e p :
  discover_entry fs dir e = inl p →
  p = fsys_join (rfs fs) dir e.1 ∧ e.2 = KDirectory ∧
  fsys_lstat (rfs fs) (fsys_join (rfs fs) p (js "events")) = Ok KDirectory.
Proof.
  unfold discover_entry, statOrUndefined. destruct e as [n []]; simpl; try done.
  destruct (fsys_lstat _ _) as [[]|] eqn:E; try done. intros [= <-]. done.
Qed.

Lemma found_refused_length (l : list (str + DiscoveryProblem)) :
  (length (omap found l) + length (omap refused l))%nat = length l.
Proof. induction l as [|[p|p] l IH]; csimpl; [done|lia|lia]. Qed.

Lemma discover_inv fs root d :
  discoverRunDirectories fs root = Ok d →
  (ds_runDirectories d = [] ∧ length (ds_problems d) = 1%nat ∧
     fsys_lstat (rfs fs) (ds_runsDirectory d) ≠ Ok KDirectory) ∨
  (fsys_lstat (rfs fs) (ds_runsDirectory d) = Ok KDirectory ∧
   ∃ entries, readdirTypes fs (ds_runsDirectory d) = Ok entries ∧
     ds_runDirectories d = omap found (discover_entry fs (ds_runsDirectory d) <$> sort (cmp_on fst compare) entries) ∧
     ds_problems d = omap refused (discover_entry fs (ds_runsDirectory d) <$> sort (cmp_on fst compare) entries)).
Proof.
  unfold discoverRunDirectories, statOrUndefined.
  destruct (fsys_lstat _ _) as [[]|] eqn:E; try (intros [= <-]; left; cbn [ds_runDirectories ds_problems ds_runsDirectory]; rewrite E;
    split; [reflexivity|]; split; [reflexivity|discriminate]).
  intros (entries & He & H)%bind_Ok_inv. cbv beta zeta in H. injection H as <-. right. simpl. eauto.
Qed.

(** ** Sources *)

Section sources.
Context (fs : ReadFs) (json_parse : str → json + str).
Context (schema : option str → json → option (list ErrorObject)) (sha : str → str).

Definition nothing : Gathered := {| ga_runs := []; ga_problems := [] |}.
Definition gapp (g g' : Gathered) : Gathered :=
  {| ga_runs := ga_runs g ++ ga_runs g'; ga_problems := ga_problems g ++ ga_problems g' |}.

Lemma gapp_nothing g : gapp g nothing = g.
Proof. destruct g. unfold gapp. simpl. by rewrite !app_nil_r. Qed.
Lemma gapp_assoc a b c : gapp a (gapp b c) = gapp (gapp a b) c.
Proof. unfold gapp. simpl. by rewrite !app_assoc. Qed.

Lemma gather_directories_app pid ds g :
  gather_directories fs json_parse schema sha pid ds g =
    gapp g <$> gather_directories fs json_parse schema sha pid ds nothing.
Proof.
  revert g. induction ds as [|d ds IH]; intros g; simpl.
  { unfold fmap, res_fmap. by rewrite gapp_nothing. }
  destruct (projectRunDirectory _ _ _ _ _ _) as [r|e]; simpl; [|done].
  rewrite IH, (IH (match r with
    | Projected run => {| ga_runs := [run]; ga_problems := [] |}
    | Rejected p => {| ga_runs := []; ga_problems := [p] |} end)).
  destruct (gather_directories _ _ _ _ _ ds nothing) as [c|e]; simpl; [|done]. unfold fmap, res_fmap. f_equal.
  rewrite gapp_assoc. f_equal. destruct r; unfold gapp; simpl; by rewrite app_nil_r.
Qed.

Lemma gather_source_app s g :
  gather_source fs json_parse schema sha s g = gapp g <$> gather_source fs json_parse schema sha s nothing.
Proof.
  unfold gather_source. destruct (rethrow _ _); simpl; [|done].
  destruct (src_runDirectory s), (src_outputRoot s); simpl; try done; [apply (gather_directories_app _ [_])|].
  destruct (rethrow FsErrorR _) as [d|e]; simpl; [|done].
  rewrite gather_directories_app, (gather_directories_app _ _ {| ga_runs := []; ga_problems := _ |}).
  destruct (gather_directories _ _ _ _ _ _ nothing); simpl; [|done]. unfold fmap, res_fmap. f_equal.
  unfold gapp. simpl. by rewrite !app_assoc.
Qed.

Lemma gather_sources_all ss g :
  gather_sources fs json_parse schema sha ss g =
    foldl gapp g <$> mapMi (λ _ s, gather_source fs json_parse schema sha s nothing) ss.
Proof.
  revert g. unfold mapMi. generalize 0%nat. induction ss as [|s ss IH]; intros i g; simpl; [done|].
  rewrite gather_source_app. destruct (gather_source _ _ _ _ s nothing) as [c|e]; simpl; [|done].
  rewrite (IH (S i)). by destruct (mapMi_from _ _ _).
Qed.

Lemma mapMi_Permutation {X A B} (f : A → res X B) l l' ys :
  l ≡ₚ l' → mapMi (λ _, f) l = Ok ys → ∃ ys', mapMi (λ _, f) l' = Ok ys' ∧ ys ≡ₚ ys'.
Proof.
  unfold mapMi. intros Hp. revert ys.
  induction Hp as [|x l l' Hp IH|x y l|l l' l'' H1 IH1 H2 IH2]; intros ys; simpl; [eauto| | |].
  - destruct (f x) as [y|]; [|done]. rewrite (mapMi_from_const f 1 0), (mapMi_from_const f 1 0).
    destruct (mapMi_from _ 0 l) as [zs|] eqn:E; [|done]. intros [= <-].
    destruct (IH _ eq_refl) as (zs' & -> & Hz). exists (y :: zs'). split; [done|by constructor].
  - destruct (f y), (f x); try done. destruct (mapMi_from _ 2 l); [|done]. intros [= <-].
    eexists. split; [done|]. apply Permutation_swap.
  - intros H. destruct (IH1 _ H) as (y1 & E1 & ?). destruct (IH2 _ E1) as (y2 & ? & ?).
    exists y2. split; [done|by etrans].
Qed.

Lemma foldl_gapp g cs :
  foldl gapp g cs = {| ga_runs := ga_runs g ++ (cs ≫= ga_runs); ga_problems := ga_problems g ++ (cs ≫= ga_problems) |}.
Proof.
  revert g. induction cs as [|c cs IH]; intros g; simpl.
  - destruct g. simpl. by rewrite !app_nil_r.
  - rewrite IH. simpl. by rewrite !app_assoc.
Qed.

(** Every gathered run came from one directory of one source. *)
Lemma gathered_directories pid ds c run :
  gather_directories fs json_parse schema sha pid ds nothing = Ok c → run ∈ ga_runs c →
  ∃ d, projectRunDirectory fs json_parse schema sha pid d = Ok (Projected run).
Proof.
  revert c. induction ds as [|d ds IH]; intros c; simpl; [by intros [= <-] ?%elem_of_nil|].
  intros (r & Hr & H)%bind_Ok_inv. rewrite gather_directories_app in H.
  destruct (gather_directories _ _ _ _ _ ds nothing) as [c'|] eqn:E; [|done].
  unfold fmap, res_fmap in H. injection H as <-. simpl. intros [Hin|Hin]%elem_of_app; [|eauto].
  destruct r as [r|]; simpl in Hin; [|by apply elem_of_nil in Hin].
  apply list_elem_of_singleton in Hin. subst. eauto.
Qed.

Lemma gathered_source s c run :
  gather_source fs json_parse schema sha s nothing = Ok c → run ∈ ga_runs c →
  ∃ d, projectRunDirectory fs json_parse schema sha (src_projectId s) d = Ok (Projected run).
Proof.
  unfold gather_source. intros (u & Hu & H)%bind_Ok_inv.
  destruct (src_runDirectory s) as [d|], (src_outputRoot s); try done; [by apply (gathered_directories _ [d])|].
  apply bind_Ok_inv in H as (d & Hd & H). rewrite gather_directories_app in H.
  destruct (gather_directories _ _ _ _ _ _ nothing) as [c'|] eqn:E; [|done].
  unfold fmap, res_fmap in H. injection H as <-. simpl. by apply (gathered_directories _ _ _ _ E).
Qed.

Lemma gathered_one_per_directory ss cs :
  Forall (λ s, wf_str (src_projectId s)) ss →
  mapMi (λ _ s, gather_source fs json_parse schema sha s nothing) ss = Ok cs →
  one_run_per_directory (cs ≫= ga_runs).
Proof.
  intros Hwf Hcs.
  assert (∀ run, run ∈ cs ≫= ga_runs → wf_str (k_projectId (pr_key run)) ∧
    projectRunDirectory fs json_parse schema sha (k_projectId (pr_key run)) (pr_runDirectory run) = Ok (Projected run))
    as Hfrom.
  { intros run (c & Hin & Hc)%list_elem_of_bind.
    assert (Forall2 (λ s c, gather_source fs json_parse schema sha s nothing = Ok c) ss cs) as HF
      by (eapply mapMi_from_Forall2; [|exact Hcs]; auto).
    destruct (Forall2_elem_r _ _ _ _ HF Hc) as (s & Hs & Hg).
    destruct (gathered_source _ _ _ Hg Hin) as (d & Hd).
    destruct (ingest_projected _ _ _ _ _ _ _ Hd) as (E1 & E2 & _). rewrite E1, E2. split; [|done].
    rewrite Forall_forall in Hwf. auto. }
  intros r r' Hr Hr' Hk Hd. destruct (Hfrom r Hr) as [W1 P1]. destruct (Hfrom r' Hr') as [W2 P2].
  unfold run_key_of, runKey in Hk. apply app_inv_head, json_quote_inj in Hk as [Hk _]; [|done..].
  rewrite <- Hk, <- Hd in P2. congruence.
Qed.
End sources.

(** ** An output root with a run, a link and a file *)

Definition demo_disk : ReadFs :=
  {| rfs :=
       {| fsys_lstat := λ path,
            if bool_decide (path ∈ [js "out/runs"; js "out/runs/a"; js "out/runs/a/events"]) then Ok KDirectory
            else if str_eqb path (js "out/runs/a/events/s1.ndjson") then Ok KFile
            else if str_eqb path (js "out/runs/b") then Ok KSymlink else Throw ENOENT;
          fsys_open := λ path,
            if str_eqb path (js "out/runs/a/events/s1.ndjson")
            then Ok {| of_kind := KFile; of_size := 0; of_sha256 := []; of_text := demo_text |}
            else Throw ENOENT;
          fsys_readdir := λ _, Ok [js "s1.ndjson"];
          fsys_realpath := λ path, Ok path;
          fsys_join := λ a b, a ++ js "/" ++ b |};
     existsSync := λ path, str_eqb path (js "out/runs/a/events");
     readdirSync := λ path, if str_eqb path (js "out/runs/a/events") then Ok [js "s1.ndjson"] else Throw ENOENT;
     readdirTypes := λ _, Ok [(js "c", KFile); (js "b", KSymlink); (js "a", KDirectory)];
     errno_message := λ _, [] |}.

Definition demo_sources : list ReadModelSource :=
  [{| src_projectId := js "p"; src_outputRoot := Some (js "out"); src_runDirectory := None |};
   {| src_projectId := js "q"; src_outputRoot := None; src_runDirectory := Some (js "out/runs/a") |}].

Definition demo_model : ReadModelBuild :=
  match buildReadModel demo_disk demo_parse demo_schema demo_sha demo_sources with
  | Ok b => b | Throw _ => no_build end.

Lemma demo_model_ok : buildReadModel demo_disk demo_parse demo_schema demo_sha demo_sources = Ok demo_model.
Proof.
  unfold demo_model. destruct (buildReadModel _ _ _ _ _) eqn:H; [done|].
  apply (f_equal is_ok) in H. vm_compute in H. discriminate H.
Qed.

(** ** Properties *)

(** C34 What becomes of a run directory: it is projected only when every entry of [events/] and
    [attachments/] is a regular file and the validator reports the snapshot valid, and then as exactly
    that snapshot's projection; PROJECTION_AMBIGUOUS is unreachable, and no exception escapes but a
    project id outside its contract and a failure of the file system while the entries are
    examined: a validator failure is a problem, not an exception. *)
Theorem ingestion_outcome fs json_parse schema sha pid d :
  let r := projectRunDirectory fs json_parse schema sha pid d in
  (∀ run, r = Ok (Projected run) →
     (∃ vr, validateRunDirectorySnapshot json_parse schema sha (rfs fs) d no_options = Ok vr ∧
            r_valid (vr_report vr) = true ∧ projectRun pid d vr = Ok run) ∧
     ∀ c names n, (c = js "events" ∨ c = js "attachments") →
       readdirSync fs (fsys_join (rfs fs) d c) = Ok names → n ∈ names →
       fsys_lstat (rfs fs) (fsys_join (rfs fs) (fsys_join (rfs fs) d c) n) = Ok KFile) ∧
  (∀ p, r = Ok (Rejected p) → ip_code p ≠ I_PROJECTION_AMBIGUOUS) ∧
  (∀ e, r = Throw e → (∃ m, e = TypeErrorR m ∧ checkProjectId pid = Throw m) ∨
                      (∃ x, e = FsErrorR x ∧ irregularEntry fs d = Throw x)).
Proof.
  intros r. split_and!.
  - intros run (_ & _ & vr & Hirr & Hvr & Hv & Hr)%ingest_projected.
    split; [eauto|]. by apply irregularEntry_None.
  - intros p Hp. unfold r in Hp.
    destruct (ingest_cases fs json_parse schema sha pid d) as [(m & E & _)|[(e & E & _)|[(q & E & Hq)|(vr & _ & Hvr & E)]]];
      rewrite E in Hp; try done.
    + injection Hp as <-. destruct Hq as (_ & _ & [->|[->|[->| ->]]]); done.
    + destruct (project_snapshot_total _ _ _ _ pid d vr Hvr) as [(run & E' & _)|(q & E' & [Hq|Hq])];
        rewrite E' in Hp; simplify_eq; by rewrite Hq.
  - intros e He. unfold r in He.
    destruct (ingest_cases fs json_parse schema sha pid d) as [(m & E & Hm)|[(x & E & Hx)|[(q & E & _)|(vr & _ & Hvr & E)]]];
      rewrite E in He; simplify_eq; [left; eauto|right; eauto|].
    destruct (project_snapshot_total _ _ _ _ pid d vr Hvr) as [(run & E' & _)|(q & E' & _)]; by rewrite E' in He.
Qed.

(** Discovery follows no link and forgets no entry: every directory it lists is a direct child
    of [runs] that is itself a directory holding a real [events] directory; every child is
    listed or has a problem; and the order in which the file system enumerates the children does not
    matter. *)
Theorem discovery_lists_real_directories fs root d :
  discoverRunDirectories fs root = Ok d →
  (∀ p, p ∈ ds_runDirectories d →
     fsys_lstat (rfs fs) (ds_runsDirectory d) = Ok KDirectory ∧
     fsys_lstat (rfs fs) (fsys_join (rfs fs) p (js "events")) = Ok KDirectory ∧
     ∃ entries name, readdirTypes fs (ds_runsDirectory d) = Ok entries ∧ (name, KDirectory) ∈ entries ∧
       p = fsys_join (rfs fs) (ds_runsDirectory d) name) ∧
  (∀ entries, fsys_lstat (rfs fs) (ds_runsDirectory d) = Ok KDirectory →
     readdirTypes fs (ds_runsDirectory d) = Ok entries →
     (length (ds_runDirectories d) + length (ds_problems d) = length entries)%nat ∧
     ∀ entries', NoDup entries'.*1 → entries ≡ₚ entries' →
       ds_runDirectories d = omap found (discover_entry fs (ds_runsDirectory d) <$> sort (cmp_on fst compare) entries')).
Proof.
  intros H. destruct (discover_inv fs root d H) as [(E1 & E2 & E3)|(E1 & entries & E2 & E3 & E4)].
  - rewrite E1. split; [by intros p ?%elem_of_nil|]. intros entries Hd. congruence.
  - split.
    + intros p. rewrite E3. intros (x & Hx & Hp)%list_elem_of_omap.
      apply list_elem_of_fmap in Hx as (e & -> & He). rewrite elem_of_sort in He.
      destruct (discover_entry fs (ds_runsDirectory d) e) as [q|] eqn:Eq; [|done]. injection Hp as ->.
      apply discover_entry_found in Eq as (-> & Hk & Hl). split; [done|]. split; [done|].
      exists entries, e.1. split; [done|]. split; [|done]. by destruct e; simpl in Hk; subst.
    + intros entries0 _ He. rewrite E2 in He. injection He as <-. split.
      * rewrite E3, E4, found_refused_length, length_fmap. apply (sort_length (cmp_on fst compare)).
      * intros entries' Hnd Hp. rewrite E3. do 2 f_equal. apply (sort_canonical (cmp_on fst compare)); [|done].
        intros [n k] [n' k'] Hx Hy. unfold cmp_on. simpl. intros ->%compare_separates.
        rewrite Hp in Hx, Hy. apply (elem_mget entries') in Hx, Hy; [|done..]. congruence.
Qed.

Lemma discovery_lists_real_directories_witness :
  ∃ d, discoverRunDirectories demo_disk (js "out") = Ok d ∧ ds_runDirectories d = [js "out/runs/a"] ∧
    (length (ds_runDirectories d) + length (ds_problems d) = 3)%nat.
Proof.
  eexists. split; [reflexivity|]. split; [vm_compute; reflexivity|].
  refine (proj1 (proj2 (discovery_lists_real_directories demo_disk (js "out") _ eq_refl)
    [(js "c", KFile); (js "b", KSymlink); (js "a", KDirectory)] _ eq_refl)).
  vm_compute. reflexivity.
Defined.

(** The order of the sources never changes the read model: a build from the same sources in any
    other order succeeds as well, with the same model and the same problems up to their order. *)
Theorem buildReadModel_ignores_source_order fs json_parse schema sha ss ss' b :
  Forall (λ s, wf_str (src_projectId s)) ss → ss ≡ₚ ss' →
  buildReadModel fs json_parse schema sha ss = Ok b →
  ∃ b', buildReadModel fs json_parse schema sha ss' = Ok b' ∧ model b' = model b ∧ problems b' ≡ₚ problems b.
Proof.
  intros Hwf Hp. unfold buildReadModel. rewrite !gather_sources_all.
  destruct (mapMi _ ss) as [cs|] eqn:Hcs; [|done]. simpl.
  destruct (mapMi_Permutation _ _ _ _ Hp Hcs) as (cs' & -> & Hc). simpl. rewrite !foldl_gapp. simpl.
  destruct (assemble (cs ≫= ga_runs)) as [a|] eqn:Ha; [|done]. simpl. intros [= <-].
  destruct (proj1 (assemble_ok_order _ (cs' ≫= ga_runs)
    (gathered_one_per_directory _ _ _ _ _ _ Hwf Hcs) ltac:(by rewrite Hc)) a Ha) as (a' & -> & Hm & Hpr).
  simpl. eexists. split; [done|]. simpl. split; [done|]. by rewrite Hpr, Hc.
Qed.

Lemma buildReadModel_ignores_source_order_witness :
  (k_projectId ∘ pr_key <$> runs (model demo_model)) = [js "p"; js "q"] ∧
  ∃ b', buildReadModel demo_disk demo_parse demo_schema demo_sha (rev demo_sources) = Ok b' ∧
    model b' = model demo_model.
Proof.
  split; [vm_compute; reflexivity|].
  assert (Forall (λ s, wf_str (src_projectId s)) demo_sources) as Hwf.
  { apply Forall_cons; split; [apply wf_str_of; reflexivity|].
    apply Forall_cons; split; [apply wf_str_of; reflexivity|]. apply Forall_nil. exact I. }
  destruct (buildReadModel_ignores_source_order _ _ _ _ _ (rev demo_sources) _ Hwf (Permutation_rev demo_sources)
    demo_model_ok) as (b' & H1 & H2 & _).
  exists b'. split; [exact H1|exact H2].
Defined.
