(* ===== verification/JsNumber.v ===== *)
(** * JavaScript numbers

    An IEEE double, as far as the code that checks options tells them apart: an
    integer by its value, and the rest by kind. Arithmetic the code does on
    integers is exact unless a theorem says where it rounds; the one product of
    non-integers ([window * random()]) is rounded here as IEEE 754 does. *)

From S2P Require Import Prelude.

Local Open Scope Z_scope.

(** A number by what [Number.isInteger], [Number.isFinite] and comparisons say of it. *)
Inductive number :=
| Int (z : Z)                (* an integer-valued double *)
| Fractional (below : Z)     (* a finite double strictly between two integers: the lower *)
| Infinite (negative : bool)
| NaN.

#[export] Instance number_eq_dec : EqDecision number.
Proof. solve_decision. Defined.

Definition MAX_SAFE_INTEGER : Z := 9007199254740991.

(** [Number.isInteger(v) ? v : none] *)
Definition as_integer (v : number) : option Z := match v with Int z => Some z | _ => None end.

(** [Number.isSafeInteger(v) ? v : none] *)
Definition as_safe_integer (v : number) : option Z :=
  match v with
  | Int z => if (- MAX_SAFE_INTEGER <=? z) && (z <=? MAX_SAFE_INTEGER) then Some z else None
  | _ => None
  end.

(** The integers a double holds exactly: 53 significant bits. *)
Definition is_double (z : Z) : Prop := ∃ m j, 0 <= j ∧ 0 <= m <= 2 ^ 53 ∧ z = m * 2 ^ j.

(** Rounding a non-negative integer to the nearest double, ties to even. *)
Definition round_double (p : Z) : Z :=
  if p <? 2 ^ 53 then p
  else
    let k := Z.log2 p - 52 in
    let q := p / 2 ^ k in
    let r := p mod 2 ^ k in
    let up := (2 ^ (k - 1) <? r) || ((r =? 2 ^ (k - 1)) && Z.odd q) in
    (if up then q + 1 else q) * 2 ^ k.

(** [Math.round(n * r)] of a non-negative integer and a draw [r = d / 2^53]: the product in
    units of 2^-53 is rounded to a double, then to the nearest integer, halves up. *)
Definition round_product (n d : Z) : Z := (2 * round_double (n * d) + 2 ^ 53) / 2 ^ 54.

(** A double is a multiple of the spacing of doubles above any of its lower powers of two. *)
Lemma double_multiple v k :
  0 < k → is_double v → 2 ^ (k + 52) <= v → v < 2 ^ (k + 53) → ∃ c, v = c * 2 ^ k.
Proof.
  intros Hk (m & j & Hj & [Hm0 Hm] & ->) Hlo Hhi.
  destruct (Z.le_gt_cases k j) as [Hkj|Hkj].
  - exists (m * 2 ^ (j - k)). rewrite <- Z.mul_assoc, <- Z.pow_add_r by lia. do 2 f_equal. lia.
  - assert (m * 2 ^ j <= 2 ^ 53 * 2 ^ (k - 1)) as Hb.
    { apply Z.mul_le_mono_nonneg; [lia|lia|apply Z.pow_nonneg; lia|apply Z.pow_le_mono_r; lia]. }
    rewrite <- Z.pow_add_r in Hb by lia. replace (53 + (k - 1)) with (k + 52) in Hb by lia.
    exists (2 ^ 52). rewrite <- Z.pow_add_r by lia. replace (52 + k) with (k + 52) by lia. lia.
Qed.

Lemma round_double_nonneg p : 0 <= p → 0 <= round_double p.
Proof.
  intros Hp. unfold round_double. destruct (Z.ltb_spec p (2 ^ 53)); [done|].
  assert (0 <= p / 2 ^ (Z.log2 p - 52)) by (apply Z.div_pos; [done|apply Z.pow_pos_nonneg; [lia|]];
    pose proof (Z.log2_le_mono (2 ^ 53) p ltac:(lia)) as Hl; rewrite Z.log2_pow2 in Hl; lia).
  pose proof (Z.pow_nonneg 2 (Z.log2 p - 52) ltac:(lia)).
  destruct (_ || _); nia.
Qed.

(** Rounding never passes a double. *)
Lemma round_double_le p v : 0 <= p <= v → is_double v → round_double p <= v.
Proof.
  intros [Hp Hv] Hd. unfold round_double. destruct (Z.ltb_spec p (2 ^ 53)) as [|Hbig]; [done|].
  pose proof (Z.log2_le_mono (2 ^ 53) p ltac:(lia)) as Hl. rewrite Z.log2_pow2 in Hl by lia.
  pose proof (Z.log2_spec p ltac:(lia)) as [Hlo Hhi].
  set (k := Z.log2 p - 52) in *. assert (0 < k) as Hk by lia.
  replace (Z.log2 p) with (k + 52) in Hlo by lia.
  replace (Z.succ (Z.log2 p)) with (k + 53) in Hhi by lia.
  assert (0 < 2 ^ k) as Hpow by (apply Z.pow_pos_nonneg; lia).
  pose proof (Z.div_mod p (2 ^ k) ltac:(lia)) as E. pose proof (Z.mod_pos_bound p (2 ^ k) Hpow) as Hr.
  set (q := p / 2 ^ k) in *. set (r := p mod 2 ^ k) in *.
  rewrite !Z.pow_add_r in Hlo, Hhi by lia.
  destruct (Z.lt_ge_cases v (2 ^ (k + 53))) as [Hv53|Hv53].
  - destruct (double_multiple v k Hk Hd) as [c Hc]; [rewrite Z.pow_add_r by lia; lia|done|].
    destruct ((2 ^ (k - 1) <? r) || _) eqn:Hup; [|nia].
    assert (0 < r) as Hr0.
    { apply orb_true_iff in Hup as [H%Z.ltb_lt|[H%Z.eqb_eq _]%andb_true_iff];
        pose proof (Z.pow_pos_nonneg 2 (k - 1) ltac:(lia) ltac:(lia)); lia. }
    assert (q + 1 <= c) by nia. nia.
  - rewrite Z.pow_add_r in Hv53 by lia.
    assert (q + 1 <= 2 ^ 53) as Hq by nia.
    apply (Z.mul_le_mono_nonneg_r _ _ (2 ^ k)) in Hq; [|lia]. destruct (_ || _); lia.
Qed.

(** A jittered integer stays within what it jitters. *)
Lemma round_product_bounds n d : is_double n → 0 <= d <= 2 ^ 53 → 0 <= round_product n d <= n.
Proof.
  intros Hn Hd. assert (0 <= n) as Hn0.
  { destruct Hn as (m & j & Hj & Hm & ->). apply Z.mul_nonneg_nonneg; [lia|apply Z.pow_nonneg; lia]. }
  assert (0 <= n * d <= n * 2 ^ 53) as Hp by nia.
  assert (is_double (n * 2 ^ 53)) as Hd'.
  { destruct Hn as (m & j & Hj & Hm & ->). exists m, (j + 53). split_and!; [lia|lia|lia|].
    rewrite Z.pow_add_r by lia. lia. }
  pose proof (round_double_nonneg _ (proj1 Hp)). pose proof (round_double_le _ _ Hp Hd') as Hle.
  unfold round_product. split.
  - apply Z.div_pos; lia.
  - apply Z.lt_succ_r, Z.div_lt_upper_bound; lia.
Qed.

(** A power-of-two multiple of a double is one. *)
Lemma is_double_shift z i : 0 <= i → is_double z → is_double (z * 2 ^ i).
Proof.
  intros Hi (m & j & Hj & Hm & ->). exists m, (j + i). split_and!; [lia|lia|lia|].
  rewrite Z.pow_add_r by lia. lia.
Qed.

Lemma is_double_min a b : is_double a → is_double b → is_double (Z.min a b).
Proof. intros. by destruct (Z.min_spec a b) as [[_ ->]|[_ ->]]. Qed.

Lemma is_double_small z : 0 <= z <= 2 ^ 53 → is_double z.
Proof. intros. exists z, 0. lia. Qed.
