(* ===== verification/JsEncoding.v ===== *)
(** * Buffer and its encodings

    [Buffer.toString('base64url')], [Buffer.from(s, 'base64url')] on texts of that
    alphabet, and [Buffer.toString('utf8')], which puts U+FFFD for what is no
    UTF-8 (the decoder of the Encoding standard). *)

From Stdlib Require Import Strings.Byte.
From S2P Require Import Prelude JsString JsBytes.

Local Open Scope N_scope.

(** ** base64url, without padding *)

Definition sextet_unit (v : N) : N :=
  if v <? 26 then 65 + v else if v <? 52 then 71 + v else if v <? 62 then v - 4 else if v =? 62 then 45 else 95.

(** The sextet of a unit; [+] and [/] are read as [-] and [_]. *)
Definition unit_sextet (u : N) : option N :=
  if in_range 65 90 u then Some (u - 65)
  else if in_range 97 122 u then Some (u - 71)
  else if in_range 48 57 u then Some (u + 4)
  else if (u =? 45) || (u =? 43) then Some 62
  else if (u =? 95) || (u =? 47) then Some 63
  else None.

Fixpoint sextets (l : list N) : list N :=
  match l with
  | a :: b :: c :: l' => a / 4 :: a mod 4 * 16 + b / 16 :: b mod 16 * 4 + c / 64 :: c mod 64 :: sextets l'
  | [a; b] => [a / 4; a mod 4 * 16 + b / 16; b mod 16 * 4]
  | [a] => [a / 4; a mod 4 * 16]
  | [] => []
  end.

(** Bits that do not fill a byte are dropped. *)
Fixpoint octets (l : list N) : list N :=
  match l with
  | s :: t :: u :: v :: l' => s * 4 + t / 16 :: t mod 16 * 16 + u / 4 :: u mod 4 * 64 + v :: octets l'
  | [s; t; u] => [s * 4 + t / 16; t mod 16 * 16 + u / 4]
  | [s; t] => [s * 4 + t / 16]
  | _ => []
  end.

Definition base64url (b : bytes) : str := sextet_unit <$> sextets (Byte.to_N <$> b).
Definition from_base64url (s : str) : bytes := to_byte <$> octets (omap unit_sextet s).

(** [/^[A-Za-z0-9_-]+$/u] *)
Definition is_base64url_unit (u : N) : bool := is_alnum u || (u =? 45) || (u =? 95).
Definition BASE64URL (s : str) : bool := negb (bool_decide (s = [])) && forallb is_base64url_unit s.

(** ** UTF-8 *)

(** The decoder between bytes: how many are missing, the bits so far, and what the next may be. *)
Record Pending := { pn_more : nat; pn_bits : N; pn_low : N; pn_high : N }.

Definition lead (b : N) : option Pending :=
  let next n bits low high := Some {| pn_more := n; pn_bits := bits; pn_low := low; pn_high := high |} in
  if in_range 0xC2 0xDF b then next 1%nat (b - 0xC0) 0x80 0xBF
  else if b =? 0xE0 then next 2%nat 0 0xA0 0xBF
  else if b =? 0xED then next 2%nat 13 0x80 0x9F
  else if in_range 0xE1 0xEF b then next 2%nat (b - 0xE0) 0x80 0xBF
  else if b =? 0xF0 then next 3%nat 0 0x90 0xBF
  else if b =? 0xF4 then next 3%nat 4 0x80 0x8F
  else if in_range 0xF1 0xF3 b then next 3%nat (b - 0xF0) 0x80 0xBF
  else None.

(** What a byte does where a character may begin: the points it ends, and what is pending. *)
Definition begin_point (b : N) : list N * option Pending :=
  if b <? 0x80 then ([b], None)
  else match lead b with Some p => ([], Some p) | None => ([replacement], None) end.

Definition utf8_step (pending : option Pending) (b : N) : list N * option Pending :=
  match pending with
  | None => begin_point b
  | Some p =>
      if in_range (pn_low p) (pn_high p) b then
        let bits := pn_bits p * 64 + (b - 0x80) in
        match pn_more p with
        | S (S n) => ([], Some {| pn_more := S n; pn_bits := bits; pn_low := 0x80; pn_high := 0xBF |})
        | _ => ([bits], None)
        end
      else let '(points, next) := begin_point b in (replacement :: points, next)
  end.

Fixpoint utf8_points (pending : option Pending) (l : list N) : list N :=
  match l with
  | [] => match pending with None => [] | Some _ => [replacement] end
  | b :: l' => let '(points, next) := utf8_step pending b in points ++ utf8_points next l'
  end.

(** The code units of a code point. *)
Definition point_units (p : N) : str :=
  if p <? 0x10000 then [p] else [0xD800 + (p - 0x10000) / 1024; 0xDC00 + (p - 0x10000) mod 1024].

Definition utf8_decode (b : bytes) : str := utf8_points None (Byte.to_N <$> b) ≫= point_units.

(** ** Lemmas *)

Definition octet (n : N) : Prop := n < 256.

Lemma to_N_octet b : octet (Byte.to_N b).
Proof. pose proof (Byte.to_N_bounded b). unfold octet. lia. Qed.

Lemma to_byte_to_N b : to_byte (Byte.to_N b) = b.
Proof. unfold to_byte. by rewrite Byte.of_to_N. Qed.

Lemma to_N_to_byte n : octet n → Byte.to_N (to_byte n) = n.
Proof.
  unfold octet, to_byte. intros Hn. destruct (Byte.of_N n) as [b|] eqn:E; simpl; [by apply Byte.to_of_N|].
  apply Byte.of_N_None_iff in E. lia.
Qed.

Lemma sextet_round_trip v : v < 64 → unit_sextet (sextet_unit v) = Some v.
Proof.
  intros Hv. unfold sextet_unit, unit_sextet, in_range.
  repeat match goal with
  | |- context [if ?x <? ?y then _ else _] => destruct (N.ltb_spec x y)
  | |- context [if (v =? 62) then _ else _] => destruct (N.eqb_spec v 62)
  end;
  repeat match goal with
  | |- context [?x <=? ?y] => destruct (N.leb_spec x y); try lia
  | |- context [?x =? ?y] => destruct (N.eqb_spec x y); try lia
  end; simpl; f_equal; lia.
Qed.

(** Lists three elements at a time. *)
Lemma by_threes {A} (P : list A → Prop) :
  P [] → (∀ a, P [a]) → (∀ a b, P [a; b]) → (∀ a b c l, P l → P (a :: b :: c :: l)) → ∀ l, P l.
Proof.
  intros H0 H1 H2 H3. fix IH 1. intros [|a [|b [|c l]]]; [exact H0|apply H1|apply H2|apply H3, IH].
Qed.

#[local] Ltac Zify.zify_post_hook ::= Z.to_euclidean_division_equations.

Lemma octets_sextets l : Forall octet l → octets (sextets l) = l.
Proof.
  unfold octet. induction l as [|a|a b|a b c l IH] using by_threes; rewrite ?Forall_cons; intros Hl; cbn [sextets octets].
  - done.
  - destruct Hl as [Ha _]. f_equal. lia.
  - destruct Hl as (Ha & Hb & _). f_equal; [lia|]. f_equal. lia.
  - destruct Hl as (Ha & Hb & Hc & Hl). rewrite IH by done. f_equal; [lia|]. f_equal; [lia|]. f_equal. lia.
Qed.

Lemma sextets_small l : Forall octet l → Forall (λ v, v < 64) (sextets l).
Proof.
  unfold octet. induction l as [|a|a b|a b c l IH] using by_threes; rewrite ?Forall_cons; intros Hl; cbn [sextets].
  - done.
  - repeat constructor; lia.
  - repeat constructor; lia.
  - destruct Hl as (Ha & Hb & Hc & Hl). repeat (constructor; [lia|]). by apply IH.
Qed.

Lemma sextets_length l : (length (sextets l) mod 4 ≠ 1)%nat ∧ (3 * length (sextets l) <= 4 * length l + 2)%nat.
Proof.
  induction l as [|a|a b|a b c l IH] using by_threes; cbn [sextets length]; try (split; [done|lia]). destruct IH as [IH1 IH2].
  split; [|lia]. replace (S (S (S (S (length (sextets l))))))%nat with (length (sextets l) + 1 * 4)%nat by lia.
  by rewrite Nat.Div0.mod_add.
Qed.

Lemma octets_all (b : bytes) : Forall octet (Byte.to_N <$> b).
Proof. apply Forall_fmap, Forall_forall. intros x _. apply to_N_octet. Qed.

Lemma omap_sextets l : Forall (λ v, v < 64) l → omap unit_sextet (sextet_unit <$> l) = l.
Proof.
  induction 1 as [|v l Hv Hl IH]; [done|]. rewrite fmap_cons. cbn [omap list_omap]. rewrite sextet_round_trip by done.
  f_equal. exact IH.
Qed.

(** Bytes come back from their text. *)
Lemma base64url_round_trip b : from_base64url (base64url b) = b.
Proof.
  unfold from_base64url, base64url. rewrite omap_sextets by apply sextets_small, octets_all.
  rewrite octets_sextets by apply octets_all. rewrite <-list_fmap_compose. rewrite <-(list_fmap_id b) at 2.
  apply list_fmap_ext. intros i x _. apply to_byte_to_N.
Qed.

Lemma sextet_unit_class v : v < 64 → is_base64url_unit (sextet_unit v) = true.
Proof.
  intros Hv. assert (is_Some (unit_sextet (sextet_unit v))) as _ by (rewrite sextet_round_trip; eauto).
  unfold sextet_unit, is_base64url_unit, is_alnum, is_digit, is_upper, is_lower, in_range.
  repeat match goal with
  | |- context [if ?x <? ?y then _ else _] => destruct (N.ltb_spec x y)
  | |- context [if (v =? 62) then _ else _] => destruct (N.eqb_spec v 62)
  end;
  repeat match goal with
  | |- context [?x <=? ?y] => destruct (N.leb_spec x y); try lia
  end; done.
Qed.

Lemma base64url_alphabet b : forallb is_base64url_unit (base64url b) = true.
Proof.
  unfold base64url. apply forallb_forall. intros u Hu%list_elem_of_In. apply list_elem_of_fmap in Hu as (v & -> & Hv).
  apply sextet_unit_class. pose proof (sextets_small _ (octets_all b)) as Hs. rewrite Forall_forall in Hs. by apply Hs.
Qed.

Lemma base64url_length b : (length (base64url b) mod 4 ≠ 1)%nat ∧ (3 * length (base64url b) <= 4 * length b + 2)%nat.
Proof. unfold base64url. rewrite length_fmap. pose proof (sextets_length (Byte.to_N <$> b)) as Hl. by rewrite length_fmap in Hl. Qed.

Lemma base64url_class b : b ≠ [] → BASE64URL (base64url b) = true.
Proof.
  intros Hb. unfold BASE64URL. rewrite base64url_alphabet, andb_true_r. rewrite bool_decide_eq_false_2; [done|].
  intros E. apply Hb. by rewrite <-(base64url_round_trip b), E.
Qed.

(** ASCII text is its own bytes. *)
Definition ascii (s : str) : Prop := Forall (λ u, u < 128) s.

Lemma ascii_not_surrogate u : u < 128 → is_surrogate u = false ∧ is_high_surrogate u = false.
Proof.
  intros Hu. unfold is_surrogate, is_high_surrogate, is_low_surrogate.
  rewrite !(proj2 (N.leb_gt _ u)) by lia. done.
Qed.

Lemma ascii_point u : u < 128 → utf8_point u = [to_byte u].
Proof. intros Hu. unfold utf8_point. by rewrite (proj2 (N.ltb_lt _ _)). Qed.

Lemma utf8_encode_ascii s : ascii s → utf8_encode s = to_byte <$> s.
Proof.
  induction 1 as [|u s Hu Hs IH]; [done|]. destruct (ascii_not_surrogate u Hu) as [E1 E2]. destruct s as [|v s].
  - cbn [utf8_encode]. rewrite E1, ascii_point by done. done.
  - cbn [utf8_encode]. rewrite E1, E2. cbn [andb]. rewrite ascii_point by done. cbn [utf8_encode] in IH. by rewrite IH.
Qed.

Lemma utf8_decode_ascii s : ascii s → utf8_decode (utf8_encode s) = s.
Proof.
  intros Hs. rewrite utf8_encode_ascii by done. unfold utf8_decode.
  assert (utf8_points None (Byte.to_N <$> (to_byte <$> s)) = s) as ->.
  { induction Hs as [|u s Hu Hs IH]; [reflexivity|]. rewrite !fmap_cons, to_N_to_byte by (unfold octet; lia).
    cbn [utf8_points utf8_step]. unfold begin_point. rewrite (proj2 (N.ltb_lt u 128)) by done. cbn [app]. by rewrite IH. }
  induction Hs as [|u s Hu Hs IH]; [reflexivity|]. rewrite bind_cons, IH. unfold point_units.
  by rewrite (proj2 (N.ltb_lt u 65536)) by lia.
Qed.

Lemma utf8_encode_ascii_length s : ascii s → length (utf8_encode s) = length s.
Proof. intros Hs. by rewrite utf8_encode_ascii, length_fmap. Qed.

(** ** Base32 (postgres/src/api-keys.ts)

    [base32] and [unbase32] as they are written, on 32-bit integers: the value the
    bits are gathered in is shifted and wraps, and only its low bits are ever read.
    Each is the other's inverse, and no two texts name the same bytes. *)

Local Open Scope Z_scope.

(** ** 32-bit integers: [x << k], [x >>> k] *)

Definition to_int32 (z : Z) : Z := (z + 2147483648) mod 4294967296 - 2147483648.
Definition to_uint32 (z : Z) : Z := z mod 4294967296.
Definition shl (z k : Z) : Z := to_int32 (Z.shiftl z k).
Definition shr_unsigned (z k : Z) : Z := Z.shiftr (to_uint32 z) k.

Definition ALPHABET : str := js "abcdefghijklmnopqrstuvwxyz234567".
Definition alphabet (d : Z) : N := default 0%N (ALPHABET !! Z.to_nat d).

(** [ALPHABET.indexOf(char)]; [None] for -1. *)
Fixpoint index_of (l : str) (u : N) : option Z :=
  match l with
  | [] => None
  | v :: l' => if (u =? v)%N then Some 0 else Z.succ <$> index_of l' u
  end.

Definition byte_value (b : byte) : Z := Z.of_N (Byte.to_N b).
Definition byte_of (z : Z) : byte := to_byte (Z.to_N z).

(** ** [base32] *)

(** The inner loop, with fuel for as many turns as there are bits. *)
Fixpoint emit (fuel : nat) (out : str) (bits value : Z) : str * Z :=
  match fuel with
  | S fuel => if 5 <=? bits then emit fuel (out ++ [alphabet (Z.land (shr_unsigned value (bits - 5)) 31)]) (bits - 5) value
              else (out, bits)
  | O => (out, bits)
  end.

Fixpoint base32_loop (bs : bytes) (out : str) (bits value : Z) : str * Z * Z :=
  match bs with
  | [] => (out, bits, value)
  | b :: bs =>
      let value := Z.lor (shl value 8) (byte_value b) in
      let bits := bits + 8 in
      let '(out, bits) := emit (Z.to_nat bits) out bits value in
      base32_loop bs out bits value
  end.

Definition base32 (bs : bytes) : str :=
  let '(out, bits, value) := base32_loop bs [] 0 0 in
  if 0 <? bits then out ++ [alphabet (Z.land (shl value (5 - bits)) 31)] else out.

(** ** [unbase32] *)

(** A write past the end of the buffer does nothing. *)
Fixpoint unbase32_loop (text : str) (out : bytes) (at_ : nat) (bits value : Z) : option (bytes * Z * Z) :=
  match text with
  | [] => Some (out, bits, value)
  | u :: text =>
      digit ← index_of ALPHABET u;
      let value := Z.land (Z.lor (shl value 5) digit) 0xfff in
      let bits := bits + 5 in
      if 8 <=? bits
      then unbase32_loop text (<[at_ := byte_of (Z.land (shr_unsigned value (bits - 8)) 0xff)]> out) (S at_) (bits - 8) value
      else unbase32_loop text out at_ bits value
  end.

Definition unbase32 (text : str) (length_ : nat) : option bytes :=
  if negb (length text =? (length_ * 8 + 4) / 5)%nat then None
  else
    '(out, bits, value) ← unbase32_loop text (replicate length_ x00) 0 0 0;
    if negb (Z.land value (shl 1 bits - 1) =? 0) then None else Some out.

(** ** The low bits of a number, the highest first *)

Fixpoint low_bits (k : nat) (v : Z) : list bool :=
  match k with O => [] | S k => Z.testbit v (Z.of_nat k) :: low_bits k v end.

Lemma low_bits_length k v : length (low_bits k v) = k.
Proof. induction k as [|k IH]; simpl; [done|by rewrite IH]. Qed.

Lemma low_bits_ext k v w : (∀ i, 0 <= i < Z.of_nat k → Z.testbit v i = Z.testbit w i) → low_bits k v = low_bits k w.
Proof. induction k as [|k IH]; intros H; simpl; [done|]. f_equal; [apply H; lia|]. apply IH. intros i Hi. apply H. lia. Qed.

Lemma low_bits_eq k v w i : low_bits k v = low_bits k w → 0 <= i < Z.of_nat k → Z.testbit v i = Z.testbit w i.
Proof.
  induction k as [|k IH]; intros E Hi; [lia|]. injection E as E1 E2. destruct (decide (i = Z.of_nat k)) as [->|]; [done|].
  apply IH; [done|lia].
Qed.

Lemma low_bits_inj k v w : 0 <= v < 2 ^ Z.of_nat k → 0 <= w < 2 ^ Z.of_nat k → low_bits k v = low_bits k w → v = w.
Proof.
  intros Hv Hw E. apply Z.bits_inj'. intros i Hi. destruct (Z.lt_ge_cases i (Z.of_nat k)) as [Hlt|Hge]; [apply (low_bits_eq k); [done|lia]|].
  assert (∀ x, 0 <= x < 2 ^ Z.of_nat k → Z.testbit x i = false) as H; [|by rewrite !H].
  intros x Hx. rewrite <- (Z.mod_small x (2 ^ Z.of_nat k)) by done. apply Z.mod_pow2_bits_high; lia.
Qed.

Lemma low_bits_app a b v : low_bits (a + b) v = low_bits a (Z.shiftr v (Z.of_nat b)) ++ low_bits b v.
Proof.
  induction a as [|a IH]; [done|]. cbn [Nat.add low_bits app]. rewrite IH, Z.shiftr_spec, Nat2Z.inj_add by lia. done.
Qed.

Lemma low_bits_shift j m v d : 0 <= d < 2 ^ Z.of_nat m →
  low_bits (j + m) (Z.lor (Z.shiftl v (Z.of_nat m)) d) = low_bits j v ++ low_bits m d.
Proof.
  intros Hd. rewrite low_bits_app. f_equal; apply low_bits_ext; intros i Hi.
  - rewrite Z.shiftr_spec, Z.lor_spec, Z.shiftl_spec by lia. replace (i + Z.of_nat m - Z.of_nat m) with i by lia.
    rewrite <- (Z.mod_small d (2 ^ Z.of_nat m)), Z.mod_pow2_bits_high by lia. by rewrite orb_false_r.
  - by rewrite Z.lor_spec, Z.shiftl_spec, Z.testbit_neg_r by lia.
Qed.

Lemma low_bits_land k n v : Z.of_nat k <= n → low_bits k (Z.land v (Z.ones n)) = low_bits k v.
Proof. intros Hn. apply low_bits_ext. intros i Hi. rewrite Z.land_spec, Z.ones_spec_low by lia. by rewrite andb_true_r. Qed.

Lemma low_bits_int32 k v : (k <= 32)%nat → low_bits k (to_int32 v) = low_bits k v.
Proof.
  intros Hk. apply low_bits_ext. intros i Hi.
  rewrite <- (Z.mod_pow2_bits_low (to_int32 v) 32), <- (Z.mod_pow2_bits_low v 32) by lia. f_equal.
  unfold to_int32. change (2 ^ 32) with 4294967296. rewrite Zminus_mod_idemp_l. f_equal. lia.
Qed.

Lemma low_bits_lor_int32 k v d : (k <= 32)%nat → low_bits k (Z.lor (to_int32 v) d) = low_bits k (Z.lor v d).
Proof.
  intros Hk. apply low_bits_ext. intros i Hi. rewrite !Z.lor_spec. f_equal.
  by apply (low_bits_eq k); [apply low_bits_int32|].
Qed.

Lemma low_bits_shr k j v : (k + Z.to_nat j <= 32)%nat → 0 <= j → low_bits k (shr_unsigned v j) = low_bits k (Z.shiftr v j).
Proof.
  intros Hk Hj. apply low_bits_ext. intros i Hi. unfold shr_unsigned, to_uint32. rewrite !Z.shiftr_spec by lia.
  change 4294967296 with (2 ^ 32). apply Z.mod_pow2_bits_low. lia.
Qed.

(** ** What a text and bytes spell *)

Definition byte_bits (b : byte) : list bool := low_bits 8 (byte_value b).
Definition bytes_bits (bs : bytes) : list bool := concat (byte_bits <$> bs).
Definition char_bits (u : N) : list bool := low_bits 5 (default 0 (index_of ALPHABET u)).
Definition text_bits (s : str) : list bool := concat (char_bits <$> s).
Definition in_alphabet (s : str) : Prop := Forall (λ u, is_Some (index_of ALPHABET u)) s.

Lemma text_bits_app s t : text_bits (s ++ t) = text_bits s ++ text_bits t.
Proof. unfold text_bits. by rewrite fmap_app, concat_app. Qed.
Lemma bytes_bits_app s t : bytes_bits (s ++ t) = bytes_bits s ++ bytes_bits t.
Proof. unfold bytes_bits. by rewrite fmap_app, concat_app. Qed.

Lemma text_bits_length s : length (text_bits s) = (5 * length s)%nat.
Proof.
  unfold text_bits. induction s as [|u s IH]; [done|]. rewrite fmap_cons. cbn [concat length]. rewrite length_app, IH.
  unfold char_bits at 1. rewrite low_bits_length. lia.
Qed.
Lemma bytes_bits_length s : length (bytes_bits s) = (8 * length s)%nat.
Proof.
  unfold bytes_bits. induction s as [|u s IH]; [done|]. rewrite fmap_cons. cbn [concat length]. rewrite length_app, IH.
  unfold byte_bits at 1. rewrite low_bits_length. lia.
Qed.

Lemma index_of_spec l u d : index_of l u = Some d → 0 <= d ∧ l !! Z.to_nat d = Some u.
Proof.
  revert d. induction l as [|v l IH]; intros d; simpl; [done|]. destruct (N.eqb_spec u v) as [->|]; [by intros [= <-]|].
  destruct (index_of l u) as [d'|]; [|done]. intros [= <-]. destruct (IH d' eq_refl) as [Hd Hl]. split; [lia|].
  by rewrite Z2Nat.inj_succ.
Qed.

Lemma index_alphabet d : 0 <= d < 32 → index_of ALPHABET (alphabet d) = Some d.
Proof.
  intros Hd. assert (forallb (λ d, bool_decide (index_of ALPHABET (alphabet d) = Some d)) (seqZ 0 32) = true) as Ha by (vm_compute; reflexivity).
  rewrite forallb_forall in Ha. specialize (Ha d). rewrite bool_decide_eq_true in Ha. apply Ha, list_elem_of_In, elem_of_seqZ. lia.
Qed.

Lemma alphabet_index u d : index_of ALPHABET u = Some d → 0 <= d < 32 ∧ alphabet d = u.
Proof.
  intros H. apply index_of_spec in H as [Hd Hl]. pose proof (lookup_lt_Some _ _ _ Hl) as Hlt.
  change (length ALPHABET) with 32%nat in Hlt. split; [lia|]. unfold alphabet. by rewrite Hl.
Qed.

Lemma byte_value_range b : 0 <= byte_value b < 256.
Proof. unfold byte_value. by destruct b. Qed.

Lemma byte_value_of z : 0 <= z < 256 → byte_value (byte_of z) = z.
Proof. intros Hz. unfold byte_value, byte_of. rewrite to_N_to_byte by (unfold octet; lia). lia. Qed.

Lemma byte_bits_inj b c : byte_bits b = byte_bits c → b = c.
Proof.
  intros E. apply low_bits_inj in E; [|apply byte_value_range..]. unfold byte_value in E. apply N2Z.inj in E.
  by rewrite <- (to_byte_to_N b), E, to_byte_to_N.
Qed.

Lemma char_bits_inj u v : is_Some (index_of ALPHABET u) → is_Some (index_of ALPHABET v) → char_bits u = char_bits v → u = v.
Proof.
  intros [d Hd] [e He]. unfold char_bits. rewrite Hd, He. simpl default. apply alphabet_index in Hd as [Hd <-], He as [He <-].
  intros E. apply low_bits_inj in E; [by subst|simpl; lia..].
Qed.

Lemma bytes_bits_inj s t : bytes_bits s = bytes_bits t → s = t.
Proof.
  revert t. induction s as [|b s IH]; intros [|c t] E; [done|apply (f_equal length) in E; by rewrite !bytes_bits_length in E..|].
  change (byte_bits b ++ bytes_bits s = byte_bits c ++ bytes_bits t) in E.
  apply app_inj_1 in E as [E1 E2]; [|unfold byte_bits; by rewrite !low_bits_length]. f_equal; [by apply byte_bits_inj|by apply IH].
Qed.

Lemma text_bits_inj s t : in_alphabet s → in_alphabet t → text_bits s = text_bits t → s = t.
Proof.
  intros Hs. revert t. induction Hs as [|u s Hu Hs IH]; intros [|v t] Ht E; [done|apply (f_equal length) in E; by rewrite !text_bits_length in E..|].
  change (char_bits u ++ text_bits s = char_bits v ++ text_bits t) in E. apply Forall_cons in Ht as [Hv Ht].
  apply app_inj_1 in E as [E1 E2]; [|unfold char_bits; by rewrite !low_bits_length]. f_equal; [by apply char_bits_inj|by apply IH].
Qed.

(** ** What the loops write *)

Lemma land_31 z : 0 <= Z.land z 31 < 32.
Proof. change 31 with (Z.ones 5). rewrite Z.land_ones by lia. apply Z.mod_pos_bound. lia. Qed.

(** One character more. *)
Lemma text_bits_digit out d : 0 <= d < 32 → in_alphabet out →
  in_alphabet (out ++ [alphabet d]) ∧ text_bits (out ++ [alphabet d]) = text_bits out ++ low_bits 5 d.
Proof.
  intros Hd Ho. pose proof (index_alphabet d Hd) as E. split.
  - apply Forall_app. split; [done|]. apply Forall_singleton. by rewrite E.
  - rewrite text_bits_app. f_equal. unfold text_bits. simpl fmap. cbn [concat]. unfold char_bits. rewrite E. by rewrite app_nil_r.
Qed.

Lemma emit_spec fuel out bits value out' bits' : 0 <= bits <= 32 → bits <= Z.of_nat fuel → in_alphabet out →
  emit fuel out bits value = (out', bits') →
  0 <= bits' < 5 ∧ in_alphabet out' ∧
  text_bits out' ++ low_bits (Z.to_nat bits') value = text_bits out ++ low_bits (Z.to_nat bits) value.
Proof.
  revert out bits. induction fuel as [|fuel IH]; intros out bits Hb Hf Ho; cbn [emit].
  - intros [= <- <-]. split_and!; [lia|lia|done|done].
  - destruct (Z.leb_spec 5 bits) as [H5|H5]; [|intros [= <- <-]; split_and!; [lia|lia|done|done]].
    intros E. destruct (text_bits_digit out _ (land_31 (shr_unsigned value (bits - 5))) Ho) as [Ho' Et].
    apply IH in E as (H1 & H2 & H3); [|lia|lia|done]. split_and!; [lia|lia|done|].
    rewrite H3, Et, <- app_assoc. f_equal. change 31 with (Z.ones 5). rewrite low_bits_land, low_bits_shr by lia.
    replace (Z.to_nat bits) with (5 + Z.to_nat (bits - 5))%nat by lia. rewrite low_bits_app. by rewrite Z2Nat.id by lia.
Qed.

Lemma base32_loop_spec bs out bits value out' bits' value' : 0 <= bits < 5 → in_alphabet out →
  base32_loop bs out bits value = (out', bits', value') →
  0 <= bits' < 5 ∧ in_alphabet out' ∧
  text_bits out' ++ low_bits (Z.to_nat bits') value' = text_bits out ++ low_bits (Z.to_nat bits) value ++ bytes_bits bs.
Proof.
  revert out bits value. induction bs as [|b bs IH]; intros out bits value Hb Ho; cbn [base32_loop].
  - intros [= <- <- <-]. by rewrite app_nil_r.
  - destruct (emit _ _ _ _) as [out1 bits1] eqn:E. apply emit_spec in E as (H1 & H2 & H3); [|lia|lia|done].
    intros E. apply IH in E as (H4 & H5 & H6); [|done|done]. split_and!; [lia|lia|done|]. rewrite H6, app_assoc, H3, <- app_assoc.
    f_equal. change (bytes_bits (b :: bs)) with (byte_bits b ++ bytes_bits bs). rewrite app_assoc. f_equal.
    replace (Z.to_nat (bits + 8)) with (Z.to_nat bits + 8)%nat by lia. unfold shl. rewrite low_bits_lor_int32 by lia.
    apply (low_bits_shift _ 8), byte_value_range.
Qed.

(** The text of some bytes spells them, and fewer than five zeros. *)
Lemma base32_spells bs : ∃ z, (z < 5)%nat ∧ in_alphabet (base32 bs) ∧
  text_bits (base32 bs) = bytes_bits bs ++ replicate z false.
Proof.
  unfold base32. destruct (base32_loop bs [] 0 0) as [[out bits] value] eqn:E.
  apply base32_loop_spec in E as (H1 & H2 & H3); [|lia|by constructor]. simpl in H3.
  destruct (Z.ltb_spec 0 bits) as [Hb|Hb].
  - exists (Z.to_nat (5 - bits)). split; [lia|].
    destruct (text_bits_digit out _ (land_31 (shl value (5 - bits))) H2) as [Ho Et]. split; [done|].
    rewrite Et, <- H3, <- app_assoc. f_equal. change 31 with (Z.ones 5). unfold shl. rewrite low_bits_land, low_bits_int32 by lia.
    replace 5%nat with (Z.to_nat bits + Z.to_nat (5 - bits))%nat by lia.
    rewrite <- (Z.lor_0_r (Z.shiftl value (5 - bits))). rewrite <- (Z2Nat.id (5 - bits)) at 2 by lia.
    rewrite low_bits_shift by (split; [done|apply Z.pow_pos_nonneg; lia]). f_equal.
    generalize (Z.to_nat (5 - bits)). induction n as [|n IH]; [done|]. simpl. by rewrite IH, Z.testbit_0_l.
  - exists 0%nat. assert (bits = 0) as -> by lia. simpl in H3. split_and!; [lia|done|]. by rewrite <- H3, !app_nil_r.
Qed.

(** ** What [unbase32] reads *)

Lemma land_fff_bits k z : (k <= 12)%nat → low_bits k (Z.land z 0xfff) = low_bits k z.
Proof. intros Hk. change 0xfff with (Z.ones 12). apply low_bits_land. lia. Qed.

Lemma land_ff z : 0 <= Z.land z 0xff < 256.
Proof. change 0xff with (Z.ones 8). rewrite Z.land_ones by lia. apply Z.mod_pos_bound. lia. Qed.

(** [done] bytes are written of a buffer with room for what is to come. *)
Lemma unbase32_loop_spec text done_ r bits value out' bits' value' : 0 <= bits < 8 →
  bits + 5 * Z.of_nat (length text) < 8 * Z.of_nat r + 8 →
  unbase32_loop text (done_ ++ replicate r x00) (length done_) bits value = Some (out', bits', value') →
  in_alphabet text ∧ 0 <= bits' < 8 ∧ ∃ done' r', out' = done' ++ replicate r' x00 ∧
    (length done' + r' = length done_ + r)%nat ∧
    bytes_bits done' ++ low_bits (Z.to_nat bits') value' = bytes_bits done_ ++ low_bits (Z.to_nat bits) value ++ text_bits text.
Proof.
  revert done_ r bits value. induction text as [|u text IH]; intros done_ r bits value Hb Hr; cbn [unbase32_loop].
  - intros [= <- <- <-]. split; [by constructor|]. split; [done|]. exists done_, r. rewrite app_nil_r. done.
  - destruct (index_of ALPHABET u) as [d|] eqn:Ed; [|done]. cbn [mbind option_bind]. destruct (alphabet_index _ _ Ed) as [Hd _].
    set (value1 := Z.land (Z.lor (shl value 5) d) 0xfff).
    assert (low_bits (Z.to_nat (bits + 5)) value1 = low_bits (Z.to_nat bits) value ++ char_bits u) as Hv.
    { unfold value1, shl, char_bits. rewrite Ed. cbn [default from_option id].
      rewrite land_fff_bits, low_bits_lor_int32 by lia. replace (Z.to_nat (bits + 5)) with (Z.to_nat bits + 5)%nat by lia.
      by apply (low_bits_shift _ 5). }
    assert (∀ X, X ++ text_bits (u :: text) = (X ++ char_bits u) ++ text_bits text) as Ht.
    { intros X. by rewrite <- app_assoc. }
    cbn [length] in Hr. rewrite Nat2Z.inj_succ in Hr. destruct (Z.leb_spec 8 (bits + 5)) as [H8|H8].
    + destruct r as [|r]; [lia|]. set (b := byte_of (Z.land (shr_unsigned value1 (bits + 5 - 8)) 0xff)).
      rewrite (insert_app_r_alt done_ _ (length done_)), Nat.sub_diag by lia. cbn [replicate list_insert].
      change (<[0%nat:=b]> (x00 :: replicate r x00)) with (b :: replicate r x00).
      change (done_ ++ b :: replicate r x00) with (done_ ++ [b] ++ replicate r x00). rewrite app_assoc.
      replace (S (length done_)) with (length (done_ ++ [b])) by (rewrite length_app; simpl; lia).
      intros E. apply IH in E as (Ha & Hb' & done' & r' & -> & Hl & Hs); [|lia|lia].
      split; [by constructor|]. split; [done|]. exists done', r'. split; [done|]. rewrite length_app in Hl. simpl in Hl.
      split; [lia|]. rewrite Hs, Ht, <- Hv, bytes_bits_app, <- !app_assoc. f_equal. rewrite (app_assoc (bytes_bits [b])). f_equal.
      replace (Z.to_nat (bits + 5)) with (8 + Z.to_nat (bits + 5 - 8))%nat by lia. rewrite low_bits_app. f_equal.
      unfold bytes_bits. simpl fmap. cbn [concat]. rewrite app_nil_r. unfold byte_bits, b.
      rewrite byte_value_of by apply land_ff. change 0xff with (Z.ones 8). rewrite low_bits_land, low_bits_shr, Z2Nat.id by lia. done.
    + intros E. apply IH in E as (Ha & Hb' & done' & r' & -> & Hl & Hs); [|lia|lia].
      split; [by constructor|]. split; [done|]. exists done', r'. split_and!; [done|done|]. by rewrite Hs, Ht, Hv.
Qed.

(** A text of the alphabet is read to its end. *)
Lemma unbase32_loop_reads text out at_ bits value : in_alphabet text → is_Some (unbase32_loop text out at_ bits value).
Proof.
  intros Ht. revert out at_ bits value. induction Ht as [|u text [d Hd] Ht IH]; intros out at_ bits value; cbn [unbase32_loop].
  - eauto.
  - rewrite Hd. cbn [mbind option_bind]. destruct (8 <=? bits + 5); apply IH.
Qed.

Lemma low_bits_zero k v : Z.land v (Z.ones (Z.of_nat k)) = 0 ↔ low_bits k v = replicate k false.
Proof.
  assert (low_bits k 0 = replicate k false) as H0.
  { induction k as [|k IH]; [done|]. cbn [low_bits replicate]. by rewrite IH, Z.testbit_0_l. }
  rewrite <- (low_bits_land k (Z.of_nat k) v), <- H0 by lia. split; [by intros ->|].
  apply low_bits_inj; [|split; [done|apply Z.pow_pos_nonneg; lia]]. rewrite Z.land_ones by lia. apply Z.mod_pos_bound, Z.pow_pos_nonneg; lia.
Qed.

Lemma ones_shl bits : 0 <= bits < 8 → shl 1 bits - 1 = Z.ones bits.
Proof. intros Hb. assert (bits = 0 ∨ bits = 1 ∨ bits = 2 ∨ bits = 3 ∨ bits = 4 ∨ bits = 5 ∨ bits = 6 ∨ bits = 7) as H by lia. by intuition subst. Qed.

(** The characters of [n] bytes. *)
Lemma base32_length bs : length (base32 bs) = ((length bs * 8 + 4) / 5)%nat.
Proof.
  destruct (base32_spells bs) as (z & Hz & _ & E). apply (f_equal length) in E.
  rewrite text_bits_length, length_app, bytes_bits_length, length_replicate in E.
  apply (Nat.div_unique _ _ _ (4 - z)); lia.
Qed.

(** Base32 has one spelling: [unbase32] gives bytes exactly for the text [base32] writes for them, at the length asked
    for. Other characters, another length, and stray bits in the last character give nothing. *)
Theorem unbase32_iff text n bs : unbase32 text n = Some bs ↔ length bs = n ∧ text = base32 bs.
Proof.
  assert (∀ text n out bits value, (5 * length text < 8 * n + 8)%nat →
    unbase32_loop text (replicate n x00) 0 0 0 = Some (out, bits, value) →
    in_alphabet text ∧ 0 <= bits < 8 ∧ ∃ done' r, out = done' ++ replicate r x00 ∧ (length done' + r = n)%nat ∧
      bytes_bits done' ++ low_bits (Z.to_nat bits) value = text_bits text) as Hloop.
  { intros text' n' out bits value Hl E. apply (unbase32_loop_spec text' [] n' 0 0) in E; [|lia|lia]. exact E. }
  assert (∀ bits value, 0 <= bits < 8 → (Z.land value (shl 1 bits - 1) = 0 ↔
    low_bits (Z.to_nat bits) value = replicate (Z.to_nat bits) false)) as Hzero.
  { intros bits value Hb. rewrite ones_shl by done. rewrite <- (Z2Nat.id bits) at 1 by lia. apply low_bits_zero. }
  unfold unbase32. split.
  - destruct (Nat.eqb_spec (length text) ((n * 8 + 4) / 5)) as [El|]; [|done]. cbn [negb].
    pose proof (Nat.div_mod (n * 8 + 4) 5 ltac:(lia)) as Hd. pose proof (Nat.mod_upper_bound (n * 8 + 4) 5 ltac:(lia)) as Hm.
    destruct (unbase32_loop text _ 0 0 0) as [[[out bits] value]|] eqn:E; [|done]. cbn [mbind option_bind].
    destruct (Z.eqb_spec (Z.land value (shl 1 bits - 1)) 0) as [Hz|]; [|done]. cbn [negb]. intros [= <-].
    apply Hloop in E as (Ha & Hb & done' & r & -> & Hl & Hs); [|lia]. apply Hzero in Hz; [|done].
    pose proof (f_equal length Hs) as Hlen. rewrite length_app, bytes_bits_length, text_bits_length, low_bits_length in Hlen.
    assert (r = 0)%nat as -> by lia. cbn [replicate]. rewrite app_nil_r. split; [lia|].
    destruct (base32_spells done') as (z & Hz' & Ha' & Hs').
    pose proof (f_equal length Hs') as Hlen'. rewrite length_app, bytes_bits_length, text_bits_length, length_replicate, base32_length in Hlen'.
    apply text_bits_inj; [done|done|]. rewrite <- Hs, Hs', Hz. do 2 f_equal.
    replace (length done') with n in Hlen' by lia. lia.
  - intros [<- ->]. rewrite base32_length, Nat.eqb_refl. cbn [negb]. destruct (base32_spells bs) as (z & Hz & Ha & Hs).
    pose proof (f_equal length Hs) as Hlen. rewrite length_app, bytes_bits_length, text_bits_length, length_replicate in Hlen.
    destruct (unbase32_loop_reads (base32 bs) (replicate (length bs) x00) 0 0 0 Ha) as [[[out bits] value] E]. rewrite E.
    cbn [mbind option_bind]. apply Hloop in E as (_ & Hb & done' & r & -> & Hl & Hs'); [|lia].
    rewrite Hs in Hs'. pose proof (f_equal length Hs') as Hlen'.
    rewrite !length_app, !bytes_bits_length, low_bits_length, length_replicate in Hlen'.
    assert (r = 0)%nat as -> by lia. apply app_inj_1 in Hs' as [E1 E2]; [|rewrite !bytes_bits_length; lia].
    apply bytes_bits_inj in E1 as ->. rewrite app_nil_r.
    rewrite (proj2 (Hzero bits value Hb)); [done|]. rewrite E2. f_equal. lia.
Qed.

Example base32_of_foobar : base32 (ascii_bytes "foobar") = js "mzxw6ytboi".
Proof. vm_compute. reflexivity. Qed.
Example base32_stray_bits : unbase32 (js "my") 1 = Some (ascii_bytes "f") ∧ unbase32 (js "mz") 1 = None.
Proof. split; vm_compute; reflexivity. Qed.
