(* ===== verification/HttpRetry.v ===== *)
(** * How an upload is retried (ts/packages/http-client/src/retry.ts)

    The retry policy and its checks, the statuses and connection errors worth
    another attempt, and the wait before one: the service's [Retry-After] or a
    doubling window with jitter, both bounded. [Date.parse] of an HTTP date is a
    parameter: ECMAScript leaves formats other than its own to the engine. *)

From S2P Require Import Prelude JsNumber JsString Codec SafeName.

Local Open Scope Z_scope.

(** [RetryPolicy] *)
Record RetryPolicy := { maxAttempts : Z; baseDelayMs : Z; maxDelayMs : Z }.

(** [Partial<RetryPolicy>], before any check. *)
Record RetryOverrides := {
  ov_maxAttempts : option number; ov_baseDelayMs : option number; ov_maxDelayMs : option number;
}.

Definition DEFAULT_RETRY : RetryPolicy := {| maxAttempts := 4; baseDelayMs := 250; maxDelayMs := 30000 |}.
Definition MAX_ATTEMPTS_CEILING : Z := 10.

(** The check of [baseDelayMs] and [maxDelayMs]. *)
Definition milliseconds (name : str) (value : number) : res str Z :=
  match as_integer value with
  | Some z => if z <? 0 then Throw (name ++ js " must be a whole number of milliseconds") else Ok z
  | None => Throw (name ++ js " must be a whole number of milliseconds")
  end.

(** [resolveRetry]; the exception is its [TypeError]'s message. *)
Definition resolveRetry (overrides : RetryOverrides) : res str RetryPolicy :=
  let attempts := default (Int (maxAttempts DEFAULT_RETRY)) (ov_maxAttempts overrides) in
  match as_integer attempts with
  | None => Throw (js "maxAttempts must be a whole number of at least one")
  | Some n =>
      if n <? 1 then Throw (js "maxAttempts must be a whole number of at least one")
      else if MAX_ATTEMPTS_CEILING <? n then
        Throw (js "maxAttempts must be at most " ++ dec MAX_ATTEMPTS_CEILING)
      else
        base ← milliseconds (js "baseDelayMs") (default (Int (baseDelayMs DEFAULT_RETRY)) (ov_baseDelayMs overrides));
        max ← milliseconds (js "maxDelayMs") (default (Int (maxDelayMs DEFAULT_RETRY)) (ov_maxDelayMs overrides));
        if max <? base then Throw (js "maxDelayMs must not be less than baseDelayMs")
        else Ok {| maxAttempts := n; baseDelayMs := base; maxDelayMs := max |}
  end.

Definition RETRIABLE_STATUSES : list Z := [408; 425; 429; 500; 502; 503; 504].

Definition RETRIABLE_CODES : list str :=
  [js "ECONNRESET"; js "ECONNREFUSED"; js "ECONNABORTED"; js "EPIPE"; js "ETIMEDOUT"; js "EHOSTUNREACH";
   js "ENETUNREACH"; js "ENETDOWN"; js "ENETRESET"; js "EAI_AGAIN"; js "UND_ERR_SOCKET"].

(** [isRetriableError], of an error by its [code]. *)
Definition isRetriableError (code : option str) : bool :=
  match code with Some c => bool_decide (c ∈ RETRIABLE_CODES) | None => false end.

(** [delayBefore]; the draw of [random] is in units of 2^-53. *)
Definition delayBefore (attempt : Z) (policy : RetryPolicy) (retryAfterMs : option Z) (draw : Z) : Z :=
  match retryAfterMs with
  | Some after => Z.min after (maxDelayMs policy)
  | None =>
      let window := Z.min (baseDelayMs policy * 2 ^ (attempt - 1)) (maxDelayMs policy) in
      round_product window draw
  end.

(** ** Retry-After *)

(** One of the alternatives of a group, and what follows it. *)
Definition take_word (words : list str) (s : str) : option str :=
  head (omap (λ w, if bool_decide (take (length w) s = w) then Some (drop (length w) s) else None) words).

(** [\d{n}] *)
Definition skip_exact_digits (n : nat) (s : str) : option str :=
  if (n <=? length s)%nat && forallb is_digit (take n s) then Some (drop n s) else None.

Definition DAY_NAMES : list str :=
  [js "Mon"; js "Tue"; js "Wed"; js "Thu"; js "Fri"; js "Sat"; js "Sun"].
Definition MONTH_NAMES : list str :=
  [js "Jan"; js "Feb"; js "Mar"; js "Apr"; js "May"; js "Jun"; js "Jul"; js "Aug"; js "Sep"; js "Oct";
   js "Nov"; js "Dec"].

(** [HTTP_DATE.test(text)] *)
Definition HTTP_DATE (s : str) : bool :=
  bool_decide (
    (s ← take_word DAY_NAMES s; s ← take_word [js ", "] s; s ← skip_exact_digits 2 s; s ← take_word [js " "] s;
     s ← take_word MONTH_NAMES s; s ← take_word [js " "] s; s ← skip_exact_digits 4 s; s ← take_word [js " "] s;
     s ← skip_exact_digits 2 s; s ← take_word [js ":"] s; s ← skip_exact_digits 2 s; s ← take_word [js ":"] s;
     s ← skip_exact_digits 2 s; take_word [js " GMT"] s) = Some []).

(** [retryAfterMs]: whole seconds, or an HTTP date; [None] is no usable answer. *)
Definition retryAfterMs (parse_http_date : str → option Z) (header : option str) (now : Z) : option Z :=
  text ← trim <$> header;
  if forallb is_digit text && (1 <=? length text)%nat && (length text <=? 7)%nat
  then Some (undec text * 1000)
  else if negb (HTTP_DATE text) then None
  else at_ ← parse_http_date text; Some (Z.max 0 (at_ - now)).

Example http_date : HTTP_DATE (js "Sun, 06 Nov 1994 08:49:37 GMT") = true.
Proof. vm_compute. reflexivity. Qed.
Example http_date_loose : HTTP_DATE (js "Sunday, 06-Nov-94 08:49:37 GMT") = false.
Proof. vm_compute. reflexivity. Qed.

(** ** Lemmas *)

(** What a policy the checks let through satisfies, and every one that satisfies it is let through. *)
Record valid_policy (p : RetryPolicy) : Prop := {
  vp_attempts : 1 <= maxAttempts p <= MAX_ATTEMPTS_CEILING;
  vp_base : 0 <= baseDelayMs p;
  vp_max : baseDelayMs p <= maxDelayMs p;
}.

Lemma milliseconds_Ok name v z : milliseconds name v = Ok z → v = Int z ∧ 0 <= z.
Proof.
  unfold milliseconds, as_integer. destruct v as [y| | |]; try done.
  destruct (Z.ltb_spec y 0); [done|]. by intros [= ->].
Qed.

Definition requested (o : RetryOverrides) (p : RetryPolicy) : Prop :=
  default (Int (maxAttempts DEFAULT_RETRY)) (ov_maxAttempts o) = Int (maxAttempts p) ∧
  default (Int (baseDelayMs DEFAULT_RETRY)) (ov_baseDelayMs o) = Int (baseDelayMs p) ∧
  default (Int (maxDelayMs DEFAULT_RETRY)) (ov_maxDelayMs o) = Int (maxDelayMs p).

Lemma resolveRetry_Ok o p : resolveRetry o = Ok p ↔ requested o p ∧ valid_policy p.
Proof.
  unfold resolveRetry, requested. split.
  - destruct (as_integer _) as [n|] eqn:En; [|done].
    destruct (default _ (ov_maxAttempts o)); simplify_eq/=.
    destruct (Z.ltb_spec n 1); [done|]. destruct (Z.ltb_spec MAX_ATTEMPTS_CEILING n); [done|].
    intros Hok. inv_ok.
    match goal with H : milliseconds _ _ = Ok _ |- _ => apply milliseconds_Ok in H as [-> ?] end.
    match goal with H : milliseconds _ _ = Ok _ |- _ => apply milliseconds_Ok in H as [-> ?] end.
    match goal with H : (_ <? _) = false |- _ => apply Z.ltb_ge in H end.
    split; [done|]. by constructor.
  - intros [(-> & -> & ->) [[H1 H10] H0 Hm]]. destruct p as [n b m]; simpl in *.
    rewrite (proj2 (Z.ltb_ge n 1)), (proj2 (Z.ltb_ge _ n)) by done.
    unfold milliseconds; simpl. rewrite (proj2 (Z.ltb_ge b 0)), (proj2 (Z.ltb_ge m 0)) by lia. simpl.
    by rewrite (proj2 (Z.ltb_ge m b)).
Qed.

Lemma retryAfterMs_nonneg parse h now ms : retryAfterMs parse h now = Some ms → 0 <= ms.
Proof.
  unfold retryAfterMs. destruct h as [h|]; simpl; [|done].
  destruct (forallb is_digit _ && _ && _) eqn:E.
  - intros [= <-]. rewrite !andb_true_iff in E. destruct E as [[Hd _] _].
    assert (0 <= undec (trim h)); [|lia].
    destruct (trim h) as [|u s] eqn:Et; [done|]. unfold undec.
    assert ((u =? 45)%N = false) as ->.
    { simpl in Hd. apply andb_true_iff in Hd as [Hu _]. unfold is_digit, in_range in Hu.
      apply andb_true_iff in Hu as [Hu%N.leb_le _]. apply N.eqb_neq. lia. }
    clear Et. assert (∀ a l, forallb is_digit l = true → 0 <= a → 0 <= undigits_from a l) as Hg.
    { intros a l. revert a. induction l as [|d l IH]; intros a Hl Ha; [done|].
      simpl in Hl. apply andb_true_iff in Hl as [Hdd Hl]. unfold is_digit, in_range in Hdd.
      apply andb_true_iff in Hdd as [Hdd%N.leb_le _]. simpl. apply IH; [done|lia]. }
    by apply Hg.
  - destruct (negb _); [done|]. destruct (parse _); simpl; [|done]. intros [= <-]. lia.
Qed.

(** Every wait is bounded by the policy. *)
Lemma delayBefore_bounds p attempt after draw :
  valid_policy p → is_double (baseDelayMs p) → is_double (maxDelayMs p) → 1 <= attempt →
  (∀ ms, after = Some ms → 0 <= ms) → 0 <= draw <= 2 ^ 53 →
  0 <= delayBefore attempt p after draw <= maxDelayMs p.
Proof.
  intros [_ Hb Hm] Db Dm Ha Hafter Hd. unfold delayBefore. destruct after as [ms|].
  - specialize (Hafter ms eq_refl). lia.
  - pose proof (round_product_bounds (Z.min (baseDelayMs p * 2 ^ (attempt - 1)) (maxDelayMs p)) draw
      ltac:(apply is_double_min; [apply is_double_shift; [lia|done]|done]) Hd). lia.
Qed.
