(* ===== verification/JsDate.v ===== *)
(** * JavaScript dates

    The [Date] of the standard library, as the code that states deadlines uses
    it: a time value in milliseconds or the invalid date, the range a time value
    has, and the text [toISOString] writes. The calendar is the one [Date.parse]
    is modelled on (HistoryOrder.v), and the two are inverse: what
    [toISOString] writes of a four-digit year, [Date.parse] reads back. *)

From S2P Require Import Prelude JsString JsSort Json Model Codec HistoryOrder.

Local Open Scope Z_scope.

(** A [Date]: its time value, or the invalid date. *)
Definition Date : Type := option Z.

(** [new Date(ms)]: TimeClip. *)
Definition MAX_TIME : Z := 8640000000000000.
Definition new_date (ms : Z) : Date := if (Z.abs ms <=? MAX_TIME) then Some ms else None.

(** ** From days to dates *)

(** The year a day is in; days are counted from the first of January of the year 0. *)
Definition year_of_day (d : Z) : Z :=
  let y := d * 400 / 146097 in
  if d <? days_before_year y then y - 1 else if days_before_year (y + 1) <=? d then y + 1 else y.

(** Walking the months of a year: the month, and the day of it counted from 0. *)
Fixpoint month_walk (lengths : list Z) (month d : Z) : Z * Z :=
  match lengths with
  | n :: lengths' => if d <? n then (month, d) else month_walk lengths' (month + 1) (d - n)
  | [] => (month, d)
  end.

Definition month_lengths (year : Z) : list Z := month_days year <$> seqZ 1 11.

Definition civil (day : Z) : Z * Z * Z :=
  let d := day + days_before_year 1970 in
  let year := year_of_day d in
  let '(month, rest) := month_walk (month_lengths year) 1 (d - days_before_year year) in
  (year, month, rest + 1).

(** ** toISOString *)

(** The last [n] decimal digits. *)
Fixpoint fixed (n : nat) (z : Z) : str :=
  match n with O => [] | S n' => fixed n' (z / 10) ++ [Z.to_N (48 + z mod 10)] end.

Definition iso_year (year : Z) : str :=
  if (0 <=? year) && (year <=? 9999) then fixed 4 year
  else (if year <? 0 then js "-" else js "+") ++ fixed 6 (Z.abs year).

Definition toISOString (ms : Z) : str :=
  let '(year, month, day) := civil (ms / 86400000) in
  let clock := ms mod 86400000 in
  iso_year year ++ js "-" ++ fixed 2 month ++ js "-" ++ fixed 2 day ++ js "T" ++ fixed 2 (clock / 3600000)
    ++ js ":" ++ fixed 2 (clock / 60000 mod 60) ++ js ":" ++ fixed 2 (clock / 1000 mod 60) ++ js "."
    ++ fixed 3 (clock mod 1000) ++ js "Z".

Example iso_epoch : toISOString 0 = js "1970-01-01T00:00:00.000Z".
Proof. vm_compute. reflexivity. Qed.
Example iso_leap_day : toISOString 951827696789 = js "2000-02-29T12:34:56.789Z".
Proof. vm_compute. reflexivity. Qed.
Example iso_before_epoch : toISOString (-1) = js "1969-12-31T23:59:59.999Z".
Proof. vm_compute. reflexivity. Qed.
Example iso_year_ten_thousand : toISOString 253402300800000 = js "+010000-01-01T00:00:00.000Z".
Proof. vm_compute. reflexivity. Qed.

(** ** Lemmas *)

Lemma fixed_digit_text n z : digit_text n (fixed n z).
Proof.
  revert z. induction n as [|n IH]; intros z; simpl; [done|]. destruct (IH (z / 10)) as [Hl Hd]. split.
  - rewrite length_app, Hl. simpl. lia.
  - rewrite forallb_app, Hd. simpl. unfold is_digit, in_range.
    pose proof (Z.mod_pos_bound z 10 ltac:(lia)).
    rewrite (proj2 (N.leb_le _ _)), (proj2 (N.leb_le _ _)) by lia. done.
Qed.

Lemma fixed_value n z : digits_value (fixed n z) = z mod 10 ^ Z.of_nat n.
Proof.
  revert z. induction n as [|n IH]; intros z; [simpl; by rewrite Z.mod_1_r|].
  cbn [fixed]. unfold digits_value, undigits_from in *. rewrite foldl_app, IH. simpl.
  pose proof (Z.mod_pos_bound z 10 ltac:(lia)).
  rewrite Nat2Z.inj_succ, Z.pow_succ_r, Z.rem_mul_r by lia. lia.
Qed.

Lemma fixed_small n z : 0 <= z < 10 ^ Z.of_nat n → digits_value (fixed n z) = z.
Proof. intros. by rewrite fixed_value, Z.mod_small. Qed.

Lemma year_of_day_spec d : days_before_year (year_of_day d) <= d < days_before_year (year_of_day d + 1).
Proof.
  unfold year_of_day. set (y := d * 400 / 146097).
  assert (days_before_year (y - 1) <= d < days_before_year (y + 2)) as Hy.
  { unfold days_before_year, y. Z.to_euclidean_division_equations. lia. }
  destruct (Z.ltb_spec d (days_before_year y)).
  - replace (y - 1 + 1) with y by lia. lia.
  - destruct (Z.leb_spec (days_before_year (y + 1)) d); [|lia].
    replace (y + 1 + 1) with (y + 2) by lia. lia.
Qed.

Lemma year_length y :
  days_before_year (y + 1) - days_before_year y = if leapYear y then 366 else 365.
Proof.
  unfold days_before_year, leapYear.
  destruct (Z.eqb_spec (y mod 4) 0), (Z.eqb_spec (y mod 100) 0), (Z.eqb_spec (y mod 400) 0); simpl;
    Z.to_euclidean_division_equations; lia.
Qed.

(** Two years of the same length have the same months. *)
Lemma month_days_like y y' m : leapYear y = leapYear y' → month_days y m = month_days y' m.
Proof. unfold month_days. by intros ->. Qed.

Lemma months_like y y' m :
  leapYear y = leapYear y' →
  month_lengths y = month_lengths y' ∧ days_before_month y m = days_before_month y' m.
Proof.
  intros E. unfold month_lengths, days_before_month.
  assert (∀ l : list Z, month_days y <$> l = month_days y' <$> l) as H.
  { intros l. apply list_fmap_ext. intros _ x _. by apply month_days_like. }
  split; [apply H|]. f_equal. apply H.
Qed.

(** The walk over a given year ends in a month of it, on a day that month has. *)
Definition walk_ok (y d : Z) : Prop :=
  let '(m, r) := month_walk (month_lengths y) 1 d in
  1 <= m <= 12 ∧ 0 <= r < month_days y m ∧ days_before_month y m + r = d.

(** Every month of a known year in turn. *)
Ltac known_month :=
  match goal with |- context [days_before_month ?y ?m] =>
    let v := eval vm_compute in (days_before_month y m) in change (days_before_month y m) with v end;
  match goal with |- context [month_days ?y ?m] =>
    let v := eval vm_compute in (month_days y m) in change (month_days y m) with v end;
  lia.
Ltac walk_months :=
  cbn [month_walk];
  repeat (match goal with |- context [?a <? ?b] => destruct (Z.ltb_spec a b) end; [known_month|]);
  known_month.

Lemma walk_common d : 0 <= d < 365 → walk_ok 2001 d.
Proof.
  intros Hd. unfold walk_ok. change (month_lengths 2001) with [31;28;31;30;31;30;31;31;30;31;30].
  walk_months.
Qed.

Lemma walk_leap d : 0 <= d < 366 → walk_ok 2000 d.
Proof.
  intros Hd. unfold walk_ok. change (month_lengths 2000) with [31;29;31;30;31;30;31;31;30;31;30].
  walk_months.
Qed.

Lemma month_walk_spec y d : 0 <= d < (if leapYear y then 366 else 365) → walk_ok y d.
Proof.
  intros Hd. destruct (leapYear y) eqn:L.
  - pose proof (walk_leap d Hd) as H. unfold walk_ok in *.
    rewrite (proj1 (months_like y 2000 0 L)). destruct (month_walk _ 1 d) as [m r].
    by rewrite (proj2 (months_like y 2000 m L)), (month_days_like y 2000 m L).
  - pose proof (walk_common d Hd) as H. unfold walk_ok in *.
    rewrite (proj1 (months_like y 2001 0 L)). destruct (month_walk _ 1 d) as [m r].
    by rewrite (proj2 (months_like y 2001 m L)), (month_days_like y 2001 m L).
Qed.

(** A day is the date it is in. *)
Lemma civil_spec day :
  let '(y, m, d) := civil day in
  1 <= m <= 12 ∧ 1 <= d <= month_days y m ∧ epoch_day y m d = day ∧
  days_before_year y <= day + days_before_year 1970 < days_before_year (y + 1).
Proof.
  unfold civil. set (d := day + days_before_year 1970). set (y := year_of_day d).
  pose proof (year_of_day_spec d) as Hy. fold y in Hy. pose proof (year_length y) as Hl.
  pose proof (month_walk_spec y (d - days_before_year y) ltac:(lia)) as Hw. unfold walk_ok in Hw.
  destruct (month_walk _ _ _) as [m r]. unfold epoch_day. lia.
Qed.

(** *** Texts of four-digit years *)

(** The span of the years 0 to 9999. *)
Definition MIN_FOUR_DIGITS : Z := -62167219200000.
Definition MAX_FOUR_DIGITS : Z := 253402300799999.

(** What [toISOString] writes, field by field. *)
Definition iso_timestamp (ms : Z) : Timestamp :=
  let '(year, month, day) := civil (ms / 86400000) in
  let clock := ms mod 86400000 in
  {| ts_year := fixed 4 year; ts_month := fixed 2 month; ts_day := fixed 2 day;
     ts_hour := fixed 2 (clock / 3600000); ts_minute := fixed 2 (clock / 60000 mod 60);
     ts_second := fixed 2 (clock / 1000 mod 60); ts_fraction := Some (fixed 3 (clock mod 1000));
     ts_zone := None |}.

Lemma iso_timestamp_wf ms : wf_timestamp (iso_timestamp ms).
Proof.
  unfold iso_timestamp. destruct (civil _) as [[y m] d].
  constructor; try apply fixed_digit_text; [|done]. destruct (fixed_digit_text 3 (ms mod 86400000 mod 1000)).
  simpl. split; [|done]. destruct (fixed 3 _) as [|? [|? [|? [|]]]]; simpl in *; lia.
Qed.

Lemma days_before_year_mono y y' : y <= y' → days_before_year y <= days_before_year y'.
Proof. unfold days_before_year. intros. Z.to_euclidean_division_equations. lia. Qed.

Lemma iso_year_range ms :
  MIN_FOUR_DIGITS <= ms <= MAX_FOUR_DIGITS → 0 <= (civil (ms / 86400000)).1.1 <= 9999.
Proof.
  unfold MIN_FOUR_DIGITS, MAX_FOUR_DIGITS. intros H.
  pose proof (civil_spec (ms / 86400000)) as Hc. destruct (civil _) as [[y m] d]. simpl.
  destruct Hc as (_ & _ & _ & Hy). change (days_before_year 1970) with 719528 in Hy.
  assert (0 <= ms / 86400000 + 719528 < 3652425) by (Z.to_euclidean_division_equations; lia).
  split.
  - destruct (Z.le_gt_cases 0 y) as [|Hn]; [done|].
    pose proof (days_before_year_mono (y + 1) 0 ltac:(lia)) as Hm. change (days_before_year 0) with 0 in Hm. lia.
  - destruct (Z.le_gt_cases y 9999) as [|Hn]; [done|].
    pose proof (days_before_year_mono 10000 y ltac:(lia)) as Hm.
    change (days_before_year 10000) with 3652425 in Hm. lia.
Qed.

Lemma toISOString_text ms :
  MIN_FOUR_DIGITS <= ms <= MAX_FOUR_DIGITS → toISOString ms = timestamp_text (iso_timestamp ms).
Proof.
  intros H%iso_year_range. unfold toISOString, iso_timestamp. destruct (civil _) as [[y m] d]. simpl in H.
  unfold iso_year. rewrite (proj2 (Z.leb_le 0 y)), (proj2 (Z.leb_le y 9999)) by lia. done.
Qed.
