(* ===== verification/Instants.v ===== *)
(** * Operational instants (http-client/src/instants.ts, http-api/src/instants.ts)

    A deadline as a producer states it and as the service reads it: the same
    grammar written twice, in the uploader and in the API, and the date the
    uploader sends. Each package's parser is translated from its own source;
    that they agree is a theorem. *)

From S2P Require Import Prelude JsNumber JsString JsSort Json Model Codec HistoryOrder JsDate HttpRetry.

Local Open Scope Z_scope.

Definition OPERATIONAL_INSTANT_GRAMMAR : str :=
  js "an RFC 3339 instant with an explicit offset, seconds 00 to 59, and at most millisecond precision, such as 2027-01-01T00:00:00Z or 2027-01-01T00:00:00.123Z".

(** [NotAnInstant]: its message. *)
Definition NotAnInstant (what : str) : str := what ++ js " must be " ++ OPERATIONAL_INSTANT_GRAMMAR.

(** ** The grammar: OPERATIONAL *)

(** [[01]\d|2[0-3]] and [[0-5]\d] *)
Definition hour_pair (u v : N) : bool :=
  (((u =? 48)%N || (u =? 49)%N) && is_digit v) || ((u =? 50)%N && in_range 48 51 v).
Definition sixty_pair (u v : N) : bool := in_range 48 53 u && is_digit v.

Definition take_pair (pair : N → N → bool) (s : str) : option (str * str) :=
  match s with u :: v :: s' => if pair u v then Some ([u; v], s') else None | _ => None end.

(** [(?:\.(\d{1,3}))?] *)
Definition take_millis (s : str) : option (option str * str) :=
  match s with
  | u :: s' =>
      if (u =? 46)%N then
        let (ds, rest) := span_digits s' in
        if (1 <=? length ds)%nat && (length ds <=? 3)%nat then Some (Some ds, rest) else None
      else Some (None, s)
  | [] => Some (None, s)
  end.

(** [OPERATIONAL.exec(text)] of the uploader, with its groups. *)
Definition exec_operational (s : str) : option Timestamp :=
  y ← take_digits 4 s;
  s1 ← skip_char 45 y.2;
  mo ← take_digits 2 s1;
  s2 ← skip_char 45 mo.2;
  d ← take_digits 2 s2;
  s3 ← skip_char 84 d.2;
  h ← take_pair hour_pair s3;
  s4 ← skip_char 58 h.2;
  mi ← take_pair sixty_pair s4;
  s5 ← skip_char 58 mi.2;
  sec ← take_pair sixty_pair s5;
  f ← take_millis sec.2;
  z ← take_zone f.2;
  Some {| ts_year := y.1; ts_month := mo.1; ts_day := d.1; ts_hour := h.1; ts_minute := mi.1;
          ts_second := sec.1; ts_fraction := f.1; ts_zone := z |}.

(** [OPERATIONAL.test(text)] of the service. *)
Definition skip_pair (pair : N → N → bool) (s : str) : option str :=
  match s with u :: v :: s' => if pair u v then Some s' else None | _ => None end.

Definition skip_millis (s : str) : option str :=
  match s with
  | u :: s' =>
      if (u =? 46)%N then
        let (ds, rest) := span_digits s' in
        if (length ds =? 0)%nat || (3 <? length ds)%nat then None else Some rest
      else Some s
  | [] => Some s
  end.

Definition skip_zone_part (s : str) : option str :=
  match s with
  | u :: s' =>
      if (u =? 90)%N then Some s'
      else if (u =? 43)%N || (u =? 45)%N then s ← skip_exact_digits 2 s'; s ← skip_char 58 s; skip_exact_digits 2 s
      else None
  | [] => None
  end.

Definition test_operational (s : str) : bool :=
  bool_decide (
    (s ← skip_exact_digits 4 s; s ← skip_char 45 s; s ← skip_exact_digits 2 s; s ← skip_char 45 s; s ← skip_exact_digits 2 s;
     s ← skip_char 84 s; s ← skip_pair hour_pair s; s ← skip_char 58 s; s ← skip_pair sixty_pair s;
     s ← skip_char 58 s; s ← skip_pair sixty_pair s; s ← skip_millis s; skip_zone_part s) = Some []).

(** ** The parsers *)

(** [parseOperationalInstant] of the uploader. *)
Definition client_parseOperationalInstant (text : json) (what : str) : res str Date :=
  match text with
  | JStr s =>
      match exec_operational s with
      | None => Throw (NotAnInstant what)
      | Some t =>
          let year := digits_value (ts_year t) in
          let month := digits_value (ts_month t) in
          let day := digits_value (ts_day t) in
          let oh := match ts_zone t with Some (_, oh, _) => digits_value oh | None => 0 end in
          let om := match ts_zone t with Some (_, _, om) => digits_value om | None => 0 end in
          if (month <? 1) || (12 <? month) || (day <? 1) || (month_days year month <? day)
          then Throw (NotAnInstant what)
          else if (23 <? oh) || (59 <? om) then Throw (NotAnInstant what)
          else
            match date_parse s with
            | Some epochMs => Ok (new_date epochMs)
            | None => Throw (NotAnInstant what)
            end
      end
  | _ => Throw (NotAnInstant what)
  end.

(** [parseOperationalInstant] of the service. *)
Definition api_parseOperationalInstant (text : json) (what : str) : res str Date :=
  match text with
  | JStr s =>
      if negb (test_operational s) then Throw (NotAnInstant what)
      else
        match historyInstant s with
        | Throw _ => Throw (NotAnInstant what)
        | Ok position =>
            if negb (leap position =? 0) then Throw (NotAnInstant what)
            else
              match new_date (epochMs position) with
              | None => Throw (NotAnInstant what)
              | Some at_ => Ok (Some at_)
              end
        end
  | _ => Throw (NotAnInstant what)
  end.

(** [checkExpiresAt]; [None] is a value that is not a [Date]. *)
Definition checkExpiresAt (expiresAt : option Date) : res str Z :=
  match expiresAt with
  | Some (Some ms) => Ok ms
  | _ => Throw (js "expiresAt must be a valid Date: the instant after which the run may be deleted")
  end.

(** [expiryAfter] *)
Definition expiryAfter (retentionMs : number) (now : option Date) : res str Date :=
  match as_integer retentionMs with
  | Some r =>
      if r <? 1 then Throw (js "retentionMs must be a whole number of milliseconds of at least one")
      else
        match now with
        | Some (Some n) =>
            match new_date (n + r) with
            | Some at_ => Ok (Some at_)
            | None => Throw (js "retentionMs is so large that it names no instant")
            end
        | _ => Throw (js "now must be a valid Date")
        end
  | None => Throw (js "retentionMs must be a whole number of milliseconds of at least one")
  end.

(** ** Lemmas *)

(** The texts of the grammar: a timestamp with its clock in range and at most milliseconds. *)
Record operational (t : Timestamp) : Prop := {
  op_hour : digits_value (ts_hour t) <= 23;
  op_minute : digits_value (ts_minute t) <= 59;
  op_second : digits_value (ts_second t) <= 59;
  op_fraction : match ts_fraction t with Some ds => (length ds <= 3)%nat | None => True end;
}.

Ltac cbn_option := cbn [mbind option_bind fmap option_fmap option_map fst snd].

Lemma skip_digits_take n s : skip_exact_digits n s = snd <$> take_digits n s.
Proof.
  unfold skip_exact_digits. revert s. induction n as [|n IH]; intros s; simpl; [done|].
  destruct s as [|u s]; simpl; [done|]. destruct (is_digit u); simpl.
  - rewrite IH. by destruct (take_digits n s) as [[]|].
  - by rewrite andb_false_r.
Qed.

Lemma skip_pair_take p s : skip_pair p s = snd <$> take_pair p s.
Proof. destruct s as [|u [|v s]]; simpl; try done. by destruct (p u v). Qed.

Lemma skip_millis_take s : skip_millis s = snd <$> take_millis s.
Proof.
  unfold skip_millis, take_millis. destruct s as [|u s]; [done|]. destruct (u =? 46)%N; [|done].
  destruct (span_digits s) as [ds rest]. destruct ds as [|? [|? [|? [|? ds]]]]; done.
Qed.

Lemma skip_zone_take s : skip_zone_part s = Some [] ↔ is_Some (take_zone s).
Proof.
  unfold skip_zone_part, take_zone. destruct s as [|u s]; [split; [done|by intros []]|].
  destruct (u =? 90)%N; [destruct s; split; try done; by intros []|].
  destruct (_ || _); [|split; [done|by intros []]].
  rewrite skip_digits_take. destruct (take_digits 2 s) as [[h r]|]; cbn_option; [|split; [done|by intros []]].
  destruct (skip_char 58 r) as [c|]; cbn_option; [|split; [done|by intros []]].
  rewrite skip_digits_take. destruct (take_digits 2 c) as [[m r']|]; cbn_option; [|split; [done|by intros []]].
  destruct r'; split; try done; by intros [].
Qed.

Lemma test_exec s : test_operational s = true ↔ is_Some (exec_operational s).
Proof.
  unfold test_operational, exec_operational. rewrite bool_decide_eq_true.
  repeat (rewrite ?skip_digits_take, ?skip_pair_take, ?skip_millis_take;
    match goal with
    | |- context [take_digits ?n ?x] => destruct (take_digits n x) as [[? ?]|]
    | |- context [take_pair ?n ?x] => destruct (take_pair n x) as [[? ?]|]
    | |- context [take_millis ?x] => destruct (take_millis x) as [[? ?]|]
    | |- context [skip_char ?n ?x] => destruct (skip_char n x)
    end; cbn_option; [|split; [done|by intros []]]).
  rewrite skip_zone_take. destruct (take_zone _); simpl; split; try done; by intros [].
Qed.

(** A pair of digits within a bound: the clock fields of the grammar. *)
Definition pair_bound (p : N → N → bool) (bound : Z) : Prop :=
  ∀ u v, p u v = true ↔ is_digit u = true ∧ is_digit v = true ∧ digits_value [u; v] <= bound.

Lemma digit_range u : is_digit u = true ↔ (48 <= u <= 57)%N.
Proof. unfold is_digit, in_range. by rewrite andb_true_iff, !N.leb_le. Qed.

Lemma hour_pair_bound : pair_bound hour_pair 23.
Proof.
  intros u v. unfold hour_pair. rewrite orb_true_iff, !andb_true_iff, orb_true_iff, !N.eqb_eq, !digit_range.
  unfold in_range. rewrite andb_true_iff, !N.leb_le. unfold digits_value; simpl. lia.
Qed.

Lemma sixty_pair_bound : pair_bound sixty_pair 59.
Proof.
  intros u v. unfold sixty_pair, in_range. rewrite !andb_true_iff, !digit_range, !N.leb_le.
  unfold digits_value; simpl. lia.
Qed.

Lemma take_pair_Some p bound s d r :
  pair_bound p bound → take_pair p s = Some (d, r) → s = d ++ r ∧ digit_text 2 d ∧ digits_value d <= bound.
Proof.
  intros Hp. destruct s as [|u [|v s]]; simpl; try done. destruct (p u v) eqn:E; [|done].
  intros [= <- <-]. apply Hp in E as (Hu & Hv & Hb). split_and!; try done. split; [done|].
  simpl. by rewrite Hu, Hv.
Qed.

Lemma take_pair_app p bound d r :
  pair_bound p bound → digit_text 2 d → digits_value d <= bound → take_pair p (d ++ r) = Some (d, r).
Proof.
  intros Hp [Hl Hd] Hb. destruct d as [|u [|v [|]]]; try done. simpl in *.
  rewrite !andb_true_iff in Hd. rewrite (proj2 (Hp u v)); [done|]. tauto.
Qed.

Lemma take_millis_text f z :
  wf_fraction f → match f with Some ds => (length ds <= 3)%nat | None => True end → wf_zone z →
  take_millis (fraction_text f ++ zone_text z) = Some (f, zone_text z).
Proof.
  intros Hf H3 Hz%zone_text_head. destruct f as [ds|]; unfold take_millis; cbn [fraction_text app].
  - rewrite N.eqb_refl, span_digits_app; [|apply Hf|by destruct (zone_text z); [|apply Hz]].
    destruct Hf as [[H1 _] _]. apply Nat.leb_le in H1, H3. by rewrite H1, H3.
  - destruct (zone_text z) as [|u r]; [done|]. simpl. destruct Hz as [_ Hz%N.eqb_neq]. by rewrite Hz.
Qed.

Lemma take_millis_Some s f r :
  take_millis s = Some (f, r) →
  s = fraction_text f ++ r ∧ wf_fraction f ∧ match f with Some ds => (length ds <= 3)%nat | None => True end.
Proof.
  unfold take_millis. destruct s as [|u s]; [by intros [= <- <-]|].
  destruct (N.eqb_spec u 46) as [->|]; [|by intros [= <- <-]].
  destruct (span_digits_spec s) as [E Hd]. destruct (span_digits s) as [ds rest]. cbn [fst snd] in *.
  destruct ((1 <=? length ds)%nat && _) eqn:Hl; [|done]. intros [= <- <-].
  apply andb_true_iff in Hl as [H1%Nat.leb_le H3%Nat.leb_le]. subst s. split_and!; try done.
  split; [lia|done].
Qed.

(** The groups of a match are those of the text, and every text of the grammar matches. *)
Lemma exec_operational_spec s t :
  exec_operational s = Some t ↔ s = timestamp_text t ∧ wf_timestamp t ∧ operational t.
Proof.
  split.
  - unfold exec_operational. intros H.
    repeat match goal with
    | H : mbind _ ?m = Some _ |- _ =>
        let E := fresh "E" in destruct m as [[? ?]|] eqn:E; cbn [mbind option_bind fst snd] in H; [|discriminate H]
    | H : mbind _ ?m = Some _ |- _ =>
        let E := fresh "E" in destruct m eqn:E; cbn [mbind option_bind fst snd] in H; [|discriminate H]
    end.
    simplify_eq. unfold timestamp_text; simpl.
    repeat match goal with
    | E : take_digits _ _ = Some _ |- _ => apply take_digits_Some in E as [? ?]; subst
    | E : skip_char _ _ = Some _ |- _ => apply skip_char_Some in E; subst
    | E : take_pair hour_pair _ = Some _ |- _ => apply (take_pair_Some _ 23) in E as (? & ? & ?); [subst|exact hour_pair_bound]
    | E : take_pair sixty_pair _ = Some _ |- _ => apply (take_pair_Some _ 59) in E as (? & ? & ?); [subst|exact sixty_pair_bound]
    | E : take_millis _ = Some _ |- _ => apply take_millis_Some in E as (? & ? & ?); subst
    | E : take_zone _ = Some _ |- _ => apply take_zone_Some in E as [? ?]; subst
    end.
    split; [done|]. split; by constructor.
  - intros (-> & [H1 H2 H3 H4 H5 H6 H7 H8] & [O1 O2 O3 O4]). unfold exec_operational, timestamp_text.
    pose proof hour_pair_bound. pose proof sixty_pair_bound.
    repeat (rewrite ?take_digits_app, ?(take_pair_app _ 23), ?(take_pair_app _ 59) by done;
            cbn [mbind option_bind fst snd]; rewrite ?skip_char_cons; cbn [mbind option_bind fst snd]).
    rewrite take_millis_text by done. cbn [mbind option_bind fst snd].
    rewrite take_zone_text by done. by destruct t.
Qed.

(** Both grammars are narrowings of the protocol's timestamp. *)
Lemma operational_timestamp s t : exec_operational s = Some t → exec_timestamp s = Some t.
Proof. intros (-> & H & _)%exec_operational_spec. by apply exec_timestamp_text. Qed.

(** A four-digit year is well inside the range of a [Date]. *)
Lemma four_digits_in_range t : wf_timestamp t → valid_fields t → Z.abs (epochMs (position t)) <= MAX_TIME.
Proof.
  intros Hw Hv. destruct (position_bounds t Hw Hv) as [Hp _].
  pose proof (digits_value_bound _ _ (wt_year t Hw)) as Hy. change (10 ^ Z.of_nat 4) with 10000 in Hy.
  pose proof (digits_value_bound _ _ (wt_hour t Hw)) as Hh. pose proof (digits_value_bound _ _ (wt_minute t Hw)) as Hmi.
  assert (-100000 <= zone_offset (ts_zone t) <= 100000) as Hz.
  { pose proof (vf_zone t Hv) as Hzz. pose proof (wt_zone t Hw) as Hwz. unfold zone_offset.
    destruct (ts_zone t) as [[[sg oh] om]|]; [|lia]. destruct Hwz as (_ & Ho & Hm).
    pose proof (digits_value_bound _ _ Ho). pose proof (digits_value_bound _ _ Hm). destruct (sg =? 45)%N; lia. }
  assert (-800000 <= epoch_day (digits_value (ts_year t)) (digits_value (ts_month t)) (digits_value (ts_day t)) <= 4000000) as He.
  { pose proof (vf_month t Hv). pose proof (vf_day t Hv) as Hd. unfold epoch_day.
    change (days_before_year 1970) with 719528.
    assert (0 <= days_before_year (digits_value (ts_year t)) <= 3652425).
    { pose proof (days_before_year_mono 0 (digits_value (ts_year t)) ltac:(lia)) as Ha.
      pose proof (days_before_year_mono (digits_value (ts_year t)) 10000 ltac:(lia)) as Hb.
      change (days_before_year 0) with 0 in Ha. change (days_before_year 10000) with 3652425 in Hb. lia. }
    assert (∀ y m, 0 <= month_days y m <= 31) as Hmd.
    { intros y m. unfold month_days. destruct (_ && _); [lia|]. unfold DAYS_IN_MONTH.
      destruct (Z.to_nat m) as [|[|[|[|[|[|[|[|[|[|[|[|[|]]]]]]]]]]]]]; simpl; lia. }
    assert (0 <= days_before_month (digits_value (ts_year t)) (digits_value (ts_month t)) <= 31 * 12).
    { unfold days_before_month. assert (∀ l, 0 <= foldr Z.add 0 ((λ m, month_days (digits_value (ts_year t)) m) <$> l) <= 31 * Z.of_nat (length l)) as Hf.
      { induction l as [|x l IH]; csimpl; [lia|]. pose proof (Hmd (digits_value (ts_year t)) x). lia. }
      specialize (Hf (seqZ 1 (digits_value (ts_month t) - 1))). rewrite length_seqZ in Hf. lia. }
    pose proof (Hmd (digits_value (ts_year t)) (digits_value (ts_month t))). lia. }
  change (10 ^ Z.of_nat 2) with 100 in *.
  unfold MAX_TIME. unfold utc_minutes in Hp. lia.
Qed.

(** The instant a text of the grammar names, when its calendar and offset exist. *)
Definition names_instant (s : str) (ms : Z) : Prop :=
  ∃ t, s = timestamp_text t ∧ wf_timestamp t ∧ operational t ∧ valid_fields t ∧
       ms = (utc_minutes t * 60 + second_of t) * 1000 + fraction_ms (ts_fraction t).

Lemma operational_fields s t :
  exec_operational s = Some t →
  (1 <= digits_value (ts_month t) <= 12) ∧
  (1 <= digits_value (ts_day t) <= month_days (digits_value (ts_year t)) (digits_value (ts_month t))) ∧
  match ts_zone t with Some (_, oh, om) => digits_value oh <= 23 ∧ digits_value om <= 59 | None => True end →
  valid_fields t.
Proof.
  intros (_ & Hw & [O1 O2 O3 _])%exec_operational_spec (Hm & Hd & Hz).
  constructor; try done; lia.
Qed.

Lemma position_ordinary t :
  second_of t <= 59 →
  position t = {| epochMs := (utc_minutes t * 60 + second_of t) * 1000 + fraction_ms (ts_fraction t); leap := 0 |}.
Proof. intros. unfold position. by rewrite (proj2 (Z.ltb_lt _ _)) by lia. Qed.

(** Projections of a position, as rewrites: the terms are too large to leave to conversion. *)
Lemma epochMs_of e l : epochMs {| epochMs := e; leap := l |} = e.
Proof. done. Qed.
Lemma leap_of e l : leap {| epochMs := e; leap := l |} = l.
Proof. done. Qed.

Lemma new_date_in_range ms : Z.abs ms <= MAX_TIME → new_date ms = Some ms.
Proof. intros. unfold new_date. by rewrite (proj2 (Z.leb_le _ _)). Qed.

Lemma client_Ok s what d :
  client_parseOperationalInstant (JStr s) what = Ok d ↔ ∃ ms, names_instant s ms ∧ d = Some ms.
Proof.
  split.
  - unfold client_parseOperationalInstant. destruct (exec_operational s) as [t|] eqn:E; [|done].
    destruct (_ || (month_days _ _ <? _)) eqn:G1; [done|].
    destruct (_ || (59 <? _)) eqn:G2; [done|]. rewrite !orb_false_iff, !Z.ltb_ge in G1, G2.
    assert (valid_fields t) as Hv.
    { apply (operational_fields s t E). destruct (ts_zone t) as [[[]]|]; lia. }
    apply exec_operational_spec in E as (-> & Hw & Ho). pose proof (op_second t Ho) as H59.
    rewrite date_parse_ordinary by (done || lia). intros [= <-].
    pose proof (four_digits_in_range t Hw Hv) as Hr. rewrite (position_ordinary t H59) in Hr. rewrite epochMs_of in Hr.
    rewrite (new_date_in_range _ Hr). eexists. split; [by exists t|done].
  - intros (ms & (t & -> & Hw & Ho & Hv & ->) & ->). unfold client_parseOperationalInstant.
    rewrite (proj2 (exec_operational_spec _ t)) by done. pose proof (op_second t Ho) as H59.
    pose proof (four_digits_in_range t Hw Hv) as Hr. rewrite (position_ordinary t H59) in Hr. rewrite epochMs_of in Hr.
    rewrite date_parse_ordinary by (done || lia). destruct Hv as [Hm Hd _ _ _ Hz].
    rewrite (proj2 (Z.ltb_ge _ 1)), (proj2 (Z.ltb_ge 12 _)), (proj2 (Z.ltb_ge _ 1)),
      (proj2 (Z.ltb_ge (month_days _ _) _)) by lia. cbn [orb].
    rewrite (proj2 (Z.ltb_ge 23 _)), (proj2 (Z.ltb_ge 59 _)) by (destruct (ts_zone t) as [[[]]|]; lia).
    cbn [orb]. by rewrite (new_date_in_range _ Hr).
Qed.

Lemma api_Ok s what d :
  api_parseOperationalInstant (JStr s) what = Ok d ↔ ∃ ms, names_instant s ms ∧ d = Some ms.
Proof.
  split.
  - unfold api_parseOperationalInstant. destruct (test_operational s) eqn:E; cbn [negb]; [|done].
    apply test_exec in E as [t E]. destruct (historyInstant s) as [i|] eqn:Hi; [|done].
    apply historyInstant_Ok in Hi as (t' & -> & Hw & Hv & _ & ->).
    pose proof (operational_timestamp _ _ E) as Et. rewrite exec_timestamp_text in Et by done.
    injection Et as <-. apply exec_operational_spec in E as (_ & _ & Ho). pose proof (op_second t' Ho) as H59.
    pose proof (four_digits_in_range t' Hw Hv) as Hr.
    rewrite (position_ordinary t' H59) in Hr |- *. rewrite epochMs_of in Hr |- *. rewrite leap_of. change (negb (0 =? 0)) with false. cbv iota.
    rewrite (new_date_in_range _ Hr). intros [= <-]. eexists. split; [by exists t'|done].
  - intros (ms & (t & -> & Hw & Ho & Hv & ->) & ->). unfold api_parseOperationalInstant.
    assert (exec_operational (timestamp_text t) = Some t) as E by by apply exec_operational_spec.
    rewrite (proj2 (test_exec _)) by eauto. cbn [negb]. pose proof (op_second t Ho) as H59.
    rewrite historyInstant_text by (done || lia). pose proof (four_digits_in_range t Hw Hv) as Hr.
    rewrite (position_ordinary t H59) in Hr |- *. rewrite epochMs_of in Hr |- *. rewrite leap_of. change (negb (0 =? 0)) with false. cbv iota.
    by rewrite (new_date_in_range _ Hr).
Qed.

(** Whatever is not accepted is answered with the one error. *)
Lemma client_Throw text what e : client_parseOperationalInstant text what = Throw e → e = NotAnInstant what.
Proof. unfold client_parseOperationalInstant. repeat case_match; congruence. Qed.

Lemma api_Throw text what e : api_parseOperationalInstant text what = Throw e → e = NotAnInstant what.
Proof. unfold api_parseOperationalInstant. repeat case_match; congruence. Qed.

Lemma iso_timestamp_names ms :
  MIN_FOUR_DIGITS <= ms <= MAX_FOUR_DIGITS → names_instant (toISOString ms) ms.
Proof.
  intros H. exists (iso_timestamp ms). rewrite toISOString_text by done.
  pose proof (iso_year_range ms H) as Hy. pose proof (iso_timestamp_wf ms) as Hw. split; [done|]. split; [done|].
  unfold iso_timestamp in *. pose proof (civil_spec (ms / 86400000)) as Hc.
  destruct (civil _) as [[y m] d]. simpl in Hy. destruct Hc as (Hm & Hd & He & _).
  assert (month_days y m <= 31) as Hmd.
  { unfold month_days. destruct (_ && _); [lia|]. unfold DAYS_IN_MONTH.
    destruct (Z.to_nat m) as [|[|[|[|[|[|[|[|[|[|[|[|[|]]]]]]]]]]]]]; simpl; lia. }
  pose proof (Z.mod_pos_bound ms 86400000 ltac:(lia)) as Hk. pose proof (Z.div_mod ms 86400000 ltac:(lia)) as Ek.
  set (k := ms mod 86400000) in *.
  assert (0 <= k / 3600000 < 24) by (Z.to_euclidean_division_equations; lia).
  pose proof (Z.mod_pos_bound (k / 60000) 60 ltac:(lia)). pose proof (Z.mod_pos_bound (k / 1000) 60 ltac:(lia)).
  pose proof (Z.mod_pos_bound k 1000 ltac:(lia)).
  split_and!.
  - constructor; cbn [ts_hour ts_minute ts_second ts_fraction]; rewrite ?fixed_small by (simpl; lia); try lia.
    by rewrite (proj1 (fixed_digit_text 3 _)).
  - constructor; cbn [ts_year ts_month ts_day ts_hour ts_minute ts_second ts_zone];
      rewrite ?fixed_small by (simpl; lia); try done; lia.
  - unfold utc_minutes, zone_offset, fraction_ms;
      cbn [ts_year ts_month ts_day ts_hour ts_minute ts_second ts_zone ts_fraction default].
    cbn [from_option id]. destruct (fixed_digit_text 3 (k mod 1000)) as [Hl _]. rewrite Hl.
    cbn [Nat.sub repeat]. rewrite app_nil_r, take_ge by (rewrite Hl; done). clear Hl.
    rewrite !fixed_small by (simpl; lia). rewrite He.
    Z.to_euclidean_division_equations. lia.
Qed.

(** ** Properties *)

(** The uploader and the service agree on every deadline: whatever a producer states, the two
    parsers, each with its own grammar and its own calendar code, give the same instant or refuse it
    with the same words. *)
Theorem producer_and_service_agree text what :
  client_parseOperationalInstant text what = api_parseOperationalInstant text what.
Proof.
  destruct text as [| | |s| |]; try done.
  destruct (client_parseOperationalInstant (JStr s) what) as [d|e] eqn:C.
  - apply client_Ok, (api_Ok s what) in C. done.
  - destruct (api_parseOperationalInstant (JStr s) what) as [d|e'] eqn:A.
    + apply api_Ok, (client_Ok s what) in A. congruence.
    + apply client_Throw in C. apply api_Throw in A. by subst.
Qed.

(** An accepted deadline is exact: the text is a timestamp with an existing calendar day, an
    offset in range, a second below 60 and at most three fractional digits, and the instant is the
    one counted on the calendar, whose milliseconds are the fraction itself, nothing truncated. *)
Theorem operational_instant_exact s what d :
  api_parseOperationalInstant (JStr s) what = Ok d →
  ∃ t, s = timestamp_text t ∧ wf_timestamp t ∧ valid_fields t ∧ second_of t <= 59 ∧
       d = Some ((utc_minutes t * 60 + second_of t) * 1000 +
                 match ts_fraction t with
                 | Some ds => digits_value ds * 10 ^ (3 - Z.of_nat (length ds)) | None => 0 end).
Proof.
  intros (ms & (t & -> & Hw & Ho & Hv & ->) & ->)%api_Ok. exists t. split_and!; try done; [apply Ho|].
  do 2 f_equal. pose proof (wt_fraction t Hw) as Hf. pose proof (op_fraction t Ho) as H3.
  unfold fraction_ms. destruct (ts_fraction t) as [ds|]; [|done]. simpl. destruct Hf as [Hl Hd].
  destruct ds as [|a [|b [|c [|]]]]; simpl in Hl, H3; try lia; unfold digits_value; simpl; lia.
Qed.

Lemma operational_instant_exact_witness :
  ∃ t, js "2027-01-01T01:00:00.5+01:00" = timestamp_text t ∧ second_of t <= 59.
Proof.
  destruct (operational_instant_exact (js "2027-01-01T01:00:00.5+01:00") (js "expiresAt") (Some 1798761600500) ltac:(vm_compute; reflexivity))
    as (t & H1 & _ & _ & H2 & _).
  exists t. split; [exact H1|exact H2].
Defined.

(** A deadline survives the wire: the text the uploader sends for a [Date] of a four-digit year
    is read by the service as that very instant. *)
Theorem deadline_survives_the_wire d ms what :
  checkExpiresAt d = Ok ms → MIN_FOUR_DIGITS <= ms <= MAX_FOUR_DIGITS →
  api_parseOperationalInstant (JStr (toISOString ms)) what = Ok (Some ms).
Proof. intros _ H. apply api_Ok. exists ms. split; [by apply iso_timestamp_names|done]. Qed.

Lemma deadline_survives_the_wire_witness :
  api_parseOperationalInstant (JStr (js "2024-02-29T23:59:59.999Z")) (js "expiresAt") = Ok (Some 1709251199999).
Proof.
  refine (deadline_survives_the_wire (Some (Some 1709251199999)) 1709251199999 (js "expiresAt") eq_refl _).
  unfold MIN_FOUR_DIGITS, MAX_FOUR_DIGITS. lia.
Defined.

(** A [Date] past the year 9999 is accepted by the uploader and cannot be read by the service. *)
Theorem late_deadline_refused what :
  ∃ ms, checkExpiresAt (Some (new_date ms)) = Ok ms ∧
        api_parseOperationalInstant (JStr (toISOString ms)) what = Throw (NotAnInstant what).
Proof. exists (MAX_FOUR_DIGITS + 1). split; reflexivity. Qed.
