(* ===== verification/Io.v ===== *)
(** * Effectful code

    A function that touches the outside world and may throw is a function from
    the world to what it returned or threw and the world it left. [wp m Q X w]
    says that running [m] in [w] returns with [Q] or throws with [X]: the rules
    below take a proof through sequencing, [try] / [catch] and [finally] the way
    the code is written. *)

From S2P Require Import Prelude JsString JsBytes ValidatorRun.

Definition io (W E A : Type) : Type := W → res E A * W.

#[export] Instance io_mret {W E} : MRet (io W E) := λ A a w, (Ok a, w).
#[export] Instance io_mbind {W E} : MBind (io W E) := λ A B f m w,
  match m w with (Ok a, w') => f a w' | (Throw e, w') => (Throw e, w') end.

Definition throw {W E A} (e : E) : io W E A := λ w, (Throw e, w).

(** An operation of the world that cannot fail. *)
Definition io_do {W E} (f : W → W) : io W E unit := λ w, (Ok tt, f w).

(** [try { m } catch (e) { h e }] *)
Definition try_catch {W E E' A} (m : io W E A) (h : E → io W E' A) : io W E' A := λ w,
  match m w with (Ok a, w') => (Ok a, w') | (Throw e, w') => h e w' end.

(** [try { m } finally { f }], for an [f] that cannot throw. *)
Definition try_finally {W E A} (m : io W E A) (f : W → W) : io W E A := λ w, let '(r, w') := m w in (r, f w').

(** An operation whose errors are given the caller's type. *)
Definition io_map_err {W E E' A} (g : E → E') (m : io W E A) : io W E' A := λ w,
  match m w with (Ok a, w') => (Ok a, w') | (Throw e, w') => (Throw (g e), w') end.

(** A loop over a list that collects what its body gives. *)
Fixpoint io_mapM {W E A B} (f : A → io W E B) (l : list A) : io W E (list B) :=
  match l with
  | [] => mret []
  | x :: l' => y ← f x; ys ← io_mapM f l'; mret (y :: ys)
  end.

(** ** What a computation ensures *)

Definition wp {W E A} (m : io W E A) (Q : A → W → Prop) (X : E → W → Prop) (w : W) : Prop :=
  match m w with (Ok a, w') => Q a w' | (Throw e, w') => X e w' end.

Section wp.
Context {W E : Type}.
Implicit Types w : W.

Lemma wp_ret {A} (a : A) (Q : A → W → Prop) (X : E → W → Prop) w : Q a w → wp (mret a) Q X w.
Proof. done. Qed.

Lemma wp_throw {A} (e : E) (Q : A → W → Prop) (X : E → W → Prop) w : X e w → wp (throw e) Q X w.
Proof. done. Qed.

Lemma wp_bind {A B} (m : io W E A) (f : A → io W E B) (Q : B → W → Prop) (X : E → W → Prop) w :
  wp m (λ a w', wp (f a) Q X w') X w → wp (m ≫= f) Q X w.
Proof. unfold wp, mbind, io_mbind. by destruct (m w) as [[a|e] w']. Qed.

Lemma wp_catch {E' A} (m : io W E A) (h : E → io W E' A) (Q : A → W → Prop) (X : E' → W → Prop) w :
  wp m Q (λ e w', wp (h e) Q X w') w → wp (try_catch m h) Q X w.
Proof. unfold wp, try_catch. by destruct (m w) as [[a|e] w']. Qed.

Lemma wp_finally {A} (m : io W E A) (f : W → W) (Q : A → W → Prop) (X : E → W → Prop) w :
  wp m (λ a w', Q a (f w')) (λ e w', X e (f w')) w → wp (try_finally m f) Q X w.
Proof. unfold wp, try_finally. by destruct (m w) as [[a|e] w']. Qed.

Lemma wp_map_err {E' A} (g : E → E') (m : io W E A) (Q : A → W → Prop) (X : E' → W → Prop) w :
  wp m Q (λ e w', X (g e) w') w → wp (io_map_err g m) Q X w.
Proof. unfold wp, io_map_err. by destruct (m w) as [[a|e] w']. Qed.

Lemma wp_do (f : W → W) (Q : unit → W → Prop) (X : E → W → Prop) w : Q tt (f w) → wp (io_do f) Q X w.
Proof. done. Qed.

Lemma wp_mono {A} (m : io W E A) (Q Q' : A → W → Prop) (X X' : E → W → Prop) w :
  wp m Q X w → (∀ a w', Q a w' → Q' a w') → (∀ e w', X e w' → X' e w') → wp m Q' X' w.
Proof. unfold wp. destruct (m w) as [[a|e] w']; auto. Qed.

Lemma wp_and {A} (m : io W E A) (Q Q' : A → W → Prop) (X X' : E → W → Prop) w :
  wp m Q X w → wp m Q' X' w → wp m (λ a w', Q a w' ∧ Q' a w') (λ e w', X e w' ∧ X' e w') w.
Proof. unfold wp. destruct (m w) as [[a|e] w']; auto. Qed.

(** What a run that returned, or threw, has ensured. *)
Lemma wp_Ok {A} (m : io W E A) (Q : A → W → Prop) (X : E → W → Prop) w a w' :
  wp m Q X w → m w = (Ok a, w') → Q a w'.
Proof. unfold wp. by intros H E1; rewrite E1 in H. Qed.

Lemma wp_Throw {A} (m : io W E A) (Q : A → W → Prop) (X : E → W → Prop) w e w' :
  wp m Q X w → m w = (Throw e, w') → X e w'.
Proof. unfold wp. by intros H E1; rewrite E1 in H. Qed.

Lemma bind_Ok {A B} (m : io W E A) (f : A → io W E B) w b w' :
  (m ≫= f) w = (Ok b, w') → ∃ a w1, m w = (Ok a, w1) ∧ f a w1 = (Ok b, w').
Proof. unfold mbind, io_mbind. destruct (m w) as [[a|e] w1]; [eauto|discriminate]. Qed.

(** A loop keeps an invariant its body keeps, and relates its results to its inputs. *)
Lemma wp_mapM {A B} (f : A → io W E B) (I : W → Prop) (R : A → B → Prop) (X : E → W → Prop) l w :
  (∀ x w, x ∈ l → I w → wp (f x) (λ y w', R x y ∧ I w') X w) →
  I w → wp (io_mapM f l) (λ ys w', Forall2 R l ys ∧ I w') X w.
Proof.
  revert w. induction l as [|x l IH]; intros w Hf Hw; simpl.
  - apply wp_ret. split; [constructor|done].
  - apply wp_bind. eapply wp_mono; [apply Hf; [set_solver|done]| |done].
    intros y w' [Hr Hi]. apply wp_bind. eapply wp_mono; [apply IH; [|done]| |done].
    { intros x' w1 Hx. apply Hf. set_solver. }
    intros ys w1 [Hrs Hi']. apply wp_ret. split; [by constructor|done].
Qed.
End wp.

(** One step of a weakest-precondition proof. *)
Ltac wp_step :=
  match goal with
  | |- wp (mbind _ _) _ _ _ => apply wp_bind
  | |- wp (mret _) _ _ _ => apply wp_ret
  | |- wp (throw _) _ _ _ => apply wp_throw
  | |- wp (try_catch _ _) _ _ _ => apply wp_catch
  | |- wp (try_finally _ _) _ _ _ => apply wp_finally
  | |- wp (io_map_err _ _) _ _ _ => apply wp_map_err
  | |- wp (io_do _) _ _ _ => apply wp_do
  | |- wp (if ?b then _ else _) _ _ _ => let E := fresh "Eb" in destruct b eqn:E
  end.

(** ** The file system of a producer's process

    What [node:fs] answers, as a world the code acts on: every call may change
    the world and may fail, and what another process does in between is part of
    the change. Nothing is assumed of the answers. Of descriptors the laws say
    what an operating system guarantees: opening gives one that was not open,
    closing releases it, and no other call opens or releases any; and a size is
    never negative. *)

Definition Fd : Type := Z.

(** [Stats]: what [lstat] and [fstat] say. *)
Record Stats := { st_kind : StatKind; st_size : Z; st_mtimeMs : Z; st_dev : Z; st_ino : Z }.

Class NodeFs (W : Type) := {
  path_join : str → str → str;
  sys_realpath : str → io W Errno str;
  sys_lstat : str → io W Errno Stats;
  sys_readdir : str → io W Errno (list str);
  sys_open : str → io W Errno Fd;            (* O_RDONLY | O_NOFOLLOW *)
  sys_fstat : Fd → io W Errno Stats;
  sys_read : Fd → io W Errno (option bytes);  (* the next chunk, or the end *)
  sys_read_all : Fd → io W Errno (list bytes);  (* a read stream drained: its chunks *)
  sys_close : Fd → W → W;
}.

(** A call that leaves the open descriptors as they were. *)
Definition keeps_fds {W E A} (open_fds : W → list Fd) (m : io W E A) : Prop :=
  ∀ w, open_fds (m w).2 = open_fds w.

Class NodeFsLaws (W : Type) `{NodeFs W} := {
  open_fds : W → list Fd;
  open_opens p w fd w' : sys_open p w = (Ok fd, w') → (fd ∉ open_fds w) ∧ open_fds w' = (fd :: open_fds w);
  open_fails p w e w' : sys_open p w = (Throw e, w') → open_fds w' = open_fds w;
  close_closes fd w : open_fds (sys_close fd w) = List.filter (λ f, negb (f =? fd)%Z) (open_fds w);
  fstat_size fd w st w' : sys_fstat fd w = (Ok st, w') → (0 <= st_size st)%Z;
  realpath_keeps p : keeps_fds open_fds (sys_realpath p);
  lstat_keeps p : keeps_fds open_fds (sys_lstat p);
  readdir_keeps p : keeps_fds open_fds (sys_readdir p);
  fstat_keeps fd : keeps_fds open_fds (sys_fstat fd);
  read_keeps fd : keeps_fds open_fds (sys_read fd);
  read_all_keeps fd : keeps_fds open_fds (sys_read_all fd);
}.

(** The [code] of a system error. *)
Definition errno_code (e : Errno) : str :=
  match e with
  | ENOENT => js "ENOENT" | ENOTDIR => js "ENOTDIR" | ELOOP => js "ELOOP" | EMLINK => js "EMLINK"
  | EOTHER what => what
  end.

Section laws.
Context {W : Type} `{NodeFsLaws W}.

Lemma wp_keeps {E A} (m : io W E A) (w : W) :
  keeps_fds open_fds m → wp m (λ _ w', open_fds w' = open_fds w) (λ _ w', open_fds w' = open_fds w) w.
Proof. intros Hm. unfold wp. specialize (Hm w). by destruct (m w) as [[]]. Qed.

Lemma wp_open p (w : W) :
  wp (sys_open p) (λ fd w', (fd ∉ open_fds w) ∧ open_fds w' = (fd :: open_fds w)) (λ _ w', open_fds w' = open_fds w) w.
Proof.
  unfold wp. destruct (sys_open p w) as [[fd|e] w'] eqn:E; [by apply open_opens in E|by apply open_fails in E].
Qed.

Lemma wp_fstat fd (w : W) :
  wp (sys_fstat fd) (λ st w', open_fds w' = open_fds w ∧ (0 <= st_size st)%Z) (λ _ w', open_fds w' = open_fds w) w.
Proof.
  pose proof (fstat_keeps fd w) as Hk. unfold wp.
  destruct (sys_fstat fd w) as [[st|e] w'] eqn:E; [|done]. split; [done|by eapply fstat_size].
Qed.

(** Closing what was opened last restores the descriptors. *)
Lemma filter_not_in (fd : Fd) l : fd ∉ l → List.filter (λ f, negb (f =? fd)%Z) l = l.
Proof.
  induction l as [|x l IH]; intros Hn; simpl; [done|].
  destruct (Z.eqb_spec x fd) as [->|]; [set_solver|]. simpl. f_equal. apply IH. set_solver.
Qed.

Lemma close_last fd l (w : W) : fd ∉ l → open_fds w = fd :: l → open_fds (sys_close fd w) = l.
Proof. intros Hn E. rewrite close_closes, E. simpl. rewrite Z.eqb_refl. by apply filter_not_in. Qed.
End laws.
