(* ===== verification/FileSink.v ===== *)
(** * The file sink (ts/packages/sdk/src/file-sink.ts)

    One session of a run, written to a run directory: its event file, flushed
    event by event, and the attachments every session of the run shares,
    published by rename. The sink is one implementation of the session's
    interface [Sink]; the disk is a world, as [node:fs] shows it to a writer. *)

From S2P Require Import Prelude JsString JsBytes JsMap JsSort Json Model Codec SafeName ValidatorRun Session Io.

Local Open Scope Z_scope.

(** ** The disk *)

(** The calls a writer makes. [writeSync] answers how much it wrote; a write stream writes a chunk
    whole or fails; a temporary name is drawn from the process id and the random source. *)
Class SinkDisk (W : Type) := {
  sd_join : str → str → str;
  sd_mkdir : str → io W Errno unit;
  sd_open_new : str → io W Errno Fd;             (* flag wx *)
  sd_write : Fd → bytes → io W Errno Z;          (* writeSync *)
  sd_write_chunk : Fd → bytes → io W Errno unit; (* a write stream's write *)
  sd_fsync : Fd → io W Errno unit;
  sd_close : Fd → io W Errno unit;
  sd_rename : str → str → io W Errno unit;
  sd_unlink : str → io W Errno unit;
  sd_stat_size : str → io W Errno Z;
  sd_temp_suffix : W → str * W;
}.

Definition DEFAULT_MAX_ATTACHMENT_BYTES : Z := 67108864.

Section sink.
Context {W : Type} `{SinkDisk W} (sha256 : bytes → str) (sha256_utf8 : str → str).

(** [FileSink]: what the constructor fixes, whether it is closed, and the disk it writes. *)
Record FileSink := {
  fk_maxAttachmentBytes : Z; fk_eventFile : str; fk_attachmentsDir : str; fk_fd : Fd;
  fk_closed : bool; fk_disk : W;
}.

(** An error of the disk, as a sink throws it. *)
Definition failed (e : Errno) : SinkError := SinkFailed (errno_code e).
Abbreviation act := (io W SinkError).
Definition disk {A} (m : io W Errno A) : act A := io_map_err failed m.

(** [FileSink.open] *)
Definition open (runDirectory sessionId : str) (maxAttachmentBytes : option Z) : act FileSink :=
  let max := default DEFAULT_MAX_ATTACHMENT_BYTES maxAttachmentBytes in
  if max <? 0 then throw (SinkFailed (js "maxAttachmentBytes must be >= 0"))
  else
    let events := sd_join runDirectory EVENTS_DIR in
    let attachments := sd_join runDirectory ATTACHMENTS_DIR in
    disk (sd_mkdir events) ;;
    disk (sd_mkdir attachments) ;;
    let eventFile := sd_join events (sessionFileName sha256_utf8 sessionId) in
    fd ← disk (sd_open_new eventFile);
    ((λ w, (Ok {| fk_maxAttachmentBytes := max; fk_eventFile := eventFile; fk_attachmentsDir := attachments;
                  fk_fd := fd; fk_closed := false; fk_disk := w |}, w)) : act FileSink).

(** [stringifyEvent(event) + '\n'] *)
Definition event_line (e : AnyEvent) : bytes := utf8_encode (stringifyEvent e ++ [10%N]).

(** What [write] does to the disk. *)
Definition write_line (fd : Fd) (e : AnyEvent) : act unit :=
  _ ← disk (sd_write fd (event_line e));
  disk (sd_fsync fd).

(** [discard]: failures are ignored. *)
Definition discard (temp : str) : act unit := λ w, (Ok tt, (sd_unlink temp w).2).

(** [matches] *)
Definition matches (target : str) (size : Z) : act bool := λ w,
  match sd_stat_size target w with (Ok n, w') => (Ok (n =? size), w') | (Throw _, w') => (Ok false, w') end.

(** [createTemp] *)
Definition createTemp (attachmentsDir : str) : act str := λ w,
  let '(suffix, w') := sd_temp_suffix w in (Ok (sd_join attachmentsDir (js ".tmp-" ++ suffix)), w').

(** [publish] *)
Definition publish (attachmentsDir temp sha : str) (size : Z) : act unit :=
  let target := sd_join attachmentsDir sha in
  try_catch (disk (sd_rename temp target)) (λ e,
    ok ← matches target size;
    if (ok : bool) then discard temp
    else discard temp ;; throw e).

(** [catch (e) { this.discard(temp); throw e; }] *)
Definition discarding {A} (temp : str) (m : act A) : act A := try_catch m (λ e, discard temp ;; throw e).

(** Writing the bytes of an attachment: the descriptor is closed whatever happened, and an error of
    the close replaces what went before. *)
Definition closing (fd : Fd) {A} (m : act A) : act A := λ w,
  let '(r, w1) := m w in
  match disk (sd_close fd) w1 with (Ok _, w2) => (r, w2) | (Throw e, w2) => (Throw e, w2) end.

Definition write_temp (temp : str) (content : bytes) : act unit :=
  fd ← disk (sd_open_new temp);
  closing fd (_ ← disk (sd_write fd content); mret tt).

(** What [storeAttachment] does to the disk. *)
Definition store_bytes (attachmentsDir : str) (max : Z) (content : bytes) : act StoredAttachment :=
  let n := Z.of_nat (length content) in
  if max <? n then throw (AttachmentTooLargeError max)
  else
    let sha := sha256 content in
    temp ← createTemp attachmentsDir;
    discarding temp (write_temp temp content) ;;
    publish attachmentsDir temp sha n ;;
    mret {| sa_sha256 := sha; sa_sizeBytes := n |}.

(** The pipeline of [storeAttachmentStream]: each chunk is counted, refused past the limit, hashed and
    written; an error of the stream ends it. *)
Fixpoint pump (fd : Fd) (limit size : Z) (hashed : bytes) (chunks : list bytes) (ending : option SinkError)
    : act (Z * bytes) :=
  match chunks with
  | [] => match ending with Some e => throw e | None => mret (size, hashed) end
  | chunk :: chunks' =>
      let size := size + Z.of_nat (length chunk) in
      if limit <? size then throw (AttachmentTooLargeError limit)
      else disk (sd_write_chunk fd chunk) ;; pump fd limit size (hashed ++ chunk) chunks' ending
  end.

(** What [storeAttachmentStream] does to the disk. *)
Definition store_stream (attachmentsDir : str) (max : Z) (chunks : list bytes) (ending : option SinkError)
    : act StoredAttachment :=
  temp ← createTemp attachmentsDir;
  '(size, hashed) ← discarding temp (fd ← disk (sd_open_new temp); closing fd (pump fd max 0 [] chunks ending));
  let sha := sha256 hashed in
  publish attachmentsDir temp sha size ;;
  mret {| sa_sha256 := sha; sa_sizeBytes := size |}.

(** A method: refused once the sink is closed, and otherwise run on its disk. *)
Definition method {A} (m : FileSink → act A) (s : FileSink) : res SinkError A * FileSink :=
  if fk_closed s then (Throw (SinkFailed (js "sink is closed")), s)
  else
    let '(r, w) := m s (fk_disk s) in
    (r, {| fk_maxAttachmentBytes := fk_maxAttachmentBytes s; fk_eventFile := fk_eventFile s;
           fk_attachmentsDir := fk_attachmentsDir s; fk_fd := fk_fd s; fk_closed := fk_closed s; fk_disk := w |}).

(** [close]: once. *)
Definition close_sink (s : FileSink) : res SinkError unit * FileSink :=
  if fk_closed s then (Ok tt, s)
  else
    let '(r, w) := disk (sd_close (fk_fd s)) (fk_disk s) in
    (r, {| fk_maxAttachmentBytes := fk_maxAttachmentBytes s; fk_eventFile := fk_eventFile s;
           fk_attachmentsDir := fk_attachmentsDir s; fk_fd := fk_fd s; fk_closed := true; fk_disk := w |}).

#[export] Instance file_sink : Sink FileSink := {
  maxAttachmentBytes := fk_maxAttachmentBytes;
  sink_write e := method (λ s, write_line (fk_fd s) e);
  storeAttachment b := method (λ s, store_bytes (fk_attachmentsDir s) (fk_maxAttachmentBytes s) b);
  storeAttachmentStream r := method (λ s, match r with
    | Ok b => store_stream (fk_attachmentsDir s) (fk_maxAttachmentBytes s) [b] None
    | Throw e => store_stream (fk_attachmentsDir s) (fk_maxAttachmentBytes s) [] (Some e)
    end);
  sink_close := close_sink;
}.
End sink.
Arguments FileSink W : clear implicits.

(** ** What a disk guarantees *)

(** A name without a separator: one component of a path. *)
Definition simple_name (s : str) : Prop := 47%N ∉ s.

(** The files of a disk, and the file behind each open descriptor. Other processes write other
    files. *)
Class SinkDiskLaws (W : Type) `{SinkDisk W} := {
  content : W → str → option bytes;
  fd_file : W → Fd → option str;
  sd_join_inj a b c d : simple_name b → simple_name d → sd_join a b = sd_join c d → a = c ∧ b = d;
  mkdir_law p w : content (sd_mkdir p w).2 = content w ∧ fd_file (sd_mkdir p w).2 = fd_file w;
  open_new_ok p w fd w' : sd_open_new p w = (Ok fd, w') →
    content w p = None ∧ fd_file w fd = None ∧ content w' p = Some [] ∧ fd_file w' fd = Some p ∧
    (∀ q, q ≠ p → content w' q = content w q) ∧ (∀ f, f ≠ fd → fd_file w' f = fd_file w f);
  open_new_fail p w e w' : sd_open_new p w = (Throw e, w') → content w' = content w ∧ fd_file w' = fd_file w;
  write_law fd b w p c : fd_file w fd = Some p → content w p = Some c →
    let '(r, w') := sd_write fd b w in
    fd_file w' = fd_file w ∧ (∀ q, q ≠ p → content w' q = content w q) ∧
    ∃ n, (n <= length b)%nat ∧ content w' p = Some (c ++ take n b) ∧
      match r with Ok m => m = Z.of_nat n | Throw _ => True end;
  write_chunk_law fd b w p c : fd_file w fd = Some p → content w p = Some c →
    let '(r, w') := sd_write_chunk fd b w in
    fd_file w' = fd_file w ∧ (∀ q, q ≠ p → content w' q = content w q) ∧
    ∃ n, (n <= length b)%nat ∧ content w' p = Some (c ++ take n b) ∧
      match r with Ok _ => n = length b | Throw _ => True end;
  fsync_law fd w : content (sd_fsync fd w).2 = content w ∧ fd_file (sd_fsync fd w).2 = fd_file w;
  close_law fd w : content (sd_close fd w).2 = content w ∧
    ∀ f, f ≠ fd → fd_file (sd_close fd w).2 f = fd_file w f;
  rename_ok p q w w' : sd_rename p q w = (Ok tt, w') → p ≠ q →
    content w' q = content w p ∧ content w' p = None ∧ fd_file w' = fd_file w ∧
    ∀ x, x ≠ p → x ≠ q → content w' x = content w x;
  rename_fail p q w e w' : sd_rename p q w = (Throw e, w') → content w' = content w ∧ fd_file w' = fd_file w;
  unlink_law p w : fd_file (sd_unlink p w).2 = fd_file w ∧
    (∀ q, q ≠ p → content (sd_unlink p w).2 q = content w q);
  stat_law p w : content (sd_stat_size p w).2 = content w ∧ fd_file (sd_stat_size p w).2 = fd_file w;
  stat_ok p w n w' : sd_stat_size p w = (Ok n, w') → ∃ c, content w p = Some c ∧ n = Z.of_nat (length c);
  temp_law w : content (sd_temp_suffix w).2 = content w ∧ fd_file (sd_temp_suffix w).2 = fd_file w ∧
    simple_name (sd_temp_suffix w).1;
}.
