(* ===== verification/FileSinkSpec.v ===== *)
(** * What the file sink guarantees

    On any disk, a write appends a beginning of its line to the event file, as
    much as the disk took, and storing an attachment leaves that file alone. On
    a disk whose writes are whole and whose flushes succeed, the file holds
    exactly the lines of the events whose write returned, and a stored
    attachment is under its hash. *)

From S2P Require Import Prelude JsString JsBytes JsMap JsSort Json Model Codec ValidatorRun SafeName Session SessionSpec Io FileSink.

Local Open Scope Z_scope.

(** A disk that writes whole or not at all, and flushes. *)
Class HonestDisk (W : Type) `{SinkDiskLaws W} : Prop := {
  write_whole fd b (w : W) n w' : sd_write fd b w = (Ok n, w') → n = Z.of_nat (length b);
  write_nothing fd b (w : W) e w' : sd_write fd b w = (Throw e, w') → content w' = content w;
  fsync_succeeds fd (w : W) : is_ok (sd_fsync fd w).1 = true;
}.

Section spec.
Context {W : Type} `{SinkDiskLaws W} (sha256 : bytes → str) (sha256_utf8 : str → str).
Hypothesis Hsha : ∀ b, forallb is_alnum (sha256 b) = true.

(** ** Leaving the event file alone *)

Section quiet.
Context (ev dir : str) (fd : Fd).

(** The event file is open, with these bytes. *)
Definition holds (c : bytes) (w : W) : Prop := fd_file w fd = Some ev ∧ content w ev = Some c.

Definition spares {A} (m : io W SinkError A) : Prop :=
  ∀ c w, holds c w → wp m (λ _ w', holds c w') (λ _ w', holds c w') w.

Lemma spares_bind {A B} (m : io W SinkError A) (f : A → io W SinkError B) :
  spares m → (∀ a, spares (f a)) → spares (m ≫= f).
Proof. intros Hm Hf c w Hw. apply wp_bind. eapply wp_mono; [by apply Hm|intros a w'; apply Hf|done]. Qed.

Lemma spares_catch {A} (m : io W SinkError A) (h : SinkError → io W SinkError A) :
  spares m → (∀ e, spares (h e)) → spares (try_catch m h).
Proof. intros Hm Hf c w Hw. apply wp_catch. eapply wp_mono; [by apply Hm|done|intros e w'; apply Hf]. Qed.

Lemma spares_ret {A} (a : A) : spares (mret a).
Proof. by intros c w Hw. Qed.
Lemma spares_throw {A} e : spares (throw (A := A) e).
Proof. by intros c w Hw. Qed.

(** A call that changes neither the files nor the descriptors. *)
Lemma spares_same {A} (m : io W Errno A) :
  (∀ w, content (m w).2 = content w ∧ fd_file (m w).2 = fd_file w) → spares (disk m).
Proof.
  intros Hm c w [H1 H2]. destruct (Hm w) as [E1 E2]. unfold disk, io_map_err, wp.
  destruct (m w) as [[a|e] w']; simpl in *; (split; [by rewrite E2|by rewrite E1]).
Qed.

Lemma spares_discard temp : temp ≠ ev → spares (discard temp).
Proof.
  intros Ht c w [H1 H2]. destruct (unlink_law temp w) as [E1 E2]. unfold discard, wp.
  split; [by rewrite E1|by rewrite E2].
Qed.

Lemma spares_matches target size : spares (matches target size).
Proof.
  intros c w [H1 H2]. destruct (stat_law target w) as [E1 E2]. unfold matches, wp.
  destruct (sd_stat_size target w) as [[n|e] w']; simpl in *; (split; [by rewrite E2|by rewrite E1]).
Qed.

Lemma spares_publish temp sha size :
  temp ≠ ev → sd_join dir sha ≠ ev → temp ≠ sd_join dir sha → spares (publish dir temp sha size).
Proof.
  intros Ht Hs Hts. unfold publish. apply spares_catch.
  - intros c w [H1 H2]. unfold disk, io_map_err, wp. destruct (sd_rename temp _ w) as [[[]|e] w'] eqn:E.
    + destruct (rename_ok _ _ _ _ E Hts) as (_ & _ & E2 & E3). split; [by rewrite E2|rewrite E3; [done|congruence|congruence]].
    + destruct (rename_fail _ _ _ _ _ E) as [E1 E2]. split; [by rewrite E2|by rewrite E1].
  - intros e. apply spares_bind; [apply spares_matches|]. intros []; [by apply spares_discard|].
    apply spares_bind; [by apply spares_discard|intros; apply spares_throw].
Qed.

(** Writing a temporary file. *)
Definition holds_temp (temp : str) (tfd : Fd) (c b : bytes) (w : W) : Prop :=
  holds c w ∧ tfd ≠ fd ∧ fd_file w tfd = Some temp ∧ content w temp = Some b.

Lemma open_temp_wp temp c w :
  temp ≠ ev → holds c w →
  wp (disk (sd_open_new temp)) (λ tfd w', holds_temp temp tfd c [] w') (λ _ w', holds c w') w.
Proof.
  intros Ht [H1 H2]. unfold disk, io_map_err, wp. destruct (sd_open_new temp w) as [[tfd|e] w'] eqn:E.
  - destruct (open_new_ok _ _ _ _ E) as (E1 & E2 & E3 & E4 & E5 & E6).
    assert (tfd ≠ fd) as Hne by congruence.
    split; [split; [by rewrite E6|by rewrite E5]|]. done.
  - destruct (open_new_fail _ _ _ _ E) as [E1 E2]. split; [by rewrite E2|by rewrite E1].
Qed.

Lemma closing_wp {A} (tfd : Fd) (m : io W SinkError A) (Q : A → W → Prop) c w :
  tfd ≠ fd →
  wp m (λ a w', holds c w' ∧ ∀ w2, content w2 = content w' → Q a w2) (λ _ w', holds c w') w →
  wp (closing tfd m) (λ a w', Q a w' ∧ holds c w') (λ _ w', holds c w') w.
Proof.
  intros Hne. unfold wp, closing, disk, io_map_err.
  assert (∀ w1, holds c w1 → holds c (sd_close tfd w1).2) as Hclose.
  { intros w1 [H1 H2]. destruct (close_law tfd w1) as [E1 E2]. split; [by rewrite E2 by congruence|by rewrite E1]. }
  destruct (m w) as [[a|e] w1].
  - intros [Hw HQ]. pose proof (Hclose w1 Hw) as Hc. destruct (close_law tfd w1) as [E1 _].
    destruct (sd_close tfd w1) as [[u|e] w2]; simpl in *; [split; [by apply HQ|done]|done].
  - intros Hw. pose proof (Hclose w1 Hw) as Hc. destruct (sd_close tfd w1) as [[u|e'] w2]; done.
Qed.

Lemma write_temp_part_wp temp tfd c b x w :
  temp ≠ ev → holds_temp temp tfd c b w →
  wp (disk (sd_write tfd x)) (λ n w', holds c w' ∧ ∃ k, n = Z.of_nat k ∧ content w' temp = Some (b ++ take k x))
    (λ _ w', holds c w') w.
Proof.
  intros Ht ([H1 H2] & Hne & H3 & H4). unfold disk, io_map_err, wp. pose proof (write_law tfd x w temp b H3 H4) as Hl.
  destruct (sd_write tfd x w) as [r w']. destruct Hl as (E1 & E2 & n & Hn & E3 & E4).
  assert (holds c w') by (split; [by rewrite E1|by rewrite E2 by congruence]).
  destruct r; [split; [done|]; by exists n|done].
Qed.

Lemma write_chunk_wp temp tfd c b x w :
  temp ≠ ev → holds_temp temp tfd c b w →
  wp (disk (sd_write_chunk tfd x)) (λ _ w', holds_temp temp tfd c (b ++ x) w') (λ _ w', holds c w') w.
Proof.
  intros Ht ([H1 H2] & Hne & H3 & H4). unfold disk, io_map_err, wp. pose proof (write_chunk_law tfd x w temp b H3 H4) as Hl.
  destruct (sd_write_chunk tfd x w) as [r w']. destruct Hl as (E1 & E2 & n & Hn & E3 & E4).
  assert (holds c w') by (split; [by rewrite E1|by rewrite E2 by congruence]).
  destruct r as [u|e]; [|done]. subst n. split; [done|]. split; [done|]. split; [by rewrite E1|].
  by rewrite E3, firstn_all.
Qed.

(** The pump writes exactly what it hashes, within the limit. *)
Lemma pump_wp temp tfd limit chunks ending c size b w :
  temp ≠ ev → size = Z.of_nat (length b) → size <= limit → holds_temp temp tfd c b w →
  wp (pump tfd limit size b chunks ending)
    (λ r w', holds c w' ∧ content w' temp = Some r.2 ∧ r.1 = Z.of_nat (length r.2) ∧ r.1 <= limit ∧
       r.2 = b ++ mjoin chunks ∧ ending = None)
    (λ _ w', holds c w') w.
Proof.
  intros Ht. revert size b w. induction chunks as [|x chunks IH]; intros size b w Hs Hl Hw; simpl.
  - destruct ending as [e|]; [wp_step; apply Hw|]. wp_step. destruct Hw as (Hw & _ & _ & Hc). by rewrite app_nil_r.
  - wp_step; [wp_step; apply Hw|]. apply Z.ltb_ge in Eb.
    wp_step. eapply wp_mono; [by apply write_chunk_wp| |done].
    intros u w1 Hw1. cbv beta in Hw1.
    eapply wp_mono; [apply IH; [rewrite length_app; lia|done|done]| |done].
    simpl. by setoid_rewrite <-app_assoc.
Qed.

(** The paths of the attachments directory are not the event file. *)
Hypothesis Hdir : ∀ name, simple_name name → sd_join dir name ≠ ev.

Lemma sha_simple b : simple_name (sha256 b).
Proof.
  intros Hin. pose proof (Hsha b) as Hb. rewrite forallb_forall in Hb.
  apply list_elem_of_In, Hb in Hin. discriminate Hin.
Qed.

Lemma temp_simple suffix : simple_name suffix → simple_name (js ".tmp-" ++ suffix).
Proof.
  unfold simple_name. rewrite elem_of_app. intros Hs [Hin|Hin]; [|done].
  assert (47%N ∉ js ".tmp-") as Hn by (apply (bool_decide_unpack _); vm_compute; exact I). done.
Qed.

Lemma temp_not_sha suffix b : simple_name suffix → sd_join dir (js ".tmp-" ++ suffix) ≠ sd_join dir (sha256 b).
Proof.
  intros Hs E. apply sd_join_inj in E as [_ E].
  - pose proof (Hsha b) as Hb. rewrite <- E in Hb. discriminate Hb.
  - by apply temp_simple.
  - apply sha_simple.
Qed.

(** A temporary name: in the attachments directory, and no hash. *)
Definition temp_ok (temp : str) : Prop := temp ≠ ev ∧ ∀ b, temp ≠ sd_join dir (sha256 b).

Lemma createTemp_wp c w :
  holds c w → wp (createTemp dir) (λ temp w', temp_ok temp ∧ holds c w') (λ _ w', holds c w') w.
Proof.
  intros [H1 H2]. unfold createTemp, wp. destruct (temp_law w) as (E1 & E2 & E3).
  destruct (sd_temp_suffix w) as [suffix w']. simpl in *. split; [|split; [by rewrite E2|by rewrite E1]]. split.
  - by apply Hdir, temp_simple.
  - intros b. by apply temp_not_sha.
Qed.

(** After a publication: the bytes are under their hash, or what was there has their size. *)
Definition published (sha : str) (b : bytes) (n : Z) (w : W) : Prop :=
  content w (sd_join dir sha) = Some b ∨ ∃ c, content w (sd_join dir sha) = Some c ∧ Z.of_nat (length c) = n.

Lemma publish_wp temp sha b n c w :
  temp ≠ ev → sd_join dir sha ≠ ev → temp ≠ sd_join dir sha → content w temp = Some b → holds c w →
  wp (publish dir temp sha n) (λ _ w', published sha b n w' ∧ holds c w') (λ _ w', holds c w') w.
Proof.
  intros Ht Hs Hts Hb Hc. pose proof (spares_publish temp sha n Ht Hs Hts c w Hc) as Hsp.
  revert Hsp. unfold publish, wp, try_catch, disk, io_map_err.
  destruct (sd_rename temp _ w) as [[[]|e] w1] eqn:E; simpl.
  - intros Hw1. destruct (rename_ok _ _ _ _ E Hts) as (E1 & _). split; [|done]. left. by rewrite E1.
  - unfold mbind, io_mbind, matches. destruct (sd_stat_size (sd_join dir sha) w1) as [[m|e'] w2] eqn:Es; simpl; [|done].
    destruct (Z.eqb_spec m n) as [->|]; simpl; [|done]. intros Hw. split; [|exact Hw]. right.
    destruct (stat_ok _ _ _ _ Es) as (x & Ex & ->). exists x. split; [|done].
    destruct (unlink_law temp w2) as [_ Hu]. rewrite Hu by congruence.
    destruct (stat_law (sd_join dir sha) w1) as [Hsame _]. rewrite Es in Hsame. simpl in Hsame. by rewrite Hsame.
Qed.

Lemma discarding_wp {A} temp (m : io W SinkError A) (Q : A → W → Prop) c w :
  temp ≠ ev → wp m Q (λ _ w', holds c w') w → wp (discarding temp m) Q (λ _ w', holds c w') w.
Proof.
  intros Ht Hm. unfold discarding. apply wp_catch. eapply wp_mono; [exact Hm|done|].
  intros e w' Hw'. cbv beta in Hw'. apply wp_bind. eapply wp_mono; [by apply (spares_discard temp Ht c w')| |done].
  intros u w2 Hw2. exact Hw2.
Qed.

(** What a store leaves: the event file as it was, and when it returns, the attachment. *)
Definition stored (b : bytes) (r : StoredAttachment) (w : W) : Prop :=
  sa_sha256 r = sha256 b ∧ sa_sizeBytes r = Z.of_nat (length b) ∧ published (sa_sha256 r) b (sa_sizeBytes r) w.

Lemma store_bytes_wp `{!HonestDisk W} max b c w :
  holds c w →
  wp (store_bytes sha256 dir max b) (λ r w', (stored b r w' ∧ sa_sizeBytes r <= max) ∧ holds c w') (λ _ w', holds c w') w.
Proof.
  intros Hw. unfold store_bytes. wp_step; [by wp_step|]. apply Z.ltb_ge in Eb.
  wp_step. eapply wp_mono; [by apply createTemp_wp| |done]. intros temp w1 [[Ht Hn] Hw1].
  wp_step. eapply wp_mono.
  { apply (discarding_wp temp _ (λ _ w3, content w3 temp = Some b ∧ holds c w3) c); [done|]. unfold write_temp. wp_step. eapply wp_mono; [by apply open_temp_wp| |done].
    intros tfd w2 Hw2. cbv beta in Hw2. pose proof Hw2 as (_ & Hne & _).
    apply (closing_wp tfd _ (λ _ w3, content w3 temp = Some b) c); [done|]. wp_step.
    pose proof (write_temp_part_wp temp tfd c [] b w2 Ht Hw2) as Hwr. unfold wp, disk, io_map_err in Hwr |- *.
    destruct (sd_write tfd b w2) as [[n|e] w3] eqn:E; [|done].
    destruct Hwr as [Hc (k & Hk & Hct)]. split; [done|]. intros w4 E4. rewrite E4, Hct. simpl.
    pose proof (write_whole _ _ _ _ _ E) as Hwh. assert (k = length b) as -> by lia. by rewrite firstn_all. }
  2:{ done. }
  intros u w2 [Hct Hw2]. wp_step. eapply wp_mono; [apply (publish_wp temp (sha256 b) b)|..]; try done.
  { apply Hdir, sha_simple. }
  intros u' w3 [Hp Hw3]. wp_step. split; [|done]. split; [|done]. by split_and!.
Qed.

(** On any disk, an attachment leaves the event file alone. *)
Lemma store_bytes_spares max b c w :
  holds c w → wp (store_bytes sha256 dir max b) (λ _ w', holds c w') (λ _ w', holds c w') w.
Proof.
  intros Hw. unfold store_bytes. wp_step; [by wp_step|].
  wp_step. eapply wp_mono; [by apply createTemp_wp| |done]. intros temp w1 [[Ht Hn] Hw1].
  wp_step. eapply wp_mono.
  { apply (discarding_wp temp _ (λ _ w3, True ∧ holds c w3) c); [done|]. unfold write_temp. wp_step.
    eapply wp_mono; [by apply open_temp_wp| |done]. intros tfd w2 Hw2. cbv beta in Hw2. pose proof Hw2 as (_ & Hne & _).
    apply (closing_wp tfd _ (λ _ _, True) c); [done|]. wp_step.
    eapply wp_mono; [by apply (write_temp_part_wp temp tfd c [] b w2)| |done]. by intros n w3 [Hc _]. }
  2:{ done. }
  intros u w2 [_ Hw2]. wp_step. eapply wp_mono; [apply (spares_publish temp (sha256 b)); try done; apply Hdir, sha_simple| |done].
  intros u' w3 Hw3. by wp_step.
Qed.

Lemma store_stream_wp max chunks ending c w :
  0 <= max → holds c w →
  wp (store_stream sha256 dir max chunks ending)
    (λ r w', (stored (mjoin chunks) r w' ∧ sa_sizeBytes r <= max ∧ ending = None) ∧ holds c w') (λ _ w', holds c w') w.
Proof.
  intros Hmax Hw. unfold store_stream.
  wp_step. eapply wp_mono; [by apply createTemp_wp| |done]. intros temp w1 [[Ht Hn] Hw1].
  wp_step. eapply wp_mono.
  { apply (discarding_wp temp _ (λ (r : Z * bytes) w3, (content w3 temp = Some r.2 ∧ r.1 = Z.of_nat (length r.2) ∧ r.1 <= max ∧
      r.2 = mjoin chunks ∧ ending = None) ∧ holds c w3) c); [done|].
    wp_step. eapply wp_mono; [by apply open_temp_wp| |done].
    intros tfd w2 Hw2. cbv beta in Hw2. pose proof Hw2 as (_ & Hne & _).
    apply (closing_wp tfd); [done|]. eapply wp_mono; [by apply (pump_wp temp)| |done].
    intros r w3 (A1 & A2 & A3 & A4 & A5 & A6). split; [done|]. intros w4 E4. by rewrite E4. }
  2:{ done. }
  intros [n b] w2 [(Hct & Hs & Hl & Eb & Hend) Hw2]. simpl in *. subst b. wp_step. eapply wp_mono; [apply (publish_wp temp _ (mjoin chunks))|..]; try done.
  { apply Hdir, sha_simple. }
  intros u' w3 [Hp Hw3]. wp_step. split; [|done]. split; [|done]. subst n. by split_and!.
Qed.

(** One [writeSync] of the whole line, and one flush: when [write] returns, the end of the file is as much
    of the line as that call answered, and the flush returned; when it throws, some beginning of it. *)
Definition wrote (e : AnyEvent) (returned : bool) (segment : bytes) : Prop :=
  if returned then
    ∃ w m w1, sd_write fd (event_line e) w = (Ok m, w1) ∧ is_ok (sd_fsync fd w1).1 = true ∧
      segment = take (Z.to_nat m) (event_line e)
  else ∃ n, segment = take n (event_line e).

Lemma write_line_any e c w :
  holds c w →
  wp (write_line fd e) (λ _ w', ∃ segment, wrote e true segment ∧ holds (c ++ segment) w')
    (λ _ w', ∃ segment, wrote e false segment ∧ holds (c ++ segment) w') w.
Proof.
  intros [H1 H2]. unfold write_line. wp_step. unfold disk at 1, io_map_err at 1, wp at 1.
  pose proof (write_law fd (event_line e) w ev c H1 H2) as Hl.
  destruct (sd_write fd (event_line e) w) as [[m|err] w'] eqn:E; destruct Hl as (E1 & _ & n & Hn & E3 & E4).
  - destruct (fsync_law fd w') as [F1 F2]. unfold disk, io_map_err, wp.
    assert (holds (c ++ take n (event_line e)) (sd_fsync fd w').2) as Hh by (split; [by rewrite F2, E1|by rewrite F1]).
    destruct (sd_fsync fd w') as [[u|err] w2] eqn:Ef; exists (take n (event_line e)); (split; [|exact Hh]).
    + exists w, m, w'. rewrite Ef. split_and!; [done|done|]. by rewrite E4, Nat2Z.id.
    + by exists n.
  - exists (take n (event_line e)). split; [by exists n|]. split; [by rewrite E1|done].
Qed.

(** A line goes to the end of the file when the write returns, and nothing does when it throws. *)
Lemma write_line_wp `{!HonestDisk W} e c w :
  holds c w → wp (write_line fd e) (λ _ w', holds (c ++ event_line e) w') (λ _ w', holds c w') w.
Proof.
  intros [H1 H2]. unfold write_line. wp_step. unfold disk at 1, io_map_err at 1, wp at 1.
  pose proof (write_law fd (event_line e) w ev c H1 H2) as Hl.
  destruct (sd_write fd (event_line e) w) as [[n|err] w'] eqn:E.
  - destruct Hl as (E1 & _ & k & Hk & E3 & E4). pose proof (write_whole _ _ _ _ _ E) as Hwh.
    assert (k = length (event_line e)) as -> by lia. rewrite firstn_all in E3.
    pose proof (fsync_succeeds fd w') as Hf. destruct (fsync_law fd w') as [F1 F2].
    unfold disk, io_map_err, wp. destruct (sd_fsync fd w') as [[u|err] w2]; [|done]. simpl in *.
    split; [by rewrite F2, E1|by rewrite F1].
  - destruct Hl as (E1 & _). split; [by rewrite E1|]. by rewrite (write_nothing _ _ _ _ _ E).
Qed.
End quiet.
End spec.

(** ** A small disk for the file sink

    Named files, the file behind each descriptor, and temporary names drawn from
    a counter. [HonestWorld] writes whole and flushes; [FaultyWorld] fails the
    flushes it is told to fail and writes at most so many bytes at once, as a
    disk may. Both satisfy the laws of FileSink.v. *)

Record SinkWorld (faulty : bool) := {
  dw_files : str → option bytes;
  dw_fds : list (Fd * str);
  dw_next : nat;                (* the next temporary name *)
  dw_flushes : list bool;       (* which of the next flushes fail *)
  dw_most : nat;                (* the most one write takes *)
}.
Arguments dw_files {faulty}. Arguments dw_fds {faulty}. Arguments dw_next {faulty}.
Arguments dw_flushes {faulty}. Arguments dw_most {faulty}.

Abbreviation HonestWorld := (SinkWorld false).
Abbreviation FaultyWorld := (SinkWorld true).

Section world.
Context {faulty : bool}.
Implicit Types w : SinkWorld faulty.

Definition with_files w files : SinkWorld faulty :=
  {| dw_files := files; dw_fds := dw_fds w; dw_next := dw_next w; dw_flushes := dw_flushes w; dw_most := dw_most w |}.
Definition with_fds w fds : SinkWorld faulty :=
  {| dw_files := dw_files w; dw_fds := fds; dw_next := dw_next w; dw_flushes := dw_flushes w; dw_most := dw_most w |}.

Definition set_file (files : str → option bytes) (p : str) (c : option bytes) : str → option bytes :=
  λ q, if str_eqb q p then c else files q.

Definition new_fd (l : list (Fd * str)) : Fd := 1 + foldr (λ o m, Z.max o.1 m) 2 l.

Definition fd_path (l : list (Fd * str)) (fd : Fd) : option str :=
  snd <$> List.find (λ o, o.1 =? fd) l.

(** Append to the file of a descriptor. *)
Definition append w (fd : Fd) (b : bytes) : option (SinkWorld faulty) :=
  p ← fd_path (dw_fds w) fd; c ← dw_files w p;
  Some (with_files w (set_file (dw_files w) p (Some (c ++ b)))).

Definition EBADF : Errno := EOTHER (js "EBADF").

Definition world_write (fd : Fd) (b : bytes) : io (SinkWorld faulty) Errno Z := λ w,
  let b := if faulty then take (dw_most w) b else b in
  match append w fd b with Some w' => (Ok (Z.of_nat (length b)), w') | None => (Throw EBADF, w) end.

Definition world_fsync (fd : Fd) : io (SinkWorld faulty) Errno unit := λ w,
  if faulty then
    let w' := {| dw_files := dw_files w; dw_fds := dw_fds w; dw_next := dw_next w;
                 dw_flushes := tail (dw_flushes w); dw_most := dw_most w |} in
    match dw_flushes w with true :: _ => (Throw (EOTHER (js "EIO")), w') | _ => (Ok tt, w') end
  else (Ok tt, w).

#[export] Instance world_disk : SinkDisk (SinkWorld faulty) := {
  sd_join a b := a ++ js "/" ++ b;
  sd_mkdir _ w := (Ok tt, w);
  sd_open_new p w :=
    match dw_files w p with
    | Some _ => (Throw (EOTHER (js "EEXIST")), w)
    | None =>
        let fd := new_fd (dw_fds w) in
        (Ok fd, with_fds (with_files w (set_file (dw_files w) p (Some []))) ((fd, p) :: dw_fds w))
    end;
  sd_write := world_write;
  sd_write_chunk fd b w := match append w fd b with Some w' => (Ok tt, w') | None => (Throw EBADF, w) end;
  sd_fsync := world_fsync;
  sd_close fd w := (Ok tt, with_fds w (List.filter (λ o, negb (o.1 =? fd)) (dw_fds w)));
  sd_rename p q w :=
    match dw_files w p with
    | Some c => (Ok tt, with_files w (set_file (set_file (dw_files w) p None) q (Some c)))
    | None => (Throw ENOENT, w)
    end;
  sd_unlink p w :=
    match dw_files w p with
    | Some _ => (Ok tt, with_files w (set_file (dw_files w) p None)) | None => (Throw ENOENT, w) end;
  sd_stat_size p w := match dw_files w p with Some c => (Ok (Z.of_nat (length c)), w) | None => (Throw ENOENT, w) end;
  sd_temp_suffix w :=
    (replicate (dw_next w) 97%N,
     {| dw_files := dw_files w; dw_fds := dw_fds w; dw_next := S (dw_next w); dw_flushes := dw_flushes w; dw_most := dw_most w |});
}.

Lemma set_file_same files p c : set_file files p c p = c.
Proof. unfold set_file. by rewrite str_eqb_refl. Qed.
Lemma set_file_other files p q c : q ≠ p → set_file files p c q = files q.
Proof. intros Hne. unfold set_file. by rewrite (proj2 (str_eqb_neq q p)) by done. Qed.

Lemma new_fd_unused l : fd_path l (new_fd l) = None.
Proof.
  assert (∀ o, o ∈ l → o.1 <= foldr (λ o m, Z.max o.1 m) 2 l) as Hle.
  { induction l as [|x l IH]; intros o Ho; simpl in *; [set_solver|].
    apply elem_of_cons in Ho as [->|Ho]; [lia|]. specialize (IH o Ho). lia. }
  unfold fd_path. destruct (List.find (λ o, o.1 =? new_fd l) l) as [o|] eqn:E; [|done].
  apply find_some in E as [Ho%list_elem_of_In E]. apply Z.eqb_eq in E. specialize (Hle o Ho). unfold new_fd in E. lia.
Qed.

Lemma fd_path_closed l fd f : f ≠ fd → fd_path (List.filter (λ o, negb (o.1 =? fd)) l) f = fd_path l f.
Proof.
  intros Hne. unfold fd_path. induction l as [|[x p] l IH]; simpl; [done|].
  destruct (Z.eqb_spec x fd) as [->|]; simpl.
  - rewrite IH. by destruct (Z.eqb_spec fd f); [congruence|].
  - by destruct (x =? f).
Qed.

Lemma path_join_inj (a b c d : str) : simple_name b → simple_name d → a ++ js "/" ++ b = c ++ js "/" ++ d → a = c ∧ b = d.
Proof.
  intros Hb Hd. revert c. induction a as [|x a IH]; intros [|y c] E; simpl in E.
  - by injection E.
  - injection E as <- E. destruct Hb. rewrite E. apply elem_of_app. right. by left.
  - injection E as -> E. destruct Hd. rewrite <-E. apply elem_of_app. right. by left.
  - injection E as -> E. by apply IH in E as [-> ->].
Qed.

Lemma append_law w fd b p c :
  fd_path (dw_fds w) fd = Some p → dw_files w p = Some c →
  append w fd b = Some (with_files w (set_file (dw_files w) p (Some (c ++ b)))).
Proof. intros Hp Hc. unfold append. rewrite Hp. simpl. by rewrite Hc. Qed.

#[export, refine] Instance world_laws : SinkDiskLaws (SinkWorld faulty) :=
  { content := dw_files; fd_file w := fd_path (dw_fds w) }.
Proof.
  - apply path_join_inj.
  - done.
  - intros p w fd w'. simpl. destruct (dw_files w p) eqn:E; [done|]. intros [= <- <-]. simpl.
    split_and!; [done|apply new_fd_unused|apply set_file_same| | |].
    + unfold fd_path. simpl. by rewrite Z.eqb_refl.
    + intros q Hq. by apply set_file_other.
    + intros f Hf. unfold fd_path. simpl. by destruct (Z.eqb_spec (new_fd (dw_fds w)) f).
  - intros p w e w'. simpl. destruct (dw_files w p); [|done]. by intros [= _ <-].
  - intros fd b w p c Hp Hc. simpl. unfold world_write. cbv zeta. rewrite (append_law w fd _ p c Hp Hc). simpl.
    split; [done|]. split; [intros q Hq; by apply set_file_other|]. destruct faulty.
    + exists (min (dw_most w) (length b)). rewrite set_file_same, length_take. split; [lia|]. split; [|lia].
      destruct (decide (dw_most w <= length b)%nat); [by rewrite Nat.min_l|].
      by rewrite Nat.min_r, !take_ge by lia.
    + exists (length b). by rewrite set_file_same, firstn_all.
  - intros fd b w p c Hp Hc. simpl. rewrite (append_law w fd b p c Hp Hc). simpl.
    split; [done|]. split; [intros q Hq; by apply set_file_other|].
    exists (length b). by rewrite set_file_same, firstn_all.
  - intros fd w. simpl. unfold world_fsync. by destruct faulty; [destruct (dw_flushes w) as [|[]]|].
  - intros fd w. simpl. split; [done|]. intros f Hf. by apply fd_path_closed.
  - intros p q w w'. simpl. destruct (dw_files w p) as [c|] eqn:E; [|done]. intros [= <-] Hne. simpl.
    rewrite set_file_same, set_file_other, set_file_same by done. split_and!; [done|done|done|].
    intros x Hp Hq. by rewrite !set_file_other.
  - intros p q w e w'. simpl. destruct (dw_files w p); [done|]. by intros [= _ <-].
  - intros p w. simpl. destruct (dw_files w p); [|done]. split; [done|]. intros q Hq. by apply set_file_other.
  - intros p w. simpl. by destruct (dw_files w p).
  - intros p w n w'. simpl. destruct (dw_files w p) as [c|]; [|done]. intros [= <- _]. by exists c.
  - intros w. split_and!; [done|done|]. simpl. intros [E _]%elem_of_replicate. discriminate E.
Defined.
End world.

#[export] Instance honest_world : HonestDisk HonestWorld.
Proof.
  split.
  - intros fd b w n w'. simpl. unfold world_write. destruct (append _ _ _); [|done]. by intros [= <- _].
  - intros fd b w e w'. simpl. unfold world_write. destruct (append _ _ _); [done|]. by intros [= _ <-].
  - done.
Qed.

Definition blank_world {faulty} (flushes : list bool) (most : nat) : SinkWorld faulty :=
  {| dw_files := λ _, None; dw_fds := []; dw_next := 1; dw_flushes := flushes; dw_most := most |}.
