(* ===== verification/FileSinkProps.v ===== *)
(** * A session over the file sink

    [Recorded] keeps, beside any sink, the events it was handed and whether their
    write returned; those that did are the log the session's theorems speak of.
    Over the file sink, on any disk, the event file is what those writes left, in
    order; on a disk that writes whole and flushes it holds exactly the lines of
    the log. A small disk makes the theorems run, and two faults of a real disk
    show what the code does when they strike. *)

From S2P Require Import Prelude JsString JsBytes JsMap JsSort Json Model Codec SafeName ValidatorRun Session SessionSpec SessionEmit Io FileSink FileSinkSpec.

Local Open Scope Z_scope.

(** ** A sink and its log *)

(** The events handed to a sink, and whether their write returned. *)
Abbreviation tries := (list (AnyEvent * bool)).
Definition returned (l : tries) : list AnyEvent := omap (λ t, if t.2 : bool then Some t.1 else None) l.

Record Recorded (S : Type) := { rk_sink : S; rk_tried : tries }.
Arguments rk_sink {S}. Arguments rk_tried {S}. Arguments Build_Recorded {S}.

Definition rk_log {S} (k : Recorded S) : list AnyEvent := returned (rk_tried k).

Lemma returned_snoc l e b : returned (l ++ [(e, b)]) = returned l ++ (if b then [e] else []).
Proof. unfold returned. rewrite omap_app. by destruct b. Qed.

Section recorded.
Context {S : Type} `{Sink S}.

(** A method that writes no event. *)
Definition unlogged {A} (r : A * S) (tried : tries) : A * Recorded S :=
  (r.1, {| rk_sink := r.2; rk_tried := tried |}).

#[export] Instance recorded_sink : Sink (Recorded S) := {
  maxAttachmentBytes k := maxAttachmentBytes (rk_sink k);
  sink_write e k :=
    let '(r, k') := sink_write e (rk_sink k) in
    (r, {| rk_sink := k'; rk_tried := rk_tried k ++ [(e, is_ok r)] |});
  storeAttachment b k := unlogged (storeAttachment b (rk_sink k)) (rk_tried k);
  storeAttachmentStream b k := unlogged (storeAttachmentStream b (rk_sink k)) (rk_tried k);
  sink_close k := unlogged (sink_close (rk_sink k)) (rk_tried k);
}.

#[export, refine] Instance recorded_laws : SinkLaws (Recorded S) := { committed := rk_log }.
Proof.
  - intros e k k'. simpl. destruct (sink_write e (rk_sink k)) as [[[]|err] w]; intros [= <-]. unfold rk_log. simpl. by rewrite returned_snoc.
  - intros e err k k'. simpl. destruct (sink_write e (rk_sink k)) as [[[]|err'] w]; intros [= _ <-]. unfold rk_log. simpl.
    by rewrite returned_snoc, app_nil_r.
  - done.
  - done.
  - done.
Defined.

Definition recording (k : S) : Recorded S := {| rk_sink := k; rk_tried := [] |}.
End recorded.

(** ** The event file *)



Section file.
Context {W : Type} `{SinkDiskLaws W} (sha256 : bytes → str) (sha256_utf8 : str → str).
Hypothesis Hsha : ∀ b, forallb is_alnum (sha256 b) = true.
Hypothesis Hsha_utf8 : ∀ s, forallb is_alnum (sha256_utf8 s) = true.

#[local] Instance sink_of_files : Sink (FileSink W) := file_sink sha256.

(** What the event file behind a descriptor holds after some tries, as [write] keeps it. *)
Context (holding : Fd → tries → bytes → Prop).
Hypothesis Hnone : ∀ fd, holding fd [] [].
Hypothesis Hclosed : ∀ fd l c e, holding fd l c → holding fd (l ++ [(e, false)]) c.
Hypothesis Hwrite : ∀ ev fd l c e (w : W), holds ev fd c w → holding fd l c →
  wp (write_line fd e) (λ _ w', ∃ c', holding fd (l ++ [(e, true)]) c' ∧ holds ev fd c' w')
    (λ _ w', ∃ c', holding fd (l ++ [(e, false)]) c' ∧ holds ev fd c' w') w.

(** What holds of a sink and its tries: the file has what they left, the sink still has it open
    unless it is closed, and no attachment is stored over it. *)
Record sink_inv (k : Recorded (FileSink W)) : Prop := {
  si_max : 0 <= fk_maxAttachmentBytes (rk_sink k);
  si_apart name : simple_name name → sd_join (fk_attachmentsDir (rk_sink k)) name ≠ fk_eventFile (rk_sink k);
  si_content : ∃ c, content (fk_disk (rk_sink k)) (fk_eventFile (rk_sink k)) = Some c ∧
    holding (fk_fd (rk_sink k)) (rk_tried k) c;
  si_open : fk_closed (rk_sink k) = false →
    fd_file (fk_disk (rk_sink k)) (fk_fd (rk_sink k)) = Some (fk_eventFile (rk_sink k));
}.

Lemma stem_simple s : forallb stem_char s = true → simple_name s.
Proof. intros Hs Hin. rewrite forallb_forall in Hs. apply list_elem_of_In, Hs in Hin. discriminate Hin. Qed.

Lemma simple_dirs : simple_name EVENTS_DIR ∧ simple_name ATTACHMENTS_DIR.
Proof. split; by apply stem_simple. Qed.

(** Opening gives an empty file of the session's name, apart from every attachment. *)
Lemma open_inv runDirectory sid max w :
  wp (FileSink.open sha256_utf8 runDirectory sid max)
    (λ k _, sink_inv (recording k) ∧ fk_closed k = false ∧
       fk_eventFile k = sd_join (sd_join runDirectory EVENTS_DIR) (sessionFileName sha256_utf8 sid) ∧
       fk_attachmentsDir k = sd_join runDirectory ATTACHMENTS_DIR)
    (λ _ _, True) w.
Proof.
  unfold FileSink.open. cbv zeta. wp_step; [by wp_step|]. apply Z.ltb_ge in Eb. unfold disk at 1.
  assert (∀ {A} (m : io W Errno A) Q w0, (∀ a w1, m w0 = (Ok a, w1) → Q a w1) → wp (disk m) Q (λ _ _, True) w0) as Hdisk.
  { intros A m Q w0 HQ. unfold wp, disk, io_map_err. destruct (m w0) as [[a|e] w'] eqn:E; [by apply HQ|done]. }
  do 2 (wp_step; apply Hdisk; intros _ ? _). wp_step. apply Hdisk. intros fd wf E.
  destruct (open_new_ok _ _ _ _ E) as (_ & _ & Hc & Hf & _). unfold wp. split; [|done].
  split; simpl; [done| |by exists []|done].
  intros name Hn Ej. destruct simple_dirs as [He Ha].
  apply sd_join_inj in Ej as [Ej _]; [|done|by apply stem_simple, sessionFileName_chars].
  apply sd_join_inj in Ej as [_ Ej]; [discriminate Ej|done|done].
Qed.

(** A method of an open sink, seen on its disk. *)
Lemma method_inv {A} (m : FileSink W → io W SinkError A) (added : bool → tries) k :
  sink_inv k →
  (∀ c w, holds (fk_eventFile (rk_sink k)) (fk_fd (rk_sink k)) c w → holding (fk_fd (rk_sink k)) (rk_tried k) c →
     let left b := λ w' : W, ∃ c', holding (fk_fd (rk_sink k)) (rk_tried k ++ added b) c' ∧
       holds (fk_eventFile (rk_sink k)) (fk_fd (rk_sink k)) c' w' in
     wp (m (rk_sink k)) (λ _, left true) (λ _, left false) w) →
  (∀ c, holding (fk_fd (rk_sink k)) (rk_tried k) c → holding (fk_fd (rk_sink k)) (rk_tried k ++ added false) c) →
  sink_inv {| rk_sink := (method m (rk_sink k)).2; rk_tried := rk_tried k ++ added (is_ok (method m (rk_sink k)).1) |}.
Proof.
  intros Hk Hm Ha. destruct (si_content _ Hk) as (c & Hc & Hh). unfold method. destruct (fk_closed (rk_sink k)) eqn:Ec; simpl.
  - split; simpl; try apply Hk. exists c. split; [exact Hc|by apply Ha].
  - specialize (Hm c (fk_disk (rk_sink k)) (conj (si_open _ Hk Ec) Hc) Hh). unfold wp in Hm.
    destruct (m (rk_sink k) _) as [[a|e] w']; simpl in *; destruct Hm as (c' & Hh' & Hf' & Hc');
      (split; simpl; [apply Hk|apply Hk|by exists c'|done]).
Qed.

Lemma method_Ok {A} (m : FileSink W → io W SinkError A) s a s' :
  method m s = (Ok a, s') →
  ∃ w, fk_closed s = false ∧ m s (fk_disk s) = (Ok a, w) ∧
    s' = {| fk_maxAttachmentBytes := fk_maxAttachmentBytes s; fk_eventFile := fk_eventFile s;
            fk_attachmentsDir := fk_attachmentsDir s; fk_fd := fk_fd s; fk_closed := fk_closed s; fk_disk := w |}.
Proof.
  unfold method. destruct (fk_closed s); [done|]. destruct (m s _) as [r w]. intros [= -> <-]. eauto.
Qed.

(** A method that writes no event. *)
Lemma quiet_inv {A} (m : FileSink W → io W SinkError A) k :
  sink_inv k →
  (∀ c w, holds (fk_eventFile (rk_sink k)) (fk_fd (rk_sink k)) c w →
     wp (m (rk_sink k))
       (λ _ w', holds (fk_eventFile (rk_sink k)) (fk_fd (rk_sink k)) c w')
       (λ _ w', holds (fk_eventFile (rk_sink k)) (fk_fd (rk_sink k)) c w') w) →
  sink_inv (unlogged (method m (rk_sink k)) (rk_tried k)).2.
Proof.
  intros Hk Hm. pose proof (method_inv m (λ _, []) k Hk) as Hi. simpl in Hi. rewrite app_nil_r in Hi.
  apply Hi; [|done]. intros c w Hw Hh. cbv zeta. eapply wp_mono; [by apply Hm|eauto|eauto].
Qed.

Lemma step_inv k k' : sink_step k k' → sink_inv k → sink_inv k'.
Proof.
  intros Hs Hk. destruct Hs as [e k|b k|[b|e] k|k]; simpl.
  - pose proof (method_inv (λ s, write_line (fk_fd s) e) (λ b, [(e, b)]) k Hk) as Hm.
    destruct (method _ (rk_sink k)) as [r s'] eqn:E. simpl in *. apply Hm; [|by auto]. intros c w Hw Hh. cbv zeta.
    by apply (Hwrite _ _ _ c).
  - apply (quiet_inv (λ s, store_bytes sha256 (fk_attachmentsDir s) (fk_maxAttachmentBytes s) b)); [done|].
    intros c w Hw. apply store_bytes_spares; try done; apply Hk.
  - apply (quiet_inv (λ s, store_stream sha256 (fk_attachmentsDir s) (fk_maxAttachmentBytes s) [b] None)); [done|].
    intros c w Hw. eapply wp_mono; [apply store_stream_wp; try done; apply Hk|by intros ? w' []|done].
  - apply (quiet_inv (λ s, store_stream sha256 (fk_attachmentsDir s) (fk_maxAttachmentBytes s) [] (Some e))); [done|].
    intros c w Hw. eapply wp_mono; [apply store_stream_wp; try done; apply Hk|by intros ? w' []|done].
  - unfold unlogged, close_sink. destruct (fk_closed (rk_sink k)) eqn:Ec; simpl; [by destruct k|].
    unfold disk, io_map_err. destruct (close_law (fk_fd (rk_sink k)) (fk_disk (rk_sink k))) as [E _].
    destruct (sd_close _ _) as [[u|e] w']; simpl in *; split; simpl; try done; try apply Hk; rewrite E; apply Hk.
Qed.

(** Neither the event file nor the place of a sink ever changes. *)
Lemma step_place k k' : sink_step k k' → fk_fd (rk_sink k') = fk_fd (rk_sink k) ∧
  fk_eventFile (rk_sink k') = fk_eventFile (rk_sink k) ∧ fk_attachmentsDir (rk_sink k') = fk_attachmentsDir (rk_sink k).
Proof.
  intros [e k1|b k1|[b|e] k1|k1]; simpl; unfold unlogged, method, close_sink; simpl;
    repeat (case_match; simplify_eq/=; try done).
Qed.

Lemma session_inv cfg l k :
  sink_inv (recording k) →
  let k' := sink (calls cfg l (new_session (recording k))) in
  sink_inv k' ∧ fk_fd (rk_sink k') = fk_fd k ∧ fk_eventFile (rk_sink k') = fk_eventFile k ∧
  fk_attachmentsDir (rk_sink k') = fk_attachmentsDir k.
Proof.
  intros Hk. cbv zeta.
  apply (session_keeps cfg (λ k', sink_inv k' ∧ fk_fd (rk_sink k') = fk_fd k ∧ fk_eventFile (rk_sink k') = fk_eventFile k ∧
    fk_attachmentsDir (rk_sink k') = fk_attachmentsDir k)); [|done].
  intros k1 k2 Hs (H1' & H2' & H3' & H4'). destruct (step_place _ _ Hs) as (E0 & E1 & E2).
  split; [by eapply step_inv|]. by rewrite E0, E1, E2.
Qed.
End file.

(** What the tries leave on any disk: for each, in order, a segment of its own. *)
Definition left_segments {W} `{SinkDisk W} (fd : Fd) (l : tries) (c : bytes) : Prop :=
  ∃ segments, c = mjoin segments ∧ Forall2 (λ t, wrote (W := W) fd t.1 t.2) l segments.


Section left.
Context {W : Type} `{SinkDiskLaws W}.

Lemma segments_snoc (segs : list bytes) seg : mjoin (segs ++ [seg]) = mjoin segs ++ seg.
Proof. rewrite list.join_app. simpl. by rewrite app_nil_r. Qed.

Lemma left_none fd : left_segments (W := W) fd [] [].
Proof. exists []. by split. Qed.

Lemma left_closed fd l c e : left_segments (W := W) fd l c → left_segments (W := W) fd (l ++ [(e, false)]) c.
Proof.
  intros (segs & -> & Hs). exists (segs ++ [[]]). split; [by rewrite segments_snoc, app_nil_r|].
  apply Forall2_app; [done|]. repeat constructor. simpl. by exists 0%nat.
Qed.

Lemma left_write ev fd l c e (w : W) : holds ev fd c w → left_segments (W := W) fd l c →
  wp (write_line fd e) (λ _ w', ∃ c', left_segments (W := W) fd (l ++ [(e, true)]) c' ∧ holds ev fd c' w')
    (λ _ w', ∃ c', left_segments (W := W) fd (l ++ [(e, false)]) c' ∧ holds ev fd c' w') w.
Proof.
  intros Hw (segs & -> & Hs). eapply wp_mono; [by eapply write_line_any|..];
    (intros ? w' (seg & Hseg & Hw'); exists (mjoin segs ++ seg); split; [|done]; exists (segs ++ [seg]);
     split; [by rewrite segments_snoc|apply Forall2_app; [done|by repeat constructor]]).
Qed.



End left.

(** ** A run of it *)

(** A digest for the runs below: 16 letters from the length and the first byte. *)
Definition toy_sha (b : bytes) : str :=
  replicate (length b `mod` 16) 97%N ++ replicate (16 - length b `mod` 16) 98%N.
Definition toy_sha_utf8 (s : str) : str := toy_sha (utf8_encode s).

Lemma toy_sha_alnum b : forallb is_alnum (toy_sha b) = true.
Proof.
  unfold toy_sha. rewrite forallb_app. assert (∀ n u, is_alnum u = true → forallb is_alnum (replicate n u) = true) as Hr.
  { intros n u Hu. induction n; simpl; [done|]. by rewrite Hu. }
  by rewrite !Hr.
Qed.

Definition run_dir : str := js "/run".

(** A sink opened on a blank disk. *)
Definition opened {faulty} (flushes : list bool) (most : nat) : res SinkError (FileSink (SinkWorld faulty)) * SinkWorld faulty :=
  FileSink.open toy_sha_utf8 run_dir (js "s1") None (blank_world flushes most).

Definition demo_sink {faulty} (flushes : list bool) (most : nat) : FileSink (SinkWorld faulty) :=
  match opened flushes most with
  | (Ok k, _) => k
  | (Throw _, w) =>
      {| fk_maxAttachmentBytes := 0; fk_eventFile := []; fk_attachmentsDir := []; fk_fd := 0; fk_closed := true; fk_disk := w |}
  end.


Definition demo_event_file : str :=
  run_dir ++ js "/" ++ EVENTS_DIR ++ js "/" ++ sessionFileName toy_sha_utf8 (js "s1").

(** Two starts in a row, over a sink. *)
Definition two_starts : list Call := [CEmit (SessionStarted demo_start); CEmit (SessionStarted demo_start)].

(** ** Properties *)

Section properties.
Context {W : Type} `{SinkDiskLaws W} (sha256 : bytes → str) (sha256_utf8 : str → str).

#[local] Instance sink_of_files' : Sink (FileSink W) := file_sink sha256.


(** Attachments are content-addressed. Whatever a session has done so far with a sink opened on an
    honest disk, a store that returns — of bytes at once, or streamed — gives the digest and the size
    of exactly the bytes it was given, within the limit; under that digest the attachments directory
    has those bytes, or a file of their size that was there and could not be replaced; and a stream
    that failed is never returned as stored. *)
Theorem stored_attachment_is_published `{!HonestDisk W} runDirectory sid max cfg l w k w' :
  (∀ b, forallb is_alnum (sha256 b) = true) → (∀ s, forallb is_alnum (sha256_utf8 s) = true) →
  FileSink.open sha256_utf8 runDirectory sid max w = (Ok k, w') →
  let k1 := rk_sink (sink (calls cfg l (new_session (recording k)))) in
  (∀ b a k2, storeAttachment b k1 = (Ok a, k2) →
     stored sha256 (sd_join runDirectory ATTACHMENTS_DIR) b a (fk_disk k2) ∧
     sa_sizeBytes a <= fk_maxAttachmentBytes k1) ∧
  (∀ r a k2, storeAttachmentStream r k1 = (Ok a, k2) →
     ∃ b, r = Ok b ∧ stored sha256 (sd_join runDirectory ATTACHMENTS_DIR) b a (fk_disk k2) ∧
     sa_sizeBytes a <= fk_maxAttachmentBytes k1).
Proof.
  intros Hsha Hutf E k1. pose proof (open_inv sha256_utf8 Hutf left_segments left_none runDirectory sid max w) as Ho.
  apply (wp_Ok _ _ _ _ _ _ Ho) in E as (Hk & _ & _ & Hdir).
  destruct (session_inv sha256 Hsha left_segments left_closed left_write cfg l k Hk) as (Hi & _ & _ & Ed). fold k1 in Ed.
  rewrite <-Hdir, <-Ed. destruct (si_content _ _ Hi) as (c & Hc & _).
  split.
  - intros b a k2 Es. destruct (method_Ok _ _ _ _ Es) as (w2 & Ec & Em & ->).
    pose proof (store_bytes_wp sha256 Hsha _ _ _ (si_apart _ _ Hi) (fk_maxAttachmentBytes k1) b _ _
      (conj (si_open _ _ Hi Ec) Hc)) as Hw.
    by apply (wp_Ok _ _ _ _ _ _ Hw) in Em as [? _].
  - intros r a k2 Es. destruct (method_Ok _ _ _ _ Es) as (w2 & Ec & Em & ->).
    destruct r as [b|e]; pose proof (λ chunks ending, store_stream_wp sha256 Hsha _ _ _ (si_apart _ _ Hi)
      (fk_maxAttachmentBytes k1) chunks ending _ _ (si_max _ _ Hi) (conj (si_open _ _ Hi Ec) Hc)) as Hw.
    + apply (wp_Ok _ _ _ _ _ _ (Hw [b] None)) in Em as [(Hst & Hle & _) _]. exists b.
      simpl in Hst. by rewrite app_nil_r in Hst.
    + by apply (wp_Ok _ _ _ _ _ _ (Hw [] (Some e))) in Em as [(_ & _ & ?) _].
Qed.
End properties.

#[local] Instance toy_sink {faulty} : Sink (FileSink (SinkWorld faulty)) := file_sink toy_sha.



Lemma stored_attachment_is_published_witness :
  let k1 := rk_sink (sink (calls (demo_config 1000) two_starts (new_session (recording (demo_sink (faulty := false) [] 0))))) in
  ∃ a k2, storeAttachment (utf8_encode (js "picture")) k1 = (Ok a, k2) ∧
    stored toy_sha (sd_join (W := HonestWorld) run_dir ATTACHMENTS_DIR) (utf8_encode (js "picture")) a (fk_disk k2) ∧
    sa_sizeBytes a <= fk_maxAttachmentBytes k1.
Proof.
  intros k1.
  destruct (storeAttachment (utf8_encode (js "picture")) k1) as [[a|e] k2] eqn:E.
  - exists a, k2. split; [reflexivity|].
    exact (proj1 (stored_attachment_is_published toy_sha toy_sha_utf8 run_dir (js "s1") None (demo_config 1000) two_starts
      (blank_world [] 0) (demo_sink [] 0) (opened [] 0).2 toy_sha_alnum (λ s, toy_sha_alnum _) eq_refl) _ _ _ E).
  - exfalso. assert (is_ok (storeAttachment (utf8_encode (js "picture")) k1).1 = true) as Hok by (vm_compute; reflexivity).
    rewrite E in Hok. discriminate Hok.
Defined.

(** A flush that fails after its line was written leaves the event in the file, while the session
    counts it as dropped and gives its sequence number to the next: the file then has two events
    with one sequence number, and only the second is in the session's log. *)
Theorem failed_flush_repeats_sequence :
  let s := calls (demo_config 1000) two_starts (new_session (recording (demo_sink (faulty := true) [true] 1000))) in
  ∃ e1 e2, dw_files (fk_disk (rk_sink (sink s))) demo_event_file = Some (event_line e1 ++ event_line e2) ∧
    sequence (any_env e1) = 1 ∧ sequence (any_env e2) = 1 ∧
    eventId (any_env e1) ≠ eventId (any_env e2) ∧ rk_log (sink s) = [e2].
Proof.
  intros s.
  let x := eval vm_compute in (rk_log (sink (call (demo_config 1000) (CEmit (SessionStarted demo_start))
    (new_session (recording (demo_sink (faulty := false) [] 0)))))) in match x with [?e] => exists e end.
  let x := eval vm_compute in (rk_log (sink s)) in match x with [?e] => exists e end.
  split; [vm_compute; reflexivity|]. split; [reflexivity|]. split; [reflexivity|].
  split; [by vm_compute|]. vm_compute. reflexivity.
Qed.

(** A write that takes only part of its bytes is not repeated: the attachment is published
    truncated, under the digest of the bytes it should have had, and reported as stored whole. *)
Theorem short_write_publishes_truncated :
  ∃ a k, storeAttachment (utf8_encode (js "picture")) (demo_sink (faulty := true) [] 3) = (Ok a, k) ∧
    sa_sha256 a = toy_sha (utf8_encode (js "picture")) ∧ sa_sizeBytes a = 7 ∧
    dw_files (fk_disk k) (run_dir ++ js "/" ++ ATTACHMENTS_DIR ++ js "/" ++ sa_sha256 a) = Some (utf8_encode (js "pic")).
Proof. do 2 eexists. split; [vm_compute; reflexivity|]. by split_and!; vm_compute. Qed.
