(* ===== verification/Multipart.v ===== *)
(** * The multipart body of an upload (http-client/src/multipart.ts)

    The body is a generator the transport pulls chunks from; here it is the
    state it is suspended in, and [body_next] runs it to its next [yield]. The
    files are re-opened and checked as they are sent, so what the body is built
    from is what the file system gives at that moment. *)

From S2P Require Import Prelude JsString JsBytes JsMap JsSort Json ValidatorRun SafeName Io LocalRun.

Local Open Scope Z_scope.

Definition CRLF : str := [13; 10]%N.
Definition text (s : str) : bytes := utf8_encode s.
Definition size (b : bytes) : Z := Z.of_nat (length b).

(** [boundary()] is drawn from the random source: a parameter. *)
Definition quoted (s : str) : str := 34%N :: s ++ [34%N].

(** [fieldPart], [fileHeader] *)
Definition fieldPart (mark name value : str) : bytes :=
  text (js "--" ++ mark ++ CRLF ++ js "Content-Disposition: form-data; name=" ++ quoted name ++ CRLF ++ CRLF
          ++ value ++ CRLF).
Definition fileHeader (mark name filename : str) : bytes :=
  text (js "--" ++ mark ++ CRLF ++ js "Content-Disposition: form-data; name=" ++ quoted name
          ++ js "; filename=" ++ quoted filename ++ CRLF ++ js "Content-Type: application/octet-stream" ++ CRLF ++ CRLF).

(** [basename]: what follows the last slash. *)
Fixpoint basename_from (best s : str) : str :=
  match s with
  | [] => best
  | u :: s' => basename_from (if (u =? 47)%N then s' else best) s'
  end.
Definition basename (name : str) : str := basename_from name name.

Record Part := { pt_header : bytes; pt_file : PlannedFile }.
Record Layout := { ly_head : bytes; ly_files : list Part; ly_tail : bytes }.

Definition file_part (mark field : str) (file : PlannedFile) : Part :=
  {| pt_header := fileHeader mark field (basename (pf_name file)); pt_file := file |}.

(** [layout] *)
Definition layout (mark : str) (plan : UploadPlan) (expiresAt : str) : Layout :=
  {| ly_head := fieldPart mark (js "expiresAt") expiresAt;
     ly_files := (file_part mark (js "events") <$> up_events plan)
                 ++ (file_part mark (js "attachment") <$> up_attachments plan);
     ly_tail := text (js "--" ++ mark ++ js "--" ++ CRLF) |}.

Definition separator : bytes := text CRLF.

(** [contentLength] *)
Definition contentLength (l : Layout) : Z :=
  size (ly_head l)
  + foldl (λ sum p, sum + (size (pt_header p) + sizeBytes (pf_facts (pt_file p)) + size separator)) 0 (ly_files l)
  + size (ly_tail l).

(** ** The generator *)

(** Where [stream()] is suspended; each state is one of its [yield]s, or its start or end. *)
Inductive BodyState :=
| AtHead                                  (* not started *)
| AtParts (rest : list Part)              (* about to take the next file *)
| AtFile (part : Part) (rest : list Part)  (* the header of a file is out *)
| AtBytes (part : Part) (rest : list Part) (fd : Fd) (sent : Z) (hashed : list bytes)
| AtEnd.

Section body.
Context {W : Type} `{NodeFs W} (sha256 : bytes → str) (l : Layout).
Abbreviation act := (io W SendFailure).

(** The checks after the last byte of a file, before its separator. *)
Definition finish_file (part : Part) (fd : Fd) (sent : Z) (hashed : list bytes) : act unit :=
  checkUnchanged fd (pt_file part) sent ;;
  match pf_sha256 (pt_file part) with
  | None => mret tt
  | Some _ => checkAttachmentBytes (pt_file part) (sha256 (mjoin hashed))
  end.

(** One turn of the loop over a file's chunks; leaving it any way closes the descriptor. *)
Definition read_step (part : Part) (rest : list Part) (fd : Fd) (sent : Z) (hashed : list bytes)
    : act (option bytes * BodyState) :=
  let leave (sent : Z) : act (option bytes * BodyState) :=
    try_finally (finish_file part fd sent hashed) (sys_close fd) ;;
    mret (Some separator, AtParts rest) in
  chunk ← try_catch (sys_read fd) (λ e, io_do (sys_close fd) ;; throw (raw e));
  match chunk with
  | None => leave sent
  | Some b =>
      let sent := sent + size b in
      if sizeBytes (pf_facts (pt_file part)) <? sent then leave sent
      else mret (Some b, AtBytes part rest fd sent (hashed ++ [b]))
  end.

(** [next()]: what is yielded, [None] when the generator returns, and where it is left. *)
Definition body_next (st : BodyState) : act (option bytes * BodyState) :=
  match st with
  | AtHead => mret (Some (ly_head l), AtParts (ly_files l))
  | AtParts [] => mret (Some (ly_tail l), AtEnd)
  | AtParts (part :: rest) => mret (Some (pt_header part), AtFile part rest)
  | AtFile part rest =>
      fd ← openPlanned (pt_file part);
      read_step part rest fd 0 []
  | AtBytes part rest fd sent hashed => read_step part rest fd sent hashed
  | AtEnd => mret (None, AtEnd)
  end.

(** A number of pulls: the chunks yielded, and where the generator is. *)
Fixpoint body_pulls (n : nat) (st : BodyState) : act (list bytes * BodyState) :=
  match n with
  | O => mret ([], st)
  | S n' =>
      '(chunk, st1) ← body_next st;
      '(chunks, st2) ← body_pulls n' st1;
      mret (option_list chunk ++ chunks, st2)
  end.
End body.

(** ** What the multipart body carries

    The invariant of the body's generator: wherever it is suspended, what it
    has yielded is the beginning of a well-formed body whose files have the
    planned sizes and, for attachments, the bytes their names claim; and at
    most the one file it is in the middle of is open. *)

Section spec.
Context {W : Type} `{NodeFsLaws W} (sha256 : bytes → str) (l : Layout).

(** The content of a part is what the plan says of it. *)
Definition part_content (p : Part) (content : bytes) : Prop :=
  size content = sizeBytes (pf_facts (pt_file p)) ∧
  ∀ sha, pf_sha256 (pt_file p) = Some sha → sha256 content = sha.

Definition part_bytes (p : Part) (content : bytes) : bytes := pt_header p ++ content ++ separator.
Definition parts_bytes (ps : list Part) (contents : list bytes) : bytes := mjoin (zip_with part_bytes ps contents).

(** A whole body, with the given contents. *)
Definition body_bytes (contents : list bytes) : bytes :=
  ly_head l ++ parts_bytes (ly_files l) contents ++ ly_tail l.

(** What has been yielded when the generator is at a state. *)
Definition yielded (st : BodyState) (out : bytes) : Prop :=
  match st with
  | AtHead => out = []
  | AtParts rest => ∃ sent contents,
      ly_files l = sent ++ rest ∧ Forall2 part_content sent contents ∧
      out = ly_head l ++ parts_bytes sent contents
  | AtFile p rest => ∃ sent contents,
      ly_files l = sent ++ p :: rest ∧ Forall2 part_content sent contents ∧
      out = ly_head l ++ parts_bytes sent contents ++ pt_header p
  | AtBytes p rest _ n hashed => ∃ sent contents,
      ly_files l = sent ++ p :: rest ∧ Forall2 part_content sent contents ∧
      out = ly_head l ++ parts_bytes sent contents ++ pt_header p ++ mjoin hashed ∧
      n = size (mjoin hashed) ∧ n <= sizeBytes (pf_facts (pt_file p))
  | AtEnd => ∃ contents, Forall2 part_content (ly_files l) contents ∧ out = body_bytes contents
  end.

(** The descriptors of a state, over those the process had. *)
Definition holding (base : list Fd) (st : BodyState) (w : W) : Prop :=
  match st with
  | AtBytes _ _ fd _ _ => (fd ∉ base) ∧ open_fds w = (fd :: base)
  | _ => open_fds w = base
  end.

Lemma size_app a b : size (a ++ b) = size a + size b.
Proof. unfold size. rewrite length_app. lia. Qed.

Lemma mjoin_snoc (hs : list bytes) b : mjoin (hs ++ [b]) = mjoin hs ++ b.
Proof. induction hs as [|h hs IH]; simpl; [by rewrite app_nil_r|]. by rewrite IH, app_assoc. Qed.

Lemma parts_bytes_snoc ps cs p c :
  length ps = length cs → parts_bytes (ps ++ [p]) (cs ++ [c]) = parts_bytes ps cs ++ part_bytes p c.
Proof.
  intros Hl. unfold parts_bytes. rewrite zip_with_app by done. simpl. by rewrite mjoin_snoc.
Qed.

(** [checkUnchanged] passes only the planned number of bytes. *)
Lemma checkUnchanged_wp fd file n (w : W) :
  wp (checkUnchanged fd file n) (λ _ w', n = sizeBytes (pf_facts file) ∧ open_fds w' = open_fds w)
    (λ e w', local_error e ∧ open_fds w' = open_fds w) w.
Proof.
  unfold checkUnchanged. wp_step. wp_step. eapply wp_mono; [apply wp_keeps, fstat_keeps| |].
  - intros st w1 E. wp_step; wp_step; [unfold changed; split; [by do 2 eexists|done]|].
    rewrite !orb_false_iff, !negb_false_iff, !Z.eqb_eq in Eb. split; [tauto|done].
  - intros e w1 E. wp_step. unfold changed. split; [by do 2 eexists|done].
Qed.

Lemma finish_file_wp p fd n hashed (w : W) :
  n = size (mjoin hashed) →
  wp (finish_file sha256 p fd n hashed) (λ _ w', part_content p (mjoin hashed) ∧ open_fds w' = open_fds w)
    (λ e w', local_error e ∧ open_fds w' = open_fds w) w.
Proof.
  intros Hn. unfold finish_file. wp_step. eapply wp_mono; [apply checkUnchanged_wp| |done].
  intros _ w1 [Hs E]. subst n. destruct (pf_sha256 (pt_file p)) as [sha|] eqn:Esha.
  - unfold checkAttachmentBytes. rewrite Esha. unfold str_eqb. destruct (bool_decide _) eqn:Hd; wp_step.
    + apply bool_decide_eq_true in Hd. split; [|done]. split; [done|]. intros ? E'. congruence.
    + split; [by do 2 eexists|done].
  - wp_step. split; [|done]. split; [done|]. intros ? E'. congruence.
Qed.

Section step.
Context (base : list Fd).

(** A step of the generator keeps what it has yielded well-formed; a failure releases its file. *)
Definition step_ok (out : bytes) (r : option bytes * BodyState) (w' : W) : Prop :=
  yielded r.2 (out ++ default [] r.1) ∧ holding base r.2 w'.
Definition step_failed (e : SendFailure) (w' : W) : Prop := open_fds w' = base.

Lemma read_step_wp p rest fd n hashed out (w : W) :
  yielded (AtBytes p rest fd n hashed) out → holding base (AtBytes p rest fd n hashed) w →
  wp (read_step sha256 p rest fd n hashed) (step_ok out) step_failed w.
Proof.
  intros (sent & contents & Hl & Hc & Hout & Hn & Hle) [Hfd Hw]. unfold read_step.
  wp_step. wp_step. eapply wp_mono; [apply wp_keeps, read_keeps| |].
  2:{ intros e w1 E. wp_step. wp_step. wp_step. unfold step_failed. apply (close_last _ _ _ Hfd). by rewrite E. }
  intros chunk w1 E1. rewrite Hw in E1.
  assert (∀ m (w2 : W), open_fds w2 = (fd :: base) → (m = size (mjoin hashed) ∨ m ≠ sizeBytes (pf_facts (pt_file p))) →
    wp (try_finally (finish_file sha256 p fd m hashed) (sys_close fd) ;; mret (Some separator, AtParts rest))
      (step_ok out) step_failed w2) as Hleave.
  { intros m w2 E2 Hm. wp_step. wp_step. destruct Hm as [Hm|Hm].
    - eapply wp_mono; [by apply finish_file_wp| |].
      + intros _ w3 [Hpc E3]. wp_step. split; simpl; [|by apply (close_last _ _ _ Hfd); rewrite E3].
        exists (sent ++ [p]), (contents ++ [mjoin hashed]). split_and!.
        * by rewrite <- app_assoc.
        * apply Forall2_app; [done|]. by constructor.
        * rewrite parts_bytes_snoc by by eapply Forall2_length. subst out. unfold part_bytes.
          by rewrite <- !app_assoc.
      + intros e w3 [_ E3]. unfold step_failed. apply (close_last _ _ _ Hfd). by rewrite E3.
    - unfold finish_file. wp_step. eapply wp_mono; [apply checkUnchanged_wp| |].
      + intros _ w3 [E3 _]. congruence.
      + intros e w3 [_ E3]. unfold step_failed. apply (close_last _ _ _ Hfd). by rewrite E3. }
  destruct chunk as [b|]; [|apply Hleave; auto].
  destruct (Z.ltb_spec (sizeBytes (pf_facts (pt_file p))) (n + size b)); [apply Hleave; [done|right; lia]|].
  wp_step. split; simpl; [|done]. exists sent, contents. split_and!; try done.
  - subst out. rewrite mjoin_snoc. by rewrite <- !app_assoc.
  - rewrite mjoin_snoc, size_app. lia.
Qed.

Lemma openPlanned_wp file (w : W) :
  open_fds w = base →
  wp (openPlanned file) (λ fd w', (fd ∉ base) ∧ open_fds w' = (fd :: base))
    (λ e w', local_error e ∧ open_fds w' = base) w.
Proof.
  intros Hw. unfold openPlanned. wp_step. eapply wp_mono; [apply openRegular_wp| |].
  - intros [fd st] w1 (Hn & E & _). simpl in *. rewrite Hw in *. wp_step; [|by wp_step].
    wp_step. wp_step. wp_step. unfold changed. split; [by do 2 eexists|]. by apply (close_last _ _ _ Hn).
  - intros e w1 [He E]. split; [done|]. by rewrite E.
Qed.

Lemma body_next_wp st out (w : W) :
  Forall (λ p, 0 <= sizeBytes (pf_facts (pt_file p))) (ly_files l) →
  yielded st out → holding base st w →
  wp (body_next sha256 l st) (step_ok out) step_failed w.
Proof.
  intros Hpos Hy Hh. destruct st as [|[|p rest]|p rest|p rest fd n hashed|]; simpl.
  - wp_step. split; simpl; [|done]. exists [], []. simpl in Hy. subst out. split_and!; [done|constructor|].
    unfold parts_bytes. simpl. by rewrite app_nil_r.
  - wp_step. split; simpl; [|done]. destruct Hy as (sent & contents & Hl & Hc & ->).
    rewrite app_nil_r in Hl. subst sent. exists contents. split; [done|]. unfold body_bytes. by rewrite <- app_assoc.
  - wp_step. split; simpl; [|done]. destruct Hy as (sent & contents & Hl & Hc & ->).
    exists sent, contents. split_and!; try done. by rewrite <- app_assoc.
  - wp_step. eapply wp_mono; [by apply openPlanned_wp| |by intros e w1 []].
    intros fd w1 [Hn E]. apply read_step_wp; [|done]. destruct Hy as (sent & contents & Hl & Hc & ->).
    exists sent, contents. split_and!; try done; simpl.
    + by rewrite !app_nil_r.
    + rewrite Hl in Hpos. apply Forall_app in Hpos as [_ Hp]. by inversion Hp.
  - by apply read_step_wp.
  - wp_step. split; simpl; [|done]. by rewrite app_nil_r.
Qed.
End step.

(** ** Sizes *)

Lemma parts_size ps cs :
  Forall2 part_content ps cs →
  size (parts_bytes ps cs) = foldr (λ p n, size (pt_header p) + sizeBytes (pf_facts (pt_file p)) + size separator + n) 0 ps.
Proof.
  induction 1 as [|p c ps cs [Hs _] _ IH]; [done|]. unfold parts_bytes in *. simpl.
  rewrite size_app, IH. unfold part_bytes. rewrite !size_app, Hs. lia.
Qed.

Lemma foldl_sum {A} (f : A → Z) xs a : foldl (λ n x, n + f x) a xs = a + foldr (λ x n, f x + n) 0 xs.
Proof. revert a. induction xs as [|x xs IH]; intros a; simpl; [lia|]. rewrite IH. lia. Qed.

(** The length announced is the length of every whole body. *)
Lemma body_size contents : Forall2 part_content (ly_files l) contents → size (body_bytes contents) = contentLength l.
Proof.
  intros Hc. unfold body_bytes, contentLength. rewrite !size_app, (parts_size _ _ Hc), foldl_sum. lia.
Qed.

Lemma size_nonneg b : 0 <= size b.
Proof. unfold size. lia. Qed.

Lemma size_separator : size separator = 2.
Proof. done. Qed.

(** A body that is not at its end is shorter than announced. *)
Lemma yielded_size st out :
  Forall (λ p, 0 <= sizeBytes (pf_facts (pt_file p))) (ly_files l) → 0 < size (ly_tail l) →
  yielded st out → size out <= contentLength l ∧ (st ≠ AtEnd → size out < contentLength l).
Proof.
  intros Hpos Ht Hy.
  assert (∀ ps : list Part, Forall (λ p, 0 <= sizeBytes (pf_facts (pt_file p))) ps →
    0 <= foldr (λ p n, size (pt_header p) + sizeBytes (pf_facts (pt_file p)) + size separator + n) 0 ps) as Hsum.
  { induction 1 as [|p ps Hp _ IH]; simpl; [lia|]. pose proof (size_nonneg (pt_header p)). rewrite size_separator in *. lia. }
  assert (∀ sent rest contents, ly_files l = sent ++ rest → Forall2 part_content sent contents →
    contentLength l = size (ly_head l ++ parts_bytes sent contents)
      + foldr (λ p n, size (pt_header p) + sizeBytes (pf_facts (pt_file p)) + size separator + n) 0 rest
      + size (ly_tail l)) as Hsplit.
  { intros sent rest contents Hl Hc. unfold contentLength. rewrite foldl_sum, Hl, foldr_app, size_app, (parts_size _ _ Hc).
    generalize (foldr (λ p n, size (pt_header p) + sizeBytes (pf_facts (pt_file p)) + size separator + n) 0 rest) as r.
    clear. intros r. induction sent as [|p sent IH]; simpl; [lia|]. lia. }
  pose proof (size_nonneg (ly_head l)) as Hh.
  destruct st as [|rest|p rest|p rest fd n hashed|]; simpl in Hy.
  - subst out. pose proof (Hsum _ Hpos). unfold contentLength. rewrite foldl_sum. change (size []) with 0. lia.
  - destruct Hy as (sent & contents & Hl & Hc & ->). rewrite (Hsplit _ _ _ Hl Hc).
    rewrite Hl in Hpos. apply Forall_app in Hpos as [_ Hp%Hsum]. lia.
  - destruct Hy as (sent & contents & Hl & Hc & ->). rewrite (Hsplit _ _ _ Hl Hc).
    rewrite Hl in Hpos. apply Forall_app in Hpos as [_ Hp]. inversion_clear Hp as [|? ? Hp0 Hp1%Hsum]. cbn [foldr].
    rewrite !size_app. pose proof size_separator. pose proof (size_nonneg (pt_header p)). lia.
  - destruct Hy as (sent & contents & Hl & Hc & -> & -> & Hle). rewrite (Hsplit _ _ _ Hl Hc).
    rewrite Hl in Hpos. apply Forall_app in Hpos as [_ Hp]. inversion_clear Hp as [|? ? Hp0 Hp1%Hsum]. cbn [foldr].
    rewrite !size_app. pose proof size_separator. pose proof (size_nonneg (pt_header p)). lia.
  - destruct Hy as (contents & Hc & ->). rewrite body_size by done. split; [lia|done].
Qed.
End spec.

(** ** One HTTP attempt (http-client/src/transport.ts)

    The promise of [send] as what its handlers do to the state they share: the
    first event to settle it decides, and the answer it gives is bounded. The
    events are Node's, in any order it may deliver them. *)

(** [AttemptResponse] *)
Record AttemptResponse := {
  rs_status : Z; rs_headers : jsmap str str; rs_text : str; rs_truncated : bool;
}.

(** A header as Node gives it: a value, or several. *)
Definition RawHeaders : Type := list (str * (str + list str)).

Inductive NetEvent :=
| Response (statusCode : option Z) (headers : RawHeaders)  (* the callback *)
| Data (chunk : bytes)
| ResponseAborted
| ResponseFailed (e : SendFailure)
| ResponseClosed (complete : bool)
| RequestFailed (e : SendFailure)
| TimedOut
| Aborted.

(** What the handlers of one attempt share. *)
Record AttemptHandlers := {
  at_settled : option (res SendFailure AttemptResponse);
  at_response : option (option Z * RawHeaders);
  at_chunks : list bytes;
  at_read : Z;
  at_truncated : bool;
  at_destroyed : bool;      (* request.destroy() was called *)
}.
#[export] Instance AttemptHandlers_fields : Fields AttemptHandlers := λ r,
  {| at_settled := at_settled r; at_response := at_response r; at_chunks := at_chunks r; at_read := at_read r;
     at_truncated := at_truncated r; at_destroyed := at_destroyed r |}.

Definition fresh_attempt : AttemptHandlers :=
  {| at_settled := None; at_response := None; at_chunks := []; at_read := 0; at_truncated := false;
     at_destroyed := false |}.

(** [IncompleteResponse], and the error of the timer. *)
Definition IncompleteResponse (message : str) : SendFailure := PlainError (Some (js "ECONNRESET")) message.
Definition timedOut (timeoutMs : Z) : SendFailure :=
  PlainError (Some (js "ETIMEDOUT")) (js "the attempt took longer than " ++ dec timeoutMs ++ js " ms").

(** [headersOf] *)
Definition headersOf (headers : RawHeaders) : jsmap str str :=
  foldl (λ out h, mset out (toLowerCase h.1) match h.2 with inl v => v | inr vs => join (js ", ") vs end) [] headers.

(** [finish]: only the first settles. *)
Definition settle (r : res SendFailure AttemptResponse) (a : AttemptHandlers) : AttemptHandlers :=
  match at_settled a with Some _ => a | None => a <| at_settled := Some r |> end.

Definition destroy (a : AttemptHandlers) : AttemptHandlers := a <| at_destroyed := true |>.

Definition incomplete : SendFailure := IncompleteResponse (js "the response ended before it was complete").

Section send.
Context (utf8_decode : bytes → str) (maxResponseBytes timeoutMs : Z).

(** The response's [data] and [close] handlers. *)
Definition on_data (chunk : bytes) (a : AttemptHandlers) : AttemptHandlers :=
  let a := a <| at_read ::= Z.add (Z.of_nat (length chunk)) |> in
  if maxResponseBytes <? at_read a then a <| at_truncated := true |>
  else a <| at_chunks ::= λ l, l ++ [chunk] |>.

Definition on_close (complete : bool) (statusCode : option Z) (headers : RawHeaders) (a : AttemptHandlers) : AttemptHandlers :=
  match at_settled a with
  | Some _ => a
  | None =>
      if at_truncated a then
        settle (Ok {| rs_status := default 0 statusCode; rs_headers := headersOf headers; rs_text := [];
                      rs_truncated := true |}) a
      else if negb complete then settle (Throw incomplete) a
      else settle (Ok {| rs_status := default 0 statusCode; rs_headers := headersOf headers;
                         rs_text := utf8_decode (mjoin (at_chunks a)); rs_truncated := false |}) a
  end.

(** What an event does. The response's handlers exist once it has begun; the timer and the
    signal's listener only until the promise is settled. *)
Definition on_event (ev : NetEvent) (a : AttemptHandlers) : AttemptHandlers :=
  match ev, at_response a with
  | Response statusCode headers, None => a <| at_response := Some (statusCode, headers) |>
  | Response _ _, Some _ => a
  | Data chunk, Some _ => on_data chunk a
  | ResponseAborted, Some _ => settle (Throw incomplete) a
  | ResponseFailed e, Some _ => settle (Throw e) a
  | ResponseClosed complete, Some (statusCode, headers) => on_close complete statusCode headers a
  | RequestFailed e, _ => settle (Throw e) a
  | TimedOut, _ =>
      match at_settled a with Some _ => a | None => settle (Throw (timedOut timeoutMs)) (destroy a) end
  | Aborted, _ =>
      match at_settled a with Some _ => a | None => settle (Throw UploadAborted) (destroy a) end
  | _, None => a
  end.

(** The body's [error] handler. *)
Definition on_body_error (e : SendFailure) (a : AttemptHandlers) : AttemptHandlers := settle (Throw e) (destroy a).

(** ** Lemmas *)

Lemma settle_keeps r r' a : at_settled a = Some r → at_settled (settle r' a) = Some r.
Proof. unfold settle. intros E. by rewrite E. Qed.

Lemma on_event_keeps ev a r : at_settled a = Some r → at_settled (on_event ev a) = Some r.
Proof.
  intros E. unfold on_event, on_close. destruct ev, (at_response a) as [[]|]; rewrite ?E; auto using settle_keeps.
  unfold on_data. simpl. by destruct (_ <? _).
Qed.

(** What is buffered is what was read, while nothing was refused; and it is within the bound. *)
Definition bounded (a : AttemptHandlers) : Prop :=
  0 <= at_read a ∧ Z.of_nat (length (mjoin (at_chunks a))) <= at_read a ∧
  (at_truncated a = false → at_read a <= maxResponseBytes) ∧
  Z.of_nat (length (mjoin (at_chunks a))) <= Z.max 0 maxResponseBytes.

(** What an answer the attempt settled with may be. *)
Definition answer_ok (r : res SendFailure AttemptResponse) : Prop :=
  match r with
  | Ok answer =>
      if rs_truncated answer then rs_text answer = []
      else ∃ b, rs_text answer = utf8_decode b ∧ Z.of_nat (length b) <= Z.max 0 maxResponseBytes
  | Throw _ => True
  end.

Lemma mjoin_length_snoc (l : list bytes) b : length (mjoin (l ++ [b])) = (length (mjoin l) + length b)%nat.
Proof. induction l as [|x l IH]; simpl; [rewrite length_app; simpl; lia|]. rewrite !length_app, IH. lia. Qed.

Lemma settle_fields r a :
  at_chunks (settle r a) = at_chunks a ∧ at_read (settle r a) = at_read a ∧ at_truncated (settle r a) = at_truncated a.
Proof. unfold settle. by destruct (at_settled a). Qed.

Lemma bounded_settle r a : bounded a → bounded (settle r a).
Proof. unfold bounded. by destruct (settle_fields r a) as (-> & -> & ->). Qed.

Lemma on_event_bounded ev a : bounded a → bounded (on_event ev a).
Proof.
  intros Hb. unfold on_event, on_close.
  destruct ev, (at_response a) as [[]|]; try exact Hb; try (by apply bounded_settle);
    repeat case_match; try exact Hb; try (by apply bounded_settle).
  all: unfold on_data; simpl; destruct Hb as (H0 & H1 & H2 & H3).
  all: destruct (Z.ltb_spec maxResponseBytes (Z.of_nat (length chunk) + at_read a)); unfold bounded; simpl.
  all: rewrite ?mjoin_length_snoc; destruct (at_truncated a); simpl; split_and!; try lia; intros ?; try done; lia.
Qed.
End send.
