(* ===== verification/Upload.v ===== *)
(** * The uploader (http-client/src/target.ts, client.ts)

    Where an upload may go, and its delivery: one plan, sent again until the
    service answers it, refuses it, or the attempts run out. What the network
    does during an attempt is a script of the environment: pulls of the body by
    the pipe, interleaved with Node's events; the clock, the jitter, the signal
    and [JSON.parse] are the environment's too. *)

From S2P Require Import Prelude JsNumber JsString JsBytes JsMap JsSort Json ValidatorRun SafeName JsDate HttpRetry Instants Io LocalRun Multipart.

Local Open Scope Z_scope.

(** ** target.ts *)

(** A parsed [URL]; parsing and resolving are the platform's. *)
Record Url := {
  url_protocol : str; url_username : str; url_password : str; url_hash : str; url_search : str;
  url_hostname : str; url_port : str; url_origin : str; url_pathname : str; url_href : str;
}.
Record UrlParser := { parse_url : str → option Url; relative_url : str → str → Url }.

Record Target := { tg_runs : Url; tg_origin : str; tg_secure : bool }.

Definition LOOPBACK : list str := [js "localhost"; js "127.0.0.1"; js "[::1]"; js "::1"].

(** [\.\d{1,3}], taken as often as it is written. *)
Definition skip_octet (s : str) : option str :=
  s ← Codec.skip_char 46 s;
  let (ds, rest) := Codec.span_digits s in
  if (1 <=? length ds)%nat && (length ds <=? 3)%nat then Some rest else None.

(** [isLoopback] *)
Definition isLoopback (hostname : str) : bool :=
  let host := toLowerCase hostname in
  bool_decide (host ∈ LOOPBACK) ||
  (starts_with (js "127") host &&
   bool_decide ((s ← skip_octet (drop 3 host); s ← skip_octet s; skip_octet s) = Some [])).

(** [url.protocol.replace(':', '')]: the first colon. *)
Fixpoint without_colon (s : str) : str :=
  match s with [] => [] | u :: s' => if (u =? 58)%N then s' else u :: without_colon s' end.

Definition ends_with_slash (s : str) : bool := ends_with (js "/") s.

(** [resolveTarget] *)
Definition resolveTarget (urls : UrlParser) (baseUrl : str) (allowInsecureHttp : bool) : res str Target :=
  if str_eqb (trim baseUrl) [] then Throw (js "baseUrl must be the absolute URL of a qe-report service")
  else
    match parse_url urls baseUrl with
    | None => Throw (js "baseUrl " ++ json_quote baseUrl ++ js " is not an absolute URL")
    | Some url =>
        if negb (str_eqb (url_protocol url) (js "https:")) && negb (str_eqb (url_protocol url) (js "http:"))
        then Throw (js "baseUrl must be http or https, not " ++ without_colon (url_protocol url))
        else if negb (str_eqb (url_username url) []) || negb (str_eqb (url_password url) [])
        then Throw (js "baseUrl must not carry a user name or a password")
        else if negb (str_eqb (url_hash url) []) then Throw (js "baseUrl must not carry a fragment")
        else if negb (str_eqb (url_search url) []) then Throw (js "baseUrl must not carry a query string")
        else
          let secure := str_eqb (url_protocol url) (js "https:") in
          if negb secure && negb (isLoopback (url_hostname url)) && negb allowInsecureHttp then
            Throw (js "baseUrl " ++ url_origin url ++
                   js " is plaintext HTTP to another host; an API key is only sent over HTTPS, or to this machine, unless allowInsecureHttp is set for a development service")
          else
            let base := if ends_with_slash (url_pathname url) then url_href url else url_href url ++ js "/" in
            Ok {| tg_runs := relative_url urls (js "v1/runs") base; tg_origin := url_origin url; tg_secure := secure |}
    end.

(** ** The client's data *)

Inductive Outcome := Inserted | AlreadyPresent.

Record UploadResult := {
  ur_outcome : Outcome; ur_runId : str; ur_runRef : str; ur_ingestionSequence : str;
  ur_requestId : option str; ur_attempts : Z; ur_queryIndexRebuilt : option bool;
}.

Record RejectedError := {
  re_status : Z; re_message : str; re_code : option str; re_requestId : option str; re_runId : option str;
  re_diagnostics : list json;
}.
Record TransportError := {
  te_message : str; te_attempts : Z; te_requestId : option str; te_status : option Z; te_cause : option SendFailure;
}.

(** What an upload may throw. *)
Inductive UploadError :=
| InvalidRequest (message : str)        (* a TypeError, before anything is read *)
| UploadFailed (e : SendFailure)            (* the run directory's error, or the cancellation *)
| UploadRejectedError (e : RejectedError)
| UploadTransportError (e : TransportError).

Definition DEFAULT_ATTEMPT_TIMEOUT_MS : Z := 600000.
Definition MAX_RESPONSE_BYTES : Z := 1048576.

(** What [new QeReportHttpClient] fixes. *)
Record Client := { cl_target : Target; cl_apiKey : str; cl_retry : RetryPolicy; cl_attemptTimeoutMs : Z }.

(** The constructor. *)
Definition new_client (urls : UrlParser) (baseUrl : str) (allowInsecureHttp : option bool) (apiKey : str)
    (retry : RetryOverrides) (attemptTimeoutMs : option number) : res str Client :=
  target ← resolveTarget urls baseUrl (default false allowInsecureHttp);
  if negb (forallb (in_range 33 126) apiKey && (1 <=? length apiKey)%nat)
  then Throw (js "apiKey must be the bearer token of a project-scoped API key")
  else
    policy ← resolveRetry retry;
    match as_integer (default (Int DEFAULT_ATTEMPT_TIMEOUT_MS) attemptTimeoutMs) with
    | Some timeout =>
        if timeout <? 1 then Throw (js "attemptTimeoutMs must be a whole number of milliseconds")
        else Ok {| cl_target := target; cl_apiKey := apiKey; cl_retry := policy; cl_attemptTimeoutMs := timeout |}
    | None => Throw (js "attemptTimeoutMs must be a whole number of milliseconds")
    end.

(** ** Reading an answer *)

(** Case folding of [/iu], as far as ASCII patterns see it: the long s folds to s as well. *)
Definition fold_unit (u : N) : N :=
  if is_upper u then (u + 32)%N else if (u =? 0x17F)%N then 115%N else if (u =? 0x212A)%N then 107%N else u.

(** [/^TYPE\s*(;|$)/iu] *)
Definition media_type (type header : str) : bool :=
  let h := fold_unit <$> header in
  starts_with type h &&
  match trim_start (drop (length type) h) with [] => true | u :: _ => (u =? 59)%N end.
Definition JSON_TYPE (header : str) : bool := media_type (js "application/json") header.
Definition PROBLEM_TYPE (header : str) : bool := media_type (js "application/problem+json") header.

Record ProblemFacts := {
  pf_code : option str; pf_detail : option str; pf_runId : option str; pf_diagnostics : option (list json);
}.
Definition no_problem : ProblemFacts :=
  {| pf_code := None; pf_detail := None; pf_runId := None; pf_diagnostics := None |}.

(** A property of a parsed body that is a string. *)
Definition string_member (o : obj) (k : str) : option str :=
  match mget o k with Some (JStr s) => Some s | _ => None end.

Section read.
Context (json_parse : str → option json).

(** [problemOf] *)
Definition problemOf (text : str) : ProblemFacts :=
  match json_parse text with
  | Some (JObj o) =>
      {| pf_code := string_member o (js "code"); pf_detail := string_member o (js "detail");
         pf_runId := string_member o (js "runId");
         pf_diagnostics := match mget o (js "diagnostics") with Some (JArr ds) => Some ds | _ => None end |}
  | _ => no_problem
  end.

(** [detailOf] *)
Definition detailOf (status : Z) (problem : ProblemFacts) : str :=
  match pf_detail problem, pf_code problem with
  | Some detail, None => js "the service refused the run (" ++ dec status ++ js "): " ++ detail
  | Some detail, Some code => js "the service refused the run (" ++ dec status ++ js " " ++ code ++ js "): " ++ detail
  | None, _ => js "the service refused the run (" ++ dec status ++ js ")"
  end.

(** [successOf] *)
Definition successOf (text : str) (requestId : option str) (attempts : Z) : option UploadResult :=
  match json_parse text with
  | Some (JObj o) =>
      outcome ← match string_member o (js "outcome") with
                | Some s => if str_eqb s (js "inserted") then Some Inserted
                            else if str_eqb s (js "already_present") then Some AlreadyPresent else None
                | None => None end;
      runId ← string_member o (js "runId");
      runRef ← string_member o (js "runRef");
      sequence ← string_member o (js "ingestionSequence");
      if str_eqb runId [] || str_eqb runRef []
         || negb (forallb is_digit sequence && (1 <=? length sequence)%nat) then None
      else Some {| ur_outcome := outcome; ur_runId := runId; ur_runRef := runRef; ur_ingestionSequence := sequence;
                   ur_requestId := requestId; ur_attempts := attempts;
                   ur_queryIndexRebuilt := match mget o (js "queryIndexRebuilt") with
                                           | Some (JBool b) => Some b | _ => None end |}
  | _ => None
  end.

Inductive Answer := Done (result : UploadResult) | RejectedAnswer (error : RejectedError) | Again (why : str).

(** [read] *)
Definition read (response : AttemptResponse) (attempt : Z) (requestId : option str) : Answer :=
  let status := rs_status response in
  let type := default [] (mget (rs_headers response) (js "content-type")) in
  if (status =? 200) || (status =? 201) then
    if rs_truncated response || negb (JSON_TYPE type)
    then Again (js "the service answered in a form this client cannot read")
    else
      match successOf (rs_text response) requestId attempt with
      | None => Again (js "the service answered with an incomplete result")
      | Some result => Done result
      end
  else
    let problem := if PROBLEM_TYPE type && negb (rs_truncated response) then problemOf (rs_text response) else no_problem in
    if bool_decide (status ∈ RETRIABLE_STATUSES) then Again (js "the service answered " ++ dec status)
    else RejectedAnswer {| re_status := status; re_message := detailOf status problem; re_code := pf_code problem;
                           re_requestId := requestId; re_runId := pf_runId problem;
                           re_diagnostics := default [] (pf_diagnostics problem) |}.
End read.

(** ** The delivery *)

(** One thing that happens while an attempt runs: the pipe asks for the next chunk, or an event. *)
Inductive AttemptStep := Pull | Net (ev : NetEvent).

(** What the environment does, attempt by attempt. *)
Record Environment := {
  env_boundary : Z → str;                (* randomBytes *)
  env_aborted_before : Z → bool;         (* signal.aborted as the attempt begins *)
  env_aborted_at_send : Z → bool;        (* and as [send] looks at it *)
  env_script : Z → list AttemptStep;
  env_now : Z → Z;
  env_draw : Z → Z;                      (* random(), in units of 2^-53 *)
  env_sleep_aborted : Z → bool;          (* the sleep is rejected *)
  env_aborted_after : Z → bool;
  env_parse_http_date : str → option Z;
  env_utf8_decode : bytes → str;
  env_json_parse : str → option json;
  env_sha256 : bytes → str;
}.

(** ** The request (client.ts, transport.ts)

    What [send] is handed, and what Node's client is then asked for; its [signal] and its body are the
    script's and the layout's. *)
Record AttemptRequest := {
  aq_url : Url; aq_headers : jsmap str str; aq_timeoutMs : Z; aq_maxResponseBytes : Z;
}.

(** The options of [https.request] ([rq_secure]) or [http.request]. *)
Record HttpRequest := {
  rq_secure : bool; rq_protocol : str; rq_hostname : str; rq_port : str; rq_path : str; rq_method : str;
  rq_headers : jsmap str str;
}.

(** The call at the top of [send]. *)
Definition http_request (attempt : AttemptRequest) : HttpRequest :=
  let url := aq_url attempt in
  {| rq_secure := str_eqb (url_protocol url) (js "https:");
     rq_protocol := url_protocol url; rq_hostname := url_hostname url; rq_port := url_port url;
     rq_path := url_pathname url ++ url_search url; rq_method := js "POST"; rq_headers := aq_headers attempt |}.

(** The argument of [send] in [deliver]: the target, the key, and the body's own description. *)
Definition attempt_request (cl : Client) (mark : str) (l : Layout) : AttemptRequest :=
  {| aq_url := tg_runs (cl_target cl);
     aq_headers :=
       [(js "authorization", js "Bearer " ++ cl_apiKey cl);
        (js "content-type", js "multipart/form-data; boundary=" ++ mark);
        (js "content-length", dec (contentLength l));
        (js "accept", js "application/json, application/problem+json");
        (js "user-agent", js "qe-report-http-client")];
     aq_timeoutMs := cl_attemptTimeoutMs cl; aq_maxResponseBytes := MAX_RESPONSE_BYTES |}.

(** What the uploader did: an attempt, with its request, the chunks its body gave and where the body was
    left ([None]: it threw); a wait. *)
Inductive Effect :=
| EAttempt (attempt : Z) (request : HttpRequest) (sent : list bytes) (body : option BodyState) (result : res SendFailure AttemptResponse)
| EWait (attempt ms : Z).

Record World (W : Type) := { wd_fs : W; wd_effects : list Effect }.
Arguments wd_fs {W} _. Arguments wd_effects {W} _.
#[export] Instance World_fields {W} : Fields (World W) := λ r, {| wd_fs := wd_fs r; wd_effects := wd_effects r |}.

(** [safely] *)
Definition safely (e : SendFailure) : str :=
  match e with
  | LocalRunDirectoryError _ m => m
  | UploadAborted => js "the upload was cancelled"
  | PlainError (Some code) _ => code
  | PlainError None m => m
  end.

Record LastProblem := {
  lp_message : str; lp_status : option Z; lp_requestId : option str; lp_cause : option SendFailure;
}.
Definition not_delivered : LastProblem :=
  {| lp_message := js "the upload was not delivered"; lp_status := None; lp_requestId := None; lp_cause := None |}.

Section deliver.
Context {W : Type} `{NodeFs W} (env : Environment).

(** An attempt on its way: its request, the transport, the body, the chunks it gave, and the file system. *)
Record Sending := {
  sg_request : HttpRequest; sg_transport : AttemptHandlers; sg_body : option BodyState; sg_sent : list bytes; sg_fs : W;
}.

Section attempt.
Context (request : AttemptRequest) (l : Layout).

(** A pull runs the generator, unless the request is gone or the body has thrown; a body that
    throws is an error event of the body. *)
Definition pull (s : Sending) : Sending :=
  match sg_body s with
  | None => s
  | Some st =>
      if at_destroyed (sg_transport s) then s
      else
        match body_next (env_sha256 env) l st (sg_fs s) with
        | (Ok (chunk, st), w) =>
            {| sg_request := sg_request s; sg_transport := sg_transport s; sg_body := Some st;
               sg_sent := sg_sent s ++ option_list chunk; sg_fs := w |}
        | (Throw e, w) =>
            {| sg_request := sg_request s; sg_transport := on_body_error e (sg_transport s); sg_body := None;
               sg_sent := sg_sent s; sg_fs := w |}
        end
  end.

Definition on_net (ev : NetEvent) (s : Sending) : Sending :=
  {| sg_request := sg_request s;
     sg_transport := on_event (env_utf8_decode env) (aq_maxResponseBytes request) (aq_timeoutMs request) ev (sg_transport s);
     sg_body := sg_body s; sg_sent := sg_sent s; sg_fs := sg_fs s |}.

Definition attempt_step (s : Sending) (step : AttemptStep) : Sending :=
  match step with Pull => pull s | Net ev => on_net ev s end.

Definition begin (fs : W) : Sending :=
  {| sg_request := http_request request; sg_transport := fresh_attempt; sg_body := Some AtHead; sg_sent := [];
     sg_fs := fs |}.

(** [send]: the request is made, then the script of events runs, and at last the timer. *)
Definition send (aborted : bool) (script : list AttemptStep) (fs : W) : Sending :=
  if aborted then
    {| sg_request := http_request request; sg_transport := settle (Throw UploadAborted) (destroy fresh_attempt);
       sg_body := Some AtHead; sg_sent := []; sg_fs := fs |}
  else on_net TimedOut (foldl attempt_step (begin fs) script).

(** What its promise settled with. *)
Definition settled_with (s : Sending) : res SendFailure AttemptResponse :=
  default (Throw (timedOut (aq_timeoutMs request))) (at_settled (sg_transport s)).
End attempt.

Context (cl : Client) (plan : UploadPlan) (expiresAt : str).
Abbreviation act := (io (World W) UploadError).

(** One attempt, recorded. *)
Definition attempt_once (attempt : Z) : act (res SendFailure AttemptResponse) := λ w,
  let mark := env_boundary env attempt in
  let l := layout mark plan expiresAt in
  let request := attempt_request cl mark l in
  let s := send request l (env_aborted_at_send env attempt) (env_script env attempt) (wd_fs w) in
  let r := settled_with request s in
  (Ok r, {| wd_fs := sg_fs s;
            wd_effects := wd_effects w ++ [EAttempt attempt (sg_request s) (sg_sent s) (sg_body s) r] |}).

(** [waitBefore] *)
Definition waitBefore (attempt : Z) (retryAfter : option str) : act unit :=
  if maxAttempts (cl_retry cl) <=? attempt then mret tt
  else
    let after := retryAfterMs (env_parse_http_date env) retryAfter (env_now env attempt) in
    let ms := delayBefore attempt (cl_retry cl) after (env_draw env attempt) in
    io_do (λ w, {| wd_fs := wd_fs w; wd_effects := wd_effects w ++ [EWait attempt ms] |}) ;;
    if env_sleep_aborted env attempt then throw (UploadFailed UploadAborted)
    else if env_aborted_after env attempt then throw (UploadFailed UploadAborted)
    else mret tt.

(** The exception after the last attempt. *)
Definition gave_up (last : LastProblem) : UploadError :=
  UploadTransportError
    {| te_message := js "the upload was not delivered after " ++ dec (maxAttempts (cl_retry cl)) ++ js " attempts: "
                       ++ lp_message last;
       te_attempts := maxAttempts (cl_retry cl); te_requestId := lp_requestId last; te_status := lp_status last;
       te_cause := lp_cause last |}.

(** The loop of [deliver]; [turns] is how many attempts are left. *)
Fixpoint deliver_from (turns : nat) (attempt : Z) (last : LastProblem) : act UploadResult :=
  match turns with
  | O => throw (gave_up last)
  | S turns' =>
      if env_aborted_before env attempt then throw (UploadFailed UploadAborted)
      else
        r ← attempt_once attempt;
        match r with
        | Throw ((LocalRunDirectoryError _ _ | UploadAborted) as e) => throw (UploadFailed e)
        | Throw (PlainError code _ as e) =>
            if negb (isRetriableError code) then
              throw (UploadTransportError
                       {| te_message := js "the upload could not be delivered: " ++ safely e; te_attempts := attempt;
                          te_requestId := None; te_status := None; te_cause := Some e |})
            else
              waitBefore attempt None ;;
              deliver_from turns' (attempt + 1)
                {| lp_message := safely e; lp_status := None; lp_requestId := None; lp_cause := Some e |}
        | Ok response =>
            let requestId := mget (rs_headers response) (js "x-request-id") in
            match read (env_json_parse env) response attempt requestId with
            | Done result => mret result
            | RejectedAnswer error => throw (UploadRejectedError error)
            | Again why =>
                waitBefore attempt (mget (rs_headers response) (js "retry-after")) ;;
                deliver_from turns' (attempt + 1)
                  {| lp_message := why; lp_status := Some (rs_status response); lp_requestId := requestId;
                     lp_cause := None |}
            end
        end
  end.

(** [deliver] *)
Definition deliver : act UploadResult :=
  deliver_from (Z.to_nat (maxAttempts (cl_retry cl))) 1 not_delivered.
End deliver.

(** [uploadRunDirectory] *)
Definition uploadRunDirectory {W : Type} `{NodeFs W} (env : Environment) (cl : Client) (runDirectory : str)
    (expiresAt : option Date) : io (World W) UploadError UploadResult :=
  match checkExpiresAt expiresAt with
  | Throw m => throw (InvalidRequest m)
  | Ok ms =>
      plan ← (λ w, match planUpload (env_sha256 env) runDirectory (wd_fs w) with
                   | (Ok p, fs) => (Ok p, w <| wd_fs := fs |>)
                   | (Throw e, fs) => (Throw (UploadFailed e), w <| wd_fs := fs |>)
                   end);
      deliver env cl plan (toISOString ms)
  end.
