(* ===== verification/UploadSpec.v ===== *)
(** * Deliveries

    What an attempt may send, and what a delivery may do: an abstract protocol
    of attempts and waits that [deliver] is shown to follow, whatever the
    network, the clock and the run directory do. *)

From Stdlib Require Import Sorting.Sorted.
From S2P Require Import Prelude JsString JsBytes JsMap JsSort Json ValidatorRun SafeName JsNumber HttpRetry JsDate Instants Io LocalRun Multipart Upload.

Local Open Scope Z_scope.

Section spec.
Context {W : Type} `{NodeFsLaws W} (env : Environment).

(** ** One attempt *)

(** The beginning of a body: nothing yet, or its head, some of its parts whole, and of the part after them its header
    and content up to its planned size. *)
Definition begins (l : Layout) (out : bytes) : Prop :=
  out = [] ∨
  ∃ whole rest contents partial,
    ly_files l = whole ++ rest ∧ Forall2 (part_content (env_sha256 env)) whole contents ∧
    out = ly_head l ++ parts_bytes whole contents ++ partial ∧
    (partial = [] ∨ ∃ p rest' c, rest = p :: rest' ∧ partial = pt_header p ++ c ∧ size c <= sizeBytes (pf_facts (pt_file p))).

(** The chunks of an attempt are a well-formed body when the generator reached its end, and otherwise the beginning of one
    and shorter. *)
Definition sends (l : Layout) (sent : list bytes) (body : option BodyState) : Prop :=
  (body = Some AtEnd →
     ∃ contents, Forall2 (part_content (env_sha256 env)) (ly_files l) contents ∧
       mjoin sent = body_bytes l contents ∧ size (mjoin sent) = contentLength l) ∧
  (body ≠ Some AtEnd → begins l (mjoin sent) ∧ size (mjoin sent) < contentLength l).

(** The descriptor a suspended body holds. *)
Definition held (body : option BodyState) : list Fd :=
  match body with Some (AtBytes _ _ fd _ _) => [fd] | _ => [] end.

Section attempt.
Context (request : AttemptRequest) (l : Layout) (base : list Fd).
Hypothesis Hpos : Forall (λ p, 0 <= sizeBytes (pf_facts (pt_file p))) (ly_files l).
Hypothesis Htail : 0 < size (ly_tail l).

Definition sending_ok (s : Sending (W := W)) : Prop :=
  (∃ st, yielded (env_sha256 env) l st (mjoin (sg_sent s)) ∧
         match sg_body s with Some st' => st' = st | None => st ≠ AtEnd end) ∧
  match sg_body s with Some st => holding base st (sg_fs s) | None => open_fds (sg_fs s) = base end.

Lemma mjoin_option_list (sent : list bytes) c : mjoin (sent ++ option_list c) = mjoin sent ++ default [] c.
Proof. destruct c as [b|]; simpl; [apply mjoin_snoc|by rewrite !app_nil_r]. Qed.

Lemma pull_ok s : sending_ok s → sending_ok (pull env l s).
Proof using Hpos.
  intros [(st & Hy & Hst) Hh]. unfold pull. destruct (sg_body s) as [st'|] eqn:Eb; [subst st'|].
  2:{ split; [exists st|]; rewrite ?Eb; auto. }
  destruct (at_destroyed _); [split; [exists st|]; rewrite ?Eb; auto|].
  pose proof (body_next_wp (env_sha256 env) l base st _ _ Hpos Hy Hh) as Hwp. unfold wp in Hwp.
  destruct (body_next _ _ _ _) as [[[chunk st']|e] w'] eqn:En.
  - destruct Hwp as [Hy' Hh']. split; [|exact Hh']. exists st'. split; [|done]. simpl.
    by rewrite mjoin_option_list.
  - split; [|exact Hwp]. exists st. split; [done|]. simpl. intros ->. discriminate En.
Qed.

Lemma attempt_step_ok step s : sending_ok s → sending_ok (attempt_step env request l s step).
Proof using Hpos. intros Hs. destruct step; [by apply pull_ok|exact Hs]. Qed.

Lemma send_ok aborted script fs :
  open_fds fs = base → sending_ok (send env request l aborted script fs).
Proof using Hpos.
  intros Hfs. unfold send.
  assert (sending_ok (begin request fs)) as Hb by (split; [by exists AtHead|exact Hfs]).
  destruct aborted; [split; [by exists AtHead|exact Hfs]|].
  assert (∀ s, sending_ok s → sending_ok (foldl (attempt_step env request l) s script)) as Hf.
  { induction script as [|step script IH]; intros s Hs; [done|]. apply IH. by apply attempt_step_ok. }
  exact (Hf _ Hb).
Qed.

Lemma pull_request s : sg_request (pull env l s) = sg_request s.
Proof. unfold pull. destruct (sg_body s); [|done]. destruct (at_destroyed _); [done|]. by destruct (body_next _ _ _ _) as [[[]|] ?]. Qed.

Lemma send_request aborted script fs : sg_request (send env request l aborted script fs) = http_request request.
Proof.
  unfold send. destruct aborted; [done|]. simpl. generalize (eq_refl : sg_request (begin request fs) = http_request request).
  generalize (begin request fs). induction script as [|step script IH]; intros s Hs; [done|]. apply IH.
  destruct step; [by etrans; [apply pull_request|]|done].
Qed.

Lemma yielded_begins st out : yielded (env_sha256 env) l st out → st ≠ AtEnd → begins l out.
Proof using Hpos.
  intros Hy Hst. destruct st as [|rest|p rest|p rest fd n hashed|]; [by left|right..|done].
  - destruct Hy as (whole & contents & Hl & Hc & ->). exists whole, rest, contents, []. rewrite app_nil_r. auto.
  - destruct Hy as (whole & contents & Hl & Hc & ->). exists whole, (p :: rest), contents, (pt_header p). split_and!; [done..|].
    right. exists p, rest, []. rewrite app_nil_r. split_and!; [done..|]. rewrite Forall_forall in Hpos. apply Hpos.
    rewrite Hl. apply elem_of_app. right. by left.
  - destruct Hy as (whole & contents & Hl & Hc & -> & -> & Hle). exists whole, (p :: rest), contents, (pt_header p ++ mjoin hashed).
    split_and!; [done..|]. right. eauto 10.
Qed.

Lemma sending_sends s : sending_ok s → sends l (sg_sent s) (sg_body s) ∧ open_fds (sg_fs s) = (held (sg_body s) ++ base).
Proof using Hpos Htail.
  intros [(st & Hy & Hst) Hh]. pose proof (yielded_size (env_sha256 env) l st _ Hpos Htail Hy) as [_ Hlt]. split.
  - split.
    + intros E. rewrite E in Hst. subst st. destruct Hy as (contents & Hc & Hb).
      exists contents. split_and!; [done|done|]. rewrite Hb. by apply (body_size (env_sha256 env)).
    + intros E. assert (st ≠ AtEnd) as Hne by (destruct (sg_body s); [congruence|done]).
      split; [by eapply yielded_begins|by apply Hlt].
  - destruct (sg_body s) as [[]|]; try exact Hh. apply Hh.
Qed.
End attempt.

(** ** The abstract protocol *)

Context (cl : Client).

(** An attempt worth repeating. *)
Definition again (a : Z) (r : res SendFailure AttemptResponse) : Prop :=
  match r with
  | Throw (PlainError code _) => isRetriableError code = true
  | Throw _ => False
  | Ok response => ∃ why,
      read (env_json_parse env) response a (mget (rs_headers response) (js "x-request-id")) = Again why
  end.

(** An attempt that decides, and what the upload then gives. *)
Inductive decides (a : Z) : res SendFailure AttemptResponse → res UploadError UploadResult → Prop :=
| decides_local p m : decides a (Throw (LocalRunDirectoryError p m)) (Throw (UploadFailed (LocalRunDirectoryError p m)))
| decides_cancelled : decides a (Throw UploadAborted) (Throw (UploadFailed UploadAborted))
| decides_transport code m e :
    isRetriableError code = false → te_attempts e = a → te_cause e = Some (PlainError code m) →
    decides a (Throw (PlainError code m)) (Throw (UploadTransportError e))
| decides_done response result :
    read (env_json_parse env) response a (mget (rs_headers response) (js "x-request-id")) = Done result →
    decides a (Ok response) (Ok result)
| decides_rejected response e :
    read (env_json_parse env) response a (mget (rs_headers response) (js "x-request-id")) = RejectedAnswer e →
    decides a (Ok response) (Throw (UploadRejectedError e)).

(** Giving up: the error names the policy's attempts. *)
Definition spent (r : res UploadError UploadResult) : Prop :=
  ∃ e, r = Throw (UploadTransportError e) ∧ te_attempts e = maxAttempts (cl_retry cl).

(** A delivery with some attempts left, the next one numbered: its effects and its result. *)
Inductive delivery : nat → Z → list Effect → res UploadError UploadResult → Prop :=
| dl_spent a r : spent r → delivery 0 a [] r
| dl_cancelled n a : delivery (S n) a [] (Throw (UploadFailed UploadAborted))
| dl_decided n a rq sent body r result :
    decides a r result → delivery (S n) a [EAttempt a rq sent body r] result
| dl_last a rq sent body r result :
    again a r → spent result → delivery 1 a [EAttempt a rq sent body r] result
| dl_interrupted n a rq sent body r ms :
    again a r → 0 <= ms <= maxDelayMs (cl_retry cl) →
    delivery (S (S n)) a [EAttempt a rq sent body r; EWait a ms] (Throw (UploadFailed UploadAborted))
| dl_again n a rq sent body r ms effects result :
    again a r → 0 <= ms <= maxDelayMs (cl_retry cl) → delivery (S n) (a + 1) effects result →
    delivery (S (S n)) a (EAttempt a rq sent body r :: EWait a ms :: effects) result.

(** The request attempt [a] makes. *)
Definition request_of (plan : UploadPlan) (expiresAt : str) (a : Z) : HttpRequest :=
  http_request (attempt_request cl (env_boundary env a) (layout (env_boundary env a) plan expiresAt)).

(** What every recorded attempt has asked for and sent. *)
Definition effect_ok (plan : UploadPlan) (expiresAt : str) (e : Effect) : Prop :=
  match e with
  | EAttempt a rq sent body _ =>
      rq = request_of plan expiresAt a ∧ sends (layout (env_boundary env a) plan expiresAt) sent body
  | EWait _ _ => True
  end.

(** The descriptors after a run of effects. *)
Definition holds_after (fds : list Fd) (e : Effect) : list Fd :=
  match e with EAttempt _ _ _ body _ => held body ++ fds | EWait _ _ => fds end.

Context (plan : UploadPlan) (expiresAt : str).
Hypothesis Hplan : Forall (λ f, 0 <= sizeBytes (pf_facts f)) (up_events plan ++ up_attachments plan).
Hypothesis Hpolicy : valid_policy (cl_retry cl).
Hypothesis Hdoubles : is_double (baseDelayMs (cl_retry cl)) ∧ is_double (maxDelayMs (cl_retry cl)).
Hypothesis Hdraws : ∀ a, 0 <= env_draw env a <= 2 ^ 53.

Lemma layout_positive mark : Forall (λ p, 0 <= sizeBytes (pf_facts (pt_file p))) (ly_files (layout mark plan expiresAt)).
Proof using Hplan.
  simpl. apply Forall_app in Hplan as [H1 H2]. apply Forall_app. split; apply Forall_fmap; [exact H1|exact H2].
Qed.

Lemma layout_tail mark : 0 < size (ly_tail (layout mark plan expiresAt)).
Proof.
  pose proof (utf8_encode_pos 45%N (45%N :: mark ++ js "--" ++ CRLF)) as H1. unfold size. simpl.
  unfold text. change (js "--" ++ mark ++ js "--" ++ CRLF) with (45%N :: (45%N :: mark ++ js "--" ++ CRLF)). lia.
Qed.

(** A run of the uploader: the effects it added follow the protocol, and so do its descriptors. *)
Definition follows (turns : nat) (a : Z) (w : World W) (r : res UploadError UploadResult) (w' : World W) : Prop :=
  ∃ effects, wd_effects w' = wd_effects w ++ effects ∧ delivery turns a effects r ∧
    Forall (effect_ok plan expiresAt) effects ∧ open_fds (wd_fs w') = foldl holds_after (open_fds (wd_fs w)) effects.

Lemma attempt_once_wp a w :
  wp (attempt_once env cl plan expiresAt a)
    (λ r w', ∃ rq sent body, wd_effects w' = wd_effects w ++ [EAttempt a rq sent body r] ∧
       effect_ok plan expiresAt (EAttempt a rq sent body r) ∧
       open_fds (wd_fs w') = (held body ++ open_fds (wd_fs w)))
    (λ _ _, False) w.
Proof using Hplan.
  unfold wp, attempt_once. cbv zeta. eexists _, _, _. split; [done|].
  set (s := send _ _ _ _ _ _).
  assert (sends (layout (env_boundary env a) plan expiresAt) (sg_sent s) (sg_body s) ∧
          open_fds (sg_fs s) = (held (sg_body s) ++ open_fds (wd_fs w))) as [Hs Ho].
  { apply (sending_sends _ _ (layout_positive _) (layout_tail _)). by apply send_ok; [apply layout_positive|]. }
  split; [|exact Ho]. split; [|exact Hs]. apply send_request.
Qed.

Lemma waitBefore_wp a header w :
  1 <= a →
  wp (waitBefore env cl a header)
    (λ _ w', if maxAttempts (cl_retry cl) <=? a then w' = w
             else ∃ ms, 0 <= ms <= maxDelayMs (cl_retry cl) ∧ wd_fs w' = wd_fs w ∧
                        wd_effects w' = wd_effects w ++ [EWait a ms])
    (λ e w', (maxAttempts (cl_retry cl) <=? a) = false ∧ e = UploadFailed UploadAborted ∧
             ∃ ms, 0 <= ms <= maxDelayMs (cl_retry cl) ∧ wd_fs w' = wd_fs w ∧
                   wd_effects w' = wd_effects w ++ [EWait a ms]) (w : World W).
Proof using Hpolicy Hdoubles Hdraws.
  intros Ha. unfold waitBefore. destruct (_ <=? a) eqn:E; [by wp_step|].
  pose proof (delayBefore_bounds (cl_retry cl) a (retryAfterMs (env_parse_http_date env) header (env_now env a))
    (env_draw env a) Hpolicy (proj1 Hdoubles) (proj2 Hdoubles) Ha) as Hb.
  specialize (Hb ltac:(intros ms Hms; by eapply retryAfterMs_nonneg) (Hdraws a)).
  wp_step. wp_step. simpl. wp_step; [|wp_step]; wp_step; try (split; [done|]; split; [done|]); eexists;
    (split; [exact Hb|done]).
Qed.

Lemma decided_follows n a w w1 rq sent body r result :
  wd_effects w1 = wd_effects w ++ [EAttempt a rq sent body r] →
  effect_ok plan expiresAt (EAttempt a rq sent body r) →
  open_fds (wd_fs w1) = (held body ++ open_fds (wd_fs w)) →
  decides a r result → follows (S n) a w result w1.
Proof.
  intros H1 H2 H3 H4. eexists. split; [exact H1|]. split; [by constructor|]. split; [by constructor; [|constructor]|done].
Qed.

(** Going on after an attempt worth repeating. *)
Lemma repeat_follows turns a header last w w1 rq sent body r :
  (∀ w0, wp (deliver_from env cl plan expiresAt turns (a + 1) last)
           (λ x w', follows turns (a + 1) w0 (Ok x) w') (λ e w', follows turns (a + 1) w0 (Throw e) w') w0) →
  1 <= a → a + Z.of_nat turns = maxAttempts (cl_retry cl) →
  wd_effects w1 = wd_effects w ++ [EAttempt a rq sent body r] →
  effect_ok plan expiresAt (EAttempt a rq sent body r) →
  open_fds (wd_fs w1) = (held body ++ open_fds (wd_fs w)) → again a r →
  wp (waitBefore env cl a header ;; deliver_from env cl plan expiresAt turns (a + 1) last)
    (λ x w', follows (S turns) a w (Ok x) w') (λ e w', follows (S turns) a w (Throw e) w') w1.
Proof using Hpolicy Hdoubles Hdraws.
  intros IH Ha Hturns H1 H2 H3 Hr. wp_step. eapply wp_mono; [by apply waitBefore_wp| |].
  - intros u w2 Hw2. cbv beta in Hw2. clear u. destruct (maxAttempts (cl_retry cl) <=? a) eqn:Ele;
      [apply Z.leb_le in Ele|apply Z.leb_gt in Ele].
    + subst w2. assert (turns = 0%nat) as -> by lia. simpl. wp_step.
      eexists. split; [exact H1|]. split; [|split; [by constructor; [|constructor]|done]].
      apply dl_last; [done|]. by eexists.
    + destruct Hw2 as (ms & Hms & Hfs & Heff). destruct turns as [|turns]; [lia|].
      assert (∀ x w', follows (S turns) (a + 1) w2 x w' → follows (S (S turns)) a w x w') as Hlift.
      { intros x w' (effs & He & Hd & Hok & Hfd). exists (EAttempt a rq sent body r :: EWait a ms :: effs).
        split_and!.
        - rewrite He, Heff, H1. by rewrite <- !app_assoc.
        - by constructor.
        - constructor; [done|]. by constructor.
        - rewrite Hfd, Hfs, H3. done. }
      eapply wp_mono; [apply IH|intros; by apply Hlift|intros; by apply Hlift].
  - intros e w2 (Hgt & -> & ms & Hms & Hfs & Heff). apply Z.leb_gt in Hgt. destruct turns as [|turns]; [lia|].
    exists [EAttempt a rq sent body r; EWait a ms]. split_and!.
    + rewrite Heff, H1. by rewrite <- app_assoc.
    + by constructor.
    + constructor; [done|]. by repeat constructor.
    + by rewrite Hfs, H3.
Qed.

Lemma deliver_from_follows turns a last w :
  1 <= a → a + Z.of_nat turns = maxAttempts (cl_retry cl) + 1 →
  wp (deliver_from env cl plan expiresAt turns a last)
    (λ x w', follows turns a w (Ok x) w') (λ e w', follows turns a w (Throw e) w') w.
Proof using Hplan Hpolicy Hdoubles Hdraws.
  revert a last w. induction turns as [|turns IH]; intros a last w Ha Hturns; simpl.
  - wp_step. exists []. rewrite app_nil_r. split_and!; [done|constructor; by eexists|constructor|done].
  - wp_step.
    + wp_step. exists []. rewrite app_nil_r. split_and!; [done|constructor|constructor|done].
    + wp_step. eapply wp_mono; [apply attempt_once_wp| |done].
      intros r w1 (rq & sent & body & H1 & H2 & H3).
      assert (∀ last w0, wp (deliver_from env cl plan expiresAt turns (a + 1) last)
           (λ x w', follows turns (a + 1) w0 (Ok x) w') (λ e w', follows turns (a + 1) w0 (Throw e) w') w0) as IH'
        by (intros; apply IH; lia).
      destruct r as [response|[p m| |code m]].
      * destruct (read _ response a _) as [result|e|why] eqn:Er; [wp_step|wp_step|].
        -- eapply decided_follows; try done. by constructor.
        -- eapply decided_follows; try done. by constructor.
        -- eapply repeat_follows; try done; [lia|]. by exists why.
      * wp_step. eapply decided_follows; try done. constructor.
      * wp_step. eapply decided_follows; try done. constructor.
      * destruct (isRetriableError code) eqn:Ec; simpl.
        -- eapply repeat_follows; try done; lia.
        -- wp_step. eapply decided_follows; try done. by constructor.
Qed.
End spec.

(** ** A small file system

    A concrete world for the uploader's and the sink's code to run on: named
    nodes, the open descriptors with what is left to read of each, and a
    counter-free choice of descriptors. It satisfies the laws of Io.v, so the
    theorems apply to it, and it computes. *)

Inductive Node := DirNode (names : list str) | FileNode (content : bytes) | LinkNode | SealedDir.

Record OpenNode := { on_content : bytes; on_rest : bytes }.

Record DemoDisk := { dd_nodes : jsmap str Node; dd_open : list (Fd * OpenNode) }.

Definition node_kind (n : Node) : StatKind :=
  match n with DirNode _ | SealedDir => KDirectory | FileNode _ => KFile | LinkNode => KSymlink end.
Definition node_size (n : Node) : Z := match n with FileNode b => Z.of_nat (length b) | _ => 0 end.
Definition node_stats (n : Node) : Stats :=
  {| st_kind := node_kind n; st_size := node_size n; st_mtimeMs := 0; st_dev := 1; st_ino := 1 |}.

Definition fresh_fd (l : list (Fd * OpenNode)) : Fd := 1 + foldr (λ o m, Z.max o.1 m) 2 l.

Definition demo_find (fd : Fd) (d : DemoDisk) : option OpenNode :=
  snd <$> head (List.filter (λ o, o.1 =? fd) (dd_open d)).

(** A read gives at most four bytes. *)
Definition demo_read (fd : Fd) : io DemoDisk Errno (option bytes) := λ d,
  match demo_find fd d with
  | None => (Throw (EOTHER (js "EBADF")), d)
  | Some o =>
      match on_rest o with
      | [] => (Ok None, d)
      | rest =>
          (Ok (Some (take 4 rest)),
           {| dd_nodes := dd_nodes d;
              dd_open := (λ x, if x.1 =? fd then (x.1, {| on_content := on_content o; on_rest := drop 4 rest |}) else x)
                           <$> dd_open d |})
      end
  end.

#[export] Instance demo_fs : NodeFs DemoDisk := {
  path_join a b := a ++ js "/" ++ b;
  sys_realpath p d := (Ok p, d);
  sys_lstat p d := (match mget (dd_nodes d) p with Some n => Ok (node_stats n) | None => Throw ENOENT end, d);
  sys_readdir p d :=
    (match mget (dd_nodes d) p with
     | Some (DirNode names) => Ok names
     | Some SealedDir => Throw (EOTHER (js "EACCES"))
     | Some _ => Throw ENOTDIR | None => Throw ENOENT end, d);
  sys_open p d :=
    match mget (dd_nodes d) p with
    | Some (FileNode b) =>
        let fd := fresh_fd (dd_open d) in
        (Ok fd, {| dd_nodes := dd_nodes d; dd_open := (fd, {| on_content := b; on_rest := b |}) :: dd_open d |})
    | Some LinkNode => (Throw ELOOP, d)
    | Some _ => (Throw (EOTHER (js "EISDIR")), d)
    | None => (Throw ENOENT, d)
    end;
  sys_fstat fd d :=
    (match demo_find fd d with
     | Some o => Ok (node_stats (FileNode (on_content o))) | None => Throw (EOTHER (js "EBADF")) end, d);
  sys_read := demo_read;
  sys_read_all fd d :=
    (match demo_find fd d with Some o => Ok [on_rest o] | None => Throw (EOTHER (js "EBADF")) end, d);
  sys_close fd d := {| dd_nodes := dd_nodes d; dd_open := List.filter (λ o, negb (o.1 =? fd)) (dd_open d) |};
}.

Lemma fresh_fd_fresh l : fresh_fd l ∉ l.*1.
Proof.
  assert (∀ x, x ∈ l.*1 → x <= foldr (λ o m, Z.max o.1 m) 2 l) as Hle.
  { induction l as [|[a o] l IH]; intros x Hx; csimpl in *; [set_solver|].
    apply elem_of_cons in Hx as [->|Hx]; [lia|]. specialize (IH x Hx). lia. }
  intros H%Hle. unfold fresh_fd in H. lia.
Qed.

#[export] Program Instance demo_fs_laws : NodeFsLaws DemoDisk := { open_fds d := (dd_open d).*1 }.
Next Obligation.
  intros p d fd d'. simpl. destruct (mget _ _) as [[]|]; intros [= <- <-]. split; [apply fresh_fd_fresh|done].
Qed.
Next Obligation. intros p d e d'. simpl. destruct (mget _ _) as [[]|]; by intros [= <- <-]. Qed.
Next Obligation.
  intros fd d. simpl. induction (dd_open d) as [|[a o] l IH]; simpl; [done|].
  destruct (a =? fd); simpl; [done|by f_equal].
Qed.
Next Obligation.
  intros fd d st d'. simpl. destruct (demo_find fd d); [|done]. intros [= <- _]. simpl. lia.
Qed.
Next Obligation. done. Qed.
Next Obligation. done. Qed.
Next Obligation. done. Qed.
Next Obligation. done. Qed.
Next Obligation.
  intros fd d. simpl. unfold demo_read. destruct (demo_find fd d) as [o|]; [|done].
  destruct (on_rest o); [done|]. simpl. rewrite <- list_fmap_compose. apply list_fmap_ext.
  intros i [a x] _. simpl. by destruct (a =? fd).
Qed.
Next Obligation. done. Qed.
