(* ===== verification/UploadProps.v ===== *)
(** * Properties of the uploader

    From the protocol a delivery follows (UploadSpec.v): how often and how long
    it tries, what its result means, what it sends, and which descriptors it
    leaves; where the key may go; and what a bounded answer is. A demo upload,
    timed out once and then accepted, shows the hypotheses hold. *)

From Stdlib Require Import Strings.Byte Sorting.Sorted.
From S2P Require Import Prelude JsNumber JsString JsBytes JsMap JsSort Json ValidatorRun SafeName JsDate HttpRetry Instants Io LocalRun Multipart Upload UploadSpec.

Local Open Scope Z_scope.

(** ** Consequences of the protocol *)

(** What a constructed client and a real machine guarantee: a checked policy, whose numbers are
    doubles, and draws between 0 and 1. *)
Record sound_setting (env : Environment) (cl : Client) : Prop := {
  so_policy : valid_policy (cl_retry cl);
  so_base : is_double (baseDelayMs (cl_retry cl));
  so_max : is_double (maxDelayMs (cl_retry cl));
  so_draws : ∀ a, 0 <= env_draw env a <= 2 ^ 53;
}.

Definition attempt_number (e : Effect) : option Z :=
  match e with EAttempt a _ _ _ _ => Some a | EWait _ _ => None end.
Definition attempt_numbers (effects : list Effect) : list Z := omap attempt_number effects.
Definition wait_number (e : Effect) : option Z :=
  match e with EWait a _ => Some a | EAttempt _ _ _ _ _ => None end.

(** Attempts are numbered from [a] on, and never more than are left; between two of them there is
    one wait, within the policy. *)
Lemma delivery_counts env cl n a effects r :
  delivery env cl n a effects r →
  attempt_numbers effects = seqZ a (Z.of_nat (length (attempt_numbers effects))) ∧
  (length (attempt_numbers effects) <= n)%nat ∧
  (length (omap wait_number effects) < Nat.max 1 n)%nat ∧
  (length (attempt_numbers effects) <= S (length (omap wait_number effects)) )%nat ∧
  Forall (λ e, match e with EWait _ ms => 0 <= ms <= maxDelayMs (cl_retry cl) | _ => True end) effects.
Proof.
  unfold attempt_numbers.
  induction 1 as [a r Hs|n a|n a rq sent body r result Hd|a rq sent body r result Ha Hs|n a rq sent body r ms Ha Hms
                 |n a rq sent body r ms effects result Ha Hms _ (IH1 & IH2 & IH3 & IH4 & IH5)]; csimpl;
    try (split_and!; [done|lia|lia|lia|by repeat (apply Forall_cons; split; [done|])]).
  split_and!; [|lia|lia|lia|by repeat (apply Forall_cons; split; [done|])].
  rewrite IH1 at 1. rewrite (seqZ_cons a) by lia. f_equal. f_equal; lia.
Qed.

(** The last effect of a delivery that returned, and those before it. *)
Lemma delivery_done env cl n a effects result :
  delivery env cl n a effects (Ok result) →
  ∃ before k rq sent body response,
    effects = before ++ [EAttempt k rq sent body (Ok response)] ∧ a <= k ∧
    read (env_json_parse env) response k (mget (rs_headers response) (js "x-request-id")) = Done result ∧
    Forall (λ e, match e with EAttempt k' _ _ _ r => again env k' r | _ => True end) before.
Proof.
  remember (Ok result) as res eqn:Er. induction 1 as [a r Hs|n a|n a rq sent body r result' Hd|a rq sent body r result' Ha Hs
    |n a rq sent body r ms Ha Hms|n a rq sent body r ms effects result' Ha Hms _ IH]; try discriminate Er; subst.
  - by destruct Hs as (e & E & _).
  - inversion Hd; subst. by exists [], a, rq, sent, body, response.
  - by destruct Hs as (e & E & _).
  - destruct (IH eq_refl) as (before & k & q & s & b & resp & -> & Hk & Hr & Hb).
    exists (EAttempt a rq sent body r :: EWait a ms :: before), k, q, s, b, resp. split_and!; try done; [lia|].
    constructor; [done|]. by constructor.
Qed.

(** A delivery that threw: what its last effect was. *)
Lemma delivery_threw env cl n a effects e :
  delivery env cl n a effects (Throw e) →
  match e with
  | InvalidRequest _ => False
  | UploadFailed f => (∃ p m, f = LocalRunDirectoryError p m) ∨ f = UploadAborted
  | UploadRejectedError e => ∃ before k rq sent body response,
      effects = before ++ [EAttempt k rq sent body (Ok response)] ∧
      read (env_json_parse env) response k (mget (rs_headers response) (js "x-request-id")) = RejectedAnswer e
  | UploadTransportError e =>
      (length (attempt_numbers effects) = n ∧ te_attempts e = maxAttempts (cl_retry cl)) ∨
      ∃ before k rq sent body code m,
        effects = before ++ [EAttempt k rq sent body (Throw (PlainError code m))] ∧
        isRetriableError code = false ∧ te_attempts e = k
  end.
Proof.
  remember (Throw e) as res eqn:Er. induction 1 as [a r Hs|n a|n a rq sent body r result' Hd|a rq sent body r result' Ha Hs
    |n a rq sent body r ms Ha Hms|n a rq sent body r ms effects result' Ha Hms _ IH]; subst; simplify_eq.
  - destruct Hs as (t & [= ->] & Ht). left. by split.
  - by right.
  - inversion Hd; subst; simpl; eauto 10.
    + right. exists []; do 6 eexists; by split_and!.
    + exists [], a, rq, sent, body, response. by split.
  - destruct Hs as (t & [= ->] & Ht). left. by split.
  - by right.
  - specialize (IH eq_refl). destruct e as [| |e|e]; try done.
    + destruct IH as (before & k & q & s & b & resp & -> & Hr).
      exists (EAttempt a rq sent body r :: EWait a ms :: before), k, q, s, b, resp. by split.
    + destruct IH as [[Hn Ht]|(before & k & q & s & b & c & m & -> & Hr)]; [left; simpl; by rewrite Hn|].
      right. exists (EAttempt a rq sent body r :: EWait a ms :: before), k, q, s, b, c, m. by split.
Qed.

Section runs.
Context {W : Type} `{NodeFsLaws W} (env : Environment) (cl : Client) (Hset : sound_setting env cl).

(** An upload either ends before its first attempt, or delivers the plan it read. *)
Lemma upload_cases dir expires w r w' :
  uploadRunDirectory env cl dir expires w = (r, w') →
  (wd_effects w' = wd_effects w ∧ open_fds (wd_fs w') = open_fds (wd_fs w) ∧
   ∃ e, r = Throw e ∧ match e with InvalidRequest _ | UploadFailed _ => True | _ => False end) ∨
  ∃ plan ms effects, checkExpiresAt expires = Ok ms ∧ plan_ok (env_sha256 env) plan ∧
    wd_effects w' = wd_effects w ++ effects ∧
    delivery env cl (Z.to_nat (maxAttempts (cl_retry cl))) 1 effects r ∧
    Forall (effect_ok env cl plan (toISOString ms)) effects ∧
    open_fds (wd_fs w') = foldl holds_after (open_fds (wd_fs w)) effects.
Proof using Hset.
  unfold uploadRunDirectory. destruct (checkExpiresAt expires) as [ms|m] eqn:Em.
  2:{ intros [= <- <-]. left. split_and!; [done|done|by eexists]. }
  unfold mbind, io_mbind. pose proof (planUpload_balanced (env_sha256 env) dir (wd_fs w)) as Hb. unfold wp in Hb.
  destruct (planUpload _ dir (wd_fs w)) as [[plan|e] fs] eqn:Ep.
  2:{ intros [= <- <-]. left. split; [done|]. split; [apply Hb|by eexists]. }
  intros Hd. right. pose proof (planUpload_Ok _ _ _ _ _ Ep) as Hplan.
  destruct Hset as [Hp Hdb Hdm Hdr].
  pose proof (deliver_from_follows env cl plan (toISOString ms) (plan_ok_sizes _ _ Hplan) Hp (conj Hdb Hdm) Hdr
    (Z.to_nat (maxAttempts (cl_retry cl))) 1 not_delivered (w <| wd_fs := fs |>) ltac:(lia)
    ltac:(destruct Hp; lia)) as Hf.
  unfold deliver in Hd. unfold wp in Hf. rewrite Hd in Hf. exists plan, ms.
  destruct r as [x|e]; destruct Hf as (effects & H1 & H2 & H3 & H4);
    (exists effects; split_and!; try done; by rewrite <- Hb).
Qed.
End runs.

(** ** Answers *)

Definition run_events (decode : bytes → str) (max timeout : Z) (events : list NetEvent) (a : AttemptHandlers) : AttemptHandlers :=
  foldl (λ a ev, on_event decode max timeout ev a) a events.

Lemma settle_answer decode max r a :
  answer_ok decode max r → (∀ r', at_settled a = Some r' → answer_ok decode max r') →
  ∀ r', at_settled (settle r a) = Some r' → answer_ok decode max r'.
Proof.
  intros Hr Ha r'. unfold settle. destruct (at_settled a) eqn:E; [by rewrite E; apply Ha|].
  simpl. by intros [= <-].
Qed.

Lemma on_event_answer decode max timeout ev a :
  bounded max a → (∀ r, at_settled a = Some r → answer_ok decode max r) →
  ∀ r, at_settled (on_event decode max timeout ev a) = Some r → answer_ok decode max r.
Proof.
  intros Hb Ha r'. destruct (at_settled a) as [r0|] eqn:Es.
  { rewrite (on_event_keeps decode max timeout ev a r0 Es). apply Ha. }
  assert (∀ x y, at_settled y = None → answer_ok decode max x → at_settled (settle x y) = Some r' → answer_ok decode max r') as Hs.
  { intros x y Hy Hx. unfold settle. rewrite Hy. simpl. by intros [= <-]. }
  unfold on_event, on_close, on_data. rewrite Es.
  destruct ev, (at_response a) as [[]|]; try (simpl; rewrite Es; done); try (by apply Hs).
  - simpl. destruct (_ <? _); simpl; by rewrite Es.
  - destruct (at_truncated a); [by apply Hs|]. destruct complete; [|by apply Hs]. simpl. apply Hs; [done|].
    simpl. exists (mjoin (at_chunks a)). split; [done|apply Hb].
Qed.

Lemma run_events_ok decode max timeout events a :
  bounded max a → (∀ r, at_settled a = Some r → answer_ok decode max r) →
  bounded max (run_events decode max timeout events a) ∧
  ∀ r, at_settled (run_events decode max timeout events a) = Some r → answer_ok decode max r.
Proof.
  revert a. induction events as [|ev events IH]; intros a Hb Ha; [done|]. simpl.
  apply IH; [by apply on_event_bounded|by apply on_event_answer].
Qed.

Lemma run_events_keeps decode max timeout events a r :
  at_settled a = Some r → at_settled (run_events decode max timeout events a) = Some r.
Proof. revert a. induction events as [|ev events IH]; intros a Ha; [done|]. by apply IH, on_event_keeps. Qed.

(** ** Where the key goes *)

(** [path] up to and with its last slash: what a relative reference is resolved against. *)
Fixpoint upto_last_slash (path : str) : str :=
  match path with
  | [] => []
  | u :: path' => if existsb (N.eqb 47) path' then u :: upto_last_slash path' else if (u =? 47)%N then [u] else []
  end.

Lemma upto_last_slash_snoc path : upto_last_slash (path ++ js "/") = path ++ js "/".
Proof.
  induction path as [|u path IH]; [done|]. simpl. rewrite existsb_app. simpl. rewrite orb_true_r. by rewrite IH.
Qed.

(** Segments of letters, digits and slashes, beginning with none. *)
Definition plain_reference (rel : str) : Prop :=
  rel ≠ [] ∧ head rel ≠ Some 47%N ∧
  forallb (λ u, is_digit u || is_upper u || in_range 97 122 u || (u =? 47)%N) rel = true.

Definition web (url : Url) : Prop := url_protocol url = js "https:" ∨ url_protocol url = js "http:".

(** The same service: scheme, host and port. *)
Definition same_service (a b : Url) : Prop :=
  url_protocol a = url_protocol b ∧ url_hostname a = url_hostname b ∧ url_port a = url_port b.

(** No query mark and no fragment mark, not even of an empty query or fragment. *)
Definition unmarked (href : str) : Prop := Forall (λ u, u ≠ 63%N ∧ u ≠ 35%N) href.

(** What the URL standard says of parsing and resolving web addresses: an address written out parses to
    itself; a slash put after one can only change its path, query or fragment, and is put after its path
    when it has neither of the others; a plain relative reference stays with the service and replaces the
    last segment of the path. *)
Record url_laws (urls : UrlParser) : Prop := {
  ul_href s url : parse_url urls s = Some url → web url → parse_url urls (url_href url) = Some url;
  ul_slash s url : parse_url urls s = Some url → web url →
    ∃ url', parse_url urls (url_href url ++ js "/") = Some url' ∧ same_service url' url ∧
      (unmarked (url_href url) → url_pathname url' = url_pathname url ++ js "/");
  ul_relative rel base url : parse_url urls base = Some url → web url → plain_reference rel →
    same_service (relative_url urls rel base) url ∧ url_search (relative_url urls rel base) = [] ∧
    url_pathname (relative_url urls rel base) = upto_last_slash (url_pathname url) ++ rel;
}.

(** A request to the service at [url], its path below the configured one, with the key in one header. *)
Record goes_home (url : Url) (apiKey mark : str) (rq : HttpRequest) : Prop := {
  gh_secure : rq_secure rq = bool_decide (url_protocol url = js "https:");
  gh_protocol : rq_protocol rq = url_protocol url;
  gh_hostname : rq_hostname rq = url_hostname url;
  gh_port : rq_port rq = url_port url;
  gh_method : rq_method rq = js "POST";
  gh_path : unmarked (url_href url) → rq_path rq =
    (if ends_with_slash (url_pathname url) then url_pathname url else url_pathname url ++ js "/") ++ js "v1/runs";
  gh_headers : ∃ length, rq_headers rq =
    [(js "authorization", js "Bearer " ++ apiKey);
     (js "content-type", js "multipart/form-data; boundary=" ++ mark);
     (js "content-length", dec length);
     (js "accept", js "application/json, application/problem+json");
     (js "user-agent", js "qe-report-http-client")];
}.

(** What the constructor has checked of the service's address. *)
Record fit_for_key (insecure : option bool) (url : Url) : Prop := {
  fk_protocol : url_protocol url = js "https:" ∨
    url_protocol url = js "http:" ∧ (isLoopback (url_hostname url) = true ∨ insecure = Some true);
  fk_username : url_username url = [];
  fk_password : url_password url = [];
  fk_hash : url_hash url = [];
  fk_search : url_search url = [];
}.

Lemma fit_web insecure url : fit_for_key insecure url → web url.
Proof. intros [[H|[H _]]]; [by left|by right]. Qed.

Lemma resolveTarget_Ok urls baseUrl insecure target :
  resolveTarget urls baseUrl (default false insecure) = Ok target →
  ∃ url, parse_url urls baseUrl = Some url ∧ fit_for_key insecure url ∧
    tg_runs target = relative_url urls (js "v1/runs")
      (if ends_with_slash (url_pathname url) then url_href url else url_href url ++ js "/").
Proof.
  unfold resolveTarget. intros Ht. destruct (str_eqb (trim baseUrl) []); [discriminate Ht|].
  destruct (parse_url urls baseUrl) as [url|]; [|discriminate Ht]. exists url. split; [done|].
  destruct (negb _ && negb _) eqn:E1 in Ht; [discriminate Ht|]. destruct (_ || _) eqn:E2 in Ht; [discriminate Ht|].
  destruct (negb _) eqn:E3 in Ht; [discriminate Ht|]. destruct (negb _) eqn:E4 in Ht; [discriminate Ht|].
  destruct (_ && negb (default _ _)) eqn:E5 in Ht; [discriminate Ht|]. injection Ht as <-. split; [|done].
  unfold str_eqb in *. rewrite orb_false_iff, !negb_false_iff, !bool_decide_eq_true in *.
  destruct E2 as [Hu Hpw]. constructor; try done.
  destruct (bool_decide (url_protocol url = js "https:")) eqn:Es; [left; by apply bool_decide_eq_true in Es|].
  simpl in E1, E5. apply negb_false_iff, bool_decide_eq_true in E1. right. split; [done|].
  destruct (isLoopback (url_hostname url)); [by left|]. right. simpl in E5. apply negb_false_iff in E5.
  by destruct insecure as [[]|].
Qed.

Lemma new_client_Ok urls baseUrl insecure apiKey retry timeout cl :
  new_client urls baseUrl insecure apiKey retry timeout = Ok cl →
  resolveTarget urls baseUrl (default false insecure) = Ok (cl_target cl) ∧ cl_apiKey cl = apiKey ∧
  valid_policy (cl_retry cl) ∧ 1 <= cl_attemptTimeoutMs cl.
Proof.
  unfold new_client. intros H. apply bind_Ok_inv in H as (target & Ht & H).
  destruct (negb _) in H; [discriminate H|]. apply bind_Ok_inv in H as (policy & Hp & H).
  apply resolveRetry_Ok in Hp as [_ Hp]. destruct (as_integer _) as [t|]; [|discriminate H].
  destruct (Z.ltb_spec t 1); [discriminate H|]. injection H as <-. by split_and!.
Qed.

Lemma ends_with_slash_inv path : ends_with_slash path = true → ∃ p, path = p ++ js "/".
Proof.
  unfold ends_with_slash, ends_with. intros [_ Hd%str_eqb_eq]%andb_true_iff.
  eexists. rewrite <- (take_drop (length path - length (js "/")) path) at 1. f_equal. exact Hd.
Qed.

Lemma runs_at_home urls insecure s url cl env plan expiresAt a :
  url_laws urls → parse_url urls s = Some url → fit_for_key insecure url →
  tg_runs (cl_target cl) = relative_url urls (js "v1/runs")
      (if ends_with_slash (url_pathname url) then url_href url else url_href url ++ js "/") →
  goes_home url (cl_apiKey cl) (env_boundary env a) (request_of env cl plan expiresAt a).
Proof.
  intros [Hh Hs Hr] Hp Hf%fit_web Ht.
  assert (plain_reference (js "v1/runs")) as Hv by done.
  assert (∃ base url', parse_url urls base = Some url' ∧ tg_runs (cl_target cl) = relative_url urls (js "v1/runs") base ∧
    same_service url' url ∧ (unmarked (url_href url) → upto_last_slash (url_pathname url') =
      if ends_with_slash (url_pathname url) then url_pathname url else url_pathname url ++ js "/"))
    as (base & url' & Hb & Ht' & Hsame & Hpath).
  { destruct (ends_with_slash (url_pathname url)) eqn:Ee.
    - exists (url_href url), url. split_and!; [by eapply Hh|done|done..|].
      intros _. apply ends_with_slash_inv in Ee as [p ->]. apply upto_last_slash_snoc.
    - destruct (Hs _ _ Hp Hf) as (url' & H1 & H2 & H3). exists (url_href url ++ js "/"), url'.
      split_and!; try done. intros Hu. rewrite H3 by done. apply upto_last_slash_snoc. }
  destruct Hsame as (S1 & S2 & S3). assert (web url') as Hw by (unfold web; by rewrite S1).
  destruct (Hr _ _ _ Hb Hw Hv) as ((R1 & R2 & R3) & R4 & R5). rewrite <- Ht' in R1, R2, R3, R4, R5.
  constructor; simpl; rewrite ?R1, ?R2, ?R3; try done.
  - unfold str_eqb. by rewrite S1.
  - intros Hu. rewrite R4, R5, app_nil_r, Hpath; done.
  - by eexists.
Qed.

(** Every attempt of an upload makes the client's request for its plan. *)
Definition asks (env : Environment) (cl : Client) (e : Effect) : Prop :=
  match e with EAttempt a rq _ _ _ => ∃ plan expiresAt, rq = request_of env cl plan expiresAt a | EWait _ _ => True end.

Section asks.
Context {W : Type} `{NodeFs W} (env : Environment) (cl : Client) (plan : UploadPlan) (expiresAt : str).
Definition all_ask (w : World W) : Prop := Forall (asks env cl) (wd_effects w).

Lemma waitBefore_asks a header w :
  all_ask w → wp (waitBefore env cl a header) (λ _ w', all_ask w') (λ _ w', all_ask w') w.
Proof.
  intros Hw. unfold waitBefore. destruct (_ <=? a); [by wp_step|].
  wp_step. wp_step. simpl. wp_step; [|wp_step]; wp_step; (apply Forall_app; split; [done|by constructor]).
Qed.

Lemma attempt_once_asks a w :
  all_ask w → wp (attempt_once env cl plan expiresAt a) (λ _ w', all_ask w') (λ _ _, False) w.
Proof.
  intros Hw. unfold wp, attempt_once, all_ask. simpl. apply Forall_app. split; [done|]. constructor; [|done].
  exists plan, expiresAt. apply send_request.
Qed.

Lemma deliver_from_asks turns a last w :
  all_ask w → wp (deliver_from env cl plan expiresAt turns a last) (λ _ w', all_ask w') (λ _ w', all_ask w') w.
Proof.
  revert a last w. induction turns as [|turns IH]; intros a last w Hw; simpl; [by wp_step|].
  assert (∀ header last w0, all_ask w0 →
    wp (waitBefore env cl a header ;; deliver_from env cl plan expiresAt turns (a + 1) last)
      (λ _ w', all_ask w') (λ _ w', all_ask w') w0) as Hagain.
  { intros header last' w0 Hw0. wp_step. eapply wp_mono; [by apply waitBefore_asks|intros; by apply IH|done]. }
  wp_step; [by wp_step|]. wp_step. eapply wp_mono; [by apply attempt_once_asks| |done].
  intros r w1 Hw1. destruct r as [response|[p m| |code m]]; [|by wp_step|by wp_step|].
  - destruct (read _ response a _); [by wp_step|by wp_step|by apply Hagain].
  - destruct (negb _); [by wp_step|by apply Hagain].
Qed.
End asks.

Lemma upload_asks {W} `{NodeFs W} env cl dir expires (w : World W) r w' :
  uploadRunDirectory env cl dir expires w = (r, w') → all_ask env cl w → all_ask env cl w'.
Proof.
  intros E Hw. enough (wp (uploadRunDirectory env cl dir expires) (λ _ w', all_ask env cl w') (λ _ w', all_ask env cl w') w)
    as Hwp by (unfold wp in Hwp; rewrite E in Hwp; by destruct r).
  unfold uploadRunDirectory. destruct (checkExpiresAt expires) as [ms|m]; [|by wp_step].
  wp_step. unfold wp at 1. destruct (planUpload _ dir (wd_fs w)) as [[plan|e] fs]; [|done].
  by apply deliver_from_asks.
Qed.

(** ** A demo upload *)

Definition demo_digest : str := repeat 48%N 64.
Definition demo_disk : DemoDisk :=
  {| dd_nodes :=
       [(js "run", DirNode [js "events"; js "attachments"]);
        (js "run/events", DirNode [js "b.ndjson"; js "a.ndjson"; js "notes.txt"]);
        (js "run/events/a.ndjson", FileNode [x61; x62; x63; x64; x65; x0a]);
        (js "run/events/b.ndjson", FileNode [x0a]);
        (js "run/events/notes.txt", LinkNode);
        (js "run/attachments", DirNode [demo_digest; js ".tmp-1"]);
        (js "run/attachments/" ++ demo_digest, FileNode [x78; x79])];
     dd_open := [] |}.

Definition demo_answer : json :=
  JObj [(js "outcome", JStr (js "inserted")); (js "runId", JStr (js "r1")); (js "runRef", JStr (js "cjE"));
        (js "ingestionSequence", JStr (js "7"))].
Definition demo_response : list AttemptStep :=
  [Net (Response (Some 201) [(js "Content-Type", inl (js "application/json")); (js "X-Request-Id", inl (js "q1"))]);
   Net (Data [x7b; x7d]); Net (ResponseClosed true)].

(** The first attempt is cut off in the middle of a file; the second is answered. *)
Definition demo_env : Environment :=
  {| env_boundary a := js "b" ++ dec a;
     env_aborted_before _ := false; env_aborted_at_send _ := false;
     env_script a := if a =? 1 then repeat Pull 3 ++ [Net TimedOut] else repeat Pull 16 ++ demo_response;
     env_now _ := 0; env_draw _ := 2 ^ 52; env_sleep_aborted _ := false; env_aborted_after _ := false;
     env_parse_http_date _ := None; env_utf8_decode b := Byte.to_N <$> b; env_json_parse _ := Some demo_answer;
     env_sha256 _ := demo_digest |}.

(** A service under [https://qe.example/], whatever follows the host in the text that is parsed. *)
Definition demo_url_at (pathname : str) : Url :=
  {| url_protocol := js "https:"; url_username := []; url_password := []; url_hash := []; url_search := [];
     url_hostname := js "qe.example"; url_port := []; url_origin := js "https://qe.example"; url_pathname := pathname;
     url_href := js "https://qe.example" ++ pathname |}.
Definition demo_url : Url := demo_url_at (js "/").

(** The path in the text of an address of that service; its root for any other text. *)
Definition demo_path (s : str) : str :=
  if bool_decide (head (drop 18 s) = Some 47%N) then drop 18 s else js "/".
Definition demo_urls : UrlParser :=
  {| parse_url s := Some (demo_url_at (demo_path s));
     relative_url rel base := demo_url_at (upto_last_slash (demo_path base) ++ rel) |}.
Lemma demo_path_rooted s : ∃ p, demo_path s = 47%N :: p.
Proof.
  unfold demo_path. case_bool_decide as E; [|by eexists].
  destruct (drop 18 s); [done|]. injection E as ->. by eexists.
Qed.

Lemma demo_path_href s more : demo_path (js "https://qe.example" ++ demo_path s ++ more) = demo_path s ++ more.
Proof. destruct (demo_path_rooted s) as [p Hp]. by rewrite Hp. Qed.

Lemma demo_urls_laws : url_laws demo_urls.
Proof.
  constructor; simpl.
  - intros s url [= <-] _. f_equal. f_equal. pose proof (demo_path_href s []) as H. by rewrite !app_nil_r in H.
  - intros s url [= <-] _. eexists. split; [done|]. split; [done|]. intros _. simpl.
    apply (demo_path_href s (js "/")).
  - by intros rel base url [= <-] _ _.
Qed.

Definition no_overrides : RetryOverrides :=
  {| ov_maxAttempts := None; ov_baseDelayMs := None; ov_maxDelayMs := None |}.
Definition demo_client : Client :=
  {| cl_target := {| tg_runs := demo_url_at (js "/v1/runs"); tg_origin := js "https://qe.example"; tg_secure := true |};
     cl_apiKey := js "k"; cl_retry := DEFAULT_RETRY; cl_attemptTimeoutMs := 600000 |}.

Definition demo_world : World DemoDisk := {| wd_fs := demo_disk; wd_effects := [] |}.
Definition demo_upload : res UploadError UploadResult * World DemoDisk :=
  uploadRunDirectory demo_env demo_client (js "run") (Some (new_date 0)) demo_world.

Definition demo_result : UploadResult :=
  {| ur_outcome := Inserted; ur_runId := js "r1"; ur_runRef := js "cjE"; ur_ingestionSequence := js "7";
     ur_requestId := Some (js "q1"); ur_attempts := 2; ur_queryIndexRebuilt := None |}.

Lemma demo_setting : sound_setting demo_env demo_client.
Proof.
  constructor; simpl; [by constructor|apply is_double_small; lia|apply is_double_small; lia|].
  intros _. change (env_draw demo_env 0) with (2 ^ 52). lia.
Qed.

(** The world it leaves. *)
Definition demo_final : World DemoDisk := Eval vm_compute in demo_upload.2.
Definition demo_effects : list Effect := wd_effects demo_final.

Lemma demo_upload_ok :
  uploadRunDirectory demo_env demo_client (js "run") (Some (new_date 0)) demo_world = (Ok demo_result, demo_final).
Proof. vm_compute. reflexivity. Qed.

Lemma demo_effects_from effects : wd_effects demo_final = wd_effects demo_world ++ effects → demo_effects = effects.
Proof. done. Qed.

(** ** Properties *)

(** C36 An upload follows the delivery protocol. Either it ends before its first attempt, with the
    caller's mistake or the run directory's problem, having sent nothing; or it reads one plan, whose
    files are exactly the event files and proven attachments of the directory, and makes the attempts
    and waits of the protocol with it, every attempt from the beginning. Either way it has closed
    every descriptor except those of bodies left in the middle of a file. *)
Theorem upload_refines_delivery {W} `{NodeFsLaws W} env cl dir expires (w : World W) r w' :
  sound_setting env cl → uploadRunDirectory env cl dir expires w = (r, w') →
  (wd_effects w' = wd_effects w ∧ open_fds (wd_fs w') = open_fds (wd_fs w) ∧
   ∃ e, r = Throw e ∧ match e with InvalidRequest _ | UploadFailed _ => True | _ => False end) ∨
  ∃ plan ms effects, checkExpiresAt expires = Ok ms ∧ plan_ok (env_sha256 env) plan ∧
    wd_effects w' = wd_effects w ++ effects ∧
    delivery env cl (Z.to_nat (maxAttempts (cl_retry cl))) 1 effects r ∧
    Forall (effect_ok env cl plan (toISOString ms)) effects ∧
    open_fds (wd_fs w') = foldl holds_after (open_fds (wd_fs w)) effects.
Proof. intros Hs. by apply upload_cases. Qed.

Lemma upload_refines_delivery_witness :
  ∃ plan, plan_ok (env_sha256 demo_env) plan ∧ delivery demo_env demo_client 4 1 demo_effects (Ok demo_result).
Proof.
  destruct (upload_refines_delivery demo_env demo_client (js "run") (Some (new_date 0)) demo_world (Ok demo_result)
    demo_final demo_setting demo_upload_ok) as [(_ & _ & e & He & _)|(plan & ms & effects & _ & H2 & H3 & H4 & _)].
  - discriminate He.
  - exists plan. split; [exact H2|]. rewrite (demo_effects_from effects H3). exact H4.
Defined.

(** An upload ends, and soon: it makes at most the policy's attempts, which are at most ten,
    numbered in turn; between two attempts it waits once, and never longer than the policy's
    longest wait, whatever a service asks for. *)
Theorem upload_is_bounded {W} `{NodeFsLaws W} env cl dir expires (w : World W) r w' :
  sound_setting env cl → uploadRunDirectory env cl dir expires w = (r, w') →
  ∃ effects, wd_effects w' = wd_effects w ++ effects ∧
    let k := length (attempt_numbers effects) in
    attempt_numbers effects = seqZ 1 (Z.of_nat k) ∧ Z.of_nat k <= maxAttempts (cl_retry cl) <= 10 ∧
    (k - 1 <= length (omap wait_number effects) < Nat.max 1 (Z.to_nat (maxAttempts (cl_retry cl))))%nat ∧
    Forall (λ e, match e with EWait _ ms => 0 <= ms <= maxDelayMs (cl_retry cl) | _ => True end) effects.
Proof.
  intros Hs Hu. pose proof (vp_attempts _ (so_policy _ _ Hs)) as Hmax. unfold MAX_ATTEMPTS_CEILING in Hmax.
  destruct (upload_cases env cl Hs _ _ _ _ _ Hu) as [(E & _)|(plan & ms & effects & _ & _ & E & Hd & _)].
  - exists []. rewrite E, app_nil_r. split; [done|]. cbv zeta. split_and!; [done|simpl; lia|lia|simpl; lia|simpl; lia|constructor].
  - exists effects. destruct (delivery_counts _ _ _ _ _ _ Hd) as (H1 & H2 & H3 & H4 & H5).
    split; [done|]. cbv zeta. split_and!; [done|lia|lia|lia|lia|done].
Qed.

Lemma upload_is_bounded_witness :
  Z.of_nat (length (attempt_numbers demo_effects)) <= 4 ∧ attempt_numbers demo_effects = [1; 2] ∧
  omap (λ e, match e with EWait _ ms => Some ms | _ => None end) demo_effects = [125].
Proof.
  destruct (upload_is_bounded demo_env demo_client (js "run") (Some (new_date 0)) demo_world (Ok demo_result)
    demo_final demo_setting demo_upload_ok) as (effects & H1 & _ & (H2 & _) & _).
  rewrite (demo_effects_from effects H1). split; [exact H2|]. rewrite <- (demo_effects_from effects H1).
  vm_compute. by split.
Defined.

(** What an upload returns, the service said: a result is the body of a 200 or 201 answer, in JSON
    and read whole, to the attempt it counts, and every attempt before it was worth repeating. A refusal
    carries the service's status, which is no success and none of those worth repeating; it ended the
    upload. And an undelivered upload used up its attempts, or met an error not worth repeating. *)
Theorem upload_result_meaning {W} `{NodeFsLaws W} env cl dir expires (w : World W) r w' :
  sound_setting env cl → uploadRunDirectory env cl dir expires w = (r, w') →
  match r with
  | Ok result => ∃ before k rq sent body response,
      wd_effects w' = wd_effects w ++ before ++ [EAttempt k rq sent body (Ok response)] ∧
      (rs_status response = 200 ∨ rs_status response = 201) ∧ rs_truncated response = false ∧
      successOf (env_json_parse env) (rs_text response) (ur_requestId result) k = Some result ∧
      Forall (λ e, match e with EAttempt k' _ _ _ r => again env k' r | _ => True end) before
  | Throw (UploadRejectedError e) => ∃ before k rq sent body response,
      wd_effects w' = wd_effects w ++ before ++ [EAttempt k rq sent body (Ok response)] ∧
      re_status e = rs_status response ∧ re_status e ≠ 200 ∧ re_status e ≠ 201 ∧ re_status e ∉ RETRIABLE_STATUSES
  | Throw (UploadTransportError e) => ∃ effects, wd_effects w' = wd_effects w ++ effects ∧
      ((Z.of_nat (length (attempt_numbers effects)) = maxAttempts (cl_retry cl) ∧
        te_attempts e = maxAttempts (cl_retry cl)) ∨
       ∃ before k rq sent body code m, effects = before ++ [EAttempt k rq sent body (Throw (PlainError code m))] ∧
         isRetriableError code = false ∧ te_attempts e = k)
  | Throw _ => True
  end.
Proof.
  intros Hs Hu. pose proof (vp_attempts _ (so_policy _ _ Hs)) as Hmax.
  destruct (upload_cases env cl Hs _ _ _ _ _ Hu) as [(_ & _ & e & -> & He)|(plan & ms & effects & _ & _ & E & Hd & _)].
  { by destruct e. }
  destruct r as [result|[| |e|e]]; [|done|done| |].
  - destruct (delivery_done _ _ _ _ _ _ Hd) as (before & k & rq & sent & body & response & -> & _ & Hr & Hb).
    exists before, k, rq, sent, body, response. unfold read in Hr.
    destruct ((rs_status response =? 200) || _) eqn:Est; [|by destruct (bool_decide _)].
    destruct (rs_truncated response || _) eqn:Etr; [done|]. apply orb_false_iff in Etr as [Etr _].
    destruct (successOf _ _ _ _) as [x|] eqn:Ex; [|done]. injection Hr as ->.
    assert (ur_requestId result = mget (rs_headers response) (js "x-request-id")) as Hq.
    { unfold successOf in Ex. destruct (env_json_parse env _) as [[]|]; try done.
      repeat (apply bind_Some in Ex as (? & _ & Ex)). destruct (_ || _) in Ex; [done|]. by injection Ex as <-. }
    rewrite Hq. split_and!; try done. rewrite orb_true_iff, !Z.eqb_eq in Est. done.
  - destruct (delivery_threw _ _ _ _ _ _ Hd) as (before & k & rq & sent & body & response & -> & Hr).
    exists before, k, rq, sent, body, response. split; [done|]. unfold read in Hr.
    destruct ((rs_status response =? 200) || _) eqn:Est; [by destruct (rs_truncated response || _); [|destruct (successOf _ _ _ _)]|].
    rewrite orb_false_iff, !Z.eqb_neq in Est.
    destruct (bool_decide (rs_status response ∈ _)) eqn:Ere; [done|]. injection Hr as <-. simpl.
    apply bool_decide_eq_false in Ere. split_and!; try done; tauto.
  - exists effects. split; [done|]. destruct (delivery_threw _ _ _ _ _ _ Hd) as [[Hn Ht]|Hx]; [left|by right].
    split; [lia|done].
Qed.

Lemma upload_result_meaning_witness :
  ∃ before k rq sent body response,
    demo_effects = before ++ [EAttempt k rq sent body (Ok response)] ∧
    (rs_status response = 200 ∨ rs_status response = 201).
Proof.
  destruct (upload_result_meaning demo_env demo_client (js "run") (Some (new_date 0)) demo_world (Ok demo_result)
    demo_final demo_setting demo_upload_ok) as (before & k & rq & sent & body & response & H1 & H2 & _).
  exists before, k, rq, sent, body, response. split; [exact (demo_effects_from _ H1)|exact H2].
Defined.

(** C37 Every attempt of an upload sends one plan of the run directory and nothing else. A body given whole is a well-formed
    multipart body of the length its header announced, whose files have their planned sizes and whose attachments
    have the bytes they are named by; any other is the beginning of one and stops short of that length: whole parts, each of
    its planned size and, if an attachment, of the bytes it is named by, then at most a part of the next. So a service
    never receives a complete request made of changed files. *)
Theorem upload_sends_the_plan {W} `{NodeFsLaws W} env cl dir expires (w : World W) r w' :
  sound_setting env cl → uploadRunDirectory env cl dir expires w = (r, w') → wd_effects w = [] →
  wd_effects w' = [] ∨
  ∃ plan ms, checkExpiresAt expires = Ok ms ∧ plan_ok (env_sha256 env) plan ∧
    ∀ a rq sent body answer, EAttempt a rq sent body answer ∈ wd_effects w' →
      mget (rq_headers rq) (js "content-length") =
        Some (dec (contentLength (layout (env_boundary env a) plan (toISOString ms)))) ∧
      sends env (layout (env_boundary env a) plan (toISOString ms)) sent body.
Proof.
  intros Hs Hu Hw. destruct (upload_cases env cl Hs _ _ _ _ _ Hu) as [(E & _)|(plan & ms & effects & Hms & Hp & E & _ & Hok & _)].
  - left. by rewrite E.
  - right. exists plan, ms. split_and!; [done..|]. intros a rq sent body answer. rewrite E, Hw. intros Hin.
    rewrite Forall_forall in Hok. by destruct (Hok _ Hin) as [-> Hs'].
Qed.

Definition body_complete (e : Effect) : bool :=
  match e with EAttempt _ _ _ (Some AtEnd) _ => true | _ => false end.

Lemma upload_sends_the_plan_witness :
  ∃ a rq sent answer plan ms, EAttempt a rq sent (Some AtEnd) answer ∈ demo_effects ∧
    sends demo_env (layout (env_boundary demo_env a) plan (toISOString ms)) sent (Some AtEnd).
Proof.
  assert (∃ a rq sent answer, EAttempt a rq sent (Some AtEnd) answer ∈ demo_effects) as (a & rq & sent & answer & Hin).
  { assert (existsb body_complete demo_effects = true) as H by (vm_compute; reflexivity).
    apply existsb_exists in H as (e & Hin & He). destruct e as [a rq sent [[]|] answer|]; try discriminate He.
    exists a, rq, sent, answer. by apply list_elem_of_In. }
  destruct (upload_sends_the_plan demo_env demo_client (js "run") (Some (new_date 0)) demo_world (Ok demo_result)
    demo_final demo_setting demo_upload_ok eq_refl) as [Hnone|(plan & ms & _ & _ & Hs)].
  { assert (demo_effects = []) as E by exact Hnone. rewrite E in Hin. by apply not_elem_of_nil in Hin. }
  exists a, rq, sent, answer, plan, ms. split; [exact Hin|exact (proj2 (Hs a rq sent (Some AtEnd) answer Hin))].
Defined.

(** The promise of an attempt settles once, and with a bounded answer: whatever events Node
    delivers, the first that settles it decides and no later one changes that; an answer holds the
    text of at most the bytes allowed, or none when the service sent more. *)
Theorem attempt_answer_bounded decode max timeout events later r :
  0 <= max → at_settled (run_events decode max timeout events fresh_attempt) = Some r →
  answer_ok decode max r ∧ at_settled (run_events decode max timeout (events ++ later) fresh_attempt) = Some r.
Proof.
  intros Hmax Hr. split.
  - apply (run_events_ok decode max timeout events fresh_attempt); [|done|done].
    unfold bounded; simpl. split_and!; lia.
  - unfold run_events in *. rewrite foldl_app. by apply (run_events_keeps decode max timeout later).
Qed.

Lemma attempt_answer_bounded_witness :
  at_settled (run_events (fmap Byte.to_N) 1 600000
    [Response (Some 200) []; Data [x7b; x7d]; ResponseClosed false; TimedOut] fresh_attempt) =
  Some (Ok {| rs_status := 200; rs_headers := []; rs_text := []; rs_truncated := true |}).
Proof.
  refine (proj2 (attempt_answer_bounded (fmap Byte.to_N) 1 600000
    [Response (Some 200) []; Data [x7b; x7d]; ResponseClosed false] [TimedOut] _ _ _)); [lia|vm_compute; reflexivity].
Defined.

(** C38 The key stays with the service it was given for. A client is made only for an address that is
    HTTPS, or plain HTTP to this machine, or plain HTTP because the caller said so, without credentials,
    query or fragment; and every request any upload with that client makes goes to that scheme, host and
    port, by TLS exactly when it is HTTPS, below the configured path, and carries the key in its
    authorization header and in no other. (The path is the configured one when the address as written has no
    mark of an empty query or fragment.) *)
Theorem key_stays_home {W} `{NodeFs W} urls baseUrl insecure apiKey retry timeout cl :
  url_laws urls → new_client urls baseUrl insecure apiKey retry timeout = Ok cl →
  ∃ url, parse_url urls baseUrl = Some url ∧ fit_for_key insecure url ∧
    valid_policy (cl_retry cl) ∧ 1 <= cl_attemptTimeoutMs cl ∧
    ∀ env dir expires (w : World W) r w',
      wd_effects w = [] → uploadRunDirectory env cl dir expires w = (r, w') →
      ∀ a rq sent body answer, EAttempt a rq sent body answer ∈ wd_effects w' →
        goes_home url apiKey (env_boundary env a) rq.
Proof.
  intros Hl (Ht & <- & Hp & Hto)%new_client_Ok. apply resolveTarget_Ok in Ht as (url & Hu & Hf & Hr).
  exists url. split_and!; [done..|]. intros env dir expires w r w' Hw E a rq sent body answer Hin.
  apply upload_asks in E; [|unfold all_ask; rewrite Hw; constructor].
  unfold all_ask in E. rewrite Forall_forall in E. destruct (E _ Hin) as (plan & expiresAt & ->).
  by eapply runs_at_home.
Qed.

Lemma key_stays_home_witness :
  length (attempt_numbers demo_effects) = 2%nat ∧
  Forall (λ e, match e with
               | EAttempt a rq _ _ _ => goes_home demo_url (js "k") (env_boundary demo_env a) rq
               | EWait _ _ => True end) demo_effects.
Proof.
  split; [vm_compute; reflexivity|].
  destruct (key_stays_home (W := DemoDisk) demo_urls (js "https://qe.example") None (js "k") no_overrides None demo_client
    demo_urls_laws ltac:(vm_compute; reflexivity)) as (url & H1 & _ & _ & _ & Hkey).
  injection H1 as <-. apply Forall_forall. intros [a rq sent body answer|] Hin; [|exact I].
  exact (Hkey demo_env (js "run") (Some (new_date 0)) demo_world (Ok demo_result) demo_final eq_refl demo_upload_ok
    a rq sent body answer Hin).
Defined.



(** ** What modelling showed *)

(** An attempt cut off in the middle of a file leaves that file's descriptor open for good: nothing
    destroys the body, so its generator never reaches its [finally]. *)
Theorem timed_out_attempt_leaks :
  (uploadRunDirectory demo_env demo_client (js "run") (Some (new_date 0)) demo_world).1 = Ok demo_result ∧
  open_fds (wd_fs demo_final) = [3].
Proof. rewrite demo_upload_ok. by split. Qed.

(** An [events] directory that cannot be listed is not answered as UNREADABLE. *)
Theorem unlistable_events_escape :
  ∃ d, sys_readdir (js "run/events") d = (Throw (EOTHER (js "EACCES")), d) ∧
    (planUpload (λ _, demo_digest) (js "run") d).1 = Throw (PlainError (Some (js "EACCES")) []).
Proof.
  exists {| dd_nodes := [(js "run", DirNode [js "events"]); (js "run/events", SealedDir)]; dd_open := [] |}.
  split; vm_compute; reflexivity.
Qed.
