(* ===== verification/PwText.v ===== *)
(** * Text of the Playwright reporter (ts/packages/playwright/src/text.ts)

    The limits, bounded text, label keys, the removal of terminal escapes and of
    directories, and root-relative paths. [path.relative] and the platform's
    separator are variables; [split] and [join] are the language's. *)

From S2P Require Import Prelude JsString JsMap SafeName.

Local Open Scope Z_scope.

Definition MAX_NAME : Z := 1024.
Definition MAX_ATTACHMENT_NAME : Z := 512.
Definition MAX_TYPE : Z := 512.
Definition MAX_FILE : Z := 1024.
Definition MAX_KIND : Z := 64.
Definition MAX_TAG : Z := 128.
Definition MAX_TAGS : nat := 64.
Definition MAX_LABEL : Z := 1024.
Definition MAX_LABEL_KEY : Z := 64.
Definition MAX_LABELS : nat := 64.
Definition MAX_MEDIA_TYPE : Z := 255.
Definition MAX_MESSAGE : Z := 65536.
Definition MAX_STACK : Z := 262144.
Definition MAX_FAILURES : nat := 32.
Definition FAILURE_TEXT_BUDGET : Z := 768 * 1024.

Abbreviation slength s := (Z.of_nat (length s)).

(** ** Bounded text *)

Definition truncated (n : Z) : str := js " [truncated " ++ dec n ++ js " characters]".

(** [bounded] *)
Definition bounded (text : str) (max : Z) : str :=
  if slength text <=? max then text
  else
    let keep := Z.max 0 (max - slength (truncated (slength text))) in
    take (Z.to_nat keep) text ++ truncated (slength text - keep).

(** [labelKey]; its replacement is that of safe names. *)
Definition labelKey (text : str) : str := bounded (sanitise text) MAX_LABEL_KEY.

(** ** Terminal escapes *)

Definition ESC : N := 0x1b.

(** Past the first unit between [lo] and [hi]. *)
Fixpoint skip_final (lo hi : N) (text : str) : str :=
  match text with
  | [] => []
  | f :: rest => if in_range lo hi f then rest else skip_final lo hi rest
  end.

(** OSC: past BEL, or past ESC and a backslash. *)
Fixpoint skip_osc (text : str) : str :=
  match text with
  | [] => []
  | f :: rest =>
      if (f =? 0x07)%N then rest
      else if (f =? ESC)%N then
        match rest with
        | g :: rest' => if (g =? 0x5c)%N then rest' else skip_osc rest
        | [] => []
        end
      else skip_osc rest
  end.

(** What follows an ESC is skipped up to where the text goes on. *)
Definition skip_escape (rest : str) : str :=
  match rest with
  | [] => []
  | next :: after =>
      if (next =? 0x5b)%N then skip_final 0x40 0x7e after
      else if (next =? 0x5d)%N then skip_osc after
      else if in_range 0x20 0x2f next then skip_final 0x30 0x7e after
      else after
  end.

(** The loop, a turn for every unit of the text at most. *)
Fixpoint strip_loop (turns : nat) (text : str) : str :=
  match turns with
  | O => []
  | S turns' =>
      match text with
      | [] => []
      | c :: rest =>
          if (c =? ESC)%N then strip_loop turns' (skip_escape rest) else c :: strip_loop turns' rest
      end
  end.

(** [stripAnsi] *)
Definition stripAnsi (text : str) : str :=
  if negb (existsb (N.eqb ESC) text) then text else strip_loop (length text) text.

(** ** Paths *)

(** [text.startsWith(p)] *)
Fixpoint starts_with (p text : str) : bool :=
  match p, text with
  | [], _ => true
  | a :: p', b :: t' => (a =? b)%N && starts_with p' t'
  | _ :: _, [] => false
  end.

(** [text.includes(p)] *)
Fixpoint includes (p text : str) : bool :=
  starts_with p text || match text with [] => false | _ :: rest => includes p rest end.

(** [text.split(p).join(q)], for a [p] that is not empty: each occurrence, from the left. *)
Fixpoint replace_loop (turns : nat) (p q text : str) : str :=
  match turns with
  | O => []
  | S turns' =>
      match text with
      | [] => []
      | c :: rest =>
          if starts_with p text then q ++ replace_loop turns' p q (drop (length p) text)
          else c :: replace_loop turns' p q rest
      end
  end.
Definition split_join (p q text : str) : str := replace_loop (length text) p q text.

Section paths.
Context (relative : str → str → str) (sep : str).

(** [relativeSource] *)
Definition relativeSource (rootDir file : str) : str :=
  let rel := relative rootDir file in
  split_join sep (js "/") (if str_eqb rel [] then js "." else rel).

Definition ends_with (p text : str) : bool :=
  bool_decide (drop (length text - length p) text = p) && (length p <=? length text)%nat.

(** [withoutRoots] *)
Definition without_root (out root : str) : str :=
  if str_eqb root [] || negb (includes root out) then out
  else split_join (if ends_with sep root then root else root ++ sep) [] out.
Definition withoutRoots (text : str) (roots : list str) : str := foldl without_root text roots.
End paths.

(** ** Lemmas: bounded text *)

(** A larger number has no fewer digits. *)
Lemma digits_length_mono fb : ∀ fa a b, 0 <= a <= b → b < 10 ^ Z.of_nat fb → (0 < fb)%nat →
  (length (digits_fuel fa a []) <= length (digits_fuel fb b []))%nat.
Proof.
  induction fb as [|fb IH]; intros fa a b Hab Hb Hf; [lia|].
  destruct fa as [|fa]; [simpl; lia|]. cbn [digits_fuel].
  destruct (Z.ltb_spec b 10) as [Hs|Hs]; destruct (Z.ltb_spec a 10); try lia; [simpl; lia|..];
    rewrite (digits_fuel_acc fb), length_app; [simpl; lia|].
  rewrite (digits_fuel_acc fa), length_app. simpl. apply Nat.add_le_mono_r, IH.
  - split; [apply Z.div_pos; lia|apply Z.div_le_mono; lia].
  - apply Z.div_lt_upper_bound; [lia|]. rewrite <-Z.pow_succ_r, <-Nat2Z.inj_succ by lia. lia.
  - destruct fb; [simpl in Hb; lia|lia].
Qed.

Lemma dec_length_mono a b : 0 <= a <= b → (length (dec a) <= length (dec b))%nat.
Proof.
  intros Hab. unfold dec. destruct (Z.ltb_spec a 0), (Z.ltb_spec b 0); try lia.
  apply digits_length_mono; [done|apply dec_nonneg_fuel; lia|lia].
Qed.

(** A number below a power of ten has no more digits than its exponent. *)
Lemma dec_length_bound n k : (0 < k)%nat → 0 <= n < 10 ^ Z.of_nat k → (length (dec n) <= k)%nat.
Proof.
  intros Hk Hn. unfold dec. destruct (Z.ltb_spec n 0); [lia|]. unfold dec_nonneg.
  assert (∀ f k n, (0 < k)%nat → 0 <= n < 10 ^ Z.of_nat k → (length (digits_fuel f n []) <= k)%nat) as Hd; [|by apply Hd].
  clear. induction f as [|f IH]; intros k n Hk Hn; [simpl; lia|]. cbn [digits_fuel].
  destruct (Z.ltb_spec n 10); [simpl; lia|]. rewrite digits_fuel_acc, length_app. simpl.
  destruct k as [|[|k]]; [lia|simpl in Hn; lia|].
  assert (length (digits_fuel f (n / 10) []) <= S k)%nat; [|lia]. apply IH; [lia|].
  split; [apply Z.div_pos; lia|]. apply Z.div_lt_upper_bound; [lia|].
  rewrite <-Z.pow_succ_r, <-Nat2Z.inj_succ by lia. lia.
Qed.

Lemma truncated_length n : length (truncated n) = (24 + length (dec n))%nat.
Proof. unfold truncated. rewrite !length_app. change (length (js " [truncated ")) with 12%nat. change (length (js " characters]")) with 12%nat. lia. Qed.

(** What bounding does: nothing to a text within its limit, and otherwise a prefix and a marker that
    counts what the prefix leaves out. *)
Lemma bounded_cases text max :
  slength text <= max ∧ bounded text max = text ∨
  max < slength text ∧ ∃ keep, (keep <= length text)%nat ∧
    bounded text max = take keep text ++ truncated (slength text - Z.of_nat keep).
Proof.
  unfold bounded. destruct (Z.leb_spec (slength text) max) as [H|H]; [by left|right]. split; [done|].
  cbv zeta. set (keep := Z.max 0 _). exists (Z.to_nat keep). rewrite Z2Nat.id by (unfold keep; lia).
  split; [unfold keep; lia|done].
Qed.

Lemma bounded_length text max :
  slength (bounded text max) <= Z.max max (slength (truncated (slength text))).
Proof.
  unfold bounded. destruct (Z.leb_spec (slength text) max) as [H|H]; [lia|]. cbv zeta.
  set (m := slength (truncated (slength text))). set (keep := Z.max 0 (max - m)).
  rewrite length_app, length_take, Nat2Z.inj_add.
  assert (slength (truncated (slength text - keep)) <= m) as Hm.
  { unfold m. rewrite !truncated_length. pose proof (dec_length_mono (slength text - keep) (slength text)).
    assert (0 <= keep <= slength text) by (unfold keep, m; lia). lia. }
  unfold keep in *. lia.
Qed.

(** Within any limit the reporter uses, for any text a machine can hold. *)
Lemma bounded_within text max : 64 <= max → slength text < 10 ^ 40 → slength (bounded text max) <= max.
Proof.
  intros Hm Ht. pose proof (bounded_length text max) as Hb. rewrite truncated_length in Hb.
  pose proof (dec_length_bound (slength text) 40 ltac:(lia) ltac:(lia)). lia.
Qed.

(** ** Lemmas: terminal escapes *)

Lemma skip_final_suffix lo hi text : ∃ pre, text = pre ++ skip_final lo hi text.
Proof.
  induction text as [|f rest [pre IH]]; simpl; [by exists []|].
  destruct (in_range lo hi f); [by exists [f]|]. exists (f :: pre). simpl. by rewrite <-IH.
Qed.

Lemma skip_osc_suffix text : ∃ pre, text = pre ++ skip_osc text.
Proof.
  induction text as [|f rest [pre IH]]; simpl; [by exists []|].
  destruct (f =? 7)%N; [by exists [f]|]. destruct (f =? ESC)%N.
  - destruct rest as [|g rest]; [by exists [f]|]. destruct (g =? 92)%N; [by exists [f; g]|].
    exists (f :: pre). simpl in *. by rewrite <-IH.
  - exists (f :: pre). simpl. by rewrite <-IH.
Qed.

Lemma skip_escape_suffix text : ∃ pre, text = pre ++ skip_escape text.
Proof.
  destruct text as [|next after]; [by exists []|]. simpl.
  assert (∀ l, (∃ pre, after = pre ++ l) → ∃ pre, next :: after = pre ++ l) as Hc by (intros l [pre ->]; by exists (next :: pre)).
  destruct (next =? 91)%N; [apply Hc, skip_final_suffix|]. destruct (next =? 93)%N; [apply Hc, skip_osc_suffix|].
  destruct (in_range 32 47 next); [apply Hc, skip_final_suffix|]. apply Hc. by exists [].
Qed.

Lemma skip_escape_length text : (length (skip_escape text) <= length text)%nat.
Proof. destruct (skip_escape_suffix text) as [pre E]. rewrite E at 2. rewrite length_app. lia. Qed.

(** The turns given are always enough. *)
Lemma strip_turns n : ∀ m text, (length text <= n)%nat → (length text <= m)%nat → strip_loop n text = strip_loop m text.
Proof.
  induction n as [|n IH]; intros m text Hn Hm.
  - destruct text; [by destruct m|simpl in Hn; lia].
  - destruct text as [|c rest]; [by destruct m|]. destruct m as [|m]; [simpl in Hm; lia|]. simpl in *.
    pose proof (skip_escape_length rest). destruct (c =? ESC)%N; [apply IH; lia|f_equal; apply IH; lia].
Qed.

Definition strip (text : str) : str := strip_loop (length text) text.

Lemma strip_cons c rest : strip (c :: rest) = if (c =? ESC)%N then strip (skip_escape rest) else c :: strip rest.
Proof.
  unfold strip. simpl. pose proof (skip_escape_length rest). destruct (c =? ESC)%N; [|done]. by apply strip_turns.
Qed.

Lemma strip_plain text : existsb (N.eqb ESC) text = false → strip text = text.
Proof.
  induction text as [|c rest IH]; [done|]. cbn [existsb]. intros [Hc Hr]%orb_false_iff.
  rewrite strip_cons, N.eqb_sym, Hc. by rewrite IH.
Qed.

Lemma stripAnsi_strip text : stripAnsi text = strip text.
Proof. unfold stripAnsi. destruct (existsb _ text) eqn:E; [done|]. simpl. by rewrite strip_plain. Qed.

(** Reasoning by the turns of the loop. *)
Lemma strip_ind (P : str → Prop) :
  P [] → (∀ c rest, c ≠ ESC → P rest → P (c :: rest)) → (∀ rest, P (skip_escape rest) → P (ESC :: rest)) →
  ∀ text, P text.
Proof.
  intros Hn Hc He text. remember (length text) as n eqn:E. assert (length text <= n)%nat as Hl by lia. clear E.
  revert text Hl. induction n as [|n IH]; intros [|c rest] Hl; simpl in Hl; try done; [lia|].
  destruct (decide (c = ESC)) as [->|Hne].
  - apply He, IH. pose proof (skip_escape_length rest). lia.
  - apply Hc; [done|]. apply IH. lia.
Qed.

Lemma strip_esc rest : strip (ESC :: rest) = strip (skip_escape rest).
Proof. by rewrite strip_cons. Qed.
Lemma strip_ne c rest : c ≠ ESC → strip (c :: rest) = c :: strip rest.
Proof. intros Hc. rewrite strip_cons. by rewrite (proj2 (N.eqb_neq c ESC)). Qed.

Lemma strip_no_escape text : ESC ∉ strip text.
Proof.
  induction text as [|c rest Hc IH|rest IH] using strip_ind; [set_solver| |].
  - rewrite strip_ne by done. set_solver.
  - by rewrite strip_esc.
Qed.

Lemma strip_sublist text : sublist (strip text) text.
Proof.
  induction text as [|c rest Hc IH|rest IH] using strip_ind; [constructor| |].
  - rewrite strip_ne by done. by constructor.
  - rewrite strip_esc. apply sublist_cons. destruct (skip_escape_suffix rest) as [pre E]. rewrite E at 2.
    etrans; [exact IH|]. by apply sublist_inserts_l.
Qed.

(** A whole control sequence: ESC, [[], parameters, and a final byte. *)
Lemma strip_csi params final rest :
  Forall (λ u, in_range 0x40 0x7e u = false) params → in_range 0x40 0x7e final = true →
  strip (ESC :: 0x5b%N :: params ++ final :: rest) = strip rest.
Proof.
  intros Hp Hf. rewrite strip_esc. simpl. f_equal. induction Hp as [|u params Hu _ IH]; simpl; [by rewrite Hf|by rewrite Hu].
Qed.

Lemma strip_app_plain text rest : ESC ∉ text → strip (text ++ rest) = text ++ strip rest.
Proof.
  induction text as [|c text IH]; intros He; [done|]. simpl. rewrite strip_ne by set_solver. f_equal. apply IH. set_solver.
Qed.

(** ** Properties *)

(** Bounded text is never silently truncated: a text within its limit is kept as it is; a longer
    one becomes a beginning of it and a marker that counts exactly what was left out, and is within
    the limit again for every limit the reporter uses and every text a machine can hold. *)
Theorem bounded_counts_what_it_drops text max :
  64 <= max → slength text < 10 ^ 40 →
  slength (bounded text max) <= max ∧
  (slength text <= max ∧ bounded text max = text ∨
   max < slength text ∧ ∃ kept dropped, text = kept ++ dropped ∧ bounded text max = kept ++ truncated (slength dropped)).
Proof.
  intros Hm Ht. split; [by apply bounded_within|].
  destruct (bounded_cases text max) as [?|(Hl & keep & Hk & E)]; [by left|right]. split; [done|].
  exists (take keep text), (drop keep text). split; [by rewrite take_drop|]. rewrite E, length_drop. do 2 f_equal. lia.
Qed.

Lemma bounded_counts_what_it_drops_witness :
  let text := replicate 200 120%N in
  bounded text MAX_LABEL_KEY = replicate 37 120%N ++ js " [truncated 163 characters]" ∧
  slength (bounded text MAX_LABEL_KEY) <= MAX_LABEL_KEY.
Proof.
  intros text. split; [vm_compute; reflexivity|].
  exact (proj1 (bounded_counts_what_it_drops text MAX_LABEL_KEY ltac:(by vm_compute) ltac:(by vm_compute))).
Defined.

(** Plain text. No escape is left in a stripped text, whatever it was; nothing is added to it or
    reordered; a text without escapes is kept; stripping twice is stripping once; and a whole control
    sequence is removed together with its parameters, the text around it kept. *)
Theorem stripAnsi_plain text :
  (ESC ∉ stripAnsi text) ∧ sublist (stripAnsi text) text ∧ ((ESC ∉ text) → stripAnsi text = text) ∧
  stripAnsi (stripAnsi text) = stripAnsi text ∧
  ∀ before params final,
    (ESC ∉ before) → Forall (λ u, in_range 0x40 0x7e u = false) params → in_range 0x40 0x7e final = true →
    stripAnsi (before ++ ESC :: 0x5b%N :: params ++ final :: text) = before ++ stripAnsi text.
Proof.
  assert (∀ t, ESC ∉ t → strip t = t) as Hplain.
  { intros t Ht. rewrite <-(app_nil_r t) at 1. rewrite strip_app_plain by done. by rewrite app_nil_r. }
  rewrite !stripAnsi_strip. split_and!.
  - apply strip_no_escape.
  - apply strip_sublist.
  - apply Hplain.
  - apply Hplain, strip_no_escape.
  - intros before params final Hb Hp Hf. rewrite stripAnsi_strip, strip_app_plain, strip_csi by done. done.
Qed.
