(* ===== verification/PwMapping.v ===== *)
(** * What Playwright says, as the protocol says it

    ts/packages/playwright/src/mapping.ts and identity.ts: statuses, locations,
    failures, media types, the failure budget, and a test's place and identity
    in the hierarchy. Playwright's objects are records of the properties the
    code reads. *)

From S2P Require Import Prelude JsString JsBytes JsMap JsSort Json Model SafeName PwText.

Local Open Scope Z_scope.

(** ** Playwright's objects *)

Record PwLocation := { wl_file : str; wl_line : option Z; wl_column : option Z }.

(** [TestError]: [message], [value], [stack], [location], [cause]. *)
Inductive PwError := MkError (message value stack : option str) (loc : option PwLocation) (cause : option PwError).
Definition we_message e := let '(MkError m _ _ _ _) := e in m.
Definition we_value e := let '(MkError _ v _ _ _) := e in v.
Definition we_stack e := let '(MkError _ _ s _ _) := e in s.
Definition we_location e := let '(MkError _ _ _ l _) := e in l.
Definition we_cause e := let '(MkError _ _ _ _ c) := e in c.

Inductive SuiteType := SuRoot | SuProject | SuFile | SuDescribe.

(** [Suite]: its type and title, and its parent. *)
Inductive Suite := MkSuite (type : SuiteType) (title : str) (parent : option Suite).

Record PwAnnotation := { wa_type : str; wa_description : option str }.

(** [TestCase]; [wt_project] is the name [test.parent.project()] gives. *)
Record PwTest := {
  wt_id : str; wt_title : str; wt_location : PwLocation; wt_parent : Suite; wt_project : option str;
  wt_annotations : list PwAnnotation; wt_tags : list str; wt_expectedStatus : str;
}.

(** ** mapping.ts *)

(** [status]: a word of a later Playwright gives nothing. *)
Definition status (raw : str) : option Status :=
  if str_eqb raw (js "passed") then Some StPassed
  else if str_eqb raw (js "failed") || str_eqb raw (js "timedOut") then Some StFailed
  else if str_eqb raw (js "skipped") then Some StSkipped
  else if str_eqb raw (js "interrupted") then Some StInconclusive
  else None.

(** [sessionStatus] *)
Definition sessionStatus (raw : str) : option SessionStatus :=
  if str_eqb raw (js "passed") then Some SePassed
  else if str_eqb raw (js "failed") || str_eqb raw (js "timedout") then Some SeFailed
  else if str_eqb raw (js "interrupted") then Some SeInconclusive
  else None.

(** [expectedStatus] *)
Definition expectedStatus (raw : str) : option ExpectedStatus :=
  if str_eqb raw (js "passed") then Some ExPassed
  else if str_eqb raw (js "failed") then Some ExFailed
  else if str_eqb raw (js "skipped") then Some ExSkipped
  else None.

(** [Roots] *)
Record Roots := { ro_rootDir : str; ro_all : list str }.

(** [\w] and the dollar. *)
Definition word_char (u : N) : bool := is_alnum u || (u =? 95)%N || (u =? 36)%N.

Fixpoint span (p : N → bool) (s : str) : str * str :=
  match s with
  | u :: rest => if p u then let '(a, b) := span p rest in (u :: a, b) else ([], s)
  | [] => ([], [])
  end.

(** Before the suffix: nothing, or a word that does not begin with a digit. *)
Definition class_name (suffix word : str) : bool :=
  ends_with suffix word &&
  match take (length word - length suffix) word with [] => true | u :: _ => negb (is_digit u) end.

(** [ERROR_TYPE.exec(text)?.[1]]: the words before a colon and a space cannot hold either. *)
Definition error_type_of (text : str) : option str :=
  let '(word, rest) := span word_char text in
  if (class_name (js "Error") word || class_name (js "Exception") word) && starts_with (js ": ") rest
  then Some word else None.

(** [errorType] *)
Definition errorType (message : str) (stack : option str) : option str :=
  match error_type_of message with Some t => Some t | None => stack ≫= error_type_of end.

(** [errorKey] *)
Definition errorKey (error : PwError) : str :=
  default [] (we_message error) ++ [10%N] ++ default [] (we_stack error).

(** TOKEN *)
Definition token_char (u : N) : bool :=
  is_alnum u || existsb (N.eqb u) (js "!#$%&'*+.^_`|~-").

(** TOKEN at the start of a text: what follows it. *)
Definition after_token (s : str) : option str :=
  match span token_char s with ([], _) => None | (_, rest) => Some rest end.

Definition after_unit (u : N) (s : str) : option str :=
  match s with v :: rest => if (u =? v)%N then Some rest else None | [] => None end.

(** The parameters to the end: a semicolon, spaces, and TOKEN=TOKEN; a turn for every unit at most. *)
Fixpoint media_parameters (turns : nat) (s : str) : bool :=
  match s, turns with
  | [], _ => true
  | _, O => false
  | _, S turns' =>
      match (s ← after_unit 59 s; s ← after_token (span is_js_space s).2; s ← after_unit 61 s; after_token s) with
      | Some rest => media_parameters turns' rest
      | None => false
      end
  end.

(** [MEDIA_TYPE.test(t)] *)
Definition MEDIA_TYPE (t : str) : bool :=
  match (s ← after_token t; s ← after_unit 47 s; after_token s) with
  | Some rest => media_parameters (length rest) rest
  | None => false
  end.

(** [text.trim()] *)
Definition trim (text : str) : str := rev (span is_js_space (rev (span is_js_space text).2)).2.

(** [mediaType] *)
Definition mediaType (contentType : str) : str :=
  let t := trim contentType in
  if (slength t <=? MAX_MEDIA_TYPE) && MEDIA_TYPE t then t else js "application/octet-stream".

(** [withoutStack] *)
Definition withoutStack (f : Failure) : Failure :=
  {| f_message := f_message f; f_type := f_type f; f_stackTrace := None; f_phase := f_phase f;
     f_location := f_location f |}.

(** [size] *)
Definition failure_size (f : Failure) : Z :=
  utf8_length (f_message f) + utf8_length (default [] (f_stackTrace f)).

(** The marker for what was left out. *)
Definition omitted_marker (omitted : Z) : Failure :=
  {| f_message := js "[" ++ dec omitted ++ js " further failure(s) omitted: their text exceeded the event size budget]";
     f_type := None; f_stackTrace := None; f_phase := None; f_location := None |}.

(** The loop of [withinBudget]: what was used, what was kept, and how many were not. *)
Fixpoint budget_loop (used : Z) (failures : list Failure) : list Failure * Z :=
  match failures with
  | [] => ([], 0)
  | f :: rest =>
      let candidate :=
        if (FAILURE_TEXT_BUDGET <? used + failure_size f) && bool_decide (is_Some (f_stackTrace f))
        then withoutStack f else f in
      if FAILURE_TEXT_BUDGET <? used + failure_size candidate then
        let '(out, omitted) := budget_loop used rest in (out, omitted + 1)
      else
        let '(out, omitted) := budget_loop (used + failure_size candidate) rest in (candidate :: out, omitted)
  end.

(** [withinBudget] *)
Definition withinBudget (failures : list Failure) : list Failure :=
  if foldl (λ n f, n + failure_size f) 0 failures <=? FAILURE_TEXT_BUDGET then failures
  else
    let '(out, omitted) := budget_loop 0 failures in
    out ++ (if 0 <? omitted then [omitted_marker omitted] else []).

Section paths.
Context (relative : str → str → str) (sep : str) (basename : str → str) (sha256_utf8 : str → str).

(** [location] *)
Definition location (rootDir : str) (loc : option PwLocation) : option Location :=
  loc ← loc;
  let file := relativeSource relative sep rootDir (wl_file loc) in
  if starts_with (js "../") file || str_eqb file (js "..") then None
  else
    let positive n := match n with Some z => if 0 <? z then Some z else None | None => None end in
    Some {| l_file := bounded file MAX_FILE; l_line := positive (wl_line loc); l_column := positive (wl_column loc) |}.

(** The causes of an error, down to the eighth. *)
Fixpoint causes (depth : nat) (roots : Roots) (cause : option PwError) : list str :=
  match depth, cause with
  | S depth', Some c =>
      let text := default [] (match we_stack c with
        | Some s => Some s | None => match we_message c with Some m => Some m | None => we_value c end end) in
      (js "Caused by: " ++ withoutRoots sep (stripAnsi text) (ro_all roots)) :: causes depth' roots (we_cause c)
  | _, _ => []
  end.

(** [parts.join(glue)] *)
Fixpoint join (glue : str) (parts : list str) : str :=
  match parts with
  | [] => []
  | [p] => p
  | p :: rest => p ++ glue ++ join glue rest
  end.

(** [failure] *)
Definition failure (error : PwError) (roots : Roots) (phase : option FailurePhase) : Failure :=
  let rawMessage := default (js "error without a message")
    (match we_message error with Some m => Some m | None => we_value error end) in
  let message := withoutRoots sep (stripAnsi rawMessage) (ro_all roots) in
  let stackParts :=
    match we_stack error with Some s => [withoutRoots sep (stripAnsi s) (ro_all roots)] | None => [] end
    ++ causes 8 roots (we_cause error) in
  {| f_message := bounded message MAX_MESSAGE;
     f_type := (λ t, bounded t MAX_TYPE) <$> errorType message (head stackParts);
     f_stackTrace := match stackParts with [] => None | _ => Some (bounded (join [10%N] stackParts) MAX_STACK) end;
     f_phase := phase;
     f_location := location (ro_rootDir roots) (we_location error) |}.

(** ** identity.ts *)

Record Hierarchy := { h_project : str; h_file : str; h_groups : list str; h_title : str }.

(** [sourceFile] *)
Definition sourceFile (rootDir file : str) : str :=
  let rel := relativeSource relative sep rootDir file in
  if str_eqb rel (js "..") || starts_with (js "../") rel then basename file else rel.

(** The walk to the root: the groups so far, outermost first, and the project. *)
Fixpoint ancestors (s : Suite) (groups : list str) (project : str) : list str * str :=
  let '(MkSuite type title parent) := s in
  let groups := match type with SuDescribe => title :: groups | _ => groups end in
  let project := match type with SuProject => title | _ => project end in
  match parent with Some p => ancestors p groups project | None => (groups, project) end.

(** [hierarchy] *)
Definition hierarchy (test : PwTest) (rootDir : str) : Hierarchy :=
  let '(groups, project) := ancestors (wt_parent test) [] [] in
  {| h_project := if str_eqb project [] then default [] (wt_project test) else project;
     h_file := sourceFile rootDir (wl_file (wt_location test));
     h_groups := groups;
     h_title := wt_title test |}.

(** SEPARATOR *)
Definition SEPARATOR : str := [0x1e%N].

(** The canonical identity text. *)
Definition identity_text (h : Hierarchy) : str := join SEPARATOR (h_project h :: h_file h :: h_groups h ++ [h_title h]).

(** [historicalId] *)
Definition historicalId (h : Hierarchy) : str := take 40 (sha256_utf8 (identity_text h)).

(** [pathSegments] *)
Definition pathSegments (h : Hierarchy) : list PathSegment :=
  take 32
    (match h_project h with [] => [] | p => [{| p_kind := js "project"; p_name := bounded p MAX_NAME |}] end
     ++ [{| p_kind := js "file"; p_name := bounded (h_file h) MAX_NAME |}]
     ++ ((λ g, {| p_kind := js "group"; p_name := bounded g MAX_NAME |}) <$> h_groups h)).
End paths.

(** ** What the mapping guarantees

    The failure budget, plain and bounded failure text, and the identity text of
    a test, which tells tests apart. *)

(** ** The failure budget *)

(** What of a list of failures was kept, in its order: some left out, some without their stack. *)
Inductive kept : list Failure → list Failure → Prop :=
| kept_nil : kept [] []
| kept_whole f l l' : kept l l' → kept (f :: l) (f :: l')
| kept_bare f l l' : kept l l' → kept (f :: l) (withoutStack f :: l')
| kept_omitted f l l' : kept l l' → kept (f :: l) l'.

Definition text_size (l : list Failure) : Z := foldr (λ f n, failure_size f + n) 0 l.

Lemma foldl_size l n : foldl (λ n f, n + failure_size f) n l = n + text_size l.
Proof. revert n. induction l as [|f l IH]; intros n; simpl; [lia|]. rewrite IH. lia. Qed.

Lemma budget_loop_spec used l out omitted :
  budget_loop used l = (out, omitted) → used <= FAILURE_TEXT_BUDGET →
  used + text_size out <= FAILURE_TEXT_BUDGET ∧ 0 <= omitted ∧
  Z.of_nat (length l) = Z.of_nat (length out) + omitted ∧ kept l out.
Proof.
  revert used out omitted. induction l as [|f l IH]; intros used out omitted; cbn [budget_loop].
  { intros [= <- <-] Hu. simpl. split_and!; [lia|done|done|constructor]. }
  set (candidate := if _ && _ then withoutStack f else f).
  assert (∀ l', kept l l' → kept (f :: l) (candidate :: l')) as Hk by (intros; unfold candidate; case_match; by constructor).
  clearbody candidate. destruct (Z.ltb_spec FAILURE_TEXT_BUDGET (used + failure_size candidate)) as [Hb|Hb].
  - destruct (budget_loop used l) as [out' om] eqn:E. intros [= <- <-] Hu.
    destruct (IH _ _ _ E Hu) as (? & ? & ? & ?). cbn [length]. split_and!; [done|lia|lia|by constructor].
  - destruct (budget_loop (used + failure_size candidate) l) as [out' om] eqn:E. intros [= <- <-] Hu.
    destruct (IH _ _ _ E Hb) as (? & ? & ? & ?). cbn [length text_size foldr] in *. fold (text_size out').
    split_and!; [lia|lia|lia|by apply Hk].
Qed.

(** What holds of failures, of a failure without its stack, and of the marker, holds of what is kept. *)
Lemma kept_Forall (P : Failure → Prop) l l' : (∀ f, P f → P (withoutStack f)) → kept l l' → Forall P l → Forall P l'.
Proof. intros Hw Hk. induction Hk; intros Hl; [constructor|..]; apply Forall_cons in Hl as [H1 H2]; auto. Qed.

Lemma withinBudget_Forall (P : Failure → Prop) l :
  (∀ f, P f → P (withoutStack f)) → (∀ n, P (omitted_marker n)) → Forall P l → Forall P (withinBudget l).
Proof.
  intros Hw Hm Hl. unfold withinBudget. case_match; [done|]. destruct (budget_loop 0 l) as [out omitted] eqn:E.
  destruct (budget_loop_spec _ _ _ _ E) as (_ & _ & _ & Hk); [by vm_compute|].
  apply Forall_app. split; [by eapply kept_Forall|]. destruct (0 <? omitted); [constructor; [done|constructor]|constructor].
Qed.

(** ** Plain failure text *)

Section plain.
#[local] Set Default Proof Using "Type".
Context (sep : str).

Lemma replace_loop_sublist p turns text : sublist (replace_loop turns p [] text) text.
Proof.
  revert text. induction turns as [|turns IH]; intros text; [apply sublist_nil_l|]. simpl.
  destruct text as [|c rest]; [done|]. destruct (starts_with p (c :: rest)); simpl; [|by constructor].
  etrans; [apply IH|]. apply sublist_drop.
Qed.

Lemma withoutRoots_sublist text roots : sublist (withoutRoots sep text roots) text.
Proof.
  revert text. induction roots as [|r roots IH]; intros text; simpl; [done|]. etrans; [apply IH|].
  unfold without_root. case_match; [done|]. apply replace_loop_sublist.
Qed.

Lemma plain_text text roots : ESC ∉ withoutRoots sep (stripAnsi text) roots.
Proof.
  intros Hin. eapply elem_of_sublist in Hin; [|apply withoutRoots_sublist].
  rewrite stripAnsi_strip in Hin. by apply strip_no_escape in Hin.
Qed.

Lemma plain_literal (s : string) : forallb (λ u, negb (u =? ESC)%N) (js s) = true → ESC ∉ js s.
Proof.
  rewrite forallb_forall. intros Hs Hin%list_elem_of_In. specialize (Hs _ Hin). discriminate Hs.
Qed.

Lemma digits_plain s : forallb is_digit s = true → ESC ∉ s.
Proof. rewrite forallb_forall. intros Hs Hin%list_elem_of_In. specialize (Hs _ Hin). discriminate Hs. Qed.

Lemma dec_plain n : 0 <= n → ESC ∉ dec n.
Proof. intros Hn. unfold dec. destruct (Z.ltb_spec n 0); [lia|]. by apply digits_plain, dec_nonneg_digits. Qed.

Lemma bounded_plain text max : ESC ∉ text → ESC ∉ bounded text max.
Proof.
  intros Ht. destruct (bounded_cases text max) as [[_ ->]|(_ & keep & Hk & ->)]; [done|].
  rewrite elem_of_app. intros [Hin|Hin].
  - apply Ht. eapply elem_of_sublist; [exact Hin|apply sublist_take].
  - unfold truncated in Hin. rewrite !elem_of_app in Hin. destruct Hin as [Hin|[Hin|Hin]].
    + revert Hin; by apply plain_literal.
    + apply dec_plain in Hin; [done|lia].
    + revert Hin; by apply plain_literal.
Qed.

Lemma join_plain glue parts : ESC ∉ glue → Forall (λ p, ESC ∉ p) parts → ESC ∉ join glue parts.
Proof.
  intros Hg Hp. induction Hp as [|p parts Hp Hps IH]; simpl; [set_solver|].
  destruct parts as [|q parts]; [done|]. rewrite !elem_of_app. tauto.
Qed.

Lemma causes_plain depth roots c : Forall (λ p, ESC ∉ p) (causes sep depth roots c).
Proof.
  revert c. induction depth as [|depth IH]; intros [c|]; cbn [causes]; [by constructor..| |by constructor].
  apply Forall_cons. split; [|apply IH]. rewrite elem_of_app. intros [Hin|Hin]; [revert Hin; by apply plain_literal|exact (plain_text _ _ Hin)].
Qed.

Lemma span_all p s : forallb p (span p s).1 = true.
Proof.
  induction s as [|u s IH]; simpl; [done|]. destruct (p u) eqn:E; [|done].
  destruct (span p s) as [a b]; simpl in *. by rewrite E, IH.
Qed.

(** How large an error is. *)
Definition opt_size (s : option str) : Z := slength (default [] s).
Fixpoint error_size (e : PwError) : Z :=
  let '(MkError m v s _ c) := e in
  opt_size m + opt_size v + opt_size s + match c with Some c => error_size c | None => 0 end.

Definition plain_within (max : Z) (t : str) : Prop := (ESC ∉ t) ∧ slength t <= max.

Lemma bounded_plain_within text max :
  64 <= max → (ESC ∉ text) → slength text < 10 ^ 40 → plain_within max (bounded text max).
Proof. intros Hm Ht Hl. split; [by apply bounded_plain|by apply bounded_within]. Qed.

Lemma roots_size text roots : slength (withoutRoots sep (stripAnsi text) roots) <= slength text.
Proof.
  pose proof (sublist_length _ _ (withoutRoots_sublist (stripAnsi text) roots)).
  rewrite stripAnsi_strip in *. pose proof (sublist_length _ _ (strip_sublist text)). lia.
Qed.

Lemma error_size_nonneg e : 0 <= error_size e.
Proof. revert e. fix IH 1. intros [m v s l [c|]]; simpl; [specialize (IH c)|]; unfold opt_size; lia. Qed.

Lemma message_size e roots :
  slength (withoutRoots sep (stripAnsi (default (js "error without a message")
    (match we_message e with Some m => Some m | None => we_value e end))) (ro_all roots)) <= error_size e + 23.
Proof.
  etrans; [apply roots_size|]. destruct e as [m v s l c]. simpl.
  assert (0 <= match c with Some c => error_size c | None => 0 end) by (destruct c; [apply error_size_nonneg|done]).
  unfold opt_size. destruct m; simpl; [lia|]. destruct v; simpl; [lia|]. change (length (js "error without a message")) with 23%nat. lia.
Qed.

Definition stack_parts (e : PwError) (roots : Roots) : list str :=
  match we_stack e with Some s => [withoutRoots sep (stripAnsi s) (ro_all roots)] | None => [] end
  ++ causes sep 8 roots (we_cause e).

Fixpoint parts_size (parts : list str) : Z :=
  match parts with [] => 0 | p :: rest => slength p + parts_size rest end.

Lemma parts_size_app a b : parts_size (a ++ b) = parts_size a + parts_size b.
Proof. induction a; simpl; lia. Qed.

Lemma join_size glue parts : slength (join glue parts) <= parts_size parts + slength glue * Z.of_nat (length parts).
Proof.
  induction parts as [|p [|q parts] IH]; [simpl; lia|simpl; lia|].
  change (join glue (p :: q :: parts)) with (p ++ glue ++ join glue (q :: parts)).
  rewrite !length_app. cbn [parts_size length] in *. lia.
Qed.

Lemma join_head_size p glue parts : head parts = Some p → slength p <= slength (join glue parts).
Proof. destruct parts as [|q [|r parts]]; simpl; intros [= ->]; rewrite ?length_app; lia. Qed.

Lemma causes_size depth roots c :
  parts_size (causes sep depth roots c) <= match c with Some c => error_size c | None => 0 end + 11 * Z.of_nat depth ∧
  (length (causes sep depth roots c) <= depth)%nat.
Proof.
  revert c. induction depth as [|depth IH]; intros [c|]; cbn [causes parts_size length]; try lia.
  - pose proof (error_size_nonneg c). lia.
  - destruct (IH (we_cause c)) as [H1 H2]. split; [|lia]. rewrite length_app.
    pose proof (roots_size (default [] (match we_stack c with
        | Some s => Some s | None => match we_message c with Some m => Some m | None => we_value c end end)) (ro_all roots)) as Hr.
    change (length (js "Caused by: ")) with 11%nat. destruct c as [m v s l c]. cbn in *. unfold opt_size.
    destruct s; [simpl in *; lia|]. destruct m; [simpl in *; lia|]. destruct v; simpl in *; lia.
Qed.

Lemma stack_size e roots : slength (join [10%N] (stack_parts e roots)) <= error_size e + 200.
Proof.
  etrans; [apply join_size|]. unfold stack_parts. rewrite parts_size_app, length_app.
  destruct (causes_size 8 roots (we_cause e)) as [H1 H2]. destruct e as [m v s l c]. cbn [we_stack we_cause error_size] in *.
  destruct s as [s|]; cbn [parts_size length] in *; unfold opt_size; [pose proof (roots_size s (ro_all roots))|];
    change (slength [10%N]) with 1; cbn [from_option id]; lia.
Qed.

Lemma span_size p s : slength (span p s).1 <= slength s.
Proof. induction s as [|u s IH]; simpl; [done|]. destruct (p u); [|simpl; lia]. destruct (span p s). simpl in *. lia. Qed.

Lemma error_type_size text t : error_type_of text = Some t → slength t <= slength text.
Proof.
  unfold error_type_of. pose proof (span_size word_char text). destruct (span word_char text). simpl in *.
  destruct (_ && _); [|done]. by intros [= <-].
Qed.

Lemma errorType_size message stack t :
  errorType message stack = Some t → slength t <= slength message ∨ ∃ p, stack = Some p ∧ slength t <= slength p.
Proof.
  unfold errorType. destruct (error_type_of message) eqn:E.
  - intros [= <-]. left. by apply error_type_size.
  - destruct stack as [s|]; simpl; [|done]. intros H%error_type_size. eauto.
Qed.

Lemma error_type_plain text t : error_type_of text = Some t → ESC ∉ t.
Proof.
  unfold error_type_of. pose proof (span_all word_char text) as Hs. destruct (span word_char text) as [word rest].
  simpl in Hs. destruct (_ && _); [|done]. intros [= <-] Hin%list_elem_of_In.
  rewrite forallb_forall in Hs. specialize (Hs _ Hin). discriminate Hs.
Qed.

Lemma errorType_plain message stack t : errorType message stack = Some t → ESC ∉ t.
Proof.
  unfold errorType. destruct (error_type_of message) eqn:E.
  - intros [= <-]. by eapply error_type_plain.
  - destruct stack as [s|]; simpl; [apply error_type_plain|done].
Qed.
End plain.

(** ** Identity *)

(** Joined parts are told apart, when no part holds the separator. *)
Lemma join_sep_split a b x y :
  (0x1e%N ∉ a) → (0x1e%N ∉ b) → a ++ SEPARATOR ++ x = b ++ SEPARATOR ++ y → a = b ∧ x = y.
Proof.
  unfold SEPARATOR. revert b. induction a as [|u a IH]; intros [|v b] Ha Hb E; simpl in E.
  - by injection E.
  - injection E as <- E. destruct Hb. by left.
  - injection E as -> E. destruct Ha. by left.
  - injection E as -> E. apply IH in E as [-> ->]; set_solver.
Qed.

Lemma line_join_inj l l' :
  Forall (λ p, 0x1e%N ∉ p) l → Forall (λ p, 0x1e%N ∉ p) l' → l ≠ [] → l' ≠ [] →
  join SEPARATOR l = join SEPARATOR l' → l = l'.
Proof.
  intros Hl. revert l'. induction Hl as [|p l Hp Hl IH]; intros l' Hl' Hn Hn' E; [done|].
  destruct Hl' as [|q l' Hq Hl']; [done|].
  destruct l as [|p2 l]; destruct l' as [|q2 l']; cbn [join] in E.
  - by f_equal.
  - destruct Hp. rewrite E. unfold SEPARATOR. set_solver.
  - destruct Hq. rewrite <-E. unfold SEPARATOR. set_solver.
  - apply join_sep_split in E as [-> E]; [|done..]. f_equal. by apply IH.
Qed.

(** ** Properties *)

(** The failure budget. Failures within the budget are recorded as they are. Beyond it, what is
    recorded is some of them in their order, some without their stack, with at most the budget of text,
    and one marker that says exactly how many are missing; and never more entries than there were. *)
Theorem withinBudget_counts_what_it_drops failures :
  (text_size failures <= FAILURE_TEXT_BUDGET ∧ withinBudget failures = failures) ∨
  ∃ out omitted,
    withinBudget failures = out ++ (if 0 <? omitted then [omitted_marker omitted] else []) ∧
    kept failures out ∧ 0 <= omitted ∧
    Z.of_nat (length failures) = Z.of_nat (length out) + omitted ∧
    text_size out <= FAILURE_TEXT_BUDGET ∧ (length (withinBudget failures) <= length failures)%nat.
Proof.
  unfold withinBudget. rewrite foldl_size. destruct (Z.leb_spec (0 + text_size failures) FAILURE_TEXT_BUDGET) as [H|H]; [by left|right].
  destruct (budget_loop 0 failures) as [out omitted] eqn:E.
  destruct (budget_loop_spec _ _ _ _ E) as (H1 & H2 & H3 & H4); [by vm_compute|].
  exists out, omitted. split; [done|]. split_and!; try done. rewrite length_app.
  destruct (Z.ltb_spec 0 omitted); simpl; lia.
Qed.

(** A recorded failure is plain and bounded. Whatever the error of Playwright is, its causes
    included, no terminal escape is left in the message, the type or the stack, and each is within
    its limit, for any error a machine can hold. *)
Theorem failure_plain_and_bounded relative sep error roots phase :
  error_size error < 10 ^ 39 →
  let f := failure relative sep error roots phase in
  plain_within MAX_MESSAGE (f_message f) ∧ (∀ t, f_type f = Some t → plain_within MAX_TYPE t) ∧
  (∀ t, f_stackTrace f = Some t → plain_within MAX_STACK t).
Proof.
  intros Hs f. pose proof (stack_size sep error roots) as Hst.
  assert (10 ^ 39 + 200 < 10 ^ 40) as Hpow by (by vm_compute). split_and!.
  - apply bounded_plain_within; [by vm_compute|apply plain_text|].
    eapply Z.le_lt_trans; [apply message_size|lia].
  - intros t. unfold f, failure. cbv zeta. cbn [f_type]. fold (stack_parts sep error roots).
    match goal with |- context [errorType ?m ?st] => destruct (errorType m st) as [u|] eqn:E end; simpl; [|done].
    intros [= <-]. apply bounded_plain_within; [by vm_compute|by eapply errorType_plain|].
    apply errorType_size in E as [Hu|(p & Hp & Hu)].
    + eapply Z.le_lt_trans; [exact Hu|]. eapply Z.le_lt_trans; [apply message_size|lia].
    + apply (join_head_size _ [10%N]) in Hp. lia.
  - intros t. unfold f, failure. cbv zeta. cbn [f_stackTrace]. fold (stack_parts sep error roots).
    assert (∀ o, o = match stack_parts sep error roots with
                     | [] => None | _ => Some (bounded (join [10%N] (stack_parts sep error roots)) MAX_STACK) end →
                 o = Some t → t = bounded (join [10%N] (stack_parts sep error roots)) MAX_STACK) as Ht.
    { intros o ->. destruct (stack_parts sep error roots); [done|]. by intros [= <-]. }
    intros E. specialize (Ht _ eq_refl E) as ->. apply bounded_plain_within; [by vm_compute| |eapply Z.le_lt_trans; [exact Hst|lia]].
    apply join_plain; [set_solver|]. unfold stack_parts. apply Forall_app. split; [|apply causes_plain].
    destruct (we_stack error); [|constructor]. constructor; [apply plain_text|constructor].
Qed.

Definition demo_error : PwError :=
  MkError (Some (ESC :: js "[31mTypeError: no" ++ ESC :: js "[39m")) None
    (Some (js "TypeError: no" ++ [10%N] ++ js "    at /repo/tests/a.spec.ts:3:5")) None None.

Lemma failure_plain_and_bounded_witness :
  let f := failure (λ _ file, file) (js "/") demo_error {| ro_rootDir := js "/repo"; ro_all := [js "/repo"] |} None in
  f_message f = js "TypeError: no" ∧ f_type f = Some (js "TypeError") ∧
  f_stackTrace f = Some (js "TypeError: no" ++ [10%N] ++ js "    at tests/a.spec.ts:3:5") ∧
  plain_within MAX_MESSAGE (f_message f).
Proof.
  intros f. split; [vm_compute; reflexivity|]. split; [vm_compute; reflexivity|]. split; [vm_compute; reflexivity|].
  refine (proj1 (failure_plain_and_bounded (λ _ file, file) (js "/") demo_error
    {| ro_rootDir := js "/repo"; ro_all := [js "/repo"] |} None _)). vm_compute. reflexivity.
Defined.

(** The identity text tells tests apart: two tests whose projects, files, group titles and titles
    hold no separator have the same identity text only when all of these are the same. *)
Theorem identity_text_inj h1 h2 :
  (∀ p, p ∈ h_project h1 :: h_file h1 :: h_groups h1 ++ [h_title h1] → 0x1e%N ∉ p) →
  (∀ p, p ∈ h_project h2 :: h_file h2 :: h_groups h2 ++ [h_title h2] → 0x1e%N ∉ p) →
  identity_text h1 = identity_text h2 → h1 = h2.
Proof.
  intros H1 H2 E. apply line_join_inj in E; [|by apply Forall_forall..|done|done].
  destruct h1 as [p1 f1 g1 t1], h2 as [p2 f2 g2 t2]. simpl in *. injection E as -> -> E.
  by apply app_inj_tail in E as [-> ->].
Qed.

Definition demo_hierarchy : Hierarchy :=
  {| h_project := js "chromium"; h_file := js "tests/a.spec.ts"; h_groups := [js "login"]; h_title := js "works" |}.

Lemma identity_text_inj_witness :
  (∀ p, p ∈ h_project demo_hierarchy :: h_file demo_hierarchy :: h_groups demo_hierarchy ++ [h_title demo_hierarchy] → 0x1e%N ∉ p) ∧
  demo_hierarchy = demo_hierarchy.
Proof.
  assert (∀ p, p ∈ h_project demo_hierarchy :: h_file demo_hierarchy :: h_groups demo_hierarchy ++ [h_title demo_hierarchy] → 0x1e%N ∉ p) as H.
  { apply Forall_forall. repeat constructor; apply (bool_decide_unpack _); vm_compute; exact I. }
  split; [exact H|]. exact (identity_text_inj demo_hierarchy demo_hierarchy H H eq_refl).
Defined.
