(* ===== verification/PwConfig.v ===== *)
(** * Configuration of the Playwright reporter (ts/packages/playwright/src/config.ts)

    Options, environment variables and defaults, in that order, and the notes on
    values that were replaced; and the SDK's resolveRunDirectory. [node:path], the
    random identifiers, [Number] of a text and [String] of a number are variables. *)

From S2P Require Import Prelude JsString JsMap JsSort Json Model JsNumber JsDate Instants SafeName PwText PwMapping.

Local Open Scope Z_scope.

(** [node:path], on the platform the process runs on. *)
Record NodePath := {
  np_join : str → str → str;
  np_relative : str → str → str;
  np_resolve : str → str;           (* against the working directory *)
  np_resolve_in : str → str → str;
  np_dirname : str → str;
  np_basename : str → str;
  np_sep : str;
}.

(** ** The SDK's run directory *)

Definition RUNS_DIR : str := js "runs".

(** [resolveRunDirectory] *)
Definition resolveRunDirectory (path : NodePath) (sha256_utf8 : str → str) (outputRoot runId : str) : res str str :=
  let runs := np_join path outputRoot RUNS_DIR in
  let dir := np_join path runs (runDirectoryName sha256_utf8 runId) in
  let rel := np_relative path (np_resolve path runs) (np_resolve path dir) in
  if str_eqb rel [] || starts_with (js "..") rel || includes (np_sep path) rel
  then Throw (js "run directory escapes the output root: " ++ runId)
  else Ok dir.

(** ** Options *)

(** A number of the configuration file, or a text of the environment. *)
Inductive NumberOrText := ANumber (n : number) | AText (s : str).

Record UploadOptions := {
  uo_enabled : option bool; uo_baseUrl : option str; uo_expiresAt : option str;
  uo_retentionMs : option number; uo_maxAttempts : option number; uo_attemptTimeoutMs : option number;
  uo_allowInsecureHttp : option bool;
}.

Record ReporterOptions := {
  op_enabled : option bool; op_dir : option str; op_runId : option str; op_sessionId : option str;
  op_maxAttachmentBytes : option number; op_upload : option UploadOptions;
}.

Definition no_upload_options : UploadOptions :=
  {| uo_enabled := None; uo_baseUrl := None; uo_expiresAt := None; uo_retentionMs := None;
     uo_maxAttempts := None; uo_attemptTimeoutMs := None; uo_allowInsecureHttp := None |}.
Definition no_options : ReporterOptions :=
  {| op_enabled := None; op_dir := None; op_runId := None; op_sessionId := None;
     op_maxAttachmentBytes := None; op_upload := None |}.

Record ResolvedUpload := {
  ru_enabled : bool; ru_baseUrl : option str; ru_expiresAt : option Date; ru_retentionMs : option Z;
  ru_maxAttempts : option Z; ru_attemptTimeoutMs : option Z; ru_allowInsecureHttp : bool;
}.

Record ResolvedConfig := {
  rc_enabled : bool; rc_outputRoot : str; rc_runDirectory : str; rc_runId : str; rc_runIdGenerated : bool;
  rc_sessionId : str; rc_maxAttachmentBytes : option Z; rc_upload : ResolvedUpload; rc_notes : list str;
}.

(** [context]: the environment and the shard. *)
Record ConfigContext := { cx_env : str → option str; cx_cwd : str; cx_shard : option (Z * Z) }.

(** [a ?? b] *)
Definition or_env {A} (a b : option A) : option A := match a with Some _ => a | None => b end.

(** IDENTIFIER *)
Definition IDENTIFIER (s : str) : bool :=
  (1 <=? slength s) && (slength s <=? 128) && forallb (in_range 0x21 0x7e) s.

Section config.
Context (path : NodePath) (sha256_utf8 : str → str).
Context (uuid : str) (process : str).                     (* randomUUID(); `${pid}-${random}` *)
Context (to_number : str → number) (number_text : number → str).

(** A method that may add notes: what it gives, and the notes. *)
Abbreviation noted A := (A * list str)%type.

(** A boolean of the environment; [other] is what any other word means, and its note. *)
Definition env_flag (value : str) (dflt : bool) (note : str) : noted bool :=
  let v := toLowerCase (trim value) in
  if str_eqb v (js "true") || str_eqb v (js "1") then (true, [])
  else if str_eqb v (js "false") || str_eqb v (js "0") then (false, [])
  else (dflt, [note]).

Definition value_number (v : NumberOrText) : number := match v with ANumber n => n | AText s => to_number s end.
Definition value_text (v : NumberOrText) : str := match v with ANumber n => number_text n | AText s => s end.

(** [whole] *)
Definition whole (what : str) (value : option NumberOrText) : noted (option Z) :=
  match value with
  | None | Some (AText []) => (None, [])
  | Some v =>
      match as_integer (value_number v) with
      | Some n =>
          if 0 <? n then (Some n, [])
          else (None, [what ++ js " '" ++ take 40 (value_text v) ++ js "' is not a positive whole number; ignored"])
      | None => (None, [what ++ js " '" ++ take 40 (value_text v) ++ js "' is not a positive whole number; ignored"])
      end
  end.

(** [identifier] *)
Definition identifier_value (what : str) (value : option str) : noted (option str) :=
  match value with
  | None | Some [] => (None, [])
  | Some v =>
      if IDENTIFIER v then (Some v, [])
      else (None, [what ++ js " '" ++ take 40 v ++ js "' is not an identifier (1 to 128 printable ASCII characters, no spaces); generated"])
  end.

Definition option_or_env (o : option number) (e : option str) : option NumberOrText :=
  or_env (ANumber <$> o) (AText <$> e).

(** [expiresAt]: the instant, whether the upload stays enabled, and the note. *)
Definition deadline (value : option str) : option Date * bool * list str :=
  match value with
  | None | Some [] => (None, true, [])
  | Some v =>
      match client_parseOperationalInstant (JStr v) (js "expiresAt") with
      | Ok d => (Some d, true, [])
      | Throw _ => (None, false, [js "expiresAt '" ++ take 40 v ++ js "' is not " ++ OPERATIONAL_INSTANT_GRAMMAR ++ js "; not uploading"])
      end
  end.

(** [resolveUpload] *)
Definition resolveUpload (options : option UploadOptions) (env : str → option str) : noted ResolvedUpload :=
  let o := default no_upload_options options in
  let '(enabled, n1) := match uo_enabled o with
    | Some b => (b, [])
    | None => match env (js "QE_REPORT_UPLOAD") with
              | Some v => env_flag v false (js "QE_REPORT_UPLOAD is '" ++ v ++ js "', not true or false; not uploading")
              | None => (false, []) end
    end in
  let '(expiresAt, readable, n2) := deadline (or_env (uo_expiresAt o) (env (js "QE_REPORT_EXPIRES_AT"))) in
  let '(retention, n3) := whole (js "retentionMs") (option_or_env (uo_retentionMs o) (env (js "QE_REPORT_RETENTION_MS"))) in
  let '(attempts, n4) := whole (js "maxAttempts") (option_or_env (uo_maxAttempts o) (env (js "QE_REPORT_UPLOAD_MAX_ATTEMPTS"))) in
  let '(timeout, n5) := whole (js "attemptTimeoutMs") (option_or_env (uo_attemptTimeoutMs o) (env (js "QE_REPORT_UPLOAD_TIMEOUT_MS"))) in
  ({| ru_enabled := enabled && readable;
      ru_baseUrl := match or_env (uo_baseUrl o) (env (js "QE_REPORT_URL")) with Some [] => None | v => v end;
      ru_expiresAt := expiresAt; ru_retentionMs := retention; ru_maxAttempts := attempts;
      ru_attemptTimeoutMs := timeout;
      ru_allowInsecureHttp := bool_decide (uo_allowInsecureHttp o = Some true)
        || bool_decide (env (js "QE_REPORT_ALLOW_INSECURE_HTTP") = Some (js "true")) |},
   n1 ++ n2 ++ n3 ++ n4 ++ n5).

(** [resolveConfig] *)
Definition resolveConfig (options : option ReporterOptions) (context : ConfigContext) : res str ResolvedConfig :=
  let o := default no_options options in
  let env := cx_env context in
  let '(enabled, n1) := match op_enabled o with
    | Some b => (b, [])
    | None => match env (js "QE_REPORT_ENABLED") with
              | Some v => env_flag v true (js "QE_REPORT_ENABLED is '" ++ v ++ js "', not true or false; enabled")
              | None => (true, []) end
    end in
  let outputRoot := np_resolve_in path (cx_cwd context)
    match or_env (op_dir o) (env (js "QE_REPORT_DIR")) with None | Some [] => js "qe-report" | Some d => d end in
  let '(runIdValue, n2) := identifier_value (js "run id") (or_env (op_runId o) (env (js "QE_REPORT_RUN_ID"))) in
  let runId := default uuid runIdValue in
  let '(sessionValue, n3) := identifier_value (js "session id") (or_env (op_sessionId o) (env (js "QE_REPORT_SESSION_ID"))) in
  let shard := match cx_shard context with
    | Some (current, total) => js "s" ++ dec current ++ js "of" ++ dec total ++ js "-" | None => [] end in
  let sessionId := default (js "pw-" ++ shard ++ process) sessionValue in
  let '(max, n4) := match op_maxAttachmentBytes o with
    | Some v =>
        match as_integer v with
        | Some n => if 0 <=? n then (Some n, [])
                    else (None, [js "maxAttachmentBytes " ++ number_text v ++ js " is not a whole number; default"])
        | None => (None, [js "maxAttachmentBytes " ++ number_text v ++ js " is not a whole number; default"])
        end
    | None => (None, [])
    end in
  let '(upload, n5) := resolveUpload (op_upload o) env in
  runDirectory ← resolveRunDirectory path sha256_utf8 outputRoot runId;
  Ok {| rc_enabled := enabled; rc_outputRoot := outputRoot; rc_runDirectory := runDirectory; rc_runId := runId;
        rc_runIdGenerated := bool_decide (runIdValue = None); rc_sessionId := sessionId;
        rc_maxAttachmentBytes := max; rc_upload := upload; rc_notes := n1 ++ n2 ++ n3 ++ n4 ++ n5 |}.
End config.

(** ** Lemmas *)

(** A configured id is used only when it is an identifier. *)
Lemma identifier_value_Some what value id notes :
  identifier_value what value = (Some id, notes) → value = Some id ∧ IDENTIFIER id = true.
Proof.
  unfold identifier_value. destruct value as [[|u v]|]; [done| |done].
  destruct (IDENTIFIER (u :: v)) eqn:E; [|done]. by intros [= <- _].
Qed.

Lemma deadline_unreadable u rest e :
  client_parseOperationalInstant (JStr (u :: rest)) (js "expiresAt") = Throw e →
  ∃ note, deadline (Some (u :: rest)) = (None, false, note).
Proof. intros Hp. unfold deadline. rewrite Hp. eauto. Qed.

Section props.
Context (path : NodePath) (sha256_utf8 : str → str) (uuid process : str).
Context (to_number : str → number) (number_text : number → str).

(** What a resolved configuration promises. *)
Record config_ok (cfg : ResolvedConfig) : Prop := {
  co_runId : if rc_runIdGenerated cfg then rc_runId cfg = uuid else IDENTIFIER (rc_runId cfg) = true;
  co_directory : resolveRunDirectory path sha256_utf8 (rc_outputRoot cfg) (rc_runId cfg) = Ok (rc_runDirectory cfg);
  co_max : from_option (λ n, 0 <= n) True (rc_maxAttachmentBytes cfg);
  co_whole : Forall (from_option (λ n, 0 < n) True)
    [ru_retentionMs (rc_upload cfg); ru_maxAttempts (rc_upload cfg); ru_attemptTimeoutMs (rc_upload cfg)];
}.

Lemma whole_positive what value n notes : whole to_number number_text what value = (n, notes) → from_option (λ n, 0 < n) True n.
Proof.
  unfold whole. destruct value as [v|]; [|by intros [= <- _]].
  assert (∀ r : option Z * list str, r = match as_integer (value_number to_number v) with
    | Some z => if 0 <? z then (Some z, []) else (None, [what ++ js " '" ++ take 40 (value_text number_text v) ++ js "' is not a positive whole number; ignored"])
    | None => (None, [what ++ js " '" ++ take 40 (value_text number_text v) ++ js "' is not a positive whole number; ignored"]) end →
    r = (n, notes) → from_option (λ n, 0 < n) True n) as Hr.
  { intros r ->. destruct (as_integer _) as [z|]; [|by intros [= <- _]].
    destruct (Z.ltb_spec 0 z); intros [= <- _]; done. }
  destruct v as [m|[|u s]]; [by apply Hr|by intros [= <- _]|by apply Hr].
Qed.


Lemma resolveUpload_whole options env upload notes :
  resolveUpload to_number number_text options env = (upload, notes) →
  Forall (from_option (λ n, 0 < n) True) [ru_retentionMs upload; ru_maxAttempts upload; ru_attemptTimeoutMs upload].
Proof.
  unfold resolveUpload. cbv zeta. destruct (match uo_enabled _ with Some _ => _ | None => _ end) as [en n1].
  destruct (deadline _) as [[d readable] n2].
  repeat match goal with |- context [whole ?a ?b ?c ?d] =>
    let E := fresh "E" in destruct (whole a b c d) eqn:E; apply whole_positive in E end.
  intros [= <- _]. simpl. repeat constructor; done.
Qed.
End props.

(** ** Properties *)

(** A resolved configuration is safe to act on, whatever the options and the environment say: its
    run id is one that was configured and is an identifier, or is the generated one and marked as
    such; its run directory lies directly below the runs of the output root; every limit is positive;
    and a deadline that was stated and cannot be read turns the upload off. *)
Theorem resolveConfig_sound path sha256_utf8 uuid process to_number number_text options context cfg :
  resolveConfig path sha256_utf8 uuid process to_number number_text options context = Ok cfg →
  config_ok path sha256_utf8 uuid cfg ∧
  (rc_runIdGenerated cfg = false →
     or_env (op_runId (default no_options options)) (cx_env context (js "QE_REPORT_RUN_ID")) = Some (rc_runId cfg)) ∧
  ∀ u rest e,
    or_env (uo_expiresAt (default no_upload_options (op_upload (default no_options options))))
      (cx_env context (js "QE_REPORT_EXPIRES_AT")) = Some (u :: rest) →
    client_parseOperationalInstant (JStr (u :: rest)) (js "expiresAt") = Throw e →
    ru_enabled (rc_upload cfg) = false.
Proof.
  unfold resolveConfig. cbv zeta. set (o := default no_options options).
  destruct (match op_enabled o with Some b => (b, []) | None => _ end) as [enabled n1].
  destruct (identifier_value (js "run id") _) as [runIdValue n2] eqn:Er.
  destruct (identifier_value (js "session id") _) as [sessionValue n3].
  destruct (match op_maxAttachmentBytes o with Some _ => _ | None => _ end) as [max n4] eqn:Em.
  destruct (resolveUpload _ _ _ _) as [upload n5] eqn:Eu.
  destruct (resolveRunDirectory _ _ _ _) as [dir|e] eqn:Ed; [|done]. intros [= <-]. split; [|split].
  - split; simpl; [|done| |by eapply resolveUpload_whole].
    + destruct runIdValue; simpl; [|done]. by apply identifier_value_Some in Er as [_ ?].
    + destruct (op_maxAttachmentBytes o) as [v|]; [|by injection Em as <- _].
      destruct (as_integer v) as [n|]; [|by injection Em as <- _].
      destruct (Z.leb_spec 0 n); injection Em as <- _; done.
  - simpl. destruct runIdValue; [|done]. intros _. by apply identifier_value_Some in Er as [? _].
  - cbn [rc_upload]. intros u rest e Ho Hp. unfold resolveUpload in Eu. cbv zeta in Eu.
    destruct (match uo_enabled _ with Some _ => _ | None => _ end) as [en m1].
    destruct (deadline_unreadable _ _ _ Hp) as [note Hd]. rewrite Ho, Hd in Eu.
    repeat match type of Eu with context [whole ?a ?b ?c ?d] => destruct (whole a b c d) end.
    injection Eu as <- _. cbn [ru_enabled]. apply andb_false_r.
Qed.

Definition demo_path : NodePath :=
  {| np_join a b := a ++ js "/" ++ b;
     np_relative a b := if starts_with (a ++ js "/") b then drop (S (length a)) b else js "../" ++ b;
     np_resolve p := p; np_resolve_in a b := if starts_with (js "/") b then b else a ++ js "/" ++ b;
     np_dirname p := p; np_basename p := p; np_sep := js "/" |}.

Definition demo_env (l : list (string * string)) (name : str) : option str :=
  js <$> (snd <$> List.find (λ kv, str_eqb (js kv.1) name) l).

Definition demo_digest (_ : str) : str := js "0123456789abcdef".

(** A shared run, uploaded until a deadline that cannot be read. *)
Definition demo_resolve (l : list (string * string)) : res str ResolvedConfig :=
  resolveConfig demo_path demo_digest (js "uuid-1") (js "77-ab") (λ _, NaN) (λ _, [])
    None {| cx_env := demo_env l; cx_cwd := js "/work"; cx_shard := Some (1, 3) |}.

Definition demo_shared : list (string * string) :=
  [("QE_REPORT_RUN_ID", "build-7"); ("QE_REPORT_UPLOAD", " TRUE "); ("QE_REPORT_EXPIRES_AT", "tomorrow")]%string.

Lemma resolveConfig_sound_witness :
  ∃ cfg, demo_resolve demo_shared = Ok cfg ∧ rc_runDirectory cfg = js "/work/qe-report/runs/build-7-0123456789ab" ∧
    rc_sessionId cfg = js "pw-s1of3-77-ab" ∧ length (rc_notes cfg) = 1%nat ∧ ru_enabled (rc_upload cfg) = false.
Proof.
  destruct (demo_resolve demo_shared) as [cfg|e] eqn:E.
  - exists cfg. split; [reflexivity|]. pose proof E as E'. vm_compute in E'. injection E' as <-.
    split; [reflexivity|]. split; [reflexivity|]. split; [reflexivity|].
    exact (proj2 (proj2 (resolveConfig_sound demo_path demo_digest (js "uuid-1") (js "77-ab") (λ _, NaN) (λ _, []) None
      {| cx_env := demo_env demo_shared; cx_cwd := js "/work"; cx_shard := Some (1, 3) |} _ E)) _ _ _ eq_refl eq_refl).
  - vm_compute in E. discriminate E.
Defined.
