(* ===== verification/PwReporter.v ===== *)
(** * The Playwright reporter (ts/packages/playwright/src/reporter.ts, diagnostics.ts)

    One Playwright invocation as one session. The reporter's state is the world
    its callbacks act on; each callback is guarded, and what its body throws ends
    as a diagnostic. The session is the SDK's (Session.v), over any sink. Objects
    Playwright hands out are records, with a number for their identity where the
    code uses identity (steps and attachments). *)

From S2P Require Import Prelude Io JsString JsBytes JsMap JsSort Json Model Codec CodecProps Redactor JsNumber JsDate Instants SafeName Session PwText PwMapping PwConfig.

Local Open Scope Z_scope.

(** ** Playwright's objects *)

(** A finite number of milliseconds: an integer over a power of two. *)
Record Millis := { ml_num : Z; ml_scale : nat }.

(** [Math.max(0, Math.round(d))]: halves go up. *)
Definition whole_millis (d : Millis) : Z :=
  let k := 2 ^ Z.of_nat (ml_scale d) in Z.max 0 ((2 * ml_num d + k) / (2 * k)).

(** An attachment: its identity, and the bytes it has, or what opening and reading its path gives. *)
Record PwAttachment := {
  pa_ref : Z; pa_name : str; pa_contentType : str; pa_body : option bytes;
  pa_path : option (res SinkError bytes);
}.

(** [TestStep]: its identity, its parent's, and [step.attachments ?? []]. *)
Record PwStep := {
  ps_ref : Z; ps_parent : option Z; ps_title : str; ps_category : str; ps_location : option PwLocation;
  ps_error : option PwError; ps_duration : Millis; ps_attachments : list PwAttachment;
}.

(** [TestResult] *)
Record PwResult := {
  wr_retry : Z; wr_workerIndex : Z; wr_status : str; wr_duration : Millis;
  wr_attachments : list PwAttachment; wr_errors : list PwError;
}.

(** [FullConfig] *)
Record FullConfig := {
  fc_rootDir : str; fc_globalSetup : option str; fc_globalTeardown : option str; fc_configFile : option str;
  fc_shard : option (Z * Z); fc_workers : Z; fc_version : str;
}.

(** version.ts *)
Definition VERSION : str := js "1.0.0".
Definition PRODUCER_NAME : str := js "qe-report-playwright".
Definition RUNNER_NAME : str := js "playwright".

(** ** Diagnostics *)

Record Diagnostics := { dg_seen : list str; dg_suppressed : bool; dg_lines : list str }.
#[export] Instance Diagnostics_fields : Fields Diagnostics := λ r,
  {| dg_seen := dg_seen r; dg_suppressed := dg_suppressed r; dg_lines := dg_lines r |}.

Definition MAX_KEYS : nat := 50.
Definition new_diagnostics : Diagnostics := {| dg_seen := []; dg_suppressed := false; dg_lines := [] |}.

(** [once] *)
Definition once (redactText : str → str) (key message : str) (d : Diagnostics) : Diagnostics :=
  if existsb (str_eqb key) (dg_seen d) then d
  else if (MAX_KEYS <=? length (dg_seen d))%nat then
    if dg_suppressed d then d
    else d <| dg_suppressed := true |>
           <| dg_lines ::= λ l, l ++ [js "qe-report-playwright: further problems of this run are not printed"] |>
  else d <| dg_seen ::= λ l, l ++ [key] |>
         <| dg_lines ::= λ l, l ++ [js "qe-report-playwright: " ++ redactText message] |>.

(** ** The state *)

Record OpenStep := { os_id : str; os_phase : option FailurePhase }.

Record OpenAttempt := {
  oa_id : str;
  oa_steps : jsmap Z OpenStep;
  oa_stepCount : Z;
  oa_emitted : list Z;
  oa_stepErrorPhases : jsmap str (option FailurePhase);
}.
#[export] Instance OpenAttempt_fields : Fields OpenAttempt := λ r,
  {| oa_id := oa_id r; oa_steps := oa_steps r; oa_stepCount := oa_stepCount r; oa_emitted := oa_emitted r;
     oa_stepErrorPhases := oa_stepErrorPhases r |}.

(** [QeReportReporter]. [rp_session] is the session and what it was opened with; once [onEnd] lets go of it,
    [rp_ended] is the session it was. *)
Record Reporter (S : Type) := {
  rp_attempts : jsmap str OpenAttempt;
  rp_sessionFailures : list Failure;
  rp_sessionFailuresOmitted : Z;
  rp_globalSetup : option str;
  rp_globalTeardown : option str;
  rp_session : option (SessionConfig * ReportSession S);
  rp_ended : option (SessionConfig * ReportSession S);
  rp_config : option ResolvedConfig;
  rp_rootDir : str;
  rp_roots : Roots;
  rp_runnerModules : list str;
  rp_filesWithAttempts : list str;
  rp_diagnostics : Diagnostics;
}.
Arguments rp_attempts {S} _. Arguments rp_sessionFailures {S} _. Arguments rp_sessionFailuresOmitted {S} _.
Arguments rp_globalSetup {S} _. Arguments rp_globalTeardown {S} _. Arguments rp_session {S} _.
Arguments rp_ended {S} _. Arguments rp_config {S} _. Arguments rp_rootDir {S} _. Arguments rp_roots {S} _.
Arguments rp_runnerModules {S} _. Arguments rp_filesWithAttempts {S} _. Arguments rp_diagnostics {S} _.
#[export] Instance Reporter_fields {S} : Fields (Reporter S) := λ r,
  {| rp_attempts := rp_attempts r; rp_sessionFailures := rp_sessionFailures r;
     rp_sessionFailuresOmitted := rp_sessionFailuresOmitted r; rp_globalSetup := rp_globalSetup r;
     rp_globalTeardown := rp_globalTeardown r; rp_session := rp_session r; rp_ended := rp_ended r;
     rp_config := rp_config r; rp_rootDir := rp_rootDir r; rp_roots := rp_roots r;
     rp_runnerModules := rp_runnerModules r; rp_filesWithAttempts := rp_filesWithAttempts r;
     rp_diagnostics := rp_diagnostics r |}.

(** A fresh reporter. *)
Definition new_reporter {S} : Reporter S :=
  {| rp_attempts := []; rp_sessionFailures := []; rp_sessionFailuresOmitted := 0; rp_globalSetup := None;
     rp_globalTeardown := None; rp_session := None; rp_ended := None; rp_config := None; rp_rootDir := [];
     rp_roots := {| ro_rootDir := []; ro_all := [] |}; rp_runnerModules := []; rp_filesWithAttempts := [];
     rp_diagnostics := new_diagnostics |}.

(** What the reporter is built with: its options, its environment, and what it imports that is not its own. *)
Record Hooks (S : Type) := {
  hk_options : option ReporterOptions;
  hk_env : str → option str;
  hk_cwd : str;
  hk_path : NodePath;
  hk_sha256_utf8 : str → str;
  hk_uuid : str;
  hk_process : str;
  hk_to_number : str → number;
  hk_number_text : number → str;
  hk_node_version : str;
  hk_describe : Thrown → str;
  hk_openSink : str → str → option Z → res Thrown S;
  hk_ids : nat → str;
  hk_clock : nat → str;
  hk_redactText : str → str;
  hk_utf8_decode : bytes → str;
  hk_utf8_encode : str → bytes;
}.
Arguments hk_options {S} _. Arguments hk_env {S} _ _. Arguments hk_cwd {S} _. Arguments hk_path {S} _.
Arguments hk_sha256_utf8 {S} _ _. Arguments hk_uuid {S} _. Arguments hk_process {S} _.
Arguments hk_to_number {S} _ _. Arguments hk_number_text {S} _ _. Arguments hk_node_version {S} _.
Arguments hk_describe {S} _ _. Arguments hk_openSink {S} _ _ _ _. Arguments hk_ids {S} _ _.
Arguments hk_clock {S} _ _. Arguments hk_redactText {S} _ _. Arguments hk_utf8_decode {S} _ _.
Arguments hk_utf8_encode {S} _ _.

(** [attemptId] *)
Definition attemptId (test : PwTest) (result : PwResult) : str := wt_id test ++ js "-" ++ dec (wr_retry result + 1).

(** [stepPhase] *)
Definition stepPhase (step : PwStep) (parentPhase : option FailurePhase) : FailurePhase :=
  match parentPhase with
  | Some phase => phase
  | None =>
      if bool_decide (is_Some (ps_parent step)) then PhTest
      else if str_eqb (ps_category step) (js "hook") then
        if str_eqb (ps_title step) (js "Before Hooks") then PhSetup
        else if str_eqb (ps_title step) (js "After Hooks") || str_eqb (ps_title step) (js "Worker Cleanup")
        then PhTeardown else PhTest
      else PhTest
  end.

Section reporter.
Context {S : Type} `{Sink S} (hk : Hooks S).

(** The body of a callback: it may throw, with the state it has reached. *)
Abbreviation body := (io (Reporter S) Thrown).

Definition read_ {A} (f : Reporter S → A) : body A := λ r, (Ok (f r), r).
Definition modify (f : Reporter S → Reporter S) : body unit := io_do f.

(** [this.diagnostics.once(key, message)] *)
Definition diagnose (key message : str) (r : Reporter S) : Reporter S :=
  r <| rp_diagnostics ::= once (hk_redactText hk) key message |>.
Definition say (key message : str) : body unit := modify (diagnose key message).

(** [ReportProblemKind], as text. *)
Definition problem_text (k : ReportProblemKind) : str :=
  match k with
  | EVENT_TOO_LARGE => js "EVENT_TOO_LARGE" | ATTACHMENT_TOO_LARGE => js "ATTACHMENT_TOO_LARGE"
  | SINK_FAILURE => js "SINK_FAILURE" | SESSION_FINISHED => js "SESSION_FINISHED" | RUN_FINISHED => js "RUN_FINISHED"
  | INVALID_PAYLOAD => js "INVALID_PAYLOAD" | TERMINAL_OUTCOME_NOT_WRITTEN => js "TERMINAL_OUTCOME_NOT_WRITTEN"
  end.

(** [problem] *)
Definition report_problem (p : ReportProblem) (r : Reporter S) : Reporter S :=
  let cause := match pb_cause p with Some e => js ": " ++ hk_describe hk e | None => [] end in
  diagnose (js "sdk:" ++ problem_text (pb_kind p) ++ js ":" ++ pb_message p)
           (problem_text (pb_kind p) ++ js ": " ++ pb_message p ++ cause) r.

(** The problems a call of the session reported, handed to [problem] as they came. *)
Definition report_problems (before after : ReportSession S) (r : Reporter S) : Reporter S :=
  foldl (λ r p, report_problem p r) r (drop (length (problems before)) (problems after)).

(** A call of a method of the session; [d] without one, which no callback comes to. *)
Definition on_session {A} (d : A) (m : SessionConfig → ReportSession S → outcome A) : body A := λ r,
  match rp_session r with
  | None => (Ok d, r)
  | Some (cfg, s) =>
      let '(result, s') := m cfg s in
      let r := report_problems s s' (r <| rp_session := Some (cfg, s') |>) in
      (match result with Ok a => Ok a | Throw e => Throw (ThrownByCodec e) end, r)
  end.

(** [session.emit(...)], its result unused. *)
Definition emit_event (p : Payload) : body unit := _ ← on_session false (λ cfg, emit cfg p); mret tt.

(** [guard] *)
Definition guard (callback : str) (m : body unit) (r : Reporter S) : Reporter S :=
  match m r with
  | (Ok _, r) => r
  | (Throw e, r) =>
      diagnose (js "internal:" ++ callback)
        (js "internal error in " ++ callback ++ js ", reporting of the affected event skipped: " ++ hk_describe hk e) r
  end.

Definition forM_ {A} (l : list A) (f : A → body unit) : body unit :=
  foldr (λ x m, f x ;; m) (mret tt) l.

(** [if (!session) return;] *)
Definition with_session (m : body unit) : body unit :=
  s ← read_ rp_session; match s with Some _ => m | None => mret tt end.

Definition has_session (r : Reporter S) : bool := bool_decide (is_Some (rp_session r)).

Definition source_location (rootDir : str) (loc : option PwLocation) : option Location :=
  location (np_relative (hk_path hk)) (np_sep (hk_path hk)) rootDir loc.
Definition failure_of (error : PwError) (phase : option FailurePhase) : body Failure :=
  read_ (λ r, failure (np_relative (hk_path hk)) (np_sep (hk_path hk)) error (rp_roots r) phase).

(** ** onBegin *)

Definition session_config (cfg : ResolvedConfig) : SessionConfig :=
  {| cf_runId := rc_runId cfg; cf_sessionId := rc_sessionId cfg; cf_maxEventBytes := maxEventBytes_limit;
     cf_ids := hk_ids hk; cf_clock := hk_clock hk; cf_redactText := hk_redactText hk;
     cf_utf8_decode := hk_utf8_decode hk; cf_utf8_encode := hk_utf8_encode hk |}.

(** What the session starts with. *)
Definition started_payload (config : FullConfig) : SessionStartedPayload :=
  {| ss_producer := {| c_name := PRODUCER_NAME; c_version := Some VERSION |};
     ss_runner := Some {| c_name := RUNNER_NAME; c_version := Some (fc_version config) |};
     ss_environment := Some [(js "node.version", hk_node_version hk)];
     ss_executor := None; ss_source := None;
     ss_labels := Some ((js "playwright.workers", dec (fc_workers config)) ::
       match fc_shard config with
       | Some (current, total) => [(js "playwright.shard", dec current ++ js "/" ++ dec total)] | None => [] end) |}.

(** Where sources live, and the modules of the global setup and teardown. *)
Definition set_roots (config : FullConfig) (r : Reporter S) : Reporter S :=
  let setup := np_resolve (hk_path hk) <$> fc_globalSetup config in
  let teardown := np_resolve (hk_path hk) <$> fc_globalTeardown config in
  r <| rp_rootDir := fc_rootDir config |> <| rp_globalSetup := setup |> <| rp_globalTeardown := teardown |>
    <| rp_runnerModules := omap id [setup; teardown] |>
    <| rp_roots := {| ro_rootDir := fc_rootDir config;
                      ro_all := fc_rootDir config ::
                        match fc_configFile config with Some f => [np_dirname (hk_path hk) f] | None => [] end
                        ++ [hk_cwd hk] |} |>.

(** [ReportSession.start] on the sink that was opened: the session is the reporter's only once it returned. *)
Definition start_session (cfg : ResolvedConfig) (config : FullConfig) : body unit := λ r,
  match hk_openSink hk (rc_runDirectory cfg) (rc_sessionId cfg) (rc_maxAttachmentBytes cfg) with
  | Throw e => (Throw e, r)
  | Ok k =>
      let '(result, s) := start (session_config cfg) (started_payload config) k in
      let r := report_problems (new_session k) s r in
      match result with
      | Ok _ => (Ok tt, r <| rp_session := Some (session_config cfg, s) |>)
      | Throw e => (Throw (ThrownByCodec e), r)
      end
  end.

(** [onBegin] *)
Definition onBegin_body (config : FullConfig) : body unit :=
  modify (set_roots config) ;;
  match resolveConfig (hk_path hk) (hk_sha256_utf8 hk) (hk_uuid hk) (hk_process hk) (hk_to_number hk)
          (hk_number_text hk) (hk_options hk)
          {| cx_env := hk_env hk; cx_cwd := hk_cwd hk; cx_shard := fc_shard config |} with
  | Throw e => throw (ThrownBySink (SinkFailed e))
  | Ok cfg =>
      forM_ (rc_notes cfg) (λ note, say (js "config:" ++ note) note) ;;
      if negb (rc_enabled cfg) then mret tt
      else
        started ← try_catch (start_session cfg config ;; mret true) (λ e,
          say (js "start-failed")
            (js "cannot open run directory " ++ rc_runDirectory cfg ++ js " for session " ++ rc_sessionId cfg ++ js ": "
              ++ hk_describe hk e ++ js "; this run is not reported") ;;
          mret false);
        if (started : bool) then
          modify (λ r, r <| rp_config := Some cfg |>) ;;
          say (js "started") (js "writing run " ++ rc_runId cfg ++ js " session " ++ rc_sessionId cfg ++ js " to " ++ rc_runDirectory cfg)
        else mret tt
  end.
Definition onBegin (config : FullConfig) : Reporter S → Reporter S := guard (js "onBegin") (onBegin_body config).

(** ** onTestBegin *)

(** One annotation, added to the labels. *)
Definition add_annotation (labels : jsmap str str) (a : PwAnnotation) : jsmap str str :=
  let key := labelKey (js "annotation." ++ wa_type a) in
  let value := default (wa_type a) (wa_description a) in
  match mget labels key with
  | Some existing => mset labels key (bounded (existing ++ js "; " ++ value) MAX_LABEL)
  | None => if (length labels <? MAX_LABELS)%nat then mset labels key (bounded value MAX_LABEL) else labels
  end.

Definition hierarchy_of (test : PwTest) (rootDir : str) : Hierarchy :=
  hierarchy (np_relative (hk_path hk)) (np_sep (hk_path hk)) (np_basename (hk_path hk)) test rootDir.

(** The test of an attempt. *)
Definition test_model (rootDir : str) (test : PwTest) (result : PwResult) : TestCase :=
  let h := hierarchy_of test rootDir in
  let tags := (λ t, bounded t MAX_TAG) <$> take MAX_TAGS (wt_tags test) in
  {| t_executionId := wt_id test;
     t_historicalId := Some (historicalId (hk_sha256_utf8 hk) h);
     t_historicalIdStability := Stable;
     t_displayName := bounded (if str_eqb (wt_title test) [] then js "untitled" else wt_title test) MAX_NAME;
     t_path := pathSegments h;
     t_location := source_location rootDir (Some (wt_location test));
     t_tags := match tags with [] => None | _ => Some tags end;
     t_labels := Some (foldl add_annotation [(js "playwright.workerIndex", dec (wr_workerIndex result))]
                         (wt_annotations test)) |}.

(** [onTestBegin] *)
Definition onTestBegin_body (test : PwTest) (result : PwResult) : body unit :=
  with_session (
    let id := attemptId test result in
    attempts ← read_ rp_attempts;
    if mhas attempts id then
      say (js "duplicate-attempt:" ++ id) (js "attempt " ++ id ++ js " started twice; ignored")
    else
      rootDir ← read_ rp_rootDir;
      modify (λ r, r <| rp_filesWithAttempts ::= λ l, sadd l (h_file (hierarchy_of test rootDir)) |>) ;;
      modify (λ r, r <| rp_attempts ::= λ m, mset m id
        {| oa_id := id; oa_steps := []; oa_stepCount := 0; oa_emitted := []; oa_stepErrorPhases := [] |} |>) ;;
      emit_event (AttemptStarted {| as_attemptId := id; as_attemptNumber := wr_retry result + 1;
                                    as_test := test_model rootDir test result |})).
Definition onTestBegin (test : PwTest) (result : PwResult) : Reporter S → Reporter S :=
  guard (js "onTestBegin") (onTestBegin_body test result).

(** ** Steps *)

(** Changing the open attempt of an id: the object is shared, so the map sees it. *)
Definition on_attempt (id : str) (f : OpenAttempt → OpenAttempt) : body unit :=
  modify (λ r, r <| rp_attempts ::= λ m, mupd m id f |>).

(** [onStepBegin] *)
Definition onStepBegin_body (test : PwTest) (result : PwResult) (step : PwStep) : body unit :=
  with_session (
    attempts ← read_ rp_attempts;
    match mget attempts (attemptId test result) with
    | None => mret tt
    | Some attempt =>
        let parent := ps_parent step ≫= mget (oa_steps attempt) in
        let phase := stepPhase step (parent ≫= os_phase) in
        let count := oa_stepCount attempt + 1 in
        let id := oa_id attempt ++ js "-s" ++ dec count in
        on_attempt (attemptId test result) (λ a,
          a <| oa_stepCount := count |> <| oa_steps ::= λ m, mset m (ps_ref step) {| os_id := id; os_phase := Some phase |} |>) ;;
        rootDir ← read_ rp_rootDir;
        emit_event (StepStarted
          {| st_stepId := id; st_attemptId := oa_id attempt; st_parentStepId := os_id <$> parent;
             st_name := bounded (if str_eqb (ps_title step) [] then ps_category step else ps_title step) MAX_NAME;
             st_kind := Some (bounded (if str_eqb (ps_category step) [] then js "step" else ps_category step) MAX_KIND);
             st_location := source_location rootDir (ps_location step) |})
    end).
Definition onStepBegin (test : PwTest) (result : PwResult) (step : PwStep) : Reporter S → Reporter S :=
  guard (js "onStepBegin") (onStepBegin_body test result step).

(** [attach] *)
Definition attach_one (attempt : str) (stepId : option str) (a : PwAttachment) : body unit :=
  let input := {| ai_attemptId := attempt; ai_stepId := stepId;
                  ai_name := bounded (if str_eqb (pa_name a) [] then js "attachment" else pa_name a) MAX_ATTACHMENT_NAME;
                  ai_mediaType := mediaType (pa_contentType a) |} in
  match pa_body a, pa_path a with
  | Some b, _ => _ ← on_session false (λ cfg, attach cfg input b); mret tt
  | None, Some file => _ ← on_session false (λ cfg, attachFileSync cfg input file); mret tt
  | None, None =>
      say (js "attachment-empty:" ++ attempt ++ js ":" ++ ai_name input)
        (js "attachment '" ++ ai_name input ++ js "' of attempt " ++ attempt ++ js " has neither body nor path; skipped")
  end.

(** The attachments of a step, those already emitted left out. *)
Definition attach_step (key : str) (attempt stepId : str) (a : PwAttachment) : body unit :=
  attempts ← read_ rp_attempts;
  let seen := match mget attempts key with Some oa => oa_emitted oa | None => [] end in
  if existsb (Z.eqb (pa_ref a)) seen then mret tt
  else
    on_attempt key (λ oa, oa <| oa_emitted ::= λ l, sadd l (pa_ref a) |>) ;;
    attach_one attempt (Some stepId) a.

(** [onStepEnd] *)
Definition onStepEnd_body (test : PwTest) (result : PwResult) (step : PwStep) : body unit :=
  with_session (
    let key := attemptId test result in
    attempts ← read_ rp_attempts;
    match mget attempts key with
    | None => mret tt
    | Some attempt =>
        match mget (oa_steps attempt) (ps_ref step) with
        | None =>
            say (js "step-without-start:" ++ oa_id attempt)
              (js "a step of attempt " ++ oa_id attempt ++ js " ended without a start; ignored")
        | Some open_ =>
            on_attempt key (λ oa, oa <| oa_steps ::= List.filter (λ kv, negb (kv.1 =? ps_ref step)) |>) ;;
            forM_ (ps_attachments step) (attach_step key (oa_id attempt) (os_id open_)) ;;
            failures ← match ps_error step with
              | None => mret None
              | Some error =>
                  on_attempt key (λ oa, oa <| oa_stepErrorPhases ::= λ m, mset m (errorKey error) (os_phase open_) |>) ;;
                  f ← failure_of error (os_phase open_);
                  mret (Some [f])
              end;
            emit_event (StepFinished
              {| sp_stepId := os_id open_; sp_attemptId := oa_id attempt;
                 sp_status := match ps_error step with None => StPassed | Some _ => StFailed end;
                 sp_rawStatus := None; sp_durationMs := Some (whole_millis (ps_duration step)); sp_failures := failures |})
        end
    end).
Definition onStepEnd (test : PwTest) (result : PwResult) (step : PwStep) : Reporter S → Reporter S :=
  guard (js "onStepEnd") (onStepEnd_body test result step).

(** [closeOpenSteps]; clearing the steps of an attempt that has left the map is seen by nobody. *)
Definition closeOpenSteps (attempt : OpenAttempt) : body unit :=
  match oa_steps attempt with
  | [] => mret tt
  | _ =>
      say (js "open-steps:" ++ oa_id attempt)
        (dec (Z.of_nat (length (oa_steps attempt))) ++ js " step(s) of attempt " ++ oa_id attempt
          ++ js " never ended; closed as inconclusive") ;;
      forM_ (mvalues (oa_steps attempt)) (λ open_,
        emit_event (StepFinished
          {| sp_stepId := os_id open_; sp_attemptId := oa_id attempt; sp_status := StInconclusive;
             sp_rawStatus := Some (js "unfinished"); sp_durationMs := None; sp_failures := None |})) ;;
      on_attempt (oa_id attempt) (λ oa, oa <| oa_steps := [] |>)
  end.

(** ** onTestEnd *)

(** The errors of a result, as recorded. *)
Definition result_failures (roots : Roots) (phases : jsmap str (option FailurePhase)) (errors : list PwError) : list Failure :=
  withinBudget ((λ e, failure (np_relative (hk_path hk)) (np_sep (hk_path hk)) e roots
                        (mget phases (errorKey e) ≫= id)) <$> take MAX_FAILURES errors).

Definition some_list {A} (l : list A) : option (list A) := match l with [] => None | _ => Some l end.

(** [onTestEnd] *)
Definition onTestEnd_body (test : PwTest) (result : PwResult) : body unit :=
  with_session (
    let id := attemptId test result in
    attempts ← read_ rp_attempts;
    match mget attempts id with
    | None => say (js "finish-without-start:" ++ id) (js "attempt " ++ id ++ js " ended without a start")
    | Some attempt =>
        modify (λ r, r <| rp_attempts ::= List.filter (λ kv, negb (str_eqb kv.1 id)) |>) ;;
        closeOpenSteps attempt ;;
        forM_ (wr_attachments result) (λ a,
          if existsb (Z.eqb (pa_ref a)) (oa_emitted attempt) then mret tt else attach_one (oa_id attempt) None a) ;;
        (if (MAX_FAILURES <? length (wr_errors result))%nat then
           say (js "failures-omitted:" ++ id)
             (js "attempt " ++ id ++ js " has " ++ dec (Z.of_nat (length (wr_errors result)))
               ++ js " errors; only the first " ++ dec (Z.of_nat MAX_FAILURES) ++ js " are recorded")
         else mret tt) ;;
        roots ← read_ rp_roots;
        let failures := result_failures roots (oa_stepErrorPhases attempt) (wr_errors result) in
        (if bool_decide (status (wr_status result) = None) then
           say (js "status:" ++ wr_status result)
             (js "result status '" ++ wr_status result ++ js "' is unknown to this reporter; recorded as inconclusive")
         else mret tt) ;;
        let expected := expectedStatus (wt_expectedStatus test) in
        (if bool_decide (expected = None) then
           say (js "expected-status:" ++ wt_expectedStatus test)
             (js "expected status '" ++ wt_expectedStatus test ++ js "' has no protocol representation; omitted")
         else mret tt) ;;
        emit_event (AttemptFinished
          {| af_attemptId := oa_id attempt; af_status := default StInconclusive (status (wr_status result));
             af_rawStatus := Some (wr_status result); af_expectedStatus := expected;
             af_durationMs := Some (whole_millis (wr_duration result)); af_failures := some_list failures |})
    end).
Definition onTestEnd (test : PwTest) (result : PwResult) : Reporter S → Reporter S :=
  guard (js "onTestEnd") (onTestEnd_body test result).

(** ** onError *)

(** [invocationPhase] *)
Definition invocationPhase (error : PwError) (r : Reporter S) : option FailurePhase :=
  match we_location error with
  | None => None
  | Some loc =>
      let file := Some (np_resolve (hk_path hk) (wl_file loc)) in
      if bool_decide (file = rp_globalSetup r) then Some PhSetup
      else if bool_decide (file = rp_globalTeardown r) then Some PhTeardown
      else None
  end.

(** [fileScopeOf] *)
Definition fileScopeOf (error : PwError) (r : Reporter S) : option str :=
  match we_location error with
  | None => None
  | Some loc =>
      if existsb (λ m, str_eqb (np_resolve (hk_path hk) m) (np_resolve (hk_path hk) (wl_file loc))) (rp_runnerModules r)
      then None
      else l_file <$> source_location (rp_rootDir r) (Some loc)
  end.

(** [f.message.split(newline, 1)[0]] *)
Definition first_line (message : str) : str := (span (λ u, negb (u =? 10)%N) message).1.

Definition with_phase (f : Failure) (phase : FailurePhase) : Failure :=
  {| f_message := f_message f; f_type := f_type f; f_stackTrace := f_stackTrace f; f_phase := Some phase;
     f_location := f_location f |}.

(** The invocation's failures, up to the limit. *)
Definition keep_session_failure (f : Failure) (phase : FailurePhase) : body unit :=
  kept ← read_ rp_sessionFailures;
  if (length kept <? MAX_FAILURES)%nat then
    modify (λ r, r <| rp_sessionFailures ::= λ l, l ++ [with_phase f phase] |>)
  else
    modify (λ r, r <| rp_sessionFailuresOmitted ::= Z.succ |>) ;;
    omitted ← read_ rp_sessionFailuresOmitted;
    say (js "session-failures-omitted")
      (js "more than " ++ dec (Z.of_nat MAX_FAILURES) ++ js " invocation-level errors; " ++ dec omitted ++ js " not recorded").

(** [onError] *)
Definition onError_body (error : PwError) : body unit :=
  f ← failure_of error None;
  file ← read_ (fileScopeOf error);
  session ← read_ has_session;
  phase ← read_ (invocationPhase error);
  match (if (session : bool) then file else None) with
  | Some file =>
      files ← read_ rp_filesWithAttempts;
      let prevented := negb (existsb (str_eqb file) files) in
      emit_event (ScopeFailed
        {| sc_path := [{| p_kind := js "file"; p_name := bounded file MAX_NAME |}];
           sc_displayName := Some (bounded file MAX_NAME); sc_rawStatus := None; sc_location := f_location f;
           sc_failures := [if prevented then with_phase f PhSetup else f] |}) ;;
      say (js "file-error:" ++ errorKey error)
        (js "error in test file " ++ file ++ js " outside any test, recorded as a scope failure: " ++ first_line (f_message f))
  | None =>
      match phase with
      | Some phase =>
          keep_session_failure f phase ;;
          say (js "invocation-error:" ++ errorKey error)
            (js "error in the global " ++ phase_text phase ++ js " module, recorded on session.finished: " ++ first_line (f_message f))
      | None =>
          say (js "global-error:" ++ errorKey error)
            (js "error outside any test attempt and any test file is not recorded: " ++ first_line (f_message f))
      end
  end.
Definition onError (error : PwError) : Reporter S → Reporter S := guard (js "onError") (onError_body error).

(** ** onEnd *)

Definition empty_outcome : SessionFinishedPayload := {| sf_status := None; sf_rawStatus := None; sf_failures := None |}.

(** [outcome] *)
Definition outcome_of (raw : str) : body SessionFinishedPayload :=
  match sessionStatus raw with
  | None =>
      say (js "run-status:" ++ raw) (js "run status '" ++ raw ++ js "' is unknown to this reporter; no session outcome recorded") ;;
      mret empty_outcome
  | Some status =>
      kept ← read_ rp_sessionFailures;
      let passed := bool_decide (status = SePassed) in
      let failures := if passed then [] else withinBudget kept in
      (if passed && (0 <? length kept)%nat then
         say (js "passed-with-errors")
           (dec (Z.of_nat (length kept)) ++ js " invocation-level error(s) reported although the run passed; not recorded")
       else mret tt) ;;
      mret {| sf_status := Some status; sf_rawStatus := Some raw; sf_failures := some_list failures |}
  end.

(** An attempt that never finished. *)
Definition abandon (attempt : OpenAttempt) : body unit :=
  closeOpenSteps attempt ;;
  emit_event (AttemptFinished
    {| af_attemptId := oa_id attempt; af_status := StInconclusive; af_rawStatus := Some (js "unfinished");
       af_expectedStatus := None; af_durationMs := None; af_failures := None |}).

(** The guarded part of [onEnd]. *)
Definition onEnd_body (raw : str) : body unit :=
  with_session (
    config ← read_ rp_config;
    match config with
    | None => mret tt
    | Some cfg =>
        attempts ← read_ rp_attempts;
        match attempts with
        | [] => mret tt
        | _ =>
            say (js "open-at-end")
              (dec (Z.of_nat (length attempts)) ++ js " attempt(s) never finished before the run ended; closed as inconclusive") ;;
            forM_ (mvalues attempts) abandon ;;
            modify (λ r, r <| rp_attempts := [] |>)
        end ;;
        o ← outcome_of raw;
        finished ← on_session false (λ scfg, finish scfg o);
        (if (finished : bool) && rc_runIdGenerated cfg then _ ← on_session false finishRun; mret tt else mret tt) ;;
        on_session tt close ;;
        modify (λ r, r <| rp_ended := match rp_session r with Some x => Some x | None => rp_ended r end |> <| rp_session := None |>)
    end).
Definition onEnd_close (raw : str) : Reporter S → Reporter S := guard (js "onEnd") (onEnd_body raw).

(** ** The upload *)

(** What the uploader is built with, and asked to deliver. *)
Record UploaderOptions := {
  up_baseUrl : str; up_apiKey : str; up_maxAttempts : option Z; up_attemptTimeoutMs : option Z;
  up_allowInsecureHttp : bool; up_runDirectory : str; up_expiresAt : Date;
}.

(** [expiryOf]; the clock is read when a retention is relative. An exception of [expiryAfter] is not caught. *)
Definition expiryOf (now : Date) (cfg : ResolvedConfig) : io (Reporter S) str (option Date) :=
  match ru_expiresAt (rc_upload cfg), ru_retentionMs (rc_upload cfg) with
  | Some at_, _ => mret (Some at_)
  | None, Some retentionMs =>
      match expiryAfter (Int retentionMs) (Some now) with Ok at_ => mret (Some at_) | Throw e => throw e end
  | None, None =>
      io_do (diagnose (js "upload-no-retention")
        (js "automatic upload skipped: no retention was configured; set expiresAt or retentionMs (QE_REPORT_EXPIRES_AT or QE_REPORT_RETENTION_MS), because a run is never archived without an expiry")) ;;
      mret None
  end.

(** [uploadRun], up to the uploader: what it is asked to deliver, if anything. *)
Definition plan_upload (now : Date) (config : option ResolvedConfig) : io (Reporter S) str (option UploaderOptions) :=
  match config with
  | None => mret None
  | Some cfg =>
      if negb (rc_enabled cfg) || negb (ru_enabled (rc_upload cfg)) then mret None
      else if negb (rc_runIdGenerated cfg) then
        io_do (diagnose (js "upload-shared-run")
          (js "automatic upload skipped: this run id is shared or configured, so another shard or process may still add to the run; upload the run directory from the coordinator once every one of them has finished (qe-report-upload --run-dir "
            ++ rc_runDirectory cfg ++ js ")")) ;;
        mret None
      else
        match hk_env hk (js "QE_REPORT_API_KEY") with
        | None | Some [] =>
            io_do (diagnose (js "upload-no-key")
              (js "automatic upload skipped: QE_REPORT_API_KEY is not set, and a key is never taken from the configuration file")) ;;
            mret None
        | Some apiKey =>
            match ru_baseUrl (rc_upload cfg) with
            | None =>
                io_do (diagnose (js "upload-no-url")
                  (js "automatic upload skipped: no service was configured; set QE_REPORT_URL or the reporter option baseUrl")) ;;
                mret None
            | Some baseUrl =>
                expiresAt ← expiryOf now cfg;
                mret ((λ at_, {| up_baseUrl := baseUrl; up_apiKey := apiKey;
                                up_maxAttempts := ru_maxAttempts (rc_upload cfg);
                                up_attemptTimeoutMs := ru_attemptTimeoutMs (rc_upload cfg);
                                up_allowInsecureHttp := ru_allowInsecureHttp (rc_upload cfg);
                                up_runDirectory := rc_runDirectory cfg; up_expiresAt := at_ |}) <$> expiresAt)
            end
        end
  end.

(** [uploadRun], with an uploader that gives the outcome and the run's id or throws a message. *)
Definition uploadRun (upload : UploaderOptions → res str (str * str)) (now : Date) (config : option ResolvedConfig)
    : io (Reporter S) str unit :=
  plan ← plan_upload now config;
  match plan with
  | None => mret tt
  | Some options =>
      match upload options with
      | Ok (outcome, runId) => io_do (diagnose (js "upload") (js "run " ++ runId ++ js " uploaded (" ++ outcome ++ js ")"))
      | Throw e =>
          io_do (diagnose (js "upload-failed")
            (js "the run was not uploaded: " ++ e ++ js "; the run directory is kept at " ++ up_runDirectory options))
      end
  end.

(** [onEnd]: the configuration is read first; what [uploadRun] throws reaches Playwright. *)
Definition onEnd (upload : UploaderOptions → res str (str * str)) (now : Date) (raw : str) : io (Reporter S) str unit := λ r,
  let config := rp_config r in uploadRun upload now config (onEnd_close raw r).

(** ** A run *)

(** What Playwright calls between the beginning and the end. *)
Inductive Callback :=
| OnTestBegin (test : PwTest) (result : PwResult)
| OnStepBegin (test : PwTest) (result : PwResult) (step : PwStep)
| OnStepEnd (test : PwTest) (result : PwResult) (step : PwStep)
| OnTestEnd (test : PwTest) (result : PwResult)
| OnError (error : PwError).

Definition callback (c : Callback) : Reporter S → Reporter S :=
  match c with
  | OnTestBegin t r => onTestBegin t r
  | OnStepBegin t r s => onStepBegin t r s
  | OnStepEnd t r s => onStepEnd t r s
  | OnTestEnd t r => onTestEnd t r
  | OnError e => onError e
  end.

Definition callbacks (l : list Callback) (r : Reporter S) : Reporter S := foldl (λ r c, callback c r) r l.
End reporter.
