(* ===== verification/PwTrack.v ===== *)
(** * What the reporter remembers, and the history

    The reporter keeps, per open attempt, its id, its open steps and how many
    steps it has had. [track] relates that memory to the events written so far;
    each event the reporter may write is allowed by the lifecycle, and leaves the
    relation with the memory the reporter then has. *)

From S2P Require Import Prelude JsString JsBytes JsMap JsSort Json Model Codec CodecProps History Redactor PwReporter.

Local Open Scope Z_scope.

(** ** What is remembered *)

Record Core := { co_id : str; co_steps : jsmap Z OpenStep; co_count : Z }.
Definition core (oa : OpenAttempt) : Core :=
  {| co_id := oa_id oa; co_steps := oa_steps oa; co_count := oa_stepCount oa |}.
Definition cores (m : jsmap str OpenAttempt) : jsmap str Core := (λ kv, (kv.1, core kv.2)) <$> m.

Lemma cores_get m id : mget (cores m) id = core <$> mget m id.
Proof. induction m as [|[k v] m IH]; [done|]. unfold cores in *. csimpl. rewrite IH. by destruct (decide _). Qed.

Lemma cores_keys m : mkeys (cores m) = mkeys m.
Proof. unfold mkeys, cores. rewrite <-list_fmap_compose. by apply list_fmap_ext. Qed.

Lemma cores_set m id oa : cores (mset m id oa) = mset (cores m) id (core oa).
Proof.
  induction m as [|[k v] m IH]; [done|]. unfold cores in *. csimpl. destruct (decide (id = k)); csimpl; [done|]. by rewrite IH.
Qed.

Lemma mset_same {V} (m : jsmap str V) k v : mget m k = Some v → mset m k v = m.
Proof.
  induction m as [|[a x] m IH]; simpl; [done|]. repeat case_decide; try congruence.
  intros Hm. by rewrite IH.
Qed.

Lemma mset_mset {V} (m : jsmap str V) k v w : mset (mset m k v) k w = mset m k w.
Proof. induction m as [|[a x] m IH]; simpl; [by rewrite decide_True|]. case_decide; simpl; [by rewrite decide_True|]. rewrite decide_False by done. by rewrite IH. Qed.

Lemma cores_upd_core m id f g : (∀ oa, core (f oa) = g (core oa)) → cores (mupd m id f) = mupd (cores m) id g.
Proof. intros Hf. unfold mupd. rewrite cores_get. destruct (mget m id); simpl; [by rewrite cores_set, Hf|done]. Qed.

Lemma cores_upd m id f : (∀ oa, core (f oa) = core oa) → cores (mupd m id f) = cores m.
Proof.
  intros Hf. rewrite (cores_upd_core m id f (λ c, c)) by done. unfold mupd.
  destruct (mget (cores m) id) eqn:E; [by apply mset_same|done].
Qed.

Lemma cores_delete m id :
  cores (List.filter (λ kv, negb (str_eqb kv.1 id)) m) = List.filter (λ kv, negb (str_eqb kv.1 id)) (cores m).
Proof.
  induction m as [|[k v] m IH]; [done|]. unfold cores in *. csimpl. destruct (str_eqb k id); csimpl; [done|by rewrite IH].
Qed.

(** Deleting a key. *)
Section delete.
Context {K V : Type} (eqb : K → K → bool) (Heqb : ∀ a b, eqb a b = true ↔ a = b) `{EqDecision K}.
Implicit Types m : jsmap K V.
Definition mdelete (k : K) m : jsmap K V := List.filter (λ kv, negb (eqb kv.1 k)) m.

Lemma mget_mdelete k k' m : mget (mdelete k m) k' = if decide (k' = k) then None else mget m k'.
Proof using Heqb.
  induction m as [|[a v] m IH]; [simpl; by case_decide|]. unfold mdelete in *. cbn [List.filter fst].
  destruct (eqb a k) eqn:E; cbn [negb mget fst snd]; [apply Heqb in E as ->|
    assert (a ≠ k) by (intros ->; by rewrite (proj2 (Heqb k k) eq_refl) in E)];
    rewrite IH; repeat case_decide; congruence.
Qed.

Lemma mdelete_keys k m x : x ∈ mkeys (mdelete k m) → x ∈ mkeys m ∧ x ≠ k.
Proof using Heqb.
  unfold mkeys, mdelete. intros ([a v] & -> & Hin)%list_elem_of_fmap. apply list_elem_of_In, filter_In in Hin as [Hin Hk].
  split; [apply list_elem_of_fmap; exists (a, v); split; [done|by apply list_elem_of_In]|].
  simpl in *. intros ->. by rewrite (proj2 (Heqb k k) eq_refl) in Hk.
Qed.

Lemma mdelete_sublist k m : sublist (mdelete k m) m.
Proof using. induction m as [|[a v] m IH]; [done|]. unfold mdelete in *. simpl. destruct (negb _); by constructor. Qed.

Lemma mdelete_NoDup k m : NoDup (mkeys m) → NoDup (mkeys (mdelete k m)).
Proof using. intros Hn. eapply sublist_NoDup; [exact Hn|]. apply fmap_sublist, mdelete_sublist. Qed.

Lemma mdelete_values_NoDup {B} (f : V → B) k m : NoDup (f <$> mvalues m) → NoDup (f <$> mvalues (mdelete k m)).
Proof using. intros Hn. eapply sublist_NoDup; [exact Hn|]. apply fmap_sublist, fmap_sublist, mdelete_sublist. Qed.

Lemma mdelete_new k m : k ∉ mkeys m → mdelete k m = m.
Proof using Heqb.
  induction m as [|[a x] m IH]; [done|]. unfold mkeys, mdelete in *. csimpl. rewrite not_elem_of_cons. intros [Hne Hn].
  destruct (eqb a k) eqn:E; [apply Heqb in E; congruence|]. csimpl. by rewrite IH.
Qed.

Lemma mdelete_head k v m : NoDup (mkeys ((k, v) :: m)) → mdelete k ((k, v) :: m) = m.
Proof using Heqb.
  unfold mkeys. csimpl. intros [Hn _]%NoDup_cons. unfold mdelete. cbn [List.filter fst]. rewrite (proj2 (Heqb k k) eq_refl).
  by apply mdelete_new.
Qed.

Lemma mdelete_mset k v m : mdelete k (mset m k v) = mdelete k m.
Proof using Heqb.
  unfold mdelete. induction m as [|[a x] m IH]; cbn [mset List.filter fst]; [by rewrite (proj2 (Heqb k k) eq_refl)|].
  case_decide as Ha; cbn [List.filter fst]; [subst a; by rewrite (proj2 (Heqb k k) eq_refl)|by rewrite IH].
Qed.

(** A value that occurs once is gone with its key. *)
Lemma mdelete_value {B} (f : V → B) k v m :
  NoDup (mkeys m) → NoDup (f <$> mvalues m) → mget m k = Some v → f v ∉ f <$> mvalues (mdelete k m).
Proof using Heqb.
  induction m as [|[a x] m IH]; intros Hk Hf Hm; [done|]. unfold mdelete, mkeys, mvalues in *. csimpl in *.
  apply NoDup_cons in Hk as [Hk1 Hk2]. apply NoDup_cons in Hf as [Hf1 Hf2].
  case_decide as Ha.
  - subst a. injection Hm as ->. rewrite (proj2 (Heqb k k) eq_refl). csimpl.
    intros Hin. apply Hf1. eapply elem_of_sublist; [exact Hin|]. apply fmap_sublist, fmap_sublist, mdelete_sublist.
  - destruct (eqb a k) eqn:E; [apply Heqb in E; congruence|]. csimpl. rewrite not_elem_of_cons. split; [|by apply IH].
    intros E'. apply Hf1. rewrite <-E'. apply list_elem_of_fmap. exists v. split; [done|].
    apply mget_elem in Hm. apply list_elem_of_fmap. by exists (k, v).
Qed.
End delete.

(** ** What an event says, redacted or not *)

Definition said (p q : Payload) : Prop := ∃ redactText, q = norm_payload (redact_payload redactText p).

Section said.
Context (p q : Payload) (env : Envelope) (Hq : said p q).
Abbreviation e := (Known {| e_env := env; e_payload := q |}).
Abbreviation e0 := (Known {| e_env := env; e_payload := p |}).

Lemma said_rule h : payload_rule h env q ↔ payload_rule h env p.
Proof using Hq. destruct Hq as [rt ->]. by destruct p. Qed.

End said.

(** What a payload begins or ends. *)
Definition begins_attempt (p : Payload) : option str := match p with AttemptStarted p => Some (as_attemptId p) | _ => None end.
Definition ends_attempt (p : Payload) : option str := match p with AttemptFinished p => Some (af_attemptId p) | _ => None end.
Definition begins_step (p : Payload) : option (str * str) :=
  match p with StepStarted p => Some (st_attemptId p, st_stepId p) | _ => None end.
Definition ends_step (p : Payload) : option (str * str) :=
  match p with StepFinished p => Some (sp_attemptId p, sp_stepId p) | _ => None end.

Lemma is_Some_if {A} (b : bool) (x : A) : is_Some (if b then Some x else None) ↔ b = true.
Proof. destruct b; split; try done; intros []; done. Qed.

(** One event later: what has begun and ended. *)
Section snoc.
Context (h : history) (env : Envelope) (p q : Payload) (Hq : said p q).
Abbreviation e := (Known {| e_env := env; e_payload := q |}).

Lemma later_att_started id : is_Some (att_started (h ++ [e]) id) ↔ is_Some (att_started h id) ∨ begins_attempt p = Some id.
Proof.
  rewrite att_started_snoc, or_else_is_Some. f_equiv. destruct Hq as [rt ->].
  destruct p; simpl; try (split; [by intros []|done]). rewrite is_Some_if, str_eqb_eq. split; congruence.
Qed.
Lemma later_att_finished id : is_Some (att_finished (h ++ [e]) id) ↔ is_Some (att_finished h id) ∨ ends_attempt p = Some id.
Proof.
  rewrite att_finished_snoc, or_else_is_Some. f_equiv. destruct Hq as [rt ->].
  destruct p; simpl; try (split; [by intros []|done]). rewrite is_Some_if, str_eqb_eq. split; congruence.
Qed.
Lemma later_step_started aid sid :
  is_Some (step_started (h ++ [e]) aid sid) ↔ is_Some (step_started h aid sid) ∨ begins_step p = Some (aid, sid).
Proof.
  rewrite step_started_snoc, or_else_is_Some. f_equiv. destruct Hq as [rt ->].
  destruct p; simpl; try (split; [by intros []|done]). rewrite is_Some_if, andb_true_iff, !str_eqb_eq. split; [by intros [-> ->]|by intros [= -> ->]].
Qed.
Lemma later_step_finished aid sid :
  is_Some (step_finished (h ++ [e]) aid sid) ↔ is_Some (step_finished h aid sid) ∨ ends_step p = Some (aid, sid).
Proof.
  rewrite step_finished_snoc, or_else_is_Some. f_equiv. destruct Hq as [rt ->].
  destruct p; simpl; try (split; [by intros []|done]). rewrite is_Some_if, andb_true_iff, !str_eqb_eq. split; [by intros [-> ->]|by intros [= -> ->]].
Qed.
Lemma later_open id : open_attempt (h ++ [e]) id ↔
  (is_Some (att_started h id) ∨ begins_attempt p = Some id) ∧ att_finished h id = None ∧ ends_attempt p ≠ Some id.
Proof.
  unfold open_attempt. rewrite later_att_started, !eq_None_not_Some, later_att_finished. tauto.
Qed.
Lemma later_step_unfinished aid sid :
  step_finished (h ++ [e]) aid sid = None ↔ step_finished h aid sid = None ∧ ends_step p ≠ Some (aid, sid).
Proof using Hq. rewrite !eq_None_not_Some, later_step_finished. tauto. Qed.
End snoc.

(** ** The relation *)

Definition stepName (id : str) (k : Z) : str := id ++ js "-s" ++ dec k.

Section track.
Context (identity : str → str).    (* the historical id of each test id *)

(** An open attempt, as remembered; [refs] are the step objects that have begun. *)
Record tracked (h : history) (refs : list (str * Z)) (id : str) (c : Core) : Prop := {
  tr_id : co_id c = id;
  tr_open : open_attempt h id;
  tr_count : 0 <= co_count c;
  tr_steps sid : is_Some (step_started h id sid) → ∃ k, 1 <= k <= co_count c ∧ sid = stepName id k;
  tr_finished sid : is_Some (step_started h id sid) →
    is_Some (step_finished h id sid) ∨ sid ∈ os_id <$> mvalues (co_steps c);
  tr_listed sid : sid ∈ os_id <$> mvalues (co_steps c) →
    is_Some (step_started h id sid) ∧ step_finished h id sid = None;
  tr_distinct : NoDup (os_id <$> mvalues (co_steps c));
  tr_keys : NoDup (mkeys (co_steps c));
  tr_refs ref : ref ∈ mkeys (co_steps c) → (id, ref) ∈ refs;
}.

(** What the reporter writes of a test. *)
Record test_facts (begun : list str) (p : AttemptStartedPayload) : Prop := {
  tf_begun : as_attemptId p ∈ begun;
  tf_id : as_attemptId p = t_executionId (as_test p) ++ js "-" ++ dec (as_attemptNumber p);
  tf_identity : t_historicalId (as_test p) = Some (identity (t_executionId (as_test p)));
  tf_stable : t_historicalIdStability (as_test p) = Stable;
}.

Record track (m : jsmap str Core) (begun : list str) (refs : list (str * Z)) (h : history) : Prop := {
  tk_keys : NoDup (mkeys m);
  tk_open id c : mget m id = Some c → tracked h refs id c;
  tk_closed id : open_attempt h id → is_Some (mget m id);
  tk_started env p : Known {| e_env := env; e_payload := AttemptStarted p |} ∈ h → test_facts begun p;
}.

(** An event that is about no attempt's start, end or steps. *)
Definition aside (p : Payload) : Prop :=
  match p with AttemptStarted _ | AttemptFinished _ | StepStarted _ | StepFinished _ => False | _ => True end.

Section later.
Context (h : history) (env : Envelope) (p q : Payload) (Hq : said p q) (Hv : valid_history h).
Abbreviation h' := (h ++ [Known {| e_env := env; e_payload := q |}]).

(** Of an attempt the event is not about, nothing changes. *)
Lemma tracked_other refs refs' id c :
  tracked h refs id c → refs ⊆ refs' → begins_attempt p ≠ Some id → ends_attempt p ≠ Some id →
  (∀ sid, begins_step p ≠ Some (id, sid)) → (∀ sid, ends_step p ≠ Some (id, sid)) → tracked h' refs' id c.
Proof.
  intros [] Hr H1 H2 H3 H4. split; try done.
  - apply (later_open _ _ _ _ Hq). destruct tr_open0. tauto.
  - intros sid. rewrite (later_step_started _ _ _ _ Hq). intros [?|?]; [auto|by destruct (H3 sid)].
  - intros sid. rewrite (later_step_started _ _ _ _ Hq), (later_step_finished _ _ _ _ Hq).
    intros [Hs|?]; [destruct (tr_finished0 sid Hs); auto|by destruct (H3 sid)].
  - intros sid Hin. rewrite (later_step_started _ _ _ _ Hq), (later_step_unfinished _ _ _ _ Hq).
    destruct (tr_listed0 sid Hin). split; [by left|]. split; [done|apply H4].
  - intros ref Hin. auto.
Qed.

(** The starts of a history one event longer. *)
Lemma started_later begun begun' :
  (∀ env p, Known {| e_env := env; e_payload := AttemptStarted p |} ∈ h → test_facts begun p) →
  begun ⊆ begun' → (∀ p0, p = AttemptStarted p0 → test_facts begun' p0) →
  ∀ env p, Known {| e_env := env; e_payload := AttemptStarted p |} ∈ h' → test_facts begun' p.
Proof.
  intros Hh Hb Hp env0 p0. rewrite elem_of_app, list_elem_of_singleton. intros [Hin|[= <- E]].
  - destruct (Hh _ _ Hin). split; auto.
  - destruct Hq as [rt ->]. destruct p; try done. injection E as ->. destruct (Hp _ eq_refl). by split.
Qed.

(** An event about no attempt's start, end or steps. *)
Lemma track_aside m begun refs refs' :
  aside p → refs ⊆ refs' → track m begun refs h → track m begun refs' h'.
Proof.
  intros Ha Hr [Hk Ho Hc Hs]. split; [done| | |].
  - intros id c Hm. eapply tracked_other; [by apply Ho|done|by destruct p..].
  - intros id Hop. apply Hc. apply (later_open _ _ _ _ Hq) in Hop as ([?|?] & ? & _); [done|by destruct p].
  - eapply started_later; [exact Hs|done|]. by intros p0 ->.
Qed.

End later.

(** An attempt begins. *)
Lemma track_attempt h env q m begun refs p0 :
  said (AttemptStarted p0) q → valid_history h → track m begun refs h → as_attemptId p0 ∉ begun →
  test_facts (as_attemptId p0 :: begun) p0 →
  track (mset m (as_attemptId p0) {| co_id := as_attemptId p0; co_steps := []; co_count := 0 |})
    (as_attemptId p0 :: begun) refs (h ++ [Known {| e_env := env; e_payload := q |}]).
Proof.
  intros Hq Hv [Hk Ho Hc Hs] Hn Hf. set (id0 := as_attemptId p0) in *.
  assert (¬ is_Some (att_started h id0)) as Hno.
  { intros [[env0 p1] Hp1]. pose proof (att_started_id _ _ _ _ Hp1) as Hid.
    apply find_map_Some in Hp1 as (e & He & Hst). destruct e as [[env1 []]|]; simpl in Hst; try done.
    case_match; simplify_eq. destruct (Hs _ _ He) as [Hb _]. by rewrite Hid in Hb. }
  split; [by apply mset_NoDup| | |].
  - intros id c. rewrite mget_mset. case_decide as Hid; [intros [= <-]; subst id|].
    + split; simpl; try done.
      * apply (later_open _ _ _ _ Hq). split; [by right|]. split; [|done].
        apply eq_None_not_Some. by intros ?%(valid_attempt_finished h id0 Hv).
      * intros sid. rewrite (later_step_started _ _ _ _ Hq). intros [Hst|[=]].
        by apply (valid_step_attempt h id0 sid Hv) in Hst.
      * intros sid. rewrite (later_step_started _ _ _ _ Hq). intros [Hst|[=]].
        by apply (valid_step_attempt h id0 sid Hv) in Hst.
      * set_solver.
      * constructor.
      * constructor.
      * set_solver.
    + intros Hm. eapply tracked_other; [exact Hq|by apply Ho|done|by intros [=]|done..].
  - intros id Hop. rewrite mget_mset. case_decide; [eauto|].
    apply Hc. by apply (later_open _ _ _ _ Hq) in Hop as ([?|[=]] & ? & _).
  - eapply started_later; [exact Hq|exact Hs|set_solver|]. by intros p1 [= <-].
Qed.

(** An attempt ends. *)
Lemma track_attempt_end h env q m begun refs p0 :
  said (AttemptFinished p0) q → track m begun refs h →
  track (mdelete str_eqb (af_attemptId p0) m) begun refs (h ++ [Known {| e_env := env; e_payload := q |}]).
Proof.
  intros Hq [Hk Ho Hc Hs]. set (id0 := af_attemptId p0) in *.
  split; [by apply mdelete_NoDup| | |].
  - intros id c. rewrite (mget_mdelete str_eqb str_eqb_eq). case_decide as Hid; [done|].
    intros Hm. eapply tracked_other; [exact Hq|by apply Ho|done|done|by intros [=]|done..].
  - intros id Hop. rewrite (mget_mdelete str_eqb str_eqb_eq). apply (later_open _ _ _ _ Hq) in Hop as ([?|[=]] & ? & He).
    rewrite decide_False by (intros ->; by apply He). by apply Hc.
  - by eapply started_later; [exact Hq|exact Hs|done|].
Qed.

(** A step begins, under an object that has not begun before. *)
Lemma track_step h env q m begun refs p0 c ref phase :
  let sid := stepName (co_id c) (co_count c + 1) in
  said (StepStarted p0) q → track m begun refs h →
  mget m (st_attemptId p0) = Some c → st_stepId p0 = sid → ((st_attemptId p0, ref) ∉ refs) →
  (¬ is_Some (step_finished h (st_attemptId p0) sid)) →
  track (mset m (st_attemptId p0)
           {| co_id := co_id c; co_steps := mset (co_steps c) ref {| os_id := sid; os_phase := phase |};
              co_count := co_count c + 1 |})
    begun ((st_attemptId p0, ref) :: refs) (h ++ [Known {| e_env := env; e_payload := q |}]).
Proof.
  intros sid Hq [Hk Ho Hc Hs] Hm Hsid Href Hnf. set (id0 := st_attemptId p0) in *.
  pose proof (Ho _ _ Hm) as Htr. destruct Htr as [Ti Top Tn Ts Tf Tl Td Tk Tr].
  assert (mget (co_steps c) ref = None) as Hnew.
  { apply mget_None. intros Hin. by apply Href, Tr. }
  rewrite (mset_new _ _ _ Hnew). unfold sid in *. rewrite Ti in *.
  split; [by apply mset_NoDup| | |].
  - intros id c'. rewrite mget_mset. case_decide as Hid; [intros [= <-]; subst id|].
    + split; simpl; try done; [| |..].
      * apply (later_open _ _ _ _ Hq). destruct Top. split_and!; [by left|done|done].
      * lia.
      * intros x. rewrite (later_step_started _ _ _ _ Hq). intros [Hst|[= Hx]].
        -- destruct (Ts x Hst) as (k & ? & ->). exists k. split; [lia|done].
        -- exists (co_count c + 1). split; [lia|congruence].
      * intros x. rewrite (later_step_started _ _ _ _ Hq), (later_step_finished _ _ _ _ Hq).
        unfold mvalues in *. rewrite !fmap_app. intros [Hst|[= Hx]]; [destruct (Tf x Hst); set_solver|].
        right. apply elem_of_app. right. csimpl. rewrite <-Hx, Hsid. by left.
      * intros x. unfold mvalues in *. rewrite !fmap_app, elem_of_app, (later_step_started _ _ _ _ Hq), (later_step_unfinished _ _ _ _ Hq).
        intros [Hx|Hx%list_elem_of_singleton].
        -- destruct (Tl x Hx). split_and!; [by left|done|done].
        -- simpl in Hx. subst x. split; [right; simpl; by rewrite Hsid|]. split; [by apply eq_None_not_Some|done].
      * unfold mvalues in *. rewrite !fmap_app. apply NoDup_app. split_and!; [done| |apply NoDup_singleton].
        intros x Hx ->%list_elem_of_singleton. simpl in Hx. destruct (Tl _ Hx) as [Hst _].
        destruct (Ts _ Hst) as (k & Hk' & E). unfold stepName in E. apply (inj (app _)), (inj (app _)), dec_inj in E. lia.
      * unfold mkeys in *. rewrite fmap_app. apply NoDup_app. split_and!; [done| |apply NoDup_singleton].
        intros x Hx ->%list_elem_of_singleton. by apply mget_None in Hnew.
      * intros x. unfold mkeys in *. rewrite fmap_app, elem_of_app. intros [Hx|Hx%list_elem_of_singleton]; [right; by apply Tr|].
        simpl in Hx. subst x. by left.
    + intros Hm'. eapply tracked_other; [exact Hq|by apply Ho|set_solver|done|done|by intros ? [=]|done].
  - intros id Hop. rewrite mget_mset. case_decide; [eauto|].
    apply Hc. apply (later_open _ _ _ _ Hq) in Hop as ([?|[=]] & ? & _). done.
  - by eapply started_later; [exact Hq|exact Hs|done|].
Qed.

(** A step ends. *)
Lemma track_step_end h env q m begun refs p0 c ref open_ :
  said (StepFinished p0) q → track m begun refs h →
  mget m (sp_attemptId p0) = Some c → mget (co_steps c) ref = Some open_ → sp_stepId p0 = os_id open_ →
  track (mset m (sp_attemptId p0)
           {| co_id := co_id c; co_steps := mdelete Z.eqb ref (co_steps c); co_count := co_count c |})
    begun refs (h ++ [Known {| e_env := env; e_payload := q |}]).
Proof.
  intros Hq [Hk Ho Hc Hs] Hm Hr Hsid. set (id0 := sp_attemptId p0) in *.
  pose proof (Ho _ _ Hm) as Htr. destruct Htr as [Ti Top Tn Ts Tf Tl Td Tk Tr].
  assert (∀ x, x ∈ os_id <$> mvalues (co_steps c) → x = os_id open_ ∨ x ∈ os_id <$> mvalues (mdelete Z.eqb ref (co_steps c))) as Hleft.
  { intros x (o & -> & Ho')%list_elem_of_fmap. apply elem_of_mvalues in Ho' as [k Hk']; [|done].
    destruct (decide (k = ref)) as [->|Hne]; [left; congruence|right]. apply list_elem_of_fmap. exists o. split; [done|].
    apply elem_of_mvalues; [by apply mdelete_NoDup|]. exists k. rewrite (mget_mdelete Z.eqb Z.eqb_eq). by rewrite decide_False. }
  assert (os_id open_ ∉ os_id <$> mvalues (mdelete Z.eqb ref (co_steps c))) as Hgone.
  { eapply mdelete_value; [exact Z.eqb_eq|exact Tk|exact Td|exact Hr]. }
  destruct (Tl (os_id open_)) as [Hst Hnf].
  { apply list_elem_of_fmap. exists open_. split; [done|]. apply elem_of_mvalues; [done|eauto]. }
  split; [by apply mset_NoDup| | |].
  - intros id c'. rewrite mget_mset. case_decide as Hid; [intros [= <-]; subst id|].
    + split; simpl; try done; [| | | | | |].
      * apply (later_open _ _ _ _ Hq). destruct Top. split_and!; [by left|done|done].
      * intros x. rewrite (later_step_started _ _ _ _ Hq). intros [Hx|[=]]. auto.
      * intros x. rewrite (later_step_started _ _ _ _ Hq), (later_step_finished _ _ _ _ Hq).
        intros [Hx|[=]]. destruct (Tf x Hx) as [?|Hin]; [by left; left|].
        destruct (Hleft x Hin) as [->|?]; [left; right|by right]. simpl. by rewrite Hsid.
      * intros x Hin. rewrite (later_step_started _ _ _ _ Hq), (later_step_unfinished _ _ _ _ Hq).
        destruct (Tl x) as [H1 H2].
        { eapply elem_of_sublist; [exact Hin|]. unfold mvalues. apply fmap_sublist, fmap_sublist, mdelete_sublist. }
        split_and!; [by left|done|]. simpl. intros [= <-]. rewrite Hsid in Hin. done.
      * by apply mdelete_values_NoDup.
      * by apply mdelete_NoDup.
      * intros x [Hx _]%(mdelete_keys Z.eqb Z.eqb_eq). by apply Tr.
    + intros Hm'. eapply tracked_other; [exact Hq|by apply Ho|done|done|done|done|by intros ? [=]].
  - intros id Hop. rewrite mget_mset. case_decide; [eauto|].
    apply Hc. by apply (later_open _ _ _ _ Hq) in Hop as ([?|[=]] & ? & _).
  - by eapply started_later; [exact Hq|exact Hs|done|].
Qed.

(** Every open step of an attempt, ended in turn: nothing is open any more. *)
Lemma tracked_all_finished h refs id c :
  tracked h refs id c → co_steps c = [] → ∀ sid, is_Some (step_started h id sid) → is_Some (step_finished h id sid).
Proof. intros [] E sid Hs. destruct (tr_finished0 sid Hs) as [?|Hin]; [done|]. rewrite E in Hin. by apply elem_of_nil in Hin. Qed.

(** ** What may be written *)

Section allowed.
Context (h : history) (m : jsmap str Core) (begun : list str) (refs : list (str * Z)).
Hypothesis Ht : track m begun refs h.

(** The start of an attempt that has not begun. *)
Lemma may_start env p :
  as_attemptId p ∉ begun → test_facts (as_attemptId p :: begun) p →
  (∀ e, e ∈ h → sessionId (any_env e) = sessionId env) → is_Some (runner_name h (sessionId env)) →
  payload_rule h env (AttemptStarted p).
Proof.
  intros Hn Hf Hs Hr.
  assert (∀ env0 p0, Known {| e_env := env0; e_payload := AttemptStarted p0 |} ∈ h → as_attemptId p0 ≠ as_attemptId p) as Hnew.
  { intros env0 p0 He E. destruct (tk_started _ _ _ _ Ht _ _ He) as [Hb _]. by rewrite E in Hb. }
  simpl. split; [|split; [done|]]; [|split].
  - apply eq_None_not_Some. intros [[env0 p0] H0]. pose proof (att_started_id _ _ _ _ H0) as Hid.
    apply find_map_Some in H0 as (e & He & Hx). destruct e as [[env1 []]|]; simpl in Hx; try done.
    case_match; simplify_eq. by apply (Hnew _ _ He).
  - apply eq_None_not_Some. intros [[env0 p0] (e & He & Hx)%find_map_Some]. destruct e as [[env1 []]|]; simpl in Hx; try done.
    destruct (_ && _) eqn:E; simplify_eq. apply andb_true_iff in E as [E1%str_eqb_eq E2%Z.eqb_eq].
    apply (Hnew _ _ He). rewrite (tf_id _ _ (tk_started _ _ _ _ Ht _ _ He)), (tf_id _ _ Hf). congruence.
  - intros env0 p0 (e & He & Hx)%find_map_Some. destruct e as [[env1 []]|]; simpl in Hx; try done.
    destruct (str_eqb _ _) eqn:E; simplify_eq. apply str_eqb_eq in E.
    destruct (tk_started _ _ _ _ Ht _ _ He) as [_ _ Hi Hst]. rewrite Hi, Hst, (tf_identity _ _ Hf), (tf_stable _ _ Hf), E.
    split_and!; [done|done|]. specialize (Hs _ He). simpl in Hs. by rewrite Hs.
Qed.

(** The end of an attempt whose steps have ended. *)
Lemma may_finish env p c :
  mget m (af_attemptId p) = Some c → co_steps c = [] → payload_rule h env (AttemptFinished p).
Proof.
  intros Hm Hc. pose proof (tk_open _ _ _ _ Ht _ _ Hm) as Htr. split; [apply Htr|]. by eapply tracked_all_finished.
Qed.

(** A step of an open attempt, under none or one of its open steps. *)
Lemma may_step env p c :
  valid_history h → mget m (st_attemptId p) = Some c → st_stepId p = stepName (co_id c) (co_count c + 1) →
  (∀ parent, st_parentStepId p = Some parent → parent ∈ os_id <$> mvalues (co_steps c)) →
  payload_rule h env (StepStarted p) ∧ ¬ is_Some (step_finished h (st_attemptId p) (st_stepId p)).
Proof.
  intros Hv Hm Hsid Hpar. pose proof (tk_open _ _ _ _ Ht _ _ Hm) as Htr.
  assert (¬ is_Some (step_started h (st_attemptId p) (st_stepId p))) as Hno.
  { intros (k & Hk & E)%(tr_steps _ _ _ _ Htr). rewrite Hsid, (tr_id _ _ _ _ Htr) in E.
    unfold stepName in E. apply (inj (app _)), (inj (app _)), dec_inj in E. lia. }
  split; [|by intros ?%(valid_step_finished h _ _ Hv)]. split; [apply Htr|]. split; [by apply eq_None_not_Some|].
  intros parent Hp. by apply Htr, Hpar.
Qed.

(** The end of an open step. *)
Lemma may_step_end env p c ref open_ :
  mget m (sp_attemptId p) = Some c → mget (co_steps c) ref = Some open_ → sp_stepId p = os_id open_ →
  payload_rule h env (StepFinished p).
Proof.
  intros Hm Hr Hsid. pose proof (tk_open _ _ _ _ Ht _ _ Hm) as Htr. simpl. rewrite Hsid. apply Htr.
  apply list_elem_of_fmap. exists open_. split; [done|]. apply elem_of_mvalues; [apply Htr|eauto].
Qed.

(** An attachment of an open attempt, or of one of its open steps. *)
Lemma may_attach env p c :
  mget m (aa_attemptId p) = Some c →
  (∀ sid, aa_stepId p = Some sid → sid ∈ os_id <$> mvalues (co_steps c)) →
  payload_rule h env (AttachmentAdded p).
Proof.
  intros Hm Hs. pose proof (tk_open _ _ _ _ Ht _ _ Hm) as Htr. split; [apply Htr|].
  intros sid Hsid. by apply Htr, Hs.
Qed.

(** The end of the session, once no attempt is open. *)
Lemma may_end env p :
  valid_history h → m = [] → payload_rule h env (SessionFinished p).
Proof.
  intros Hv Hm id env0 p0 Hst _. destruct (att_finished h id) eqn:E; [eauto|].
  destruct (tk_closed _ _ _ _ Ht id) as [c Hc]; [split; [eauto|done]|]. by rewrite Hm in Hc.
Qed.
End allowed.
End track.
