(* ===== verification/PwReporterSpec.v ===== *)
(** * The callbacks keep the history lawful

    A reporter whose session is live and loses nothing: its log is a valid
    history of one session, and what the reporter remembers agrees with it
    ([tends]). Every callback keeps this, or the session has lost something. *)

From S2P Require Import Prelude Io JsString JsBytes JsMap JsSort Json Model Codec CodecProps History Redactor SafeName Session SessionSpec SessionEmit PwText PwMapping PwConfig PwReporter PwTrack.

Local Open Scope Z_scope.

(** ** Lawful logs *)

(** Where a list ending in [x] is cut: at its end, or before. *)
Lemma snoc_cut {A} (l : list A) x pre e post :
  l ++ [x] = pre ++ e :: post → (post = [] ∧ e = x) ∨ ∃ post', l = pre ++ e :: post' ∧ post = post' ++ [x].
Proof.
  destruct post as [|y post] using rev_ind.
  - intros [_ [= <-]]%app_inj_2; [by left|done].
  - intros E. right. rewrite app_comm_cons, app_assoc in E. apply app_inj_tail in E as [-> ->]. eauto.
Qed.

Section lawful.
Context {S : Type} `{SinkLaws S} (cfg : SessionConfig) (Hcfg : config_sound cfg).
Abbreviation log s := (committed (sink s)).
Abbreviation sid := (cf_sessionId cfg).

(** The history of a session that has started and not ended. *)
Record lawful (h : history) : Prop := {
  lf_valid : valid_history h;
  lf_runner : is_Some (runner_name h sid);
  lf_session : sess_finished h sid = None;
  lf_run : run_finished h = None;
}.

Lemma own_length h : valid_history h → (∀ e, e ∈ h → sessionId (any_env e) = sid) → last_sequence h sid = Z.of_nat (length h).
Proof.
  intros Hv Ho. destruct (sequences_contiguous h sid Hv) as [E Hn].
  assert (session_sequences h sid = (λ e, sequence (any_env e)) <$> h) as Hs.
  { unfold session_sequences. f_equal. apply forallb_filter_id, forallb_forall. intros e He%list_elem_of_In.
    by apply of_session_eq, Ho. }
  rewrite Hs in E. apply (f_equal length) in E. rewrite length_fmap, length_seqZ in E. lia.
Qed.

(** Ids are never used twice. *)
Lemma event_run_rule p (s : ReportSession S) : live cfg s → run_rule (log s) (any_env (event_of cfg p s)).
Proof.
  intros Hl. split; intros e He; destruct (lv_own _ _ Hl e He) as (Hr & Hs & (n & Hlt & Hi) & _); [done|].
  rewrite Hi. simpl. intros E. apply (cs_fresh _ Hcfg) in E. lia.
Qed.

Lemma own_sequence (s : ReportSession S) : live cfg s → valid_history (log s) → sequence_ s = last_sequence (log s) sid.
Proof.
  intros Hl Hv. rewrite (own_length _ Hv); [apply Hl|]. intros e He. by destruct (lv_own _ _ Hl e He) as (_ & ? & _).
Qed.

(** The event a payload becomes is allowed when the payload is. *)
Lemma event_allowed p (s : ReportSession S) :
  live cfg s → lawful (log s) → payload_rule (log s) (next_env cfg s) p →
  match p with SessionStarted _ => False | _ => True end → allowed (log s) (event_of cfg p s).
Proof.
  intros Hl Hh Hp Hn. split; [|split].
  - by apply event_run_rule.
  - pose proof (own_sequence s Hl (lf_valid _ Hh)) as Hq.
    destruct (lf_runner _ Hh) as [x Hx]. unfold runner_name in Hx.
    destruct (sess_started (log s) sid) as [q|] eqn:Eq; [|done].
    pose proof (lf_session _ Hh) as Hsf.
    unfold session_rule. destruct p; try done; simpl; rewrite Eq, Hq; (split; [eauto|]; split; [done|auto]).
  - simpl. apply (said_rule p); [|done]. by eexists.
Qed.

Lemma lawful_snoc p (s : ReportSession S) :
  live cfg s → lawful (log s) → payload_rule (log s) (next_env cfg s) p →
  match p with SessionStarted _ | SessionFinished _ | RunFinished => False | _ => True end →
  lawful (log s ++ [event_of cfg p s]).
Proof.
  intros Hl Hh Hp Hn. split.
  - constructor; [apply Hh|]. apply event_allowed; try done. by destruct p.
  - unfold runner_name. rewrite sess_started_snoc. pose proof (lf_runner _ Hh) as Hr. unfold runner_name in Hr.
    destruct (sess_started (log s) sid) as [q|]; simpl; [done|by destruct Hr].
  - rewrite sess_finished_snoc, (lf_session _ Hh). by destruct p.
  - rewrite run_finished_snoc, (lf_run _ Hh). by destruct p.
Qed.

(** ** The end *)

(** A history whose session has ended with every attempt of it, and the run with it or not. *)
Record concluded (ends_run : bool) (h : history) : Prop := {
  cl_valid : valid_history h;
  cl_started : is_Some (sess_started h sid);
  cl_finished : is_Some (sess_finished h sid);
  cl_run : is_Some (run_finished h) ↔ ends_run = true;
  cl_attempts id : is_Some (att_started h id) → is_Some (att_finished h id);
  cl_own e : e ∈ h → sessionId (any_env e) = sid ∧ readable cfg e;
  cl_last pre e post : h = pre ++ e :: post → is_run_finished e = true → post = [];
}.

Lemma no_run_finished h pre e post : run_finished h = None → h = pre ++ e :: post → is_run_finished e = false.
Proof.
  intros Hn ->. destruct (is_run_finished e) eqn:E; [|done]. exfalso. apply eq_None_not_Some in Hn. apply Hn.
  apply (find_map_hit _ _ e); [set_solver|]. by destruct e as [[env []]|].
Qed.

Lemma own_readable (s : ReportSession S) e : live cfg s → e ∈ log s → sessionId (any_env e) = sid ∧ readable cfg e.
Proof. intros Hl He. by destruct (lv_own _ _ Hl e He) as (_ & ? & _ & ?). Qed.

Lemma finish_concludes identity o begun refs (s : ReportSession S) :
  live cfg s → state s = Active → lawful (log s) → track identity [] begun refs (log s) →
  wf_payload (SessionFinished o) → outcomeViolation o = None →
  let '(r, s') := finish cfg o s in
  lossy s' ∨ r = Ok true ∧ live cfg s' ∧ state s' = SessionFinishedState ∧ concluded false (log s').
Proof.
  intros Hl Hst Hlaw Ht Hp Ho. pose proof (finish_live cfg Hcfg o s Hl Hst Hp Ho) as Hf. destruct (finish cfg o s) as [r s'].
  destruct Hf as [?|(-> & Hw & Hst')]; [by left|right]. split; [done|]. split; [apply Hw|]. split; [done|].
  rewrite (wr_log _ _ _ _ Hw). assert (said (SessionFinished o) (norm_payload (redact_payload (cf_redactText cfg) (SessionFinished o)))) as Hq by by eexists.
  split.
  - constructor; [apply Hlaw|]. apply event_allowed; [done|done| |done]. eapply may_end; [exact Ht|apply Hlaw|done].
  - rewrite sess_started_snoc. pose proof (lf_runner _ Hlaw) as Hr. unfold runner_name in Hr.
    destruct (sess_started (log s) sid); [simpl; eauto|by destruct Hr].
  - rewrite sess_finished_snoc, (lf_session _ Hlaw). simpl. rewrite str_eqb_refl. eauto.
  - rewrite run_finished_snoc, (lf_run _ Hlaw). simpl. split; [by intros []|done].
  - intros id. unfold event_of. rewrite (later_att_started _ _ _ _ Hq), (later_att_finished _ _ _ _ Hq). simpl.
    intros [Hs|?]; [left|done]. destruct (att_finished (log s) id) eqn:E; [eauto|].
    destruct (tk_closed _ _ _ _ _ Ht id) as [c Hc]; [by split|done].
  - rewrite <-(wr_log _ _ _ _ Hw). intros e. apply (own_readable s'), Hw.
  - intros pre e post E He. destruct (snoc_cut _ _ _ _ _ E) as [[-> _]|(post' & Hl' & ->)]; [done|exfalso].
    rewrite (no_run_finished _ _ _ _ (lf_run _ Hlaw) Hl') in He. done.
Qed.

Lemma finishRun_concludes (s : ReportSession S) :
  live cfg s → state s = SessionFinishedState → concluded false (log s) →
  let '(r, s') := finishRun cfg s in
  lossy s' ∨ r = Ok true ∧ live cfg s' ∧ state s' = RunFinishedState ∧ concluded true (log s').
Proof.
  intros Hl Hst [Hv Hs Hf Hr Ha _ _]. pose proof (finishRun_live cfg Hcfg s Hl Hst) as Hw. destruct (finishRun cfg s) as [r s'].
  destruct Hw as [?|(-> & Hw & Hst')]; [by left|right]. split; [done|]. split; [apply Hw|]. split; [done|].
  rewrite (wr_log _ _ _ _ Hw). assert (said RunFinished RunFinished) as Hq by (by exists (λ s, s)).
  assert (run_finished (log s) = None) as Hnr.
  { apply eq_None_not_Some. intros Hx%Hr. done. }
  split.
  - constructor; [done|]. split; [by apply event_run_rule|]. split; [|exact Hnr].
    unfold session_rule. simpl. split; [done|]. split; [by rewrite (own_sequence s Hl Hv)|by right].
  - rewrite sess_started_snoc, or_else_is_Some. by left.
  - rewrite sess_finished_snoc, or_else_is_Some. by left.
  - rewrite run_finished_snoc, Hnr. simpl. split; [done|eauto].
  - intros id. unfold event_of. simpl. rewrite (later_att_started _ _ _ _ Hq), (later_att_finished _ _ _ _ Hq). simpl.
    intros [Hx|?]; [left; auto|done].
  - rewrite <-(wr_log _ _ _ _ Hw). intros e. apply (own_readable s'), Hw.
  - intros pre e post E He. destruct (snoc_cut _ _ _ _ _ E) as [[-> _]|(post' & Hl' & ->)]; [done|exfalso].
    rewrite (no_run_finished _ _ _ _ Hnr Hl') in He. done.
Qed.
End lawful.

(** ** Bodies that lose nothing *)

Create HintDb steady.

Section spec.
Context {S : Type} `{SinkLaws S} `{!SoundStore S} (hk : Hooks S).
Abbreviation log s := (committed (sink s)).
Abbreviation body := (io (Reporter S) Thrown).

(** The session of a reporter, or the one it had. *)
Definition the_session (r : Reporter S) : option (SessionConfig * ReportSession S) :=
  match rp_session r with Some x => Some x | None => rp_ended r end.

Definition lossy_reporter (r : Reporter S) : Prop := ∃ x, the_session r = Some x ∧ lossy x.2.

(** A body never undoes a loss. *)
Definition steady {A} (m : body A) : Prop := ∀ r, lossy_reporter r → lossy_reporter (m r).2.

Lemma steady_bind {A B} (m : body A) (f : A → body B) : steady m → (∀ a, steady (f a)) → steady (m ≫= f).
Proof. intros Hm Hf r Hr. specialize (Hm r Hr). unfold mbind, io_mbind. destruct (m r) as [[a|e] r']; [by apply Hf|done]. Qed.
Lemma steady_ret {A} (a : A) : steady (mret a).
Proof. by intros r Hr. Qed.
Lemma steady_read {A} (f : Reporter S → A) : steady (read_ f).
Proof. by intros r Hr. Qed.

(** A change of something else than the session. *)
Lemma steady_modify f : (∀ r, the_session (f r) = the_session r) → steady (modify f).
Proof. intros Hf r [x [Hx Hl]]. exists x. split; [|done]. simpl. by rewrite Hf. Qed.

Lemma diagnose_session key msg r : rp_session (diagnose hk key msg r) = rp_session r.
Proof. done. Qed.
Lemma steady_say key msg : steady (say hk key msg).
Proof. by apply steady_modify. Qed.

(** Reporting problems changes nothing but the diagnostics. *)
Record same_state (r r' : Reporter S) : Prop := {
  ss_attempts : rp_attempts r' = rp_attempts r;
  ss_failures : rp_sessionFailures r' = rp_sessionFailures r;
  ss_ended : rp_ended r' = rp_ended r;
  ss_config : rp_config r' = rp_config r;
  ss_root : rp_rootDir r' = rp_rootDir r;
  ss_roots : rp_roots r' = rp_roots r;
}.

#[export] Instance same_state_preorder : PreOrder same_state.
Proof. split; [by split|]. intros r1 r2 r3 [] []. split; congruence. Qed.

Lemma report_problems_same s s' r :
  same_state r (report_problems hk s s' r) ∧ rp_session (report_problems hk s s' r) = rp_session r.
Proof.
  unfold report_problems. generalize (drop (length (problems s)) (problems s')). intros l. revert r.
  induction l as [|p l IH]; intros r; simpl; [done|]. destruct (IH (report_problem hk p r)) as [H1 H2].
  split; [|by rewrite H2]. etrans; [|exact H1]. by split.
Qed.

Lemma on_session_run {A} (d : A) (m : SessionConfig → ReportSession S → outcome A) cfg s r :
  rp_session r = Some (cfg, s) →
  let '(res, s') := m cfg s in
  ∃ r', on_session hk d m r = (match res with Ok a => Ok a | Throw e => Throw (ThrownByCodec e) end, r') ∧
    rp_session r' = Some (cfg, s') ∧ same_state r r'.
Proof.
  intros E. unfold on_session. rewrite E. destruct (m cfg s) as [res s'].
  destruct (report_problems_same s s' (r <| rp_session := Some (cfg, s') |>)) as [H1 H2].
  eexists. split; [done|]. split; [by rewrite H2|]. etrans; [|exact H1]. by split.
Qed.

Lemma steady_session {A} (d : A) (m : SessionConfig → ReportSession S → outcome A) :
  (∀ cfg s, path s (m cfg s).2) → steady (on_session hk d m).
Proof.
  intros Hm r (x & Hx & Hl). unfold the_session in Hx. destruct (rp_session r) as [[cfg s]|] eqn:E.
  - injection Hx as <-. pose proof (on_session_run d m cfg s r E) as Hrun. pose proof (Hm cfg s) as Hp.
    destruct (m cfg s) as [res s']. destruct Hrun as (r' & -> & E' & _). exists (cfg, s'). split.
    + unfold the_session. simpl. by rewrite E'.
    + by eapply lossy_path.
  - unfold on_session. rewrite E. exists x. split; [|done]. unfold the_session. simpl. by rewrite E.
Qed.

Lemma steady_emit p : steady (emit_event hk p).
Proof. apply steady_bind; [apply steady_session; intros; apply emit_path|intros; apply steady_ret]. Qed.

Lemma steady_forM {A} (l : list A) (f : A → body unit) : (∀ x, steady (f x)) → steady (forM_ l f).
Proof. intros Hf. induction l; simpl; [apply steady_ret|]. apply steady_bind; [done|by intros]. Qed.

(** What a body ensures, unless the session loses something. *)
Definition safe {A} (m : body A) (Q : A → Reporter S → Prop) (r : Reporter S) : Prop :=
  wp m (λ a r', lossy_reporter r' ∨ Q a r') (λ _ r', lossy_reporter r') r.

Lemma safe_bind {A B} (m : body A) (f : A → body B) Q r :
  (∀ a, steady (f a)) → safe m (λ a r', safe (f a) Q r') r → safe (m ≫= f) Q r.
Proof.
  intros Hf Hm. unfold safe. apply wp_bind. eapply wp_mono; [exact Hm| |done].
  intros a r' [Hl|Hq]; [|exact Hq]. specialize (Hf a r' Hl). unfold wp. destruct (f a r') as [[]]; [by left|done].
Qed.

Lemma safe_mono {A} (m : body A) (Q Q' : A → Reporter S → Prop) r :
  safe m Q r → (∀ a r', Q a r' → Q' a r') → safe m Q' r.
Proof. intros Hm Hq. eapply wp_mono; [exact Hm| |done]. intros a r' [?|?]; [by left|right; auto]. Qed.

Lemma safe_ret {A} (a : A) (Q : A → Reporter S → Prop) r : Q a r → safe (mret a) Q r.
Proof. by right. Qed.
Lemma safe_read {A} (f : Reporter S → A) (Q : A → Reporter S → Prop) r : Q (f r) r → safe (read_ f) Q r.
Proof. by right. Qed.
Lemma safe_modify f (Q : unit → Reporter S → Prop) r : Q tt (f r) → safe (modify f) Q r.
Proof. by right. Qed.

(** ** Events *)

Section tends.
Context (identity : str → str) (cfg : SessionConfig) (Hcfg : config_sound cfg).

(** The session is live, its log lawful, and [m] what is to be remembered of it. *)
Definition tends (m : jsmap str Core) (begun : list str) (refs : list (str * Z)) (r : Reporter S) : Prop :=
  ∃ s, rp_session r = Some (cfg, s) ∧ live cfg s ∧ state s = Active ∧ lawful cfg (log s) ∧
    track identity m begun refs (log s).

Lemma tends_same m begun refs r r' : rp_session r' = rp_session r → tends m begun refs r → tends m begun refs r'.
Proof. intros E (s & Hs & Hr). exists s. by rewrite E. Qed.

Lemma safe_say key msg (Q : unit → Reporter S → Prop) m begun refs r :
  tends m begun refs r → (∀ r', tends m begun refs r' → same_state r r' → Q tt r') → safe (say hk key msg) Q r.
Proof. intros Ht Hq. apply safe_modify, Hq; [by eapply tends_same|by split]. Qed.

(** Emitting an event the history allows. *)
Lemma emit_safe p m begun refs r :
  tends m begun refs r → wf_payload p →
  match p with SessionStarted _ | SessionFinished _ | RunFinished => False | _ => True end →
  (∀ h env, track identity m begun refs h → lawful cfg h → sessionId env = cf_sessionId cfg →
     (∀ e, e ∈ h → sessionId (any_env e) = cf_sessionId cfg) → payload_rule h env p) →
  safe (emit_event hk p) (λ _ r', same_state r r' ∧
    ∃ s h env q, rp_session r' = Some (cfg, s) ∧ live cfg s ∧ state s = Active ∧ lawful cfg h ∧ track identity m begun refs h ∧
      said p q ∧ log s = h ++ [Known {| e_env := env; e_payload := q |}] ∧ lawful cfg (log s)) r.
Proof.
  intros (s & Hs & Hl & Hst & Hlaw & Ht) Hp Hplain Hrule.
  pose proof (on_session_run false (λ cfg, emit cfg p) cfg s r Hs) as Hrun. cbv beta in Hrun.
  assert (match p with SessionFinished _ | RunFinished => False | _ => True end) as Hplain' by (by destruct p).
  pose proof (emit_live cfg Hcfg p s Hl Hst Hp Hplain') as He. destruct (emit cfg p s) as [res s'].
  destruct Hrun as (r' & E & Hs' & Hsame). unfold safe, emit_event, wp, mbind, io_mbind. rewrite E.
  destruct He as [Hlossy|(-> & Hw & Hst')].
  { assert (lossy_reporter r') as Hlr by (exists (cfg, s'); unfold the_session; by rewrite Hs').
    destruct res; [by left|done]. }
  right. split; [done|]. assert (payload_rule (log s) (next_env cfg s) p) as Hr.
  { apply Hrule; [done|done|done|]. intros e He. by destruct (lv_own _ _ Hl e He) as (_ & ? & _). }
  eexists s', (log s), (next_env cfg s), _. split; [exact Hs'|]. split; [apply Hw|]. split; [done|]. split; [done|].
  split; [done|]. split; [by eexists|]. split; [apply Hw|]. rewrite (wr_log _ _ _ _ Hw).
  apply lawful_snoc; [done|done|done|done|by destruct p].
Qed.

(** Reading the relation of a body off that of its event. *)
Lemma emit_tends p m begun refs m' begun' refs' r :
  tends m begun refs r → wf_payload p →
  match p with SessionStarted _ | SessionFinished _ | RunFinished => False | _ => True end →
  (∀ h env, track identity m begun refs h → lawful cfg h → sessionId env = cf_sessionId cfg →
     (∀ e, e ∈ h → sessionId (any_env e) = cf_sessionId cfg) → payload_rule h env p) →
  (∀ h env q, track identity m begun refs h → lawful cfg h → said p q →
     track identity m' begun' refs' (h ++ [Known {| e_env := env; e_payload := q |}])) →
  safe (emit_event hk p) (λ _ r', same_state r r' ∧ tends m' begun' refs' r') r.
Proof.
  intros Ht Hp Hplain Hrule Htr. eapply safe_mono; [by apply (emit_safe p m begun refs)|].
  intros a r' (Hsame & s & h & env & q & Hs & Hl & Hst & Hh & Htk & Hq & Hlog & Hlaw). split; [done|].
  exists s. split_and!; [done..|]. rewrite Hlog. by apply Htr.
Qed.

(** An attempt that has not begun, begins. *)
Lemma emit_attempt p m begun refs r :
  tends m begun refs r → wf_payload (AttemptStarted p) →
  (as_attemptId p ∉ begun) → test_facts identity (as_attemptId p :: begun) p →
  safe (emit_event hk (AttemptStarted p)) (λ _ r', same_state r r' ∧
    tends (mset m (as_attemptId p) {| co_id := as_attemptId p; co_steps := []; co_count := 0 |})
      (as_attemptId p :: begun) refs r') r.
Proof.
  intros Ht Hp Hn Hf. eapply emit_tends; [done|done|done| |].
  - intros h env Htk Hlaw He Ho. eapply may_start; [done|done|done|by rewrite He|rewrite He; apply Hlaw].
  - intros h env q Htk Hlaw Hq. apply track_attempt; [done|apply Hlaw|done|done|done].
Qed.

(** A step begins. *)
Lemma emit_step p m begun refs r c ref phase :
  tends m begun refs r → wf_payload (StepStarted p) → mget m (st_attemptId p) = Some c →
  st_stepId p = stepName (co_id c) (co_count c + 1) → ((st_attemptId p, ref) ∉ refs) →
  (∀ parent, st_parentStepId p = Some parent → parent ∈ os_id <$> mvalues (co_steps c)) →
  safe (emit_event hk (StepStarted p)) (λ _ r', same_state r r' ∧
    tends (mset m (st_attemptId p)
             {| co_id := co_id c; co_steps := mset (co_steps c) ref {| os_id := st_stepId p; os_phase := phase |};
                co_count := co_count c + 1 |}) begun ((st_attemptId p, ref) :: refs) r') r.
Proof.
  intros Ht Hp Hm Hsid Hn Hpar. eapply emit_tends; [done|done|done| |].
  - intros h env Htk Hlaw He Ho. by eapply may_step; [done|apply Hlaw|..].
  - intros h env q Htk Hlaw Hq. rewrite Hsid. apply track_step; try done.
    rewrite <-Hsid. eapply (may_step identity h m begun refs Htk env p c); [apply Hlaw|done..].
Qed.

(** An open step ends. *)
Lemma emit_step_end p m begun refs r c ref open_ :
  tends m begun refs r → wf_payload (StepFinished p) → mget m (sp_attemptId p) = Some c →
  mget (co_steps c) ref = Some open_ → sp_stepId p = os_id open_ →
  safe (emit_event hk (StepFinished p)) (λ _ r', same_state r r' ∧
    tends (mset m (sp_attemptId p)
             {| co_id := co_id c; co_steps := mdelete Z.eqb ref (co_steps c); co_count := co_count c |}) begun refs r') r.
Proof.
  intros Ht Hp Hm Hr Hsid. eapply emit_tends; [done|done|done| |].
  - intros h env Htk Hlaw He Ho. by eapply may_step_end.
  - intros h env q Htk Hlaw Hq. by eapply track_step_end.
Qed.

(** An attempt whose steps have ended, ends. *)
Lemma emit_attempt_end p m begun refs r c :
  tends m begun refs r → wf_payload (AttemptFinished p) → mget m (af_attemptId p) = Some c → co_steps c = [] →
  safe (emit_event hk (AttemptFinished p)) (λ _ r', same_state r r' ∧
    tends (mdelete str_eqb (af_attemptId p) m) begun refs r') r.
Proof.
  intros Ht Hp Hm Hc. eapply emit_tends; [done|done|done| |].
  - intros h env Htk Hlaw He Ho. by eapply may_finish.
  - intros h env q Htk Hlaw Hq. by apply track_attempt_end.
Qed.

(** A failure of a scope. *)
Lemma emit_scope p m begun refs r :
  tends m begun refs r → wf_payload (ScopeFailed p) →
  safe (emit_event hk (ScopeFailed p)) (λ _ r', same_state r r' ∧ tends m begun refs r') r.
Proof.
  intros Ht Hp. eapply emit_tends; [done|done|done|done|].
  intros h env q Htk Hlaw Hq. by eapply track_aside.
Qed.

(** A call of the session that attaches. *)
Lemma attaching_safe (call : SessionConfig → ReportSession S → outcome bool) attempt stepId m begun refs r c :
  tends m begun refs r → mget m attempt = Some c →
  (∀ sid, stepId = Some sid → sid ∈ os_id <$> mvalues (co_steps c)) →
  (∀ s, live cfg s → state s = Active → let '(res, s') := call cfg s in
     lossy s' ∨ (∃ b, res = Ok b) ∧ state s' = Active ∧ live cfg s' ∧ sequence_ s <= sequence_ s' ∧
       (log s' = log s ∨ ∃ p (s1 : ReportSession S), log s' = log s ++ [event_of cfg (AttachmentAdded p) s1] ∧
          aa_attemptId p = attempt ∧ aa_stepId p = stepId ∧ next_env cfg s1 = next_env cfg s)) →
  safe (_ ← on_session hk false call; mret tt) (λ _ r', same_state r r' ∧ tends m begun refs r') r.
Proof.
  intros (s & Hs & Hl & Hst & Hlaw & Ht) Hm Hsid Hcall. specialize (Hcall s Hl Hst).
  pose proof (on_session_run false call cfg s r Hs) as Hrun. destruct (call cfg s) as [res s'].
  destruct Hrun as (r' & E & Hs' & Hsame). unfold safe, wp, mbind, io_mbind. rewrite E.
  destruct Hcall as [Hlossy|((b & ->) & Hst' & Hl' & _ & Hlog)].
  { assert (lossy_reporter r') as Hlr by (exists (cfg, s'); unfold the_session; by rewrite Hs').
    destruct res; [by left|done]. }
  right. split; [done|]. exists s'. split; [done|]. split; [done|]. split; [done|].
  destruct Hlog as [->|(p & s1 & -> & Ha & Hsp & Henv)]; [done|].
  assert (event_of cfg (AttachmentAdded p) s1 = event_of cfg (AttachmentAdded p) s) as -> by (unfold event_of; by rewrite Henv).
  split.
  - apply lawful_snoc; [done|done|done| |done].
    eapply may_attach; [done|by rewrite Ha|]. rewrite Hsp. done.
  - eapply track_aside; [by eexists|done|done|done].
Qed.

Lemma attach_safe attempt stepId a m begun refs r c :
  tends m begun refs r → mget m attempt = Some c →
  (∀ sid, stepId = Some sid → sid ∈ os_id <$> mvalues (co_steps c)) → wf_id attempt → wf_opt_id stepId →
  safe (attach_one hk attempt stepId a) (λ _ r', same_state r r' ∧ tends m begun refs r') r.
Proof.
  intros Ht Hm Hsid Ha Hs. unfold attach_one. cbv zeta. destruct (pa_body a) as [b|]; [|destruct (pa_path a) as [file|]].
  - eapply attaching_safe; [done|done|exact Hsid|]. intros s Hl Hst.
    match goal with |- context [attach cfg ?i b s] => pose proof (attach_live cfg Hcfg i b s Hl Hst Ha Hs) as H1 end. exact H1.
  - eapply attaching_safe; [done|done|exact Hsid|]. intros s Hl Hst.
    match goal with |- context [attachFileSync cfg ?i file s] => pose proof (attachFileSync_live cfg Hcfg i file s Hl Hst Ha Hs) as H1 end. exact H1.
  - eapply safe_say; [done|]. done.
Qed.

(** A loop keeps what its body keeps. *)
Lemma forM_safe {A} (l : list A) (f : A → body unit) (P : Reporter S → Prop) r :
  (∀ x, steady (f x)) → (∀ x r, x ∈ l → P r → safe (f x) (λ _, P) r) → P r → safe (forM_ l f) (λ _, P) r.
Proof.
  intros Hst. revert r. induction l as [|x l IH]; intros r Hf Hr; simpl; [by apply safe_ret|].
  apply safe_bind; [intros; by apply steady_forM|]. eapply safe_mono; [apply Hf; [by left|done]|].
  intros u r' Hr'. apply IH; [|done]. intros y r2 Hy. apply Hf. by right.
Qed.
End tends.

(** ** Callbacks *)

(** What Playwright's objects must be for their payloads to be well-formed. *)
Definition safe_location (l : PwLocation) : Prop := wf_opt_int (wl_line l) ∧ wf_opt_int (wl_column l).
Definition safe_error (e : PwError) : Prop := from_option safe_location True (we_location e).

Record safe_test (t : PwTest) (result : PwResult) : Prop := {
  sft_id : wf_id (wt_id t);
  sft_retry : 0 <= wr_retry result < 1000;
  sft_location : safe_location (wt_location t);
}.

Definition safe_callback (c : Callback) : Prop :=
  match c with
  | OnTestBegin t r => safe_test t r
  | OnStepBegin t r s => safe_test t r ∧ from_option safe_location True (ps_location s)
  | OnStepEnd t r s => safe_test t r ∧ wf_int (whole_millis (ps_duration s)) ∧ from_option safe_error True (ps_error s)
  | OnTestEnd t r => safe_test t r ∧ wf_int (whole_millis (wr_duration r)) ∧ Forall safe_error (wr_errors r)
  | OnError e => safe_error e
  end.

Lemma source_location_wf root l : from_option safe_location True l → wf_opt_location (source_location hk root l).
Proof.
  destruct l as [[file line column]|]; [|done]. intros [Hl Hc]. unfold source_location, location. simpl.
  case_match; [done|]. simpl. split; simpl in *; [destruct line as [n|]|destruct column as [n|]]; simpl; try done;
    by destruct (0 <? n).
Qed.

Lemma pw_failure_wf error roots phase :
  safe_error error → wf_failure (PwMapping.failure (np_relative (hk_path hk)) (np_sep (hk_path hk)) error roots phase).
Proof. intros He. unfold wf_failure, PwMapping.failure. cbn [f_location]. by apply source_location_wf. Qed.

Lemma budget_wf l : Forall wf_failure l → Forall wf_failure (withinBudget l).
Proof. by apply withinBudget_Forall. Qed.

Lemma digits_identifier n : 0 <= n → forallb (in_range 0x21 0x7E) (dec n) = true.
Proof.
  intros Hn. unfold dec. destruct (Z.ltb_spec n 0); [lia|]. pose proof (dec_nonneg_digits n Hn) as Hd.
  rewrite forallb_forall in Hd |- *. intros u Hu. specialize (Hd u Hu). unfold is_digit, in_range in *.
  rewrite andb_true_iff, !N.leb_le in *. lia.
Qed.

Lemma identifier_app (a b : str) : wf_id a → forallb (in_range 0x21 0x7E) b = true → wf_id (a ++ b).
Proof.
  unfold wf_id, is_identifier. rewrite !andb_true_iff, !negb_true_iff, !bool_decide_eq_false, forallb_app.
  intros [Ha ->] ->. split; [|done]. by intros [-> _]%app_nil.
Qed.

Lemma attemptId_wf t result : safe_test t result → wf_id (attemptId t result).
Proof.
  intros [Hi Hr _]. apply identifier_app; [done|]. rewrite forallb_app, digits_identifier by lia. done.
Qed.

Lemma stepName_wf id k : wf_id id → 0 <= k → wf_id (stepName id k).
Proof. intros Hi Hk. apply identifier_app; [done|]. by rewrite forallb_app, digits_identifier. Qed.

(** A body with a session. *)
Lemma with_session_safe (m : body unit) Q r x :
  rp_session r = Some x → steady m → safe m Q r → safe (with_session m) Q r.
Proof.
  intros E Hm Hs. apply safe_bind; [intros [?|]; [done|apply steady_ret]|]. apply safe_read. by rewrite E.
Qed.

(** A guarded body: what it ensures holds, or the session lost something. *)
Lemma guard_safe name (m : body unit) (P : Reporter S → Prop) r :
  safe m (λ _, P) r → lossy_reporter (guard hk name m r) ∨ P (guard hk name m r).
Proof. unfold safe, wp, guard. destruct (m r) as [[u|e] r']; [done|]. intros Hl. by left. Qed.
End spec.

#[export] Hint Resolve steady_bind steady_ret steady_read steady_say steady_emit steady_forM : steady.

(** ** Each callback, in turn

    What a callback of the reporter does to a live session and to what the
    reporter remembers. *)

Section steady.
Context {S : Type} `{SinkLaws S} `{!SoundStore S} (hk : Hooks S).

Lemma steady_attach attempt stepId a : steady (attach_one hk attempt stepId a).
Proof.
  unfold attach_one. cbv zeta. destruct (pa_body a); [|destruct (pa_path a)]; [| |apply steady_say];
    (apply steady_bind; [apply steady_session; intros; first [apply attach_path|apply attachFileSync_path]|intros; apply steady_ret]).
Qed.

Lemma steady_close (oa : OpenAttempt) : steady (closeOpenSteps (S := S) hk oa).
Proof.
  unfold closeOpenSteps. destruct (oa_steps oa); [apply steady_ret|].
  apply steady_bind; [apply steady_say|intros _]. apply steady_bind; [apply steady_forM; intros; apply steady_emit|intros _].
  by apply steady_modify.
Qed.

End steady.

Ltac steady :=
  repeat (intros; match goal with
  | |- steady (mbind _ _) => apply steady_bind
  | |- steady (mret _) => apply steady_ret
  | |- steady (read_ _) => apply steady_read
  | |- steady (say _ _ _) => apply steady_say
  | |- steady (emit_event _ _) => apply steady_emit
  | |- steady (forM_ _ _) => apply steady_forM
  | |- steady (modify _) => apply steady_modify; done
  | |- steady (on_attempt _ _) => apply steady_modify; done
  | |- steady (with_session _) => unfold with_session
  | |- steady (match ?x with _ => _ end) => destruct x
  | |- steady (attach_one _ _ _ _) => apply steady_attach
  | |- steady (closeOpenSteps _ _) => apply steady_close
  | |- steady (failure_of _ _ _) => apply steady_read
  | |- steady (attach_step _ _ _ _ _) => unfold attach_step
  | |- steady (keep_session_failure _ _ _) => unfold keep_session_failure
  | |- steady _ => progress cbv zeta
  end).

Section callbacks.
Context {S : Type} `{SinkLaws S} `{!SoundStore S} (hk : Hooks S).
Context (identity : str → str) (cfg : SessionConfig) (Hcfg : config_sound cfg) (root : str).
Abbreviation log s := (committed (sink s)).
Abbreviation body := (io (Reporter S) Thrown).
Abbreviation tends := (tends identity cfg).

(** The reporter remembers what it is to remember, and its failures can be written. *)
Record minds (begun : list str) (refs : list (str * Z)) (r : Reporter S) : Prop := {
  md_tends : tends (cores (rp_attempts r)) begun refs r;
  md_failures : Forall wf_failure (rp_sessionFailures r);
  md_root : rp_rootDir r = root;
}.

Lemma minds_session begun refs r : minds begun refs r → ∃ s, rp_session r = Some (cfg, s).
Proof. intros [(s & ? & _) _ _]. eauto. Qed.

Lemma minds_same begun refs begun' refs' r r' :
  minds begun refs r → same_state r r' → tends (cores (rp_attempts r)) begun' refs' r' → minds begun' refs' r'.
Proof. intros [Ht Hf Hr] [] Ht'. split; [congruence|congruence|congruence]. Qed.

(** An open attempt has begun. *)
Lemma open_begun m begun refs h id c : track identity m begun refs h → mget m id = Some c → id ∈ begun.
Proof.
  intros Ht Hm. destruct (tr_open _ _ _ _ (tk_open _ _ _ _ _ Ht _ _ Hm)) as [[[env p] Hs] _].
  pose proof (att_started_id _ _ _ _ Hs) as Hid. apply find_map_Some in Hs as (e & He & Hx).
  destruct e as [[env1 []]|]; simpl in Hx; try done. case_match; simplify_eq.
  by destruct (tk_started _ _ _ _ _ Ht _ _ He).
Qed.

(** ** onTestBegin *)

Lemma onTestBegin_minds test result begun refs r :
  minds begun refs r → safe_test test result → attemptId test result ∉ begun →
  historicalId (hk_sha256_utf8 hk) (hierarchy_of hk test root) = identity (wt_id test) →
  lossy_reporter (onTestBegin hk test result r) ∨ minds (attemptId test result :: begun) refs (onTestBegin hk test result r).
Proof.
  intros Hm Hs Hn Hid. apply guard_safe. destruct (minds_session _ _ _ Hm) as [s Hsess].
  eapply with_session_safe; [exact Hsess|cbv zeta; steady|]. cbv zeta.
  apply safe_bind; [steady|]. apply safe_read.
  destruct (mhas (rp_attempts r) (attemptId test result)) eqn:Eh.
  { exfalso. unfold mhas in Eh. destruct (mget (rp_attempts r) _) as [oa|] eqn:E; [|done].
    destruct (md_tends _ _ _ Hm) as (s' & _ & _ & _ & _ & Ht). apply Hn. eapply open_begun; [exact Ht|]. by rewrite cores_get, E. }
  apply safe_bind; [steady|]. apply safe_read. rewrite (md_root _ _ _ Hm).
  apply safe_bind; [steady|]. apply safe_modify. apply safe_bind; [steady|]. apply safe_modify.
  eapply safe_mono; [apply (emit_attempt hk identity cfg Hcfg _ (cores (rp_attempts r)) begun refs)|].
  - eapply tends_same; [|apply Hm]. done.
  - split; [by apply attemptId_wf|]. destruct Hs as [Hs1 Hs2 Hs3].
    split; [cbn [as_attemptNumber]; lia|]. split_and!; [done|done|].
    exact (source_location_wf hk root (Some (wt_location test)) Hs3).
  - done.
  - split; simpl; [by left|done|by rewrite Hid|done].
  - intros u r' [Hsame Ht]. simpl in Hsame, Ht. split.
    + rewrite (ss_attempts _ _ Hsame). simpl. rewrite cores_set. exact Ht.
    + rewrite (ss_failures _ _ Hsame). apply Hm.
    + rewrite (ss_root _ _ Hsame). apply Hm.
Qed.

(** ** Steps *)

Lemma open_attempt_tends m begun refs r id c :
  tends m begun refs r → mget m id = Some c →
  ∃ h, tracked h refs id c.
Proof. intros (s & _ & _ & _ & _ & Ht) Hm. exists (log s). by apply (tk_open _ _ _ _ _ Ht). Qed.

Lemma onStepBegin_minds test result step begun refs r :
  minds begun refs r → safe_callback (OnStepBegin test result step) → ((attemptId test result, ps_ref step) ∉ refs) →
  lossy_reporter (onStepBegin hk test result step r) ∨
  minds begun ((attemptId test result, ps_ref step) :: refs) (onStepBegin hk test result step r).
Proof.
  intros Hm [Hs Hloc] Hn. apply guard_safe. destruct (minds_session _ _ _ Hm) as [s Hsess].
  eapply with_session_safe; [exact Hsess|steady|]. apply safe_bind; [steady|]. apply safe_read.
  destruct (mget (rp_attempts r) (attemptId test result)) as [oa|] eqn:E.
  2:{ apply safe_ret. destruct Hm as [Ht Hf Hr]. split; [|done|done]. destruct Ht as (s' & H1 & H2 & H3 & H4 & H5).
      exists s'. split_and!; [done..|]. destruct H5 as [K1 K2 K3 K4]. split; [done| |done|done].
      intros id c Hc. destruct (K2 id c Hc) as []. split; try done. intros ref Hr'. right. auto. }
  pose proof (cores_get (rp_attempts r) (attemptId test result)) as Hc. rewrite E in Hc. simpl in Hc.
  destruct (open_attempt_tends _ _ _ _ _ _ (md_tends _ _ _ Hm) Hc) as [h Htr].
  pose proof (tr_id _ _ _ _ Htr) as Hid. simpl in Hid. pose proof (tr_count _ _ _ _ Htr) as Hcount. simpl in Hcount.
  cbv zeta. apply safe_bind; [steady|]. apply safe_modify. apply safe_bind; [steady|]. apply safe_read.
  eapply safe_mono; [eapply (emit_step hk identity cfg Hcfg _ (cores (rp_attempts r)) begun refs _ (core oa) (ps_ref step))|].
  - eapply tends_same; [|apply Hm]. done.
  - unfold wf_payload. cbn [st_stepId st_attemptId st_parentStepId st_location]. rewrite Hid.
    split_and!; [apply stepName_wf; [by apply attemptId_wf|lia]|by apply attemptId_wf| |by apply source_location_wf].
    destruct (ps_parent step) as [pr|]; simpl; [|done]. destruct (mget (oa_steps oa) pr) as [os|] eqn:Ep; simpl; [|done].
    destruct (tr_steps _ _ _ _ Htr (os_id os)) as (k & Hk & ->); [|apply stepName_wf; [by apply attemptId_wf|lia]].
    apply (tr_listed _ _ _ _ Htr). apply list_elem_of_fmap. exists os. split; [done|]. apply mget_elem in Ep.
    apply list_elem_of_fmap. by exists (pr, os).
  - simpl. by rewrite Hid, Hc.
  - done.
  - simpl. by rewrite Hid.
  - simpl. intros parent Hp. destruct (ps_parent step) as [pr|]; simpl in Hp; [|done].
    destruct (mget (oa_steps oa) pr) as [os|] eqn:Ep; simpl in Hp; [|done]. injection Hp as <-.
    apply list_elem_of_fmap. exists os. split; [done|]. apply mget_elem in Ep. apply list_elem_of_fmap. by exists (pr, os).
  - intros u r' [Hsame Ht]. simpl in Ht. rewrite Hid in Ht. split.
    + rewrite (ss_attempts _ _ Hsame). simpl. unfold mupd. rewrite E, cores_set. unfold core. simpl. rewrite Hid. exact Ht.
    + rewrite (ss_failures _ _ Hsame). apply Hm.
    + rewrite (ss_root _ _ Hsame). apply Hm.
Qed.

(** The step's own entry leaves the map first; the events follow. *)
Lemma onStepEnd_minds test result step begun refs r :
  minds begun refs r → safe_callback (OnStepEnd test result step) →
  lossy_reporter (onStepEnd hk test result step r) ∨ minds begun refs (onStepEnd hk test result step r).
Proof.
  intros Hm (Hs & Hd & Her). apply guard_safe. destruct (minds_session _ _ _ Hm) as [s Hsess].
  eapply with_session_safe; [exact Hsess|steady|]. cbv zeta. apply safe_bind; [steady|]. apply safe_read.
  destruct (mget (rp_attempts r) (attemptId test result)) as [oa|] eqn:E; [|by apply safe_ret].
  pose proof (cores_get (rp_attempts r) (attemptId test result)) as Hc. rewrite E in Hc. simpl in Hc.
  destruct (open_attempt_tends _ _ _ _ _ _ (md_tends _ _ _ Hm) Hc) as [h Htr].
  pose proof (tr_id _ _ _ _ Htr) as Hid. simpl in Hid.
  destruct (mget (oa_steps oa) (ps_ref step)) as [os|] eqn:Eo.
  2:{ eapply safe_say; [apply Hm|]. intros r' Ht Hsame. by eapply minds_same. }
  assert (os_id os ∈ os_id <$> mvalues (co_steps (core oa))) as Hlisted.
  { apply list_elem_of_fmap. exists os. split; [done|]. apply mget_elem in Eo. apply list_elem_of_fmap. by exists (ps_ref step, os). }
  assert (wf_id (os_id os)) as Hwf.
  { destruct (tr_steps _ _ _ _ Htr (os_id os)) as (k & Hk & ->); [by apply (tr_listed _ _ _ _ Htr)|].
    apply stepName_wf; [by apply attemptId_wf|lia]. }
  (* the loop and what follows it see the memory up to what the events do not depend on *)
  set (m0 := cores (rp_attempts r)) in *.
  set (c1 := {| co_id := oa_id oa; co_steps := mdelete Z.eqb (ps_ref step) (oa_steps oa); co_count := oa_stepCount oa |}).
  set (P := λ r' : Reporter S, tends m0 begun refs r' ∧ cores (rp_attempts r') = mset m0 (attemptId test result) c1 ∧
    Forall wf_failure (rp_sessionFailures r') ∧ rp_rootDir r' = root).
  apply safe_bind; [steady|]. apply safe_modify.
  apply safe_bind; [steady|].
  eapply safe_mono; [apply (forM_safe _ _ P)|].
  { intros a. steady. }
  { intros a r1 _ (H1 & H2 & H3 & H4). unfold attach_step. apply safe_bind; [steady|]. apply safe_read.
    case_match; [by apply safe_ret|]. apply safe_bind; [steady|]. apply safe_modify.
    eapply safe_mono; [eapply attach_safe; [exact Hcfg| |rewrite Hid; exact Hc|by intros ? [= <-]|rewrite Hid; by apply attemptId_wf|done]|].
    - eapply tends_same; [|exact H1]. done.
    - intros u r2 [Hsame Ht]. split; [exact Ht|]. rewrite (ss_attempts _ _ Hsame), (ss_failures _ _ Hsame), (ss_root _ _ Hsame).
      simpl. split; [|done]. rewrite cores_upd; [done|]. by intros []. }
  { split; [by eapply tends_same; [|apply Hm]|]. split; [|split; apply Hm]. simpl. unfold mupd. by rewrite E, cores_set. }
  intros u1 r1 HP. cbv beta in HP.
  apply safe_bind; [steady|]. eapply (safe_mono _ (λ failures r', P r' ∧ wf_failures failures)).
  { destruct (ps_error step) as [error|] eqn:Ee; [|by apply safe_ret].
    apply safe_bind; [steady|]. apply safe_modify.
    apply safe_bind; [steady|]. apply safe_read, safe_ret. destruct HP as (H1 & H2 & H3 & H4). split.
    - split; [by eapply tends_same; [|exact H1]|]. split; [|done]. simpl. rewrite cores_upd; [done|]. by intros [].
    - constructor; [by apply pw_failure_wf|constructor]. }
  intros failures r2 [(H1 & H2 & H3 & H4) Hfl].
  eapply safe_mono; [eapply (emit_step_end hk identity cfg Hcfg _ m0 begun refs r2 (core oa) (ps_ref step) os)|].
  - exact H1.
  - unfold wf_payload. cbn [sp_stepId sp_attemptId sp_durationMs sp_failures]. rewrite Hid. split_and!; [done|by apply attemptId_wf|exact Hd|done].
  - simpl. by rewrite Hid.
  - done.
  - done.
  - intros u r' [Hsame Ht]. simpl in Ht. split.
    + rewrite (ss_attempts _ _ Hsame), H2. unfold c1. rewrite Hid in *. exact Ht.
    + by rewrite (ss_failures _ _ Hsame).
    + by rewrite (ss_root _ _ Hsame).
Qed.

(** ** The end of an attempt *)

(** Everything but the open attempts is as it was. *)
Record same_rest (r r' : Reporter S) : Prop := {
  sr_failures : rp_sessionFailures r' = rp_sessionFailures r;
  sr_ended : rp_ended r' = rp_ended r;
  sr_config : rp_config r' = rp_config r;
  sr_root : rp_rootDir r' = rp_rootDir r;
}.

#[export] Instance same_rest_preorder : PreOrder same_rest.
Proof. split; [by split|]. intros r1 r2 r3 [] []. split; congruence. Qed.

Lemma same_state_rest r r' : same_state r r' → same_rest r r'.
Proof. by intros []. Qed.

Lemma forM_cons {A} (x : A) l (f : A → body unit) : forM_ (x :: l) f = (f x ;; forM_ l f).
Proof. done. Qed.

Lemma close_loop id n begun refs steps : wf_id id → ∀ m r,
  tends m begun refs r → mget m id = Some {| co_id := id; co_steps := steps; co_count := n |} →
  safe (forM_ (mvalues steps) (λ open_, emit_event hk (StepFinished
          {| sp_stepId := os_id open_; sp_attemptId := id; sp_status := StInconclusive;
             sp_rawStatus := Some (js "unfinished"); sp_durationMs := None; sp_failures := None |})))
    (λ _ r', same_state r r' ∧ tends (mset m id {| co_id := id; co_steps := []; co_count := n |}) begun refs r') r.
Proof.
  intros Hid. induction steps as [|[ref os] steps IH]; intros m r Ht Hm.
  { apply safe_ret. split; [done|]. by rewrite mset_same. }
  destruct (open_attempt_tends _ _ _ _ _ _ Ht Hm) as [h Htr].
  change (mvalues ((ref, os) :: steps)) with (os :: mvalues steps). rewrite forM_cons.
  apply safe_bind; [steady|].
  eapply safe_mono; [eapply (emit_step_end hk identity cfg Hcfg _ m begun refs r _ ref os)|].
  - exact Ht.
  - split_and!; simpl; [|done|done|done].
    destruct (tr_steps _ _ _ _ Htr (os_id os)) as (k & Hk & ->); [|apply stepName_wf; [done|simpl in Hk; lia]].
    apply (tr_listed _ _ _ _ Htr). unfold mvalues. csimpl. by left.
  - exact Hm.
  - simpl. by rewrite decide_True.
  - done.
  - intros u r1 [Hsame Ht1]. cbn [sp_attemptId co_id co_steps co_count] in Ht1.
    rewrite (mdelete_head Z.eqb Z.eqb_eq) in Ht1 by apply (tr_keys _ _ _ _ Htr).
    eapply safe_mono; [apply (IH _ _ Ht1)|]; [by rewrite mget_mset_eq|].
    intros u2 r2 [Hsame2 Ht2]. rewrite mset_mset in Ht2. split; [by etrans|done].
Qed.

Lemma close_safe m begun refs oa r :
  tends m begun refs r → mget m (oa_id oa) = Some (core oa) → wf_id (oa_id oa) →
  safe (closeOpenSteps hk oa) (λ _ r', same_rest r r' ∧
    (mget (rp_attempts r) (oa_id oa) = None → rp_attempts r' = rp_attempts r) ∧
    tends (mset m (oa_id oa) {| co_id := oa_id oa; co_steps := []; co_count := oa_stepCount oa |}) begun refs r') r.
Proof.
  intros Ht Hm Hid. unfold closeOpenSteps. destruct (oa_steps oa) as [|x steps] eqn:E.
  { apply safe_ret. split; [done|]. split; [done|]. rewrite mset_same; [done|]. rewrite Hm. unfold core. by rewrite E. }
  rewrite <-E in *. apply safe_bind; [steady|]. eapply safe_say; [exact Ht|]. intros r1 Ht1 Hs1.
  apply safe_bind; [steady|]. eapply safe_mono; [apply (close_loop (oa_id oa) (oa_stepCount oa) begun refs (oa_steps oa) Hid m r1 Ht1 Hm)|].
  intros u r2 [Hs2 Ht2]. apply safe_modify. split; [|split].
  - etrans; [by apply same_state_rest|]. etrans; [by apply same_state_rest|]. by split.
  - intros Hn. simpl. rewrite (ss_attempts _ _ Hs2), (ss_attempts _ _ Hs1). unfold mupd. by rewrite Hn.
  - by eapply tends_same; [|exact Ht2].
Qed.

(** Saying something, or not. *)
Lemma safe_say_if (b : bool) key msg (Q : unit → Reporter S → Prop) m begun refs r :
  tends m begun refs r → (∀ r', tends m begun refs r' → same_state r r' → Q tt r') →
  safe (if b then say hk key msg else mret tt) Q r.
Proof. intros Ht Hq. destruct b; [by eapply safe_say|]. by apply safe_ret, Hq. Qed.

Lemma onTestEnd_minds test result begun refs r :
  minds begun refs r → safe_callback (OnTestEnd test result) →
  lossy_reporter (onTestEnd hk test result r) ∨ minds begun refs (onTestEnd hk test result r).
Proof.
  intros Hm (Hs & Hd & Her). apply guard_safe. destruct (minds_session _ _ _ Hm) as [s Hsess].
  eapply with_session_safe; [exact Hsess|steady|]. cbv zeta. apply safe_bind; [steady|]. apply safe_read.
  set (id := attemptId test result) in *.
  destruct (mget (rp_attempts r) id) as [oa|] eqn:E.
  2:{ eapply safe_say; [apply Hm|]. intros r' Ht Hsame. by eapply minds_same. }
  pose proof (cores_get (rp_attempts r) id) as Hc. rewrite E in Hc. simpl in Hc.
  destruct (open_attempt_tends _ _ _ _ _ _ (md_tends _ _ _ Hm) Hc) as [h Htr].
  pose proof (tr_id _ _ _ _ Htr) as Hid. simpl in Hid. assert (wf_id (oa_id oa)) as Hwf by (rewrite Hid; by apply attemptId_wf).
  set (m0 := cores (rp_attempts r)) in *. rewrite <-Hid in Hc.
  set (m1 := mset m0 (oa_id oa) {| co_id := oa_id oa; co_steps := []; co_count := oa_stepCount oa |}).
  set (P := λ r' : Reporter S, tends m1 begun refs r' ∧ cores (rp_attempts r') = mdelete str_eqb id m0 ∧
    Forall wf_failure (rp_sessionFailures r') ∧ rp_rootDir r' = root).
  assert (∀ r1 r2, P r1 → same_state r1 r2 → tends m1 begun refs r2 → P r2) as HP.
  { intros r1 r2 (H1 & H2 & H3 & H4) [] Ht. unfold P. split; [done|]. split_and!; congruence. }
  apply safe_bind; [steady|]. apply safe_modify.
  apply safe_bind; [steady|]. eapply (safe_mono _ (λ _, P)).
  { eapply safe_mono; [eapply (close_safe m0 begun refs oa)|]; [|exact Hc|exact Hwf|].
    - by eapply tends_same; [|apply Hm].
    - intros u r' (Hrest & Hatt & Ht). unfold P. rewrite Hatt.
      2:{ rewrite Hid. simpl. fold (mdelete (V := OpenAttempt) str_eqb id (rp_attempts r)). rewrite (mget_mdelete str_eqb str_eqb_eq). by rewrite decide_True. }
      simpl. rewrite (sr_failures _ _ Hrest), (sr_root _ _ Hrest). simpl.
      split; [exact Ht|]. split; [by rewrite cores_delete|]. split; apply Hm. }
  intros u1 r1 HP1. cbv beta in HP1. apply safe_bind; [steady|].
  eapply safe_mono; [apply (forM_safe _ _ P)|]; [steady| |exact HP1|].
  { intros a r2 _ HP2. case_match; [by apply safe_ret|].
    eapply safe_mono; [eapply (attach_safe hk identity cfg Hcfg (oa_id oa) None a m1)|].
    - apply HP2.
    - unfold m1. by rewrite mget_mset_eq.
    - done.
    - done.
    - done.
    - intros u r3 [Hsame Ht]. by eapply HP. }
  intros u2 r2 HP2. cbv beta in HP2. apply safe_bind; [steady|]. eapply safe_say_if; [apply HP2|]. intros r3 Ht3 Hs3.
  pose proof (HP _ _ HP2 Hs3 Ht3) as HP3. apply safe_bind; [steady|]. apply safe_read.
  apply safe_bind; [steady|]. eapply safe_say_if; [apply HP3|]. intros r4 Ht4 Hs4. pose proof (HP _ _ HP3 Hs4 Ht4) as HP4.
  apply safe_bind; [steady|]. eapply safe_say_if; [apply HP4|]. intros r5 Ht5 Hs5. pose proof (HP _ _ HP4 Hs5 Ht5) as HP5.
  eapply safe_mono; [eapply (emit_attempt_end hk identity cfg Hcfg _ m1 begun refs r5)|].
  - apply HP5.
  - unfold wf_payload. cbn [af_attemptId af_durationMs af_failures]. split_and!; [done|exact Hd|].
    assert (Forall wf_failure (result_failures hk (rp_roots r3) (oa_stepErrorPhases oa) (wr_errors result))) as Hfl.
    { apply budget_wf. apply Forall_fmap. apply Forall_take. eapply Forall_impl; [exact Her|]. intros e He. by apply pw_failure_wf. }
    destruct (result_failures _ _ _ _); [done|exact Hfl].
  - cbn [af_attemptId]. unfold m1. by rewrite mget_mset_eq.
  - done.
  - intros u r' [Hsame Ht]. destruct HP5 as (H1 & H2 & H3 & H4). split.
    + rewrite (ss_attempts _ _ Hsame), H2. cbn [af_attemptId] in Ht. unfold m1 in Ht. rewrite Hid in Ht.
      by rewrite mdelete_mset in Ht by apply str_eqb_eq.
    + by rewrite (ss_failures _ _ Hsame).
    + by rewrite (ss_root _ _ Hsame).
Qed.

(** ** onError *)

Lemma minds_say key msg begun refs r :
  minds begun refs r → safe (say hk key msg) (λ _ r', minds begun refs r') r.
Proof. intros Hm. eapply safe_say; [apply Hm|]. intros r' Ht Hs. by eapply minds_same. Qed.

Lemma keep_failure_minds f phase begun refs r :
  minds begun refs r → wf_failure f → safe (keep_session_failure hk f phase) (λ _ r', minds begun refs r') r.
Proof.
  intros Hm Hf. unfold keep_session_failure. apply safe_bind; [steady|]. apply safe_read. case_match.
  - apply safe_modify. destruct Hm as [Ht Hl Hr]. split; [by eapply tends_same; [|exact Ht]| |done].
    simpl. apply Forall_app. split; [done|]. by constructor.
  - apply safe_bind; [steady|]. apply safe_modify. apply safe_bind; [steady|]. apply safe_read. apply minds_say.
    destruct Hm as [Ht Hl Hr]. split; [by eapply tends_same; [|exact Ht]|done|done].
Qed.

Lemma onError_minds error begun refs r :
  minds begun refs r → safe_error error →
  lossy_reporter (onError hk error r) ∨ minds begun refs (onError hk error r).
Proof.
  intros Hm He. apply guard_safe. unfold onError_body.
  apply safe_bind; [steady|]. apply safe_read.
  match goal with |- context [PwMapping.failure ?a ?b error ?c None] => set (f := PwMapping.failure a b error c None) end.
  assert (wf_failure f) as Hf by by apply pw_failure_wf.
  apply safe_bind; [steady|]. apply safe_read. apply safe_bind; [steady|]. apply safe_read.
  apply safe_bind; [steady|]. apply safe_read.
  destruct (if has_session r then _ else _) as [file|].
  - apply safe_bind; [steady|]. apply safe_read. apply safe_bind; [steady|].
    eapply safe_mono; [eapply (emit_scope hk identity cfg Hcfg _ _ begun refs r); [apply Hm|]|].
    + split_and!; simpl; [done|done| |exact Hf]. constructor; [|constructor]. by case_match.
    + intros u r' [Hsame Ht]. apply minds_say. by eapply minds_same.
  - destruct (invocationPhase hk error r) as [phase|]; [|by apply minds_say].
    apply safe_bind; [steady|]. eapply safe_mono; [by apply keep_failure_minds|].
    intros u r' Hm'. by apply minds_say.
Qed.

End callbacks.
