(* ===== verification/PwRun.v ===== *)
(** * A whole invocation

    [onEnd] gives up the attempts left open and ends the session, and the run
    when its id is this invocation's own; with [onBegin] and the callbacks
    before it, what Playwright's calls leave behind is a valid report. *)

From S2P Require Import Prelude Io JsString JsBytes JsMap JsSort Json Model Codec CodecProps History Redactor SafeName Session SessionSpec SessionEmit PwText PwMapping PwConfig PwReporter PwTrack PwReporterSpec.

Local Open Scope Z_scope.

Section run.
Context {S : Type} `{SinkLaws S} `{!SoundStore S} (hk : Hooks S).
Context (identity : str → str) (cfg : SessionConfig) (Hcfg : config_sound cfg) (root : str).
Abbreviation log s := (committed (sink s)).
Abbreviation body := (io (Reporter S) Thrown).
Abbreviation tends := (tends identity cfg).
Abbreviation minds := (minds identity cfg root).

(** ** onEnd *)

(** The attempts left open, given up in turn. *)
Lemma abandon_loop begun refs : Forall wf_id begun → ∀ l r,
  tends (cores l) begun refs r →
  safe (forM_ (mvalues l) (abandon hk)) (λ _ r', same_rest r r' ∧ tends [] begun refs r') r.
Proof.
  intros Hb l. induction l as [|[k oa] l IH]; intros r Ht; [by apply safe_ret|].
  change (mvalues ((k, oa) :: l)) with (oa :: mvalues l). rewrite forM_cons. unfold abandon at 1.
  assert (mget (cores ((k, oa) :: l)) k = Some (core oa)) as Hc by (simpl; by rewrite decide_True).
  destruct Ht as (s & Hs & Hl & Hst & Hlaw & Htk). pose proof (tk_open _ _ _ _ _ Htk _ _ Hc) as Htr.
  pose proof (tr_id _ _ _ _ Htr) as Hid. simpl in Hid. subst k.
  assert (wf_id (oa_id oa)) as Hwf.
  { rewrite Forall_forall in Hb. apply Hb. by eapply open_begun. }
  pose proof (tk_keys _ _ _ _ _ Htk) as Hk.
  apply safe_bind; [unfold abandon; steady|]. apply safe_bind; [steady|].
  eapply safe_mono; [eapply (close_safe hk identity cfg Hcfg (cores ((oa_id oa, oa) :: l)) begun refs oa); [by exists s|exact Hc|exact Hwf]|].
  intros u r1 (Hr1 & _ & Ht1).
  eapply safe_mono; [eapply (emit_attempt_end hk identity cfg Hcfg _ _ begun refs r1); [exact Ht1|split_and!; [exact Hwf|done|done]|by rewrite mget_mset_eq|done]|].
  intros u2 r2 [Hs2 Ht2]. cbn [af_attemptId] in Ht2. rewrite mdelete_mset in Ht2 by apply str_eqb_eq.
  change (cores ((oa_id oa, oa) :: l)) with ((oa_id oa, core oa) :: cores l) in Ht2, Hk.
  rewrite mdelete_head in Ht2; [|apply str_eqb_eq|exact Hk].
  eapply safe_mono; [by apply IH|]. intros u3 r3 [Hr3 Ht3]. split; [|done].
  etrans; [exact Hr1|]. etrans; [by apply same_state_rest|done].
Qed.

(** The outcome of the invocation can be written. *)
Lemma outcome_safe raw m begun refs r :
  tends m begun refs r → Forall wf_failure (rp_sessionFailures r) →
  safe (outcome_of hk raw) (λ o r', tends m begun refs r' ∧ same_state r r' ∧
    wf_payload (SessionFinished o) ∧ outcomeViolation o = None) r.
Proof.
  intros Ht Hf. unfold outcome_of. destruct (sessionStatus raw) as [st|].
  - apply safe_bind; [steady|]. apply safe_read. cbv zeta. apply safe_bind; [steady|].
    eapply safe_say_if; [exact Ht|]. intros r' Ht' Hs'. apply safe_ret. split; [done|]. split; [done|].
    pose proof (budget_wf _ Hf) as Hb. set (kept := withinBudget (rp_sessionFailures r)) in *.
    destruct st; simpl; (destruct kept as [|f fs]; simpl; (split; [|done]); split_and!; try done; by split).
  - apply safe_bind; [steady|]. eapply safe_say; [exact Ht|]. intros r' Ht' Hs'. apply safe_ret.
    split; [done|]. split; [done|]. split; [|done]. by split_and!.
Qed.

(** A reporter that has let go of its session, which has ended as it should. *)
Definition has_ended (ends_run : bool) (r : Reporter S) : Prop :=
  rp_session r = None ∧ ∃ s, rp_ended r = Some (cfg, s) ∧ concluded cfg ends_run (log s).


Lemma steady_abandon oa : steady (abandon hk oa).
Proof. unfold abandon. steady. Qed.

Lemma steady_outcome raw : steady (outcome_of hk raw).
Proof. unfold outcome_of. steady. Qed.

(** The body after the open attempts were given up, in the order of its calls. *)
Definition ending_last : body unit :=
  on_session hk tt close ;;
  modify (λ r, r <| rp_ended := match rp_session r with Some x => Some x | None => rp_ended r end |> <| rp_session := None |>).
Definition ending_tail (ends_run finished : bool) : body unit :=
  (if finished && ends_run then _ ← on_session hk false finishRun; mret tt else mret tt) ;; ending_last.
Definition ending (raw : str) (ends_run : bool) : body unit :=
  o ← outcome_of hk raw; finished ← on_session hk false (λ scfg, finish scfg o); ending_tail ends_run finished.

Lemma steady_leave : steady (S := S) (modify (λ r, r <| rp_ended := match rp_session r with Some x => Some x | None => rp_ended r end |> <| rp_session := None |>)).
Proof. by apply steady_modify. Qed.

Lemma steady_last : steady ending_last.
Proof. apply steady_bind; [apply steady_session; intros; apply close_path|intros _; apply steady_leave]. Qed.

Lemma steady_tail ends_run finished : steady (ending_tail ends_run finished).
Proof.
  unfold ending_tail. apply steady_bind; [destruct (_ && _); [|apply steady_ret]|intros; apply steady_last].
  apply steady_bind; [apply steady_session; intros; apply finishRun_path|intros; apply steady_ret].
Qed.

Lemma steady_ending raw ends_run : steady (ending raw ends_run).
Proof.
  apply steady_bind; [apply steady_outcome|intros o].
  apply steady_bind; [apply steady_session; intros; apply finish_path|intros b; apply steady_tail].
Qed.

(** A call of the session that ends it, or loses something. *)
Lemma on_session_safe {A} (d : A) (m : SessionConfig → ReportSession S → outcome A) s r (P : A → ReportSession S → Prop) :
  rp_session r = Some (cfg, s) →
  (let '(res, s') := m cfg s in lossy s' ∨ ∃ a, res = Ok a ∧ P a s') →
  safe (on_session hk d m) (λ a r', same_state r r' ∧ ∃ s', rp_session r' = Some (cfg, s') ∧ P a s') r.
Proof.
  intros Hs Hm. pose proof (on_session_run hk d m cfg s r Hs) as Hrun. destruct (m cfg s) as [res s'].
  destruct Hrun as (r' & E & Hs' & Hsame). unfold safe, wp. rewrite E.
  destruct Hm as [Hlossy|(a & -> & Ha)]; [|right; eauto].
  assert (lossy_reporter r') as Hlr by (exists (cfg, s'); unfold the_session; by rewrite Hs').
  destruct res; [by left|done].
Qed.

Lemma ending_safe raw ends_run begun refs r :
  tends [] begun refs r → Forall wf_failure (rp_sessionFailures r) →
  safe (ending raw ends_run) (λ _ r', has_ended ends_run r') r.
Proof.
  intros Ht Hf. unfold ending.
  apply safe_bind; [intros o; apply steady_bind; [apply steady_session; intros; apply finish_path|apply steady_tail]|].
  eapply safe_mono; [by apply outcome_safe|].
  intros o r1 ((s & Hs & Hl & Hst & Hlaw & Htk) & _ & Hp & Ho). apply safe_bind; [apply steady_tail|].
  eapply safe_mono; [apply (on_session_safe _ _ s r1 (λ b s', b = true ∧ live cfg s' ∧ state s' = SessionFinishedState ∧
    concluded cfg false (log s')) Hs)|].
  { pose proof (finish_concludes cfg Hcfg identity o begun refs s Hl Hst Hlaw Htk Hp Ho) as Hf'.
    destruct (finish cfg o s) as [res s']. naive_solver. }
  intros b r2 (_ & s2 & Hs2 & -> & Hl2 & Hst2 & Hc2). unfold ending_tail. apply safe_bind; [intros; apply steady_last|].
  eapply (safe_mono _ (λ _ r', ∃ s', rp_session r' = Some (cfg, s') ∧ concluded cfg ends_run (log s') ∧
    (state s' = SessionFinishedState ∨ state s' = RunFinishedState))).
  { destruct ends_run; [|apply safe_ret; eauto]. apply safe_bind; [intros; apply steady_ret|].
    eapply safe_mono; [apply (on_session_safe _ _ s2 r2 (λ b s', state s' = RunFinishedState ∧ concluded cfg true (log s')) Hs2)|].
    - pose proof (finishRun_concludes cfg Hcfg s2 Hl2 Hst2 Hc2) as Hf'. destruct (finishRun cfg s2) as [res s']. naive_solver.
    - intros b r3 (_ & s3 & Hs3 & ? & ?). apply safe_ret. eauto 10. }
  intros u r3 (s3 & Hs3 & Hc3 & Hst3). unfold ending_last. apply safe_bind; [intros; apply steady_leave|].
  eapply safe_mono; [apply (on_session_safe _ _ s3 r3 (λ _ s', log s' = log s3) Hs3)|].
  { destruct (close_ended cfg s3 Hst3) as (s' & -> & Hlog & _). eauto. }
  intros u' r4 (_ & s4 & Hs4 & Hlog). apply safe_modify. split; [done|]. exists s4. simpl. by rewrite Hs4, Hlog.
Qed.

Ltac steady_end := steady; first [apply steady_abandon|apply steady_outcome|apply steady_leave
  |apply steady_session; intros; first [apply finish_path|apply finishRun_path|apply close_path]].

Lemma steady_onEnd raw : steady (onEnd_body hk raw).
Proof. unfold onEnd_body. steady_end. Qed.

Lemma onEnd_ends raw rc begun refs r :
  minds begun refs r → Forall wf_id begun → rp_config r = Some rc →
  lossy_reporter (onEnd_close hk raw r) ∨ has_ended (rc_runIdGenerated rc) (onEnd_close hk raw r).
Proof.
  intros Hm Hb Hrc. apply guard_safe. destruct (minds_session _ _ _ _ _ _ Hm) as [s0 Hsess].
  eapply with_session_safe; [exact Hsess|steady_end|].
  apply safe_bind; [steady_end|]. apply safe_read. rewrite Hrc.
  apply safe_bind; [steady_end|]. apply safe_read.
  apply safe_bind; [intros; apply steady_ending|]. 
  eapply (safe_mono _ (λ _ r', tends [] begun refs r' ∧ Forall wf_failure (rp_sessionFailures r'))).
  - destruct (rp_attempts r) as [|x l] eqn:E.
    + apply safe_ret. destruct Hm as [Ht Hf _]. rewrite E in Ht. done.
    + apply safe_bind; [steady_end|]. eapply safe_say; [apply Hm|]. intros r1 Ht1 Hs1. rewrite E in Ht1.
      apply safe_bind; [steady|]. eapply safe_mono; [by apply abandon_loop|].
      intros u r2 [Hrest Ht2]. apply safe_modify. split; [by eapply tends_same; [|exact Ht2]|].
      simpl. rewrite (sr_failures _ _ Hrest), (ss_failures _ _ Hs1). apply Hm.
  - intros u r1 [Ht Hf]. by eapply ending_safe.
Qed.

(** ** onBegin *)

Lemma start_lawful p (k : S) :
  committed k = [] → is_Some (ss_runner p) →
  let '(res, s) := start cfg p k in
  lossy s ∨ res = Ok true ∧ live cfg s ∧ state s = Active ∧ lawful cfg (log s) ∧ track identity [] [] [] (log s).
Proof.
  intros Hk [c Hc]. set (s0 := new_session k).
  assert (live cfg s0) as Hl by (split; simpl; [by split; simpl; rewrite ?Hk|done|done|rewrite Hk; set_solver]).
  pose proof (emit_live cfg Hcfg (SessionStarted p) s0 Hl eq_refl I I) as He. unfold start. fold s0.
  destruct (emit cfg (SessionStarted p) s0) as [res s]. destruct He as [?|(-> & Hw & Hst)]; [by left|right].
  split; [done|]. split; [apply Hw|]. split; [done|]. rewrite (wr_log _ _ _ _ Hw). simpl. rewrite Hk. simpl.
  set (e := event_of cfg (SessionStarted p) s0). split; split.
  - apply (valid_snoc [] e); [constructor|]. split; [split; set_solver|]. by split.
  - unfold runner_name, sess_started. simpl. rewrite str_eqb_refl. simpl. rewrite Hc. simpl. eauto.
  - done.
  - done.
  - constructor.
  - done.
  - intros id [[x Hx] _]. by apply find_map_Some in Hx as (e' & ->%list_elem_of_singleton & Hx).
  - by intros env p0 ?%list_elem_of_singleton.
Qed.

Lemma say_all (l : list str) key r :
  ∃ d, forM_ (S := S) l (λ note, say hk (key note) note) r = (Ok tt, r <| rp_diagnostics := d |>).
Proof.
  revert r. induction l as [|n l IH]; intros r; [exists (rp_diagnostics r); by destruct r|].
  destruct (IH (diagnose hk (key n) n r)) as [d Hd]. exists d. rewrite forM_cons. unfold mbind, io_mbind. simpl.
  rewrite Hd. done.
Qed.

Lemma start_session_minds rc config k r :
  session_config hk rc = cfg → rp_session r = None → rp_attempts r = [] → rp_sessionFailures r = [] → rp_rootDir r = root →
  hk_openSink hk (rc_runDirectory rc) (rc_sessionId rc) (rc_maxAttachmentBytes rc) = Ok k → committed k = [] →
  let '(res, r') := start_session hk rc config r in
  match res with Ok _ => lossy_reporter r' ∨ minds [] [] r' | Throw _ => rp_session r' = None end.
Proof.
  intros Hcf Hs Ha Hf Hr Hk Hk0. unfold start_session. rewrite Hk, Hcf.
  pose proof (start_lawful (started_payload hk config) k Hk0 ltac:(by eexists)) as Hst.
  destruct (start cfg (started_payload hk config) k) as [res s].
  destruct (report_problems_same hk (new_session k) s r) as [Hsame Hses].
  destruct res as [b|e]; [|by rewrite Hses].
  destruct Hst as [Hl|(_ & Hl & Hst & Hlaw & Ht)]; [left; by exists (cfg, s)|right].
  split; simpl.
  - rewrite (ss_attempts _ _ Hsame), Ha. by exists s.
  - by rewrite (ss_failures _ _ Hsame), Hf.
  - by rewrite (ss_root _ _ Hsame), Hr.
Qed.

Lemma onBegin_minds rc config k :
  resolveConfig (hk_path hk) (hk_sha256_utf8 hk) (hk_uuid hk) (hk_process hk) (hk_to_number hk)
    (hk_number_text hk) (hk_options hk)
    {| cx_env := hk_env hk; cx_cwd := hk_cwd hk; cx_shard := fc_shard config |} = Ok rc →
  session_config hk rc = cfg → fc_rootDir config = root →
  hk_openSink hk (rc_runDirectory rc) (rc_sessionId rc) (rc_maxAttachmentBytes rc) = Ok k → committed k = [] →
  let r := onBegin hk config new_reporter in
  is_Some (rp_session r) → lossy_reporter r ∨ minds [] [] r ∧ rp_config r = Some rc.
Proof.
  intros Hrc Hcf Hroot Hk Hk0. cbv zeta. unfold onBegin, guard.
  enough (let '(res, r) := onBegin_body hk config new_reporter in ∃ u, res = Ok u ∧
    (is_Some (rp_session r) → lossy_reporter r ∨ minds [] [] r ∧ rp_config r = Some rc)) as Hb.
  { destruct (onBegin_body hk config new_reporter) as [res r]. by destruct Hb as (u & -> & Hb). }
  unfold onBegin_body. set (r0 := set_roots hk config new_reporter).
  unfold mbind at 1, io_mbind at 1. cbn [modify io_do]. fold r0. rewrite Hrc.
  destruct (say_all (rc_notes rc) (λ note, js "config:" ++ note) r0) as [d Hd].
  unfold mbind at 1, io_mbind at 1. rewrite Hd. destruct (rc_enabled rc); cbn [negb].
  2:{ exists tt. split; [done|]. by intros []. }
  set (r1 := r0 <| rp_diagnostics := d |>).
  pose proof (start_session_minds rc config k r1 Hcf eq_refl eq_refl eq_refl Hroot Hk Hk0) as Hm.
  unfold mbind at 1, io_mbind at 1. unfold try_catch, mbind at 1, io_mbind at 1.
  destruct (start_session hk rc config r1) as [[u|e] r2]; exists tt; (split; [done|]).
  2:{ intros [x Hx]. simpl in Hx. by rewrite Hm in Hx. }
  intros _. destruct Hm as [Hl|[Ht Hf Hr]]; [left|right].
  - exact Hl.
  - split; [|done]. split; [by eapply tends_same; [|exact Ht]|done|done].
Qed.

(** ** What a body leaves alone *)

Definition keeps_config {A} (m : body A) : Prop := ∀ r, rp_config (m r).2 = rp_config r.

Lemma keeps_bind {A B} (m : body A) (f : A → body B) : keeps_config m → (∀ a, keeps_config (f a)) → keeps_config (m ≫= f).
Proof using. intros Hm Hf r. unfold mbind, io_mbind. specialize (Hm r). destruct (m r) as [[a|e] r']; [by rewrite Hf|done]. Qed.
Lemma keeps_session {A} (d : A) m : keeps_config (on_session hk d m).
Proof using.
  intros r. destruct (rp_session r) as [[c s]|] eqn:E; [|unfold on_session; by rewrite E].
  pose proof (on_session_run hk d m c s r E) as Hr. destruct (m c s) as [res s']. destruct Hr as (r' & -> & _ & Hs).
  by apply ss_config.
Qed.
Lemma keeps_emit p : keeps_config (emit_event hk p).
Proof using. apply keeps_bind; [apply keeps_session|done]. Qed.
Lemma keeps_forM {A} (l : list A) (f : A → body unit) : (∀ x, keeps_config (f x)) → keeps_config (forM_ l f).
Proof using. intros Hf. induction l; simpl; [done|]. apply keeps_bind; [done|by intros]. Qed.
Lemma keeps_attach attempt stepId a : keeps_config (attach_one hk attempt stepId a).
Proof using.
  unfold attach_one. cbv zeta. destruct (pa_body a); [|destruct (pa_path a)]; try done;
    (apply keeps_bind; [apply keeps_session|done]).
Qed.
Lemma keeps_guard name m r : keeps_config m → rp_config (guard hk name m r) = rp_config r.
Proof using. intros Hm. unfold guard. specialize (Hm r). destruct (m r) as [[]]; exact Hm. Qed.

Lemma steady_guard name m r : steady m → lossy_reporter r → lossy_reporter (guard hk name m r).
Proof using. intros Hm Hr. specialize (Hm r Hr). unfold guard. destruct (m r) as [[]]; exact Hm. Qed.
End run.

Ltac keeps :=
  repeat (intros; match goal with
  | |- keeps_config (mbind _ _) => apply keeps_bind
  | |- keeps_config (mret _) => done
  | |- keeps_config (read_ _) => done
  | |- keeps_config (say _ _ _) => done
  | |- keeps_config (modify _) => done
  | |- keeps_config (on_attempt _ _) => done
  | |- keeps_config (failure_of _ _ _) => done
  | |- keeps_config (emit_event _ _) => apply keeps_emit
  | |- keeps_config (forM_ _ _) => apply keeps_forM
  | |- keeps_config (attach_one _ _ _ _) => apply keeps_attach
  | |- keeps_config (with_session _) => unfold with_session
  | |- keeps_config (closeOpenSteps _ _) => unfold closeOpenSteps
  | |- keeps_config (attach_step _ _ _ _ _) => unfold attach_step
  | |- keeps_config (keep_session_failure _ _ _) => unfold keep_session_failure
  | |- keeps_config (match ?x with _ => _ end) => destruct x
  | |- keeps_config _ => progress cbv zeta
  end).

(** ** The callbacks of a run *)

(** The attempts and the steps that a run begins. *)
Definition attempts_of (l : list Callback) : list str :=
  omap (λ c, match c with OnTestBegin t r => Some (attemptId t r) | _ => None end) l.
Definition steps_of (l : list Callback) : list (str * Z) :=
  omap (λ c, match c with OnStepBegin t r s => Some (attemptId t r, ps_ref s) | _ => None end) l.

Section callbacks.
Context {S : Type} `{SinkLaws S} `{!SoundStore S} (hk : Hooks S).
Context (identity : str → str) (root : str).

(** What a run's callbacks are trusted with: payloads that can be written, one [onTestBegin] per attempt, one
    [onStepBegin] per step object, and test ids that stand for one place in the hierarchy. *)
Record orderly (l : list Callback) : Prop := {
  od_safe : Forall safe_callback l;
  od_attempts : NoDup (attempts_of l);
  od_steps : NoDup (steps_of l);
  od_identity t r : OnTestBegin t r ∈ l → historicalId (hk_sha256_utf8 hk) (hierarchy_of hk t root) = identity (wt_id t);
}.

Context (cfg : SessionConfig) (Hcfg : config_sound cfg).
Abbreviation minds := (minds identity cfg root).

Lemma callback_steady c r : lossy_reporter r → lossy_reporter (callback hk c r).
Proof.
  destruct c; apply steady_guard;
    [unfold onTestBegin_body|unfold onStepBegin_body|unfold onStepEnd_body|unfold onTestEnd_body|unfold onError_body]; steady.
Qed.

Lemma callback_config c r : rp_config (callback hk c r) = rp_config r.
Proof.
  destruct c; apply keeps_guard;
    [unfold onTestBegin_body|unfold onStepBegin_body|unfold onStepEnd_body|unfold onTestEnd_body|unfold onError_body]; keeps.
Qed.

(** One callback: a loss, or the reporter minds what has begun by it. *)
Lemma callback_minds c begun refs r :
  minds begun refs r → safe_callback c →
  (∀ id, id ∈ attempts_of [c] → id ∉ begun) → (∀ x, x ∈ steps_of [c] → x ∉ refs) →
  (∀ t rs, c = OnTestBegin t rs → historicalId (hk_sha256_utf8 hk) (hierarchy_of hk t root) = identity (wt_id t)) →
  lossy_reporter (callback hk c r) ∨ minds (attempts_of [c] ++ begun) (steps_of [c] ++ refs) (callback hk c r).
Proof.
  intros Hm Hs Ha Hst Hi. destruct c as [t rs|t rs st|t rs st|t rs|e]; simpl in Ha, Hst.
  - apply onTestBegin_minds; [done..|apply Ha; by left|by eapply Hi].
  - apply onStepBegin_minds; [done..|apply Hst; by left].
  - by apply onStepEnd_minds.
  - by apply onTestEnd_minds.
  - by apply onError_minds.
Qed.

Lemma callbacks_lossy l r : lossy_reporter r → lossy_reporter (callbacks hk l r).
Proof. revert r. induction l as [|c l IH]; [done|]. intros r Hr. by apply IH, callback_steady. Qed.

Lemma callbacks_config l r : rp_config (callbacks hk l r) = rp_config r.
Proof. revert r. induction l as [|c l IH]; [done|]. intros r. simpl. by rewrite IH, callback_config. Qed.

Lemma attempts_cons c l : attempts_of (c :: l) = attempts_of [c] ++ attempts_of l.
Proof. by destruct c. Qed.
Lemma steps_cons c l : steps_of (c :: l) = steps_of [c] ++ steps_of l.
Proof. by destruct c. Qed.

Lemma attempts_wf c : safe_callback c → Forall wf_id (attempts_of [c]).
Proof. destruct c; simpl; [|constructor..]. intros Hs. constructor; [by apply attemptId_wf|constructor]. Qed.

Lemma orderly_cons c l : orderly (c :: l) → orderly l.
Proof.
  intros [Hs Ha Ht Hi]. rewrite attempts_cons, steps_cons in *. split.
  - by apply Forall_cons in Hs as [_ ?].
  - by apply NoDup_app in Ha as (_ & _ & ?).
  - by apply NoDup_app in Ht as (_ & _ & ?).
  - intros t r Hin. apply (Hi t r). by right.
Qed.

Lemma callbacks_minds l : ∀ begun refs r,
  orderly l → minds begun refs r → Forall wf_id begun →
  (∀ id, id ∈ attempts_of l → id ∉ begun) → (∀ x, x ∈ steps_of l → x ∉ refs) →
  lossy_reporter (callbacks hk l r) ∨
  ∃ begun' refs', minds begun' refs' (callbacks hk l r) ∧ Forall wf_id begun'.
Proof.
  induction l as [|c l IH]; intros begun refs r Ho Hm Hb Ha Ht; [right; eauto|].
  pose proof (orderly_cons _ _ Ho) as Ho'. destruct Ho as [Hs Hna Hnt Hi]. rewrite attempts_cons in Ha, Hna. rewrite steps_cons in Ht, Hnt.
  apply Forall_cons in Hs as [Hs _]. apply NoDup_app in Hna as (_ & Hna & _). apply NoDup_app in Hnt as (_ & Hnt & _).
  simpl. destruct (callback_minds c begun refs r) as [Hl|Hm']; [done|done| | | |left; by apply callbacks_lossy|].
  - intros id Hin. apply Ha. apply elem_of_app. by left.
  - intros x Hin. apply Ht. apply elem_of_app. by left.
  - intros t rs ->. apply (Hi t rs). by left.
  - apply (IH (attempts_of [c] ++ begun) (steps_of [c] ++ refs)); [done|done| | |].
    + apply Forall_app. split; [by apply attempts_wf|done].
    + intros id Hin. rewrite elem_of_app. intros [?|?]; [by apply (Hna id)|]. by eapply Ha; [apply elem_of_app; right|].
    + intros x Hin. rewrite elem_of_app. intros [?|?]; [by apply (Hnt x)|]. by eapply Ht; [apply elem_of_app; right|].
Qed.
End callbacks.

(** ** The whole invocation *)

Section invocation.
Context {S : Type} `{SinkLaws S} `{!SoundStore S} (hk : Hooks S).

(** The reporter after Playwright's calls up to the end, and after the end. *)
Definition before_end (config : FullConfig) (l : list Callback) : Reporter S := callbacks hk l (onBegin hk config new_reporter).
Definition after_end (config : FullConfig) (l : list Callback) (raw : str) : Reporter S :=
  onEnd_close hk raw (before_end config l).

(** What the reporter is given: ids and times the protocol admits, and a sink with nothing in it yet. *)
Record sound_hooks (config : FullConfig) (rc : ResolvedConfig) (k : S) : Prop := {
  sh_resolved : resolveConfig (hk_path hk) (hk_sha256_utf8 hk) (hk_uuid hk) (hk_process hk) (hk_to_number hk)
    (hk_number_text hk) (hk_options hk) {| cx_env := hk_env hk; cx_cwd := hk_cwd hk; cx_shard := fc_shard config |} = Ok rc;
  sh_config : config_sound (session_config hk rc);
  sh_sink : hk_openSink hk (rc_runDirectory rc) (rc_sessionId rc) (rc_maxAttachmentBytes rc) = Ok k;
  sh_empty : committed k = [];
}.

(** The reporter's session has lost something. *)
Definition has_lost (r : Reporter S) : Prop :=
  ∃ cfg s, the_session r = Some (cfg, s) ∧ (0 < dropped s ∨ max_safe_integer <= sequence_ s).

Lemma lost_lossy r : lossy_reporter r → has_lost r.
Proof. intros [[c s] [Hx Hl]]. by exists c, s. Qed.

Lemma before_end_minds config rc k identity l :
  sound_hooks config rc k → orderly hk identity (fc_rootDir config) l →
  is_Some (rp_session (onBegin hk config new_reporter)) →
  lossy_reporter (before_end config l) ∨
  ∃ begun refs, minds identity (session_config hk rc) (fc_rootDir config) begun refs (before_end config l) ∧
    Forall wf_id begun ∧ rp_config (before_end config l) = Some rc.
Proof.
  intros [Hrc Hcfg Hk Hk0] Ho Hs.
  destruct (onBegin_minds hk identity (session_config hk rc) Hcfg (fc_rootDir config) rc config k Hrc eq_refl eq_refl Hk Hk0 Hs) as [Hl|[Hm Hc]].
  - left. by apply callbacks_lossy.
  - destruct (callbacks_minds hk identity (fc_rootDir config) (session_config hk rc) Hcfg l [] [] _ Ho Hm) as [?|(begun & refs & Hm' & Hb)];
      [constructor|set_solver|set_solver|by left|right].
    exists begun, refs. split_and!; [done|done|]. unfold before_end. by rewrite callbacks_config.
Qed.

Lemma after_end_ends config rc k identity l raw :
  sound_hooks config rc k → orderly hk identity (fc_rootDir config) l →
  is_Some (rp_session (onBegin hk config new_reporter)) →
  has_lost (after_end config l raw) ∨ has_ended (session_config hk rc) (rc_runIdGenerated rc) (after_end config l raw).
Proof.
  intros Hh Ho Hs. destruct (before_end_minds config rc k identity l Hh Ho Hs) as [Hl|(begun & refs & Hm & Hb & Hc)].
  - left. apply lost_lossy, steady_guard; [apply steady_onEnd|exact Hl].
  - destruct (onEnd_ends hk identity _ (sh_config _ _ _ Hh) _ raw rc begun refs _ Hm Hb Hc) as [Hl|He]; [left|by right].
    by apply lost_lossy.
Qed.
End invocation.
