(* ===== verification/PwRunProps.v ===== *)
(** * What an invocation leaves behind

    The reports Playwright runs leave are valid histories: at every moment, and at
    the end, where the validator reading the lines back reports a complete run
    exactly when the event schema, which is not part of the model, accepts each. *)

From S2P Require Import Prelude Io JsString JsBytes JsMap JsSort Json Model Codec CodecProps History JsNumber JsDate Instants Redactor SafeName Validator ValidatorRun ValidatorTables ValidatorSound ValidatorReport ValidatorSpec Demo Session SessionSpec SessionEmit PwText PwMapping PwConfig PwReporter PwTrack PwReporterSpec PwRun.

Local Open Scope Z_scope.

(** ** Complete histories *)

(** An attempt that finished has no step open. *)
Lemma valid_steps_closed h id sid :
  valid_history h → is_Some (att_finished h id) → is_Some (step_started h id sid) → is_Some (step_finished h id sid).
Proof.
  induction 1 as [|h e Hv IH Ha]; [by intros []|].
  rewrite att_finished_snoc, step_started_snoc, step_finished_snoc, !or_else_is_Some.
  destruct Ha as (_ & _ & Hp). intros [Hf|Hf] [Hs|Hs]; auto.
  - exfalso. destruct e as [[env []]|]; simpl in *; try by destruct Hs.
    apply is_Some_if, andb_true_iff in Hs as [<-%str_eqb_eq _].
    destruct Hp as ((_ & Hn) & _). rewrite Hn in Hf. by destruct Hf.
  - left. destruct e as [[env []]|]; simpl in *; try by destruct Hf.
    apply is_Some_if, str_eqb_eq in Hf as <-. by apply Hp.
  - exfalso. destruct e as [[env []]|]; simpl in *; try by destruct Hf.
Qed.

Lemma session_has_event h sid :
  is_Some (sess_started h sid) → ∃ e, e ∈ h ∧ sessionId (any_env e) = sid.
Proof.
  intros [p (e & He & Hs)%find_map_Some]. exists e. split; [done|].
  destruct e as [[env []]|]; simpl in *; try done. destruct (str_eqb _ _) eqn:E; [|done]. by apply str_eqb_eq.
Qed.

Lemma concluded_complete cfg ends_run h : concluded cfg ends_run h → complete h.
Proof.
  intros Hc. split.
  - intros sid' (e & He & <-)%session_has_event. destruct (cl_own _ _ _ Hc e He) as [-> _]. apply Hc.
  - apply Hc.
  - intros id sid Hs. apply valid_steps_closed; [apply Hc| |done]. apply Hc. by eapply valid_step_attempt; [apply Hc|].
Qed.

(** ** Reading the lines back *)

Section lines.
Context (json_parse : str → json + str).
Context (schema : option str → json → option (list ErrorObject)).
Context (cfg : SessionConfig).

(** [JSON.parse] gives back what [JSON.stringify] wrote. *)
Definition parses_back (e : AnyEvent) : Prop :=
  json_parse (stringifyEvent e) = inl (JObj (eventToObject e)).

(** The schema of its type accepts the event. *)
Definition accepted (e : AnyEvent) : Prop :=
  schema (if isKnownEvent e then Some (any_type e) else None) (JObj (eventToObject e)) = None.

Lemma line_not_blank e : is_blank (stringifyEvent e) = false.
Proof. done. Qed.

Lemma readable_line e :
  readable cfg e → parses_back e → accepted e →
  readLine json_parse schema (cf_maxEventBytes cfg) (stringifyEvent e) = LineEvent e (JObj (eventToObject e)).
Proof.
  intros (Hwf & Hn & Hb) Hp Hs. unfold readLine. cbv zeta. unfold event_bytes in Hb.
  destruct (Z.ltb_spec (cf_maxEventBytes cfg) (utf8_length (stringifyEvent e) + 1)); [lia|].
  rewrite Hp. cbn [eventFromObject]. by rewrite (event_write e Hwf), Hn, Hs.
Qed.

(** A line the validator took as an event was accepted by the schema. *)
Lemma accepted_line limit e e' parsed :
  readable cfg e → parses_back e → readLine json_parse schema limit (stringifyEvent e) = LineEvent e' parsed → accepted e.
Proof.
  intros (Hwf & Hn & _) Hp. unfold readLine. cbv zeta. destruct (limit <? _); [done|]. rewrite Hp. cbn [eventFromObject]. rewrite (event_write e Hwf), Hn.
  unfold accepted. destruct (schema _ (JObj (eventToObject e))) as [errors|]; [|reflexivity]. by destruct (firstError errors).
Qed.

(** Of a file that reads, every line with something on it was taken as an event. *)
Lemma lines_taken limit single r lines r' :
  reads_lines json_parse schema limit single r lines r' →
  ∀ raw, raw ∈ lines → is_blank raw = false → ∃ e parsed, readLine json_parse schema limit raw = LineEvent e parsed.
Proof.
  induction 1 as [|r r1 r2 raw lines Hl _ IH]; [by intros raw ?%elem_of_nil|].
  intros raw' [->|Hin]%elem_of_cons Hb; [|by apply IH]. destruct Hl; [congruence|eauto..].
Qed.

Definition read_back (h : history) : list reading := (λ e, (e, canonical (JObj (eventToObject e)))) <$> h.

Lemma read_back_events h : (read_back h).*1 = h.
Proof. unfold read_back. rewrite <-list_fmap_compose. apply list_fmap_id. Qed.

Lemma reads_valid h :
  valid_history h → (∀ e, e ∈ h → readable cfg e ∧ parses_back e ∧ accepted e) →
  (∀ pre e post, h = pre ++ e :: post → is_run_finished e = true → post = []) →
  reads_file json_parse schema (cf_maxEventBytes cfg) false [] (stringifyEvent <$> h) (read_back h).
Proof.
  intros Hv Hr Hlast. exists None, (from_option is_run_finished false (last h)).
  induction Hv as [|h e Hv IH Ha]; [constructor|].
  rewrite !fmap_app. eapply reads_lines_app.
  - apply IH; [intros; apply Hr; set_solver|].
    intros pre e' post -> He. specialize (Hlast pre e' (post ++ [e])). rewrite <-app_assoc in Hlast.
    by destruct (app_eq_nil _ _ (Hlast eq_refl He)).
  - destruct (Hr e ltac:(set_solver)) as (Hre & Hpe & Hae).
    econstructor; [|constructor]. rewrite last_snoc. simpl. unfold read_back. rewrite fmap_app.
    eapply (reads_event json_parse schema _ false {| rd_events := read_back h; rd_session := None; rd_closed := _ |}).
    + apply line_not_blank.
    + by apply readable_line.
    + cbn [rd_events]. by rewrite read_back_events.
    + cbn [rd_closed]. destruct (last h) as [e'|] eqn:El; [|done]. simpl.
      destruct (is_run_finished e') eqn:Ef; [|done]. apply last_Some in El as [l' ->].
      rewrite <-app_assoc in Hlast. by specialize (Hlast l' e' [e] eq_refl Ef).
    + done.
Qed.

(** The lines of a concluded session are a complete run to the validator exactly when the schema accepts every
    event. *)
Lemma concluded_validates sha fs lines file o r ends_run h :
  concluded cfg ends_run h → (∀ e, e ∈ h → parses_back e) → lines = stringifyEvent <$> h →
  default maxEventBytes_limit (opt_maxEventBytes o) = cf_maxEventBytes cfg → opt_attachmentsDir o = None →
  validateLines json_parse schema sha fs lines o file = Ok r →
  r_valid r = true ↔ ∀ e, e ∈ h → accepted e.
Proof.
  intros Hc Hp -> Ho Hd Hr. destruct (validateLines_cases _ _ _ _ _ _ _ _ Hr) as [H1 H2].
  assert (∀ e, e ∈ h → readable cfg e) as Hown by (intros e He; by apply (cl_own _ _ _ Hc)). split.
  - intros Hv e He. destruct (H2 Hv) as (g & s & c & Hg).
    destruct (lines_taken _ _ _ _ _ Hg (stringifyEvent e)) as (e' & parsed & Hl); [by apply list_elem_of_fmap_2|done|].
    eapply accepted_line; [by apply Hown|by apply Hp|exact Hl].
  - intros Ha. destruct (H1 (read_back h)) as (_ & _ & Hiff).
    + rewrite Ho. apply reads_valid; [apply Hc| |apply Hc]. auto.
    + apply Hiff. rewrite read_back_events. pose proof (concluded_complete _ _ _ Hc) as Hcm.
      split_and!; [intros _; apply Hcm|by rewrite Hd|done].
Qed.
End lines.

(** ** An invocation *)

(** C23 The run the Playwright reporter writes: for every sequence of Playwright's callbacks that is [orderly] — an
    attempt begins once, a step object begins once, a test id is an identifier and stands for one place in the
    hierarchy, retries, positions and durations are in range — whatever fails in between and whatever else is out
    of order, the reporter either has lost an event (and says so), or leaves a session whose log is a valid history in which
    the session, every attempt and every step has finished, and the run exactly when its id was this
    invocation's own. *)
Theorem playwright_run_is_complete {S} `{SinkLaws S} `{!SoundStore S} (hk : Hooks S) config rc k identity l raw :
  sound_hooks hk config rc k → orderly hk identity (fc_rootDir config) l →
  is_Some (rp_session (onBegin hk config new_reporter)) →
  let r := after_end hk config l raw in
  has_lost r ∨
  rp_session r = None ∧ ∃ s, rp_ended r = Some (session_config hk rc, s) ∧
    valid_history (committed (sink s)) ∧ complete (committed (sink s)) ∧
    (is_Some (run_finished (committed (sink s))) ↔ rc_runIdGenerated rc = true).
Proof.
  intros Hh Ho Hs. destruct (after_end_ends hk config rc k identity l raw Hh Ho Hs) as [?|[Hn (s & He & Hc)]]; [by left|right].
  split; [done|]. exists s. split_and!; [done|apply Hc|by eapply concluded_complete|apply Hc].
Qed.

(** At every moment before the end, the log of a reporter that lost nothing is a valid history of an open
    session, and the attempts the reporter holds are exactly those the history has open. *)
Theorem playwright_log_is_always_valid {S} `{SinkLaws S} `{!SoundStore S} (hk : Hooks S) config rc k identity l :
  sound_hooks hk config rc k → orderly hk identity (fc_rootDir config) l →
  is_Some (rp_session (onBegin hk config new_reporter)) →
  let r := before_end hk config l in
  has_lost r ∨
  ∃ s, rp_session r = Some (session_config hk rc, s) ∧ valid_history (committed (sink s)) ∧
    sess_finished (committed (sink s)) (rc_sessionId rc) = None ∧
    ∀ id, open_attempt (committed (sink s)) id ↔ is_Some (mget (rp_attempts r) id).
Proof.
  intros Hh Ho Hs. destruct (before_end_minds hk config rc k identity l Hh Ho Hs) as [Hl|(begun & refs & Hm & _)].
  - left. by apply lost_lossy.
  - right. destruct (md_tends _ _ _ _ _ _ Hm) as (s & E & Hl & _ & Hlaw & Ht). exists s.
    split_and!; [done|apply Hlaw|apply (lf_session _ _ Hlaw)|]. intros id. split.
    + intros Hop. destruct (tk_closed _ _ _ _ _ Ht id Hop) as [c Hc]. rewrite cores_get in Hc.
      destruct (mget _ id); [eauto|done].
    + intros [oa Hoa]. apply (tk_open _ _ _ _ _ Ht id (core oa)). by rewrite cores_get, Hoa.
Qed.

(** C22 The lines of that log, given to the validator without an attachments directory and with its own limit on a
    line, whatever other options it has, completeness required or not: unless an event was lost, they are reported
    valid exactly when the schema of its type accepts each event, so that nothing else the validator checks can
    refuse them. Of [JSON.parse] it is only used that it reads back what was written. *)
Theorem playwright_run_validates {S} `{SinkLaws S} `{!SoundStore S} (hk : Hooks S) config rc k identity l raw
    json_parse schema sha fs file o :
  sound_hooks hk config rc k → orderly hk identity (fc_rootDir config) l →
  is_Some (rp_session (onBegin hk config new_reporter)) →
  opt_maxEventBytes o = None → opt_attachmentsDir o = None →
  let r := after_end hk config l raw in
  has_lost r ∨ ∃ s, rp_ended r = Some (session_config hk rc, s) ∧
    ((∀ e, e ∈ committed (sink s) → parses_back json_parse e) →
     ∀ rep, validateLines json_parse schema sha fs (stringifyEvent <$> committed (sink s)) o file = Ok rep →
       r_valid rep = true ↔ ∀ e, e ∈ committed (sink s) → accepted schema e).
Proof.
  intros Hh Ho Hs Hm Hd. destruct (after_end_ends hk config rc k identity l raw Hh Ho Hs) as [?|[_ (s & He & Hc)]]; [by left|right].
  exists s. split; [done|]. intros Hp rep Hrep. eapply concluded_validates; [exact Hc|exact Hp|done| |exact Hd|exact Hrep].
  by rewrite Hm.
Qed.

(** *** A small run *)

#[export] Instance MemorySink_sound : SoundStore MemorySink.
Proof.
  intros b k a k'. simpl. destruct (Z.leb_spec (Z.of_nat (length b)) max_safe_integer) as [Hb|]; [|done].
  intros [= <- <-]. unfold wf_int, is_safe_integer, max_safe_integer in *. simpl. apply andb_true_iff. split; apply Z.leb_le; lia.
Qed.

Definition pw_hooks : Hooks MemorySink :=
  {| hk_options := None; hk_env := λ _, None; hk_cwd := js "/work"; hk_path := demo_path; hk_sha256_utf8 := demo_digest;
     hk_uuid := js "uuid-1"; hk_process := js "77-ab"; hk_to_number := λ _, NaN; hk_number_text := λ _, [];
     hk_node_version := js "v22"; hk_describe := λ _, js "error"; hk_openSink := λ _ _ _, Ok (memory 40);
     hk_ids := λ n, js "e" ++ dec (Z.of_nat n); hk_clock := λ _, js "2024-05-01T10:00:00.000Z";
     hk_redactText := λ s, s; hk_utf8_decode := λ _, []; hk_utf8_encode := λ _, [] |}.

Definition pw_full : FullConfig :=
  {| fc_rootDir := js "/work"; fc_globalSetup := None; fc_globalTeardown := None; fc_configFile := None;
     fc_shard := None; fc_workers := 2; fc_version := js "1.50.0" |}.

Definition pw_resolved : ResolvedConfig :=
  {| rc_enabled := true; rc_outputRoot := js "/work/qe-report"; rc_runDirectory := js "/work/qe-report/runs/uuid-1-0123456789ab";
     rc_runId := js "uuid-1"; rc_runIdGenerated := true; rc_sessionId := js "pw-77-ab"; rc_maxAttachmentBytes := None;
     rc_upload := {| ru_enabled := false; ru_baseUrl := None; ru_expiresAt := None; ru_retentionMs := None; ru_maxAttempts := None;
                     ru_attemptTimeoutMs := None; ru_allowInsecureHttp := false |};
     rc_notes := [] |}.

Definition pw_location : PwLocation := {| wl_file := js "/work/a.spec.ts"; wl_line := Some 3; wl_column := Some 1 |}.
Definition pw_test : PwTest :=
  {| wt_id := js "t1"; wt_title := js "logs in"; wt_location := pw_location;
     wt_parent := MkSuite SuFile (js "a.spec.ts") (Some (MkSuite SuProject (js "chromium") None)); wt_project := None;
     wt_annotations := []; wt_tags := []; wt_expectedStatus := js "passed" |}.
Definition pw_boom : PwError := MkError (Some (js "boom")) None None None None.
Definition pw_result (retry : Z) (status : string) (errors : list PwError) : PwResult :=
  {| wr_retry := retry; wr_workerIndex := 0; wr_status := js status; wr_duration := {| ml_num := 25; ml_scale := 1 |};
     wr_attachments := []; wr_errors := errors |}.
Definition pw_step (ref : Z) (parent : option Z) (error : option PwError) : PwStep :=
  {| ps_ref := ref; ps_parent := parent; ps_title := js "click"; ps_category := js "pw:api"; ps_location := Some pw_location;
     ps_error := error; ps_duration := {| ml_num := 7; ml_scale := 0 |};
     ps_attachments := [{| pa_ref := 9; pa_name := js "shot"; pa_contentType := js "image/png"; pa_body := Some []; pa_path := None |}] |}.

(** A first attempt that fails in a nested step and whose outer step never ends, a step that ends without a
    start, and a second attempt that never ends. *)
Definition pw_callbacks : list Callback :=
  [OnTestBegin pw_test (pw_result 0 "failed" []);
   OnStepBegin pw_test (pw_result 0 "failed" []) (pw_step 1 None None);
   OnStepBegin pw_test (pw_result 0 "failed" []) (pw_step 2 (Some 1) None);
   OnStepEnd pw_test (pw_result 0 "failed" []) (pw_step 2 (Some 1) (Some pw_boom));
   OnStepEnd pw_test (pw_result 0 "failed" []) (pw_step 8 None None);
   OnTestEnd pw_test (pw_result 0 "failed" [pw_boom]);
   OnTestBegin pw_test (pw_result 1 "passed" []);
   OnError pw_boom].

Definition pw_identity (_ : str) : str := historicalId demo_digest (hierarchy_of pw_hooks pw_test (js "/work")).

Lemma pw_hooks_sound : sound_hooks pw_hooks pw_full pw_resolved (memory 40).
Proof.
  split; [vm_compute; reflexivity| |reflexivity|reflexivity]. split; try (intros; by vm_compute).
  - intros n. apply identifier_app; [by vm_compute|]. by apply digits_identifier; lia.
  - intros n m E. apply (inj (app _)), dec_inj in E. lia.
Qed.

Lemma pw_orderly : orderly pw_hooks pw_identity (js "/work") pw_callbacks.
Proof.
  split.
  - repeat constructor; try (by vm_compute); simpl; try lia.
  - vm_compute. repeat constructor; set_solver.
  - vm_compute. repeat constructor; set_solver.
  - intros t r Hin. unfold pw_callbacks in Hin.
    repeat (apply elem_of_cons in Hin as [Hin|Hin]; [first [by injection Hin as -> _|discriminate Hin]|]). by apply elem_of_nil in Hin.
Qed.

Lemma pw_started : is_Some (rp_session (onBegin pw_hooks pw_full new_reporter)).
Proof. vm_compute. eauto. Qed.

Definition pw_log : history :=
  match rp_ended (after_end pw_hooks pw_full pw_callbacks (js "failed")) with Some (_, s) => committed (sink s) | None => [] end.

Lemma pw_not_lost : ¬ has_lost (after_end pw_hooks pw_full pw_callbacks (js "failed")).
Proof.
  intros (c & s & Hs & Hl).
  assert ((dropped <$> (snd <$> the_session (after_end pw_hooks pw_full pw_callbacks (js "failed")))) = Some 0) as Hd by (vm_compute; reflexivity).
  assert ((sequence_ <$> (snd <$> the_session (after_end pw_hooks pw_full pw_callbacks (js "failed")))) = Some 12) as Hq by (vm_compute; reflexivity).
  rewrite Hs in Hd, Hq. injection Hd as Hd. injection Hq as Hq. unfold max_safe_integer in Hl. simpl in *. lia.
Qed.

Lemma playwright_run_is_complete_witness :
  length pw_log = 12%nat ∧ valid_history pw_log ∧ complete pw_log ∧ is_Some (run_finished pw_log).
Proof.
  split; [vm_compute; reflexivity|].
  destruct (playwright_run_is_complete pw_hooks pw_full pw_resolved (memory 40) pw_identity pw_callbacks (js "failed")
    pw_hooks_sound pw_orderly pw_started) as [Hl|[_ (s & He & Hv & Hc & Hr)]]; [destruct (pw_not_lost Hl)|].
  unfold pw_log. rewrite He. split; [exact Hv|]. split; [exact Hc|]. apply Hr. reflexivity.
Defined.

Lemma playwright_log_is_always_valid_witness :
  let r := before_end pw_hooks pw_full pw_callbacks in
  has_lost r ∨
  ∃ s, rp_session r = Some (session_config pw_hooks pw_resolved, s) ∧ valid_history (committed (sink s)) ∧
    length (committed (sink s)) = 9%nat ∧ open_attempt (committed (sink s)) (js "t1-2").
Proof.
  destruct (playwright_log_is_always_valid pw_hooks pw_full pw_resolved (memory 40) pw_identity pw_callbacks
    pw_hooks_sound pw_orderly pw_started) as [Hl|(s & He & Hv & _ & Ho)]; [left; exact Hl|right].
  exists s. split; [exact He|]. split; [exact Hv|]. split; [|apply Ho; vm_compute; eauto].
  assert ((length ∘ committed ∘ sink) <$> (snd <$> rp_session (before_end pw_hooks pw_full pw_callbacks)) = Some 9%nat) as E
    by (vm_compute; reflexivity).
  rewrite He in E. injection E as E. exact E.
Defined.

Definition pw_parse (raw : str) : json + str :=
  match List.find (λ e, str_eqb (stringifyEvent e) raw) pw_log with
  | Some e => inl (JObj (eventToObject e)) | None => inr (js "unexpected token") end.

Lemma find_text {A} (f : A → str) l x : NoDup (f <$> l) → x ∈ l → List.find (λ y, str_eqb (f y) (f x)) l = Some x.
Proof.
  induction l as [|y l IH]; [by intros _ ?%elem_of_nil|]. csimpl. intros [Hy Hn]%NoDup_cons [->|Hx]%elem_of_cons.
  - by rewrite str_eqb_refl.
  - destruct (str_eqb (f y) (f x)) eqn:E; [|auto]. apply str_eqb_eq in E. destruct Hy. rewrite E. by apply list_elem_of_fmap_2.
Qed.

Lemma pw_texts : NoDup (stringifyEvent <$> pw_log).
Proof. apply (bool_decide_unpack _). by vm_compute. Qed.

Lemma pw_parses e : e ∈ pw_log → parses_back pw_parse e.
Proof. intros He. unfold parses_back, pw_parse. by rewrite (find_text _ _ _ pw_texts He). Qed.

Definition pw_report : Report :=
  from_ok (report (new_validator demo_options))
    (validateLines pw_parse demo_schema demo_sha demo_fs (stringifyEvent <$> pw_log) demo_options (js "f")).
Lemma pw_report_ok :
  validateLines pw_parse demo_schema demo_sha demo_fs (stringifyEvent <$> pw_log) demo_options (js "f") = Ok pw_report.
Proof. unfold pw_report. apply from_ok_spec. by vm_compute. Qed.

Lemma playwright_run_validates_witness : r_valid pw_report = true ∧ opt_requireComplete demo_options = true.
Proof.
  split; [|reflexivity].
  destruct (playwright_run_validates pw_hooks pw_full pw_resolved (memory 40) pw_identity pw_callbacks (js "failed")
    pw_parse demo_schema demo_sha demo_fs (js "f") demo_options pw_hooks_sound pw_orderly pw_started eq_refl eq_refl)
    as [Hl|(s & He & Hv)]; [destruct (pw_not_lost Hl)|].
  assert (pw_log = committed (sink s)) as E by (unfold pw_log; rewrite He; reflexivity).
  rewrite <-E in Hv. apply (Hv pw_parses pw_report pw_report_ok). intros e _. reflexivity.
Defined.
