(* ===== verification/BlobStore.v ===== *)
(** * The blob store (ts/packages/blob-fs)

    An immutable content-addressed store under one root: an object lies at
    [sha256/ab/cd/<sha256>], written to an exclusive temporary file, hashed and
    counted on the way, and published by an exclusive hard link. The file system
    is a world shared with other writers; every call may change it. *)

From S2P Require Import Prelude JsString JsBytes JsMap JsSort JsNumber ValidatorRun Io PwText.

Local Open Scope Z_scope.

(** ** The calls a store makes beside reading *)

(** [Dirent]: a name and what is under it. *)
Abbreviation Dirent := (str * StatKind)%type.

Class BlobDisk (W : Type) `{NodeFs W} := {
  bd_open_new : str → io W Errno Fd;             (* flag wx *)
  bd_write : Fd → bytes → io W Errno Z;          (* writeSync at the position reached *)
  bd_fsync : Fd → io W Errno unit;
  bd_fchmod : Fd → io W Errno unit;
  bd_link : str → str → io W Errno unit;
  bd_unlink : str → io W Errno unit;
  bd_mkdir : str → io W Errno unit;              (* recursive *)
  bd_readdir : str → io W Errno (list Dirent);
  bd_open_dir : str → io W Errno Fd;             (* O_RDONLY, to sync a directory *)
  bd_random : W → str * W;                       (* randomBytes(16).toString('hex') *)
  bd_relative : str → str → str;                 (* path.relative *)
  bd_sep : str;
  bd_posix : bool;                               (* the platform is not Windows *)
}.

(** ** errors.ts *)

Inductive BlobStoreErrorCode :=
| INVALID_SHA256 | INVALID_SIZE | BLOB_TOO_LARGE | SOURCE_MISSING | SOURCE_NOT_REGULAR | SOURCE_SIZE_MISMATCH
| SOURCE_HASH_MISMATCH | BLOB_MISSING | BLOB_NOT_REGULAR | BLOB_SIZE_MISMATCH | BLOB_HASH_MISMATCH
| PUBLISH_MISMATCH | BLOB_CHANGED | INVALID_TEMPORARY_NAME | ROOT_ENTRY_UNSAFE.

(** What a call of the store throws: its own error, a system error, or a [TypeError]. [Unending] is no
    exception: it is a copy that would not come to an end. *)
Inductive BlobThrown :=
| StoreError (code : BlobStoreErrorCode) (message : str) (sha256 : option str)
| SystemError (e : Errno)
| UsageError (message : str)
| Unending.

(** ** sha256.ts *)

Definition lower_hex (u : N) : bool := is_digit u || in_range 0x61 0x66 u.
Definition isSha256 (value : str) : bool := (slength value =? 64) && forallb lower_hex value.

(** ** store.ts *)

Record BlobSource := { bs_path : str; bs_sha256 : str; bs_sizeBytes : number }.
Record BlobDescriptor := { bl_sha256 : str; bl_sizeBytes : Z; bl_storageKey : str }.
Inductive PutOutcome := Stored | Existing.
Record PutResult := { pr_blob : BlobDescriptor; pr_outcome : PutOutcome }.

Inductive CasProblemCode := MALFORMED_NAME | WRONG_SHARD | NOT_REGULAR | UNEXPECTED_ENTRY.
Record CasProblem := { cp_code : CasProblemCode; cp_path : str; cp_message : str }.
Record ObjectEntry := { oe_blob : BlobDescriptor; oe_modifiedAt : Z }.
Record ObjectListing := { ol_objects : list ObjectEntry; ol_next : option str; ol_problems : list CasProblem }.
Record TemporaryFile := { tf_name : str; tf_sizeBytes : Z; tf_modifiedAt : Z }.
Record TemporaryListing := { tl_files : list TemporaryFile; tl_problems : list CasProblem }.

(** ** file-blob-store.ts: the layout *)

Definition OBJECTS_DIR : str := js "sha256".
Definition TEMP_DIR : str := js "tmp".
Definition SHARD (name : str) : bool := (slength name =? 2) && forallb lower_hex name.
Definition TEMPORARY_NAME (name : str) : bool :=
  (slength name =? 37) && forallb lower_hex (take 32 name) && str_eqb (drop 32 name) (js ".part").
Definition DEFAULT_LIST_LIMIT : Z := 1000.
Definition MAX_LIST_LIMIT : Z := 10000.
Definition MAX_PROBLEMS : nat := 100.
Definition DEFAULT_MAX_BLOB_BYTES : Z := 67108864.

(** [describe] *)
Definition describe_kind (k : StatKind) : str :=
  match k with
  | KSymlink => js "a symbolic link" | KDirectory => js "a directory"
  | KSpecial => js "not a regular file" | KFile => js "a regular file"
  end.

(** [kindOf] as the messages say it. *)
Definition kind_word (k : StatKind) : str :=
  match k with KSymlink => js "symlink" | KDirectory => js "directory" | KSpecial => js "special" | KFile => js "file" end.
Definition refused_word (k : EntryKind) : str := match k with EMissing => js "missing" | EKind k => kind_word k end.

Section store.
Context {W : Type} `{BlobDisk W} (sha256 : bytes → str).
Context (root : str) (maxBlobBytes : Z).

Abbreviation act := (io W BlobThrown).
Definition sys {A} (m : io W Errno A) : act A := io_map_err SystemError m.
Definition close_fd (fd : Fd) : act unit := io_do (sys_close fd).
Definition store_error {A} (code : BlobStoreErrorCode) (message : str) (hash : str) : act A :=
  throw (StoreError code message (Some hash)).

(** [checkSha256] *)
Definition checkSha256 (value : str) : act str :=
  if isSha256 value then mret value
  else throw (StoreError INVALID_SHA256
    (js "a blob is addressed by its full lower-case hex SHA-256 (64 characters)") None).

(** [checkSize] *)
Definition checkSize (value : number) (hash : str) : act Z :=
  match as_safe_integer value with
  | Some n => if 0 <=? n then mret n else store_error INVALID_SIZE (js "a blob size is a non-negative byte count") hash
  | None => store_error INVALID_SIZE (js "a blob size is a non-negative byte count") hash
  end.

(** ** fs-safety.ts *)

(** [entryKind] *)
Definition kind_at (path : str) : act EntryKind :=
  try_catch (st ← sys_lstat path; mret (EKind (st_kind st)))
    (λ e, match e with ENOENT | ENOTDIR => mret EMissing | _ => throw (SystemError e) end).

(** [openRegular]: the descriptor with its size, or the kind found instead. *)
Definition open_regular (path : str) : act (Fd * Z + EntryKind) :=
  opened ← try_catch (fd ← sys_open path; mret (inl fd))
    (λ e, match e with
          | ELOOP | EMLINK => mret (inr (EKind KSymlink))
          | ENOENT | ENOTDIR => mret (inr EMissing)
          | _ => throw (SystemError e) end);
  match opened with
  | inr refused => mret (inr refused)
  | inl fd =>
      st ← try_catch (sys_fstat fd) (λ e, close_fd fd ;; throw (SystemError e));
      match st_kind st with
      | KFile => mret (inl (fd, st_size st))
      | k => close_fd fd ;; mret (inr (EKind k))
      end
  end.

(** ** Paths *)

Definition shard1 (hash : str) : str := take 2 hash.
Definition shard2 (hash : str) : str := take 2 (drop 2 hash).

(** [storageKey]; its callers have checked the hash. *)
Definition storage_key (hash : str) : str :=
  OBJECTS_DIR ++ js "/" ++ shard1 hash ++ js "/" ++ shard2 hash ++ js "/" ++ hash.
Definition storageKey (hash : str) : act str := hash ← checkSha256 hash; mret (storage_key hash).

Definition objects_dir : str := path_join root OBJECTS_DIR.
Definition temp_dir : str := path_join root TEMP_DIR.
Definition shard_dir (hash : str) : str := path_join objects_dir (shard1 hash).
(** [objectDirectory], [objectPath] *)
Definition objectDirectory (hash : str) : str := path_join (shard_dir hash) (shard2 hash).
Definition objectPath (hash : str) : str := path_join (objectDirectory hash) hash.

(** [unsafeEntry] *)
Definition unsafeEntry (path : str) (kind : StatKind) : BlobThrown :=
  StoreError ROOT_ENTRY_UNSAFE
    (bd_relative root path ++ js " under the blob root is " ++ describe_kind kind ++ js ", not a directory") None.

(** [checkObjectDirectories]: it ends at the first directory that is missing. *)
Fixpoint check_directories (paths : list str) : act unit :=
  match paths with
  | [] => mret tt
  | path :: paths' =>
      kind ← kind_at path;
      match kind with
      | EMissing => mret tt
      | EKind KDirectory => check_directories paths'
      | EKind k => throw (unsafeEntry path k)
      end
  end.
Definition checkObjectDirectories (hash : str) : act unit :=
  check_directories [objects_dir; shard_dir hash; objectDirectory hash].

(** [checkIncomingSize] *)
Definition checkIncomingSize (size : number) (hash : str) : act Z :=
  checked ← checkSize size hash;
  if maxBlobBytes <? checked then
    store_error BLOB_TOO_LARGE
      (js "declared " ++ dec checked ++ js " bytes, the store accepts at most " ++ dec maxBlobBytes) hash
  else mret checked.

(** [ensureDirectory] *)
Definition ensureDirectory (path : str) : act unit :=
  before ← kind_at path;
  match before with
  | EMissing | EKind KDirectory =>
      sys (bd_mkdir path) ;;
      st ← sys (sys_lstat path);
      match st_kind st with KDirectory => mret tt | k => throw (unsafeEntry path k) end
  | EKind k => throw (unsafeEntry path k)
  end.

(** [removeQuietly] *)
Definition removeQuietly (path : str) : act unit :=
  try_catch (bd_unlink path) (λ e, match e with ENOENT => mret tt | _ => throw (SystemError e) end).

(** [syncDirectory]: what fails is ignored. *)
Definition syncDirectory (path : str) : act unit :=
  if bd_posix then
    opened ← try_catch (fd ← bd_open_dir path; mret (Some fd)) (λ _, mret None);
    match opened with
    | None => mret tt
    | Some fd => try_catch (bd_fsync fd) (λ _, mret tt) ;; close_fd fd
    end
  else mret tt.

(** ** Objects *)

(** [sha256Fd]: the stream owns the descriptor and closes it. *)
Definition sha256Fd (fd : Fd) : act str :=
  chunks ← try_finally (sys (sys_read_all fd)) (sys_close fd);
  mret (sha256 (mjoin chunks)).

(** [openObject] *)
Definition openObject (hash : str) : act (Fd * Z) :=
  checkObjectDirectories hash ;;
  let path := objectPath hash in
  kind ← kind_at path;
  match kind with
  | EMissing => store_error BLOB_MISSING (js "no object for " ++ hash) hash
  | EKind KFile =>
      opened ← open_regular path;
      match opened with
      | inl file => mret file
      | inr EMissing => store_error BLOB_MISSING (js "no object for " ++ hash) hash
      | inr (EKind k) => store_error BLOB_NOT_REGULAR (js "object is " ++ describe_kind k) hash
      end
  | EKind k => store_error BLOB_NOT_REGULAR (js "object is " ++ describe_kind k) hash
  end.

(** [existing] *)
Definition existing (hash : str) (size : Z) : act (option BlobDescriptor) :=
  checkObjectDirectories hash ;;
  kind ← kind_at (objectPath hash);
  match kind with
  | EMissing => mret None
  | EKind _ =>
      '(fd, n) ← openObject hash;
      if negb (n =? size) then
        close_fd fd ;;
        store_error BLOB_SIZE_MISMATCH (js "object should be " ++ dec size ++ js " bytes and is " ++ dec n) hash
      else
        actual ← sha256Fd fd;
        if negb (str_eqb actual hash) then store_error BLOB_HASH_MISMATCH (js "object hashes to " ++ actual) hash
        else mret (Some {| bl_sha256 := hash; bl_sizeBytes := size; bl_storageKey := storage_key hash |})
  end.

(** ** put *)

(** [while (written < bytes.length) written += writeSync(...)]: one turn per write. *)
Fixpoint write_all (turns : nat) (fd : Fd) (b : bytes) : act unit :=
  match b, turns with
  | [], _ => mret tt
  | _, O => throw Unending
  | _, S turns' => n ← sys (bd_write fd b); write_all turns' fd (drop (Z.to_nat n) b)
  end.

(** The loop of [copyAndHash]: one turn per chunk; [copied] is what has been hashed. *)
Fixpoint copy_loop (turns : nat) (source destination : Fd) (declared : Z) (hash : str) (copied : bytes) : act bytes :=
  match turns with
  | O => throw Unending
  | S turns' =>
      chunk ← sys (sys_read source);
      match chunk with
      | None => mret copied
      | Some b =>
          let copied := copied ++ b in
          if declared <? Z.of_nat (length copied) then
            store_error SOURCE_SIZE_MISMATCH (js "declared " ++ dec declared ++ js " bytes, source has more") hash
          else
            write_all (length b) destination b ;;
            copy_loop turns' source destination declared hash copied
      end
  end.

(** [copyAndHash]: the bytes copied; the source stream closes its descriptor however the loop is left. *)
Definition copyAndHash (source destination : Fd) (declared : Z) (hash : str) : act bytes :=
  try_finally (copy_loop (S (S (Z.to_nat declared))) source destination declared hash []) (sys_close source).

(** [confirmPublished] *)
Definition confirmPublished (hash : str) (verified : Stats) (size : Z) : act unit :=
  opened ← open_regular (objectPath hash);
  match opened with
  | inr refused => store_error PUBLISH_MISMATCH (js "published entry is " ++ refused_word refused) hash
  | inl (fd, _) =>
      st ← try_finally (sys (sys_fstat fd)) (sys_close fd);
      if negb (st_dev st =? st_dev verified) || negb (st_ino st =? st_ino verified) || negb (st_size st =? size) then
        store_error PUBLISH_MISMATCH (js "published entry is not the verified file") hash
      else mret tt
  end.

(** The source of a [put], opened; the size is compared at once. *)
Definition open_source (path : str) (size : Z) (hash : str) : act Fd :=
  let missing := StoreError SOURCE_MISSING (js "no regular file at the attachment source") (Some hash) in
  let not_regular := λ k, StoreError SOURCE_NOT_REGULAR
    (js "the attachment source is " ++ describe_kind k ++ js "; only regular files are read") (Some hash) in
  kind ← kind_at path;
  match kind with
  | EMissing => throw missing
  | EKind KFile =>
      opened ← open_regular path;
      match opened with
      | inr EMissing => throw missing
      | inr (EKind k) => throw (not_regular k)
      | inl (fd, n) =>
          if size <? n then
            close_fd fd ;;
            store_error SOURCE_SIZE_MISMATCH (js "declared " ++ dec size ++ js " bytes, source has " ++ dec n) hash
          else mret fd
      end
  | EKind k => throw (not_regular k)
  end.

(** A fresh temporary file; when it cannot be made, the source is closed. *)
Definition open_temp (source : Fd) : act (str * Fd) := λ w,
  let '(name, w) := bd_random w in
  let temp := path_join temp_dir (name ++ js ".part") in
  try_catch (fd ← bd_open_new temp; mret (temp, fd)) (λ e, close_fd source ;; throw (SystemError e)) w.

(** The copy compared with its declaration, flushed, and what the descriptor then is. *)
Definition verify_copy (source tempFd : Fd) (size : Z) (hash : str) : act Stats :=
  copied ← copyAndHash source tempFd size hash;
  let n := Z.of_nat (length copied) in
  if negb (n =? size) then
    store_error SOURCE_SIZE_MISMATCH (js "declared " ++ dec size ++ js " bytes, source has " ++ dec n) hash
  else if negb (str_eqb (sha256 copied) hash) then
    store_error SOURCE_HASH_MISMATCH (js "declared " ++ hash ++ js ", source hashes to " ++ sha256 copied) hash
  else
    sys (bd_fsync tempFd) ;;
    (if bd_posix then sys (bd_fchmod tempFd) else mret tt) ;;
    sys (sys_fstat tempFd).

(** After a lost race: the temporary file is let go, and the winner's object checked. *)
Definition adopt_winner (temp : str) (hash : str) (size : Z) : act PutResult :=
  removeQuietly temp ;;
  winner ← existing hash size;
  match winner with
  | None => store_error BLOB_MISSING (js "object vanished after a race") hash
  | Some d => mret {| pr_blob := d; pr_outcome := Existing |}
  end.

(** The [catch] around the copy and the publication, with the descriptor still open or not. *)
Definition cleaning {A} (temp : str) (tempFd : option Fd) (m : act A) : act A :=
  try_catch m (λ e,
    match tempFd with Some fd => close_fd fd | None => mret tt end ;;
    removeQuietly temp ;;
    throw e).

(** Publication: the exclusive link, and the entry checked to be what was verified. [inr] is a race lost. *)
Definition publish_link (temp : str) (hash : str) (verified : Stats) (size : Z) : act bool :=
  linked ← try_catch (bd_link temp (objectPath hash) ;; mret true)
    (λ e, match e with EOTHER c => if str_eqb c (js "EEXIST") then mret false else throw (SystemError e)
          | _ => throw (SystemError e) end);
  (if (linked : bool) then confirmPublished hash verified size ;; syncDirectory (objectDirectory hash) else mret tt) ;;
  mret linked.

(** The store's own directories. *)
Definition ensure_directories (hash : str) : act unit :=
  ensureDirectory temp_dir ;;
  ensureDirectory objects_dir ;;
  ensureDirectory (shard_dir hash) ;;
  ensureDirectory (objectDirectory hash).

(** The blob copied and published under its hash. *)
Definition store_new (path : str) (hash : str) (size : Z) : act PutResult :=
  ensure_directories hash ;;
  source ← open_source path size hash;
  '(temp, tempFd) ← open_temp source;
  linked ← cleaning temp (Some tempFd)
    (verified ← verify_copy source tempFd size hash; publish_link temp hash verified size);
  close_fd tempFd ;;
  cleaning temp None
    (if (linked : bool) then
       removeQuietly temp ;;
       mret {| pr_blob := {| bl_sha256 := hash; bl_sizeBytes := size; bl_storageKey := storage_key hash |}; pr_outcome := Stored |}
     else adopt_winner temp hash size).

(** [put] *)
Definition put (source : BlobSource) : act PutResult :=
  hash ← checkSha256 (bs_sha256 source);
  size ← checkIncomingSize (bs_sizeBytes source) hash;
  already ← existing hash size;
  match already with
  | Some d => mret {| pr_blob := d; pr_outcome := Existing |}
  | None => store_new (bs_path source) hash size
  end.

(** ** Reading *)

(** [stat] *)
Definition stat (hash : str) : act (option BlobDescriptor) :=
  hash ← checkSha256 hash;
  checkObjectDirectories hash ;;
  found ← try_catch (st ← sys_lstat (objectPath hash); mret (Some st))
    (λ e, match e with ENOENT | ENOTDIR => mret None | _ => throw (SystemError e) end);
  match found with
  | None => mret None
  | Some st =>
      match st_kind st with
      | KFile => mret (Some {| bl_sha256 := hash; bl_sizeBytes := st_size st; bl_storageKey := storage_key hash |})
      | k => store_error BLOB_NOT_REGULAR (js "object is " ++ describe_kind k) hash
      end
  end.

(** [expectedSize === undefined ? undefined : checkSize(expectedSize, hash)] *)
Definition check_expected (expectedSize : option number) (hash : str) : act (option Z) :=
  match expectedSize with None => mret None | Some n => size ← checkSize n hash; mret (Some size) end.

(** [open]: the descriptor is the stream's. *)
Definition open_blob (hash : str) (expectedSize : option number) : act (BlobDescriptor * Fd) :=
  hash ← checkSha256 hash;
  size ← check_expected expectedSize hash;
  '(fd, n) ← openObject hash;
  if match size with Some size => negb (n =? size) | None => false end then
    close_fd fd ;;
    store_error BLOB_SIZE_MISMATCH (js "expected " ++ dec (default 0 size) ++ js " bytes, object has " ++ dec n) hash
  else mret ({| bl_sha256 := hash; bl_sizeBytes := n; bl_storageKey := storage_key hash |}, fd).

(** [verify] *)
Definition verify (hash : str) (expectedSize : number) : act BlobDescriptor :=
  hash ← checkSha256 hash;
  size ← checkSize expectedSize hash;
  found ← existing hash size;
  match found with
  | None => store_error BLOB_MISSING (js "no object for " ++ hash) hash
  | Some d => mret d
  end.

(** ** Removing *)

(** The object opened, measured and hashed. *)
Definition read_object (hash : str) (size : option Z) : act Stats :=
  '(fd, _) ← openObject hash;
  read ← try_catch (sys_fstat fd) (λ e, close_fd fd ;; throw (SystemError e));
  if match size with Some size => negb (st_size read =? size) | None => false end then
    close_fd fd ;;
    store_error BLOB_SIZE_MISMATCH
      (js "object should be " ++ dec (default 0 size) ++ js " bytes and is " ++ dec (st_size read)) hash
  else
    actual ← sha256Fd fd;
    if negb (str_eqb actual hash) then store_error BLOB_HASH_MISMATCH (js "object hashes to " ++ actual) hash
    else mret read.

Inductive Removal := Removed | Missing.

(** [removeObject] *)
Definition removeObject (hash : str) (expectedSize : option number) : act Removal :=
  hash ← checkSha256 hash;
  size ← check_expected expectedSize hash;
  let path := objectPath hash in
  checkObjectDirectories hash ;;
  kind ← kind_at path;
  match kind with
  | EMissing => mret Missing
  | EKind _ =>
      read ← read_object hash size;
      entry ← try_catch (st ← sys_lstat path; mret (Some st))
        (λ e, match e with ENOENT => mret None | _ => throw (SystemError e) end);
      match entry with
      | None => mret Missing
      | Some entry =>
          if negb (st_dev entry =? st_dev read) || negb (st_ino entry =? st_ino read) then
            store_error BLOB_CHANGED (js "the object changed while it was being read") hash
          else
            checkObjectDirectories hash ;;
            sys (bd_unlink path) ;;
            syncDirectory (objectDirectory hash) ;;
            mret Removed
      end
  end.

(** [checkTemporaryName] *)
Definition checkTemporaryName (name : str) : act str :=
  if TEMPORARY_NAME name then mret name
  else throw (StoreError INVALID_TEMPORARY_NAME (js "only a temporary file this store generated can be named") None).

(** [temporaryKey] *)
Definition temporaryKey (name : str) : act str :=
  checkTemporaryName name ;; mret (TEMP_DIR ++ js "/" ++ name).

(** [removeTemporaryFile] *)
Definition removeTemporaryFile (name : str) : act Removal :=
  checkTemporaryName name ;;
  tempKind ← kind_at temp_dir;
  match tempKind with
  | EMissing => mret Missing
  | EKind KDirectory =>
      let path := path_join temp_dir name in
      kind ← kind_at path;
      match kind with
      | EMissing => mret Missing
      | EKind KFile =>
          again ← kind_at temp_dir;
          match again with
          | EKind KDirectory =>
              try_catch (bd_unlink path ;; mret Removed)
                (λ e, match e with ENOENT => mret Missing | _ => throw (SystemError e) end)
          | _ => throw (unsafeEntry temp_dir KSymlink)
          end
      | EKind k => throw (StoreError BLOB_NOT_REGULAR (name ++ js " is " ++ describe_kind k) None)
      end
  | EKind k => throw (unsafeEntry temp_dir k)
  end.

(** ** Listing *)

(** [boundedLimit] *)
Definition boundedLimit (limit : option number) : act Z :=
  match limit with
  | None => mret DEFAULT_LIST_LIMIT
  | Some v =>
      match as_safe_integer v with
      | Some n => if n <? 1 then throw (UsageError (js "limit must be a positive whole number")) else mret (Z.min n MAX_LIST_LIMIT)
      | None => throw (UsageError (js "limit must be a positive whole number"))
      end
  end.

(** [problem] *)
Definition cas_problem (code : CasProblemCode) (path message : str) : CasProblem :=
  {| cp_code := code; cp_path := split_join bd_sep (js "/") (bd_relative root path); cp_message := message |}.

(** [record] *)
Definition record_problem (found : CasProblem) (problems : list CasProblem) : list CasProblem :=
  if (length problems <? MAX_PROBLEMS)%nat then problems ++ [found]
  else if (length problems =? MAX_PROBLEMS)%nat then
    problems ++ [{| cp_code := UNEXPECTED_ENTRY; cp_path := [];
                    cp_message := js "more than " ++ dec (Z.of_nat MAX_PROBLEMS)
                      ++ js " entries the layout does not define; the rest are not listed" |}]
  else problems.

(** [entriesOf], sorted by name. *)
Definition by_name (a b : Dirent) : Z := compare a.1 b.1.
Definition entriesOf (directory : str) : act (list Dirent) :=
  try_catch (bd_readdir directory) (λ e, match e with ENOENT | ENOTDIR => mret [] | _ => throw (SystemError e) end).
Definition sorted_directory (directory : str) : act (list Dirent) :=
  entries ← entriesOf directory; mret (sort by_name entries).

(** The loop of [shards]. *)
Fixpoint shard_names (directory : str) (entries : list Dirent) (problems : list CasProblem) : list str * list CasProblem :=
  match entries with
  | [] => ([], problems)
  | (name, kind) :: entries' =>
      let path := path_join directory name in
      if negb (SHARD name) then
        shard_names directory entries' (record_problem (cas_problem MALFORMED_NAME path (js "not a shard name")) problems)
      else match kind with
      | KDirectory =>
          let '(found, problems) := shard_names directory entries' problems in (name :: found, problems)
      | _ => shard_names directory entries' (record_problem (cas_problem UNEXPECTED_ENTRY path (js "not a shard directory")) problems)
      end
  end.
Definition shards (directory : str) (problems : list CasProblem) : act (list str * list CasProblem) :=
  entries ← sorted_directory directory; mret (shard_names directory entries problems).

(** [lstatSync(path, { throwIfNoEntry: false })] *)
Definition stat_if_there (path : str) : act (option Stats) :=
  try_catch (st ← sys_lstat path; mret (Some st))
    (λ e, match e with ENOENT | ENOTDIR => mret None | _ => throw (SystemError e) end).

(** A listing on its way: what it holds, and whether it is full. *)
Record Listing := { li_objects : list ObjectEntry; li_next : option str; li_full : bool; li_problems : list CasProblem }.
#[export] Instance Listing_fields : Fields Listing := λ l,
  {| li_objects := li_objects l; li_next := li_next l; li_full := li_full l; li_problems := li_problems l |}.

(** [entry.name <= after] *)
Definition at_most (name after : str) : bool := negb (str_ltb after name).

Section list_objects.
Context (limit : Z) (after : option str).

(** The innermost loop. *)
Fixpoint list_leaf (first second leaf : str) (entries : list Dirent) (l : Listing) : act Listing :=
  match entries with
  | [] => mret l
  | (name, kind) :: entries' =>
      let path := path_join leaf name in
      let next := list_leaf first second leaf entries' in
      if match after with Some a => isSha256 name && at_most name a | None => false end then next l
      else if negb (isSha256 name) then
        next (l <| li_problems ::= record_problem (cas_problem MALFORMED_NAME path (js "not an object name")) |>)
      else if negb (bool_decide (kind = KFile)) then
        next (l <| li_problems ::= record_problem (cas_problem NOT_REGULAR path (js "not a regular file")) |>)
      else if negb (str_eqb (shard1 name) first) || negb (str_eqb (shard2 name) second) then
        next (l <| li_problems ::= record_problem (cas_problem WRONG_SHARD path (js "filed under another hash")) |>)
      else if Z.of_nat (length (li_objects l)) =? limit then
        mret (l <| li_next := (bl_sha256 ∘ oe_blob) <$> last (li_objects l) |> <| li_full := true |>)
      else
        st ← stat_if_there path;
        match st with
        | Some {| st_kind := KFile; st_size := size; st_mtimeMs := mtime |} =>
            next (l <| li_objects ::= λ o, o ++ [{| oe_blob := {| bl_sha256 := name; bl_sizeBytes := size;
                                                                  bl_storageKey := storage_key name |};
                                                    oe_modifiedAt := mtime |}] |>)
        | _ => next l
        end
  end.

(** The loops over the shard directories. *)
Fixpoint list_second (first : str) (seconds : list str) (l : Listing) : act Listing :=
  match seconds with
  | [] => mret l
  | second :: seconds' =>
      if li_full l then mret l
      else if match after with Some a => str_eqb first (shard1 a) && str_ltb second (shard2 a) | None => false end
      then list_second first seconds' l
      else
        let leaf := path_join (path_join objects_dir first) second in
        entries ← sorted_directory leaf;
        l ← list_leaf first second leaf entries l;
        list_second first seconds' l
  end.
Fixpoint list_first (firsts : list str) (l : Listing) : act Listing :=
  match firsts with
  | [] => mret l
  | first :: firsts' =>
      if li_full l then mret l
      else if match after with Some a => str_ltb first (shard1 a) | None => false end then list_first firsts' l
      else
        '(seconds, problems) ← shards (path_join objects_dir first) (li_problems l);
        l ← list_second first seconds (l <| li_problems := problems |>);
        list_first firsts' l
  end.
End list_objects.

Definition empty_listing : ObjectListing := {| ol_objects := []; ol_next := None; ol_problems := [] |}.

(** [listObjects] *)
Definition listObjects (after : option str) (limit : option number) : act ObjectListing :=
  limit ← boundedLimit limit;
  after ← match after with None => mret None | Some a => a ← checkSha256 a; mret (Some a) end;
  kind ← kind_at objects_dir;
  match kind with
  | EMissing => mret empty_listing
  | EKind KDirectory =>
      '(firsts, problems) ← shards objects_dir [];
      l ← list_first limit after firsts {| li_objects := []; li_next := None; li_full := false; li_problems := problems |};
      mret {| ol_objects := li_objects l; ol_next := li_next l; ol_problems := li_problems l |}
  | EKind k => throw (unsafeEntry objects_dir k)
  end.

(** The loop of [listTemporaryFiles]. *)
Fixpoint list_temporary (before : option Z) (entries : list Dirent) (files : list TemporaryFile) (problems : list CasProblem)
    : act (list TemporaryFile * list CasProblem) :=
  match entries with
  | [] => mret (files, problems)
  | (name, kind) :: entries' =>
      let path := path_join temp_dir name in
      if negb (TEMPORARY_NAME name) then list_temporary before entries' files problems
      else if negb (bool_decide (kind = KFile)) then
        list_temporary before entries' files
          (record_problem (cas_problem NOT_REGULAR path (js "not a regular temporary file")) problems)
      else
        st ← stat_if_there path;
        match st with
        | Some {| st_kind := KFile; st_size := size; st_mtimeMs := mtime |} =>
            if match before with Some b => b <=? mtime | None => false end then list_temporary before entries' files problems
            else list_temporary before entries'
                   (files ++ [{| tf_name := name; tf_sizeBytes := size; tf_modifiedAt := mtime |}]) problems
        | _ => list_temporary before entries' files problems
        end
  end.

(** Oldest first, then by name. *)
Definition by_age (a b : TemporaryFile) : Z :=
  cmp_then (cmp_on tf_modifiedAt cmp_sub) (cmp_on tf_name compare) a b.

(** [listTemporaryFiles]; [before] is the time of a [Date], [None] inside when it is no valid one. *)
Definition listTemporaryFiles (before : option (option Z)) (limit : option number) : act TemporaryListing :=
  limit ← boundedLimit limit;
  before ← match before with
    | None => mret None | Some (Some t) => mret (Some t)
    | Some None => throw (UsageError (js "before must be a valid Date")) end;
  kind ← kind_at temp_dir;
  match kind with
  | EMissing => mret {| tl_files := []; tl_problems := [] |}
  | EKind KDirectory =>
      entries ← sorted_directory temp_dir;
      '(files, problems) ← list_temporary before entries [] [];
      mret {| tl_files := take (Z.to_nat limit) (sort by_age files); tl_problems := problems |}
  | EKind k => throw (unsafeEntry temp_dir k)
  end.

(** The constructor: the root is resolved once. [errno_message] is the message of a system error. *)
Definition open_store (errno_message : Errno → str) (configured : str) (maxBytes : option number) : act (str * Z) :=
  resolved ← try_catch (sys_realpath configured)
    (λ e, throw (UsageError (js "blob root " ++ configured ++ js " cannot be resolved: " ++ errno_message e)));
  st ← sys (sys_lstat resolved);
  if negb (bool_decide (st_kind st = KDirectory)) then throw (UsageError (js "blob root " ++ configured ++ js " is not a directory"))
  else
    match as_safe_integer (default (Int DEFAULT_MAX_BLOB_BYTES) maxBytes) with
    | Some n => if n <? 0 then throw (UsageError (js "maxBlobBytes must be a byte count")) else mret (resolved, n)
    | None => throw (UsageError (js "maxBlobBytes must be a byte count"))
    end.
End store.
