(* ===== verification/BlobStoreSpec.v ===== *)
(** * What a blob store's file system guarantees, and its calls

    The store shares its root with other writers. What they may do is [peers]:
    objects stay where they are with their bytes, and the file a call of the store
    is writing is nobody else's. Every call of the system may come after steps of
    theirs. Under these laws each helper of the store leaves the objects and the
    open descriptors as they were ([calm]), and what it says of an object holds.
    What a removal does among writers that also remove or replace objects is said
    without these laws, in BlobStoreProps.v. *)

From S2P Require Import Prelude JsString JsBytes JsMap JsSort JsNumber ValidatorRun Io FileSink PwText BlobStore.

Local Open Scope Z_scope.

(** Device and inode. *)
Abbreviation Ino := (Z * Z)%type.
Inductive FdMode := AtStart | Reading | Writing.

(** ** The laws *)

(** What the file system holds: what is at a path, links not followed; the kind and the bytes of each file;
    and the descriptors of this process. *)
Class BlobView (W : Type) := {
  entry : W → str → option Ino;
  kind_of : W → Ino → StatKind;
  bytes_of : W → Ino → bytes;
  fd_of : W → Fd → option (Ino * FdMode);
}.

Section view.
Context {W : Type} `{BlobView W} `{NodeFs W} (root : str).
Implicit Types w : W.

Definition object w (h : str) (ino : Ino) : Prop := isSha256 h = true ∧ entry w (objectPath root h) = Some ino.
Definition published w (ino : Ino) : Prop := ∃ h, object w h ino.
Definition object_path (p : str) : Prop := ∃ h, isSha256 h = true ∧ p = objectPath root h.

(** The file behind a descriptor is this call's to write, and not published. *)
Definition mine w (fd : Fd) (ino : Ino) : Prop := fd_of w fd = Some (ino, Writing) ∧ ¬ published w ino.

(** Objects stay, with their bytes. *)
Record preserved w w' : Prop := {
  pv_object h ino : object w h ino → object w' h ino;
  pv_bytes ino : published w ino → bytes_of w' ino = bytes_of w ino ∧ kind_of w' ino = kind_of w ino;
}.

(** What others may do, and what most calls do. *)
Record peers w w' : Prop := {
  pe_preserved : preserved w w';
  pe_mine fd ino : mine w fd ino →
    ¬ published w' ino ∧ bytes_of w' ino = bytes_of w ino ∧ kind_of w' ino = kind_of w ino;
}.

Definition same_fds w w' : Prop := ∀ f, fd_of w' f = fd_of w f.
Definition same_but (fd : Fd) w w' : Prop := ∀ f, f ≠ fd → fd_of w' f = fd_of w f.
Definition calm w w' : Prop := peers w w' ∧ same_fds w w'.

(** A call after which nothing of ours has changed. *)
Definition quiet {A} (m : io W Errno A) : Prop := ∀ w, calm w (m w).2.
End view.

(** The law of each call. A call takes effect after steps of others: where its effect is more than
    that, [w1] is the world it took effect in. *)
Class BlobDiskLaws (W : Type) `{BlobDisk W} `{BlobView W} (root : str) := {
  bl_join a b c d : simple_name b → simple_name d → path_join a b = path_join c d → a = c ∧ b = d;
  bl_random w : calm root w (bd_random w).2 ∧ simple_name (bd_random w).1 ∧ length (bd_random w).1 = 32%nat;
  bl_realpath p : quiet root (sys_realpath (W := W) p);
  bl_readdir p : quiet root (sys_readdir (W := W) p);
  bl_readdir_types p : quiet root (bd_readdir (W := W) p);
  bl_mkdir p : ¬ object_path root p → quiet root (bd_mkdir (W := W) p);
  bl_fsync fd : quiet root (bd_fsync (W := W) fd);
  bl_fchmod fd : quiet root (bd_fchmod (W := W) fd);
  bl_lstat p : quiet root (sys_lstat (W := W) p);
  bl_lstat_ok p w st w' : sys_lstat p w = (Ok st, w') →
    entry w' p = Some (st_dev st, st_ino st) ∧ kind_of w' (st_dev st, st_ino st) = st_kind st;
  bl_fstat fd : quiet root (sys_fstat (W := W) fd);
  bl_fstat_ok fd w st w' ino m : sys_fstat fd w = (Ok st, w') → fd_of w fd = Some (ino, m) →
    ino = (st_dev st, st_ino st) ∧ kind_of w' ino = st_kind st ∧
    (st_kind st = KFile → st_size st = Z.of_nat (length (bytes_of w' ino)));
  bl_open_ok p w fd w' : sys_open p w = (Ok fd, w') →
    peers root w w' ∧ fd_of w fd = None ∧ same_but fd w w' ∧
    ∃ ino, entry w' p = Some ino ∧ fd_of w' fd = Some (ino, AtStart);
  bl_open_fail p w e w' : sys_open p w = (Throw e, w') → calm root w w';
  bl_open_dir_ok p w fd w' : bd_open_dir p w = (Ok fd, w') →
    peers root w w' ∧ fd_of w fd = None ∧ same_but fd w w' ∧ ∃ ino, fd_of w' fd = Some (ino, AtStart);
  bl_open_dir_fail p w e w' : bd_open_dir p w = (Throw e, w') → calm root w w';
  bl_open_new_ok p w fd w' : ¬ object_path root p → bd_open_new p w = (Ok fd, w') →
    peers root w w' ∧ fd_of w fd = None ∧ same_but fd w w' ∧
    ∃ ino, mine root w' fd ino ∧ bytes_of w' ino = [] ∧ kind_of w' ino = KFile;
  bl_open_new_fail p w e w' : bd_open_new p w = (Throw e, w') → calm root w w';
  bl_read fd w : let '(r, w') := sys_read fd w in
    peers root w w' ∧ same_but fd w w' ∧
    (∀ ino m, fd_of w fd = Some (ino, m) → m ≠ Writing → ∃ m', fd_of w' fd = Some (ino, m') ∧ m' ≠ Writing) ∧
    (∀ b, r = Ok (Some b) → b ≠ []);
  bl_read_all fd w : let '(r, w') := sys_read_all fd w in
    peers root w w' ∧ same_but fd w w' ∧
    (∀ ino m, fd_of w fd = Some (ino, m) → m ≠ Writing → ∃ m', fd_of w' fd = Some (ino, m') ∧ m' ≠ Writing) ∧
    (∀ ino chunks, fd_of w fd = Some (ino, AtStart) → published root w ino → r = Ok chunks → mjoin chunks = bytes_of w ino);
  bl_close fd w : (∀ ino, bytes_of (sys_close fd w) ino = bytes_of w ino ∧ kind_of (sys_close fd w) ino = kind_of w ino) ∧
    (∀ p, entry (sys_close fd w) p = entry w p) ∧
    fd_of (sys_close fd w) fd = None ∧ same_but fd w (sys_close fd w);
  bl_write fd b w ino : mine root w fd ino →
    let '(r, w') := bd_write fd b w in
    same_fds w w' ∧ ∃ w1, calm root w w1 ∧ (∀ p, entry w' p = entry w1 p) ∧ (∀ i, kind_of w' i = kind_of w1 i) ∧
      (∀ i, i ≠ ino → bytes_of w' i = bytes_of w1 i) ∧
      ∃ n, (n <= length b)%nat ∧ bytes_of w' ino = bytes_of w1 ino ++ take n b ∧
        match r with Ok m => m = Z.of_nat n ∧ (b ≠ [] → (0 < n)%nat) | Throw _ => True end;
  bl_link_ok a b w w' : bd_link a b w = (Ok tt, w') →
    same_fds w w' ∧ ∃ w1 ino, calm root w w1 ∧ entry w1 b = None ∧ entry w1 a = Some ino ∧ entry w' b = Some ino ∧
      (∀ p, p ≠ b → entry w' p = entry w1 p) ∧ (∀ i, kind_of w' i = kind_of w1 i ∧ bytes_of w' i = bytes_of w1 i);
  bl_link_fail a b w e w' : bd_link a b w = (Throw e, w') → calm root w w';
  bl_unlink_ok p w w' : bd_unlink p w = (Ok tt, w') →
    same_fds w w' ∧ ∃ w1, calm root w w1 ∧ entry w' p = None ∧ (∀ q, q ≠ p → entry w' q = entry w1 q) ∧
      (∀ i, kind_of w' i = kind_of w1 i ∧ bytes_of w' i = bytes_of w1 i);
  bl_unlink_fail p w e w' : bd_unlink p w = (Throw e, w') → calm root w w';
}.

(** ** The relations *)

Section spec.
Context {W : Type} (root : str) `{BlobDiskLaws W root} (sha256 : bytes → str).
Implicit Types w : W.
Abbreviation act := (io W BlobThrown).
Abbreviation object := (object root).
Abbreviation published := (published root).
Abbreviation mine := (mine root).
Abbreviation preserved := (preserved root).
Abbreviation peers := (peers root).
Abbreviation calm := (calm root).

#[export] Instance preserved_preorder : PreOrder preserved.
Proof.
  split; [by split|]. intros w1 w2 w3 [O1 B1] [O2 B2]. split; [auto|]. intros ino [h Hh].
  destruct (B1 ino) as [<- <-]; [by exists h|]. apply B2. exists h. auto.
Qed.

Lemma preserved_published w w' ino : preserved w w' → published w ino → published w' ino.
Proof. intros [O1 _] [h Hh]. exists h. auto. Qed.

Lemma peers_refl w : peers w w.
Proof. split; [done|]. by intros fd ino [? ?]. Qed.

(** Peers compose when what is being written stays open. *)
Lemma peers_trans w1 w2 w3 :
  peers w1 w2 → (∀ fd ino, fd_of w1 fd = Some (ino, Writing) → fd_of w2 fd = Some (ino, Writing)) →
  peers w2 w3 → peers w1 w3.
Proof.
  intros [P1 M1] Hf [P2 M2]. split; [by etrans|]. intros fd ino [Hfd Hn]. destruct (M1 fd ino) as (N1 & <- & <-); [done|].
  apply (M2 fd). split; [by apply Hf|done].
Qed.

#[export] Instance calm_preorder : PreOrder calm.
Proof.
  split; [intros w; split; [apply peers_refl|done]|]. intros w1 w2 w3 [P1 F1] [P2 F2]. split.
  - eapply peers_trans; [exact P1| |exact P2]. intros fd ino. by rewrite F1.
  - intros f. by rewrite F2, F1.
Qed.

Lemma calm_preserved w w' : calm w w' → preserved w w'.
Proof. by intros [[? _] _]. Qed.
Lemma calm_object w w' h ino : calm w w' → object w h ino → object w' h ino.
Proof. intros [[[Ho _] _] _]. apply Ho. Qed.
Lemma calm_mine w w' fd ino : calm w w' → mine w fd ino → mine w' fd ino.
Proof. intros [[_ M] F] Hm. split; [rewrite F; apply Hm|by apply (M fd)]. Qed.

(** A descriptor opened for reading, and nothing else changed. *)
Definition opened w (fd : Fd) (ino : Ino) (m : FdMode) w' : Prop :=
  peers w w' ∧ fd_of w fd = None ∧ same_but fd w w' ∧ fd_of w' fd = Some (ino, m) ∧ m ≠ Writing.

Lemma opened_writing w fd ino m w' f i :
  opened w fd ino m w' → fd_of w f = Some (i, Writing) → fd_of w' f = Some (i, Writing).
Proof. intros (_ & Hn & Hs & _) Hf. rewrite Hs; [done|]. intros ->. congruence. Qed.

Lemma opened_calm w fd ino m w1 w2 : opened w fd ino m w1 → calm w1 w2 → opened w fd ino m w2.
Proof.
  intros Ho [P F]. pose proof Ho as (P1 & Hn & Hs & Hf & Hm). split_and!; [|done| |by rewrite F|done].
  - eapply peers_trans; [exact P1| |exact P]. intros f i. by apply (opened_writing _ _ _ _ _ _ _ Ho).
  - intros f Hne. by rewrite F, Hs.
Qed.

(** Reading on. *)
Lemma opened_read w fd ino m w1 w2 :
  opened w fd ino m w1 → peers w1 w2 → same_but fd w1 w2 →
  (∀ i m, fd_of w1 fd = Some (i, m) → m ≠ Writing → ∃ m', fd_of w2 fd = Some (i, m') ∧ m' ≠ Writing) →
  ∃ m', opened w fd ino m' w2.
Proof.
  intros Ho P F Hr. pose proof Ho as (P1 & Hn & Hs & Hf & Hm). destruct (Hr _ _ Hf Hm) as (m' & Hf' & Hm'). exists m'.
  split_and!; [|done| |done|done].
  - eapply peers_trans; [exact P1| |exact P]. intros f i. by apply (opened_writing _ _ _ _ _ _ _ Ho).
  - intros f Hne. by rewrite F, Hs.
Qed.

Lemma close_preserved fd w : preserved w (sys_close fd w).
Proof.
  destruct (bl_close fd w) as (Hb & He & _). split; [|intros ino _; apply Hb].
  intros h ino [Hh Ho]. split; [done|by rewrite He].
Qed.

Lemma opened_closed w fd ino m w1 : opened w fd ino m w1 → calm w (sys_close fd w1).
Proof.
  intros Ho. pose proof Ho as (P1 & Hn & Hs & Hf & Hm). destruct (bl_close fd w1) as (Hb & He & Hc & Hsc).
  assert (∀ i, published (sys_close fd w1) i → published w1 i) as Hp.
  { intros i [h [Hh Hi]]. exists h. split; [done|by rewrite <-He]. }
  split; [eapply peers_trans; [exact P1|intros f i; by apply (opened_writing _ _ _ _ _ _ _ Ho)|]|].
  - split; [apply close_preserved|]. intros f i [Hfi Hni]. destruct (Hb i) as [-> ->]. split; [|done]. by intros ?%Hp.
  - intros f. destruct (decide (f = fd)) as [->|Hne]; [by rewrite Hc, Hn|]. by rewrite Hsc, Hs.
Qed.

(** ** Paths *)

Lemma isSha256_simple h : isSha256 h = true → simple_name h ∧ length h = 64%nat.
Proof.
  unfold isSha256. intros [Hl%Z.eqb_eq Hf]%andb_true_iff. split; [|lia]. intros Hin.
  rewrite forallb_forall in Hf. apply list_elem_of_In, Hf in Hin. done.
Qed.

Lemma simple_take n h : simple_name h → simple_name (take n h).
Proof. intros Hh Hin. apply Hh. eapply elem_of_take in Hin as (i & Hi & _). by eapply list_elem_of_lookup_2. Qed.
Lemma simple_drop n h : simple_name h → simple_name (drop n h).
Proof. intros Hh Hin. apply Hh. rewrite <-(take_drop n h). apply elem_of_app. by right. Qed.

Lemma other_name dir (name : str) : simple_name name → length name ≠ 64%nat → ¬ object_path root (path_join dir name).
Proof.
  intros Hs Hl (h & Hh & E). destruct (isSha256_simple h Hh) as [Hh1 Hh2]. unfold objectPath in E.
  apply (bl_join (root := root)) in E as [_ ->]; [by rewrite Hh2 in Hl|done|done].
Qed.

Lemma objectPath_inj h h' : isSha256 h = true → isSha256 h' = true → objectPath root h = objectPath root h' → h = h'.
Proof.
  intros Hh Hh' E. apply (bl_join (root := root)) in E as [_ ->]; [done|by apply isSha256_simple..].
Qed.

Lemma store_directories h :
  isSha256 h = true → Forall (λ p, ¬ object_path root p) [temp_dir root; objects_dir root; shard_dir root h; objectDirectory root h].
Proof.
  intros Hh. destruct (isSha256_simple h Hh) as [Hs Hl]. repeat constructor; apply other_name; try done.
  - unfold simple_name. vm_compute. set_solver.
  - unfold simple_name. vm_compute. set_solver.
  - by apply simple_take.
  - unfold shard1. rewrite length_take. lia.
  - by apply simple_take, simple_drop.
  - unfold shard2. rewrite length_take. lia.
Qed.

(** ** Calls that change nothing of ours *)

Lemma quiet_wp {A} (m : io W Errno A) w : quiet root m → wp (sys m) (λ _ w', calm w w') (λ _ w', calm w w') w.
Proof. intros Hm. unfold sys, io_map_err, wp. specialize (Hm w). by destruct (m w) as [[]]. Qed.

Lemma calm_wp {A} (m : act A) (Q : A → W → Prop) w0 w :
  calm w0 w → wp m (λ a w', calm w w' ∧ (calm w0 w' → Q a w')) (λ _ w', calm w w') w →
  wp m Q (λ _ w', calm w0 w') w.
Proof. intros Hc Hm. eapply wp_mono; [exact Hm|intros a w' [H1' H2']; apply H2'; by etrans|intros e w' H1'; by etrans]. Qed.

Lemma kind_at_wp path w :
  wp (kind_at path) (λ k w', calm w w' ∧ ∀ kd, k = EKind kd → ∃ ino, entry w' path = Some ino ∧ kind_of w' ino = kd)
    (λ _ w', calm w w') w.
Proof.
  unfold kind_at, wp, try_catch, mbind, io_mbind. pose proof (bl_lstat (root := root) path w) as Hc.
  destruct (sys_lstat path w) as [[st|e] w'] eqn:E; simpl in Hc.
  - split; [done|]. intros kd [= <-]. destruct (bl_lstat_ok _ _ _ _ E). eauto.
  - by destruct e.
Qed.

Lemma check_directories_wp paths w : wp (check_directories root paths) (λ _ w', calm w w') (λ _ w', calm w w') w.
Proof.
  revert w. induction paths as [|p paths IH]; intros w; simpl; [by apply wp_ret|].
  apply wp_bind. eapply wp_mono; [apply kind_at_wp| |done]. intros k w' [Hc _].
  destruct k as [|[]]; try by apply wp_throw.
  - by apply wp_ret.
  - eapply wp_mono; [apply IH|intros ??; by etrans|intros ??; by etrans].
Qed.

Lemma unlink_calm p w w' : ¬ object_path root p → bd_unlink p w = (Ok tt, w') → calm w w'.
Proof.
  intros Hp E. destruct (bl_unlink_ok _ _ _ E) as (Hf & w1 & [P1 F1] & Hn & He & Hb).
  assert (∀ i, published w' i → published w1 i) as Hpub.
  { intros i (h & Hh & Hi). exists h. split; [done|]. rewrite <-He; [done|]. intros E'. apply Hp. by exists h. }
  split; [|exact Hf]. eapply peers_trans; [exact P1|intros fd i; by rewrite F1|]. split; [split|].
  - intros h ino [Hh Hi]. split; [done|]. rewrite He; [done|]. intros E'. apply Hp. by exists h.
  - intros ino _. destruct (Hb ino). done.
  - intros fd ino [_ Hni]. destruct (Hb ino) as [-> ->]. split; [by intros ?%Hpub|done].
Qed.

Lemma removeQuietly_wp p w : ¬ object_path root p → wp (removeQuietly p) (λ _ w', calm w w') (λ _ w', calm w w') w.
Proof.
  intros Hp. unfold removeQuietly, wp, try_catch. destruct (bd_unlink p w) as [[[]|e] w'] eqn:E.
  - by eapply unlink_calm.
  - apply bl_unlink_fail in E. by destruct e.
Qed.

Lemma ensureDirectory_wp p w : ¬ object_path root p → wp (ensureDirectory root p) (λ _ w', calm w w') (λ _ w', calm w w') w.
Proof.
  intros Hp. unfold ensureDirectory. apply wp_bind. eapply wp_mono; [apply kind_at_wp| |done]. intros k w1 [Hc _].
  assert (wp (sys (bd_mkdir p) ;; st ← sys (sys_lstat p); match st_kind st with KDirectory => mret tt | k => throw (unsafeEntry root p k) end)
    (λ _ w', calm w w') (λ _ w', calm w w') w1) as Hm.
  { apply wp_bind. eapply wp_mono; [apply quiet_wp; by apply bl_mkdir| |intros ??; by etrans]. intros u w2 H2'. cbv beta in H2'.
    apply wp_bind. eapply wp_mono; [apply quiet_wp, bl_lstat| |intros ??; by do 2 (etrans; [eassumption|])].
    intros st w3 H3'. cbv beta in H3'. assert (calm w w3) by (by do 2 (etrans; [eassumption|])). by destruct (st_kind st). }
  destruct k as [|[]]; try exact Hm; by apply wp_throw.
Qed.

Lemma close_wp (fd : Fd) ino m w w1 (Q : unit → W → Prop) (X : BlobThrown → W → Prop) :
  opened w fd ino m w1 → (calm w (sys_close fd w1) → Q tt (sys_close fd w1)) → wp (close_fd fd) Q X w1.
Proof. intros Ho Hq. apply wp_do, Hq. by eapply opened_closed. Qed.

(** It never throws. *)
Lemma syncDirectory_wp p w : wp (syncDirectory p) (λ _ w', calm w w') (λ _ _, False) w.
Proof.
  unfold syncDirectory. destruct bd_posix; [|by apply wp_ret]. unfold wp, try_catch, mbind, io_mbind.
  destruct (bd_open_dir p w) as [[fd|e] w1] eqn:E; [|by apply bl_open_dir_fail in E].
  apply bl_open_dir_ok in E as (P & Hn & Hs & ino & Hf). simpl.
  assert (opened w fd ino AtStart w1) as Ho by done.
  pose proof (bl_fsync (root := root) fd w1) as Hc. destruct (bd_fsync fd w1) as [[u|e] w2]; simpl in *;
    (eapply opened_closed, opened_calm; [exact Ho|exact Hc]).
Qed.

(** ** Opening and reading objects *)

(** An open descriptor of a regular file of this size. *)
Definition regular w (fd : Fd) (ino : Ino) (n : Z) w' : Prop :=
  opened w fd ino AtStart w' ∧ kind_of w' ino = KFile ∧ n = Z.of_nat (length (bytes_of w' ino)).

Lemma open_regular_wp path w :
  wp (open_regular path)
    (λ r w', match r with
      | inl (fd, n) => ∃ ino, regular w fd ino n w' ∧ (∀ h, isSha256 h = true → path = objectPath root h → object w' h ino)
      | inr _ => calm w w' end)
    (λ _ w', calm w w') w.
Proof.
  unfold open_regular. apply wp_bind. unfold try_catch at 1, mbind at 1, io_mbind at 1, wp at 1.
  destruct (sys_open path w) as [[fd|e] w1] eqn:E; simpl.
  2:{ apply bl_open_fail in E. by destruct e. }
  apply bl_open_ok in E as (P & Hn & Hs & ino & He & Hf). assert (opened w fd ino AtStart w1) as Ho by done.
  apply wp_bind. unfold try_catch, wp at 1. pose proof (bl_fstat (root := root) fd w1) as Hq.
  destruct (sys_fstat fd w1) as [[st|e] w2] eqn:E2; simpl in Hq.
  - destruct (bl_fstat_ok _ _ _ _ _ _ E2 Hf) as (-> & Hk & Hsz). pose proof (opened_calm _ _ _ _ _ _ Ho Hq) as Ho2.
    destruct (st_kind st) eqn:Ek; try (apply wp_bind; eapply close_wp; [exact Ho2|]; done).
    apply wp_ret. eexists. split; [split_and!; [exact Ho2|done|by apply Hsz]|].
    intros h Hh ->. eapply calm_object; [exact Hq|]. by split.
  - apply wp_bind. eapply close_wp; [eapply opened_calm; [exact Ho|exact Hq]|done].
Qed.

Lemma sha256Fd_wp fd ino w w1 :
  opened w fd ino AtStart w1 →
  wp (sha256Fd sha256 fd)
    (λ a w', calm w w' ∧ preserved w1 w' ∧ (published w1 ino → a = sha256 (bytes_of w1 ino)))
    (λ _ w', calm w w') w1.
Proof.
  intros Ho. pose proof Ho as (P1 & Hn & Hs & Hf & Hm). unfold sha256Fd. apply wp_bind, wp_finally.
  unfold sys, io_map_err, wp. pose proof (bl_read_all (root := root) fd w1) as Hr.
  destruct (sys_read_all fd w1) as [r w2]. destruct Hr as (P2 & Hs2 & Hm2 & Hb).
  destruct (opened_read _ _ _ _ _ _ Ho P2 Hs2 Hm2) as [m' Ho2].
  destruct r as [chunks|e]; simpl; [|by eapply opened_closed].
  split; [by eapply opened_closed|]. split; [etrans; [apply P2|apply close_preserved]|].
  intros Hp. by rewrite (Hb ino chunks Hf Hp eq_refl).
Qed.

(** An object of this hash and size, whole. *)
Definition holds w (h : str) (size : Z) : Prop :=
  ∃ ino, object w h ino ∧ kind_of w ino = KFile ∧ Z.of_nat (length (bytes_of w ino)) = size ∧ sha256 (bytes_of w ino) = h.

Lemma holds_preserved w w' h size : preserved w w' → holds w h size → holds w' h size.
Proof.
  intros Hp (ino & Ho & Hk & Hl & Hh). exists ino. split; [by apply Hp|].
  destruct (pv_bytes _ _ _ Hp ino) as [-> ->]; [by exists h|]. done.
Qed.

Lemma openObject_wp h w :
  isSha256 h = true →
  wp (openObject root h) (λ r w', ∃ ino, regular w r.1 ino r.2 w' ∧ object w' h ino) (λ _ w', calm w w') w.
Proof.
  intros Hh. unfold openObject. apply wp_bind. eapply wp_mono; [apply check_directories_wp| |done].
  intros u w1 C1. cbv beta in C1. apply wp_bind. eapply wp_mono; [apply kind_at_wp| |intros ??; by etrans].
  intros k w2 [C2 _]. assert (calm w w2) as C by by etrans.
  assert (∀ e, calm w2 e → calm w e) as Ct by (intros; by etrans).
  destruct k as [|[]]; try exact C.
  apply wp_bind. eapply wp_mono; [apply (open_regular_wp _ w2)| |intros e w3; apply Ct].
  intros r w3 Hr. destruct r as [[fd n]|[|k]]; [|by apply Ct..].
  destruct Hr as (ino & ((Ho & Hk & Hn) & Hobj)). apply wp_ret. exists ino. split; [|by apply Hobj].
  split_and!; [|done|done]. destruct Ho as (P & N & Sf & F & M). destruct C as [P0 F0].
  split_and!; [|by rewrite <-F0| |done|done].
  - eapply peers_trans; [exact P0|intros f i; by rewrite F0|exact P].
  - intros f Hne. by rewrite Sf, F0.
Qed.

Definition blob (h : str) (size : Z) : BlobDescriptor :=
  {| bl_sha256 := h; bl_sizeBytes := size; bl_storageKey := storage_key h |}.

Lemma existing_wp h size w :
  isSha256 h = true →
  wp (existing sha256 root h size)
    (λ r w', calm w w' ∧ ∀ d, r = Some d → d = blob h size ∧ holds w' h size) (λ _ w', calm w w') w.
Proof.
  intros Hh. unfold existing. apply wp_bind. eapply wp_mono; [apply check_directories_wp| |done].
  intros u w1 C1. cbv beta in C1. apply wp_bind. eapply wp_mono; [apply kind_at_wp| |intros ??; by etrans].
  intros k w2 [C2 _]. assert (calm w w2) as C by by etrans.
  destruct k as [|k]; [by apply wp_ret|]. apply wp_bind.
  eapply wp_mono; [by apply openObject_wp| |intros e w3 C3; by etrans].
  intros [fd n] w3 (ino & (Ho & Hk & Hn) & Hobj). simpl in *.
  destruct (Z.eqb_spec n size) as [->|]; simpl.
  - apply wp_bind. eapply wp_mono; [by eapply sha256Fd_wp| |intros e w4 C4; by etrans].
    intros a w4 (C4 & P4 & Ha). destruct (str_eqb a h) eqn:E; simpl; [|by apply wp_throw; etrans].
    apply wp_ret. split; [by etrans|]. intros d [= <-]. split; [done|]. eapply holds_preserved; [exact P4|].
    exists ino. split_and!; [done|done|done|]. apply str_eqb_eq in E. rewrite <-Ha; [done|]. by exists h.
  - apply wp_bind. eapply close_wp; [exact Ho|]. intros C4. apply wp_throw. by etrans.
Qed.

(** The entry at the final path is the file behind the descriptor that was verified. *)
Lemma confirmPublished_wp h verified size w :
  isSha256 h = true →
  wp (confirmPublished root h verified size)
    (λ _ w', calm w w' ∧ object w' h (st_dev verified, st_ino verified)) (λ _ w', calm w w') w.
Proof.
  intros Hh. unfold confirmPublished. apply wp_bind. eapply wp_mono; [apply open_regular_wp| |done].
  intros [[fd n]|refused] w1 Hr; [|by apply wp_throw]. destruct Hr as (ino & (Ho & Hk & Hn) & Hobj).
  pose proof Ho as (_ & _ & _ & Hf & _).
  apply wp_bind, wp_finally. unfold sys, io_map_err, wp at 1. pose proof (bl_fstat (root := root) fd w1) as Hq.
  destruct (sys_fstat fd w1) as [[st|e] w2] eqn:E; simpl in Hq; [|eapply opened_closed, opened_calm; [exact Ho|exact Hq]].
  destruct (bl_fstat_ok _ _ _ _ _ _ E Hf) as (-> & _ & _).
  assert (calm w (sys_close fd w2)) as C by (eapply opened_closed, opened_calm; [exact Ho|exact Hq]).
  destruct (Z.eqb_spec (st_dev st) (st_dev verified)) as [<-|]; simpl; [|by apply wp_throw].
  destruct (Z.eqb_spec (st_ino st) (st_ino verified)) as [<-|]; simpl; [|by apply wp_throw].
  destruct (_ =? size); simpl; [|by apply wp_throw]. apply wp_ret. split; [done|].
  apply close_preserved. eapply calm_object; [exact Hq|]. by apply Hobj.
Qed.
(** ** A copy on its way *)

(** Since [w0] objects have stayed, and of the descriptors only [fds] are new. *)
Record since w0 (fds : list Fd) w : Prop := {
  si_preserved : preserved w0 w;
  si_same f : f ∉ fds → fd_of w f = fd_of w0 f;
  si_fresh f : f ∈ fds → fd_of w0 f = None;
}.

Lemma since_calm w0 fds w w' : since w0 fds w → calm w w' → since w0 fds w'.
Proof.
  intros [P S F] C. split; [etrans; [exact P|by apply calm_preserved]| |done].
  intros f Hf. destruct C as [_ ->]. by apply S.
Qed.

Lemma calm_since w0 w : calm w0 w → since w0 [] w.
Proof. intros [P F]. split; [apply P|intros f _; apply F|by intros f ?%elem_of_nil]. Qed.

(** A descriptor that was not open, after a call that changed no other. *)
Lemma since_new w0 fds w fd w' :
  since w0 fds w → preserved w w' → fd_of w fd = None → same_but fd w w' → since w0 (fd :: fds) w'.
Proof.
  intros [P S F] P' N B. split; [by etrans| |].
  - intros f [Hne Hn]%not_elem_of_cons. rewrite B by done. by apply S.
  - intros f [->|Hf]%elem_of_cons; [|by apply F]. destruct (decide (fd ∈ fds)); [by apply F|]. by rewrite <-S.
Qed.

Lemma since_same w0 fds w fd w' : since w0 fds w → preserved w w' → same_but fd w w' → fd ∈ fds → since w0 fds w'.
Proof.
  intros [P S F] P' B Hin. split; [by etrans| |done]. intros f Hf. rewrite B by set_solver. by apply S.
Qed.

Lemma since_close w0 fds w fd : since w0 (fd :: fds) w → since w0 fds (sys_close fd w).
Proof.
  intros [P S F]. destruct (bl_close (root := root) fd w) as (_ & _ & Hc & Hs).
  split; [etrans; [exact P|apply close_preserved]| |intros f Hf; apply F; set_solver].
  intros f Hf. destruct (decide (f = fd)) as [->|Hne]; [rewrite Hc; symmetry; apply F; set_solver|].
  rewrite Hs by done. apply S. set_solver.
Qed.

(** The temporary file, with what has been written to it. *)
Definition draft w (fd : Fd) (ino : Ino) (b : bytes) : Prop :=
  mine w fd ino ∧ bytes_of w ino = b ∧ kind_of w ino = KFile.

Lemma draft_peers w fd ino b w' : draft w fd ino b → peers w w' → fd_of w' fd = fd_of w fd → draft w' fd ino b.
Proof.
  intros (Hm & Hb & Hk) [_ M] F. destruct (M _ _ Hm) as (Hp & Hb' & Hk'). split_and!; [|by rewrite Hb'|by rewrite Hk'].
  split; [rewrite F; apply Hm|done].
Qed.

Lemma draft_calm w fd ino b w' : draft w fd ino b → calm w w' → draft w' fd ino b.
Proof. intros D [P F]. eapply draft_peers; [exact D|exact P|apply F]. Qed.

(** Another descriptor closed. *)
Lemma draft_close w fd ino b f : draft w fd ino b → f ≠ fd → draft (sys_close f w) fd ino b.
Proof.
  intros ([Hf Hp] & Hb & Hk) Hne. destruct (bl_close (root := root) f w) as (Hbk & He & _ & Hs). destruct (Hbk ino) as [E1 E2].
  split_and!; [split|by rewrite E1|by rewrite E2]; [by rewrite Hs|].
  intros (h & Hh & Hi). apply Hp. exists h. split; [done|by rewrite <-He].
Qed.

(** ** What never runs for ever *)

Definition ends {A} (m : act A) : Prop := ∀ w, wp m (λ _ _, True) (λ e _, e ≠ Unending) w.

Lemma ends_and {A} (m : act A) Q X w : ends m → wp m Q X w → wp m Q (λ e w', e ≠ Unending ∧ X e w') w.
Proof. intros He Hm. eapply wp_mono; [apply (wp_and m _ _ _ _ w (He w) Hm)|by intros ?? []|done]. Qed.
Lemma ends_bind {A B} (m : act A) (f : A → act B) : ends m → (∀ a, ends (f a)) → ends (m ≫= f).
Proof. intros Hm Hf w. apply wp_bind. eapply wp_mono; [apply Hm|intros a w' _; apply Hf|done]. Qed.
Lemma ends_ret {A} (a : A) : ends (mret a).
Proof. by intros w. Qed.
Lemma ends_throw {A} e : e ≠ Unending → ends (throw (A := A) e).
Proof. by intros He w. Qed.
Lemma ends_sys {A} (m : io W Errno A) : ends (sys m).
Proof. intros w. unfold sys, io_map_err, wp. by destruct (m w) as [[]]. Qed.
Lemma ends_catch {E A} (m : io W E A) (h : E → act A) : (∀ e, ends (h e)) → ends (try_catch m h).
Proof. intros Hh w. unfold try_catch, wp. destruct (m w) as [[a|e] w']; [done|apply Hh]. Qed.
Lemma ends_finally {A} (m : act A) f : ends m → ends (try_finally m f).
Proof. intros Hm w. apply wp_finally. apply Hm. Qed.
Lemma ends_do f : ends (io_do f).
Proof. by intros w. Qed.
End spec.

Create HintDb ends.
#[export] Hint Resolve ends_ret ends_sys ends_do : ends.

(** Through the code of a call, one construct at a time. *)
Ltac ends_step :=
  match goal with
  | |- ends (mbind _ _) => apply ends_bind; [|intros ?]
  | |- ends (throw _) => by apply ends_throw
  | |- ends (store_error _ _ _) => by apply ends_throw
  | |- ends (try_catch _ _) => apply ends_catch; intros ?
  | |- ends (try_finally _ _) => apply ends_finally
  | |- ends (close_fd _) => apply ends_do
  | |- ends (if ?b then _ else _) => destruct b
  | |- ends (match ?x with _ => _ end) => destruct x
  | |- ends _ => solve [eauto with ends]
  end.
