(* ===== verification/DemoBlob.v ===== *)
(** * A file system for the blob store

    Paths and the files behind them, the open descriptors with how far each has
    been read, and what another writer will publish just before this process
    links next. Writes take at most so many bytes at once. It satisfies the laws of
    BlobStoreSpec.v, and it computes. *)

From S2P Require Import Prelude JsString JsBytes JsNumber ValidatorRun Io FileSink FileSinkSpec PwText BlobStore BlobStoreSpec.

Local Open Scope Z_scope.

Record FileOf := { fo_kind : StatKind; fo_bytes : bytes }.
Record FdState := { fs_ino : Z; fs_writing : bool; fs_pos : nat }.

Record BlobWorld := {
  bw_names : list (str * Z);
  bw_files : Z → FileOf;
  bw_fds : list (Fd * FdState);
  bw_random : nat;
  bw_most : nat;                      (* one write takes at most one byte more *)
  bw_others : list (str * bytes);     (* what others publish, and where *)
}.
Implicit Types w : BlobWorld.

Definition name_of (l : list (str * Z)) (p : str) : option Z := snd <$> List.find (λ e, str_eqb e.1 p) l.
Definition state_of (l : list (Fd * FdState)) (fd : Fd) : option FdState := snd <$> List.find (λ o, o.1 =? fd) l.

Definition update (f : Z → FileOf) (i : Z) (c : FileOf) : Z → FileOf := λ j, if j =? i then c else f j.

(** An inode no name and no descriptor has. *)
Definition fresh_ino w : Z :=
  1 + foldr (λ e m, Z.max e.2 m) (foldr (λ o m, Z.max (fs_ino o.2) m) 0 (bw_fds w)) (bw_names w).
Definition fresh_fd (l : list (Fd * FdState)) : Fd := 1 + foldr (λ o m, Z.max o.1 m) 2 l.

(** A new file under a new name. *)
Definition create w (p : str) (c : FileOf) : BlobWorld :=
  {| bw_names := (p, fresh_ino w) :: bw_names w; bw_files := update (bw_files w) (fresh_ino w) c; bw_fds := bw_fds w;
     bw_random := bw_random w; bw_most := bw_most w; bw_others := bw_others w |}.
Definition open_as w (st : FdState) : Fd * BlobWorld :=
  (fresh_fd (bw_fds w),
   {| bw_names := bw_names w; bw_files := bw_files w; bw_fds := (fresh_fd (bw_fds w), st) :: bw_fds w;
      bw_random := bw_random w; bw_most := bw_most w; bw_others := bw_others w |}).
Definition with_names w (names : list (str * Z)) : BlobWorld :=
  {| bw_names := names; bw_files := bw_files w; bw_fds := bw_fds w;
     bw_random := bw_random w; bw_most := bw_most w; bw_others := bw_others w |}.
Definition with_pos w (fd : Fd) (pos : nat) : BlobWorld :=
  {| bw_names := bw_names w; bw_files := bw_files w;
     bw_fds := (λ o, if o.1 =? fd then (o.1, {| fs_ino := fs_ino o.2; fs_writing := fs_writing o.2; fs_pos := pos |}) else o) <$> bw_fds w;
     bw_random := bw_random w; bw_most := bw_most w; bw_others := bw_others w |}.

(** Another writer's turn. *)
Definition others w : BlobWorld :=
  match bw_others w with
  | [] => w
  | (p, b) :: rest =>
      let w := {| bw_names := bw_names w; bw_files := bw_files w; bw_fds := bw_fds w;
                  bw_random := bw_random w; bw_most := bw_most w; bw_others := rest |} in
      match name_of (bw_names w) p with Some _ => w | None => create w p {| fo_kind := KFile; fo_bytes := b |} end
  end.

Definition stats_of w (i : Z) : Stats :=
  let c := bw_files w i in
  {| st_kind := fo_kind c; st_size := Z.of_nat (length (fo_bytes c)); st_mtimeMs := i; st_dev := 1; st_ino := i |}.

Definition BADF {A} : io BlobWorld Errno A := throw (EOTHER (js "EBADF")).

(** The simple names under a directory. *)
Definition entry_under (dir p : str) : option str :=
  let name := drop (S (length dir)) p in
  if str_eqb p (dir ++ js "/" ++ name) && forallb (λ u, negb (u =? 47)%N) name then Some name else None.

#[export] Instance blob_fs : NodeFs BlobWorld := {
  path_join a b := a ++ js "/" ++ b;
  sys_realpath p w := (Ok p, w);
  sys_lstat p w := (match name_of (bw_names w) p with Some i => Ok (stats_of w i) | None => Throw ENOENT end, w);
  sys_readdir p w := (Ok (omap (λ e, entry_under p e.1) (bw_names w)), w);
  sys_open p w :=
    match name_of (bw_names w) p with
    | None => (Throw ENOENT, w)
    | Some i =>
        match fo_kind (bw_files w i) with
        | KSymlink => (Throw ELOOP, w)
        | _ => let '(fd, w) := open_as w {| fs_ino := i; fs_writing := false; fs_pos := 0 |} in (Ok fd, w)
        end
    end;
  sys_fstat fd w := match state_of (bw_fds w) fd with Some s => (Ok (stats_of w (fs_ino s)), w) | None => BADF w end;
  sys_read fd w :=
    match state_of (bw_fds w) fd with
    | None => BADF w
    | Some s =>
        match drop (fs_pos s) (fo_bytes (bw_files w (fs_ino s))) with
        | [] => (Ok None, w)
        | rest => (Ok (Some (take 4 rest)), with_pos w fd (fs_pos s + 4))
        end
    end;
  sys_read_all fd w :=
    match state_of (bw_fds w) fd with
    | None => BADF w
    | Some s =>
        let b := fo_bytes (bw_files w (fs_ino s)) in
        (Ok [drop (fs_pos s) b], with_pos w fd (length b))
    end;
  sys_close fd w :=
    {| bw_names := bw_names w; bw_files := bw_files w; bw_fds := List.filter (λ o, negb (o.1 =? fd)) (bw_fds w);
       bw_random := bw_random w; bw_most := bw_most w; bw_others := bw_others w |};
}.

#[export] Instance blob_disk : BlobDisk BlobWorld := {
  bd_open_new p w :=
    match name_of (bw_names w) p with
    | Some _ => (Throw (EOTHER (js "EEXIST")), w)
    | None =>
        let i := fresh_ino w in
        let '(fd, w) := open_as (create w p {| fo_kind := KFile; fo_bytes := [] |}) {| fs_ino := i; fs_writing := true; fs_pos := 0 |} in
        (Ok fd, w)
    end;
  bd_write fd b w :=
    match state_of (bw_fds w) fd with
    | Some {| fs_ino := i; fs_writing := true |} =>
        let b := take (S (bw_most w)) b in
        (Ok (Z.of_nat (length b)),
         {| bw_names := bw_names w;
            bw_files := update (bw_files w) i {| fo_kind := fo_kind (bw_files w i); fo_bytes := fo_bytes (bw_files w i) ++ b |};
            bw_fds := bw_fds w; bw_random := bw_random w; bw_most := bw_most w; bw_others := bw_others w |})
    | _ => BADF w
    end;
  bd_fsync _ w := (Ok tt, w);
  bd_fchmod _ w := (Ok tt, w);
  bd_link a b w :=
    let w := others w in
    match name_of (bw_names w) b, name_of (bw_names w) a with
    | Some _, _ => (Throw (EOTHER (js "EEXIST")), w)
    | None, None => (Throw ENOENT, w)
    | None, Some i => (Ok tt, with_names w ((b, i) :: bw_names w))
    end;
  bd_unlink p w :=
    match name_of (bw_names w) p with
    | None => (Throw ENOENT, w)
    | Some _ => (Ok tt, with_names w (List.filter (λ e, negb (str_eqb e.1 p)) (bw_names w)))
    end;
  bd_mkdir p w :=
    match name_of (bw_names w) p with
    | Some _ => (Ok tt, w)
    | None => (Ok tt, create w p {| fo_kind := KDirectory; fo_bytes := [] |})
    end;
  bd_readdir p w :=
    (Ok ((λ name, (name, match name_of (bw_names w) (p ++ js "/" ++ name) with
                         | Some i => fo_kind (bw_files w i) | None => KSpecial end))
           <$> remove_dups (omap (λ e, entry_under p e.1) (bw_names w))), w);
  bd_open_dir p w :=
    match name_of (bw_names w) p with
    | None => (Throw ENOENT, w)
    | Some i => let '(fd, w) := open_as w {| fs_ino := i; fs_writing := false; fs_pos := 0 |} in (Ok fd, w)
    end;
  bd_random w :=
    (replicate 32 (97 + N.of_nat (bw_random w mod 6))%N,
     {| bw_names := bw_names w; bw_files := bw_files w; bw_fds := bw_fds w;
        bw_random := S (bw_random w); bw_most := bw_most w; bw_others := bw_others w |});
  bd_relative a b := drop (S (length a)) b;
  bd_sep := js "/";
  bd_posix := true;
}.

Definition mode_of (s : FdState) : FdMode :=
  if fs_writing s then Writing else match fs_pos s with O => AtStart | _ => Reading end.

#[export] Instance blob_view : BlobView BlobWorld := {
  entry w p := (λ i, (1, i)) <$> name_of (bw_names w) p;
  kind_of w i := fo_kind (bw_files w i.2);
  bytes_of w i := if i.1 =? 1 then fo_bytes (bw_files w i.2) else [];
  fd_of w fd := (λ s, ((1, fs_ino s), mode_of s)) <$> state_of (bw_fds w) fd;
}.

(** ** It satisfies the laws *)

Section laws.
Context (root : str).
Abbreviation calm := (calm root).
Abbreviation published := (published root).
Abbreviation mine := (mine root).

Lemma find_some_in {A} f (l : list A) x : List.find f l = Some x → x ∈ l ∧ f x = true.
Proof. intros E. apply find_some in E as [? ?]. split; [by apply list_elem_of_In|done]. Qed.

Lemma foldr_max {A} (f : A → Z) l (x : A) b : x ∈ l → f x <= foldr (λ o m, Z.max (f o) m) b l.
Proof. induction l as [|y l IH]; [set_solver|]. intros [->|Hx]%elem_of_cons; simpl; [lia|]. specialize (IH Hx). lia. Qed.
Lemma foldr_max_base {A} (f : A → Z) (l : list A) b : b <= foldr (λ o m, Z.max (f o) m) b l.
Proof. induction l; simpl; lia. Qed.

Lemma named_old w p i : name_of (bw_names w) p = Some i → i ≠ fresh_ino w.
Proof.
  unfold name_of. intros (e & E & ->)%fmap_Some. apply find_some_in in E as [Hin _]. unfold fresh_ino.
  pose proof (foldr_max snd (bw_names w) e (foldr (λ o m, Z.max (fs_ino o.2) m) 0 (bw_fds w)) Hin). lia.
Qed.
Lemma open_old w fd s : state_of (bw_fds w) fd = Some s → fs_ino s ≠ fresh_ino w.
Proof.
  unfold state_of. intros (o & E & ->)%fmap_Some. apply find_some_in in E as [Hin _]. unfold fresh_ino.
  rewrite Z.add_1_l. apply Z.lt_neq, Z.lt_succ_r. etrans; [exact (foldr_max (λ o : Fd * FdState, fs_ino o.2) (bw_fds w) o 0 Hin)|].
  exact (foldr_max_base snd (bw_names w) (foldr (λ o m, Z.max (fs_ino o.2) m) 0 (bw_fds w))).
Qed.

Lemma fresh_fd_new l : state_of l (fresh_fd l) = None.
Proof.
  unfold state_of. destruct (List.find (λ o, o.1 =? fresh_fd l) l) as [o|] eqn:E; [|done]. apply find_some_in in E as [Hin E]. apply Z.eqb_eq in E.
  pose proof (foldr_max (λ o : Fd * FdState, o.1) l o 2 Hin) as Hm. unfold fresh_fd in E. rewrite Z.add_1_l in E. destruct (Z.lt_neq _ _ (proj2 (Z.lt_succ_r _ _) Hm) E).
Qed.

Lemma name_of_cons e l p : name_of (e :: l) p = if str_eqb e.1 p then Some e.2 else name_of l p.
Proof. unfold name_of. simpl. by destruct (str_eqb e.1 p). Qed.
Lemma name_of_removed l p q : name_of (List.filter (λ e, negb (str_eqb e.1 p)) l) q = if str_eqb q p then None else name_of l q.
Proof.
  induction l as [|e l IH]; simpl; [by destruct (str_eqb q p)|].
  destruct (str_eqb e.1 p) eqn:E; simpl; rewrite ?name_of_cons, IH; destruct (str_eqb q p) eqn:E2; try done.
  - apply str_eqb_eq in E. destruct (str_eqb e.1 q) eqn:E3; [|done]. apply str_eqb_eq in E3.
    rewrite <-E, E3, str_eqb_refl in E2. done.
  - apply str_eqb_eq in E2 as ->. by rewrite E.
Qed.
Lemma state_of_cons o l fd : state_of (o :: l) fd = if o.1 =? fd then Some o.2 else state_of l fd.
Proof. destruct o as [x s]. unfold state_of. simpl. by destruct (Z.eqb x fd). Qed.
Lemma state_of_closed l fd f : state_of (List.filter (λ o, negb (o.1 =? fd)) l) f = if f =? fd then None else state_of l f.
Proof.
  induction l as [|[x s] l IH]; simpl; [by destruct (f =? fd)|]. rewrite (state_of_cons _ l). cbn [fst snd].
  destruct (Z.eqb_spec x fd) as [->|Hne]; simpl; rewrite ?state_of_cons, IH; cbn [fst snd].
  - rewrite (Z.eqb_sym fd f). by destruct (f =? fd).
  - destruct (Z.eqb_spec x f) as [->|]; [|done]. by destruct (Z.eqb_spec f fd).
Qed.
Lemma state_of_with_pos w fd pos f :
  state_of (bw_fds (with_pos w fd pos)) f =
  (λ s, if f =? fd then {| fs_ino := fs_ino s; fs_writing := fs_writing s; fs_pos := pos |} else s) <$> state_of (bw_fds w) f.
Proof.
  cbn [with_pos bw_fds]. induction (bw_fds w) as [|[x s] l IH]; [done|]. rewrite fmap_cons, !state_of_cons. cbn [fst snd].
  destruct (Z.eqb_spec x fd) as [->|Hne]; cbn [fst snd].
  - destruct (Z.eqb_spec fd f) as [->|]; [by rewrite Z.eqb_refl|done].
  - destruct (Z.eqb_spec x f) as [->|]; [by destruct (Z.eqb_spec f fd)|done].
Qed.

(** A step is the others' when no object's path changed and no file that has a name or a descriptor did. *)
Lemma calm_intro w w' :
  (∀ p, object_path root p → name_of (bw_names w) p ≠ None → name_of (bw_names w') p = name_of (bw_names w) p) →
  (∀ p, object_path root p → ∀ i, name_of (bw_names w') p = Some i →
     name_of (bw_names w) p = Some i ∨ ∀ fd s, state_of (bw_fds w) fd = Some s → fs_ino s ≠ i) →
  (∀ i, (∃ p, name_of (bw_names w) p = Some i) ∨ (∃ fd s, state_of (bw_fds w) fd = Some s ∧ fs_ino s = i) →
     bw_files w' i = bw_files w i) →
  bw_fds w' = bw_fds w → calm w w'.
Proof.
  intros Hn Hnew Hf Hfd. split; [split; [split|]|].
  - intros h ino [Hh Ho]. split; [done|]. simpl in *. rewrite Hn; [done|by exists h|]. intros E. by rewrite E in Ho.
  - intros ino (h & Hh & Ho). simpl in *. apply fmap_Some in Ho as (i & Ho & ->). rewrite Hf; [done|]. left. eauto.
  - intros fd ino [Hm Hp]. simpl in *. apply fmap_Some in Hm as (s & Hs & E).
    assert (ino = (1, fs_ino s)) as -> by congruence. clear E. split_and!.
    + intros (h & Hh & Ho). simpl in Ho. apply fmap_Some in Ho as (i & Ho & E). injection E as E.
      rewrite <-E in Ho. destruct (Hnew (objectPath root h) (ex_intro _ h (conj Hh eq_refl)) _ Ho) as [Ho'|Hd]; [|by destruct (Hd _ _ Hs)].
      apply Hp. exists h. split; [done|]. exact (f_equal (fmap (λ i, (1, i))) Ho').
    + simpl. rewrite Hf; [done|]. right. eauto.
    + simpl. rewrite Hf; [done|]. right. eauto.
  - intros f. simpl. by rewrite Hfd.
Qed.

Lemma calm_create w p c : ¬ object_path root p → calm w (create w p c).
Proof.
  intros Hp. apply calm_intro; [| | |done].
  - intros q Hq _. simpl. rewrite name_of_cons. simpl. destruct (str_eqb p q) eqn:E; [|done]. by apply str_eqb_eq in E as ->.
  - intros q Hq i. simpl. rewrite name_of_cons. simpl. destruct (str_eqb p q) eqn:E; [by apply str_eqb_eq in E as ->|]. by left.
  - intros i Hi. simpl. unfold update. destruct (Z.eqb_spec i (fresh_ino w)) as [->|]; [|done].
    destruct Hi as [[q Hi]|(fd & s & Hs & Hi)]; [by apply named_old in Hi|by apply open_old in Hs].
Qed.

Lemma calm_others w : calm w (others w).
Proof.
  unfold others. destruct (bw_others w) as [|[p b] rest]; [apply calm_intro; eauto|].
  destruct (name_of (bw_names w) p) as [i|] eqn:E; cbn [bw_names]; rewrite E; [apply calm_intro; simpl; eauto|].
  apply calm_intro; simpl; [| | |done].
  - intros q Hq Hi. rewrite name_of_cons. simpl. destruct (str_eqb p q) eqn:E2; [|done]. apply str_eqb_eq in E2 as ->. congruence.
  - intros q Hq i. rewrite name_of_cons. simpl. destruct (str_eqb p q); [|by left]. intros [= <-]. right.
    intros fd s Hs. by apply (open_old w) in Hs.
  - intros i Hi. unfold update. unfold fresh_ino; simpl. fold (fresh_ino w). destruct (Z.eqb_spec i (fresh_ino w)) as [->|]; [|done].
    destruct Hi as [[q Hi]|(fd & s & Hs & Hi)]; [by apply named_old in Hi|by apply open_old in Hs].
Qed.

Lemma take_min {A} n (l : list A) : take n l = take (min n (length l)) l.
Proof.
  destruct (decide (n <= length l)%nat); [by rewrite Nat.min_l|]. rewrite Nat.min_r, firstn_all by lia. by rewrite take_ge by lia.
Qed.

Lemma calm_same w : calm w w.
Proof. apply calm_intro; eauto. Qed.

Lemma peers_files w w' : bw_names w' = bw_names w → bw_files w' = bw_files w → peers root w w'.
Proof.
  intros En Ef.
  assert (∀ i, published w' i → published w i) as Hp.
  { intros i (h & Hh & Hi). exists h. split; [done|]. simpl in Hi |- *. by rewrite <-En. }
  split; [split|].
  - intros h ino [Hh Hi]. split; [done|]. simpl in Hi |- *. by rewrite En.
  - intros ino _. simpl. by rewrite Ef.
  - intros fd ino [_ Hn]. simpl. rewrite Ef. split; [by intros ?%Hp|done].
Qed.

Lemma fd_of_state w fd ino m : fd_of w fd = Some (ino, m) → ∃ s, state_of (bw_fds w) fd = Some s ∧ ino = (1, fs_ino s) ∧ m = mode_of s.
Proof. intros (s & Hs & E)%fmap_Some. exists s. split; [done|]. split; congruence. Qed.
Lemma entry_name w p ino : entry w p = Some ino → ∃ i, name_of (bw_names w) p = Some i ∧ ino = (1, i).
Proof. intros (i & Hi & E)%fmap_Some. exists i. split; [done|congruence]. Qed.

(** Opening a descriptor. *)
Lemma open_as_new w s fd w' : open_as w s = (fd, w') →
  peers root w w' ∧ fd_of w fd = None ∧ same_but fd w w' ∧ fd_of w' fd = Some ((1, fs_ino s), mode_of s) ∧ bw_names w' = bw_names w.
Proof.
  intros [= <- <-]. split_and!; [by apply peers_files| | | |done].
  - unfold fd_of; simpl. by rewrite fresh_fd_new.
  - intros f Hne. unfold fd_of; simpl. rewrite state_of_cons. cbn [fst snd].
    destruct (Z.eqb_spec (fresh_fd (bw_fds w)) f); [by destruct Hne|done].
  - unfold fd_of; simpl. rewrite state_of_cons. cbn [fst snd]. by rewrite Z.eqb_refl.
Qed.

Lemma with_pos_reads w fd pos s : state_of (bw_fds w) fd = Some s →
  peers root w (with_pos w fd pos) ∧ same_but fd w (with_pos w fd pos) ∧
  (∀ ino m, fd_of w fd = Some (ino, m) → m ≠ Writing → ∃ m', fd_of (with_pos w fd pos) fd = Some (ino, m') ∧ m' ≠ Writing).
Proof.
  intros Hs. split_and!; [by apply peers_files| |].
  - intros f Hne. cbn [fd_of blob_view]. rewrite state_of_with_pos. destruct (Z.eqb_spec f fd); [done|]. by destruct (state_of _ f).
  - intros ino m (s' & Hs' & -> & ->)%fd_of_state Hm. cbn [fd_of blob_view]. rewrite state_of_with_pos, Z.eqb_refl, Hs'. cbn [fmap option_fmap option_map].
    eexists. split; [done|]. unfold mode_of in *. simpl. destruct (fs_writing s'); [done|]. by destruct pos.
Qed.

Lemma read_calm w fd (r : Prop) : calm w w → r →
  peers root w w ∧ same_but fd w w ∧
  (∀ ino m, fd_of w fd = Some (ino, m) → m ≠ Writing → ∃ m', fd_of w fd = Some (ino, m') ∧ m' ≠ Writing) ∧ r.
Proof. intros [P _] Hr. split_and!; [done|done|eauto|done]. Qed.
End laws.

#[export, refine] Instance blob_laws root : BlobDiskLaws BlobWorld root := {}.
Proof.
  - apply path_join_inj.
  - intros w. split; [apply calm_intro; simpl; eauto|]. split; [|apply length_replicate].
    intros [E _]%elem_of_replicate. assert (97 <= 47)%N; [|lia]. rewrite E. lia.
  - intros p w. apply calm_same.
  - intros p w. apply calm_same.
  - intros p w. apply calm_same.
  - intros p Hp w. unfold bd_mkdir; simpl. destruct (name_of _ p); [apply calm_same|by apply calm_create].
  - intros p w. apply calm_same.
  - intros p w. apply calm_same.
  - intros p w. apply calm_same.
  - intros p w st w'. simpl. destruct (name_of _ p) as [i|] eqn:E; [|done]. intros [= <- <-]. simpl. by rewrite E.
  - intros fd w. simpl. destruct (state_of _ fd); apply calm_same.
  - intros fd w st w' ino m. simpl. destruct (state_of _ fd) as [s|] eqn:E; [|done]. intros [= <- <-] Hf.
    assert (ino = (1, fs_ino s)) as -> by (simpl in Hf; congruence). done.
  - intros p w fd w'. simpl. destruct (name_of _ p) as [i|] eqn:E; [|done].
    assert (∀ fd w', open_as w {| fs_ino := i; fs_writing := false; fs_pos := 0 |} = (fd, w') →
      peers root w w' ∧ fd_of w fd = None ∧ same_but fd w w' ∧
      ∃ ino, entry w' p = Some ino ∧ fd_of w' fd = Some (ino, AtStart)) as Ho.
    { intros f w1 (P & N & S & F & En)%(open_as_new root). split_and!; [done|done|done|]. exists (1, i). split; [|done].
      simpl. by rewrite En, E. }
    destruct (fo_kind _); try done; intros [= <- <-]; by apply Ho.
  - intros p w e w'. simpl. destruct (name_of _ p) as [i|]; [|intros [= _ <-]; apply calm_same].
    destruct (fo_kind _); try done. intros [= _ <-]. apply calm_same.
  - intros p w fd w'. simpl. destruct (name_of _ p) as [i|] eqn:E; [|done]. intros [= <- <-].
    destruct (open_as_new root w {| fs_ino := i; fs_writing := false; fs_pos := 0 |} _ _ eq_refl) as (P & N & S & F & _).
    split_and!; [done|done|done|by eexists].
  - intros p w e w'. simpl. destruct (name_of _ p) as [i|]; [done|]. intros [= _ <-]. apply calm_same.
  - intros p w fd w' Hp. simpl. destruct (name_of _ p) as [i|] eqn:E; [done|]. intros [= <- <-].
    set (st := {| fs_ino := fresh_ino w; fs_writing := true; fs_pos := 0 |}).
    set (w1 := create w p {| fo_kind := KFile; fo_bytes := [] |}).
    pose proof (calm_create root w p {| fo_kind := KFile; fo_bytes := [] |} Hp) as C.
    destruct (open_as_new root w1 st _ _ eq_refl) as (P & N & S & F & En). fold w1 in C. split_and!.
    + eapply (peers_trans root); [apply C|intros f i; by rewrite (proj2 C)|exact P].
    + exact (eq_trans (eq_sym (proj2 C _)) N).
    + intros f Hf. rewrite S by done. apply (proj2 C).
    + exists (1, fresh_ino w). split_and!; [split; [exact F|]| |].
      * intros (h & Hh & (i & Hi & E1)%entry_name). assert (i = fresh_ino w) as -> by congruence. simpl in Hi.
        rewrite name_of_cons in Hi. cbn [fst snd] in Hi. destruct (str_eqb p _) eqn:E2; [|by apply named_old in Hi].
        apply str_eqb_eq in E2 as ->. apply Hp. by exists h.
      * simpl. unfold update. by rewrite Z.eqb_refl.
      * simpl. unfold update. by rewrite Z.eqb_refl.
  - intros p w e w'. simpl. destruct (name_of _ p) as [i|]; [|done]. intros [= _ <-]. apply calm_same.
  - intros fd w. cbn [sys_read sys_read_all blob_fs]. destruct (state_of (bw_fds w) fd) as [s|] eqn:E; [|by apply read_calm; [apply calm_same|]].
    destruct (drop _ _) as [|x rest] eqn:Er; [by apply read_calm; [apply calm_same|]|].
    destruct (with_pos_reads root w fd (fs_pos s + 4) s E) as (P & S & R). split_and!; [done|done|done|].
    by intros b [= <-].
  - intros fd w. cbn [sys_read sys_read_all blob_fs]. destruct (state_of (bw_fds w) fd) as [s|] eqn:E; [|by apply read_calm; [apply calm_same|]].
    destruct (with_pos_reads root w fd (length (fo_bytes (bw_files w (fs_ino s)))) s E) as (P & S & R). split_and!; [done|done|done|].
    intros ino chunks Hf _ [= <-].
    destruct (fd_of_state _ _ _ _ Hf) as (s' & Hs' & -> & Hm). assert (s' = s) as -> by congruence. simpl. rewrite app_nil_r.
    unfold mode_of in Hm. destruct (fs_writing s), (fs_pos s); by rewrite ?drop_0.
  - intros fd w. split_and!; [done|done| |].
    + cbn [fd_of blob_view bw_fds sys_close blob_fs]. by rewrite state_of_closed, Z.eqb_refl.
    + intros f Hne. cbn [fd_of blob_view bw_fds sys_close blob_fs]. rewrite state_of_closed. by destruct (Z.eqb_spec f fd).
  - intros fd b w ino [Hf Hp]. destruct (fd_of_state _ _ _ _ Hf) as (s & Hs & -> & Hm).
    cbn [bd_write blob_disk]. rewrite Hs. unfold mode_of in Hm. destruct s as [i [] pos]; [|by destruct pos].
    split; [done|]. exists w. split_and!; [apply calm_same|done| | |].
    + intros [d j]. simpl. unfold update. by destruct (Z.eqb_spec j i) as [->|].
    + intros [d j] Hne. simpl. unfold update. destruct (Z.eqb_spec d 1) as [->|]; [|done]. by destruct (Z.eqb_spec j i) as [->|].
    + exists (min (S (bw_most w)) (length b)). simpl fs_ino. split; [lia|]. split.
      * rewrite <-take_min. simpl. unfold update. by rewrite Z.eqb_refl.
      * rewrite length_take. split; [done|]. destruct b; simpl; [done|lia].
  - intros a b w w'. cbn [bd_link blob_disk]. pose proof (calm_others root w) as C.
    destruct (name_of (bw_names (others w)) b) as [j|] eqn:Eb; [done|].
    destruct (name_of (bw_names (others w)) a) as [i|] eqn:Ea; [|done]. intros [= <-].
    split; [intros f; exact (proj2 C f)|]. exists (others w), (1, i). split_and!; [done| | | | |done].
    + cbn [entry blob_view]. by rewrite Eb.
    + cbn [entry blob_view]. by rewrite Ea.
    + cbn [entry blob_view with_names bw_names]. rewrite name_of_cons. cbn [fst snd]. by rewrite str_eqb_refl.
    + intros q Hq. cbn [entry blob_view with_names bw_names]. rewrite name_of_cons. cbn [fst snd].
      by rewrite (proj2 (str_eqb_neq b q)) by congruence.
  - intros a b w e w'. cbn [bd_link blob_disk]. pose proof (calm_others root w) as C.
    destruct (name_of _ b); [by intros [= _ <-]|]. destruct (name_of _ a); [done|]. by intros [= _ <-].
  - intros p w w'. cbn [bd_unlink blob_disk]. destruct (name_of _ p); [|done]. intros [= <-].
    split; [done|]. exists w. split_and!; [apply calm_same| | |done].
    + cbn [entry blob_view with_names bw_names]. by rewrite name_of_removed, str_eqb_refl.
    + intros q Hq. cbn [entry blob_view with_names bw_names]. rewrite name_of_removed.
      by rewrite (proj2 (str_eqb_neq q p)) by done.
  - intros p w e w'. cbn [bd_unlink blob_disk]. destruct (name_of _ p); [done|]. intros [= _ <-]. apply calm_same.
Qed.

Lemma demo_names_once p (w : BlobWorld) es w' : bd_readdir p w = (Ok es, w') → NoDup es.*1.
Proof.
  intros [= <- _]. rewrite <-list_fmap_compose. erewrite list_fmap_ext, list_fmap_id; [apply NoDup_remove_dups|done].
Qed.
