(* ===== verification/BlobStorePut.v ===== *)
(** * Publication (blob-fs/src/file-blob-store.ts, [put])

    A blob is copied to a temporary file no one else writes, compared with what
    was declared, and linked under its hash. Whatever happens the objects stay as
    they were, no descriptor is left open, and the copy comes to an end; what
    [put] returns is an object of the declared hash and size, whole. *)

From stdpp Require Import sorting.
From S2P Require Import Prelude JsString JsBytes JsMap JsSort ValidatorRun JsNumber Io FileSink PwText BlobStore BlobStoreSpec.

Local Open Scope Z_scope.

Section put.
Context {W : Type} (root : str) `{BlobDiskLaws W root} (sha256 : bytes → str) (maxBlobBytes : Z).
Implicit Types w : W.
Abbreviation act := (io W BlobThrown).
Abbreviation object := (object root).
Abbreviation published := (published root).
Abbreviation mine := (mine root).
Abbreviation preserved := (preserved root).
Abbreviation peers := (peers root).
Abbreviation calm := (calm root).
Abbreviation since := (since root).
Abbreviation draft := (draft root).
Abbreviation holds := (holds root sha256).

(** How a call may fail: not by running for ever, and with the descriptors [fds] open. *)
Definition failed w0 fds (e : BlobThrown) w : Prop := e ≠ Unending ∧ since w0 fds w.

Lemma entries_published w w' : (∀ p, entry w' p = entry w p) → ∀ i, published w' i → published w i.
Proof. intros He i (h & Hh & Hi). exists h. split; [done|by rewrite <-He]. Qed.

(** One write: it reached the disk in part at least, or failed. *)
Lemma write_wp fd ino b0 b w0 fds w :
  draft w fd ino b0 → since w0 fds w → b ≠ [] →
  wp (sys (bd_write fd b))
    (λ n w', ∃ k, n = Z.of_nat k ∧ (0 < k <= length b)%nat ∧ draft w' fd ino (b0 ++ take k b) ∧ since w0 fds w' ∧ same_fds w w')
    (failed w0 fds) w.
Proof.
  intros D Sw Hb. pose proof (bl_write (root := root) fd b w ino (proj1 D)) as Hw. unfold sys, io_map_err, wp.
  destruct (bd_write fd b w) as [r w']. destruct Hw as (F & w1 & C1 & He & Hk & Ho & n & Hn & Hbn & Hr).
  pose proof (draft_calm _ _ _ _ _ _ D C1) as D1. pose proof D1 as ([Hf1 Hp1] & Hb1 & Hk1).
  assert (preserved w1 w') as P.
  { split; [intros h i [Hh Hi]; split; [done|by rewrite He]|]. intros i Hi. split; [|apply Hk]. apply Ho. by intros ->. }
  assert (since w0 fds w') as S'.
  { destruct (since_calm _ _ _ _ _ Sw C1) as [P1 S1 F1]. split; [by etrans| |done].
    intros f Hf. rewrite F, <-(proj2 C1). by apply S1. }
  destruct r as [m|e]; [|by split]. destruct Hr as [-> Hr]. exists n. split_and!; [done|by apply Hr|done| |done|done].
  split_and!; [split| |].
  - rewrite F, <-(proj2 C1). done.
  - by intros ?%(entries_published w1 w' He).
  - by rewrite Hbn, Hb1.
  - by rewrite Hk.
Qed.

(** All of a chunk is written, in as many turns as it has bytes. *)
Lemma write_all_wp turns fd ino b w0 fds b0 w :
  draft w fd ino b0 → since w0 fds w → (length b <= turns)%nat →
  wp (write_all turns fd b) (λ _ w', draft w' fd ino (b0 ++ b) ∧ since w0 fds w' ∧ same_fds w w') (failed w0 fds) w.
Proof.
  revert b b0 w. induction turns as [|turns IH]; intros [|x b] b0 w D Sw Ht; simpl in Ht; try lia;
    try (apply wp_ret; rewrite app_nil_r; by split_and!).
  cbn [write_all]. apply wp_bind. eapply wp_mono; [by eapply write_wp| |done].
  intros n w1 (k & -> & [Hk1 Hk2] & D1 & S1 & F1). rewrite Nat2Z.id. eapply wp_mono; [apply IH; [exact D1|exact S1|]| |done].
  - rewrite length_drop. simpl. lia.
  - intros u w2. rewrite <-app_assoc, take_drop. intros (? & ? & F2). split_and!; [done|done|]. intros f. by rewrite F2.
Qed.

(** A source open for reading beside the draft. *)
Definition reading w (fd : Fd) : Prop := ∃ i m, fd_of w fd = Some (i, m) ∧ m ≠ Writing.

Lemma reading_not_draft w s t i b : reading w s → draft w t i b → s ≠ t.
Proof. intros (i' & m & Hs & Hm) ([Ht _] & _) ->. congruence. Qed.

Lemma copy_loop_wp turns s t ino declared hash copied w0 w :
  draft w t ino copied → since w0 [s; t] w → reading w s →
  Z.of_nat (length copied) <= declared → (Z.to_nat declared < turns + length copied)%nat →
  wp (copy_loop turns s t declared hash copied)
    (λ b w', draft w' t ino b ∧ since w0 [s; t] w') (failed w0 [s; t]) w.
Proof.
  revert copied w. induction turns as [|turns IH]; intros copied w D Sw R Hd Ht; [lia|].
  cbn [copy_loop]. pose proof (reading_not_draft _ _ _ _ _ R D) as Hne. destruct R as (i & m & Hs & Hm).
  apply wp_bind. unfold sys, io_map_err, wp at 1. pose proof (bl_read (root := root) s w) as Hr.
  destruct (sys_read s w) as [r w1]. destruct Hr as (P1 & F1 & R1 & B1).
  assert (since w0 [s; t] w1) as S1 by (eapply (since_same root); [exact Sw|apply P1|exact F1|set_solver]).
  assert (draft w1 t ino copied) as D1 by (eapply (draft_peers root); [exact D|exact P1|by apply F1]).
  assert (reading w1 s) as R1'. { destruct (R1 _ _ Hs Hm) as (m' & ? & ?). by exists i, m'. }
  destruct r as [[b|]|e]; [|by apply wp_ret|by split]. specialize (B1 b eq_refl).
  destruct (Z.ltb_spec declared (Z.of_nat (length (copied ++ b)))) as [|Hle]; [by apply wp_throw|].
  apply wp_bind. eapply wp_mono; [by eapply write_all_wp| |done]. intros u w2 (D2 & S2 & F2).
  apply IH; [done|done| |done|].
  - destruct R1' as (i' & m' & ? & ?). exists i', m'. by rewrite F2.
  - rewrite length_app in Hle |- *. destruct b; [done|]. simpl. lia.
Qed.

Lemma copyAndHash_wp s t ino declared hash w0 w :
  draft w t ino [] → since w0 [s; t] w → reading w s → 0 <= declared →
  wp (copyAndHash s t declared hash) (λ b w', draft w' t ino b ∧ since w0 [t] w') (failed w0 [t]) w.
Proof.
  intros D Sw R Hd. pose proof (reading_not_draft _ _ _ _ _ R D) as Hne. unfold copyAndHash. apply wp_finally.
  eapply wp_mono; [eapply copy_loop_wp; [exact D|exact Sw|exact R|done|simpl; lia]| |].
  - intros b w1 [D1 S1]. split; [by apply (draft_close root)|by apply (since_close root)].
  - intros e w1 [He S1]. split; [done|by apply (since_close root)].
Qed.

(** ** The calls in order *)

Lemma open_source_wp path size hash w :
  wp (open_source path size hash) (λ fd w', ∃ ino, opened root w fd ino AtStart w') (λ _ w', calm w w') w.
Proof.
  unfold open_source. apply wp_bind. eapply wp_mono; [apply (kind_at_wp root)| |done]. intros k w1 [C1 _].
  destruct k as [|[]]; try by apply wp_throw.
  apply wp_bind. eapply wp_mono; [apply (open_regular_wp root path w1)| |intros ??; by etrans].
  intros [[fd n]|[|k]] w2 Hr; try by apply wp_throw; etrans. destruct Hr as (ino & (Ho & _ & _) & _).
  destruct (size <? n).
  - apply wp_bind. eapply (close_wp root); [exact Ho|]. intros C2. apply wp_throw. by etrans.
  - apply wp_ret. exists ino. destruct Ho as (P & N & S & F & M), C1 as [P1 F1]. split_and!; [|by rewrite <-F1| |done|done].
    + eapply (peers_trans root); [exact P1|intros f i; by rewrite F1|exact P].
    + intros f Hf. by rewrite S, F1.
Qed.

Lemma temp_not_object w : ¬ object_path root (path_join (temp_dir root) ((bd_random w).1 ++ js ".part")).
Proof.
  destruct (bl_random (root := root) w) as (_ & Hs & Hl). apply (other_name root).
  - intros [?|Hin]%elem_of_app; [done|]. vm_compute in Hin. set_solver.
  - rewrite length_app, Hl. vm_compute. lia.
Qed.

Lemma open_blob_temp_wp s w0 w :
  since w0 [s] w → reading w s →
  wp (open_temp root s)
    (λ r w', ¬ object_path root r.1 ∧ since w0 [s; r.2] w' ∧ reading w' s ∧ ∃ ino, draft w' r.2 ino [])
    (failed w0 []) w.
Proof.
  intros Sw (i & m & Hs & Hm). unfold open_temp, wp. pose proof (temp_not_object w) as Ht.
  destruct (bl_random (root := root) w) as (C & _ & _). destruct (bd_random w) as [name w1]. simpl in C, Ht.
  pose proof (since_calm _ _ _ _ _ Sw C) as S1. unfold try_catch, mbind, io_mbind.
  destruct (bd_open_new _ w1) as [[t|e] w2] eqn:E; simpl.
  - apply (bl_open_new_ok (root := root) _ _ _ _ Ht) in E as (P & N & B & ino & Hd & Hb & Hk).
    assert (s ≠ t) as Hne. { intros ->. destruct C as [_ F]. congruence. }
    split_and!; [done| | |by exists ino].
    + split; [etrans; [apply S1|apply P]| |].
      * intros f Hf. rewrite B by set_solver. apply S1. set_solver.
      * intros f [->|[->|[]%elem_of_nil]%elem_of_cons]%elem_of_cons; [apply S1; set_solver|].
        rewrite <-N. symmetry. apply S1. set_solver.
    + exists i, m. by rewrite B, (proj2 C).
  - apply (bl_open_new_fail (root := root)) in E. split; [done|]. apply (since_close root). by eapply (since_calm root).
Qed.

(** What has been verified is in the temporary file. *)
Definition verified w t (hash : str) (size : Z) (st : Stats) : Prop :=
  ∃ b, draft w t (st_dev st, st_ino st) b ∧ Z.of_nat (length b) = size ∧ sha256 b = hash.

Lemma verify_copy_wp s t ino size hash w0 w :
  draft w t ino [] → since w0 [s; t] w → reading w s → 0 <= size →
  wp (verify_copy sha256 s t size hash) (λ st w', verified w' t hash size st ∧ since w0 [t] w') (failed w0 [t]) w.
Proof.
  intros D Sw R Hs. unfold verify_copy. apply wp_bind. eapply wp_mono; [by eapply copyAndHash_wp| |done].
  intros b w1 [D1 S1]. destruct (Z.eqb_spec (Z.of_nat (length b)) size) as [Hl|]; [|by apply wp_throw]. cbn [negb].
  destruct (str_eqb (sha256 b) hash) eqn:E; [|by apply wp_throw]. apply str_eqb_eq in E. cbn [negb].
  assert (∀ A (m : io W Errno A) w2, quiet root m → draft w2 t ino b ∧ since w0 [t] w2 →
    wp (sys m) (λ _ w', draft w' t ino b ∧ since w0 [t] w') (failed w0 [t]) w2) as Hq.
  { intros A m w2 Hm [D2 S2]. eapply wp_mono; [apply ends_and; [apply ends_sys|apply (quiet_wp root), Hm]| |].
    - intros a w3 C. split; [by eapply (draft_calm root)|by eapply (since_calm root)].
    - intros e w3 [He C]. split; [done|by eapply (since_calm root)]. }
  apply wp_bind. eapply wp_mono; [apply Hq; [apply bl_fsync|done]| |done]. intros u w2 DS2.
  apply wp_bind. eapply (wp_mono _ (λ _ w', draft w' t ino b ∧ since w0 [t] w')); [| |intros e w'; exact id].
  { destruct bd_posix; [apply Hq; [apply bl_fchmod|done]|by apply wp_ret]. }
  intros u' w3 [D3 S3]. unfold sys, io_map_err, wp. pose proof (bl_fstat (root := root) t w3) as C.
  destruct (sys_fstat t w3) as [[st|e] w4] eqn:Ef; simpl in C.
  - destruct (bl_fstat_ok (root := root) _ _ _ _ _ _ Ef (proj1 (proj1 D3))) as (-> & _).
    split; [exists b; split_and!; [by eapply (draft_calm root)|done|done]|by eapply (since_calm root)].
  - split; [done|by eapply (since_calm root)].
Qed.

(** ** Publication *)

Lemma kind_at_ends p : ends (kind_at (W := W) p).
Proof. intros w. unfold kind_at, wp, try_catch, mbind, io_mbind. by destruct (sys_lstat p w) as [[st|[]] w']. Qed.
Lemma open_regular_ends p : ends (open_regular (W := W) p).
Proof. unfold open_regular. repeat ends_step. Qed.
Lemma check_directories_ends ps : ends (check_directories (W := W) root ps).
Proof. induction ps as [|p ps IH]; simpl; [apply ends_ret|]. apply ends_bind; [apply kind_at_ends|]. intros [|[]]; repeat ends_step. Qed.
Lemma removeQuietly_ends p : ends (removeQuietly (W := W) p).
Proof. unfold removeQuietly. repeat ends_step. Qed.
Lemma syncDirectory_ends p : ends (syncDirectory (W := W) p).
Proof. unfold syncDirectory. repeat ends_step. Qed.
#[local] Hint Resolve kind_at_ends open_regular_ends check_directories_ends removeQuietly_ends syncDirectory_ends : ends.
Lemma confirmPublished_ends h st size : ends (confirmPublished (W := W) root h st size).
Proof. unfold confirmPublished. repeat ends_step. Qed.
Lemma openObject_ends h : ends (openObject (W := W) root h).
Proof. unfold openObject, checkObjectDirectories. repeat ends_step. Qed.
#[local] Hint Resolve confirmPublished_ends openObject_ends : ends.
Lemma existing_ends h size : ends (existing (W := W) sha256 root h size).
Proof. unfold existing, checkObjectDirectories, sha256Fd. repeat ends_step. Qed.
Lemma ensureDirectory_ends p : ends (ensureDirectory (W := W) root p).
Proof. unfold ensureDirectory. repeat ends_step. Qed.
Lemma open_source_ends p size h : ends (open_source (W := W) p size h).
Proof. unfold open_source. repeat ends_step. Qed.
#[local] Hint Resolve existing_ends ensureDirectory_ends : ends.

(** A call that never changes what is ours, in the course of a [put]. *)
Lemma calm_since_wp {A} (m : act A) (Q : A → W → Prop) w0 fds w :
  since w0 fds w → ends m → wp m (λ a w', calm w w' ∧ Q a w') (λ _ w', calm w w') w →
  wp m (λ a w', since w0 fds w' ∧ calm w w' ∧ Q a w') (failed w0 fds) w.
Proof.
  intros Sw He Hm. eapply wp_mono; [by apply (ends_and m _ _ w He Hm)| |].
  - intros a w' [C Hq]. split_and!; [by eapply (since_calm root)|done|done].
  - intros e w' [Hn C]. split; [done|by eapply (since_calm root)].
Qed.

Lemma quietly {A} (m : act A) w0 fds w :
  since w0 fds w → ends m → wp m (λ _ w', calm w w') (λ _ w', calm w w') w →
  wp m (λ _ w', since w0 fds w' ∧ preserved w w') (failed w0 fds) w.
Proof.
  intros Sw He Hm. eapply wp_mono; [eapply (calm_since_wp m (λ _ _, True) _ _ _ Sw He)| |done].
  - eapply wp_mono; [exact Hm|by intros|done].
  - intros a w' (? & C & _). split; [done|by apply (calm_preserved root)].
Qed.

Lemma link_publishes temp h w w' w0 fds :
  isSha256 h = true → bd_link temp (objectPath root h) w = (Ok tt, w') → since w0 fds w →
  since w0 fds w' ∧ (∃ ino, object w' h ino) ∧
  ∀ t ino b, draft w t ino b → bytes_of w' ino = b ∧ kind_of w' ino = KFile.
Proof.
  intros Hh E Sw. destruct (bl_link_ok (root := root) _ _ _ _ E) as (F & w1 & i & C1 & Hn & _ & Hi & He & Hk).
  split_and!.
  - destruct (since_calm _ _ _ _ _ Sw C1) as [P1 S1 F1]. split; [etrans; [exact P1|]| |done].
    + split; [|intros j _; destruct (Hk j); done]. intros h' ino [Hh' Ho]. split; [done|].
      rewrite He; [done|]. intros E'. rewrite E' in Ho. congruence.
    + intros f Hf. rewrite F, <-(proj2 C1). by apply S1.
  - by exists i.
  - intros t ino b D. pose proof (draft_calm root _ _ _ _ w1 D C1) as D1; clear D; rename D1 into D. destruct D as (_ & Hb & Hkf), (Hk ino) as [-> ->]. done.
Qed.

Lemma publish_link_wp temp t h size st w0 w :
  isSha256 h = true → verified w t h size st → since w0 [t] w →
  wp (publish_link root temp h st size) (λ b w', since w0 [t] w' ∧ (b = true → holds w' h size)) (failed w0 [t]) w.
Proof.
  intros Hh (b & D & Hl & Hs) Sw. unfold publish_link. apply wp_bind. unfold try_catch, mbind at 1, io_mbind at 1, wp at 1.
  destruct (bd_link temp (objectPath root h) w) as [[[]|e] w1] eqn:E.
  - destruct (link_publishes _ _ _ _ _ _ Hh E Sw) as (S1 & [i Hi] & Hb). destruct (Hb _ _ _ D) as [Hb1 Hk1].
    apply wp_bind, wp_bind. eapply wp_mono; [eapply calm_since_wp; [exact S1|apply confirmPublished_ends|by apply (confirmPublished_wp root)]| |done].
    intros u w2 (S2 & C2 & Ho2). pose proof (calm_object root _ _ _ _ C2 Hi) as [_ Hi2].
    assert (i = (st_dev st, st_ino st)) as -> by (destruct Ho2 as [_ Ho2]; congruence).
    eapply wp_mono; [eapply quietly; [exact S2|apply syncDirectory_ends|eapply wp_mono; [apply (syncDirectory_wp root)|done|done]]| |done].
    intros u' w3 [S3 P3]. apply wp_ret. split; [done|]. intros _. eapply (holds_preserved root); [exact P3|].
    eapply (holds_preserved root); [by apply (calm_preserved root)|]. eexists. split_and!; [exact Hi|done|by rewrite Hb1|by rewrite Hb1].
  - apply (bl_link_fail (root := root)) in E. pose proof (since_calm root _ _ _ _ Sw E) as S1.
    destruct e as [| | | |c]; try by split. destruct (str_eqb c _); [|by split]. by apply wp_bind, wp_ret, wp_ret.
Qed.

(** ** The whole call *)

(** The [catch] of [put]: the descriptor still open is closed, and the temporary file let go. *)
Lemma cleaning_wp {A} temp (fd : option Fd) (m : act A) (Q : A → W → Prop) w0 w :
  ¬ object_path root temp → wp m Q (failed w0 (option_list fd)) w → wp (cleaning temp fd m) Q (failed w0 []) w.
Proof.
  intros Ht Hm. unfold cleaning. apply wp_catch. eapply wp_mono; [exact Hm|done|]. intros e w1 [He S1].
  apply wp_bind. apply (wp_mono _ (λ _ w', since w0 [] w') _ (λ _ _, False)); [|intros u w2 S2|done].
  - destruct fd; [apply wp_do; by apply (since_close root)|by apply wp_ret].
  - apply wp_bind. eapply wp_mono; [eapply quietly; [exact S2|apply removeQuietly_ends|by apply (removeQuietly_wp root)]| |done].
    intros v w3 [S3 _]. by apply wp_throw.
Qed.

Lemma adopt_winner_wp temp h size w0 w :
  isSha256 h = true → ¬ object_path root temp → since w0 [] w →
  wp (adopt_winner sha256 root temp h size)
    (λ r w', since w0 [] w' ∧ pr_blob r = blob h size ∧ holds w' h size) (failed w0 []) w.
Proof.
  intros Hh Ht Sw. unfold adopt_winner. apply wp_bind.
  eapply wp_mono; [eapply quietly; [exact Sw|apply removeQuietly_ends|by apply (removeQuietly_wp root)]| |done].
  intros u w1 [S1 _]. apply wp_bind.
  eapply wp_mono; [eapply calm_since_wp; [exact S1|apply existing_ends|by apply (existing_wp root)]| |done].
  intros [d|] w2 (S2 & _ & Hd); [|by apply wp_throw]. destruct (Hd d) as [-> Hs]; [done|]. by apply wp_ret.
Qed.

Lemma ensure_directories_wp h w0 w :
  isSha256 h = true → since w0 [] w → wp (ensure_directories root h) (λ _ w', since w0 [] w') (failed w0 []) w.
Proof.
  intros Hh Sw. pose proof (store_directories root h Hh) as Hd. rewrite !Forall_cons in Hd.
  destruct Hd as (H1' & H2' & H3' & H4' & _). unfold ensure_directories.
  assert (∀ p w1, ¬ object_path root p → since w0 [] w1 →
    wp (ensureDirectory root p) (λ _ w', since w0 [] w') (failed w0 []) w1) as He.
  { intros p w1 Hp S1. eapply wp_mono; [eapply quietly; [exact S1|apply ensureDirectory_ends|by apply (ensureDirectory_wp root)]| |done].
    by intros ?? []. }
  do 3 (apply wp_bind; eapply wp_mono; [by apply He| |done]; intros ???). by apply He.
Qed.

Lemma store_new_wp path h size w0 w :
  isSha256 h = true → 0 <= size → since w0 [] w →
  wp (store_new sha256 root path h size)
    (λ r w', since w0 [] w' ∧ pr_blob r = blob h size ∧ holds w' h size) (failed w0 []) w.
Proof.
  intros Hh Hs Sw. unfold store_new. apply wp_bind. eapply wp_mono; [by apply ensure_directories_wp| |done].
  intros u w1 S1. apply wp_bind. eapply wp_mono; [apply ends_and; [apply open_source_ends|apply open_source_wp]| |].
  2:{ intros e w2 [He C]. cbv beta in C. split; [done|]. eapply (since_calm root); [exact S1|exact C]. }
  intros s w2 (i & P2 & N2 & B2 & F2 & M2).
  assert (since w0 [s] w2) as S2 by (eapply (since_new root); [exact S1|apply P2|done|done]).
  apply wp_bind. eapply wp_mono; [apply open_blob_temp_wp; [exact S2|by exists i, AtStart]| |done].
  intros [temp t] w3 (Ht & S3 & R3 & ino & D3). simpl in *. apply wp_bind.
  apply (wp_mono _ (λ b w', since w0 [t] w' ∧ (b = true → holds w' h size)) _ (failed w0 [])); [| |done].
  { apply cleaning_wp; [done|]. apply wp_bind. eapply wp_mono; [eapply verify_copy_wp; [exact D3|exact S3|exact R3|done]| |done].
    intros st w4 [V4 S4]. by apply publish_link_wp with (t := t). }
  intros linked w4 [S4 H4]. apply wp_bind, wp_do.
  pose proof (since_close root _ _ _ _ S4) as S5. apply cleaning_wp; [done|]. destruct linked; [|by apply adopt_winner_wp].
  apply wp_bind. eapply wp_mono; [eapply quietly; [exact S5|apply removeQuietly_ends|by apply (removeQuietly_wp root)]| |done].
  intros v w5 [S6 P6]. apply wp_ret. split_and!; [done|done|]. eapply (holds_preserved root); [exact P6|].
  eapply (holds_preserved root); [apply (close_preserved root)|]. by apply H4.
Qed.

Lemma checkSha256_wp v (Q : str → W → Prop) (X : BlobThrown → W → Prop) w :
  (isSha256 v = true → Q v w) → (∀ e, e ≠ Unending → X e w) → wp (checkSha256 v) Q X w.
Proof. intros Hq Hx. unfold checkSha256. destruct (isSha256 v); [apply wp_ret; auto|apply wp_throw; by apply Hx]. Qed.

Lemma checkIncomingSize_wp n h (Q : Z → W → Prop) (X : BlobThrown → W → Prop) w :
  (∀ size, as_safe_integer n = Some size → 0 <= size <= maxBlobBytes → Q size w) → (∀ e, e ≠ Unending → X e w) →
  wp (checkIncomingSize maxBlobBytes n h) Q X w.
Proof.
  intros Hq Hx. unfold checkIncomingSize, checkSize. apply wp_bind. destruct (as_safe_integer n) as [size|] eqn:E.
  - destruct (Z.leb_spec 0 size); [|apply wp_throw; by apply Hx]. apply wp_ret.
    destruct (Z.ltb_spec maxBlobBytes size); [apply wp_throw; by apply Hx|apply wp_ret; auto].
  - apply wp_throw. by apply Hx.
Qed.

Lemma put_wp source w :
  wp (put sha256 root maxBlobBytes source)
    (λ r w', since w [] w' ∧ ∃ size, as_safe_integer (bs_sizeBytes source) = Some size ∧ 0 <= size <= maxBlobBytes ∧
       pr_blob r = blob (bs_sha256 source) size ∧ holds w' (bs_sha256 source) size) (failed w []) w.
Proof.
  assert (since w [] w) as S0 by by apply (calm_since root).
  assert (∀ e, e ≠ Unending → failed w [] e w) as Hx by by split.
  unfold put. apply wp_bind, checkSha256_wp; [|done]. intros Hh.
  apply wp_bind, checkIncomingSize_wp; [|done]. intros size Es Hs.
  apply wp_bind. eapply wp_mono; [eapply calm_since_wp; [exact S0|apply existing_ends|by apply (existing_wp root)]| |done].
  intros [d|] w1 (S1 & _ & Hd).
  - destruct (Hd d) as [-> Hold]; [done|]. apply wp_ret. split; [done|]. by exists size.
  - eapply wp_mono; [apply store_new_wp; [done|lia|done]| |done]. intros r w2 (S2 & Hr & Hold). split; [done|]. by exists size.
Qed.

(** ** Reading and removing *)

Lemma check_expected_wp n h (Q : option Z → W → Prop) (X : BlobThrown → W → Prop) w :
  (∀ size, (n = None ∧ size = None ∨ ∃ v k, n = Some v ∧ as_safe_integer v = Some k ∧ size = Some k) → Q size w) →
  (∀ e, e ≠ Unending → X e w) → wp (check_expected n h) Q X w.
Proof.
  intros Hq Hx. unfold check_expected, checkSize. destruct n as [v|]; [|apply wp_ret; auto]. apply wp_bind.
  destruct (as_safe_integer v) as [k|] eqn:E; [|apply wp_throw; by apply Hx].
  destruct (0 <=? k); [|apply wp_throw; by apply Hx]. apply wp_ret, wp_ret. apply Hq. right. eauto.
Qed.

(** Of the objects only the one under [h] may be gone. *)
Definition spared w (h : str) w' : Prop :=
  ∀ h' ino, h' ≠ h → object w h' ino → object w' h' ino ∧ bytes_of w' ino = bytes_of w ino ∧ kind_of w' ino = kind_of w ino.

Lemma unlink_spares h w w' : isSha256 h = true → bd_unlink (objectPath root h) w = (Ok tt, w') →
  spared w h w' ∧ same_fds w w' ∧ entry w' (objectPath root h) = None.
Proof.
  intros Hh E. destruct (bl_unlink_ok (root := root) _ _ _ E) as (F & w1 & [[[P1 B1] _] _] & Hn & He & Hb).
  split_and!; [|done|done]. intros h' ino Hne Ho. pose proof (P1 _ _ Ho) as [Hh' Ho1]. destruct (Hb ino) as [-> ->].
  split; [|by apply B1; exists h']. split; [done|]. rewrite He; [done|]. intros E'. by apply (objectPath_inj root) in E'.
Qed.

Lemma spared_calm w h w1 w2 w' : calm w w1 → spared w1 h w2 → calm w2 w' → spared w h w'.
Proof.
  intros [[[P1 B1] _] _] Hs [[[P2 B2] _] _] h' ino Hne Ho. destruct (B1 ino) as [<- <-]; [by exists h'|].
  destruct (Hs h' ino Hne (P1 _ _ Ho)) as (Ho2 & <- & <-). destruct (B2 ino) as [<- <-]; [by exists h'|]. auto.
Qed.

(** What was read: the whole object, hashing to its name, of the size that was asked for. *)
Lemma read_object_wp h size w :
  isSha256 h = true →
  wp (read_object sha256 root h size)
    (λ st w', calm w w' ∧ holds w' h (st_size st) ∧ ∀ n, size = Some n → st_size st = n) (λ _ w', calm w w') w.
Proof.
  intros Hh. unfold read_object. apply wp_bind. eapply wp_mono; [by apply (openObject_wp root)| |done].
  intros [fd n] w1 (ino & (Ho & Hk & _) & Hobj). cbn [fst snd] in *.
  apply wp_bind, wp_catch. unfold wp at 1. pose proof (bl_fstat (root := root) fd w1) as C1.
  destruct (sys_fstat fd w1) as [[st|e] w2] eqn:E; simpl in C1.
  2:{ apply wp_bind. eapply (close_wp root); [by eapply (opened_calm root)|]. intros C2. by apply wp_throw. }
  pose proof Ho as (_ & _ & _ & Hf & _). destruct (bl_fstat_ok (root := root) _ _ _ _ _ _ E Hf) as (-> & Hk2 & Hl).
  assert (opened root w fd (st_dev st, st_ino st) AtStart w2) as Ho2 by by eapply (opened_calm root).
  assert (published w1 (st_dev st, st_ino st)) as Hp by by exists h.
  assert (object w2 h (st_dev st, st_ino st)) as Hobj2 by by eapply (calm_object root).
  destruct (pv_bytes _ _ _ (calm_preserved root _ _ C1) _ Hp) as [_ Hkk].
  destruct (match size with Some size => _ | None => _ end) eqn:Es.
  { apply wp_bind. eapply (close_wp root); [exact Ho2|]. intros C2. by apply wp_throw. }
  apply wp_bind. eapply wp_mono; [by eapply (sha256Fd_wp root)| |done]. intros a w3 (C3 & P3 & Ha).
  destruct (str_eqb a h) eqn:Eh; [|by apply wp_throw]. apply str_eqb_eq in Eh. apply wp_ret. split_and!; [done| |].
  - eapply (holds_preserved root); [exact P3|]. eexists. split_and!; [exact Hobj2|by rewrite Hkk| |].
    + rewrite Hl; [done|]. rewrite <-Hk2, Hkk. done.
    + rewrite <-Ha; [done|]. by exists h.
  - intros k ->. by apply negb_false_iff, Z.eqb_eq in Es.
Qed.
End put.

(** ** A page of the listing (blob-fs/src/file-blob-store.ts, [listObjects])

    Whatever else happens to the store meanwhile, a page names objects in strictly
    ascending order, all after the cursor, at most as many as were asked for; and
    its [next] is the last of them, given exactly when the page is full. *)

(** The order of strings. *)
Definition slt (a b : str) : Prop := str_ltb a b = true.

Lemma slt_app p q s t : length p = length q → slt p q → slt (p ++ s) (q ++ t).
Proof.
  unfold slt. revert q. induction p as [|x p IH]; intros [|y q] Hl Hlt; simpl in *; try done.
  destruct (x =? y)%N; [apply IH; [lia|done]|done].
Qed.
Lemma slt_same p s t : slt s t → slt (p ++ s) (p ++ t).
Proof. unfold slt. intros Hs. induction p; simpl; [done|]. by rewrite N.eqb_refl. Qed.
Lemma slt_trans a b c : slt a b → slt b c → slt a c.
Proof. apply str_ltb_trans. Qed.

(** Hashes compare as their shards do, first by the first. *)
Definition shards_before (n : str) (first second : str) : Prop :=
  slt (shard1 n) first ∨ (shard1 n = first ∧ slt (shard2 n) second).

Lemma shards_split (n : str) : n = shard1 n ++ shard2 n ++ drop 4 n.
Proof. unfold shard1, shard2. destruct n as [|a [|b [|c [|d n]]]]; simpl; rewrite ?take_0; done. Qed.

Lemma sha_length n : isSha256 n = true → length n = 64%nat.
Proof. unfold isSha256. intros [Hl%Z.eqb_eq _]%andb_true_iff. lia. Qed.
Lemma shard_lengths n : isSha256 n = true → length (shard1 n) = 2%nat ∧ length (shard2 n) = 2%nat.
Proof. intros Hn%sha_length. unfold shard1, shard2. rewrite !length_take, length_drop. lia. Qed.

Lemma shards_order n m : isSha256 n = true → isSha256 m = true → shards_before n (shard1 m) (shard2 m) → slt n m.
Proof.
  intros Hn Hm Hb. destruct (shard_lengths n Hn) as [L1 L2], (shard_lengths m Hm) as [M1 M2].
  rewrite (shards_split n), (shards_split m). destruct Hb as [Hb|[E Hb]].
  - apply slt_app; [lia|done].
  - rewrite E. apply slt_same, slt_app; [lia|done].
Qed.

Lemma strictly_sorted (es : list Dirent) :
  StronglySorted (cmp_le by_name) es → NoDup es.*1 → StronglySorted slt es.*1.
Proof.
  induction 1 as [|e es Hs IH Hf]; simpl; [constructor|]. intros [Hni Hnd]%NoDup_cons. constructor; [auto|].
  apply Forall_fmap, Forall_forall. intros e' He'. rewrite Forall_forall in Hf. specialize (Hf e' He').
  unfold cmp_le, by_name in Hf. unfold slt. simpl.
  destruct (compare_cases e.1 e'.1) as [(_ & Hlt & _)|[(_ & E)|(E & _)]]; [done| |lia].
  destruct Hni. rewrite E. by apply list_elem_of_fmap_2.
Qed.

Section page.
Context {W : Type} `{BlobDisk W} (root : str) (limit : Z) (after : option str).
Context (names_once : ∀ p (w : W) es w', bd_readdir p w = (Ok es, w') → NoDup es.*1).
Abbreviation act := (io W BlobThrown).

Definition name_of_entry (e : ObjectEntry) : str := bl_sha256 (oe_blob e).
Definition names (l : Listing) : list str := name_of_entry <$> li_objects l.

(** A hash the page may name. *)
Definition listable (n : str) : Prop := isSha256 n = true ∧ ∀ a, after = Some a → slt a n.

Record page (l : Listing) : Prop := {
  pg_sorted : StronglySorted slt (names l);
  pg_listable : Forall listable (names l);
  pg_bound : Z.of_nat (length (li_objects l)) <= limit;
  pg_next : li_next l = if li_full l then last (names l) else None;
  pg_full : li_full l = true → Z.of_nat (length (li_objects l)) = limit;
  pg_problems : (length (li_problems l) <= S MAX_PROBLEMS)%nat;
}.

Lemma record_bound p ps : (length ps <= S MAX_PROBLEMS)%nat → (length (record_problem p ps) <= S MAX_PROBLEMS)%nat.
Proof.
  unfold record_problem. destruct (Nat.ltb_spec (length ps) MAX_PROBLEMS), (Nat.eqb_spec (length ps) MAX_PROBLEMS);
    rewrite ?length_app; cbn [length]; lia.
Qed.

Lemma page_problem l p : page l → page (l <| li_problems ::= record_problem p |>).
Proof. intros []. split; simpl; try done. by apply record_bound. Qed.
Lemma page_problems l ps : page l → (length ps <= S MAX_PROBLEMS)%nat → page (l <| li_problems := ps |>).
Proof. intros [] ?. by split. Qed.

Lemma anything {E A} (m : io W E A) w : wp m (λ _ _, True) (λ _ _, True) w.
Proof. unfold wp. by destruct (m w) as [[]]. Qed.

Lemma sorted_directory_wp dir w : wp (sorted_directory (W := W) dir) (λ es _, StronglySorted slt es.*1) (λ _ _, True) w.
Proof.
  unfold sorted_directory, entriesOf. apply wp_bind, wp_catch. unfold wp at 1.
  destruct (bd_readdir dir w) as [[es|e] w'] eqn:E.
  - apply wp_ret, strictly_sorted; [apply (sort_sorted by_name)|]. apply names_once in E.
    by rewrite (sort_Permutation by_name es).
  - destruct e; try (by apply wp_throw); apply wp_ret, wp_ret; constructor.
Qed.

Lemma names_app l e : names (l <| li_objects ::= λ o, o ++ [e] |>) = names l ++ [name_of_entry e].
Proof. unfold names. simpl. by rewrite fmap_app. Qed.

Lemma sorted_snoc (ns : list str) n : StronglySorted slt ns → Forall (λ m, slt m n) ns → StronglySorted slt (ns ++ [n]).
Proof.
  induction 1 as [|m ns Hs IH Hf]; intros Hn; simpl; [by repeat constructor|]. apply Forall_cons in Hn as [Hm Hn].
  constructor; [by apply IH|]. apply Forall_app. split; [done|by repeat constructor].
Qed.

Lemma page_add l e :
  page l → li_full l = false → Z.of_nat (length (li_objects l)) ≠ limit → listable (name_of_entry e) →
  Forall (λ m, slt m (name_of_entry e)) (names l) → page (l <| li_objects ::= λ o, o ++ [e] |>).
Proof.
  intros [Ps Pl Pb Pn Pf Pp] Hfull Hne Hl Hlt. split.
  - rewrite names_app. by apply sorted_snoc.
  - rewrite names_app. apply Forall_app. split; [done|by apply Forall_singleton].
  - simpl. rewrite length_app. simpl. lia.
  - simpl. by rewrite Pn, Hfull.
  - simpl. congruence.
  - done.
Qed.

(** Only names of this shard have been added. *)
Definition grown (first second : str) (ns ns' : list str) : Prop :=
  ∀ n, n ∈ ns' → n ∈ ns ∨ (isSha256 n = true ∧ shard1 n = first ∧ shard2 n = second).

(** The innermost loop. *)
Lemma list_leaf_wp first second leaf es l w :
  page l → li_full l = false → StronglySorted slt es.*1 →
  (∀ n e, n ∈ names l → e ∈ es.*1 → isSha256 e = true → shard1 e = first → shard2 e = second → slt n e) →
  wp (list_leaf (W := W) root limit after first second leaf es l)
    (λ l' _, page l' ∧ grown first second (names l) (names l'))
    (λ _ _, True) w.
Proof.
  revert l w. induction es as [|[name kind] es IH]; intros l w Hp Hfull Hs Hlt; cbn [list_leaf]; [apply wp_ret; split; [done|by left]|].
  simpl in Hs. apply StronglySorted_inv in Hs as [Hs Hname].
  assert (∀ w, wp (list_leaf (W := W) root limit after first second leaf es l)
    (λ l' _, page l' ∧ grown first second (names l) (names l'))
    (λ _ _, True) w) as Hskip.
  { intros w'. apply IH; [done|done|done|]. intros n e Hn He. apply Hlt; [done|by apply elem_of_cons; right]. }
  assert (∀ p w, wp (list_leaf (W := W) root limit after first second leaf es (l <| li_problems ::= record_problem p |>))
    (λ l' _, page l' ∧ grown first second (names l) (names l'))
    (λ _ _, True) w) as Hprob.
  { intros p w'. change (names l) with (names (l <| li_problems ::= record_problem p |>)).
    apply (IH (l <| li_problems ::= record_problem p |>)); [by apply page_problem|done|done|].
    intros n e Hn He. apply Hlt; [done|by apply elem_of_cons; right]. }
  destruct (match after with Some a => _ | None => _ end) eqn:Ea; [done|].
  destruct (isSha256 name) eqn:Eh; [|apply Hprob]. cbn [negb].
  destruct (bool_decide _); [|apply Hprob]. cbn [negb].
  destruct (str_eqb (shard1 name) first) eqn:E1; [|apply Hprob]. apply str_eqb_eq in E1.
  destruct (str_eqb (shard2 name) second) eqn:E2; [|apply Hprob]. apply str_eqb_eq in E2. cbn [negb orb].
  assert (∀ n, n ∈ names l → slt n name) as Hbefore.
  { intros n Hn. apply Hlt; try done. by apply elem_of_cons; left. }
  assert (listable name) as Hlist.
  { split; [done|]. intros a ->. unfold at_most in Ea. simpl in Ea. by apply negb_false_iff in Ea. }
  destruct (Z.eqb_spec (Z.of_nat (length (li_objects l))) limit) as [El|Hnl].
  { apply wp_ret. split; [|by left]. destruct Hp. split; try done. simpl. unfold names. by rewrite fmap_last. }
  apply wp_bind. eapply wp_mono; [apply anything| |done]. intros st w' _.
  destruct st as [[[] size mtime dev ino]|]; try done.
  eapply wp_mono; [apply IH; [apply page_add; try done; by apply Forall_forall|done|done|]| |done].
  - rewrite names_app. intros n e [Hn|Hn]%elem_of_app He _ _ _.
    + eapply slt_trans; [by apply Hbefore|]. rewrite Forall_forall in Hname. by apply Hname.
    + apply list_elem_of_singleton in Hn as ->. rewrite Forall_forall in Hname. by apply Hname.
  - intros l' w'' [Hp' Hin]. split; [done|]. intros m Hn. destruct (Hin m Hn) as [Hn'|]; [|by right].
    rewrite names_app in Hn'. apply elem_of_app in Hn' as [|Hn']; [by left|]. apply list_elem_of_singleton in Hn' as ->. by right.
Qed.

(** The loops over the shards. *)
Lemma list_second_wp first ss l w :
  page l → StronglySorted slt ss → (∀ n s, n ∈ names l → s ∈ ss → shards_before n first s) →
  Forall (λ n, isSha256 n = true) (names l) →
  wp (list_second (W := W) root limit after first ss l)
    (λ l' _, page l' ∧ ∀ n, n ∈ names l' → n ∈ names l ∨ shard1 n = first) (λ _ _, True) w.
Proof.
  revert l w. induction ss as [|s ss IH]; intros l w Hp Hs Hb Hsha; cbn [list_second]; [apply wp_ret; split; [done|by left]|].
  apply StronglySorted_inv in Hs as [Hs Hfs]. destruct (li_full l) eqn:Ef; [apply wp_ret; split; [done|by left]|].
  assert (∀ n s', n ∈ names l → s' ∈ ss → shards_before n first s') as Hb'.
  { intros n s' Hn Hs'. apply Hb; [done|by apply elem_of_cons; right]. }
  destruct (match after with Some a => _ | None => _ end); [by apply IH|].
  apply wp_bind. eapply wp_mono; [apply sorted_directory_wp| |done]. intros es w1 Hes. cbv beta in Hes.
  apply wp_bind. eapply wp_mono; [apply list_leaf_wp; [done|done|done|]| |done].
  { intros n e Hn He Hsh E1 E2. rewrite Forall_forall in Hsha. apply shards_order; [by apply Hsha|done|].
    rewrite E1, E2. apply Hb; [done|by apply elem_of_cons; left]. }
  intros l' w2 [Hp' Hg]. eapply wp_mono; [apply IH; [done|done| |]| |done].
  - intros n s' Hn Hs'. destruct (Hg n Hn) as [Hn'|(_ & E1 & E2)]; [by apply Hb'|]. right. split; [done|].
    rewrite E2. rewrite Forall_forall in Hfs. by apply Hfs.
  - destruct Hp' as [_ Hl _ _ _ _]. eapply Forall_impl; [exact Hl|]. by intros n [? _].
  - intros l'' w3 [Hp'' Hin]. split; [done|]. intros n Hn. destruct (Hin n Hn) as [Hn'|]; [|by right].
    destruct (Hg n Hn') as [|(_ & ? & _)]; [by left|by right].
Qed.

Lemma shard_names_bound dir es ps :
  let r := shard_names (W := W) root dir es ps in
  (length ps <= S MAX_PROBLEMS)%nat → (length r.2 <= S MAX_PROBLEMS)%nat.
Proof.
  cbv zeta. revert ps. induction es as [|[name kind] es IH]; intros ps Hp; cbn [shard_names]; [done|].
  destruct (negb (SHARD name)); [by apply IH, record_bound|].
  destruct kind; try by apply IH, record_bound. specialize (IH ps Hp). by destruct (shard_names _ _ es ps).
Qed.

Lemma shard_names_sorted dir es ps :
  StronglySorted slt es.*1 →
  StronglySorted slt (shard_names (W := W) root dir es ps).1 ∧ ∀ n, n ∈ (shard_names (W := W) root dir es ps).1 → n ∈ es.*1.
Proof.
  revert ps. induction es as [|[name kind] es IH]; intros ps Hs; cbn [shard_names]; [split; [constructor|done]|].
  apply StronglySorted_inv in Hs as [Hs Hf].
  assert (∀ ps, StronglySorted slt (shard_names (W := W) root dir es ps).1 ∧
    ∀ n, n ∈ (shard_names (W := W) root dir es ps).1 → n ∈ ((name, kind) :: es).*1) as Hskip.
  { intros ps'. destruct (IH ps' Hs) as [H1' H2']. split; [done|]. intros n Hn. apply elem_of_cons. right. by apply H2'. }
  destruct (negb (SHARD name)); [apply Hskip|]. destruct kind; try apply Hskip.
  destruct (IH ps Hs) as [H1' H2']. destruct (shard_names _ _ es ps) as [found ps']. simpl in *. split.
  - constructor; [done|]. apply Forall_forall. intros n Hn. rewrite Forall_forall in Hf. by apply Hf, H2'.
  - intros n [->|Hn]%elem_of_cons; [by left|]. right. by apply H2'.
Qed.

Lemma shards_wp dir ps w :
  (length ps <= S MAX_PROBLEMS)%nat →
  wp (shards (W := W) root dir ps) (λ r _, StronglySorted slt r.1 ∧ (length r.2 <= S MAX_PROBLEMS)%nat) (λ _ _, True) w.
Proof.
  intros Hp. unfold shards. apply wp_bind. eapply wp_mono; [apply sorted_directory_wp| |done]. intros es w1 Hes.
  apply wp_ret. split; [by apply shard_names_sorted|by apply shard_names_bound].
Qed.

Lemma list_first_wp fs l w :
  page l → StronglySorted slt fs → (∀ n f, n ∈ names l → f ∈ fs → slt (shard1 n) f) →
  wp (list_first (W := W) root limit after fs l) (λ l' _, page l') (λ _ _, True) w.
Proof.
  revert l w. induction fs as [|f fs IH]; intros l w Hp Hs Hb; cbn [list_first]; [by apply wp_ret|].
  apply StronglySorted_inv in Hs as [Hs Hf]. destruct (li_full l) eqn:Ef; [by apply wp_ret|].
  assert (∀ n f', n ∈ names l → f' ∈ fs → slt (shard1 n) f') as Hb'.
  { intros n f' Hn Hf'. apply Hb; [done|by apply elem_of_cons; right]. }
  destruct (match after with Some a => _ | None => _ end); [by apply IH|].
  apply wp_bind. eapply wp_mono; [apply shards_wp, Hp| |done]. intros [ss ps] w1 [Hss Hps]. simpl in Hss, Hps.
  apply wp_bind. eapply wp_mono; [apply list_second_wp; [by apply page_problems|done| |]| |done].
  - intros n s Hn _. left. apply Hb; [exact Hn|by apply elem_of_cons; left].
  - destruct Hp as [_ Hl _ _ _ _]. eapply Forall_impl; [exact Hl|]. by intros n [? _].
  - intros l' w2 [Hp' Hin]. apply IH; [done|done|]. intros n f' Hn Hf'. destruct (Hin n Hn) as [Hn'|E]; [by apply Hb'|].
    rewrite E. rewrite Forall_forall in Hf. by apply Hf.
Qed.
End page.
