(* ===== verification/BlobStoreProps.v ===== *)
(** * What the blob store promises

    [put] returns the blob it was given, verified and published, and never
    replaces one; an object is removed only after it was read whole, hashed to its
    name, and was still the file found there; a listing is in hash order, bounded,
    and resumes where it ended. What a removal asks of the file system is recorded
    call by call ([Watched]), so that nothing need be assumed of what it answers. *)

From Stdlib Require Import Strings.Byte.
From stdpp Require Import sorting.
From S2P Require Import Prelude JsString JsBytes JsMap JsSort JsNumber ValidatorRun Io FileSink PwText BlobStore BlobStoreSpec DemoBlob BlobStorePut.

Local Open Scope Z_scope.

(** ** The calls made, recorded

    A file system with a record of what was asked of it and what it answered. It
    says nothing of the answers: whatever other processes do between two calls,
    the record is what this process did and was told. *)

Inductive DiskCall :=
| DLstat (p : str) (r : res Errno Stats)
| DOpen (p : str) (r : res Errno Fd)
| DFstat (fd : Fd) (r : res Errno Stats)
| DReadAll (fd : Fd) (r : res Errno (list bytes))
| DClose (fd : Fd)
| DOpenDir (p : str) (r : res Errno Fd)
| DFsync (fd : Fd) (r : res Errno unit)
| DUnlink (p : str) (r : res Errno unit)
| DOther.

Record Watched (W : Type) := { lg_world : W; lg_calls : list DiskCall }.
Arguments lg_world {W} _.
Arguments lg_calls {W} _.

Section watcher.
Context {W : Type}.
Abbreviation L := (Watched W).

Definition watched {A} (m : io W Errno A) (c : res Errno A → DiskCall) : io L Errno A := λ l,
  let '(r, w) := m (lg_world l) in (r, {| lg_world := w; lg_calls := lg_calls l ++ [c r] |}).

#[export] Instance watched_fs `{NodeFs W} : NodeFs L := {
  path_join := path_join (W := W);
  sys_realpath p := watched (sys_realpath p) (λ _, DOther);
  sys_lstat p := watched (sys_lstat p) (DLstat p);
  sys_readdir p := watched (sys_readdir p) (λ _, DOther);
  sys_open p := watched (sys_open p) (DOpen p);
  sys_fstat fd := watched (sys_fstat fd) (DFstat fd);
  sys_read fd := watched (sys_read fd) (λ _, DOther);
  sys_read_all fd := watched (sys_read_all fd) (DReadAll fd);
  sys_close fd l := {| lg_world := sys_close fd (lg_world l); lg_calls := lg_calls l ++ [DClose fd] |};
}.

#[export] Instance watched_disk `{BlobDisk W} : BlobDisk L := {
  bd_open_new p := watched (bd_open_new p) (λ _, DOther);
  bd_write fd b := watched (bd_write fd b) (λ _, DOther);
  bd_fsync fd := watched (bd_fsync fd) (DFsync fd);
  bd_fchmod fd := watched (bd_fchmod fd) (λ _, DOther);
  bd_link a b := watched (bd_link a b) (λ _, DOther);
  bd_unlink p := watched (bd_unlink p) (DUnlink p);
  bd_mkdir p := watched (bd_mkdir p) (λ _, DOther);
  bd_readdir p := watched (bd_readdir p) (λ _, DOther);
  bd_open_dir p := watched (bd_open_dir p) (DOpenDir p);
  bd_random l := let '(name, w) := bd_random (lg_world l) in (name, {| lg_world := w; lg_calls := lg_calls l ++ [DOther] |});
  bd_relative := bd_relative (W := W);
  bd_sep := bd_sep (W := W);
  bd_posix := bd_posix (W := W);
}.

(** A call that changes nothing in any directory and no file. *)
Definition only_reads (c : DiskCall) : Prop := match c with DUnlink _ _ | DOther => False | _ => True end.

(** ** What is recorded of a computation *)

Definition trace {E A} (m : io L E A) (Q : A → list DiskCall → Prop) (X : E → list DiskCall → Prop) : Prop :=
  ∀ l, let '(r, l') := m l in ∃ t, lg_calls l' = lg_calls l ++ t ∧ match r with Ok a => Q a t | Throw e => X e t end.

Lemma trace_mono {E A} (m : io L E A) (Q Q' : A → list DiskCall → Prop) (X X' : E → list DiskCall → Prop) :
  trace m Q X → (∀ a t, Q a t → Q' a t) → (∀ e t, X e t → X' e t) → trace m Q' X'.
Proof.
  intros Hm Hq Hx l. specialize (Hm l). destruct (m l) as [[a|e] l']; destruct Hm as (t & Ht & H); exists t; auto.
Qed.
Lemma trace_ret {E A} (a : A) (Q : A → list DiskCall → Prop) (X : E → list DiskCall → Prop) : Q a [] → trace (mret a) Q X.
Proof. intros Hq l. exists []. by rewrite app_nil_r. Qed.
Lemma trace_throw {E A} (e : E) (Q : A → list DiskCall → Prop) (X : E → list DiskCall → Prop) : X e [] → trace (throw e) Q X.
Proof. intros Hx l. exists []. by rewrite app_nil_r. Qed.
Lemma trace_bind {E A B} (m : io L E A) (f : A → io L E B) Q1 (Q : B → list DiskCall → Prop) (X : E → list DiskCall → Prop) :
  trace m Q1 X → (∀ a t1, Q1 a t1 → trace (f a) (λ b t, Q b (t1 ++ t)) (λ e t, X e (t1 ++ t))) → trace (m ≫= f) Q X.
Proof.
  intros Hm Hf l. specialize (Hm l). unfold mbind, io_mbind. destruct (m l) as [[a|e] l1]; [|done].
  destruct Hm as (t1 & E1 & H1). specialize (Hf a t1 H1 l1). destruct (f a l1) as [r l2].
  destruct Hf as (t & E2 & H2). exists (t1 ++ t). by rewrite E2, E1, app_assoc.
Qed.
Lemma trace_catch {E E' A} (m : io L E A) (h : E → io L E' A) (Q : A → list DiskCall → Prop) X1 (X : E' → list DiskCall → Prop) :
  trace m Q X1 → (∀ e t1, X1 e t1 → trace (h e) (λ b t, Q b (t1 ++ t)) (λ e t, X e (t1 ++ t))) → trace (try_catch m h) Q X.
Proof.
  intros Hm Hf l. specialize (Hm l). unfold try_catch. destruct (m l) as [[a|e] l1]; [done|].
  destruct Hm as (t1 & E1 & H1). specialize (Hf e t1 H1 l1). destruct (h e l1) as [r l2].
  destruct Hf as (t & E2 & H2). exists (t1 ++ t). by rewrite E2, E1, app_assoc.
Qed.
(** One call. *)
Lemma trace_call {A} (m : io W Errno A) c : trace (watched m c) (λ a t, t = [c (Ok a)]) (λ e t, t = [c (Throw e)]).
Proof. intros l. unfold watched. destruct (m _) as [[a|e] w]; eexists; by split. Qed.
Lemma trace_sys {A} (m : io W Errno A) c :
  trace (sys (watched m c)) (λ a t, t = [c (Ok a)]) (λ e t, ∃ e', e = SystemError e' ∧ t = [c (Throw e')]).
Proof. intros l. unfold sys, io_map_err, watched. destruct (m _) as [[a|e] w]; eexists; by eauto. Qed.
End watcher.

Section removal_record.
Context {W : Type} `{BlobDisk W} (sha256 : bytes → str) (root : str).
Abbreviation L := (Watched W).
Abbreviation path h := (objectPath (W := W) root h).

Lemma trace_close (fd : Fd) (Q : unit → list DiskCall → Prop) (X : BlobThrown → list DiskCall → Prop) :
  Q tt [DClose fd] → trace (close_fd (W := L) fd) Q X.
Proof. intros Hq l. eexists. by split. Qed.

(** What [lstat] answered for each directory on the way: a directory, up to the first that is missing. *)
Inductive directories : list str → list DiskCall → Prop :=
| directories_end : directories [] []
| directories_next p ps st t : st_kind st = KDirectory → directories ps t → directories (p :: ps) (DLstat p (Ok st) :: t)
| directories_missing p ps e : e = ENOENT ∨ e = ENOTDIR → directories (p :: ps) [DLstat p (Throw e)].

Lemma directories_read ps t : directories ps t → Forall only_reads t.
Proof. induction 1; repeat constructor; done. Qed.

Lemma kind_at_trace p :
  trace (kind_at (W := L) p)
    (λ k t, ∃ r, t = [DLstat p r] ∧
       match r with Ok st => k = EKind (st_kind st) | Throw e => k = EMissing ∧ (e = ENOENT ∨ e = ENOTDIR) end)
    (λ _ t, Forall only_reads t).
Proof.
  unfold kind_at. eapply (trace_catch _ _ _ (λ e t, t = [DLstat p (Throw e)])).
  - eapply trace_bind; [eapply trace_mono; [apply trace_call|done|done]|].
    intros st t1 ->. apply trace_ret. eexists. by split.
  - intros e t1 ->. destruct e; (apply trace_ret; eexists; split; [reflexivity|simpl; by eauto]) || (apply trace_throw; by repeat constructor).
Qed.

Lemma check_directories_trace ps :
  trace (check_directories (W := L) root ps) (λ _ t, directories ps t) (λ _ t, Forall only_reads t).
Proof.
  induction ps as [|p ps IH]; simpl; [apply trace_ret; constructor|].
  eapply trace_bind; [apply kind_at_trace|]. intros k t1 (r & -> & Hk). destruct r as [st|e].
  - subst k. destruct (st_kind st) eqn:E; try (apply trace_throw; by repeat constructor).
    eapply trace_mono; [apply IH| |]; simpl; [by constructor|]. intros _ t Ht. by constructor.
  - destruct Hk as [-> He]. apply trace_ret. by constructor.
Qed.

Lemma open_regular_trace p :
  trace (open_regular (W := L) p)
    (λ r t, match r with
       | inl (fd, n) => ∃ st, t = [DOpen p (Ok fd); DFstat fd (Ok st)] ∧ st_kind st = KFile ∧ n = st_size st
       | inr _ => Forall only_reads t end)
    (λ _ t, Forall only_reads t).
Proof.
  unfold open_regular.
  eapply (trace_bind _ _ (λ r t, match r with inl fd => t = [DOpen p (Ok fd)] | inr _ => Forall only_reads t end)).
  { eapply (trace_catch _ _ _ (λ e t, t = [DOpen p (Throw e)])).
    - eapply trace_bind; [eapply trace_mono; [apply trace_call|done|done]|]. intros fd t1 ->. by apply trace_ret.
    - intros e t1 ->. destruct e; (apply trace_ret; by repeat constructor) || (apply trace_throw; by repeat constructor). }
  intros [fd|k] t1 H1; [subst t1|apply trace_ret; by rewrite app_nil_r].
  eapply (trace_bind _ _ (λ st t, t = [DFstat fd (Ok st)])).
  { eapply (trace_catch _ _ _ (λ e t, t = [DFstat fd (Throw e)])); [apply trace_call|]. intros e t1 ->.
    eapply trace_bind; [by apply (trace_close fd (λ _ t, t = [DClose fd]))|]. intros _ t2 ->. apply trace_throw. by repeat constructor. }
  intros st t1 ->. destruct (st_kind st) eqn:E;
    try (eapply trace_bind; [by apply (trace_close fd (λ _ t, t = [DClose fd]))|]; intros _ t2 ->; apply trace_ret; by repeat constructor).
  apply trace_ret. eauto.
Qed.

(** The object opened, without following a link, and found a regular file. *)
Lemma openObject_trace h :
  trace (openObject (W := L) root h)
    (λ r t, ∃ pre st, t = pre ++ [DOpen (path h) (Ok r.1); DFstat r.1 (Ok st)] ∧ Forall only_reads pre ∧ st_kind st = KFile)
    (λ _ t, Forall only_reads t).
Proof.
  unfold openObject. eapply trace_bind; [apply check_directories_trace|]. intros _ t1 H1%directories_read. cbv zeta.
  eapply trace_bind.
  { eapply trace_mono; [apply kind_at_trace|done|]. intros e t Ht. by apply Forall_app. }
  intros k t2 (r & -> & _). assert (Forall only_reads (t1 ++ [DLstat (path h) r])) as H2 by (apply Forall_app; by repeat constructor).
  destruct k as [|k]; [apply trace_throw; by rewrite app_nil_r|].
  destruct k; try (apply trace_throw; by rewrite app_nil_r).
  eapply trace_bind.
  { eapply trace_mono; [apply open_regular_trace|done|]. intros e t Ht. rewrite app_assoc. by apply Forall_app. }
  intros [[fd n]|[|k]] t3 H3.
  - destruct H3 as (st & -> & Hk & _). apply trace_ret. exists (t1 ++ [DLstat (path h) r]), st.
    split_and!; [by rewrite app_nil_r, app_assoc|done|done].
  - apply trace_throw. rewrite app_nil_r, app_assoc. by apply Forall_app.
  - apply trace_throw. rewrite app_nil_r, app_assoc. by apply Forall_app.
Qed.

Lemma sha256Fd_trace fd :
  trace (sha256Fd (W := L) sha256 fd)
    (λ a t, ∃ chunks, t = [DReadAll fd (Ok chunks); DClose fd] ∧ a = sha256 (mjoin chunks)) (λ _ t, Forall only_reads t).
Proof.
  unfold sha256Fd. eapply (trace_bind _ _ (λ chunks t, t = [DReadAll fd (Ok chunks); DClose fd])).
  - intros l. unfold try_finally, sys, io_map_err. simpl. unfold watched. destruct (sys_read_all fd _) as [[chunks|e] w]; simpl;
      eexists; (split; [symmetry; apply app_assoc|]); by repeat constructor.
  - intros chunks t1 ->. apply trace_ret. eexists. by split.
Qed.

(** The file opened under the object's name, as [fstat] described it, hashed to that name when read whole. *)
Definition hashed_whole (h : str) (st : Stats) (t : list DiskCall) : Prop :=
  ∃ pre fd st0 chunks, st_kind st0 = KFile ∧ sha256 (mjoin chunks) = h ∧ Forall only_reads pre ∧
    t = pre ++ [DOpen (path h) (Ok fd); DFstat fd (Ok st0); DFstat fd (Ok st); DReadAll fd (Ok chunks); DClose fd].

Lemma hashed_whole_reads h st t : hashed_whole h st t → Forall only_reads t.
Proof. intros (pre & fd & st0 & chunks & _ & _ & Hp & ->). apply Forall_app. by repeat constructor. Qed.

Lemma read_object_trace h size :
  trace (read_object (W := L) sha256 root h size)
    (λ st t, hashed_whole h st t ∧ ∀ n, size = Some n → st_size st = n) (λ _ t, Forall only_reads t).
Proof.
  unfold read_object. eapply trace_bind; [apply openObject_trace|]. intros [fd n] t1 (pre & st0 & -> & Hp & Hk). cbn [fst snd].
  assert (∀ t, Forall only_reads t → Forall only_reads ((pre ++ [DOpen (path h) (Ok fd); DFstat fd (Ok st0)]) ++ t)) as Hl.
  { intros t Ht. rewrite !Forall_app. by repeat constructor. }
  eapply (trace_bind _ _ (λ st t, t = [DFstat fd (Ok st)])).
  { eapply (trace_catch _ _ _ (λ e t, t = [DFstat fd (Throw e)])); [apply trace_call|]. intros e t1 ->.
    eapply trace_bind; [by apply (trace_close fd (λ _ t, t = [DClose fd]))|]. intros _ t2 ->. apply trace_throw, Hl. by repeat constructor. }
  intros st t2 ->. destruct (match size with Some size => _ | None => false end) eqn:Es.
  { eapply trace_bind; [by apply (trace_close fd (λ _ t, t = [DClose fd]))|]. intros _ t3 ->. apply trace_throw, Hl. by repeat constructor. }
  eapply trace_bind.
  { eapply trace_mono; [apply sha256Fd_trace|done|]. intros e t Ht. apply Hl. by constructor. }
  intros a t3 (chunks & -> & ->). destruct (str_eqb _ h) eqn:E; [|apply trace_throw, Hl; by repeat constructor].
  apply trace_ret. split.
  - exists pre, fd, st0, chunks. apply str_eqb_eq in E. split_and!; [done|done|done|]. rewrite <-!app_assoc. done.
  - intros m ->. apply negb_false_iff, Z.eqb_eq in Es. done.
Qed.

Lemma check_expected_trace (v : option number) h (Q : option Z → list DiskCall → Prop) (X : BlobThrown → list DiskCall → Prop) :
  (∀ size, (∀ x, v = Some x → ∃ n, as_safe_integer x = Some n ∧ size = Some n) → Q size []) →
  (∀ e, X e []) → trace (check_expected (W := L) v h) Q X.
Proof.
  intros Hq Hx. unfold check_expected, checkSize. destruct v as [x|]; [|by apply trace_ret, Hq].
  destruct (as_safe_integer x) as [n|] eqn:E; [|by apply trace_throw].
  destruct (0 <=? n); [|by apply trace_throw]. apply trace_ret, Hq. intros y [= <-]. eauto.
Qed.

(** What fails in it is ignored. *)
Lemma syncDirectory_trace p : trace (syncDirectory (W := L) p) (λ _ t, Forall only_reads t) (λ _ _, False).
Proof.
  unfold syncDirectory. destruct bd_posix; [|by apply trace_ret].
  eapply (trace_bind _ _ (λ o t, Forall only_reads t)).
  { eapply (trace_catch _ _ _ (λ e t, t = [DOpenDir p (Throw e)])).
    - eapply trace_bind; [eapply trace_mono; [apply trace_call|done|done]|]. intros fd t1 ->. apply trace_ret. by repeat constructor.
    - intros e t1 ->. apply trace_ret. by repeat constructor. }
  intros [fd|] t1 H1; [|apply trace_ret; by rewrite app_nil_r].
  eapply (trace_bind _ _ (λ _ t, Forall only_reads t)).
  { eapply (trace_catch _ _ _ (λ e t, t = [DFsync fd (Throw e)])).
    - eapply trace_mono; [apply trace_call| |done]. intros ? ? ->. by repeat constructor.
    - intros e t2 ->. apply trace_ret. by repeat constructor. }
  intros _ t2 H2. apply trace_close. rewrite !Forall_app. by repeat constructor.
Qed.

(** What had been seen when the object was unlinked: the file opened there read whole and hashing to the name, of
    the size expected; then the same file, by device and inode, still under that name; then the directories on
    the way to it once more. *)
Definition seen_whole (h : str) (expected : option number) (t : list DiskCall) : Prop :=
  ∃ reading st entry again, t = reading ++ DLstat (path h) (Ok entry) :: again ∧
    hashed_whole h st reading ∧ (∀ v, expected = Some v → as_safe_integer v = Some (st_size st)) ∧
    st_dev entry = st_dev st ∧ st_ino entry = st_ino st ∧
    directories [objects_dir (W := W) root; shard_dir (W := W) root h; objectDirectory (W := W) root h] again.

(** What a removal asked of the file system, by how it ended. *)
Definition removal (h : str) (expected : option number) (r : res BlobThrown Removal) (t : list DiskCall) : Prop :=
  match r with
  | Ok Removed => isSha256 h = true ∧
      ∃ before after, t = before ++ DUnlink (path h) (Ok tt) :: after ∧ seen_whole h expected before ∧ Forall only_reads after
  | Ok Missing => Forall only_reads t ∧ ∃ e, last t = Some (DLstat (path h) (Throw e)) ∧ (e = ENOENT ∨ e = ENOTDIR)
  | Throw e => Forall only_reads t ∨
      ∃ before e', t = before ++ [DUnlink (path h) (Throw e')] ∧ e = SystemError e' ∧ seen_whole h expected before
  end.

Lemma lstat_entry_trace p :
  trace (W := W) (try_catch (st ← sys_lstat p; mret (Some st)) (λ e, match e with ENOENT => mret None | _ => throw (SystemError e) end))
    (λ o t, match o with Some st => t = [DLstat p (Ok st)] | None => t = [DLstat p (Throw ENOENT)] end) (λ _ t, Forall only_reads t).
Proof.
  eapply (trace_catch _ _ _ (λ e t, t = [DLstat p (Throw e)])).
  - eapply trace_bind; [eapply trace_mono; [apply trace_call|done|done]|]. intros st t1 ->. by apply trace_ret.
  - intros e t1 ->. destruct e; first [by apply trace_ret|apply trace_throw; by repeat constructor].
Qed.

Lemma read_throw h expected e t : Forall only_reads t → removal h expected (Throw e) t.
Proof. by left. Qed.

(** From the reading on. *)
Lemma removal_tail h expected st reading :
  isSha256 h = true → hashed_whole h st reading → (∀ v, expected = Some v → as_safe_integer v = Some (st_size st)) →
  trace (W := W)
    (entry ← try_catch (st ← sys_lstat (path h); mret (Some st)) (λ e, match e with ENOENT => mret None | _ => throw (SystemError e) end);
     match entry with
     | None => mret Missing
     | Some entry =>
         if negb (st_dev entry =? st_dev st) || negb (st_ino entry =? st_ino st) then
           store_error BLOB_CHANGED (js "the object changed while it was being read") h
         else
           checkObjectDirectories root h ;;
           sys (bd_unlink (path h)) ;;
           syncDirectory (objectDirectory (W := W) root h) ;;
           mret Removed
     end)
    (λ r t, removal h expected (Ok r) (reading ++ t)) (λ e t, removal h expected (Throw e) (reading ++ t)).
Proof.
  intros Hh Hr Hsize. pose proof (hashed_whole_reads _ _ _ Hr) as Hl.
  eapply trace_bind.
  { eapply trace_mono; [apply lstat_entry_trace|done|]. intros e t Ht. apply read_throw. by apply Forall_app. }
  intros [entry|] t1 ->.
  2:{ apply trace_ret. split; [rewrite !Forall_app; by repeat constructor|]. rewrite app_nil_r, last_snoc. eauto. }
  destruct (Z.eqb_spec (st_dev entry) (st_dev st)) as [Ed|]; simpl.
  2:{ apply trace_throw, read_throw. rewrite !Forall_app. by repeat constructor. }
  destruct (Z.eqb_spec (st_ino entry) (st_ino st)) as [Ei|]; simpl.
  2:{ apply trace_throw, read_throw. rewrite !Forall_app. by repeat constructor. }
  eapply trace_bind.
  { eapply trace_mono; [apply check_directories_trace|done|]. intros e t Ht. apply read_throw. apply Forall_app. split; [done|by constructor]. }
  intros u again Ha. assert (seen_whole h expected (reading ++ DLstat (path h) (Ok entry) :: again)) as Hv.
  { exists reading, st, entry, again. by split_and!. }
  eapply trace_bind.
  { eapply trace_mono; [apply trace_sys|done|]. intros e t (e' & -> & ->). right. do 2 eexists. split_and!; [|done|exact Hv]. by rewrite <-app_assoc. }
  intros [] t2 ->. eapply trace_bind; [eapply trace_mono; [apply syncDirectory_trace|done|done]|].
  intros v t3 H3. apply trace_ret. split; [done|]. do 2 eexists. split_and!; [|exact Hv|exact H3]. rewrite app_nil_r, <-!app_assoc. done.
Qed.

Lemma removeObject_trace h expected :
  trace (removeObject (W := L) sha256 root h expected)
    (λ r, removal h expected (Ok r)) (λ e, removal h expected (Throw e)).
Proof.
  assert (∀ e t, Forall only_reads t → removal h expected (Throw e) t) as Hx by by left.
  unfold removeObject, checkSha256. destruct (isSha256 h) eqn:Hh; [|by apply trace_throw, Hx].
  eapply (trace_bind _ _ (λ a t, a = h ∧ t = [])); [by apply trace_ret|]. intros _ _ [-> ->].
  eapply (trace_bind _ _ (λ size t, (∀ x, expected = Some x → ∃ n, as_safe_integer x = Some n ∧ size = Some n) ∧ t = [])).
  { apply check_expected_trace; [done|]. intros e. by apply Hx. }
  intros size _ [Hsize ->]. cbv zeta.
  eapply trace_bind; [eapply trace_mono; [apply check_directories_trace|done|apply Hx]|]. intros _ t1 H1%directories_read.
  eapply trace_bind; [eapply trace_mono; [apply kind_at_trace|done|]|].
  { intros e t Ht. apply Hx. simpl. by apply Forall_app. }
  intros k t2 (r & -> & Hk). assert (Forall only_reads (t1 ++ [DLstat (path h) r])) as H2 by (apply Forall_app; by repeat constructor).
  destruct k as [|k].
  { apply trace_ret. simpl. split; [done|]. rewrite last_snoc. destruct r as [st|e]; [done|]. destruct Hk as [_ He]. eauto. }
  eapply trace_bind; [eapply trace_mono; [apply read_object_trace|done|]|].
  { intros e t Ht. apply Hx. simpl. apply Forall_app. split; [done|by constructor]. }
  intros st t3 [(pre & fd & st0 & chunks & Hk0 & Hd & Hp & ->) Hn].
  eapply trace_mono; [eapply (removal_tail h expected st); [done|exists ((t1 ++ [DLstat (path h) r]) ++ pre), fd, st0, chunks|]| |].
  - split_and!; [done|done|by apply Forall_app|reflexivity].
  - intros v Hv. destruct (Hsize v Hv) as (n & En & ->). rewrite En. f_equal. symmetry. by apply Hn.
  - intros a t Ht. rewrite <-!app_assoc in Ht. rewrite <-!app_assoc. exact Ht.
  - intros e t Ht. rewrite <-!app_assoc in Ht. rewrite <-!app_assoc. exact Ht.
Qed.

(** ** The record changes nothing

    Without its record, a run over the recorder is the run over the file system itself. *)
Definition erases {E A} (m' : io L E A) (m : io W E A) : Prop :=
  ∀ l, m (lg_world l) = ((m' l).1, lg_world (m' l).2).

Lemma erases_ret {E A} (a : A) : erases (E := E) (mret a) (mret a).
Proof. done. Qed.
Lemma erases_throw {E A} (e : E) : erases (A := A) (throw e) (throw e).
Proof. done. Qed.
Lemma erases_watched {A} (m : io W Errno A) c : erases (watched m c) m.
Proof. intros l. unfold watched. by destruct (m _). Qed.
Lemma erases_close fd : erases (close_fd (W := L) fd) (close_fd fd).
Proof. done. Qed.
Lemma erases_bind {E A B} (m' : io L E A) m (f' : A → io L E B) f :
  erases m' m → (∀ a, erases (f' a) (f a)) → erases (m' ≫= f') (m ≫= f).
Proof. intros Hm Hf l. unfold mbind, io_mbind. rewrite (Hm l). destruct (m' l) as [[a|e] l']; [apply Hf|done]. Qed.
Lemma erases_catch {E E' A} (m' : io L E A) m (h' : E → io L E' A) h :
  erases m' m → (∀ e, erases (h' e) (h e)) → erases (try_catch m' h') (try_catch m h).
Proof. intros Hm Hf l. unfold try_catch. rewrite (Hm l). destruct (m' l) as [[a|e] l']; [done|apply Hf]. Qed.
Lemma erases_finally {E A} (m' : io L E A) m f' f :
  erases m' m → (∀ l, lg_world (f' l) = f (lg_world l)) → erases (try_finally m' f') (try_finally m f).
Proof. intros Hm Hf l. unfold try_finally. rewrite (Hm l). destruct (m' l) as [r l']; simpl. by rewrite Hf. Qed.
Lemma erases_sys {A} (m' : io L Errno A) m : erases m' m → erases (sys m') (sys m).
Proof. intros Hm l. unfold sys, io_map_err. rewrite (Hm l). by destruct (m' l) as [[a|e] l']. Qed.

Ltac erase :=
  repeat (intros; match goal with
  | |- erases (mret _) _ => apply erases_ret
  | |- erases (throw _) _ => apply erases_throw
  | |- erases (store_error _ _ _) _ => apply erases_throw
  | |- erases (close_fd _) _ => apply erases_close
  | |- erases (sys _) _ => apply erases_sys
  | |- erases (mbind _ _) _ => apply erases_bind
  | |- erases (try_catch _ _) _ => apply erases_catch
  | |- erases (try_finally _ _) _ => apply erases_finally; [|done]
  | |- erases (match ?x with _ => _ end) _ => destruct x
  | |- erases _ _ => solve [eauto|apply erases_watched]
  end).

Lemma kind_at_erases p : erases (kind_at (W := L) p) (kind_at p).
Proof. unfold kind_at. erase. Qed.
Lemma check_directories_erases ps : erases (check_directories (W := L) root ps) (check_directories root ps).
Proof. induction ps; simpl; pose proof kind_at_erases; erase. Qed.
Lemma open_regular_erases p : erases (open_regular (W := L) p) (open_regular p).
Proof. unfold open_regular. erase. Qed.
Lemma openObject_erases h : erases (openObject (W := L) root h) (openObject root h).
Proof.
  pose proof kind_at_erases. pose proof check_directories_erases. pose proof open_regular_erases.
  unfold openObject, checkObjectDirectories. cbv zeta. erase.
Qed.
Lemma read_object_erases h size : erases (read_object (W := L) sha256 root h size) (read_object sha256 root h size).
Proof. pose proof openObject_erases. unfold read_object, sha256Fd. erase. Qed.
Lemma syncDirectory_erases p : erases (syncDirectory (W := L) p) (syncDirectory p).
Proof. unfold syncDirectory. change (bd_posix (W := L)) with (bd_posix (W := W)). erase. Qed.

Lemma removeObject_erases h expected :
  erases (removeObject (W := L) sha256 root h expected) (removeObject sha256 root h expected).
Proof.
  pose proof kind_at_erases. pose proof check_directories_erases. pose proof read_object_erases. pose proof syncDirectory_erases.
  unfold removeObject, checkSha256, check_expected, checkSize, checkObjectDirectories. cbv zeta. erase.
Qed.
End removal_record.

Section props.
Context {W : Type} (root : str) `{BlobDiskLaws W root} (sha256 : bytes → str) (maxBlobBytes : Z).
Implicit Types w : W.

(** ** Publication *)

(** C24 What [put] returns is true of the store: the object lies under the declared hash with the declared size,
    its bytes hash to it, and the descriptor returned says so — whoever published it. *)
Theorem put_returns_a_verified_blob source w r w' :
  put sha256 root maxBlobBytes source w = (Ok r, w') →
  ∃ size, as_safe_integer (bs_sizeBytes source) = Some size ∧ 0 <= size <= maxBlobBytes ∧
    pr_blob r = blob (bs_sha256 source) size ∧ holds root sha256 w' (bs_sha256 source) size.
Proof. intros E. by destruct (wp_Ok _ _ _ _ _ _ (put_wp root sha256 maxBlobBytes source w) E) as [_ ?]. Qed.

(** However [put] ends — stored, found, refused, or failed by the system at any call — every object of the store is
    where it was with its bytes, the process has no descriptor it did not have, and the copy came to an end. *)
Theorem put_never_replaces source w :
  let '(r, w') := put sha256 root maxBlobBytes source w in
  preserved root w w' ∧ same_fds w w' ∧ r ≠ Throw Unending.
Proof.
  pose proof (put_wp root sha256 maxBlobBytes source w) as Hp. unfold wp in Hp.
  destruct (put sha256 root maxBlobBytes source w) as [[r|e] w'].
  - destruct Hp as [[P S _] _]. split_and!; [done| |done]. intros f. apply S. by intros ?%elem_of_nil.
  - destruct Hp as [He [P S _]]. split_and!; [done| |congruence]. intros f. apply S. by intros ?%elem_of_nil.
Qed.

(** ** Removal *)

(** The object was whole, of the size expected; later it was unlinked, and nothing was at its path. *)
Definition whole_then_gone h (expected : option number) w w' : Prop :=
  ∃ w1 w2 w3 size, calm root w w1 ∧ holds root sha256 w1 h size ∧ (∀ v, expected = Some v → as_safe_integer v = Some size) ∧
    calm root w1 w2 ∧ bd_unlink (objectPath root h) w2 = (Ok tt, w3) ∧ entry w3 (objectPath root h) = None ∧ calm root w3 w'.

Lemma removeObject_wp h expected w :
  wp (removeObject sha256 root h expected)
    (λ r w', match r with
      | Missing => calm root w w'
      | Removed => spared root w h w' ∧ same_fds w w' ∧ whole_then_gone h expected w w'
      end) (λ _ w', calm root w w') w.
Proof.
  unfold removeObject. apply wp_bind. unfold checkSha256. destruct (isSha256 h) eqn:Hh; [|by apply wp_throw].
  apply wp_ret. apply wp_bind, check_expected_wp; [|done]. intros size Hsize.
  apply wp_bind. eapply wp_mono; [apply (check_directories_wp root)| |done]. intros u w1 C1. cbv beta in C1.
  apply wp_bind. eapply wp_mono; [apply (kind_at_wp root)| |intros ??; by etrans]. intros k w2 [C2 _].
  assert (calm root w w2) as C by by etrans. destruct k as [|k]; [by apply wp_ret|].
  apply wp_bind. eapply wp_mono; [by apply (read_object_wp root)| |intros ??; by etrans]. intros st w3 (C3 & H3 & Hn).
  assert (calm root w w3) as C' by by etrans. clear C C1 C2.
  apply wp_bind. eapply (wp_mono _ (λ _ w', calm root w3 w') _ (λ _ w', calm root w3 w')); [| |intros ??; by etrans].
  { cbv beta. unfold try_catch, wp, mbind, io_mbind. pose proof (bl_lstat (root := root) (objectPath root h) w3) as C4.
    destruct (sys_lstat _ w3) as [[st'|e] w4]; simpl in C4; [|destruct e]; done. }
  intros [entry|] w4 C4; [|apply wp_ret; by etrans].
  destruct (_ || _); [apply wp_throw; by etrans|]. apply wp_bind.
  eapply wp_mono; [apply (check_directories_wp root)| |intros ? ? ?; do 2 (etrans; [eassumption|]); done]. intros u' w5 C5. cbv beta in C5.
  assert (calm root w3 w5) as C35 by by etrans. assert (calm root w w5) as C6 by by etrans. clear C4 C5.
  apply wp_bind. unfold sys, io_map_err, wp at 1. destruct (bd_unlink (objectPath root h) w5) as [[[]|e] w6] eqn:E.
  2:{ apply (bl_unlink_fail (root := root)) in E. by etrans. }
  destruct (unlink_spares root _ _ _ Hh E) as (Hs & F & Hgone).
  apply wp_bind. assert (∀ w7, calm root w6 w7 → spared root w h w7 ∧ same_fds w w7) as Hend.
  { intros w7 C7. split; [by eapply (spared_calm root)|]. intros f. by rewrite (proj2 C7), F, (proj2 C6). }
  eapply wp_mono; [apply (syncDirectory_wp root)| |done].
  intros v w7 C7. cbv beta in C7. apply wp_ret. destruct (Hend w7 C7) as [Hs7 F7]. split_and!; [done|done|].
  exists w3, w5, w6, (st_size st). split_and!; [done|done| |done|done|done|done]. intros v' ->. destruct Hsize as [[? _]|(v'' & n & [= <-] & Hv & Hsz)]; [done|].
  rewrite Hv. f_equal. symmetry. by apply Hn.
Qed.

(** ** Listing *)

Lemma boundedLimit_wp v (Q : Z → W → Prop) w :
  (∀ n, 1 <= n <= MAX_LIST_LIMIT → (v = None → n = DEFAULT_LIST_LIMIT) →
     (∀ x, v = Some x → ∃ k, as_safe_integer x = Some k ∧ n = Z.min k MAX_LIST_LIMIT) → Q n w) →
  wp (boundedLimit v) Q (λ _ _, True) w.
Proof.
  intros Hq. unfold boundedLimit. destruct v as [x|]; [|apply wp_ret, Hq; [done|done|by intros ?]].
  destruct (as_safe_integer x) as [k|] eqn:E; [|by apply wp_throw]. destruct (Z.ltb_spec k 1); [by apply wp_throw|].
  apply wp_ret, Hq; [unfold MAX_LIST_LIMIT; lia|done|]. intros y [= <-]. eauto.
Qed.

(** What a page is. *)
Definition ordered_page (after : option str) (limit : option number) (r : ObjectListing) : Prop :=
  let ns := name_of_entry <$> ol_objects r in
  StronglySorted slt ns ∧ Forall (listable after) ns ∧ (length (ol_problems r) <= S MAX_PROBLEMS)%nat ∧
  ∃ n, 1 <= n <= MAX_LIST_LIMIT ∧ (limit = None → n = DEFAULT_LIST_LIMIT) ∧
    (∀ x, limit = Some x → ∃ k, as_safe_integer x = Some k ∧ n = Z.min k MAX_LIST_LIMIT) ∧
    Z.of_nat (length ns) <= n ∧ ∀ h, ol_next r = Some h → last ns = Some h ∧ Z.of_nat (length ns) = n.

Lemma listObjects_wp after limit w :
  (∀ p (w : W) es w', bd_readdir p w = (Ok es, w') → NoDup es.*1) →
  wp (listObjects root after limit) (λ r _, ordered_page after limit r) (λ _ _, True) w.
Proof.
  intros Hnames. unfold ordered_page.
  unfold listObjects. apply wp_bind, boundedLimit_wp. intros n Hn Hd Hx.
  apply wp_bind. apply (wp_mono _ (λ a _, a = after) _ (λ _ _, True)); [|intros ? w1 ->|done].
  { destruct after as [a|]; [|by apply wp_ret]. apply wp_bind. unfold checkSha256. by destruct (isSha256 a). }
  apply wp_bind. eapply wp_mono; [apply anything| |done]. intros k w2 _.
  assert (∀ l, page n after l →
    let ns := name_of_entry <$> li_objects l in
    StronglySorted slt ns ∧ Forall (listable after) ns ∧ (length (li_problems l) <= S MAX_PROBLEMS)%nat ∧
    ∃ n, 1 <= n <= MAX_LIST_LIMIT ∧ (limit = None → n = DEFAULT_LIST_LIMIT) ∧
      (∀ x, limit = Some x → ∃ k, as_safe_integer x = Some k ∧ n = Z.min k MAX_LIST_LIMIT) ∧
      Z.of_nat (length ns) <= n ∧ ∀ h, li_next l = Some h → last ns = Some h ∧ Z.of_nat (length ns) = n) as Hpage.
  { intros l [Ps Pl Pb Pn Pf Pp]. cbv zeta. split_and!; [done|done|done|]. exists n. split_and!; [lia|lia|done|done| |].
    - by rewrite length_fmap.
    - intros h Eh. rewrite Pn in Eh. destruct (li_full l); [|done]. split; [done|]. rewrite length_fmap. auto. }
  assert (page n after {| li_objects := []; li_next := None; li_full := false; li_problems := [] |}) as Hempty.
  { split; simpl; try done; [constructor|lia|lia]. }
  destruct k as [|[]]; try by apply wp_throw.
  - apply wp_ret. apply (Hpage _ Hempty).
  - apply wp_bind. eapply wp_mono; [apply shards_wp; [exact Hnames|simpl; lia]| |done].
    intros [fs ps] w3 [Hfs Hps]. simpl in Hfs, Hps. apply wp_bind.
    eapply wp_mono; [apply list_first_wp; [exact Hnames|by apply (page_problems _ _ _ ps Hempty)|done|by intros ?? ?%elem_of_nil]| |done].
    intros l w4 Hl. cbv beta in Hl. apply wp_ret. apply (Hpage _ Hl).
Qed.

(** C26 A page of the listing names hashes in strictly ascending order, each after the cursor, and no more than were
    asked for (and never more than the most a page may have); [next] is the last of a full page, so the page that
    resumes there overlaps no earlier one. All of it holds whatever other writers do during the walk. *)
Theorem listObjects_gives_ordered_pages after limit w r w' :
  (∀ p (w : W) es w', bd_readdir p w = (Ok es, w') → NoDup es.*1) →
  listObjects root after limit w = (Ok r, w') →
  let ns := name_of_entry <$> ol_objects r in
  StronglySorted slt ns ∧ Forall (listable after) ns ∧ (length (ol_problems r) <= S MAX_PROBLEMS)%nat ∧
  ∃ n, 1 <= n <= MAX_LIST_LIMIT ∧ (limit = None → n = DEFAULT_LIST_LIMIT) ∧
    (∀ x, limit = Some x → ∃ k, as_safe_integer x = Some k ∧ n = Z.min k MAX_LIST_LIMIT) ∧
    Z.of_nat (length ns) <= n ∧ ∀ h, ol_next r = Some h → last ns = Some h ∧ Z.of_nat (length ns) = n.
Proof.
  intros Hnames E. exact (wp_Ok _ _ _ _ _ _ (listObjects_wp after limit w Hnames) E).
Qed.
End props.

(** C25 What a removal does, whatever the file system answers and whatever other processes do between two of its
    calls, objects of this very name unlinked or replaced among it. It unlinks nothing but the path of this object,
    at most once, and answers that it removed it exactly when that unlink succeeded; before it, the file opened
    under the name was read whole, hashed to the name and had the size expected, and then the same file, by device
    and inode, was still found there. Where other writers only add objects — the law the callers keep — the object
    was whole, was unlinked, and at that moment was gone; every other object is where it was with its bytes; and
    when nothing was removed so is this one. *)
Theorem removeObject_only_what_it_verified {W} `{BlobDisk W} (sha256 : bytes → str) (root h : str) expected (w : W) :
  let '(r, l) := removeObject sha256 root h expected {| lg_world := w; lg_calls := [] |} in
  removeObject sha256 root h expected w = (r, lg_world l) ∧
  removal sha256 root h expected r (lg_calls l) ∧
  ∀ V : BlobView W, BlobDiskLaws W root →
    spared root w h (lg_world l) ∧ same_fds w (lg_world l) ∧
    (r ≠ Ok Removed → preserved root w (lg_world l)) ∧
    (r = Ok Removed → whole_then_gone root sha256 h expected w (lg_world l)).
Proof.
  pose proof (removeObject_erases sha256 root h expected {| lg_world := w; lg_calls := [] |}) as He.
  pose proof (removeObject_trace sha256 root h expected {| lg_world := w; lg_calls := [] |}) as Ht.
  destruct (removeObject sha256 root h expected {| lg_world := w; lg_calls := [] |}) as [r [w' t]].
  cbn [lg_world lg_calls fst snd] in *. destruct Ht as (t' & -> & Ht). split_and!; [done|by destruct r|].
  intros V Hlaws. pose proof (removeObject_wp root sha256 h expected w) as Hr. unfold wp in Hr. rewrite He in Hr.
  assert (∀ w', calm root w w' → spared root w h w' ∧ same_fds w w' ∧ preserved root w w') as Hc.
  { intros w1 C. split_and!; [|apply C|by apply (calm_preserved root)]. intros h' ino _ Ho.
    split; [by apply C|]. apply C. by exists h'. }
  destruct r as [[]|e].
  - destruct Hr as (Hs & F & Hv). by split_and!.
  - by destruct (Hc w' Hr) as (? & ? & ?).
  - by destruct (Hc w' Hr) as (? & ? & ?).
Qed.

(** ** A store that runs *)

Definition hex_byte (b : Byte.byte) : str := let n := Byte.to_N b in [hex_digit (n / 16); hex_digit (n mod 16)]%N.
(** A stand-in for the digest: the bytes themselves in hex, filled up with zeros. *)
Definition demo_digest (b : bytes) : str := take 64 (mjoin (hex_byte <$> b) ++ replicate 64 48%N).
Definition demo_blob : bytes := utf8_encode (js "screenshot").
Definition demo_hash : str := demo_digest demo_blob.
Definition demo_source : BlobSource := {| bs_path := js "/report/a.png"; bs_sha256 := demo_hash; bs_sizeBytes := Int 10 |}.

(** A root and a source; [published] is what another writer will publish just before this one links. *)
Definition demo_root (published : list (str * bytes)) : BlobWorld :=
  create {| bw_names := [(js "/root", 1)]; bw_files := λ _, {| fo_kind := KDirectory; fo_bytes := [] |};
            bw_fds := []; bw_random := 0; bw_most := 2; bw_others := published |}
    (bs_path demo_source) {| fo_kind := KFile; fo_bytes := demo_blob |}.
Definition demo_put (w : BlobWorld) : res BlobThrown PutResult * BlobWorld := put demo_digest (js "/root") 1000 demo_source w.
Definition demo_alone : BlobWorld := demo_root [].
Definition demo_race : BlobWorld := demo_root [(objectPath (W := BlobWorld) (js "/root") demo_hash, demo_blob)].
Definition demo_clash : BlobWorld := demo_root [(objectPath (W := BlobWorld) (js "/root") demo_hash, utf8_encode (js "other"))].
Definition demo_after : BlobWorld := (demo_put demo_alone).2.

Definition put_summary (r : res BlobThrown PutResult) : PutOutcome + option BlobStoreErrorCode :=
  match r with Ok p => inl (pr_outcome p) | Throw (StoreError code _ _) => inr (Some code) | Throw _ => inr None end.

Definition returned {A} (r : res BlobThrown A) : bool := match r with Ok _ => true | Throw _ => false end.

Example demo_put_stores : put_summary (demo_put demo_alone).1 = inl Stored.
Proof. vm_compute. reflexivity. Qed.
Example demo_put_again : put_summary (demo_put demo_after).1 = inl Existing.
Proof. vm_compute. reflexivity. Qed.
(** A race lost to a writer of the same bytes, and to one whose object is not what its name says. *)
Example demo_put_race : put_summary (demo_put demo_race).1 = inl Existing.
Proof. vm_compute. reflexivity. Qed.
Example demo_put_clash : put_summary (demo_put demo_clash).1 = inr (Some BLOB_SIZE_MISMATCH).
Proof. vm_compute. reflexivity. Qed.

Lemma returned_inv {A} (p : res BlobThrown A * BlobWorld) : returned p.1 = true → ∃ r w', p = (Ok r, w').
Proof. destruct p as [[r|e] w']; [eauto|done]. Qed.
Lemma demo_race_returned : returned (put demo_digest (js "/root") 1000 demo_source demo_race).1 = true.
Proof. vm_compute. reflexivity. Qed.

Lemma put_returns_a_verified_blob_witness :
  ∃ r w' size, put demo_digest (js "/root") 1000 demo_source demo_race = (Ok r, w') ∧
    as_safe_integer (bs_sizeBytes demo_source) = Some size ∧ holds (js "/root") demo_digest w' (bs_sha256 demo_source) size.
Proof.
  destruct (returned_inv _ demo_race_returned) as (r & w' & E).
  destruct (put_returns_a_verified_blob (js "/root") demo_digest 1000 demo_source demo_race r w' E) as (size & Hs & _ & _ & Hh).
  exists r, w', size. split; [exact E|]. split; [exact Hs|exact Hh].
Defined.

Lemma put_never_replaces_witness :
  let '(r, w') := put demo_digest (js "/root") 1000 demo_source demo_clash in preserved (js "/root") demo_clash w' ∧ same_fds demo_clash w' ∧ r ≠ Throw Unending.
Proof. pose proof (put_never_replaces (js "/root") demo_digest 1000 demo_source demo_clash) as Hp. exact Hp. Defined.

Abbreviation demo_removed :=
  (removeObject demo_digest (js "/root") demo_hash (Some (Int 10)) {| lg_world := demo_after; lg_calls := [] |}).

Lemma returns_pair {A B} (p : A * B) a : p.1 = a → p = (a, p.2).
Proof. destruct p; simpl; congruence. Qed.
Lemma demo_removed_returns : demo_removed.1 = Ok Removed.
Proof. vm_compute. reflexivity. Qed.
Lemma demo_removed_calls : length (lg_calls demo_removed.2) = 21%nat.
Proof. vm_compute. reflexivity. Qed.

Lemma removeObject_only_what_it_verified_witness :
  length (lg_calls demo_removed.2) = 21%nat ∧
  removal demo_digest (js "/root") demo_hash (Some (Int 10)) (Ok Removed) (lg_calls demo_removed.2) ∧
  whole_then_gone (js "/root") demo_digest demo_hash (Some (Int 10)) demo_after (lg_world demo_removed.2).
Proof.
  pose proof (removeObject_only_what_it_verified demo_digest (js "/root") demo_hash (Some (Int 10)) demo_after) as Hr.
  rewrite (returns_pair _ _ demo_removed_returns) in Hr. destruct Hr as (_ & Ht & Hr). destruct (Hr _ (blob_laws (js "/root"))) as (_ & _ & _ & Hg).
  split; [exact demo_removed_calls|]. split; [exact Ht|]. exact (Hg eq_refl).
Defined.

(** A file system on which another writer replaces the object while it is being read: the removal refuses, and the
    object that is there now stays. *)
Definition replaced (w : BlobWorld) : BlobWorld :=
  let path := objectPath (W := BlobWorld) (js "/root") demo_hash in
  create (with_names w (List.filter (λ e, negb (str_eqb e.1 path)) (bw_names w))) path {| fo_kind := KFile; fo_bytes := demo_blob |}.
Definition racing_fs : NodeFs BlobWorld :=
  {| path_join := path_join (W := BlobWorld); sys_realpath := sys_realpath; sys_lstat := sys_lstat; sys_readdir := sys_readdir;
     sys_open := sys_open; sys_fstat := sys_fstat; sys_read := sys_read;
     sys_read_all fd w := let '(r, w) := sys_read_all fd w in (r, replaced w);
     sys_close := sys_close |}.
Definition racing_disk : @BlobDisk BlobWorld racing_fs :=
  {| bd_open_new := bd_open_new; bd_write := bd_write; bd_fsync := bd_fsync; bd_fchmod := bd_fchmod; bd_link := bd_link;
     bd_unlink := bd_unlink; bd_mkdir := bd_mkdir; bd_readdir := bd_readdir; bd_open_dir := bd_open_dir; bd_random := bd_random;
     bd_relative := bd_relative (W := BlobWorld); bd_sep := bd_sep (W := BlobWorld); bd_posix := bd_posix (W := BlobWorld) |}.
Definition still_there (w : BlobWorld) : bool :=
  match name_of (bw_names w) (objectPath (W := BlobWorld) (js "/root") demo_hash) with Some _ => true | None => false end.
Definition refused_as_changed (run : res BlobThrown Removal * BlobWorld) : bool :=
  match run.1 with Throw (StoreError BLOB_CHANGED _ _) => still_there run.2 | _ => false end.
Example demo_race_refused :
  refused_as_changed (@removeObject BlobWorld racing_fs racing_disk demo_digest (js "/root") demo_hash (Some (Int 10)) demo_after) = true.
Proof. vm_compute. reflexivity. Qed.

(** A root with two objects, and a name at the top the layout does not know. *)
Definition demo_second : bytes := utf8_encode (js "trace").
Definition demo_two : BlobWorld :=
  let w := create demo_after (js "/report/b.png") {| fo_kind := KFile; fo_bytes := demo_second |} in
  let w := create w (js "/root/sha256/junk") {| fo_kind := KFile; fo_bytes := [] |} in
  (put demo_digest (js "/root") 1000
     {| bs_path := js "/report/b.png"; bs_sha256 := demo_digest demo_second; bs_sizeBytes := Int 5 |} w).2.
Definition demo_page (after : option str) : res BlobThrown ObjectListing * BlobWorld :=
  listObjects (js "/root") after (Some (Int 1)) demo_two.

Definition page_summary (r : res BlobThrown ObjectListing) : option (list str * option str * nat) :=
  match r with Ok l => Some (name_of_entry <$> ol_objects l, ol_next l, length (ol_problems l)) | Throw _ => None end.

Example demo_first_page : page_summary (demo_page None).1 = Some ([demo_hash], Some demo_hash, 1%nat).
Proof. vm_compute. reflexivity. Qed.
(** The page that resumes there reports the same stray name again. *)
Example demo_second_page : page_summary (demo_page (Some demo_hash)).1 = Some ([demo_digest demo_second], None, 1%nat).
Proof. vm_compute. reflexivity. Qed.

Lemma demo_page_returned : returned (listObjects (js "/root") None (Some (Int 1)) demo_two).1 = true.
Proof. vm_compute. reflexivity. Qed.

Lemma listObjects_gives_ordered_pages_witness :
  ∃ r w', listObjects (js "/root") None (Some (Int 1)) demo_two = (Ok r, w') ∧
    StronglySorted slt (name_of_entry <$> ol_objects r) ∧
    ∀ h, ol_next r = Some h → last (name_of_entry <$> ol_objects r) = Some h.
Proof.
  destruct (returned_inv _ demo_page_returned) as (r & w' & E).
  destruct (listObjects_gives_ordered_pages (js "/root") None (Some (Int 1)) demo_two r w' demo_names_once E)
    as (Hs & _ & _ & n & _ & _ & _ & _ & Hn).
  exists r, w'. split; [exact E|]. split; [exact Hs|]. intros h Hh. apply (Hn h Hh).
Defined.
