(* ===== verification/JsonText.v ===== *)
(** * JSON.stringify and JSON.parse

    The text of a parsed value is [json_text] (Codec.v); here the value of a text: the grammar of ECMA-404
    read strictly, duplicate members resolved as an object literal's, array-index
    keys first. A number literal with a fraction, an exponent or more than fifteen
    digits is given its double by [literal], a variable. Reading back what was
    written gives the value. *)

From S2P Require Import Prelude JsString JsMap JsSort Json Codec HistoryOrder PwText.

Local Open Scope Z_scope.

(** ** Reading *)

Definition is_json_space (u : N) : bool := (u =? 32)%N || (u =? 9)%N || (u =? 10)%N || (u =? 13)%N.
Fixpoint skip_space (s : str) : str :=
  match s with u :: s' => if is_json_space u then skip_space s' else s | [] => [] end.

Definition hex_value (u : N) : option N :=
  if is_digit u then Some (u - 48)%N
  else if in_range 97 102 u then Some (u - 87)%N
  else if in_range 65 70 u then Some (u - 55)%N
  else None.

Definition escaped_unit (e : N) : option N :=
  if (e =? 34)%N || (e =? 92)%N || (e =? 47)%N then Some e
  else if (e =? 98)%N then Some 8%N else if (e =? 102)%N then Some 12%N
  else if (e =? 110)%N then Some 10%N else if (e =? 114)%N then Some 13%N
  else if (e =? 116)%N then Some 9%N else None.

(** A string after its opening quote, with what follows it. *)
Fixpoint parse_string (t : str) : option (str * str) :=
  match t with
  | [] => None
  | u :: t1 =>
      if (u =? 34)%N then Some ([], t1)
      else if (u <? 32)%N then None
      else if (u =? 92)%N then
        match t1 with
        | [] => None
        | e :: t2 =>
            if (e =? 117)%N then
              match t2 with
              | a :: b :: c :: d :: t3 =>
                  match hex_value a, hex_value b, hex_value c, hex_value d with
                  | Some a, Some b, Some c, Some d =>
                      prod_map (cons (a * 4096 + b * 256 + c * 16 + d)%N) id <$> parse_string t3
                  | _, _, _, _ => None
                  end
              | _ => None
              end
            else
              match escaped_unit e with
              | Some unit => prod_map (cons unit) id <$> parse_string t2
              | None => None
              end
        end
      else prod_map (cons u) id <$> parse_string t1
  end.

Definition literal_text (word rest : str) : option str :=
  if str_eqb (take (length word) rest) word then Some (drop (length word) rest) else None.

(** Array-index keys come first, in numeric order. *)
Definition is_index_key (k : str) : bool :=
  forallb is_digit k && str_eqb (dec (undec k)) k && (undec k <? 4294967295).
Definition own_order (o : obj) : obj :=
  sort (cmp_on (λ kv, undec kv.1) cmp_sub) (List.filter (λ kv, is_index_key kv.1) o)
    ++ List.filter (λ kv, negb (is_index_key kv.1)) o.

Section parse.
Context (literal : str → num).

(** A number: its text is what was read. *)
Definition parse_number (s : str) : option (num * str) :=
  let '(sign, s1) := match s with u :: s' => if (u =? 45)%N then ([u], s') else ([], s) | [] => ([], s) end in
  let '(int, s2) := span_digits s1 in
  if bool_decide (int = []) || (bool_decide (head int = Some 48%N) && negb (bool_decide (length int = 1%nat))) then None
  else
    let '(frac, s3) := match s2 with
      | u :: s' => if (u =? 46)%N then let '(ds, r) := span_digits s' in (Some (u :: ds, bool_decide (ds = [])), r) else (None, s2)
      | [] => (None, s2) end in
    let '(exp, s4) := match s3 with
      | u :: s' => if (u =? 101)%N || (u =? 69)%N then
            let '(sg, s'') := match s' with v :: r => if (v =? 43)%N || (v =? 45)%N then ([v], r) else ([], s') | [] => ([], s') end in
            let '(ds, r) := span_digits s'' in (Some (u :: sg ++ ds, bool_decide (ds = [])), r)
          else (None, s3)
      | [] => (None, s3) end in
    match frac, exp with
    | Some (_, true), _ | _, Some (_, true) => None
    | None, None => if (length int <=? 15)%nat then Some (NInt (undec (sign ++ int)), s4) else Some (literal (sign ++ int), s4)
    | _, _ => Some (literal (sign ++ int ++ default [] (fst <$> frac) ++ default [] (fst <$> exp)), s4)
    end.

(** A value, the rest of an array's elements, the rest of an object's members. *)
Fixpoint parse_value (fuel : nat) (s : str) : option (json * str) :=
  match fuel with
  | O => None
  | S fuel' =>
      match skip_space s with
      | [] => None
      | u :: s' =>
          if (u =? 34)%N then prod_map JStr id <$> parse_string s'
          else if (u =? 91)%N then
            match skip_space s' with
            | v :: r => if (v =? 93)%N then Some (JArr [], r)
                        else prod_map JArr id <$> parse_items fuel' s'
            | [] => None
            end
          else if (u =? 123)%N then
            match skip_space s' with
            | v :: r => if (v =? 125)%N then Some (JObj [], r)
                        else prod_map (JObj ∘ own_order ∘ foldl (λ o kv, mset o kv.1 kv.2) []) id <$> parse_members fuel' s'
            | [] => None
            end
          else if (u =? 116)%N then pair (JBool true) <$> literal_text (js "true") (u :: s')
          else if (u =? 102)%N then pair (JBool false) <$> literal_text (js "false") (u :: s')
          else if (u =? 110)%N then pair JNull <$> literal_text (js "null") (u :: s')
          else prod_map JNum id <$> parse_number (u :: s')
      end
  end
with parse_items (fuel : nat) (s : str) : option (list json * str) :=
  match fuel with
  | O => None
  | S fuel' =>
      '(x, s1) ← parse_value fuel' s;
      match skip_space s1 with
      | u :: s2 =>
          if (u =? 44)%N then prod_map (cons x) id <$> parse_items fuel' s2
          else if (u =? 93)%N then Some ([x], s2) else None
      | [] => None
      end
  end
with parse_members (fuel : nat) (s : str) : option (list (str * json) * str) :=
  match fuel with
  | O => None
  | S fuel' =>
      match skip_space s with
      | u :: s0 =>
          if (u =? 34)%N then
            '(k, s1) ← parse_string s0;
            match skip_space s1 with
            | c :: s2 =>
                if (c =? 58)%N then
                  '(x, s3) ← parse_value fuel' s2;
                  match skip_space s3 with
                  | v :: s4 =>
                      if (v =? 44)%N then prod_map (cons (k, x)) id <$> parse_members fuel' s4
                      else if (v =? 125)%N then Some ([(k, x)], s4) else None
                  | [] => None
                  end
                else None
            | [] => None
            end
          else None
      | [] => None
      end
  end.

(** [JSON.parse(text)]; of two turns one reads a unit, so twice the length of the text is fuel enough. *)
Definition json_parse (text : str) : option json :=
  match parse_value (S (2 * length text)) text with
  | Some (v, rest) => if bool_decide (skip_space rest = []) then Some v else None
  | None => None
  end.
End parse.

(** ** Reading back what was written *)

Lemma skip_space_unit u r : is_json_space u = false → skip_space (u :: r) = u :: r.
Proof. intros E. simpl. by rewrite E. Qed.

Lemma hex_value_digit n : (n < 16)%N → hex_value (hex_digit n) = Some n.
Proof.
  intros Hn. unfold hex_digit, hex_value, is_digit, in_range. destruct (N.ltb_spec n 10).
  - rewrite (proj2 (N.leb_le _ _)), (proj2 (N.leb_le _ _)) by lia. cbn [andb]. f_equal. lia.
  - rewrite (proj2 (N.leb_gt (87 + n) 57)), andb_false_r by lia.
    rewrite !(proj2 (N.leb_le _ _)) by lia. cbn [andb]. f_equal. lia.
Qed.

Lemma parse_escape u t : (u < 65536)%N → parse_string (unicode_escape u ++ t) = prod_map (cons u) id <$> parse_string t.
Proof.
  intros Hu. unfold unicode_escape. cbn -[hex_digit hex_value]. pose proof (unhex_escape u Hu) as E.
  rewrite !unhex_hex in E by (apply N.mod_lt || apply N.Div0.div_lt_upper_bound; lia).
  rewrite !hex_value_digit by (apply N.mod_lt || apply N.Div0.div_lt_upper_bound; lia). by rewrite E.
Qed.

Lemma parse_raw u t : u ≠ 34%N → u ≠ 92%N → (32 <= u)%N → parse_string (u :: t) = prod_map (cons u) id <$> parse_string t.
Proof. intros ???. cbn [parse_string]. by rewrite !(proj2 (N.eqb_neq _ _)), (proj2 (N.ltb_ge _ _)). Qed.

Lemma parse_unit u t : (u < 65536)%N → parse_string (quote_unit u ++ t) = prod_map (cons u) id <$> parse_string t.
Proof.
  intros Hu. unfold quote_unit.
  repeat match goal with
  | |- context [if (u =? ?n)%N then _ else _] => destruct (N.eqb_spec u n); [by subst|]
  end.
  destruct (N.ltb_spec u 32); [by apply parse_escape|]. by apply parse_raw.
Qed.

Lemma surrogate_large u : is_surrogate u = true → (0xD800 <= u)%N.
Proof. unfold is_surrogate, is_high_surrogate, is_low_surrogate. rewrite orb_true_iff, !andb_true_iff, !N.leb_le. lia. Qed.

Lemma parse_quote_body s r : wf_str s → parse_string (quote_body s ++ 34%N :: r) = Some (s, r).
Proof.
  unfold wf_str. intros Hs. assert (∃ n, length s ≤ n)%nat as [n Hn] by eauto. revert s Hs Hn.
  induction n as [|n IH]; intros [|u s] Hs Hn; simpl in Hn; try lia; try done.
  apply Forall_cons in Hs as [Hu Hs].
  assert (∀ t, parse_string ((if is_surrogate u then unicode_escape u else quote_unit u) ++ t)
               = prod_map (cons u) id <$> parse_string t) as Hone.
  { intros t. case_match; [by apply parse_escape | by apply parse_unit]. }
  destruct s as [|v s]; [by cbn [quote_body]; rewrite Hone|].
  rewrite quote_body_cons2. destruct (is_high_surrogate u && is_low_surrogate v) eqn:Ep.
  - apply andb_true_iff in Ep as [Eu Ev]. apply Forall_cons in Hs as [Hv Hs].
    assert (is_surrogate u = true) as Su by (unfold is_surrogate; by rewrite Eu).
    assert (is_surrogate v = true) as Sv by (unfold is_surrogate; by rewrite Ev, orb_true_r).
    pose proof (surrogate_large u Su). pose proof (surrogate_large v Sv).
    rewrite <- !app_comm_cons, !parse_raw by lia. by rewrite IH by (done || simpl in Hn; lia).
  - rewrite <- app_assoc, Hone, IH by (done || simpl in *; lia). done.
Qed.

Lemma parse_json_quote s r : wf_str s → ∃ t, json_quote s ++ r = 34%N :: t ∧ parse_string t = Some (s, r).
Proof.
  intros Hs. exists (quote_body s ++ 34%N :: r). split; [|by apply parse_quote_body].
  unfold json_quote. by rewrite <-app_comm_cons, <-app_assoc.
Qed.

Lemma digits_fuel_head fuel n : 0 < n → n < 10 ^ Z.of_nat fuel → head (digits_fuel fuel n []) ≠ Some 48%N.
Proof.
  revert n. induction fuel as [|fuel IH]; intros n Hn Hf; [simpl in Hf; lia|]. cbn [digits_fuel].
  destruct (Z.ltb_spec n 10) as [Hlt|Hge].
  - simpl. rewrite Z.mod_small by lia. intros [= E]. lia.
  - rewrite digits_fuel_acc. assert (0 < n / 10) by (apply Z.div_str_pos; lia).
    assert (n / 10 < 10 ^ Z.of_nat fuel).
    { apply Z.div_lt_upper_bound; [lia|]. rewrite <-Z.pow_succ_r, <-Nat2Z.inj_succ by lia. done. }
    specialize (IH (n / 10) ltac:(done) ltac:(done)).
    destruct (digits_fuel fuel (n / 10) []) as [|d l] eqn:E; [|done].
    destruct fuel; [simpl in *; lia|]. cbn [digits_fuel] in E. case_match; [done|].
    rewrite digits_fuel_acc in E. by apply app_eq_nil in E as [_ ?].
Qed.

Lemma dec_nonneg_head n : 0 < n → head (dec_nonneg n) ≠ Some 48%N.
Proof. intros Hn. apply digits_fuel_head; [done|]. apply dec_nonneg_fuel. lia. Qed.

Lemma dec_nonneg_length n : 0 <= n < 10 ^ 15 → (length (dec_nonneg n) <= 15)%nat.
Proof.
  intros Hn. pose proof (dec_length_bound n 15 ltac:(lia) ltac:(done)) as Hl. unfold dec in Hl.
  by destruct (Z.ltb_spec n 0); [lia|].
Qed.

(** What may follow: nothing a number goes on with. *)
Lemma delim_head r : delim r → match r with
  | u :: _ => is_digit u = false ∧ (u =? 46)%N = false ∧ (u =? 101)%N = false ∧ (u =? 69)%N = false
  | [] => True end.
Proof.
  destruct r as [|u r]; [done|]. simpl. unfold is_num_char. intros H. repeat (apply orb_false_iff in H as [H ?]). done.
Qed.

Lemma parse_number_dec literal z r :
  Z.abs z < 10 ^ 15 → delim r → parse_number literal (dec z ++ r) = Some (NInt z, r).
Proof.
  intros Hz Hd%delim_head.
  assert (∀ sign n, 0 <= n < 10 ^ 15 →
    (let '(int, s2) := span_digits (dec_nonneg n ++ r) in
     if bool_decide (int = []) || (bool_decide (head int = Some 48%N) && negb (bool_decide (length int = 1%nat))) then None
     else
       let '(frac, s3) := match s2 with
         | u :: s' => if (u =? 46)%N then let '(ds, r) := span_digits s' in (Some (u :: ds, bool_decide (ds = [])), r) else (None, s2)
         | [] => (None, s2) end in
       let '(exp, s4) := match s3 with
         | u :: s' => if (u =? 101)%N || (u =? 69)%N then
               let '(sg, s'') := match s' with v :: r => if (v =? 43)%N || (v =? 45)%N then ([v], r) else ([], s') | [] => ([], s') end in
               let '(ds, r) := span_digits s'' in (Some (u :: sg ++ ds, bool_decide (ds = [])), r)
             else (None, s3)
         | [] => (None, s3) end in
       match frac, exp with
       | Some (_, true), _ | _, Some (_, true) => None
       | None, None => if (length int <=? 15)%nat then Some (NInt (undec (sign ++ int)), s4) else Some (literal (sign ++ int), s4)
       | _, _ => Some (literal (sign ++ int ++ default [] (fst <$> frac) ++ default [] (fst <$> exp)), s4)
       end) = Some (NInt (undec (sign ++ dec_nonneg n)), r)) as Hn.
  { intros sign n Hn. pose proof (dec_nonneg_length n Hn) as Hl. apply Nat.leb_le in Hl.
    rewrite span_digits_app; [|apply dec_nonneg_digits; lia|by destruct r; [|apply Hd]].
    destruct (dec_nonneg_cons n) as (d & s & E).
    assert (bool_decide (dec_nonneg n = []) = false) as -> by (rewrite E; done).
    assert (bool_decide (head (dec_nonneg n) = Some 48%N) && negb (bool_decide (length (dec_nonneg n) = 1%nat)) = false) as ->.
    { destruct (decide (n = 0)) as [->|]; [reflexivity|]. rewrite bool_decide_eq_false_2; [done|]. apply dec_nonneg_head. lia. }
    cbn [orb]. destruct r as [|u r]; [by rewrite Hl|]. destruct Hd as (_ & -> & -> & ->). cbn [orb]. by rewrite Hl. }
  unfold parse_number, dec. destruct (Z.ltb_spec z 0).
  - cbn [app]. change ((45 =? 45)%N) with true. cbv iota. rewrite Hn by lia. do 3 f_equal.
    transitivity (undec (dec z)); [|apply undec_dec]. unfold dec. by rewrite (proj2 (Z.ltb_lt z 0)).
  - specialize (Hn [] z ltac:(lia)). destruct (dec_nonneg_cons z) as (d & s & E). pose proof (dec_nonneg_digits z ltac:(lia)) as Hdig.
    rewrite E in Hdig. simpl in Hdig. apply andb_true_iff in Hdig as [Hdig _].
    assert ((d =? 45)%N = false) as Ed by (apply N.eqb_neq; intros ->; done).
    rewrite E in Hn |- *. cbn [app] in Hn |- *. rewrite Ed. etrans; [exact Hn|]. do 3 f_equal.
    rewrite <-E. transitivity (undec (dec z)); [|apply undec_dec]. unfold dec. by rewrite (proj2 (Z.ltb_ge z 0)).
Qed.

(** Values whose text determines them: short integers, well-formed strings, members in own order. *)
Inductive written : json → Prop :=
| wr_null : written JNull
| wr_bool b : written (JBool b)
| wr_int z : Z.abs z < 10 ^ 15 → written (JNum (NInt z))
| wr_str s : wf_str s → written (JStr s)
| wr_arr l : Forall written l → written (JArr l)
| wr_obj o : NoDup (mkeys o) → Forall wf_str (mkeys o) → Forall (λ kv, written kv.2) o → own_order o = o → written (JObj o).

Section round_trip.
Context (literal : str → num).

Definition reads (v : json) : Prop := ∀ fuel r,
  (2 * length (json_text v) < fuel)%nat → delim r → parse_value literal fuel (json_text v ++ r) = Some (v, r).

Definition number_head (u : N) : Prop := is_digit u = true ∨ u = 45%N.

Lemma dec_cons z : ∃ u t, dec z = u :: t ∧ number_head u.
Proof.
  unfold dec. destruct (Z.ltb_spec z 0); [eexists _, _; split; [done|by right]|].
  destruct (dec_nonneg_cons z) as (d & s & E). exists d, s. split; [done|]. left.
  pose proof (dec_nonneg_digits z ltac:(lia)) as Hd. rewrite E in Hd. by apply andb_true_iff in Hd as [? _].
Qed.

Lemma number_head_cases u : number_head u →
  is_json_space u = false ∧ (u =? 34)%N = false ∧ (u =? 91)%N = false ∧ (u =? 123)%N = false ∧
  (u =? 116)%N = false ∧ (u =? 102)%N = false ∧ (u =? 110)%N = false ∧ (u =? 93)%N = false ∧ (u =? 125)%N = false.
Proof.
  unfold number_head, is_digit, in_range, is_json_space. rewrite andb_true_iff, !N.leb_le. intros Hu.
  repeat split; rewrite ?orb_false_iff, ?N.eqb_neq; lia.
Qed.

Lemma written_head v : written v → ∃ u t, json_text v = u :: t ∧ is_json_space u = false ∧ (u =? 93)%N = false.
Proof.
  destruct 1 as [|[]|z Hz|s Hs|l Hl|o]; try by eexists _, _.
  destruct (dec_cons z) as (u & t & E & Hu). exists u, t. split; [done|]. by apply number_head_cases in Hu as (? & _ & _ & _ & _ & _ & _ & ? & _).
Qed.

Lemma parse_value_int z fuel r :
  Z.abs z < 10 ^ 15 → delim r → parse_value literal (S fuel) (dec z ++ r) = Some (JNum (NInt z), r).
Proof.
  intros Hz Hd. pose proof (parse_number_dec literal z r Hz Hd) as Hp. destruct (dec_cons z) as (u & t & E & Hu).
  rewrite E in Hp |- *. cbn [app] in Hp |- *. cbn [parse_value].
  destruct (number_head_cases u Hu) as (Hs & E1 & E2 & E3 & E4 & E5 & E6 & _). rewrite skip_space_unit by done.
  by rewrite E1, E2, E3, E4, E5, E6, Hp.
Qed.

Lemma parse_items_cons fuel s x s1 :
  parse_value literal fuel s = Some (x, s1) →
  parse_items literal (S fuel) s =
    match skip_space s1 with
    | u :: s2 => if (u =? 44)%N then prod_map (cons x) id <$> parse_items literal fuel s2
                 else if (u =? 93)%N then Some ([x], s2) else None
    | [] => None end.
Proof. intros E. cbn [parse_items]. by rewrite E. Qed.

Lemma items_read l x fuel r :
  Forall reads (x :: l) → (2 * length (join (js ",") (json_text <$> x :: l)) + 1 < fuel)%nat →
  parse_items literal fuel (join (js ",") (json_text <$> x :: l) ++ 93%N :: r) = Some (x :: l, r).
Proof.
  revert x fuel. induction l as [|y l IH]; intros x fuel Hr Hf; apply Forall_cons in Hr as [Hx Hr].
  - cbn [fmap list_fmap join] in Hf |- *. destruct fuel as [|fuel]; [lia|].
    rewrite (parse_items_cons _ _ x (93%N :: r)); [done|]. apply Hx; [lia|done].
  - change (join (js ",") (json_text <$> x :: y :: l)) with (json_text x ++ 44%N :: join (js ",") (json_text <$> y :: l)) in Hf |- *.
    destruct fuel as [|fuel]; [lia|]. rewrite length_app in Hf. cbn [length] in Hf. rewrite <-app_assoc, <-app_comm_cons.
    rewrite (parse_items_cons _ _ x (44%N :: join (js ",") (json_text <$> y :: l) ++ 93%N :: r)) by (apply Hx; [lia|done]).
    rewrite skip_space_unit by done. change ((44 =? 44)%N) with true. cbv iota. by rewrite IH by (done || lia).
Qed.

(** A member as it is written. *)
Definition member_text (kv : str * json) : str := json_quote kv.1 ++ js ":" ++ json_text kv.2.

Lemma parse_member fuel kv s :
  wf_str kv.1 → parse_value literal fuel (json_text kv.2 ++ s) = Some (kv.2, s) →
  parse_members literal (S fuel) (member_text kv ++ s) =
    match skip_space s with
    | v :: s4 => if (v =? 44)%N then prod_map (cons kv) id <$> parse_members literal fuel s4
                 else if (v =? 125)%N then Some ([kv], s4) else None
    | [] => None end.
Proof.
  intros Hk Hv. unfold member_text. rewrite <-!app_assoc.
  destruct (parse_json_quote kv.1 (js ":" ++ json_text kv.2 ++ s) Hk) as (t & -> & Ht).
  cbn [parse_members]. rewrite skip_space_unit by done. change ((34 =? 34)%N) with true. cbv iota. rewrite Ht.
  cbn [mbind option_bind]. change (js ":" ++ json_text kv.2 ++ s) with (58%N :: json_text kv.2 ++ s).
  rewrite skip_space_unit by done. change ((58 =? 58)%N) with true. cbv iota. rewrite Hv. cbn [mbind option_bind].
  by destruct kv.
Qed.

Lemma members_read o kv fuel r :
  Forall (λ kv, wf_str kv.1 ∧ reads kv.2) (kv :: o) → (2 * length (join (js ",") (member_text <$> kv :: o)) + 1 < fuel)%nat →
  parse_members literal fuel (join (js ",") (member_text <$> kv :: o) ++ 125%N :: r) = Some (kv :: o, r).
Proof.
  assert (∀ kv, length (json_text kv.2) < length (member_text kv))%nat as Hlen.
  { intros kv'. unfold member_text, json_quote. rewrite !length_app. simpl. lia. }
  revert kv fuel. induction o as [|kv' o IH]; intros kv fuel Hr Hf; apply Forall_cons in Hr as [[Hk Hx] Hr]; pose proof (Hlen kv).
  - cbn [fmap list_fmap join] in Hf |- *. destruct fuel as [|fuel]; [lia|].
    rewrite parse_member; [done|done|]. apply Hx; [lia|done].
  - change (join (js ",") (member_text <$> kv :: kv' :: o)) with (member_text kv ++ 44%N :: join (js ",") (member_text <$> kv' :: o)) in Hf |- *.
    destruct fuel as [|fuel]; [lia|]. rewrite length_app in Hf. cbn [length] in Hf. rewrite <-app_assoc, <-app_comm_cons.
    rewrite parse_member; [|done|apply Hx; [lia|done]].
    rewrite skip_space_unit by done. change ((44 =? 44)%N) with true. cbv iota. by rewrite IH by (done || lia).
Qed.

Lemma fold_mset (o acc : obj) : NoDup (mkeys (acc ++ o)) → foldl (λ o kv, mset o kv.1 kv.2) acc o = acc ++ o.
Proof.
  revert acc. induction o as [|[k v] o IH]; intros acc Hn; simpl; [by rewrite app_nil_r|].
  rewrite mset_new.
  - rewrite IH; rewrite <-app_assoc; done.
  - apply mget_None. unfold mkeys in Hn |- *. rewrite fmap_app, fmap_cons in Hn. apply NoDup_app in Hn as (_ & Hn & _).
    intros Hin. apply (Hn k Hin). by left.
Qed.

Lemma literal_word word r : literal_text word (word ++ r) = Some r.
Proof. unfold literal_text. by rewrite take_app_length, str_eqb_refl, drop_app_length. Qed.

Lemma member_head kv o : ∃ t, join (js ",") (member_text <$> kv :: o) = 34%N :: t.
Proof.
  rewrite fmap_cons, join_cons. unfold member_text at 1, json_quote. rewrite <-!app_comm_cons. eauto.
Qed.

Lemma reads_all v : written v → reads v.
Proof.
  induction v as [|b|n|s|l IH|o IH] using json_nested_ind; intros Hw fuel r Hf Hd; (destruct fuel as [|fuel]; [lia|]); inversion_clear Hw.
  - cbn [json_text prim_text].
    change (js "null" ++ r) with (110%N :: js "ull" ++ r). cbn [parse_value].
    rewrite skip_space_unit by done. cbn [N.eqb Pos.eqb].
    change (110%N :: js "ull" ++ r) with (js "null" ++ r). by rewrite literal_word.
  - destruct b; cbn [json_text prim_text].
    + change (js "true" ++ r) with (116%N :: js "rue" ++ r). cbn [parse_value].
      rewrite skip_space_unit by done. cbn [N.eqb Pos.eqb].
      change (116%N :: js "rue" ++ r) with (js "true" ++ r). by rewrite literal_word.
    + change (js "false" ++ r) with (102%N :: js "alse" ++ r). cbn [parse_value].
      rewrite skip_space_unit by done. cbn [N.eqb Pos.eqb].
      change (102%N :: js "alse" ++ r) with (js "false" ++ r). by rewrite literal_word.
  - by apply parse_value_int.
  - cbn [json_text prim_text]. destruct (parse_json_quote s r ltac:(done)) as (t & -> & Ht). cbn [parse_value].
    rewrite skip_space_unit by done. cbn [N.eqb Pos.eqb]. by rewrite Ht.
  - cbn [json_text] in Hf |- *. rewrite <-!app_assoc. change (js "[" ++ ?x) with (91%N :: x). cbn [parse_value].
    rewrite skip_space_unit by done. cbn [N.eqb Pos.eqb]. change (js "]" ++ r) with (93%N :: r).
    destruct l as [|x l]; [done|].
    assert (Forall (reads) (x :: l)) as Hr.
    { rewrite Forall_forall in IH, H |- *. intros y Hy. apply IH; [done|]. by apply H. }
    assert (written x) as Hx by by apply Forall_cons in H as [? _].
    destruct (written_head x Hx) as (u & t & E & Hs & Hu).
    pose proof (items_read l x fuel r Hr) as Hi.
    rewrite !length_app in Hf. cbn [js length] in Hf.
    specialize (Hi ltac:(simpl in Hf |- *; lia)). rewrite Hi.
    rewrite fmap_cons, join_cons, E, <-!app_comm_cons, skip_space_unit by done. by rewrite Hu.
  - cbn [json_text] in Hf |- *. rewrite <-!app_assoc. change (js "{" ++ ?x) with (123%N :: x). cbn [parse_value].
    rewrite skip_space_unit by done. cbn [N.eqb Pos.eqb]. change (js "}" ++ r) with (125%N :: r).
    change ((λ kv, json_quote kv.1 ++ js ":" ++ json_text kv.2) <$> o) with (member_text <$> o) in Hf |- *.
    match goal with
    | Hk : Forall wf_str _, Hv : Forall (λ kv, written _) _, Ho : own_order _ = _ |- _ =>
        rename Hk into Hkeys, Hv into Hvals, Ho into Hown
    end.
    destruct o as [|kv o]; [done|].
    assert (Forall (λ kv, wf_str kv.1 ∧ reads kv.2) (kv :: o)) as Hr.
    { rewrite Forall_forall in IH. rewrite Forall_forall in Hkeys. rewrite Forall_forall in Hvals. rewrite Forall_forall. intros y Hy. split; [apply Hkeys; by apply list_elem_of_fmap_2|]. apply IH; [done|]. by apply Hvals. }
    pose proof (members_read o kv fuel r Hr) as Hi. rewrite !length_app in Hf. cbn [js length] in Hf.
    specialize (Hi ltac:(simpl in Hf |- *; lia)). rewrite Hi.
    destruct (member_head kv o) as [t ->]. rewrite <-app_comm_cons, skip_space_unit by done. cbn [N.eqb Pos.eqb].
    cbn [fmap option_fmap option_map prod_map compose]. unfold prod_map, compose. cbn [fst snd]. rewrite fold_mset by done.
    cbn [app]. by rewrite Hown.
Qed.

(** [JSON.parse(JSON.stringify(v))] *)
Lemma json_round_trip v : written v → json_parse literal (json_text v) = Some v.
Proof.
  intros Hw. unfold json_parse. pose proof (reads_all v Hw (S (2 * length (json_text v))) [] ltac:(lia) I) as Hr.
  rewrite app_nil_r in Hr. by rewrite Hr.
Qed.
End round_trip.
