(* ===== verification/RunRef.v ===== *)
(** * Run references and problems (http-api/src/run-ref.ts, problems.ts)

    The transport locator of a run: its id as unpadded base64url. Exactly the
    texts [encodeRunRef] gives for protocol identifiers decode, each to its own. *)

From S2P Require Import Prelude JsString JsBytes JsMap Json Codec JsEncoding.

Local Open Scope N_scope.

(** [PROTOCOL_IDENTIFIER]: one to 128 printable ASCII characters. *)
Definition PROTOCOL_IDENTIFIER (s : str) : bool := is_identifier s && (length s <=? 128)%nat.

(** [encodeRunRef] *)
Definition encodeRunRef (runId : str) : str := base64url (utf8_encode runId).

(** [decodeRunRef] *)
Definition decodeRunRef (runRef : str) : option str :=
  if negb (BASE64URL runRef) || (length runRef mod 4 =? 1)%nat then None
  else
    let runId := utf8_decode (from_base64url runRef) in
    if negb (PROTOCOL_IDENTIFIER runId) then None
    else if str_eqb (encodeRunRef runId) runRef then Some runId else None.

(** [isProtocolIdentifier], of a value [JSON.parse] gave. *)
Definition isProtocolIdentifier (value : option json) : option str :=
  match value with Some (JStr s) => if PROTOCOL_IDENTIFIER s then Some s else None | _ => None end.

Lemma identifier_ascii s : is_identifier s = true → ascii s ∧ s ≠ [].
Proof.
  unfold is_identifier. intros [Hn Hf]%andb_true_iff. apply negb_true_iff, bool_decide_eq_false in Hn. split; [|done].
  apply Forall_forall. intros u Hu. rewrite forallb_forall in Hf. apply list_elem_of_In, Hf in Hu.
  unfold in_range in Hu. rewrite andb_true_iff, !N.leb_le in Hu. lia.
Qed.

Lemma decode_encodeRunRef runId : PROTOCOL_IDENTIFIER runId = true → decodeRunRef (encodeRunRef runId) = Some runId.
Proof.
  intros Hid. pose proof Hid as Hid'. unfold PROTOCOL_IDENTIFIER in Hid'. apply andb_true_iff in Hid' as [Hi _].
  destruct (identifier_ascii _ Hi) as [Ha Hn]. unfold decodeRunRef.
  assert (utf8_encode runId ≠ []) as Hb.
  { destruct runId as [|u r]; [done|]. intros E. pose proof (utf8_encode_pos u r) as Hp. rewrite E in Hp. simpl in Hp. lia. }
  assert (BASE64URL (encodeRunRef runId) = true) as -> by by apply base64url_class.
  assert ((length (encodeRunRef runId) mod 4 =? 1)%nat = false) as -> by apply Nat.eqb_neq, base64url_length.
  assert (from_base64url (encodeRunRef runId) = utf8_encode runId) as -> by apply base64url_round_trip.
  rewrite utf8_decode_ascii, Hid, str_eqb_refl by done. done.
Qed.

(** A run reference has one spelling: [decodeRunRef] gives an id exactly when the id is a protocol identifier and
    the reference is what [encodeRunRef] writes for it. Padding, another alphabet, stray bits, and ids the protocol
    refuses decode to nothing, and two ids never share a reference. *)
Theorem run_ref_iff runRef runId :
  decodeRunRef runRef = Some runId ↔ PROTOCOL_IDENTIFIER runId = true ∧ runRef = encodeRunRef runId.
Proof.
  split; [|intros [Hid ->]; by apply decode_encodeRunRef].
  unfold decodeRunRef. destruct (_ || _); [done|]. destruct (PROTOCOL_IDENTIFIER _) eqn:Hid; [|done]. cbn [negb].
  destruct (str_eqb _ _) eqn:E; [|done]. intros [= <-]. split; [done|]. by apply str_eqb_eq in E.
Qed.

Example runref_slash : encodeRunRef (js "ci/7?a") = js "Y2kvNz9h".
Proof. reflexivity. Qed.
Example runref_padding : decodeRunRef (js "Y2kvNz9=") = None.
Proof. reflexivity. Qed.
Example runref_stray_bits : decodeRunRef (js "YR") = None ∧ decodeRunRef (js "YQ") = Some (js "a").
Proof. split; reflexivity. Qed.

(** ** Problems (http-api/src/problems.ts)

    Every refusal of the service: its code with the status and title it carries,
    and the problem document. *)

Local Open Scope Z_scope.

(** [PROBLEMS]: the codes, and what each one carries. *)
Inductive ProblemCode :=
| AUTHENTICATION_REQUIRED | FORBIDDEN | BAD_REQUEST | NOT_FOUND | METHOD_NOT_ALLOWED | RUN_CONFLICT
| PAYLOAD_TOO_LARGE | UNSUPPORTED_MEDIA_TYPE | RUN_INVALID | RUN_INCOMPLETE | RUN_EMPTY | INTERNAL_ERROR
| QUERY_INDEX_INCOMPLETE | NOT_READY.

#[export] Instance ProblemCode_dec : EqDecision ProblemCode.
Proof. solve_decision. Defined.

Definition code_name (c : ProblemCode) : str :=
  match c with
  | AUTHENTICATION_REQUIRED => js "AUTHENTICATION_REQUIRED" | FORBIDDEN => js "FORBIDDEN"
  | BAD_REQUEST => js "BAD_REQUEST" | NOT_FOUND => js "NOT_FOUND" | METHOD_NOT_ALLOWED => js "METHOD_NOT_ALLOWED"
  | RUN_CONFLICT => js "RUN_CONFLICT" | PAYLOAD_TOO_LARGE => js "PAYLOAD_TOO_LARGE"
  | UNSUPPORTED_MEDIA_TYPE => js "UNSUPPORTED_MEDIA_TYPE" | RUN_INVALID => js "RUN_INVALID"
  | RUN_INCOMPLETE => js "RUN_INCOMPLETE" | RUN_EMPTY => js "RUN_EMPTY" | INTERNAL_ERROR => js "INTERNAL_ERROR"
  | QUERY_INDEX_INCOMPLETE => js "QUERY_INDEX_INCOMPLETE" | NOT_READY => js "NOT_READY"
  end.

Definition PROBLEMS (c : ProblemCode) : Z * str :=
  match c with
  | AUTHENTICATION_REQUIRED => (401, js "Authentication required")
  | FORBIDDEN => (403, js "Forbidden")
  | BAD_REQUEST => (400, js "Bad request")
  | NOT_FOUND => (404, js "Not found")
  | METHOD_NOT_ALLOWED => (405, js "Method not allowed")
  | RUN_CONFLICT => (409, js "Run conflict")
  | PAYLOAD_TOO_LARGE => (413, js "Payload too large")
  | UNSUPPORTED_MEDIA_TYPE => (415, js "Unsupported media type")
  | RUN_INVALID => (422, js "Run invalid")
  | RUN_INCOMPLETE => (422, js "Run incomplete")
  | RUN_EMPTY => (422, js "Run empty")
  | INTERNAL_ERROR => (500, js "Internal error")
  | QUERY_INDEX_INCOMPLETE => (503, js "Query index incomplete")
  | NOT_READY => (503, js "Not ready")
  end.

(** [problemType]: the name in lower case, [-] for [_]. *)
Definition problemType (c : ProblemCode) : str :=
  js "urn:qe-report:problem:" ++ ((λ u, if (u =? 95)%N then 45%N else if is_upper u then (u + 32)%N else u) <$> code_name c).

(** [Problem]; the status is its code's. *)
Record Problem := { pb_code : ProblemCode; pb_detail : str; pb_extensions : obj }.
Definition pb_status (p : Problem) : Z := (PROBLEMS (pb_code p)).1.
Definition problem (c : ProblemCode) (detail : str) : Problem := {| pb_code := c; pb_detail := detail; pb_extensions := [] |}.

(** [problemBody]; an extension of the same name would replace a member. *)
Definition problemBody (p : Problem) (requestId : str) : obj :=
  foldl (λ o kv, mset o kv.1 kv.2)
    [(js "type", JStr (problemType (pb_code p))); (js "title", JStr (PROBLEMS (pb_code p)).2);
     (js "status", JNum (NInt (pb_status p))); (js "code", JStr (code_name (pb_code p)));
     (js "detail", JStr (pb_detail p)); (js "requestId", JStr requestId)]
    (pb_extensions p).

Example problem_type_conflict : problemType RUN_CONFLICT = js "urn:qe-report:problem:run-conflict".
Proof. reflexivity. Qed.
