(* ===== verification/Cursor.v ===== *)
(** * Continuation cursors (http-api/src/cursors.ts)

    A cursor is base64url of a small JSON document: a version, a kind, a position,
    and a binding, a digest over what the page is a page of. What was issued is
    read back in its own listing, and refused in any other. SHA-256 and the
    reading of unusual number literals are variables. *)

From Stdlib Require Import Strings.Byte.
From S2P Require Import Prelude JsString JsBytes JsMap JsSort Json Codec HistoryOrder JsNumber JsEncoding JsDate PwText JsonText RunRef.

Local Open Scope Z_scope.

Definition CURSOR_VERSION : Z := 1.
Definition MAX_CURSOR_LENGTH : Z := 2048.
Definition MAX_BIGINT : Z := 9223372036854775807.

(** [HistoryCursor] (postgres/src/queries.ts) *)
Record HistoryCursor := { hc_occurredAt : Date; hc_leap : Z; hc_runId : str; hc_executionId : str }.

(** ** Instants in cursors *)

(** [-\d{2}-\d{2}T\d{2}:\d{2}:\d{2}\.\d{3}Z]: month, day, hour, minute, second, millisecond. *)
Definition iso_rest (s : str) : option (Z * Z * Z * Z * Z * Z) :=
  s ← skip_char 45 s; '(mo, s) ← take_digits 2 s;
  s ← skip_char 45 s; '(d, s) ← take_digits 2 s;
  s ← skip_char 84 s; '(h, s) ← take_digits 2 s;
  s ← skip_char 58 s; '(mi, s) ← take_digits 2 s;
  s ← skip_char 58 s; '(sec, s) ← take_digits 2 s;
  s ← skip_char 46 s; '(ms, s) ← take_digits 3 s;
  s ← skip_char 90 s;
  if bool_decide (s = []) then
    Some (digits_value mo, digits_value d, digits_value h, digits_value mi, digits_value sec, digits_value ms)
  else None.

Definition iso_sign (s : str) : option bool * str :=
  match s with
  | u :: s' => if (u =? 43)%N then (Some true, s') else if (u =? 45)%N then (Some false, s') else (None, s)
  | [] => (None, s)
  end.

(** [ISO_INSTANT]: [^[+-]?\d{4,6}-\d{2}-\d{2}T\d{2}:\d{2}:\d{2}\.\d{3}Z$] *)
Definition ISO_INSTANT (s : str) : bool :=
  let '(ds, rest) := span_digits (iso_sign s).2 in
  (4 <=? length ds)%nat && (length ds <=? 6)%nat && bool_decide (is_Some (iso_rest rest)).

(** [new Date(s)] of a text in the format ECMA-262 gives dates: a year of four digits, or a signed one of six. What a
    [Date] makes of any other text is not looked at: the code compares [toISOString] with the text. *)
Definition date_of_iso (s : str) : Date :=
  let '(sign, s1) := iso_sign s in
  '(year, rest) ← take_digits (match sign with None => 4 | Some _ => 6 end) s1;
  '(mo, d, h, mi, sec, ms) ← iso_rest rest;
  let year := match sign with Some false => - digits_value year | _ => digits_value year end in
  if (mo <? 1) || (12 <? mo) || (d <? 1) || (month_days year mo <? d) || (23 <? h) || (59 <? mi) || (59 <? sec) then None
  else new_date ((((epoch_day year mo d * 24 + h) * 60 + mi) * 60 + sec) * 1000 + ms).

(** [occurredAt.toISOString() === text] of a valid date. *)
Definition same_instant (d : Date) (text : str) : bool :=
  match d with Some ms => str_eqb (toISOString ms) text | None => false end.

Section cursor.
Context (sha256 : bytes → bytes) (literal : str → num).

(** [binding] *)
Definition binding (parts : list str) : str := base64url (sha256 (utf8_encode (json_text (JArr (JStr <$> parts))))).

(** [encode] *)
Definition encode_cursor (document : obj) : str := base64url (utf8_encode (json_text (JObj document))).

(** [malformed] *)
Definition malformed : Problem := problem BAD_REQUEST (js "the cursor is not one this listing issued").

(** [decode] *)
Definition decode_cursor (cursor : str) (members : list str) : res Problem obj :=
  if (MAX_CURSOR_LENGTH <? slength cursor) || negb (BASE64URL cursor) then Throw malformed
  else
    let text := utf8_decode (from_base64url cursor) in
    if negb (str_eqb (base64url (utf8_encode text)) cursor) then Throw malformed
    else
      match json_parse literal text with
      | Some (JObj document) =>
          if negb (str_eqb (join (js ",") (sorted_keys document)) (join (js ",") (sort compare members))) then Throw malformed
          else match mget document (js "v") with
          | Some (JNum (NInt v)) => if v =? CURSOR_VERSION then Ok document else Throw malformed
          | _ => Throw malformed
          end
      | _ => Throw malformed
      end.

Definition is_text (v : option json) (s : str) : bool :=
  match v with Some (JStr t) => str_eqb t s | _ => false end.

Definition runs_binding (projectId : str) : str := binding [js "runs"; projectId].

(** [encodeRunsCursor] *)
Definition encodeRunsCursor (projectId : str) (beforeIngestionSequence : Z) : str :=
  encode_cursor [(js "v", JNum (NInt CURSOR_VERSION)); (js "k", JStr (js "runs"));
                 (js "b", JStr (runs_binding projectId)); (js "s", JStr (dec beforeIngestionSequence))].

(** [/^(0|[1-9][0-9]{0,18})$/u] *)
Definition is_sequence (s : str) : bool :=
  str_eqb s (js "0") ||
  (match s with u :: s' => in_range 49 57 u && forallb is_digit s' | [] => false end && (length s <=? 19)%nat).

(** [decodeRunsCursor] *)
Definition decodeRunsCursor (projectId cursor : str) : res Problem Z :=
  d ← decode_cursor cursor [js "v"; js "k"; js "b"; js "s"];
  if negb (is_text (mget d (js "k")) (js "runs")) || negb (is_text (mget d (js "b")) (runs_binding projectId)) then Throw malformed
  else match mget d (js "s") with
  | Some (JStr s) =>
      if negb (is_sequence s) then Throw malformed
      else if MAX_BIGINT <? undec s then Throw malformed else Ok (undec s)
  | _ => Throw malformed
  end.

Definition history_binding (projectId runnerName historicalId : str) : str :=
  binding [js "history"; projectId; runnerName; historicalId].

(** [encodeHistoryCursor]; an invalid date makes [toISOString] throw a [RangeError], which is [None] here. *)
Definition encodeHistoryCursor (projectId runnerName historicalId : str) (after : HistoryCursor) : option str :=
  t ← toISOString <$> hc_occurredAt after;
  Some (encode_cursor
    [(js "v", JNum (NInt CURSOR_VERSION)); (js "k", JStr (js "history"));
     (js "b", JStr (history_binding projectId runnerName historicalId)); (js "t", JStr t);
     (js "l", JNum (NInt (hc_leap after))); (js "r", JStr (hc_runId after)); (js "e", JStr (hc_executionId after))]).

(** [decodeHistoryCursor] *)
Definition decodeHistoryCursor (projectId runnerName historicalId cursor : str) : res Problem HistoryCursor :=
  d ← decode_cursor cursor [js "v"; js "k"; js "b"; js "t"; js "l"; js "r"; js "e"];
  if negb (is_text (mget d (js "k")) (js "history"))
     || negb (is_text (mget d (js "b")) (history_binding projectId runnerName historicalId)) then Throw malformed
  else match mget d (js "t") with
  | Some (JStr t) =>
      if negb (ISO_INSTANT t) then Throw malformed
      else
        let occurredAt := date_of_iso t in
        if negb (same_instant occurredAt t) then Throw malformed
        else match mget d (js "l") with
        | Some (JNum (NInt l)) =>
            if (l <? 0) || (1000 <? l) then Throw malformed
            else match isProtocolIdentifier (mget d (js "r")), isProtocolIdentifier (mget d (js "e")) with
            | Some r, Some e => Ok {| hc_occurredAt := occurredAt; hc_leap := l; hc_runId := r; hc_executionId := e |}
            | _, _ => Throw malformed
            end
        | _ => Throw malformed
        end
  | _ => Throw malformed
  end.
End cursor.

(** ** What a cursor is worth

    A cursor read back in the listing that issued it gives the position it was
    issued for; in another listing, another history, or under another project it
    is refused. The digest is taken to be 32 bytes long, as SHA-256's is. *)

(** ** The text of a document is ASCII, and not long *)

Definition printable (s : str) : Prop := Forall (λ u, 32 <= u < 127)%N s.

Lemma printable_ascii s : printable s → ascii s.
Proof. intros Hs. eapply Forall_impl; [exact Hs|]. simpl. lia. Qed.
Lemma printable_wf s : printable s → wf_str s.
Proof. intros Hs. eapply Forall_impl; [exact Hs|]. simpl. lia. Qed.
Lemma printable_app s t : printable s → printable t → printable (s ++ t).
Proof. intros. by apply Forall_app. Qed.

(** A literal. *)
Definition is_printable (s : str) : bool := forallb (in_range 32 126) s.
Lemma printable_literal s : is_printable s = true → printable s.
Proof.
  unfold is_printable. intros Hs. apply Forall_forall. intros u Hu. rewrite forallb_forall in Hs.
  apply list_elem_of_In, Hs in Hu. unfold in_range in Hu. rewrite andb_true_iff, !N.leb_le in Hu. lia.
Qed.

Lemma printable_unit u : (32 <= u < 127)%N → printable (quote_unit u) ∧ (length (quote_unit u) <= 2)%nat.
Proof.
  intros Hu. unfold quote_unit.
  repeat match goal with
  | |- context [if (u =? ?n)%N then _ else _] => destruct (N.eqb_spec u n); [split; [repeat first [apply Forall_nil_2|apply Forall_cons_2; [lia|]]|simpl; lia]|]
  end.
  rewrite (proj2 (N.ltb_ge u 32)) by lia. split; [by repeat first [apply Forall_nil_2|apply Forall_cons_2; [lia|]]|simpl; lia].
Qed.

Lemma printable_not_surrogate u : (32 <= u < 127)%N → is_surrogate u = false ∧ is_high_surrogate u = false.
Proof. intros. apply ascii_not_surrogate. lia. Qed.

Lemma quote_printable s : printable s → printable (json_quote s) ∧ (length (json_quote s) <= 2 * length s + 2)%nat.
Proof.
  intros Hs. assert (printable (quote_body s) ∧ (length (quote_body s) <= 2 * length s)%nat) as [H1 H2].
  { induction Hs as [|u s Hu Hs IH]; [split; [apply Forall_nil_2|simpl; lia]|]. destruct (printable_not_surrogate u Hu) as [E1 E2], (printable_unit u Hu) as [U1 U2].
    destruct s as [|v s]; [cbn [quote_body]; rewrite E1; split; [done|simpl; lia]|].
    rewrite quote_body_cons2, E2, E1. cbn [andb]. destruct IH as [I1 I2]. split; [by apply printable_app|].
    rewrite length_app. simpl in *. lia. }
  unfold json_quote. split.
  - apply Forall_cons_2; [lia|]. apply printable_app; [done|]. apply Forall_cons_2; [lia|done].
  - simpl. rewrite length_app. simpl. lia.
Qed.

Lemma dec_printable z : printable (dec z).
Proof.
  pose proof (dec_num_chars z) as Hd. apply Forall_forall. intros u Hu. rewrite forallb_forall in Hd.
  apply list_elem_of_In, Hd in Hu. unfold is_num_char, is_digit, in_range in Hu.
  rewrite !orb_true_iff, andb_true_iff, !N.leb_le, !N.eqb_eq in Hu. lia.
Qed.

(** A member: its key and a printable primitive, at most [n] units long in all, the comma counted. *)
Definition short_member (n : nat) (kv : str * json) : Prop :=
  printable (member_text kv) ∧ (length (member_text kv) + 1 <= n)%nat.

Lemma join_members (ns : list nat) (o : obj) :
  Forall2 short_member ns o → printable (join (js ",") (member_text <$> o)) ∧
  (length (join (js ",") (member_text <$> o)) <= list_sum ns)%nat.
Proof.
  destruct 1 as [|n kv ns o [Hp Hn] Ho]; [split; [apply Forall_nil_2|simpl; lia]|]. rewrite fmap_cons, join_cons.
  assert (printable (tail_text (member_text <$> o)) ∧ (length (tail_text (member_text <$> o)) <= list_sum ns)%nat) as [H1 H2].
  { clear Hp Hn. induction Ho as [|m kv' ns o [Hp Hn] Ho [I1 I2]]; [split; [apply Forall_nil_2|simpl; lia]|]. rewrite fmap_cons.
    change (tail_text (member_text kv' :: (member_text <$> o))) with ((js "," ++ member_text kv') ++ tail_text (member_text <$> o)).
    split.
    - apply printable_app; [|done]. by apply printable_app; [apply printable_literal|].
    - rewrite !length_app. change (length (js ",")) with 1%nat. change (list_sum (m :: ns)) with (m + list_sum ns)%nat. lia. }
  split; [by apply printable_app|]. rewrite length_app. change (list_sum (n :: ns)) with (n + list_sum ns)%nat. lia.
Qed.

(** ** Instants *)

Lemma iso_rest_text mo d h mi sec ms :
  iso_rest (js "-" ++ fixed 2 mo ++ js "-" ++ fixed 2 d ++ js "T" ++ fixed 2 h ++ js ":" ++ fixed 2 mi ++ js ":" ++ fixed 2 sec
            ++ js "." ++ fixed 3 ms ++ js "Z") =
  Some (mo mod 100, d mod 100, h mod 100, mi mod 100, sec mod 100, ms mod 1000).
Proof.
  unfold iso_rest.
  assert (∀ c n x r, take_digits n (fixed n x ++ r) = Some (fixed n x, r) ∧ skip_char c ([c] ++ r) = Some r) as Hstep.
  { intros c n x r. split; [apply take_digits_app, fixed_digit_text|apply skip_char_cons]. }
  change (js "-") with [45%N]. change (js "T") with [84%N]. change (js ":") with [58%N]. change (js ".") with [46%N].
  repeat (rewrite (proj2 (Hstep _ 0%nat 0 _)); cbn [mbind option_bind]; rewrite (proj1 (Hstep 0%N _ _ _)); cbn [mbind option_bind]).
  change (js "Z") with ([90%N] ++ []). rewrite (proj2 (Hstep _ 0%nat 0 _)). cbn [mbind option_bind]. by rewrite !fixed_value.
Qed.

(** The time after the year. *)
Definition iso_tail (month day clock : Z) : str :=
  js "-" ++ fixed 2 month ++ js "-" ++ fixed 2 day ++ js "T" ++ fixed 2 (clock / 3600000) ++ js ":"
    ++ fixed 2 (clock / 60000 mod 60) ++ js ":" ++ fixed 2 (clock / 1000 mod 60) ++ js "." ++ fixed 3 (clock mod 1000) ++ js "Z".

Lemma toISOString_parts ms :
  toISOString ms = iso_year (civil (ms / 86400000)).1.1
    ++ iso_tail (civil (ms / 86400000)).1.2 (civil (ms / 86400000)).2 (ms mod 86400000).
Proof. unfold toISOString, iso_tail. by destruct (civil _) as [[y m] d]. Qed.

Lemma fixed_cons n z : ∃ u t, fixed (S n) z = u :: t ∧ is_digit u = true.
Proof.
  destruct (fixed_digit_text (S n) z) as [Hl Hd]. destruct (fixed (S n) z) as [|u t]; [done|].
  exists u, t. split; [done|]. by apply andb_true_iff in Hd as [? _].
Qed.

(** A year of the range of dates, and its sign. *)
Lemma iso_year_split y r : -1000000 < y < 1000000 →
  ∃ sign n v, iso_sign (iso_year y ++ r) = (sign, fixed n v ++ r) ∧ (n = match sign with None => 4 | Some _ => 6 end)%nat ∧
    0 <= v < 10 ^ Z.of_nat n ∧ y = match sign with Some false => - v | _ => v end.
Proof.
  intros Hy. unfold iso_year. destruct (Z.leb_spec 0 y), (Z.leb_spec y 9999); cbn [andb].
  - exists None, 4%nat, y. split_and!; [|done|lia|lia|done]. destruct (fixed_cons 3 y) as (u & t & E & Hu). rewrite E.
    cbn [app iso_sign]. unfold is_digit, in_range in Hu. rewrite andb_true_iff, !N.leb_le in Hu.
    by rewrite !(proj2 (N.eqb_neq u _)) by lia.
  - exists (Some true), 6%nat, y. rewrite (proj2 (Z.ltb_ge y 0)), Z.abs_eq by lia. split_and!; [done|done|lia|lia|done].
  - exists (Some false), 6%nat, (- y). rewrite (proj2 (Z.ltb_lt y 0)), Z.abs_neq by lia. split_and!; [done|done|lia|lia|lia].
  - lia.
Qed.

Lemma civil_year_range ms : Z.abs ms <= MAX_TIME → -1000000 < (civil (ms / 86400000)).1.1 < 1000000.
Proof.
  unfold MAX_TIME. intros Hm. pose proof (civil_spec (ms / 86400000)) as Hc. destruct (civil _) as [[y m] d]. simpl.
  destruct Hc as (_ & _ & _ & Hy). change (days_before_year 1970) with 719528 in Hy.
  assert (-100000000 <= ms / 86400000 <= 100000000) by (Z.to_euclidean_division_equations; lia).
  split.
  - destruct (Z.lt_ge_cases (-1000000) y) as [|Hn]; [done|].
    pose proof (days_before_year_mono (y + 1) (-999999) ltac:(lia)) as Hd. change (days_before_year (-999999)) with (-365242134) in Hd. lia.
  - destruct (Z.lt_ge_cases y 1000000) as [|Hn]; [done|].
    pose proof (days_before_year_mono 1000000 y ltac:(lia)) as Hd. change (days_before_year 1000000) with 365242500 in Hd. lia.
Qed.

Lemma iso_tail_rest mo d clock : 1 <= mo <= 12 → 1 <= d <= 31 → 0 <= clock < 86400000 →
  iso_rest (iso_tail mo d clock) =
  Some (mo, d, clock / 3600000, clock / 60000 mod 60, clock / 1000 mod 60, clock mod 1000).
Proof.
  intros Hm Hd Hc. unfold iso_tail. rewrite iso_rest_text.
  pose proof (Z.mod_pos_bound (clock / 60000) 60 ltac:(lia)). pose proof (Z.mod_pos_bound (clock / 1000) 60 ltac:(lia)).
  pose proof (Z.mod_pos_bound clock 1000 ltac:(lia)). assert (0 <= clock / 3600000 < 24) by (Z.to_euclidean_division_equations; lia).
  rewrite (Z.mod_small mo), (Z.mod_small d), (Z.mod_small (clock / 3600000)), (Z.mod_small (clock / 60000 mod 60)),
    (Z.mod_small (clock / 1000 mod 60)), (Z.mod_small (clock mod 1000) 1000) by lia. done.
Qed.

Lemma month_days_bound y m : month_days y m <= 31.
Proof. unfold month_days. destruct ((m =? 2) && leapYear y); [lia|]. destruct (Z.to_nat m) as [|[|[|[|[|[|[|[|[|[|[|[|[|]]]]]]]]]]]]]; simpl; lia. Qed.

Lemma date_of_iso_text ms : Z.abs ms <= MAX_TIME → date_of_iso (toISOString ms) = Some ms.
Proof.
  intros Hm. rewrite toISOString_parts. pose proof (civil_year_range ms Hm) as Hy. pose proof (civil_spec (ms / 86400000)) as Hc.
  destruct (civil (ms / 86400000)) as [[y mo] d]. cbn [fst snd] in *. destruct Hc as (Hmo & Hd & He & _).
  pose proof (month_days_bound y mo).
  destruct (iso_year_split y (iso_tail mo d (ms mod 86400000)) Hy) as (sign & n & v & Es & Hn & Hv & Ey).
  unfold date_of_iso. rewrite Es, <-Hn, take_digits_app by apply fixed_digit_text. cbn [mbind option_bind].
  rewrite iso_tail_rest by (try lia; apply Z.mod_pos_bound; lia). cbn [mbind option_bind].
  rewrite fixed_small by done. rewrite <-Ey.
  rewrite (proj2 (Z.ltb_ge mo 1)), (proj2 (Z.ltb_ge 12 mo)), (proj2 (Z.ltb_ge d 1)), (proj2 (Z.ltb_ge (month_days y mo) d)) by lia.
  rewrite !(proj2 (Z.ltb_ge _ _)) by (Z.to_euclidean_division_equations; lia). cbn [orb].
  rewrite He. assert ((((ms / 86400000 * 24 + ms mod 86400000 / 3600000) * 60 + ms mod 86400000 / 60000 mod 60) * 60
    + ms mod 86400000 / 1000 mod 60) * 1000 + ms mod 86400000 mod 1000 = ms) as -> by (Z.to_euclidean_division_equations; lia).
  unfold new_date. by rewrite (proj2 (Z.leb_le _ _)).
Qed.

Lemma iso_instant_text ms : Z.abs ms <= MAX_TIME → ISO_INSTANT (toISOString ms) = true.
Proof.
  intros Hm. rewrite toISOString_parts. pose proof (civil_year_range ms Hm) as Hy. pose proof (civil_spec (ms / 86400000)) as Hc.
  destruct (civil (ms / 86400000)) as [[y mo] d]. cbn [fst snd] in *. destruct Hc as (Hmo & Hd & _ & _).
  pose proof (month_days_bound y mo).
  destruct (iso_year_split y (iso_tail mo d (ms mod 86400000)) Hy) as (sign & n & v & Es & Hn & _ & _).
  unfold ISO_INSTANT. rewrite Es. cbn [snd]. rewrite span_digits_app by (apply fixed_digit_text || done).
  rewrite iso_tail_rest by (try lia; apply Z.mod_pos_bound; lia).
  destruct (fixed_digit_text n v) as [-> _]. rewrite bool_decide_eq_true_2 by done. by destruct sign as [[]|]; rewrite Hn.
Qed.

Lemma digits_printable n z : printable (fixed n z).
Proof.
  destruct (fixed_digit_text n z) as [_ Hd]. apply Forall_forall. intros u Hu. rewrite forallb_forall in Hd.
  apply list_elem_of_In, Hd in Hu. unfold is_digit, in_range in Hu. rewrite andb_true_iff, !N.leb_le in Hu. lia.
Qed.

Lemma toISOString_printable ms : printable (toISOString ms) ∧ (length (toISOString ms) <= 27)%nat.
Proof.
  rewrite toISOString_parts. destruct (civil _) as [[y mo] d]. cbn [fst snd].
  assert (printable (iso_year y) ∧ (length (iso_year y) <= 7)%nat) as [Y1 Y2].
  { unfold iso_year. destruct (_ && _).
    - split; [apply digits_printable|]. destruct (fixed_digit_text 4 y) as [-> _]. lia.
    - split; [apply printable_app; [destruct (y <? 0); by apply printable_literal|apply digits_printable]|].
      rewrite length_app. destruct (fixed_digit_text 6 (Z.abs y)) as [-> _]. destruct (y <? 0); simpl; lia. }
  assert (∀ n z, length (fixed n z) = n) as Hl by (intros n z; apply fixed_digit_text).
  split.
  - apply printable_app; [done|]. unfold iso_tail.
    repeat first [apply digits_printable|by apply printable_literal|apply printable_app].
  - rewrite length_app. unfold iso_tail. rewrite !length_app, !Hl. simpl. lia.
Qed.

(** ** Encoding and decoding a document *)

Section cursors.
Context (sha256 : bytes → bytes) (literal : str → num).
Context (digest_length : ∀ b, length (sha256 b) = 32%nat).

Lemma binding_text parts : printable (binding sha256 parts) ∧ (length (binding sha256 parts) <= 43)%nat.
Proof.
  unfold binding. set (d := sha256 _). split.
  - pose proof (base64url_alphabet d) as Ha. apply Forall_forall. intros u Hu. rewrite forallb_forall in Ha.
    apply list_elem_of_In, Ha in Hu. unfold is_base64url_unit, is_alnum, is_digit, is_upper, is_lower, in_range in Hu.
    rewrite !orb_true_iff, !andb_true_iff, !N.leb_le, !N.eqb_eq in Hu. lia.
  - destruct (base64url_length d) as [_ Hl]. unfold d in *. rewrite digest_length in Hl. lia.
Qed.

Lemma short_string k t m :
  is_printable k = true → printable t → (length t <= m)%nat → short_member (2 * length k + 2 * m + 6) (k, JStr t).
Proof.
  intros Hk Ht Hm. destruct (quote_printable k (printable_literal k Hk)) as [K1 K2], (quote_printable t Ht) as [T1 T2].
  unfold short_member, member_text. cbn [fst snd json_text prim_text]. split.
  - apply printable_app; [done|]. apply printable_app; [by apply printable_literal|done].
  - rewrite !length_app. change (length (js ":")) with 1%nat. lia.
Qed.

Lemma short_int k z : is_printable k = true → 0 <= z < 10000 → short_member (2 * length k + 8) (k, JNum (NInt z)).
Proof.
  intros Hk Hz. destruct (quote_printable k (printable_literal k Hk)) as [K1 K2].
  pose proof (dec_length_bound z 4 ltac:(lia) ltac:(done)). unfold short_member, member_text.
  cbn [fst snd json_text prim_text num_text]. split.
  - apply printable_app; [done|]. apply printable_app; [by apply printable_literal|apply dec_printable].
  - rewrite !length_app. change (length (js ":")) with 1%nat. lia.
Qed.

(** The members of a cursor: short texts and small numbers. *)
Inductive cursor_member : nat → str * json → Prop :=
| cm_str k t m : is_printable k = true → printable t → (length t <= m)%nat → cursor_member (2 * length k + 2 * m + 6) (k, JStr t)
| cm_int k z : is_printable k = true → 0 <= z < 10000 → cursor_member (2 * length k + 8) (k, JNum (NInt z)).

Lemma cursor_members_short ns o : Forall2 cursor_member ns o → Forall2 short_member ns o.
Proof. induction 1 as [|n kv ns o []]; constructor; auto using short_string, short_int. Qed.

Lemma cursor_members_written ns (o : obj) :
  Forall2 cursor_member ns o → NoDup (mkeys o) → own_order o = o → written (JObj o).
Proof.
  intros Hm Hn Ho. constructor; [done| | |done].
  - clear Hn Ho. induction Hm as [|n kv ns o Hk Hm IH]; constructor; [|done].
    destruct Hk; by apply printable_wf, printable_literal.
  - clear Hn Ho. induction Hm as [|n kv ns o Hk Hm IH]; constructor; [|done].
    destruct Hk; constructor; [by apply printable_wf|lia].
Qed.

Lemma decode_encode_cursor ns (o : obj) members :
  Forall2 cursor_member ns o → (list_sum ns <= 1530)%nat → NoDup (mkeys o) → own_order o = o →
  mget o (js "v") = Some (JNum (NInt CURSOR_VERSION)) →
  decode_cursor literal (encode_cursor o) members =
    if str_eqb (join (js ",") (sorted_keys o)) (join (js ",") (sort compare members)) then Ok o else Throw malformed.
Proof.
  intros Hm Hn Hd Ho Hv. pose proof (cursor_members_written ns o Hm Hd Ho) as Hw.
  destruct (join_members ns o (cursor_members_short ns o Hm)) as [Hp Hl].
  assert (ascii (json_text (JObj o)) ∧ (length (json_text (JObj o)) <= 1532)%nat) as [Ha Hlen].
  { cbn [json_text]. change ((λ kv, json_quote kv.1 ++ js ":" ++ json_text kv.2) <$> o) with (member_text <$> o). split.
    - apply printable_ascii. repeat apply printable_app; [by apply printable_literal|done|by apply printable_literal].
    - rewrite !length_app. simpl. lia. }
  unfold decode_cursor, encode_cursor. set (text := json_text (JObj o)) in *.
  assert (utf8_encode text ≠ []) as Hne.
  { rewrite utf8_encode_ascii by done. unfold text. cbn [json_text]. by destruct (member_text <$> o). }
  destruct (base64url_length (utf8_encode text)) as [_ Hbl]. rewrite utf8_encode_ascii_length in Hbl by done.
  rewrite (proj2 (Z.ltb_ge _ _)) by (unfold MAX_CURSOR_LENGTH; lia).
  rewrite base64url_class by done. cbn [negb orb]. rewrite base64url_round_trip, utf8_decode_ascii, str_eqb_refl by done.
  cbn [negb]. unfold text. rewrite json_round_trip by done. destruct (str_eqb _ _); cbn [negb]; [|done]. by rewrite Hv.
Qed.

Lemma is_text_eq s : is_text (Some (JStr s)) s = true.
Proof. apply str_eqb_refl. Qed.

(** ** Run listings *)

Lemma sequence_text s : 0 <= s <= MAX_BIGINT → is_sequence (dec s) = true.
Proof.
  intros Hs. unfold is_sequence. destruct (decide (s = 0)) as [->|Hne]; [reflexivity|].
  pose proof (dec_length_bound s 19 ltac:(lia) ltac:(unfold MAX_BIGINT in Hs; lia)) as Hl%Nat.leb_le. rewrite Hl, andb_true_r.
  apply orb_true_iff. right. pose proof (dec_nonneg_head s ltac:(lia)) as Hh. pose proof (dec_nonneg_digits s ltac:(lia)) as Hd.
  unfold dec. rewrite (proj2 (Z.ltb_ge s 0)) by lia. destruct (dec_nonneg_cons s) as (u & t & E). rewrite E in *.
  cbn [forallb] in Hd. apply andb_true_iff in Hd as [Hu Ht]. rewrite Ht, andb_true_r.
  unfold is_digit, in_range in *. apply andb_true_iff in Hu as [Hu1%N.leb_le Hu2%N.leb_le]. cbn [head] in Hh.
  assert (u ≠ 48%N) by congruence. apply andb_true_iff. rewrite !N.leb_le. lia.
Qed.

Lemma runs_cursor_document p s : 0 <= s <= MAX_BIGINT →
  ∃ o, encodeRunsCursor sha256 p s = encode_cursor o ∧ o = [(js "v", JNum (NInt CURSOR_VERSION)); (js "k", JStr (js "runs"));
                 (js "b", JStr (runs_binding sha256 p)); (js "s", JStr (dec s))] ∧
  ∀ members, decode_cursor literal (encode_cursor o) members =
    if str_eqb (js "b,k,s,v") (join (js ",") (sort compare members)) then Ok o else Throw malformed.
Proof.
  intros Hs. eexists. split; [reflexivity|]. split; [reflexivity|]. destruct (binding_text [js "runs"; p]) as [B1 B2].
  assert (printable (dec s) ∧ (length (dec s) <= 19)%nat) as [D1 D2].
  { split; [apply dec_printable|]. apply dec_length_bound; [lia|unfold MAX_BIGINT in Hs; lia]. }
  intros members. etrans; [apply (decode_encode_cursor [10; 2 * 1 + 2 * 4 + 6; 2 * 1 + 2 * 43 + 6; 2 * 1 + 2 * 19 + 6]%nat)|reflexivity];
    [|simpl; lia|apply (bool_decide_unpack _); by vm_compute|reflexivity..].
  repeat apply Forall2_cons_2; [apply (cm_int (js "v")); [done|unfold CURSOR_VERSION; lia]|apply (cm_str (js "k"))
    |apply (cm_str (js "b"))|apply (cm_str (js "s"))|apply Forall2_nil_2].
  all: first [done|by apply printable_literal|simpl; lia].
Qed.

Lemma runs_cursor_read p p' s : 0 <= s <= MAX_BIGINT →
  decodeRunsCursor sha256 literal p' (encodeRunsCursor sha256 p s) =
  if str_eqb (runs_binding sha256 p) (runs_binding sha256 p') then Ok s else Throw malformed.
Proof.
  intros Hs. destruct (runs_cursor_document p s Hs) as (o & -> & -> & Hd). unfold decodeRunsCursor. rewrite Hd. change (str_eqb _ _) with true at 1. cbv iota.
  cbn [mbind res_mbind res_bind]. change (is_text (mget _ (js "k")) (js "runs")) with true.
  change (is_text (mget _ (js "b")) ?b) with (str_eqb (runs_binding sha256 p) b). cbn [negb orb].
  destruct (str_eqb (runs_binding sha256 p) (runs_binding sha256 p')); [|done]. cbn [negb].
  change (mget _ (js "s")) with (Some (JStr (dec s))). cbv iota beta. rewrite sequence_text by done. cbn [negb].
  rewrite undec_dec. by rewrite (proj2 (Z.ltb_ge _ _)) by lia.
Qed.

(** ** Histories *)

Lemma identifier_printable r : PROTOCOL_IDENTIFIER r = true → printable r ∧ (length r <= 128)%nat.
Proof.
  unfold PROTOCOL_IDENTIFIER, is_identifier. rewrite !andb_true_iff, Nat.leb_le. intros [[_ Hf] Hl]. split; [|done].
  apply Forall_forall. intros u Hu. rewrite forallb_forall in Hf. apply list_elem_of_In, Hf in Hu.
  unfold in_range in Hu. rewrite andb_true_iff, !N.leb_le in Hu. lia.
Qed.

(** A position a history page ends at. *)
Record position (c : HistoryCursor) (ms : Z) : Prop := {
  po_instant : hc_occurredAt c = Some ms;
  po_date : Z.abs ms <= MAX_TIME;
  po_leap : 0 <= hc_leap c <= 1000;
  po_run : PROTOCOL_IDENTIFIER (hc_runId c) = true;
  po_execution : PROTOCOL_IDENTIFIER (hc_executionId c) = true;
}.

Lemma history_cursor_document p runner h c ms : position c ms →
  ∃ o, encodeHistoryCursor sha256 p runner h c = Some (encode_cursor o) ∧
  o = [(js "v", JNum (NInt CURSOR_VERSION)); (js "k", JStr (js "history"));
       (js "b", JStr (history_binding sha256 p runner h)); (js "t", JStr (toISOString ms));
       (js "l", JNum (NInt (hc_leap c))); (js "r", JStr (hc_runId c)); (js "e", JStr (hc_executionId c))] ∧
  ∀ members, decode_cursor literal (encode_cursor o) members =
    if str_eqb (js "b,e,k,l,r,t,v") (join (js ",") (sort compare members)) then Ok o else Throw malformed.
Proof.
  intros [Hi Hd Hl Hr He]. eexists. split; [unfold encodeHistoryCursor; rewrite Hi; reflexivity|]. split; [reflexivity|].
  destruct (binding_text [js "history"; p; runner; h]) as [B1 B2], (toISOString_printable ms) as [T1 T2].
  destruct (identifier_printable _ Hr) as [R1 R2], (identifier_printable _ He) as [E1 E2].
  intros members. etrans; [apply (decode_encode_cursor [10; 2 * 1 + 2 * 7 + 6; 2 * 1 + 2 * 43 + 6; 2 * 1 + 2 * 27 + 6; 10; 2 * 1 + 2 * 128 + 6; 2 * 1 + 2 * 128 + 6]%nat)|reflexivity];
    [|simpl; lia|apply (bool_decide_unpack _); by vm_compute|reflexivity..].
  repeat apply Forall2_cons_2; [apply (cm_int (js "v")); [done|unfold CURSOR_VERSION; lia]|apply (cm_str (js "k"))
    |apply (cm_str (js "b"))|apply (cm_str (js "t"))|apply (cm_int (js "l"))|apply (cm_str (js "r"))|apply (cm_str (js "e"))|apply Forall2_nil_2].
  all: first [done|by apply printable_literal|simpl; lia].
Qed.

Lemma history_cursor_read p runner h p' runner' h' c ms : position c ms →
  ∃ t, encodeHistoryCursor sha256 p runner h c = Some t ∧
  decodeHistoryCursor sha256 literal p' runner' h' t =
  if str_eqb (history_binding sha256 p runner h) (history_binding sha256 p' runner' h') then Ok c else Throw malformed.
Proof.
  intros Hp. destruct (history_cursor_document p runner h c ms Hp) as (o & -> & -> & Hd). eexists. split; [reflexivity|].
  destruct Hp as [Hi Hm Hl Hr He]. unfold decodeHistoryCursor. rewrite Hd. change (str_eqb _ _) with true at 1. cbv iota. cbn [mbind res_mbind res_bind].
  change (is_text (mget _ (js "k")) (js "history")) with true.
  change (is_text (mget _ (js "b")) ?b) with (str_eqb (history_binding sha256 p runner h) b). cbn [negb orb].
  destruct (str_eqb _ (history_binding sha256 p' runner' h')); [|done]. cbn [negb].
  change (mget _ (js "t")) with (Some (JStr (toISOString ms))). cbv iota beta zeta. rewrite iso_instant_text by done. cbn [negb].
  rewrite date_of_iso_text by done. cbn [same_instant]. rewrite str_eqb_refl. cbn [negb].
  change (mget _ (js "l")) with (Some (JNum (NInt (hc_leap c)))). cbv iota beta.
  rewrite !(proj2 (Z.ltb_ge _ _)) by lia. cbn [orb].
  change (mget _ (js "r")) with (Some (JStr (hc_runId c))). change (mget _ (js "e")) with (Some (JStr (hc_executionId c))).
  cbn [isProtocolIdentifier]. rewrite Hr, He. destruct c. simpl in *. by subst.
Qed.

(** A digest tells these two lists apart. *)
Definition told_apart (parts parts' : list str) : Prop :=
  sha256 (utf8_encode (json_text (JArr (JStr <$> parts)))) = sha256 (utf8_encode (json_text (JArr (JStr <$> parts')))) → parts = parts'.

Lemma binding_differs parts parts' : told_apart parts parts' → parts ≠ parts' → str_eqb (binding sha256 parts) (binding sha256 parts') = false.
Proof.
  intros Ht Hne. apply str_eqb_neq. intros E. apply Hne, Ht. unfold binding in E.
  apply (f_equal from_base64url) in E. by rewrite !base64url_round_trip in E.
Qed.

(** A cursor of a run listing continues exactly where its page ended, in its own project; handed back for another
    project, or as a history's cursor, it is refused with the one answer every malformed cursor gets. *)
Theorem runs_cursor_continues_its_listing p p' s :
  0 <= s <= MAX_BIGINT → told_apart [js "runs"; p] [js "runs"; p'] →
  decodeRunsCursor sha256 literal p (encodeRunsCursor sha256 p s) = Ok s ∧
  (p ≠ p' → decodeRunsCursor sha256 literal p' (encodeRunsCursor sha256 p s) = Throw malformed) ∧
  ∀ runner h, decodeHistoryCursor sha256 literal p' runner h (encodeRunsCursor sha256 p s) = Throw malformed.
Proof.
  intros Hs Ht. split; [by rewrite runs_cursor_read, str_eqb_refl|]. split.
  - intros Hne. rewrite runs_cursor_read by done. unfold runs_binding. rewrite binding_differs; [done|done|]. by intros [= ?].
  - intros runner h. destruct (runs_cursor_document p s Hs) as (o & -> & _ & Hd). unfold decodeHistoryCursor. by rewrite Hd.
Qed.

(** A cursor of a history gives back the position it was issued for — instant, place in a leap second, run and
    execution — in that history, and is refused in every other: another project, runner, historical id, or a listing. *)
Theorem history_cursor_continues_its_history p runner h p' runner' h' c ms :
  position c ms → told_apart [js "history"; p; runner; h] [js "history"; p'; runner'; h'] →
  ∃ t, encodeHistoryCursor sha256 p runner h c = Some t ∧
  decodeHistoryCursor sha256 literal p runner h t = Ok c ∧
  ((p, runner, h) ≠ (p', runner', h') → decodeHistoryCursor sha256 literal p' runner' h' t = Throw malformed) ∧
  ∀ q, decodeRunsCursor sha256 literal q t = Throw malformed.
Proof.
  intros Hp Ht. destruct (history_cursor_document p runner h c ms Hp) as (o & E & _ & Hd). exists (encode_cursor o).
  split; [done|]. split_and!.
  - destruct (history_cursor_read p runner h p runner h c ms Hp) as (t & E' & R). rewrite E in E'. injection E' as <-.
    by rewrite R, str_eqb_refl.
  - intros Hne. destruct (history_cursor_read p runner h p' runner' h' c ms Hp) as (t & E' & R). rewrite E in E'. injection E' as <-.
    rewrite R. unfold history_binding. rewrite binding_differs; [done|done|]. congruence.
  - intros q. unfold decodeRunsCursor. by rewrite Hd.
Qed.

Lemma new_date_bound x ms : new_date x = Some ms → Z.abs ms <= MAX_TIME.
Proof. unfold new_date. destruct (Z.leb_spec (Z.abs x) MAX_TIME); [|done]. by intros [= <-]. Qed.

Lemma date_of_iso_bound t ms : date_of_iso t = Some ms → Z.abs ms <= MAX_TIME.
Proof.
  unfold date_of_iso. destruct (iso_sign t) as [sign s]. destruct (take_digits _ s) as [[year rest]|]; [|done]. cbn [mbind option_bind].
  destruct (iso_rest rest) as [[[[[[mo d] h] mi] sec] m]|]; [|done]. cbn [mbind option_bind].
  destruct (_ || _); [done|]. apply new_date_bound.
Qed.

Lemma undec_digits u s : is_digit u = true → forallb is_digit s = true → 0 <= undec (u :: s).
Proof.
  intros Hu Hs. unfold undec. assert ((u =? 45)%N = false) as ->.
  { apply N.eqb_neq. intros ->. done. }
  unfold undigits_from. assert (∀ l a, 0 <= a → forallb is_digit l = true → 0 <= foldl (λ acc u, acc * 10 + (Z.of_N u - 48)) a l) as Hf.
  { induction l as [|v l IH]; intros a Ha Hl; simpl; [done|]. simpl in Hl. apply andb_true_iff in Hl as [Hv Hl].
    unfold is_digit, in_range in Hv. rewrite andb_true_iff, !N.leb_le in Hv. apply IH; [lia|done]. }
  apply Hf; [done|]. simpl. by rewrite Hu, Hs.
Qed.

(** Whatever text a client sends, a position comes out of it only in range: a sequence that is a PostgreSQL bigint,
    an instant a [Date] holds, a place in a leap second from 0 to 1000, and protocol identifiers. *)
Theorem decoded_cursors_are_positions p runner h cursor :
  (∀ s, decodeRunsCursor sha256 literal p cursor = Ok s → 0 <= s <= MAX_BIGINT) ∧
  (∀ c, decodeHistoryCursor sha256 literal p runner h cursor = Ok c → ∃ ms, position c ms).
Proof.
  split.
  - intros s Hs. unfold decodeRunsCursor in Hs. apply bind_Ok_inv in Hs as (d & _ & Hs).
    destruct (_ || _); [done|]. destruct (mget d (js "s")) as [[]|]; try done.
    destruct (is_sequence _) eqn:Es; [|done]. cbn [negb] in Hs.
    destruct (Z.ltb_spec MAX_BIGINT (undec s0)); [done|]. injection Hs as <-. split; [|done].
    unfold is_sequence in Es. apply orb_true_iff in Es as [->%str_eqb_eq|[Es _]%andb_true_iff]; [done|].
    destruct s0 as [|u t]; [done|]. apply andb_true_iff in Es as [Hu Ht]. apply undec_digits; [|done].
    unfold is_digit, in_range in *. rewrite andb_true_iff, !N.leb_le in *. lia.
  - intros c Hc. unfold decodeHistoryCursor in Hc. apply bind_Ok_inv in Hc as (d & _ & Hc).
    destruct (_ || _); [done|]. destruct (mget d (js "t")) as [[| | |t| |]|]; try done.
    destruct (ISO_INSTANT t); [|done]. cbn [negb] in Hc. destruct (same_instant _ _) eqn:Es; [|done]. cbn [negb] in Hc.
    destruct (mget d (js "l")) as [[| |[l| |]| | |]|]; try done.
    destruct (_ || _) eqn:El; [done|]. apply orb_false_iff in El as [?%Z.ltb_ge ?%Z.ltb_ge].
    destruct (isProtocolIdentifier (mget d (js "r"))) as [r|] eqn:Er; [|done].
    destruct (isProtocolIdentifier (mget d (js "e"))) as [e|] eqn:Ee; [|done]. injection Hc as <-.
    assert (∀ v r, isProtocolIdentifier v = Some r → PROTOCOL_IDENTIFIER r = true) as Hid.
    { intros v r' Hr. unfold isProtocolIdentifier in Hr. destruct v as [[]|]; try done.
      destruct (PROTOCOL_IDENTIFIER s) eqn:E; [|done]. by injection Hr as <-. }
    destruct (date_of_iso t) as [ms|] eqn:Ed; [|done]. exists ms. split; simpl; eauto using date_of_iso_bound.
Qed.
End cursors.

(** ** Cursors that run *)

(** A stand-in for the digest: the first 32 bytes of the text. *)
Definition first_bytes (b : bytes) : bytes := take 32 (b ++ replicate 32 x00).
Lemma first_bytes_length b : length (first_bytes b) = 32%nat.
Proof. unfold first_bytes. rewrite length_take, length_app, length_replicate. lia. Qed.

Definition no_literal (t : str) : num := NFrac t.

Lemma runs_cursor_continues_its_listing_witness :
  decodeRunsCursor first_bytes no_literal (js "web") (encodeRunsCursor first_bytes (js "web") 42) = Ok 42 ∧
  decodeRunsCursor first_bytes no_literal (js "api") (encodeRunsCursor first_bytes (js "web") 42) = Throw malformed.
Proof.
  destruct (runs_cursor_continues_its_listing first_bytes no_literal first_bytes_length (js "web") (js "api") 42) as (H1 & H2 & _).
  - unfold MAX_BIGINT. lia.
  - intros E. vm_compute in E. discriminate E.
  - split; [exact H1|]. apply H2. discriminate.
Defined.

Definition demo_position : HistoryCursor :=
  {| hc_occurredAt := Some 951827696789; hc_leap := 0; hc_runId := js "run-1"; hc_executionId := js "exec/7" |}.

Lemma demo_position_ok : position demo_position 951827696789.
Proof. split; try reflexivity; unfold MAX_TIME; simpl; lia. Qed.

Lemma history_cursor_continues_its_history_witness :
  ∃ t, encodeHistoryCursor first_bytes (js "web") (js "pw") (js "login") demo_position = Some t ∧
  decodeHistoryCursor first_bytes no_literal (js "web") (js "pw") (js "login") t = Ok demo_position ∧
  decodeHistoryCursor first_bytes no_literal (js "api") (js "pw") (js "login") t = Throw malformed.
Proof.
  destruct (history_cursor_continues_its_history first_bytes no_literal first_bytes_length (js "web") (js "pw") (js "login")
    (js "api") (js "pw") (js "login") demo_position 951827696789 demo_position_ok) as (t & H1 & H2 & H3 & _).
  - intros E. vm_compute in E. discriminate E.
  - exists t. split; [exact H1|]. split; [exact H2|]. apply H3. discriminate.
Defined.
