(* ===== verification/Lifecycle.v ===== *)
(** * Shutdown of the server (http-api/src/lifecycle.ts, bin/server.ts)

    A process that starts, serves and stops, driven by what happens to it: signals,
    the start-up ending, the close ending, the grace running out. Each happening is
    handled as the code handles it, with what it writes to the log; the race
    between the close, the grace and a second signal is settled by whichever comes
    first, and later ones find it settled. *)

From S2P Require Import Prelude JsString JsNumber.

Local Open Scope Z_scope.

Definition DEFAULT_SHUTDOWN_GRACE_MS : Z := 30000.

Inductive ShutdownPhase := Running | Draining | Closed | Abandoned.
Inductive ShutdownOutcome := OutClosed | GraceExceeded | Forced | Failed.

#[export] Instance ShutdownPhase_dec : EqDecision ShutdownPhase.
Proof. solve_decision. Defined.
#[export] Instance ShutdownOutcome_dec : EqDecision ShutdownOutcome.
Proof. solve_decision. Defined.

Record ShutdownResult := { sr_outcome : ShutdownOutcome; sr_exitCode : Z; sr_phase : ShutdownPhase; sr_elapsedMs : Z }.

(** The lines of the log. *)
Inductive LogLine :=
| ShutdownRequested (signal : str) (graceMs : Z)
| ShutdownForced (signal : str)
| ShutdownFailed (reason : str)
| ShutdownCompleted (elapsedMs : Z) (forced : bool)
| GraceWasExceeded (graceMs elapsedMs : Z).

(** The drain under way: when it began, and what its promise has resolved to. *)
Record Drain := { dr_started : Z; dr_result : option ShutdownResult }.

(** [ServerLifecycle]: [settled] holds the promise every call of [shutdown] returns. *)
Record Lifecycle := {
  lc_phase : ShutdownPhase;
  lc_graceMs : Z;
  lc_settled : option Drain;
  lc_forced : bool;
  lc_log : list LogLine;
}.
#[export] Instance Lifecycle_fields : Fields Lifecycle := λ l,
  {| lc_phase := lc_phase l; lc_graceMs := lc_graceMs l; lc_settled := lc_settled l; lc_forced := lc_forced l; lc_log := lc_log l |}.

Definition log_line (line : LogLine) (l : Lifecycle) : Lifecycle := l <| lc_log ::= λ o, o ++ [line] |>.

(** The constructor. *)
Definition new_lifecycle (graceMs : option number) : res str Lifecycle :=
  match as_integer (default (Int DEFAULT_SHUTDOWN_GRACE_MS) graceMs) with
  | Some grace =>
      if grace <? 1 then Throw (js "the shutdown grace must be a whole number of milliseconds of at least one")
      else Ok {| lc_phase := Running; lc_graceMs := grace; lc_settled := None; lc_forced := false; lc_log := [] |}
  | None => Throw (js "the shutdown grace must be a whole number of milliseconds of at least one")
  end.

(** [get draining] *)
Definition draining (l : Lifecycle) : bool := negb (bool_decide (lc_phase l = Running)).

(** The rest of [drain], once the race is settled: what it was settled with decides the phase, the line and the code. *)
Definition conclude_drain (now : Z) (outcome : ShutdownOutcome) (d : Drain) (l : Lifecycle) : Lifecycle :=
  let phase := match outcome with OutClosed => Closed | _ => Abandoned end in
  let elapsedMs := now - dr_started d in
  let result := {| sr_outcome := outcome; sr_exitCode := match outcome with OutClosed => 0 | _ => 1 end;
                   sr_phase := phase; sr_elapsedMs := elapsedMs |} in
  let l := l <| lc_phase := phase |> <| lc_settled := Some {| dr_started := dr_started d; dr_result := Some result |} |> in
  match outcome with
  | OutClosed => log_line (ShutdownCompleted elapsedMs false) l
  | GraceExceeded => log_line (GraceWasExceeded (lc_graceMs l) elapsedMs) l
  | Forced => log_line (ShutdownCompleted elapsedMs true) l
  | Failed => l
  end.

(** [Promise.race]: only the first to settle is heard. *)
Definition settle (now : Z) (outcome : ShutdownOutcome) (l : Lifecycle) : Lifecycle :=
  match lc_settled l with
  | Some d => match dr_result d with None => conclude_drain now outcome d l | Some _ => l end
  | None => l
  end.

(** [shutdown] *)
Definition shutdown (now : Z) (signal : str) (l : Lifecycle) : Lifecycle :=
  match lc_settled l with
  | Some _ =>
      if lc_forced l then l
      else settle now Forced (log_line (ShutdownForced signal) (l <| lc_forced := true |>))
  | None =>
      log_line (ShutdownRequested signal (lc_graceMs l)) (l <| lc_phase := Draining |>)
        <| lc_settled := Some {| dr_started := now; dr_result := None |} |>
  end.

(** The close ending, well or badly, and the grace running out; before a drain there is none of them. *)
Definition on_closed (now : Z) (l : Lifecycle) : Lifecycle := settle now OutClosed l.
Definition on_close_failed (now : Z) (reason : str) (l : Lifecycle) : Lifecycle :=
  match lc_settled l with
  | Some _ => settle now Failed (log_line (ShutdownFailed reason) l)
  | None => l
  end.
Definition on_grace (now : Z) (l : Lifecycle) : Lifecycle := settle now GraceExceeded l.

(** ** The process (bin/server.ts) *)

Inductive Happening :=
| Signal (signal : str)
| StartedUp                       (* startServer resolved *)
| StartFailed                     (* startServer threw *)
| CloseEnded
| CloseFailed (reason : str)
| GraceElapsed.

(** [state] of the program, and the code the process exited with. *)
Record ServerProcess := {
  sp_grace : option number;
  sp_lifecycle : option Lifecycle;
  sp_signalled : option str;
  sp_exit : option Z;
}.
#[export] Instance ServerProcess_fields : Fields ServerProcess := λ p,
  {| sp_grace := sp_grace p; sp_lifecycle := sp_lifecycle p; sp_signalled := sp_signalled p; sp_exit := sp_exit p |}.

Definition new_process (grace : option number) : ServerProcess :=
  {| sp_grace := grace; sp_lifecycle := None; sp_signalled := None; sp_exit := None |}.

(** [.then((result) => process.exit(result.exitCode))] *)
Definition exit_when_settled (p : ServerProcess) : ServerProcess :=
  match sp_lifecycle p with
  | Some l => match lc_settled l with
      | Some {| dr_result := Some r |} => p <| sp_exit := Some (sr_exitCode r) |>
      | _ => p end
  | None => p
  end.

Definition on_lifecycle (f : Lifecycle → Lifecycle) (p : ServerProcess) : ServerProcess :=
  match sp_lifecycle p with Some l => exit_when_settled (p <| sp_lifecycle := Some (f l) |>) | None => p end.

(** One happening at one reading of the clock; nothing happens to a process that has exited. *)
Definition happen (now : Z) (h : Happening) (p : ServerProcess) : ServerProcess :=
  match sp_exit p with
  | Some _ => p
  | None =>
      match h with
      | Signal signal =>
          match sp_lifecycle p with
          | None => p <| sp_signalled := Some signal |>
          | Some _ => on_lifecycle (shutdown now signal) p
          end
      | StartedUp =>
          match sp_lifecycle p with
          | Some _ => p
          | None =>
              match new_lifecycle (sp_grace p) with
              | Throw _ => p <| sp_exit := Some 1 |>
              | Ok l =>
                  let p := p <| sp_lifecycle := Some l |> in
                  match sp_signalled p with
                  | Some signal => on_lifecycle (shutdown now signal) p
                  | None => p
                  end
              end
          end
      | StartFailed => match sp_lifecycle p with None => p <| sp_exit := Some 1 |> | Some _ => p end
      | CloseEnded => on_lifecycle (on_closed now) p
      | CloseFailed reason => on_lifecycle (on_close_failed now reason) p
      | GraceElapsed => on_lifecycle (on_grace now) p
      end
  end.

Definition happen_all (p : ServerProcess) (hs : list (Z * Happening)) : ServerProcess :=
  foldl (λ p h, happen h.1 h.2 p) p hs.

(** [realTimer]: Node fires a timer of more than 2^31-1 milliseconds after one. *)
Definition timer_delay (ms : Z) : Z := if (ms <? 1) || (2147483647 <? ms) then 1 else ms.

(** [shutdownGraceFrom]: [Number] of a text of digits is a variable. *)
Definition shutdownGraceFrom (to_number : str → number) (value : option str) : res str number :=
  match value with
  | None | Some [] => Ok (Int DEFAULT_SHUTDOWN_GRACE_MS)
  | Some (u :: s) =>
      if in_range 49 57 u && forallb is_digit s then Ok (to_number (u :: s))
      else Throw (js "QE_REPORT_SHUTDOWN_GRACE_MS must be a positive whole number of milliseconds")
  end.

(** ** Every server that is asked to stop stops

    The process against the four states an operator reasons with, how it ends, and
    what its log says of it. *)

(** ** The states an operator sees *)

Inductive ServerState :=
| Starting (signalled : bool)
| Serving
| Stopping
| Gone (code : Z).

(** What ends a drain, and with which code. *)
Definition decides (h : Happening) : option Z :=
  match h with
  | Signal _ | CloseFailed _ | GraceElapsed => Some 1
  | CloseEnded => Some 0
  | StartedUp | StartFailed => None
  end.

Definition server_step (grace_ok : bool) (s : ServerState) (h : Happening) : ServerState :=
  match s, h with
  | Starting _, Signal _ => Starting true
  | Starting signalled, StartedUp => if grace_ok then (if signalled then Stopping else Serving) else Gone 1
  | Starting _, StartFailed => Gone 1
  | Serving, Signal _ => Stopping
  | Stopping, h => match decides h with Some code => Gone code | None => Stopping end
  | s, _ => s
  end.

(** The state a process is in. *)
Definition state_of_process (p : ServerProcess) : ServerState :=
  match sp_exit p with
  | Some code => Gone code
  | None =>
      match sp_lifecycle p with
      | None => Starting (bool_decide (is_Some (sp_signalled p)))
      | Some l => match lc_settled l with None => Serving | Some _ => Stopping end
      end
  end.

(** ** What holds of every process *)

(** A lifecycle's phase says what its promise holds, and its log what was asked of it. *)
Record sound_lifecycle (l : Lifecycle) : Prop := {
  so_phase : lc_phase l = match lc_settled l with
    | None => Running
    | Some d => match dr_result d with None => Draining | Some r => sr_phase r end end;
  so_result d r : lc_settled l = Some d → dr_result d = Some r →
    (sr_outcome r = OutClosed ↔ sr_phase r = Closed) ∧ (sr_phase r = Closed ↔ sr_exitCode r = 0) ∧
    (sr_phase r = Closed ∨ sr_phase r = Abandoned) ∧ (sr_exitCode r = 0 ∨ sr_exitCode r = 1);
  so_forced : lc_forced l = true → is_Some (lc_settled l);
  so_requests : length (List.filter (λ x, match x with ShutdownRequested _ _ => true | _ => false end) (lc_log l))
    = match lc_settled l with None => 0%nat | Some _ => 1%nat end;
  so_forces : length (List.filter (λ x, match x with ShutdownForced _ => true | _ => false end) (lc_log l))
    = if lc_forced l then 1%nat else 0%nat;
}.

Lemma filter_snoc {A} (f : A → bool) l x : List.filter f (l ++ [x]) = List.filter f l ++ (if f x then [x] else []).
Proof. by rewrite List.filter_app. Qed.

Lemma conclude_sound now outcome d l :
  sound_lifecycle l → lc_settled l = Some d → dr_result d = None → sound_lifecycle (conclude_drain now outcome d l).
Proof.
  intros [Hp Hr Hf Hq Hs] Hd Hn. rewrite Hd in Hq.
  destruct outcome; (split; simpl; [done|intros ? ? [= <-] [= <-]; simpl; intuition congruence|done|rewrite ?filter_snoc, ?length_app; simpl; try lia; done|
    rewrite ?filter_snoc, ?length_app; simpl; rewrite ?Nat.add_0_r; done]).
Qed.

Lemma settle_sound now outcome l : sound_lifecycle l → sound_lifecycle (settle now outcome l).
Proof.
  intros Hl. unfold settle. destruct (lc_settled l) as [d|] eqn:Ed; [|done]. destruct (dr_result d) eqn:Er; [done|].
  by apply conclude_sound.
Qed.

Lemma shutdown_sound now signal l : sound_lifecycle l → sound_lifecycle (shutdown now signal l).
Proof.
  intros Hl. unfold shutdown. destruct (lc_settled l) as [d|] eqn:Ed.
  - destruct (lc_forced l) eqn:Ef; [done|]. apply settle_sound. destruct Hl as [Hp Hr Hf Hq Hs]. rewrite Ed in *. rewrite Ef in Hs.
    split; simpl; rewrite ?Ed; [done|done|done| |]; rewrite filter_snoc, length_app; simpl; lia.
  - destruct Hl as [Hp Hr Hf Hq Hs]. rewrite Ed in *. split; simpl; [done|by intros ?? [= <-]|done| |]; rewrite filter_snoc, length_app; simpl; lia.
Qed.

Lemma failed_sound now reason l : sound_lifecycle l → sound_lifecycle (on_close_failed now reason l).
Proof.
  intros Hl. unfold on_close_failed. destruct (lc_settled l) as [d|] eqn:Ed; [|done]. apply settle_sound.
  destruct Hl as [Hp Hr Hf Hq Hs]. rewrite Ed in *. split; simpl; rewrite ?Ed; [done|done|done| |]; rewrite filter_snoc, length_app; simpl; lia.
Qed.

(** A drain under way and not forced is settled by what decides it, with that code. *)
Definition pending (l : Lifecycle) : Prop := ∃ d, lc_settled l = Some d ∧ dr_result d = None ∧ lc_forced l = false.

Definition decided (l : Lifecycle) (code : Z) : Prop := ∃ d r, lc_settled l = Some d ∧ dr_result d = Some r ∧ sr_exitCode r = code.

Lemma settle_decided now outcome l d :
  lc_settled l = Some d → dr_result d = None → decided (settle now outcome l) (match outcome with OutClosed => 0 | _ => 1 end).
Proof. intros Hd Hr. unfold settle. rewrite Hd, Hr. destruct outcome; by eexists _, _. Qed.

(** What one happening does to a lifecycle that is draining. *)
Definition handle (now : Z) (h : Happening) (l : Lifecycle) : Lifecycle :=
  match h with
  | Signal signal => shutdown now signal l
  | CloseEnded => on_closed now l
  | CloseFailed reason => on_close_failed now reason l
  | GraceElapsed => on_grace now l
  | StartedUp | StartFailed => l
  end.

Lemma handle_pending now h l code : pending l → decides h = Some code → decided (handle now h l) code.
Proof.
  intros (d & Hd & Hr & Hf) Hc. destruct h; simpl in Hc; try done; injection Hc as <-; cbn [handle].
  - unfold shutdown. rewrite Hd, Hf. by eapply (settle_decided _ Forced).
  - by eapply (settle_decided _ OutClosed).
  - unfold on_close_failed. rewrite Hd. by eapply (settle_decided _ Failed).
  - by eapply (settle_decided _ GraceExceeded).
Qed.

Lemma handle_idle now h l : lc_settled l = None → handle now h l = l ∨ ∃ s, h = Signal s.
Proof.
  intros Hn. destruct h; cbn [handle]; unfold on_closed, on_close_failed, on_grace, settle; rewrite ?Hn; eauto.
Qed.

Lemma handle_sound now h l : sound_lifecycle l → sound_lifecycle (handle now h l).
Proof. intros Hl. destruct h; cbn [handle]; [by apply shutdown_sound|done|done|by apply settle_sound|by apply failed_sound|by apply settle_sound]. Qed.

Lemma begin_pending now signal l : lc_settled l = None → lc_forced l = false → pending (shutdown now signal l).
Proof. intros Hn Hf. unfold shutdown. rewrite Hn. by eexists. Qed.

Lemma new_lifecycle_sound grace l : new_lifecycle grace = Ok l → sound_lifecycle l ∧ lc_settled l = None ∧ lc_forced l = false.
Proof.
  unfold new_lifecycle. destruct (as_integer _) as [g|]; [|done]. destruct (g <? 1); [done|]. intros [= <-].
  by split.
Qed.

(** A process that has not exited: starting, or serving, or draining with nothing decided. *)
Definition live (p : ServerProcess) : Prop :=
  match sp_lifecycle p with
  | None => True
  | Some l => sound_lifecycle l ∧ (lc_settled l = None ∧ lc_forced l = false ∨ pending l)
  end.
Definition well (p : ServerProcess) : Prop := is_Some (sp_exit p) ∨ live p.

Definition grace_ok (p : ServerProcess) : bool := is_ok (new_lifecycle (sp_grace p)).

Lemma exit_pending p l : sp_lifecycle p = Some l → pending l → exit_when_settled p = p.
Proof. intros Hl (d & Hd & Hr & _). unfold exit_when_settled. rewrite Hl, Hd. destruct d as [t r]. simpl in Hr. by subst. Qed.
Lemma exit_idle p l : sp_lifecycle p = Some l → lc_settled l = None → exit_when_settled p = p.
Proof. intros Hl Hd. unfold exit_when_settled. by rewrite Hl, Hd. Qed.
Lemma exit_decided p l code : sp_lifecycle p = Some l → decided l code → exit_when_settled p = p <| sp_exit := Some code |>.
Proof. intros Hl ([t r] & r' & Hd & Hr & <-). unfold exit_when_settled. simpl in Hr. subst r. by rewrite Hl, Hd. Qed.

Lemma on_pending f p l :
  sp_lifecycle p = Some l → sp_exit p = None → sound_lifecycle (f l) → pending (f l) →
  well (on_lifecycle f p) ∧ state_of_process (on_lifecycle f p) = Stopping ∧ sp_grace (on_lifecycle f p) = sp_grace p.
Proof.
  intros Hl Hx Hs Hp. unfold on_lifecycle. rewrite Hl. rewrite (exit_pending _ (f l)) by done.
  split; [right; unfold live; simpl; auto|]. split; [|done]. unfold state_of_process. simpl. rewrite Hx. by destruct Hp as (d & -> & _).
Qed.
Lemma on_idle f p l :
  sp_lifecycle p = Some l → sp_exit p = None → f l = l → sound_lifecycle l → lc_settled l = None → lc_forced l = false →
  well (on_lifecycle f p) ∧ state_of_process (on_lifecycle f p) = Serving ∧ sp_grace (on_lifecycle f p) = sp_grace p.
Proof.
  intros Hl Hx Hf Hs Hn Hfo. unfold on_lifecycle. rewrite Hl, Hf, (exit_idle _ l) by done.
  split; [right; unfold live; simpl; auto|]. split; [|done]. unfold state_of_process. simpl. by rewrite Hx, Hn.
Qed.
Lemma on_decided f p l code :
  sp_lifecycle p = Some l → decided (f l) code →
  well (on_lifecycle f p) ∧ state_of_process (on_lifecycle f p) = Gone code ∧ sp_grace (on_lifecycle f p) = sp_grace p.
Proof.
  intros Hl Hd. unfold on_lifecycle. rewrite Hl, (exit_decided _ (f l) code) by done.
  split; [left; by eexists|]. split; [|done]. done.
Qed.

(** One step of the process is one step of what the operator sees. *)
Lemma happen_step now h p :
  well p → well (happen now h p) ∧ state_of_process (happen now h p) = server_step (grace_ok p) (state_of_process p) h ∧
  sp_grace (happen now h p) = sp_grace p.
Proof.
  intros Hw. unfold happen. destruct (sp_exit p) as [code|] eqn:Ex.
  { split; [by left|]. split; [|done]. unfold state_of_process. rewrite Ex. by destruct h. }
  destruct Hw as [[? ?]|Hl]; [congruence|]. pose proof Hl as Hlive. unfold live in Hl. unfold state_of_process at 2.
  rewrite Ex. destruct (sp_lifecycle p) as [l|] eqn:El.
  - destruct Hl as [Hs [[Hn Hf]|Hp]].
    + rewrite Hn.
      destruct h; cbn [server_step]; try (split; [by right|split; [unfold state_of_process; by rewrite Ex, El, Hn|done]]).
      * eapply on_pending; [done|done|by apply shutdown_sound|by apply begin_pending].
      * eapply on_idle; try done. unfold on_closed, settle. by rewrite Hn.
      * eapply on_idle; try done. unfold on_close_failed. by rewrite Hn.
      * eapply on_idle; try done. unfold on_grace, settle. by rewrite Hn.
    + pose proof Hp as (d & Hd & _). rewrite Hd.
      destruct h as [sig| | | |reason|]; cbn [server_step decides];
        try (split; [by right|split; [unfold state_of_process; by rewrite Ex, El, Hd|done]]).
      * eapply on_decided; [done|by apply (handle_pending now (Signal sig))].
      * eapply on_decided; [done|by apply (handle_pending now CloseEnded)].
      * eapply on_decided; [done|by apply (handle_pending now (CloseFailed reason))].
      * eapply on_decided; [done|by apply (handle_pending now GraceElapsed)].
  - destruct h as [sig| | | |reason|]; cbn [server_step]; try (unfold on_lifecycle; rewrite El);
      try (split; [by right|split; [unfold state_of_process; by rewrite Ex, El|done]]).
    + split; [right; unfold live; simpl; by rewrite El|]. split; [|done]. unfold state_of_process. simpl. by rewrite Ex, El.
    + unfold grace_ok. destruct (new_lifecycle (sp_grace p)) as [l|e] eqn:Eg; cbn [is_ok]; [|split; [left; by eexists|done]].
      apply new_lifecycle_sound in Eg as (Hs & Hn & Hf). cbv zeta.
      assert (sp_signalled (p <| sp_lifecycle := Some l |>) = sp_signalled p) as -> by done.
      destruct (sp_signalled p) as [sig|] eqn:Es.
      * rewrite bool_decide_eq_true_2 by by eexists.
        destruct (on_pending (shutdown now sig) (p <| sp_lifecycle := Some l |>) l) as (H1 & H2 & H3);
          [done|done|by apply shutdown_sound|by apply begin_pending|].
        split; [exact H1|]. split; [exact H2|exact H3].
      * rewrite bool_decide_eq_false_2 by by intros [? ?].
        split; [right; unfold live; simpl; auto|]. split; [|done]. unfold state_of_process. simpl. by rewrite Ex, Hn.
    + split; [left; by eexists|done].
Qed.

Lemma happen_all_step hs p :
  well p → well (happen_all p hs) ∧
  state_of_process (happen_all p hs) = foldl (server_step (grace_ok p)) (state_of_process p) hs.*2.
Proof.
  revert p. induction hs as [|[now h] hs IH]; intros p Hw; [done|]. destruct (happen_step now h p Hw) as (Hw' & Hs & Hg).
  unfold happen_all in *. cbn [foldl fmap list_fmap fst snd]. destruct (IH _ Hw') as [H1 H2]. split; [done|].
  rewrite H2, Hs. unfold grace_ok. by rewrite Hg.
Qed.

Lemma new_process_well grace : well (new_process grace).
Proof. by right. Qed.

(** ** What the operator can rely on *)

(** C19 The process is the state machine the operator reasons with: however signals, the end of the start-up, the end of
    the close and the grace interleave, it is starting, serving, stopping or gone exactly as the four-state machine says. *)
Theorem process_refines_server_states grace hs :
  state_of_process (happen_all (new_process grace) hs) =
  foldl (server_step (is_ok (new_lifecycle grace))) (Starting false) hs.*2.
Proof. apply (happen_all_step hs (new_process grace)), new_process_well. Qed.

Lemma stopping_ends ok hs :
  foldl (server_step ok) Stopping hs = match head (omap decides hs) with Some code => Gone code | None => Stopping end.
Proof.
  assert (∀ code hs, foldl (server_step ok) (Gone code) hs = Gone code) as Hgone.
  { intros code hs'. induction hs' as [|h hs' IH]; [done|]. simpl. by destruct h. }
  induction hs as [|h hs IH]; [done|]. destruct h; simpl; rewrite ?Hgone; done.
Qed.

(** C20 A server asked to stop stops: from then on the first of the close ending, the close failing, the grace running
    out and a second signal ends the process, with code 0 when that is the close and 1 otherwise; nothing after it
    changes the code. The grace always runs out, so the process always ends. *)
Theorem stop_request_is_answered grace hs0 hs :
  state_of_process (happen_all (new_process grace) hs0) = Stopping →
  sp_exit (happen_all (new_process grace) (hs0 ++ hs)) = head (omap decides hs.*2).
Proof.
  intros Hs. unfold happen_all. rewrite foldl_app. fold (happen_all (new_process grace) hs0).
  destruct (happen_all_step hs0 (new_process grace) (new_process_well grace)) as [Hw _].
  set (p := happen_all (new_process grace) hs0) in *. fold (happen_all p hs).
  destruct (happen_all_step hs p Hw) as [_ H]. rewrite Hs, stopping_ends in H. unfold state_of_process in H.
  destruct (sp_exit (happen_all p hs)) as [code|], (head (omap decides hs.*2)); try congruence.
  all: destruct (sp_lifecycle _) as [l|]; [destruct (lc_settled l)|]; congruence.
Qed.

Definition handle_all (l : Lifecycle) (hs : list (Z * Happening)) : Lifecycle := foldl (λ l h, handle h.1 h.2 l) l hs.

Lemma handle_settled now h l d : lc_settled l = Some d → is_Some (dr_result d) → lc_settled (handle now h l) = Some d.
Proof.
  intros Hd [r Hr]. destruct h; cbn [handle]; unfold shutdown, on_closed, on_close_failed, on_grace, settle; rewrite ?Hd, ?Hr; try done.
  - destruct (lc_forced l); [done|]. simpl. by rewrite Hd, Hr.
  - simpl. by rewrite Hd, Hr.
Qed.

(** The promise of a shutdown resolves once: a result, when there is one, is the result for good, however late a close
    ends or a signal comes; the phase is the one it reports, closed exactly when the close ended in time and the exit
    code is 0; and the log holds one request and at most one forcing. *)
Theorem shutdown_resolves_once grace l hs hs' :
  new_lifecycle grace = Ok l →
  sound_lifecycle (handle_all l hs) ∧
  ∀ d, lc_settled (handle_all l hs) = Some d → is_Some (dr_result d) → lc_settled (handle_all l (hs ++ hs')) = Some d.
Proof.
  intros [Hs _]%new_lifecycle_sound. split.
  - unfold handle_all. revert l Hs. induction hs as [|h hs IH]; intros l Hs; [done|]. by apply IH, handle_sound.
  - intros d Hd Hr. unfold handle_all in *. rewrite foldl_app. revert Hd. generalize (foldl (λ l h, handle h.1 h.2 l) l hs).
    induction hs' as [|h hs' IH]; intros l' Hd; [done|]. by apply IH, handle_settled.
Qed.

(** ** Shutdowns that run *)

Definition demo_stop : list (Z * Happening) := [(0, StartedUp); (5, Signal (js "SIGTERM"))].

Lemma stop_request_is_answered_witness :
  sp_exit (happen_all (new_process None) (demo_stop ++ [(40, StartFailed); (90, GraceElapsed); (95, CloseEnded)])) = Some 1 ∧
  sp_exit (happen_all (new_process None) (demo_stop ++ [(40, CloseEnded)])) = Some 0.
Proof.
  split.
  - pose proof (stop_request_is_answered None demo_stop [(40, StartFailed); (90, GraceElapsed); (95, CloseEnded)] eq_refl) as Hp. exact Hp.
  - pose proof (stop_request_is_answered None demo_stop [(40, CloseEnded)] eq_refl) as Hp. exact Hp.
Defined.

Definition demo_lifecycle : Lifecycle :=
  {| lc_phase := Running; lc_graceMs := 30000; lc_settled := None; lc_forced := false; lc_log := [] |}.
Definition demo_happenings : list (Z * Happening) := [(5, Signal (js "SIGTERM")); (90, GraceElapsed)].

Lemma shutdown_resolves_once_witness :
  lc_phase (handle_all demo_lifecycle (demo_happenings ++ [(95, CloseEnded); (99, Signal (js "SIGINT"))])) = Abandoned ∧
  ∃ d, lc_settled (handle_all demo_lifecycle (demo_happenings ++ [(95, CloseEnded); (99, Signal (js "SIGINT"))])) = Some d.
Proof.
  destruct (shutdown_resolves_once None demo_lifecycle demo_happenings [(95, CloseEnded); (99, Signal (js "SIGINT"))] eq_refl) as [_ Hd].
  split; [reflexivity|]. eexists. apply Hd; [reflexivity|]. eexists. reflexivity.
Defined.

(** A grace of more than about 24.8 days is one millisecond. *)
Example long_grace_is_no_grace : timer_delay 2147483648 = 1.
Proof. reflexivity. Qed.
