(* ===== verification/Secrets.v ===== *)
(** * Secrets (http-api/src/secrets.ts)

    Connection strings with their user information taken out, for messages a
    person may read, and where the database URL comes from. The pattern is matched
    as a regular expression is: from the left, the scheme, then as much as possible
    up to a last [@]. Reading a file is a variable. *)

From S2P Require Import Prelude JsString PwText ValidatorRun.

Local Open Scope N_scope.

Definition DATABASE_URL : str := js "DATABASE_URL".
Definition DATABASE_URL_FILE : str := js "DATABASE_URL_FILE".

(** ** [URL_USER_INFORMATION]: [([a-zA-Z][a-zA-Z0-9+.-]*:\/\/)[^\s/?#]*@] *)

Definition is_letter (u : N) : bool := is_upper u || is_lower u.
Definition scheme_unit (u : N) : bool := is_alnum u || (u =? 43) || (u =? 46) || (u =? 45).
Definition stops (u : N) : bool := is_js_space u || (u =? 47) || (u =? 63) || (u =? 35).

(** [[a-zA-Z0-9+.-]*:\/\/], and what is left. *)
Fixpoint after_scheme (s : str) : option (str * str) :=
  match s with
  | [] => None
  | u :: s' =>
      if scheme_unit u then '(scheme, rest) ← after_scheme s'; Some (u :: scheme, rest)
      else match s with 58 :: 47 :: 47 :: rest => Some (js "://", rest) | _ => None end
  end.

(** [[^\s/?#]*@], as long as it can be: what is before the last [@], and what follows it. *)
Fixpoint last_at (s : str) : option (str * str) :=
  match s with
  | [] => None
  | u :: s' =>
      if stops u then None
      else match last_at s' with
        | Some (user, rest) => Some (u :: user, rest)
        | None => if u =? 64 then Some ([], s') else None
        end
  end.

(** A match at the start: the scheme with its [://], the user information, and what follows. *)
Definition user_information (s : str) : option (str * str * str) :=
  match s with
  | u :: _ =>
      if is_letter u then '(scheme, rest) ← after_scheme s; '(user, rest) ← last_at rest; Some (scheme, user, rest)
      else None
  | [] => None
  end.

(** [text.replace(URL_USER_INFORMATION, '$1[redacted]@')] *)
Fixpoint scrub_loop (fuel : nat) (s : str) : str :=
  match fuel, s with
  | S fuel, u :: s' =>
      match user_information s with
      | Some (scheme, _, rest) => scheme ++ js "[redacted]@" ++ scrub_loop fuel rest
      | None => u :: scrub_loop fuel s'
      end
  | _, _ => []
  end.

(** [scrubConnectionStrings] *)
Definition scrubConnectionStrings (text : str) : str := scrub_loop (length text) text.

(** ** [resolveDatabaseUrl] *)

(** [contents.replace(/\r?\n$/u, '')] *)
Fixpoint without_newline (s : str) : str :=
  match s with
  | [] => []
  | u :: s' =>
      match s' with
      | [] => if u =? 10 then [] else s
      | [v] => if (u =? 13) && (v =? 10) then [] else u :: without_newline s'
      | _ => u :: without_newline s'
      end
  end.

(** An environment variable, set or not, and the file it may name. *)
Definition resolveDatabaseUrl (readFile : str → res Errno str) (direct file : option str) : res str str :=
  match direct, file with
  | Some _, Some _ =>
      Throw (js "only one of DATABASE_URL and DATABASE_URL_FILE may be set; both are, and this process will not choose between them (an empty value is still set)")
  | Some (u :: s), None => Ok (u :: s)
  | _, None | _, Some [] => Throw (js "one of DATABASE_URL and DATABASE_URL_FILE must be set to a value")
  | None, Some f =>
      match readFile f with
      | Throw _ => Throw (js "the file DATABASE_URL_FILE names cannot be read")
      | Ok contents =>
          let url := without_newline contents in
          if bool_decide (url = []) then Throw (js "the file DATABASE_URL_FILE names is empty")
          else if existsb (N.eqb 10) url then Throw (js "the file DATABASE_URL_FILE names holds more than one line")
          else Ok url
      end
  end.

(** ** What is left of a credential *)

Lemma after_scheme_app s scheme rest : after_scheme s = Some (scheme, rest) → s = scheme ++ rest.
Proof.
  revert scheme rest. induction s as [|u s IH]; intros scheme rest; cbn [after_scheme]; [done|].
  destruct (scheme_unit u).
  - destruct (after_scheme s) as [[sc r]|]; [|done]. intros [= <- <-]. simpl. f_equal. by apply IH.
  - intros E. repeat case_match; simplify_eq; done.
Qed.

Lemma after_scheme_longer s scheme rest t : after_scheme s = Some (scheme, rest) → after_scheme (scheme ++ t) = Some (scheme, t).
Proof.
  revert scheme rest. induction s as [|u s IH]; intros scheme rest; cbn [after_scheme]; [done|].
  destruct (scheme_unit u) eqn:Eu.
  - destruct (after_scheme s) as [[sc r]|]; [|done]. intros [= <- <-]. cbn [app after_scheme]. rewrite Eu. by rewrite (IH sc r).
  - intros E. repeat case_match; simplify_eq; done.
Qed.

Lemma scheme_unit_plain u : scheme_unit u = true → stops u = false ∧ u ≠ 64 ∧ u ≠ 58.
Proof.
  intros Hu. unfold scheme_unit, stops, is_alnum, is_digit, is_upper, is_lower, is_js_space, in_range in *.
  rewrite !orb_true_iff, !andb_true_iff, !N.leb_le, !N.eqb_eq in Hu. split; [|lia].
  rewrite !orb_false_iff, !andb_false_iff, !N.leb_gt, !N.eqb_neq. lia.
Qed.

(** No [@] before the next stop: so it stays. *)
Lemma last_at_scheme s scheme rest t : after_scheme s = Some (scheme, rest) → last_at (scheme ++ t) = None.
Proof.
  revert scheme rest. induction s as [|u s IH]; intros scheme rest; cbn [after_scheme]; [done|].
  destruct (scheme_unit u) eqn:Eu.
  - destruct (after_scheme s) as [[sc r]|]; [|done]. intros [= <- <-]. cbn [app last_at].
    destruct (scheme_unit_plain u Eu) as (-> & Hne & _). rewrite (IH sc r) by done. by apply N.eqb_neq in Hne as ->.
  - intros E. repeat case_match; simplify_eq; done.
Qed.

Lemma last_at_rest s user rest : last_at s = Some (user, rest) → last_at rest = None.
Proof.
  revert user rest. induction s as [|u s IH]; intros user rest; cbn [last_at]; [done|]. destruct (stops u); [done|].
  destruct (last_at s) as [[us r]|] eqn:E; [intros [= <- <-]; by eapply IH|].
  destruct (u =? 64); [|done]. by intros [= <- <-].
Qed.

Lemma user_information_inv s scheme user rest : user_information s = Some (scheme, user, rest) →
  ∃ r, after_scheme s = Some (scheme, r) ∧ last_at r = Some (user, rest).
Proof.
  unfold user_information. destruct s as [|u s]; [done|]. destruct (is_letter u); [|done].
  destruct (after_scheme (u :: s)) as [[sc r]|]; [|done]. simpl. destruct (last_at r) as [[us r']|] eqn:E; [|done].
  intros [= <- <- <-]. eauto.
Qed.

Lemma scrub_last_at fuel s : last_at s = None → last_at (scrub_loop fuel s) = None.
Proof.
  revert s. induction fuel as [|fuel IH]; intros [|u s] Hl; cbn [scrub_loop]; try done.
  destruct (user_information (u :: s)) as [[[scheme user] rest]|] eqn:E.
  - apply user_information_inv in E as (r & Ea & _). by eapply last_at_scheme.
  - cbn [last_at] in *. destruct (stops u); [done|]. destruct (last_at s) as [[]|] eqn:El; [done|].
    rewrite IH by done. by destruct (u =? 64).
Qed.

(** The redacted mark, in front of a text without user information of its own. *)
Lemma last_at_mark t : last_at t = None → last_at (js "[redacted]@" ++ t) = Some (js "[redacted]", t).
Proof. intros Ht. cbn [js app last_at]. simpl. by rewrite Ht. Qed.

(** What follows a scheme in the scrubbed text. *)
Lemma scrub_after_scheme fuel s scheme r' : after_scheme (scrub_loop fuel s) = Some (scheme, r') →
  (∃ t, r' = js "[redacted]@" ++ t ∧ last_at t = None) ∨
  ∃ r fuel', after_scheme s = Some (scheme, r) ∧ r' = scrub_loop fuel' r.
Proof.
  revert s scheme. induction fuel as [|fuel IH]; intros [|u s] scheme; cbn [scrub_loop]; try done.
  destruct (user_information (u :: s)) as [[[sc user] rest]|] eqn:E.
  - apply user_information_inv in E as (r & Ea & El). rewrite (after_scheme_longer _ _ _ _ Ea). intros [= <- <-].
    left. eexists. split; [done|]. eapply scrub_last_at, last_at_rest. exact El.
  - cbn [after_scheme]. destruct (scheme_unit u) eqn:Eu.
    + destruct (after_scheme (scrub_loop fuel s)) as [[sc r]|] eqn:Es; [|done]. intros [= <- <-].
      destruct (IH s sc Es) as [Hl|(r2 & f & E2 & ->)]; [by left|]. right. exists r2, f. by rewrite E2.
    + intros Hm.
      assert (∀ fuel s v t, scrub_loop fuel s = v :: t → v = 47 → ∃ s' fuel', s = v :: s' ∧ t = scrub_loop fuel' s') as Hslash.
      { clear. intros [|fuel] [|v s] v' t; cbn [scrub_loop]; try done.
        destruct (user_information (v :: s)) as [[[sc us] r]|] eqn:E; [|intros [= <- <-] _; eauto].
        intros Hs ->. apply user_information_inv in E as (r0 & Ea & _). exfalso.
        destruct sc as [|a sc]; [|].
        - simpl in Hs. by injection Hs.
        - injection Hs as -> _. pose proof (after_scheme_app _ _ _ Ea) as Hv. injection Hv as -> _.
          done. }
      assert (u = 58 ∧ scheme = js "://" ∧ scrub_loop fuel s = 47 :: 47 :: r') as (-> & -> & Es).
      { repeat case_match; simplify_eq; done. }
      destruct (Hslash _ _ _ _ Es eq_refl) as (s1 & f1 & -> & E1). symmetry in E1.
      destruct (Hslash _ _ _ _ E1 eq_refl) as (s2 & f2 & -> & ->). right. by exists s2, f2.
Qed.

(** Inside a scheme the same user information is found, or nothing. *)
Lemma scheme_tail s scheme r before after t : after_scheme s = Some (scheme, r) → scheme = before ++ after → after ≠ [] →
  user_information (after ++ t) = None ∨ ∃ sc, after_scheme (after ++ t) = Some (sc, t).
Proof.
  revert scheme before. induction s as [|u s IH]; intros scheme before; cbn [after_scheme]; [done|].
  destruct (scheme_unit u) eqn:Eu.
  - destruct (after_scheme s) as [[sc r0]|] eqn:Es; [|done]. intros [= <- <-] E Hne. destruct before as [|v before].
    + simpl in E. subst after. right. exists (u :: sc). cbn [app after_scheme]. rewrite Eu. by rewrite (after_scheme_longer _ _ _ t Es).
    + injection E as <- E. by eapply IH.
  - intros Es E Hne. assert (scheme = js "://") as -> by (repeat case_match; simplify_eq; done). left.
    change (js "://") with [58; 47; 47] in E.
    destruct before as [|? [|? [|? before]]]; simpl in E; [by subst|by injection E as _ <-|by injection E as _ _ <-|].
    injection E as _ _ _ E. by apply eq_sym, app_nil in E as [_ ?].
Qed.

Lemma mark_tail n t : (n < 11)%nat → user_information (drop n (js "[redacted]@") ++ t) = None.
Proof. intros Hn. do 11 (destruct n as [|n]; [reflexivity|]). lia. Qed.

(** No credential is left: wherever the pattern of a connection string is found in a scrubbed text, what stands between
    the scheme and the last [@] is the mark; and a text the pattern is not found in is not changed. *)
Theorem no_credential_is_left text :
  (∀ before after scheme user rest, scrubConnectionStrings text = before ++ after →
     user_information after = Some (scheme, user, rest) → user = js "[redacted]") ∧
  ((∀ before after, text = before ++ after → user_information after = None) → scrubConnectionStrings text = text).
Proof.
  unfold scrubConnectionStrings. split.
  - assert (∀ fuel s before after scheme user rest, scrub_loop fuel s = before ++ after →
      user_information after = Some (scheme, user, rest) → user = js "[redacted]") as H; [|by eapply H].
    induction fuel as [|fuel IH]; intros [|u s] before after scheme user rest E Hu; cbn [scrub_loop] in E;
      try (by apply eq_sym, app_nil in E as [_ ->]).
    destruct (user_information (u :: s)) as [[[sc us] r]|] eqn:Em.
    + apply user_information_inv in Em as (r0 & Ea & El).
      assert (last_at (scrub_loop fuel r) = None) as Hr by (eapply scrub_last_at, last_at_rest; exact El).
      apply app_eq_app in E as [l [[E ->]|[-> E]]].
      * destruct l as [|v l].
        { pose proof (eq_trans (eq_sym (mark_tail 0 (scrub_loop fuel r) ltac:(lia))) Hu) as Hm. discriminate Hm. }
        destruct (scheme_tail _ _ _ _ _ (js "[redacted]@" ++ scrub_loop fuel r) Ea E) as [Hn|[sc' Ha]]; [done|congruence|].
        apply user_information_inv in Hu as (r' & Ea' & El'). rewrite Ha in Ea'. injection Ea' as <- <-.
        pose proof (eq_trans (eq_sym (last_at_mark _ Hr)) El') as Hm. by injection Hm as <- _.
      * apply app_eq_app in E as [l' [[E ->]|[-> E]]]; [|by eapply IH].
        destruct (decide (length l < 11)%nat) as [Hlt|Hge].
        { replace l' with (drop (length l) (js "[redacted]@")) in Hu by (rewrite E; apply drop_app_length).
          by rewrite mark_tail in Hu. }
        apply (f_equal length) in E as El2. rewrite length_app in El2. simpl in El2. destruct l' as [|v l']; [|simpl in El2; lia].
        by eapply (IH _ []).
    + destruct before as [|v before]; [|injection E as <- E; by eapply IH]. simpl in E. subst after.
      unfold user_information in Em. destruct (is_letter u) eqn:Hl; [|by cbn [user_information] in Hu; rewrite Hl in Hu].
      apply user_information_inv in Hu as (r' & Ea & El). cbn [after_scheme] in Ea, Em.
      assert (scheme_unit u = true) as Hsu.
      { unfold is_letter, scheme_unit, is_alnum in *. by destruct (is_upper u), (is_lower u), (is_digit u). }
      rewrite Hsu in Ea, Em. destruct (after_scheme (scrub_loop fuel s)) as [[sc r1]|] eqn:Es; [|done]. injection Ea as <- ->.
      destruct (scrub_after_scheme _ _ _ _ Es) as [(t & -> & Ht)|(r & f & E2 & ->)].
      * rewrite last_at_mark in El by done. by injection El as <- _.
      * rewrite E2 in Em. simpl in Em. destruct (last_at r) as [[? ?]|] eqn:Er; [done|]. by rewrite scrub_last_at in El.
  - intros Hn. assert (∀ s fuel, (∀ before after, s = before ++ after → user_information after = None) →
      (length s <= fuel)%nat → scrub_loop fuel s = s) as H; [|by apply H].
    clear. induction s as [|u s IH]; intros [|fuel] Hs Hf; cbn [scrub_loop length] in *; try done; [lia|].
    rewrite (Hs [] (u :: s)) by done. f_equal. apply IH; [|lia]. intros b a ->. by apply (Hs (u :: b)).
Qed.
