(* ===== verification/Dto.v ===== *)
(** * Public shapes and transport limits (http-api/src/dto.ts, limits.ts)

    What the service answers with, built member by member; what is not set is
    left out. Also what the run store promises the service: the results of
    archiving a run (postgres/src/store.ts) and the pages of a history
    (postgres/src/queries.ts), as data. *)

From S2P Require Import Prelude JsString JsMap Json Model Codec Validator ValidatorRun ReadTypes JsNumber BlobStore RunRef Cursor.

Local Open Scope Z_scope.

(** ** What the store gives *)

Inductive RejectionReason := RUN_INVALID_ | RUN_INCOMPLETE_ | RUN_EMPTY_.

(** [PersistResult] *)
Inductive PersistResult :=
| Inserted (runId : str) (ingestionSequence : Z)
| AlreadyPresent (runId : str) (ingestionSequence blobRelationsAdded : Z) (retentionAdded queryIndexRebuilt : bool)
| Rejected (reason : RejectionReason) (runId : option str) (diagnostics : list Diagnostic)
| Conflict (runId storedFingerprint offeredFingerprint : str).

Record HistoryPage := {
  hp_projectId : str; hp_runnerName : str; hp_historicalId : str;
  hp_occurrences : list ExecutionOccurrence; hp_next : option HistoryCursor;
}.
Record FlakinessSummary := {
  fs_projectId : str; fs_runnerName : str; fs_historicalId : str;
  fs_totalOccurrences : Z; fs_flakyOccurrences : Z; fs_everFlaky : bool;
}.

(** ** The shapes *)

(** [defined] *)
Definition defined (record : list (str * option json)) : obj := omitUndefined record.

Definition shown_bool (b : bool) : option json := Some (JBool b).
Definition shown_int (z : Z) : option json := Some (jint z).

(** [ingestionDto]; the cases it is given. *)
Definition ingestion_common (outcome runId : str) (ingestionSequence : Z) : obj :=
  [(js "outcome", JStr outcome); (js "runId", JStr runId); (js "runRef", JStr (encodeRunRef runId));
   (js "ingestionSequence", JStr (dec ingestionSequence))].
Definition inserted_dto (runId : str) (ingestionSequence : Z) : obj :=
  ingestion_common (js "inserted") runId ingestionSequence.
Definition already_present_dto (runId : str) (ingestionSequence blobRelationsAdded : Z)
    (retentionAdded queryIndexRebuilt : bool) : obj :=
  ingestion_common (js "already_present") runId ingestionSequence ++
  [(js "blobRelationsAdded", jint blobRelationsAdded); (js "retentionAdded", JBool retentionAdded);
   (js "queryIndexRebuilt", JBool queryIndexRebuilt)].

Definition severity_text (s : Severity) : str := match s with SevError => js "error" | SevInfo => js "info" end.

Definition verdict_text (v : Verdict) : str :=
  match v with
  | VPassed => js "passed" | VFailed => js "failed" | VInconclusive => js "inconclusive" | VIncomplete => js "incomplete"
  end.

(** [x === '' ? undefined : x] *)
Definition unless_empty (s : option str) : option json :=
  match s with Some [] | None => None | Some s => Some (JStr s) end.

(** [diagnosticDto] *)
Definition diagnosticDto (d : Diagnostic) : obj :=
  defined
    [(js "severity", jstr (severity_text (d_severity d)));
     (js "code", jstr (code_text (d_code d)));
     (js "detail", JStr ∘ detail_text <$> d_detail d);
     (js "message", jstr (d_message d));
     (js "file", unless_empty (Some (d_file d)));
     (js "line", if d_line d =? 0 then None else shown_int (d_line d));
     (js "eventId", jopt (d_eventId d));
     (js "pointer", unless_empty (d_pointer d))].

(** [attachmentDto] *)
Definition attachmentDto (runRef : str) (a : AttachmentReference) : obj :=
  defined
    [(js "sessionId", jstr (ar_sessionId a)); (js "attemptId", jstr (ar_attemptId a)); (js "stepId", jopt (ar_stepId a));
     (js "name", jstr (ar_name a)); (js "mediaType", jstr (ar_mediaType a)); (js "sizeBytes", shown_int (ar_sizeBytes a));
     (js "sha256", jstr (ar_sha256 a));
     (js "href", jstr (js "/v1/runs/" ++ runRef ++ js "/attachments/" ++ ar_sha256 a))].

(** [occurrenceDto] *)
Definition occurrenceDto (o : ExecutionOccurrence) : obj :=
  defined
    [(js "runId", jstr (eo_runId o)); (js "runRef", jstr (encodeRunRef (eo_runId o)));
     (js "executionId", jstr (eo_executionId o)); (js "sessionIds", Some (JArr (JStr <$> eo_sessionIds o)));
     (js "historicalIdStability", jstr (stability_text (eo_historicalIdStability o)));
     (js "occurredAt", jstr (eo_occurredAt o)); (js "attemptCount", shown_int (eo_attemptCount o));
     (js "complete", shown_bool (eo_complete o)); (js "finalStatus", JStr ∘ status_text <$> eo_finalStatus o);
     (js "expectedStatus", JStr ∘ expected_text <$> eo_expectedStatus o); (js "flaky", shown_bool (eo_flaky o));
     (js "runVerdict", jstr (verdict_text (eo_runVerdict o))); (js "runComplete", shown_bool (eo_runComplete o));
     (js "sessionStatus", JStr ∘ session_status_text <$> eo_sessionStatus o)].

(** [historyPageDto] *)
Definition historyPageDto (page : HistoryPage) (nextCursor : option str) : obj :=
  defined
    [(js "runnerName", jstr (hp_runnerName page)); (js "historicalId", jstr (hp_historicalId page));
     (js "occurrences", Some (JArr (JObj ∘ occurrenceDto <$> hp_occurrences page))); (js "nextCursor", jopt nextCursor)].

(** [flakinessDto] *)
Definition flakinessDto (s : FlakinessSummary) : obj :=
  [(js "runnerName", JStr (fs_runnerName s)); (js "historicalId", JStr (fs_historicalId s));
   (js "totalOccurrences", jint (fs_totalOccurrences s)); (js "flakyOccurrences", jint (fs_flakyOccurrences s));
   (js "everFlaky", JBool (fs_everFlaky s))].

(** ** Transport limits (http-api/src/limits.ts)

    What one request may make the server hold or read; the caller's overrides are
    laid over the defaults and every value is checked, those of names nobody reads
    as well. *)

Definition MiB : Z := 1024 * 1024.

Record TransportLimits := {
  maxRequestBytes : Z;
  maxEventParts : Z;
  maxEventBytes : Z;
  maxAttachmentParts : Z;
  maxAttachmentBytes : Z;
  maxTotalAttachmentBytes : Z;
  maxJsonBodyBytes : Z;
}.

(** [DEFAULT_TRANSPORT_LIMITS], as the object it is; [None] is [undefined]. *)
Definition DEFAULT_TRANSPORT_LIMITS : jsmap str (option number) :=
  [(js "maxRequestBytes", Some (Int (1024 * MiB)));
   (js "maxEventParts", Some (Int 64));
   (js "maxEventBytes", Some (Int (256 * MiB)));
   (js "maxAttachmentParts", Some (Int 256));
   (js "maxAttachmentBytes", Some (Int DEFAULT_MAX_BLOB_BYTES));
   (js "maxTotalAttachmentBytes", Some (Int (512 * MiB)));
   (js "maxJsonBodyBytes", Some (Int (64 * 1024)))].

Definition usable (v : option number) : option Z :=
  v ← v; n ← as_safe_integer v; if n <? 1 then None else Some n.

(** The loop over [Object.entries]: the first unusable value is thrown over. *)
Fixpoint check_limits (l : jsmap str (option number)) : res str (jsmap str Z) :=
  match l with
  | [] => Ok []
  | (name, value) :: l =>
      match usable value with
      | None => Throw (name ++ js " must be a whole number of at least one")
      | Some n => rest ← check_limits l; Ok ((name, n) :: rest)
      end
  end.

(** [number > z] *)
Definition number_gt (v : number) (z : Z) : bool :=
  match v with Int n => z <? n | Fractional b => z <=? b | Infinite negative => negb negative | NaN => false end.
Definition number_lt (v : number) (z : Z) : bool :=
  match v with Int n => n <? z | Fractional b => b <? z | Infinite negative => negative | NaN => false end.

(** [resolveLimits]; [number_text] is how the largest blob is written in the message. *)
Definition resolveLimits (number_text : number → str) (overrides : jsmap str (option number))
    (maxBlobBytes : number) : res str TransportLimits :=
  limits ← check_limits (foldl (λ l kv, mset l kv.1 kv.2) DEFAULT_TRANSPORT_LIMITS overrides);
  let get name := default 0 (mget limits (js name)) in
  if number_lt maxBlobBytes (get "maxAttachmentBytes"%string) then
    Throw (js "maxAttachmentBytes (" ++ dec (get "maxAttachmentBytes"%string) ++ js ") must not exceed what the blob store accepts ("
             ++ number_text maxBlobBytes ++ js ")")
  else Ok {| maxRequestBytes := get "maxRequestBytes"%string; maxEventParts := get "maxEventParts"%string;
             maxEventBytes := get "maxEventBytes"%string; maxAttachmentParts := get "maxAttachmentParts"%string;
             maxAttachmentBytes := get "maxAttachmentBytes"%string;
             maxTotalAttachmentBytes := get "maxTotalAttachmentBytes"%string;
             maxJsonBodyBytes := get "maxJsonBodyBytes"%string |}.

(** ** What is resolved is usable *)

Lemma check_limits_keeps l l' name :
  check_limits l = Ok l' → mget l' name = v ← mget l name; usable v.
Proof.
  revert l'. induction l as [|[k v] l IH]; simpl; intros l' E; [by injection E as <-|].
  destruct (usable v) as [n|] eqn:Eu; [|done]. destruct (check_limits l) as [rest|]; [|done]. injection E as <-.
  simpl. case_decide; [by simpl; rewrite Eu|]. by apply IH.
Qed.

(** Every limit is a whole number of at least one, as stated or as the default, and no attachment may be larger than a blob. *)
Lemma resolveLimits_usable number_text overrides maxBlobBytes l :
  resolveLimits number_text overrides maxBlobBytes = Ok l →
  number_lt maxBlobBytes (maxAttachmentBytes l) = false ∧
  Forall (λ n, 1 <= n <= MAX_SAFE_INTEGER)
    [maxRequestBytes l; maxEventParts l; maxEventBytes l; maxAttachmentParts l; maxAttachmentBytes l;
     maxTotalAttachmentBytes l; maxJsonBodyBytes l].
Proof.
  unfold resolveLimits. intros E. apply bind_Ok_inv in E as (limits & Ec & E). cbv zeta in E.
  destruct (number_lt _ _) eqn:Eb; [done|]. injection E as <-. cbn. split; [done|].
  assert (∀ name v0, mget DEFAULT_TRANSPORT_LIMITS name = Some v0 → 1 <= default 0 (mget limits name) <= MAX_SAFE_INTEGER) as H.
  { intros name v0 Hd.
    assert (is_Some (mget (foldl (λ l kv, mset l kv.1 kv.2) DEFAULT_TRANSPORT_LIMITS overrides) name)) as [v Hv].
    { clear Ec Eb. assert (is_Some (mget DEFAULT_TRANSPORT_LIMITS name)) as Hs by eauto. revert Hs.
      generalize DEFAULT_TRANSPORT_LIMITS. induction overrides as [|[k v] o IH]; intros d Hs; [done|]. simpl. apply IH.
      rewrite mget_mset. case_decide; eauto. }
    assert (∃ n, mget limits name = Some n ∧ 1 <= n <= MAX_SAFE_INTEGER) as (n & -> & ?); [|done].
    pose proof (check_limits_keeps _ _ name Ec) as Hk. rewrite Hv in Hk. simpl in Hk.
    destruct (usable v) as [n|] eqn:Eu.
    - exists n. split; [done|]. unfold usable in Eu. destruct v as [v|]; [|done]. simpl in Eu.
      destruct v as [z| | |]; try done. simpl in Eu. destruct (_ && _) eqn:Es; [|done]. simpl in Eu.
      destruct (Z.ltb_spec z 1); [done|]. injection Eu as <-. apply andb_true_iff in Es as [_ ?%Z.leb_le]. lia.
    - exfalso. revert Ec Hv Eu. generalize (foldl (λ l kv, mset l kv.1 kv.2) DEFAULT_TRANSPORT_LIMITS overrides).
      clear. intros l. revert limits. induction l as [|[k v'] l IH]; intros limits; simpl; [done|].
      destruct (usable v') as [n|] eqn:E'; [|done]. destruct (check_limits l) as [rest|]; [|done]. intros _.
      case_decide; [intros [= ->]; congruence|]. intros Hv Eu. by eapply IH. }
  repeat first [apply Forall_nil_2|apply Forall_cons_2; [eapply H; reflexivity|]].
Qed.
