(* ===== verification/Staging.v ===== *)
(** * Request directories (http-api/src/staging.ts)

    The operator's roots as they are checked before anything is served, and one
    upload's run directory: its creation, its event files in arrival order, its
    attachments under the digest computed here, its removal. A part is what the
    parser hands over: pieces in the order they come, with the bytes of the body
    that arrive between them, and how it ends. SHA-256 and the messages of
    system errors are variables; a write stream is opened before its first piece
    is looked at. *)

From S2P Require Import Prelude JsString JsBytes JsSort Json ValidatorRun JsNumber JsDate Io PwText.

Local Open Scope Z_scope.

Definition request_hex (u : N) : bool := is_digit u || in_range 97 102 u.

(** [[0-9a-f]{n}], and what is left. *)
Fixpoint take_hex (n : nat) (s : str) : option str :=
  match n, s with
  | O, _ => Some s
  | S n', u :: s' => if request_hex u then take_hex n' s' else None
  | S _, [] => None
  end.

Definition dash (s : str) : option str :=
  match s with u :: s' => if (u =? 45)%N then Some s' else None | [] => None end.

(** [REQUEST_ID] *)
Definition REQUEST_ID (s : str) : bool :=
  match s ← take_hex 8 s; s ← dash s; s ← take_hex 4 s; s ← dash s; s ← take_hex 4 s; s ← dash s;
        s ← take_hex 4 s; s ← dash s; take_hex 12 s with
  | Some [] => true
  | _ => false
  end.

(** ** The operator's roots *)

(** The names of a path, and [path.relative] of two normal absolute ones, as [realpath] gives them. *)
Fixpoint split_path (s : str) (name : str) : list str :=
  match s with
  | [] => if bool_decide (name = []) then [] else [name]
  | u :: s' =>
      if (u =? 47)%N then (if bool_decide (name = []) then split_path s' [] else name :: split_path s' [])
      else split_path s' (name ++ [u])
  end.
Definition names (p : str) : list str := split_path p [].

Fixpoint drop_common (l k : list str) : list str * list str :=
  match l, k with
  | x :: l', y :: k' => if str_eqb x y then drop_common l' k' else (l, k)
  | _, _ => (l, k)
  end.

Definition relative (from to : str) : str :=
  let '(up, down) := drop_common (names from) (names to) in
  join (js "/") (((λ _, js "..") <$> up) ++ down).

Definition isAbsolute (p : str) : bool := match p with u :: _ => (u =? 47)%N | [] => false end.

(** [within] of [checkRoots] *)
Definition within (outer inner : str) : bool :=
  let r := relative outer inner in
  str_eqb r [] || (negb (starts_with (js "..") r) && negb (isAbsolute r)).

Inductive RootError := RootRefused (message : str) | RootErrno (e : Errno).

(** ** What the parser hands over *)

(** Anything thrown: its [code], its message, and whether it carries an [errno]. *)
Record Thrown := { th_code : option str; th_message : str; th_errno : bool }.

(** Bytes of the body arriving, or bytes of this part. *)
Inductive Piece := Arrived (n : Z) | Chunk (b : bytes).

Record Source := {
  so_destroyed : bool;              (* destroyed or errored before anything reads it *)
  so_pieces : list Piece;
  so_end : option Thrown;           (* what it fails with after its pieces, if it does *)
}.

(** The bytes of a part. *)
Definition chunk_of (p : Piece) : bytes := match p with Chunk b => b | Arrived _ => [] end.
Definition part_bytes (s : Source) : bytes := concat (chunk_of <$> so_pieces s).

(** The classes thrown here, and anything else. [Refusal] is the caller's. *)
Inductive Failure (Refusal : Type) :=
| Refused (p : Refusal)
| LimitExceeded (message : str)
| PartAborted
| Other (t : Thrown).
Arguments Refused {Refusal}. Arguments LimitExceeded {Refusal}. Arguments PartAborted {Refusal}. Arguments Other {Refusal}.

(** ** The directory *)

Class StagingDisk (W : Type) `{NodeFs W} := {
  sg_access : str → io W Errno unit;          (* R_OK | W_OK | X_OK *)
  sg_mkdir : str → io W Errno unit;           (* 0700, not recursive *)
  sg_create : str → io W Errno unit;          (* a write stream: wx, 0600 *)
  sg_write : str → bytes → io W Errno unit;   (* the next bytes of it *)
  sg_end : str → io W Errno unit;             (* its end *)
  sg_link : str → str → io W Errno unit;
  sg_unlink : str → io W Errno unit;
  sg_rm : str → io W Errno unit;              (* recursive, force *)
}.

Record StagedUpload := { su_directory : str; su_eventFiles : nat; su_uploads : nat }.

(** [String(n).padStart(6, '0')] *)
Definition pad6 (n : nat) : str := let d := dec (Z.of_nat n) in replicate (6 - length d) 48%N ++ d.

Section staging.
Context {W : Type} `{StagingDisk W}.
Context (sha256 : bytes → str) (errno_message : Errno → str).

(** [checkRoots] *)
Definition checkRoots (stagingRoot blobRoot : str) : io W RootError str :=
  st ← io_map_err (λ e, RootRefused (js "staging root " ++ stagingRoot ++ js " cannot be read: " ++ errno_message e))
         (sys_lstat stagingRoot);
  if bool_decide (st_kind st = KSymlink) then
    throw (RootRefused (js "staging root " ++ stagingRoot ++ js " is a symbolic link"))
  else if negb (bool_decide (st_kind st = KDirectory)) then
    throw (RootRefused (js "staging root " ++ stagingRoot ++ js " is not a directory"))
  else
    staging ← io_map_err RootErrno (sys_realpath stagingRoot);
    blobs ← io_map_err RootErrno (sys_realpath blobRoot);
    if within staging blobs || within blobs staging then
      throw (RootRefused (js "the staging root and the blob root must be separate, neither inside the other"))
    else mret staging.

(** [rootUsable] *)
Definition rootUsable (root : str) : io W Errno bool :=
  try_catch
    (st ← sys_lstat root;
     if negb (bool_decide (st_kind st = KDirectory)) then mret false
     else sg_access root;; mret true)
    (λ _, mret false).

Context {Refusal : Type}.

Definition sys {A} (m : io W Errno A) : io W (Failure Refusal) A :=
  io_map_err (λ e, Other {| th_code := Some (errno_code e); th_message := errno_message e; th_errno := true |}) m.

(** [StagedUpload.create] *)
Definition create (stagingRoot requestId : str) : io W (Failure Refusal) StagedUpload :=
  if negb (REQUEST_ID requestId) then
    throw (Other {| th_code := None; th_message := js "a request directory is named by a request id"; th_errno := false |})
  else
    let directory := path_join stagingRoot requestId in
    sys (sg_mkdir directory);;
    sys (sg_mkdir (path_join directory (js "events")));;
    sys (sg_mkdir (path_join directory (js "attachments")));;
    mret {| su_directory := directory; su_eventFiles := 0; su_uploads := 0 |}.

(** [pipeline(readable(source), counting(report), createWriteStream(path))], with the caller's counters as a state
    [C]: [report] is told of each chunk before it is passed on, [arrived] of the bytes of the body, and either may
    end it by throwing. *)
Section pipeline.
Context {C : Type} (arrived : Z → C → res (Failure Refusal) C) (report : bytes → C → res (Failure Refusal) C) (path : str).

Fixpoint pump (pieces : list Piece) (ending : option Thrown) (c : C) : io W (Failure Refusal) C :=
  match pieces with
  | [] => match ending with Some e => throw (Other e) | None => sys (sg_end path);; mret c end
  | Arrived n :: rest => match arrived n c with Ok c => pump rest ending c | Throw e => throw e end
  | Chunk b :: rest =>
      match report b c with
      | Ok c => sys (sg_write path b);; pump rest ending c
      | Throw e => throw e
      end
  end.

Definition pipeline (s : Source) (c : C) : io W (Failure Refusal) C :=
  if so_destroyed s then throw PartAborted
  else sys (sg_create path);; pump (so_pieces s) (so_end s) c.
End pipeline.

Section write.
Context {C : Type} (arrived : Z → C → res (Failure Refusal) C) (count : Z → C → res (Failure Refusal) C).
Let report (b : bytes) : C → res (Failure Refusal) C := count (Z.of_nat (length b)).

(** [writeEvents] *)
Definition writeEvents (u : StagedUpload) (s : Source) (c : C) : io W (Failure Refusal) (StagedUpload * C) :=
  let n := S (su_eventFiles u) in
  let name := pad6 n ++ js ".ndjson" in
  c ← pipeline arrived report (path_join (path_join (su_directory u) (js "events")) name) s c;
  mret ({| su_directory := su_directory u; su_eventFiles := n; su_uploads := su_uploads u |}, c).

(** [writeAttachment] *)
Definition writeAttachment (u : StagedUpload) (s : Source) (c : C) : io W (Failure Refusal) (StagedUpload * str * C) :=
  let n := S (su_uploads u) in
  let attachments := path_join (su_directory u) (js "attachments") in
  let temporary := path_join attachments (js ".upload-" ++ dec (Z.of_nat n)) in
  c ← pipeline arrived report temporary s c;
  let digest := sha256 (part_bytes s) in
  try_catch (sg_link temporary (path_join attachments digest))
    (λ e, if str_eqb (errno_code e) (js "EEXIST") then mret tt else sys (throw e));;
  sys (sg_unlink temporary);;
  mret ({| su_directory := su_directory u; su_eventFiles := su_eventFiles u; su_uploads := n |}, digest, c).
End write.

(** [remove] *)
Definition remove (u : StagedUpload) : io W (Failure Refusal) unit := sys (sg_rm (su_directory u)).
End staging.

(** ** The staging root and the blob root are apart

    What [checkRoots] checks of two resolved paths, by their names: it refuses one
    inside the other, unless the first name on the way from one to the other
    begins with two dots, which the check takes for a way out. *)

Definition name_ok (n : str) : Prop := n ≠ [] ∧ 47%N ∉ n.

Lemma split_path_ok s name : 47%N ∉ name → Forall name_ok (split_path s name).
Proof.
  revert name. induction s as [|u s IH]; intros name Hn; simpl.
  - case_bool_decide; [constructor|]. by constructor.
  - destruct (N.eqb_spec u 47) as [->|Hu].
    + case_bool_decide; [apply IH; set_solver|]. constructor; [done|]. apply IH. set_solver.
    + apply IH. set_solver.
Qed.

Lemma names_ok p : Forall name_ok (names p).
Proof. apply split_path_ok. set_solver. Qed.

Lemma drop_common_spec l k :
  ∃ c, l = c ++ (drop_common l k).1 ∧ k = c ++ (drop_common l k).2 ∧
    (∀ x y, head (drop_common l k).1 = Some x → head (drop_common l k).2 = Some y → x ≠ y).
Proof.
  revert k. induction l as [|x l IH]; intros [|y k]; simpl; try by (exists []; split_and!; [done|done|intros ????; congruence]).
  destruct (str_eqb x y) eqn:E.
  - apply str_eqb_eq in E as ->. destruct (IH k) as (c & E1 & E2 & Hd). exists (y :: c). simpl. by rewrite <- E1, <- E2.
  - apply str_eqb_neq in E. exists []. split_and!; [done|done|]. intros ?? [= <-] [= <-]. done.
Qed.

(** Whether a relative path that goes down begins with two dots is its first name's to say. *)
Lemma join_dots x l : name_ok x → starts_with (js "..") (join (js "/") (x :: l)) = starts_with (js "..") x.
Proof.
  intros [Hx Hs]. destruct l as [|y l]; [done|]. cbn [join]. destruct x as [|a [|b x]]; [done| |]; simpl.
  - by rewrite andb_false_r.
  - done.
Qed.

Lemma join_not_absolute x l : name_ok x → join (js "/") (x :: l) ≠ [] ∧ isAbsolute (join (js "/") (x :: l)) = false.
Proof.
  intros [Hx Hs]. destruct x as [|a x]; [done|]. assert (a ≠ 47%N) as Ha by set_solver.
  destruct l; simpl; (split; [done|by apply N.eqb_neq]).
Qed.

(** Inside, as [within] has it: at the same place, or below it by a name that does not begin with two dots. *)
Lemma within_iff outer inner :
  within outer inner = true ↔
  ∃ rest, names inner = names outer ++ rest ∧ ∀ first, head rest = Some first → starts_with (js "..") first = false.
Proof.
  unfold within, relative. pose proof (names_ok inner) as Hok.
  destruct (drop_common_spec (names outer) (names inner)) as (c & E1 & E2 & Hd).
  destruct (drop_common (names outer) (names inner)) as [up down]. cbn [fst snd] in *.
  destruct up as [|u up].
  - cbn [fmap list_fmap app]. rewrite app_nil_r in E1. rewrite E1, E2. destruct down as [|d down].
    { split; [|done]. intros _. exists []. by split; [|intros ? [=]]. }
    rewrite E2 in Hok. apply Forall_app in Hok as [_ [Hn _]%Forall_cons].
    destruct (join_not_absolute d down Hn) as [Hne ->]. rewrite (proj2 (str_eqb_neq _ _)), join_dots by done. cbn [orb negb].
    rewrite andb_true_r, negb_true_iff. split.
    + intros Hdd. exists (d :: down). split; [done|]. by intros ? [= <-].
    + intros (rest & E & Hr). apply app_inv_head in E as <-. by apply Hr.
  - split.
    + intros H. exfalso. rewrite fmap_cons in H. cbn [app] in H.
      assert (name_ok (js "..")) as Hn by (split; [done|vm_compute; set_solver]).
      destruct (join_not_absolute (js "..") (((λ _, js "..") <$> up) ++ down) Hn) as [Hne _].
      rewrite (proj2 (str_eqb_neq _ _)), join_dots in H by done. discriminate H.
    + intros (rest & E & _). exfalso. rewrite E1, E2, <- app_assoc in E. apply app_inv_head in E.
      destruct down as [|d down]; [done|]. injection E as -> E. by eapply (Hd u u).
Qed.

(** Below, whatever the names. *)
Definition below_path (outer inner : str) : Prop := ∃ rest, names inner = names outer ++ rest.

Section roots.
Context {W : Type} `{StagingDisk W} (errno_message : Errno → str).

(** The roots a server starts with are a real directory and a place apart from it: the staging root is a directory and no
    link, the root used is where it resolves to, and it and the blob root are neither the same nor one inside the other —
    but for a way down from one to the other whose first name begins with two dots. *)
Theorem checkRoots_apart stagingRoot blobRoot staging (w w' : W) :
  checkRoots errno_message stagingRoot blobRoot w = (Ok staging, w') →
  ∃ st w1 w2 blobs,
    sys_lstat stagingRoot w = (Ok st, w1) ∧ st_kind st = KDirectory ∧
    sys_realpath stagingRoot w1 = (Ok staging, w2) ∧ sys_realpath blobRoot w2 = (Ok blobs, w') ∧
    names staging ≠ names blobs ∧
    (∀ outer inner rest, (outer, inner) = (staging, blobs) ∨ (outer, inner) = (blobs, staging) →
       names inner = names outer ++ rest → ∃ first, head rest = Some first ∧ starts_with (js "..") first = true).
Proof.
  intros E. unfold checkRoots in E. apply bind_Ok in E as (st & w1 & El & E).
  case_bool_decide; [done|]. case_bool_decide as Hk; [|done]. cbn [negb] in E.
  apply bind_Ok in E as (s & w2 & Es & E). apply bind_Ok in E as (b & w3 & Eb & E).
  unfold io_map_err in El, Es, Eb.
  destruct (sys_lstat stagingRoot w) as [[]?]; simplify_eq. destruct (sys_realpath stagingRoot w1) as [[]?] eqn:Hs; simplify_eq.
  destruct (sys_realpath blobRoot w2) as [[]?] eqn:Hb; simplify_eq.
  destruct (within s b || within b s) eqn:Hw; [done|]. injection E as <- <-. apply orb_false_iff in Hw as [Hw1 Hw2].
  assert (∀ outer inner rest, within outer inner = false → names inner = names outer ++ rest →
    ∃ first, head rest = Some first ∧ starts_with (js "..") first = true) as Hgo.
  { intros outer inner rest Hw E. destruct rest as [|first rest].
    - exfalso. assert (within outer inner = true); [|congruence]. apply within_iff. exists []. by split; [|intros ? [=]].
    - exists first. split; [done|]. destruct (starts_with (js "..") first) eqn:Hf; [done|].
      assert (within outer inner = true); [|congruence]. apply within_iff. exists (first :: rest). split; [done|]. by intros ? [= <-]. }
  exists st, w1, w2, b. split_and!; try done.
  - intros E. destruct (Hgo s b [] Hw1) as (? & ? & _); [by rewrite app_nil_r|done].
  - intros outer inner rest [[= -> ->]|[= -> ->]] E; [by apply (Hgo s b)|by apply (Hgo b s)].
Qed.
End roots.

(** A blob root inside the staging root passes the check when its name there begins with two dots, as the names of
    mounted secrets and configuration do. *)
Theorem dotted_root_is_not_seen :
  within (js "/srv/staging") (js "/srv/staging/..data/blobs") = false ∧
  within (js "/srv/staging/..data/blobs") (js "/srv/staging") = false ∧
  below_path (js "/srv/staging") (js "/srv/staging/..data/blobs").
Proof. split; [reflexivity|]. split; [reflexivity|]. exists [js "..data"; js "blobs"]. reflexivity. Qed.

(** ** Cleanup of request directories (http-api/src/staging-maintenance.ts)

    One pass over the children of the staging root, in name order: names the
    server does not give are reported, links and files are reported, young
    directories are left, and old ones are listed and, unless it is a preview,
    removed. *)

Definition DEFAULT_MAX_STAGING_ENTRIES : Z := 100.
Definition MAX_STAGING_ENTRIES : Z := 1000.

Record StagingEntry := { se_requestId : str; se_modifiedAt : Z }.

Inductive StagingProblemCode := NOT_A_REQUEST_ID | NOT_A_DIRECTORY | UNREADABLE_ENTRY | REMOVE_FAILED.
Record StagingProblem := { sp_code : StagingProblemCode; sp_name : str; sp_message : str }.

Record StagingReport := {
  sr_dryRun : bool;
  sr_before : Z;
  sr_entries : list StagingEntry;
  sr_removed : nat;
  sr_problems : list StagingProblem;
  sr_truncated : bool;
}.
#[export] Instance StagingReport_fields : Fields StagingReport := λ r,
  {| sr_dryRun := sr_dryRun r; sr_before := sr_before r; sr_entries := sr_entries r; sr_removed := sr_removed r;
     sr_problems := sr_problems r; sr_truncated := sr_truncated r |}.

(** [limitOf] *)
Definition limitOf (max : option number) : res str Z :=
  match max with
  | None => Ok DEFAULT_MAX_STAGING_ENTRIES
  | Some v =>
      match as_safe_integer v with
      | Some n => if n <? 1 then Throw (js "max must be a whole number of request directories of at least one")
                  else Ok (Z.min n MAX_STAGING_ENTRIES)
      | None => Throw (js "max must be a whole number of request directories of at least one")
      end
  end.

Section maintenance.
Context {W : Type} `{StagingDisk W} (errno_message : Errno → str) (root : str).

Definition complain (code : StagingProblemCode) (name message : str) (r : StagingReport) : StagingReport :=
  r <| sr_problems ::= λ o, o ++ [{| sp_code := code; sp_name := name; sp_message := message |}] |>.

(** The loop of [pass]. *)
Fixpoint pass_names (destructive : bool) (max : Z) (ns : list str) (r : StagingReport) : io W str StagingReport :=
  match ns with
  | [] => mret r
  | name :: ns =>
      if negb (REQUEST_ID name) then
        pass_names destructive max ns (complain NOT_A_REQUEST_ID name (js "not a name this server gives a request directory") r)
      else
        let path := path_join root name in
        stat ← try_catch (st ← sys_lstat path; mret (inl st)) (λ e, mret (inr e));
        match stat with
        | inr e => pass_names destructive max ns (complain UNREADABLE_ENTRY name (errno_message e) r)
        | inl st =>
            if negb (bool_decide (st_kind st = KDirectory)) then
              pass_names destructive max ns (complain NOT_A_DIRECTORY name
                (if bool_decide (st_kind st = KSymlink)
                 then js "a symbolic link where a request directory belongs; it is not followed"
                 else js "not a directory, so not a request directory this server made") r)
            else if sr_before r <=? st_mtimeMs st then pass_names destructive max ns r
            else if Z.of_nat (length (sr_entries r)) =? max then mret (r <| sr_truncated := true |>)
            else
              let r := r <| sr_entries ::= λ o, o ++ [{| se_requestId := name; se_modifiedAt := st_mtimeMs st |}] |> in
              if negb destructive then pass_names destructive max ns r
              else
                r ← try_catch (sg_rm path;; mret (r <| sr_removed ::= S |>))
                      (λ e, mret (complain REMOVE_FAILED name (errno_message e) r));
                pass_names destructive max ns r
        end
  end.

(** [pass] *)
Definition pass (before : Date) (max : option number) (destructive : bool) : io W str StagingReport :=
  match before with
  | None => throw (js "before must be a valid Date: the instant a request directory is old enough")
  | Some before =>
      match limitOf max with
      | Throw e => throw e
      | Ok max =>
          ns ← io_map_err (λ e, js "the staging root cannot be read (" ++ errno_code e ++ js ")") (sys_readdir root);
          pass_names destructive max (sort compare ns)
            {| sr_dryRun := negb destructive; sr_before := before; sr_entries := []; sr_removed := 0;
               sr_problems := []; sr_truncated := false |}
      end
  end.

(** [preview] and [clean] *)
Definition preview (before : Date) (max : option number) : io W str StagingReport := pass before max false.
Definition clean (before : Date) (max : option number) : io W str StagingReport := pass before max true.
End maintenance.

(** ** What a cleanup removes

    A pass is told apart from its effects: whatever the file system does, it only
    looks, and removes only directories it has just seen to be old. Where nobody
    else writes under the root, as the operator is told to see to, the report is
    a function of what is there, so that a preview says what a cleanup will do. *)

(** An abandoned request directory, as the file system says. *)
Definition abandoned (before : Z) (name : str) (st : Stats) : Prop :=
  REQUEST_ID name = true ∧ st_kind st = KDirectory ∧ st_mtimeMs st < before.

Lemma filter_keep {A} (P : A → Prop) `{∀ x, Decision (P x)} l : Forall P l → filter P l = l.
Proof. induction 1 as [|x l Hx Hl IH]; [done|]. by rewrite filter_cons_True, IH. Qed.
Lemma filter_drop {A} (P : A → Prop) `{∀ x, Decision (P x)} l : Forall (λ x, ¬ P x) l → filter P l = [].
Proof. induction 1 as [|x l Hx Hl IH]; [done|]. by rewrite filter_cons_False, IH. Qed.

Section effects.
Context {W : Type} `{StagingDisk W} (errno_message : Errno → str) (root : str).
Context (R : W → W → Prop) `{!PreOrder R}.

(** What looking at the root and its children leaves as it was, and what removing an abandoned directory leaves. *)
Record kept_by_pass (before : Z) (destructive : bool) : Prop := {
  kp_readdir w : R w (sys_readdir root w).2;
  kp_lstat name w : R w (sys_lstat (path_join root name) w).2;
  kp_rm name st w w1 : destructive = true → sys_lstat (path_join root name) w = (Ok st, w1) → abandoned before name st →
    R w1 (sg_rm (path_join root name) w1).2;
}.

Lemma pass_names_keeps before destructive max ns r w :
  kept_by_pass before destructive → sr_before r = before → R w (pass_names errno_message root destructive max ns r w).2.
Proof.
  intros HR. revert r w. induction ns as [|name ns IH]; intros r w Hb; [done|]. cbn [pass_names].
  destruct (REQUEST_ID name) eqn:Hid; cbn [negb]; [|by apply IH].
  pose proof (kp_lstat _ _ HR name w) as Hl. unfold mbind, io_mbind, try_catch.
  destruct (sys_lstat (path_join root name) w) as [[st|e] w1] eqn:E; cbn in Hl |- *;
    [|etrans; [exact Hl|by apply IH]].
  etrans; [exact Hl|].
  case_bool_decide as Hk; cbn [negb]; [|by apply IH].
  destruct (Z.leb_spec (sr_before r) (st_mtimeMs st)); [by apply IH|].
  destruct (Z.of_nat (length (sr_entries r)) =? max); [done|].
  destruct destructive; cbn [negb]; [|by apply IH].
  pose proof (kp_rm _ _ HR name st w w1 eq_refl E ltac:(split_and!; [done|done|lia])) as Hr.
  destruct (sg_rm (path_join root name) w1) as [[u|e] w2]; cbn in Hr |- *; (etrans; [exact Hr|by apply IH]).
Qed.

(** C21 A pass touches nothing but abandoned directories: whatever is left as it was by looking at the root and its
    children, and by removing a child that had a request id for a name and was a directory last touched before the
    cutoff when it was looked at just before, is as it was at the end. A preview removes nothing. *)
Theorem pass_touches_only_abandoned before max destructive w :
  kept_by_pass before destructive → R w (pass errno_message root (Some before) max destructive w).2.
Proof.
  intros HR. unfold pass. destruct (limitOf max) as [m|e]; [|done].
  pose proof (kp_readdir _ _ HR w) as Hd. unfold mbind, io_mbind, io_map_err.
  destruct (sys_readdir root w) as [[ns|e] w1]; [|done]. etrans; [exact Hd|]. by apply (pass_names_keeps before).
Qed.
End effects.

(** ** The report *)

(** A root nobody else writes under: what [lstat] says of a child changes only when that child is removed. *)
Class StagingRootLaws (W : Type) `{StagingDisk W} (root : str) := {
  answer : W → str → res Errno Stats;
  sl_lstat w name : (sys_lstat (path_join root name) w).1 = answer w name;
  sl_calm w name m : answer (sys_lstat (path_join root name) w).2 m = answer w m;
  sl_readdir w m : answer (sys_readdir root w).2 m = answer w m;
  sl_names w ns w' : sys_readdir root w = (Ok ns, w') → NoDup ns;
  sl_rm w name m : m ≠ name → answer (sg_rm (path_join root name) w).2 m = answer w m;
}.

Section report.
Context {W : Type} `{StagingRootLaws W root} (errno_message : Errno → str) (before : Z).
Implicit Types w : W.

(** An entry, where the child is an abandoned directory; a problem, where it is nothing a server leaves. *)
Definition old (a : str → res Errno Stats) (name : str) : option StagingEntry :=
  match a name with
  | Ok st =>
      if REQUEST_ID name && bool_decide (st_kind st = KDirectory) && (st_mtimeMs st <? before)
      then Some {| se_requestId := name; se_modifiedAt := st_mtimeMs st |} else None
  | Throw _ => None
  end.

Definition declined (a : str → res Errno Stats) (name : str) : option StagingProblem :=
  if negb (REQUEST_ID name) then
    Some {| sp_code := NOT_A_REQUEST_ID; sp_name := name; sp_message := js "not a name this server gives a request directory" |}
  else
    match a name with
    | Throw e => Some {| sp_code := UNREADABLE_ENTRY; sp_name := name; sp_message := errno_message e |}
    | Ok st =>
        if bool_decide (st_kind st = KDirectory) then None
        else Some {| sp_code := NOT_A_DIRECTORY; sp_name := name;
                     sp_message := if bool_decide (st_kind st = KSymlink)
                       then js "a symbolic link where a request directory belongs; it is not followed"
                       else js "not a directory, so not a request directory this server made" |}
    end.

(** The names before the first abandoned directory too many. *)
Fixpoint examined (a : str → res Errno Stats) (k : nat) (ns : list str) : list str :=
  match ns with
  | [] => []
  | n :: ns =>
      match old a n, k with
      | None, _ => n :: examined a k ns
      | Some _, S k => n :: examined a k ns
      | Some _, O => []
      end
  end.

Definition removal_failed (p : StagingProblem) : bool := match sp_code p with REMOVE_FAILED => true | _ => false end.
Definition failed_removals (r : StagingReport) : nat := length (filter (λ p, removal_failed p) (sr_problems r)).

(** The report of a pass over [ns], continued from [r]. *)
Record surveyed (a : str → res Errno Stats) (destructive : bool) (k : nat) (ns : list str) (r r' : StagingReport) : Prop := {
  sv_entries : sr_entries r' = sr_entries r ++ take k (omap (old a) ns);
  sv_truncated : sr_truncated r' = bool_decide (k < length (omap (old a) ns))%nat;
  sv_problems : filter (λ p, negb (removal_failed p)) (sr_problems r') =
    filter (λ p, negb (removal_failed p)) (sr_problems r) ++ omap (declined a) (examined a k ns);
  sv_removed : (sr_removed r' + failed_removals r')%nat =
    (sr_removed r + failed_removals r + if destructive then length (take k (omap (old a) ns)) else 0)%nat;
  sv_same : sr_dryRun r' = sr_dryRun r ∧ sr_before r' = sr_before r;
}.

Lemma survey_nil a destructive k r : sr_truncated r = false → surveyed a destructive k [] r r.
Proof. intros Ht. split; simpl; rewrite ?take_nil, ?app_nil_r; destruct destructive; simpl; try done; lia. Qed.

(** A child that is no abandoned directory. *)
Lemma survey_skip a destructive k name ns r r1 r' :
  old a name = None → sr_entries r1 = sr_entries r → sr_removed r1 = sr_removed r →
  sr_problems r1 = sr_problems r ++ option_list (declined a name) →
  sr_dryRun r1 = sr_dryRun r ∧ sr_before r1 = sr_before r →
  surveyed a destructive k ns r1 r' → surveyed a destructive k (name :: ns) r r'.
Proof.
  intros Ho He Hr Hp [Hd Hb] [S1 S2 S3 S4 [S5 S6]].
  assert (Forall (λ p, negb (removal_failed p)) (option_list (declined a name))) as Hf.
  { unfold declined. destruct (REQUEST_ID name); simpl; [|by repeat constructor].
    destruct (a name) as [st|]; [|by repeat constructor].
    destruct (bool_decide (st_kind st = KDirectory)); by repeat constructor. }
  split; cbn [omap list_omap examined]; rewrite ?Ho.
  - by rewrite S1, He.
  - done.
  - rewrite S3, Hp, filter_app, (filter_keep _ (option_list _)), <- app_assoc by done.
    f_equal. cbn [omap list_omap]. by destruct (declined a name).
  - rewrite S4, Hr. unfold failed_removals. rewrite Hp, filter_app, length_app, (filter_drop _ (option_list _)); cbn [length]; [lia|].
    eapply Forall_impl; [exact Hf|]. intros p. by rewrite negb_True.
  - by rewrite S5, S6, Hd, Hb.
Qed.

(** An abandoned directory there is still room for. *)
Lemma survey_take a (destructive : bool) k name ns r r1 r' en :
  old a name = Some en → declined a name = None → sr_entries r1 = sr_entries r ++ [en] →
  filter (λ p, negb (removal_failed p)) (sr_problems r1) = filter (λ p, negb (removal_failed p)) (sr_problems r) →
  (sr_removed r1 + failed_removals r1 = sr_removed r + failed_removals r + if destructive then 1 else 0)%nat →
  sr_dryRun r1 = sr_dryRun r ∧ sr_before r1 = sr_before r →
  surveyed a destructive k ns r1 r' → surveyed a destructive (S k) (name :: ns) r r'.
Proof.
  intros Ho Hde He Hp Hr [Hd Hb] [S1 S2 S3 S4 [S5 S6]].
  split; cbn [omap list_omap examined take]; rewrite ?Ho; cbn [omap list_omap take]; rewrite ?Hde.
  - by rewrite S1, He, <- app_assoc.
  - rewrite S2. apply bool_decide_ext. cbn [length]. lia.
  - by rewrite S3, Hp.
  - rewrite S4, Hr. destruct destructive; simpl; lia.
  - by rewrite S5, S6, Hd, Hb.
Qed.
(** One more than there is room for. *)
Lemma survey_full a (destructive : bool) name ns r en :
  old a name = Some en → surveyed a destructive 0 (name :: ns) r (r <| sr_truncated := true |>).
Proof.
  intros Ho. split; cbn [omap list_omap examined take]; rewrite ?Ho; simpl; rewrite ?app_nil_r; try done.
  unfold failed_removals. simpl. destruct destructive; lia.
Qed.

Lemma pass_names_surveys destructive max ns r w a :
  (∀ m, m ∈ ns → answer w m = a m) → NoDup ns → sr_before r = before → sr_truncated r = false →
  Z.of_nat (length (sr_entries r)) <= max →
  ∃ r' w', pass_names errno_message root destructive max ns r w = (Ok r', w') ∧
    surveyed a destructive (Z.to_nat max - length (sr_entries r)) ns r r'.
Proof.
  revert r w. induction ns as [|name ns IH]; intros r w Ha Hn Hb Ht Hm.
  { exists r, w. split; [done|]. by apply survey_nil. }
  apply NoDup_cons in Hn as [Hn1 Hn2]. cbn [pass_names].
  assert (Hlook := sl_lstat w name). assert (Hcalm := sl_calm w name). rewrite (Ha name) in Hlook by set_solver.
  unfold mbind, io_mbind, try_catch. unfold old, declined in *.
  destruct (REQUEST_ID name) eqn:Hid; cbn [negb].
  2: { destruct (IH (complain NOT_A_REQUEST_ID name (js "not a name this server gives a request directory") r) w)
         as (r' & w' & E & S); [set_solver|exact Hn2|exact Hb|exact Ht|exact Hm|]. exists r', w'. split; [exact E|].
       eapply survey_skip; [| | | | |exact S]; [|done|done| |done].
       - unfold old. rewrite Hid. by destruct (a name).
       - unfold declined. by rewrite Hid. }
  destruct (sys_lstat (path_join root name) w) as [[st|e] w1]; cbn in Hlook, Hcalm |- *; symmetry in Hlook.
  2: { destruct (IH (complain UNREADABLE_ENTRY name (errno_message e) r) w1) as (r' & w' & E & S);
         [intros m Hm'; rewrite Hcalm; apply Ha; set_solver|exact Hn2|exact Hb|exact Ht|exact Hm|]. exists r', w'. split; [exact E|].
       eapply survey_skip; [| | | | |exact S]; [|done|done| |done].
       - unfold old. by rewrite Hlook.
       - unfold declined. by rewrite Hid, Hlook. }
  assert (∀ m, m ∈ ns → answer w1 m = a m) as Ha1 by (intros m Hm'; rewrite Hcalm; apply Ha; set_solver).
  destruct (bool_decide (st_kind st = KDirectory)) eqn:Hk; cbn [negb].
  2: { destruct (IH (complain NOT_A_DIRECTORY name (if bool_decide (st_kind st = KSymlink)
          then js "a symbolic link where a request directory belongs; it is not followed"
          else js "not a directory, so not a request directory this server made") r) w1)
         as (r' & w' & E & S); [exact Ha1|exact Hn2|exact Hb|exact Ht|exact Hm|]. exists r', w'. split; [exact E|].
       eapply survey_skip; [| | | | |exact S]; [|done|done| |done].
       - unfold old. by rewrite Hlook, Hid, Hk.
       - unfold declined. by rewrite Hid, Hlook, Hk. }
  assert (declined a name = None) as Hd by (unfold declined; by rewrite Hid, Hlook, Hk).
  destruct (Z.leb_spec (sr_before r) (st_mtimeMs st)) as [Hy|Hy]; rewrite Hb in Hy.
  { destruct (IH r w1) as (r' & w' & E & S); [exact Ha1|exact Hn2|exact Hb|exact Ht|exact Hm|]. exists r', w'. split; [exact E|].
    eapply survey_skip; [| | | | |exact S]; [|done|done| |done].
    - unfold old. by rewrite Hlook, Hid, Hk, (proj2 (Z.ltb_ge _ _)).
    - by rewrite Hd, app_nil_r. }
  set (en := {| se_requestId := name; se_modifiedAt := st_mtimeMs st |}).
  assert (old a name = Some en) as Ho by (unfold old; by rewrite Hlook, Hid, Hk, (proj2 (Z.ltb_lt _ _))).
  destruct (Z.eqb_spec (Z.of_nat (length (sr_entries r))) max) as [Hf|Hf].
  { exists (r <| sr_truncated := true |>), w1. split; [done|].
    replace (Z.to_nat max - length (sr_entries r))%nat with 0%nat by lia. by eapply survey_full. }
  assert (∀ r1 w2, sr_before r1 = before → sr_truncated r1 = false → sr_dryRun r1 = sr_dryRun r →
    sr_entries r1 = sr_entries r ++ [en] → (∀ m, m ∈ ns → answer w2 m = a m) →
    filter (λ p, negb (removal_failed p)) (sr_problems r1) = filter (λ p, negb (removal_failed p)) (sr_problems r) →
    (sr_removed r1 + failed_removals r1 = sr_removed r + failed_removals r + if destructive then 1 else 0)%nat →
    ∃ r' w', pass_names errno_message root destructive max ns r1 w2 = (Ok r', w') ∧
      surveyed a destructive (Z.to_nat max - length (sr_entries r)) (name :: ns) r r') as Hgo.
  { intros r1 w2 Hb1 Ht1 Hd1 He1 Ha2 Hp1 Hr1. assert (length (sr_entries r1) = S (length (sr_entries r))) as Hl.
    { rewrite He1, length_app. simpl. lia. }
    destruct (IH r1 w2) as (r' & w' & E & S); [done..|rewrite Hl; lia|]. exists r', w'. split; [done|].
    replace (Z.to_nat max - length (sr_entries r))%nat with (Datatypes.S (Z.to_nat max - length (sr_entries r1)))%nat by lia.
    eapply survey_take; [exact Ho|exact Hd|exact He1|exact Hp1|exact Hr1| |exact S]. split; [done|]. by rewrite Hb, Hb1. }
  destruct destructive; cbn [negb].
  2: { apply Hgo; simpl; try done. all: unfold failed_removals; simpl; lia. }
  pose proof (λ m, sl_rm w1 name m) as Hrm.
  destruct (sg_rm (path_join root name) w1) as [[u|e] w2]; cbn in Hrm |- *; apply Hgo; simpl; try done.
  all: try (intros m Hm'; rewrite Hrm; [by apply Ha1|by intros ->]).
  all: unfold failed_removals; simpl; rewrite ?filter_app, ?length_app; simpl; rewrite ?app_nil_r; first [done|lia].
Qed.

(** A cleanup is a function of what is under the root, and a preview foretells it: both list the first directories,
    at most as many as asked for, in name order, that are abandoned, say whether there were more, and report the same
    other children; the preview removes none, and the cleanup removes each it lists or says it could not. *)
Theorem preview_foretells_clean max m w ns w0 :
  limitOf max = Ok m → sys_readdir root w = (Ok ns, w0) →
  ∃ rp wp rc wc,
    preview errno_message root (Some before) max w = (Ok rp, wp) ∧
    clean errno_message root (Some before) max w = (Ok rc, wc) ∧
    sr_entries rp = take (Z.to_nat m) (omap (old (answer w)) (sort compare ns)) ∧
    sr_truncated rp = bool_decide (Z.to_nat m < length (omap (old (answer w)) (sort compare ns)))%nat ∧
    sr_problems rp = omap (declined (answer w)) (examined (answer w) (Z.to_nat m) (sort compare ns)) ∧
    sr_removed rp = 0%nat ∧
    sr_entries rc = sr_entries rp ∧ sr_truncated rc = sr_truncated rp ∧
    filter (λ p, negb (removal_failed p)) (sr_problems rc) = sr_problems rp ∧
    (sr_removed rc + failed_removals rc = length (sr_entries rc))%nat.
Proof.
  intros Hm Hd. unfold preview, clean, pass. rewrite Hm. unfold mbind, io_mbind, io_map_err. rewrite Hd.
  assert (1 <= m) as Hm1.
  { unfold limitOf in Hm. destruct max as [v|]; [|by injection Hm as <-]. destruct (as_safe_integer v) as [n|]; [|done].
    destruct (Z.ltb_spec n 1); [done|]. injection Hm as <-. unfold MAX_STAGING_ENTRIES. lia. }
  assert (∀ destructive r, sr_before r = before → sr_truncated r = false → sr_entries r = [] →
    ∃ r' w', pass_names errno_message root destructive m (sort compare ns) r w0 = (Ok r', w') ∧
      surveyed (answer w) destructive (Z.to_nat m) (sort compare ns) r r') as Hp.
  { intros destructive r Hb Ht He.
    destruct (pass_names_surveys destructive m (sort compare ns) r w0 (answer w)) as (r' & w' & E & S).
    - intros n _. pose proof (sl_readdir w n) as Hr. by rewrite Hd in Hr.
    - rewrite sort_Permutation. by eapply sl_names.
    - done.
    - done.
    - rewrite He. simpl. lia.
    - exists r', w'. split; [done|]. by rewrite He, Nat.sub_0_r in S. }
  destruct (Hp false {| sr_dryRun := true; sr_before := before; sr_entries := []; sr_removed := 0; sr_problems := [];
    sr_truncated := false |}) as (rp & wp & Ep & [P1 P2 P3 P4 _]); [done..|].
  destruct (Hp true {| sr_dryRun := false; sr_before := before; sr_entries := []; sr_removed := 0; sr_problems := [];
    sr_truncated := false |}) as (rc & wc & Ec & [C1 C2 C3 C4 _]); [done..|].
  unfold failed_removals in *. cbn [sr_entries sr_problems sr_removed app filter list_filter length Nat.add] in *.
  assert (filter (λ p, negb (removal_failed p)) (sr_problems rp) = sr_problems rp) as Hall.
  { apply filter_keep, Forall_forall. intros p Hin. rewrite negb_True. intros Hp'.
    apply (filter_nil_not_elem_of (λ p, removal_failed p) (sr_problems rp) p); [|done|done].
    apply length_zero_iff_nil. lia. }
  exists rp, wp, rc, wc. split_and!; [exact Ep|exact Ec|done|done|by rewrite <- Hall|lia|congruence|congruence| |].
  - by rewrite C3, <- P3.
  - by rewrite C4, C1.
Qed.
End report.
