(* ===== verification/HttpIngest.v ===== *)
(** * Receiving a run (http-api/src/ingest.ts)

    One upload, from the first check to the answer. The body is what the parser
    gives, call by call: before each part, and between the pieces of one, bytes of
    the body arrive and are counted; the body may end, or fail, at any call. The
    run is staged under a fresh directory, the store archives it, and the
    directory is removed whatever happened. The parser, the store and the file
    system are the world's. *)

From S2P Require Import Prelude JsString JsBytes JsMap JsNumber PwText Json JsDate Instants Validator ValidatorRun Codec RunRef Dto Io Staging.

Local Open Scope Z_scope.

(** ** The request *)

(** [Part]: what the parser hands over. *)
Inductive Part :=
| FilePart (fieldname : str) (file : Source)
| FieldPart (fieldname : str) (value : json) (valueTruncated : bool).

(** What [parts.next()] gives, call by call, with the sizes of the chunks that arrive while it is waited for. *)
Inductive Body :=
| BodyEnd (arrived : list Z)
| BodyFails (arrived : list Z) (e : Thrown)
| BodyPart (arrived : list Z) (part : Part) (rest : Body).

Record UploadRequest := {
  rq_id : str;
  rq_isMultipart : bool;
  rq_contentLength : option str;
  rq_parts : Thrown + Body;         (* [request.parts()] may throw *)
}.

Record IngestionResponse := { ir_status : Z; ir_body : obj; ir_location : option str }.

(** ** The store (postgres/src/store.ts) *)

Record PersistRequest := {
  pq_projectId : str; pq_runDirectory : str; pq_expiresAt : Date; pq_sourceLocator : option str;
}.

Class RunWriter (W : Type) := persistRunDirectory : PersistRequest → io W Thrown PersistResult.

(** ** Refusals *)

Definition Interruption : Type := Failure Problem.

Definition MAX_DIAGNOSTICS : nat := 200.

(** [tooLarge] *)
Definition tooLarge (detail : str) : Problem := problem PAYLOAD_TOO_LARGE detail.

(** [/multipart|boundary|part|form|header/iu.test(message)] *)
Definition lower (u : N) : N := if is_upper u then (u + 32)%N else u.
Definition framing_message (message : str) : bool :=
  existsb (λ word, includes word (lower <$> message)) [js "multipart"; js "boundary"; js "part"; js "form"; js "header"].

(** [multipartProblem], of anything that is not a [Problem] already. *)
Definition multipartProblem (e : Thrown) : Interruption :=
  let code := default [] (th_code e) in
  let coded c := str_eqb code (js c) in
  if coded "FST_PARTS_LIMIT"%string || coded "FST_FILES_LIMIT"%string then
    Refused (tooLarge (js "the upload has more parts than this server accepts"))
  else if coded "FST_REQ_FILE_TOO_LARGE"%string then Refused (tooLarge (js "a part is larger than this server accepts"))
  else if coded "FST_FIELDS_LIMIT"%string then Refused (problem BAD_REQUEST (js "the only text part is expiresAt, sent once"))
  else if coded "FST_INVALID_MULTIPART_CONTENT_TYPE"%string then
    Refused (problem UNSUPPORTED_MEDIA_TYPE (js "a run is uploaded as multipart/form-data"))
  else if coded "FST_MP_PREMATURE_CLOSE"%string then
    Refused (problem BAD_REQUEST (js "the request ended before its multipart body did"))
  else if coded "FST_PROTO_VIOLATION"%string || coded "FST_INVALID_JSON_FIELD_ERROR"%string then
    Refused (problem BAD_REQUEST (js "the multipart body has a part this server refuses"))
  else if framing_message (th_message e) && negb (th_errno e) then
    Refused (problem BAD_REQUEST (js "the multipart body is malformed"))
  else Other e.

(** The catch around writing a part. *)
Definition part_failure (e : Interruption) : Interruption :=
  match e with
  | Refused p => Refused p
  | LimitExceeded message => Refused (tooLarge message)
  | PartAborted => Refused (problem BAD_REQUEST (js "the multipart body ended before one of its parts did"))
  | Other t => multipartProblem t
  end.

(** [parseExpiry] *)
Definition parseExpiry (value : json) (valueTruncated : bool) : res Interruption Date :=
  let refused := Refused (problem BAD_REQUEST (js "expiresAt must be " ++ OPERATIONAL_INSTANT_GRAMMAR)) in
  match value with
  | JStr _ =>
      if valueTruncated then Throw refused
      else match api_parseOperationalInstant value (js "expiresAt") with Ok d => Ok d | Throw _ => Throw refused end
  | _ => Throw refused
  end.

(** [respond] *)
Definition respond (result : PersistResult) : res Interruption IngestionResponse :=
  match result with
  | Inserted runId n =>
      Ok {| ir_status := 201; ir_body := inserted_dto runId n; ir_location := Some (js "/v1/runs/" ++ encodeRunRef runId) |}
  | AlreadyPresent runId n added retention rebuilt =>
      Ok {| ir_status := 200; ir_body := already_present_dto runId n added retention rebuilt; ir_location := None |}
  | Conflict runId _ _ =>
      Throw (Refused {| pb_code := RUN_CONFLICT;
        pb_detail := js "another run with different content is already archived under this run id in this project";
        pb_extensions := [(js "runId", JStr runId)] |})
  | Rejected reason runId diagnostics =>
      let shown := diagnosticDto <$> take MAX_DIAGNOSTICS diagnostics in
      let more := (length diagnostics - length shown)%nat in
      let '(code, detail) := match reason with
        | RUN_INVALID_ => (RUN_INVALID, js "the protocol source is not valid")
        | RUN_INCOMPLETE_ => (RUN_INCOMPLETE, js "the run is valid but not complete; only complete runs are archived")
        | RUN_EMPTY_ => (RUN_EMPTY, js "the upload holds no protocol events") end in
      Throw (Refused {| pb_code := code;
        pb_detail := if (0 <? more)%nat then detail ++ js "; " ++ dec (Z.of_nat more) ++ js " further diagnostics are not listed" else detail;
        pb_extensions := match runId with Some r => [(js "runId", JStr r)] | None => [] end
          ++ [(js "diagnostics", JArr (JObj <$> shown))] |})
  end.

(** ** Counting *)

Record Counters := {
  ct_received : Z;
  ct_expiresAt : option Date;
  ct_eventParts : Z;
  ct_eventBytes : Z;
  ct_attachmentParts : Z;
  ct_attachmentBytes : Z;
  ct_partBytes : Z;                 (* bytesOfThisPart *)
}.
#[export] Instance Counters_fields : Fields Counters := λ c,
  {| ct_received := ct_received c; ct_expiresAt := ct_expiresAt c; ct_eventParts := ct_eventParts c;
     ct_eventBytes := ct_eventBytes c; ct_attachmentParts := ct_attachmentParts c;
     ct_attachmentBytes := ct_attachmentBytes c; ct_partBytes := ct_partBytes c |}.

Definition no_counters : Counters :=
  {| ct_received := 0; ct_expiresAt := None; ct_eventParts := 0; ct_eventBytes := 0; ct_attachmentParts := 0;
     ct_attachmentBytes := 0; ct_partBytes := 0 |}.

Section ingest.
Context {W : Type} `{StagingDisk W} `{RunWriter W}.
Context (sha256 : bytes → str) (errno_message : Errno → str) (to_number : str → number) (limits : TransportLimits).

(** [onData]: past the limit, whatever is waited for ends with the refusal. *)
Definition onData (n : Z) (c : Counters) : res Interruption Counters :=
  let c := c <| ct_received ::= λ r, r + n |> in
  if maxRequestBytes limits <? ct_received c then
    Throw (Refused (tooLarge (js "the request is larger than " ++ dec (maxRequestBytes limits) ++ js " bytes")))
  else Ok c.

Fixpoint onDatas (ns : list Z) (c : Counters) : res Interruption Counters :=
  match ns with [] => Ok c | n :: ns => c ← onData n c; onDatas ns c end.

(** What the parts' bytes are reported to. *)
Definition count_events (n : Z) (c : Counters) : res Interruption Counters :=
  let c := c <| ct_eventBytes ::= λ r, r + n |> in
  if maxEventBytes limits <? ct_eventBytes c then
    Throw (LimitExceeded (js "the events parts exceed " ++ dec (maxEventBytes limits) ++ js " bytes"))
  else Ok c.

Definition count_attachment (n : Z) (c : Counters) : res Interruption Counters :=
  let c := c <| ct_partBytes ::= λ r, r + n |> <| ct_attachmentBytes ::= λ r, r + n |> in
  if maxAttachmentBytes limits <? ct_partBytes c then
    Throw (LimitExceeded (js "an attachment exceeds " ++ dec (maxAttachmentBytes limits) ++ js " bytes"))
  else if maxTotalAttachmentBytes limits <? ct_attachmentBytes c then
    Throw (LimitExceeded (js "the attachment parts exceed " ++ dec (maxTotalAttachmentBytes limits) ++ js " bytes"))
  else Ok c.

Definition unexpected_part (fieldname : str) (is_file : bool) : Problem :=
  problem BAD_REQUEST (js "unexpected part " ++ json_quote (take 32 fieldname) ++ js " as "
    ++ (if is_file then js "a file" else js "text")
    ++ js "; the parts are expiresAt (text), events (files), and attachment (files)").

(** The body of the loop, for one part. *)
Definition receive_part (u : StagedUpload) (part : Part) (c : Counters) : io W Interruption (StagedUpload * Counters) :=
  match part with
  | FieldPart fieldname value truncated =>
      if negb (str_eqb fieldname (js "expiresAt")) then throw (Refused (unexpected_part fieldname false))
      else if bool_decide (is_Some (ct_expiresAt c)) then throw (Refused (problem BAD_REQUEST (js "expiresAt is sent once")))
      else match parseExpiry value truncated with
        | Ok d => mret (u, c <| ct_expiresAt := Some d |>)
        | Throw e => throw e
        end
  | FilePart fieldname file =>
      if str_eqb fieldname (js "events") then
        let c := c <| ct_eventParts ::= Z.succ |> in
        if maxEventParts limits <? ct_eventParts c then
          throw (Refused (tooLarge (js "more than " ++ dec (maxEventParts limits) ++ js " events parts")))
        else io_map_err part_failure (writeEvents errno_message onData count_events u file c)
      else if str_eqb fieldname (js "attachment") then
        let c := c <| ct_attachmentParts ::= Z.succ |> in
        if maxAttachmentParts limits <? ct_attachmentParts c then
          throw (Refused (tooLarge (js "more than " ++ dec (maxAttachmentParts limits) ++ js " attachment parts")))
        else
          '(u, _, c) ← io_map_err part_failure
            (writeAttachment sha256 errno_message onData count_attachment u file (c <| ct_partBytes := 0 |>));
          mret (u, c)
      else throw (Refused (unexpected_part fieldname true))
  end.

Definition lift {A} (r : res Interruption A) : io W Interruption A :=
  match r with Ok a => mret a | Throw e => throw e end.

(** The loop of [receive]. *)
Fixpoint receive_parts (u : StagedUpload) (c : Counters) (body : Body) : io W Interruption (StagedUpload * Counters) :=
  match body with
  | BodyEnd ns => c ← lift (onDatas ns c); mret (u, c)
  | BodyFails ns e => _ ← lift (onDatas ns c); throw (multipartProblem e)
  | BodyPart ns part rest =>
      c ← lift (onDatas ns c);
      '(u, c) ← receive_part u part c;
      receive_parts u c rest
  end.

(** [receive] *)
Definition receive (request : UploadRequest) (staged : StagedUpload) : io W Interruption Date :=
  match rq_parts request with
  | inl e => throw (multipartProblem e)
  | inr body =>
      '(_, c) ← receive_parts staged no_counters body;
      match ct_expiresAt c with
      | None => throw (Refused (problem BAD_REQUEST (js "expiresAt is required, once, as a text part")))
      | Some d =>
          if ct_eventParts c =? 0 then throw (Refused (problem BAD_REQUEST (js "at least one events part is required")))
          else mret d
      end
  end.

(** [try { m } finally { await f }]: what [f] throws replaces what [m] gave. *)
Definition try_finally_io {E A} (m : io W E A) (f : io W E unit) : io W E A := λ w,
  let '(r, w) := m w in
  match f w with (Ok _, w) => (r, w) | (Throw e, w) => (Throw e, w) end.

(** [declared !== undefined && Number(declared) > limits.maxRequestBytes] *)
Definition declared_too_large (request : UploadRequest) : bool :=
  match rq_contentLength request with
  | Some declared => number_gt (to_number declared) (maxRequestBytes limits)
  | None => false
  end.

(** The body of its [try]. *)
Definition archive_upload (request : UploadRequest) (projectId : str) (staged : StagedUpload) : io W Interruption IngestionResponse :=
  expiresAt ← receive request staged;
  result ← io_map_err Other (persistRunDirectory
    {| pq_projectId := projectId; pq_runDirectory := su_directory staged; pq_expiresAt := expiresAt;
       pq_sourceLocator := Some (js "http:" ++ rq_id request) |});
  lift (respond result).

(** [ingestUpload] *)
Definition ingestUpload (request : UploadRequest) (projectId stagingRoot : str) : io W Interruption IngestionResponse :=
  if negb (rq_isMultipart request) then
    throw (Refused (problem UNSUPPORTED_MEDIA_TYPE (js "a run is uploaded as multipart/form-data")))
  else if declared_too_large request then
    throw (Refused (tooLarge (js "the request is larger than " ++ dec (maxRequestBytes limits) ++ js " bytes")))
  else
    staged ← create errno_message stagingRoot (rq_id request);
    try_finally_io (archive_upload request projectId staged) (remove errno_message staged).
End ingest.
