(* ===== verification/HttpIngestSpec.v ===== *)
(** * What an upload leaves, and what it was

    The store is handed a directory that holds exactly the parts of the body, byte
    for byte, within every limit, with the one expiry the body states; and when
    the upload is over its directory is gone. The laws say what a file system does
    under a directory only this request writes to. *)

From Stdlib Require Import Strings.Byte.
From S2P Require Import Prelude JsString JsBytes JsMap JsNumber PwText Json JsDate Instants Validator ValidatorRun Codec RunRef Dto FileSink BlobStore Io Staging HttpIngest.

Local Open Scope Z_scope.

(** ** Names under a request directory *)

Lemma pad6_inj n m : pad6 n = pad6 m → n = m.
Proof.
  assert (∀ n, undigits_from 0 (pad6 n) = Z.of_nat n) as H.
  { intros k. unfold pad6. cbv zeta. assert (∀ j s, undigits_from 0 (replicate j 48%N ++ s) = undigits_from 0 s) as ->.
    { induction j as [|j IH]; [done|]. exact IH. }
    unfold dec. destruct (Z.ltb_spec (Z.of_nat k) 0); [lia|]. apply undigits_dec_nonneg. lia. }
  intros E. pose proof (H n) as Hn. rewrite E, H in Hn. lia.
Qed.

Lemma digits_simple s : forallb is_digit s = true → simple_name s.
Proof. intros Hs Hin. rewrite forallb_forall in Hs. by apply list_elem_of_In, Hs in Hin. Qed.

Lemma dec_nat_digits n : forallb is_digit (dec (Z.of_nat n)) = true.
Proof. unfold dec. destruct (Z.ltb_spec (Z.of_nat n) 0); [lia|]. apply dec_nonneg_digits. lia. Qed.

Lemma event_name_simple n : simple_name (pad6 n ++ js ".ndjson").
Proof.
  unfold simple_name. rewrite not_elem_of_app. split; [|vm_compute; set_solver].
  apply digits_simple. unfold pad6. cbv zeta. rewrite forallb_app, dec_nat_digits, andb_true_r.
  by induction (6 - _)%nat.
Qed.

Lemma upload_name_simple n : simple_name (js ".upload-" ++ dec (Z.of_nat n)).
Proof.
  unfold simple_name. rewrite not_elem_of_app. split; [vm_compute; set_solver|]. apply digits_simple, dec_nat_digits.
Qed.

Lemma digest_simple h : isSha256 h = true → simple_name h.
Proof.
  unfold isSha256. intros [_ Hf]%andb_true_iff Hin. rewrite forallb_forall in Hf. by apply list_elem_of_In, Hf in Hin.
Qed.

(** ** What a file system does *)

Inductive Node := DirNode | FileNode (b : bytes).

Definition event_path {W} `{NodeFs W} (dir : str) (n : nat) : str :=
  path_join (path_join dir (js "events")) (pad6 n ++ js ".ndjson").
Definition attachment_path {W} `{NodeFs W} (dir digest : str) : str := path_join (path_join dir (js "attachments")) digest.
Definition temporary_path {W} `{NodeFs W} (dir : str) (n : nat) : str :=
  attachment_path dir (js ".upload-" ++ dec (Z.of_nat n)).

(** The paths of a request directory. *)
Definition own {W} `{NodeFs W} (dir p : str) : Prop :=
  p = dir ∨ p = path_join dir (js "events") ∨ p = path_join dir (js "attachments") ∨
  (∃ n, p = path_join (path_join dir (js "events")) n) ∨ ∃ n, p = path_join (path_join dir (js "attachments")) n.

Class StagingView (W : Type) := node : W → str → option Node.

Definition others_kept {W} `{NodeFs W} `{StagingView W} (dir q : str) (w w' : W) : Prop :=
  ∀ p, own dir p → p ≠ q → node w' p = node w p.

(** Only this request writes under [dir]; the store reads it. Of a call that fails only what is said of a link that
    finds its name taken is used. *)
Class StagingLaws (W : Type) `{StagingDisk W} `{RunWriter W} `{StagingView W} (dir : str) := {
  sg_join_inj a b c d : simple_name b → simple_name d → path_join a b = path_join c d → a = c ∧ b = d;
  sg_join_longer a b : b ≠ [] → (length a < length (path_join a b))%nat;
  sg_mkdir_law q w : others_kept dir q w (sg_mkdir q w).2;
  sg_create_ok q w w' : own dir q → sg_create q w = (Ok tt, w') → node w' q = Some (FileNode []) ∧ others_kept dir q w w';
  sg_write_ok q b c w w' : own dir q → sg_write q b w = (Ok tt, w') → node w q = Some (FileNode c) →
    node w' q = Some (FileNode (c ++ b)) ∧ others_kept dir q w w';
  sg_end_ok q w w' : sg_end q w = (Ok tt, w') → ∀ p, own dir p → node w' p = node w p;
  sg_link_ok a b w w' : own dir b → sg_link a b w = (Ok tt, w') → node w' b = node w a ∧ others_kept dir b w w';
  sg_link_taken a b w e w' : own dir b → sg_link a b w = (Throw e, w') → errno_code e = js "EEXIST" →
    node w b ≠ None ∧ ∀ p, own dir p → node w' p = node w p;
  sg_unlink_ok q w w' : sg_unlink q w = (Ok tt, w') → node w' q = None ∧ others_kept dir q w w';
  sg_rm_ok w w' : sg_rm dir w = (Ok tt, w') → ∀ p, own dir p → node w' p = None;
  persist_reads rq w p : own dir p → node (persistRunDirectory rq w).2 p = node w p;
}.

(** ** What a body says *)

Fixpoint pieces_arrived (ps : list Piece) : Z :=
  match ps with Arrived n :: ps => n + pieces_arrived ps | Chunk _ :: ps => pieces_arrived ps | [] => 0 end.
Definition sum (l : list Z) : Z := foldr Z.add 0 l.
Definition byte_length (b : bytes) : Z := Z.of_nat (length b).

Fixpoint parts_of (body : Body) : list Part :=
  match body with BodyPart _ part rest => part :: parts_of rest | _ => [] end.
Definition events_part (p : Part) : option bytes :=
  match p with FilePart f s => if str_eqb f (js "events") then Some (part_bytes s) else None | _ => None end.
Definition attachment_part (p : Part) : option bytes :=
  match p with FilePart f s => if str_eqb f (js "attachment") then Some (part_bytes s) else None | _ => None end.
Definition expiry_part (p : Part) : option (json * bool) :=
  match p with FieldPart _ v truncated => Some (v, truncated) | _ => None end.
Definition part_arrived (p : Part) : Z := match p with FilePart _ s => pieces_arrived (so_pieces s) | _ => 0 end.

Fixpoint body_arrived (body : Body) : Z :=
  match body with
  | BodyEnd ns | BodyFails ns _ => sum ns
  | BodyPart ns part rest => sum ns + part_arrived part + body_arrived rest
  end.

Definition events_of (body : Body) : list bytes := omap events_part (parts_of body).
Definition attachments_of (body : Body) : list bytes := omap attachment_part (parts_of body).
Definition expiries_of (body : Body) : list (json * bool) := omap expiry_part (parts_of body).

(** Every limit holds of the body. *)
Record within_limits (limits : TransportLimits) (body : Body) : Prop := {
  wl_request : body_arrived body <= maxRequestBytes limits;
  wl_event_parts : Z.of_nat (length (events_of body)) <= maxEventParts limits;
  wl_event_bytes : sum (byte_length <$> events_of body) <= maxEventBytes limits;
  wl_attachment_parts : Z.of_nat (length (attachments_of body)) <= maxAttachmentParts limits;
  wl_attachment_bytes : Forall (λ b, byte_length b <= maxAttachmentBytes limits) (attachments_of body);
  wl_total_bytes : sum (byte_length <$> attachments_of body) <= maxTotalAttachmentBytes limits;
}.

(** ** Counting *)

Definition under_limits (limits : TransportLimits) (c : Counters) : Prop :=
  ct_received c <= maxRequestBytes limits ∧ ct_eventParts c <= maxEventParts limits ∧
  ct_eventBytes c <= maxEventBytes limits ∧ ct_attachmentParts c <= maxAttachmentParts limits ∧
  ct_attachmentBytes c <= maxTotalAttachmentBytes limits.

(** What a pipeline that comes to its end has told its counters. *)
Fixpoint counted {C E} (arrived : Z → C → res E C) (report : bytes → C → res E C) (ps : list Piece) (c : C) : res E C :=
  match ps with
  | [] => Ok c
  | Arrived n :: ps => c ← arrived n c; counted arrived report ps c
  | Chunk b :: ps => c ← report b c; counted arrived report ps c
  end.

Section counting.
Context (limits : TransportLimits).

Lemma onData_ok n c c' : onData limits n c = Ok c' →
  c' = c <| ct_received ::= λ r, r + n |> ∧ ct_received c' <= maxRequestBytes limits.
Proof. unfold onData. simpl. destruct (Z.ltb_spec (maxRequestBytes limits) (ct_received c + n)); [done|]. intros [= <-]. done. Qed.

Lemma onDatas_ok ns c c' : under_limits limits c → onDatas limits ns c = Ok c' →
  c' = c <| ct_received ::= λ r, r + sum ns |> ∧ under_limits limits c'.
Proof.
  unfold under_limits. revert c. induction ns as [|n ns IH]; intros c Hc E.
  { injection E as <-. destruct c; simpl in *. by rewrite Z.add_0_r. }
  cbn [onDatas] in E. apply bind_Ok_inv in E as (c1 & [-> Hr]%onData_ok & E).
  apply IH in E as [-> Hu]; [|simpl in *; tauto]. split; [|done].
  change (sum (n :: ns)) with (n + sum ns). simpl. f_equal. lia.
Qed.

Lemma count_events_ok ps c c' : under_limits limits c →
  counted (onData limits) (λ b, count_events limits (Z.of_nat (length b))) ps c = Ok c' →
  c' = c <| ct_received ::= λ r, r + pieces_arrived ps |>
         <| ct_eventBytes ::= λ r, r + byte_length (concat (chunk_of <$> ps)) |> ∧ under_limits limits c'.
Proof.
  unfold under_limits, byte_length. revert c. induction ps as [|[n|b] ps IH]; intros c Hc E.
  - injection E as <-. destruct c; simpl in *. by rewrite !Z.add_0_r.
  - cbn [counted] in E. apply bind_Ok_inv in E as (c1 & [-> Hr]%onData_ok & E).
    apply IH in E as [-> Hu]; [|simpl in *; tauto]. split; [|done]. simpl. f_equal; lia.
  - cbn [counted] in E. apply bind_Ok_inv in E as (c1 & Ec & E). unfold count_events in Ec. simpl in Ec.
    destruct (Z.ltb_spec (maxEventBytes limits) (ct_eventBytes c + Z.of_nat (length b))); [done|]. injection Ec as <-.
    apply IH in E as [-> Hu]; [|simpl in *; tauto]. split; [|done].
    rewrite fmap_cons. cbn [chunk_of concat]. rewrite length_app, Nat2Z.inj_add. simpl. f_equal; lia.
Qed.

Lemma count_attachment_ok ps c c' : under_limits limits c → ct_partBytes c <= maxAttachmentBytes limits →
  counted (onData limits) (λ b, count_attachment limits (Z.of_nat (length b))) ps c = Ok c' →
  c' = c <| ct_received ::= λ r, r + pieces_arrived ps |>
         <| ct_attachmentBytes ::= λ r, r + byte_length (concat (chunk_of <$> ps)) |>
         <| ct_partBytes ::= λ r, r + byte_length (concat (chunk_of <$> ps)) |> ∧
  under_limits limits c' ∧ ct_partBytes c' <= maxAttachmentBytes limits.
Proof.
  unfold under_limits, byte_length. revert c. induction ps as [|[n|b] ps IH]; intros c Hc Hp E.
  - injection E as <-. destruct c; simpl in *. by rewrite !Z.add_0_r.
  - cbn [counted] in E. apply bind_Ok_inv in E as (c1 & [-> Hr]%onData_ok & E).
    apply IH in E as [-> Hu]; [|simpl in *; tauto|done]. split; [|done]. simpl. f_equal; lia.
  - cbn [counted] in E. apply bind_Ok_inv in E as (c1 & Ec & E). unfold count_attachment in Ec. simpl in Ec.
    destruct (Z.ltb_spec (maxAttachmentBytes limits) (ct_partBytes c + Z.of_nat (length b))); [done|].
    destruct (Z.ltb_spec (maxTotalAttachmentBytes limits) (ct_attachmentBytes c + Z.of_nat (length b))); [done|].
    injection Ec as <-.
    apply IH in E as [-> Hu]; [|simpl in *; tauto|simpl; lia]. split; [|done].
    rewrite fmap_cons. cbn [chunk_of concat]. rewrite length_app, Nat2Z.inj_add. simpl. f_equal; lia.
Qed.
End counting.

(** ** Writing parts *)

Section writing.
Context {W : Type} `{StagingLaws W dir} (errno_message : Errno → str).
Implicit Types w : W.

Lemma wp_sys {A} (m : io W Errno A) (Q : A → W → Prop) w :
  (∀ a w', m w = (Ok a, w') → Q a w') → wp (sys (Refusal := Problem) errno_message m) Q (λ _ _, True) w.
Proof. intros Hm. unfold sys, wp, io_map_err. destruct (m w) as [[a|e] w'] eqn:E; [by apply Hm|done]. Qed.

Lemma own_event n : own dir (event_path (W := W) dir n).
Proof. right. right. right. left. by eexists. Qed.
Lemma own_attachment n : own dir (attachment_path (W := W) dir n).
Proof. right. right. right. right. by eexists. Qed.

Section pump.
Context {C : Type} (arrived : Z → C → res Interruption C) (report : bytes → C → res Interruption C).

Lemma pump_ok path ps ending c old w : own dir path → node w path = Some (FileNode old) →
  wp (pump errno_message arrived report path ps ending c)
    (λ c' w', counted arrived report ps c = Ok c' ∧
       node w' path = Some (FileNode (old ++ concat (chunk_of <$> ps))) ∧ others_kept dir path w w') (λ _ _, True) w.
Proof.
  intros Ho. revert c old w. induction ps as [|[n|b] ps IH]; intros c old w Hn; cbn [pump counted].
  - destruct ending as [e|]; [done|]. apply wp_bind, wp_sys. intros [] w' E. apply wp_ret.
    pose proof (sg_end_ok _ _ _ E) as He. split; [done|]. split; [by rewrite He, app_nil_r|]. intros p Hp _. by apply He.
  - destruct (arrived n c) as [c1|e]; [|done]. by apply IH.
  - destruct (report b c) as [c1|e]; [|done]. apply wp_bind, wp_sys. intros [] w' E.
    destruct (sg_write_ok _ _ _ _ _ Ho E Hn) as [Hq Hq']. eapply wp_mono; [by apply IH|..|done].
    intros c' w2 (E2 & Hw & Hk). split; [done|]. cbn [fmap list_fmap concat chunk_of]. rewrite app_assoc.
    split; [done|]. intros p Hp Hne. by rewrite Hk, Hq'.
Qed.

Lemma pipeline_ok path s c w : own dir path →
  wp (pipeline errno_message arrived report path s c)
    (λ c' w', counted arrived report (so_pieces s) c = Ok c' ∧
       node w' path = Some (FileNode (part_bytes s)) ∧ others_kept dir path w w') (λ _ _, True) w.
Proof.
  intros Ho. unfold pipeline. destruct (so_destroyed s); [done|]. apply wp_bind, wp_sys. intros [] w' E.
  destruct (sg_create_ok _ _ _ Ho E) as [Hq Hq']. eapply wp_mono; [by apply (pump_ok _ _ _ _ [])|..|done].
  intros c' w2 (E2 & Hw & Hk). split; [done|]. split; [done|]. intros p Hp Hne. by rewrite Hk, Hq'.
Qed.
End pump.

(** ** What is staged *)

Context (sha256 : bytes → str) (Hsha : ∀ b, isSha256 (sha256 b) = true).

(** The directory holds these event files and these attachments, under their digests, and nothing else. *)
Record staged_as w (evs atts : list bytes) : Prop := {
  sa_event i b : evs !! i = Some b → node w (event_path dir (S i)) = Some (FileNode b);
  sa_attachment b : b ∈ atts →
    ∃ b', b' ∈ atts ∧ sha256 b' = sha256 b ∧ node w (attachment_path dir (sha256 b)) = Some (FileNode b');
  sa_only p : own dir p → node w p ≠ None →
    p = dir ∨ p = path_join dir (js "events") ∨ p = path_join dir (js "attachments") ∨
    (∃ i, (i < length evs)%nat ∧ p = event_path dir (S i)) ∨ ∃ b, b ∈ atts ∧ p = attachment_path dir (sha256 b);
}.

Lemma event_path_inj n m : event_path (W := W) dir n = event_path dir m → n = m.
Proof.
  intros E. apply (sg_join_inj (W := W) (dir := dir)) in E as [_ E]; [|apply event_name_simple..].
  apply app_inv_tail in E. by apply pad6_inj.
Qed.

Lemma event_not_attachment n d : simple_name d → event_path (W := W) dir n ≠ attachment_path dir d.
Proof.
  intros Hd E. apply (sg_join_inj (W := W) (dir := dir)) in E as [E _]; [|apply event_name_simple|done].
  apply (sg_join_inj (W := W) (dir := dir)) in E as [_ E]; [discriminate E|unfold simple_name; vm_compute; set_solver..].
Qed.

Lemma attachment_path_inj d d' : simple_name d → simple_name d' →
  attachment_path (W := W) dir d = attachment_path dir d' → d = d'.
Proof. intros Hd Hd' E. by apply (sg_join_inj (W := W) (dir := dir)) in E as [_ E]. Qed.

Lemma digest_not_temporary b n : attachment_path (W := W) dir (sha256 b) ≠ temporary_path dir n.
Proof.
  intros E. pose proof (Hsha b) as Hb. apply attachment_path_inj in E; [|by apply digest_simple|apply upload_name_simple].
  rewrite E in Hb. unfold isSha256 in Hb. by rewrite andb_false_r in Hb.
Qed.

(** Nothing else has moved. *)
Lemma staged_same w w' evs atts : (∀ p, own dir p → node w' p = node w p) → staged_as w evs atts → staged_as w' evs atts.
Proof.
  intros Hk [H1' H2' H3']. split.
  - intros i b Hi. rewrite Hk by apply own_event. by apply H1'.
  - intros b Hb. destruct (H2' b Hb) as (b' & Hb' & E & Hn). exists b'. split_and!; [done|done|]. by rewrite Hk by apply own_attachment.
  - intros p Hp. rewrite Hk by done. by apply H3'.
Qed.

Lemma staged_event w w' evs atts b :
  staged_as w evs atts → node w' (event_path dir (S (length evs))) = Some (FileNode b) →
  others_kept dir (event_path dir (S (length evs))) w w' → staged_as w' (evs ++ [b]) atts.
Proof.
  intros [H1' H2' H3'] Hb Hk. split.
  - intros i b' [Hi|[Hl Hi]]%lookup_app_Some.
    + rewrite Hk; [by apply H1'|apply own_event|]. intros E%event_path_inj. apply lookup_lt_Some in Hi. lia.
    + apply list_lookup_singleton_Some in Hi as [Hi ->]. by replace i with (length evs) by lia.
  - intros b' Hb'. destruct (H2' b' Hb') as (b2 & Hb2 & E & Hn). exists b2. split_and!; [done|done|].
    rewrite Hk; [done|apply own_attachment|]. intros E'. symmetry in E'. by apply event_not_attachment in E'; [|apply digest_simple].
  - intros p Hp Hn. destruct (decide (p = event_path dir (S (length evs)))) as [->|Hne].
    { right. right. right. left. exists (length evs). rewrite length_app. simpl. split; [lia|done]. }
    rewrite Hk in Hn by done. destruct (H3' p Hp Hn) as [?|[?|[?|[(i & Hi & ->)|?]]]]; auto 6.
    right. right. right. left. exists i. rewrite length_app. split; [lia|done].
Qed.

Lemma attachment_is_deep b :
  attachment_path (W := W) dir (sha256 b) ≠ dir ∧ attachment_path (W := W) dir (sha256 b) ≠ path_join dir (js "events") ∧
  attachment_path (W := W) dir (sha256 b) ≠ path_join dir (js "attachments").
Proof.
  assert (sha256 b ≠ []) as Hd by (intros E; pose proof (Hsha b) as Hb; by rewrite E in Hb).
  pose proof (sg_join_longer (dir := dir) (path_join dir (js "attachments")) (sha256 b) Hd) as L1.
  pose proof (sg_join_longer (dir := dir) dir (js "attachments") ltac:(done)) as L2. unfold attachment_path. split_and!.
  - intros E. rewrite E in L1. lia.
  - intros E. apply (sg_join_inj (W := W) (dir := dir)) in E as [E _]; [rewrite E in L2; lia|by apply digest_simple|].
    unfold simple_name. vm_compute. set_solver.
  - intros E. rewrite E in L1. lia.
Qed.

(** An attachment published under its digest, or already there, and its temporary name gone. *)
Lemma staged_attachment w w' evs atts b b' n :
  staged_as w evs atts → node w' (temporary_path dir n) = None →
  b' ∈ atts ++ [b] → sha256 b' = sha256 b → node w' (attachment_path dir (sha256 b)) = Some (FileNode b') →
  (∀ p, own dir p → p ≠ temporary_path dir n → p ≠ attachment_path dir (sha256 b) → node w' p = node w p) →
  staged_as w' evs (atts ++ [b]).
Proof.
  intros [H1' H2' H3'] Ht Hb' Eb Hn Hk. split.
  - intros i b2 Hi. rewrite Hk; [by apply H1'|apply own_event|apply event_not_attachment, upload_name_simple|].
    by apply event_not_attachment, digest_simple.
  - intros b2 Hb2. destruct (decide (sha256 b2 = sha256 b)) as [E|Hne].
    { exists b'. rewrite E. done. }
    apply elem_of_app in Hb2 as [Hb2| ->%list_elem_of_singleton]; [|done].
    destruct (H2' b2 Hb2) as (b3 & Hb3 & E & Hn3). exists b3. split_and!; [set_solver|done|].
    rewrite Hk; [done|apply own_attachment|apply digest_not_temporary|].
    intros E'. apply attachment_path_inj in E'; [done|by apply digest_simple..].
  - intros p Hp Hnp. destruct (decide (p = attachment_path dir (sha256 b))) as [->|Hne].
    { do 4 right. exists b. split; [set_solver|done]. }
    destruct (decide (p = temporary_path dir n)) as [->|Hne']; [done|].
    rewrite Hk in Hnp by done. destruct (H3' p Hp Hnp) as [?|[?|[?|[?|(b2 & Hb2 & ->)]]]]; auto.
    do 4 right. exists b2. split; [set_solver|done].
Qed.

Section parts.
Context {C : Type} (arrived : Z → C → res Interruption C) (count : Z → C → res Interruption C).

Lemma writeEvents_ok u s c evs atts w : su_directory u = dir → su_eventFiles u = length evs → staged_as w evs atts →
  wp (writeEvents errno_message arrived count u s c)
    (λ r w', su_directory r.1 = dir ∧ su_eventFiles r.1 = length (evs ++ [part_bytes s]) ∧ su_uploads r.1 = su_uploads u ∧
       counted arrived (λ b, count (Z.of_nat (length b))) (so_pieces s) c = Ok r.2 ∧
       staged_as w' (evs ++ [part_bytes s]) atts) (λ _ _, True) w.
Proof.
  intros Hd He Hs. unfold writeEvents. rewrite Hd, He. cbv zeta. apply wp_bind.
  eapply wp_mono; [apply pipeline_ok, (own_event (S (length evs)))|..|done].
  intros c' w' (E & Hn & Hk). apply wp_ret. cbn [fst snd su_directory su_eventFiles su_uploads].
  rewrite length_app. split_and!; [done|simpl; lia|done|done|]. by eapply staged_event.
Qed.

Lemma writeAttachment_ok u s c evs atts w : su_directory u = dir → staged_as w evs atts →
  wp (writeAttachment sha256 errno_message arrived count u s c)
    (λ r w', su_directory r.1.1 = dir ∧ su_eventFiles r.1.1 = su_eventFiles u ∧
       counted arrived (λ b, count (Z.of_nat (length b))) (so_pieces s) c = Ok r.2 ∧
       staged_as w' evs (atts ++ [part_bytes s])) (λ _ _, True) w.
Proof.
  intros Hd Hs. unfold writeAttachment. rewrite Hd. cbv zeta. set (n := S (su_uploads u)).
  change (path_join (path_join dir (js "attachments")) (js ".upload-" ++ dec (Z.of_nat n))) with (temporary_path (W := W) dir n).
  change (path_join (path_join dir (js "attachments")) (sha256 (part_bytes s))) with (attachment_path (W := W) dir (sha256 (part_bytes s))).
  set (b := part_bytes s). apply wp_bind. eapply wp_mono; [apply pipeline_ok, own_attachment|..|done].
  intros c' w1 (E & Hn1 & Hk1). fold b in Hn1.
  assert (∀ w2 b', b' ∈ atts ++ [b] → sha256 b' = sha256 b → node w2 (attachment_path dir (sha256 b)) = Some (FileNode b') →
    others_kept dir (attachment_path dir (sha256 b)) w1 w2 →
    wp (sys (Refusal := Problem) errno_message (sg_unlink (temporary_path dir n)))
      (λ _ w3, staged_as w3 evs (atts ++ [b])) (λ _ _, True) w2) as Hfin.
  { intros w2 b' Hb' Eb Hn2 Hk2. apply wp_sys. intros [] w3 E3. destruct (sg_unlink_ok _ _ _ E3) as [Hu Hk3].
    eapply staged_attachment; [exact Hs|exact Hu|exact Hb'|exact Eb| |].
    - rewrite Hk3; [done|apply own_attachment|apply digest_not_temporary].
    - intros p Hp Ht Ha. by rewrite Hk3, Hk2, Hk1. }
  assert (∀ w2, (∃ b', b' ∈ atts ++ [b] ∧ sha256 b' = sha256 b ∧ node w2 (attachment_path dir (sha256 b)) = Some (FileNode b') ∧
      others_kept dir (attachment_path dir (sha256 b)) w1 w2) →
    wp (sys (Refusal := Problem) errno_message (sg_unlink (temporary_path dir n));;
        mret ({| su_directory := dir; su_eventFiles := su_eventFiles u; su_uploads := n |}, sha256 b, c'))
      (λ r w', su_directory r.1.1 = dir ∧ su_eventFiles r.1.1 = su_eventFiles u ∧
         counted arrived (λ b, count (Z.of_nat (length b))) (so_pieces s) c = Ok r.2 ∧
         staged_as w' evs (atts ++ [b])) (λ _ _, True) w2) as Hrest.
  { intros w2 (b' & H1' & H2' & H3' & H4'). apply wp_bind. eapply wp_mono; [by eapply Hfin|..|done].
    intros [] w3 Hw3. by apply wp_ret. }
  apply wp_bind, wp_catch. unfold wp at 1.
  destruct (sg_link _ _ w1) as [[[]|e] w2] eqn:El.
  - apply Hrest. destruct (sg_link_ok _ _ _ _ (own_attachment _) El) as [Hl Hk2]. exists b.
    split_and!; [set_solver|done|by rewrite Hl|done].
  - destruct (str_eqb _ _) eqn:Ee; [|done]. apply str_eqb_eq in Ee. apply wp_ret.
    destruct (sg_link_taken _ _ _ _ _ (own_attachment _) El Ee) as [Hl Hk2]. apply Hrest.
    rewrite Hk1 in Hl by (try apply own_attachment; apply digest_not_temporary).
    destruct (attachment_is_deep b) as (D1 & D2 & D3).
    destruct (sa_only _ _ _ Hs _ (own_attachment _) Hl) as [?|[?|[?|[(i & _ & E')|(b2 & Hb2 & E')]]]]; try done.
    { symmetry in E'. apply event_not_attachment in E'; [done|by apply digest_simple]. }
    apply attachment_path_inj in E'; [|by apply digest_simple..].
    destruct (sa_attachment _ _ _ Hs b2 Hb2) as (b' & Hb' & Eb & Hnb). exists b'. rewrite E'.
    split_and!; [set_solver|done| |].
    + rewrite Hk2, Hk1; [done|apply own_attachment|apply digest_not_temporary|apply own_attachment].
    + intros p Hp _. by apply Hk2.
Qed.
End parts.
End writing.

(** ** A body that is received to its end *)

(** From [c] to [c'], by these parts and so many bytes of the body. *)
Record tallied (limits : TransportLimits) (c c' : Counters) (arrived : Z) (ps : list Part) : Prop := {
  ta_limits : under_limits limits c';
  ta_received : ct_received c' = ct_received c + arrived;
  ta_event_parts : ct_eventParts c' = ct_eventParts c + Z.of_nat (length (omap events_part ps));
  ta_event_bytes : ct_eventBytes c' = ct_eventBytes c + sum (byte_length <$> omap events_part ps);
  ta_attachment_parts : ct_attachmentParts c' = ct_attachmentParts c + Z.of_nat (length (omap attachment_part ps));
  ta_attachment_bytes : ct_attachmentBytes c' = ct_attachmentBytes c + sum (byte_length <$> omap attachment_part ps);
  ta_each : Forall (λ b, byte_length b <= maxAttachmentBytes limits) (omap attachment_part ps);
  ta_expiry : (omap expiry_part ps = [] ∧ ct_expiresAt c' = ct_expiresAt c) ∨
    ∃ v truncated d, ct_expiresAt c = None ∧ omap expiry_part ps = [(v, truncated)] ∧ parseExpiry v truncated = Ok d ∧
      ct_expiresAt c' = Some d;
}.

Lemma sum_app l k : sum (l ++ k) = sum l + sum k.
Proof. unfold sum. induction l as [|x l IH]; simpl; lia. Qed.

Lemma tallied_trans limits c c1 c2 a b ps qs :
  tallied limits c c1 a ps → tallied limits c1 c2 b qs → tallied limits c c2 (a + b) (ps ++ qs).
Proof.
  intros [] []. split; rewrite ?omap_app, ?fmap_app, ?length_app, ?sum_app; try lia; try done.
  - by apply Forall_app.
  - destruct ta_expiry0 as [[-> E1]|(v & tr & d & E1 & -> & Ed & E2)], ta_expiry1 as [[-> F1]|(v' & tr' & d' & F1 & -> & Fd & F2)].
    + left. by rewrite F1, E1.
    + right. exists v', tr', d'. by rewrite <- E1.
    + right. exists v, tr, d. by rewrite F1.
    + congruence.
Qed.

Lemma tallied_arrived limits ns c c' : under_limits limits c → onDatas limits ns c = Ok c' → tallied limits c c' (sum ns) [].
Proof.
  intros Hc [-> Hu]%onDatas_ok; [|done]. split; simpl; rewrite ?Z.add_0_r; try done. by left.
Qed.

Section receiving.
Context {W : Type} `{StagingLaws W dir} (errno_message : Errno → str) (to_number : str → number) (limits : TransportLimits).
Context (sha256 : bytes → str) (Hsha : ∀ b, isSha256 (sha256 b) = true).
Implicit Types w : W.

(** A request directory so far. *)
Definition staging w (u : StagedUpload) (evs atts : list bytes) : Prop :=
  su_directory u = dir ∧ su_eventFiles u = length evs ∧ staged_as sha256 w (dir := dir) evs atts.

Lemma receive_part_ok u part c evs atts w : staging w u evs atts → under_limits limits c → 0 <= maxAttachmentBytes limits →
  wp (receive_part sha256 errno_message limits u part c)
    (λ r w', staging w' r.1 (evs ++ omap events_part [part]) (atts ++ omap attachment_part [part]) ∧
       tallied limits c r.2 (part_arrived part) [part]) (λ _ _, True) w.
Proof.
  intros (Hd & He & Hs) Hc Hm. destruct part as [name file|name v tr]; cbn [receive_part].
  - destruct (str_eqb name (js "events")) eqn:Ev.
    + simpl (ct_eventParts _). destruct (Z.ltb_spec (maxEventParts limits) (Z.succ (ct_eventParts c))); [done|].
      apply wp_map_err. eapply wp_mono; [by apply writeEvents_ok|..|done]. intros [u' c'] w' (Hd' & He' & _ & Ec & Hs').
      apply count_events_ok in Ec as [Ec Hu]; [|unfold under_limits in *; simpl; lia]. cbn [fst snd] in *.
      assert (attachment_part (FilePart name file) = None) as Ha.
      { simpl. apply str_eqb_eq in Ev as ->. done. }
      cbn [omap list_omap]. rewrite Ha. cbn [events_part]. rewrite Ev, app_nil_r. split; [done|]. subst c'.
      split; cbn [omap list_omap]; rewrite ?Ha; cbn [events_part expiry_part]; rewrite ?Ev; simpl in *; try done; try lia.
      * rewrite Z.add_0_r. reflexivity.
      * by left.
    + destruct (str_eqb name (js "attachment")) eqn:Ea; [|done].
      simpl (ct_attachmentParts _). destruct (Z.ltb_spec (maxAttachmentParts limits) (Z.succ (ct_attachmentParts c))); [done|].
      apply wp_bind, wp_map_err. eapply wp_mono; [by eapply writeAttachment_ok|..|done].
      intros [[u' digest] c'] w' (Hd' & He' & Ec & Hs'). apply wp_ret. cbn [fst snd] in *.
      apply count_attachment_ok in Ec as (Ec & Hu & Hp); [|unfold under_limits in *; simpl; lia|done].
      cbn [omap list_omap events_part attachment_part]. rewrite Ev, Ea, app_nil_r.
      split; [split_and!; [done|by rewrite He'|done]|]. subst c'.
      split; cbn [omap list_omap events_part attachment_part expiry_part]; rewrite ?Ev, ?Ea; simpl in *; try done; try lia.
      * rewrite Z.add_0_r. reflexivity.
      * by apply Forall_singleton.
      * by left.
  - destruct (str_eqb name (js "expiresAt")); [|done]. cbn [negb].
    destruct (ct_expiresAt c) as [d|] eqn:Ed; [done|]. rewrite bool_decide_eq_false_2 by (by intros []).
    destruct (parseExpiry v tr) as [d|e] eqn:Ep; [|done]. apply wp_ret. cbn [omap list_omap events_part attachment_part].
    rewrite !app_nil_r. split; [done|]. split; simpl; rewrite ?Z.add_0_r; try done. right. by exists v, tr, d.
Qed.

Lemma receive_parts_ok body u c evs atts w : staging w u evs atts → under_limits limits c → 0 <= maxAttachmentBytes limits →
  wp (receive_parts sha256 errno_message limits u c body)
    (λ r w', staging w' r.1 (evs ++ events_of body) (atts ++ attachments_of body) ∧
       tallied limits c r.2 (body_arrived body) (parts_of body)) (λ _ _, True) w.
Proof.
  intros Hs Hc Hm. revert u c evs atts w Hs Hc. unfold events_of, attachments_of.
  induction body as [ns|ns e|ns part rest IH]; intros u c evs atts w Hs Hc; cbn [receive_parts parts_of body_arrived].
  - destruct (onDatas limits ns c) as [c'|e] eqn:E; [|done]. apply wp_bind, wp_ret, wp_ret.
    cbn [omap list_omap]. rewrite !app_nil_r. split; [done|]. by apply tallied_arrived.
  - destruct (onDatas limits ns c) as [c'|e'] eqn:E; done.
  - destruct (onDatas limits ns c) as [c1|e] eqn:E; [|done]. apply tallied_arrived in E; [|done].
    apply wp_bind, wp_ret, wp_bind. eapply wp_mono; [by apply receive_part_ok; [|apply (ta_limits _ _ _ _ _ E)|]|..|done].
    intros [u2 c2] w2 [Hs2 Ht2]. cbn [fst snd] in *.
    eapply wp_mono; [apply (IH u2 c2 _ _ w2 Hs2 (ta_limits _ _ _ _ _ Ht2))|..|done].
    intros [u3 c3] w3 [Hs3 Ht3]. cbn [fst snd] in *.
    change (part :: parts_of rest) with ([part] ++ parts_of rest). rewrite !omap_app, !app_assoc. split; [done|].
    change ([part] ++ parts_of rest) with ([] ++ [part] ++ parts_of rest). rewrite <- Z.add_assoc.
    by eapply tallied_trans; [|eapply tallied_trans].
Qed.

(** The limits a server resolved. *)
Definition usable_limits : Prop :=
  Forall (λ n, 1 <= n) [maxRequestBytes limits; maxEventParts limits; maxEventBytes limits; maxAttachmentParts limits;
    maxAttachmentBytes limits; maxTotalAttachmentBytes limits].

Lemma receive_ok request u w : staging w u [] [] → usable_limits →
  wp (receive sha256 errno_message limits request u)
    (λ d w', ∃ body v truncated, rq_parts request = inr body ∧
       staged_as sha256 w' (dir := dir) (events_of body) (attachments_of body) ∧ within_limits limits body ∧
       events_of body ≠ [] ∧ expiries_of body = [(v, truncated)] ∧ parseExpiry v truncated = Ok d) (λ _ _, True) w.
Proof.
  intros Hs Hl. unfold usable_limits in Hl. rewrite !Forall_cons in Hl. destruct Hl as (L1 & L2 & L3 & L4 & L5 & L6 & _).
  unfold receive. destruct (rq_parts request) as [e|body]; [done|]. apply wp_bind.
  eapply wp_mono; [apply receive_parts_ok; [exact Hs| |lia]|..|done].
  { unfold under_limits, no_counters. simpl. lia. }
  intros [u' c'] w' [(_ & _ & Hs') []]. cbn [fst snd app] in *.
  destruct (ct_expiresAt c') as [d|] eqn:Ed; [|done].
  destruct (Z.eqb_spec (ct_eventParts c') 0) as [|Hne]; [done|]. apply wp_ret.
  destruct ta_expiry0 as [[_ E]|(v & tr & d' & _ & Ex & Ep & E)]; [done|]. injection E as ->.
  exists body, v, tr. unfold under_limits, no_counters in *. simpl in *.
  split_and!; [done|done| |intros Hn; unfold events_of in Hn; rewrite Hn in *; simpl in *; lia|done|done].
  split; unfold events_of, attachments_of; try lia; done.
Qed.
End receiving.

(** ** Whole uploads *)

Section uploads.
Context {W : Type} `{StagingLaws W (path_join stagingRoot requestId)}.
Context (errno_message : Errno → str) (to_number : str → number) (limits : TransportLimits).
Context (sha256 : bytes → str) (Hsha : ∀ b, isSha256 (sha256 b) = true).
Implicit Types w : W.
Let dir : str := path_join stagingRoot requestId.

(** The request's directory is not there. *)
Definition absent_directory w : Prop := ∀ p, own dir p → node w p = None.

Lemma create_ok w : absent_directory w →
  wp (create (Refusal := Problem) errno_message stagingRoot requestId) (λ u w', staging (dir := dir) sha256 w' u [] [])
    (λ _ _, True) w.
Proof.
  intros Hf. unfold create. destruct (REQUEST_ID requestId); [|done]. cbn [negb]. fold dir. cbv zeta.
  apply wp_bind, wp_sys. intros [] w1 E1. apply wp_bind, wp_sys. intros [] w2 E2. apply wp_bind, wp_sys. intros [] w3 E3.
  apply wp_ret. split_and!; [done|done|]. split; [done|by intros b Hb%not_elem_of_nil|].
  intros p Hp Hn. pose proof (sg_mkdir_law (dir := dir) dir w) as K1. rewrite E1 in K1.
  pose proof (sg_mkdir_law (dir := dir) (path_join dir (js "events")) w1) as K2. rewrite E2 in K2.
  pose proof (sg_mkdir_law (dir := dir) (path_join dir (js "attachments")) w2) as K3. rewrite E3 in K3. simpl in K1, K2, K3.
  destruct (decide (p = dir)); [auto|]. destruct (decide (p = path_join dir (js "events"))); [auto|].
  destruct (decide (p = path_join dir (js "attachments"))); [auto|]. by rewrite K3, K2, K1, Hf in Hn.
Qed.

Lemma create_directory w u w' :
  create (Refusal := Problem) errno_message stagingRoot requestId w = (Ok u, w') → su_directory u = dir.
Proof.
  intros E. assert (wp (create (Refusal := Problem) errno_message stagingRoot requestId) (λ u _, su_directory u = dir) (λ _ _, True) w) as Hw.
  { unfold create. destruct (negb _); [done|]. by do 3 (apply wp_bind, wp_sys; intros [] ? _). }
  by eapply wp_Ok in Hw.
Qed.

(** C7 What is archived is what was sent. When an upload is answered with success, the store was given, in the key's own
    project, a directory that held exactly the body's event parts, byte for byte and in order, and its attachments under
    their digests; the body had at least one event part and stated one expiry, which is the one the store was given;
    every limit held; and nothing of the directory is left. *)
Theorem ingest_archives_what_was_sent request projectId w answer w' :
  rq_id request = requestId → absent_directory w → usable_limits limits →
  ingestUpload sha256 errno_message to_number limits request projectId stagingRoot w = (Ok answer, w') →
  ∃ body v truncated expiresAt w1 result w2,
    rq_parts request = inr body ∧ expiries_of body = [(v, truncated)] ∧ parseExpiry v truncated = Ok expiresAt ∧
    events_of body ≠ [] ∧ within_limits limits body ∧
    staged_as (dir := dir) sha256 w1 (events_of body) (attachments_of body) ∧
    persistRunDirectory {| pq_projectId := projectId; pq_runDirectory := dir; pq_expiresAt := expiresAt;
      pq_sourceLocator := Some (js "http:" ++ requestId) |} w1 = (Ok result, w2) ∧
    respond result = Ok answer ∧ absent_directory w'.
Proof.
  intros Hid Hf Hl E. unfold ingestUpload in E. destruct (negb _); [done|]. destruct (declared_too_large _ _ _); [done|].
  rewrite Hid in E. apply bind_Ok in E as (u & w0 & Ec & E).
  pose proof (create_ok w Hf) as Hc. eapply wp_Ok in Hc; [|exact Ec]. pose proof Hc as (Hd & _).
  unfold try_finally_io in E. unfold remove in E. rewrite Hd in E.
  destruct (archive_upload _ _ _ _ _ _ w0) as [r w2] eqn:Er.
  unfold sys, io_map_err in E. destruct (sg_rm dir w2) as [[[]|e] w3] eqn:Em; [|done]. injection E as -> ->.
  apply bind_Ok in Er as (d & w1 & Er & E). apply bind_Ok in E as (result & w4 & Ep & E).
  pose proof (receive_ok errno_message limits sha256 Hsha request u w0 Hc Hl) as Hr. eapply wp_Ok in Hr; [|exact Er].
  destruct Hr as (body & v & tr & Hb & Hs & Hw & He & Hx & Hp).
  exists body, v, tr, d, w1, result, w4. split_and!; try done.
  - unfold io_map_err in Ep. rewrite Hd, Hid in Ep. by destruct (persistRunDirectory _ w1) as [[?|?] ?]; simplify_eq.
  - destruct (respond result); [|done]. by injection E as <- _.
  - intros p Hp'. by eapply sg_rm_ok.
Qed.

(** C8 An upload leaves nothing behind, however it ends: refused, cut off, rejected by the store or archived, its directory
    is gone — unless the directory could not be made in full, or could not be removed, and then that error is the answer. *)
Theorem ingest_leaves_nothing request projectId w r w' :
  rq_id request = requestId → absent_directory w →
  ingestUpload sha256 errno_message to_number limits request projectId stagingRoot w = (r, w') →
  absent_directory w' ∨
  (∃ e, create (Refusal := Problem) errno_message stagingRoot requestId w = (Throw e, w') ∧ r = Throw e) ∨
  (∃ w1 e, sg_rm dir w1 = (Throw e, w') ∧
     r = Throw (Other {| th_code := Some (errno_code e); th_message := errno_message e; th_errno := true |})).
Proof.
  intros Hid Hf E. unfold ingestUpload in E.
  destruct (negb _); [injection E as <- <-; by left|]. destruct (declared_too_large _ _ _); [injection E as <- <-; by left|].
  rewrite Hid in E. unfold mbind at 1, io_mbind at 1 in E.
  destruct (create _ _ _ w) as [[u|e] w0] eqn:Ec; [|injection E as <- <-; right; left; eauto].
  unfold try_finally_io, remove in E. rewrite (create_directory _ _ _ Ec) in E.
  destruct (archive_upload _ _ _ _ _ _ w0) as [r1 w2] eqn:Er. unfold sys, io_map_err in E.
  destruct (sg_rm dir w2) as [[[]|e] w3] eqn:Em; injection E as <- <-.
  - left. intros p Hp. by eapply sg_rm_ok.
  - right. right. eauto.
Qed.
End uploads.
