(* ===== verification/DemoStaging.v ===== *)
(** * Uploads and cleanups that run

    A small file system under which uploads are staged, with a directory that may
    refuse to be made; the theorems about uploads applied to one of two parts, and
    an upload whose directory is left behind. A staging root with what a killed
    server left in it, and the theorems about cleanups applied to it. *)

From Stdlib Require Import Strings.Byte.
From stdpp Require Import gmap.
From S2P Require Import Prelude JsString JsBytes JsMap JsNumber JsSort PwText Json JsDate Instants Validator ValidatorRun Codec RunRef Dto FileSink FileSinkSpec BlobStore Io Staging HttpIngest HttpIngestSpec.

Local Open Scope Z_scope.

(** ** A disk for uploads *)

Record StageWorld := { sw_nodes : gmap str Node; sw_full : option str (* a directory there is no room for *) }.
Implicit Types w : StageWorld.

Definition with_nodes w (m : gmap str Node) : StageWorld := {| sw_nodes := m; sw_full := sw_full w |}.

Definition EEXIST : Errno := EOTHER (js "EEXIST").

Definition make (q : str) (n : Node) : io StageWorld Errno unit := λ w,
  match sw_nodes w !! q with Some _ => (Throw EEXIST, w) | None => (Ok tt, with_nodes w (<[q := n]> (sw_nodes w))) end.

(** [q] and what is under it. *)
Definition below (q p : str) : bool := str_eqb p q || starts_with (q ++ js "/") p.

#[export] Instance StageWorld_fs : NodeFs StageWorld := {
  path_join a b := a ++ js "/" ++ b;
  sys_realpath p := mret p;
  sys_lstat _ := throw ENOENT;
  sys_readdir _ := throw ENOENT;
  sys_open _ := throw ENOENT;
  sys_fstat _ := throw ENOENT;
  sys_read _ := throw ENOENT;
  sys_read_all _ := throw ENOENT;
  sys_close _ w := w;
}.

#[export] Instance StageWorld_disk : StagingDisk StageWorld := {
  sg_access _ := mret tt;
  sg_mkdir q w := if bool_decide (sw_full w = Some q) then (Throw (EOTHER (js "ENOSPC")), w) else make q DirNode w;
  sg_create q := make q (FileNode []);
  sg_write q b w :=
    match sw_nodes w !! q with
    | Some (FileNode c) => (Ok tt, with_nodes w (<[q := FileNode (c ++ b)]> (sw_nodes w)))
    | _ => (Throw ENOENT, w)
    end;
  sg_end _ := mret tt;
  sg_link a b w := match sw_nodes w !! a with Some n => make b n w | None => (Throw ENOENT, w) end;
  sg_unlink q w := (Ok tt, with_nodes w (delete q (sw_nodes w)));
  sg_rm q w := (Ok tt, with_nodes w (filter (λ kv, below q kv.1 = false) (sw_nodes w)));
}.

(** A store that archives everything. *)
#[export] Instance StageWorld_store : RunWriter StageWorld := λ _, mret (Inserted (js "run-1") 7).

#[export] Instance StageWorld_view : StagingView StageWorld := λ w p, sw_nodes w !! p.

Lemma make_ok q n w w' : make q n w = (Ok tt, w') →
  sw_nodes w !! q = None ∧ sw_nodes w' = <[q := n]> (sw_nodes w).
Proof. unfold make. destruct (sw_nodes w !! q) eqn:E; [done|]. by intros [= <-]. Qed.

Lemma make_throw q n w e w' : make q n w = (Throw e, w') → e = EEXIST ∧ w' = w ∧ sw_nodes w !! q ≠ None.
Proof. unfold make. destruct (sw_nodes w !! q) eqn:E; [by intros [= <- <-]|done]. Qed.

Lemma make_keeps q n w p : p ≠ q → sw_nodes (make q n w).2 !! p = sw_nodes w !! p.
Proof. intros Hp. unfold make. destruct (sw_nodes w !! q); [done|]. simpl. by rewrite lookup_insert_ne. Qed.

Lemma own_below dir p : own (W := StageWorld) dir p → below dir p = true.
Proof.
  assert (∀ r, below dir (dir ++ js "/" ++ r) = true) as Hb.
  { intros r. unfold below. rewrite orb_true_iff. right. rewrite app_assoc. generalize (dir ++ js "/"). intros l.
    induction l as [|u l IH]; simpl; [by destruct r|]. by rewrite N.eqb_refl. }
  intros [->|[->|[->|[[n ->]|[n ->]]]]].
  - unfold below. by rewrite str_eqb_refl.
  - apply Hb.
  - apply Hb.
  - cbn. rewrite <- !app_assoc. apply Hb.
  - cbn. rewrite <- !app_assoc. apply Hb.
Qed.

#[export] Instance StageWorld_laws dir : StagingLaws StageWorld dir.
Proof.
  split.
  - intros a b c d Hb Hd. by apply path_join_inj.
  - intros a b _. cbn. rewrite !length_app. simpl. lia.
  - intros q w p _ Hp. cbn. case_bool_decide; [done|]. by apply make_keeps.
  - intros q w w' _ [Hn E]%make_ok. unfold node, StageWorld_view, others_kept. rewrite E. split; [by rewrite lookup_insert_eq|].
    intros p _ Hp. unfold node, StageWorld_view. by rewrite E, lookup_insert_ne.
  - intros q b c w w' _. cbn. unfold node, StageWorld_view, others_kept. intros E Hn. rewrite Hn in E. injection E as <-. simpl.
    split; [by rewrite lookup_insert_eq|]. intros p _ Hp. unfold node, StageWorld_view. simpl. by rewrite lookup_insert_ne.
  - by intros q w w' [= <-].
  - intros a b w w' _. cbn. unfold node, StageWorld_view, others_kept. destruct (sw_nodes w !! a) as [n|] eqn:Ea; [|done].
    intros [Hn E]%make_ok. rewrite E. split; [by rewrite lookup_insert_eq|]. intros p _ Hp.
    unfold node, StageWorld_view. by rewrite E, lookup_insert_ne.
  - intros a b w e w' _. cbn. destruct (sw_nodes w !! a) as [n|] eqn:Ea; [|by intros [= <- <-]].
    intros (-> & -> & Hn)%make_throw _. done.
  - intros q w w' [= <-]. unfold node, StageWorld_view, others_kept. simpl. split; [by rewrite lookup_delete_eq|].
    intros p _ Hp. unfold node, StageWorld_view. simpl. by rewrite lookup_delete_ne.
  - intros w w' [= <-] p Hp%own_below. unfold node, StageWorld_view. simpl. apply map_lookup_filter_None. right. intros n _. simpl.
    by rewrite Hp.
  - done.
Qed.

(** ** An upload of two parts *)

(** A stand-in for the digest: it tells odd lengths from even ones. *)
Definition parity_digest (b : bytes) : str := replicate 64 (if Nat.odd (length b) then 97%N else 98%N).
Lemma parity_digest_is b : isSha256 (parity_digest b) = true.
Proof. unfold parity_digest. by destruct (Nat.odd (length b)). Qed.

Definition no_message (e : Errno) : str := errno_code e.
Definition no_number (s : str) : number := NaN.

Definition demo_id : str := js "01234567-89ab-cdef-0123-456789abcdef".
Definition demo_root : str := js "/staging".
Definition demo_limits : TransportLimits :=
  {| maxRequestBytes := 1000; maxEventParts := 2; maxEventBytes := 100; maxAttachmentParts := 2; maxAttachmentBytes := 10;
     maxTotalAttachmentBytes := 20; maxJsonBodyBytes := 64 |}.

Definition demo_file (name : str) (b : bytes) : Part :=
  FilePart name {| so_destroyed := false; so_pieces := [Arrived 120; Chunk b]; so_end := None |}.
Definition demo_body : Body :=
  BodyPart [] (FieldPart (js "expiresAt") (JStr (js "2027-01-01T00:00:00Z")) false)
    (BodyPart [80] (demo_file (js "events") (utf8_encode (js "{}"))) (BodyPart [] (demo_file (js "attachment") [x01; x02; x03])
      (BodyEnd [40]))).
Definition demo_request : UploadRequest :=
  {| rq_id := demo_id; rq_isMultipart := true; rq_contentLength := None; rq_parts := inr demo_body |}.
Definition empty_disk : StageWorld := {| sw_nodes := ∅; sw_full := None |}.

Definition demo_ingest (request : UploadRequest) (w : StageWorld) : res Interruption IngestionResponse * StageWorld :=
  ingestUpload parity_digest no_message no_number demo_limits request (js "web") demo_root w.

Lemma demo_absent full : absent_directory (stagingRoot := demo_root) (requestId := demo_id) {| sw_nodes := ∅; sw_full := full |}.
Proof. done. Qed.

Lemma demo_usable : usable_limits demo_limits.
Proof. repeat first [apply Forall_nil_2|apply Forall_cons_2; [simpl; lia|]]. Qed.

Definition demo_answer : IngestionResponse :=
  {| ir_status := 201; ir_body := inserted_dto (js "run-1") 7; ir_location := Some (js "/v1/runs/" ++ encodeRunRef (js "run-1")) |}.

Lemma demo_ingest_answers : (demo_ingest demo_request empty_disk).1 = Ok demo_answer.
Proof. vm_compute. reflexivity. Qed.

Lemma returned_pair {E A} (x : res E A * StageWorld) r : x.1 = r → x = (r, x.2).
Proof. by destruct x; intros <-. Qed.

Lemma ingest_archives_what_was_sent_witness :
  ∃ body w1, rq_parts demo_request = inr body ∧ events_of body = [utf8_encode (js "{}")] ∧
    staged_as (dir := path_join demo_root demo_id) parity_digest w1 (events_of body) (attachments_of body) ∧
    within_limits demo_limits body.
Proof.
  pose proof (ingest_archives_what_was_sent (stagingRoot := demo_root) (requestId := demo_id) no_message no_number demo_limits
    parity_digest parity_digest_is demo_request (js "web") empty_disk demo_answer (demo_ingest demo_request empty_disk).2
    eq_refl (demo_absent None) demo_usable (returned_pair _ _ demo_ingest_answers)) as Hp.
  destruct Hp as (body & v & tr & d & w1 & result & w2 & H1 & _ & _ & _ & H5 & H6 & _).
  assert (demo_body = body) as Hb by (injection H1 as H1; exact H1). subst body. exists demo_body, w1.
  split; [reflexivity|]. split; [reflexivity|]. split; assumption.
Defined.

(** An upload cut off in the middle of its events. *)
Definition cut_body : Body :=
  BodyPart [] (FilePart (js "events") {| so_destroyed := false; so_pieces := [Arrived 10; Chunk [x01]];
    so_end := Some {| th_code := Some (js "FST_MP_PREMATURE_CLOSE"); th_message := []; th_errno := false |} |}) (BodyEnd []).
Definition cut_request : UploadRequest :=
  {| rq_id := demo_id; rq_isMultipart := true; rq_contentLength := None; rq_parts := inr cut_body |}.

Lemma cut_upload_refused :
  (demo_ingest cut_request empty_disk).1 =
  Throw (Refused (problem BAD_REQUEST (js "the request ended before its multipart body did"))).
Proof. vm_compute. reflexivity. Qed.

Lemma ingest_leaves_nothing_witness :
  absent_directory (stagingRoot := demo_root) (requestId := demo_id) (demo_ingest cut_request empty_disk).2 ∨
  ∃ w e, (sg_rm (path_join demo_root demo_id) w).1 = Throw e.
Proof.
  pose proof (ingest_leaves_nothing (stagingRoot := demo_root) (requestId := demo_id) no_message no_number demo_limits
    parity_digest cut_request (js "web") empty_disk _ _ eq_refl (demo_absent None) (returned_pair _ _ cut_upload_refused)) as Hp.
  destruct Hp as [H1|[(e & H2 & _)|(w1 & e & H3 & _)]].
  - left. exact H1.
  - exfalso. apply (f_equal (λ x, is_ok x.1)) in H2. vm_compute in H2. discriminate H2.
  - right. exists w1, e. by rewrite H3.
Defined.

(** A directory that could not be made in full stays: the removal only covers what follows its creation. *)
Definition full_disk : StageWorld := {| sw_nodes := ∅; sw_full := Some (js "/staging/01234567-89ab-cdef-0123-456789abcdef/events") |}.

(** An upload whose [events] directory cannot be made is answered with that error, and the directory made just before
    is left behind under the staging root. *)
Theorem failed_creation_leaves_its_directory :
  is_ok (demo_ingest demo_request full_disk).1 = false ∧
  node (demo_ingest demo_request full_disk).2 (path_join demo_root demo_id) = Some DirNode.
Proof. split; vm_compute; reflexivity. Qed.

(** ** A staging root to clean *)

(** The children of the root, by name, and what an attempt to remove one of them says. *)
Record RootWorld := { rw_children : gmap str Stats; rw_stuck : option str }.

Definition child_of (p : str) : str := drop (S (length demo_root)) p.

#[export] Instance RootWorld_fs : NodeFs RootWorld := {
  path_join a b := a ++ js "/" ++ b;
  sys_realpath p := mret p;
  sys_lstat p (w : RootWorld) := match rw_children w !! child_of p with Some st => (Ok st, w) | None => (Throw ENOENT, w) end;
  sys_readdir _ (w : RootWorld) := (Ok (map_to_list (rw_children w)).*1, w);
  sys_open _ := throw ENOENT;
  sys_fstat _ := throw ENOENT;
  sys_read _ := throw ENOENT;
  sys_read_all _ := throw ENOENT;
  sys_close _ (w : RootWorld) := w;
}.

#[export] Instance RootWorld_disk : StagingDisk RootWorld := {
  sg_access _ := mret tt;
  sg_mkdir _ := throw ENOENT;
  sg_create _ := throw ENOENT;
  sg_write _ _ := throw ENOENT;
  sg_end _ := throw ENOENT;
  sg_link _ _ := throw ENOENT;
  sg_unlink _ := throw ENOENT;
  sg_rm p (w : RootWorld) :=
    if bool_decide (rw_stuck w = Some (child_of p)) then (Throw (EOTHER (js "EBUSY")), w)
    else (Ok tt, {| rw_children := delete (child_of p) (rw_children w); rw_stuck := rw_stuck w |});
}.

Lemma lstat_child (w : RootWorld) name :
  sys_lstat (path_join demo_root name) w = match rw_children w !! name with Some st => (Ok st, w) | None => (Throw ENOENT, w) end.
Proof. reflexivity. Qed.
Lemma readdir_children (w : RootWorld) : sys_readdir demo_root w = (Ok (map_to_list (rw_children w)).*1, w).
Proof. reflexivity. Qed.
Lemma rm_child (w : RootWorld) name :
  sg_rm (path_join demo_root name) w =
  if bool_decide (rw_stuck w = Some name) then (Throw (EOTHER (js "EBUSY")), w)
  else (Ok tt, {| rw_children := delete name (rw_children w); rw_stuck := rw_stuck w |}).
Proof. reflexivity. Qed.

#[export] Instance RootWorld_laws : StagingRootLaws RootWorld demo_root.
Proof.
  refine {| answer := λ (w : RootWorld) name, match rw_children w !! name with Some st => Ok st | None => Throw ENOENT end |}.
  - intros w name. rewrite lstat_child. by destruct (rw_children w !! name).
  - intros w name m. rewrite lstat_child. by destruct (rw_children w !! name).
  - done.
  - intros w ns w' [= <- _]. apply NoDup_fst_map_to_list.
  - intros w name m Hm. rewrite rm_child. case_bool_decide; [done|]. simpl. by rewrite lookup_delete_ne.
Qed.

Definition demo_stats (k : StatKind) (mtime : Z) : Stats := {| st_kind := k; st_size := 0; st_mtimeMs := mtime; st_dev := 1; st_ino := 1 |}.
Definition id_of (n : N) : str := js "01234567-89ab-cdef-0123-45678900000" ++ [n].
Definition killed_server : RootWorld :=
  {| rw_children := list_to_map
       [(id_of 49, demo_stats KDirectory 100); (id_of 50, demo_stats KDirectory 900); (id_of 51, demo_stats KSymlink 100);
        (js "keep", demo_stats KDirectory 100); (id_of 52, demo_stats KDirectory 100); (id_of 53, demo_stats KDirectory 100)];
     rw_stuck := Some (id_of 52) |}.

(** One removed, one stuck, one beyond the two asked for; a link and an unfamiliar name reported. *)
Example cleanup_of_killed_server :
  let r := (clean no_message demo_root (Some 500) (Some (Int 2)) killed_server).1 in
  sr_removed <$> r = Ok 1%nat ∧ (λ r, se_requestId <$> sr_entries r) <$> r = Ok [id_of 49; id_of 52] ∧
  (λ r, sp_code <$> sr_problems r) <$> r = Ok [NOT_A_DIRECTORY; REMOVE_FAILED] ∧ sr_truncated <$> r = Ok true.
Proof. vm_compute. auto. Qed.

Lemma pass_touches_only_abandoned_witness :
  rw_children (clean no_message demo_root (Some 500) None killed_server).2 !! js "keep" = Some (demo_stats KDirectory 100).
Proof.
  set (R := λ w w' : RootWorld, rw_children w' !! js "keep" = rw_children w !! js "keep").
  assert (PreOrder R) as HR by (unfold R; split; [by intros w|intros x y z E1 E2; congruence]).
  assert (kept_by_pass demo_root R 500 true) as HK.
  { split.
    - intros w. reflexivity.
    - intros name w. unfold R. rewrite lstat_child. by destruct (rw_children w !! name).
    - intros name st w w1 _ _ (Hid & _). unfold R. rewrite rm_child. case_bool_decide; [done|]. simpl.
      rewrite lookup_delete_ne; [done|]. intros ->. done. }
  pose proof (pass_touches_only_abandoned no_message demo_root R 500 None true killed_server HK) as Hp.
  unfold R in Hp. unfold clean. rewrite Hp. vm_compute. reflexivity.
Defined.

Lemma preview_foretells_clean_witness :
  ∃ rp rc, (preview no_message demo_root (Some 500) (Some (Int 2)) killed_server).1 = Ok rp ∧
    (clean no_message demo_root (Some 500) (Some (Int 2)) killed_server).1 = Ok rc ∧ sr_entries rc = sr_entries rp.
Proof.
  destruct (preview_foretells_clean (root := demo_root) no_message 500 (Some (Int 2)) 2 killed_server
    (map_to_list (rw_children killed_server)).*1 killed_server eq_refl (readdir_children killed_server))
    as (rp & wp & rc & wc & H1 & H2 & _ & _ & _ & _ & H3 & _).
  exists rp, rc. rewrite H1, H2. split; [reflexivity|]. split; [reflexivity|exact H3].
Defined.

(** ** Roots *)

Definition apart_roots : RootWorld := {| rw_children := list_to_map [([], demo_stats KDirectory 0)]; rw_stuck := None |}.

Lemma checkRoots_apart_witness : names demo_root ≠ names (js "/blobs").
Proof.
  assert (checkRoots no_message demo_root (js "/blobs") apart_roots = (Ok demo_root, apart_roots)) as E by (vm_compute; reflexivity).
  destruct (checkRoots_apart no_message demo_root (js "/blobs") demo_root apart_roots apart_roots E)
    as (st & w1 & w2 & blobs & _ & _ & _ & Hb & Hn & _).
  assert (js "/blobs" = blobs) as Hbl by (injection Hb as Hb _; exact Hb). subst blobs. exact Hn.
Defined.
