(* ===== verification/ApiKeys.v ===== *)
(** * API keys (postgres/src/api-keys.ts, and their table in migrations.ts)

    A key's token carries a public id and a secret in base32; the table keeps the
    secret's digest. The model is the class's four operations over the table's
    rows, with the constraints and the trigger the migration declares: every
    operation is one SQL statement, judged by the database's clock. SHA-256 and
    the reading of a [Date] as an instant are parameters, the random bytes an
    argument of [create]. Statements are taken to be answered. *)

From Stdlib Require Import Strings.Byte.
From stdpp Require Import sorting.
From S2P Require Import Prelude JsNumber JsString JsBytes JsSort Json Codec ReadTypes JsDate Io JsEncoding.

Local Open Scope Z_scope.

Definition ApiKeyScope : Type := str.
Definition API_KEY_SCOPES : list ApiKeyScope := [js "runs:read"; js "runs:write"].
Definition PUBLIC_ID_BYTES : nat := 10.
Definition SECRET_BYTES : nat := 32.
Definition LABEL_MAX : Z := 200.
Definition DEFAULT_API_KEY_PAGE : Z := 50.
Definition MAX_API_KEY_PAGE : Z := 500.

(** What a caller passes is looked at: [scopes] and [label] as the values they are, [expiresAt] as a
    [Date] or something else ([Some None]). *)
Record CreateApiKeyRequest := {
  cr_projectId : str; cr_scopes : option json; cr_label : option json; cr_expiresAt : option (option Date);
}.
Record CreatedApiKey := {
  ck_token : str; ck_publicId : str; ck_projectId : str; ck_scopes : list ApiKeyScope; ck_label : option str;
  ck_createdAt : Z; ck_expiresAt : option Z;
}.
Record ApiKeyPrincipal := { ap_publicId : str; ap_projectId : str; ap_scopes : list ApiKeyScope }.
Record ApiKeySummary := {
  ks_publicId : str; ks_projectId : str; ks_scopes : list ApiKeyScope; ks_label : option str;
  ks_createdAt : Z; ks_expiresAt : option Z; ks_revokedAt : option Z; ks_active : bool;
}.
Record ListApiKeysRequest := {
  lr_projectId : option str; lr_includeInactive : bool; lr_limit : option number; lr_after : option str;
}.
Record ApiKeyPage := { kp_keys : list ApiKeySummary; kp_next : option str }.

(** ** The table *)

(** A row of [qe_project_api_keys]; instants in the database's own units. *)
Record KeyRow := {
  kr_public_id : str; kr_project_id : str; kr_secret_sha256 : bytes; kr_scopes : list str; kr_label : option str;
  kr_created_at : Z; kr_expires_at : option Z; kr_revoked_at : option Z;
}.
#[export] Instance KeyRow_fields : Fields KeyRow := λ r,
  Build_KeyRow (kr_public_id r) (kr_project_id r) (kr_secret_sha256 r) (kr_scopes r) (kr_label r)
    (kr_created_at r) (kr_expires_at r) (kr_revoked_at r).
#[export] Instance KeyRow_dec : EqDecision KeyRow.
Proof. solve_decision. Defined.

(** The table, and [now()]. *)
Record KeyDb := { kd_now : Z; kd_rows : list KeyRow }.
#[export] Instance KeyDb_fields : Fields KeyDb := λ d, Build_KeyDb (kd_now d) (kd_rows d).

Inductive SqlError := UniqueViolation | CheckViolation | TriggerRaised | DatetimeOverflow.
(** What a method throws: its [TypeError], what the database refused, or a [RangeError]. *)
Inductive KeyError := KeyTypeError (message : str) | KeySql (e : SqlError) | KeyRangeError.

(** [[a-z2-7]] *)
Definition is_base32_char (u : N) : bool := is_lower u || in_range 50 55 u.
(** [^[a-z2-7]{n}$] *)
Definition is_base32_text (n : nat) (s : str) : bool := (length s =? n)%nat && forallb is_base32_char s.

(** Code points: what [[...label].length] and [char_length] count. *)
Fixpoint code_points (s : str) : Z :=
  match s with
  | [] => 0
  | u :: s' =>
      match s' with
      | v :: s'' => if is_high_surrogate u && is_low_surrogate v then 1 + code_points s'' else 1 + code_points s'
      | [] => 1
      end
  end.

(** The CHECK constraints. *)
Definition key_checks (r : KeyRow) : bool :=
  is_base32_text 16 (kr_public_id r) &&
  (negb (str_eqb (kr_project_id r) []) && (utf8_length (kr_project_id r) <=? 512)) &&
  (length (kr_secret_sha256 r) =? 32)%nat &&
  (bool_decide (kr_scopes r = [js "runs:read"]) || bool_decide (kr_scopes r = [js "runs:write"]) ||
   bool_decide (kr_scopes r = [js "runs:read"; js "runs:write"])) &&
  match kr_label r with None => true | Some l => negb (str_eqb l []) && (code_points l <=? 200) end &&
  match kr_revoked_at r with None => true | Some t => kr_created_at r <=? t end.

(** [qe_project_api_keys_immutable]: true when the trigger lets the update through. *)
Definition qe_project_api_keys_immutable (old new : KeyRow) : bool :=
  bool_decide (old <| kr_revoked_at := None |> = new <| kr_revoked_at := None |>) &&
  match kr_revoked_at old with None => true | Some t => bool_decide (kr_revoked_at new = Some t) end.

(** [INSERT] of one row: the constraints, then the primary key. *)
Definition insert_row (row : KeyRow) : io KeyDb SqlError unit := λ db,
  if negb (key_checks row) then (Throw CheckViolation, db)
  else if bool_decide (kr_public_id row ∈ kr_public_id <$> kd_rows db) then (Throw UniqueViolation, db)
  else (Ok tt, db <| kd_rows ::= λ l, l ++ [row] |>).

(** [UPDATE … SET … WHERE …]: every row the condition holds of, through the trigger and the constraints, or none. *)
Fixpoint update_all (cond : KeyRow → bool) (set_ : KeyRow → KeyRow) (l : list KeyRow) : res SqlError (list KeyRow * Z) :=
  match l with
  | [] => Ok ([], 0)
  | r :: l =>
      if cond r then
        if negb (qe_project_api_keys_immutable r (set_ r)) then Throw TriggerRaised
        else if negb (key_checks (set_ r)) then Throw CheckViolation
        else '(l, n) ← update_all cond set_ l; Ok (set_ r :: l, n + 1)
      else '(l, n) ← update_all cond set_ l; Ok (r :: l, n)
  end.
Definition update_rows (cond : KeyRow → bool) (set_ : KeyRow → KeyRow) : io KeyDb SqlError Z := λ db,
  match update_all cond set_ (kd_rows db) with
  | Ok (l, n) => (Ok n, db <| kd_rows := l |>)
  | Throw e => (Throw e, db)
  end.

(** [revoked_at IS NULL AND (expires_at IS NULL OR expires_at > now())] *)
Definition active (now : Z) (r : KeyRow) : bool :=
  match kr_revoked_at r with Some _ => false | None => match kr_expires_at r with None => true | Some e => now <? e end end.

(** ** Tokens *)

(** [TOKEN.exec(token)]: the groups. *)
Definition TOKEN (s : str) : option (str * str) :=
  if negb (str_eqb (take 7 s) (js "qer_k1_")) then None
  else
    let id := take 16 (drop 7 s) in
    if negb (is_base32_text 16 id) then None
    else match drop 23 s with
         | u :: secret => if (u =? 95)%N && is_base32_text 52 secret then Some (id, secret) else None
         | [] => None
         end.

Definition token_text (publicId : str) (secret : bytes) : str := js "qer_k1_" ++ publicId ++ js "_" ++ base32 secret.

(** [parseApiKeyToken], of whatever it is given. *)
Definition parseApiKeyToken (token : option json) : option (str * bytes) :=
  match token with
  | Some (JStr token) =>
      '(publicId, text) ← TOKEN token;
      match unbase32 text SECRET_BYTES, unbase32 publicId PUBLIC_ID_BYTES with
      | Some secret, Some _ => Some (publicId, secret)
      | _, _ => None
      end
  | _ => None
  end.

(** ** The arguments of [create] *)

Definition known_scope (v : json) : option ApiKeyScope :=
  match v with JStr s => if bool_decide (s ∈ API_KEY_SCOPES) then Some s else None | _ => None end.

Fixpoint check_scopes (l : list json) : res str (list ApiKeyScope) :=
  match l with
  | [] => Ok []
  | v :: l =>
      match known_scope v with
      | None => Throw (js "unknown scope " ++ json_text v ++ js "; the scopes are " ++ join (js ", ") API_KEY_SCOPES)
      | Some s => scopes ← check_scopes l; Ok (s :: scopes)
      end
  end.

Definition canonicalScopes (scopes : option json) : res str (list ApiKeyScope) :=
  match scopes with
  | Some (JArr (v :: l)) =>
      scopes ← check_scopes (v :: l);
      if negb (length (remove_dups scopes) =? length scopes)%nat then Throw (js "scopes must not repeat")
      else Ok (filter (λ s, s ∈ scopes) API_KEY_SCOPES)
  | _ => Throw (js "scopes must name at least one of " ++ join (js ", ") API_KEY_SCOPES)
  end.

(** [[\u0000-\u001f\u007f]] *)
Definition is_control (u : N) : bool := (u <=? 31)%N || (u =? 127)%N.

Definition checkLabel (label : option json) : res str (option str) :=
  match label with
  | None => Ok None
  | Some (JStr l) =>
      if str_eqb l [] || (LABEL_MAX <? code_points l) || existsb is_control l
      then Throw (js "label must be 1 to 200 printable characters when it is given") else Ok (Some l)
  | Some _ => Throw (js "label must be 1 to 200 printable characters when it is given")
  end.

Definition checkExpiry (expiresAt : option (option Date)) : res str (option Z) :=
  match expiresAt with
  | None => Ok None
  | Some (Some (Some ms)) => Ok (Some ms)
  | Some _ => Throw (js "expiresAt must be a valid Date when it is given")
  end.

Definition pageSize (limit : option number) : res str Z :=
  match limit with
  | None => Ok DEFAULT_API_KEY_PAGE
  | Some n =>
      match as_safe_integer n with
      | Some l => if l <? 1 then Throw (js "limit must be a whole number of keys of at least one") else Ok (Z.min l MAX_API_KEY_PAGE)
      | None => Throw (js "limit must be a whole number of keys of at least one")
      end
  end.

(** [timingSafeEqual]: throws when the lengths differ. *)
Definition timingSafeEqual (a b : bytes) : res KeyError bool :=
  if (length a =? length b)%nat then Ok (bool_decide (a = b)) else Throw KeyRangeError.

Definition ABSENT : bytes := replicate 32 x00.

(** ** The class *)

Section class.
Context (sha256 : bytes → bytes).
(** An instant as a [Date] names it to the database, which may refuse it, and as it is read back. *)
Context (timestamptz : Z → option Z) (to_date : Z → Z).

Definition digest (secret : bytes) : bytes := sha256 secret.

Definition typed {A} (r : res str A) : io KeyDb KeyError A := λ db,
  (match r with Ok a => Ok a | Throw m => Throw (KeyTypeError m) end, db).
Definition known {A} (r : res KeyError A) : io KeyDb KeyError A := λ db, (r, db).
Definition query {A} (f : Z → list KeyRow → A) : io KeyDb KeyError A := λ db, (Ok (f (kd_now db) (kd_rows db)), db).
Definition now : io KeyDb KeyError Z := λ db, (Ok (kd_now db), db).

(** The cast [$6::timestamptz]. *)
Definition cast_expiry (ms : option Z) : res KeyError (option Z) :=
  match ms with
  | None => Ok None
  | Some ms => match timestamptz ms with Some t => Ok (Some t) | None => Throw (KeySql DatetimeOverflow) end
  end.

(** [INSERT … SELECT … WHERE $6 IS NULL OR $6 > now() RETURNING created_at, expires_at]. *)
Definition insert_key (publicId projectId : str) (secret_sha256 : bytes) (scopes : list str) (label : option str)
    (expires : option Z) : io KeyDb KeyError (option (Z * option Z)) :=
  expires ← known (cast_expiry expires);
  t ← now;
  if match expires with None => true | Some e => t <? e end then
    _ ← io_map_err KeySql (insert_row {| kr_public_id := publicId; kr_project_id := projectId; kr_secret_sha256 := secret_sha256;
      kr_scopes := scopes; kr_label := label; kr_created_at := t; kr_expires_at := expires; kr_revoked_at := None |});
    mret (Some (t, expires))
  else mret None.

(** [create], given the bytes [randomBytes] drew. *)
Definition create (request : CreateApiKeyRequest) (publicBytes secret : bytes) : io KeyDb KeyError CreatedApiKey :=
  _ ← typed (checkProjectId (cr_projectId request));
  scopes ← typed (canonicalScopes (cr_scopes request));
  label ← typed (checkLabel (cr_label request));
  expiresAt ← typed (checkExpiry (cr_expiresAt request));
  let publicId := base32 publicBytes in
  inserted ← insert_key publicId (cr_projectId request) (digest secret) scopes label expiresAt;
  match inserted with
  | None => throw (KeyTypeError (js "expiresAt must be in the future"))
  | Some (created, expires) =>
      mret {| ck_token := token_text publicId secret; ck_publicId := publicId; ck_projectId := cr_projectId request;
              ck_scopes := scopes; ck_label := label; ck_createdAt := to_date created; ck_expiresAt := to_date <$> expires |}
  end.

Definition authenticate (token : option json) : io KeyDb KeyError (option ApiKeyPrincipal) :=
  match parseApiKeyToken token with
  | None => mret None
  | Some (publicId, secret) =>
      found ← query (λ t rows, (λ r, (r, active t r)) <$> filter (λ r, kr_public_id r = publicId) rows);
      let row := head found in
      matches ← known (timingSafeEqual (match row with Some (r, _) => kr_secret_sha256 r | None => ABSENT end) (digest secret));
      match row with
      | Some (r, act) =>
          if negb matches || negb act then mret None
          else mret (Some {| ap_publicId := publicId; ap_projectId := kr_project_id r; ap_scopes := kr_scopes r |})
      | None => mret None
      end
  end.

(** The rows [list] selects, in the order of their public ids. *)
Definition selects (projectId : option str) (includeInactive : bool) (after : option str) (t : Z) (r : KeyRow) : bool :=
  match projectId with None => true | Some p => str_eqb (kr_project_id r) p end &&
  (includeInactive || active t r) &&
  match after with None => true | Some a => str_ltb a (kr_public_id r) end.
Definition select_keys (projectId : option str) (includeInactive : bool) (after : option str) (limit : Z) (t : Z) (rows : list KeyRow) : list KeyRow :=
  take (Z.to_nat limit) (sort (cmp_on kr_public_id compare) (filter (λ r, selects projectId includeInactive after t r) rows)).

Definition summary (t : Z) (r : KeyRow) : ApiKeySummary :=
  {| ks_publicId := kr_public_id r; ks_projectId := kr_project_id r; ks_scopes := kr_scopes r; ks_label := kr_label r;
     ks_createdAt := to_date (kr_created_at r); ks_expiresAt := to_date <$> kr_expires_at r;
     ks_revokedAt := to_date <$> kr_revoked_at r; ks_active := active t r |}.

Definition list_keys (request : ListApiKeysRequest) : io KeyDb KeyError ApiKeyPage :=
  _ ← match lr_projectId request with Some p => typed (checkProjectId p) | None => mret tt end;
  limit ← typed (pageSize (lr_limit request));
  _ ← typed (throw_if (match lr_after request with Some a => negb (is_base32_text 16 a) | None => false end)
               (js "after must be the public id of a key"));
  rows ← query (λ t rows, summary t <$>
    select_keys (lr_projectId request) (lr_includeInactive request) (lr_after request) (limit + 1) t rows);
  let page := take (Z.to_nat limit) rows in
  mret {| kp_keys := page;
          kp_next := if limit <? Z.of_nat (length rows) then ks_publicId <$> last page else None |}.

Definition revoke (publicId : option json) : io KeyDb KeyError bool :=
  match publicId with
  | Some (JStr publicId) =>
      if negb (is_base32_text 16 publicId) then throw (KeyTypeError (js "publicId must be the 16-character public id of a key"))
      else
        t ← now;
        revoked ← io_map_err KeySql (update_rows (λ r, str_eqb (kr_public_id r) publicId && negb (bool_decide (is_Some (kr_revoked_at r))))
                     (λ r, r <| kr_revoked_at := Some (Z.max t (kr_created_at r)) |>));
        mret (0 <? revoked)
  | _ => throw (KeyTypeError (js "publicId must be the 16-character public id of a key"))
  end.
End class.

(** ** Tokens have one spelling *)

Lemma alphabet_is_base32 u : is_Some (index_of ALPHABET u) → is_base32_char u = true.
Proof.
  intros [d Hd]. apply alphabet_index in Hd as [Hd <-].
  assert (forallb (λ d, is_base32_char (alphabet d)) (seqZ 0 32) = true) as Ha by (vm_compute; reflexivity).
  rewrite forallb_forall in Ha. apply Ha, list_elem_of_In, elem_of_seqZ. lia.
Qed.

Lemma base32_is_text bs : is_base32_text ((length bs * 8 + 4) / 5) (base32 bs) = true.
Proof.
  unfold is_base32_text. rewrite base32_length, Nat.eqb_refl. apply forallb_forall. intros u Hu.
  destruct (base32_spells bs) as (z & _ & Ha & _). apply alphabet_is_base32. unfold in_alphabet in Ha.
  rewrite Forall_forall in Ha. by apply Ha, list_elem_of_In.
Qed.

Lemma is_base32_text_length n s : is_base32_text n s = true → length s = n.
Proof. unfold is_base32_text. intros [H _]%andb_true_iff. by apply Nat.eqb_eq. Qed.

(** [TOKEN] splits exactly the texts of its form. *)
Lemma TOKEN_iff s id text : TOKEN s = Some (id, text) ↔
  s = js "qer_k1_" ++ id ++ js "_" ++ text ∧ is_base32_text 16 id = true ∧ is_base32_text 52 text = true.
Proof.
  unfold TOKEN. split.
  - destruct (str_eqb _ _) eqn:E1; [|done]. cbn [negb]. apply str_eqb_eq in E1.
    destruct (is_base32_text 16 _) eqn:E2; [|done]. cbn [negb].
    destruct (drop 23 s) as [|u secret] eqn:E3; [done|]. destruct (u =? 95)%N eqn:E4; [|done]. apply N.eqb_eq in E4 as ->.
    cbn [andb]. destruct (is_base32_text 52 secret) eqn:E5; [|done]. intros [= <- <-]. split_and!; [|done|done].
    rewrite <- E1, <- (take_drop 7 s) at 1. f_equal. rewrite <- (take_drop 16 (drop 7 s)) at 1. f_equal.
    rewrite drop_drop. exact E3.
  - intros (-> & H1 & H2). pose proof (is_base32_text_length _ _ H1) as Hl.
    rewrite take_app_length' by done. rewrite str_eqb_refl. cbn [negb].
    rewrite (drop_app_length' (js "qer_k1_")) by done. rewrite take_app_length' by done. rewrite H1. cbn [negb].
    rewrite app_assoc, drop_app_length' by (rewrite length_app, Hl; done).
    change (js "_" ++ text) with (95%N :: text). cbv iota. by rewrite N.eqb_refl, H2.
Qed.

(** A token has one spelling: [parseApiKeyToken] reads a public id and a secret exactly from the token text [create]
    writes for them; anything else, whatever its type, is nothing. *)
Theorem token_iff token publicId secret : parseApiKeyToken token = Some (publicId, secret) ↔
  ∃ publicBytes, length publicBytes = PUBLIC_ID_BYTES ∧ length secret = SECRET_BYTES ∧ publicId = base32 publicBytes ∧
    token = Some (JStr (token_text publicId secret)).
Proof.
  split.
  - destruct token as [[| | |s| |]|]; try done. cbn [parseApiKeyToken].
    destruct (TOKEN s) as [[id text]|] eqn:E; [|done]. cbn [mbind option_bind].
    destruct (unbase32 text SECRET_BYTES) as [bs|] eqn:E1; [|done].
    destruct (unbase32 id PUBLIC_ID_BYTES) as [pb|] eqn:E2; [|done]. intros [= <- <-].
    apply TOKEN_iff in E as (-> & _ & _). apply unbase32_iff in E1 as [H1 ->], E2 as [H2 ->]. by exists pb.
  - intros (pb & Hp & Hs & -> & ->). cbn [parseApiKeyToken]. unfold token_text.
    rewrite (proj2 (TOKEN_iff _ (base32 pb) (base32 secret))).
    + cbn [mbind option_bind]. rewrite (proj2 (unbase32_iff (base32 secret) SECRET_BYTES secret)) by done.
      by rewrite (proj2 (unbase32_iff (base32 pb) PUBLIC_ID_BYTES pb)).
    + split; [done|]. pose proof (base32_is_text pb) as H1. pose proof (base32_is_text secret) as H2.
      rewrite Hp in H1. rewrite Hs in H2. exact (conj H1 H2).
Qed.

(** ** What [create] stores *)

Lemma canonicalScopes_shape v scopes : canonicalScopes v = Ok scopes →
  scopes = [js "runs:read"] ∨ scopes = [js "runs:write"] ∨ scopes = API_KEY_SCOPES.
Proof.
  assert (∀ l s, check_scopes l = Ok s → Forall (λ x, x ∈ API_KEY_SCOPES) s ∧ (l = [] ↔ s = [])) as Hc.
  { intros l. induction l as [|x l IH]; intros s; cbn [check_scopes]; [by intros [= <-]|].
    destruct (known_scope x) as [k|] eqn:Ek; [|done]. destruct (check_scopes l) as [ks|]; [|done]. intros [= <-].
    destruct (IH ks eq_refl) as [Hf _]. split; [|done]. constructor; [|done].
    destruct x; try done. cbn [known_scope] in Ek. case_bool_decide; [by simplify_eq|done]. }
  unfold canonicalScopes. destruct v as [[| | | |[|x l]|]|]; try done.
  destruct (check_scopes (x :: l)) as [s|] eqn:E; [|done]. apply Hc in E as [Hf Hn]. unfold mbind, res_mbind, res_bind.
  destruct (negb _); [done|]. intros [= <-].
  destruct s as [|k s]; [by destruct Hn as [_ Hn]; specialize (Hn eq_refl)|]. inversion_clear Hf as [|? ? Hk Hs].
  assert (js "runs:read" ∈ k :: s ∨ js "runs:write" ∈ k :: s) as H by (unfold API_KEY_SCOPES in Hk; set_solver).
  unfold API_KEY_SCOPES. rewrite !filter_cons, filter_nil.
  repeat case_decide; auto; by destruct H.
Qed.

Lemma checkLabel_checked v l : checkLabel v = Ok (Some l) → str_eqb l [] = false ∧ (code_points l <=? 200) = true.
Proof.
  unfold checkLabel. destruct v as [[| | |s| |]|]; try done. destruct (str_eqb s []) eqn:E1; [done|].
  destruct (Z.ltb_spec LABEL_MAX (code_points s)); [done|]. destruct (existsb is_control s); [done|]. intros [= <-].
  split; [done|]. by apply Z.leb_le.
Qed.

Lemma checkProjectId_checked p : checkProjectId p = Ok tt → str_eqb p [] = false ∧ (utf8_length p <=? 512) = true.
Proof.
  unfold checkProjectId. destruct (str_eqb p []); [done|]. destruct (has_lone_surrogate p); [done|]. case_bool_decide; [done|].
  destruct (Z.ltb_spec MAX_PROJECT_ID_UTF8_BYTES (utf8_length p)); [done|]. intros _. split; [done|]. by apply Z.leb_le.
Qed.

Section facts.
Context (sha256 : bytes → bytes) (timestamptz : Z → option Z) (to_date : Z → Z).
(** SHA-256 gives 32 bytes. *)
Hypothesis sha256_length : ∀ b, length (sha256 b) = 32%nat.

(** The instant a key stops authenticating at, of the request it was issued for. *)
Definition expires_of (request : CreateApiKeyRequest) : option Z :=
  match cr_expiresAt request with Some (Some (Some ms)) => timestamptz ms | _ => None end.

(** The row a key is kept in. *)
Definition issued_row (request : CreateApiKeyRequest) (publicBytes secret : bytes) (scopes : list str) (label : option str) (t : Z) : KeyRow :=
  {| kr_public_id := base32 publicBytes; kr_project_id := cr_projectId request; kr_secret_sha256 := digest sha256 secret;
     kr_scopes := scopes; kr_label := label; kr_created_at := t; kr_expires_at := expires_of request; kr_revoked_at := None |}.

Definition ids (rows : list KeyRow) : list str := kr_public_id <$> rows.

(** What [create] can do: refuse its arguments, an expiry in the past or one the database cannot hold, or an id that is
    taken; or store one row that meets every constraint. *)
Lemma create_outcomes request pb secret db : length pb = PUBLIC_ID_BYTES →
  let '(r, db') := create sha256 timestamptz to_date request pb secret db in
  match r with
  | Ok c => ∃ scopes label, canonicalScopes (cr_scopes request) = Ok scopes ∧ checkLabel (cr_label request) = Ok label ∧
      c = {| ck_token := token_text (base32 pb) secret; ck_publicId := base32 pb; ck_projectId := cr_projectId request; ck_scopes := scopes;
             ck_label := label; ck_createdAt := to_date (kd_now db); ck_expiresAt := to_date <$> expires_of request |} ∧
      db' = db <| kd_rows := kd_rows db ++ [issued_row request pb secret scopes label (kd_now db)] |> ∧
      active (kd_now db) (issued_row request pb secret scopes label (kd_now db)) = true ∧
      key_checks (issued_row request pb secret scopes label (kd_now db)) = true ∧ base32 pb ∉ ids (kd_rows db)
  | Throw e => db' = db ∧ ((∃ m, e = KeyTypeError m) ∨ e = KeySql DatetimeOverflow ∨ (e = KeySql UniqueViolation ∧ base32 pb ∈ ids (kd_rows db)))
  end.
Proof.
  intros Hpb. unfold create, mbind, io_mbind, typed.
  destruct (checkProjectId _) as [[]|m] eqn:Ep; [|by eauto]. destruct (canonicalScopes _) as [scopes|m] eqn:Es; [|by eauto].
  destruct (checkLabel _) as [label|m] eqn:El; [|by eauto]. destruct (checkExpiry _) as [ms|m] eqn:Ee; [|by eauto].
  unfold insert_key, mbind, io_mbind, known, now.
  destruct (cast_expiry timestamptz ms) as [expires|e] eqn:Ec.
  2: { unfold cast_expiry in Ec. destruct ms as [ms|]; [|done]. destruct (timestamptz ms); [done|]. simplify_eq. auto. }
  assert (expires = expires_of request) as ->.
  { unfold checkExpiry, expires_of in *. destruct (cr_expiresAt request) as [[[z|]|]|]; simplify_eq/=; [|done].
    destruct (timestamptz z); by simplify_eq. }
  destruct (match expires_of request with None => true | Some e => kd_now db <? e end) eqn:Ea; [|cbn; eauto].
  fold (issued_row request pb secret scopes label (kd_now db)). set (row := issued_row _ _ _ _ _ _) in *.
  assert (key_checks row = true) as Hck.
  { unfold key_checks. cbn -[is_base32_text utf8_length code_points].
    pose proof (base32_is_text pb) as H1. rewrite Hpb in H1. change ((PUBLIC_ID_BYTES * 8 + 4) / 5)%nat with 16%nat in H1. rewrite H1.
    destruct (checkProjectId_checked _ Ep) as [-> ->]. unfold digest. rewrite sha256_length. cbn [negb andb Nat.eqb].
    assert (match label with None => true | Some l => negb (str_eqb l []) && (code_points l <=? 200) end = true) as ->.
    { destruct label as [l|]; [|done]. by destruct (checkLabel_checked _ _ El) as [-> ->]. }
    rewrite !andb_true_r. by destruct (canonicalScopes_shape _ _ Es) as [->|[->| ->]]. }
  unfold io_map_err, insert_row. rewrite Hck. cbn [negb]. case_bool_decide as Hin; cbn.
  - split; [done|]. right. right. done.
  - exists scopes, label. split_and!; try done.
Qed.

(** What [revoke] does to a row. *)
Definition revoked_row (id : str) (t : Z) (r : KeyRow) : KeyRow :=
  if str_eqb (kr_public_id r) id && negb (bool_decide (is_Some (kr_revoked_at r)))
  then r <| kr_revoked_at := Some (Z.max t (kr_created_at r)) |> else r.

Lemma update_all_ok cond set_ l :
  Forall (λ r, cond r = true → qe_project_api_keys_immutable r (set_ r) = true ∧ key_checks (set_ r) = true) l →
  ∃ n, update_all cond set_ l = Ok ((λ r, if cond r then set_ r else r) <$> l, n) ∧ 0 <= n ∧ (0 < n ↔ Exists (λ r, cond r = true) l).
Proof.
  induction 1 as [|r l Hr Hl (n & E & Hn & Hi)]; cbn [update_all].
  - exists 0. split_and!; [done|done|]. rewrite Exists_nil. lia.
  - rewrite E. setoid_rewrite Exists_cons. csimpl. destruct (cond r).
    + destruct (Hr eq_refl) as [-> ->]. cbn. exists (n + 1). split_and!; [done|lia|]. split; [by left|lia].
    + cbn. exists n. split_and!; [done..|]. rewrite Hi. split; [by right|by intros [|]].
Qed.

Lemma revoked_row_checks id t r : key_checks r = true → key_checks (revoked_row id t r) = true.
Proof.
  intros Hr. unfold revoked_row. destruct (str_eqb _ id && _) eqn:Hc; [|done]. apply andb_true_iff in Hc as [_ Hc].
  apply negb_true_iff, bool_decide_eq_false, eq_None_not_Some in Hc. destruct r. unfold key_checks in *.
  cbn -[is_base32_text utf8_length code_points] in *. subst. rewrite andb_true_r in Hr. rewrite Hr. cbn [andb]. apply Z.leb_le. lia.
Qed.

Lemma revoke_outcomes publicId db : Forall (λ r, key_checks r = true) (kd_rows db) →
  let '(r, db') := revoke publicId db in
  match r with
  | Ok b => ∃ id, publicId = Some (JStr id) ∧ db' = db <| kd_rows := revoked_row id (kd_now db) <$> kd_rows db |> ∧
      (b = true ↔ ∃ r, r ∈ kd_rows db ∧ kr_public_id r = id ∧ kr_revoked_at r = None)
  | Throw e => db' = db ∧ ∃ m, e = KeyTypeError m
  end.
Proof.
  intros Hck. unfold revoke. destruct publicId as [[| | |id| |]|]; try (cbn; by eauto).
  destruct (is_base32_text 16 id) eqn:Eid; [|cbn; by eauto]. cbn [negb]. unfold mbind, io_mbind, now, io_map_err, update_rows.
  set (cond := λ r, str_eqb (kr_public_id r) id && negb (bool_decide (is_Some (kr_revoked_at r)))).
  set (set_ := λ r, r <| kr_revoked_at := Some (Z.max (kd_now db) (kr_created_at r)) |>).
  destruct (update_all_ok cond set_ (kd_rows db)) as (n & E & Hn & Hi).
  { eapply Forall_impl; [exact Hck|]. intros r Hr Hc. unfold cond in Hc. apply andb_true_iff in Hc as [Hid Hc].
    split.
    - unfold qe_project_api_keys_immutable. apply negb_true_iff, bool_decide_eq_false, eq_None_not_Some in Hc. rewrite Hc. apply andb_true_iff. split; [by apply bool_decide_eq_true|done].
    - pose proof (revoked_row_checks id (kd_now db) r Hr) as H. unfold revoked_row in H.
      by rewrite Hid, Hc in H. }
  rewrite E. cbn. exists id. split_and!; [done..|]. rewrite Z.ltb_lt, Hi, Exists_exists. split.
  - intros (r & Hin & Hc). exists r. unfold cond in Hc. apply andb_true_iff in Hc as [H1 H2].
    apply str_eqb_eq in H1. apply negb_true_iff, bool_decide_eq_false, eq_None_not_Some in H2. done.
  - intros (r & Hin & <- & Hn'). exists r. split; [done|]. unfold cond. by rewrite str_eqb_refl, Hn'.
Qed.

(** What [authenticate] answers, of a table without repeated ids. *)
Lemma authenticate_outcomes token db : Forall (λ r, key_checks r = true) (kd_rows db) → NoDup (ids (kd_rows db)) →
  (∀ b, length (sha256 b) = 32%nat) →
  ∃ o, authenticate sha256 token db = (Ok o, db) ∧
  ∀ p, o = Some p ↔ ∃ secret r, parseApiKeyToken token = Some (ap_publicId p, secret) ∧ r ∈ kd_rows db ∧
    kr_public_id r = ap_publicId p ∧ kr_secret_sha256 r = digest sha256 secret ∧ active (kd_now db) r = true ∧
    p = {| ap_publicId := kr_public_id r; ap_projectId := kr_project_id r; ap_scopes := kr_scopes r |}.
Proof.
  intros Hck Hnd Hlen. unfold authenticate. destruct (parseApiKeyToken token) as [[id secret]|]; [|exists None; split; [done|]; intros p; split; [done|]; by intros (? & ? & ? & _)].
  unfold mbind, io_mbind, query, known. set (found := filter _ (kd_rows db)).
  assert (∀ r, r ∈ found ↔ kr_public_id r = id ∧ r ∈ kd_rows db) as Hfound by (intros r; unfold found; by rewrite list_elem_of_filter).
  assert (∀ r s, r ∈ found → s ∈ found → r = s) as Huniq.
  { intros r s [Hr1 Hr2]%Hfound [Hs1 Hs2]%Hfound. unfold ids in Hnd. rewrite <- Hs1 in Hr1. clear -Hnd Hr1 Hr2 Hs2.
    apply list_elem_of_lookup_1 in Hr2 as [i Hi], Hs2 as [j Hj]. assert (i = j) as ->; [|congruence].
    eapply NoDup_lookup; [exact Hnd|rewrite list_lookup_fmap, Hi; reflexivity|rewrite list_lookup_fmap, Hj; simpl; by rewrite Hr1]. }
  destruct found as [|r rest] eqn:Ef; cbn [fmap list_fmap head].
  - unfold timingSafeEqual, digest. rewrite Hlen. cbn. exists None. split; [done|]. intros p. split; [done|].
    intros (secret' & r & [= <- <-] & Hin & Hid & _). pose proof (proj2 (Hfound r) (conj Hid Hin)) as H. by apply not_elem_of_nil in H.
  - destruct (proj1 (Hfound r) ltac:(left)) as [Hid Hin]. rewrite Forall_forall in Hck. pose proof (Hck r Hin) as Hr.
    assert (length (kr_secret_sha256 r) = 32%nat) as Hl.
    { unfold key_checks in Hr. rewrite !andb_true_iff in Hr. apply Nat.eqb_eq. tauto. }
    unfold timingSafeEqual, digest. rewrite Hl, Hlen. cbn [Nat.eqb].
    assert (∀ p, Some p = Some {| ap_publicId := id; ap_projectId := kr_project_id r; ap_scopes := kr_scopes r |} →
      kr_secret_sha256 r = sha256 secret → active (kd_now db) r = true → ∃ secret' r', Some (id, secret) = Some (ap_publicId p, secret') ∧ r' ∈ kd_rows db ∧
      kr_public_id r' = ap_publicId p ∧ kr_secret_sha256 r' = sha256 secret' ∧ active (kd_now db) r' = true ∧
      p = {| ap_publicId := kr_public_id r'; ap_projectId := kr_project_id r'; ap_scopes := kr_scopes r' |}) as Hyes.
    { intros p [= ->] Hs Ha. exists secret, r. cbn. by rewrite Hid. }
    assert (∀ p, (∃ secret' r', Some (id, secret) = Some (ap_publicId p, secret') ∧ r' ∈ kd_rows db ∧
      kr_public_id r' = ap_publicId p ∧ kr_secret_sha256 r' = sha256 secret' ∧ active (kd_now db) r' = true ∧
      p = {| ap_publicId := kr_public_id r'; ap_projectId := kr_project_id r'; ap_scopes := kr_scopes r' |}) →
      p = {| ap_publicId := id; ap_projectId := kr_project_id r; ap_scopes := kr_scopes r |} ∧ kr_secret_sha256 r = sha256 secret ∧ active (kd_now db) r = true) as Hno.
    { intros p (secret' & r' & [= E1 <-] & Hin' & Hid' & Hs & Ha & Hp). rewrite <- E1 in Hid'.
      assert (r' = r) as -> by (apply Huniq; [by apply Hfound|left]). by rewrite Hid' in Hp. }
    case_bool_decide as Hm; cbn [negb orb].
    + destruct (active (kd_now db) r) eqn:Ea; cbn [negb].
      * eexists. split; [done|]. intros p. split; [intros E; by apply Hyes|]. intros H. by destruct (Hno p H) as [-> _].
      * exists None. split; [done|]. intros p. split; [done|]. intros H. by destruct (Hno p H) as (_ & _ & ?).
    + exists None. split; [done|]. intros p. split; [done|]. intros H. by destruct (Hno p H) as (_ & ? & _).
Qed.

(** ** Histories of a table *)

(** A use of the keys, and the clock showing a time. *)
Inductive KeyOp :=
| OpCreate (request : CreateApiKeyRequest) (publicBytes secret : bytes)
| OpAuthenticate (token : option json)
| OpList (request : ListApiKeysRequest)
| OpRevoke (publicId : option json)
| OpClock (now : Z).
Inductive KeyAnswer :=
| Created (key : CreatedApiKey) | Principal (p : option ApiKeyPrincipal) | Listed (page : ApiKeyPage)
| Revoked (b : bool) | Ticked | Failed (e : KeyError).

Definition answer {A} (f : A → KeyAnswer) (m : io KeyDb KeyError A) (db : KeyDb) : KeyAnswer * KeyDb :=
  match m db with (Ok a, db') => (f a, db') | (Throw e, db') => (Failed e, db') end.

Definition perform (op : KeyOp) (db : KeyDb) : KeyAnswer * KeyDb :=
  match op with
  | OpCreate request pb secret => answer Created (create sha256 timestamptz to_date request pb secret) db
  | OpAuthenticate token => answer Principal (authenticate sha256 token) db
  | OpList request => answer Listed (list_keys to_date request) db
  | OpRevoke publicId => answer Revoked (revoke publicId) db
  | OpClock t => (Ticked, db <| kd_now := t |>)
  end.

Fixpoint history (ops : list KeyOp) (db : KeyDb) : list (KeyOp * KeyAnswer) * KeyDb :=
  match ops with
  | [] => ([], db)
  | op :: ops => let '(a, db) := perform op db in let '(log, db) := history ops db in ((op, a) :: log, db)
  end.

(** [randomBytes] gives as many bytes as it is asked for. *)
Definition drawn (op : KeyOp) : Prop :=
  match op with OpCreate _ pb _ => length pb = PUBLIC_ID_BYTES | _ => True end.

(** A row and the entry of the log that issued it. *)
Definition issues (e : KeyOp * KeyAnswer) (r : KeyRow) : Prop :=
  ∃ request pb secret key, e = (OpCreate request pb secret, Created key) ∧
    length pb = PUBLIC_ID_BYTES ∧ kr_public_id r = base32 pb ∧ ck_publicId key = kr_public_id r ∧ ck_projectId key = kr_project_id r ∧ ck_scopes key = kr_scopes r ∧
    digest sha256 secret = kr_secret_sha256 r ∧ expires_of request = kr_expires_at r.
Definition revocation (id : str) : KeyOp * KeyAnswer := (OpRevoke (Some (JStr id)), Revoked true).

(** What a table and the log of its past have in common. *)
Record Kept (log : list (KeyOp * KeyAnswer)) (db : KeyDb) : Prop := {
  kept_checks : Forall (λ r, key_checks r = true) (kd_rows db);
  kept_ids : NoDup (ids (kd_rows db));
  kept_issued r : r ∈ kd_rows db → ∃ e, e ∈ log ∧ issues e r;
  kept_rows request pb secret key : (OpCreate request pb secret, Created key) ∈ log →
    ∃ r, r ∈ kd_rows db ∧ issues (OpCreate request pb secret, Created key) r;
  kept_revoked id : revocation id ∈ log ↔ ∃ r, r ∈ kd_rows db ∧ kr_public_id r = id ∧ is_Some (kr_revoked_at r);
}.

Lemma Kept_same log db op a db' : Kept log db → kd_rows db' = kd_rows db →
  (∀ r, ¬ issues (op, a) r) → (∀ id, (op, a) ≠ revocation id) → (∀ request pb secret key, (op, a) ≠ (OpCreate request pb secret, Created key)) →
  Kept (log ++ [(op, a)]) db'.
Proof.
  intros [Hc Hi Hs Hr Hv] E H1 H2 H3. split; rewrite ?E; [done|done|..].
  - intros r Hin. destruct (Hs r Hin) as (e & He & Hir). exists e. set_solver.
  - intros request pb secret key [Hin|Hin%list_elem_of_singleton]%elem_of_app; [eauto|]. by destruct (H3 request pb secret key).
  - intros id. rewrite <- Hv, elem_of_app, list_elem_of_singleton. split; [|by left]. intros [|Hx]; [done|]. by destruct (H2 id).
Qed.

Lemma issues_create request pb secret scopes label t tok cd ed : length pb = PUBLIC_ID_BYTES →
  issues (OpCreate request pb secret, Created {| ck_token := tok; ck_publicId := base32 pb; ck_projectId := cr_projectId request; ck_scopes := scopes;
    ck_label := label; ck_createdAt := cd; ck_expiresAt := ed |}) (issued_row request pb secret scopes label t).
Proof. intros Hpb. unfold issues. by eexists _, _, _, _. Qed.

Lemma Kept_create log db request pb secret : length pb = PUBLIC_ID_BYTES → Kept log db →
  let '(a, db') := perform (OpCreate request pb secret) db in Kept (log ++ [(OpCreate request pb secret, a)]) db'.
Proof.
  intros Hpb HK. pose proof (create_outcomes request pb secret db Hpb) as Ho. cbn [perform]. unfold answer.
  destruct (create _ _ _ _ _ _ _) as [[c|e] db'].
  - destruct Ho as (scopes & label & _ & _ & -> & -> & _ & Hck & Hid). destruct HK as [Hc Hi Hs Hr Hv].
    set (row := issued_row _ _ _ _ _ _) in *. set (c := Build_CreatedApiKey _ _ _ _ _ _ _).
    assert (issues (OpCreate request pb secret, Created c) row) as Hrow by by apply issues_create.
    split; cbn -[row c key_checks].
    + apply Forall_app. split; [done|]. by apply Forall_singleton.
    + unfold ids. rewrite fmap_app. apply NoDup_app. split_and!; [done| |apply NoDup_singleton].
      intros x Hx ->%list_elem_of_singleton. by apply Hid.
    + intros r [Hin| ->%list_elem_of_singleton]%elem_of_app.
      * destruct (Hs r Hin) as (e & He & Hir). exists e. set_solver.
      * eexists. split; [|exact Hrow]. set_solver.
    + intros request' pb' secret' key' [Hin|Hin%list_elem_of_singleton]%elem_of_app.
      * destruct (Hr _ _ _ _ Hin) as (r & Hrin & Hir). exists r. set_solver.
      * exists row. rewrite Hin. split; [set_solver|done].
    + intros id. rewrite elem_of_app, Hv. split.
      * intros [(r & Hin & H)|Hx%list_elem_of_singleton]; [|done]. exists r. set_solver.
      * intros (r & [Hin| ->%list_elem_of_singleton]%elem_of_app & H1 & H2); [left; eauto|]. by destruct H2.
  - destruct Ho as (-> & _). apply (Kept_same log db); [done|done| |done|done]. by intros r (? & ? & ? & ? & ? & _).
Qed.

Lemma issues_revoked e id t r : issues e r ↔ issues e (revoked_row id t r).
Proof. unfold revoked_row. by destruct (_ && _). Qed.

Lemma revoked_row_revoked id t r : is_Some (kr_revoked_at (revoked_row id t r)) ↔ is_Some (kr_revoked_at r) ∨ kr_public_id r = id.
Proof.
  unfold revoked_row. destruct (str_eqb (kr_public_id r) id) eqn:E; cbn [andb].
  - apply str_eqb_eq in E. case_bool_decide; cbn; [tauto|]. split; [by right|by eexists].
  - apply str_eqb_neq in E. tauto.
Qed.

Lemma Kept_revoke log db publicId : Kept log db →
  let '(a, db') := perform (OpRevoke publicId) db in Kept (log ++ [(OpRevoke publicId, a)]) db'.
Proof.
  intros HK. pose proof (revoke_outcomes publicId db (kept_checks _ _ HK)) as Ho. cbn [perform]. unfold answer.
  destruct (revoke _ _) as [[b|e] db'].
  - destruct Ho as (id & -> & -> & Hb). destruct HK as [Hc Hi Hs Hr Hv].
    assert (ids (revoked_row id (kd_now db) <$> kd_rows db) = ids (kd_rows db)) as Hids.
    { unfold ids. rewrite <- list_fmap_compose. apply list_fmap_ext. intros _ r _. cbn. unfold revoked_row. by destruct (_ && _). }
    split; cbn -[revoked_row key_checks].
    + apply Forall_fmap. eapply Forall_impl; [exact Hc|]. intros r. apply revoked_row_checks.
    + exact (eq_ind_r NoDup Hi Hids).
    + intros r (r' & -> & Hin)%list_elem_of_fmap. destruct (Hs r' Hin) as (e & He & Hir). exists e. split; [set_solver|].
      exact (proj1 (issues_revoked _ _ _ _) Hir).
    + intros request pb secret key [Hin|Hin%list_elem_of_singleton]%elem_of_app; [|done].
      destruct (Hr _ _ _ _ Hin) as (r & Hrin & Hir). exists (revoked_row id (kd_now db) r). split; [by apply list_elem_of_fmap_2|exact (proj1 (issues_revoked _ _ _ _) Hir)].
    + intros id'. rewrite elem_of_app, Hv, list_elem_of_singleton. setoid_rewrite list_elem_of_fmap. split.
      * intros [(r & Hin & Hid & Hsome)|Heq].
        -- exists (revoked_row id (kd_now db) r). split_and!; [by exists r|unfold revoked_row; by destruct (_ && _)|apply revoked_row_revoked; by left].
        -- unfold revocation in Heq. assert (id' = id ∧ b = true) as [-> ->] by (split; congruence). destruct (proj1 Hb eq_refl) as (r & Hin & Hid & Hnone).
           exists (revoked_row id (kd_now db) r). split_and!; [by exists r|unfold revoked_row; by destruct (_ && _)|apply revoked_row_revoked; by right].
      * intros (_ & (r & -> & Hin) & Hid & Hsome%revoked_row_revoked).
        assert (kr_public_id r = id') as Hid' by (revert Hid; unfold revoked_row; by destruct (_ && _)).
        destruct (kr_revoked_at r) as [t|] eqn:Et; [left; exists r; by rewrite Et|]. destruct Hsome as [[? ?]|Heq]; [done|].
        right. unfold revocation. assert (b = true) as -> by (apply Hb; eauto). congruence.
  - destruct Ho as (-> & _). apply (Kept_same log db); [done|done| |done|done]. by intros r (? & ? & ? & ? & ? & _).
Qed.

Lemma list_keys_same request db : (list_keys to_date request db).2 = db.
Proof.
  unfold list_keys, mbind, io_mbind, typed, query. destruct (lr_projectId request) as [p|]; [destruct (checkProjectId p); [|done]|];
    (destruct (pageSize _); [|done]); by destruct (throw_if _ _).
Qed.

Lemma Kept_perform log db op : drawn op → Kept log db → let '(a, db') := perform op db in Kept (log ++ [(op, a)]) db'.
Proof.
  intros Hd HK. destruct op as [request pb secret|token|request|publicId|t].
  - by apply Kept_create.
  - cbn [perform]. unfold answer. destruct (authenticate_outcomes token db (kept_checks _ _ HK) (kept_ids _ _ HK) sha256_length) as (o & -> & _).
    apply (Kept_same log db); [done|done| |done|done]. by intros r (? & ? & ? & ? & ? & _).
  - cbn [perform]. unfold answer. pose proof (list_keys_same request db) as E. destruct (list_keys _ _ _) as [[o|e] db'];
      (apply (Kept_same log db); [done|by rewrite <- E| |done|done]); by intros r (? & ? & ? & ? & ? & _).
  - by apply Kept_revoke.
  - cbn. apply (Kept_same log db); [done|done| |done|done]. by intros r (? & ? & ? & ? & ? & _).
Qed.

Lemma Kept_history ops log db : Forall drawn ops → Kept log db → let '(log', db') := history ops db in Kept (log ++ log') db'.
Proof.
  intros Hd. revert log db. induction Hd as [|op ops Hop Hd IH]; intros log db HK; cbn [history]; [by rewrite app_nil_r|].
  pose proof (Kept_perform log db op Hop HK) as H. destruct (perform op db) as [a db1]. specialize (IH _ _ H).
  destruct (history ops db1) as [log' db']. by rewrite <- app_assoc in IH.
Qed.

Lemma Kept_empty t : Kept [] {| kd_now := t; kd_rows := [] |}.
Proof.
  split; cbn; [constructor|constructor|intros r H; by apply not_elem_of_nil in H|intros ? ? ? ? H; by apply not_elem_of_nil in H|].
  intros id. split; [intros H; by apply not_elem_of_nil in H|]. intros (r & H & _). by apply not_elem_of_nil in H.
Qed.

(** C17 Whatever has been done with the keys, and whatever the clock shows, a token speaks for someone exactly when a key
    was issued whose public id it carries with a secret of the same digest, no call has revoked that key, and its expiry,
    if it has one, is still ahead; and then it speaks for the project and the scopes of that key. *)
Theorem token_speaks_for_its_key ops start token p : Forall drawn ops →
  let '(log, db) := history ops {| kd_now := start; kd_rows := [] |} in
  (authenticate sha256 token db).1 = Ok (Some p) ↔
  ∃ request publicBytes secret key secret',
    (OpCreate request publicBytes secret, Created key) ∈ log ∧
    token = Some (JStr (token_text (ck_publicId key) secret')) ∧ length secret' = SECRET_BYTES ∧ sha256 secret' = sha256 secret ∧
    (revocation (ck_publicId key) ∉ log) ∧
    match expires_of request with None => True | Some e => kd_now db < e end ∧
    p = {| ap_publicId := ck_publicId key; ap_projectId := ck_projectId key; ap_scopes := ck_scopes key |}.
Proof.
  intros Hd. pose proof (Kept_history ops [] _ Hd (Kept_empty start)) as HK. destruct (history _ _) as [log db]. cbn [app] in HK.
  destruct (authenticate_outcomes token db (kept_checks _ _ HK) (kept_ids _ _ HK) sha256_length) as (o & -> & Ho). cbn [fst].
  assert ((@Ok KeyError _ o = Ok (Some p)) ↔ (o = Some p)) as -> by (split; [by intros [=]|by intros ->]). rewrite Ho.
  assert (∀ r, active (kd_now db) r = true ↔ kr_revoked_at r = None ∧ match kr_expires_at r with None => True | Some e => kd_now db < e end) as Hact.
  { intros r. unfold active. destruct (kr_revoked_at r); [by split; [|intros [? _]]|]. destruct (kr_expires_at r); [rewrite Z.ltb_lt|]; tauto. }
  assert (∀ r, r ∈ kd_rows db → (revocation (kr_public_id r) ∈ log ↔ is_Some (kr_revoked_at r))) as Hrev.
  { intros r Hin. rewrite (kept_revoked _ _ HK). split; [|by eauto]. intros (r' & Hin' & Hid & Hs).
    assert (r' = r) as ->; [|done]. pose proof (kept_ids _ _ HK) as Hnd. unfold ids in Hnd.
    apply list_elem_of_lookup_1 in Hin as [i Hi], Hin' as [j Hj]. assert (i = j) as ->; [|congruence].
    eapply NoDup_lookup; [exact Hnd|rewrite list_lookup_fmap, Hi; reflexivity|rewrite list_lookup_fmap, Hj; simpl; by rewrite Hid]. }
  split.
  - intros (secret' & r & Hp & Hin & Hid & Hs & [Hn He]%Hact & Hpe). apply token_iff in Hp as (pb & _ & Hl & _ & ->).
    destruct (kept_issued _ _ HK r Hin) as (e & Hine & request & pb' & secret & key & -> & Hpb & Hb & H1 & H2 & H3 & H4 & H5).
    exists request, pb', secret, key, secret'. rewrite H1, H2, H3, H5. rewrite <- Hid in *. split_and!; try done.
    + unfold digest in *. congruence.
    + rewrite (Hrev r Hin), Hn. by intros [? ?].
  - intros (request & pb & secret & key & secret' & Hin & -> & Hl & Hsha & Hnr & Hexp & ->).
    destruct (kept_rows _ _ HK _ _ _ _ Hin) as (r & Hrin & request' & pb' & secret1 & key' & [= <- <- <- <-] & Hpb & Hb & H1 & H2 & H3 & H4 & H5).
    exists secret', r. rewrite H1, H2, H3 in *. cbn [ap_publicId ap_projectId ap_scopes]. pose proof (kept_checks _ _ HK) as Hck. rewrite Forall_forall in Hck.
    split_and!; try done.
    + apply token_iff. rewrite Hb. by exists pb.
    + unfold digest in *. congruence.
    + apply Hact. rewrite <- H5. split; [|done]. rewrite (Hrev r Hrin) in Hnr. by apply eq_None_not_Some.
Qed.

(** ** What the database can refuse *)

Definition refusal_of (op : KeyOp) (e : KeyError) : Prop :=
  (∃ m, e = KeyTypeError m) ∨
  (∃ request pb secret, op = OpCreate request pb secret ∧ (e = KeySql DatetimeOverflow ∨ e = KeySql UniqueViolation)).

Lemma list_keys_throws request db e : (list_keys to_date request db).1 = Throw e → ∃ m, e = KeyTypeError m.
Proof.
  unfold list_keys, mbind, io_mbind, typed, query.
  destruct (lr_projectId request) as [p|]; [destruct (checkProjectId p); [|intros [= <-]; eauto]|];
    (destruct (pageSize _); [|intros [= <-]; eauto]); (destruct (throw_if _ _); [done|intros [= <-]; eauto]).
Qed.

Lemma perform_refusal log db op e : drawn op → Kept log db → (perform op db).1 = Failed e → refusal_of op e.
Proof.
  intros Hd HK. destruct op as [request pb secret|token|request|publicId|t]; cbn [perform]; unfold answer; [| | | |done].
  - pose proof (create_outcomes request pb secret db Hd) as Ho. destruct (create _ _ _ _ _ _ _) as [[c|e'] db']; [done|].
    intros [= <-]. destruct Ho as [_ [Hm|[->|[-> _]]]]; [by left|right; eauto 6..].
  - by destruct (authenticate_outcomes token db (kept_checks _ _ HK) (kept_ids _ _ HK) sha256_length) as (o & -> & _).
  - pose proof (list_keys_throws request db) as Ho. destruct (list_keys _ _ _) as [[o|e'] db']; [done|]. intros [= <-]. left. by apply Ho.
  - pose proof (revoke_outcomes publicId db (kept_checks _ _ HK)) as Ho. destruct (revoke _ _) as [[b|e'] db']; [done|].
    intros [= <-]. left. by destruct Ho.
Qed.

(** However the keys are used, the code's checks are as strict as the table's constraints: no statement ever meets a CHECK or the
    trigger, and comparing digests never throws. A call fails with a [TypeError] about its arguments; only [create] can fail in
    the database, for an expiry no timestamp holds or a public id drawn twice. *)
Theorem key_statements_are_accepted ops start op e : Forall drawn ops →
  (op, Failed e) ∈ (history ops {| kd_now := start; kd_rows := [] |}).1 → refusal_of op e.
Proof.
  intros Hd. pose proof (Kept_empty start) as HK. revert HK. generalize (@nil (KeyOp * KeyAnswer)) as log.
  generalize {| kd_now := start; kd_rows := [] |} as db. induction Hd as [|op' ops Hop Hd IH]; intros db log HK; cbn [history].
  { intros H. by apply not_elem_of_nil in H. }
  pose proof (Kept_perform log db op' Hop HK) as H. pose proof (perform_refusal log db op' e Hop HK) as Hr.
  destruct (perform op' db) as [a db1]. specialize (IH _ _ H). destruct (history ops db1) as [log' db'].
  intros [E|Hin]%elem_of_cons; [|by apply IH]. injection E as -> <-. by apply Hr.
Qed.

(** ** Pages *)

Lemma compare_neg a b : compare a b < 0 ↔ str_ltb a b = true.
Proof. destruct (compare_cases a b) as [(-> & H & _)|[(-> & ->)|(-> & _ & H)]]; rewrite ?H; rewrite ?str_ltb_irrefl; split; by try lia. Qed.

(** The keys a listing is about, in the order of their public ids. *)
Definition listed (projectId : option str) (inactive : bool) (after : option str) (t : Z) (rows : list KeyRow) : list KeyRow :=
  sort (cmp_on kr_public_id compare) (filter (λ r, selects projectId inactive after t r) rows).

Lemma elem_of_listed pid inactive after t rows r : r ∈ listed pid inactive after t rows ↔ r ∈ rows ∧ selects pid inactive after t r = true.
Proof. unfold listed. rewrite elem_of_sort, list_elem_of_filter, Is_true_true. tauto. Qed.

Lemma NoDup_ids rows : NoDup (ids rows) → NoDup rows.
Proof. unfold ids. apply NoDup_fmap_1. Qed.

Lemma ids_inj rows r s : NoDup (ids rows) → r ∈ rows → s ∈ rows → kr_public_id r = kr_public_id s → r = s.
Proof.
  unfold ids. intros Hnd [i Hi]%list_elem_of_lookup_1 [j Hj]%list_elem_of_lookup_1 E. assert (i = j) as ->; [|congruence].
  eapply NoDup_lookup; [exact Hnd|rewrite list_lookup_fmap, Hi; reflexivity|rewrite list_lookup_fmap, Hj; simpl; by rewrite E].
Qed.

Lemma NoDup_listed pid inactive after t rows : NoDup (ids rows) → NoDup (listed pid inactive after t rows).
Proof. intros H. unfold listed. rewrite sort_Permutation. by apply NoDup_filter, NoDup_ids. Qed.

(** What is listed after a key that is listed. *)
Lemma listed_after pid inactive after t rows l1 x l2 : NoDup (ids rows) →
  listed pid inactive after t rows = l1 ++ x :: l2 → listed pid inactive (Some (kr_public_id x)) t rows = l2.
Proof.
  intros Hnd E. pose proof (sort_sorted (cmp_on kr_public_id compare) (filter (λ r, selects pid inactive after t r) rows)) as Hsort.
  fold (listed pid inactive after t rows) in Hsort. rewrite E in Hsort.
  pose proof (NoDup_listed pid inactive after t rows Hnd) as Hn. rewrite E in Hn. apply NoDup_app in Hn as (_ & Hn12 & Hn2).
  apply NoDup_cons in Hn2 as [Hnx Hn2].
  assert (StronglySorted (cmp_le (cmp_on kr_public_id compare)) (x :: l2)) as Hs2 by (by apply StronglySorted_app_1_r in Hsort).
  inversion_clear Hs2 as [|? ? Hs2' Hall]. rewrite Forall_forall in Hall.
  assert (∀ y, y ∈ l1 → cmp_le (cmp_on kr_public_id compare) y x) as Hl1.
  { intros y Hy. eapply StronglySorted_app_1_elem_of; [exact Hsort|done|left]. }
  assert (∀ y, y ∈ l1 ++ x :: l2 ↔ y ∈ rows ∧ selects pid inactive after t y = true) as Hin by (intros y; rewrite <- E; apply elem_of_listed).
  refine (sorted_unique (cmp_on kr_public_id compare) _ _ _ (sort_sorted _ _) Hs2' _).
  - intros y z [Hy _]%elem_of_listed [Hz _]%elem_of_listed H. apply (ids_inj rows); [done..|]. by apply (cmp_0_eq (cmp := compare)).
  - apply NoDup_Permutation; [by apply NoDup_listed|done|]. intros y. fold (listed pid inactive (Some (kr_public_id x)) t rows). rewrite elem_of_listed. destruct (proj1 (Hin x)) as [Hxr Hxs]; [set_solver|].
    unfold selects in *. rewrite !andb_true_iff in *. setoid_rewrite andb_true_iff in Hin. setoid_rewrite andb_true_iff in Hin. split.
    + intros (Hyr & (Hy1 & Hy2) & Hy3). assert (y ∈ l1 ++ x :: l2) as Hy.
      { apply Hin. split_and!; [done..|]. destruct after as [a|]; [|done]. eapply str_ltb_trans; [apply Hxs|exact Hy3]. }
      apply elem_of_app in Hy as [Hy|[->|Hy]%elem_of_cons]; [|by rewrite str_ltb_irrefl in Hy3|done].
      apply Hl1 in Hy. unfold cmp_le, cmp_on in Hy. apply compare_neg in Hy3. pose proof (cmp_sym (cmp := compare) (kr_public_id y) (kr_public_id x)). lia.
    + intros Hy. destruct (proj1 (Hin y)) as (Hyr & Hy12 & _); [set_solver|]. split_and!; [done|tauto|tauto|].
      pose proof (Hall y Hy) as Hle. unfold cmp_le, cmp_on in Hle. apply compare_neg.
      destruct (Z.eq_dec (compare (kr_public_id x) (kr_public_id y)) 0) as [E0|]; [|lia].
      apply (cmp_0_eq (cmp := compare)) in E0. apply (ids_inj rows) in E0 as ->; done.
Qed.

(** Asking for pages until there is no next one. *)
Fixpoint walk (fuel : nat) (request : ListApiKeysRequest) (db : KeyDb) : option (list ApiKeySummary) :=
  match fuel with
  | O => None
  | S fuel =>
      match (list_keys to_date request db).1 with
      | Ok page =>
          match kp_next page with
          | None => Some (kp_keys page)
          | Some next => app (kp_keys page) <$> walk fuel {| lr_projectId := lr_projectId request; lr_includeInactive := lr_includeInactive request;
                                                            lr_limit := lr_limit request; lr_after := Some next |} db
          end
      | Throw _ => None
      end
  end.

Lemma list_keys_page request db l : pageSize (lr_limit request) = Ok l → 1 ≤ l →
  (∀ p, lr_projectId request = Some p → checkProjectId p = Ok tt) →
  (∀ a, lr_after request = Some a → is_base32_text 16 a = true) →
  let all := listed (lr_projectId request) (lr_includeInactive request) (lr_after request) (kd_now db) (kd_rows db) in
  (list_keys to_date request db).1 = Ok {| kp_keys := summary to_date (kd_now db) <$> take (Z.to_nat l) all;
    kp_next := if (Z.to_nat l <? length all)%nat then kr_public_id <$> last (take (Z.to_nat l) all) else None |}.
Proof.
  intros Hl H1 Hp Ha all. unfold list_keys, mbind, io_mbind, typed, query.
  assert ((match lr_projectId request with Some p => (λ db0 : KeyDb, (match checkProjectId p with Ok a => Ok a | Throw m => Throw (KeyTypeError m) end, db0))
    | None => mret tt end : io KeyDb KeyError unit) db = (Ok tt, db)) as ->.
  { destruct (lr_projectId request) as [p|]; [by rewrite (Hp p)|done]. }
  rewrite Hl. assert (match lr_after request with Some a => negb (is_base32_text 16 a) | None => false end = false) as ->.
  { destruct (lr_after request) as [a|]; [by rewrite (Ha a)|done]. }
  cbn [throw_if fst]. unfold select_keys. fold (listed (lr_projectId request) (lr_includeInactive request) (lr_after request) (kd_now db) (kd_rows db)).
  fold all. rewrite <- fmap_take, take_take. replace (Z.to_nat l `min` Z.to_nat (l + 1))%nat with (Z.to_nat l) by lia.
  unfold mret, io_mret. cbn [fst]. do 2 f_equal. rewrite length_fmap, length_take, fmap_last.
  destruct (Nat.ltb_spec (Z.to_nat l) (length all)), (Z.ltb_spec l (Z.of_nat (Z.to_nat (l + 1) `min` length all))); try lia; [|done].
  by destruct (last (take (Z.to_nat l) all)).
Qed.

Lemma pageSize_pos limit l : pageSize limit = Ok l → 1 ≤ l.
Proof.
  unfold pageSize, DEFAULT_API_KEY_PAGE, MAX_API_KEY_PAGE. destruct limit as [n|]; [|intros [= <-]; lia].
  destruct (as_safe_integer n) as [k|]; [|done]. destruct (Z.ltb_spec k 1); [done|]. intros [= <-]. lia.
Qed.

Lemma walk_enough fuel request db l : NoDup (ids (kd_rows db)) → Forall (λ r, key_checks r = true) (kd_rows db) →
  pageSize (lr_limit request) = Ok l →
  (∀ p, lr_projectId request = Some p → checkProjectId p = Ok tt) →
  (∀ a, lr_after request = Some a → is_base32_text 16 a = true) →
  (length (listed (lr_projectId request) (lr_includeInactive request) (lr_after request) (kd_now db) (kd_rows db)) < fuel)%nat →
  walk fuel request db = Some (summary to_date (kd_now db) <$> listed (lr_projectId request) (lr_includeInactive request) (lr_after request) (kd_now db) (kd_rows db)).
Proof.
  intros Hnd Hck Hl Hp. revert request Hl Hp. induction fuel as [|fuel IH]; intros request Hl Hp Ha Hfuel; [lia|]. cbn [walk].
  pose proof (pageSize_pos _ _ Hl) as H1. rewrite (list_keys_page request db l) by done.
  remember (listed (lr_projectId request) (lr_includeInactive request) (lr_after request) (kd_now db) (kd_rows db)) as all eqn:Eall.
  cbn [kp_next kp_keys]. destruct (Nat.ltb_spec (Z.to_nat l) (length all)) as [Hlt|Hge]; [|by rewrite take_ge by lia].
  destruct (last (take (Z.to_nat l) all)) as [x|] eqn:Ex.
  2: { apply last_None, (f_equal length) in Ex. rewrite length_take in Ex. simpl in Ex. lia. }
  cbn [fmap option_fmap option_map]. apply last_Some in Ex as [p Ex].
  assert (all = p ++ x :: drop (Z.to_nat l) all) as Esplit.
  { rewrite <- (take_drop (Z.to_nat l) all) at 1. by rewrite Ex, <- app_assoc. }
  assert (x ∈ kd_rows db) as Hx.
  { assert (x ∈ all) as Hx by (rewrite Esplit; set_solver). rewrite Eall in Hx. by apply elem_of_listed in Hx as [? _]. }
  pose proof (eq_trans (eq_sym Eall) Esplit) as Hafter. apply listed_after in Hafter; [|done].
  rewrite IH; cbn [lr_projectId lr_includeInactive lr_limit lr_after]; [|done|done| |].
  - rewrite Hafter. cbn. f_equal. by rewrite <- fmap_app, take_drop.
  - intros a [= <-]. rewrite Forall_forall in Hck. apply Hck in Hx. unfold key_checks in Hx. rewrite !andb_true_iff in Hx. tauto.
  - rewrite Hafter, length_drop. lia.
Qed.

(** C18 Listing ends: of any table that uses of the keys have left, asking for page after page from each page's [next] runs out
    within one request more than there are keys, and what the pages hold, one after the other, is every key the request is
    about exactly once, in the order of the public ids, whatever the page size. *)
Theorem paging_ends ops start request l : Forall drawn ops → pageSize (lr_limit request) = Ok l →
  (∀ p, lr_projectId request = Some p → checkProjectId p = Ok tt) →
  (∀ a, lr_after request = Some a → is_base32_text 16 a = true) →
  let '(_, db) := history ops {| kd_now := start; kd_rows := [] |} in
  walk (S (length (kd_rows db))) request db =
    Some (summary to_date (kd_now db) <$> listed (lr_projectId request) (lr_includeInactive request) (lr_after request) (kd_now db) (kd_rows db)) ∧
  NoDup (listed (lr_projectId request) (lr_includeInactive request) (lr_after request) (kd_now db) (kd_rows db)).
Proof.
  intros Hd Hl Hp Ha. pose proof (Kept_history ops [] _ Hd (Kept_empty start)) as HK. destruct (history _ _) as [log db]. cbn [app] in HK.
  split; [|by apply NoDup_listed, (kept_ids _ _ HK)].
  apply (walk_enough _ _ _ l); [apply (kept_ids _ _ HK)|apply (kept_checks _ _ HK)|done..|].
  unfold listed. rewrite sort_length. apply Nat.lt_succ_r, length_filter.
Qed.
End facts.

(** ** Applied *)

(** A stand-in for the digest: the first byte, thirty-two times. *)
Definition demo_sha (b : bytes) : bytes := replicate 32 (default x00 (head b)).
Definition demo_request (project : string) (expires : option Z) : CreateApiKeyRequest :=
  {| cr_projectId := js project; cr_scopes := Some (JArr [JStr (js "runs:write"); JStr (js "runs:read")]);
     cr_label := Some (JStr (js "ci")); cr_expiresAt := (λ ms, Some (Some ms)) <$> expires |}.
Definition demo_ops : list KeyOp :=
  [ OpCreate (demo_request "web" None) (replicate 10 x61) (replicate 32 x01);
    OpCreate (demo_request "web" (Some 5)) (replicate 10 x62) (replicate 32 x02);
    OpCreate (demo_request "api" (Some 50)) (replicate 10 x63) (replicate 32 x03);
    OpCreate (demo_request "api" None) (replicate 10 x63) (replicate 32 x04);
    OpRevoke (Some (JStr (base32 (replicate 10 x61)))); OpClock 10 ].
Definition demo_token (id secret : byte) : option json := Some (JStr (token_text (base32 (replicate 10 id)) (replicate 32 secret))).
Definition demo_keys : list (KeyOp * KeyAnswer) * KeyDb := history demo_sha Some id demo_ops {| kd_now := 1; kd_rows := [] |}.

Lemma demo_sha_length b : length (demo_sha b) = 32%nat.
Proof. apply length_replicate. Qed.
Lemma demo_drawn : Forall drawn demo_ops.
Proof. repeat constructor. Qed.

(** Of the three keys one is revoked, one has expired and one speaks; the repeated id was refused. *)
Lemma demo_keys_answer :
  (λ e, match e.2 with Failed (KeySql UniqueViolation) => true | _ => false end) <$> demo_keys.1 = [false; false; false; true; false; false] ∧
  (authenticate demo_sha (demo_token x61 x01) demo_keys.2).1 = Ok None ∧
  (authenticate demo_sha (demo_token x62 x02) demo_keys.2).1 = Ok None ∧
  (authenticate demo_sha (demo_token x63 x03) demo_keys.2).1 =
    Ok (Some {| ap_publicId := base32 (replicate 10 x63); ap_projectId := js "api"; ap_scopes := API_KEY_SCOPES |}) ∧
  (authenticate demo_sha (demo_token x63 x04) demo_keys.2).1 = Ok None.
Proof. vm_compute. repeat split. Qed.

Lemma token_speaks_for_its_key_witness :
  ∃ request publicBytes secret key secret',
    (OpCreate request publicBytes secret, Created key) ∈ demo_keys.1 ∧
    demo_token x63 x03 = Some (JStr (token_text (ck_publicId key) secret')) ∧ length secret' = SECRET_BYTES ∧ demo_sha secret' = demo_sha secret ∧
    (revocation (ck_publicId key) ∉ demo_keys.1) ∧
    match expires_of Some request with None => True | Some e => kd_now demo_keys.2 < e end ∧
    {| ap_publicId := base32 (replicate 10 x63); ap_projectId := js "api"; ap_scopes := API_KEY_SCOPES |} =
      {| ap_publicId := ck_publicId key; ap_projectId := ck_projectId key; ap_scopes := ck_scopes key |}.
Proof.
  pose proof (token_speaks_for_its_key demo_sha Some id demo_sha_length demo_ops 1 (demo_token x63 x03)
    {| ap_publicId := base32 (replicate 10 x63); ap_projectId := js "api"; ap_scopes := API_KEY_SCOPES |} demo_drawn) as Hp.
  pose proof demo_keys_answer as (_ & _ & _ & Ha & _). unfold demo_keys in *.
  destruct (history _ _ _ _ _) as [log db]. exact (proj1 Hp Ha).
Defined.

Definition demo_listing : ListApiKeysRequest :=
  {| lr_projectId := None; lr_includeInactive := true; lr_limit := Some (Int 2); lr_after := None |}.

Lemma demo_walk : (λ l : list ApiKeySummary, ks_active <$> l) <$> walk id 2 demo_listing demo_keys.2 = Some [false; false; true].
Proof. vm_compute. reflexivity. Qed.

Lemma paging_ends_witness :
  ∃ all, walk id (S (length (kd_rows demo_keys.2))) demo_listing demo_keys.2 = Some (summary id 10 <$> all) ∧ NoDup all.
Proof.
  assert (kd_now demo_keys.2 = 10) as Hnow by (vm_compute; reflexivity).
  pose proof (paging_ends demo_sha Some id demo_sha_length demo_ops 1 demo_listing 2 demo_drawn eq_refl
    ltac:(discriminate) ltac:(discriminate)) as Hp.
  unfold demo_keys in *. destruct (history _ _ _ _ _) as [log db]. destruct Hp as [Hw Hn]. cbn [snd] in Hnow. rewrite Hnow in Hw.
  eexists. exact (conj Hw Hn).
Defined.

Lemma demo_key_refusals :
  (create demo_sha Some id (demo_request "web" (Some 1)) (replicate 10 x61) (replicate 32 x01) {| kd_now := 1; kd_rows := [] |}).1 =
    Throw (KeyTypeError (js "expiresAt must be in the future")) ∧
  canonicalScopes (Some (JArr [JStr (js "admin")])) =
    Throw (js "unknown scope " ++ [34%N] ++ js "admin" ++ [34%N] ++ js "; the scopes are runs:read, runs:write") ∧
  canonicalScopes (Some (JArr [JStr (js "runs:read"); JStr (js "runs:read")])) = Throw (js "scopes must not repeat").
Proof. vm_compute. repeat split. Qed.

Lemma key_statements_are_accepted_witness :
  ∃ op e, (op, Failed e) ∈ demo_keys.1 ∧ refusal_of op e.
Proof.
  assert (∃ op e, (op, Failed e) ∈ demo_keys.1) as (op & e & Hin).
  { exists (OpCreate (demo_request "api" None) (replicate 10 x63) (replicate 32 x04)), (KeySql UniqueViolation).
    apply list_elem_of_lookup_2 with (i := 3%nat). vm_compute. reflexivity. }
  exists op, e. pose proof (key_statements_are_accepted demo_sha Some id demo_sha_length demo_ops 1 op e demo_drawn Hin) as Hp. exact (conj Hin Hp).
Defined.
