(* ===== verification/Archive.v ===== *)
(** * A run's archive (postgres/src/archive.ts, query-index.ts)

    What one transaction writes for a run, built in memory from a validation: its
    lines in storage order, the fingerprint of its content, the blobs it needs,
    and the rows a query answers from. SHA-256 is a parameter, on bytes. *)

From Stdlib Require Import Strings.Byte.
From stdpp Require Import sorting.
From S2P Require Import Prelude JsString JsBytes JsMap JsSort JsEncoding Json Model Codec History Validator ValidatorRun Demo ValidatorTables ValidatorSound ValidatorReport ValidatorSpec HistoryOrder ReadTypes ReadModel.

Local Open Scope Z_scope.

Definition FINGERPRINT_VERSION : Z := 1.
Definition QUERY_INDEX_VERSION : Z := 1.

Record ArchivedLine := { al_line : ValidatedSourceLine; al_storageOrdinal : Z }.
Record RequiredBlob := { rb_sha256 : str; rb_sizeBytes : Z }.
Record RunArchive := {
  ra_runId : str; ra_lines : list ArchivedLine; ra_contentFingerprint : str; ra_fingerprintVersion : Z;
  ra_protocolVersions : list str; ra_summary : Summary; ra_sourceAttachmentsVerified : bool;
  ra_requiredBlobs : list RequiredBlob;
}.

(** errors.ts, and the errors the code throws as plain [Error]s. *)
Inductive ArchiveError :=
| BlobSizeConflictError (sha256 : str) (recordedSize offeredSize : Z) (recordedBy : str)
| ArchiveFault (message : str).

(** ** Storage order *)

(** The order of [orderLines], on lines with their place among the lines read. *)
Definition line_order : ValidatedSourceLine * Z → ValidatedSourceLine * Z → Z :=
  cmp_then (cmp_on (sl_sessionId ∘ fst) compare)
    (cmp_then (cmp_on (sl_sequence ∘ fst) cmp_sub)
      (cmp_then (cmp_on (sl_eventId ∘ fst) compare) (cmp_on snd cmp_sub))).

Definition indexed {A} (l : list A) : list (A * Z) := imap (λ i x, (x, Z.of_nat i)) l.

Definition orderLines (lines : list ValidatedSourceLine) : list ArchivedLine :=
  imap (λ i p, {| al_line := p.1; al_storageOrdinal := Z.of_nat i |}) (sort line_order (indexed lines)).

(** ** The fingerprint *)

Definition is_duplicate (d : Disposition) : bool := match d with DispDuplicate => true | _ => false end.

(** [Buffer.from(text, 'hex')]: pairs of hex digits, up to the first that is none. *)
Definition hex_value (u : N) : option N :=
  if in_range 48 57 u then Some (u - 48)%N else if in_range 97 102 u then Some (u - 87)%N
  else if in_range 65 70 u then Some (u - 55)%N else None.
Fixpoint from_hex (s : str) : bytes :=
  match s with
  | u :: v :: s =>
      match hex_value u, hex_value v with Some a, Some b => to_byte (16 * a + b) :: from_hex s | _, _ => [] end
  | _ => []
  end.
Definition to_hex (b : bytes) : str :=
  mjoin ((λ b, [hex_digit (Byte.to_N b / 16); hex_digit (Byte.to_N b mod 16)]%N) <$> b).

Section archive.
Context (sha256 : bytes → bytes).

(** The digests that count, sorted and without repeats. *)
Definition counted (lines : list (str * Disposition)) : list str :=
  sort compare (sfrom (fst <$> filter (λ l, negb (is_duplicate l.2)) lines)).

Definition fingerprint_tag : bytes := utf8_encode (js "qe-report-run-fingerprint/" ++ dec FINGERPRINT_VERSION ++ [10%N]).

(** What is hashed. *)
Definition fingerprint_input (lines : list (str * Disposition)) : bytes :=
  fingerprint_tag ++ mjoin (from_hex <$> counted lines).

(** [contentFingerprint], of the digests and dispositions of some lines. *)
Definition contentFingerprint (lines : list (str * Disposition)) : str := to_hex (sha256 (fingerprint_input lines)).

Definition line_digest (l : ValidatedSourceLine) : str * Disposition := (sl_canonicalSha256 l, sl_disposition l).

(** ** Required blobs *)

Definition attachment (e : Event) : option (str * Z) :=
  match e_payload e with AttachmentAdded p => Some (aa_sha256 p, aa_sizeBytes p) | _ => None end.

Fixpoint declared_sizes (l : list (str * Z)) (sizes : jsmap str Z) : res ArchiveError (jsmap str Z) :=
  match l with
  | [] => Ok sizes
  | (sha, size) :: l =>
      match mget sizes sha with
      | Some known => if known =? size then declared_sizes l (mset sizes sha size)
                      else Throw (BlobSizeConflictError sha known size (js "the run declares"))
      | None => declared_sizes l (mset sizes sha size)
      end
  end.

Definition requiredBlobs (validated : ValidatedRun) : res ArchiveError (list RequiredBlob) :=
  sizes ← declared_sizes (omap attachment (vr_events validated)) [];
  Ok (sort (cmp_on rb_sha256 compare) ((λ e, {| rb_sha256 := e.1; rb_sizeBytes := e.2 |}) <$> sizes)).

(** ** The archive *)

Definition buildArchive (validated : ValidatedRun) : res ArchiveError RunArchive :=
  let lines := orderLines (vr_sourceLines validated) in
  match lines with
  | [] => Throw (ArchiveFault (js "a valid run has at least one source line"))
  | first :: _ =>
      if (0 <? sm_attachments (r_summary (vr_report validated))) && bool_decide (length (vr_events validated) = 0%nat)
      then Throw (ArchiveFault (js "the validated run carries no events; validate with retainEvents"))
      else
        required ← requiredBlobs validated;
        Ok {| ra_runId := sl_runId (al_line first); ra_lines := lines;
              ra_contentFingerprint := contentFingerprint (line_digest <$> vr_sourceLines validated);
              ra_fingerprintVersion := FINGERPRINT_VERSION;
              ra_protocolVersions := sort compare (sfrom (sl_protocolVersion ∘ al_line <$> lines));
              ra_summary := r_summary (vr_report validated);
              ra_sourceAttachmentsVerified := true;
              ra_requiredBlobs := required |}
  end.

(** ** The query index (query-index.ts) *)

Record RunIndexRow := {
  ri_projectId : str; ri_runId : str; ri_verdict : Verdict; ri_complete : bool; ri_closed : bool;
  ri_ignoredEventCount : Z; ri_duplicateEventCount : Z; ri_sessionCount : Z; ri_executionCount : Z;
  ri_scopeFailureCount : Z; ri_attachmentCount : Z;
}.
Record OccurrenceIndexRow := {
  oi_occurrence : ExecutionOccurrence; oi_occurredAtInstant : Z; oi_occurredAtLeap : Z; oi_historyKey : bytes;
}.
Record DerivedQueryIndex := { dq_run : RunIndexRow; dq_occurrences : list OccurrenceIndexRow }.

Definition historyKeyOf (runnerName historicalId : str) : bytes :=
  sha256 (utf8_encode runnerName ++ [x00] ++ utf8_encode historicalId).

(** One occurrence; the exception is [historyInstant]'s RangeError. *)
Definition index_occurrence (o : ExecutionOccurrence) : res str OccurrenceIndexRow :=
  position ← historyInstant (eo_occurredAt o);
  Ok {| oi_occurrence := o; oi_occurredAtInstant := epochMs position; oi_occurredAtLeap := leap position;
        oi_historyKey := historyKeyOf (hk_runnerName (eo_key o)) (hk_historicalId (eo_key o)) |}.

Definition deriveQueryIndex (run : ProjectedRun) : res str DerivedQueryIndex :=
  occurrences ← mapMi (λ _, index_occurrence) (historyOccurrencesOf run);
  let v := pr_validator run in
  Ok {| dq_run := {| ri_projectId := k_projectId (pr_key run); ri_runId := k_runId (pr_key run);
                     ri_verdict := vf_verdict v; ri_complete := vf_complete v; ri_closed := vf_closed v;
                     ri_ignoredEventCount := vf_ignoredEvents v; ri_duplicateEventCount := vf_duplicateEvents v;
                     ri_sessionCount := Z.of_nat (length (pr_sessions run));
                     ri_executionCount := Z.of_nat (length (pr_executions run));
                     ri_scopeFailureCount := Z.of_nat (length (pr_scopeFailures run));
                     ri_attachmentCount := Z.of_nat (length (pr_attachments run)) |};
        dq_occurrences := occurrences |}.
End archive.

(** ** Fingerprints tell contents apart *)

Definition counts (lines : list (str * Disposition)) (d : str) : Prop := ∃ disp, (d, disp) ∈ lines ∧ is_duplicate disp = false.
(** Lines of one content: the same digests count in both. *)
Definition same_content (l1 l2 : list (str * Disposition)) : Prop := ∀ d, counts l1 d ↔ counts l2 d.
(** Digests as [createHash('sha256')…digest('hex')] writes them. *)
Definition digests (lines : list (str * Disposition)) : Prop :=
  Forall (λ l, length l.1 = 64%nat ∧ Forall (λ u, (in_range 48 57 u || in_range 97 102 u) = true) l.1) lines.

Lemma elem_of_counted lines d : d ∈ counted lines ↔ counts lines d.
Proof.
  unfold counted, counts. rewrite elem_of_sort, elem_of_sfrom, list_elem_of_fmap. setoid_rewrite list_elem_of_filter. split.
  - intros ([d' disp] & -> & Hd & Hin). exists disp. split; [done|]. cbn in Hd. by destruct (is_duplicate disp).
  - intros (disp & Hin & Hd). exists (d, disp). cbn. by rewrite Hd.
Qed.

Lemma counted_same l1 l2 : same_content l1 l2 → counted l1 = counted l2.
Proof.
  intros H. apply (sort_canonical compare).
  - intros x y _ _. apply cmp_0_eq.
  - apply NoDup_Permutation; [apply sfrom_NoDup..|]. intros d. pose proof (elem_of_counted l1 d) as H1. pose proof (elem_of_counted l2 d) as H2.
    unfold counted in H1, H2. rewrite elem_of_sort in H1, H2. rewrite H1, H2. apply H.
Qed.

Lemma hex_value_lower u : (in_range 48 57 u || in_range 97 102 u) = true → ∃ n, hex_value u = Some n ∧ (n < 16)%N ∧ u = hex_digit n.
Proof.
  unfold hex_value, in_range, hex_digit. intros H. destruct ((48 <=? u)%N && (u <=? 57)%N) eqn:E1.
  - rewrite andb_true_iff, !N.leb_le in E1. exists (u - 48)%N. split; [done|]. split; [lia|]. destruct (N.ltb_spec (u - 48) 10); lia.
  - cbn [orb] in H. rewrite H. rewrite andb_true_iff, !N.leb_le in H. exists (u - 87)%N. split; [done|]. split; [lia|].
    destruct (N.ltb_spec (u - 87) 10); lia.
Qed.

Lemma to_hex_cons b bs : to_hex (b :: bs) = hex_digit (Byte.to_N b / 16) :: hex_digit (Byte.to_N b mod 16) :: to_hex bs.
Proof. done. Qed.

Lemma to_hex_from_hex n s : length s = (2 * n)%nat → Forall (λ u, (in_range 48 57 u || in_range 97 102 u) = true) s →
  length (from_hex s) = n ∧ to_hex (from_hex s) = s.
Proof.
  revert s. induction n as [|n IH]; intros s Hl Hf; [by destruct s|]. destruct s as [|u [|v s]]; simpl in Hl; [lia|lia|].
  apply Forall_cons in Hf as [Hu Hf]. apply Forall_cons in Hf as [Hv Hf].
  destruct (hex_value_lower u Hu) as (a & Ea & Ha & Hua), (hex_value_lower v Hv) as (b & Eb & Hb & Hvb).
  cbn [from_hex]. rewrite Ea, Eb. destruct (IH s) as [Hlen Hhex]; [lia|done|]. split; [simpl; by rewrite Hlen|].
  rewrite to_hex_cons, to_N_to_byte by (unfold octet; lia).
  assert ((16 * a + b) / 16 = a)%N as -> by (symmetry; apply (N.div_unique _ _ _ b); lia).
  assert ((16 * a + b) mod 16 = b)%N as -> by (symmetry; apply (N.mod_unique _ _ a); lia). by rewrite Hhex, <- Hua, <- Hvb.
Qed.

Lemma mjoin_chunks_inj {A} n (l1 l2 : list (list A)) : (0 < n)%nat → Forall (λ c, length c = n) l1 → Forall (λ c, length c = n) l2 →
  mjoin l1 = mjoin l2 → l1 = l2.
Proof.
  intros Hn H1. revert l2. induction H1 as [|c l1 Hc H1 IH]; intros l2 H2 E; destruct H2 as [|d l2 Hd H2]; [done| | |].
  - apply (f_equal length) in E. cbn in E. rewrite length_app in E. lia.
  - apply (f_equal length) in E. cbn in E. rewrite length_app in E. lia.
  - cbn in E. apply app_inj_1 in E as [-> E]; [|by rewrite Hc, Hd]. f_equal. by apply IH.
Qed.

Lemma counted_hex l : digests l → Forall (λ d, length (from_hex d) = 32%nat ∧ to_hex (from_hex d) = d) (counted l).
Proof.
  intros Hl. apply Forall_forall. intros d (disp & Hin & _)%elem_of_counted. unfold digests in Hl. rewrite Forall_forall in Hl.
  destruct (Hl _ Hin) as [Hlen Hf]. exact (to_hex_from_hex 32 d Hlen Hf).
Qed.

Lemma counted_back l : digests l → to_hex <$> (from_hex <$> counted l) = counted l.
Proof.
  intros Hl%counted_hex. induction Hl as [|d ds [_ Hd] _ IH]; [done|]. rewrite !fmap_cons. by rewrite Hd, IH.
Qed.

Lemma chunks l : digests l → Forall (λ c, length c = 32%nat) (from_hex <$> counted l).
Proof. intros Hl%counted_hex. apply Forall_fmap. eapply Forall_impl; [exact Hl|]. by intros d [? _]. Qed.

Lemma fingerprint_input_inj l1 l2 : digests l1 → digests l2 → fingerprint_input l1 = fingerprint_input l2 → same_content l1 l2.
Proof.
  intros H1 H2. unfold fingerprint_input. generalize fingerprint_tag as tag. intros tag E%app_inv_head.
  apply (mjoin_chunks_inj 32) in E; [|lia|by apply chunks..].
  intros d. by rewrite <- !elem_of_counted, <- (counted_back l1), <- (counted_back l2), E by done.
Qed.

Lemma to_hex_inj b c : to_hex b = to_hex c → b = c.
Proof.
  revert c. induction b as [|x b IH]; intros [|y c]; rewrite ?to_hex_cons; [done..|]. intros [= Ea Eb E2].
  f_equal; [|by apply IH]. clear -Ea Eb.
  assert (∀ p q, (p < 16)%N → (q < 16)%N → hex_digit p = hex_digit q → p = q) as Hinj.
  { intros p q Hp Hq. unfold hex_digit. destruct (N.ltb_spec p 10), (N.ltb_spec q 10); lia. }
  assert (∀ z, (Byte.to_N z < 256)%N) as Hb by (intros z; by destruct z).
  apply Hinj in Ea; [|apply N.Div0.div_lt_upper_bound; specialize (Hb x); lia|apply N.Div0.div_lt_upper_bound; specialize (Hb y); lia].
  apply Hinj in Eb; [|apply N.mod_lt; lia|apply N.mod_lt; lia].
  rewrite <- (to_byte_to_N x), <- (to_byte_to_N y). f_equal. rewrite (N.div_mod (Byte.to_N x) 16), (N.div_mod (Byte.to_N y) 16) by lia. congruence.
Qed.

(** C16 Two runs have one fingerprint exactly when the same canonical digests occur in them as accepted or ignored lines, unless
    SHA-256 itself collides: the order of lines, their files, and duplicates make no difference, and one more accepted or
    ignored line always makes one. *)
Theorem contentFingerprint_iff sha256 l1 l2 : digests l1 → digests l2 →
  (sha256 (fingerprint_input l1) = sha256 (fingerprint_input l2) → fingerprint_input l1 = fingerprint_input l2) →
  contentFingerprint sha256 l1 = contentFingerprint sha256 l2 ↔ same_content l1 l2.
Proof.
  intros H1 H2 Hsha. unfold contentFingerprint. split.
  - intros E%to_hex_inj. by apply fingerprint_input_inj, Hsha.
  - intros H. unfold fingerprint_input. by rewrite (counted_same _ _ H).
Qed.

Definition demo_digest_of (u : N) : str := replicate 64 u.
Definition demo_content : list (str * Disposition) :=
  [(demo_digest_of 97, DispAccepted); (demo_digest_of 98, DispIgnored); (demo_digest_of 97, DispDuplicate)].

Lemma demo_digests l : (∀ d, d ∈ l.*1 → d = demo_digest_of 97 ∨ d = demo_digest_of 98) → digests l.
Proof.
  intros Hl. apply Forall_forall. intros [d disp] Hin. assert (d ∈ l.*1) as Hd by (apply list_elem_of_fmap; by exists (d, disp)).
  apply Hl in Hd. cbn [fst]. unfold demo_digest_of in Hd. destruct Hd as [->| ->]; (split; [apply length_replicate|by apply Forall_replicate]).
Qed.

Lemma id_inj (a b : bytes) : id a = id b → a = b.
Proof. done. Qed.

Lemma contentFingerprint_iff_witness :
  contentFingerprint id demo_content = contentFingerprint id (reverse (demo_content ++ demo_content)) ∧
  contentFingerprint id demo_content ≠ contentFingerprint id (tail demo_content).
Proof.
  assert (digests demo_content) as H by (apply demo_digests; unfold demo_content; cbn -[demo_digest_of]; set_solver).
  assert (digests (reverse (demo_content ++ demo_content))) as H' by (apply demo_digests; unfold demo_content; cbn -[demo_digest_of]; set_solver).
  assert (digests (tail demo_content)) as H2 by (apply demo_digests; unfold demo_content; cbn -[demo_digest_of]; set_solver).
  split.
  - apply (proj2 (contentFingerprint_iff id _ _ H H' (id_inj _ _))). intros d. unfold counts. by setoid_rewrite elem_of_reverse; set_solver.
  - intros E. apply (proj1 (contentFingerprint_iff id _ (tail demo_content) H H2 (id_inj _ _))) in E.
    destruct (E (demo_digest_of 97)) as [E1 _]. destruct E1 as (disp & Hin & Hd); [exists DispAccepted; split; [left|done]|].
    unfold demo_content, tail in Hin. apply elem_of_cons in Hin as [Hin|Hin]; [by vm_compute in Hin|].
    apply list_elem_of_singleton in Hin. injection Hin as ->. done.
Defined.

(** ** Storage order *)

#[export] Instance line_order_comparator : Comparator line_order.
Proof. unfold line_order. apply _. Qed.

Definition storage_key (l : ValidatedSourceLine) : str * Z * str := (sl_sessionId l, sl_sequence l, sl_eventId l).

(** The order of storage keys. *)
Definition key_order (a b : str * Z * str) : Z :=
  cmp_then (cmp_on (fst ∘ fst) compare) (cmp_then (cmp_on (snd ∘ fst) cmp_sub) (cmp_on snd compare)) a b.

Lemma line_order_key p q : line_order p q = js_or (key_order (storage_key p.1) (storage_key q.1)) (cmp_sub p.2 q.2).
Proof.
  unfold line_order, key_order, cmp_then, cmp_on, storage_key, js_or, compose. cbn [fst snd].
  destruct (compare (sl_sessionId p.1) (sl_sessionId q.1) =? 0) eqn:E1; [|by rewrite E1].
  destruct (cmp_sub (sl_sequence p.1) (sl_sequence q.1) =? 0) eqn:E2; [done|by rewrite E2].
Qed.

Lemma line_order_separates p q : line_order p q = 0 → p.2 = q.2.
Proof.
  rewrite line_order_key. unfold js_or. destruct (key_order _ _ =? 0) eqn:E; [unfold cmp_sub; lia|]. apply Z.eqb_neq in E. done.
Qed.

Lemma indexed_inj {A} (l : list A) p q : p ∈ indexed l → q ∈ indexed l → p.2 = q.2 → p = q.
Proof.
  unfold indexed. intros (i & x & -> & Hi)%elem_of_lookup_imap (j & y & -> & Hj)%elem_of_lookup_imap. cbn. intros ->%Nat2Z.inj. congruence.
Qed.

Lemma indexed_fst {A} (l : list A) : (indexed l).*1 = l.
Proof. unfold indexed. rewrite fmap_imap. etrans; [exact (imap_const (λ x, x) l)|]. apply list_fmap_id. Qed.

Lemma filter_fst {A B} (P : A → bool) (l : list (A * B)) : filter P l.*1 = (filter (λ p, P p.1) l).*1.
Proof. induction l as [|[a b] l IH]; [done|]. rewrite fmap_cons, !filter_cons. cbn. case_decide; [rewrite fmap_cons; by rewrite IH|done]. Qed.

Lemma sorted_filter {A} (R : A → A → Prop) (P : A → bool) l : StronglySorted R l → StronglySorted R (filter P l).
Proof.
  induction 1 as [|x l Hl IH Hx]; [constructor|]. rewrite filter_cons. case_decide; [|done]. constructor; [done|].
  rewrite Forall_forall in *. intros y [_ Hy]%list_elem_of_filter. by apply Hx.
Qed.

Lemma indexed_sorted {A} (l : list A) : StronglySorted (λ p q : A * Z, p.2 <= q.2) (indexed l).
Proof.
  unfold indexed. assert (∀ k, StronglySorted (λ p q : A * Z, p.2 <= q.2) (imap (λ i x, (x, Z.of_nat (k + i))) l)) as H; [|by apply (H 0%nat)].
  induction l as [|x l IH]; intros k; [constructor|]. cbn [imap]. constructor.
  - eapply eq_ind; [exact (IH (S k))|]. apply imap_ext. intros i y _. cbn. do 2 f_equal. lia.
  - apply Forall_forall. intros p (i & y & -> & _)%elem_of_lookup_imap. cbn. lia.
Qed.

Lemma orderLines_lines lines : al_line <$> orderLines lines = (sort line_order (indexed lines)).*1.
Proof. unfold orderLines. rewrite fmap_imap. exact (imap_const fst _). Qed.

Lemma imap_seq {A} (l : list A) : imap (λ i _, Z.of_nat i) l = Z.of_nat <$> seq 0 (length l).
Proof.
  apply list_eq. intros i. rewrite list_lookup_imap, list_lookup_fmap. destruct (l !! i) as [x|] eqn:E.
  - by rewrite lookup_seq_lt by by eapply lookup_lt_Some.
  - by rewrite lookup_seq_ge by by apply lookup_ge_None.
Qed.

(** The lines of one key are stored in the order they were read in. *)
Lemma orderLines_key lines k :
  filter (λ l, bool_decide (storage_key l = k)) (al_line <$> orderLines lines) = filter (λ l, bool_decide (storage_key l = k)) lines.
Proof.
  rewrite orderLines_lines.
  rewrite <- (indexed_fst lines) at 2. rewrite !filter_fst. f_equal.
  set (P := λ p : ValidatedSourceLine * Z, bool_decide (storage_key p.1 = k)).
  change (filter P (sort line_order (indexed lines)) = filter P (indexed lines)).
  assert (∀ l, (∀ p, p ∈ l → P p = true) → StronglySorted (λ p q : ValidatedSourceLine * Z, p.2 <= q.2) l → StronglySorted (cmp_le line_order) l) as Hkey.
  { intros l Hl H. induction H as [|p l H IH Hp]; [constructor|]. constructor; [apply IH; set_solver|].
    rewrite Forall_forall in *. intros q Hq. unfold cmp_le. rewrite line_order_key.
    assert (storage_key p.1 = storage_key q.1) as ->.
    { assert (P p = true) as H1%bool_decide_eq_true by (apply Hl; left). assert (P q = true) as H2%bool_decide_eq_true by (apply Hl; by right). congruence. }
    assert (key_order (storage_key q.1) (storage_key q.1) = 0) as ->.
    { unfold key_order, cmp_then, cmp_on, js_or, cmp_sub. rewrite !compare_refl, !Z.sub_diag. done. }
    unfold js_or, cmp_sub. cbn. specialize (Hp q Hq). lia. }
  refine (sorted_unique line_order _ _ _ _ _ _).
  - intros p q [_ Hp]%list_elem_of_filter [_ Hq]%list_elem_of_filter E. rewrite elem_of_sort in Hp, Hq.
    by apply (indexed_inj lines), line_order_separates.
  - apply sorted_filter, sort_sorted; apply _.
  - apply Hkey; [by intros p [Hp%Is_true_true _]%list_elem_of_filter|]. apply sorted_filter, indexed_sorted.
  - by rewrite sort_Permutation.
Qed.

Lemma sorted_at {A} (R : A → A → Prop) l i j x y : StronglySorted R l → (i < j)%nat → l !! i = Some x → l !! j = Some y → R x y.
Proof.
  intros H. revert i j. induction H as [|z l Hl IH Hz]; intros i j Hij; [done|]. rewrite Forall_forall in Hz.
  destruct j as [|j]; [lia|]. destruct i as [|i]; cbn; [|apply IH; lia].
  intros [= ->] Hy. apply Hz. by eapply list_elem_of_lookup_2.
Qed.

(** Storage order is an arrangement of every line read, numbered from 0, by session id, sequence and event id; lines that agree
    in all three, an original and its copies, stay in the order they were read in. *)
Theorem orderLines_is_storage_order lines :
  al_line <$> orderLines lines ≡ₚ lines ∧
  al_storageOrdinal <$> orderLines lines = Z.of_nat <$> seq 0 (length lines) ∧
  (∀ i j a b, (i < j)%nat → orderLines lines !! i = Some a → orderLines lines !! j = Some b →
     key_order (storage_key (al_line a)) (storage_key (al_line b)) <= 0) ∧
  (∀ k, filter (λ l, bool_decide (storage_key l = k)) (al_line <$> orderLines lines) =
        filter (λ l, bool_decide (storage_key l = k)) lines).
Proof.
  split_and!; [| | |apply orderLines_key].
  - rewrite orderLines_lines, sort_Permutation, indexed_fst. done.
  - unfold orderLines. rewrite fmap_imap. etrans; [exact (imap_seq _)|]. rewrite sort_length. unfold indexed. by rewrite length_imap.
  - intros i j a b Hij. unfold orderLines. rewrite !list_lookup_imap.
    destruct (sort line_order (indexed lines) !! i) as [p|] eqn:Ei; [|done]. destruct (sort line_order (indexed lines) !! j) as [q|] eqn:Ej; [|done].
    cbn. intros [= <-] [= <-]. cbn [al_line]. pose proof (sorted_at _ _ _ _ _ _ (sort_sorted line_order (indexed lines)) Hij Ei Ej) as H.
    unfold cmp_le in H. rewrite line_order_key in H. unfold js_or in H. destruct (key_order _ _ =? 0) eqn:E; [apply Z.eqb_eq in E|]; lia.
Qed.

(** ** Required blobs *)

Lemma declared_sizes_spec l sizes out : NoDup (mkeys sizes) → declared_sizes l sizes = Ok out →
  NoDup (mkeys out) ∧ ∀ sha size, mget out sha = Some size ↔ (sha, size) ∈ l ∨ mget sizes sha = Some size.
Proof.
  revert sizes. induction l as [|[s z] l IH]; intros sizes Hnd; cbn [declared_sizes].
  { intros [= <-]. split; [done|]. intros sha size. split; [by right|]. by intros [H%not_elem_of_nil|]. }
  assert (mget sizes s = None ∨ mget sizes s = Some z → declared_sizes l (mset sizes s z) = Ok out →
    NoDup (mkeys out) ∧ ∀ sha size, mget out sha = Some size ↔ (sha, size) ∈ (s, z) :: l ∨ mget sizes sha = Some size) as Hgo.
  { intros Hs E. apply IH in E as [H1 H2]; [|by apply mset_NoDup]. split; [done|]. intros sha size. rewrite H2, mget_mset, elem_of_cons.
    case_decide as Hd; [subst|].
    - split; [intros [?|[= ->]]; auto|]. intros [[[= ->]|?]|Hz]; [by right|by left|]. destruct Hs; [congruence|]. right. congruence.
    - split; [intros [?|?]; auto|]. intros [[[= -> ->]|?]|?]; auto. congruence. }
  destruct (mget sizes s) as [k|] eqn:Ek; [|apply Hgo; by left].
  destruct (Z.eqb_spec k z) as [->|]; [|done]. apply Hgo. by right.
Qed.

Lemma declared_sizes_ok l sizes : (∀ sha a b, (sha, a) ∈ l ∨ mget sizes sha = Some a → (sha, b) ∈ l → a = b) →
  ∃ out, declared_sizes l sizes = Ok out.
Proof.
  revert sizes. induction l as [|[s z] l IH]; intros sizes H; cbn [declared_sizes]; [eauto|].
  assert (∃ out, declared_sizes l (mset sizes s z) = Ok out) as Hgo.
  { apply IH. intros sha a b Ha Hb. apply (H sha); [|by right]. rewrite mget_mset in Ha. destruct Ha as [Ha|Ha]; [left; by right|].
    case_decide; [|by right]. left. subst. injection Ha as ->. left. }
  destruct (mget sizes s) as [k|] eqn:Ek; [|done].
  rewrite (H s k z (or_intror Ek) ltac:(left)), Z.eqb_refl. done.
Qed.

Lemma omap_attachment (h : list AnyEvent) : omap attachment (omap known h) = omap declares h.
Proof.
  induction h as [|[[env p]|u] h IH]; [done|..|done]; cbn; destruct p; cbn; by rewrite ?IH.
Qed.

(** Sorted without repeated keys is strictly sorted. *)
Lemma sorted_strict (l : list RequiredBlob) : StronglySorted (cmp_le (cmp_on rb_sha256 compare)) l → NoDup (rb_sha256 <$> l) →
  StronglySorted (λ a b, str_ltb (rb_sha256 a) (rb_sha256 b) = true) l.
Proof.
  induction 1 as [|x l Hl IH Hx]; intros Hnd; [constructor|]. rewrite fmap_cons in Hnd. apply NoDup_cons in Hnd as [Hn Hnd].
  constructor; [by apply IH|]. rewrite Forall_forall in *. intros y Hy. specialize (Hx y Hy). unfold cmp_le, cmp_on in Hx.
  destruct (compare_cases (rb_sha256 x) (rb_sha256 y)) as [(_ & H & _)|[(_ & E)|(E & _)]]; [done| |lia].
  exfalso. apply Hn. rewrite E. by apply list_elem_of_fmap_2.
Qed.

(** What a valid run directory needs stored is known without contradiction: [requiredBlobs] of its snapshot never throws, names
    each declared digest once, in order, and each is a file the validation found under [attachments/] with that size and digest. *)
Theorem requiredBlobs_of_valid_run json_parse schema sha fs dir o vr :
  validateRunDirectorySnapshot json_parse schema sha fs dir o = Ok vr →
  default true (opt_retainEvents o) = true → opt_attachmentsDir o = None → r_valid (vr_report vr) = true →
  ∃ required, requiredBlobs vr = Ok required ∧
    StronglySorted (λ a b, str_ltb (rb_sha256 a) (rb_sha256 b) = true) required ∧
    (∀ b, b ∈ required ↔ (rb_sha256 b, rb_sizeBytes b) ∈ omap attachment (vr_events vr)) ∧
    Forall (λ b, stored fs (fsys_join fs dir (js "attachments")) (rb_sha256 b, rb_sizeBytes b)) required.
Proof.
  intros H Hret Ho Hr. destruct (snapshot_cases _ _ _ _ _ _ _ H) as (ad & Had & H1 & H2). rewrite Ho in Had. subst ad.
  destruct (H2 Hr) as (Hk & names & g & Hn & Hg).
  destruct (H1 Hk names g Hn Hg) as (_ & _ & _ & He & Hv).
  destruct (proj1 Hv Hr) as (_ & Hst & _). rewrite (He Hret), omap_attachment.
  assert (Forall (stored fs (fsys_join fs dir (js "attachments"))) (omap declares g.*1)) as Hall.
  { revert Hst. unfold attachments_stored. destruct (entryKind fs (fsys_join fs dir (js "attachments"))) as [[|[]]|]; intros Hst; first [exact Hst|rewrite Hst; constructor]. }
  rewrite Forall_forall in Hall.
  assert (∀ sha a b, (sha, a) ∈ omap declares g.*1 ∨ mget [] sha = Some a → (sha, b) ∈ omap declares g.*1 → a = b) as Huniq.
  { intros x a b [Ha|?] Hb; [|done]. destruct (Hall _ Ha) as (_ & f & Ef & Hsz & _), (Hall _ Hb) as (_ & f' & Ef' & Hsz' & _).
    cbn in *. congruence. }
  destruct (declared_sizes_ok _ [] Huniq) as [sizes E]. unfold requiredBlobs. rewrite (He Hret), omap_attachment, E.
  apply declared_sizes_spec in E as [Hnd Hget]; [|constructor]. eexists. split; [reflexivity|].
  set (mk := λ e : str * Z, {| rb_sha256 := e.1; rb_sizeBytes := e.2 |}).
  assert (∀ b, b ∈ sort (cmp_on rb_sha256 compare) (mk <$> sizes) ↔ (rb_sha256 b, rb_sizeBytes b) ∈ omap declares g.*1) as Hin.
  { intros [x z]. rewrite elem_of_sort, list_elem_of_fmap. cbn. split.
    - intros ([x' z'] & [= -> ->] & Hp). apply elem_mget in Hp; [|done]. by apply Hget in Hp as [Hp|Hp].
    - intros Hp. exists (x, z). split; [done|]. by apply mget_elem, Hget; left. }
  split_and!; [|done|].
  - apply sorted_strict; [apply sort_sorted; apply _|]. rewrite sort_Permutation. unfold mk. rewrite <- list_fmap_compose. exact Hnd.
  - apply Forall_forall. intros b Hb%Hin. by apply Hall.
Qed.

Lemma requiredBlobs_of_valid_run_witness : ∃ required, requiredBlobs demo_run = Ok required ∧
  ∀ b, b ∈ required ↔ (rb_sha256 b, rb_sizeBytes b) ∈ omap attachment (vr_events demo_run).
Proof.
  destruct (requiredBlobs_of_valid_run _ _ _ _ _ _ _ demo_snapshot_ok eq_refl eq_refl demo_run_valid) as (required & E & _ & Hin & _).
  exists required. exact (conj E Hin).
Defined.

(** One digest declared with two sizes, as no valid run declares it. *)
Example conflicting_sizes : declared_sizes [(js "a", 1); (js "b", 2); (js "a", 3)] [] =
  Throw (BlobSizeConflictError (js "a") 1 3 (js "the run declares")).
Proof. reflexivity. Qed.
