(* ===== verification/Pg.v ===== *)
(** * PostgreSQL as the store uses it (postgres/src/locks.ts, migrations.ts)

    The tables, and one connection to a server other writers use too: before every
    statement they may commit anything their locks allow, and every statement may
    be refused, or lost together with the connection, done or not. A transaction's
    writes are a function on what is committed, applied when it commits, so each
    statement sees the others' committed work under its own (READ COMMITTED). The
    maintenance lock of locks.ts is taken, held and given back on such a
    connection. Constraints of the tables are refusals like any other. *)

From stdpp Require Import gmap sorting.
From S2P Require Import Prelude JsString JsBytes Model Validator ValidatorRun ReadTypes Projector JsNumber Io BlobStore Archive.

Local Open Scope Z_scope.

(** ** Tables *)

(** [(project_id, run_id)] *)
Abbreviation Key := (str * str)%type.

Record RunRow := {
  rr_ingestion_sequence : Z; rr_ingested_at : Z; rr_source_locator : str; rr_content_fingerprint : str;
  rr_fingerprint_version : Z; rr_protocol_versions : list str; rr_source_line_count : Z;
  rr_source_attachments_verified : bool; rr_validation_summary : Summary;
}.
Record StoredSourceLine := {
  st_storageOrdinal : Z; st_eventId : str; st_sessionId : str; st_sequence : Z; st_eventType : str;
  st_protocolVersion : str; st_canonicalSha256 : str; st_disposition : Disposition; st_rawLine : str;
  st_sourceFile : str; st_sourceLine : Z;
}.
Record BlobRow := { bw_size_bytes : Z; bw_storage_key : str; bw_stored_at : Z }.
Record IndexRow := { ix_index_version : Z; ix_source_fingerprint : str; ix_run : RunIndexRow }.
(** An occurrence with the version it was indexed under; its project and run are the key's. *)
Record HistoryRow := { hs_index_version : Z; hs_row : OccurrenceIndexRow }.

(** The tables by key; a run's lines, relations and occurrences are kept under its key. *)
Record Tables := {
  qe_runs : gmap Key RunRow;
  qe_run_source_lines : gmap Key (list StoredSourceLine);
  qe_run_retention : gmap Key Z;
  qe_blobs : gmap str BlobRow;
  qe_run_blobs : gmap Key (gset str);
  qe_run_query_index : gmap Key IndexRow;
  qe_history_occurrences : gmap Key (list HistoryRow);
}.
#[export] Instance Tables_fields : Fields Tables := λ t,
  Build_Tables (qe_runs t) (qe_run_source_lines t) (qe_run_retention t) (qe_blobs t) (qe_run_blobs t)
    (qe_run_query_index t) (qe_history_occurrences t).

(** ** The server *)

(** An error of the driver, with its [code]. *)
Record DbError := { pf_code : option str; pf_message : str }.

(** What becomes of a statement: answered; refused, which aborts a transaction; or the connection is lost,
    with the statement executed or not. *)
Inductive Fate := Answered | Declined (e : DbError) | Lost (executed : bool) (e : DbError).

(** The maintenance lock as a session holds it, and the rows a transaction holds. *)
Inductive Lease := Shared | Exclusive.
#[export] Instance Lease_dec : EqDecision Lease.
Proof. solve_decision. Defined.
Inductive Lock := LRun (k : Key) | LBlob (sha256 : str).

(** What the server does before and with the n-th exchange: what others commit, given what this session holds; the fate of
    the statement; the value of the identity sequence, and [now()]. *)
Class Server := {
  sv_others : nat → list Lease → list Lock → Tables → Tables;
  sv_fate : nat → Fate;
  sv_sequence : nat → Z;
  sv_now : nat → Z;
}.

(** Under REPEATABLE READ a transaction sees what was committed at its first statement. *)
Inductive Isolation := ReadCommitted | RepeatableRead (snapshot : option Tables).
Record Tx := { tx_isolation : Isolation; tx_writes : Tables → Tables; tx_locks : list Lock; tx_aborted : bool }.

(** The pooled client: not there, in hand, given back, or destroyed. *)
Inductive Client := NotConnected | InHand | Pooled | Destroyed.

Record Db := {
  db_tables : Tables; db_tick : nat; db_tx : option Tx; db_leases : list Lease; db_lost : bool; db_client : Client;
}.
#[export] Instance Db_fields : Fields Db := λ w,
  Build_Db (db_tables w) (db_tick w) (db_tx w) (db_leases w) (db_lost w) (db_client w).

(** ** What code of this package throws *)

(** What a project's index covers (queries.ts, [IndexStatus]). *)
Record IndexStatus := {
  is_projectId : str; is_indexVersion : Z; is_totalRuns : Z; is_currentRuns : Z; is_missingRuns : Z; is_staleRuns : Z; is_complete : bool;
}.

Inductive StoreThrown :=
| DbFailed (e : DbError)
| MaintenanceBusyError (timeoutMs : Z)
| ThrownTypeError (message : str)
| ThrownError (message : str)
| ThrownArchive (e : ArchiveError)
| ReplayMismatchError (projectId runId : str) (differences : list str)
| AttachmentIntegrityError (code projectId runId sha256 detail : str)
| ThrownBlob (e : BlobThrown)
| ThrownFs (e : Errno)
| ThrownProject (e : ProjectError)
| ThrownRange (message : str)
| QueryIndexIncompleteError (status : IndexStatus).

(** The database beside the file system the blob store is on. *)
Record PgWorld (D : Type) := { w_db : Db; w_disk : D }.
Arguments w_db {D}.
Arguments w_disk {D}.
Arguments Build_PgWorld {D}.

Definition connection_lost : DbError := {| pf_code := None; pf_message := js "Connection terminated" |}.
Definition in_failed_transaction : DbError :=
  {| pf_code := Some (js "25P02"); pf_message := js "current transaction is aborted, commands ignored until end of transaction block" |}.

Section connection.
Context `{Server}.

Abbreviation db A := (io Db StoreThrown A).

Definition locks (w : Db) : list Lock := match db_tx w with Some tx => tx_locks tx | None => [] end.

(** The session is gone: its transaction and its locks with it. *)
Definition sever (w : Db) : Db := w <| db_tx := None |> <| db_leases := [] |> <| db_lost := true |>.
Definition abort (w : Db) : Db :=
  w <| db_tx := match db_tx w with
                | Some tx => Some {| tx_isolation := tx_isolation tx; tx_writes := tx_writes tx; tx_locks := tx_locks tx; tx_aborted := true |}
                | None => None end |>.

(** One exchange with the server: others first, then the step, if it is carried out. *)
Definition exchange {A} (step : nat → Db → res DbError A * Db) : db A := λ w,
  if db_lost w then (Throw (DbFailed connection_lost), w)
  else
    let n := db_tick w in
    let w := w <| db_tables := sv_others n (db_leases w) (locks w) (db_tables w) |> <| db_tick := S n |> in
    match sv_fate n with
    | Answered => match step n w with (Ok a, w) => (Ok a, w) | (Throw e, w) => (Throw (DbFailed e), abort w) end
    | Declined e => (Throw (DbFailed e), abort w)
    | Lost executed e => (Throw (DbFailed e), sever (if executed then (step n w).2 else w))
    end.

(** A statement: its answer, what it writes, and the rows it locks, given what it sees. *)
Definition Stmt (A : Type) : Type := nat → Tables → A * (Tables → Tables) * list Lock.

Definition sight (tx : Tx) (t : Tables) : Tables :=
  tx_writes tx (match tx_isolation tx with RepeatableRead (Some s) => s | _ => t end).
Definition first_seen (i : Isolation) (t : Tables) : Isolation :=
  match i with RepeatableRead None => RepeatableRead (Some t) | i => i end.

Definition run_stmt {A} (s : Stmt A) (n : nat) (w : Db) : res DbError A * Db :=
  match db_tx w with
  | None => let '(a, u, _) := s n (db_tables w) in (Ok a, w <| db_tables ::= u |>)
  | Some tx =>
      if tx_aborted tx then (Throw in_failed_transaction, w)
      else let '(a, u, ls) := s n (sight tx (db_tables w)) in
           (Ok a, w <| db_tx := Some {| tx_isolation := first_seen (tx_isolation tx) (db_tables w);
                                        tx_writes := λ t, u (tx_writes tx t); tx_locks := tx_locks tx ++ ls; tx_aborted := false |} |>)
  end.

Definition query {A} (s : Stmt A) : db A := exchange (run_stmt s).

(** A statement that only reads. *)
Definition select {A} (f : Tables → A) : db A := query (λ _ t, (f t, λ t, t, [])).

Definition begin_ (i : Isolation) : db unit := exchange (λ _ w,
  (Ok tt, w <| db_tx := Some {| tx_isolation := i; tx_writes := λ t, t; tx_locks := []; tx_aborted := false |} |>)).

(** COMMIT of an aborted transaction rolls it back. *)
Definition commit : db unit := exchange (λ _ w,
  match db_tx w with
  | Some tx => (Ok tt, w <| db_tables := if tx_aborted tx then db_tables w else tx_writes tx (db_tables w) |> <| db_tx := None |>)
  | None => (Ok tt, w)
  end).

(** [ROLLBACK], which a server that is reached does not refuse. *)
Definition rollback : db unit := λ w,
  if db_lost w then (Throw (DbFailed connection_lost), w)
  else
    let n := db_tick w in
    let w := w <| db_tables := sv_others n (db_leases w) (locks w) (db_tables w) |> <| db_tick := S n |> in
    match sv_fate n with
    | Lost _ e => (Throw (DbFailed e), sever w)
    | _ => (Ok tt, w <| db_tx := None |>)
    end.

(** [await client.query('ROLLBACK').catch(() => undefined)] *)
Definition quiet_rollback : db unit := try_catch rollback (λ _, mret tt).

(** [try { m } catch (e) { ROLLBACK; throw e }] *)
Definition or_rollback {A} (m : db A) : db A := try_catch m (λ e, _ ← quiet_rollback; throw e).

(** ** The maintenance lock (locks.ts) *)

Definition MAINTENANCE_LOCK_KEY : Z := 7248134620002.
Definition LOCK_NOT_AVAILABLE : str := js "55P03".

(** [pool.connect()]: a session that holds nothing. *)
Definition connect : db unit := λ w,
  let n := db_tick w in
  let w := w <| db_tables := sv_others n [] [] (db_tables w) |> <| db_tick := S n |> in
  match sv_fate n with
  | Answered => (Ok tt, w <| db_tx := None |> <| db_leases := [] |> <| db_lost := false |> <| db_client := InHand |>)
  | Declined e | Lost _ e => (Throw (DbFailed e), w)
  end.

(** [client.release()], and [client.release(error)], which ends the session. *)
Definition client_release (w : Db) : Db := w <| db_client := Pooled |>.
Definition client_destroy (w : Db) : Db := sever w <| db_client := Destroyed |>.

(** [pool.query]: one statement on a client of its own. *)
Definition pool_query {A} (s : Stmt A) : db A :=
  _ ← connect;
  a ← try_catch (query s) (λ e, _ ← io_do client_destroy; throw e);
  _ ← io_do client_release;
  mret a.
Definition pool_select {A} (f : Tables → A) : db A := pool_query (λ _ t, (f t, λ t, t, [])).

(** [pg_advisory_lock], [pg_advisory_lock_shared] and their releases, which answer whether the lock was held. *)
Definition advisory_lock (lease : Lease) : db unit := exchange (λ _ w,
  if match db_tx w with Some tx => tx_aborted tx | None => false end then (Throw in_failed_transaction, w)
  else (Ok tt, w <| db_leases ::= λ l, lease :: l |>)).
Fixpoint drop_lease (lease : Lease) (l : list Lease) : list Lease :=
  match l with [] => [] | x :: l => if decide (x = lease) then l else x :: drop_lease lease l end.
Definition advisory_unlock (lease : Lease) : db bool := exchange (λ _ w,
  if match db_tx w with Some tx => tx_aborted tx | None => false end then (Throw in_failed_transaction, w)
  else (Ok (bool_decide (lease ∈ db_leases w)), w <| db_leases ::= drop_lease lease |>)).

Definition checkTimeout (lockTimeoutMs : number) : res StoreThrown Z :=
  match as_safe_integer lockTimeoutMs with
  | Some ms => if ms <? 1 then Throw (ThrownTypeError (js "lockTimeoutMs must be a whole number of milliseconds, at least one")) else Ok ms
  | None => Throw (ThrownTypeError (js "lockTimeoutMs must be a whole number of milliseconds, at least one"))
  end.

Definition acquireLock (lease : Lease) (lockTimeoutMs : option Z) : db unit :=
  match lockTimeoutMs with
  | None => advisory_lock lease
  | Some _ =>
      _ ← begin_ ReadCommitted;
      or_rollback (_ ← select (λ _, tt); _ ← advisory_lock lease; commit)
  end.

(** [releaseLock]: it throws nothing; what failed decides what becomes of the connection. *)
Definition releaseLock (lease : Lease) (w : Db) : Db :=
  match advisory_unlock lease w with
  | (Ok true, w) => client_release w
  | (_, w) => client_destroy w
  end.

(** What [withLock] throws for an acquisition that failed. *)
Definition acquire_failure (lockTimeoutMs : option Z) (e : StoreThrown) : StoreThrown :=
  match lockTimeoutMs, e with
  | Some ms, DbFailed f => if bool_decide (pf_code f = Some LOCK_NOT_AVAILABLE) then MaintenanceBusyError ms else e
  | _, _ => e
  end.

Context {D : Type}.
Definition on_db {A} (m : db A) : io (PgWorld D) StoreThrown A := λ w,
  let '(r, d) := m (w_db w) in (r, {| w_db := d; w_disk := w_disk w |}).
Definition on_disk {E A} (f : E → StoreThrown) (m : io D E A) : io (PgWorld D) StoreThrown A := λ w,
  let '(r, d) := m (w_disk w) in
  (match r with Ok a => Ok a | Throw e => Throw (f e) end, {| w_db := w_db w; w_disk := d |}).
Definition pure_ {A} (r : res StoreThrown A) : io (PgWorld D) StoreThrown A := λ w, (r, w).

(** [withLock] *)
Definition withLock {A} (lease : Lease) (lockTimeoutMs : option Z) (fn : io (PgWorld D) StoreThrown A) : io (PgWorld D) StoreThrown A :=
  _ ← on_db connect;
  _ ← on_db (try_catch (acquireLock lease lockTimeoutMs)
                (λ e, _ ← io_do client_destroy; throw (acquire_failure lockTimeoutMs e)));
  try_finally fn (λ w, {| w_db := releaseLock lease (w_db w); w_disk := w_disk w |}).

Definition withIngestionLock {A} (fn : io (PgWorld D) StoreThrown A) : io (PgWorld D) StoreThrown A := withLock Shared None fn.
Definition withMaintenanceLock {A} (lockTimeoutMs : option number) (fn : io (PgWorld D) StoreThrown A) : io (PgWorld D) StoreThrown A :=
  timeout ← pure_ (match lockTimeoutMs with None => Ok None | Some t => Some <$> checkTimeout t end);
  withLock Exclusive timeout fn.
End connection.

(** ** Working on a shared PostgreSQL

    What other writers may do while a session holds what it holds, as laws of the
    server, and the rules a transaction's proof goes by: what was seen under a
    lock stays so until the commit, and a transaction that fails writes nothing.
    With them, the contract of [withLock] (postgres/src/locks.ts). *)

(** ** What others may do *)

(** A run's rows are the same. *)
Record same_run (k : Key) (t t' : Tables) : Prop := {
  same_runs : qe_runs t' !! k = qe_runs t !! k;
  same_lines : qe_run_source_lines t' !! k = qe_run_source_lines t !! k;
  same_retention : qe_run_retention t' !! k = qe_run_retention t !! k;
  same_relations : qe_run_blobs t' !! k = qe_run_blobs t !! k;
  same_index : qe_run_query_index t' !! k = qe_run_query_index t !! k;
  same_occurrences : qe_history_occurrences t' !! k = qe_history_occurrences t !! k;
}.

(** Nothing archived is taken away or changed: what ingestions do to each other. *)
Record grows (t t' : Tables) : Prop := {
  grows_runs k r : qe_runs t !! k = Some r → qe_runs t' !! k = Some r;
  grows_lines k : is_Some (qe_runs t !! k) → qe_run_source_lines t' !! k = qe_run_source_lines t !! k;
  grows_retention k e : qe_run_retention t !! k = Some e → qe_run_retention t' !! k = Some e;
  grows_blobs s b : qe_blobs t !! s = Some b → qe_blobs t' !! s = Some b;
  grows_relations k : default ∅ (qe_run_blobs t !! k) ⊆ default ∅ (qe_run_blobs t' !! k);
}.

(** What is locked stays. *)
Record held (ls : list Lock) (t t' : Tables) : Prop := {
  held_runs k : LRun k ∈ ls → same_run k t t';
  held_blobs s : LBlob s ∈ ls → qe_blobs t' !! s = qe_blobs t !! s;
}.

(** Rows of a run are there only while the run is: the foreign keys. *)
Definition referential (t : Tables) : Prop :=
  ∀ k, qe_runs t !! k = None →
    qe_run_source_lines t !! k = None ∧ qe_run_retention t !! k = None ∧ qe_run_blobs t !! k = None ∧
    qe_run_query_index t !! k = None ∧ qe_history_occurrences t !! k = None.

(** A run's blobs are in the catalog: the other foreign key. *)
Definition blob_references (t : Tables) : Prop :=
  ∀ k (s : str), s ∈ (default ∅ (qe_run_blobs t !! k) : gset str) → is_Some (qe_blobs t !! s).

(** The laws: row locks and foreign keys are respected; under the shared lease nothing is deleted; under the exclusive one nobody writes. *)
Class ServerLaws `{Server} := {
  others_held n leases ls t : held ls t (sv_others n leases ls t);
  others_referential n leases ls t : referential t → referential (sv_others n leases ls t);
  others_references n leases ls t : blob_references t → blob_references (sv_others n leases ls t);
  others_shared n leases ls t : Shared ∈ leases → grows t (sv_others n leases ls t);
  others_exclusive n leases ls t : Exclusive ∈ leases → sv_others n leases ls t = t;
}.

#[export] Instance same_run_equivalence k : Equivalence (same_run k).
Proof. split; [by split|intros ?? []; by split|intros ??? [] []; split; congruence]. Qed.
#[export] Instance grows_preorder : PreOrder grows.
Proof.
  split; [by split|]. intros t1 t2 t3 [A1 A2 A3 A4 A5] [B1 B2 B3 B4 B5]. split; eauto.
  - intros k [r Hr]. rewrite B2, A2 by eauto. done.
  - intros k. etrans; [apply A5|apply B5].
Qed.
#[export] Instance held_preorder ls : PreOrder (held ls).
Proof.
  split; [by split|]. intros t1 t2 t3 [A1 A2] [B1 B2]. split.
  - intros k Hk. etrans; eauto.
  - intros s Hs. by rewrite B2, A2.
Qed.
Lemma held_less ls ls' t t' : (∀ l, l ∈ ls → l ∈ ls') → held ls' t t' → held ls t t'.
Proof. intros Hs [H1 H2]. split; eauto. Qed.

Section spec.
Context {SV : Server} {SL : ServerLaws}.
Implicit Types w : Db.

(** Steps of others only. *)
Definition drift : Tables → Tables → Prop :=
  rtc (λ t t', ∃ n leases ls, Shared ∈ leases ∧ t' = sv_others n leases ls t).

#[export] Instance drift_preorder : PreOrder drift.
Proof. unfold drift. apply _. Qed.
Lemma drift_grows t t' : drift t t' → grows t t'.
Proof. induction 1 as [|t t1 t' (n & leases & ls & Hs & ->) _ IH]; [done|]. etrans; [by apply others_shared|done]. Qed.
Lemma drift_referential t t' : drift t t' → referential t → referential t'.
Proof. induction 1 as [|t t1 t' (n & leases & ls & Hs & ->) _ IH]; [done|]. intros Hr. by apply IH, others_referential. Qed.
Lemma drift_others n leases ls t : Shared ∈ leases → drift t (sv_others n leases ls t).
Proof. intros Hs. apply rtc_once. by exists n, leases, ls. Qed.

(** A session between statements: outside and inside a transaction of writes [u] that holds at least [ls]. *)
Record Idle (t0 : Tables) w : Prop := {
  idle_live : db_lost w = false; idle_tx : db_tx w = None; idle_lease : Shared ∈ db_leases w; idle_drift : drift t0 (db_tables w);
}.
Record InTx (t0 : Tables) (leases : list Lease) (u : Tables → Tables) (ls : list Lock) w : Prop := {
  tx_live : db_lost w = false;
  tx_open : ∃ tx, db_tx w = Some tx ∧ tx_isolation tx = ReadCommitted ∧ tx_aborted tx = false ∧ (∀ t, tx_writes tx t = u t) ∧
    (∀ l, l ∈ ls → l ∈ tx_locks tx);
  tx_leases : db_leases w = leases;
  tx_drift : drift t0 (db_tables w);
}.
(** A transaction that will not be committed, and the session after it. *)
Record Failing (t0 : Tables) (leases : list Lease) w : Prop := {
  failing_session : db_lost w = true ∧ db_tx w = None ∨ db_lost w = false ∧ db_leases w = leases;
  failing_drift : drift t0 (db_tables w);
}.
Record Out (t0 : Tables) (leases : list Lease) w : Prop := {
  out_session : db_lost w = true ∧ db_tx w = None ∨ db_lost w = false ∧ db_tx w = None ∧ db_leases w = leases;
  out_drift : drift t0 (db_tables w);
}.

Lemma InTx_Failing t0 leases u ls w : InTx t0 leases u ls w → Failing t0 leases w.
Proof. intros [H1 _ H3 H4]. split; [by right|done]. Qed.
Lemma InTx_less t0 leases u ls ls' w : (∀ l, l ∈ ls → l ∈ ls') → InTx t0 leases u ls' w → InTx t0 leases u ls w.
Proof. intros Hs [A1 (tx & T1 & T2 & T3 & T4 & T5) A3 A4]. split; [done| |done..]. exists tx. eauto 10. Qed.
Lemma InTx_ext t0 leases u u' ls w : (∀ t, u t = u' t) → InTx t0 leases u ls w → InTx t0 leases u' ls w.
Proof. intros Hu [A1 (tx & T1 & T2 & T3 & Hw & T5) A3 A4]. split; [done| |done..]. exists tx. split_and!; try done. intros t. by rewrite Hw. Qed.

(** ** Statements *)

Lemma query_wp {A} t0 leases (s : Stmt A) u ls w (Q : A → Db → Prop) (X : StoreThrown → Db → Prop) :
  Shared ∈ leases → InTx t0 leases u ls w →
  (∀ n w', held ls (db_tables w) (db_tables w') → drift (db_tables w) (db_tables w') →
     InTx t0 leases (λ t, (s n (u (db_tables w'))).1.2 (u t)) (ls ++ (s n (u (db_tables w'))).2) w' →
     Q (s n (u (db_tables w'))).1.1 w') →
  (∀ e w', Failing t0 leases w' → X e w') → wp (query s) Q X w.
Proof.
  intros Hsh [Hlive (tx & Htx & Hiso & Hab & Hu & Hls) Hle Hd] HQ HX. unfold wp, query, exchange. rewrite Hlive.
  set (n := db_tick w). set (t' := sv_others n (db_leases w) (locks w) (db_tables w)).
  assert (drift (db_tables w) t') as Hd' by (apply drift_others; by rewrite Hle).
  assert (held ls (db_tables w) t') as Hh.
  { eapply held_less; [|apply others_held]. unfold locks. by rewrite Htx. }
  assert (drift t0 t') as Hd0 by (by etrans).
  destruct (sv_fate n) as [|e|ex e].
  - unfold run_stmt. cbn. rewrite Htx, Hab. unfold sight. rewrite Hiso, Hu. destruct (s n (u t')) as [[a f] lk] eqn:Es. cbn.
    specialize (HQ n). cbn in HQ. match goal with |- Q a ?w' => specialize (HQ w') end. cbn in HQ. rewrite Es in HQ. apply HQ; [done|done|].
    split; cbn; [done| |done|done]. eexists. split; [reflexivity|]. cbn. split_and!; [done|done|by intros t; rewrite Hu|].
    intros l [Hl|Hl]%elem_of_app; apply elem_of_app; auto.
  - apply HX. split; cbn; [by right|done].
  - apply HX. split; [by left|]. cbn. destruct ex; [|done]. unfold run_stmt. cbn. rewrite Htx, Hab. unfold sight. rewrite Hiso.
    by destruct (s n _) as [[a f] lk].
Qed.

Lemma select_wp {A} t0 leases (f : Tables → A) u ls w (Q : A → Db → Prop) (X : StoreThrown → Db → Prop) :
  Shared ∈ leases → InTx t0 leases u ls w →
  (∀ w', held ls (db_tables w) (db_tables w') → drift (db_tables w) (db_tables w') → InTx t0 leases u ls w' → Q (f (u (db_tables w'))) w') →
  (∀ e w', Failing t0 leases w' → X e w') → wp (select f) Q X w.
Proof.
  intros Hsh Hin HQ HX. eapply query_wp; [done|done| |done]. intros n w' Hh Hd H'. cbn in *. apply HQ; [done|done|].
  eapply InTx_less; [|done]. intros l Hl. rewrite app_nil_r. done.
Qed.

Lemma idle_select_wp {A} t0 (f : Tables → A) w (Q : A → Db → Prop) (X : StoreThrown → Db → Prop) :
  Idle t0 w →
  (∀ w', drift (db_tables w) (db_tables w') → db_leases w' = db_leases w → Idle t0 w' → Q (f (db_tables w')) w') →
  (∀ e w', Out t0 (db_leases w) w' → X e w') → wp (select f) Q X w.
Proof.
  intros [Hlive Htx Hle Hd] HQ HX. unfold wp, select, query, exchange. rewrite Hlive.
  set (n := db_tick w). set (t' := sv_others n (db_leases w) (locks w) (db_tables w)).
  assert (drift (db_tables w) t') as Hd' by (by apply drift_others). assert (drift t0 t') as Hd0 by (by etrans).
  destruct (sv_fate n) as [|e|ex e].
  - unfold run_stmt. cbn. rewrite Htx. match goal with |- Q _ ?w' => apply (HQ w'); cbn; [done|done|by split] end.
  - apply HX. split; cbn; [right; by rewrite Htx|done].
  - apply HX. split; [by left|]. cbn. destruct ex; [|done]. unfold run_stmt. cbn. by rewrite Htx.
Qed.

Lemma begin_wp t0 leases w (Q : unit → Db → Prop) (X : StoreThrown → Db → Prop) :
  Idle t0 w → db_leases w = leases →
  (∀ w', drift (db_tables w) (db_tables w') → InTx t0 leases (λ t, t) [] w' → Q tt w') →
  (∀ e w', Out t0 leases w' → X e w') → wp (begin_ ReadCommitted) Q X w.
Proof.
  intros [Hlive Htx Hle Hd] Hl HQ HX. unfold wp, begin_, exchange. rewrite Hlive.
  set (n := db_tick w). set (t' := sv_others n (db_leases w) (locks w) (db_tables w)).
  assert (drift (db_tables w) t') as Hd' by (by apply drift_others). assert (drift t0 t') as Hd0 by (by etrans).
  destruct (sv_fate n) as [|e|ex e].
  - apply HQ; cbn; [done|]. split; cbn; [done| |done|done]. eexists. split; [reflexivity|]. cbn. split_and!; done.
  - apply HX. split; cbn; [right; by rewrite Htx|done].
  - apply HX. split; [by left|]. cbn. by destruct ex.
Qed.

(** The commit: the writes are applied to what is committed then, or the session is lost, with them applied or not. *)
Lemma commit_wp t0 leases u ls w (Q : unit → Db → Prop) (X : StoreThrown → Db → Prop) :
  Shared ∈ leases → InTx t0 leases u ls w →
  (∀ t1 w', held ls (db_tables w) t1 → drift t0 t1 → drift (db_tables w) t1 →
     db_tables w' = u t1 → db_lost w' = false → db_tx w' = None → db_leases w' = leases → Q tt w') →
  (∀ e w', Failing t0 leases w' → X e w') →
  (∀ e t1 w', held ls (db_tables w) t1 → drift t0 t1 → drift (db_tables w) t1 →
     db_tables w' = u t1 → db_lost w' = true → db_tx w' = None → X e w') →
  wp commit Q X w.
Proof.
  intros Hsh [Hlive (tx & Htx & Hiso & Hab & Hu & Hls) Hle Hd] HQ HX HL. unfold wp, commit, exchange. rewrite Hlive.
  set (n := db_tick w). set (t' := sv_others n (db_leases w) (locks w) (db_tables w)).
  assert (drift (db_tables w) t') as Hd' by (apply drift_others; by rewrite Hle).
  assert (held ls (db_tables w) t') as Hh.
  { eapply held_less; [|apply others_held]. unfold locks. by rewrite Htx. }
  assert (drift t0 t') as Hd0 by (by etrans).
  destruct (sv_fate n) as [|e|ex e].
  - cbn. rewrite Htx, Hab. apply (HQ t'); cbn; try done.
  - apply HX. split; cbn; [by right|done].
  - cbn. rewrite Htx, Hab. destruct ex; cbn; [by apply (HL _ t'); cbn|]. apply HX. split; [by left|done].
Qed.

Lemma rollback_wp t0 leases w (Q : unit → Db → Prop) (X : StoreThrown → Db → Prop) : Shared ∈ leases →
  Failing t0 leases w → (∀ w', Out t0 leases w' → db_lost w' = false → Q tt w') → (∀ e w', Out t0 leases w' → X e w') → wp rollback Q X w.
Proof.
  intros Hsh [[[Hl Htx]|[Hl Hle]] Hd] HQ HX; unfold wp, rollback; rewrite Hl.
  - apply HX. split; [by left|done].
  - assert (∀ n, drift t0 (sv_others n (db_leases w) (locks w) (db_tables w))) as Hd'.
    { intros n. etrans; [done|]. apply drift_others. by rewrite Hle. }
    destruct (sv_fate _) as [|e|ex e]; [apply HQ|apply HQ|apply HX]; try done; (split; [|apply Hd']); cbn; auto.
Qed.

(** [try { … } catch (e) { ROLLBACK; throw e }]: what fails inside comes out of a session with no transaction. *)
Lemma or_rollback_wp {A} t0 leases (m : io Db StoreThrown A) (Q : A → Db → Prop) (X : StoreThrown → Db → Prop) w : Shared ∈ leases →
  wp m Q (λ e w', Failing t0 leases w' ∨ (db_lost w' = true ∧ X e w')) w → (∀ e w', Out t0 leases w' → X e w') →
  wp (or_rollback m) Q X w.
Proof.
  intros Hsh Hm HX. unfold or_rollback. apply wp_catch. eapply wp_mono; [exact Hm|done|]. intros e w' [HF|[Hlost Hx]].
  - apply wp_bind. unfold quiet_rollback. apply wp_catch. apply (rollback_wp t0 leases); [done|done| |].
    + intros w2 Ho _. by apply wp_throw, HX.
    + intros e' w2 Ho. apply wp_ret, wp_throw. by apply HX.
  - unfold wp, quiet_rollback, mbind, io_mbind, try_catch, rollback. by rewrite Hlost.
Qed.
End spec.

(** ** The maintenance lock *)

Section lock.
Context {SV : Server} {D : Type}.
Implicit Types w : Db.

(** A session in hand that holds the lease and nothing else; one that holds no more than that. *)
Definition holding (lease : Lease) w : Prop :=
  db_lost w = false ∧ db_tx w = None ∧ db_leases w = [lease] ∧ db_client w = InHand.
Definition tidy (lease : Lease) w : Prop :=
  (db_lost w = true ∨ (db_tx w = None ∧ db_leases w = [lease])) ∧ db_client w = InHand.

Lemma exchange_Ok {A} (step : nat → Db → res DbError A * Db) w a w' : exchange step w = (Ok a, w') →
  db_lost w = false ∧ ∃ t, step (db_tick w) (w <| db_tables := t |> <| db_tick := S (db_tick w) |>) = (Ok a, w').
Proof.
  unfold exchange. destruct (db_lost w); [done|]. destruct (sv_fate _) as [|e|ex e]; [|done..].
  destruct (step _ _) as [[b|e] w1] eqn:E; [|done]. intros [= -> ->]. split; [done|]. by eexists.
Qed.

Lemma acquireLock_Ok lease timeout w w' : acquireLock lease timeout w = (Ok tt, w') →
  db_tx w = None → db_leases w = [] → db_client w = InHand → holding lease w'.
Proof.
  intros E Htx Hle Hcl. destruct timeout as [ms|]; cbn [acquireLock] in E.
  - apply bind_Ok in E as ([] & w1 & E1 & E). apply exchange_Ok in E1 as (Hl & t1 & [= <-]).
    unfold or_rollback, try_catch in E.
    match type of E with (match ?m with _ => _ end = _) => destruct m as [[[]|e] w2] eqn:E2 end.
    + injection E as <-. apply bind_Ok in E2 as ([] & w3 & E3 & E2). apply exchange_Ok in E3 as (_ & t3 & [= <-]).
      apply bind_Ok in E2 as ([] & w4 & E4 & E2). apply exchange_Ok in E4 as (_ & t4 & [= <-]).
      apply exchange_Ok in E2 as (Hl2 & t2 & [= <-]). cbn in *. by rewrite Hle.
    + unfold quiet_rollback, try_catch, mbind, io_mbind in E. by destruct (rollback w2) as [[?|?] ?].
  - apply exchange_Ok in E as (Hl & t & E). cbn in E. rewrite Htx in E. injection E as <-. cbn. unfold holding. cbn. by rewrite Hle.
Qed.

Lemma releaseLock_clean lease w : tidy lease w → db_client (releaseLock lease w) = Pooled →
  db_leases (releaseLock lease w) = [] ∧ db_tx (releaseLock lease w) = None.
Proof.
  intros [[Hlost|[Htx Hle]] Hcl]; unfold releaseLock.
  - unfold advisory_unlock, exchange. rewrite Hlost. done.
  - destruct (advisory_unlock lease w) as [[[]|e] w1] eqn:E; [|done..]. intros _.
    apply exchange_Ok in E as (_ & t & E). cbn in E. rewrite Htx in E. injection E as _ <-. cbn. rewrite Hle, ?Htx. cbn. by rewrite decide_True.
Qed.

(** C13 The lock protects what it is for: [withLock] runs its work only on a session that has just been given the lease and holds
    nothing else, at most once, and hands on what the work answered or threw. Whatever fails, in taking the lock, in the
    work or in giving the lock back, a connection that returns to the pool holds no lease and no transaction; if that is
    not certain it is destroyed. A call that could not take the lock has run nothing. *)
Theorem withLock_contract {A} lease timeout (fn : io (PgWorld D) StoreThrown A) (w : PgWorld D) r (w' : PgWorld D) :
  (∀ w1 : PgWorld D, holding lease (w_db w1) → tidy lease (w_db (fn w1).2)) →
  db_client (w_db w) = NotConnected → withLock lease timeout fn w = (r, w') →
  (db_client (w_db w') = Pooled → db_leases (w_db w') = [] ∧ db_tx (w_db w') = None) ∧
  ((∃ w1 : PgWorld D, holding lease (w_db w1) ∧ w_disk w1 = w_disk w ∧ r = (fn w1).1 ∧ w_disk w' = w_disk (fn w1).2) ∨
   (∃ e, r = Throw e ∧ w_disk w' = w_disk w ∧ db_client (w_db w') ≠ Pooled)).
Proof.
  intros Hfn Hnc. unfold withLock, on_db, mbind, io_mbind.
  destruct (connect (w_db w)) as [[[]|e] d1] eqn:Ec.
  2: { intros [= <- <-]. cbn. unfold connect in Ec. assert (db_client d1 = NotConnected) as Hd.
       { by destruct (sv_fate _); simplify_eq. }
       rewrite Hd. split; [done|]. right. eauto. }
  assert (db_tx d1 = None ∧ db_leases d1 = [] ∧ db_client d1 = InHand) as (H1 & H2 & H3).
  { unfold connect in Ec. by destruct (sv_fate _); simplify_eq. }
  cbn [w_db w_disk]. unfold try_catch at 1. destruct (acquireLock lease timeout d1) as [[[]|e] d2] eqn:Ea.
  - apply acquireLock_Ok in Ea; [|done..]. unfold try_finally. specialize (Hfn {| w_db := d2; w_disk := w_disk w |} Ea).
    destruct (fn _) as [r2 w2] eqn:Ef. intros [= <- <-]. cbn. split; [by apply releaseLock_clean|].
    left. exists {| w_db := d2; w_disk := w_disk w |}. rewrite Ef. done.
  - cbn. intros [= <- <-]. cbn. split; [done|]. right. eexists. split_and!; done.
Qed.
End lock.

(** ** A server that keeps the laws *)

Definition no_tables : Tables :=
  {| qe_runs := ∅; qe_run_source_lines := ∅; qe_run_retention := ∅; qe_blobs := ∅; qe_run_blobs := ∅; qe_run_query_index := ∅;
     qe_history_occurrences := ∅ |}.
Definition fresh_db (t : Tables) : Db :=
  {| db_tables := t; db_tick := 0; db_tx := None; db_leases := []; db_lost := false; db_client := NotConnected |}.

(** Another writer that puts a blob into the catalog at its turn, unless someone works on it or on everything. *)
Definition other_blob : str := js "other".
Definition other_writer (turn n : nat) (leases : list Lease) (ls : list Lock) (t : Tables) : Tables :=
  if bool_decide (n = turn) && negb (bool_decide (Exclusive ∈ leases)) &&
     negb (existsb (λ l, match l with LBlob s => str_eqb s other_blob | _ => false end) ls) &&
     bool_decide (qe_blobs t !! other_blob = None)
  then t <| qe_blobs ::= <[other_blob := {| bw_size_bytes := 7; bw_storage_key := other_blob; bw_stored_at := 0 |}]> |>
  else t.
Definition demo_server (fate : nat → Fate) : Server :=
  {| sv_others := other_writer 2; sv_fate := fate; sv_sequence := λ n, Z.of_nat n; sv_now := λ n, Z.of_nat n |}.

Lemma demo_server_laws fate : ServerLaws (H := demo_server fate).
Proof.
  split; intros n leases ls t; unfold sv_others; cbn [demo_server]; unfold other_writer;
    destruct (bool_decide (n = 2%nat)); cbn [andb]; try done; case_bool_decide as Hex; cbn [negb andb]; try done.
  - destruct (existsb _ ls) eqn:Ee; cbn [negb andb]; [done|]. case_bool_decide as Hn; [|done]. split; [by split|].
    intros s Hs. cbn. rewrite lookup_insert_ne; [done|]. intros <-.
    assert (existsb (λ l, match l with LBlob s => str_eqb s other_blob | _ => false end) ls = true) as Ht; [|congruence].
    apply existsb_exists. exists (LBlob other_blob). split; [by apply list_elem_of_In|]. apply str_eqb_refl.
  - intros Hr. destruct (existsb _ ls); cbn [negb andb]; [done|]. case_bool_decide as Hn; [|done]. exact Hr.
  - intros Hr. destruct (existsb _ ls); cbn [negb andb]; [done|]. case_bool_decide as Hn; [|done]. intros k s Hs. cbn.
    destruct (decide (s = other_blob)) as [->|Hne]; [by rewrite lookup_insert_eq|]. rewrite lookup_insert_ne by done. by apply (Hr k).
  - intros _. destruct (existsb _ ls); cbn [negb andb]; [done|]. case_bool_decide as Hn; [|done]. split; try done.
    intros s b Hs. cbn. rewrite lookup_insert_ne; [done|]. intros <-. congruence.
Qed.

(** Work done under the lease while the server answers, and while the connection is lost before the release. *)
Definition demo_work `{Server} : io (PgWorld unit) StoreThrown nat := on_db (select (λ t, size (qe_blobs t))).
Definition demo_lock (fate : nat → Fate) : res StoreThrown nat * PgWorld unit :=
  withLock (H := demo_server fate) Shared None (demo_work (H := demo_server fate)) {| w_db := fresh_db no_tables; w_disk := tt |}.
Definition lost_at (m n : nat) : Fate := if bool_decide (n = m) then Lost false connection_lost else Answered.

Lemma demo_lock_ends :
  ((demo_lock (λ _, Answered)).1, db_client (w_db (demo_lock (λ _, Answered)).2)) = (Ok 1%nat, Pooled) ∧
  ((demo_lock (lost_at 3)).1, db_client (w_db (demo_lock (lost_at 3)).2)) = (Ok 1%nat, Destroyed) ∧
  ((demo_lock (lost_at 1)).1, db_client (w_db (demo_lock (lost_at 1)).2)) = (Throw (DbFailed connection_lost), Destroyed).
Proof. vm_compute. repeat split. Qed.

Lemma demo_work_tidy fate (w1 : PgWorld unit) : holding Shared (w_db w1) → tidy Shared (w_db (demo_work (H := demo_server fate) w1).2).
Proof.
  intros (H1 & H2 & H3 & H4). unfold demo_work, on_db, select, query, exchange. rewrite H1.
  destruct (sv_fate _) as [|e|ex e]; cbn; rewrite ?H2; cbn; (split; [|by destruct ex + done]); rewrite ?H2, ?H3; auto.
Qed.

Lemma demo_lock_pooled : ∃ w,
  withLock (H := demo_server (λ _, Answered)) Shared None (demo_work (H := demo_server (λ _, Answered))) {| w_db := fresh_db no_tables; w_disk := tt |} =
    (Ok 1%nat, w) ∧ db_client (w_db w) = Pooled.
Proof. eexists. vm_compute. split; reflexivity. Qed.

Lemma withLock_contract_witness : ∃ w : PgWorld unit, db_client (w_db w) = Pooled ∧ db_leases (w_db w) = [] ∧ db_tx (w_db w) = None.
Proof.
  destruct demo_lock_pooled as (w & E & Hp). exists w. split; [exact Hp|].
  exact (proj1 (withLock_contract (SV := demo_server (λ _, Answered)) Shared None (demo_work (H := demo_server (λ _, Answered)))
    {| w_db := fresh_db no_tables; w_disk := tt |} (Ok 1%nat) w (demo_work_tidy _) eq_refl E) Hp).
Defined.
