(* ===== verification/PgStore.v ===== *)
(** * The run store (postgres/src/store.ts, materialise.ts, index-writer.ts)

    [PostgresRunStore] as it is written, over the connection of Pg.v and the blob
    store of BlobStore.v: validate a directory, build its archive, make its blobs
    durable, and write the run in one transaction; read a run back and replay it.
    JSON, the compiled schema and SHA-256 are parameters, as is what the directory
    looks like to the validation; which of the blobs copied at once settles first
    is a schedule. *)

From stdpp Require Import gmap sorting.
From S2P Require Import Prelude JsString JsBytes JsMap JsSort JsNumber JsDate Json Model Codec SafeName Validator ValidatorRun Io PwText BlobStore ReadTypes ReadModel Projector Archive Dto Staging Pg.

Local Open Scope Z_scope.

(** ** Bounded concurrency (materialise.ts: eachLimited) *)

Definition MATERIALISE_CONCURRENCY : nat := 4.

Section each.
Context {W E A B : Type} (settles : nat → nat) (stuck : E).
Context (limit : nat) (fn : A → io W E B).

(** The workers take what is next while nothing has failed, at most [limit] at once. *)
Definition refill (inflight queue : list (nat * A)) (failure : option E) : list (nat * A) * list (nat * A) :=
  match failure with
  | Some _ => (inflight, queue)
  | None => (inflight ++ take (limit - length inflight) queue, drop (limit - length inflight) queue)
  end.

(** One of those in flight settles, whichever the schedule says; its worker takes the next. What has been done is kept in
    the order it was done in. [None] when the fuel does not last. *)
Fixpoint each_run (fuel turn : nat) (inflight queue : list (nat * A)) (done_ : list (nat * B)) (failure : option E)
    (w : W) : option (list (nat * B) * option E) * W :=
  let '(inflight, queue) := refill inflight queue failure in
  match inflight with
  | [] => (Some (done_, failure), w)
  | first :: _ =>
      match fuel with
      | O => (None, w)
      | S fuel =>
          let j := (settles turn mod length inflight)%nat in
          let '(i, item) := default first (inflight !! j) in
          match fn item w with
          | (Ok b, w) => each_run fuel (S turn) (delete j inflight) queue (done_ ++ [(i, b)]) failure w
          | (Throw e, w) => each_run fuel (S turn) (delete j inflight) queue done_ (match failure with None => Some e | f => f end) w
          end
      end
  end.

Definition numbered {C} (l : list C) : list (nat * C) := imap pair l.

(** [eachLimited], with what each call gave in the order of the items. *)
Definition eachLimited (items : list A) : io W E (list B) := λ w,
  match each_run (length items) 0 [] (numbered items) [] None w with
  | (Some (done_, None), w) => (Ok (omap (λ i, (list_to_map done_ : gmap nat B) !! i) (seq 0 (length items))), w)
  | (Some (_, Some e), w) => (Throw e, w)
  | (None, w) => (Throw stuck, w)
  end.
End each.

(** ** Data (store.ts) *)

Record StoredBlob := { sb_blob : BlobDescriptor; sb_storedAt : Z }.
Record StoredRun := {
  sr_projectId : str; sr_runId : str; sr_ingestionSequence : Z; sr_ingestedAt : Z; sr_sourceLocator : str;
  sr_contentFingerprint : str; sr_fingerprintVersion : Z; sr_protocolVersions : list str; sr_sourceLineCount : Z;
  sr_sourceAttachmentsVerified : bool; sr_expiresAt : option Z; sr_validationSummary : Summary;
  sr_sourceLines : list StoredSourceLine; sr_blobs : list StoredBlob;
}.

Definition LINES_PER_STATEMENT : nat := 500.
Definition OCCURRENCES_PER_STATEMENT : nat := 500.

(** [checkExpiresAt] *)
Definition checkExpiresAt (expiresAt : Date) : res StoreThrown Z :=
  match expiresAt with
  | Some ms => Ok ms
  | None => Throw (ThrownTypeError (js "expiresAt must be a valid Date: the instant after which retention may delete the run"))
  end.

(** [checkSourceLocator] *)
Definition checkSourceLocator (sourceLocator : option str) : res StoreThrown (option str) :=
  match sourceLocator with
  | None => Ok None
  | Some l =>
      if str_eqb l [] || (256 <? slength l) || existsb (λ u, (u <=? 31)%N || (u =? 127)%N) l
      then Throw (ThrownTypeError (js "sourceLocator must be 1 to 256 printable characters when it is given"))
      else Ok (Some l)
  end.

(** [relativeTo] *)
Definition relative_name (runDirectory file : str) : res StoreThrown str :=
  if str_eqb file [] then Ok file
  else
    let r := relative runDirectory file in
    if str_eqb r [] || starts_with (js "..") r || isAbsolute r
    then Throw (ThrownError (js "the validator named a file outside the run directory it was given"))
    else Ok r.

Definition rename_diagnostic (runDirectory : str) (d : Diagnostic) : res StoreThrown Diagnostic :=
  file ← relative_name runDirectory (d_file d);
  Ok {| d_severity := d_severity d; d_code := d_code d; d_file := file; d_line := d_line d; d_eventId := d_eventId d;
        d_pointer := d_pointer d; d_detail := d_detail d; d_message := d_message d |}.
Definition rename_line (runDirectory : str) (l : ValidatedSourceLine) : res StoreThrown ValidatedSourceLine :=
  file ← relative_name runDirectory (sl_sourceFile l);
  Ok {| sl_rawLine := sl_rawLine l; sl_eventId := sl_eventId l; sl_runId := sl_runId l; sl_sessionId := sl_sessionId l;
        sl_sequence := sl_sequence l; sl_protocolVersion := sl_protocolVersion l; sl_eventType := sl_eventType l;
        sl_canonicalSha256 := sl_canonicalSha256 l; sl_disposition := sl_disposition l; sl_sourceFile := file;
        sl_sourceLine := sl_sourceLine l |}.

Definition relativeTo (runDirectory : str) (validated : ValidatedRun) : res StoreThrown ValidatedRun :=
  diagnostics ← mapMi (λ _, rename_diagnostic runDirectory) (r_diagnostics (vr_report validated));
  lines ← mapMi (λ _, rename_line runDirectory) (vr_sourceLines validated);
  Ok {| vr_report := {| r_valid := r_valid (vr_report validated); r_diagnostics := diagnostics; r_summary := r_summary (vr_report validated) |};
        vr_events := vr_events validated; vr_sourceLines := lines |}.

(** [coveredBlobs] *)
Fixpoint coveredBlobs (required : list RequiredBlob) (published : list BlobDescriptor) : res StoreThrown (list BlobDescriptor) :=
  match required with
  | [] => Ok []
  | blob :: required =>
      match (list_to_map ((λ b, (bl_sha256 b, b)) <$> reverse published) : gmap str BlobDescriptor) !! rb_sha256 blob with
      | None => Throw (ThrownError (js "blob " ++ rb_sha256 blob ++ js " required by run is not published; the database references only durable blobs"))
      | Some found =>
          if negb (bl_sizeBytes found =? rb_sizeBytes blob)
          then Throw (ThrownArchive (BlobSizeConflictError (rb_sha256 blob) (bl_sizeBytes found) (rb_sizeBytes blob) (js "published")))
          else rest ← coveredBlobs required published; Ok (found :: rest)
      end
  end.

(** The slices a statement writes: [for (start = 0; start < l.length; start += size)]. *)
Fixpoint slices {A} (fuel size : nat) (l : list A) : list (list A) :=
  match fuel, l with
  | S fuel, _ :: _ => take size l :: slices fuel size (drop size l)
  | _, _ => []
  end.

Section store.
Context `{Server}.
Abbreviation db A := (io Db StoreThrown A).

Definition thrown {A} (r : res StoreThrown A) : db A := λ w, (r, w).

(** ** Statements *)

Definition line_row (l : ArchivedLine) : StoredSourceLine :=
  let s := al_line l in
  {| st_storageOrdinal := al_storageOrdinal l; st_eventId := sl_eventId s; st_sessionId := sl_sessionId s;
     st_sequence := sl_sequence s; st_eventType := sl_eventType s; st_protocolVersion := sl_protocolVersion s;
     st_canonicalSha256 := sl_canonicalSha256 s; st_disposition := sl_disposition s; st_rawLine := sl_rawLine s;
     st_sourceFile := sl_sourceFile s; st_sourceLine := sl_sourceLine s |}.

Definition run_row (archive : RunArchive) (sourceLocator : str) (sequence ingested_at : Z) : RunRow :=
  {| rr_ingestion_sequence := sequence; rr_ingested_at := ingested_at; rr_source_locator := sourceLocator;
     rr_content_fingerprint := ra_contentFingerprint archive; rr_fingerprint_version := ra_fingerprintVersion archive;
     rr_protocol_versions := ra_protocolVersions archive; rr_source_line_count := Z.of_nat (length (ra_lines archive));
     rr_source_attachments_verified := ra_sourceAttachmentsVerified archive; rr_validation_summary := ra_summary archive |}.

(** [INSERT INTO qe_runs … ON CONFLICT DO NOTHING RETURNING ingestion_sequence] *)
Definition claim_run (k : Key) (archive : RunArchive) (sourceLocator : str) : Stmt (option Z) := λ n t,
  match qe_runs t !! k with
  | Some _ => (None, λ t, t, [])
  | None => (Some (sv_sequence n),
             λ t, t <| qe_runs ::= <[k := run_row archive sourceLocator (sv_sequence n) (sv_now n)]> |>, [LRun k])
  end.

(** [SELECT 1 FROM qe_runs … FOR UPDATE]: the row count. *)
Definition lock_run (k : Key) : Stmt bool := λ _ t,
  match qe_runs t !! k with Some _ => (true, λ t, t, [LRun k]) | None => (false, λ t, t, []) end.

(** [recordBlobs]: the insert keeps whatever row exists. *)
Definition blob_row (now : Z) (b : BlobDescriptor) : BlobRow :=
  {| bw_size_bytes := bl_sizeBytes b; bw_storage_key := bl_storageKey b; bw_stored_at := now |}.
Definition add_blob (now : Z) (m : gmap str BlobRow) (b : BlobDescriptor) : gmap str BlobRow :=
  match m !! bl_sha256 b with Some _ => m | None => <[bl_sha256 b := blob_row now b]> m end.
Definition insert_blobs (blobs : list BlobDescriptor) : Stmt unit := λ n t,
  (tt, λ t, t <| qe_blobs ::= λ m, foldl (add_blob (sv_now n)) m blobs |>,
   LBlob ∘ bl_sha256 <$> filter (λ b, qe_blobs t !! bl_sha256 b = None) blobs).
Definition recorded_sizes (blobs : list BlobDescriptor) (t : Tables) : gmap str Z :=
  list_to_map (omap (λ b, (λ r, (bl_sha256 b, bw_size_bytes r)) <$> qe_blobs t !! bl_sha256 b) blobs).

Fixpoint check_recorded (sizes : gmap str Z) (blobs : list BlobDescriptor) : res StoreThrown unit :=
  match blobs with
  | [] => Ok tt
  | b :: blobs =>
      match sizes !! bl_sha256 b with
      | None => Throw (ThrownError (js "blob " ++ bl_sha256 b ++ js " was not recorded"))
      | Some size =>
          if negb (size =? bl_sizeBytes b)
          then Throw (ThrownArchive (BlobSizeConflictError (bl_sha256 b) size (bl_sizeBytes b) (js "recorded in the catalog")))
          else check_recorded sizes blobs
      end
  end.

Definition recordBlobs (blobs : list BlobDescriptor) : db unit :=
  match blobs with
  | [] => mret tt
  | _ =>
      _ ← query (insert_blobs blobs);
      sizes ← select (recorded_sizes blobs);
      thrown (check_recorded sizes blobs)
  end.

(** [relateBlobs]: how many relations it created. *)
Definition relations (k : Key) (t : Tables) : gset str := default ∅ (qe_run_blobs t !! k).
Definition add_relations (k : Key) (shas : gset str) (t : Tables) : Tables :=
  t <| qe_run_blobs ::= λ m, <[k := default ∅ (m !! k) ∪ shas]> m |>.
Definition relateBlobs (k : Key) (blobs : list BlobDescriptor) : db Z :=
  match blobs with
  | [] => mret 0
  | _ =>
      let shas : gset str := list_to_set (bl_sha256 <$> blobs) in
      query (λ _ t, (Z.of_nat (size (shas ∖ relations k t)), add_relations k shas, []))
  end.

(** [insertLines] *)
Definition append_lines (k : Key) (rows : list StoredSourceLine) (t : Tables) : Tables :=
  t <| qe_run_source_lines ::= λ m, <[k := default [] (m !! k) ++ rows]> m |>.
Definition insertLines (k : Key) (lines : list ArchivedLine) : db unit :=
  _ ← io_mapM (λ chunk, query (λ _ _, (tt, append_lines k (line_row <$> chunk), []))) (slices (length lines) LINES_PER_STATEMENT lines);
  mret tt.

(** [recordRetention]: true when this call wrote it. *)
Definition recordRetention (k : Key) (expiresAt : Z) : db bool :=
  query (λ _ t, (bool_decide (qe_run_retention t !! k = None),
                 λ t, t <| qe_run_retention ::= λ m, match m !! k with Some _ => m | None => <[k := expiresAt]> m end |>, [])).

(** ** The query index (index-writer.ts) *)

Definition history_row (row : OccurrenceIndexRow) : HistoryRow := {| hs_index_version := QUERY_INDEX_VERSION; hs_row := row |}.
Definition append_occurrences (k : Key) (rows : list HistoryRow) (t : Tables) : Tables :=
  t <| qe_history_occurrences ::= λ m, <[k := default [] (m !! k) ++ rows]> m |>.

Definition replaceQueryIndex (k : Key) (derived : DerivedQueryIndex) (sourceFingerprint : str) : db unit :=
  if negb (str_eqb (ri_projectId (dq_run derived)) k.1) || negb (str_eqb (ri_runId (dq_run derived)) k.2)
  then throw (ThrownError (js "the derived index is for " ++ ri_runId (dq_run derived) ++ js " in " ++ ri_projectId (dq_run derived)
                             ++ js ", not " ++ k.2 ++ js " in " ++ k.1))
  else
    _ ← query (λ _ _, (tt, λ t, t <| qe_history_occurrences ::= base.delete k |>, []));
    _ ← query (λ _ _, (tt, λ t, t <| qe_run_query_index ::=
          <[k := {| ix_index_version := QUERY_INDEX_VERSION; ix_source_fingerprint := sourceFingerprint; ix_run := dq_run derived |}]> |>, []));
    _ ← io_mapM (λ chunk, query (λ _ _, (tt, append_occurrences k (history_row <$> chunk), [])))
          (slices (length (dq_occurrences derived)) OCCURRENCES_PER_STATEMENT (dq_occurrences derived));
    mret tt.

(** ** Reading a run back *)

Definition stored_run (k : Key) (head : RunRow) (expiresAt : option Z) (lines : list StoredSourceLine) (blobs : list StoredBlob) : StoredRun :=
  {| sr_projectId := k.1; sr_runId := k.2; sr_ingestionSequence := rr_ingestion_sequence head; sr_ingestedAt := rr_ingested_at head;
     sr_sourceLocator := rr_source_locator head; sr_contentFingerprint := rr_content_fingerprint head;
     sr_fingerprintVersion := rr_fingerprint_version head; sr_protocolVersions := rr_protocol_versions head;
     sr_sourceLineCount := rr_source_line_count head; sr_sourceAttachmentsVerified := rr_source_attachments_verified head;
     sr_expiresAt := expiresAt; sr_validationSummary := rr_validation_summary head; sr_sourceLines := lines; sr_blobs := blobs |}.

(** The three reads: the head with its expiry, the lines by ordinal, the blobs by hash. *)
Definition read_head (k : Key) (t : Tables) : option (RunRow * option Z) := (λ r, (r, qe_run_retention t !! k)) <$> qe_runs t !! k.
Definition read_lines (k : Key) (t : Tables) : list StoredSourceLine :=
  sort (cmp_on st_storageOrdinal cmp_sub) (default [] (qe_run_source_lines t !! k)).
Definition read_blobs (k : Key) (t : Tables) : list StoredBlob :=
  omap (λ sha, (λ r, {| sb_blob := {| bl_sha256 := sha; bl_sizeBytes := bw_size_bytes r; bl_storageKey := bw_storage_key r |};
                        sb_storedAt := bw_stored_at r |}) <$> qe_blobs t !! sha)
    (sort compare (elements (relations k t))).

Definition readStoredRun (k : Key) : db (option StoredRun) :=
  run ← select (read_head k);
  match run with
  | None => mret None
  | Some (head, expiresAt) =>
      lines ← select (read_lines k);
      blobs ← select (read_blobs k);
      mret (Some (stored_run k head expiresAt lines blobs))
  end.

(** [loadStoredRun]: the reads in one snapshot, on a connection given back whole or not at all. *)
Definition load_reads (k : Key) : db (option StoredRun) :=
  _ ← begin_ (RepeatableRead None);
  stored ← readStoredRun k;
  _ ← commit;
  _ ← io_do client_release;
  mret stored.
Definition loadStoredRun (projectId runId : str) : db (option StoredRun) :=
  _ ← thrown (match checkProjectId projectId with Ok u => Ok u | Throw m => Throw (ThrownTypeError m) end);
  _ ← connect;
  try_catch (load_reads (projectId, runId)) (λ e, _ ← quiet_rollback; _ ← io_do client_destroy; throw e).

(** ** Replay *)

Context (json_parse : str → json + str) (schema : option str → json → option (list ErrorObject)).
Context (sha256 : bytes → bytes).
Definition sha256_hex (b : bytes) : str := to_hex (sha256 b).
Definition sha256_utf8 (s : str) : str := sha256_hex (utf8_encode s).

(** The raw lines by session, sessions in the order they come. *)
Definition bySession (lines : list StoredSourceLine) : jsmap str (list str) :=
  foldl (λ m l, mset m (st_sessionId l) (default [] (mget m (st_sessionId l)) ++ [st_rawLine l])) [] lines.

Definition replay_options : ValidateOptions :=
  {| opt_attachmentsDir := None; opt_requireComplete := false; opt_maxEventBytes := None; opt_retainEvents := Some true;
     opt_retainSourceLines := true |}.

(** The validator fed with the stored lines, one feed per session. *)
Definition replay_feed (stored : StoredRun) : RunValidator :=
  foldl (λ run p, feed json_parse schema sha256_utf8 p.2 (js "postgres:" ++ sr_projectId stored ++ js "/" ++ sr_runId stored ++ js "/" ++ p.1) true run)
    (new_validator replay_options) (bySession (sr_sourceLines stored)).

(** [COMPARED]: each key, and what [String] makes of a summary's value there. *)
Definition bool_text (b : bool) : str := if b then js "true" else js "false".
Definition COMPARED : list (str * (Summary → str)) :=
  [ (js "events", dec ∘ sm_events); (js "sessions", dec ∘ sm_sessions); (js "attempts", dec ∘ sm_attempts);
    (js "steps", dec ∘ sm_steps); (js "attachments", dec ∘ sm_attachments); (js "failedAttempts", dec ∘ sm_failedAttempts);
    (js "scopeFailures", dec ∘ sm_scopeFailures); (js "failedSessions", dec ∘ sm_failedSessions);
    (js "inconclusiveSessions", dec ∘ sm_inconclusiveSessions); (js "sessionFailures", dec ∘ sm_sessionFailures);
    (js "ignored", dec ∘ sm_ignored); (js "duplicates", dec ∘ sm_duplicates); (js "complete", bool_text ∘ sm_complete);
    (js "closed", bool_text ∘ sm_closed); (js "verdict", verdict_text ∘ sm_verdict) ].

Definition invalid_replay (report : Report) : list str :=
  if r_valid report then []
  else [js "replayed source is not valid: " ++ join (js ", ")
          ((λ d, code_text (d_code d) ++ match d_detail d with Some x => js "(" ++ detail_text x ++ js ")" | None => [] end)
             <$> filter (λ d, bool_decide (d_severity d = SevError)) (r_diagnostics report))].

Definition differences (stored : StoredRun) (run : RunValidator) (report : Report) : list str :=
  invalid_replay report ++
  omap (λ c, let was := c.2 (sr_validationSummary stored) in
             let now := c.2 (r_summary report) in
             if str_eqb was now then None else Some (c.1 ++ js ": ingested " ++ was ++ js ", replayed " ++ now)) COMPARED ++
  (if Z.of_nat (length (sr_sourceLines stored)) =? sr_sourceLineCount stored then []
   else [js "source lines: archived " ++ dec (sr_sourceLineCount stored) ++ js ", read " ++ dec (Z.of_nat (length (sr_sourceLines stored)))]) ++
  (if (sr_fingerprintVersion stored =? FINGERPRINT_VERSION) &&
      negb (str_eqb (contentFingerprint sha256 (line_digest <$> source_lines run)) (sr_contentFingerprint stored))
   then [js "content fingerprint: the source lines no longer match the archived content"] else []).

(** [replayStored]; without an attachments directory [finish] looks at no file. *)
Definition replayStored (fs : FileSystem) (stored : StoredRun) : res StoreThrown ValidatedRun :=
  let run := replay_feed stored in
  match finish fs run with
  | Throw e => Throw (ThrownFs e)
  | Ok report =>
      match differences stored run report with
      | [] => Ok {| vr_report := report; vr_events := accepted run; vr_sourceLines := source_lines run |}
      | ds => Throw (ReplayMismatchError (sr_projectId stored) (sr_runId stored) ds)
      end
  end.

(** [deriveQueryIndex(projectRun(projectId, sourceLocator, validated))] *)
Definition project_ (projectId sourceLocator : str) (validated : ValidatedRun) : res StoreThrown ProjectedRun :=
  match projectRun projectId sourceLocator validated with Ok run => Ok run | Throw e => Throw (ThrownProject e) end.
Definition derive_index (projectId sourceLocator : str) (validated : ValidatedRun) : res StoreThrown DerivedQueryIndex :=
  run ← project_ projectId sourceLocator validated;
  match deriveQueryIndex sha256 run with Ok index => Ok index | Throw m => Throw (ThrownRange m) end.

(** ** One transaction per run *)

Context (no_files : FileSystem).

(** [repairStoredIndex] *)
Definition index_current (k : Key) (t : Tables) : bool :=
  match qe_run_query_index t !! k, qe_runs t !! k with
  | Some q, Some r => (ix_index_version q =? QUERY_INDEX_VERSION) && str_eqb (ix_source_fingerprint q) (rr_content_fingerprint r)
  | _, _ => false
  end.
Definition repairStoredIndex (k : Key) : db bool :=
  indexed ← select (index_current k);
  if indexed : bool then mret false
  else
    stored ← readStoredRun k;
    match stored with
    | None => throw (ThrownError (js "run " ++ k.2 ++ js " vanished while its row was held"))
    | Some stored =>
        validated ← thrown (replayStored no_files stored);
        derived ← thrown (derive_index k.1 (sr_sourceLocator stored) validated);
        _ ← replaceQueryIndex k derived (sr_contentFingerprint stored);
        mret true
    end.

(** [storedFingerprint]: the fingerprint and the ingestion sequence. *)
Definition stored_digests (k : Key) (t : Tables) : list (str * Disposition) :=
  (λ l, (st_canonicalSha256 l, st_disposition l)) <$> default [] (qe_run_source_lines t !! k).
Definition storedFingerprint (k : Key) (archive : RunArchive) : db (option (str * Z)) :=
  stored ← select (λ t, qe_runs t !! k);
  match stored with
  | None => mret None
  | Some row =>
      if rr_fingerprint_version row =? ra_fingerprintVersion archive
      then mret (Some (rr_content_fingerprint row, rr_ingestion_sequence row))
      else digests ← select (stored_digests k); mret (Some (contentFingerprint sha256 digests, rr_ingestion_sequence row))
  end.

(** [knownRun]: [None] sends the run on to materialisation. *)
Definition complete_known (k : Key) (expiresAt : Z) : db (option (bool * bool)) :=
  locked ← query (lock_run k);
  if negb locked then _ ← rollback; mret None
  else
    retentionAdded ← recordRetention k expiresAt;
    queryIndexRebuilt ← repairStoredIndex k;
    _ ← commit;
    mret (Some (retentionAdded, queryIndexRebuilt)).
Definition knownRun (k : Key) (archive : RunArchive) (expiresAt : Z) : db (option PersistResult) :=
  stored ← storedFingerprint k archive;
  match stored with
  | None => mret None
  | Some (fingerprint, sequence) =>
      if negb (str_eqb fingerprint (ra_contentFingerprint archive))
      then mret (Some (Conflict (ra_runId archive) fingerprint (ra_contentFingerprint archive)))
      else
        known ← select (relations k);
        if existsb (λ b, negb (bool_decide (rb_sha256 b ∈ known))) (ra_requiredBlobs archive) then mret None
        else
          _ ← begin_ ReadCommitted;
          done_ ← or_rollback (complete_known k expiresAt);
          mret ((λ p, AlreadyPresent (ra_runId archive) sequence 0 p.1 p.2) <$> done_)
  end.

(** [archiveWithin]: the claimed run is written; a run someone else claimed is completed or in conflict. *)
Definition write_claimed (k : Key) (archive : RunArchive) (blobs : list BlobDescriptor) (expiresAt : Z) (offeredIndex : DerivedQueryIndex)
    (sequence : Z) : db PersistResult :=
  _ ← recordBlobs blobs;
  _ ← insertLines k (ra_lines archive);
  _ ← relateBlobs k blobs;
  _ ← recordRetention k expiresAt;
  _ ← replaceQueryIndex k offeredIndex (ra_contentFingerprint archive);
  _ ← commit;
  mret (Inserted (ra_runId archive) sequence).

Definition complete_stored (k : Key) (archive : RunArchive) (blobs : list BlobDescriptor) (expiresAt : Z) : db PersistResult :=
  stored ← storedFingerprint k archive;
  match stored with
  | None => throw (ThrownError (js "run identity claimed by a transaction that vanished; retry"))
  | Some (fingerprint, sequence) =>
      if negb (str_eqb fingerprint (ra_contentFingerprint archive))
      then _ ← rollback; mret (Conflict (ra_runId archive) fingerprint (ra_contentFingerprint archive))
      else
        _ ← query (lock_run k);
        known ← select (relations k);
        let missing := filter (λ b, bl_sha256 b ∉ known) blobs in
        added ← match missing with
                | [] => mret 0
                | _ => _ ← recordBlobs missing; relateBlobs k missing
                end;
        retentionAdded ← recordRetention k expiresAt;
        queryIndexRebuilt ← repairStoredIndex k;
        _ ← commit;
        mret (AlreadyPresent (ra_runId archive) sequence added retentionAdded queryIndexRebuilt)
  end.

Definition archive_transaction (k : Key) (sourceLocator : str) (archive : RunArchive) (blobs : list BlobDescriptor) (expiresAt : Z)
    (offeredIndex : DerivedQueryIndex) : db PersistResult :=
  _ ← begin_ ReadCommitted;
  claimed ← query (claim_run k archive sourceLocator);
  match claimed with
  | None => complete_stored k archive blobs expiresAt
  | Some sequence => write_claimed k archive blobs expiresAt offeredIndex sequence
  end.

Definition archiveWithin (projectId sourceLocator : str) (archive : RunArchive) (published : list BlobDescriptor) (expiresAt : Date)
    (offeredIndex : DerivedQueryIndex) : db PersistResult :=
  _ ← thrown (match checkProjectId projectId with Ok u => Ok u | Throw m => Throw (ThrownTypeError m) end);
  expires ← thrown (checkExpiresAt expiresAt);
  blobs ← thrown (coveredBlobs (ra_requiredBlobs archive) published);
  or_rollback (archive_transaction (projectId, ra_runId archive) sourceLocator archive blobs expires offeredIndex).

(** ** Blobs, and the whole ingestion *)

Context {D : Type} `{BlobDisk D} (root : str) (maxBlobBytes : Z) (settles : nat → nat).
(** A directory as the validator finds it. *)
Context (directory : D → FileSystem).

(** [materialiseBlobs] *)
Definition materialise_one (attachments : str) (blob : RequiredBlob) : io D BlobThrown BlobDescriptor :=
  if negb (isSha256 (rb_sha256 blob)) then throw (StoreError INVALID_SHA256 (js "not a hash") None)
  else
    put_ ← put sha256_hex root maxBlobBytes {| bs_path := path_join attachments (rb_sha256 blob); bs_sha256 := rb_sha256 blob;
                                               bs_sizeBytes := Int (rb_sizeBytes blob) |};
    mret (pr_blob put_).
Definition materialiseBlobs (runDirectory : str) (required : list RequiredBlob) : io D BlobThrown (list BlobDescriptor) :=
  match required with
  | [] => mret []
  | _ =>
      let attachments := path_join runDirectory (js "attachments") in
      kind ← stat_if_there attachments;
      match kind with
      | None => throw (StoreError SOURCE_NOT_REGULAR (js "the attachments directory of the run is missing; nothing beneath it is read") None)
      | Some st =>
          if bool_decide (st_kind st = KDirectory)
          then eachLimited settles Unending MATERIALISE_CONCURRENCY (materialise_one attachments) required
          else throw (StoreError SOURCE_NOT_REGULAR (js "the attachments directory of the run is not a directory; nothing beneath it is read") None)
      end
  end.

Abbreviation io_ A := (io (PgWorld D) StoreThrown A).

Definition persist_options : ValidateOptions :=
  {| opt_attachmentsDir := None; opt_requireComplete := false; opt_maxEventBytes := None; opt_retainEvents := Some true;
     opt_retainSourceLines := true |}.

(** The run's directory, validated. *)
Definition snapshot_directory (runDirectory : str) : io_ ValidatedRun := λ w,
  (match validateRunDirectorySnapshot json_parse schema sha256_utf8 (directory (w_disk w)) runDirectory persist_options with
   | Ok v => Ok v | Throw e => Throw (ThrownFs e) end, w).

(** What is refused before anything is archived. *)
Definition rejection (validated : ValidatedRun) : option PersistResult :=
  let runId := sl_runId <$> head (vr_sourceLines validated) in
  let ds := r_diagnostics (vr_report validated) in
  if negb (r_valid (vr_report validated)) then Some (Rejected RUN_INVALID_ runId (filter (λ d, bool_decide (d_severity d = SevError)) ds))
  else if negb (sm_complete (r_summary (vr_report validated))) then Some (Rejected RUN_INCOMPLETE_ runId (filter (λ d, bool_decide (d_code d = D_INCOMPLETE_RUN)) ds))
  else if sm_events (r_summary (vr_report validated)) =? 0 then Some (Rejected RUN_EMPTY_ None [])
  else None.

(** What happens under the ingestion lock. *)
Definition ingest_locked (projectId runDirectory sourceLocator : str) (archive : RunArchive) (expiresAt : Z) (offeredIndex : DerivedQueryIndex)
    : io_ PersistResult :=
  known ← on_db (knownRun (projectId, ra_runId archive) archive expiresAt);
  match known with
  | Some result => mret result
  | None =>
      published ← on_disk ThrownBlob (materialiseBlobs runDirectory (ra_requiredBlobs archive));
      on_db (archiveWithin projectId sourceLocator archive published (Some expiresAt) offeredIndex)
  end.

(** [persistRunDirectory] *)
Definition persistRunDirectory (projectId runDirectory : str) (expiresAt : Date) (sourceLocator : option str) : io_ PersistResult :=
  _ ← pure_ (match checkProjectId projectId with Ok u => Ok u | Throw m => Throw (ThrownTypeError m) end);
  expires ← pure_ (checkExpiresAt expiresAt);
  given ← pure_ (checkSourceLocator sourceLocator);
  let locator := default runDirectory given in
  snapshot ← snapshot_directory runDirectory;
  validated ← pure_ (match sourceLocator with None => Ok snapshot | Some _ => relativeTo runDirectory snapshot end);
  match rejection validated with
  | Some r => mret r
  | None =>
      archive ← pure_ (match buildArchive sha256 validated with Ok a => Ok a | Throw e => Throw (ThrownArchive e) end);
      offeredIndex ← pure_ (derive_index projectId locator validated);
      withIngestionLock (ingest_locked projectId runDirectory locator archive expires offeredIndex)
  end.

(** ** Reading: replayRun, projectStoredRun, verifyStoredRunBlobs, openBlob *)

Definition integrity {A} (code : str) (stored : StoredRun) (sha : str) (detail : str) : io_ A :=
  throw (AttachmentIntegrityError code (sr_projectId stored) (sr_runId stored) sha detail).

(** [verifyBlobs], one blob. *)
Definition verify_one (stored : StoredRun) (blob : RequiredBlob) : io_ BlobDescriptor :=
  match find (λ b, str_eqb (bl_sha256 (sb_blob b)) (rb_sha256 blob)) (sr_blobs stored) with
  | None => integrity (js "BLOB_RECORD_MISSING") stored (rb_sha256 blob) (js "the catalog relates no durable blob to this run for it")
  | Some record =>
      if negb (bl_sizeBytes (sb_blob record) =? rb_sizeBytes blob)
      then integrity (js "BLOB_RECORD_SIZE_MISMATCH") stored (rb_sha256 blob)
             (js "the catalog records " ++ dec (bl_sizeBytes (sb_blob record)) ++ js " bytes, the source declares " ++ dec (rb_sizeBytes blob))
      else
        try_catch (on_disk ThrownBlob (verify sha256_hex root (rb_sha256 blob) (Int (rb_sizeBytes blob))))
          (λ e, match e with
                | ThrownBlob (StoreError code message _) =>
                    integrity (match code with BLOB_MISSING => js "BLOB_MISSING" | _ => js "BLOB_CORRUPT" end) stored (rb_sha256 blob) message
                | e => throw e
                end)
  end.
Definition verifyBlobs (stored : StoredRun) (validated : ValidatedRun) : io_ (list BlobDescriptor) :=
  required ← pure_ (match requiredBlobs validated with Ok r => Ok r | Throw e => Throw (ThrownArchive e) end);
  eachLimited settles (ThrownBlob Unending) MATERIALISE_CONCURRENCY (verify_one stored) required.

(** [replayRun]; the run, its replay, and the blobs verified when asked. *)
Definition replayRun (projectId runId : str) (verifyAttachments : bool) : io_ (option (StoredRun * ValidatedRun * option (list BlobDescriptor))) :=
  stored ← on_db (loadStoredRun projectId runId);
  match stored with
  | None => mret None
  | Some stored =>
      validated ← pure_ (replayStored no_files stored);
      blobs ← (if verifyAttachments then b ← verifyBlobs stored validated; mret (Some b) else mret None);
      mret (Some (stored, validated, blobs))
  end.

(** [verifyStoredRunBlobs] *)
Definition verifyStoredRunBlobs (projectId runId : str) : io_ (option (list BlobDescriptor)) :=
  replayed ← replayRun projectId runId true;
  mret (replayed ≫= snd).

(** [projectStoredRunFrom] *)
Definition projectStoredRunFrom (projectId runId : str) : io_ (option ProjectedRun) :=
  stored ← on_db (loadStoredRun projectId runId);
  match stored with
  | None => mret None
  | Some stored =>
      validated ← pure_ (replayStored no_files stored);
      run ← pure_ (project_ projectId (sr_sourceLocator stored) validated);
      mret (Some run)
  end.

(** [openBlob]: by hash, through a run that relates to it. *)
Definition openBlob (projectId runId sha : str) : io_ (option (BlobDescriptor * Fd)) :=
  _ ← pure_ (match checkProjectId projectId with Ok u => Ok u | Throw m => Throw (ThrownTypeError m) end);
  if negb (isSha256 sha) then throw (ThrownTypeError (js "sha256 must be 64 lower-case hex characters"))
  else
    row ← on_db (pool_query (λ _ t, (if bool_decide (sha ∈ relations (projectId, runId) t) then bw_size_bytes <$> qe_blobs t !! sha else None, λ t, t, [])));
    match row with
    | None => mret None
    | Some size => opened ← on_disk ThrownBlob (open_blob root sha (Some (Int size))); mret (Some opened)
    end.
End store.
