(* ===== verification/PgStoreSpec.v ===== *)
(** * What archiving a run does to the database

    Each statement of the run store's transaction, and the transaction as a
    whole, against a server other ingestions use at the same time. Whatever
    happens, all of a run is archived or nothing; a run archived before keeps
    everything it had; and what is answered is what is stored. *)

From stdpp Require Import gmap sorting.
From S2P Require Import Prelude JsString JsBytes JsMap JsSort JsNumber JsDate Json Model Codec Validator ValidatorRun Io PwText BlobStore ReadTypes ReadModel Projector Archive Dto Pg PgStore.

Local Open Scope Z_scope.

(** ** The catalog *)

Definition find_blob (blobs : list BlobDescriptor) (s : str) : option BlobDescriptor := find (λ b, str_eqb (bl_sha256 b) s) blobs.

Lemma foldl_add_blob now blobs m s :
  foldl (add_blob now) m blobs !! s = match m !! s with Some r => Some r | None => blob_row now <$> find_blob blobs s end.
Proof.
  revert m. induction blobs as [|b blobs IH]; intros m; [cbn; by destruct (m !! s)|]. cbn [foldl find_blob find]. rewrite IH.
  unfold add_blob. destruct (m !! bl_sha256 b) as [r|] eqn:Eb.
  - destruct (m !! s) as [r'|] eqn:Es; [done|]. destruct (str_eqb (bl_sha256 b) s) eqn:E; [|done].
    apply str_eqb_eq in E as <-. congruence.
  - destruct (str_eqb (bl_sha256 b) s) eqn:E.
    + apply str_eqb_eq in E as <-. by rewrite lookup_insert_eq, Eb.
    + apply str_eqb_neq in E. by rewrite lookup_insert_ne.
Qed.

Definition put_blobs (now : Z) (blobs : list BlobDescriptor) (t : Tables) : Tables := t <| qe_blobs ::= λ m, foldl (add_blob now) m blobs |>.

(** Each blob has a row of its size. *)
Definition catalogued (blobs : list BlobDescriptor) (t : Tables) : Prop :=
  Forall (λ b, bw_size_bytes <$> qe_blobs t !! bl_sha256 b = Some (bl_sizeBytes b)) blobs.

Lemma recorded_sizes_lookup blobs t b : b ∈ blobs → recorded_sizes blobs t !! bl_sha256 b = bw_size_bytes <$> qe_blobs t !! bl_sha256 b.
Proof.
  unfold recorded_sizes. induction blobs as [|c blobs IH]; intros Hb; [by apply not_elem_of_nil in Hb|]. cbn.
  destruct (decide (bl_sha256 c = bl_sha256 b)) as [E|E].
  - rewrite E. destruct (qe_blobs t !! bl_sha256 b) as [r|] eqn:Er; cbn; [by rewrite lookup_insert_eq|].
    apply not_elem_of_list_to_map_1. intros ([x z] & Hx & (d & Hd & Hp)%list_elem_of_omap)%list_elem_of_fmap.
    destruct (qe_blobs t !! bl_sha256 d) as [r|] eqn:Ed; [|done]. cbn in *. simplify_eq. congruence.
  - apply elem_of_cons in Hb as [->|Hb]; [done|]. rewrite <- IH by done.
    destruct (qe_blobs t !! bl_sha256 c); cbn; [by rewrite lookup_insert_ne|done].
Qed.

Lemma check_recorded_Ok sizes blobs : check_recorded sizes blobs = Ok tt → Forall (λ b, sizes !! bl_sha256 b = Some (bl_sizeBytes b)) blobs.
Proof.
  induction blobs as [|b blobs IH]; cbn [check_recorded]; [constructor|]. destruct (sizes !! bl_sha256 b) as [z|] eqn:E; [|done].
  destruct (Z.eqb_spec z (bl_sizeBytes b)) as [->|]; [|done]. cbn [negb]. intros Hc. constructor; [done|by apply IH].
Qed.

(** ** Slices *)

Lemma slices_concat {A} fuel n (l : list A) : (0 < n)%nat → (length l <= fuel)%nat → mjoin (slices fuel n l) = l.
Proof.
  intros Hn. revert l. induction fuel as [|fuel IH]; intros l Hl; [by destruct l; simpl in *; [|lia]|]. destruct l as [|x l]; [done|].
  cbn [slices]. change (take n (x :: l) ++ mjoin (slices fuel n (drop n (x :: l))) = x :: l). rewrite IH; [apply take_drop|].
  rewrite length_drop. cbn [length] in *. lia.
Qed.

(** Rows appended under a key, no statement when there are none. *)
Definition put_lines (k : Key) (rows : list StoredSourceLine) (t : Tables) : Tables :=
  match rows with [] => t | _ => append_lines k rows t end.
Definition put_occurrences (k : Key) (rows : list HistoryRow) (t : Tables) : Tables :=
  match rows with [] => t | _ => append_occurrences k rows t end.

Lemma slices_nonempty {A} fuel n (l : list A) c : (0 < n)%nat → c ∈ slices fuel n l → c ≠ [].
Proof.
  intros Hn. revert l. induction fuel as [|fuel IH]; intros l; [intros H%not_elem_of_nil; done|]. destruct l as [|x l]; [intros H%not_elem_of_nil; done|].
  cbn [slices]. intros [->|Hc]%elem_of_cons; [by destruct n; [lia|]|by eapply IH].
Qed.

(** ** The blobs a run needs *)

Lemma coveredBlobs_Ok required published blobs : coveredBlobs required published = Ok blobs →
  Forall2 (λ r b, b ∈ published ∧ bl_sha256 b = rb_sha256 r ∧ bl_sizeBytes b = rb_sizeBytes r) required blobs.
Proof.
  revert blobs. induction required as [|r required IH]; intros blobs; [intros [= <-]; constructor|]. cbn [coveredBlobs].
  destruct (_ !! rb_sha256 r) as [b|] eqn:Eb; [|done]. destruct (Z.eqb_spec (bl_sizeBytes b) (rb_sizeBytes r)) as [Es|]; [|done]. cbn [negb].
  intros (rest & Hr & [= <-])%bind_Ok_inv. constructor; [|by apply IH].
  apply elem_of_list_to_map_2 in Eb. apply list_elem_of_fmap in Eb as (b' & [= E ->] & Hb). by rewrite elem_of_reverse in Hb.
Qed.

Section spec.
Context {SV : Server} {SL : ServerLaws}.
Implicit Types w : Db.
Context (t0 : Tables) (leases : list Lease) (Hshared : Shared ∈ leases).

Abbreviation InTx := (InTx t0 leases).
Abbreviation Failing := (Failing t0 leases).

Lemma drift_blob t t' s b : drift t t' → qe_blobs t !! s = Some b → qe_blobs t' !! s = Some b.
Proof. intros Hd. apply (grows_blobs _ _ (drift_grows _ _ Hd)). Qed.

(** [recordBlobs], in a transaction that has not touched the catalog. *)
Lemma recordBlobs_wp blobs u ls w (Q : unit → Db → Prop) (X : StoreThrown → Db → Prop) :
  InTx u ls w → (∀ t, qe_blobs (u t) = qe_blobs t) →
  (∀ now ls' w', (∀ l, l ∈ ls → l ∈ ls') → held ls (db_tables w) (db_tables w') → drift (db_tables w) (db_tables w') →
     InTx (λ t, put_blobs now blobs (u t)) ls' w' →
     (∀ t1, held ls' (db_tables w') t1 → drift (db_tables w') t1 → catalogued blobs (put_blobs now blobs (u t1))) → Q tt w') →
  (∀ e w', Failing w' → X e w') → wp (recordBlobs blobs) Q X w.
Proof.
  intros Hin Hu HQ HX. destruct blobs as [|b0 bs].
  { apply wp_ret. apply (HQ 0 ls); [done|done|done| |constructor]. eapply InTx_ext; [|done]. intros t. by destruct (u t). }
  cbn [recordBlobs]. set (blobs := b0 :: bs) in *. clearbody blobs. apply wp_bind.
  eapply (query_wp t0 leases); [done|exact Hin| |done]. intros n w1 Hh1 Hd1 H1. cbn in H1.
  set (fresh := LBlob ∘ bl_sha256 <$> filter (λ b, qe_blobs (u (db_tables w1)) !! bl_sha256 b = None) blobs) in *.
  apply wp_bind. eapply (select_wp t0 leases); [done|exact H1| |done]. intros w2 Hh2 Hd2 H2.
  unfold thrown, wp. destruct (check_recorded _ blobs) as [[]|e] eqn:Ec; [|by eapply HX, InTx_Failing].
  apply (HQ (sv_now n) (ls ++ fresh)).
  - intros l Hl. apply elem_of_app. by left.
  - etrans; [exact Hh1|]. eapply held_less; [|exact Hh2]. intros l Hl. apply elem_of_app. by left.
  - by etrans.
  - exact H2.
  - intros t1 Hh Hd. apply check_recorded_Ok in Ec. unfold catalogued. rewrite Forall_forall in *. intros b Hb. specialize (Ec b Hb).
    rewrite recorded_sizes_lookup in Ec by done. unfold put_blobs in *. cbn in Ec |- *. rewrite !foldl_add_blob, !Hu in *.
    assert (qe_blobs t1 !! bl_sha256 b = qe_blobs (db_tables w2) !! bl_sha256 b) as ->; [|done].
    destruct (qe_blobs (db_tables w1) !! bl_sha256 b) as [r|] eqn:Er.
    + rewrite (drift_blob _ _ _ _ Hd2 Er). eapply drift_blob; [exact Hd|]. by eapply drift_blob.
    + apply (held_blobs _ _ _ Hh). apply elem_of_app. right. unfold fresh. apply list_elem_of_fmap. exists b. split; [done|].
      apply list_elem_of_filter. by rewrite Hu.
Qed.

Definition put_relations (k : Key) (blobs : list BlobDescriptor) (t : Tables) : Tables :=
  match blobs with [] => t | _ => add_relations k (list_to_set (bl_sha256 <$> blobs)) t end.

Lemma relateBlobs_wp k blobs u ls w (Q : Z → Db → Prop) (X : StoreThrown → Db → Prop) :
  InTx u ls w →
  (∀ n w', held ls (db_tables w) (db_tables w') → drift (db_tables w) (db_tables w') → InTx (λ t, put_relations k blobs (u t)) ls w' → Q n w') →
  (∀ e w', Failing w' → X e w') → wp (relateBlobs k blobs) Q X w.
Proof.
  intros Hin HQ HX. destruct blobs as [|b bs]; [by apply wp_ret, HQ|]. unfold relateBlobs.
  eapply (query_wp t0 leases); [done|exact Hin| |done]. intros n w1 Hh Hd H1. cbn in H1. apply HQ; [done|done|].
  rewrite app_nil_r in H1. exact H1.
Qed.

Definition put_retention (k : Key) (expires : Z) (t : Tables) : Tables :=
  t <| qe_run_retention ::= λ m, match m !! k with Some _ => m | None => <[k := expires]> m end |>.

Lemma recordRetention_wp k expires u ls w (Q : bool → Db → Prop) (X : StoreThrown → Db → Prop) :
  InTx u ls w →
  (∀ b w', held ls (db_tables w) (db_tables w') → drift (db_tables w) (db_tables w') →
     b = bool_decide (qe_run_retention (u (db_tables w')) !! k = None) →
     InTx (λ t, put_retention k expires (u t)) ls w' → Q b w') →
  (∀ e w', Failing w' → X e w') → wp (recordRetention k expires) Q X w.
Proof.
  intros Hin HQ HX. unfold recordRetention. eapply (query_wp t0 leases); [done|exact Hin| |done]. intros n w1 Hh Hd H1. cbn in H1.
  apply HQ; [done|done|done|]. rewrite app_nil_r in H1. exact H1.
Qed.

(** A loop of statements that append under a key. *)
Lemma append_wp {R C} (append put : list R → Tables → Tables) (rows_of : list C → list R) (chunks : list (list C)) u ls w
    (Q : list unit → Db → Prop) (X : StoreThrown → Db → Prop) :
  (∀ c, put (rows_of c) = append (rows_of c) ∨ c = []) → (∀ t, put [] t = t) → (∀ a b, rows_of (a ++ b) = rows_of a ++ rows_of b) →
  (∀ a b t, put (a ++ b) t = put b (put a t)) → Forall (λ c, c ≠ []) chunks → rows_of [] = [] →
  InTx u ls w →
  (∀ r w', held ls (db_tables w) (db_tables w') → drift (db_tables w) (db_tables w') → InTx (λ t, put (rows_of (mjoin chunks)) (u t)) ls w' → Q r w') →
  (∀ e w', Failing w' → X e w') → wp (io_mapM (λ c, query (λ _ _, (tt, append (rows_of c), []))) chunks) Q X w.
Proof.
  intros Hput Hnil Happ Hcomp Hne Hr0. revert u w Q. induction Hne as [|c chunks Hc Hne IH]; intros u w Q Hin HQ HX; cbn [io_mapM].
  - apply wp_ret, HQ; [done|done|]. cbn. rewrite Hr0. eapply InTx_ext; [|done]. intros t. by rewrite Hnil.
  - apply wp_bind. eapply (query_wp t0 leases); [done|exact Hin| |done]. intros n w1 Hh Hd H1. cbn in H1. rewrite app_nil_r in H1.
    apply wp_bind. eapply IH; [exact H1| |done]. intros r w2 Hh2 Hd2 H2. apply wp_ret, HQ; [by etrans|by etrans|].
    eapply InTx_ext; [|exact H2]. intros t. cbn. rewrite Happ, Hcomp. destruct (Hput c) as [->|]; done.
Qed.

Lemma insertLines_wp k lines u ls w (Q : unit → Db → Prop) (X : StoreThrown → Db → Prop) :
  InTx u ls w →
  (∀ w', held ls (db_tables w) (db_tables w') → drift (db_tables w) (db_tables w') → InTx (λ t, put_lines k (line_row <$> lines) (u t)) ls w' → Q tt w') →
  (∀ e w', Failing w' → X e w') → wp (insertLines k lines) Q X w.
Proof.
  intros Hin HQ HX. unfold insertLines. apply wp_bind.
  apply (append_wp (append_lines k) (put_lines k) (λ c, line_row <$> c) _ u ls); [| |apply fmap_app| | |done|done| |done].
  - intros [|c cs]; [by right|by left].
  - done.
  - intros [|a l] [|b l'] t; [done..|by rewrite app_nil_r|]. unfold put_lines, append_lines. cbn. f_equal. rewrite lookup_insert_eq. cbn.
    by rewrite insert_insert_eq, <- app_assoc.
  - apply Forall_forall. intros c Hc. eapply slices_nonempty, Hc. unfold LINES_PER_STATEMENT. lia.
  - intros r w' Hh Hd H1. apply wp_ret, HQ; [done|done|]. rewrite slices_concat in H1 by (unfold LINES_PER_STATEMENT; lia). exact H1.
Qed.

Definition put_index (k : Key) (derived : DerivedQueryIndex) (fingerprint : str) (t : Tables) : Tables :=
  put_occurrences k (history_row <$> dq_occurrences derived)
    (t <| qe_history_occurrences ::= base.delete k |>
       <| qe_run_query_index ::= <[k := {| ix_index_version := QUERY_INDEX_VERSION; ix_source_fingerprint := fingerprint; ix_run := dq_run derived |}]> |>).

Lemma replaceQueryIndex_wp k derived fp u ls w (Q : unit → Db → Prop) (X : StoreThrown → Db → Prop) :
  InTx u ls w →
  (∀ w', held ls (db_tables w) (db_tables w') → drift (db_tables w) (db_tables w') → InTx (λ t, put_index k derived fp (u t)) ls w' → Q tt w') →
  (∀ e w', Failing w' → X e w') → wp (replaceQueryIndex k derived fp) Q X w.
Proof.
  intros Hin HQ HX. unfold replaceQueryIndex. destruct (_ || _); [by eapply wp_throw, HX, InTx_Failing|].
  apply wp_bind. eapply (query_wp t0 leases); [done|exact Hin| |done]. intros n1 w1 Hh1 Hd1 H1. cbn in H1. rewrite app_nil_r in H1.
  apply wp_bind. eapply (query_wp t0 leases); [done|exact H1| |done]. intros n2 w2 Hh2 Hd2 H2. cbn in H2. rewrite app_nil_r in H2.
  apply wp_bind.
  eapply (append_wp (append_occurrences k) (put_occurrences k) (λ c, history_row <$> c)); [| |apply fmap_app| | |done|exact H2| |done].
  - intros [|c cs]; [by right|by left].
  - done.
  - intros [|a l] [|b l'] t; [done..|by rewrite app_nil_r|]. unfold put_occurrences, append_occurrences. cbn. f_equal. rewrite lookup_insert_eq. cbn.
    by rewrite insert_insert_eq, <- app_assoc.
  - apply Forall_forall. intros c Hc. eapply slices_nonempty, Hc. unfold OCCURRENCES_PER_STATEMENT. lia.
  - intros r w3 Hh3 Hd3 H3. apply wp_ret, HQ; [by do 2 (etrans; [eassumption|])|by do 2 (etrans; [eassumption|])|].
    rewrite slices_concat in H3 by (unfold OCCURRENCES_PER_STATEMENT; lia). exact H3.
Qed.

(** ** A run that is archived *)

Context (json_parse : str → json + str) (schema : option str → json → option (list ErrorObject)) (sha256 : bytes → bytes) (no_files : FileSystem).

(** The fingerprint and the sequence a run is stored with, by the archive's own rule. *)
Definition fingerprint_of (k : Key) (archive : RunArchive) (t : Tables) : option (str * Z) :=
  (λ row, (if rr_fingerprint_version row =? ra_fingerprintVersion archive then rr_content_fingerprint row
           else contentFingerprint sha256 (stored_digests k t), rr_ingestion_sequence row)) <$> qe_runs t !! k.

Lemma fingerprint_of_drift k archive t t' x : drift t t' → fingerprint_of k archive t = Some x → fingerprint_of k archive t' = Some x.
Proof.
  intros Hd%drift_grows. unfold fingerprint_of. destruct (qe_runs t !! k) as [row|] eqn:E; [|done]. rewrite (grows_runs _ _ Hd _ _ E).
  unfold stored_digests. by rewrite (grows_lines _ _ Hd) by eauto.
Qed.

Lemma storedFingerprint_tx k archive ls w (Q : option (str * Z) → Db → Prop) (X : StoreThrown → Db → Prop) :
  InTx (λ t, t) ls w →
  (∀ w', held ls (db_tables w) (db_tables w') → drift (db_tables w) (db_tables w') → InTx (λ t, t) ls w' →
     Q (fingerprint_of k archive (db_tables w')) w') →
  (∀ e w', Failing w' → X e w') → wp (storedFingerprint sha256 k archive) Q X w.
Proof.
  intros Hin HQ HX. unfold storedFingerprint. apply wp_bind. eapply (select_wp t0 leases); [done|exact Hin| |done].
  intros w1 Hh1 Hd1 H1. pose proof (HQ w1 Hh1 Hd1 H1) as HQ1. unfold fingerprint_of in HQ1.
  destruct (qe_runs (db_tables w1) !! k) as [row|] eqn:E; [|by apply wp_ret].
  cbn in HQ1. destruct (rr_fingerprint_version row =? ra_fingerprintVersion archive) eqn:Ev; [by apply wp_ret|].
  apply wp_bind. eapply (select_wp t0 leases); [done|exact H1| |done]. intros w2 Hh2 Hd2 H2. apply wp_ret.
  specialize (HQ w2 ltac:(by etrans) ltac:(by etrans) H2). unfold fingerprint_of in HQ.
  rewrite (grows_runs _ _ (drift_grows _ _ Hd2) _ _ E) in HQ. cbn in HQ. by rewrite Ev in HQ.
Qed.

Lemma storedFingerprint_idle k archive w (Q : option (str * Z) → Db → Prop) (X : StoreThrown → Db → Prop) :
  Idle t0 w → db_leases w = leases →
  (∀ w', drift (db_tables w) (db_tables w') → db_leases w' = leases → Idle t0 w' → Q (fingerprint_of k archive (db_tables w')) w') →
  (∀ e w', Out t0 leases w' → X e w') → wp (storedFingerprint sha256 k archive) Q X w.
Proof.
  intros Hin Hl HQ HX. unfold storedFingerprint. apply wp_bind. eapply (idle_select_wp t0); [exact Hin| |intros e w' Ho; apply HX; by rewrite <- Hl].
  intros w1 Hd1 Hl1 H1. rewrite Hl in Hl1. pose proof (HQ w1 Hd1 Hl1 H1) as HQ1. unfold fingerprint_of in HQ1.
  destruct (qe_runs (db_tables w1) !! k) as [row|] eqn:E; [|by apply wp_ret].
  cbn in HQ1. destruct (rr_fingerprint_version row =? ra_fingerprintVersion archive) eqn:Ev; [by apply wp_ret|].
  apply wp_bind. eapply (idle_select_wp t0); [exact H1| |intros e w' Ho; apply HX; by rewrite <- Hl1]. intros w2 Hd2 Hl2 H2. apply wp_ret.
  rewrite Hl1 in Hl2. specialize (HQ w2 ltac:(by etrans) Hl2 H2). unfold fingerprint_of in HQ.
  rewrite (grows_runs _ _ (drift_grows _ _ Hd2) _ _ E) in HQ. cbn in HQ. by rewrite Ev in HQ.
Qed.

(** [repairStoredIndex] writes the index the stored source gives, or finds it current. *)
Definition put_repair (k : Key) (o : option (DerivedQueryIndex * str)) (t : Tables) : Tables :=
  match o with None => t | Some (derived, fp) => put_index k derived fp t end.

Lemma put_index_current k derived fp t row : qe_runs t !! k = Some row → rr_content_fingerprint row = fp →
  index_current k (put_index k derived fp t) = true.
Proof.
  intros Hr Hf. unfold index_current, put_index. assert (∀ l t, qe_run_query_index (put_occurrences k l t) = qe_run_query_index t ∧
    qe_runs (put_occurrences k l t) = qe_runs t) as Ho by (by intros []).
  destruct (Ho (history_row <$> dq_occurrences derived) (t <| qe_history_occurrences ::= base.delete k |>
       <| qe_run_query_index ::= <[k := {| ix_index_version := QUERY_INDEX_VERSION; ix_source_fingerprint := fp; ix_run := dq_run derived |}]> |>)) as [-> ->].
  cbn. rewrite lookup_insert_eq, Hr. cbn. by rewrite Hf, str_eqb_refl.
Qed.

Lemma repairStoredIndex_wp k u ls w (Q : bool → Db → Prop) (X : StoreThrown → Db → Prop) :
  InTx u ls w → LRun k ∈ ls → is_Some (qe_runs (db_tables w) !! k) →
  (∀ t, qe_runs (u t) = qe_runs t) → (∀ t, qe_run_query_index (u t) = qe_run_query_index t) →
  (∀ b o w', held ls (db_tables w) (db_tables w') → drift (db_tables w) (db_tables w') → InTx (λ t, put_repair k o (u t)) ls w' →
     b = bool_decide (is_Some o) →
     (∀ t1, held ls (db_tables w') t1 → index_current k (put_repair k o (u t1)) = true) → Q b w') →
  (∀ e w', Failing w' → X e w') → wp (repairStoredIndex json_parse schema sha256 no_files k) Q X w.
Proof.
  intros Hin Hlk [row Hrow] Hu Hui HQ HX. unfold repairStoredIndex. apply wp_bind. eapply (select_wp t0 leases); [done|exact Hin| |done].
  intros w1 Hh1 Hd1 H1. destruct (index_current k (u (db_tables w1))) eqn:Ei.
  { apply wp_ret. apply (HQ false None); [done|done|exact H1|done|]. intros t1 Hh. cbn. unfold index_current in *.
    rewrite Hu, Hui in *. destruct (held_runs _ _ _ Hh k Hlk) as [-> _ _ _ -> _]. exact Ei. }
  assert (qe_runs (db_tables w1) !! k = Some row) as Hrow1 by by apply (grows_runs _ _ (drift_grows _ _ Hd1)).
  unfold readStoredRun. apply wp_bind, wp_bind. eapply (select_wp t0 leases); [done|exact H1| |done]. intros w2 Hh2 Hd2 H2.
  unfold read_head. rewrite Hu, (grows_runs _ _ (drift_grows _ _ Hd2) _ _ Hrow1). cbn [fmap option_fmap option_map].
  apply wp_bind. eapply (select_wp t0 leases); [done|exact H2| |done]. intros w3 Hh3 Hd3 H3.
  apply wp_bind. eapply (select_wp t0 leases); [done|exact H3| |done]. intros w4 Hh4 Hd4 H4. apply wp_ret.
  set (stored := stored_run _ _ _ _ _). unfold thrown. apply wp_bind. unfold wp at 1.
  destruct (replayStored _ _ _ _ stored) as [validated|e]; [|by eapply HX, InTx_Failing].
  apply wp_bind. unfold wp at 1. destruct (derive_index _ _ _ validated) as [derived|e]; [|by eapply HX, InTx_Failing].
  apply wp_bind. eapply replaceQueryIndex_wp; [exact H4| |done]. intros w5 Hh5 Hd5 H5. apply wp_ret.
  assert (qe_runs (db_tables w5) !! k = Some row) as Hrow5.
  { apply (grows_runs _ _ (drift_grows _ _ Hd5)), (grows_runs _ _ (drift_grows _ _ Hd4)), (grows_runs _ _ (drift_grows _ _ Hd3)),
      (grows_runs _ _ (drift_grows _ _ Hd2)). done. }
  apply (HQ true (Some (derived, sr_contentFingerprint stored))); [| |exact H5|done|].
  - do 4 (etrans; [eassumption|]). done.
  - do 4 (etrans; [eassumption|]). done.
  - intros t1 Hh. eapply put_index_current; [|reflexivity]. rewrite Hu, (same_runs _ _ _ (held_runs _ _ _ Hh k Hlk)). exact Hrow5.
Qed.

End spec.

(** ** The two ways a run's rows change *)

Definition claimed_writes (k : Key) (archive : RunArchive) (locator : str) (blobs : list BlobDescriptor) (expires : Z)
    (index : DerivedQueryIndex) (sequence at_ now : Z) (t : Tables) : Tables :=
  put_index k index (ra_contentFingerprint archive)
    (put_retention k expires
      (put_relations k blobs
        (put_lines k (line_row <$> ra_lines archive)
          (put_blobs now blobs (t <| qe_runs ::= <[k := run_row archive locator sequence at_]> |>))))).

Definition completed_writes (k : Key) (blobs : list BlobDescriptor) (expires now : Z) (index : option (DerivedQueryIndex * str)) (t : Tables) : Tables :=
  put_repair k index (put_retention k expires (put_relations k blobs (put_blobs now blobs t))).

(** A run that was not there is there whole, and nothing else has changed. *)
Record Archived (k : Key) (archive : RunArchive) (locator : str) (blobs : list BlobDescriptor) (expires : Z)
    (index : DerivedQueryIndex) (sequence : Z) (t t' : Tables) : Prop := {
  ar_fresh : qe_runs t !! k = None;
  ar_run : ∃ at_, qe_runs t' !! k = Some (run_row archive locator sequence at_);
  ar_lines : default [] (qe_run_source_lines t' !! k) = line_row <$> ra_lines archive;
  ar_retention : qe_run_retention t' !! k = Some expires;
  ar_relations : relations k t' = list_to_set (bl_sha256 <$> blobs);
  ar_catalogued : catalogued blobs t';
  ar_index : qe_run_query_index t' !! k = Some {| ix_index_version := QUERY_INDEX_VERSION;
               ix_source_fingerprint := ra_contentFingerprint archive; ix_run := dq_run index |};
  ar_occurrences : default [] (qe_history_occurrences t' !! k) = history_row <$> dq_occurrences index;
  ar_others k' : k' ≠ k → same_run k' t t';
  ar_catalog s r : qe_blobs t !! s = Some r → qe_blobs t' !! s = Some r;
  ar_new : ∃ now, ∀ s, qe_blobs t !! s = None → qe_blobs t' !! s = blob_row now <$> find_blob blobs s;
}.

(** A run that was there keeps its source and its expiry, and has what it lacked of the rest. *)
Record Completed (k : Key) (required : list str) (expires : Z) (t t' : Tables) : Prop := {
  co_run : is_Some (qe_runs t !! k) ∧ qe_runs t' !! k = qe_runs t !! k;
  co_lines : qe_run_source_lines t' !! k = qe_run_source_lines t !! k;
  co_retention : qe_run_retention t' !! k = Some (default expires (qe_run_retention t !! k));
  co_relations : relations k t' = relations k t ∪ list_to_set required;
  co_index : index_current k t' = true;
  co_others k' : k' ≠ k → same_run k' t t';
  co_catalog s r : qe_blobs t !! s = Some r → qe_blobs t' !! s = Some r;
}.

(** What each write leaves alone, of other runs. *)
Lemma put_lines_frame k rows t : qe_runs (put_lines k rows t) = qe_runs t ∧ qe_run_retention (put_lines k rows t) = qe_run_retention t ∧
  qe_run_blobs (put_lines k rows t) = qe_run_blobs t ∧ qe_blobs (put_lines k rows t) = qe_blobs t ∧
  qe_run_query_index (put_lines k rows t) = qe_run_query_index t ∧ qe_history_occurrences (put_lines k rows t) = qe_history_occurrences t ∧
  default [] (qe_run_source_lines (put_lines k rows t) !! k) = default [] (qe_run_source_lines t !! k) ++ rows ∧
  (∀ k', k' ≠ k → qe_run_source_lines (put_lines k rows t) !! k' = qe_run_source_lines t !! k').
Proof.
  destruct rows as [|r rows]; [by rewrite app_nil_r|]. cbn. split_and!; try done; [by rewrite lookup_insert_eq|].
  intros k' Hk. by rewrite lookup_insert_ne.
Qed.

Lemma put_relations_frame k blobs t : qe_runs (put_relations k blobs t) = qe_runs t ∧ qe_run_retention (put_relations k blobs t) = qe_run_retention t ∧
  qe_run_source_lines (put_relations k blobs t) = qe_run_source_lines t ∧ qe_blobs (put_relations k blobs t) = qe_blobs t ∧
  qe_run_query_index (put_relations k blobs t) = qe_run_query_index t ∧ qe_history_occurrences (put_relations k blobs t) = qe_history_occurrences t ∧
  relations k (put_relations k blobs t) = relations k t ∪ list_to_set (bl_sha256 <$> blobs) ∧
  (∀ k', k' ≠ k → qe_run_blobs (put_relations k blobs t) !! k' = qe_run_blobs t !! k').
Proof.
  destruct blobs as [|b blobs]; [cbn; split_and!; try done; set_solver|]. unfold put_relations, add_relations, relations. cbn -[list_to_set fmap].
  split_and!; try done; [by rewrite lookup_insert_eq|]. intros k' Hk. by rewrite lookup_insert_ne.
Qed.

Lemma put_index_frame k derived fp t : qe_runs (put_index k derived fp t) = qe_runs t ∧ qe_run_retention (put_index k derived fp t) = qe_run_retention t ∧
  qe_run_source_lines (put_index k derived fp t) = qe_run_source_lines t ∧ qe_blobs (put_index k derived fp t) = qe_blobs t ∧
  qe_run_blobs (put_index k derived fp t) = qe_run_blobs t ∧
  qe_run_query_index (put_index k derived fp t) !! k = Some {| ix_index_version := QUERY_INDEX_VERSION; ix_source_fingerprint := fp; ix_run := dq_run derived |} ∧
  default [] (qe_history_occurrences (put_index k derived fp t) !! k) = history_row <$> dq_occurrences derived ∧
  (∀ k', k' ≠ k → qe_run_query_index (put_index k derived fp t) !! k' = qe_run_query_index t !! k' ∧
     qe_history_occurrences (put_index k derived fp t) !! k' = qe_history_occurrences t !! k').
Proof.
  unfold put_index, put_occurrences. destruct (dq_occurrences derived) as [|o os]; cbn; split_and!; try done.
  - by rewrite lookup_insert_eq.
  - by rewrite lookup_delete_eq.
  - intros k' Hk. by rewrite lookup_insert_ne, lookup_delete_ne.
  - by rewrite lookup_insert_eq.
  - by rewrite lookup_insert_eq, lookup_delete_eq.
  - intros k' Hk. by rewrite !lookup_insert_ne, lookup_delete_ne.
Qed.

Lemma put_retention_lookup k expires t k' : qe_run_retention (put_retention k expires t) !! k' =
  if decide (k' = k) then Some (default expires (qe_run_retention t !! k)) else qe_run_retention t !! k'.
Proof.
  unfold put_retention. cbn. destruct (qe_run_retention t !! k) as [e|] eqn:E; case_decide as Hk; subst; rewrite ?E; try done.
  - by rewrite lookup_insert_eq.
  - by rewrite lookup_insert_ne.
Qed.

Lemma put_blobs_keeps now blobs t s r : qe_blobs t !! s = Some r → qe_blobs (put_blobs now blobs t) !! s = Some r.
Proof. intros Hr. unfold put_blobs. cbn. by rewrite foldl_add_blob, Hr. Qed.

Lemma claimed_writes_Archived k archive locator blobs expires index sequence at_ now t :
  qe_runs t !! k = None → referential t → catalogued blobs (put_blobs now blobs t) →
  Archived k archive locator blobs expires index sequence t (claimed_writes k archive locator blobs expires index sequence at_ now t).
Proof.
  intros Hk Href Hcat. destruct (Href k Hk) as (R1 & R2 & R3 & R4 & R5). unfold claimed_writes.
  set (ta := t <| qe_runs ::= _ |>). set (tb := put_blobs now blobs ta). set (tc := put_lines k _ tb). set (td := put_relations k blobs tc).
  set (te := put_retention k expires td).
  destruct (put_lines_frame k (line_row <$> ra_lines archive) tb) as (L1 & L2 & L3 & L4 & L5 & L6 & L7 & L8). fold tc in L1, L2, L3, L4, L5, L6, L7, L8.
  destruct (put_relations_frame k blobs tc) as (B1 & B2 & B3 & B4 & B5 & B6 & B7 & B8). fold td in B1, B2, B3, B4, B5, B6, B7, B8.
  destruct (put_index_frame k index (ra_contentFingerprint archive) te) as (I1 & I2 & I3 & I4 & I5 & I6 & I7 & I8).
  assert (∀ s, qe_blobs (put_index k index (ra_contentFingerprint archive) te) !! s = qe_blobs (put_blobs now blobs t) !! s) as Hblobs.
  { intros s. rewrite I4. change (qe_blobs te) with (qe_blobs td). by rewrite B4, L4. }
  split.
  - done.
  - exists at_. rewrite I1. change (qe_runs te) with (qe_runs td). rewrite B1, L1. cbn. by rewrite lookup_insert_eq.
  - rewrite I3. change (qe_run_source_lines te) with (qe_run_source_lines td). rewrite B3, L7. cbn. by rewrite R1.
  - rewrite I2. unfold te. rewrite put_retention_lookup, decide_True by done. rewrite B2, L2. cbn. by rewrite R2.
  - unfold relations in *. rewrite I5. change (qe_run_blobs te) with (qe_run_blobs td). rewrite B7, L3. cbn. rewrite R3. set_solver.
  - unfold catalogued in *. eapply Forall_impl; [exact Hcat|]. intros b Hb. by rewrite Hblobs.
  - done.
  - done.
  - intros k' Hk'. destruct (I8 k' Hk') as [I9 I10]. split.
    + rewrite I1. change (qe_runs te) with (qe_runs td). rewrite B1, L1. cbn. by rewrite lookup_insert_ne.
    + rewrite I3. change (qe_run_source_lines te) with (qe_run_source_lines td). by rewrite B3, L8.
    + rewrite I2. unfold te. rewrite put_retention_lookup, decide_False by done. by rewrite B2, L2.
    + rewrite I5. change (qe_run_blobs te) with (qe_run_blobs td). by rewrite B8, L3.
    + rewrite I9. change (qe_run_query_index te) with (qe_run_query_index td). by rewrite B5, L5.
    + rewrite I10. change (qe_history_occurrences te) with (qe_history_occurrences td). by rewrite B6, L6.
  - intros s r Hr. rewrite Hblobs. by apply put_blobs_keeps.
  - exists now. intros s Hs. rewrite Hblobs. unfold put_blobs. cbn. by rewrite foldl_add_blob, Hs.
Qed.

Lemma completed_writes_Completed k blobs required expires now index t :
  is_Some (qe_runs t !! k) → index_current k (completed_writes k blobs expires now index t) = true →
  (∀ s : str, s ∈ relations k t ∪ list_to_set required ↔ s ∈ relations k t ∪ list_to_set (bl_sha256 <$> blobs)) →
  Completed k required expires t (completed_writes k blobs expires now index t).
Proof.
  intros Hk Hcur Hreq.
  set (tb := put_blobs now blobs t). set (td := put_relations k blobs tb). set (te := put_retention k expires td).
  destruct (put_relations_frame k blobs tb) as (B1 & B2 & B3 & B4 & B5 & B6 & B7 & B8). fold td in B1, B2, B3, B4, B5, B6, B7, B8.
  assert (∀ o, qe_runs (put_repair k o te) = qe_runs te ∧ qe_run_retention (put_repair k o te) = qe_run_retention te ∧
    qe_run_source_lines (put_repair k o te) = qe_run_source_lines te ∧ qe_blobs (put_repair k o te) = qe_blobs te ∧
    qe_run_blobs (put_repair k o te) = qe_run_blobs te ∧
    (∀ k', k' ≠ k → qe_run_query_index (put_repair k o te) !! k' = qe_run_query_index te !! k' ∧
       qe_history_occurrences (put_repair k o te) !! k' = qe_history_occurrences te !! k')) as Hr.
  { intros [[derived fp]|]; [|done]. destruct (put_index_frame k derived fp te) as (? & ? & ? & ? & ? & _ & _ & ?). done. }
  destruct (Hr index) as (I1 & I2 & I3 & I4 & I5 & I8). unfold completed_writes in *. fold tb td te in Hcur |- *.
  split.
  - split; [done|]. rewrite I1. change (qe_runs te) with (qe_runs td). by rewrite B1.
  - rewrite I3. change (qe_run_source_lines te) with (qe_run_source_lines td). by rewrite B3.
  - rewrite I2. unfold te. rewrite put_retention_lookup, decide_True by done. by rewrite B2.
  - unfold relations in *. rewrite I5. change (qe_run_blobs te) with (qe_run_blobs td). rewrite B7. cbn. apply leibniz_equiv. intros s.
    symmetry. apply Hreq.
  - done.
  - intros k' Hk'. destruct (I8 k' Hk') as [I9 I10]. split.
    + rewrite I1. change (qe_runs te) with (qe_runs td). by rewrite B1.
    + rewrite I3. change (qe_run_source_lines te) with (qe_run_source_lines td). by rewrite B3.
    + rewrite I2. unfold te. rewrite put_retention_lookup, decide_False by done. by rewrite B2.
    + rewrite I5. change (qe_run_blobs te) with (qe_run_blobs td). by rewrite B8.
    + rewrite I9. change (qe_run_query_index te) with (qe_run_query_index td). by rewrite B5.
    + rewrite I10. change (qe_history_occurrences te) with (qe_history_occurrences td). by rewrite B6.
  - intros s r Hs. rewrite I4. change (qe_blobs te) with (qe_blobs td). rewrite B4. by apply put_blobs_keeps.
Qed.

Section transaction.
Context {SV : Server} {SL : ServerLaws}.
Implicit Types w : Db.
Context (t0 : Tables) (leases : list Lease) (Hshared : Shared ∈ leases).
Context (json_parse : str → json + str) (schema : option str → json → option (list ErrorObject)) (sha256 : bytes → bytes) (no_files : FileSystem).
Abbreviation InTx := (InTx t0 leases).
Abbreviation Failing := (Failing t0 leases).
Abbreviation fingerprint_of := (fingerprint_of sha256).

(** ** The transaction *)

(** What an answer of [archiveWithin] says of the tables: nothing but other writers' work came before what it did, in one step. *)
Definition told (k : Key) (locator : str) (archive : RunArchive) (blobs : list BlobDescriptor) (expires : Z) (index : DerivedQueryIndex)
    (r : PersistResult) (t' : Tables) : Prop :=
  match r with
  | Inserted runId sequence =>
      runId = ra_runId archive ∧ ∃ t1, drift t0 t1 ∧ Archived k archive locator blobs expires index sequence t1 t'
  | AlreadyPresent runId sequence _ retentionAdded _ =>
      runId = ra_runId archive ∧ ∃ t1, drift t0 t1 ∧ fingerprint_of k archive t1 = Some (ra_contentFingerprint archive, sequence) ∧
      (retentionAdded = true → qe_run_retention t' !! k = Some expires) ∧ Completed k (bl_sha256 <$> blobs) expires t1 t'
  | Conflict runId stored offered =>
      runId = ra_runId archive ∧ offered = ra_contentFingerprint archive ∧ stored ≠ offered ∧ drift t0 t' ∧
      ∃ sequence, fingerprint_of k archive t' = Some (stored, sequence)
  | Rejected _ _ _ => False
  end.

(** What may have happened when it throws: nothing; or the transaction as a whole, its COMMIT's answer lost with the connection. *)
Definition whole_or_nothing (k : Key) (locator : str) (archive : RunArchive) (blobs : list BlobDescriptor) (expires : Z) (index : DerivedQueryIndex) w : Prop :=
  drift t0 (db_tables w) ∨
  db_lost w = true ∧ ∃ t1, drift t0 t1 ∧
    ((∃ sequence, Archived k archive locator blobs expires index sequence t1 (db_tables w)) ∨
     Completed k (bl_sha256 <$> blobs) expires t1 (db_tables w)).

Section archiving.
Context (k : Key) (locator : str) (archive : RunArchive) (blobs : list BlobDescriptor) (expires : Z) (index : DerivedQueryIndex).
Context (Href : referential t0).

Definition finished (r : PersistResult) w : Prop :=
  db_lost w = false ∧ db_tx w = None ∧ db_leases w = leases ∧ told k locator archive blobs expires index r (db_tables w).
Definition given_up (e : StoreThrown) w : Prop := Failing w ∨ db_lost w = true ∧ db_tx w = None ∧ whole_or_nothing k locator archive blobs expires index w.

Lemma write_claimed_wp sequence at_ w :
  InTx (λ t, t <| qe_runs ::= <[k := run_row archive locator sequence at_]> |>) [LRun k] w → qe_runs (db_tables w) !! k = None →
  wp (write_claimed k archive blobs expires index sequence) finished given_up w.
Proof.
  intros Hin Hk. unfold write_claimed. assert (∀ e w', Failing w' → given_up e w') as HX by by left.
  apply wp_bind. eapply (recordBlobs_wp t0 leases Hshared); [exact Hin|done| |done]. intros now ls1 w1 Hls Hh1 Hd1 H1 Hcat.
  apply wp_bind. eapply (insertLines_wp t0 leases Hshared); [exact H1| |done]. intros w2 Hh2 Hd2 H2.
  apply wp_bind. eapply (relateBlobs_wp t0 leases Hshared); [exact H2| |done]. intros _ w3 Hh3 Hd3 H3.
  apply wp_bind. eapply (recordRetention_wp t0 leases Hshared); [exact H3| |done]. intros _ w4 Hh4 Hd4 _ H4.
  apply wp_bind. eapply (replaceQueryIndex_wp t0 leases Hshared); [exact H4| |done]. intros w5 Hh5 Hd5 H5.
  assert (LRun k ∈ ls1) as Hlk by by apply Hls, list_elem_of_singleton.
  assert (∀ t1, held ls1 (db_tables w5) t1 → drift t0 t1 → drift (db_tables w5) t1 →
    Archived k archive locator blobs expires index sequence t1 (claimed_writes k archive locator blobs expires index sequence at_ now t1)) as Hwhole.
  { intros t1 Hh Hd0 Hd. assert (held ls1 (db_tables w1) t1) as Hh' by (do 4 (etrans; [eassumption|]); done).
    apply claimed_writes_Archived; [|exact (drift_referential _ _ Hd0 Href)|].
    - rewrite (same_runs _ _ _ (held_runs _ _ _ Hh' k Hlk)), (same_runs _ _ _ (held_runs _ _ _ Hh1 k ltac:(by left))). exact Hk.
    - apply (Hcat t1 Hh'). do 4 (etrans; [eassumption|]). done. }
  apply wp_bind. eapply (commit_wp t0 leases); [done|exact H5| |done|].
  - intros t1 w6 Hh Hd0 Hd Ht Hlive Htx Hle. apply wp_ret. split_and!; [done..|]. cbn. split; [done|]. exists t1. split; [done|].
    rewrite Ht. by apply Hwhole.
  - intros e t1 w6 Hh Hd0 Hd Ht Hlost Htx. right. split_and!; [done..|]. right. split; [done|]. exists t1. split; [done|]. left. exists sequence.
    rewrite Ht. by apply Hwhole.
Qed.

(** The missing blobs are recorded and related, in as many statements as there is need for. *)
Lemma add_missing_wp missing ls w (Q : Z → Db → Prop) (X : StoreThrown → Db → Prop) :
  InTx (λ t, t) ls w →
  (∀ now n ls' w', (∀ l, l ∈ ls → l ∈ ls') → held ls (db_tables w) (db_tables w') → drift (db_tables w) (db_tables w') →
     InTx (λ t, put_relations k missing (put_blobs now missing t)) ls' w' → Q n w') →
  (∀ e w', Failing w' → X e w') →
  wp (match missing with [] => mret 0 | _ => _ ← recordBlobs missing; relateBlobs k missing end) Q X w.
Proof.
  intros Hin HQ HX. destruct missing as [|m ms].
  - apply wp_ret, (HQ 0 0 ls); [done..|]. eapply InTx_ext; [|exact Hin]. by intros [].
  - apply wp_bind. eapply (recordBlobs_wp t0 leases Hshared); [exact Hin|done| |done]. intros now ls1 w1 Hls Hh1 Hd1 H1 _.
    eapply (relateBlobs_wp t0 leases Hshared); [exact H1| |done]. intros n w2 Hh2 Hd2 H2. apply (HQ now n ls1); [done|etrans; [done|]|by etrans|done].
    by eapply held_less.
Qed.

(** How completing may fail. *)
Definition half_done (e : StoreThrown) w : Prop := Failing w ∨
  db_lost w = true ∧ db_tx w = None ∧ ∃ t1, drift t0 t1 ∧ Completed k (bl_sha256 <$> blobs) expires t1 (db_tables w).

(** From the row lock on: the expiry, the index and the commit. *)
Lemma completion_wp {A} missing now sequence ls (ret : bool → bool → A) w :
  InTx (λ t, put_relations k missing (put_blobs now missing t)) ls w → LRun k ∈ ls →
  fingerprint_of k archive (db_tables w) = Some (ra_contentFingerprint archive, sequence) →
  (∀ s : str, s ∈ relations k (db_tables w) ∪ list_to_set (bl_sha256 <$> blobs) ↔
              s ∈ relations k (db_tables w) ∪ list_to_set (bl_sha256 <$> missing)) →
  wp (retentionAdded ← recordRetention k expires;
      queryIndexRebuilt ← repairStoredIndex json_parse schema sha256 no_files k;
      _ ← commit; mret (ret retentionAdded queryIndexRebuilt))
    (λ a w', ∃ kept rebuilt, a = ret kept rebuilt ∧ db_lost w' = false ∧ db_tx w' = None ∧ db_leases w' = leases ∧
       ∃ t1, drift t0 t1 ∧ fingerprint_of k archive t1 = Some (ra_contentFingerprint archive, sequence) ∧
         (kept = true → qe_run_retention (db_tables w') !! k = Some expires) ∧
         Completed k (bl_sha256 <$> blobs) expires t1 (db_tables w')) half_done w.
Proof.
  intros Hin Hlk Ef Hreq. assert (∀ e w', Failing w' → half_done e w') as HX by by left.
  assert (is_Some (qe_runs (db_tables w) !! k)) as [row Hrow].
  { unfold fingerprint_of in Ef. by destruct (qe_runs (db_tables w) !! k). }
  assert (∀ t, drift (db_tables w) t → qe_runs t !! k = Some row) as Hrun.
  { intros t Hd. by apply (grows_runs _ _ (drift_grows _ _ Hd)). }
  apply wp_bind. eapply (recordRetention_wp t0 leases Hshared); [exact Hin| |done]. intros kept w1 Hh1 Hd1 Hkept H1.
  set (u := λ t, put_retention k expires (put_relations k missing (put_blobs now missing t))) in *.
  assert (∀ t, qe_runs (u t) = qe_runs t ∧ qe_run_query_index (u t) = qe_run_query_index t ∧
    qe_run_retention (put_relations k missing (put_blobs now missing t)) = qe_run_retention t) as Hu.
  { intros t. destruct (put_relations_frame k missing (put_blobs now missing t)) as (B1 & B2 & _ & _ & B5 & _). split_and!; [exact B1|exact B5|exact B2]. }
  apply wp_bind. eapply (repairStoredIndex_wp t0 leases Hshared); [exact H1|done|rewrite Hrun; [done|done]|apply Hu..| |done].
  intros rebuilt o w2 Hh2 Hd2 H2 _ Hcur.
  assert (∀ t1, held ls (db_tables w2) t1 → drift (db_tables w2) t1 →
    fingerprint_of k archive t1 = Some (ra_contentFingerprint archive, sequence) ∧
    (kept = true → qe_run_retention (put_repair k o (u t1)) !! k = Some expires) ∧
    Completed k (bl_sha256 <$> blobs) expires t1 (put_repair k o (u t1))) as Hwhole.
  { intros t1 Hh Hd. assert (held ls (db_tables w1) t1) as Hh1' by by etrans. assert (held ls (db_tables w) t1) as Hh0 by by etrans.
    assert (drift (db_tables w) t1) as Hd0 by (do 2 (etrans; [eassumption|]); done).
    assert (Completed k (bl_sha256 <$> blobs) expires t1 (put_repair k o (u t1))) as HC.
    { apply (completed_writes_Completed k missing _ expires now o t1); [by rewrite Hrun|by apply Hcur|].
      intros s. assert (relations k t1 = relations k (db_tables w)) as ->; [|apply Hreq].
      unfold relations. by rewrite (same_relations _ _ _ (held_runs _ _ _ Hh0 k Hlk)). }
    split_and!; [by eapply fingerprint_of_drift| |done].
    intros ->. symmetry in Hkept. apply bool_decide_eq_true_1 in Hkept. rewrite (co_retention _ _ _ _ _ HC).
    rewrite (same_retention _ _ _ (held_runs _ _ _ Hh1' k Hlk)). rewrite (proj2 (proj2 (Hu _))) in Hkept. by rewrite Hkept. }
  apply wp_bind. eapply (commit_wp t0 leases); [done|exact H2| |done|].
  - intros t1 w3 Hh Hd0 Hd Ht Hlive Htx Hle. apply wp_ret. exists kept, rebuilt. split_and!; [done..|]. exists t1. rewrite Ht.
    split; [done|]. by apply Hwhole.
  - intros e t1 w3 Hh Hd0 Hd Ht Hlost Htx. right. split_and!; [done..|]. exists t1. split; [done|].
    rewrite Ht. by apply Hwhole.
Qed.

(** [SELECT … FOR UPDATE] of a run that is there. *)
Lemma lock_run_wp w (Q : bool → Db → Prop) (X : StoreThrown → Db → Prop) : InTx (λ t, t) [] w → is_Some (qe_runs (db_tables w) !! k) →
  (∀ w', drift (db_tables w) (db_tables w') → InTx (λ t, t) [LRun k] w' → Q true w') → (∀ e w', Failing w' → X e w') →
  wp (query (lock_run k)) Q X w.
Proof.
  intros Hin [row Hrow] HQ HX. eapply (query_wp t0 leases); [done|exact Hin| |done]. intros n w1 Hh Hd H1. unfold lock_run in *. cbn beta in *.
  rewrite (grows_runs _ _ (drift_grows _ _ Hd) _ _ Hrow) in *. by apply HQ.
Qed.

Lemma complete_stored_wp w :
  InTx (λ t, t) [] w → is_Some (qe_runs (db_tables w) !! k) → wp (complete_stored json_parse schema sha256 no_files k archive blobs expires) finished given_up w.
Proof.
  intros Hin Hk. unfold complete_stored. assert (∀ e w', Failing w' → given_up e w') as HX by by left.
  apply wp_bind. eapply (storedFingerprint_tx t0 leases Hshared); [exact Hin| |done]. intros w1 Hh1 Hd1 H1.
  destruct (fingerprint_of k archive (db_tables w1)) as [[fp sequence]|] eqn:Ef; [|by eapply wp_throw, HX, InTx_Failing].
  destruct (str_eqb fp (ra_contentFingerprint archive)) eqn:Efp; cbn [negb].
  2: { apply wp_bind. apply (rollback_wp (db_tables w1) leases); [done| | |].
       - destruct (InTx_Failing _ _ _ _ _ H1) as [Hs _]. by split.
       - intros w2 [[[Hl _]|(Hl & Htx & Hle)] Hd] Hlive; [congruence|]. apply wp_ret. split_and!; [done..|]. cbn.
         apply str_eqb_neq in Efp. split_and!; [done..|etrans; [exact (tx_drift _ _ _ _ _ H1)|done]|].
         exists sequence. by eapply fingerprint_of_drift.
       - intros e w2 [[[Hl Htx]|(Hl & Htx & Hle)] Hd]; left; (split; [auto|etrans; [exact (tx_drift _ _ _ _ _ H1)|done]]). }
  apply str_eqb_eq in Efp as ->.
  assert (is_Some (qe_runs (db_tables w1) !! k)) as Hk1.
  { destruct Hk as [row Hrow]. exists row. by apply (grows_runs _ _ (drift_grows _ _ Hd1)). }
  apply wp_bind. apply lock_run_wp; [done..| |done]. intros w2 Hd2 H2.
  apply wp_bind. eapply (select_wp t0 leases); [done|exact H2| |done]. intros w3 Hh3 Hd3 H3.
  set (missing := filter (λ b, bl_sha256 b ∉ relations k (db_tables w3)) blobs).
  apply wp_bind. eapply (add_missing_wp missing); [exact H3| |done]. intros now added ls w4 Hls Hh4 Hd4 H4.
  eapply wp_mono; [eapply (completion_wp missing now sequence ls (AlreadyPresent (ra_runId archive) sequence added)); [exact H4| | |]| |].
  - by apply Hls; left.
  - eapply fingerprint_of_drift; [|exact Ef]. do 2 (etrans; [eassumption|]). done.
  - intros s. assert (relations k (db_tables w4) = relations k (db_tables w3)) as ->.
    { unfold relations. by rewrite (same_relations _ _ _ (held_runs _ _ _ Hh4 k ltac:(by left))). }
    rewrite !elem_of_union, !elem_of_list_to_set, !list_elem_of_fmap. split; [|by intros [|(b & ? & ?%list_elem_of_filter)]; naive_solver].
    intros [Hs|(b & -> & Hb)]; [by left|]. destruct (decide (bl_sha256 b ∈ relations k (db_tables w3))) as [Hr|Hr]; [by left|].
    right. exists b. split; [done|]. by apply list_elem_of_filter.
  - intros a w5 (kept & rebuilt & -> & ? & ? & ? & Ht). by split_and!.
  - intros e w5 [?|(? & ? & t1 & ? & ?)]; [by left|]. right. split_and!; [done..|]. right. split; [done|]. exists t1. auto.
Qed.

Lemma archive_transaction_wp w : Idle t0 w → db_leases w = leases →
  wp (or_rollback (archive_transaction json_parse schema sha256 no_files k locator archive blobs expires index)) finished
    (λ _ w', (db_lost w' = true ∨ db_leases w' = leases) ∧ db_tx w' = None ∧ whole_or_nothing k locator archive blobs expires index w') w.
Proof.
  intros Hidle Hl. apply (or_rollback_wp t0 leases); [done| |].
  2: { intros e w' [[[H1 H2]|(H1 & H2 & H3)] Hd]; (split_and!; [auto..|by left]). }
  assert (∀ (e : StoreThrown) w', given_up e w' → Failing w' ∨ db_lost w' = true ∧
    (db_lost w' = true ∨ db_leases w' = leases) ∧ db_tx w' = None ∧ whole_or_nothing k locator archive blobs expires index w') as HX.
  { intros e w' [?|(? & ? & ?)]; [by left|]. right. auto. }
  eapply (wp_mono _ finished _ given_up); [|done|exact HX]. unfold archive_transaction.
  apply wp_bind. apply (begin_wp t0 leases); [done..| |].
  2: { intros e w' [[?|(? & ? & ?)] Hd]; left; split; auto. }
  intros w1 Hd1 H1. apply wp_bind. eapply (query_wp t0 leases); [done|exact H1| |by left]. intros n w2 Hh2 Hd2 H2.
  unfold claim_run in *. cbn beta in *. destruct (qe_runs (db_tables w2) !! k) as [row|] eqn:Er; cbn in H2 |- *.
  - apply complete_stored_wp; [|by rewrite Er]. exact H2.
  - by eapply write_claimed_wp.
Qed.
End archiving.

(** [knownRun]: what it answers is told as [archiveWithin] would with no blob to add; else nothing was written. *)
Lemma knownRun_wp k locator archive expires index w : Idle t0 w → db_leases w = leases →
  wp (knownRun json_parse schema sha256 no_files k archive expires)
    (λ o w', db_lost w' = false ∧ db_tx w' = None ∧ db_leases w' = leases ∧
       match o with Some r => told k locator archive [] expires index r (db_tables w') ∧ ∀ runId sequence, r ≠ Inserted runId sequence | None => drift t0 (db_tables w') end)
    (λ _ w', (db_lost w' = true ∨ db_leases w' = leases) ∧ db_tx w' = None ∧ (drift t0 (db_tables w') ∨ ∃ t1, drift t0 t1 ∧ Completed k [] expires t1 (db_tables w'))) w.
Proof.
  intros Hidle Hl. assert (∀ w', Out t0 leases w' →
    (db_lost w' = true ∨ db_leases w' = leases) ∧ db_tx w' = None ∧ (drift t0 (db_tables w') ∨ ∃ t1, drift t0 t1 ∧ Completed k [] expires t1 (db_tables w'))) as HX.
  { intros w' [[[H1 H2]|(H1 & H2 & H3)] Hd]; (split_and!; [auto..|by left]). }
  unfold knownRun. apply wp_bind. apply (storedFingerprint_idle t0 leases); [done..| |by eauto]. intros w1 Hd1 Hl1 H1.
  destruct (fingerprint_of k archive (db_tables w1)) as [[fp sequence]|] eqn:Ef; [|by destruct H1; apply wp_ret].
  destruct (str_eqb fp (ra_contentFingerprint archive)) eqn:Efp; cbn [negb].
  2: { destruct H1. apply wp_ret. apply str_eqb_neq in Efp. do 3 (split; [done|]). split; [|done]. cbn. split_and!; [done..|]. by exists sequence. }
  apply str_eqb_eq in Efp as ->. apply wp_bind. apply (idle_select_wp t0); [done| |intros e w'; rewrite Hl1; by eauto]. intros w2 Hd2 Hl2 H2.
  destruct (existsb _ _); [destruct H2; apply wp_ret; split_and!; [done..|congruence|done]|].
  apply wp_bind. apply (begin_wp t0 leases); [done|congruence| |by eauto]. intros w3 Hd3 H3.
  assert (fingerprint_of k archive (db_tables w3) = Some (ra_contentFingerprint archive, sequence)) as Ef3.
  { eapply fingerprint_of_drift; [|exact Ef]. by etrans. }
  apply wp_bind. apply (or_rollback_wp t0 leases); [done| |by eauto].
  unfold complete_known. apply wp_bind. apply (lock_run_wp k); [done| | |by left].
  { unfold fingerprint_of in Ef3. by destruct (qe_runs (db_tables w3) !! k). }
  intros w4 Hd4 H4. cbn [negb].
  assert (InTx (λ t, put_relations k [] (put_blobs 0 [] t)) [LRun k] w4) as H4' by (eapply InTx_ext; [|exact H4]; by intros []).
  eapply wp_mono; [eapply (completion_wp k archive [] expires [] 0 sequence [LRun k] (λ a b, Some (a, b))); [exact H4'|by left| |done]| |].
  - by eapply fingerprint_of_drift.
  - intros a w5 (kept & rebuilt & -> & ? & ? & ? & Ht). apply wp_ret. by split_and!.
  - intros e w5 [?|(? & ? & t1 & ? & ?)]; [by left|]. right. split_and!; eauto.
Qed.

(** The arguments are checked before anything is asked of the server. *)
Lemma archiveWithin_wp projectId locator archive published expiresAt index w : Idle t0 w → db_leases w = leases → referential t0 →
  wp (archiveWithin json_parse schema sha256 no_files projectId locator archive published expiresAt index)
    (λ r w', db_lost w' = false ∧ db_tx w' = None ∧ db_leases w' = leases ∧
       ∃ blobs expires, expiresAt = Some expires ∧ coveredBlobs (ra_requiredBlobs archive) published = Ok blobs ∧
         told (projectId, ra_runId archive) locator archive blobs expires index r (db_tables w'))
    (λ _ w', (db_lost w' = true ∨ db_leases w' = leases) ∧ db_tx w' = None ∧
       (drift t0 (db_tables w') ∨ ∃ blobs expires, expiresAt = Some expires ∧ coveredBlobs (ra_requiredBlobs archive) published = Ok blobs ∧
          whole_or_nothing (projectId, ra_runId archive) locator archive blobs expires index w')) w.
Proof.
  intros Hi Hl Href. pose proof Hi as [H1 H2 H3 H4].
  unfold archiveWithin, thrown. apply wp_bind. unfold wp at 1. destruct (checkProjectId projectId) as [[]|m]; [|by auto].
  apply wp_bind. unfold wp at 1. destruct (checkExpiresAt expiresAt) as [expires|e] eqn:Ee; [|by auto].
  apply wp_bind. unfold wp at 1. destruct (coveredBlobs _ published) as [blobs|e] eqn:Eb; [|by auto].
  assert (expiresAt = Some expires) as -> by (unfold checkExpiresAt in Ee; by destruct expiresAt; simplify_eq).
  eapply wp_mono; [by apply archive_transaction_wp| |].
  - intros r w' (? & ? & ? & ?). split_and!; [done..|]. by exists blobs, expires.
  - intros e w' (? & ? & ?). split_and!; [done..|]. right. by exists blobs, expires.
Qed.
End transaction.

(** C6 Archiving is one step among the other writers': from a session that holds the ingestion lease, whatever the server and
    the other writers do and wherever it fails, [archiveWithin] leaves no transaction open, and the tables are those of the
    others' work alone, or of one whole step in the midst of it, made with the answer lost or told truly: [Inserted] means that the run was
    not there and now is, source, expiry, blobs and index, with the number answered; [AlreadyPresent] that a run of the same
    content was, which keeps its source and its expiry and gets what it lacked; [Conflict] that one of other content is and
    nothing was written. No other run's rows change, and no catalog row. *)
Theorem archiveWithin_is_atomic {SV : Server} {SL : ServerLaws} json_parse schema sha256 no_files projectId locator archive published expiresAt index
    (w : Db) r w' :
  db_lost w = false → db_tx w = None → Shared ∈ db_leases w → referential (db_tables w) →
  archiveWithin json_parse schema sha256 no_files projectId locator archive published expiresAt index w = (r, w') →
  db_tx w' = None ∧ (db_lost w' = true ∨ db_leases w' = db_leases w) ∧
  (drift (db_tables w) (db_tables w') ∨
   ∃ blobs expires, expiresAt = Some expires ∧ coveredBlobs (ra_requiredBlobs archive) published = Ok blobs ∧ ∃ t1, drift (db_tables w) t1 ∧
     ((∃ sequence, Archived (projectId, ra_runId archive) archive locator blobs expires index sequence t1 (db_tables w')) ∨
      Completed (projectId, ra_runId archive) (bl_sha256 <$> blobs) expires t1 (db_tables w'))) ∧
  (∀ a, r = Ok a → db_lost w' = false ∧ ∃ blobs expires, expiresAt = Some expires ∧ coveredBlobs (ra_requiredBlobs archive) published = Ok blobs ∧
     told (db_tables w) sha256 (projectId, ra_runId archive) locator archive blobs expires index a (db_tables w')).
Proof.
  intros Hlive Htx Hle Href E.
  pose proof (archiveWithin_wp (db_tables w) (db_leases w) Hle json_parse schema sha256 no_files projectId locator archive published expiresAt index w
    ltac:(by split) eq_refl Href) as Hwp. unfold wp in Hwp. rewrite E in Hwp. destruct r as [a|e].
  - destruct Hwp as (H1 & H2 & H3 & blobs & expires & E1 & E2 & Ht). split_and!; [done|by right| |intros ? [= <-]; by eauto 6].
    destruct a; cbn in Ht; [right|right|done|left; by apply Ht].
    + destruct Ht as (_ & t1 & Hd & HA). exists blobs, expires. split_and!; [done..|]. exists t1. eauto.
    + destruct Ht as (_ & t1 & Hd & _ & _ & HC). exists blobs, expires. split_and!; [done..|]. exists t1. eauto.
  - destruct Hwp as (H1 & H2 & Hw). split_and!; [done..| |done].
    destruct Hw as [|(blobs & expires & E1 & E2 & [Hd|(_ & t1 & Hd & HA)])]; [by left|by left|]. right. exists blobs, expires. eauto.
Qed.

(** ** A run archived beside another writer *)

Definition leased_db (t : Tables) : Db :=
  {| db_tables := t; db_tick := 0; db_tx := None; db_leases := [Shared]; db_lost := false; db_client := InHand |}.
Definition no_summary : Summary :=
  {| sm_files := 0; sm_events := 0; sm_sessions := 0; sm_attempts := 0; sm_steps := 0; sm_attachments := 0; sm_failedAttempts := 0;
     sm_scopeFailures := 0; sm_failedSessions := 0; sm_inconclusiveSessions := 0; sm_sessionFailures := 0; sm_ignored := 0;
     sm_duplicates := 0; sm_complete := true; sm_closed := true; sm_verdict := VPassed |}.
Definition stored_line : ArchivedLine :=
  {| al_line := {| sl_rawLine := js "{}"; sl_eventId := js "e"; sl_runId := js "run"; sl_sessionId := js "s"; sl_sequence := 1;
                   sl_protocolVersion := js "1.0.0"; sl_eventType := js "run.started"; sl_canonicalSha256 := replicate 64 97%N;
                   sl_disposition := DispAccepted; sl_sourceFile := js "s.jsonl"; sl_sourceLine := 1 |}; al_storageOrdinal := 0 |}.
Definition stored_archive (blob : str) : RunArchive :=
  {| ra_runId := js "run"; ra_lines := [stored_line]; ra_contentFingerprint := js "fingerprint"; ra_fingerprintVersion := FINGERPRINT_VERSION;
     ra_protocolVersions := [js "1.0.0"]; ra_summary := no_summary; ra_sourceAttachmentsVerified := true;
     ra_requiredBlobs := [{| rb_sha256 := blob; rb_sizeBytes := 3 |}] |}.
Definition stored_index : DerivedQueryIndex :=
  {| dq_run := {| ri_projectId := js "p"; ri_runId := js "run"; ri_verdict := VPassed; ri_complete := true; ri_closed := true;
                  ri_ignoredEventCount := 0; ri_duplicateEventCount := 0; ri_sessionCount := 1; ri_executionCount := 0;
                  ri_scopeFailureCount := 0; ri_attachmentCount := 1 |}; dq_occurrences := [] |}.
Definition durable (blob : str) : BlobDescriptor := {| bl_sha256 := blob; bl_sizeBytes := 3; bl_storageKey := blob |}.
Definition no_directory : FileSystem :=
  {| fsys_lstat := λ p, Throw ENOENT; fsys_open := λ p, Throw ENOENT; fsys_readdir := λ _, Ok [];
     fsys_realpath := λ p, Throw ENOENT; fsys_join := λ a b, a ++ js "/" ++ b |}.

Definition demo_archiving (fate : nat → Fate) (w : Db) : res StoreThrown PersistResult * Db :=
  archiveWithin (H := demo_server fate) (λ _, inr []) (λ _ _, None) id no_directory (js "p") (js "here") (stored_archive (js "b"))
    [durable (js "b")] (Some 1000) stored_index w.

(** What became of it: the answer, whether the session is lost, and whether the run and the other writer's blob are there. *)
Definition became (x : res StoreThrown PersistResult * Db) : res StoreThrown PersistResult * bool * nat * nat :=
  (x.1, db_lost x.2, size (qe_runs (db_tables x.2)), size (qe_blobs (db_tables x.2))).

(** Answered throughout; its COMMIT done and the answer lost; a statement refused; archived again. *)
Lemma demo_archiving_ends :
  became (demo_archiving (λ _, Answered) (leased_db no_tables)) = (Ok (Inserted (js "run") 1), false, 1, 2)%nat ∧
  became (demo_archiving (λ n, if bool_decide (n = 9%nat) then Lost true connection_lost else Answered) (leased_db no_tables)) =
    (Throw (DbFailed connection_lost), true, 1, 2)%nat ∧
  became (demo_archiving (λ n, if bool_decide (n = 5%nat) then Declined connection_lost else Answered) (leased_db no_tables)) =
    (Throw (DbFailed connection_lost), false, 0, 1)%nat ∧
  (demo_archiving (λ _, Answered) (leased_db (db_tables (demo_archiving (λ _, Answered) (leased_db no_tables)).2))).1 =
    Ok (AlreadyPresent (js "run") 1 0 false false).
Proof. vm_compute. repeat split. Qed.

Lemma demo_archiving_runs fate w : ∃ r w', demo_archiving fate w = (r, w').
Proof. by destruct (demo_archiving fate w) as [r w'] eqn:E; eauto. Qed.

Lemma no_tables_referential : referential no_tables.
Proof. intros k _. split_and!; reflexivity. Qed.

Lemma archiveWithin_is_atomic_witness : ∃ w' blobs expires, demo_archiving (λ _, Answered) (leased_db no_tables) = (Ok (Inserted (js "run") 1), w') ∧
  ∃ t1, drift (SV := demo_server (λ _, Answered)) no_tables t1 ∧
    Archived (js "p", js "run") (stored_archive (js "b")) (js "here") blobs expires stored_index 1 t1 (db_tables w').
Proof.
  destruct (demo_archiving_runs (λ _, Answered) (leased_db no_tables)) as (r & w' & E).
  pose proof (proj1 demo_archiving_ends) as Hr. rewrite E in Hr. injection Hr as -> _ _ _.
  destruct (proj2 (proj2 (proj2 (archiveWithin_is_atomic (SV := demo_server (λ _, Answered)) (SL := demo_server_laws _)
    (λ _, inr []) (λ _ _, None) id no_directory (js "p") (js "here") (stored_archive (js "b")) [durable (js "b")] (Some 1000) stored_index
    (leased_db no_tables) _ w' eq_refl eq_refl ltac:(by left) no_tables_referential E))) _ eq_refl) as (_ & blobs & expires & _ & _ & _ & t1 & Hd & HA).
  exists w', blobs, expires. split; [exact E|]. exists t1. exact (conj Hd HA).
Defined.
