(* ===== verification/PgPersistSpec.v ===== *)
(** * What persisting a run directory does

    The whole of [persistRunDirectory] over the database and the blob store:
    bounded copies that all end, the completion of a run known before, the
    transaction of PgStoreSpec.v, the lock around them. The database refers
    only to blobs the store holds. *)

From stdpp Require Import gmap sorting.
From S2P Require Import Prelude JsString JsBytes JsMap JsSort Json Model Codec Validator ValidatorRun Demo ReadTypes Projector ReadModel JsNumber JsDate Io FileSink PwText BlobStore BlobStoreSpec BlobStorePut Dto Archive Pg PgStore PgStoreSpec.

Local Open Scope Z_scope.

(** ** Bounded concurrency *)

Section each.
Context {W E A B : Type} (settles : nat → nat) (stuck : E) (limit : nat) (fn : A → io W E B).
Context (R : W → W → Prop) `{!PreOrder R} (P : A → B → W → Prop) (X : E → Prop).
Context (Hlimit : (0 < limit)%nat).
Context (HP : ∀ a b w w', R w w' → P a b w → P a b w').
Context (Hfn : ∀ a w, wp (fn a) (λ b w', R w w' ∧ P a b w') (λ e w', R w w' ∧ X e) w).
Implicit Types w : W.

(** Every item is done, in flight or in the queue, until one has failed; what is done was done as [P] says. *)
Record working (items : list A) (w0 : W) (inflight queue : list (nat * A)) (done_ : list (nat * B)) (failure : option E) w : Prop := {
  wk_since : R w0 w;
  wk_items p : p ∈ inflight ++ queue → items !! p.1 = Some p.2;
  wk_done p : p ∈ done_ → ∃ a, items !! p.1 = Some a ∧ P a p.2 w;
  wk_all : failure = None → done_.*1 ++ (inflight ++ queue).*1 ≡ₚ seq 0 (length items);
  wk_failure e : failure = Some e → X e;
}.

Lemma refill_same (inflight queue : list (nat * A)) (failure : option E) :
  (refill limit inflight queue failure).1 ++ (refill limit inflight queue failure).2 = inflight ++ queue.
Proof. destruct failure; [done|]. cbn. by rewrite <- app_assoc, take_drop. Qed.

Lemma each_run_working items w0 fuel turn inflight queue done_ failure w :
  (length (inflight ++ queue) <= fuel)%nat → working items w0 inflight queue done_ failure w →
  ∃ done' failure' queue' w', each_run settles limit fn fuel turn inflight queue done_ failure w = (Some (done', failure'), w') ∧
    working items w0 [] queue' done' failure' w' ∧ (failure' = None → queue' = []).
Proof.
  revert turn inflight queue done_ failure w. induction fuel as [|fuel IH]; intros turn inflight queue done_ failure w Hf Hw.
  - destruct inflight, queue; cbn in Hf; try lia. exists done_, failure, [], w. destruct failure; cbn; rewrite ?take_nil; by split_and!.
  - cbn [each_run]. pose proof (refill_same inflight queue failure) as Er. destruct (refill _ inflight queue failure) as [inf q] eqn:Eref.
    cbn in Er. destruct inf as [|[i0 a0] inf'].
    + exists done_, failure, q, w. split_and!; [done| |].
      * destruct Hw as [W1 W2 W3 W4 W5]. rewrite <- Er in *. by split.
      * intros ->. cbn in Eref. injection Eref as E1 <-. destruct inflight; [|done]. cbn in *. destruct queue; [by rewrite drop_nil|].
        destruct limit; [lia|done].
    + set (inf := (i0, a0) :: inf') in *. assert (settles turn mod length inf < length inf)%nat as Hj by by apply Nat.mod_upper_bound.
      destruct (lookup_lt_is_Some_2 _ _ Hj) as [[i a] Hia]. rewrite Hia. cbn [default id].
      pose proof (delete_Permutation _ _ _ Hia) as Hperm. set (inf2 := delete _ inf) in *. clearbody inf2.
      assert (length (inf2 ++ q) <= fuel)%nat as Hf2.
      { rewrite <- Er in Hf. rewrite length_app in *. rewrite Hperm in Hf. cbn in Hf. lia. }
      destruct Hw as [W1 W2 W3 W4 W5]. rewrite <- Er in *.
      assert (items !! i = Some a) as Hi by (apply (W2 (i, a)); rewrite Hperm; by left).
      assert (∀ p, p ∈ inf2 ++ q → items !! p.1 = Some p.2) as Hrest by (intros p Hp; apply W2; rewrite Hperm; by right).
      pose proof (Hfn a w) as Ha. unfold wp in Ha. destruct (fn a w) as [[b|e] w1]; apply IH; try done.
      * destruct Ha as [Hr Hb]. split; [by etrans|done| | |done].
        -- intros p [Hp|Hp%list_elem_of_singleton]%elem_of_app; [|subst p; by eauto]. destruct (W3 p Hp) as (a' & Ha' & Hp'). eauto.
        -- intros Hn. specialize (W4 Hn). rewrite Hperm in W4. rewrite fmap_app, <- app_assoc. exact W4.
      * destruct Ha as [Hr Hx]. split; [by etrans|done| |by destruct failure|].
        -- intros p Hp. destruct (W3 p Hp) as (a' & Ha' & Hp'). eauto.
        -- intros e' He. destruct failure; [by apply W5|by simplify_eq].
Qed.

Lemma omap_seq_Forall2 {C D} (Q : C → D → Prop) (f : nat → option D) (items : list C) k :
  (∀ i a, items !! i = Some a → ∃ b, f (k + i)%nat = Some b ∧ Q a b) → Forall2 Q items (omap f (seq k (length items))).
Proof.
  revert k. induction items as [|a items IH]; intros k Hi; [constructor|]. cbn [length seq omap list_omap].
  destruct (Hi 0%nat a eq_refl) as (b & Eb & Hq). rewrite Nat.add_0_r in Eb. rewrite Eb. constructor; [done|].
  apply IH. intros i c Hc. destruct (Hi (S i) c Hc) as (d & Ed & Hd). exists d. by rewrite Nat.add_succ_comm.
Qed.

(** Whatever settles first, [eachLimited] ends: with what each item gave, in the order of the items, or with the failure of one. *)
Lemma eachLimited_wp items w :
  wp (eachLimited settles stuck limit fn items) (λ bs w', R w w' ∧ Forall2 (λ a b, P a b w') items bs) (λ e w', R w w' ∧ X e) w.
Proof.
  unfold wp, eachLimited.
  destruct (each_run_working items w (length items) 0 [] (numbered items) [] None w) as (done_ & failure & queue & w' & -> & [W1 _ W3 W4 W5] & Hq).
  { cbn. unfold numbered. by rewrite length_imap. }
  { split; [done| |by intros ? ?%elem_of_nil| |done].
    - intros p (i & a & -> & Hi)%elem_of_lookup_imap. done.
    - intros _. cbn. unfold numbered. rewrite fmap_imap. assert (imap (λ n a, fst (n, a)) items = seq 0 (length items)) as H; [|by rewrite <- H].
      assert (∀ k, imap (λ n _, (k + n)%nat) items = seq k (length items)) as Hs; [|exact (Hs 0%nat)].
      induction items as [|a items IH]; intros k; [done|]. cbn. f_equal; [lia|]. rewrite <- IH. apply imap_ext. intros; cbn; lia. }
  destruct failure as [e|]; [by eauto|]. split; [done|]. rewrite (Hq eq_refl) in W4. specialize (W4 eq_refl). rewrite app_nil_r in W4.
  apply omap_seq_Forall2. intros i a Hi. cbn [Nat.add].
  assert (i ∈ done_.*1) as ([i' b] & -> & Hb)%list_elem_of_fmap.
  { rewrite W4. apply elem_of_seq. apply lookup_lt_Some in Hi. lia. }
  exists b. cbn [fst] in *. split.
  - apply elem_of_list_to_map; [|done]. rewrite W4. apply NoDup_seq.
  - destruct (W3 _ Hb) as (a' & Ha' & Hp). cbn in *. by simplify_eq.
Qed.
End each.

(** ** The connection stays in hand *)

Section in_hand.
Context {SV : Server}.
Implicit Types w : Db.

Definition in_hand {A} (m : io Db StoreThrown A) : Prop := ∀ w, db_client (m w).2 = db_client w.

Lemma in_hand_wp {A} (m : io Db StoreThrown A) (Q : A → Db → Prop) (X : StoreThrown → Db → Prop) w : in_hand m →
  wp m Q X w → wp m (λ a w', db_client w' = db_client w ∧ Q a w') (λ e w', db_client w' = db_client w ∧ X e w') w.
Proof. intros Hm. specialize (Hm w). unfold wp. by destruct (m w) as [[a|e] w1]. Qed.
Lemma in_hand_ret {A} (a : A) : in_hand (mret a).
Proof. done. Qed.
Lemma in_hand_throw {A} e : in_hand (A := A) (throw e).
Proof. done. Qed.
Lemma in_hand_thrown {A} (r : res StoreThrown A) : in_hand (thrown r).
Proof. done. Qed.
Lemma in_hand_bind {A B} (m : io Db StoreThrown A) (f : A → io Db StoreThrown B) : in_hand m → (∀ a, in_hand (f a)) → in_hand (m ≫= f).
Proof.
  intros Hm Hf w. specialize (Hm w). unfold mbind, io_mbind. destruct (m w) as [[a|e] w1]; cbn in *; [|done]. by rewrite Hf.
Qed.
Lemma in_hand_catch {A} (m : io Db StoreThrown A) f : in_hand m → (∀ e, in_hand (f e)) → in_hand (try_catch m f).
Proof.
  intros Hm Hf w. specialize (Hm w). unfold try_catch. destruct (m w) as [[a|e] w1]; cbn in *; [done|]. by rewrite Hf.
Qed.
Lemma in_hand_exchange {A} (step : nat → Db → res DbError A * Db) : (∀ n w, db_client (step n w).2 = db_client w) → in_hand (exchange step).
Proof.
  intros Hs w. unfold exchange. destruct (db_lost w); [done|]. destruct (sv_fate _) as [|e|[] e]; cbn; [|done| |done].
  - match goal with |- context [step ?n ?w] => specialize (Hs n w); destruct (step n w) as [[a|e] w1] end; exact Hs.
  - by rewrite Hs.
Qed.
Lemma in_hand_query {A} (s : Stmt A) : in_hand (query s).
Proof.
  apply in_hand_exchange. intros n w. unfold run_stmt. destruct (db_tx w) as [tx|]; [destruct (tx_aborted tx)|]; [done|..];
    by destruct (s n _) as [[??]?].
Qed.
Lemma in_hand_begin i : in_hand (begin_ i).
Proof. by apply in_hand_exchange. Qed.
Lemma in_hand_commit : in_hand commit.
Proof. apply in_hand_exchange. intros n w. by destruct (db_tx w). Qed.
Lemma in_hand_rollback : in_hand rollback.
Proof. intros w. unfold rollback. destruct (db_lost w); [done|]. by destruct (sv_fate _). Qed.
Lemma in_hand_mapM {A B} (f : A → io Db StoreThrown B) l : (∀ a, in_hand (f a)) → in_hand (io_mapM f l).
Proof.
  intros Hf. induction l as [|a l IH]; cbn [io_mapM]; [done|]. apply in_hand_bind; [done|]. intros b. apply in_hand_bind; [done|]. done.
Qed.
End in_hand.

Create HintDb in_hand discriminated.
#[export] Hint Resolve in_hand_ret in_hand_throw in_hand_thrown in_hand_query in_hand_begin in_hand_commit in_hand_rollback : in_hand.
Ltac steadily :=
  repeat first
    [ progress intros
    | solve [auto with in_hand nocore]
    | apply in_hand_bind | apply in_hand_catch | apply in_hand_mapM
    | match goal with
      | |- in_hand (if ?b then _ else _) => destruct b
      | |- in_hand (match ?x with _ => _ end) => destruct x
      | |- in_hand (or_rollback _) => unfold or_rollback, quiet_rollback
      | |- in_hand (select _) => unfold select
      end ].

Section keeps.
Context {SV : Server} (json_parse : str → json + str) (schema : option str → json → option (list ErrorObject)) (sha256 : bytes → bytes) (no_files : FileSystem).

Lemma recordBlobs_steady blobs : in_hand (recordBlobs blobs).
Proof. unfold recordBlobs. steadily. Qed.
Lemma relateBlobs_steady k blobs : in_hand (relateBlobs k blobs).
Proof. unfold relateBlobs. steadily. Qed.
Lemma insertLines_steady k lines : in_hand (insertLines k lines).
Proof. unfold insertLines. steadily. Qed.
Lemma recordRetention_steady k e : in_hand (recordRetention k e).
Proof. unfold recordRetention. steadily. Qed.
Lemma replaceQueryIndex_steady k d f : in_hand (replaceQueryIndex k d f).
Proof. unfold replaceQueryIndex. steadily. Qed.
Lemma readStoredRun_steady k : in_hand (readStoredRun k).
Proof. unfold readStoredRun. steadily. Qed.
Lemma storedFingerprint_steady k a : in_hand (storedFingerprint sha256 k a).
Proof. unfold storedFingerprint. steadily. Qed.
#[local] Hint Resolve recordBlobs_steady relateBlobs_steady insertLines_steady recordRetention_steady replaceQueryIndex_steady
  readStoredRun_steady storedFingerprint_steady : in_hand.
Lemma repairStoredIndex_steady k : in_hand (repairStoredIndex json_parse schema sha256 no_files k).
Proof. unfold repairStoredIndex. steadily. Qed.
#[local] Hint Resolve repairStoredIndex_steady : in_hand.
Lemma knownRun_steady k archive expires : in_hand (knownRun json_parse schema sha256 no_files k archive expires).
Proof. unfold knownRun, complete_known. steadily. Qed.
Lemma archiveWithin_steady projectId locator archive published expiresAt index :
  in_hand (archiveWithin json_parse schema sha256 no_files projectId locator archive published expiresAt index).
Proof. unfold archiveWithin, archive_transaction, complete_stored, write_claimed. steadily. Qed.
End keeps.

(** ** Blobs made durable *)

Section durable.
Context {D : Type} (root : str) `{BlobDiskLaws D root} (sha256 : bytes → bytes) (maxBlobBytes : Z) (settles : nat → nat).
Implicit Types d : D.

Lemma since_refl d : since root d [] d.
Proof. by apply calm_since. Qed.
Lemma since_trans d1 d2 d3 : since root d1 [] d2 → since root d2 [] d3 → since root d1 [] d3.
Proof.
  intros [P1 S1 F1] [P2 S2 F2]. split; [by etrans| |by intros f ?%elem_of_nil]. intros f Hf. by rewrite S2, S1.
Qed.
#[local] Instance since_preorder : PreOrder (λ d d', since root d [] d').
Proof. split; [exact since_refl|exact since_trans]. Qed.

(** The store holds what a descriptor describes. *)
Definition durable_blob d (b : BlobDescriptor) : Prop := holds root (sha256_hex sha256) d (bl_sha256 b) (bl_sizeBytes b).
Definition answers (r : RequiredBlob) (b : BlobDescriptor) : Prop := bl_sha256 b = rb_sha256 r ∧ bl_sizeBytes b = rb_sizeBytes r.

Lemma durable_since d d' b : since root d [] d' → durable_blob d b → durable_blob d' b.
Proof. intros S. apply holds_preserved, S. Qed.

Lemma materialise_one_wp attachments r d :
  wp (materialise_one sha256 root maxBlobBytes attachments r) (λ b d', since root d [] d' ∧ answers r b ∧ durable_blob d' b)
    (λ e d', since root d [] d' ∧ e ≠ Unending) d.
Proof.
  unfold materialise_one. destruct (isSha256 _); cbn [negb]; [|apply wp_throw; split; [apply since_refl|done]].
  apply wp_bind. eapply wp_mono; [apply (put_wp root)| |intros e d' [He S]; exact (conj S He)].
  intros p d' (S & size & Es & _ & Eb & Hh). apply wp_ret. split; [done|]. rewrite Eb. cbn in Es.
  destruct (_ && _) in Es; [|done]. injection Es as <-. done.
Qed.

Lemma materialiseBlobs_wp directory required d :
  wp (materialiseBlobs sha256 root maxBlobBytes settles directory required)
    (λ published d', since root d [] d' ∧ Forall2 (λ r b, answers r b ∧ durable_blob d' b) required published) (λ e d', since root d [] d' ∧ e ≠ Unending) d.
Proof.
  unfold materialiseBlobs. destruct required as [|r rs]; [apply wp_ret; split; [apply since_refl|constructor]|]. set (required := r :: rs). clearbody required.
  apply wp_bind. unfold stat_if_there. apply wp_catch, wp_bind.
  assert (∀ d', calm root d d' → since root d [] d') as Hc by (intros d'; apply calm_since).
  pose proof (bl_lstat (root := root) (path_join directory (js "attachments")) d) as Hq. unfold wp at 1.
  destruct (sys_lstat _ d) as [[st|e] d1]; cbn in Hq.
  - apply wp_ret. destruct (bool_decide _); [|by apply wp_throw; auto].
    eapply wp_mono; [eapply (eachLimited_wp settles Unending _ _ (λ d d', since root d [] d') (λ r b d', answers r b ∧ durable_blob d' b) (λ e, e ≠ Unending))| |].
    + unfold MATERIALISE_CONCURRENCY. lia.
    + intros a b d2 d3 S [? ?]. split; [done|]. by eapply durable_since.
    + intros a d2. apply materialise_one_wp.
    + intros bs d2 [S F]. split; [|done]. by eapply since_trans; [apply Hc|].
    + intros e d2 [S F]. split; [|done]. by eapply since_trans; [apply Hc|].
  - destruct e; cbn; auto.
Qed.

(** ** Under the ingestion lock *)

Context {SV : Server} {SL : ServerLaws}.
Context (json_parse : str → json + str) (schema : option str → json → option (list ErrorObject)) (no_files : FileSystem).

(** A run archived with every blob it needs in the store, and a run completed with blobs that are. *)
Definition archived_durably (k : Key) locator archive expires index sequence t1 t2 d : Prop :=
  ∃ blobs, Archived k archive locator blobs expires index sequence t1 t2 ∧ Forall2 (λ r b, answers r b ∧ durable_blob d b) (ra_requiredBlobs archive) blobs.
Definition completed_durably (k : Key) expires t1 t2 d : Prop :=
  ∃ blobs, Completed k (bl_sha256 <$> blobs) expires t1 t2 ∧ Forall (durable_blob d) blobs.

(** What an ingestion that began with the tables [t0] says of the tables [t'] and the store [d] it leaves. *)
Definition ingested t0 (k : Key) locator archive expires index (r : res StoreThrown PersistResult) (t' : Tables) d : Prop :=
  match r with
  | Ok (Inserted runId sequence) =>
      runId = ra_runId archive ∧ ∃ t1, drift t0 t1 ∧ archived_durably k locator archive expires index sequence t1 t' d
  | Ok (AlreadyPresent runId sequence _ _ _) =>
      runId = ra_runId archive ∧ ∃ t1, drift t0 t1 ∧ fingerprint_of sha256 k archive t1 = Some (ra_contentFingerprint archive, sequence) ∧
      completed_durably k expires t1 t' d
  | Ok (Conflict runId stored offered) =>
      runId = ra_runId archive ∧ offered = ra_contentFingerprint archive ∧ stored ≠ offered ∧ drift t0 t' ∧
      ∃ sequence, fingerprint_of sha256 k archive t' = Some (stored, sequence)
  | Ok (Rejected _ _ _) => False
  | Throw _ => drift t0 t' ∨ ∃ t1, drift t0 t1 ∧
      ((∃ sequence, archived_durably k locator archive expires index sequence t1 t' d) ∨ completed_durably k expires t1 t' d)
  end.

Lemma told_known t0 k locator archive expires index r t' d :
  told t0 sha256 k locator archive [] expires index r t' → (∀ runId sequence, r ≠ Inserted runId sequence) →
  ingested t0 k locator archive expires index (Ok r) t' d.
Proof.
  intros Ht Hr. destruct r as [runId sequence|runId sequence n kept rebuilt|reason runId ds|runId stored offered]; [by edestruct Hr| |done|done].
  destruct Ht as (-> & t1 & Hd & Hf & _ & HC). split; [done|]. exists t1. split_and!; [done..|]. by exists [].
Qed.

Lemma coveredBlobs_durable required published blobs d : coveredBlobs required published = Ok blobs →
  Forall2 (λ r b, answers r b ∧ durable_blob d b) required published → Forall2 (λ r b, answers r b ∧ durable_blob d b) required blobs.
Proof.
  intros Hc%coveredBlobs_Ok Hp. eapply Forall2_impl; [exact Hc|]. intros r b (Hb & E1 & E2). split; [done|].
  apply list_elem_of_lookup_1 in Hb as [i Hi]. by destruct (Forall2_lookup_r _ _ _ _ _ Hp Hi) as (r' & _ & _ & ?).
Qed.

Lemma told_archive t0 k locator archive blobs expires index r t' d :
  told t0 sha256 k locator archive blobs expires index r t' → Forall2 (λ r b, answers r b ∧ durable_blob d b) (ra_requiredBlobs archive) blobs →
  ingested t0 k locator archive expires index (Ok r) t' d.
Proof.
  intros Ht Hb. assert (Forall (durable_blob d) blobs) as Hd.
  { clear -Hb. induction Hb as [|??? ? [_ ?] _ IH]; constructor; auto. }
  destruct r as [runId sequence|runId sequence n kept rebuilt|reason runId ds|runId stored offered]; [| |done|done].
  - destruct Ht as (-> & t1 & Ht1 & HA). split; [done|]. exists t1. split; [done|]. by exists blobs.
  - destruct Ht as (-> & t1 & Ht1 & Hf & _ & HC). split; [done|]. exists t1. split_and!; [done..|]. by exists blobs.
Qed.

Implicit Types w : PgWorld D.

Lemma on_db_wp {A} (m : io Db StoreThrown A) (Q : A → PgWorld D → Prop) (X : StoreThrown → PgWorld D → Prop) w :
  wp m (λ a b, Q a {| w_db := b; w_disk := w_disk w |}) (λ e b, X e {| w_db := b; w_disk := w_disk w |}) (w_db w) → wp (on_db m) Q X w.
Proof. unfold wp, on_db. by destruct (m (w_db w)) as [[a|e] b]. Qed.
Lemma on_disk_wp {E A} (f : E → StoreThrown) (m : io D E A) (Q : A → PgWorld D → Prop) (X : StoreThrown → PgWorld D → Prop) w :
  wp m (λ a d, Q a {| w_db := w_db w; w_disk := d |}) (λ e d, X (f e) {| w_db := w_db w; w_disk := d |}) (w_disk w) → wp (on_disk f m) Q X w.
Proof. unfold wp, on_disk. by destruct (m (w_disk w)) as [[a|e] d]. Qed.

Lemma ingest_locked_wp projectId directory locator archive expires index w :
  holding Shared (w_db w) → referential (db_tables (w_db w)) →
  let after r w' := tidy Shared (w_db w') ∧ since root (w_disk w) [] (w_disk w') ∧
    ingested (db_tables (w_db w)) (projectId, ra_runId archive) locator archive expires index r (db_tables (w_db w')) (w_disk w') in
  wp (ingest_locked json_parse schema sha256 no_files root maxBlobBytes settles projectId directory locator archive expires index)
    (λ a, after (Ok a)) (λ e, after (Throw e)) w.
Proof.
  intros (Hlive & Htx & Hle & Hcl) Href after. destruct w as [b d]. cbn [w_db w_disk] in *. set (t0 := db_tables b) in *.
  assert (Shared ∈ [Shared]) as Hsh by by left.
  unfold ingest_locked. apply wp_bind, on_db_wp. cbn [w_db w_disk].
  eapply wp_mono; [apply in_hand_wp; [apply knownRun_steady|eapply (knownRun_wp t0 [Shared] Hsh json_parse schema sha256 no_files _ locator archive expires index); [split; try done; by rewrite Hle|done]]| |].
  2: { intros e b1 (Hc & Hs & Htx1 & Hw). split; [split; [naive_solver|cbn; congruence]|]. split; [apply since_refl|]. cbn.
       destruct Hw as [|(t1 & ? & ?)]; [by left|]. right. exists t1. split; [done|]. right. by exists []. }
  intros o b1 (Hc & Hlive1 & Htx1 & Hle1 & Hw). destruct o as [r|].
  { apply wp_ret. split; [split; [auto|cbn; congruence]|]. split; [apply since_refl|]. destruct Hw as [Ht Hn]. exact (told_known _ _ _ _ _ _ _ _ _ Ht Hn). }
  apply wp_bind, on_disk_wp. cbn [w_db w_disk]. eapply wp_mono; [apply materialiseBlobs_wp| |].
  2: { intros e d1 [S _]. split; [split; [auto|cbn; congruence]|]. split; [done|]. by left. }
  intros published d1 [S Hp]. apply on_db_wp. cbn [w_db w_disk].
  eapply wp_mono; [apply in_hand_wp; [apply archiveWithin_steady|eapply (archiveWithin_wp t0 [Shared] Hsh); [split; try done; by rewrite Hle1|done..]]| |].
  - intros r b2 (Hc2 & Hlive2 & Htx2 & Hle2 & blobs & ex & [= <-] & Hcov & Ht). split; [split; [auto|cbn; congruence]|]. split; [done|].
    eapply told_archive; [done|]. by eapply coveredBlobs_durable.
  - intros e b2 (Hc2 & Hs2 & Htx2 & Hw2). split; [split; [naive_solver|cbn; congruence]|]. split; [done|]. cbn.
    destruct Hw2 as [|(blobs & ex & [= <-] & Hcov & [|(_ & t1 & Hd1 & HA)])]; [by left..|]. right. exists t1. split; [done|].
    pose proof (coveredBlobs_durable _ _ _ d1 Hcov Hp) as Hb.
    destruct HA as [[sequence HA]|HC]; [left; exists sequence|right]; exists blobs; (split; [done|]); [done|].
    clear -Hb. induction Hb as [|??? ? [_ ?] _ IH]; constructor; auto.
Qed.
End durable.

(** ** Taking the lock and giving it back *)

Section locking.
Context {SV : Server} {SL : ServerLaws}.

(** The work of other sessions, whatever they hold. *)
Definition others : Tables → Tables → Prop := rtc (λ t t', ∃ n leases ls, t' = sv_others n leases ls t).
#[export] Instance others_preorder : PreOrder others.
Proof. unfold others. apply _. Qed.

Lemma others_once n leases ls t : others t (sv_others n leases ls t).
Proof. apply rtc_once. by exists n, leases, ls. Qed.
Lemma others_keep_referential t t' : others t t' → referential t → referential t'.
Proof. induction 1 as [|t t1 t' (n & leases & ls & ->) _ IH]; [done|]. intros Hr. by apply IH, others_referential. Qed.
Lemma drift_others_work t t' : drift t t' → others t t'.
Proof. intros H. eapply rtc_subrel; [|exact H]. intros x y (n & leases & ls & _ & ->). by exists n, leases, ls. Qed.

Lemma exchange_others {A} (step : nat → Db → res DbError A * Db) (w : Db) :
  (∀ n w, db_tables (step n w).2 = db_tables w) → others (db_tables w) (db_tables (exchange step w).2).
Proof.
  intros Hs. unfold exchange. destruct (db_lost w); [done|]. pose proof (others_once (db_tick w) (db_leases w) (locks w) (db_tables w)) as Ho.
  destruct (sv_fate _) as [|e|[] e]; cbn; [|done| |done].
  - match goal with |- context [step ?n ?w] => pose proof (Hs n w) as E; destruct (step n w) as [[a|e] w1] end; cbn in *; by rewrite E.
  - by rewrite Hs.
Qed.

(** Steps that write nothing, with a transaction open or not: all that happens is the work of others. *)
Definition unwritten (b : Db) : Prop := match db_tx b with Some tx => ∀ t, tx_writes tx t = t | None => True end.
Definition writes_nothing {A} (m : io Db StoreThrown A) : Prop :=
  ∀ b, unwritten b → others (db_tables b) (db_tables (m b).2) ∧ unwritten (m b).2.

Lemma writes_nothing_ret {A} (a : A) : writes_nothing (mret a).
Proof. by intros b. Qed.
Lemma writes_nothing_throw {A} e : writes_nothing (A := A) (throw e).
Proof. by intros b. Qed.
Lemma writes_nothing_bind {A B} (m : io Db StoreThrown A) (f : A → io Db StoreThrown B) :
  writes_nothing m → (∀ a, writes_nothing (f a)) → writes_nothing (m ≫= f).
Proof.
  intros Hm Hf b Hb. destruct (Hm b Hb) as [Ho Hu]. unfold mbind, io_mbind. destruct (m b) as [[a|e] b1]; [|done].
  destruct (Hf a b1 Hu) as [Ho' Hu']. split; [by etrans|done].
Qed.
Lemma writes_nothing_catch {A} (m : io Db StoreThrown A) f : writes_nothing m → (∀ e, writes_nothing (f e)) → writes_nothing (try_catch m f).
Proof.
  intros Hm Hf b Hb. destruct (Hm b Hb) as [Ho Hu]. unfold try_catch. destruct (m b) as [[a|e] b1]; [done|].
  destruct (Hf e b1 Hu) as [Ho' Hu']. split; [by etrans|done].
Qed.
Lemma writes_nothing_exchange {A} (step : nat → Db → res DbError A * Db) :
  (∀ n b, unwritten b → db_tables (step n b).2 = db_tables b ∧ unwritten (step n b).2) → writes_nothing (exchange step).
Proof.
  intros Hs b Hb. unfold exchange. destruct (db_lost b); [done|]. pose proof (others_once (db_tick b) (db_leases b) (locks b) (db_tables b)) as Ho.
  assert (∀ b1 : Db, unwritten b1 → unwritten (abort b1)) as Habort by (intros b1; unfold unwritten, abort; cbn; by destruct (db_tx b1)).
  destruct (sv_fate _) as [|e|[] e].
  - match goal with |- context [step ?n ?w] => destruct (Hs n w Hb) as [E Hu]; destruct (step n w) as [[a|e] w1] end; cbn [snd] in E, Hu |- *; (split; [|by auto]).
    + rewrite E. exact Ho.
    + change (db_tables (abort w1)) with (db_tables w1). rewrite E. exact Ho.
  - split; [done|]. by apply Habort.
  - cbn. match goal with |- context [step ?n ?w] => destruct (Hs n w Hb) as [E Hu] end. rewrite E. done.
  - done.
Qed.

Lemma select_writes_nothing {A} (f : Tables → A) : writes_nothing (select f).
Proof.
  apply writes_nothing_exchange. intros n b Hb. unfold run_stmt, unwritten in *. destruct (db_tx b) as [tx|] eqn:E; [|cbn; by rewrite E].
  destruct (tx_aborted tx); cbn; [by rewrite E|done].
Qed.
Lemma advisory_lock_writes_nothing lease : writes_nothing (advisory_lock lease).
Proof. apply writes_nothing_exchange. intros n b Hb. by destruct (match db_tx b with Some _ => _ | None => _ end). Qed.
Lemma advisory_unlock_writes_nothing lease : writes_nothing (advisory_unlock lease).
Proof. apply writes_nothing_exchange. intros n b Hb. by destruct (match db_tx b with Some _ => _ | None => _ end). Qed.
Lemma commit_writes_nothing : writes_nothing commit.
Proof.
  apply writes_nothing_exchange. intros n b Hb. unfold unwritten in *. destruct (db_tx b) as [tx|] eqn:E; cbn; [|by rewrite E].
  split; [|done]. by destruct (tx_aborted tx).
Qed.
Lemma rollback_writes_nothing : writes_nothing rollback.
Proof.
  intros b Hb. unfold rollback. destruct (db_lost b); [done|]. pose proof (others_once (db_tick b) (db_leases b) (locks b) (db_tables b)) as Ho.
  by destruct (sv_fate _).
Qed.

Lemma acquireLock_writes_nothing lease timeout : writes_nothing (acquireLock lease timeout).
Proof.
  unfold acquireLock. destruct timeout as [ms|]; [|apply advisory_lock_writes_nothing].
  apply writes_nothing_bind; [by apply writes_nothing_exchange|]. intros _. unfold or_rollback, quiet_rollback.
  apply writes_nothing_catch.
  - apply writes_nothing_bind; [apply select_writes_nothing|]. intros _.
    apply writes_nothing_bind; [apply advisory_lock_writes_nothing|intros _; apply commit_writes_nothing].
  - intros e. apply writes_nothing_bind; [|intros; apply writes_nothing_throw].
    apply writes_nothing_catch; [apply rollback_writes_nothing|intros; apply writes_nothing_ret].
Qed.
Lemma releaseLock_others lease (b : Db) : tidy lease b → others (db_tables b) (db_tables (releaseLock lease b)).
Proof.
  intros [Hs _]. unfold releaseLock. destruct (db_lost b) eqn:Hl.
  - unfold advisory_unlock, exchange. by rewrite Hl.
  - destruct Hs as [?|[Htx _]]; [done|]. destruct (advisory_unlock_writes_nothing lease b) as [Ho _]; [unfold unwritten; by rewrite Htx|].
    by destruct (advisory_unlock lease b) as [[[]|e] b1].
Qed.

Lemma connect_cases (b : Db) r b' : connect b = (r, b') → others (db_tables b) (db_tables b') ∧
  match r with Ok _ => db_tx b' = None ∧ db_leases b' = [] ∧ db_client b' = InHand | Throw _ => db_client b' = db_client b end.
Proof.
  unfold connect. pose proof (others_once (db_tick b) [] [] (db_tables b)) as Ho. destruct (sv_fate _); intros [= <- <-]; done.
Qed.

Context {D : Type}.
Implicit Types w : PgWorld D.

(** The work of [withLock] is done once on a session that has just been given the lease, or nothing was done; before and after
    there is only the work of others. *)
Lemma withLock_cases {A} lease timeout (fn : io (PgWorld D) StoreThrown A) w r w' :
  db_client (w_db w) = NotConnected → withLock lease timeout fn w = (r, w') →
  (∃ e, r = Throw e ∧ w_disk w' = w_disk w ∧ others (db_tables (w_db w)) (db_tables (w_db w')) ∧ db_client (w_db w') ≠ Pooled) ∨
  ∃ w1 w2, holding lease (w_db w1) ∧ others (db_tables (w_db w)) (db_tables (w_db w1)) ∧ w_disk w1 = w_disk w ∧ fn w1 = (r, w2) ∧
    w_disk w' = w_disk w2 ∧ (tidy lease (w_db w2) → others (db_tables (w_db w2)) (db_tables (w_db w'))) ∧
    (tidy lease (w_db w2) → db_client (w_db w') = Pooled → db_leases (w_db w') = [] ∧ db_tx (w_db w') = None).
Proof.
  intros Hc. unfold withLock, mbind, io_mbind, on_db. destruct (connect (w_db w)) as [[[]|e] b1] eqn:Ec; apply connect_cases in Ec as [Ho1 Hcl].
  2: { intros [= <- <-]. left. exists e. cbn. split_and!; [done..|]. by rewrite Hcl, Hc. }
  destruct Hcl as (Htx & Hle & Hcl). cbn [w_db w_disk].
  destruct (acquireLock_writes_nothing lease timeout b1) as [Ho2 _]; [unfold unwritten; by rewrite Htx|].
  pose proof (acquireLock_Ok lease timeout b1) as Ha. unfold try_catch at 1.
  destruct (acquireLock lease timeout b1) as [[[]|e] b2].
  - specialize (Ha b2 eq_refl Htx Hle Hcl). unfold try_finally. destruct (fn _) as [r2 w2] eqn:Ef. intros [= <- <-]. right.
    exists {| w_db := b2; w_disk := w_disk w |}, w2. split_and!; [done| |done|done|done|apply releaseLock_others|apply releaseLock_clean].
    etrans; [exact Ho1|exact Ho2].
  - cbn. intros [= <- <-]. left. eexists. split_and!; [done..| |done]. etrans; [exact Ho1|exact Ho2].
Qed.
End locking.

(** ** Persisting a run directory *)

Section persist.
Context {D : Type} (root : str) `{BlobDiskLaws D root} {SV : Server} {SL : ServerLaws}.
Context (json_parse : str → json + str) (schema : option str → json → option (list ErrorObject)) (sha256 : bytes → bytes) (no_files : FileSystem).
Context (maxBlobBytes : Z) (settles : nat → nat) (directory : D → FileSystem).
Implicit Types w : PgWorld D.

(** What the validation of a run directory gives, its file names made relative when a locator stands for the path. *)
Definition snapshot_of runDirectory (sourceLocator : option str) w validated : Prop :=
  ∃ snapshot, snapshot_directory json_parse schema sha256 directory runDirectory w = (Ok snapshot, w) ∧
    match sourceLocator with None => validated = snapshot | Some _ => relativeTo runDirectory snapshot = Ok validated end.

(** C4 A run directory is archived whole and durably or not at all: whatever the server, the file system, the other writers and
    the order the copies settle in do, [persistRunDirectory] either asks nothing of the database — an argument, the
    directory or the run is refused — or all it ever adds, between the work of others, is one step that archives or completes the run of the
    valid directory, with its expiry and the index derived from it, and every blob that step refers to lies in the store under its
    hash with its size. The answer says which: [Inserted], [AlreadyPresent] and [Conflict] are true of the tables; after an
    exception it is the step or nothing. Objects of the store stay as they were, and a connection back in the pool is clean. *)
Theorem persist_archives_whole_and_durable projectId runDirectory expiresAt sourceLocator w r w' :
  db_client (w_db w) = NotConnected → referential (db_tables (w_db w)) →
  persistRunDirectory json_parse schema sha256 no_files root maxBlobBytes settles directory projectId runDirectory expiresAt sourceLocator w = (r, w') →
  preserved root (w_disk w) (w_disk w') ∧
  (db_client (w_db w') = Pooled → db_leases (w_db w') = [] ∧ db_tx (w_db w') = None) ∧
  (w' = w ∧ (∀ a, r = Ok a → ∃ validated, snapshot_of runDirectory sourceLocator w validated ∧ rejection validated = Some a) ∨
   ∃ expires validated archive index t0 t1,
     expiresAt = Some expires ∧ snapshot_of runDirectory sourceLocator w validated ∧ rejection validated = None ∧
     buildArchive sha256 validated = Ok archive ∧ derive_index sha256 projectId (default runDirectory sourceLocator) validated = Ok index ∧
     others (db_tables (w_db w)) t0 ∧ others t1 (db_tables (w_db w')) ∧
     ingested root sha256 t0 (projectId, ra_runId archive) (default runDirectory sourceLocator) archive expires index r t1 (w_disk w')).
Proof.
  intros Hc Href.
  assert (∀ G e, (Throw e, w) = (r, w') → preserved root (w_disk w) (w_disk w') ∧
    (db_client (w_db w') = Pooled → db_leases (w_db w') = [] ∧ db_tx (w_db w') = None) ∧
    (w' = w ∧ (∀ a, r = Ok a → ∃ validated, snapshot_of runDirectory sourceLocator w validated ∧ rejection validated = Some a) ∨ G)) as Hx.
  { intros G e [= <- <-]. rewrite Hc. split_and!; [done..|]. by left. }
  unfold persistRunDirectory, pure_, mbind, io_mbind. destruct (checkProjectId projectId) as [[]|m]; [|intros E; by eapply Hx].
  destruct (checkExpiresAt expiresAt) as [expires|e] eqn:Ee; [|intros E; by eapply Hx].
  destruct (checkSourceLocator sourceLocator) as [given|e] eqn:El; [|intros E; by eapply Hx].
  assert (given = sourceLocator) as ->.
  { unfold checkSourceLocator in El. destruct sourceLocator; [|by injection El as <-]. destruct (_ || _); [done|by injection El as <-]. }
  destruct (snapshot_directory _ _ _ directory runDirectory w) as [[snapshot|e] w0] eqn:Es.
  2: { assert (w0 = w) as -> by (unfold snapshot_directory in Es; by injection Es). intros E. by eapply Hx. }
  assert (w0 = w) as -> by (unfold snapshot_directory in Es; by injection Es).
  destruct (match sourceLocator with None => Ok snapshot | Some _ => relativeTo runDirectory snapshot end) as [validated|e] eqn:Ev;
    [|intros E; by eapply Hx].
  assert (snapshot_of runDirectory sourceLocator w validated) as Hsnap.
  { exists snapshot. split; [done|]. destruct sourceLocator; [done|congruence]. }
  destruct (rejection validated) as [a|] eqn:Er.
  { intros [= <- <-]. rewrite Hc. split_and!; [done..|]. left. split; [done|]. intros ? [= <-]. eauto. }
  destruct (buildArchive sha256 validated) as [archive|e] eqn:Ea; [|intros E; by eapply Hx].
  destruct (derive_index _ _ _ validated) as [index|e] eqn:Ei; [|intros E; by eapply Hx].
  assert (expiresAt = Some expires) as Hexp by (unfold checkExpiresAt in Ee; by destruct expiresAt; simplify_eq).
  unfold withIngestionLock. intros E. apply withLock_cases in E as [(e & -> & Hd & Ho & Hp)|(w1 & w2 & Hh & Ho1 & Hd1 & Ef & Hd2 & Ho2 & Hp)]; [..|done].
  - rewrite Hd. split_and!; [done..|]. right. exists expires, validated, archive, index, (db_tables (w_db w)), (db_tables (w_db w)).
    split_and!; [done..|]. by left.
  - pose proof (ingest_locked_wp root sha256 maxBlobBytes settles json_parse schema no_files projectId runDirectory (default runDirectory sourceLocator)
      archive expires index w1 Hh (others_keep_referential _ _ Ho1 Href)) as Hw. unfold wp in Hw. rewrite Ef in Hw.
    assert (tidy Shared (w_db w2) ∧ since root (w_disk w1) [] (w_disk w2) ∧
      ingested root sha256 (db_tables (w_db w1)) (projectId, ra_runId archive) (default runDirectory sourceLocator) archive expires index r
        (db_tables (w_db w2)) (w_disk w2)) as (Ht & [Hpres _ _] & Hi) by by destruct r.
    specialize (Ho2 Ht). rewrite Hd2, <- Hd1. split_and!; [done|by apply Hp|]. right.
    exists expires, validated, archive, index, (db_tables (w_db w1)), (db_tables (w_db w2)). by split_and!.
Qed.
End persist.

(** ** Reading an archived run back

    [loadStoredRun] reads one state of the database, whatever is written in the
    meantime, and in every later state that keeps what is archived it finds what
    was archived: the lines in storage order, byte for byte, with what was
    recorded of them. *)

(** ** One snapshot *)

(** The run as it is in one state of the tables. *)
Definition stored_at (k : Key) (t : Tables) : option StoredRun :=
  (λ h, stored_run k h.1 h.2 (read_lines k t) (read_blobs k t)) <$> read_head k t.

Section snapshot.
Context {SV : Server} {SL : ServerLaws}.
Implicit Types w : Db.

Lemma exchange_ran {A} (step : nat → Db → res DbError A * Db) w a w' : exchange step w = (Ok a, w') →
  ∃ t, others (db_tables w) t ∧ step (db_tick w) (w <| db_tables := t |> <| db_tick := S (db_tick w) |>) = (Ok a, w').
Proof.
  unfold exchange. destruct (db_lost w); [done|]. pose proof (others_once (db_tick w) (db_leases w) (locks w) (db_tables w)) as Ho.
  destruct (sv_fate _) as [|e|ex e]; [|done..]. destruct (step _ _) as [[b|e] w1] eqn:E; [|done]. intros [= -> ->]. eauto.
Qed.

(** A transaction that has read [s] and written nothing. *)
Definition reading (s : Tables) w : Prop :=
  ∃ tx, db_tx w = Some tx ∧ tx_isolation tx = RepeatableRead (Some s) ∧ tx_aborted tx = false ∧ ∀ t, tx_writes tx t = t.

Lemma select_reading {A} (f : Tables → A) s w a w' : reading s w → select f w = (Ok a, w') → a = f s ∧ reading s w'.
Proof.
  intros (tx & Htx & Hi & Hab & Hu) E. apply exchange_ran in E as (t & _ & E). unfold run_stmt in E. cbn in E. rewrite Htx, Hab in E.
  unfold sight in E. rewrite Hi, Hu in E. cbn in E. injection E as <- <-. split; [done|]. eexists. cbn. split_and!; [done..|]. exact Hu.
Qed.

(** The transaction's first statement decides what it reads. *)
Lemma select_first {A} (f : Tables → A) w a w' tx : db_tx w = Some tx → tx_isolation tx = RepeatableRead None → tx_aborted tx = false →
  (∀ t, tx_writes tx t = t) → select f w = (Ok a, w') → ∃ s, others (db_tables w) s ∧ a = f s ∧ reading s w'.
Proof.
  intros Htx Hi Hab Hu E. apply exchange_ran in E as (t & Ho & E). unfold run_stmt in E. cbn in E. rewrite Htx, Hab in E.
  unfold sight in E. rewrite Hi, Hu in E. cbn in E. injection E as <- <-. exists t. split_and!; [done..|]. eexists. cbn. split_and!; [done..|]. exact Hu.
Qed.

Lemma readStoredRun_first k w o w' tx : db_tx w = Some tx → tx_isolation tx = RepeatableRead None → tx_aborted tx = false →
  (∀ t, tx_writes tx t = t) → readStoredRun k w = (Ok o, w') → ∃ s, others (db_tables w) s ∧ o = stored_at k s ∧ reading s w'.
Proof.
  intros Htx Hi Hab Hu E. unfold readStoredRun in E. apply bind_Ok in E as (h & w1 & E1 & E).
  apply (select_first _ _ _ _ tx) in E1 as (s & Ho & -> & H1); [|done..]. exists s. split; [done|]. unfold stored_at.
  destruct (read_head k s) as [[head expires]|]; [|by injection E as <- <-].
  apply bind_Ok in E as (lines & w2 & E2 & E). apply (select_reading _ s) in E2 as [-> H2]; [|done].
  apply bind_Ok in E as (blobs & w3 & E3 & E). apply (select_reading _ s) in E3 as [-> H3]; [|done]. by injection E as <- <-.
Qed.

(** C10 A stored run is read from one state of the database: whatever other writers commit between its statements, what [loadStoredRun]
    answers is the run as it stood at one moment after the call began — its head, its lines, its expiry and its blobs never of two states —
    and the connection goes back to the pool with no transaction; if anything fails the caller gets the error and the connection is destroyed. *)
Theorem loadStoredRun_reads_one_state projectId runId w r w' :
  loadStoredRun projectId runId w = (r, w') →
  match r with
  | Ok stored => (∃ s, others (db_tables w) s ∧ stored = stored_at (projectId, runId) s) ∧ db_client w' = Pooled ∧ db_tx w' = None
  | Throw _ => db_client w' = Destroyed ∨ db_client w' = db_client w
  end.
Proof.
  unfold loadStoredRun, thrown, mbind, io_mbind. destruct (checkProjectId projectId) as [[]|m]; [|intros [= <- <-]; by right].
  destruct (connect w) as [[[]|e] w1] eqn:Ec; apply connect_cases in Ec as [Ho Hc].
  2: { intros [= <- <-]. by right. }
  unfold try_catch. destruct (load_reads _ w1) as [[stored|e] w2] eqn:El.
  2: { unfold mbind, io_mbind, quiet_rollback, try_catch. destruct (rollback w2) as [[[]|e'] w3]; intros [= <- <-]; by left. }
  intros [= <- <-]. unfold load_reads in El. apply bind_Ok in El as ([] & w3 & Eb & El). apply exchange_ran in Eb as (t & Hob & [= <-]).
  apply bind_Ok in El as (o & w4 & Er & El). eapply readStoredRun_first in Er as (s & Hos & -> & Htx); [|done..]. cbn in Hos.
  apply bind_Ok in El as ([] & w5 & Eco & El). apply bind_Ok in El as ([] & w6 & [= <-] & [= <- <-]).
  apply exchange_ran in Eco as (t' & _ & Eco). destruct Htx as (tx & Htx & _). cbn in Eco. rewrite Htx in Eco. injection Eco as <-.
  split; [|done]. exists s. split; [|done]. etrans; [exact Ho|]. by etrans.
Qed.
End snapshot.

(** ** What was archived *)

(** Rows written in the order of their ordinals are read in it. *)
Lemma read_lines_archive k validated sha256 archive t : buildArchive sha256 validated = Ok archive →
  default [] (qe_run_source_lines t !! k) = line_row <$> ra_lines archive → read_lines k t = line_row <$> ra_lines archive.
Proof.
  intros Ha Hl. unfold read_lines. rewrite Hl. apply sort_id. assert (ra_lines archive = orderLines (vr_sourceLines validated)) as ->.
  { unfold buildArchive in Ha. destruct (orderLines _) as [|l ls]; [done|]. destruct (_ && _); [done|]. by apply bind_Ok_inv in Ha as (rs & _ & [= <-]). }
  unfold orderLines. rewrite fmap_imap. generalize (sort line_order (indexed (vr_sourceLines validated))). intros ps.
  assert (∀ n, StronglySorted (cmp_le (cmp_on st_storageOrdinal cmp_sub))
    (imap (λ i p, line_row {| al_line := p.1; al_storageOrdinal := Z.of_nat (n + i) |}) ps)) as H; [|exact (H 0%nat)].
  induction ps as [|p ps IH]; intros n; [constructor|]. cbn [imap]. constructor.
  - eapply eq_ind; [exact (IH (S n))|]. apply imap_ext. intros i q _. cbn. do 2 f_equal. lia.
  - apply Forall_forall. intros l (i & q & -> & _)%elem_of_lookup_imap. unfold cmp_le, cmp_on, cmp_sub. cbn. lia.
Qed.

Lemma read_blobs_has k t s r : s ∈ relations k t → qe_blobs t !! s = Some r →
  ∃ sb, sb ∈ read_blobs k t ∧ sb_blob sb = {| bl_sha256 := s; bl_sizeBytes := bw_size_bytes r; bl_storageKey := bw_storage_key r |}.
Proof.
  intros Hs Hr. exists {| sb_blob := {| bl_sha256 := s; bl_sizeBytes := bw_size_bytes r; bl_storageKey := bw_storage_key r |}; sb_storedAt := bw_stored_at r |}.
  split; [|reflexivity]. apply list_elem_of_omap. exists s. split; [apply elem_of_sort; by apply elem_of_elements|].
  rewrite Hr. reflexivity.
Qed.

Lemma find_blob_elem blobs s b : find_blob blobs s = Some b → b ∈ blobs ∧ bl_sha256 b = s.
Proof. unfold find_blob. intros [H1 H2%str_eqb_eq]%find_some. split; [by apply list_elem_of_In|done]. Qed.

Lemma read_blobs_elem k t sb : sb ∈ read_blobs k t → bl_sha256 (sb_blob sb) ∈ relations k t ∧
  qe_blobs t !! bl_sha256 (sb_blob sb) =
    Some {| bw_size_bytes := bl_sizeBytes (sb_blob sb); bw_storage_key := bl_storageKey (sb_blob sb); bw_stored_at := sb_storedAt sb |}.
Proof.
  intros (s & Hs & Hr)%list_elem_of_omap. rewrite elem_of_sort, elem_of_elements in Hs.
  destruct (qe_blobs t !! s) as [[]|] eqn:E; [|done]. by injection Hr as <-.
Qed.

(** What [buildArchive] takes from the validated directory. *)
Lemma buildArchive_facts sha256 validated archive : buildArchive sha256 validated = Ok archive →
  ra_lines archive = orderLines (vr_sourceLines validated) ∧ ra_summary archive = r_summary (vr_report validated) ∧
  ra_contentFingerprint archive = contentFingerprint sha256 (line_digest <$> vr_sourceLines validated) ∧
  ra_fingerprintVersion archive = FINGERPRINT_VERSION ∧ ra_sourceAttachmentsVerified archive = true ∧
  ra_protocolVersions archive = sort compare (sfrom (sl_protocolVersion ∘ al_line <$> orderLines (vr_sourceLines validated))).
Proof.
  intros Hb. unfold buildArchive in Hb. destruct (orderLines _) as [|l ls] eqn:Eo; [done|]. destruct (_ && _); [done|].
  by apply bind_Ok_inv in Hb as (rs & _ & [= <-]).
Qed.

(** The facts of a run's row. *)
Record reads_as (k : Key) (locator : str) (expires sequence ingestedAt : Z) (sha256 : bytes → bytes) (validated : ValidatedRun)
    (stored : StoredRun) : Prop := {
  ro_key : (sr_projectId stored, sr_runId stored) = k;
  ro_sequence : sr_ingestionSequence stored = sequence;
  ro_ingestedAt : sr_ingestedAt stored = ingestedAt;
  ro_locator : sr_sourceLocator stored = locator;
  ro_fingerprint : sr_contentFingerprint stored = contentFingerprint sha256 (line_digest <$> vr_sourceLines validated);
  ro_version : sr_fingerprintVersion stored = FINGERPRINT_VERSION;
  ro_protocols v : v ∈ sr_protocolVersions stored ↔ v ∈ sl_protocolVersion <$> vr_sourceLines validated;
  ro_protocols_once : NoDup (sr_protocolVersions stored) ∧ StronglySorted (cmp_le compare) (sr_protocolVersions stored);
  ro_count : sr_sourceLineCount stored = Z.of_nat (length (vr_sourceLines validated));
  ro_verified : sr_sourceAttachmentsVerified stored = true;
  ro_expires : sr_expiresAt stored = Some expires;
  ro_validation : sr_validationSummary stored = r_summary (vr_report validated);
  ro_source : sr_sourceLines stored = line_row <$> orderLines (vr_sourceLines validated);
}.

Lemma stored_run_reads_as sha256 validated archive k locator expires sequence at_ bs :
  buildArchive sha256 validated = Ok archive →
  reads_as k locator expires sequence at_ sha256 validated
    (stored_run k (run_row archive locator sequence at_) (Some expires) (line_row <$> ra_lines archive) bs).
Proof.
  intros (El & Es & Ef & Ev & Ea & Ep)%buildArchive_facts. constructor; cbn; try done.
  - by destruct k.
  - intros v. rewrite Ep, elem_of_sort, elem_of_sfrom, (list_fmap_compose al_line sl_protocolVersion), orderLines_lines.
    by rewrite sort_Permutation, indexed_fst.
  - rewrite Ep. split; [rewrite sort_Permutation; apply sfrom_NoDup|apply sort_sorted; apply _].
  - rewrite El. unfold orderLines. rewrite length_imap, sort_length. unfold indexed. by rewrite length_imap.
  - by rewrite El.
Qed.

(** C9 What was archived is what is read: when a run's archive was built from a validated directory and archived, then in every
    later state that keeps what is archived the run is there under its project and run id, its lines the directory's lines in
    storage order with every byte and digest, its ingestion sequence and time those of the row written, its fingerprint that of the
    directory and of the format's version, its protocol versions those of the lines, each once and in order, its attachments noted as verified, its
    line count, summary, locator and expiry those it was archived with; the fingerprint computed anew from the stored lines is the
    archive's; there is a blob of the declared size for each it needs, under the storage key the catalog had for it already or else
    the one it was published under; and every blob read is a related one, as the catalog has it. *)
Theorem archived_run_reads_back sha256 validated archive (k : Key) locator blobs expires index sequence t t1 t2 :
  buildArchive sha256 validated = Ok archive → Archived k archive locator blobs expires index sequence t t1 → grows t1 t2 →
  ∃ stored row, stored_at k t2 = Some stored ∧ qe_runs t1 !! k = Some row ∧
    reads_as k locator expires sequence (rr_ingested_at row) sha256 validated stored ∧
    contentFingerprint sha256 (stored_digests k t2) = sr_contentFingerprint stored ∧
    (∀ b, b ∈ blobs → ∃ sb, sb ∈ sr_blobs stored ∧ bl_sha256 (sb_blob sb) = bl_sha256 b ∧ bl_sizeBytes (sb_blob sb) = bl_sizeBytes b ∧
       match qe_blobs t !! bl_sha256 b with
       | Some r => bl_storageKey (sb_blob sb) = bw_storage_key r ∧ sb_storedAt sb = bw_stored_at r
       | None => ∃ b', b' ∈ blobs ∧ bl_sha256 b' = bl_sha256 b ∧ bl_storageKey (sb_blob sb) = bl_storageKey b'
       end) ∧
    (∀ sb, sb ∈ sr_blobs stored → bl_sha256 (sb_blob sb) ∈ relations k t2 ∧
       qe_blobs t2 !! bl_sha256 (sb_blob sb) =
         Some {| bw_size_bytes := bl_sizeBytes (sb_blob sb); bw_storage_key := bl_storageKey (sb_blob sb); bw_stored_at := sb_storedAt sb |}).
Proof.
  intros Hb HA Hg. destruct (ar_run _ _ _ _ _ _ _ _ _ HA) as (at_ & Hrun).
  assert (default [] (qe_run_source_lines t2 !! k) = line_row <$> ra_lines archive) as Hlines.
  { rewrite (grows_lines _ _ Hg) by eauto. apply HA. }
  pose proof (buildArchive_facts _ _ _ Hb) as (El & _ & Ef & _).
  exists (stored_run k (run_row archive locator sequence at_) (Some expires) (line_row <$> ra_lines archive) (read_blobs k t2)),
    (run_row archive locator sequence at_).
  split_and!.
  - unfold stored_at, read_head. rewrite (grows_runs _ _ Hg _ _ Hrun), (grows_retention _ _ Hg _ _ (ar_retention _ _ _ _ _ _ _ _ _ HA)).
    cbn. by rewrite (read_lines_archive _ _ _ _ _ Hb Hlines).
  - exact Hrun.
  - by apply stored_run_reads_as.
  - cbn. rewrite Ef. unfold stored_digests. rewrite Hlines, El. unfold contentFingerprint, fingerprint_input. do 5 f_equal. apply counted_same.
    intros d. unfold counts. rewrite <- list_fmap_compose.
    assert (((λ l, (st_canonicalSha256 l, st_disposition l)) ∘ line_row) <$> orderLines (vr_sourceLines validated) ≡ₚ line_digest <$> vr_sourceLines validated) as Hp.
    { change ((line_digest ∘ al_line) <$> orderLines (vr_sourceLines validated) ≡ₚ line_digest <$> vr_sourceLines validated).
      rewrite list_fmap_compose, orderLines_lines, sort_Permutation, indexed_fst. done. }
    by setoid_rewrite Hp.
  - intros b Hin. pose proof (ar_catalogued _ _ _ _ _ _ _ _ _ HA) as Hc. unfold catalogued in Hc. rewrite Forall_forall in Hc.
    specialize (Hc b Hin). destruct (qe_blobs t1 !! bl_sha256 b) as [r|] eqn:Er; [|done]. cbn in Hc.
    destruct (read_blobs_has k t2 (bl_sha256 b) r) as (sb & Hsb & E).
    + apply (grows_relations _ _ Hg). pose proof (ar_relations _ _ _ _ _ _ _ _ _ HA) as Hr. unfold relations in Hr. rewrite Hr.
      apply elem_of_list_to_set, list_elem_of_fmap. by exists b.
    + by apply (grows_blobs _ _ Hg).
    + pose proof (read_blobs_elem _ _ _ Hsb) as [_ Hcat]. rewrite E in Hcat. cbn in Hcat. rewrite (grows_blobs _ _ Hg _ _ Er) in Hcat.
      assert (sb_storedAt sb = bw_stored_at r) as Hat by (by injection Hcat as ->).
      exists sb. rewrite E. cbn. split; [done|]. split; [done|]. split; [congruence|].
      destruct (qe_blobs t !! bl_sha256 b) as [r0|] eqn:E0.
      * rewrite (ar_catalog _ _ _ _ _ _ _ _ _ HA _ _ E0) in Er. by injection Er as <-.
      * destruct (ar_new _ _ _ _ _ _ _ _ _ HA) as (now & Hnew). rewrite (Hnew _ E0) in Er.
        destruct (find_blob blobs (bl_sha256 b)) as [b'|] eqn:Eb; [|done]. injection Er as <-.
        apply find_blob_elem in Eb as [Hb' Es]. exists b'. by split_and!.
  - intros sb Hsb. by apply read_blobs_elem.
Qed.

(** ** A run archived and read *)

Definition read_run : ValidatedRun :=
  from_ok demo_run (validateRunDirectorySnapshot demo_parse demo_schema demo_sha demo_fs (js "run") persist_options).
Definition read_archive : RunArchive := from_ok (stored_archive (js "b")) (buildArchive id read_run).
Lemma read_archive_ok : buildArchive id read_run = Ok read_archive.
Proof. unfold read_archive. apply from_ok_spec. by vm_compute. Qed.

Definition read_key : Key := (js "p", js "run-1").
Definition read_tables : Tables := claimed_writes read_key read_archive (js "here") [durable (js "b")] 1000 stored_index 7 3 4 no_tables.
Lemma read_tables_archived : Archived read_key read_archive (js "here") [durable (js "b")] 1000 stored_index 7 no_tables read_tables.
Proof. apply claimed_writes_Archived; [reflexivity|apply no_tables_referential|]. constructor; [vm_compute; reflexivity|constructor]. Qed.
Lemma read_tables_grow : grows read_tables (other_writer 2 2 [Shared] [] read_tables).
Proof. exact (@others_shared _ (demo_server_laws (λ _, Answered)) 2%nat [Shared] [] read_tables ltac:(by left)). Qed.

Lemma archived_run_reads_back_witness : ∃ stored, stored_at read_key (other_writer 2 2 [Shared] [] read_tables) = Some stored ∧
  reads_as read_key (js "here") 1000 7 3 id read_run stored ∧ bl_storageKey ∘ sb_blob <$> sr_blobs stored = [bl_storageKey (durable (js "b"))].
Proof.
  destruct (archived_run_reads_back id read_run read_archive read_key (js "here") [durable (js "b")] 1000 stored_index 7 no_tables read_tables
    (other_writer 2 2 [Shared] [] read_tables) read_archive_ok read_tables_archived read_tables_grow) as (stored & row & E1 & E2 & E3 & _).
  assert (rr_ingested_at row = 3) as Hrow.
  { assert (rr_ingested_at <$> qe_runs read_tables !! read_key = Some 3) as H by (vm_compute; reflexivity). rewrite E2 in H. by injection H. }
  rewrite Hrow in E3. exists stored. split; [exact E1|]. split; [exact E3|].
  assert ((λ s, bl_storageKey ∘ sb_blob <$> sr_blobs s) <$> stored_at read_key (other_writer 2 2 [Shared] [] read_tables)
    = Some [bl_storageKey (durable (js "b"))]) as H by (vm_compute; reflexivity). rewrite E1 in H. by injection H.
Defined.


(** A read while another writer is at work, and one whose connection is lost. *)
Definition demo_load (fate : nat → Fate) : res StoreThrown (option StoredRun) * Db :=
  loadStoredRun (H := demo_server fate) (js "p") (js "run-1") (fresh_db read_tables).
Lemma demo_load_ends :
  (match (demo_load (λ _, Answered)).1 with Ok (Some s) => Z.of_nat (length (sr_blobs s)) | _ => 0 end, db_client (demo_load (λ _, Answered)).2) = (1, Pooled) ∧
  (match (demo_load (lost_at 3)).1 with Throw _ => true | _ => false end, db_client (demo_load (lost_at 3)).2) = (true, Destroyed).
Proof. vm_compute. split; reflexivity. Qed.
Lemma loadStoredRun_reads_one_state_witness : ∃ r w', loadStoredRun (H := demo_server (lost_at 3)) (js "p") (js "run-1") (fresh_db read_tables) = (r, w') ∧
  match r with
  | Ok stored => (∃ s, others (SV := demo_server (lost_at 3)) (db_tables (fresh_db read_tables)) s ∧ stored = stored_at (js "p", js "run-1") s) ∧ db_client w' = Pooled ∧ db_tx w' = None
  | Throw _ => db_client w' = Destroyed ∨ db_client w' = db_client (fresh_db read_tables)
  end.
Proof.
  destruct (loadStoredRun (H := demo_server (lost_at 3)) (js "p") (js "run-1") (fresh_db read_tables)) as [r w'] eqn:E. exists r, w'. split; [reflexivity|].
  exact (loadStoredRun_reads_one_state (SV := demo_server (lost_at 3)) (js "p") (js "run-1") (fresh_db read_tables) r w' E).
Defined.
