(* ===== verification/Retention.v ===== *)
(** * Retention (postgres/src/retention.ts)

    [RetentionMaintenance] as it is written: one pass, as a preview over the pool
    or as a deletion on the connection that holds the exclusive lock — expired
    runs, blobs no run refers to, objects the catalog never knew, temporary
    files, and the report. A deletion is refused, answered or lost like any
    other statement. What an error says of itself is a parameter. *)

From stdpp Require Import gmap sorting.
From S2P Require Import Prelude JsString JsBytes JsMap JsSort JsNumber JsDate Json Model Validator ValidatorRun Io PwText BlobStore ReadTypes Projector Archive Pg PgStore.

Local Open Scope Z_scope.

(** ** Data *)

Record DefaultLimits := {
  dl_runs : Z; dl_blobs : Z; dl_uncataloguedBlobs : Z; dl_temporaryFiles : Z; dl_legacy : Z; dl_bytesExamined : Z;
}.
Definition DEFAULT_LIMITS : DefaultLimits :=
  {| dl_runs := 100; dl_blobs := 500; dl_uncataloguedBlobs := 500; dl_temporaryFiles := 500; dl_legacy := 100;
     dl_bytesExamined := 2 * 1024 * 1024 * 1024 |}.
Definition CAS_PAGE : Z := 200.

(** A [Date] is its time value, [None] when it is not valid. *)
Record MaintenanceOptions := {
  mo_asOf : Date; mo_lockTimeoutMs : option number; mo_tempBefore : option Date; mo_maxRuns : option number;
  mo_maxBlobs : option number; mo_afterSha256 : option str; mo_orphanObjectsBefore : option Date;
  mo_maxUncataloguedBlobs : option number; mo_maxBytesExamined : option number; mo_maxTemporaryFiles : option number;
  mo_maxLegacyReported : option number;
}.

Record ExpiredRun := { er_key : Key; er_expiresAt : Z; er_ingestionSequence : Z; er_sourceLines : Z; er_blobRelations : Z }.
Record LegacyRun := { lr_key : Key; lr_ingestedAt : Z; lr_blobRelations : Z }.
Inductive BlobOrigin := Catalogued | Uncatalogued.
Inductive BlobOutcome := BlobRemoved | BlobPlanned | ObjectAbsent | ObjectRetained.
Record ReclaimedBlob := {
  rc_sha256 : str; rc_sizeBytes : Z; rc_origin : BlobOrigin; rc_outcome : BlobOutcome; rc_catalogRowRemoved : bool;
}.
Inductive FileOutcome := FileRemoved | FilePlanned | FileAbsent.
Record ReclaimedTemporaryFile := { rt_file : TemporaryFile; rt_outcome : FileOutcome }.

Inductive MaintenanceProblemCode :=
| RUN_DELETE_FAILED | RUN_DELETE_DECLINED | BLOB_UNSAFE | BLOB_DELETE_FAILED | CATALOG_DELETE_FAILED | CATALOG_ROW_RETAINED
| P_BLOB_CHANGED | CAS_ENTRY_UNSAFE | TEMPORARY_ENTRY_UNSAFE | TEMPORARY_DELETE_FAILED.
Record MaintenanceProblem := { mp_code : MaintenanceProblemCode; mp_sha256 : option str; mp_path : option str; mp_message : str }.

Record Truncated := { tr_runs : bool; tr_blobs : bool; tr_temporaryFiles : bool }.
Record MaintenanceReport := {
  mr_asOf : Z; mr_dryRun : bool; mr_expiredRuns : list ExpiredRun; mr_sourceLinesReleased : Z; mr_blobRelationsReleased : Z;
  mr_legacyRuns : list LegacyRun; mr_legacyRunCount : Z; mr_blobs : list ReclaimedBlob; mr_bytesReclaimed : Z;
  mr_temporaryFiles : list ReclaimedTemporaryFile; mr_temporaryBytesReclaimed : Z; mr_problems : list MaintenanceProblem;
  mr_truncated : Truncated;
}.

(** ** Checks *)

Definition checkDate (value : Date) (name : str) : res StoreThrown Z :=
  match value with Some ms => Ok ms | None => Throw (ThrownTypeError (name ++ js " must be a valid Date")) end.
Definition checkDateIf (value : option Date) (name : str) : res StoreThrown (option Z) :=
  match value with None => Ok None | Some d => Some <$> checkDate d name end.

(** [limit] *)
Definition limit_ (value : option number) (fallback : Z) (name : str) : res StoreThrown Z :=
  match value with
  | None => Ok fallback
  | Some v =>
      match as_safe_integer v with
      | Some n => if n <? 1 then Throw (ThrownTypeError (name ++ js " must be a whole number of at least one")) else Ok n
      | None => Throw (ThrownTypeError (name ++ js " must be a whole number of at least one"))
      end
  end.

(** ** Problems *)

(** [casProblem] *)
Definition cas_code_text (c : CasProblemCode) : str :=
  match c with
  | MALFORMED_NAME => js "MALFORMED_NAME" | WRONG_SHARD => js "WRONG_SHARD" | NOT_REGULAR => js "NOT_REGULAR"
  | UNEXPECTED_ENTRY => js "UNEXPECTED_ENTRY"
  end.
Definition casProblem (p : CasProblem) : MaintenanceProblem :=
  {| mp_code := CAS_ENTRY_UNSAFE; mp_sha256 := None; mp_path := Some (cp_path p);
     mp_message := cas_code_text (cp_code p) ++ js ": " ++ cp_message p |}.

Section problems.
Context (errno_code : Errno → str).

(** [safeMessage], [blobProblemCode] and [blobProblem] *)
Definition safeMessage (e : BlobThrown) : str :=
  match e with
  | StoreError _ message _ => message
  | SystemError e => js "the object could not be removed (" ++ errno_code e ++ js ")"
  | UsageError _ | Unending => js "the object could not be removed"
  end.
Definition blobProblemCode (e : BlobThrown) : MaintenanceProblemCode :=
  match e with StoreError BLOB_CHANGED _ _ => P_BLOB_CHANGED | StoreError _ _ _ => BLOB_UNSAFE | _ => BLOB_DELETE_FAILED end.
Definition blobProblem (e : BlobThrown) (sha : str) : MaintenanceProblem :=
  {| mp_code := blobProblemCode e; mp_sha256 := Some sha; mp_path := None; mp_message := safeMessage e |}.
End problems.

(** [report] *)
Definition outcome_frees (b : ReclaimedBlob) : bool := match rc_outcome b with BlobRemoved | BlobPlanned => true | _ => false end.
Definition total {A} (f : A → Z) (l : list A) : Z := foldl (λ n x, n + f x) 0 l.
Definition report_ (asOf : Z) (destructive : bool) (expiredRuns : list ExpiredRun) (legacy : list LegacyRun * Z) (blobs : list ReclaimedBlob)
    (temporaryFiles : list ReclaimedTemporaryFile) (problems : list MaintenanceProblem) (truncated : Truncated) : MaintenanceReport :=
  {| mr_asOf := asOf; mr_dryRun := negb destructive; mr_expiredRuns := expiredRuns;
     mr_sourceLinesReleased := total er_sourceLines expiredRuns; mr_blobRelationsReleased := total er_blobRelations expiredRuns;
     mr_legacyRuns := legacy.1; mr_legacyRunCount := legacy.2; mr_blobs := blobs;
     mr_bytesReclaimed := total rc_sizeBytes (filter outcome_frees blobs); mr_temporaryFiles := temporaryFiles;
     mr_temporaryBytesReclaimed := total (tf_sizeBytes ∘ rt_file) temporaryFiles; mr_problems := problems; mr_truncated := truncated |}.

(** ** Statements *)

(** Runs at or past their expiry, in the order of expiry and ingestion. *)
Definition expired_run (asOf : Z) (t : Tables) (k : Key) (row : RunRow) : option ExpiredRun :=
  match qe_run_retention t !! k with
  | Some expires =>
      if expires <=? asOf then
        Some {| er_key := k; er_expiresAt := expires; er_ingestionSequence := rr_ingestion_sequence row;
                er_sourceLines := Z.of_nat (length (default [] (qe_run_source_lines t !! k)));
                er_blobRelations := Z.of_nat (size (relations k t)) |}
      else None
  | None => None
  end.
Definition by_expiry (a b : ExpiredRun) : Z := cmp_then (cmp_on er_expiresAt cmp_sub) (cmp_on er_ingestionSequence cmp_sub) a b.
Definition expired_runs (asOf : Z) (t : Tables) : list ExpiredRun :=
  sort by_expiry (omap (λ p, expired_run asOf t p.1 p.2) (map_to_list (qe_runs t))).

(** What goes with a run: everything under its key, by the foreign keys' ON DELETE CASCADE. *)
Definition delete_run (k : Key) (t : Tables) : Tables :=
  t <| qe_runs ::= base.delete k |> <| qe_run_source_lines ::= base.delete k |> <| qe_run_retention ::= base.delete k |>
    <| qe_run_blobs ::= base.delete k |> <| qe_run_query_index ::= base.delete k |> <| qe_history_occurrences ::= base.delete k |>.

(** [DELETE … WHERE EXISTS (… expires_at <= $3) RETURNING …] *)
Definition still_expired (asOf : Z) (t : Tables) (k : Key) : bool :=
  match qe_runs t !! k, qe_run_retention t !! k with Some _, Some expires => expires <=? asOf | _, _ => false end.
Definition delete_expired (keys : list Key) (asOf : Z) : Stmt (list Key) := λ _ t,
  (filter (λ k, still_expired asOf t k) keys, λ t, foldl (λ t k, if still_expired asOf t k then delete_run k t else t) t keys, []).

(** Catalogued blobs no run refers to, after a hash. *)
Definition referenced (s : str) (t : Tables) : bool := existsb (λ p : Key * gset str, bool_decide (s ∈ p.2)) (map_to_list (qe_run_blobs t)).
Definition unreferenced_blobs (after : option str) (t : Tables) : list (str * Z) :=
  sort (cmp_on fst compare)
    (omap (λ p, if referenced p.1 t || match after with Some a => negb (str_ltb a p.1) | None => false end then None
                else Some (p.1, bw_size_bytes p.2)) (map_to_list (qe_blobs t))).

(** [DELETE FROM qe_blobs … AND NOT EXISTS (a reference) RETURNING sha256]: whether a row went. *)
Definition delete_blob (s : str) : Stmt bool := λ _ t,
  (bool_decide (is_Some (qe_blobs t !! s)) && negb (referenced s t),
   λ t, if referenced s t then t else t <| qe_blobs ::= base.delete s |>, []).

(** Runs that have no retention fact, by ingestion. *)
Definition legacy_of (t : Tables) : list (Key * RunRow) :=
  sort (cmp_on (rr_ingestion_sequence ∘ snd) cmp_sub) (filter (λ p, qe_run_retention t !! p.1 = None) (map_to_list (qe_runs t))).
Definition legacy_run (t : Tables) (p : Key * RunRow) : LegacyRun :=
  {| lr_key := p.1; lr_ingestedAt := rr_ingested_at p.2; lr_blobRelations := Z.of_nat (size (relations p.1 t)) |}.

Section retention.
Context `{Server} (error_message : StoreThrown → str) (errno_code : Errno → str).

(** [db.query]: on the connection in hand for a deletion, on one of the pool's for a preview. *)
Definition ask {A} (destructive : bool) (s : Stmt A) : io Db StoreThrown A := if destructive then query s else pool_query s.
Definition ask_for {A} (destructive : bool) (f : Tables → A) : io Db StoreThrown A := ask destructive (λ _ t, (f t, λ t, t, [])).

(** [selectExpired]: the runs, and whether there are more. *)
Definition selectExpired (destructive : bool) (asOf max : Z) : io Db StoreThrown (list ExpiredRun * bool) :=
  found ← ask_for destructive (λ t, take (Z.to_nat (max + 1)) (expired_runs asOf t));
  mret (take (Z.to_nat max) found, max <? Z.of_nat (length found)).

(** [deleteRuns] *)
Definition deleteRuns (runs : list ExpiredRun) (asOf : Z) : io Db StoreThrown (list Key) :=
  _ ← begin_ ReadCommitted;
  or_rollback (deleted ← query (delete_expired (er_key <$> runs) asOf); _ ← commit; mret deleted).

(** [legacyRuns] *)
Definition legacyRuns (destructive : bool) (max : Z) : io Db StoreThrown (list LegacyRun * Z) :=
  total ← ask_for destructive (λ t, Z.of_nat (length (legacy_of t)));
  listed ← ask_for destructive (λ t, legacy_run t <$> take (Z.to_nat max) (legacy_of t));
  mret (listed, total).

Context {D : Type} `{BlobDisk D} (sha256 : bytes → str) (root : str).
Abbreviation io_ A := (io (PgWorld D) StoreThrown A).

(** The expired runs' part of a pass: those that went, and the problems. *)
Definition declined (run : ExpiredRun) : MaintenanceProblem :=
  {| mp_code := RUN_DELETE_DECLINED; mp_sha256 := None; mp_path := None;
     mp_message := js "run " ++ (er_key run).2 ++ js " in project " ++ (er_key run).1 ++ js " was no longer eligible when the batch ran" |}.
Definition delete_failed (n : nat) (e : StoreThrown) : MaintenanceProblem :=
  {| mp_code := RUN_DELETE_FAILED; mp_sha256 := None; mp_path := None;
     mp_message := js "no run of this batch of " ++ dec (Z.of_nat n) ++ js " was deleted: " ++ error_message e |}.
Definition delete_selected (runs : list ExpiredRun) (asOf : Z) : io Db StoreThrown (list ExpiredRun * list MaintenanceProblem) :=
  try_catch
    (deleted ← deleteRuns runs asOf;
     mret (filter (λ r, er_key r ∈ deleted) runs, declined <$> filter (λ r, er_key r ∉ deleted) runs))
    (λ e, mret ([], [delete_failed (length runs) e])).

(** What a pass has done to blobs: problems, what was reclaimed, the byte budget, how many were examined, and whether it was cut short. *)
Record Pass := { ps_problems : list MaintenanceProblem; ps_blobs : list ReclaimedBlob; ps_bytes : Z; ps_examined : Z; ps_truncated : bool }.
Instance Pass_fields : Fields Pass := λ p,
  {| ps_problems := ps_problems p; ps_blobs := ps_blobs p; ps_bytes := ps_bytes p; ps_examined := ps_examined p; ps_truncated := ps_truncated p |}.
Definition over_budget (p : Pass) (size : Z) : bool := (0 <? ps_examined p) && (ps_bytes p <? size).
Definition spend (size : Z) (p : Pass) : Pass := p <| ps_examined ::= λ n, n + 1 |> <| ps_bytes ::= λ n, n - size |>.
Definition noted (r : option ReclaimedBlob * list MaintenanceProblem) (p : Pass) : Pass :=
  p <| ps_problems ::= λ l, l ++ r.2 |> <| ps_blobs ::= λ l, l ++ match r.1 with Some b => [b] | None => [] end |>.

(** [reclaim]: what it returns, and the problems it pushes. *)
Definition reclaimed (sha : str) (size : Z) (origin : BlobOrigin) (outcome : BlobOutcome) (row : bool) : ReclaimedBlob :=
  {| rc_sha256 := sha; rc_sizeBytes := size; rc_origin := origin; rc_outcome := outcome; rc_catalogRowRemoved := row |}.
Definition reclaim_preview (sha : str) (size : Z) (origin : BlobOrigin) : io D Empty_set (option ReclaimedBlob * list MaintenanceProblem) :=
  try_catch (_ ← verify sha256 root sha (Int size); mret (Some (reclaimed sha size origin BlobPlanned false), []))
    (λ e, match e with
          | StoreError BLOB_MISSING _ _ => mret (Some (reclaimed sha size origin ObjectAbsent false), [])
          | e => mret (None, [blobProblem errno_code e sha])
          end).
Definition remove_object (sha : str) (size : Z) (origin : BlobOrigin) (row : bool) : io D Empty_set (option ReclaimedBlob * list MaintenanceProblem) :=
  try_catch (removed ← removeObject sha256 root sha (Some (Int size));
             mret (Some (reclaimed sha size origin match removed with Removed => BlobRemoved | Missing => ObjectAbsent end row), []))
    (λ e, mret (Some (reclaimed sha size origin ObjectRetained row), [blobProblem errno_code e sha])).
Definition never {A} (e : Empty_set) : A := match e with end.

(** The catalog row first; [inl] is what ends the reclaim there. *)
Definition remove_row (sha : str) : io Db StoreThrown (option MaintenanceProblem) :=
  try_catch
    (rowRemoved ← query (delete_blob sha);
     mret (if rowRemoved : bool then None
           else Some {| mp_code := CATALOG_ROW_RETAINED; mp_sha256 := Some sha; mp_path := None;
                        mp_message := js "a run referenced the blob while it was being reclaimed; nothing was removed" |}))
    (λ e, mret (Some {| mp_code := CATALOG_DELETE_FAILED; mp_sha256 := Some sha; mp_path := None; mp_message := error_message e |})).
Definition reclaim (destructive : bool) (sha : str) (size : Z) (origin : BlobOrigin) : io_ (option ReclaimedBlob * list MaintenanceProblem) :=
  if negb destructive then on_disk never (reclaim_preview sha size origin)
  else
    match origin with
    | Uncatalogued => on_disk never (remove_object sha size origin false)
    | Catalogued =>
        kept ← on_db (remove_row sha);
        match kept with
        | Some problem => mret (None, [problem])
        | None => on_disk never (remove_object sha size origin true)
        end
    end.

(** The loop over the unreferenced blobs. *)
Fixpoint reclaim_rows (destructive : bool) (rows : list (str * Z)) (p : Pass) : io_ Pass :=
  match rows with
  | [] => mret p
  | (sha, size) :: rows =>
      if over_budget p size then mret (p <| ps_truncated := true |>)
      else
        r ← reclaim destructive sha size Catalogued;
        reclaim_rows destructive rows (noted r (spend size p))
  end.

(** The objects of one page the catalog does not know: the pass, what remains of its budget, and whether it is done. *)
Fixpoint reclaim_objects (destructive : bool) (catalogued : gset str) (orphansBefore : Z) (objects : list ObjectEntry) (remaining : Z) (p : Pass)
    : io_ (Pass * Z * bool) :=
  match objects with
  | [] => mret (p, remaining, false)
  | o :: objects =>
      let sha := bl_sha256 (oe_blob o) in
      let size := bl_sizeBytes (oe_blob o) in
      if bool_decide (sha ∈ catalogued) then reclaim_objects destructive catalogued orphansBefore objects remaining p
      else if orphansBefore <=? oe_modifiedAt o then reclaim_objects destructive catalogued orphansBefore objects remaining p
      else if (remaining =? 0) || over_budget p size then mret (p <| ps_truncated := true |>, remaining, true)
      else
        r ← reclaim destructive sha size Uncatalogued;
        reclaim_objects destructive catalogued orphansBefore objects (remaining - 1) (noted r (spend size p))
  end.

(** The pages of the store; [Unending] when the fuel does not last. *)
Definition catalogued_of (hashes : list str) (t : Tables) : gset str := filter (λ s, is_Some (qe_blobs t !! s)) (list_to_set hashes).
Fixpoint enumerate_store (fuel : nat) (destructive : bool) (orphansBefore : Z) (cursor : option str) (remaining : Z) (p : Pass) : io_ Pass :=
  match fuel with
  | O => throw (ThrownBlob Unending)
  | S fuel =>
      page ← on_disk ThrownBlob (listObjects root cursor (Some (Int CAS_PAGE)));
      let p := p <| ps_problems ::= λ l, l ++ (casProblem <$> ol_problems page) |> in
      catalogued ← on_db (ask_for destructive (catalogued_of (bl_sha256 ∘ oe_blob <$> ol_objects page)));
      '(p, remaining, done_) ← reclaim_objects destructive catalogued orphansBefore (ol_objects page) remaining p;
      if done_ : bool then mret p
      else match ol_next page with None => mret p | Some next => enumerate_store fuel destructive orphansBefore (Some next) remaining p end
  end.

(** The loop over temporary files: those swept, and the problems. *)
Definition unsafe_temporary (p : CasProblem) : MaintenanceProblem :=
  {| mp_code := TEMPORARY_ENTRY_UNSAFE; mp_sha256 := mp_sha256 (casProblem p); mp_path := mp_path (casProblem p); mp_message := mp_message (casProblem p) |}.
Definition sweep_file (destructive : bool) (file : TemporaryFile) : io_ (list ReclaimedTemporaryFile * list MaintenanceProblem) :=
  if negb destructive then mret ([{| rt_file := file; rt_outcome := FilePlanned |}], [])
  else on_disk ThrownBlob (try_catch
    (removed ← removeTemporaryFile root (tf_name file);
     mret ([{| rt_file := file; rt_outcome := match removed with Removed => FileRemoved | Missing => FileAbsent end |}], []))
    (λ e, path ← temporaryKey (tf_name file);
          mret ([], [{| mp_code := match e with StoreError _ _ _ => TEMPORARY_ENTRY_UNSAFE | _ => TEMPORARY_DELETE_FAILED end;
                        mp_sha256 := None; mp_path := Some path; mp_message := safeMessage errno_code e |}]))).
Fixpoint sweep_files (destructive : bool) (files : list TemporaryFile) (swept : list ReclaimedTemporaryFile) (problems : list MaintenanceProblem)
    : io_ (list ReclaimedTemporaryFile * list MaintenanceProblem) :=
  match files with
  | [] => mret (swept, problems)
  | file :: files =>
      '(s, ps) ← sweep_file destructive file;
      sweep_files destructive files (swept ++ s) (problems ++ ps)
  end.
Definition sweep (destructive : bool) (tempBefore : option Z) (maxTemps : Z) : io_ (list ReclaimedTemporaryFile * list MaintenanceProblem * bool) :=
  match tempBefore with
  | None => mret ([], [], false)
  | Some before =>
      listed ← on_disk ThrownBlob (listTemporaryFiles root (Some (Some before)) (Some (Int (maxTemps + 1))));
      '(swept, problems) ← sweep_files destructive (take (Z.to_nat maxTemps) (tl_files listed)) [] (unsafe_temporary <$> tl_problems listed);
      mret (swept, problems, maxTemps <? Z.of_nat (length (tl_files listed)))
  end.

(** [pass], its arguments checked: [fuel] bounds the pages of the store. *)
Record Checked := {
  ck_asOf : Z; ck_tempBefore : option Z; ck_orphansBefore : option Z; ck_maxRuns : Z; ck_maxBlobs : Z; ck_maxUncatalogued : Z;
  ck_maxBytes : Z; ck_maxTemps : Z; ck_maxLegacy : Z; ck_after : option str;
}.
Definition check_options (o : MaintenanceOptions) : res StoreThrown Checked :=
  asOf ← checkDate (mo_asOf o) (js "asOf");
  tempBefore ← checkDateIf (mo_tempBefore o) (js "tempBefore");
  orphansBefore ← checkDateIf (mo_orphanObjectsBefore o) (js "orphanObjectsBefore");
  maxRuns ← limit_ (mo_maxRuns o) (dl_runs DEFAULT_LIMITS) (js "maxRuns");
  maxBlobs ← limit_ (mo_maxBlobs o) (dl_blobs DEFAULT_LIMITS) (js "maxBlobs");
  maxUncatalogued ← limit_ (mo_maxUncataloguedBlobs o) (dl_uncataloguedBlobs DEFAULT_LIMITS) (js "maxUncataloguedBlobs");
  maxBytes ← limit_ (mo_maxBytesExamined o) (dl_bytesExamined DEFAULT_LIMITS) (js "maxBytesExamined");
  maxTemps ← limit_ (mo_maxTemporaryFiles o) (dl_temporaryFiles DEFAULT_LIMITS) (js "maxTemporaryFiles");
  maxLegacy ← limit_ (mo_maxLegacyReported o) (dl_legacy DEFAULT_LIMITS) (js "maxLegacyReported");
  if match mo_afterSha256 o with Some a => negb (isSha256 a) | None => false end
  then Throw (ThrownTypeError (js "afterSha256 must be 64 lower-case hex characters"))
  else Ok {| ck_asOf := asOf; ck_tempBefore := tempBefore; ck_orphansBefore := orphansBefore; ck_maxRuns := maxRuns; ck_maxBlobs := maxBlobs;
             ck_maxUncatalogued := maxUncatalogued; ck_maxBytes := maxBytes; ck_maxTemps := maxTemps; ck_maxLegacy := maxLegacy;
             ck_after := mo_afterSha256 o |}.

Definition pass_checked (fuel : nat) (destructive : bool) (c : Checked) : io_ MaintenanceReport :=
  '(selected, more) ← on_db (selectExpired destructive (ck_asOf c) (ck_maxRuns c));
  '(expiredRuns, problems) ← (if destructive && (0 <? Z.of_nat (length selected)) then on_db (delete_selected selected (ck_asOf c)) else mret (selected, []));
  rows ← on_db (ask_for destructive (λ t, take (Z.to_nat (ck_maxBlobs c + 1)) (unreferenced_blobs (ck_after c) t)));
  p ← reclaim_rows destructive (take (Z.to_nat (ck_maxBlobs c)) rows)
        {| ps_problems := problems; ps_blobs := []; ps_bytes := ck_maxBytes c; ps_examined := 0; ps_truncated := ck_maxBlobs c <? Z.of_nat (length rows) |};
  p ← (match ck_orphansBefore c with None => mret p | Some before => enumerate_store fuel destructive before None (ck_maxUncatalogued c) p end);
  '(swept, problems, moreTemps) ← sweep destructive (ck_tempBefore c) (ck_maxTemps c);
  legacy ← on_db (legacyRuns destructive (ck_maxLegacy c));
  mret (report_ (ck_asOf c) destructive expiredRuns legacy (ps_blobs p) swept (ps_problems p ++ problems)
          {| tr_runs := more; tr_blobs := ps_truncated p; tr_temporaryFiles := moreTemps |}).
Definition pass_ (fuel : nat) (destructive : bool) (o : MaintenanceOptions) : io_ MaintenanceReport :=
  c ← pure_ (check_options o); pass_checked fuel destructive c.

(** [preview] and [run] *)
Definition preview_pass (fuel : nat) (o : MaintenanceOptions) : io_ MaintenanceReport := pass_ fuel false o.
Definition run_pass (fuel : nat) (o : MaintenanceOptions) : io_ MaintenanceReport :=
  withMaintenanceLock (mo_lockTimeoutMs o) (pass_ fuel true o).
End retention.
