(* ===== verification/RetentionSpec.v ===== *)
(** * What a retention pass may do

    Under the exclusive lock nobody else writes, so what a pass decided is still
    so when it acts on it: only expired runs go, a blob a run refers to stays in
    the catalog and in the store, a preview changes nothing, and the pass comes
    to an end. *)

From stdpp Require Import gmap sorting.
From S2P Require Import Prelude JsString JsBytes JsMap JsSort JsNumber JsDate Json Model Validator ValidatorRun Io FileSink PwText BlobStore BlobStoreSpec BlobStorePut BlobStoreProps ReadTypes Projector Archive Pg PgStore PgStoreSpec PgPersistSpec Retention.

Local Open Scope Z_scope.

(** ** Calls that change nothing of ours *)

Section still.
Context {D : Type} (root : str) `{BlobDiskLaws D root} (sha256 : bytes → str).
Implicit Types d : D.

(** Whatever it answers, objects and descriptors are as they were, but for the work of others. *)
Definition still {E A} (m : io D E A) : Prop := ∀ d, calm root d (m d).2.

Lemma still_ret {E A} (a : A) : still (E := E) (mret a).
Proof. by intros d. Qed.
Lemma still_throw {E A} (e : E) : still (A := A) (throw e).
Proof. by intros d. Qed.
Lemma still_bind_Ok {E A B} (m : io D E A) (f : A → io D E B) : still m → (∀ a d d', m d = (Ok a, d') → still (f a)) → still (m ≫= f).
Proof.
  intros Hm Hf d. specialize (Hm d). unfold mbind, io_mbind. destruct (m d) as [[a|e] d1] eqn:E1; [|done]. etrans; [exact Hm|by eapply Hf].
Qed.
Lemma still_bind {E A B} (m : io D E A) (f : A → io D E B) : still m → (∀ a, still (f a)) → still (m ≫= f).
Proof. intros Hm Hf. by apply still_bind_Ok. Qed.
Lemma still_catch {E E' A} (m : io D E A) (f : E → io D E' A) : still m → (∀ e, still (f e)) → still (try_catch m f).
Proof.
  intros Hm Hf d. specialize (Hm d). unfold try_catch. destruct (m d) as [[a|e] d1]; [done|]. etrans; [exact Hm|apply Hf].
Qed.
Lemma still_quiet {A} (m : io D Errno A) : quiet root m → still m.
Proof. done. Qed.
Lemma still_wp {E A} (m : io D E A) (Q : A → D → Prop) (X : E → D → Prop) :
  (∀ d, wp m (λ a d', calm root d d' ∧ Q a d') (λ e d', calm root d d' ∧ X e d') d) → still m.
Proof. intros Hm d. specialize (Hm d). unfold wp in Hm. by destruct (m d) as [[a|e] d1]; destruct Hm. Qed.

Lemma kind_at_still p : still (kind_at (W := D) p).
Proof.
  apply (still_wp _ (λ k d', ∀ kd, k = EKind kd → ∃ ino, entry d' p = Some ino ∧ kind_of d' ino = kd) (λ _ _, True)).
  intros d. eapply wp_mono; [apply (kind_at_wp root)|done|done].
Qed.
Lemma check_directories_still ps : still (check_directories (W := D) root ps).
Proof.
  apply (still_wp _ (λ _ _, True) (λ _ _, True)). intros d. eapply wp_mono; [apply (check_directories_wp root)|done|done].
Qed.
Lemma existing_still h size : isSha256 h = true → still (existing (W := D) sha256 root h size).
Proof.
  intros Hh. apply (still_wp _ (λ r d', ∀ x, r = Some x → x = blob h size ∧ holds root sha256 d' h size) (λ _ _, True)).
  intros d. eapply wp_mono; [by apply (existing_wp root)|done|done].
Qed.

Lemma stat_if_there_still p : still (stat_if_there (W := D) p).
Proof.
  unfold stat_if_there. apply still_catch; [|intros []; first [apply still_ret|apply still_throw]].
  apply still_bind; [apply still_quiet, bl_lstat|intros; apply still_ret].
Qed.
Lemma sorted_directory_still p : still (sorted_directory (W := D) p).
Proof.
  unfold sorted_directory, entriesOf. apply still_bind; [|intros; apply still_ret].
  apply still_catch; [apply still_quiet, bl_readdir_types|intros []; first [apply still_ret|apply still_throw]].
Qed.
Lemma boundedLimit_still v : still (boundedLimit (W := D) v).
Proof.
  unfold boundedLimit. destruct v as [v|]; [|apply still_ret]. destruct (as_safe_integer v) as [n|]; [|apply still_throw].
  destruct (n <? 1); [apply still_throw|apply still_ret].
Qed.
Lemma list_leaf_still limit after first second leaf es l : still (list_leaf (W := D) root limit after first second leaf es l).
Proof.
  revert l. induction es as [|[name kind] es IH]; intros l; cbn [list_leaf]; [apply still_ret|].
  destruct (match after with Some a => _ | None => _ end); [apply IH|]. destruct (negb (isSha256 name)); [apply IH|].
  destruct (negb (bool_decide _)); [apply IH|]. destruct (_ || _); [apply IH|]. destruct (_ =? limit); [apply still_ret|].
  apply still_bind; [apply stat_if_there_still|]. intros [[[] ? ? ? ?]|]; apply IH.
Qed.
Lemma list_second_still limit after first ss l : still (list_second (W := D) root limit after first ss l).
Proof.
  revert l. induction ss as [|s ss IH]; intros l; cbn [list_second]; [apply still_ret|].
  destruct (li_full l); [apply still_ret|]. destruct (match after with Some a => _ | None => _ end); [apply IH|].
  apply still_bind; [apply sorted_directory_still|]. intros es. apply still_bind; [apply list_leaf_still|apply IH].
Qed.
Lemma list_first_still limit after fs l : still (list_first (W := D) root limit after fs l).
Proof.
  revert l. induction fs as [|f fs IH]; intros l; cbn [list_first]; [apply still_ret|].
  destruct (li_full l); [apply still_ret|]. destruct (match after with Some a => _ | None => _ end); [apply IH|].
  apply still_bind; [unfold shards; apply still_bind; [apply sorted_directory_still|intros; apply still_ret]|].
  intros [ss ps]. apply still_bind; [apply list_second_still|apply IH].
Qed.
Lemma listObjects_still after limit : still (listObjects (W := D) root after limit).
Proof.
  unfold listObjects. apply still_bind; [apply boundedLimit_still|]. intros n.
  apply still_bind. { destruct after as [a|]; [|apply still_ret]. apply still_bind; [|intros; apply still_ret].
    unfold checkSha256. destruct (isSha256 a); [apply still_ret|apply still_throw]. }
  intros a. apply still_bind; [apply kind_at_still|]. intros [|[]]; try apply still_ret; try apply still_throw.
  apply still_bind; [unfold shards; apply still_bind; [apply sorted_directory_still|intros; apply still_ret]|].
  intros [fs ps]. apply still_bind; [apply list_first_still|intros; apply still_ret].
Qed.

Lemma list_temporary_still before es fs ps : still (list_temporary (W := D) root before es fs ps).
Proof.
  revert fs ps. induction es as [|[name kind] es IH]; intros fs ps; cbn [list_temporary]; [apply still_ret|].
  destruct (negb (TEMPORARY_NAME name)); [apply IH|]. destruct (negb (bool_decide _)); [apply IH|].
  apply still_bind; [apply stat_if_there_still|]. intros [[[] ? ? ? mtime]|]; try apply IH.
  destruct (match before with Some b => _ | None => _ end); apply IH.
Qed.
Lemma listTemporaryFiles_still before limit : still (listTemporaryFiles (W := D) root before limit).
Proof.
  unfold listTemporaryFiles. apply still_bind; [apply boundedLimit_still|]. intros n.
  apply still_bind; [destruct before as [[b|]|]; first [apply still_ret|apply still_throw]|]. intros b.
  apply still_bind; [apply kind_at_still|]. intros [|[]]; try apply still_ret; try apply still_throw.
  apply still_bind; [apply sorted_directory_still|]. intros es. apply still_bind; [apply list_temporary_still|intros []; apply still_ret].
Qed.

Lemma checkSha256_still h : still (checkSha256 (W := D) h).
Proof. unfold checkSha256. destruct (isSha256 h); [apply still_ret|apply still_throw]. Qed.
Lemma checkSha256_Ok h d a d' : checkSha256 (W := D) h d = (Ok a, d') → a = h ∧ isSha256 h = true.
Proof. unfold checkSha256. destruct (isSha256 h); [|done]. by intros [= <- <-]. Qed.
Lemma verify_still h size : still (verify (W := D) sha256 root h size).
Proof.
  unfold verify. apply still_bind_Ok; [apply checkSha256_still|]. intros h' d d' [-> Hh]%checkSha256_Ok.
  apply still_bind. { unfold checkSize. destruct (as_safe_integer size) as [n|]; [destruct (0 <=? n)|]; first [apply still_ret|apply still_throw]. }
  intros n. apply still_bind; [by apply existing_still|]. intros [x|]; [apply still_ret|apply still_throw].
Qed.

(** A temporary file is no object. *)
Lemma temporary_not_object name : TEMPORARY_NAME name = true → ¬ object_path root (path_join (temp_dir root) name).
Proof.
  unfold TEMPORARY_NAME. intros [[Hl%Z.eqb_eq Hx]%andb_true_iff He]%andb_true_iff. apply (other_name root).
  - intros Hin. rewrite <- (take_drop 32 name) in Hin. apply elem_of_app in Hin as [Hin|Hin].
    + rewrite forallb_forall in Hx. apply list_elem_of_In, Hx in Hin. done.
    + apply str_eqb_eq in He. rewrite He in Hin. vm_compute in Hin. set_solver.
  - clear -Hl. intros E. unfold slength in Hl. rewrite E in Hl. done.
Qed.
Lemma removeTemporaryFile_still name : still (removeTemporaryFile (W := D) root name).
Proof.
  unfold removeTemporaryFile, checkTemporaryName. destruct (TEMPORARY_NAME name) eqn:Hn; [|intros d; done].
  apply still_bind; [apply still_ret|]. intros _. apply still_bind; [apply kind_at_still|].
  intros [|[]]; try apply still_ret; try apply still_throw. apply still_bind; [apply kind_at_still|].
  intros [|[]]; try apply still_ret; try apply still_throw. apply still_bind; [apply kind_at_still|].
  intros [|[]]; try apply still_ret; try apply still_throw.
  intros d. unfold try_catch, mbind, io_mbind. destruct (bd_unlink _ d) as [[[]|e] d'] eqn:E; cbn.
  - eapply (unlink_calm root); [by apply temporary_not_object|done].
  - apply (bl_unlink_fail (root := root)) in E. by destruct e.
Qed.
End still.

(** ** Statements under the exclusive lock *)

Section alone.
Context {SV : Server} {SL : ServerLaws}.
Implicit Types w : Db.
Abbreviation alone := (tidy Exclusive).

(** In a transaction of writes [u] over the tables [t]; one that will not be committed. *)
Record writing (u : Tables → Tables) (t : Tables) w : Prop := {
  wr_live : db_lost w = false; wr_leases : db_leases w = [Exclusive]; wr_client : db_client w = InHand; wr_tables : db_tables w = t;
  wr_tx : ∃ tx, db_tx w = Some tx ∧ tx_isolation tx = ReadCommitted ∧ tx_aborted tx = false ∧ ∀ x, tx_writes tx x = u x;
}.
Definition broken (t : Tables) w : Prop := db_client w = InHand ∧ db_tables w = t ∧ (db_lost w = true ∨ db_leases w = [Exclusive]).

Lemma alone_others n w ls t : db_leases w = [Exclusive] → sv_others n (db_leases w) ls t = t.
Proof. intros ->. apply others_exclusive. by left. Qed.

Lemma alone_query_wp {A} (s : Stmt A) w (Q : A → Db → Prop) (X : StoreThrown → Db → Prop) : alone w →
  (∀ n w', alone w' → db_lost w' = false → db_tables w' = (s n (db_tables w)).1.2 (db_tables w) → Q (s n (db_tables w)).1.1 w') →
  (∀ e w', alone w' → (db_tables w' = db_tables w ∨ ∃ n, db_tables w' = (s n (db_tables w)).1.2 (db_tables w)) → X e w') → wp (query s) Q X w.
Proof.
  intros [Hs Hc] HQ HX. unfold wp, query, exchange. destruct (db_lost w) eqn:Hl.
  { apply HX; [|by left]. split; [by left|done]. }
  destruct Hs as [?|[Htx Hle]]; [done|]. rewrite alone_others by done. set (n := db_tick w).
  destruct (sv_fate n) as [|e|ex e].
  - unfold run_stmt. cbn. rewrite Htx. specialize (HQ n). destruct (s n (db_tables w)) as [[a f] ls]. cbn in *.
    apply HQ; [split; cbn; [by right|done]|done|done].
  - apply HX; [|by left]. split; [|done]. right. cbn. by rewrite Htx.
  - destruct ex.
    + unfold run_stmt. cbn. rewrite Htx. destruct (s n (db_tables w)) as [[a f] ls] eqn:Es. cbn. apply HX; [split; [by left|done]|].
      right. exists n. by rewrite Es.
    + apply HX; [split; [by left|done]|by left].
Qed.

Lemma alone_begin_wp w (Q : unit → Db → Prop) (X : StoreThrown → Db → Prop) : alone w →
  (∀ w', writing (λ t, t) (db_tables w) w' → Q tt w') → (∀ e w', alone w' → db_tables w' = db_tables w → X e w') → wp (begin_ ReadCommitted) Q X w.
Proof.
  intros [Hs Hc] HQ HX. unfold wp, begin_, exchange. destruct (db_lost w) eqn:Hl.
  { apply HX; [|done]. split; [by left|done]. }
  destruct Hs as [?|[Htx Hle]]; [done|]. rewrite alone_others by done.
  destruct (sv_fate _) as [|e|ex e]; cbn.
  - apply HQ. split; cbn; [done..|]. eexists. split; [reflexivity|]. done.
  - apply HX; [|done]. split; [|done]. right. cbn. by rewrite Htx.
  - apply HX; [split; [by left|by destruct ex]|by destruct ex].
Qed.

Lemma alone_tx_query_wp {A} (s : Stmt A) u t w (Q : A → Db → Prop) (X : StoreThrown → Db → Prop) : writing u t w →
  (∀ n w', writing (λ x, (s n (u t)).1.2 (u x)) t w' → Q (s n (u t)).1.1 w') → (∀ e w', broken t w' → X e w') → wp (query s) Q X w.
Proof.
  intros [Hl Hle Hc Ht (tx & Htx & Hi & Hab & Hu)] HQ HX. unfold wp, query, exchange. rewrite Hl, alone_others, Ht by done. set (n := db_tick w).
  destruct (sv_fate n) as [|e|ex e].
  - unfold run_stmt. cbn. rewrite Htx, Hab. unfold sight. rewrite Hi, Hu. specialize (HQ n). destruct (s n (u t)) as [[a f] ls]. cbn in *.
    apply HQ. split; cbn; [done..|]. eexists. split; [reflexivity|]. cbn. split_and!; [done..|]. intros x. by rewrite Hu.
  - apply HX. unfold broken. cbn. auto.
  - apply HX. unfold broken. destruct ex; cbn; [|auto]. unfold run_stmt. cbn. rewrite Htx, Hab. unfold sight. rewrite Hi, Hu.
    destruct (s n (u t)) as [[a f] ls]. cbn. auto.
Qed.

Lemma alone_commit_wp u t w (Q : unit → Db → Prop) (X : StoreThrown → Db → Prop) : writing u t w →
  (∀ w', alone w' → db_tables w' = u t → Q tt w') →
  (∀ e w', broken t w' ∨ alone w' ∧ db_lost w' = true ∧ db_tables w' = u t → X e w') → wp commit Q X w.
Proof.
  intros [Hl Hle Hc Ht (tx & Htx & Hi & Hab & Hu)] HQ HX. unfold wp, commit, exchange. rewrite Hl, alone_others, Ht by done.
  destruct (sv_fate _) as [|e|[] e]; cbn; rewrite ?Htx, ?Hab; cbn.
  - apply HQ; [split; cbn; auto|by rewrite Hu].
  - apply HX. left. unfold broken. cbn. auto.
  - apply HX. right. rewrite Hu. split_and!; [split; [by left|done]|done|done].
  - apply HX. left. unfold broken. cbn. auto.
Qed.

Lemma alone_quiet_rollback t w : broken t w → alone (quiet_rollback w).2 ∧ db_tables (quiet_rollback w).2 = t ∧ (quiet_rollback w).1 = Ok tt.
Proof.
  intros (Hc & Ht & Hs). unfold quiet_rollback, try_catch, rollback. destruct (db_lost w) eqn:Hl; cbn.
  { split_and!; [split; [by left|done]|done|done]. }
  destruct Hs as [?|Hle]; [done|]. rewrite alone_others, Ht by done. destruct (sv_fate _); cbn; (split_and!; [split; cbn; auto|done|done]).
Qed.

(** Expired runs go together or stay together, and what the statement answered is what went. *)
Lemma deleteRuns_wp (runs : list ExpiredRun) asOf w (Q : list Key → Db → Prop) (X : StoreThrown → Db → Prop) : alone w →
  let deleted := delete_expired (er_key <$> runs) asOf 0%nat (db_tables w) in
  (∀ w', alone w' → db_tables w' = deleted.1.2 (db_tables w) → Q deleted.1.1 w') →
  (∀ e w', alone w' → (db_tables w' = db_tables w ∨ db_tables w' = deleted.1.2 (db_tables w)) → X e w') → wp (deleteRuns runs asOf) Q X w.
Proof.
  intros Ha deleted HQ HX. unfold deleteRuns. apply wp_bind, alone_begin_wp; [done| |by auto]. intros w1 H1.
  unfold or_rollback. apply wp_catch.
  assert (∀ e w', broken (db_tables w) w' ∨ alone w' ∧ db_lost w' = true ∧ db_tables w' = deleted.1.2 (db_tables w) →
    wp (_ ← quiet_rollback; throw e) Q X w') as Hf.
  { intros e w' [Hb|(Hal & Hl & Ht)]; apply wp_bind.
    - destruct (alone_quiet_rollback _ _ Hb) as (Ha2 & Ht2 & Hr). unfold wp. destruct (quiet_rollback w') as [r w2]. cbn in *. subst r. auto.
    - unfold wp, quiet_rollback, try_catch, rollback. rewrite Hl. apply HX; auto. }
  apply wp_bind. eapply alone_tx_query_wp; [exact H1| |by auto]. intros n w2 H2.
  apply wp_bind. eapply alone_commit_wp; [exact H2| |]; [|intros e w' Hw; by apply Hf]. intros w3 H3 Ht3. apply wp_ret, HQ; [done|exact Ht3].
Qed.
End alone.

(** ** What a deletion leaves *)

Section left.
Context (t0 : Tables) (asOf : Z).
Implicit Types t : Tables.

(** No row of a run is left. *)
Definition gone (k : Key) t : Prop := same_run k no_tables t.

(** A run is as it was, or was expired and is gone; what is left in the catalog is as it was, with all that a run refers to. *)
Record kept t : Prop := {
  ke_runs k : same_run k t0 t ∨ still_expired asOf t0 k = true ∧ gone k t;
  ke_catalog s b : qe_blobs t !! s = Some b → qe_blobs t0 !! s = Some b;
  ke_referenced k (s : str) : s ∈ relations k t → qe_blobs t !! s = qe_blobs t0 !! s;
}.

Lemma kept_refl : kept t0.
Proof. split; [by left|done|done]. Qed.

Lemma same_run_relations k t t' : same_run k t t' → relations k t' = relations k t.
Proof. intros [_ _ _ H _ _]. unfold relations. by rewrite H. Qed.
Lemma gone_relations k t : gone k t → relations k t = ∅.
Proof. intros H. by rewrite (same_run_relations _ _ _ H). Qed.
Lemma gone_not_expired k t : gone k t → still_expired asOf t k = false.
Proof. intros [H _ _ _ _ _]. unfold still_expired. by rewrite H. Qed.
Lemma same_run_expired k t t' : same_run k t t' → still_expired asOf t' k = still_expired asOf t k.
Proof. intros [H1 _ H2 _ _ _]. unfold still_expired. by rewrite H1, H2. Qed.

Lemma delete_run_gone k t : gone k (delete_run k t).
Proof. split; cbn; by rewrite lookup_delete_eq. Qed.
Lemma delete_run_other k k' t : k ≠ k' → same_run k' t (delete_run k t).
Proof. intros Hk. split; cbn; by rewrite lookup_delete_ne. Qed.

Lemma gone_same k t t' : same_run k t t' → gone k t → gone k t'.
Proof. intros H1 H2. unfold gone. by etrans. Qed.

Lemma kept_delete_run k t : still_expired asOf t k = true → kept t → kept (delete_run k t).
Proof.
  intros He [K1 K2 K3]. split; [| exact K2 |].
  - intros k'. destruct (decide (k = k')) as [<-|Hk].
    + right. split; [|apply delete_run_gone]. destruct (K1 k) as [Hs|[? _]]; [|done]. by rewrite <- (same_run_expired _ _ _ Hs).
    + destruct (K1 k') as [Hs|[He' Hg]]; [left; etrans; [exact Hs|]|right; split; [done|eapply gone_same; [|exact Hg]]]; by apply delete_run_other.
  - intros k' s Hs. apply (K3 k'). destruct (decide (k = k')) as [<-|Hk].
    + rewrite (gone_relations _ _ (delete_run_gone k t)) in Hs. by apply elem_of_empty in Hs.
    + by rewrite (same_run_relations _ _ _ (delete_run_other k k' t Hk)) in Hs.
Qed.

(** The runs a batch deletes, and those it leaves. *)
Definition delete_all (keys : list Key) t : Tables := foldl (λ t k, if still_expired asOf t k then delete_run k t else t) t keys.

Lemma kept_delete_all keys t : kept t → kept (delete_all keys t).
Proof.
  revert t. induction keys as [|k keys IH]; intros t Hk; [done|]. cbn. apply IH. destruct (still_expired asOf t k) eqn:E; [by apply kept_delete_run|done].
Qed.

Lemma delete_all_gone keys t k : k ∈ keys → still_expired asOf t k = true → gone k (delete_all keys t).
Proof.
  intros Hk He. assert (∀ keys t, gone k t → gone k (delete_all keys t)) as Hstay.
  { clear. induction keys as [|k' keys IH]; intros t Hg; [done|]. cbn. apply IH. destruct (still_expired asOf t k') eqn:E; [|done].
    destruct (decide (k' = k)) as [->|Hne]; [apply delete_run_gone|]. by eapply gone_same; [apply delete_run_other|]. }
  revert t He. induction keys as [|k' keys IH]; intros t He; [by apply not_elem_of_nil in Hk|]. cbn [delete_all foldl].
  destruct (decide (k' = k)) as [->|Hne].
  - rewrite He. apply Hstay, delete_run_gone.
  - apply elem_of_cons in Hk as [->|Hk]; [done|]. apply IH; [done|]. destruct (still_expired asOf t k'); [|done].
    by rewrite (same_run_expired _ _ _ (delete_run_other k' k t Hne)).
Qed.

Lemma referenced_spec (s : str) t : referenced s t = false ↔ ∀ k, s ∉ relations k t.
Proof.
  unfold referenced, relations. split.
  - intros Hf k Hs. destruct (qe_run_blobs t !! k) as [shas|] eqn:E; [|by apply elem_of_empty in Hs]. cbn in Hs.
    assert (existsb (λ p : Key * gset str, bool_decide (s ∈ p.2)) (map_to_list (qe_run_blobs t)) = true); [|congruence].
    apply existsb_exists. exists (k, shas). split; [by apply list_elem_of_In, elem_of_map_to_list|]. by apply bool_decide_eq_true_2.
  - intros Hn. apply not_true_iff_false. intros ([k shas] & Hin & Hs)%existsb_exists. apply list_elem_of_In, elem_of_map_to_list in Hin.
    apply bool_decide_eq_true_1 in Hs. apply (Hn k). by rewrite Hin.
Qed.

Lemma kept_delete_blob s n t : kept t → kept ((delete_blob s n t).1.2 t).
Proof.
  intros [K1 K2 K3]. unfold delete_blob. cbn. destruct (referenced s t) eqn:E; [by split|]. split.
  - intros k. destruct (K1 k) as [Hs|[He Hg]]; [left; etrans; [exact Hs|by split]|right; split; [done|eapply gone_same; [|exact Hg]; by split]].
  - intros s' b. cbn. intros Hb. apply K2. destruct (decide (s = s')) as [<-|Hne]; [by rewrite lookup_delete_eq in Hb|by rewrite lookup_delete_ne in Hb].
  - intros k s' Hs'. cbn. rewrite lookup_delete_ne; [by apply (K3 k)|]. intros ->. by apply (proj1 (referenced_spec _ _) E k).
Qed.

Lemma kept_relations k t : kept t → relations k t ⊆ relations k t0.
Proof. intros [K1 _ _]. destruct (K1 k) as [Hs|[_ Hg]]; [by rewrite (same_run_relations _ _ _ Hs)|]. rewrite (gone_relations _ _ Hg). set_solver. Qed.

(** What the catalog does not have, no run refers to. *)
Lemma kept_uncatalogued s t : blob_references t0 → kept t → qe_blobs t !! s = None → ∀ k, s ∉ relations k t.
Proof.
  intros Hr Hk Hn k Hs. destruct (Hr k s) as [b Hb]; [by apply (kept_relations k t Hk)|]. rewrite (ke_referenced _ Hk k s Hs) in Hn. congruence.
Qed.
End left.

(** ** A pass that deletes *)

Section deleting.
Context {SV : Server} {SL : ServerLaws} {D : Type} (root : str) `{BlobDiskLaws D root} (sha256 : bytes → str).
Context (error_message : StoreThrown → str) (errno_code : Errno → str).
Context (t0 : Tables) (d0 : D) (asOf : Z) (Hrefs : blob_references t0).
Implicit Types w : PgWorld D.

(** What a run refers to is in the store as it was. *)
Definition spares (t : Tables) (d : D) : Prop :=
  ∀ k s size, s ∈ relations k t → holds root sha256 d0 s size → holds root sha256 d s size.
Record safe w : Prop := {
  sf_alone : tidy Exclusive (w_db w); sf_kept : kept t0 asOf (db_tables (w_db w)); sf_spares : spares (db_tables (w_db w)) (w_disk w);
}.

Lemma spares_calm t d d' : calm root d d' → spares t d → spares t d'.
Proof. intros C S k s size Hs Hh. eapply holds_preserved; [by apply (calm_preserved root)|]. by eapply S. Qed.
Lemma spares_less t t' d : (∀ k, relations k t' ⊆ relations k t) → spares t d → spares t' d.
Proof. intros Hl S k s size Hs. apply (S k). by apply Hl. Qed.
Lemma spares_removed t d s d' : (∀ k, s ∉ relations k t) → spared root d s d' → spares t d → spares t d'.
Proof.
  intros Hn Hsp S k s' size Hs Hh. destruct (S k s' size Hs Hh) as (ino & Ho & Hk & Hl & Hd). destruct (Hsp s' ino) as (Ho' & Hb & Hk'); [|done|].
  - intros ->. by apply (Hn k).
  - exists ino. by rewrite Hb, Hk'.
Qed.

Lemma delete_all_relations keys t k : relations k (delete_all asOf keys t) ⊆ relations k t.
Proof.
  revert t. induction keys as [|k' keys IH]; intros t; [done|]. cbn [delete_all foldl]. etrans; [apply IH|]. destruct (still_expired asOf t k'); [|done].
  destruct (decide (k' = k)) as [->|Hne]; [rewrite (gone_relations k _ (delete_run_gone k t)); set_solver|].
  by rewrite (same_run_relations _ _ _ (delete_run_other k' k t Hne)).
Qed.
Lemma delete_blob_relations s n t k : relations k ((delete_blob s n t).1.2 t) = relations k t.
Proof. unfold delete_blob. cbn. by destruct (referenced s t). Qed.

(** A call on the store that changes nothing, a read, and what follows a deletion. *)
Lemma safe_disk w d : safe w → calm root (w_disk w) d → safe {| w_db := w_db w; w_disk := d |}.
Proof. intros [A K S] C. split; [done..|]. by eapply spares_calm. Qed.
Lemma still_safe_wp {E A} (f : E → StoreThrown) (m : io D E A) w : safe w → still root m →
  wp (on_disk f m) (λ _ w', safe w' ∧ w_db w' = w_db w) (λ _ w', safe w') w.
Proof.
  intros Hs Hm. specialize (Hm (w_disk w)). unfold wp, on_disk. destruct (m (w_disk w)) as [[a|e] d]; cbn in Hm; [split; [|done]|]; by apply safe_disk.
Qed.
Lemma ask_safe_wp {A} (f : Tables → A) w : safe w →
  wp (on_db (ask_for true f)) (λ a w', safe w' ∧ a = f (db_tables (w_db w)) ∧ db_tables (w_db w') = db_tables (w_db w)) (λ _ w', safe w') w.
Proof.
  intros [A1 K S]. apply on_db_wp. unfold ask_for, ask. apply alone_query_wp; [done|..].
  - intros n b Ha _ Ht. cbn in *. split; [split; cbn; by rewrite ?Ht|done].
  - intros e b Ha Ht. assert (db_tables b = db_tables (w_db w)) as Ht' by (destruct Ht as [|[? ?]]; done). split; cbn; by rewrite ?Ht'.
Qed.

Lemma delete_selected_wp runs w : safe w →
  wp (on_db (delete_selected error_message runs asOf))
    (λ r w', safe w' ∧ Forall (λ x, er_key x ∈ er_key <$> runs ∧ still_expired asOf t0 (er_key x) = true ∧ gone (er_key x) (db_tables (w_db w'))) r.1)
    (λ _ w', safe w') w.
Proof.
  intros [A1 K S]. apply on_db_wp. unfold delete_selected. apply wp_catch, wp_bind.
  assert (∀ b, tidy Exclusive b → db_tables b = db_tables (w_db w) ∨ db_tables b = delete_all asOf (er_key <$> runs) (db_tables (w_db w)) →
    safe {| w_db := b; w_disk := w_disk w |}) as Hsafe.
  { intros b Hb [E|E]; split; cbn; rewrite ?E; try done; [by apply kept_delete_all|]. eapply spares_less; [|exact S].
    intros k. apply delete_all_relations. }
  apply deleteRuns_wp; [done| |].
  - intros b Hb Ht. apply wp_ret. split; [by apply Hsafe; auto|]. cbn [fst]. apply Forall_forall. intros x [Hx Hin]%list_elem_of_filter.
    unfold delete_expired in Hx. cbn in Hx. apply list_elem_of_filter in Hx as [He Hx]. split; [done|]. split.
    + destruct (ke_runs _ _ _ K (er_key x)) as [Hs|[? _]]; [|done]. rewrite <- (same_run_expired asOf _ _ _ Hs). by apply Is_true_true.
    + cbn in *. rewrite Ht. apply delete_all_gone; [by rewrite list_elem_of_fmap; exists x|by apply Is_true_true].
  - intros e b Hb Ht. apply wp_ret. split; [by apply Hsafe|constructor].
Qed.

(** The object of a hash no run refers to. *)
Lemma remove_object_wp sha size origin row w : safe w → (∀ k, sha ∉ relations k (db_tables (w_db w))) →
  wp (on_disk never (remove_object errno_code sha256 root sha size origin row)) (λ _ w', safe w' ∧ w_db w' = w_db w) (λ _ w', safe w') w.
Proof.
  intros [A1 K S] Hn. apply on_disk_wp. unfold remove_object. apply wp_catch, wp_bind.
  eapply wp_mono; [apply (removeObject_wp root)| |].
  - intros [] d Hd; apply wp_ret; (split; [|done]).
    + destruct Hd as (Hsp & _). split; [done..|]. cbn. by eapply spares_removed.
    + by apply safe_disk.
  - intros e d C. apply wp_ret. split; [|done]. by apply safe_disk.
Qed.

Lemma reclaim_catalogued_wp sha size w : safe w →
  wp (reclaim error_message errno_code sha256 root true sha size Catalogued) (λ _ w', safe w') (λ _ w', safe w') w.
Proof.
  intros [A1 K S]. unfold reclaim. cbn [negb]. apply wp_bind, on_db_wp. unfold remove_row. apply wp_catch, wp_bind.
  assert (∀ b, tidy Exclusive b → db_tables b = db_tables (w_db w) ∨ (∃ n, db_tables b = (delete_blob sha n (db_tables (w_db w))).1.2 (db_tables (w_db w))) →
    safe {| w_db := b; w_disk := w_disk w |}) as Hsafe.
  { intros b Hb [E|[n E]]; split; cbn [w_db w_disk]; rewrite ?E; try done; [by apply kept_delete_blob|]. eapply spares_less; [|exact S].
    intros k. by rewrite delete_blob_relations. }
  apply alone_query_wp; [done| |].
  - intros n b Hb _ Ht. apply wp_ret. pose proof (Hsafe b Hb (or_intror (ex_intro _ n Ht))) as Hs.
    destruct (delete_blob sha n (db_tables (w_db w))).1.1 eqn:Ed; [|by apply wp_ret].
    eapply wp_mono; [apply remove_object_wp; [done|]|by intros ? ? []|done]. intros k. cbn [w_db]. rewrite Ht, delete_blob_relations.
    unfold delete_blob in Ed. cbn in Ed. apply andb_true_iff in Ed as [_ Ed]. apply negb_true_iff in Ed. by apply referenced_spec.
  - intros e b Hb Ht. apply wp_ret, wp_ret. by apply Hsafe.
Qed.

Lemma reclaim_rows_wp rows p w : safe w →
  wp (reclaim_rows error_message errno_code sha256 root true rows p) (λ _ w', safe w') (λ _ w', safe w') w.
Proof.
  revert p w. induction rows as [|[sha size] rows IH]; intros p w Hs; cbn [reclaim_rows]; [by apply wp_ret|].
  destruct (over_budget p size); [by apply wp_ret|]. apply wp_bind. eapply wp_mono; [by apply reclaim_catalogued_wp| |done].
  intros r w1 Hw1. by apply IH.
Qed.

(** The objects of a page, none of which that is not passed over is in the catalog. *)
Lemma reclaim_objects_wp catalogued before objects remaining p w : safe w →
  (∀ o, o ∈ objects → bl_sha256 (oe_blob o) ∉ catalogued → qe_blobs (db_tables (w_db w)) !! bl_sha256 (oe_blob o) = None) →
  wp (reclaim_objects error_message errno_code sha256 root true catalogued before objects remaining p) (λ _ w', safe w') (λ _ w', safe w') w.
Proof.
  revert remaining p w. induction objects as [|o objects IH]; intros remaining p w Hs Hn; cbn [reclaim_objects]; [by apply wp_ret|].
  assert (∀ o', o' ∈ objects → bl_sha256 (oe_blob o') ∉ catalogued → qe_blobs (db_tables (w_db w)) !! bl_sha256 (oe_blob o') = None) as Hn'.
  { intros o' Ho'. apply Hn. by right. }
  case_bool_decide as Hc; [by apply IH|]. destruct (before <=? _); [by apply IH|]. destruct (_ || _); [by apply wp_ret|].
  unfold reclaim. cbn [negb]. apply wp_bind. eapply wp_mono; [apply remove_object_wp; [done|]| |done].
  - eapply kept_uncatalogued; [exact Hrefs|apply Hs|]. apply Hn; [by left|done].
  - intros r w1 [Hw1 E1]. apply IH; [done|]. by rewrite E1.
Qed.

Lemma enumerate_store_wp fuel before cursor remaining p w : safe w →
  wp (enumerate_store error_message errno_code sha256 root fuel true before cursor remaining p) (λ _ w', safe w') (λ _ w', safe w') w.
Proof.
  revert cursor remaining p w. induction fuel as [|fuel IH]; intros cursor remaining p w Hs; cbn [enumerate_store]; [by apply wp_throw|].
  apply wp_bind. eapply wp_mono; [apply still_safe_wp; [done|by apply (listObjects_still root)]| |done]. intros page w1 [Hw1 _].
  apply wp_bind. eapply wp_mono; [by apply ask_safe_wp| |done]. intros catalogued w2 (Hw2 & -> & Et).
  apply wp_bind. eapply wp_mono; [apply reclaim_objects_wp; [done|]| |done].
  - intros o Ho Hnc. rewrite Et. destruct (qe_blobs (db_tables (w_db w1)) !! bl_sha256 (oe_blob o)) as [b|] eqn:E; [|done].
    destruct Hnc. unfold catalogued_of. apply elem_of_filter. split; [by rewrite E|]. apply elem_of_list_to_set, list_elem_of_fmap. by exists o.
  - intros [[p' remaining'] done_] w3 Hw3. destruct done_; [by apply wp_ret|]. destruct (ol_next page); [by apply IH|by apply wp_ret].
Qed.

Lemma sweep_files_wp files swept problems w : safe w →
  wp (sweep_files errno_code root true files swept problems) (λ _ w', safe w') (λ _ w', safe w') w.
Proof.
  revert swept problems w. induction files as [|file files IH]; intros swept problems w Hs; cbn [sweep_files]; [by apply wp_ret|].
  apply wp_bind. unfold sweep_file. cbn [negb]. eapply wp_mono; [apply still_safe_wp; [done|]| |done].
  - apply still_catch; [apply still_bind; [by apply (removeTemporaryFile_still root)|intros; apply still_ret]|]. intros e.
    apply still_bind; [|intros; apply still_ret]. unfold temporaryKey, checkTemporaryName. destruct (TEMPORARY_NAME _); [|apply still_throw].
    apply still_bind; [apply still_ret|intros; apply still_ret].
  - intros [s ps] w1 [Hw1 _]. by apply IH.
Qed.

Lemma sweep_wp before maxTemps w : safe w → wp (sweep errno_code root true before maxTemps) (λ _ w', safe w') (λ _ w', safe w') w.
Proof.
  intros Hs. unfold sweep. destruct before as [before|]; [|by apply wp_ret]. apply wp_bind.
  eapply wp_mono; [apply still_safe_wp; [done|by apply (listTemporaryFiles_still root)]| |done]. intros listed w1 [Hw1 _].
  apply wp_bind. eapply wp_mono; [by apply sweep_files_wp| |done]. intros [swept problems] w2 Hw2. by apply wp_ret.
Qed.
End deleting.

(** ** A whole pass *)

Lemma kept_trans asOf t0 t1 t2 : kept t0 asOf t1 → kept t1 asOf t2 → kept t0 asOf t2.
Proof.
  intros [A1 A2 A3] [B1 B2 B3]. split; [| by eauto |].
  - intros k. destruct (A1 k) as [Ha|[He Hg]], (B1 k) as [Hb|[He' Hg']].
    + left. by etrans.
    + right. split; [by rewrite <- (same_run_expired asOf _ _ _ Ha)|done].
    + right. split; [done|]. by eapply gone_same.
    + by right.
  - intros k s Hs. rewrite (B3 k s Hs). apply (A3 k).
    destruct (B1 k) as [Hb|[_ Hg]]; [by rewrite (same_run_relations _ _ _ Hb) in Hs|].
    rewrite (gone_relations _ _ Hg) in Hs. by apply elem_of_empty in Hs.
Qed.

Lemma kept_gone asOf t0 t k : kept t0 asOf t → gone k t0 → gone k t.
Proof. intros [K1 _ _] Hg. destruct (K1 k) as [Hs|[_ ?]]; [by eapply gone_same|done]. Qed.

Lemma kept_references asOf t0 t : blob_references t0 → kept t0 asOf t → blob_references t.
Proof.
  intros Hr Hk k s Hs. change (s ∈ relations k t) in Hs. rewrite (ke_referenced _ _ _ Hk k s Hs). apply (Hr k).
  by apply (kept_relations _ _ k _ Hk).
Qed.

Section whole.
Context {SV : Server} {SL : ServerLaws} {D : Type} (root : str) `{BlobDiskLaws D root} (sha256 : bytes → str).
Context (error_message : StoreThrown → str) (errno_code : Errno → str).
Implicit Types w : PgWorld D.
Abbreviation safe := (safe root sha256).

Lemma pass_checked_wp fuel c t0 d0 w : blob_references t0 → safe t0 d0 (ck_asOf c) w →
  wp (pass_checked error_message errno_code sha256 root fuel true c)
    (λ rep w', safe t0 d0 (ck_asOf c) w' ∧ mr_asOf rep = ck_asOf c ∧ mr_dryRun rep = false ∧
       Forall (λ x, still_expired (ck_asOf c) t0 (er_key x) = true ∧ gone (er_key x) (db_tables (w_db w'))) (mr_expiredRuns rep))
    (λ _ w', safe t0 d0 (ck_asOf c) w') w.
Proof.
  intros Hrefs Hs. set (asOf := ck_asOf c) in *. unfold pass_checked. fold asOf.
  apply wp_bind. eapply (wp_mono _ (λ _ w', safe t0 d0 asOf w') _ (λ _ w', safe t0 d0 asOf w')); [|intros [selected more] w1 S1|done].
  { unfold selectExpired. apply on_db_wp, wp_bind. pose proof (ask_safe_wp root sha256 t0 d0 asOf (λ t, take (Z.to_nat (ck_maxRuns c + 1)) (expired_runs asOf t)) w Hs) as Ha.
    unfold wp, on_db in Ha |- *. destruct (ask_for true _ (w_db w)) as [[found|e] b]; [destruct Ha as [Ha _]|]; exact Ha. }
  apply wp_bind. eapply (wp_mono _ (λ r w', safe t0 d0 asOf w' ∧
      Forall (λ x, still_expired asOf t0 (er_key x) = true ∧ gone (er_key x) (db_tables (w_db w'))) r.1) _ (λ _ w', safe t0 d0 asOf w')); [| |done].
  { destruct (0 <? Z.of_nat (length selected)) eqn:El; cbn [andb].
    - eapply wp_mono; [by apply (delete_selected_wp root)| |done]. intros r w2 [S2 F]. split; [done|]. eapply Forall_impl; [exact F|]. by intros x (_ & ?).
    - apply wp_ret. split; [done|]. destruct selected; [constructor|]. apply Z.ltb_ge in El. cbn [length] in El. lia. }
  intros [expiredRuns problems] w2 [S2 Hgone]. cbn [fst] in Hgone.
  (* from here on nothing but the catalog and the store changes *)
  set (t1 := db_tables (w_db w2)) in *. pose proof (sf_kept _ _ _ _ _ _ S2) as K1. fold t1 in K1.
  assert (safe t1 d0 asOf w2) as S2'. { destruct S2 as [A K S]. split; [done|apply kept_refl|exact S]. }
  assert (blob_references t1) as Hrefs1 by by eapply kept_references.
  assert (∀ w', safe t1 d0 asOf w' → safe t0 d0 asOf w' ∧
    Forall (λ x, still_expired asOf t0 (er_key x) = true ∧ gone (er_key x) (db_tables (w_db w'))) expiredRuns) as Hend.
  { intros w' [A K S]. split; [split; [done|by eapply kept_trans|done]|]. eapply Forall_impl; [exact Hgone|]. intros x [He Hg].
    split; [done|]. eapply kept_gone; [exact K|exact Hg]. }
  clear Hs S1 S2. eapply (wp_mono _ (λ rep w', safe t1 d0 asOf w' ∧ mr_asOf rep = asOf ∧ mr_dryRun rep = false ∧ mr_expiredRuns rep = expiredRuns) _
    (λ _ w', safe t1 d0 asOf w')).
  - apply wp_bind. eapply wp_mono; [by apply (ask_safe_wp root)| |done]. intros rows w3 (S3 & _ & _).
    apply wp_bind. eapply wp_mono; [by apply (reclaim_rows_wp root)| |done]. intros p w4 S4.
    apply wp_bind. eapply (wp_mono _ (λ _ w', safe t1 d0 asOf w') _ (λ _ w', safe t1 d0 asOf w')); [|intros p' w5 S5|done].
    { destruct (ck_orphansBefore c); [by apply (enumerate_store_wp root)|by apply wp_ret]. }
    apply wp_bind. eapply wp_mono; [by apply (sweep_wp root)| |done]. intros [[swept ps] moreTemps] w6 S6.
    apply wp_bind. unfold legacyRuns. pose proof (ask_safe_wp root sha256 t1 d0 asOf (λ t, Z.of_nat (length (legacy_of t))) w6 S6) as Ha.
    apply on_db_wp, wp_bind. unfold wp at 1. unfold wp, on_db in Ha. destruct (ask_for true _ (w_db w6)) as [[n|e] b]; [|exact Ha].
    destruct Ha as [S7 _]. apply wp_bind.
    pose proof (ask_safe_wp root sha256 t1 d0 asOf (λ t, legacy_run t <$> take (Z.to_nat (ck_maxLegacy c)) (legacy_of t)) _ S7) as Ha.
    unfold wp at 1. unfold wp, on_db in Ha. cbn [w_db w_disk] in Ha. destruct (ask_for true _ b) as [[l|e] b']; [|exact Ha].
    destruct Ha as [S8 _]. apply wp_ret, wp_ret. by split_and!.
  - intros rep w' (S & E1 & E2 & ->). destruct (Hend w' S). by split_and!.
  - intros e w' S. by apply Hend.
Qed.

Lemma check_options_asOf o c : check_options o = Ok c → mo_asOf o = Some (ck_asOf c).
Proof.
  unfold check_options. intros (asOf & Ha & E)%bind_Ok_inv. repeat apply bind_Ok_inv in E as (? & _ & E).
  destruct (match mo_afterSha256 o with Some a => _ | None => _ end); [done|]. injection E as <-. cbn.
  unfold checkDate in Ha. destruct (mo_asOf o); [|done]. by injection Ha as ->.
Qed.

(** C5 Retention takes nothing that is needed: whatever fails and wherever, what a pass does under the exclusive lock, between the work of
    others before and after, is this: a run and all its rows stay as they were unless its expiry is at or before [asOf], and then it goes
    whole; a catalog row goes only when no run refers to it; and every blob a remaining run refers to is in the store as it was.
    The runs it reports as expired were, and are gone. If the lock was not had, or the options are refused, nothing happened; and a
    connection back in the pool is clean. *)
Theorem retention_takes_nothing_needed fuel o w r w' :
  db_client (w_db w) = NotConnected → blob_references (db_tables (w_db w)) →
  run_pass error_message errno_code sha256 root fuel o w = (r, w') →
  (db_client (w_db w') = Pooled → db_leases (w_db w') = [] ∧ db_tx (w_db w') = None) ∧
  ((∃ e, r = Throw e ∧ w_disk w' = w_disk w ∧ others (db_tables (w_db w)) (db_tables (w_db w'))) ∨
   ∃ asOf t0 t1, mo_asOf o = Some asOf ∧ others (db_tables (w_db w)) t0 ∧ kept t0 asOf t1 ∧ others t1 (db_tables (w_db w')) ∧
     spares root sha256 (w_disk w) t1 (w_disk w') ∧
     ∀ rep, r = Ok rep → mr_asOf rep = asOf ∧ mr_dryRun rep = false ∧
       Forall (λ x, still_expired asOf t0 (er_key x) = true ∧ gone (er_key x) t1) (mr_expiredRuns rep)).
Proof.
  intros Hc Hrefs. unfold run_pass, withMaintenanceLock, mbind, io_mbind, pure_.
  destruct (match mo_lockTimeoutMs o with None => _ | Some t => _ end) as [timeout|e].
  2: { intros [= <- <-]. rewrite Hc. split; [done|]. left. by exists e. }
  intros E. apply withLock_cases in E as [(e & -> & Hd & Ho & Hp)|(w1 & w2 & Hh & Ho1 & Hd1 & Ef & Hd2 & Ho2 & Hp)]; [..|done].
  { split; [done|]. left. by exists e. }
  assert (tidy Exclusive (w_db w1)) as Ht1 by (destruct Hh as (? & ? & ? & ?); split; auto).
  unfold pass_, pure_, mbind, io_mbind in Ef. destruct (check_options o) as [c|e] eqn:Eo.
  2: { injection Ef as <- <-. split; [by apply Hp|]. left. exists e. rewrite Hd2, Hd1. split_and!; [done..|]. etrans; [exact Ho1|]. by apply Ho2. }
  assert (blob_references (db_tables (w_db w1))) as Hrefs1.
  { clear -SL Hrefs Ho1. induction Ho1 as [|t t1 t2 (n & leases & ls & ->) _ IH]; [done|]. by apply IH, others_references. }
  pose proof (pass_checked_wp fuel c (db_tables (w_db w1)) (w_disk w1) w1 Hrefs1) as Hw. unfold wp in Hw. rewrite Ef in Hw.
  assert (safe (db_tables (w_db w1)) (w_disk w1) (ck_asOf c) w2 ∧ ∀ rep, r = Ok rep → mr_asOf rep = ck_asOf c ∧ mr_dryRun rep = false ∧
    Forall (λ x, still_expired (ck_asOf c) (db_tables (w_db w1)) (er_key x) = true ∧ gone (er_key x) (db_tables (w_db w2))) (mr_expiredRuns rep)) as [[A K S] Hrep].
  { destruct r as [rep|e].
    - destruct Hw as (? & ? & ? & ?); [split; [done|apply kept_refl|by intros ? ? ?]|]. split; [done|]. by intros ? [= <-].
    - split; [|done]. apply Hw. split; [done|apply kept_refl|by intros ? ? ?]. }
  split; [by apply Hp|]. right. exists (ck_asOf c), (db_tables (w_db w1)), (db_tables (w_db w2)).
  rewrite Hd2, <- Hd1. split_and!; [by apply check_options_asOf|exact Ho1|exact K|by apply Ho2|exact S|exact Hrep].
Qed.
End whole.

(** ** A preview *)

Section previewing.
Context {SV : Server} {D : Type} (root : str) `{BlobDiskLaws D root} (sha256 : bytes → str).
Context (error_message : StoreThrown → str) (errno_code : Errno → str).
Implicit Types w : PgWorld D.

(** The database moves by the work of others, the store not at all of ours. *)
Definition looks {A} (m : io (PgWorld D) StoreThrown A) : Prop :=
  ∀ w, others (db_tables (w_db w)) (db_tables (w_db (m w).2)) ∧ calm root (w_disk w) (w_disk (m w).2).

Lemma looks_ret {A} (a : A) : looks (mret a).
Proof. by intros w. Qed.
Lemma looks_throw {A} e : looks (throw (A := A) e).
Proof. by intros w. Qed.
Lemma looks_pure {A} (r : res StoreThrown A) : looks (pure_ r).
Proof. by intros w. Qed.
Lemma looks_bind {A B} (m : io (PgWorld D) StoreThrown A) (f : A → io (PgWorld D) StoreThrown B) : looks m → (∀ a, looks (f a)) → looks (m ≫= f).
Proof.
  intros Hm Hf w. destruct (Hm w) as [Ho C]. unfold mbind, io_mbind. destruct (m w) as [[a|e] w1]; [|done].
  destruct (Hf a w1) as [Ho' C']. split; by etrans.
Qed.
Lemma looks_on_disk {E A} (f : E → StoreThrown) (m : io D E A) : still root m → looks (on_disk f m).
Proof. intros Hm w. specialize (Hm (w_disk w)). unfold on_disk. by destruct (m (w_disk w)) as [[a|e] d]. Qed.
Lemma looks_on_db {A} (m : io Db StoreThrown A) : (∀ b, others (db_tables b) (db_tables (m b).2)) → looks (on_db m).
Proof. intros Hm w. specialize (Hm (w_db w)). unfold on_db. by destruct (m (w_db w)) as [[a|e] b]. Qed.

Lemma ask_others {A} (f : Tables → A) (b : Db) : others (db_tables b) (db_tables (ask_for false f b).2).
Proof.
  unfold ask_for, ask, pool_query, mbind, io_mbind. destruct (connect b) as [[[]|e] b1] eqn:Ec; apply connect_cases in Ec as [Ho Hc]; [|done].
  destruct Hc as (Htx & _ & _). destruct (select_writes_nothing f b1) as [Ho2 _]; [unfold unwritten; by rewrite Htx|].
  unfold select in Ho2. unfold try_catch. destruct (query _ b1) as [[a|e] b2]; cbn in *; (etrans; [exact Ho|exact Ho2]).
Qed.
Lemma selectExpired_looks asOf max : looks (on_db (selectExpired false asOf max)).
Proof.
  apply looks_on_db. intros b. unfold selectExpired, mbind, io_mbind.
  pose proof (ask_others (λ t, take (Z.to_nat (max + 1)) (expired_runs asOf t)) b) as Ho. by destruct (ask_for false _ b) as [[l|e] b1].
Qed.
Lemma legacyRuns_looks max : looks (on_db (legacyRuns false max)).
Proof.
  apply looks_on_db. intros b. unfold legacyRuns, mbind, io_mbind.
  pose proof (ask_others (λ t, Z.of_nat (length (legacy_of t))) b) as Ho. destruct (ask_for false _ b) as [[n|e] b1]; [|done].
  pose proof (ask_others (λ t, legacy_run t <$> take (Z.to_nat max) (legacy_of t)) b1) as Ho2. cbn in Ho.
  destruct (ask_for false _ b1) as [[l|e] b2]; cbn in *; (etrans; [exact Ho|exact Ho2]).
Qed.

Lemma reclaim_looks sha size origin : looks (reclaim error_message errno_code sha256 root false sha size origin).
Proof.
  apply looks_on_disk. unfold reclaim_preview. apply still_catch.
  - apply still_bind; [by apply (verify_still root)|intros; apply still_ret].
  - intros [[] ? ?|?|?|]; apply still_ret.
Qed.
Lemma reclaim_rows_looks rows p : looks (reclaim_rows error_message errno_code sha256 root false rows p).
Proof.
  revert p. induction rows as [|[sha size] rows IH]; intros p; cbn [reclaim_rows]; [apply looks_ret|].
  destruct (over_budget p size); [apply looks_ret|]. apply looks_bind; [apply reclaim_looks|intros r; apply IH].
Qed.
Lemma reclaim_objects_looks catalogued before objects remaining p :
  looks (reclaim_objects error_message errno_code sha256 root false catalogued before objects remaining p).
Proof.
  revert remaining p. induction objects as [|o objects IH]; intros remaining p; cbn [reclaim_objects]; [apply looks_ret|].
  case_bool_decide; [apply IH|]. destruct (before <=? _); [apply IH|]. destruct (_ || _); [apply looks_ret|].
  apply looks_bind; [apply reclaim_looks|intros r; apply IH].
Qed.
Lemma enumerate_store_looks fuel before cursor remaining p :
  looks (enumerate_store error_message errno_code sha256 root fuel false before cursor remaining p).
Proof.
  revert cursor remaining p. induction fuel as [|fuel IH]; intros cursor remaining p; cbn [enumerate_store]; [apply looks_throw|].
  apply looks_bind; [apply looks_on_disk; by apply (listObjects_still root)|]. intros page.
  apply looks_bind; [apply looks_on_db, ask_others|]. intros catalogued. apply looks_bind; [apply reclaim_objects_looks|].
  intros [[p' r'] []]; [apply looks_ret|]. destruct (ol_next page); [apply IH|apply looks_ret].
Qed.
Lemma sweep_looks before maxTemps : looks (sweep errno_code root false before maxTemps).
Proof.
  unfold sweep. destruct before as [before|]; [|apply looks_ret].
  apply looks_bind; [apply looks_on_disk; by apply (listTemporaryFiles_still root)|]. intros listed.
  apply looks_bind; [|intros []; apply looks_ret].
  generalize (unsafe_temporary <$> tl_problems listed). generalize (@nil ReclaimedTemporaryFile).
  induction (take _ (tl_files listed)) as [|file files IH]; intros swept problems; cbn [sweep_files]; [apply looks_ret|].
  apply looks_bind; [apply looks_ret|]. intros [s ps]. apply IH.
Qed.

(** What a preview says of a blob: it would go, or there is nothing to go. *)
Definition planned (b : ReclaimedBlob) : Prop := rc_catalogRowRemoved b = false ∧ (rc_outcome b = BlobPlanned ∨ rc_outcome b = ObjectAbsent).
Abbreviation all_planned := (λ p : Pass, Forall planned (ps_blobs p)).

Lemma planned_noted r size p : match r.1 with Some b => planned b | None => True end → all_planned p → all_planned (noted r (spend size p)).
Proof. intros Hr Hp. unfold noted. cbn. apply Forall_app. split; [done|]. destruct r.1; constructor; [done|constructor]. Qed.
Lemma reclaim_planned sha size origin w :
  wp (reclaim error_message errno_code sha256 root false sha size origin) (λ r _, match r.1 with Some b => planned b | None => True end) (λ _ _, True) w.
Proof.
  unfold reclaim. cbn [negb]. apply on_disk_wp. unfold reclaim_preview. apply wp_catch, wp_bind.
  eapply wp_mono; [apply anything| |].
  - intros x d _. apply wp_ret. cbn. unfold planned. cbn. auto.
  - intros [[] ? ?|?|?|] d _; apply wp_ret; cbn; unfold planned; cbn; auto.
Qed.
Lemma reclaim_rows_planned rows p w : all_planned p →
  wp (reclaim_rows error_message errno_code sha256 root false rows p) (λ p' _, all_planned p') (λ _ _, True) w.
Proof.
  revert p w. induction rows as [|[sha size] rows IH]; intros p w Hp; cbn [reclaim_rows]; [by apply wp_ret|].
  destruct (over_budget p size); [by apply wp_ret|]. apply wp_bind. eapply wp_mono; [apply reclaim_planned| |done].
  intros r w1 Hr. by apply IH, planned_noted.
Qed.
Lemma reclaim_objects_planned catalogued before objects remaining p w : all_planned p →
  wp (reclaim_objects error_message errno_code sha256 root false catalogued before objects remaining p) (λ r _, all_planned r.1.1) (λ _ _, True) w.
Proof.
  revert remaining p w. induction objects as [|o objects IH]; intros remaining p w Hp; cbn [reclaim_objects]; [by apply wp_ret|].
  case_bool_decide; [by apply IH|]. destruct (before <=? _); [by apply IH|]. destruct (_ || _); [by apply wp_ret|].
  apply wp_bind. eapply wp_mono; [apply reclaim_planned| |done]. intros r w1 Hr. by apply IH, planned_noted.
Qed.
Lemma enumerate_store_planned fuel before cursor remaining p w : all_planned p →
  wp (enumerate_store error_message errno_code sha256 root fuel false before cursor remaining p) (λ p' _, all_planned p') (λ _ _, True) w.
Proof.
  revert cursor remaining p w. induction fuel as [|fuel IH]; intros cursor remaining p w Hp; cbn [enumerate_store]; [by apply wp_throw|].
  apply wp_bind. eapply wp_mono; [apply anything| |done]. intros page w1 _.
  apply wp_bind. eapply wp_mono; [apply anything| |done]. intros catalogued w2 _.
  apply wp_bind. eapply wp_mono; [by apply reclaim_objects_planned| |done]. intros [[p' r'] []] w3 Hp'; [by apply wp_ret|].
  destruct (ol_next page); [by apply IH|by apply wp_ret].
Qed.

Lemma pass_looks fuel o : looks (preview_pass error_message errno_code sha256 root fuel o).
Proof.
  unfold preview_pass, pass_. apply looks_bind; [apply looks_pure|]. intros c. unfold pass_checked.
  apply looks_bind; [apply selectExpired_looks|]. intros [selected more]. apply looks_bind; [apply looks_ret|]. intros [expiredRuns problems].
  apply looks_bind; [apply looks_on_db, ask_others|]. intros rows. apply looks_bind; [apply reclaim_rows_looks|]. intros p.
  apply looks_bind; [destruct (ck_orphansBefore c); [apply enumerate_store_looks|apply looks_ret]|]. intros p'.
  apply looks_bind; [apply sweep_looks|]. intros [[swept ps] moreTemps]. apply looks_bind; [apply legacyRuns_looks|]. intros legacy. apply looks_ret.
Qed.
Lemma pass_planned fuel o w :
  wp (preview_pass error_message errno_code sha256 root fuel o) (λ rep _, mr_dryRun rep = true ∧ Forall planned (mr_blobs rep)) (λ _ _, True) w.
Proof.
  unfold preview_pass, pass_. apply wp_bind. eapply wp_mono; [apply anything| |done]. intros c w0 _. unfold pass_checked.
  apply wp_bind. eapply wp_mono; [apply anything| |done]. intros [selected more] w1 _.
  apply wp_bind. eapply wp_mono; [apply anything| |done]. intros [expiredRuns problems] w2 _.
  apply wp_bind. eapply wp_mono; [apply anything| |done]. intros rows w3 _.
  apply wp_bind. eapply wp_mono; [apply reclaim_rows_planned; constructor| |done]. intros p w4 Hp.
  apply wp_bind. eapply (wp_mono _ (λ p' _, all_planned p') _ (λ _ _, True)); [|intros p' w5 Hp'|done].
  { destruct (ck_orphansBefore c); [by apply enumerate_store_planned|by apply wp_ret]. }
  apply wp_bind. eapply wp_mono; [apply anything| |done]. intros [[swept ps] moreTemps] w6 _.
  apply wp_bind. eapply wp_mono; [apply anything| |done]. intros legacy w7 _. by apply wp_ret.
Qed.

(** C15 A preview changes nothing: whatever it answers and wherever it fails, the tables have moved only by the work of others and
    every object of the store is where it was with its bytes; and it says that it is a preview. *)
Theorem preview_changes_nothing fuel o w :
  let '(r, w') := preview_pass error_message errno_code sha256 root fuel o w in
  others (db_tables (w_db w)) (db_tables (w_db w')) ∧ preserved root (w_disk w) (w_disk w') ∧
  ∀ rep, r = Ok rep → mr_dryRun rep = true ∧ Forall planned (mr_blobs rep).
Proof.
  pose proof (pass_looks fuel o w) as Hl. pose proof (pass_planned fuel o w) as Hp. unfold wp in Hp.
  destruct (preview_pass _ _ _ _ fuel o w) as [r w']. destruct Hl as [Ho C]. split_and!; [done|by apply (calm_preserved root)|].
  by intros rep ->.
Qed.
End previewing.

(** ** A pass comes to an end *)

(** A hash as a number, in the order of hashes. *)
Fixpoint hash_value (s : str) : Z := match s with [] => 0 | u :: s => Z.of_N u * 128 ^ Z.of_nat (length s) + hash_value s end.

Lemma hash_value_bound (s : str) : Forall (λ u, (u < 128)%N) s → 0 <= hash_value s < 128 ^ Z.of_nat (length s).
Proof.
  induction 1 as [|u s Hu _ IH]; [done|]. cbn [hash_value length]. rewrite Nat2Z.inj_succ, Z.pow_succ_r by lia.
  set (b := 128 ^ Z.of_nat (length s)) in *. nia.
Qed.
Lemma hash_value_lt (a b : str) : length a = length b → Forall (λ u, (u < 128)%N) a → Forall (λ u, (u < 128)%N) b →
  str_ltb a b = true → hash_value a < hash_value b.
Proof.
  revert b. induction a as [|x a IH]; intros [|y b] Hl Ha Hb Hlt; try done. apply Forall_cons in Ha as [Hx Ha], Hb as [Hy Hb].
  assert (length a = length b) as Hl' by (cbn in Hl; lia).
  cbn [hash_value]. pose proof (hash_value_bound a Ha) as Ba. pose proof (hash_value_bound b Hb) as Bb. rewrite Hl' in Ba |- *.
  set (p := 128 ^ Z.of_nat (length b)) in *. cbn [str_ltb] in Hlt. destruct (N.eqb_spec x y) as [->|Hne].
  - specialize (IH b Hl' Ha Hb Hlt). lia.
  - apply N.ltb_lt in Hlt. nia.
Qed.
Lemma sha256_units h : isSha256 h = true → length h = 64%nat ∧ Forall (λ u, (u < 128)%N) h.
Proof.
  intros Hh. split; [by apply sha_length|]. unfold isSha256 in Hh. apply andb_true_iff in Hh as [_ Hh]. rewrite forallb_forall in Hh.
  apply Forall_forall. intros u Hu%list_elem_of_In%Hh. unfold lower_hex, is_digit, in_range in Hu.
  rewrite orb_true_iff, !andb_true_iff, !N.leb_le in Hu. lia.
Qed.

Section ending.
Context {SV : Server} {D : Type} (root : str) `{BlobDiskLaws D root} (sha256 : bytes → str).
Context (error_message : StoreThrown → str) (errno_code : Errno → str).
Context (Hnames : ∀ p (d : D) es d', bd_readdir p d = (Ok es, d') → NoDup es.*1).
Implicit Types w : PgWorld D.

Lemma stat_if_there_ends p : ends (stat_if_there (W := D) p).
Proof. apply ends_catch. intros []; first [apply ends_ret|by apply ends_throw]. Qed.
Lemma sorted_directory_ends p : ends (sorted_directory (W := D) p).
Proof. apply ends_bind; [|intros; apply ends_ret]. apply ends_catch. intros []; first [apply ends_ret|by apply ends_throw]. Qed.
Lemma boundedLimit_ends v : ends (boundedLimit (W := D) v).
Proof.
  unfold boundedLimit. destruct v as [v|]; [|apply ends_ret]. destruct (as_safe_integer v) as [n|]; [|by apply ends_throw].
  destruct (n <? 1); [by apply ends_throw|apply ends_ret].
Qed.
Lemma list_leaf_ends limit after first second leaf es l : ends (list_leaf (W := D) root limit after first second leaf es l).
Proof.
  revert l. induction es as [|[name kind] es IH]; intros l; cbn [list_leaf]; [apply ends_ret|].
  destruct (match after with Some a => _ | None => _ end); [apply IH|]. destruct (negb (isSha256 name)); [apply IH|].
  destruct (negb (bool_decide _)); [apply IH|]. destruct (_ || _); [apply IH|]. destruct (_ =? limit); [apply ends_ret|].
  apply ends_bind; [apply stat_if_there_ends|]. intros [[[] ? ? ? ?]|]; apply IH.
Qed.
Lemma list_second_ends limit after first ss l : ends (list_second (W := D) root limit after first ss l).
Proof.
  revert l. induction ss as [|s ss IH]; intros l; cbn [list_second]; [apply ends_ret|].
  destruct (li_full l); [apply ends_ret|]. destruct (match after with Some a => _ | None => _ end); [apply IH|].
  apply ends_bind; [apply sorted_directory_ends|]. intros es. apply ends_bind; [apply list_leaf_ends|apply IH].
Qed.
Lemma list_first_ends limit after fs l : ends (list_first (W := D) root limit after fs l).
Proof.
  revert l. induction fs as [|f fs IH]; intros l; cbn [list_first]; [apply ends_ret|].
  destruct (li_full l); [apply ends_ret|]. destruct (match after with Some a => _ | None => _ end); [apply IH|].
  apply ends_bind; [unfold shards; apply ends_bind; [apply sorted_directory_ends|intros; apply ends_ret]|].
  intros [ss ps]. apply ends_bind; [apply list_second_ends|apply IH].
Qed.
Lemma listObjects_ends after limit : ends (listObjects (W := D) root after limit).
Proof.
  unfold listObjects. apply ends_bind; [apply boundedLimit_ends|]. intros n.
  apply ends_bind. { destruct after as [a|]; [|apply ends_ret]. apply ends_bind; [|intros; apply ends_ret].
    unfold checkSha256. destruct (isSha256 a); [apply ends_ret|by apply ends_throw]. }
  intros a. apply ends_bind; [apply (kind_at_ends)|]. intros [|[]]; try apply ends_ret; try by apply ends_throw.
  apply ends_bind; [unfold shards; apply ends_bind; [apply sorted_directory_ends|intros; apply ends_ret]|].
  intros [fs ps]. apply ends_bind; [apply list_first_ends|intros; apply ends_ret].
Qed.

(** A call of the pass that ends, or fails otherwise than by not ending. *)
Definition concludes {A} (m : io (PgWorld D) StoreThrown A) : Prop := ∀ w, wp m (λ _ _, True) (λ e _, e ≠ ThrownBlob Unending) w.

Lemma concludes_ret {A} (a : A) : concludes (mret a).
Proof. by intros w. Qed.
Lemma concludes_bind {A B} (m : io (PgWorld D) StoreThrown A) (f : A → io (PgWorld D) StoreThrown B) :
  concludes m → (∀ a, concludes (f a)) → concludes (m ≫= f).
Proof. intros Hm Hf w. apply wp_bind. eapply wp_mono; [apply Hm|intros a w' _; apply Hf|done]. Qed.
Lemma concludes_never {A} (m : io D Empty_set A) : concludes (on_disk never m).
Proof. intros w. apply on_disk_wp. unfold wp. by destruct (m (w_disk w)) as [[a|[]] d]. Qed.
Lemma concludes_on_disk {A} (m : io D BlobThrown A) : ends m → concludes (on_disk ThrownBlob m).
Proof. intros Hm w. apply on_disk_wp. eapply wp_mono; [apply Hm|done|]. intros e d He. congruence. Qed.
Lemma concludes_ask {A} destructive (s : Stmt A) : concludes (on_db (ask destructive s)).
Proof.
  intros w. apply on_db_wp. assert (∀ b, wp (query s) (λ _ _, True) (λ e _, e ≠ ThrownBlob Unending) b) as Hq.
  { intros b. unfold wp, query, exchange. destruct (db_lost b); [done|]. destruct (sv_fate _) as [|e|ex e]; [|done..].
    by destruct (run_stmt _ _ _) as [[a|e] b1]. }
  unfold ask. destruct destructive; [apply Hq|]. unfold pool_query. apply wp_bind. unfold wp at 1, connect. destruct (sv_fate _); [|done..].
  apply wp_bind. apply wp_catch. eapply wp_mono; [apply Hq| |].
  - intros a b _. apply wp_bind. by apply wp_do, wp_ret.
  - intros e b He. apply wp_bind. by apply wp_do, wp_throw.
Qed.
Lemma reclaim_concludes destructive sha size origin : concludes (reclaim error_message errno_code sha256 root destructive sha size origin).
Proof.
  unfold reclaim. destruct (negb destructive); [apply concludes_never|]. destruct origin; [|apply concludes_never].
  apply concludes_bind; [|intros [?|]; [apply concludes_ret|apply concludes_never]].
  intros w. apply on_db_wp. unfold remove_row. apply wp_catch, wp_bind. unfold wp. destruct (query _ (w_db w)) as [[a|e] b]; done.
Qed.
Lemma reclaim_objects_concludes destructive catalogued before objects remaining p :
  concludes (reclaim_objects error_message errno_code sha256 root destructive catalogued before objects remaining p).
Proof.
  revert remaining p. induction objects as [|o objects IH]; intros remaining p; cbn [reclaim_objects]; [apply concludes_ret|].
  case_bool_decide; [apply IH|]. destruct (before <=? _); [apply IH|]. destruct (_ || _); [apply concludes_ret|].
  apply concludes_bind; [apply reclaim_concludes|intros r; apply IH].
Qed.

(** How many hashes there may be after a cursor. *)
Definition hashes_left (cursor : option str) : Z := match cursor with None => 128 ^ 64 | Some a => 128 ^ 64 - 1 - hash_value a end.

Lemma hashes_left_next cursor h : (∀ a, cursor = Some a → isSha256 a = true) → listable cursor h → 0 <= hashes_left (Some h) < hashes_left cursor.
Proof.
  intros Hc [Hh Hafter]. destruct (sha256_units h Hh) as [Hl Hu]. pose proof (hash_value_bound h Hu) as Hb. rewrite Hl in Hb.
  change (Z.of_nat 64) with 64 in Hb. unfold hashes_left. destruct cursor as [a|]; [|lia].
  destruct (sha256_units a (Hc a eq_refl)) as [Hla Hua]. pose proof (hash_value_lt a h ltac:(congruence) Hua Hu (Hafter a eq_refl)). lia.
Qed.

Lemma enumerate_store_concludes fuel destructive before cursor remaining p :
  (∀ a, cursor = Some a → isSha256 a = true) → hashes_left cursor < Z.of_nat fuel →
  concludes (enumerate_store error_message errno_code sha256 root fuel destructive before cursor remaining p).
Proof.
  revert cursor remaining p. induction fuel as [|fuel IH]; intros cursor remaining p Hc Hf w.
  { exfalso. destruct cursor as [a|]; unfold hashes_left in Hf; [|lia]. destruct (sha256_units a (Hc a eq_refl)) as [Hl Hu].
    pose proof (hash_value_bound a Hu) as Hb. rewrite Hl in Hb. change (Z.of_nat 64) with 64 in Hb. lia. }
  cbn [enumerate_store]. apply wp_bind, on_disk_wp.
  eapply wp_mono; [apply (wp_and _ _ _ _ _ _ (listObjects_wp root cursor (Some (Int CAS_PAGE)) (w_disk w) Hnames) (listObjects_ends _ _ _))| |].
  2: { intros e d [_ He]. congruence. }
  intros page d [(_ & Hl & _ & n & _ & _ & _ & _ & Hnext) _]. apply wp_bind. eapply wp_mono; [apply concludes_ask| |done]. intros catalogued w1 _.
  apply wp_bind. eapply wp_mono; [apply reclaim_objects_concludes| |done]. intros [[p' r'] []] w2 _; [by apply wp_ret|].
  destruct (ol_next page) as [h|]; [|by apply wp_ret].
  assert (listable cursor h) as Hh.
  { destruct (Hnext h eq_refl) as [Hlast _]. rewrite Forall_forall in Hl. apply Hl. by apply last_Some_elem_of. }
  destruct (hashes_left_next cursor h Hc Hh). apply IH; [|lia]. intros a [= <-]. apply Hh.
Qed.

Lemma reclaim_rows_concludes destructive rows p : concludes (reclaim_rows error_message errno_code sha256 root destructive rows p).
Proof.
  revert p. induction rows as [|[sha size] rows IH]; intros p; cbn [reclaim_rows]; [apply concludes_ret|].
  destruct (over_budget p size); [apply concludes_ret|]. apply concludes_bind; [apply reclaim_concludes|intros r; apply IH].
Qed.
Lemma list_temporary_ends before es fs ps : ends (list_temporary (W := D) root before es fs ps).
Proof.
  revert fs ps. induction es as [|[name kind] es IH]; intros fs ps; cbn [list_temporary]; [apply ends_ret|].
  destruct (negb (TEMPORARY_NAME name)); [apply IH|]. destruct (negb (bool_decide _)); [apply IH|].
  apply ends_bind; [apply stat_if_there_ends|]. intros [[[] ? ? ? mtime]|]; try apply IH.
  destruct (match before with Some b => _ | None => _ end); apply IH.
Qed.
Lemma listTemporaryFiles_ends before limit : ends (listTemporaryFiles (W := D) root before limit).
Proof.
  unfold listTemporaryFiles. apply ends_bind; [apply boundedLimit_ends|]. intros n.
  apply ends_bind; [destruct before as [[b|]|]; first [apply ends_ret|by apply ends_throw]|]. intros b.
  apply ends_bind; [apply kind_at_ends|]. intros [|[]]; try apply ends_ret; try by apply ends_throw.
  apply ends_bind; [apply sorted_directory_ends|]. intros es. apply ends_bind; [apply list_temporary_ends|intros []; apply ends_ret].
Qed.
Lemma sweep_concludes destructive before maxTemps : concludes (sweep errno_code root destructive before maxTemps).
Proof.
  unfold sweep. destruct before as [before|]; [|apply concludes_ret].
  apply concludes_bind; [apply concludes_on_disk, listTemporaryFiles_ends|]. intros listed. apply concludes_bind; [|intros []; apply concludes_ret].
  generalize (unsafe_temporary <$> tl_problems listed). generalize (@nil ReclaimedTemporaryFile).
  induction (take _ (tl_files listed)) as [|file files IH]; intros swept problems; cbn [sweep_files]; [apply concludes_ret|].
  apply concludes_bind; [|intros [s ps]; apply IH]. unfold sweep_file. destruct (negb destructive); [apply concludes_ret|].
  apply concludes_on_disk, ends_catch. intros e. apply ends_bind; [|intros; apply ends_ret]. unfold temporaryKey, checkTemporaryName.
  destruct (TEMPORARY_NAME _); [|by apply ends_throw]. apply ends_bind; [apply ends_ret|intros; apply ends_ret].
Qed.
Lemma concludes_on_db_bind {A B} (m : io Db StoreThrown A) (f : A → io Db StoreThrown B) :
  concludes (on_db m) → (∀ a, concludes (on_db (f a))) → concludes (on_db (m ≫= f)).
Proof.
  intros Hm Hf [b d]. apply on_db_wp, wp_bind. specialize (Hm {| w_db := b; w_disk := d |}). unfold wp, on_db in *. cbn [w_db] in *.
  destruct (m b) as [[a|e] b1]; [|exact Hm]. specialize (Hf a {| w_db := b1; w_disk := d |}). unfold wp in Hf. cbn [w_db w_disk] in Hf. destruct (f a b1) as [[x|e] b2]; exact Hf.
Qed.
Lemma selectExpired_concludes destructive asOf max : concludes (on_db (selectExpired destructive asOf max)).
Proof. apply concludes_on_db_bind; [apply concludes_ask|]. by intros a w. Qed.
Lemma legacyRuns_concludes destructive max : concludes (on_db (legacyRuns destructive max)).
Proof. apply concludes_on_db_bind; [apply concludes_ask|intros n]. apply concludes_on_db_bind; [apply concludes_ask|]. by intros a w. Qed.
Lemma delete_selected_concludes runs asOf : concludes (on_db (delete_selected error_message runs asOf)).
Proof.
  intros w. apply on_db_wp. unfold delete_selected. apply wp_catch, wp_bind. unfold wp at 1. by destruct (deleteRuns runs asOf (w_db w)) as [[a|e] b].
Qed.

(** Options are refused with a [TypeError]. *)
Definition typed_ {A} (r : res StoreThrown A) : Prop := ∀ e, r = Throw e → ∃ m, e = ThrownTypeError m.
Lemma typed_bind {A B} (r : res StoreThrown A) (f : A → res StoreThrown B) : typed_ r → (∀ a, typed_ (f a)) → typed_ (r ≫= f).
Proof. intros Hr Hf e. destruct r as [a|e']; [apply Hf|]. intros [= ->]. by apply Hr. Qed.
Lemma checkDate_typed d name : typed_ (checkDate d name).
Proof. intros e. destruct d; [done|]. intros [= <-]. eauto. Qed.
Lemma checkDateIf_typed d name : typed_ (checkDateIf d name).
Proof. intros e. destruct d as [[ms|]|]; [done| |done]. intros [= <-]. eauto. Qed.
Lemma limit_typed v fallback name : typed_ (limit_ v fallback name).
Proof.
  intros e. unfold limit_. destruct v as [v|]; [|done]. destruct (as_safe_integer v) as [n|]; [destruct (n <? 1)|]; [|done|]; intros [= <-]; eauto.
Qed.
Lemma check_options_typed o : typed_ (check_options o).
Proof.
  unfold check_options. apply typed_bind; [apply checkDate_typed|intros asOf]. do 2 (apply typed_bind; [apply checkDateIf_typed|intros ?]).
  do 6 (apply typed_bind; [apply limit_typed|intros ?]). intros e. destruct (match mo_afterSha256 o with Some a => _ | None => _ end); [|done].
  intros [= <-]. eauto.
Qed.

(** C14 A pass comes to an end: as long as no directory lists a name twice, a preview or a deletion never runs through the pages of the store
    for ever, whatever other writers put there in the meantime — every page begins after the last name of the one before it, and there are
    only so many hashes. The fuel the model is given is then no limit of its own. *)
Theorem retention_pass_ends fuel destructive o w :
  128 ^ 64 < Z.of_nat fuel → (pass_ error_message errno_code sha256 root fuel destructive o w).1 ≠ Throw (ThrownBlob Unending).
Proof.
  intros Hf. assert (concludes (pass_ error_message errno_code sha256 root fuel destructive o)) as Hp.
  { unfold pass_. apply concludes_bind.
    { intros w0. unfold wp, pure_. destruct (check_options o) as [c|e] eqn:E; [done|]. by destruct (check_options_typed o e E) as [m ->]. }
    intros c. unfold pass_checked. apply concludes_bind; [apply selectExpired_concludes|]. intros [selected more].
    apply concludes_bind; [destruct (destructive && _); [apply delete_selected_concludes|apply concludes_ret]|]. intros [expiredRuns problems].
    apply concludes_bind; [apply concludes_ask|]. intros rows. apply concludes_bind; [apply reclaim_rows_concludes|]. intros p.
    apply concludes_bind.
    { destruct (ck_orphansBefore c); [|apply concludes_ret]. apply enumerate_store_concludes; [done|exact Hf]. }
    intros p'. apply concludes_bind; [apply sweep_concludes|]. intros [[swept ps] moreTemps].
    apply concludes_bind; [apply legacyRuns_concludes|intros; apply concludes_ret]. }
  specialize (Hp w). unfold wp in Hp. destruct (pass_ _ _ _ _ fuel destructive o w) as [[rep|e] w']; [done|]. cbn. congruence.
Qed.
End ending.
