(* ===== verification/PgDemo.v ===== *)
(** * A run persisted

    A valid directory with one attachment, persisted into an empty store and an
    empty database beside another writer, and what comes of it when the server
    or the attachment fails. *)

From stdpp Require Import gmap sorting.
From S2P Require Import Prelude JsString JsBytes JsMap JsSort JsNumber JsDate Json Model Codec Validator ValidatorRun Demo Io FileSink PwText BlobStore BlobStoreSpec BlobStorePut DemoBlob BlobStoreProps ReadTypes ReadModel Projector ProjectorProps Archive Dto Pg PgStore PgStoreSpec PgPersistSpec Retention RetentionSpec.

Local Open Scope Z_scope.

Definition kept_digest (b : bytes) : bytes := take 32 (reverse b ++ replicate 32 Byte.x00).
Definition kept_blob : bytes := utf8_encode (js "hello").
Definition kept_hash : str := to_hex (kept_digest kept_blob).

Definition kept_events : list Event :=
  imap (λ i p, {| e_env := demo_env (js "s1") (Z.of_nat i + 1) (Z.of_nat i + 1); e_payload := p |})
  [SessionStarted demo_started;
   AttemptStarted (demo_attempt (js "a1") 1);
   AttachmentAdded {| aa_attemptId := js "a1"; aa_stepId := None; aa_name := js "log"; aa_mediaType := js "text/plain"; aa_sizeBytes := 5; aa_sha256 := kept_hash |};
   AttemptFinished (demo_outcome (js "a1") StPassed);
   SessionFinished (demo_finished SePassed);
   RunFinished].

Definition kept_parse (raw : str) : json + str :=
  match nth_error kept_events (Z.to_nat (undec raw)) with
  | Some e => inl (JObj (eventToObject (Known e)))
  | None => inr (js "unexpected token")
  end.
Definition kept_directory : FileSystem :=
  {| fsys_lstat := λ path,
       if str_eqb path (js "run/events") || str_eqb path (js "run/attachments") then Ok KDirectory
       else if str_eqb path (js "run/events/s1.ndjson") || str_eqb path (js "run/attachments/" ++ kept_hash) then Ok KFile else Throw ENOENT;
     fsys_open := λ path,
       if str_eqb path (js "run/events/s1.ndjson")
       then Ok {| of_kind := KFile; of_size := 0; of_sha256 := []; of_text := join [10%N] (imap (λ i _, dec (Z.of_nat i)) kept_events) ++ [10%N] |}
       else if str_eqb path (js "run/attachments/" ++ kept_hash)
       then Ok {| of_kind := KFile; of_size := 5; of_sha256 := kept_hash; of_text := [] |} else Throw ENOENT;
     fsys_readdir := λ path, Ok [js "s1.ndjson"];
     fsys_realpath := λ path, Ok path;
     fsys_join := λ a b, a ++ js "/" ++ b |}.
Definition kept_disk (attachment : bytes) : BlobWorld :=
  create (create {| bw_names := [(js "/root", 1)]; bw_files := λ _, {| fo_kind := KDirectory; fo_bytes := [] |};
            bw_fds := []; bw_random := 0; bw_most := 2; bw_others := [] |}
     (js "run/attachments") {| fo_kind := KDirectory; fo_bytes := [] |})
     (js "run/attachments/" ++ kept_hash) {| fo_kind := KFile; fo_bytes := attachment |}.

Definition kept_persist (fate : nat → Fate) (w : PgWorld BlobWorld) : res StoreThrown PersistResult * PgWorld BlobWorld :=
  persistRunDirectory (H := demo_server fate) kept_parse demo_schema kept_digest no_directory (js "/root") 1000 (λ _, 0%nat) (λ _, kept_directory)
    (js "p") (js "run") (Some 5) None w.
Definition kept_world (t : Tables) (attachment : bytes) : PgWorld BlobWorld := {| w_db := fresh_db t; w_disk := kept_disk attachment |}.
Definition kept_before : PgWorld BlobWorld := kept_world no_tables kept_blob.
Definition kept_after : PgWorld BlobWorld := (kept_persist (λ _, Answered) kept_before).2.

Example kept_again : (kept_persist (λ _, Answered) (kept_world (db_tables (w_db kept_after)) kept_blob)).1 = Ok (AlreadyPresent (js "run-1") 4 0 false false).
Proof. vm_compute. reflexivity. Qed.
(** Another file under the attachment's name: nothing is archived. *)
Example kept_changed : let '(r, w) := kept_persist (λ _, Answered) (kept_world no_tables (utf8_encode (js "hullo"))) in
  match r with Throw (ThrownBlob (StoreError SOURCE_HASH_MISMATCH _ _)) => size (qe_runs (db_tables (w_db w))) = 0%nat ∧ db_client (w_db w) = Pooled | _ => False end.
Proof. vm_compute. split; reflexivity. Qed.
(** The COMMIT's answer lost: the run is there, the caller is told it failed, and the connection is not used again. *)
Example kept_unknown : let '(r, w) := kept_persist (λ n, if bool_decide (n = 13%nat) then Lost true connection_lost else Answered) kept_before in
  r = Throw (DbFailed connection_lost) ∧ size (qe_runs (db_tables (w_db w))) = 1%nat ∧ db_client (w_db w) = Destroyed.
Proof. vm_compute. repeat split. Qed.
(** What was archived is read back and replayed, blob and all. *)
Example kept_replays :
  match (replayRun (H := demo_server (λ _, Answered)) kept_parse demo_schema kept_digest no_directory (js "/root") (λ _, 0%nat) (js "p") (js "run-1") true kept_after).1 with
  | Ok (Some (stored, validated, Some blobs)) => vr_events validated = kept_events ∧ blobs = [blob kept_hash 5]
  | _ => False
  end.
Proof. vm_compute. split; reflexivity. Qed.

(** A valid, complete run whose attempt another session finishes: it is archived as passed, and can never be read back, for the stored
    lines are replayed session by session in the order of their ids and not in the order the files were read in. *)
Definition cross_persist : res StoreThrown PersistResult * PgWorld BlobWorld :=
  persistRunDirectory (H := demo_server (λ _, Answered)) cross_parse demo_schema kept_digest no_directory (js "/root") 1000 (λ _, 0%nat) (λ _, cross_fs)
    (js "p") (js "run") (Some 5) None kept_before.
Example cross_run_is_archived_and_lost :
  cross_persist.1 = Ok (Inserted (js "run-1") 4) ∧
  match (replayRun (H := demo_server (λ _, Answered)) cross_parse demo_schema kept_digest no_directory (js "/root") (λ _, 0%nat) (js "p") (js "run-1") false
           cross_persist.2).1 with
  | Throw (ReplayMismatchError _ _ (_ :: differences)) =>
      differences = [js "complete: ingested true, replayed false"; js "verdict: ingested passed, replayed incomplete"]
  | _ => False
  end.
Proof. vm_compute. split; reflexivity. Qed.

Lemma first_is {A B} (p : A * B) a : p.1 = a → ∃ b, p = (a, b).
Proof. destruct p as [a' b]. cbn. intros ->. by exists b. Qed.
Lemma kept_inserted : (persistRunDirectory (H := demo_server (λ _, Answered)) kept_parse demo_schema kept_digest no_directory (js "/root") 1000 (λ _, 0%nat)
    (λ _, kept_directory) (js "p") (js "run") (Some 5) None kept_before).1 = Ok (Inserted (js "run-1") 4).
Proof. vm_compute. reflexivity. Qed.

Lemma persist_archives_whole_and_durable_witness : ∃ w', persistRunDirectory (H := demo_server (λ _, Answered)) kept_parse demo_schema kept_digest no_directory (js "/root") 1000 (λ _, 0%nat)
    (λ _, kept_directory) (js "p") (js "run") (Some 5) None kept_before = (Ok (Inserted (js "run-1") 4), w') ∧
  preserved (js "/root") (w_disk kept_before) (w_disk w') ∧ (db_client (w_db w') = Pooled → db_leases (w_db w') = [] ∧ db_tx (w_db w') = None).
Proof.
  destruct (first_is _ _ kept_inserted) as (w' & E). exists w'.
  pose proof (persist_archives_whole_and_durable (SV := demo_server (λ _, Answered)) (SL := demo_server_laws _) (js "/root") kept_parse demo_schema kept_digest
    no_directory 1000 (λ _, 0%nat) (λ _, kept_directory) (js "p") (js "run") (Some 5) None kept_before (Ok (Inserted (js "run-1") 4)) w' eq_refl no_tables_referential E) as (Hp & Hc & _).
  exact (conj E (conj Hp Hc)).
Defined.

(** ** Retention *)

Definition demo_options_at (asOf : Z) : MaintenanceOptions :=
  {| mo_asOf := Some asOf; mo_lockTimeoutMs := Some (Int 1000); mo_tempBefore := Some (Some 9); mo_maxRuns := None; mo_maxBlobs := None;
     mo_afterSha256 := None; mo_orphanObjectsBefore := Some (Some 9); mo_maxUncataloguedBlobs := None; mo_maxBytesExamined := None;
     mo_maxTemporaryFiles := None; mo_maxLegacyReported := None |}.
Definition retained_world : PgWorld BlobWorld := {| w_db := fresh_db (db_tables (w_db kept_after)); w_disk := w_disk kept_after |}.
Definition demo_retention (fate : nat → Fate) (asOf : Z) : res StoreThrown MaintenanceReport * PgWorld BlobWorld :=
  run_pass (H := demo_server fate) (λ _, []) (λ _, []) (sha256_hex kept_digest) (js "/root") 5 (demo_options_at asOf) retained_world.

Definition retention_summary (x : res StoreThrown MaintenanceReport * PgWorld BlobWorld) :=
  (match x.1 with
   | Ok rep => Some (length (mr_expiredRuns rep), rc_outcome <$> mr_blobs rep, mr_bytesReclaimed rep, length (mr_problems rep))
   | Throw _ => None
   end, size (qe_runs (db_tables (w_db x.2))), size (qe_blobs (db_tables (w_db x.2))), db_client (w_db x.2)).

(** Not expired yet; expired; the connection lost after the runs went; and a batch refused. The other writer's row is for a name that is no hash. *)
Example demo_retention_ends :
  retention_summary (demo_retention (λ _, Answered) 4) = (Some (0, [ObjectRetained], 0%Z, 1), 1, 1, Pooled)%nat ∧
  retention_summary (demo_retention (λ _, Answered) 5) = (Some (1, [BlobRemoved; ObjectRetained], 5%Z, 1), 0, 0, Pooled)%nat ∧
  retention_summary (demo_retention (lost_at 9) 5) = (None, 0, 2, Destroyed)%nat ∧
  retention_summary (demo_retention (λ n, if bool_decide (n = 7%nat) then Declined connection_lost else Answered) 5) =
    (Some (0, [ObjectRetained], 0%Z, 2), 1, 1, Pooled)%nat.
Proof. vm_compute. repeat split. Qed.

Definition references_ok (t : Tables) : bool :=
  forallb (λ p : Key * gset str, forallb (λ s, bool_decide (is_Some (qe_blobs t !! s))) (elements p.2)) (map_to_list (qe_run_blobs t)).
Lemma references_ok_spec t : references_ok t = true → blob_references t.
Proof.
  unfold references_ok. rewrite forallb_forall. intros Hall k s Hs. destruct (qe_run_blobs t !! k) as [shas|] eqn:E; [|by apply elem_of_empty in Hs].
  cbn in Hs. assert (In (k, shas) (map_to_list (qe_run_blobs t))) as Hin by by apply list_elem_of_In, elem_of_map_to_list.
  specialize (Hall _ Hin). rewrite forallb_forall in Hall. apply elem_of_elements, list_elem_of_In, Hall, bool_decide_eq_true_1 in Hs. done.
Qed.
Lemma retained_references : blob_references (db_tables (w_db retained_world)).
Proof. apply references_ok_spec. vm_compute. reflexivity. Qed.

Lemma retention_returns : is_ok (run_pass (H := demo_server (λ _, Answered)) (λ _, []) (λ _, []) (sha256_hex kept_digest) (js "/root") 5 (demo_options_at 5) retained_world).1 = true.
Proof. vm_compute. reflexivity. Qed.
Lemma is_ok_inv {E A B} (p : res E A * B) : is_ok p.1 = true → ∃ a b, p = (Ok a, b).
Proof. destruct p as [[a|e] b]; [eauto|done]. Qed.

Lemma retention_takes_nothing_needed_witness : ∃ rep w',
  run_pass (H := demo_server (λ _, Answered)) (λ _, []) (λ _, []) (sha256_hex kept_digest) (js "/root") 5 (demo_options_at 5) retained_world = (Ok rep, w') ∧
  (db_client (w_db w') = Pooled → db_leases (w_db w') = [] ∧ db_tx (w_db w') = None).
Proof.
  destruct (is_ok_inv _ retention_returns) as (rep & w' & E). exists rep, w'.
  pose proof (retention_takes_nothing_needed (SV := demo_server (λ _, Answered)) (SL := demo_server_laws _) (js "/root") (sha256_hex kept_digest) (λ _, []) (λ _, [])
    5 (demo_options_at 5) retained_world (Ok rep) w' eq_refl retained_references E) as [Hc _].
  exact (conj E Hc).
Defined.

Lemma preview_changes_nothing_witness : ∃ r w',
  preview_pass (H := demo_server (λ _, Answered)) (λ _, []) (λ _, []) (sha256_hex kept_digest) (js "/root") 5 (demo_options_at 5) retained_world = (r, w') ∧
  preserved (js "/root") (w_disk retained_world) (w_disk w').
Proof.
  pose proof (preview_changes_nothing (SV := demo_server (λ _, Answered)) (js "/root") (sha256_hex kept_digest) (λ _, []) (λ _, []) 5 (demo_options_at 5) retained_world) as Hp.
  destruct (preview_pass _ _ _ _ _ _ _) as [r w'] eqn:E. exists r, w'. split; [reflexivity|]. exact (proj1 (proj2 Hp)).
Defined.

Lemma retention_pass_ends_witness : ∃ fuel, 128 ^ 64 < Z.of_nat fuel ∧
  (pass_ (H := demo_server (λ _, Answered)) (λ _, []) (λ _, []) (sha256_hex kept_digest) (js "/root") fuel false (demo_options_at 5) retained_world).1 ≠ Throw (ThrownBlob Unending).
Proof.
  assert (∃ fuel, 128 ^ 64 < Z.of_nat fuel) as [fuel Hf].
  { exists (Z.to_nat (128 ^ 64 + 1)). rewrite Z2Nat.id; lia. }
  exists fuel. split; [exact Hf|].
  exact (retention_pass_ends (SV := demo_server (λ _, Answered)) (js "/root") (sha256_hex kept_digest) (λ _, []) (λ _, []) demo_names_once fuel false (demo_options_at 5) retained_world Hf).
Defined.
