(* ===== verification/Queries.v ===== *)
(** * Stored queries (postgres/src/queries.ts)

    Questions across a project's runs, answered from the rows of the query index:
    listings, histories and flakiness in bounded pages, each in one read-only
    snapshot that first makes sure that the index covers every run. The rebuild
    of a project's index from its stored source, and the comparison of one run's
    index with it. The database orders identifiers by the bytes of their UTF-8. *)

From stdpp Require Import gmap sorting.
From S2P Require Import Prelude JsString JsBytes JsMap JsSort Json Model Codec Validator ValidatorRun ReadTypes Projector ReadModel JsNumber JsEncoding JsDate Io Cursor Dto Archive Pg PgStore.

Local Open Scope Z_scope.

Definition DEFAULT_REBUILD_RUNS : Z := 100.
Definition DEFAULT_PAGE_SIZE : Z := 100.
Definition MAX_PAGE_SIZE : Z := 1000.
Definition MAX_REBUILD_RUNS : Z := 1000.

(** ** Arguments *)

Definition checkLimit (limit : option number) (fallback ceiling : Z) : res StoreThrown Z :=
  match limit with
  | None => Ok fallback
  | Some v =>
      match as_safe_integer v with
      | Some n => if n <? 1 then Throw (ThrownTypeError (js "limit must be a whole number of at least one")) else Ok (Z.min n ceiling)
      | None => Throw (ThrownTypeError (js "limit must be a whole number of at least one"))
      end
  end.

Definition checkCursor (after : option HistoryCursor) : res StoreThrown (option HistoryCursor) :=
  match after with
  | None => Ok None
  | Some c =>
      match hc_occurredAt c with
      | None => Throw (ThrownTypeError (js "the cursor instant must be a valid Date"))
      | Some _ =>
          if (hc_leap c <? 0) || (1000 <? hc_leap c)
          then Throw (ThrownTypeError (js "the cursor leap position must be a whole number from 0 to 1000"))
          else if str_eqb (hc_runId c) [] then Throw (ThrownTypeError (js "the cursor must name a run"))
          else if str_eqb (hc_executionId c) [] then Throw (ThrownTypeError (js "the cursor must name an execution"))
          else Ok (Some c)
      end
  end.

Definition checkSequence (sequence : option Z) (name : str) : res StoreThrown (option Z) :=
  match sequence with
  | None => Ok None
  | Some s => if (s <? 0) || (MAX_BIGINT <? s) then Throw (ThrownTypeError (name ++ js " must be a non-negative bigint within PostgreSQL's bigint"))
              else Ok (Some s)
  end.

Definition check_project (projectId : str) : res StoreThrown unit :=
  match checkProjectId projectId with Ok u => Ok u | Throw m => Throw (ThrownTypeError m) end.

(** ** Data *)

Record RunSummary := {
  rs_projectId : str; rs_runId : str; rs_ingestionSequence : Z; rs_ingestedAt : Z; rs_expiresAt : option Z;
  rs_verdict : Verdict; rs_complete : bool; rs_closed : bool; rs_ignoredEvents : Z; rs_duplicateEvents : Z;
  rs_sessionCount : Z; rs_executionCount : Z; rs_scopeFailureCount : Z; rs_attachmentCount : Z;
}.
Record ListRunsRequest := { lq_projectId : str; lq_limit : option number; lq_beforeIngestionSequence : option Z }.
Record RunPage := { rp_runs : list RunSummary; rp_next : option Z }.
Record HistoryRequest := {
  hq_projectId : str; hq_runnerName : str; hq_historicalId : str; hq_limit : option number; hq_after : option HistoryCursor;
}.
Record RebuildRequest := { bq_projectId : str; bq_maxRuns : option number; bq_afterIngestionSequence : option Z }.
Record RebuildProblem := { bp_runId : str; bp_message : str }.
Record RebuildResult := {
  br_projectId : str; br_rebuilt : Z; br_skipped : Z; br_lastIngestionSequence : option Z; br_more : bool; br_problems : list RebuildProblem;
}.
Record IndexDrift := { id_projectId : str; id_runId : str; id_agrees : bool; id_differences : list str }.

(** ** Rows *)

(** [runSummary] *)
Definition runSummary (projectId runId : str) (run : RunRow) (index : RunIndexRow) (expiresAt : option Z) : RunSummary :=
  {| rs_projectId := projectId; rs_runId := runId; rs_ingestionSequence := rr_ingestion_sequence run; rs_ingestedAt := rr_ingested_at run;
     rs_expiresAt := expiresAt; rs_verdict := ri_verdict index; rs_complete := ri_complete index; rs_closed := ri_closed index;
     rs_ignoredEvents := ri_ignoredEventCount index; rs_duplicateEvents := ri_duplicateEventCount index;
     rs_sessionCount := ri_sessionCount index; rs_executionCount := ri_executionCount index;
     rs_scopeFailureCount := ri_scopeFailureCount index; rs_attachmentCount := ri_attachmentCount index |}.

(** [occurrenceOf] *)
Definition occurrenceOf (projectId runnerName historicalId runId : str) (row : HistoryRow) : ExecutionOccurrence :=
  let o := oi_occurrence (hs_row row) in
  {| eo_key := {| hk_projectId := projectId; hk_runnerName := runnerName; hk_historicalId := historicalId |};
     eo_runId := runId; eo_executionId := eo_executionId o; eo_sessionIds := eo_sessionIds o;
     eo_historicalIdStability := eo_historicalIdStability o; eo_occurredAt := eo_occurredAt o; eo_attemptCount := eo_attemptCount o;
     eo_complete := eo_complete o; eo_finalStatus := eo_finalStatus o; eo_expectedStatus := eo_expectedStatus o;
     eo_flaky := eo_flaky o; eo_runVerdict := eo_runVerdict o; eo_runComplete := eo_runComplete o; eo_sessionStatus := eo_sessionStatus o |}.

(** [byteOrder], and the order of a column with COLLATE "C". *)
Definition byteOrder (a b : str) : Z := compare (Byte.to_N <$> utf8_encode a) (Byte.to_N <$> utf8_encode b).

(** The runs of a project. *)
Definition project_runs (p : str) (t : Tables) : list (str * RunRow) :=
  omap (λ e, if str_eqb e.1.1 p then Some (e.1.2, e.2) else None) (map_to_list (qe_runs t)).

(** [INCOMPLETE_SQL] and the counts of [indexStatus]. *)
Definition incomplete (p : str) (t : Tables) : bool := existsb (λ r, negb (index_current (p, r.1) t)) (project_runs p t).
Definition count {A} (f : A → bool) (l : list A) : Z := Z.of_nat (length (List.filter f l)).
Definition indexed_run (p : str) (t : Tables) (r : str * RunRow) : bool := bool_decide (is_Some (qe_run_query_index t !! (p, r.1))).
Definition indexStatus (p : str) (t : Tables) : IndexStatus :=
  let runs := project_runs p t in
  let missing := count (λ r, negb (indexed_run p t r)) runs in
  let stale := count (λ r, indexed_run p t r && negb (index_current (p, r.1) t)) runs in
  {| is_projectId := p; is_indexVersion := QUERY_INDEX_VERSION; is_totalRuns := Z.of_nat (length runs);
     is_currentRuns := count (λ r, index_current (p, r.1) t) runs; is_missingRuns := missing; is_staleRuns := stale;
     is_complete := (missing =? 0) && (stale =? 0) |}.

(** The rows of a listing: currently indexed runs below a sequence, newest first. *)
Definition listed_run (p : str) (before : option Z) (t : Tables) (r : str * RunRow) : option RunSummary :=
  match qe_run_query_index t !! (p, r.1) with
  | Some index =>
      if index_current (p, r.1) t && match before with None => true | Some b => rr_ingestion_sequence r.2 <? b end
      then Some (runSummary p r.1 r.2 (ix_run index) (qe_run_retention t !! (p, r.1))) else None
  | None => None
  end.
Definition newest_first (a b : RunSummary) : Z := cmp_sub (rs_ingestionSequence b) (rs_ingestionSequence a).
Definition list_rows (p : str) (before : option Z) (t : Tables) : list RunSummary :=
  sort newest_first (omap (listed_run p before t) (project_runs p t)).

(** The rows of a history: the run's id and the row. *)
Definition row_position (r : str * HistoryRow) : Z * Z * str * str :=
  (oi_occurredAtInstant (hs_row r.2), oi_occurredAtLeap (hs_row r.2), r.1, eo_executionId (oi_occurrence (hs_row r.2))).
Definition position_order : Z * Z * str * str → Z * Z * str * str → Z :=
  cmp_then (cmp_on (λ p, p.1.1.1) cmp_sub) (cmp_then (cmp_on (λ p, p.1.1.2) cmp_sub)
    (cmp_then (cmp_on (λ p, p.1.2) byteOrder) (cmp_on (λ p, p.2) byteOrder))).
Definition row_of (key : bytes) (runnerName historicalId : str) (row : HistoryRow) : bool :=
  let k := eo_key (oi_occurrence (hs_row row)) in
  bool_decide (oi_historyKey (hs_row row) = key) && (hs_index_version row =? QUERY_INDEX_VERSION)
    && str_eqb (hk_runnerName k) runnerName && str_eqb (hk_historicalId k) historicalId.
Definition project_history (p : str) (t : Tables) : list (str * HistoryRow) :=
  map_to_list (qe_history_occurrences t) ≫= λ e, if str_eqb e.1.1 p then pair e.1.2 <$> e.2 else [].
Definition after_position (after : option (Z * Z * str * str)) (r : str * HistoryRow) : bool :=
  match after with None => true | Some c => position_order c (row_position r) <? 0 end.
Definition history_rows (p : str) (key : bytes) (runnerName historicalId : str) (after : option (Z * Z * str * str)) (t : Tables)
    : list (str * HistoryRow) :=
  sort (cmp_on row_position position_order)
    (List.filter (λ r, row_of key runnerName historicalId r.2 && after_position after r) (project_history p t)).

(** A page of rows that were asked for with one more than the page holds: the page, and the row the next begins after. *)
Definition page_of {A} (limit : Z) (rows : list A) : list A * option A :=
  let rows := take (Z.to_nat (limit + 1)) rows in
  let page := take (Z.to_nat limit) rows in
  (page, if limit <? Z.of_nat (length rows) then last page else None).

(** ** Comparing an index with its source *)

(** A value of a compared field: whether two are the same ([===], element by element for a list), and what [String] makes of one. *)
Inductive Fact := FText (s : str) | FAbsent | FNumber (z : Z) | FFlag (b : bool) | FList (l : list str).
#[export] Instance Fact_dec : EqDecision Fact.
Proof. solve_decision. Defined.
Definition fact_text (f : Fact) : str :=
  match f with FText s => s | FAbsent => js "undefined" | FNumber z => dec z | FFlag b => bool_text b | FList l => join (js ",") l end.
Definition fact_of {A} (text : A → str) (o : option A) : Fact := match o with Some a => FText (text a) | None => FAbsent end.

(** [OCCURRENCE_FIELDS], with an occurrence's value of each. *)
Definition OCCURRENCE_FIELDS : list (str * (ExecutionOccurrence → Fact)) :=
  [ (js "projectId", λ o, FText (hk_projectId (eo_key o))); (js "runnerName", λ o, FText (hk_runnerName (eo_key o)));
    (js "historicalId", λ o, FText (hk_historicalId (eo_key o))); (js "runId", λ o, FText (eo_runId o));
    (js "executionId", λ o, FText (eo_executionId o)); (js "sessionIds", λ o, FList (eo_sessionIds o));
    (js "historicalIdStability", λ o, FText (stability_text (eo_historicalIdStability o))); (js "occurredAt", λ o, FText (eo_occurredAt o));
    (js "attemptCount", λ o, FNumber (eo_attemptCount o)); (js "complete", λ o, FFlag (eo_complete o));
    (js "finalStatus", λ o, fact_of status_text (eo_finalStatus o)); (js "expectedStatus", λ o, fact_of expected_text (eo_expectedStatus o));
    (js "flaky", λ o, FFlag (eo_flaky o)); (js "runVerdict", λ o, FText (verdict_text (eo_runVerdict o)));
    (js "runComplete", λ o, FFlag (eo_runComplete o)); (js "sessionStatus", λ o, fact_of session_status_text (eo_sessionStatus o)) ].

(** The facts of a run's own row. *)
Definition RUN_FACTS : list (str * (RunIndexRow → Fact)) :=
  [ (js "verdict", λ r, FText (verdict_text (ri_verdict r))); (js "complete", λ r, FFlag (ri_complete r)); (js "closed", λ r, FFlag (ri_closed r));
    (js "ignoredEvents", λ r, FNumber (ri_ignoredEventCount r)); (js "duplicateEvents", λ r, FNumber (ri_duplicateEventCount r));
    (js "sessions", λ r, FNumber (ri_sessionCount r)); (js "executions", λ r, FNumber (ri_executionCount r));
    (js "scopeFailures", λ r, FNumber (ri_scopeFailureCount r)); (js "attachments", λ r, FNumber (ri_attachmentCount r)) ].

Definition head_differences (row : option IndexRow) (derived : DerivedQueryIndex) (stored : StoredRun) : list str :=
  match row with
  | None => [js "the run has no query index"]
  | Some row =>
      (if ix_index_version row =? QUERY_INDEX_VERSION then []
       else [js "index version: stored " ++ dec (ix_index_version row) ++ js ", current " ++ dec QUERY_INDEX_VERSION]) ++
      (if str_eqb (ix_source_fingerprint row) (sr_contentFingerprint stored) then []
       else [js "source fingerprint: the index was built from other content"]) ++
      omap (λ f, if bool_decide (f.2 (ix_run row) = f.2 (dq_run derived)) then None
                 else Some (f.1 ++ js ": stored " ++ fact_text (f.2 (ix_run row)) ++ js ", now " ++ fact_text (f.2 (dq_run derived)))) RUN_FACTS
  end.

(** One stored row against the row its source derives now. *)
Definition row_differences (k : Key) (stored : HistoryRow) (now : OccurrenceIndexRow) : list str :=
  let names := eo_key (oi_occurrence (hs_row stored)) in
  let was := occurrenceOf k.1 (hk_runnerName names) (hk_historicalId names) k.2 stored in
  let is_ := oi_occurrence now in
  omap (λ f, if bool_decide (f.2 was = f.2 is_) then None
             else Some (js "occurrence " ++ eo_executionId is_ ++ js ": " ++ f.1 ++ js " is " ++ fact_text (f.2 was) ++ js ", now " ++ fact_text (f.2 is_)))
    OCCURRENCE_FIELDS ++
  (if (oi_occurredAtInstant (hs_row stored) =? oi_occurredAtInstant now) && (oi_occurredAtLeap (hs_row stored) =? oi_occurredAtLeap now) then []
   else [js "occurrence " ++ eo_executionId is_ ++ js ": the ordering instant is not the position its clock reads to"]) ++
  (if hs_index_version stored =? QUERY_INDEX_VERSION then []
   else [js "occurrence " ++ eo_executionId is_ ++ js ": written under index version " ++ dec (hs_index_version stored)]).

Definition by_execution {A} (f : A → ExecutionOccurrence) : A → A → Z := cmp_on (λ a, eo_executionId (f a)) byteOrder.
Definition stored_occurrences (k : Key) (t : Tables) : list HistoryRow :=
  sort (by_execution (oi_occurrence ∘ hs_row)) (default [] (qe_history_occurrences t !! k)).
Definition occurrence_differences (k : Key) (stored : list HistoryRow) (derived : DerivedQueryIndex) : list str :=
  let expected := sort (by_execution oi_occurrence) (dq_occurrences derived) in
  if negb (length stored =? length expected)%nat
  then [js "history occurrences: stored " ++ dec (Z.of_nat (length stored)) ++ js ", now " ++ dec (Z.of_nat (length expected))]
  else mjoin (zip_with (row_differences k) stored expected).

(** [shown]: one line of at most 300 units. *)
Definition shown (raw : str) : str :=
  let oneLine := (λ u, if (u <=? 31)%N || (u =? 127)%N then 32%N else u) <$> raw in
  if 300 <? Z.of_nat (length oneLine) then take 300 oneLine ++ js "..." else oneLine.

(** ** The queries *)

Section queries.
Context `{Server}.
Context (json_parse : str → json + str) (schema : option str → json → option (list ErrorObject)) (sha256 : bytes → bytes) (no_files : FileSystem).
(** The name and the message of what was thrown. *)
Context (error_text : StoreThrown → str).
Abbreviation db A := (io Db StoreThrown A).

(** [answering]: one read-only snapshot, refused when the index does not cover the project. *)
Definition answer_reads {A} (projectId : str) (fn : db A) : db (IndexStatus + A) :=
  _ ← begin_ (RepeatableRead None);
  unindexed ← select (incomplete projectId);
  answer ← (if unindexed : bool then status ← select (indexStatus projectId); mret (inl status) else a ← fn; mret (inr a));
  _ ← commit;
  _ ← io_do client_release;
  mret answer.
Definition answering {A} (projectId : str) (fn : db A) : db A :=
  _ ← connect;
  answer ← try_catch (answer_reads projectId fn) (λ e, _ ← quiet_rollback; _ ← io_do client_destroy; throw e);
  match answer with inl status => throw (QueryIndexIncompleteError status) | inr a => mret a end.

Definition getIndexStatus (projectId : str) : db IndexStatus :=
  _ ← thrown (check_project projectId);
  pool_select (indexStatus projectId).

Definition run_page (limit : Z) (rows : list RunSummary) : RunPage :=
  let '(page, next) := page_of limit rows in {| rp_runs := page; rp_next := rs_ingestionSequence <$> next |}.
Definition listRuns (request : ListRunsRequest) : db RunPage :=
  _ ← thrown (check_project (lq_projectId request));
  limit ← thrown (checkLimit (lq_limit request) DEFAULT_PAGE_SIZE MAX_PAGE_SIZE);
  before ← thrown (checkSequence (lq_beforeIngestionSequence request) (js "beforeIngestionSequence"));
  answering (lq_projectId request) (rows ← select (list_rows (lq_projectId request) before); mret (run_page limit rows)).

Definition cursor_position (after : HistoryCursor) : Z * Z * str * str :=
  (default 0 (hc_occurredAt after), hc_leap after, hc_runId after, hc_executionId after).
Definition cursor_of (r : str * HistoryRow) : HistoryCursor :=
  {| hc_occurredAt := Some (oi_occurredAtInstant (hs_row r.2)); hc_leap := oi_occurredAtLeap (hs_row r.2); hc_runId := r.1;
     hc_executionId := eo_executionId (oi_occurrence (hs_row r.2)) |}.
Definition history_page (projectId runnerName historicalId : str) (limit : Z) (rows : list (str * HistoryRow)) : HistoryPage :=
  let '(page, next) := page_of limit rows in
  {| hp_projectId := projectId; hp_runnerName := runnerName; hp_historicalId := historicalId;
     hp_occurrences := (λ r, occurrenceOf projectId runnerName historicalId r.1 r.2) <$> page; hp_next := cursor_of <$> next |}.
Definition getTestHistoryPage (request : HistoryRequest) : db HistoryPage :=
  let '(p, runner, hid) := (hq_projectId request, hq_runnerName request, hq_historicalId request) in
  _ ← thrown (check_project p);
  limit ← thrown (checkLimit (hq_limit request) DEFAULT_PAGE_SIZE MAX_PAGE_SIZE);
  after ← thrown (checkCursor (hq_after request));
  answering p
    (rows ← select (history_rows p (historyKeyOf sha256 runner hid) runner hid (cursor_position <$> after));
     mret (history_page p runner hid limit rows)).

Definition flakiness (projectId runnerName historicalId : str) (rows : list (str * HistoryRow)) : FlakinessSummary :=
  let flaky := count (λ r, eo_flaky (oi_occurrence (hs_row r.2))) rows in
  {| fs_projectId := projectId; fs_runnerName := runnerName; fs_historicalId := historicalId;
     fs_totalOccurrences := Z.of_nat (length rows); fs_flakyOccurrences := flaky; fs_everFlaky := 0 <? flaky |}.
Definition getFlakinessSummary (projectId runnerName historicalId : str) : db FlakinessSummary :=
  _ ← thrown (check_project projectId);
  answering projectId
    (rows ← select (history_rows projectId (historyKeyOf sha256 runnerName historicalId) runnerName historicalId None);
     mret (flakiness projectId runnerName historicalId rows)).

(** ** Rebuilding *)

(** [replaceOneRun]: whether the run was still there. *)
Definition replace_locked (k : Key) (derived : DerivedQueryIndex) (sourceFingerprint : str) : db bool :=
  locked ← query (lock_run k);
  if negb locked then _ ← rollback; mret false
  else
    _ ← replaceQueryIndex k derived sourceFingerprint;
    _ ← commit;
    mret true.
Definition replaceOneRun (k : Key) (derived : DerivedQueryIndex) (sourceFingerprint : str) : db bool :=
  _ ← begin_ ReadCommitted;
  or_rollback (replace_locked k derived sourceFingerprint).

(** One run of a rebuild: whether its index was written. *)
Definition rebuild_run (k : Key) (sourceFingerprint : str) : db bool :=
  stored ← readStoredRun k;
  match stored with
  | None => mret false
  | Some stored =>
      validated ← thrown (replayStored json_parse schema sha256 no_files stored);
      derived ← thrown (derive_index sha256 k.1 (sr_sourceLocator stored) validated);
      replaceOneRun k derived sourceFingerprint
  end.
(** The loop over the runs: how many were rebuilt and skipped, and the problems. *)
Fixpoint rebuild_runs (p : str) (runs : list (str * RunRow)) (rebuilt skipped : Z) (problems : list RebuildProblem)
    : db (Z * Z * list RebuildProblem) :=
  match runs with
  | [] => mret (rebuilt, skipped, problems)
  | (runId, row) :: runs =>
      r ← try_catch (b ← rebuild_run (p, runId) (rr_content_fingerprint row); mret (Ok b)) (λ e, mret (Throw e));
      match r with
      | Ok true => rebuild_runs p runs (rebuilt + 1) skipped problems
      | Ok false => rebuild_runs p runs rebuilt (skipped + 1) problems
      | Throw e => rebuild_runs p runs rebuilt skipped (problems ++ [{| bp_runId := runId; bp_message := shown (error_text e) |}])
      end
  end.
Definition oldest_first (a b : str * RunRow) : Z := cmp_sub (rr_ingestion_sequence a.2) (rr_ingestion_sequence b.2).
Definition rebuild_rows (p : str) (after : option Z) (t : Tables) : list (str * RunRow) :=
  sort oldest_first (List.filter (λ r, match after with None => true | Some a => a <? rr_ingestion_sequence r.2 end) (project_runs p t)).
Definition rebuild_locked (p : str) (maxRuns : Z) (after : option Z) : db RebuildResult :=
  selected ← select (take (Z.to_nat (maxRuns + 1)) ∘ rebuild_rows p after);
  let runs := take (Z.to_nat maxRuns) selected in
  '(rebuilt, skipped, problems) ← rebuild_runs p runs 0 0 [];
  mret {| br_projectId := p; br_rebuilt := rebuilt; br_skipped := skipped;
          br_lastIngestionSequence := (λ r, rr_ingestion_sequence r.2) <$> last runs;
          br_more := maxRuns <? Z.of_nat (length selected); br_problems := problems |}.

Context {D : Type}.
Abbreviation io_ A := (io (PgWorld D) StoreThrown A).

Definition rebuildProjectIndex (request : RebuildRequest) : io_ RebuildResult :=
  _ ← pure_ (check_project (bq_projectId request));
  maxRuns ← pure_ (checkLimit (bq_maxRuns request) DEFAULT_REBUILD_RUNS MAX_REBUILD_RUNS);
  after ← pure_ (checkSequence (bq_afterIngestionSequence request) (js "afterIngestionSequence"));
  withIngestionLock (on_db (rebuild_locked (bq_projectId request) maxRuns after)).

(** ** One run *)

Definition getRun (projectId runId : str) : io_ (option ProjectedRun) :=
  _ ← pure_ (check_project projectId);
  projectStoredRunFrom json_parse schema sha256 no_files projectId runId.

(** [compareIndex]: two reads, each of its own. *)
Definition compareIndex (k : Key) (derived : DerivedQueryIndex) (stored : StoredRun) : db IndexDrift :=
  row ← pool_select (λ t, qe_run_query_index t !! k);
  occurrences ← pool_select (stored_occurrences k);
  let differences := head_differences row derived stored ++ occurrence_differences k occurrences derived in
  mret {| id_projectId := k.1; id_runId := k.2; id_agrees := match differences with [] => true | _ => false end; id_differences := differences |}.
Definition verifyIndexedRun (projectId runId : str) : db IndexDrift :=
  _ ← thrown (check_project projectId);
  stored ← loadStoredRun projectId runId;
  match stored with
  | None => mret {| id_projectId := projectId; id_runId := runId; id_agrees := false; id_differences := [js "the run is not archived"] |}
  | Some stored =>
      validated ← thrown (replayStored json_parse schema sha256 no_files stored);
      derived ← thrown (derive_index sha256 projectId (sr_sourceLocator stored) validated);
      compareIndex (projectId, runId) derived stored
  end.
End queries.
