(* ===== verification/QueriesSpec.v ===== *)
(** * What the stored queries answer

    Every query answers from one state of the database that its index covers. The
    pages of a listing or a history lie in order whatever is archived between
    them, hold nothing twice, and miss nothing that was there all along. And the
    rows of an index say of a test what the read model in memory says. *)

From Stdlib Require Import Strings.Byte Sorting.Sorted.
From stdpp Require Import gmap sorting.
From S2P Require Import Prelude JsString JsBytes JsMap JsSort Json Model Codec Validator ValidatorRun HistoryOrder ReadTypes Projector ProjectorSpec ProjectorProps ReadModel ReadModelSpec ReadModelProps JsNumber JsEncoding JsDate Io FileSink BlobStore Cursor Dto Archive Pg PgStore PgStoreSpec PgPersistSpec PgDemo Queries.

Local Open Scope Z_scope.

(** ** Pages after a position

    Rows have positions, strictly ordered in every state. A page holds the first
    [n] rows after a position; the walk asks each state it meets for the page after
    the last row of the page before. *)

Section keyset.
Context {A P S : Type} (pos : A → P) (c : P → P → Z) `{!Comparator c}.
Context (rows : S → list A).

Definition follows (after : option P) (a : A) : bool := match after with None => true | Some p => c p (pos a) <? 0 end.
Definition before_row (a b : A) : Prop := c (pos a) (pos b) < 0.
Definition rows_after (after : option P) (s : S) : list A := List.filter (follows after) (rows s).

Inductive Walk (n : Z) : option P → list S → list A → Prop :=
| walk_ends after s : (page_of n (rows_after after s)).2 = None → Walk n after [s] (page_of n (rows_after after s)).1
| walk_goes_on after s ss l r : (page_of n (rows_after after s)).2 = Some r → Walk n (Some (pos r)) ss l →
    Walk n after (s :: ss) ((page_of n (rows_after after s)).1 ++ l).

Lemma page_of_cases n (l : list A) : 1 <= n →
  (page_of n l = (l, None)) ∨
  (∃ r l1 l2, page_of n l = (l1 ++ [r], Some r) ∧ l = (l1 ++ [r]) ++ l2 ∧ l2 ≠ []).
Proof.
  intros Hn. unfold page_of. rewrite length_take. destruct (decide (Z.of_nat (length l) <= n)) as [Hl|Hl].
  - left. rewrite (proj2 (Z.ltb_ge n _)) by lia. by rewrite !take_ge by (rewrite ?length_take; lia).
  - right. rewrite (proj2 (Z.ltb_lt n _)) by lia. rewrite take_take, Nat.min_l by lia.
    pose proof (take_drop (Z.to_nat n) l) as E. assert (length (take (Z.to_nat n) l) = Z.to_nat n) as Hlen by (rewrite length_take; lia).
    destruct (take (Z.to_nat n) l) as [|r l1 _] eqn:Et using rev_ind; [cbn in Hlen; lia|].
    exists r, l1, (drop (Z.to_nat n) l). rewrite last_snoc. split_and!; [done|by symmetry|].
    intros Hd%(f_equal length). rewrite length_drop in Hd. cbn in Hd. lia.
Qed.

Lemma sorted_app_inv {B} (R : B → B → Prop) l1 l2 : StronglySorted R (l1 ++ l2) →
  StronglySorted R l1 ∧ StronglySorted R l2 ∧ ∀ a b, a ∈ l1 → b ∈ l2 → R a b.
Proof.
  induction l1 as [|x l1 IH]; cbn; intros H; [split_and!; [constructor|done|]; by intros a b ?%not_elem_of_nil|].
  apply StronglySorted_inv in H as [H Hx]. destruct (IH H) as (H1 & H2 & H3). rewrite Forall_app in Hx. destruct Hx as [Hx1 Hx2].
  split_and!; [by constructor|done|]. intros a b [->|Ha]%elem_of_cons Hb; [|by apply H3]. rewrite Forall_forall in Hx2. by apply Hx2.
Qed.
Lemma sorted_app {B} (R : B → B → Prop) l1 l2 : StronglySorted R l1 → StronglySorted R l2 → (∀ a b, a ∈ l1 → b ∈ l2 → R a b) →
  StronglySorted R (l1 ++ l2).
Proof.
  induction 1 as [|x l1 H1 IH Hx]; cbn; intros H2 Hc; [done|]. constructor.
  - apply IH; [done|]. intros a b Ha. apply Hc. by right.
  - apply Forall_app. split; [done|]. apply Forall_forall. intros b Hb. apply Hc; [by left|done].
Qed.
Lemma sorted_impl {B} (R R' : B → B → Prop) l : (∀ a b, R a b → R' a b) → StronglySorted R l → StronglySorted R' l.
Proof. intros Hi. induction 1 as [|x l Hl IH Hx]; constructor; [done|]. eapply Forall_impl; [exact Hx|]. apply Hi. Qed.
Lemma sorted_in_impl {B} (R R' : B → B → Prop) l : (∀ a b, a ∈ l → b ∈ l → R a b → R' a b) → StronglySorted R l → StronglySorted R' l.
Proof.
  intros Hi Hs. revert Hi. induction Hs as [|x l Hl IH Hx]; intros Hi; constructor.
  - apply IH. intros a b ??. apply Hi; by right.
  - rewrite Forall_forall in Hx |- *. intros y Hy. apply Hi; [by left|by right|by apply Hx].
Qed.
Lemma sorted_keep {B} (R : B → B → Prop) f l : StronglySorted R l → StronglySorted R (List.filter f l).
Proof.
  induction 1 as [|x l Hl IH Hx]; cbn; [constructor|]. destruct (f x); [|done]. constructor; [done|].
  rewrite Forall_forall in Hx |- *. intros y [Hy _]%elem_of_filter_b. by apply Hx.
Qed.

Lemma before_trans a b d : before_row a b → before_row b d → before_row a d.
Proof.
  unfold before_row. intros H1 H2. pose proof (cmp_trans (cmp := c) (pos a) (pos b) (pos d)).
  pose proof (cmp_trans (cmp := c) (pos b) (pos d) (pos a)). pose proof (cmp_sym (cmp := c) (pos d) (pos a)).
  pose proof (cmp_sym (cmp := c) (pos a) (pos d)). pose proof (cmp_sym (cmp := c) (pos b) (pos a)). pose proof (cmp_sym (cmp := c) (pos a) (pos b)). lia.
Qed.

Lemma strict_NoDup l : StronglySorted before_row l → NoDup l.
Proof using Comparator0.
  induction 1 as [|x l' Hl IH Hx]; constructor; [|done]. intros Hin. rewrite Forall_forall in Hx. specialize (Hx x Hin).
  unfold before_row in Hx. rewrite cmp_refl in Hx. lia.
Qed.
Lemma strict_separates l x y : StronglySorted before_row l → x ∈ l → y ∈ l → cmp_on pos c x y = 0 → x = y.
Proof using Comparator0.
  induction 1 as [|z l' Hl IH Hz]; [by intros ?%not_elem_of_nil|]. rewrite Forall_forall in Hz. unfold before_row, cmp_on in *.
  intros [->|Hx]%elem_of_cons [->|Hy]%elem_of_cons E; [done|specialize (Hz y Hy); lia| |by apply IH].
  specialize (Hz x Hx). apply cmp_eq_0_sym in E; [lia|done].
Qed.

(** The walk's rows are in order, all after where it began, and each was there when it was read. *)
Lemma walk_sound n after ss l : 1 <= n → Walk n after ss l → (∀ s, s ∈ ss → StronglySorted before_row (rows s)) →
  StronglySorted before_row l ∧ Forall (λ a, follows after a = true) l ∧ ∀ a, a ∈ l → ∃ s, s ∈ ss ∧ a ∈ rows s.
Proof.
  intros Hn. induction 1 as [after s Hp|after s ss l r Hp Hw IH]; intros Hs;
    assert (StronglySorted before_row (rows_after after s)) as Hsort by (apply sorted_keep, Hs; left);
    assert (∀ a, a ∈ rows_after after s → follows after a = true ∧ a ∈ rows s) as Hin by (by intros a [? ?]%elem_of_filter_b);
    destruct (page_of_cases n (rows_after after s) Hn) as [Ep|(r' & l1 & l2 & Ep & El & _)]; rewrite Ep in *; cbn in *; try done.
  - split_and!; [done|by apply Forall_forall; intros a Ha; apply Hin|]. intros a Ha. exists s. split; [by left|by apply Hin].
  - injection Hp as ->. destruct IH as (I1 & I2 & I3); [intros s' Hs'; apply Hs; by right|]. rewrite Forall_forall in I2.
    assert (∀ a, a ∈ l1 ++ [r] → a = r ∨ before_row a r) as Hlast.
    { intros a [Ha| ->%list_elem_of_singleton]%elem_of_app; [right|by left]. rewrite El in Hsort.
      apply sorted_app_inv in Hsort as (Hsort & _). apply sorted_app_inv in Hsort as (_ & _ & Hc). apply Hc; [done|by left]. }
    assert (∀ a, a ∈ l1 ++ [r] → a ∈ rows_after after s) as Hpage by (intros a Ha; rewrite El; apply elem_of_app; by left).
    assert (∀ a, a ∈ l → before_row r a) as Hnext by (intros a Ha; apply Z.ltb_lt, (I2 a Ha)).
    split_and!.
    + apply sorted_app; [rewrite El in Hsort; by apply sorted_app_inv in Hsort as (? & _)|done|].
      intros a b Ha Hb. destruct (Hlast a Ha) as [->|Hr]; [by apply Hnext|]. eapply before_trans; [exact Hr|by apply Hnext].
    + apply Forall_app. split; apply Forall_forall; intros a Ha; [by apply Hin, Hpage|].
      destruct after as [p|]; [|done]. cbn. apply Z.ltb_lt. assert (follows (Some p) r = true) as Hr.
      { apply Hin, Hpage, elem_of_app. right. by left. }
      cbn in Hr. apply Z.ltb_lt in Hr. pose proof (Hnext a Ha) as Hra. unfold before_row in Hra.
      pose proof (cmp_trans (cmp := c) p (pos r) (pos a)). pose proof (cmp_trans (cmp := c) (pos r) (pos a) p).
      pose proof (cmp_sym (cmp := c) (pos a) p). pose proof (cmp_sym (cmp := c) p (pos a)). pose proof (cmp_sym (cmp := c) (pos r) p). pose proof (cmp_sym (cmp := c) p (pos r)). lia.
    + intros a [Ha|Ha]%elem_of_app; [exists s; split; [by left|by apply Hin, Hpage]|]. destruct (I3 a Ha) as (s' & ? & ?). exists s'. split; [by right|done].
Qed.

(** A row that every state of the walk holds is met. *)
Lemma walk_complete n after ss l a : 1 <= n → Walk n after ss l → (∀ s, s ∈ ss → StronglySorted before_row (rows s)) →
  (∀ s, s ∈ ss → a ∈ rows s) → follows after a = true → a ∈ l.
Proof.
  intros Hn. induction 1 as [after s Hp|after s ss l r Hp Hw IH]; intros Hs Ha Hf;
    assert (StronglySorted before_row (rows_after after s)) as Hsort by (apply sorted_keep, Hs; left);
    assert (a ∈ rows_after after s) as Hin by (apply elem_of_filter_b; split; [apply Ha; left|done]);
    destruct (page_of_cases n (rows_after after s) Hn) as [Ep|(r' & l1 & l2 & Ep & El & _)]; rewrite Ep in *; cbn in *; try done.
  injection Hp as ->. apply elem_of_app. rewrite El in Hin, Hsort.
  apply elem_of_app in Hin as [Hin|Hin]; [by left|right]. apply IH; [intros s' Hs'; apply Hs; by right|intros s' Hs'; apply Ha; by right|].
  apply sorted_app_inv in Hsort as (_ & _ & Hc). apply Z.ltb_lt, Hc; [|done]. apply elem_of_app. right. by left.
Qed.
End keyset.

(** ** One covered state *)

Section answering.
Context {SV : Server} {SL : ServerLaws}.
Implicit Types w : Db.

(** What a computation throws is what the database refused or lost. *)
Definition db_errors {A} (m : io Db StoreThrown A) : Prop := ∀ w e w', m w = (Throw e, w') → ∃ f, e = DbFailed f.
Lemma db_errors_exchange {A} (step : nat → Db → res DbError A * Db) : db_errors (exchange step).
Proof.
  intros w e w'. unfold exchange. destruct (db_lost w); [intros [= <- _]; eauto|]. destruct (sv_fate _) as [|f|ex f]; [|intros [= <- _]; eauto..].
  destruct (step _ _) as [[a|f] w1]; [done|]. intros [= <- _]. eauto.
Qed.
Lemma db_errors_ret {A} (a : A) : db_errors (mret a).
Proof. intros w e w' [=]. Qed.
Lemma db_errors_do (f : Db → Db) : db_errors (io_do f).
Proof. intros w e w' [=]. Qed.
Lemma db_errors_bind {A B} (m : io Db StoreThrown A) (f : A → io Db StoreThrown B) : db_errors m → (∀ a, db_errors (f a)) → db_errors (m ≫= f).
Proof.
  intros Hm Hf w e w'. unfold mbind, io_mbind. destruct (m w) as [[a|e1] w1] eqn:E; [apply Hf|]. intros [= <- _]. by eapply Hm.
Qed.
Lemma db_errors_select {A} (f : Tables → A) : db_errors (select f).
Proof. apply db_errors_exchange. Qed.

Lemma db_errors_answer {A B} p (f : Tables → A) (g : A → B) : db_errors (answer_reads p (rows ← select f; mret (g rows))).
Proof.
  unfold answer_reads. apply db_errors_bind; [apply db_errors_exchange|]. intros _. apply db_errors_bind; [apply db_errors_select|]. intros b.
  apply db_errors_bind.
  - destruct b; repeat (apply db_errors_bind; [|intros ?]); apply db_errors_select || apply db_errors_ret.
  - intros a. apply db_errors_bind; [apply db_errors_exchange|]. intros _. apply db_errors_bind; [apply db_errors_do|]. intros _. apply db_errors_ret.
Qed.

(** A statement of a transaction that reads moves the tables by the work of others only. *)
Lemma select_in_tx {A} (f : Tables → A) w a w' : is_Some (db_tx w) → select f w = (Ok a, w') → others (db_tables w) (db_tables w').
Proof.
  intros [tx Htx] E. apply exchange_ran in E as (t & Ho & E). unfold run_stmt in E. cbn in E. rewrite Htx in E.
  destruct (tx_aborted tx); [done|]. cbn in E. by injection E as _ <-.
Qed.

Lemma commit_reading s w a w' : reading s w → commit w = (Ok a, w') → others (db_tables w) (db_tables w') ∧ db_tx w' = None.
Proof.
  intros (tx & Htx & _ & Hab & Hu) E. apply exchange_ran in E as (t & Ho & E). cbn in E. rewrite Htx, Hab in E. injection E as _ <-. cbn. by rewrite Hu.
Qed.

(** The first statement of a snapshot reads the tables as they are then. *)
Lemma select_opening {A} (f : Tables → A) w a w' tx : db_tx w = Some tx → tx_isolation tx = RepeatableRead None → tx_aborted tx = false →
  (∀ t, tx_writes tx t = t) → select f w = (Ok a, w') → others (db_tables w) (db_tables w') ∧ a = f (db_tables w') ∧ reading (db_tables w') w'.
Proof.
  intros Htx Hi Hab Hu E. apply exchange_ran in E as (t & Ho & E). unfold run_stmt in E. cbn in E. rewrite Htx, Hab in E.
  unfold sight in E. rewrite Hi, Hu in E. cbn in E. injection E as <- <-. split_and!; [done..|]. eexists. cbn. split_and!; [done..|]. exact Hu.
Qed.
Lemma select_later {A} (f : Tables → A) s w a w' : reading s w → select f w = (Ok a, w') →
  a = f s ∧ reading s w' ∧ others (db_tables w) (db_tables w').
Proof.
  intros Hr E. destruct (select_reading _ _ _ _ _ Hr E) as [-> Hr']. split_and!; [done..|]. eapply select_in_tx; [|exact E].
  destruct Hr as (tx & -> & _). eauto.
Qed.

Lemma answer_reads_cases {A B} p (f : Tables → A) (g : A → B) w a w' :
  answer_reads p (rows ← select f; mret (g rows)) w = (Ok a, w') →
  ∃ s, others (db_tables w) s ∧ others s (db_tables w') ∧ db_client w' = Pooled ∧ db_tx w' = None ∧
    a = if incomplete p s then inl (indexStatus p s) else inr (g (f s)).
Proof.
  intros E. unfold answer_reads in E. apply bind_Ok in E as ([] & w1 & E1 & E). apply exchange_ran in E1 as (t & Ho & [= <-]).
  apply bind_Ok in E as (b & w2 & E2 & E). eapply select_opening in E2 as (Hos & -> & Hr); [|done..]. cbn in Hos.
  apply bind_Ok in E as (x & w3 & E3 & E). apply bind_Ok in E as ([] & w4 & E4 & E). apply bind_Ok in E as ([] & w5 & [= <-] & [= <- <-]).
  set (s := db_tables w2) in *.
  assert (others s (db_tables w3) ∧ reading s w3 ∧ x = if incomplete p s then inl (indexStatus p s) else inr (g (f s))) as (Ho3 & Hr3 & ->).
  { destruct (incomplete p s); apply bind_Ok in E3 as (y & w6 & E3 & E5).
    - injection E5 as <- <-. by apply (select_later _ s) in E3 as (-> & ? & ?).
    - injection E5 as <- <-. apply bind_Ok in E3 as (z & w7 & E3 & [= <- <-]). by apply (select_later _ s) in E3 as (-> & ? & ?). }
  destruct (commit_reading _ _ _ _ Hr3 E4) as [Ho4 Htx]. exists s. split_and!; [by etrans|by etrans|done..].
Qed.

(** A query is answered, or refused for its index, from one state; or the database failed, and the connection is gone. *)
Lemma answering_cases {A B} p (f : Tables → A) (g : A → B) w r w' :
  answering p (rows ← select f; mret (g rows)) w = (r, w') →
  (∃ s, others (db_tables w) s ∧ others s (db_tables w') ∧ db_client w' = Pooled ∧ db_tx w' = None ∧
     r = if incomplete p s then Throw (QueryIndexIncompleteError (indexStatus p s)) else Ok (g (f s))) ∨
  (∃ e, r = Throw (DbFailed e) ∧ (db_client w' = Destroyed ∨ db_client w' = db_client w)).
Proof.
  unfold answering. unfold mbind at 1, io_mbind at 1. destruct (connect w) as [[[]|e] w1] eqn:Ec.
  2: { intros [= <- <-]. right. assert (∃ f, e = DbFailed f) as [f0 ->].
       { revert Ec. unfold connect. destruct (sv_fate _); intros [=]; subst; eauto. }
       exists f0. split; [done|]. right. by apply connect_cases in Ec as [_ ?]. }
  apply connect_cases in Ec as (Ho & Hctx & Hle & Hcl). unfold mbind at 1, io_mbind at 1. unfold try_catch at 1.
  destruct (answer_reads _ _ w1) as [[a|e] w2] eqn:Ea.
  - apply answer_reads_cases in Ea as (s & H1 & H2 & H3 & H4 & ->). intros E. left. exists s. split; [by etrans|].
    destruct (incomplete p s); injection E as <- <-; done.
  - pose proof (db_errors_answer _ _ _ _ _ _ Ea) as [f0 ->]. unfold mbind, io_mbind, quiet_rollback, try_catch.
    destruct (rollback w2) as [[[]|e'] w3]; intros [= <- <-]; right; exists f0; (split; [done|by left]).
Qed.
End answering.

(** ** Rows of one state *)

(** Every run of the project is indexed, under the current version and from its own source. *)
Definition covered (p : str) (t : Tables) : Prop := ∀ r, is_Some (qe_runs t !! (p, r)) → index_current (p, r) t = true.

Lemma project_runs_elem p t r row : (r, row) ∈ project_runs p t ↔ qe_runs t !! (p, r) = Some row.
Proof.
  unfold project_runs. rewrite list_elem_of_omap. split.
  - intros ([[p' r'] row'] & Hin & E). cbn in E. destruct (str_eqb p' p) eqn:Ep; [|done]. apply str_eqb_eq in Ep as ->. injection E as -> ->.
    by apply elem_of_map_to_list in Hin.
  - intros Hr. exists (p, r, row). split; [by apply elem_of_map_to_list|]. cbn. by rewrite str_eqb_refl.
Qed.

Lemma incomplete_false p t : incomplete p t = false ↔ covered p t.
Proof.
  unfold incomplete, covered. split.
  - intros Hi r [row Hr]. destruct (index_current (p, r) t) eqn:E; [done|]. exfalso. apply not_true_iff_false in Hi. apply Hi.
    apply existsb_exists. exists (r, row). split; [by apply list_elem_of_In, project_runs_elem|]. cbn. by rewrite E.
  - intros Hc. apply not_true_iff_false. intros ([r row] & Hin%list_elem_of_In & Hn)%existsb_exists. apply project_runs_elem in Hin.
    cbn in Hn. by rewrite (Hc r) in Hn by eauto.
Qed.

(** What the primary key and the protocol's identifiers say of a project's history rows. *)
Definition execution_of_row (h : HistoryRow) : str := eo_executionId (oi_occurrence (hs_row h)).
Record keyed (p : str) (t : Tables) : Prop := {
  keyed_rows r l : qe_history_occurrences t !! (p, r) = Some l → NoDup (execution_of_row <$> l);
  keyed_runs r l : qe_history_occurrences t !! (p, r) = Some l → ascii r;
  keyed_executions r l h : qe_history_occurrences t !! (p, r) = Some l → h ∈ l → ascii (execution_of_row h);
}.

#[export] Instance byteOrder_comparator : Comparator byteOrder.
Proof. exact (cmp_on_comparator (λ s, Byte.to_N <$> utf8_encode s) compare _). Qed.
#[export] Instance position_order_comparator : Comparator position_order.
Proof. unfold position_order. apply _. Qed.

(** On ASCII identifiers the byte order of a column is the code-unit order of the code. *)
Lemma ascii_bytes_back s : ascii s → Byte.to_N <$> utf8_encode s = s.
Proof.
  intros Hs. rewrite utf8_encode_ascii by done. rewrite <- list_fmap_compose. induction Hs as [|u s Hu Hs IH]; [done|]. csimpl. rewrite IH.
  f_equal. apply to_N_to_byte. unfold octet. lia.
Qed.
Lemma byteOrder_ascii a b : ascii a → ascii b → byteOrder a b = compare a b.
Proof. intros Ha Hb. unfold byteOrder. by rewrite !ascii_bytes_back. Qed.

Lemma position_order_0 p q : ascii p.1.2 → ascii p.2 → ascii q.1.2 → ascii q.2 → position_order p q = 0 → p = q.
Proof.
  destruct p as [[[a b] c] d], q as [[[a' b'] c'] d']. cbn. intros H1 H2 H3 H4. unfold position_order, cmp_then, cmp_on, js_or, cmp_sub. cbn.
  rewrite !byteOrder_ascii by done. destruct (Z.eqb_spec (a - a') 0); [|lia]. destruct (Z.eqb_spec (b - b') 0); [|lia].
  destruct (Z.eqb_spec (compare c c') 0) as [Hc|]; [|lia]. intros Hd. apply (cmp_0_eq (cmp := compare)) in Hc, Hd. f_equal; [f_equal; [f_equal; lia|done]|done].
Qed.

Lemma project_history_elem p t r h : (r, h) ∈ project_history p t ↔ ∃ l, qe_history_occurrences t !! (p, r) = Some l ∧ h ∈ l.
Proof.
  unfold project_history. rewrite list_elem_of_bind. split.
  - intros ([[p' r'] l] & Hin & He). apply elem_of_map_to_list in He. cbn in Hin. destruct (str_eqb p' p) eqn:Ep; [|by apply not_elem_of_nil in Hin].
    apply str_eqb_eq in Ep as ->. apply list_elem_of_fmap in Hin as (h' & [= -> ->] & Hh). eauto.
  - intros (l & Hl & Hh). exists (p, r, l). split; [|by apply elem_of_map_to_list]. cbn. rewrite str_eqb_refl. apply list_elem_of_fmap. eauto.
Qed.

Lemma sort_separated {A} (cmp : A → A → Z) `{!Comparator cmp} l : NoDup l → (∀ x y, x ∈ l → y ∈ l → cmp x y = 0 → x = y) →
  StronglySorted (λ a b, cmp a b < 0) (sort cmp l).
Proof.
  intros Hnd Hsep. pose proof (sort_sorted cmp l) as Hs. pose proof (sort_Permutation cmp l) as Hp.
  assert (NoDup (sort cmp l)) as Hnd' by (by rewrite Hp). assert (∀ x y, x ∈ sort cmp l → y ∈ sort cmp l → cmp x y = 0 → x = y) as Hsep'.
  { intros x y. rewrite !elem_of_sort. apply Hsep. }
  revert Hs Hnd' Hsep'. generalize (sort cmp l). clear. induction 1 as [|x l Hl IH Hx]; intros Hnd Hsep; [constructor|].
  apply NoDup_cons in Hnd as [Hnx Hnd]. constructor; [apply IH; [done|]; intros y z Hy Hz; apply Hsep; by right|].
  rewrite Forall_forall in Hx |- *. intros y Hy. specialize (Hx y Hy). unfold cmp_le in Hx. destruct (decide (cmp x y = 0)) as [E|]; [|lia].
  apply Hsep in E as <-; [done|by left|by right].
Qed.

Lemma NoDup_filter_b {A} (f : A → bool) l : NoDup l → NoDup (List.filter f l).
Proof.
  induction 1 as [|x l Hx Hl IH]; cbn; [constructor|]. destruct (f x); [|done]. constructor; [|done]. by intros [? _]%elem_of_filter_b.
Qed.

Lemma filter_filter_b {A} (f g : A → bool) l : List.filter f (List.filter g l) = List.filter (λ x, f x && g x) l.
Proof. induction l as [|x l IH]; cbn; [done|]. destruct (g x) eqn:Eg; cbn; [|by rewrite andb_false_r]. rewrite andb_true_r. by destruct (f x); rewrite IH. Qed.

(** A sort of what is left is what is left of the sort. *)
Lemma sort_filter {A} (cmp : A → A → Z) `{!Comparator cmp} f l : (∀ x y, x ∈ l → y ∈ l → cmp x y = 0 → x = y) →
  sort cmp (List.filter f l) = List.filter f (sort cmp l).
Proof.
  intros Hsep. apply (sorted_unique cmp).
  - intros x y. rewrite !elem_of_sort, !elem_of_filter_b. intros [? _] [? _]. by apply Hsep.
  - by apply (sort_sorted cmp).
  - by apply sorted_keep, (sort_sorted cmp).
  - rewrite sort_Permutation. apply filter_Permutation. by rewrite sort_Permutation.
Qed.

Lemma NoDup_image {A B} (f : A → B) l x y : NoDup (f <$> l) → x ∈ l → y ∈ l → f x = f y → x = y.
Proof.
  intros Hnd [i Hi]%list_elem_of_lookup [j Hj]%list_elem_of_lookup E. assert (i = j) as <-; [|congruence].
  apply (NoDup_lookup (f <$> l) i j (f x)); [done|..]; rewrite list_lookup_fmap; [by rewrite Hi|by rewrite Hj, E].
Qed.

Section history.
Context (p : str) (key : bytes) (runner hid : str).

Lemma project_history_NoDup t : keyed p t → NoDup (project_history p t).
Proof.
  intros Hk. apply NoDup_bind; [..|apply NoDup_map_to_list].
  - intros [[p1 r1] l1] [[p2 r2] l2] [r h] H1%elem_of_map_to_list H2%elem_of_map_to_list. cbn.
    destruct (str_eqb p1 p) eqn:E1; [|by intros ?%not_elem_of_nil]. destruct (str_eqb p2 p) eqn:E2; [|by intros _ ?%not_elem_of_nil].
    apply str_eqb_eq in E1 as ->. apply str_eqb_eq in E2 as ->.
    intros (h1 & [= -> ->] & _)%list_elem_of_fmap (h2 & [= -> ->] & _)%list_elem_of_fmap. by simplify_eq.
  - intros [[p1 r1] l1] H1%elem_of_map_to_list. cbn. destruct (str_eqb p1 p) eqn:E1; [|constructor]. apply str_eqb_eq in E1 as ->.
    apply NoDup_fmap; [by intros ?? [=]|]. eapply NoDup_fmap_1, (keyed_rows _ _ Hk), H1.
Qed.

Lemma project_history_separate t a b : keyed p t → a ∈ project_history p t → b ∈ project_history p t →
  cmp_on row_position position_order a b = 0 → a = b.
Proof.
  destruct a as [r h], b as [r' h']. intros Hk (l & Hl & Hh)%project_history_elem (l' & Hl' & Hh')%project_history_elem E.
  unfold cmp_on in E. apply position_order_0 in E; cbn; [|exact (keyed_runs _ _ Hk _ _ Hl)|exact (keyed_executions _ _ Hk _ _ _ Hl Hh)|exact (keyed_runs _ _ Hk _ _ Hl')|exact (keyed_executions _ _ Hk _ _ _ Hl' Hh')].
  unfold row_position in E. cbn in E. injection E as _ _ <- E. simplify_eq. f_equal. eapply (NoDup_image execution_of_row); [by eapply keyed_rows|done..].
Qed.

(** All the rows of the history, in order. *)
Definition whole_history (t : Tables) : list (str * HistoryRow) := history_rows p key runner hid None t.
Abbreviation position_before := (before_row row_position position_order).

Lemma whole_history_unfold t : whole_history t = sort (cmp_on row_position position_order) (List.filter (λ r, row_of key runner hid r.2) (project_history p t)).
Proof. unfold whole_history, history_rows. f_equal. apply List.filter_ext. intros r. by rewrite andb_true_r. Qed.

Lemma whole_history_elem t r h : (r, h) ∈ whole_history t ↔ (r, h) ∈ project_history p t ∧ row_of key runner hid h = true.
Proof. rewrite whole_history_unfold, elem_of_sort, elem_of_filter_b. done. Qed.

Lemma whole_history_strict t : keyed p t → StronglySorted position_before (whole_history t).
Proof.
  intros Hk. rewrite whole_history_unfold. apply (sort_separated (cmp_on row_position position_order)).
  - by apply NoDup_filter_b, project_history_NoDup.
  - intros a b [Ha _]%elem_of_filter_b [Hb _]%elem_of_filter_b. by apply (project_history_separate t).
Qed.

Lemma history_rows_after t after : keyed p t →
  history_rows p key runner hid after t = rows_after row_position position_order whole_history after t.
Proof.
  intros Hk. unfold rows_after. rewrite whole_history_unfold, <- sort_filter.
  - unfold history_rows. f_equal. rewrite filter_filter_b. apply List.filter_ext. intros r. by rewrite andb_comm.
  - apply _.
  - intros a b [Ha _]%elem_of_filter_b [Hb _]%elem_of_filter_b. by apply (project_history_separate t).
Qed.
End history.

(** ** Reading page by page *)

(** States, each later than the one before. *)
Fixpoint in_turn {SV : Server} (t : Tables) (ss : list Tables) : Prop := match ss with [] => True | s :: ss => others t s ∧ in_turn s ss end.

(** The pages of a query one after the other, each asked for with what the one before says is next. *)
Fixpoint read_pages {R B} (fuel : nat) (ask : R → io Db StoreThrown (list B * option R)) (request : R) : io Db StoreThrown (list B) :=
  match fuel with
  | O => throw (ThrownBlob Unending)
  | S fuel =>
      '(items, next) ← ask request;
      match next with None => mret items | Some request => rest ← read_pages fuel ask request; mret (items ++ rest) end
  end.

Section pages.
Context {SV : Server} {SL : ServerLaws}.
Implicit Types w : Db.

Lemma in_turn_others t t' ss : others t t' → in_turn t' ss → in_turn t ss.
Proof. destruct ss as [|s ss]; [done|]. cbn. intros Ho [H1 H2]. split; [by etrans|done]. Qed.
Lemma in_turn_all t ss s : in_turn t ss → s ∈ ss → others t s.
Proof.
  revert t. induction ss as [|s1 ss IH]; intros t; [by intros _ ?%not_elem_of_nil|]. cbn. intros [H1 H2] [->|Hs]%elem_of_cons; [done|].
  etrans; [exact H1|by apply IH].
Qed.

Context {R A B P : Type} (ask : R → io Db StoreThrown (list B * option R)).
Context (pos : A → P) (c : P → P → Z) `{!Comparator c} (rows : Tables → list A) (show : A → B).
Context (after : R → option P) (limit : Z) (asked : R → Prop) (keyed good : Tables → Prop).
Hypothesis Hlimit : 1 <= limit.
Hypothesis rows_strict : ∀ s, keyed s → StronglySorted (before_row pos c) (rows s).

(** What an answer is: a page of the rows of one state, and the request for the page after its last row. *)
Hypothesis ask_Ok : ∀ r w items next w', asked r → (∀ s, others (db_tables w) s → keyed s) → ask r w = (Ok (items, next), w') →
  ∃ s, others (db_tables w) s ∧ others s (db_tables w') ∧ good s ∧ items = show <$> (page_of limit (rows_after pos c rows (after r) s)).1 ∧
    match next with
    | None => (page_of limit (rows_after pos c rows (after r) s)).2 = None
    | Some r' => asked r' ∧ ∃ a, (page_of limit (rows_after pos c rows (after r) s)).2 = Some a ∧ after r' = Some (pos a)
    end.

Lemma read_pages_walks fuel r w l w' :
  read_pages fuel ask r w = (Ok l, w') → asked r → (∀ s, others (db_tables w) s → keyed s) →
  ∃ states found, in_turn (db_tables w) states ∧ Forall good states ∧ Walk pos c rows limit (after r) states found ∧ l = show <$> found.
Proof using ask_Ok.
  revert r w l. induction fuel as [|fuel IH]; intros r w l E Hr Hk; [done|]. cbn [read_pages] in E.
  apply bind_Ok in E as ([items next] & w1 & Ea & E). apply ask_Ok in Ea as (s & H1 & H2 & Hg & -> & Hn); [|done..].
  destruct next as [r'|].
  - destruct Hn as (Hr' & a & Hp & Ha). apply bind_Ok in E as (rest & w2 & E & [= <- <-]). apply IH in E as (states & found & Ht & Hgs & Hw & ->).
    2: done. 2: { intros s' Hs'. apply Hk. etrans; [exact H1|]. by etrans. }
    exists (s :: states), ((page_of limit (rows_after pos c rows (after r) s)).1 ++ found). rewrite Ha in Hw.
    split_and!; [split; [done|by eapply in_turn_others]|by constructor|by eapply walk_goes_on|by rewrite fmap_app].
  - injection E as <- <-. exists [s], (page_of limit (rows_after pos c rows (after r) s)).1. split_and!; [by split|by constructor|by apply walk_ends|done].
Qed.

(** In order, nothing twice, nothing made up, and nothing missed that was there throughout. *)
Record read_whole (t : Tables) (l : list B) (states : list Tables) (found : list A) : Prop := {
  rw_states : states ≠ [] ∧ in_turn t states ∧ Forall good states;
  rw_found : l = show <$> found;
  rw_sorted : StronglySorted (before_row pos c) found;
  rw_sound a : a ∈ found → ∃ s, s ∈ states ∧ a ∈ rows s;
  rw_complete a : (∀ s, s ∈ states → a ∈ rows s) → a ∈ found;
}.
Lemma read_pages_whole fuel r w l w' :
  read_pages fuel ask r w = (Ok l, w') → asked r → after r = None → (∀ s, others (db_tables w) s → keyed s) →
  ∃ states found, read_whole (db_tables w) l states found.
Proof using All.
  intros E Hr Ha Hk. apply read_pages_walks in E as (states & found & Ht & Hg & Hw & ->); [|done..]. rewrite Ha in Hw. exists states, found.
  assert (∀ s, s ∈ states → StronglySorted (before_row pos c) (rows s)) as Hs by (intros s Hs; by apply rows_strict, Hk, (in_turn_all _ states)).
  destruct (walk_sound _ _ _ _ _ _ _ Hlimit Hw Hs) as (H1 & _ & H3).
  split; [split_and!; [by inversion Hw|done|done]|done|done|done|].
  intros a Hall. by apply (walk_complete _ _ _ _ _ _ _ _ Hlimit Hw Hs).
Qed.

(** Undisturbed, the pages are the rows. *)
Lemma read_whole_still t l states found H : read_whole t l states found →
  (∀ s, s ∈ states → rows s = H) → StronglySorted (before_row pos c) H → l = show <$> H.
Proof using Comparator0.
  intros [(Hne & _) -> Hs Hsound Hcomp] Hst HH. f_equal. assert (∀ x y, before_row pos c x y → cmp_le (cmp_on pos c) x y) as Hle.
  { unfold before_row, cmp_le, cmp_on. lia. }
  assert (∀ a, a ∈ found ↔ a ∈ H) as Heq.
  { intros a. split; [intros (s & Hin & Ha)%Hsound; by rewrite <- (Hst s)|]. intros Ha. apply Hcomp. intros s Hin. by rewrite Hst. }
  apply (sorted_unique (cmp_on pos c)).
  - intros x y. by apply (strict_separates pos c).
  - by eapply sorted_impl.
  - by eapply sorted_impl.
  - by apply NoDup_same; [eapply strict_NoDup..|].
Qed.

Lemma filter_shorter {X} (f g : X → bool) l a : (∀ x, x ∈ l → f x = true → g x = true) → a ∈ l → g a = true → f a = false →
  (length (List.filter f l) < length (List.filter g l))%nat.
Proof using.
  assert (∀ l, (∀ x, x ∈ l → f x = true → g x = true) → (length (List.filter f l) <= length (List.filter g l))%nat) as Hle.
  { clear. induction l as [|x l IH]; intros Hi; cbn; [done|]. specialize (IH ltac:(intros; apply Hi; [by right|done])).
    destruct (f x) eqn:Ef; [rewrite (Hi x) by (by left || done); cbn; lia|]. destruct (g x); cbn; lia. }
  induction l as [|x l IH]; intros Hi Ha Hg Hf; [by apply not_elem_of_nil in Ha|]. cbn.
  assert (∀ y, y ∈ l → f y = true → g y = true) as Hi' by (intros; apply Hi; [by right|done]).
  apply elem_of_cons in Ha as [<-|Ha]; [rewrite Hf, Hg; cbn; specialize (Hle l Hi'); lia|]. specialize (IH Hi' Ha Hg Hf).
  destruct (f x) eqn:Ef; [rewrite (Hi x) by (by left || done); cbn; lia|]. destruct (g x); cbn; lia.
Qed.

(** Undisturbed, with more fuel than there are rows, reading ends: with the rows, or with what a request can fail with. *)
Lemma read_pages_ends (fails : StoreThrown → Prop) fuel r w H :
  (∀ r w e w', asked r → (∀ s, others (db_tables w) s → keyed s ∧ rows s = H) → ask r w = (Throw e, w') → fails e) →
  asked r → (∀ s, others (db_tables w) s → keyed s ∧ rows s = H) → (length (List.filter (follows pos c (after r)) H) < fuel)%nat →
  match (read_pages fuel ask r w).1 with Ok _ => True | Throw e => fails e end.
Proof using All.
  intros Hfails. revert r w. induction fuel as [|fuel IH]; intros r w Hr Hk Hfuel; [lia|]. cbn [read_pages]. unfold mbind at 1, io_mbind at 1.
  destruct (ask r w) as [[[items next]|e] w1] eqn:Ea; [|by eapply Hfails].
  apply ask_Ok in Ea as (s & H1 & H2 & Hg & -> & Hn); [|done|by intros s Hs; apply Hk]. destruct next as [r'|]; [|done].
  destruct Hn as (Hr' & a & Hp & Ha). destruct (Hk s H1) as [Hks Hrows]. unfold rows_after in Hp. rewrite Hrows in Hp.
  assert (a ∈ List.filter (follows pos c (after r)) H) as Hin.
  { destruct (page_of_cases limit (List.filter (follows pos c (after r)) H) Hlimit) as [Ep|(r0 & l1 & l2 & Ep & El & _)]; rewrite Ep in Hp; [done|].
    injection Hp as ->. rewrite El. apply elem_of_app. left. apply elem_of_app. right. by left. }
  apply elem_of_filter_b in Hin as [Hin Hfa].
  assert (match (read_pages fuel ask r' w1).1 with Ok _ => True | Throw e => fails e end) as Hrec.
  { apply IH; [done| |].
    - intros s' Hs'. apply Hk. etrans; [exact H1|]. by etrans.
    - enough (length (List.filter (follows pos c (after r')) H) < length (List.filter (follows pos c (after r)) H))%nat by lia.
      apply (filter_shorter _ _ _ a); [|done|done|].
      + intros x Hx. rewrite Ha. cbn. intros Hlt%Z.ltb_lt. destruct (after r) as [q|]; [|done]. cbn in Hfa |- *. apply Z.ltb_lt in Hfa. apply Z.ltb_lt.
        pose proof (cmp_trans (cmp := c) q (pos a) (pos x)). pose proof (cmp_trans (cmp := c) (pos a) (pos x) q).
        pose proof (cmp_sym (cmp := c) (pos x) q). pose proof (cmp_sym (cmp := c) q (pos x)). pose proof (cmp_sym (cmp := c) (pos a) q). pose proof (cmp_sym (cmp := c) q (pos a)). lia.
      + rewrite Ha. cbn. apply Z.ltb_ge. by rewrite cmp_refl. }
  unfold mbind, io_mbind. by destruct (read_pages fuel ask r' w1) as [[rest|e] w2].
Qed.
End pages.

(** ** Histories and listings, page by page *)

Lemma checkLimit_bounds limit fallback ceiling n : checkLimit limit fallback ceiling = Ok n → 1 <= fallback <= ceiling → 1 <= n <= ceiling.
Proof.
  unfold checkLimit. intros H Hf. destruct limit as [v|]; [|by injection H as <-]. destruct (as_safe_integer v) as [z|]; [|done].
  destruct (Z.ltb_spec z 1); [done|]. injection H as <-. lia.
Qed.
Lemma page_limit limit n : checkLimit limit DEFAULT_PAGE_SIZE MAX_PAGE_SIZE = Ok n → 1 <= n.
Proof. intros H%checkLimit_bounds; unfold DEFAULT_PAGE_SIZE, MAX_PAGE_SIZE in *; lia. Qed.
Lemma checkCursor_same after o : checkCursor after = Ok o → o = after.
Proof. unfold checkCursor. destruct after as [c|]; [|by intros [= <-]]. destruct (hc_occurredAt c); [|done]. repeat case_match; congruence. Qed.
Lemma checkSequence_same s name o : checkSequence s name = Ok o → o = s.
Proof. unfold checkSequence. destruct s as [z|]; [|by intros [= <-]]. case_match; congruence. Qed.

Lemma answering_Ok {SV : Server} {SL : ServerLaws} {A B} p (f : Tables → A) (g : A → B) (w : Db) b w' :
  answering p (rows ← select f; mret (g rows)) w = (Ok b, w') →
  ∃ s, others (db_tables w) s ∧ others s (db_tables w') ∧ covered p s ∧ b = g (f s).
Proof.
  intros [(s & H1 & H2 & H3 & H4 & H5)|(e & [=] & _)]%answering_cases. destruct (incomplete p s) eqn:Ei; [done|]. apply incomplete_false in Ei.
  injection H5 as ->. by exists s.
Qed.

Section walks.
Context {SV : Server} {SL : ServerLaws} (sha256 : bytes → bytes).
Implicit Types w : Db.

Definition next_history (request : HistoryRequest) (c : HistoryCursor) : HistoryRequest :=
  {| hq_projectId := hq_projectId request; hq_runnerName := hq_runnerName request; hq_historicalId := hq_historicalId request;
     hq_limit := hq_limit request; hq_after := Some c |}.
Definition history_pages (request : HistoryRequest) : io Db StoreThrown (list ExecutionOccurrence * option HistoryRequest) :=
  page ← getTestHistoryPage sha256 request;
  mret (hp_occurrences page, next_history request <$> hp_next page).

Definition history_of (p runner hid : str) : Tables → list (str * HistoryRow) := whole_history p (historyKeyOf sha256 runner hid) runner hid.
Definition shown_row (p runner hid : str) (r : str * HistoryRow) : ExecutionOccurrence := occurrenceOf p runner hid r.1 r.2.
Definition asks (p runner hid : str) (limit : Z) (request : HistoryRequest) : Prop :=
  hq_projectId request = p ∧ hq_runnerName request = runner ∧ hq_historicalId request = hid ∧
  checkLimit (hq_limit request) DEFAULT_PAGE_SIZE MAX_PAGE_SIZE = Ok limit.

Lemma history_pages_answer p runner hid limit request w items next w' :
  asks p runner hid limit request → (∀ s, others (db_tables w) s → keyed p s) → history_pages request w = (Ok (items, next), w') →
  let page s := page_of limit (rows_after row_position position_order (history_of p runner hid) (cursor_position <$> hq_after request) s) in
  ∃ s, others (db_tables w) s ∧ others s (db_tables w') ∧ covered p s ∧ items = shown_row p runner hid <$> (page s).1 ∧
    match next with
    | None => (page s).2 = None
    | Some r' => asks p runner hid limit r' ∧ ∃ a, (page s).2 = Some a ∧ hq_after r' = Some (cursor_of a)
    end.
Proof.
  intros (<- & <- & <- & Hl) Hk E. unfold history_pages in E. apply bind_Ok in E as (pg & w1 & E & [= <- <- <-]).
  unfold getTestHistoryPage in E. apply bind_Ok in E as ([] & w2 & E1 & E). injection E1 as _ <-.
  apply bind_Ok in E as (limit' & w2 & E1 & E). injection E1 as Hl' <-. rewrite Hl in Hl'. injection Hl' as <-.
  apply bind_Ok in E as (after & w2 & E1 & E). injection E1 as Ha <-. apply checkCursor_same in Ha as ->.
  apply answering_Ok in E as (s & H1 & H2 & Hc & ->). exists s. rewrite history_rows_after by auto.
  change (whole_history _ _ _ _) with (history_of (hq_projectId request) (hq_runnerName request) (hq_historicalId request)).
  unfold history_page. destruct (page_of limit _) as [page [a|]] eqn:Ep; cbn; (split_and!; [done..|]); [|done]. by exists a.
Qed.

Lemma history_pages_Ok p runner hid limit request w items next w' :
  asks p runner hid limit request → (∀ s, others (db_tables w) s → keyed p s) → history_pages request w = (Ok (items, next), w') →
  let page s := page_of limit (rows_after row_position position_order (history_of p runner hid) (cursor_position <$> hq_after request) s) in
  ∃ s, others (db_tables w) s ∧ others s (db_tables w') ∧ covered p s ∧ items = shown_row p runner hid <$> (page s).1 ∧
    match next with
    | None => (page s).2 = None
    | Some r' => asks p runner hid limit r' ∧ ∃ a, (page s).2 = Some a ∧ cursor_position <$> hq_after r' = Some (row_position a)
    end.
Proof.
  intros Ha Hk E. destruct (history_pages_answer _ _ _ _ _ _ _ _ _ Ha Hk E) as (s & H1 & H2 & H3 & H4 & Hn). exists s. split_and!; try done.
  destruct next as [r'|]; [|done]. destruct Hn as (Hr' & a & Hp & ->). split; [done|]. by exists a.
Qed.

(** Over an index that covers the project in every state, a request that is well put fails with the database only. *)
Lemma answering_fails {A B} p (f : Tables → A) (g : A → B) w e w' :
  (∀ s, others (db_tables w) s → covered p s) → answering p (rows ← select f; mret (g rows)) w = (Throw e, w') → ∃ d, e = DbFailed d.
Proof.
  intros Hc [(s & H1 & _ & _ & _ & E)|(d & [= ->] & _)]%answering_cases; [|eauto].
  apply Hc, incomplete_false in H1. by rewrite H1 in E.
Qed.
Lemma history_pages_fails p runner hid limit request w e w' :
  asks p runner hid limit request → check_project p = Ok tt → checkCursor (hq_after request) = Ok (hq_after request) →
  (∀ s, others (db_tables w) s → covered p s) → history_pages request w = (Throw e, w') → ∃ d, e = DbFailed d.
Proof.
  intros (<- & <- & <- & Hl) Hp Ha Hc E. unfold history_pages, getTestHistoryPage in E. rewrite Hp, Hl, Ha in E.
  unfold mbind, io_mbind, thrown in E. cbv beta iota zeta in E.
  match type of E with match ?x with _ => _ end = _ => destruct x as [[pg|e'] w1] eqn:Ea end; [done|]. injection E as -> ->. eapply answering_fails; [exact Hc|]. exact Ea.
Qed.

(** Runs of a listing have ingestion sequences of their own. *)
Definition sequenced (p : str) (t : Tables) : Prop :=
  ∀ r r' row row', qe_runs t !! (p, r) = Some row → qe_runs t !! (p, r') = Some row' → rr_ingestion_sequence row = rr_ingestion_sequence row' → r = r'.

Definition next_runs (request : ListRunsRequest) (before : Z) : ListRunsRequest :=
  {| lq_projectId := lq_projectId request; lq_limit := lq_limit request; lq_beforeIngestionSequence := Some before |}.
Definition run_pages (request : ListRunsRequest) : io Db StoreThrown (list RunSummary * option ListRunsRequest) :=
  page ← listRuns request;
  mret (rp_runs page, next_runs request <$> rp_next page).
Definition descending (a b : Z) : Z := cmp_sub b a.
#[export] Instance descending_comparator : Comparator descending.
Proof. unfold descending, cmp_sub. split; intros; lia. Qed.

Lemma NoDup_omap {A B} (f : A → option B) l : (∀ x y b, x ∈ l → y ∈ l → f x = Some b → f y = Some b → x = y) → NoDup l → NoDup (omap f l).
Proof.
  intros Hf Hl. revert Hf. induction Hl as [|x l Hx Hl IH]; intros Hf; [constructor|]. csimpl.
  assert (NoDup (omap f l)) as Hnd by (apply IH; intros y z b ??; apply Hf; by right). destruct (f x) as [b|] eqn:E; [|done]. constructor; [|done].
  intros (y & Hy & Ey)%list_elem_of_omap. assert (x = y) as ->; [|done]. apply (Hf x y b); [by left|by right|done..].
Qed.

Lemma listed_run_inv p before t r s : listed_run p before t r = Some s →
  rs_runId s = r.1 ∧ rs_ingestionSequence s = rr_ingestion_sequence r.2 ∧ match before with None => True | Some b => rr_ingestion_sequence r.2 < b end.
Proof.
  unfold listed_run. destruct (qe_run_query_index t !! _); [|done]. destruct (_ && _) eqn:E; [|done]. intros [= <-]. cbn. split_and!; [done..|].
  apply andb_true_iff in E as [_ E]. destruct before; [by apply Z.ltb_lt|done].
Qed.

Lemma list_rows_elem p before t s : s ∈ list_rows p before t → ∃ row, qe_runs t !! (p, rs_runId s) = Some row ∧ rr_ingestion_sequence row = rs_ingestionSequence s.
Proof.
  unfold list_rows. rewrite elem_of_sort. intros ([r row] & Hin & E)%list_elem_of_omap. apply project_runs_elem in Hin.
  apply listed_run_inv in E as (-> & -> & _). by exists row.
Qed.

Lemma list_rows_separate p t a b : sequenced p t → a ∈ omap (listed_run p None t) (project_runs p t) → b ∈ omap (listed_run p None t) (project_runs p t) →
  cmp_on rs_ingestionSequence descending a b = 0 → a = b.
Proof.
  intros Hs ([r row] & Hr & Ea)%list_elem_of_omap ([r' row'] & Hr' & Eb)%list_elem_of_omap E. apply project_runs_elem in Hr, Hr'.
  assert (r = r') as <-; [|congruence]. eapply Hs; [exact Hr|exact Hr'|]. apply listed_run_inv in Ea as (_ & E1 & _), Eb as (_ & E2 & _).
  cbn in E1, E2. unfold cmp_on, descending, cmp_sub in E. lia.
Qed.

Lemma project_runs_NoDup p t : NoDup (project_runs p t).
Proof.
  apply NoDup_omap; [|apply NoDup_map_to_list]. intros [[p1 r1] row1] [[p2 r2] row2] b _ _. cbn.
  destruct (str_eqb p1 p) eqn:E1; [|done]. destruct (str_eqb p2 p) eqn:E2; [|done]. apply str_eqb_eq in E1 as ->. apply str_eqb_eq in E2 as ->. congruence.
Qed.

Lemma list_rows_strict p t : sequenced p t → StronglySorted (before_row rs_ingestionSequence descending) (list_rows p None t).
Proof.
  intros Hs. apply (sort_separated (cmp_on rs_ingestionSequence descending)).
  - apply NoDup_omap; [|apply project_runs_NoDup]. intros [r row] [r' row'] s Hr%project_runs_elem Hr'%project_runs_elem E1 E2.
    apply listed_run_inv in E1 as (F1 & _), E2 as (F2 & _). cbn in F1, F2. congruence.
  - intros a b. by apply list_rows_separate.
Qed.

#[export] Instance newest_first_comparator : Comparator newest_first.
Proof. exact (cmp_on_comparator rs_ingestionSequence descending _). Qed.

Lemma list_rows_after p before t : sequenced p t →
  list_rows p before t = rows_after rs_ingestionSequence descending (list_rows p None) before t.
Proof.
  intros Hs. unfold rows_after, list_rows. rewrite <- (sort_filter newest_first).
  - f_equal. generalize (project_runs p t). clear. induction l as [|x l IH]; [done|]. csimpl.
    destruct (listed_run p None t x) as [s|] eqn:E; csimpl.
    + assert (listed_run p before t x = if follows rs_ingestionSequence descending before s then Some s else None) as ->; [|by destruct (follows _ _ _ _); rewrite IH].
      revert E. unfold listed_run. destruct (qe_run_query_index t !! _) as [ix|]; [|done]. rewrite andb_true_r. destruct (index_current _ t); [|done].
      intros [= <-]. unfold follows. destruct before as [b|]; [|done]. cbn. unfold descending, cmp_sub.
      destruct (Z.ltb_spec (rr_ingestion_sequence x.2) b), (Z.ltb_spec (rr_ingestion_sequence x.2 - b) 0); done || lia.
    + assert (listed_run p before t x = None) as ->; [|done]. revert E. unfold listed_run. destruct (qe_run_query_index t !! _); [|done].
      rewrite andb_true_r. by destruct (index_current _ t).
  - intros a b. by apply list_rows_separate.
Qed.

Definition lists (p : str) (limit : Z) (request : ListRunsRequest) : Prop :=
  lq_projectId request = p ∧ checkLimit (lq_limit request) DEFAULT_PAGE_SIZE MAX_PAGE_SIZE = Ok limit.

Lemma run_pages_Ok p limit request w items next w' :
  lists p limit request → (∀ s, others (db_tables w) s → sequenced p s) → run_pages request w = (Ok (items, next), w') →
  let page s := page_of limit (rows_after rs_ingestionSequence descending (list_rows p None) (lq_beforeIngestionSequence request) s) in
  ∃ s, others (db_tables w) s ∧ others s (db_tables w') ∧ covered p s ∧ items = id <$> (page s).1 ∧
    match next with
    | None => (page s).2 = None
    | Some r' => lists p limit r' ∧ ∃ a, (page s).2 = Some a ∧ lq_beforeIngestionSequence r' = Some (rs_ingestionSequence a)
    end.
Proof.
  intros (<- & Hl) Hk E. unfold run_pages in E. apply bind_Ok in E as (pg & w1 & E & [= <- <- <-]).
  unfold listRuns in E. apply bind_Ok in E as ([] & w2 & E1 & E). injection E1 as _ <-.
  apply bind_Ok in E as (limit' & w2 & E1 & E). injection E1 as Hl' <-. rewrite Hl in Hl'. injection Hl' as <-.
  apply bind_Ok in E as (before & w2 & E1 & E). injection E1 as Ha <-. apply checkSequence_same in Ha as ->.
  apply answering_Ok in E as (s & H1 & H2 & Hc & ->). exists s. rewrite list_rows_after by auto. rewrite list_fmap_id.
  unfold run_page. destruct (page_of limit _) as [page [a|]] eqn:Ep; cbn; (split_and!; [done..|]); [|done]. by exists a.
Qed.

(** C12 A history read page by page, while other sessions archive and delete what they like, is read in order and without loss: every
    page is answered from a state in which each run of the project is indexed, no state earlier than the one before; the occurrences come
    strictly in the order of their positions, so none comes twice; each was in the index when its page was read; and one that was there all along
    is not missed. The listing of a project's runs keeps the same promise, newest first. *)
Theorem paging_misses_nothing p runner hid limit fuel w r w' :
  checkLimit limit DEFAULT_PAGE_SIZE MAX_PAGE_SIZE = Ok r → (∀ s, others (db_tables w) s → keyed p s ∧ sequenced p s) →
  (∀ l, read_pages fuel history_pages {| hq_projectId := p; hq_runnerName := runner; hq_historicalId := hid; hq_limit := limit; hq_after := None |} w = (Ok l, w') →
     ∃ states found, read_whole row_position position_order (history_of p runner hid) (shown_row p runner hid) (covered p) (db_tables w) l states found) ∧
  (∀ l, read_pages fuel run_pages {| lq_projectId := p; lq_limit := limit; lq_beforeIngestionSequence := None |} w = (Ok l, w') →
     ∃ states found, read_whole rs_ingestionSequence descending (list_rows p None) id (covered p) (db_tables w) l states found).
Proof.
  intros Hl Hk. pose proof (page_limit _ _ Hl) as Hlim. split; intros l E.
  - eapply (read_pages_whole history_pages row_position position_order _ _ (λ r, cursor_position <$> hq_after r) r (asks p runner hid r) (keyed p));
      [done|by intros s; apply whole_history_strict|by intros *; apply history_pages_Ok|exact E|done|done|by intros s Hs; apply Hk].
  - eapply (read_pages_whole run_pages rs_ingestionSequence descending _ _ lq_beforeIngestionSequence r (lists p r) (sequenced p));
      [done|by intros s; apply list_rows_strict|by intros *; apply run_pages_Ok|exact E|done|done|by intros s Hs; apply Hk].
Qed.
End walks.

(** ** The index and the read model

    When a project's rows are those of some projections, its history pages are
    the history of the model assembled from them. *)

(** The archived runs of the project, and their rows, are those of [rs]. *)
Record indexed_as (sha256 : bytes → bytes) (p : str) (rs : list ProjectedRun) (t : Tables) : Prop := {
  ia_project run : run ∈ rs → k_projectId (pr_key run) = p;
  ia_distinct : NoDup ((λ run, k_runId (pr_key run)) <$> rs);
  ia_archived r : is_Some (qe_runs t !! (p, r)) → ∃ run, run ∈ rs ∧ k_runId (pr_key run) = r;
  ia_rows run : run ∈ rs → ∃ derived, deriveQueryIndex sha256 run = Ok derived ∧
    default [] (qe_history_occurrences t !! (p, k_runId (pr_key run))) = history_row <$> dq_occurrences derived;
}.

(** The protocol's identifiers are ASCII. *)
Definition ascii_run (run : ProjectedRun) : Prop :=
  ascii (k_runId (pr_key run)) ∧ ∀ te, te ∈ pr_executions run → ascii (te_executionId te).

Lemma occurrences_distinct run : run_wf run → NoDup (eo_executionId <$> historyOccurrencesOf run).
Proof.
  intros Hwf. pose proof (rw_executions _ Hwf) as Hs. unfold historyOccurrencesOf.
  assert (∀ l, StronglySorted (λ a b, compare (te_executionId a) (te_executionId b) < 0) l →
    NoDup (eo_executionId <$> omap (occurrence_of run) l)) as Hl; [|by apply Hl].
  induction 1 as [|te l Hl IH Hte]; [constructor|]. csimpl. destruct (occurrence_of run te) as [o|] eqn:E; [|done]. csimpl. constructor; [|done].
  apply occurrence_of_inv in E as (_ & _ & _ & _ & _ & ->). intros (o' & E' & (te' & Hte' & Ho')%list_elem_of_omap)%list_elem_of_fmap.
  apply occurrence_of_inv in Ho' as (_ & _ & _ & _ & _ & Ho'). rewrite Forall_forall in Hte. specialize (Hte te' Hte').
  rewrite E', Ho', compare_refl in Hte. lia.
Qed.

Lemma occurrence_in_run run o : o ∈ historyOccurrencesOf run →
  hk_projectId (eo_key o) = k_projectId (pr_key run) ∧ eo_runId o = k_runId (pr_key run) ∧ ∃ te, te ∈ pr_executions run ∧ eo_executionId o = te_executionId te.
Proof. intros (te & Hte & Ho)%list_elem_of_omap. apply occurrence_of_inv in Ho as (-> & _ & _ & _ & -> & ->). eauto. Qed.

Section index.
Context (sha256 : bytes → bytes) (p : str) (rs : list ProjectedRun).

Lemma derived_occurrences run derived : deriveQueryIndex sha256 run = Ok derived →
  Forall2 (λ o row, index_occurrence sha256 o = Ok row) (historyOccurrencesOf run) (dq_occurrences derived).
Proof.
  unfold deriveQueryIndex. intros (rows & Hr & [= <-])%bind_Ok_inv. cbn. eapply mapMi_from_Forall2; [|exact Hr]. done.
Qed.
Lemma index_occurrence_Ok o row : index_occurrence sha256 o = Ok row → oi_occurrence row = o ∧
  historyInstant (eo_occurredAt o) = Ok {| epochMs := oi_occurredAtInstant row; leap := oi_occurredAtLeap row |} ∧
  oi_historyKey row = historyKeyOf sha256 (hk_runnerName (eo_key o)) (hk_historicalId (eo_key o)).
Proof. unfold index_occurrence. intros ([e l] & Hi & [= <-])%bind_Ok_inv. done. Qed.
Lemma derived_is run derived : deriveQueryIndex sha256 run = Ok derived → oi_occurrence <$> dq_occurrences derived = historyOccurrencesOf run.
Proof.
  intros H%derived_occurrences. induction H as [|o row os rows Ho H IH]; [done|]. csimpl. rewrite IH. f_equal. by apply index_occurrence_Ok in Ho as [-> _].
Qed.

Context (t : Tables) (Hidx : indexed_as sha256 p rs t) (Hfk : referential t) (Hascii : Forall ascii_run rs) (Hruns : Forall run_wf rs).

(** A history row of the project is that of an occurrence of a run. *)
Lemma row_is_occurrence r h : (r, h) ∈ project_history p t ↔
  ∃ run o, run ∈ rs ∧ k_runId (pr_key run) = r ∧ o ∈ historyOccurrencesOf run ∧ oi_occurrence (hs_row h) = o ∧
    index_occurrence sha256 o = Ok (hs_row h) ∧ hs_index_version h = QUERY_INDEX_VERSION.
Proof using Hidx Hfk.
  rewrite project_history_elem. split.
  - intros (l & Hl & Hh). destruct (qe_runs t !! (p, r)) as [row|] eqn:Er.
    2: { apply Hfk in Er as (_ & _ & _ & _ & Er). congruence. }
    destruct (ia_archived _ _ _ _ Hidx r) as (run & Hrun & <-); [eauto|]. destruct (ia_rows _ _ _ _ Hidx run Hrun) as (derived & Hd & E).
    rewrite Hl in E. cbn in E. subst l. apply list_elem_of_fmap in Hh as (row' & -> & Hrow). apply derived_occurrences in Hd.
    destruct (Forall2_elem_r _ _ _ _ Hd Hrow) as (o & Ho & Hi). exists run, o. split_and!; try done. by apply index_occurrence_Ok in Hi as [? _].
  - intros (run & o & Hrun & <- & Ho & E & Hi & Hv). destruct (ia_rows _ _ _ _ Hidx run Hrun) as (derived & Hd & El).
    apply derived_occurrences in Hd. destruct (Forall2_elem_l _ _ _ _ Hd Ho) as (row & Hrow & Hi'). rewrite Hi in Hi'. injection Hi' as <-.
    assert (h ∈ history_row <$> dq_occurrences derived) as Hh.
    { apply list_elem_of_fmap. exists (hs_row h). split; [|done]. destruct h as [v row]. cbn in Hv. subst v. done. }
    rewrite <- El in Hh. destruct (qe_history_occurrences t !! _) as [l|]; [by exists l|by apply not_elem_of_nil in Hh].
Qed.

Lemma indexed_keyed : keyed p t.
Proof using All.
  pose proof (proj1 (Forall_forall _ _) Hascii) as Ha. pose proof (proj1 (Forall_forall _ _) Hruns) as Hwf.
  assert (∀ r l h, qe_history_occurrences t !! (p, r) = Some l → h ∈ l → ∃ run o, run ∈ rs ∧ k_runId (pr_key run) = r ∧ o ∈ historyOccurrencesOf run ∧ execution_of_row h = eo_executionId o) as Hin.
  { intros r l h Hl Hh. assert ((r, h) ∈ project_history p t) as (run & o & H1 & H2 & H3 & H4 & _)%row_is_occurrence by (apply project_history_elem; eauto).
    exists run, o. unfold execution_of_row. by rewrite H4. }
  assert (∀ r l, qe_history_occurrences t !! (p, r) = Some l → ∃ run, run ∈ rs ∧ k_runId (pr_key run) = r) as Hr.
  { intros r l Hl. destruct (qe_runs t !! (p, r)) as [row|] eqn:Er; [apply (ia_archived _ _ _ _ Hidx); eauto|].
    apply Hfk in Er as (_ & _ & _ & _ & Er). congruence. }
  split.
  - intros r l Hl. destruct (Hr r l Hl) as (run & Hrun & <-). destruct (ia_rows _ _ _ _ Hidx run Hrun) as (derived & Hd & E). rewrite Hl in E. cbn in E. subst l.
    rewrite <- list_fmap_compose. pose proof (occurrences_distinct run (Hwf run Hrun)) as Hnd. rewrite <- (derived_is _ _ Hd), <- list_fmap_compose in Hnd. done.
  - intros r l Hl. destruct (Hr r l Hl) as (run & Hrun & <-). by apply Ha.
  - intros r l h Hl Hh. destruct (Hin r l h Hl Hh) as (run & o & Hrun & _ & Ho & ->). apply occurrence_in_run in Ho as (_ & _ & te & Hte & ->). exact (proj2 (Ha run Hrun) te Hte).
Qed.

(** ** The history in memory *)

Definition occurrence_position (o : ExecutionOccurrence) : Z * Z * str * str :=
  let i := from_ok {| epochMs := 0; leap := 0 |} (historyInstant (eo_occurredAt o)) in (epochMs i, leap i, eo_runId o, eo_executionId o).
Definition memory_order : ExecutionOccurrence → ExecutionOccurrence → Z := cmp_on occurrence_position position_order.

Lemma in_history_order_position a b : ascii (eo_runId a) → ascii (eo_executionId a) → ascii (eo_runId b) → ascii (eo_executionId b) →
  in_history_order a b → cmp_le memory_order a b.
Proof.
  intros A1 A2 B1 B2 (c & Hc & Hle). unfold compareHistoryOccurrences in Hc. apply bind_Ok_inv in Hc as (ia & Ha & Hc).
  apply bind_Ok_inv in Hc as (ib & Hb & [= <-]). unfold cmp_le, memory_order, cmp_on, occurrence_position. rewrite Ha, Hb.
  unfold position_order, cmp_then, cmp_on, js_or, cmp_sub. cbn [from_ok fst snd]. rewrite !byteOrder_ascii by done.
  unfold occurrence_order, cmp_then, cmp_on, js_or, compareHistoryInstants, js_or in Hle. cbn [fst snd] in Hle.
  destruct (Z.eqb_spec (epochMs ia - epochMs ib) 0); [|by rewrite (proj2 (Z.eqb_neq _ 0)) in Hle by done]. done.
Qed.

(** What a history row shows is the occurrence it was derived from. *)
Lemma shown_occurrence runner hid r h : (r, h) ∈ history_of sha256 p runner hid t →
  shown_row p runner hid (r, h) = oi_occurrence (hs_row h) ∧ occurrence_position (oi_occurrence (hs_row h)) = row_position (r, h) ∧
  eo_key (oi_occurrence (hs_row h)) = {| hk_projectId := p; hk_runnerName := runner; hk_historicalId := hid |} ∧
  ∃ run, run ∈ rs ∧ oi_occurrence (hs_row h) ∈ historyOccurrencesOf run.
Proof using Hidx Hfk.
  intros [Hin Hk]%whole_history_elem. apply row_is_occurrence in Hin as (run & o & Hrun & Hr & Ho & Eo & Hi & _); [|done..].
  apply occurrence_in_run in Ho as Hx. destruct Hx as (Hp & Hrun' & _). rewrite (ia_project _ _ _ _ Hidx run Hrun) in Hp.
  unfold row_of in Hk. rewrite !andb_true_iff, !str_eqb_eq in Hk. destruct Hk as [[_ Hn] Hh]. rewrite Eo in Hn, Hh |- *.
  assert (eo_key o = {| hk_projectId := p; hk_runnerName := runner; hk_historicalId := hid |}) as Hkey.
  { rewrite <- Hp, <- Hn, <- Hh. by destruct (eo_key o). }
  apply index_occurrence_Ok in Hi as (_ & Hinst & _). split_and!; [|..|done|by exists run].
  - unfold shown_row, occurrenceOf. cbn [fst snd]. rewrite Eo, <- Hkey, <- Hr, <- Hrun'. by destruct o.
  - unfold occurrence_position, row_position. cbn [fst snd]. rewrite Hinst, Eo, Hrun', Hr. done.
Qed.

Lemma history_has runner hid run o : run ∈ rs → o ∈ historyOccurrencesOf run →
  eo_key o = {| hk_projectId := p; hk_runnerName := runner; hk_historicalId := hid |} →
  ∃ h, (k_runId (pr_key run), h) ∈ history_of sha256 p runner hid t ∧ oi_occurrence (hs_row h) = o.
Proof using Hidx Hfk.
  intros Hrun Ho Hkey. destruct (ia_rows _ _ _ _ Hidx run Hrun) as (derived & Hd & El). apply derived_occurrences in Hd.
  destruct (Forall2_elem_l _ _ _ _ Hd Ho) as (row & Hrow & Hi). pose proof (index_occurrence_Ok _ _ Hi) as (E & _ & Hk).
  exists (history_row row). split; [|done]. apply whole_history_elem. split.
  - apply row_is_occurrence; [done..|]. exists run, o. split_and!; try done.
  - unfold row_of. cbn. rewrite E, Hk, Hkey. cbn. rewrite bool_decide_true, !str_eqb_refl by done. done.
Qed.

Context (b : ReadModelBuild) (Hb : assemble rs = Ok b) (Hproblems : problems b = []) (Htexts : Forall wf_run rs).

(** Nothing is left out of the model: its runs are those of the project. *)
Lemma model_runs : runs (model b) ≡ₚ rs.
Proof using Hidx Hb Hproblems Htexts.
  pose proof (proj1 (Forall_forall _ _) Htexts) as Hwf. apply NoDup_same.
  - rewrite runs_Permutation. pose proof (assemble_inv _ _ Hb) as (Ha & _). rewrite Ha.
    apply (NoDup_fmap_1 run_key_of). assert (run_key_of <$> mvalues (as_accepted (accept_runs rs)) = mkeys (as_accepted (accept_runs rs))) as ->.
    { unfold mvalues, mkeys. rewrite <- list_fmap_compose. apply list_fmap_ext. intros i [k run] Hi%list_elem_of_lookup_2. cbn.
      apply elem_mget in Hi; [|apply (ai_NoDup _ _ (accept_runs_inv rs))]. by apply accepted_sole in Hi as [-> _]. }
    apply (ai_NoDup _ _ (accept_runs_inv rs)).
  - eapply NoDup_fmap_1, (ia_distinct _ _ _ _ Hidx).
  - intros run. split; [by intros [? _]%(model_run_of _ _ _ Hb)|]. intros Hrun.
    destruct (accounted _ _ _ Hb Hrun) as (run' & Hrun' & Hk & _ & [Hin|(pr & Hpr & _)]); [|rewrite Hproblems in Hpr; by apply not_elem_of_nil in Hpr].
    assert (run' = run) as ->; [|done]. eapply (NoDup_image (λ run, k_runId (pr_key run))); [apply (ia_distinct _ _ _ _ Hidx)|done..|].
    destruct (Hwf run Hrun) as (W1 & W2 & _). destruct (Hwf run' Hrun') as (W3 & W4 & _). by apply runKey_inj in Hk as [_ ?].
Qed.

Lemma index_tells_history runner hid th : wf_str p → wf_str runner → wf_str hid → getTestHistory (model b) p runner hid = Ok th →
  shown_row p runner hid <$> history_of sha256 p runner hid t = th_occurrences th.
Proof using All.
  intros W1 W2 W3 Hth. unfold getTestHistory in Hth. apply bind_Ok_inv in Hth as (_ & _ & [= <-]). cbn [th_occurrences].
  destruct (history_exact rs b Hb Htexts p runner hid W1 W2 W3) as [Hperm Hsort]. revert Hperm Hsort.
  generalize (default [] (mget (history_ (model b)) (historyKey p runner hid))). intros l Hperm Hsort.
  pose proof (proj1 (Forall_forall _ _) Hascii) as Ha.
  pose proof (whole_history_strict p (historyKeyOf sha256 runner hid) runner hid t indexed_keyed) as Hstrict. change (whole_history _ _ _ _ t) with (history_of sha256 p runner hid t) in Hstrict.
  assert (∀ o, o ∈ l ↔ eo_key o = {| hk_projectId := p; hk_runnerName := runner; hk_historicalId := hid |} ∧ ∃ run, run ∈ rs ∧ o ∈ historyOccurrencesOf run) as Hl.
  { intros o. rewrite Hperm, elem_of_filter_b, bool_decide_eq_true, list_elem_of_bind.
    assert (∀ run, run ∈ runs (model b) ↔ run ∈ rs) as Hm by (intros run; by rewrite model_runs). naive_solver. }
  assert (StronglySorted (before_row occurrence_position position_order) (shown_row p runner hid <$> history_of sha256 p runner hid t)) as Hs1.
  { assert (∀ a, a ∈ history_of sha256 p runner hid t → occurrence_position (shown_row p runner hid a) = row_position a) as Hpos.
    { intros [r h] Hin. by destruct (shown_occurrence _ _ _ _ Hin) as (-> & -> & _). }
    revert Hstrict Hpos. generalize (history_of sha256 p runner hid t). induction 1 as [|a l' Hl' IH Hal]; intros Hpos; [constructor|]. csimpl.
    constructor; [apply IH; intros; apply Hpos; by right|]. apply Forall_forall. intros o (a' & -> & Ha')%list_elem_of_fmap.
    unfold before_row. rewrite !Hpos by (by left || by right). exact (proj1 (List.Forall_forall _ _) Hal a' (proj1 (list_elem_of_In _ _) Ha')). }
  apply (sorted_unique memory_order); [by intros x y; apply (strict_separates occurrence_position position_order)|..].
  - eapply sorted_impl; [|exact Hs1]. unfold before_row, cmp_le, memory_order, cmp_on. lia.
  - eapply sorted_in_impl; [|exact Hsort]. intros x y (_ & run & Hr & Hx)%Hl (_ & run' & Hr' & Hy)%Hl.
    apply occurrence_in_run in Hx as (_ & E1 & te & Hte & E2), Hy as (_ & E3 & te' & Hte' & E4).
    apply in_history_order_position; rewrite ?E1, ?E2, ?E3, ?E4;
      [exact (proj1 (Ha run Hr))|exact (proj2 (Ha run Hr) te Hte)|exact (proj1 (Ha run' Hr'))|exact (proj2 (Ha run' Hr') te' Hte')].
  - apply NoDup_same; [by eapply (strict_NoDup occurrence_position position_order)| |].
    + rewrite Hperm. apply NoDup_filter_b. pose proof (proj1 (Forall_forall _ _) Hruns) as Hwf.
      assert (∀ run, run ∈ runs (model b) → run ∈ rs) as Hm by (intros run; by rewrite model_runs). apply NoDup_bind.
      * intros x y o Hx%Hm Hy%Hm (_ & E1 & _)%occurrence_in_run (_ & E2 & _)%occurrence_in_run.
        eapply (NoDup_image (λ run, k_runId (pr_key run))); [apply (ia_distinct _ _ _ _ Hidx)|done..|congruence].
      * intros x Hx%Hm. by eapply NoDup_fmap_1, occurrences_distinct, Hwf.
      * rewrite model_runs. eapply NoDup_fmap_1, (ia_distinct _ _ _ _ Hidx).
    + intros o. rewrite Hl, list_elem_of_fmap. split.
      * intros ([r h] & -> & Hin). destruct (shown_occurrence _ _ _ _ Hin) as (-> & _ & ? & ?). done.
      * intros (Hkey & run & Hrun & Ho). destruct (history_has _ _ _ _ Hrun Ho Hkey) as (h & Hin & <-). exists (k_runId (pr_key run), h). split; [|done].
        by destruct (shown_occurrence _ _ _ _ Hin) as (-> & _).
Qed.
End index.

(** ** The history of a project at rest, asked of the database *)

(** The protocol's identifiers are not empty. *)
Definition named_run (run : ProjectedRun) : Prop :=
  k_runId (pr_key run) ≠ [] ∧ ∀ te, te ∈ pr_executions run → te_executionId te ≠ [].

Lemma row_cursor sha256 p rs t runner hid a : indexed_as sha256 p rs t → referential t → Forall named_run rs →
  a ∈ history_of sha256 p runner hid t → checkCursor (Some (cursor_of a)) = Ok (Some (cursor_of a)).
Proof.
  destruct a as [r h]. intros Hidx Hfk Hn Hin. pose proof (proj1 (Forall_forall _ _) Hn) as Hnamed.
  apply whole_history_elem in Hin as [Hin _]. apply (row_is_occurrence _ _ _ _ Hidx Hfk) in Hin as (run & o & Hrun & <- & Ho & Eo & Hi & _).
  destruct (Hnamed run Hrun) as [Hr Hte]. apply occurrence_in_run in Ho as (_ & _ & te & Hin & Ee). specialize (Hte te Hin).
  apply index_occurrence_Ok in Hi as (_ & Hi & _). apply historyInstant_Ok in Hi as (ts & _ & Hw & Hv & _ & Ep).
  pose proof (position_bounds ts Hw Hv) as [_ Hl]. rewrite <- Ep in Hl. cbn in Hl.
  unfold checkCursor, cursor_of. cbn [hc_occurredAt hc_leap hc_runId hc_executionId fst snd].
  rewrite (proj2 (orb_false_iff _ _)) by (split; apply Z.ltb_ge; lia). rewrite Eo, Ee.
  destruct (str_eqb _ []) eqn:E1; [by apply str_eqb_eq in E1|]. destruct (str_eqb (te_executionId te) []) eqn:E2; [by apply str_eqb_eq in E2|]. done.
Qed.

Section at_rest.
Context {SV : Server} {SL : ServerLaws} (sha256 : bytes → bytes) (p : str) (rs : list ProjectedRun) (b : ReadModelBuild).

(** The runs archived for the project are [rs], whatever others do elsewhere, and each is indexed. *)
Definition at_rest (t : Tables) : Prop := ∀ s, others t s → indexed_as sha256 p rs s ∧ referential s ∧ covered p s.

(** Texts are UTF-16, identifiers the protocol's. *)
Record proper_runs : Prop := {
  proper_wf : Forall run_wf rs;
  proper_texts : Forall wf_run rs;
  proper_ascii : Forall ascii_run rs;
  proper_named : Forall named_run rs;
}.

Definition first_page (runner hid : str) (limit : option number) : HistoryRequest :=
  {| hq_projectId := p; hq_runnerName := runner; hq_historicalId := hid; hq_limit := limit; hq_after := None |}.

(** The row of an occurrence. *)
Definition row_for (o : ExecutionOccurrence) : option (str * HistoryRow) :=
  match index_occurrence sha256 o with Ok row => Some (eo_runId o, history_row row) | Throw _ => None end.
Lemma row_back t runner hid a : indexed_as sha256 p rs t → referential t → a ∈ history_of sha256 p runner hid t →
  row_for (shown_row p runner hid a) = Some a.
Proof.
  destruct a as [r h]. intros Hidx Hfk Hin. destruct (shown_occurrence _ _ _ _ Hidx Hfk _ _ _ _ Hin) as (-> & _).
  apply whole_history_elem in Hin as [Hin _]. apply (row_is_occurrence _ _ _ _ Hidx Hfk) in Hin as (run & o & _ & <- & Ho & -> & Hi & Hv).
  apply occurrence_in_run in Ho as (_ & Hr & _). unfold row_for. rewrite Hi, Hr. destruct h as [v row]. cbn in *. by subst v.
Qed.

Section facts.
Context (Hproper : proper_runs) (Hb : assemble rs = Ok b) (Hproblems : problems b = []).
Context (runner hid : str) (Wp : wf_str p) (Wr : wf_str runner) (Wh : wf_str hid).
Context (th : TestHistory) (Hth : getTestHistory (model b) p runner hid = Ok th) (t : Tables) (Hrest : at_rest t).

Lemma rest_tells s : others t s → shown_row p runner hid <$> history_of sha256 p runner hid s = th_occurrences th.
Proof using All.
  intros (Hi & Hr & _)%Hrest. destruct Hproper. by eapply index_tells_history.
Qed.
Lemma rest_rows s : others t s → history_of sha256 p runner hid s = omap row_for (th_occurrences th).
Proof using All.
  intros Ho. rewrite <- (rest_tells s Ho). apply Hrest in Ho as (Hi & Hr & _).
  assert (∀ a, a ∈ history_of sha256 p runner hid s → row_for (shown_row p runner hid a) = Some a) as Hb' by (intros; by eapply row_back).
  revert Hb'. generalize (history_of sha256 p runner hid s). induction l as [|a l IH]; intros Hl; [done|]. csimpl.
  rewrite Hl by by left. f_equal. apply IH. intros. apply Hl. by right.
Qed.
Lemma rest_keyed s : others t s → keyed p s.
Proof using All. intros (Hi & Hr & _)%Hrest. destruct Hproper. by eapply indexed_keyed. Qed.
Lemma rest_project : check_project p = Ok tt.
Proof using Hth.
  unfold getTestHistory in Hth. apply bind_Ok_inv in Hth as ([] & Hc & _). unfold check_project. by rewrite Hc.
Qed.

(** A step of the reading: a page of the same rows, and a request whose cursor is accepted. *)
Definition asks_on (limit : Z) (request : HistoryRequest) : Prop :=
  asks p runner hid limit request ∧ checkCursor (hq_after request) = Ok (hq_after request).
Record restful (s : Tables) : Prop := {
  restful_keyed : keyed p s;
  restful_covered : covered p s;
  restful_cursor a : a ∈ history_of sha256 p runner hid s → checkCursor (Some (cursor_of a)) = Ok (Some (cursor_of a));
}.

Lemma rest_restful s : others t s → restful s.
Proof using All.
  intros Ho. pose proof (Hrest s Ho) as (Hi & Hr & Hc). split; [by apply rest_keyed|done|]. intros a. destruct Hproper. by eapply row_cursor.
Qed.
Lemma rest_pages_Ok limit request w items next w' : 1 <= limit →
  asks_on limit request → (∀ s, others (db_tables w) s → restful s) → history_pages sha256 request w = (Ok (items, next), w') →
  let page s := page_of limit (rows_after row_position position_order (history_of sha256 p runner hid) (cursor_position <$> hq_after request) s) in
  ∃ s, others (db_tables w) s ∧ others s (db_tables w') ∧ covered p s ∧ items = shown_row p runner hid <$> (page s).1 ∧
    match next with
    | None => (page s).2 = None
    | Some r' => asks_on limit r' ∧ ∃ a, (page s).2 = Some a ∧ cursor_position <$> hq_after r' = Some (row_position a)
    end.
Proof using SL.
  intros Hl [Ha _] Hk E. destruct (history_pages_answer _ _ _ _ _ _ _ _ _ _ Ha (λ s Hs, restful_keyed _ (Hk s Hs)) E) as (s & H1 & H2 & H3 & H4 & Hn).
  exists s. split_and!; try done. destruct next as [r'|]; [|done]. destruct Hn as (Hr' & a & Hp & Ea). split.
  - split; [done|]. rewrite Ea. apply (Hk s H1). revert Hp. unfold rows_after.
    destruct (page_of_cases limit (List.filter (follows row_position position_order (cursor_position <$> hq_after request)) (history_of sha256 p runner hid s)) Hl)
      as [->|(r0 & l1 & l2 & -> & El & _)]; [done|]. cbn. intros [= ->].
    apply (elem_of_filter_b (follows row_position position_order (cursor_position <$> hq_after request))). rewrite El. apply elem_of_app. left. apply elem_of_app. right. by left.
  - exists a. split; [done|]. by rewrite Ea.
Qed.

Lemma rest_reads limit r fuel w : db_tables w = t → checkLimit limit DEFAULT_PAGE_SIZE MAX_PAGE_SIZE = Ok r → (length (th_occurrences th) < fuel)%nat →
  match (read_pages fuel (history_pages sha256) (first_page runner hid limit) w).1 with
  | Ok l => l = th_occurrences th
  | Throw e => ∃ d, e = DbFailed d
  end.
Proof using All.
  intros Ht Hl Hfuel. pose proof (page_limit _ _ Hl) as Hlim.
  set (H := omap row_for (th_occurrences th)). assert (StronglySorted (before_row row_position position_order) H) as HH.
  { unfold H. rewrite <- (rest_rows t) by reflexivity. apply whole_history_strict, rest_keyed. reflexivity. }
  assert (∀ s, others (db_tables w) s → restful s ∧ history_of sha256 p runner hid s = H) as Hall.
  { intros s. rewrite Ht. intros Ho. split; [by apply rest_restful|by apply rest_rows]. }
  assert (asks_on r (first_page runner hid limit)) as Hfirst by done.
  pose proof (read_pages_ends (history_pages sha256) row_position position_order (history_of sha256 p runner hid) (shown_row p runner hid)
    (λ r, cursor_position <$> hq_after r) r (asks_on r) restful (covered p) Hlim (λ s Hs, whole_history_strict _ _ _ _ s (restful_keyed s Hs))
    (λ r' w' items next w'', rest_pages_Ok r r' w' items next w'' Hlim) (λ e, ∃ d, e = DbFailed d) fuel (first_page runner hid limit) w H) as Hends.
  pose proof (read_pages_whole (history_pages sha256) row_position position_order (history_of sha256 p runner hid) (shown_row p runner hid)
    (λ r, cursor_position <$> hq_after r) r (asks_on r) restful (covered p) Hlim (λ s Hs, whole_history_strict _ _ _ _ s (restful_keyed s Hs))
    (λ r' w' items next w'', rest_pages_Ok r r' w' items next w'' Hlim) fuel (first_page runner hid limit) w) as Hwhole.
  destruct (read_pages fuel _ _ w) as [[l|e] w'] eqn:E; cbn [fst] in *.
  - destruct (Hwhole l w' eq_refl Hfirst eq_refl (λ s Hs, proj1 (Hall s Hs))) as (states & found & Hw).
    rewrite <- (rest_tells t) by reflexivity. rewrite (rest_rows t) by reflexivity. fold H.
    eapply (read_whole_still row_position position_order); [exact Hw| |exact HH]. intros s Hs. apply Hall.
    destruct (rw_states _ _ _ _ _ _ _ _ _ Hw) as (_ & Hturn & _). by eapply in_turn_all.
  - apply Hends; [|done|done|].
    + intros r0 w0 e0 w1 [Ha Hc] Hk E0. eapply (history_pages_fails sha256 p runner hid r); [exact Ha|exact rest_project|exact Hc| |exact E0].
      intros s Hs. exact (restful_covered s (proj1 (Hk s Hs))).
    + enough (length H = length (th_occurrences th)) as El by (eapply Nat.le_lt_trans; [apply List.filter_length_le|by rewrite El]).
      unfold H. rewrite <- (rest_rows t), <- (rest_tells t) by reflexivity. by rewrite length_fmap.
Qed.

(** The counts are those of the history. *)
Lemma rest_counts w : db_tables w = t →
  match (getFlakinessSummary sha256 p runner hid w).1 with
  | Ok f => ∃ g, getFlakiness (model b) p runner hid = Ok g ∧ fs_projectId f = p ∧ fs_runnerName f = runner ∧ fs_historicalId f = hid ∧
      fs_totalOccurrences f = totalOccurrences g ∧ fs_flakyOccurrences f = flakyOccurrences g ∧ fs_everFlaky f = everFlaky g
  | Throw e => ∃ d, e = DbFailed d
  end.
Proof using All.
  intros Ht. destruct (getFlakinessSummary sha256 p runner hid w) as [[f|e] w'] eqn:E; cbn [fst]; unfold getFlakinessSummary in E; rewrite rest_project in E.
  - apply bind_Ok in E as ([] & w1 & [= <-] & E). apply answering_Ok in E as (s & Ho & _ & _ & ->). rewrite Ht in Ho.
    unfold getFlakiness. rewrite Hth. eexists. split; [reflexivity|]. cbn. rewrite <- (rest_tells s Ho), length_fmap.
    change (history_rows _ _ _ _ _ s) with (history_of sha256 p runner hid s).
    assert (length (List.filter eo_flaky (shown_row p runner hid <$> history_of sha256 p runner hid s)) =
            length (List.filter (λ r : str * HistoryRow, eo_flaky (oi_occurrence (hs_row r.2))) (history_of sha256 p runner hid s))) as El.
    { generalize (history_of sha256 p runner hid s). induction l as [|a l IH]; [done|]. csimpl. destruct (eo_flaky _); csimpl; by rewrite IH. }
    unfold count. rewrite El. split_and!; try done. by destruct (length (List.filter (λ r : str * HistoryRow, _) _)).
  - unfold mbind, io_mbind, thrown in E. cbv beta iota in E. eapply answering_fails; [|exact E]. intros s. rewrite Ht. intros Ho. apply (Hrest s Ho).
Qed.
End facts.

(** C11 For a project at rest, the stored history is the read model's. When a project's archived runs are some projected runs, all indexed, and
    nothing is left out of the model assembled from them, then reading a test's history page by page from the database, with any page size, gives
    exactly the occurrences of [getTestHistory] in its order, and [getFlakinessSummary] gives the counts of [getFlakiness]; with more fuel than
    there are occurrences nothing else can come of it than a failure of the database itself. *)
Theorem stored_history_is_the_read_models runner hid limit r th fuel w :
  proper_runs → assemble rs = Ok b → problems b = [] → wf_str p → wf_str runner → wf_str hid →
  at_rest (db_tables w) → getTestHistory (model b) p runner hid = Ok th →
  checkLimit limit DEFAULT_PAGE_SIZE MAX_PAGE_SIZE = Ok r → (length (th_occurrences th) < fuel)%nat →
  match (read_pages fuel (history_pages sha256) (first_page runner hid limit) w).1 with
  | Ok l => l = th_occurrences th
  | Throw e => ∃ d, e = DbFailed d
  end ∧
  match (getFlakinessSummary sha256 p runner hid w).1 with
  | Ok f => ∃ g, getFlakiness (model b) p runner hid = Ok g ∧ fs_projectId f = p ∧ fs_runnerName f = runner ∧ fs_historicalId f = hid ∧
      fs_totalOccurrences f = totalOccurrences g ∧ fs_flakyOccurrences f = flakyOccurrences g ∧ fs_everFlaky f = everFlaky g
  | Throw e => ∃ d, e = DbFailed d
  end.
Proof.
  intros Hp Hb Hpr W1 W2 W3 Hrest Hth Hl Hfuel. split.
  - by apply (rest_reads Hp Hb Hpr runner hid W1 W2 W3 th Hth (db_tables w) Hrest limit r).
  - by apply (rest_counts Hp Hb Hpr runner hid W1 W2 W3 th Hth (db_tables w) Hrest).
Qed.
End at_rest.

(** ** Two runs, indexed *)

Definition stored_runs : list ProjectedRun := [renamed (js "r1") (js "d1") demo_projected; renamed (js "r2") (js "d2") demo_projected].
Definition stored_build : ReadModelBuild := from_ok no_build (assemble stored_runs).
Definition stored_history : TestHistory :=
  from_ok {| th_key := demo_key; th_occurrences := [] |} (getTestHistory (model stored_build) (js "p") (js "playwright") (js "h1")).

Definition stored_table {A} (f : Z → ProjectedRun → A) : gmap Key A :=
  list_to_map (imap (λ i run, ((js "p", k_runId (pr_key run)), f (Z.of_nat i + 1) run)) stored_runs).
Definition no_index : DerivedQueryIndex :=
  {| dq_run := {| ri_projectId := []; ri_runId := []; ri_verdict := sm_verdict no_summary; ri_complete := false; ri_closed := false; ri_ignoredEventCount := 0;
       ri_duplicateEventCount := 0; ri_sessionCount := 0; ri_executionCount := 0; ri_scopeFailureCount := 0; ri_attachmentCount := 0 |};
     dq_occurrences := [] |}.
Definition stored_index (run : ProjectedRun) : DerivedQueryIndex := from_ok no_index (deriveQueryIndex kept_digest run).
Definition stored_run_row (sequence : Z) : RunRow :=
  {| rr_ingestion_sequence := sequence; rr_ingested_at := 0; rr_source_locator := js "run"; rr_content_fingerprint := js "fp";
     rr_fingerprint_version := 1; rr_protocol_versions := []; rr_source_line_count := 0; rr_source_attachments_verified := true;
     rr_validation_summary := no_summary |}.
Definition stored_tables : Tables :=
  {| qe_runs := stored_table (λ i _, stored_run_row i); qe_run_source_lines := ∅; qe_run_retention := ∅; qe_blobs := ∅; qe_run_blobs := ∅;
     qe_run_query_index := stored_table (λ _ run, {| ix_index_version := QUERY_INDEX_VERSION; ix_source_fingerprint := js "fp"; ix_run := dq_run (stored_index run) |});
     qe_history_occurrences := stored_table (λ _ run, history_row <$> dq_occurrences (stored_index run)) |}.

Lemma stored_table_inv {A} (f : Z → ProjectedRun → A) k a : stored_table f !! k = Some a →
  ∃ run, run ∈ stored_runs ∧ k = (js "p", k_runId (pr_key run)).
Proof.
  intros H%elem_of_list_to_map_2. cbn in H. apply elem_of_cons in H as [[= -> _]|[[= -> _]|[]%not_elem_of_nil]%elem_of_cons].
  - exists (renamed (js "r1") (js "d1") demo_projected). split; [by left|done].
  - exists (renamed (js "r2") (js "d2") demo_projected). split; [by right; left|done].
Qed.
Lemma stored_run_is run : run ∈ stored_runs →
  run = renamed (js "r1") (js "d1") demo_projected ∨ run = renamed (js "r2") (js "d2") demo_projected.
Proof. intros [->|[->|[]%not_elem_of_nil]%elem_of_cons]%elem_of_cons; eauto. Qed.

Lemma stored_indexed : indexed_as kept_digest (js "p") stored_runs stored_tables.
Proof.
  split.
  - by intros run [-> | ->]%stored_run_is.
  - apply (bool_decide_eq_true_1 _). vm_compute. reflexivity.
  - intros r [x (run & Hrun & [= ->])%stored_table_inv]. eauto.
  - intros run [-> | ->]%stored_run_is; eexists; (split; [vm_compute; reflexivity|vm_compute; reflexivity]).
Qed.
Lemma stored_referential : referential stored_tables.
Proof.
  intros k Hk. assert (∀ A (f : Z → ProjectedRun → A), stored_table f !! k = None) as Hn; [|split_and!; apply lookup_empty || apply Hn].
  intros A f. destruct (stored_table f !! k) eqn:E; [|done]. exfalso. apply stored_table_inv in E as (run & [-> | ->]%stored_run_is & ->); by vm_compute in Hk.
Qed.
Lemma stored_covered : covered (js "p") stored_tables.
Proof. intros r [x (run & [-> | ->]%stored_run_is & [= ->])%stored_table_inv]; vm_compute; reflexivity. Qed.

(** The other writer of the demo touches the catalog only. *)
Lemma demo_others fate t s : others (SV := demo_server fate) t s →
  qe_runs s = qe_runs t ∧ qe_run_source_lines s = qe_run_source_lines t ∧ qe_run_retention s = qe_run_retention t ∧ qe_run_blobs s = qe_run_blobs t ∧
  qe_run_query_index s = qe_run_query_index t ∧ qe_history_occurrences s = qe_history_occurrences t.
Proof.
  unfold others. induction 1 as [|t1 t2 t3 (n & leases & ls & ->) _ IH]; [done|]. revert IH. unfold sv_others. cbn [demo_server]. unfold other_writer.
  by destruct (_ && _).
Qed.
Lemma stored_at_rest fate : at_rest (SV := demo_server fate) kept_digest (js "p") stored_runs stored_tables.
Proof.
  intros s (E1 & E2 & E3 & E4 & E5 & E6)%demo_others. split_and!.
  - destruct stored_indexed as [H1 H2 H3 H4]. split; try done; [by rewrite E1|by rewrite E6].
  - intros k. rewrite E1, E2, E3, E4, E5, E6. apply stored_referential.
  - pose proof stored_covered as Hc. unfold covered, index_current in Hc |- *. by rewrite E1, E5.
Qed.
Definition ascii_run_b (run : ProjectedRun) : bool :=
  forallb (forallb (λ u, u <? 128)%N) (k_runId (pr_key run) :: (te_executionId <$> pr_executions run)).
Definition named_run_b (run : ProjectedRun) : bool :=
  forallb (λ i, negb (str_eqb i [])) (k_runId (pr_key run) :: (te_executionId <$> pr_executions run)).
Lemma ascii_run_of run : ascii_run_b run = true → ascii_run run.
Proof.
  unfold ascii_run_b. rewrite forallb_elem. intros H. assert (∀ i, i ∈ k_runId (pr_key run) :: (te_executionId <$> pr_executions run) → ascii i) as Hi.
  { intros i Hi. specialize (H i Hi). rewrite forallb_elem in H. apply Forall_forall. intros u Hu. by apply N.ltb_lt, H. }
  split; [apply Hi; by left|]. intros te Hte. apply Hi. right. apply list_elem_of_fmap. eauto.
Qed.
Lemma named_run_of run : named_run_b run = true → named_run run.
Proof.
  unfold named_run_b. rewrite forallb_elem. intros H. assert (∀ i, i ∈ k_runId (pr_key run) :: (te_executionId <$> pr_executions run) → i ≠ []) as Hi.
  { intros i Hi ->. by specialize (H [] Hi). }
  split; [apply Hi; by left|]. intros te Hte. apply Hi. right. apply list_elem_of_fmap. eauto.
Qed.
Lemma stored_proper : proper_runs stored_runs.
Proof.
  assert (∀ (P : ProjectedRun → Prop), P (renamed (js "r1") (js "d1") demo_projected) → P (renamed (js "r2") (js "d2") demo_projected) → Forall P stored_runs) as Hall.
  { intros P H1 H2. by repeat constructor. }
  split; apply Hall; try (by apply renamed_wf, demo_projected_wf).
  1,2: apply wf_run_of; vm_compute; reflexivity.
  1,2: apply ascii_run_of; vm_compute; reflexivity.
  1,2: apply named_run_of; vm_compute; reflexivity.
Qed.

Lemma stored_model : assemble stored_runs = Ok stored_build ∧ problems stored_build = [] ∧
  getTestHistory (model stored_build) (js "p") (js "playwright") (js "h1") = Ok stored_history.
Proof. split_and!; [apply from_ok_spec; by vm_compute|by vm_compute|apply from_ok_spec; by vm_compute]. Qed.

Definition stored_reading (fate : nat → Fate) (limit : Z) : res StoreThrown (list ExecutionOccurrence) * Db :=
  read_pages 3 (history_pages (SV := demo_server fate) kept_digest) (first_page (js "p") (js "playwright") (js "h1") (Some (Int limit))) (fresh_db stored_tables).
Definition stored_listing (fate : nat → Fate) (limit : Z) : res StoreThrown (list RunSummary) * Db :=
  read_pages 3 (run_pages (SV := demo_server fate)) {| lq_projectId := js "p"; lq_limit := Some (Int limit); lq_beforeIngestionSequence := None |} (fresh_db stored_tables).

(** A run a page, both on one, and a connection lost on the way. *)
Example stored_answers :
  (match (stored_reading (λ _, Answered) 1).1 with Ok l => eo_runId <$> l | Throw _ => [] end) = [js "r1"; js "r2"] ∧
  (match (stored_listing (λ _, Answered) 1).1 with Ok l => rs_runId <$> l | Throw _ => [] end) = [js "r2"; js "r1"] ∧
  is_ok (stored_reading (λ _, Answered) 2).1 = true ∧ (stored_reading (lost_at 5) 1).1 = Throw (DbFailed connection_lost).
Proof. vm_compute. repeat split. Qed.

Lemma stored_history_is_the_read_models_witness :
  length (th_occurrences stored_history) = 2%nat ∧
  match (stored_reading (λ _, Answered) 1).1 with Ok l => l = th_occurrences stored_history | Throw e => ∃ d, e = DbFailed d end ∧
  match (stored_reading (lost_at 5) 1).1 with Ok l => l = th_occurrences stored_history | Throw e => ∃ d, e = DbFailed d end.
Proof.
  destruct stored_model as (Hb & Hp & Hth). assert (length (th_occurrences stored_history) = 2%nat) as Hl by (vm_compute; reflexivity).
  assert (∀ fate, match (stored_reading fate 1).1 with Ok l => l = th_occurrences stored_history | Throw e => ∃ d, e = DbFailed d end) as Hall.
  { intros fate.
    refine (proj1 (stored_history_is_the_read_models (SV := demo_server fate) (SL := demo_server_laws fate) kept_digest (js "p") stored_runs stored_build
      (js "playwright") (js "h1") (Some (Int 1)) 1 stored_history 3 (fresh_db stored_tables) stored_proper Hb Hp _ _ _ (stored_at_rest fate) Hth eq_refl _));
      [apply wf_str_of; vm_compute; reflexivity..|rewrite Hl; lia]. }
  split; [exact Hl|]. split; [exact (Hall (λ _, Answered))|exact (Hall (lost_at 5))].
Defined.

Lemma stored_sequenced fate s : others (SV := demo_server fate) stored_tables s → keyed (js "p") s ∧ sequenced (js "p") s.
Proof.
  intros Ho. split.
  - destruct (stored_at_rest fate s Ho) as (Hi & Hr & _). destruct stored_proper. by eapply indexed_keyed.
  - apply demo_others in Ho as (E & _). intros r r' row row'. rewrite E.
    intros H1 H2. destruct (stored_table_inv _ _ _ H1) as (run & [-> | ->]%stored_run_is & [= ->]), (stored_table_inv _ _ _ H2) as (run' & [-> | ->]%stored_run_is & [= ->]);
      vm_compute in H1, H2; by simplify_eq.
Qed.

Lemma paging_misses_nothing_witness : ∃ l w' states found,
  stored_reading (λ _, Answered) 1 = (Ok l, w') ∧ length l = 2%nat ∧
  read_whole row_position position_order (history_of kept_digest (js "p") (js "playwright") (js "h1")) (shown_row (js "p") (js "playwright") (js "h1"))
    (covered (js "p")) (SV := demo_server (λ _, Answered)) stored_tables l states found.
Proof.
  assert (is_ok (stored_reading (λ _, Answered) 1).1 = true) as Hok by (vm_compute; reflexivity).
  destruct (is_ok_inv _ Hok) as (l & w' & E). exists l, w'.
  pose proof (paging_misses_nothing (SV := demo_server (λ _, Answered)) (SL := demo_server_laws _) kept_digest (js "p") (js "playwright") (js "h1") (Some (Int 1)) 3
    (fresh_db stored_tables) 1 w' eq_refl (stored_sequenced (λ _, Answered))) as [Hread _].
  specialize (Hread l E). destruct Hread as (states & found & Hw).
  exists states, found. split; [exact E|]. split; [|exact Hw].
  assert ((match (stored_reading (λ _, Answered) 1).1 with Ok l => length l | Throw _ => 0%nat end) = 2%nat) as Hlen by (vm_compute; reflexivity).
  rewrite E in Hlen. exact Hlen.
Defined.
